(* ===== verification/_CoqProject ===== *)
-Q . S2P
Prelude.v
Cursor.v
Util.v
Crc.v
Filter.v
Text.v
Utf8.v
Dsl.v
Dictionary.v
FramedLog.v
Wal.v
SourceFile.v
SourceCodec.v
Sources.v
Index.v
Phrase.v
Clean.v
Automaton.v
AliasWords.v
Analyze.v
Normalize.v
Fingerprint.v
Builder.v
Compile.v
Plan.v
Extract.v
View.v
Predicate.v
Ownership.v
Tags.v
Store.v
Collect.v
Segment.v
SegMatch.v
Lifecycle.v
Merge.v
Titles.v
Snapshot.v
Meaning.v
Recompile.v
Engine.v
Compaction.v
Ingest.v
Open.v
EngineLogic.v
Documents.v
Durable.v
Replay.v
Layout.v
Housekeeping.v
Writes.v
Batches.v
Restart.v
Serving.v
Matching.v
Scenario.v
Contract.v
