(* ===== verification/Prelude.v ===== *)
(** * Reverse Rusty: a verification development

    Reverse Rusty is a reverse search engine: it stores queries and, for a title,
    returns the stored queries that match.  This library models the engine under
    [src/engine/src] in Rocq and proves the properties its correctness rests on.
    The central promise of the program is that it has no false negatives: a stored
    query that matches a title is never missed, whatever lane it is stored under,
    however often its segment was compacted, and whatever the accelerators
    (signatures, Bloom filters, masks, tag summaries, shared bodies) leave out.

    ** The program's parts and where they are modelled

    Text to features.
    - [Text]: characters, strings and UTF-8.
    - [Dsl] ([dsl.rs], [error.rs]): the query parser with its limits.
    - [Dictionary] ([dict.rs]): interned features, frequencies, the 64-bit mask,
      synthetic ids, the fingerprint bytes.
    - [Clean], [Automaton], [AliasWords], [Normalize], [Builder], [Fingerprint]
      ([normalize.rs], [normalize/core.rs], [normalize/core/*.rs],
      [normalize/builder.rs], [normalize/fingerprint.rs]): cleaning, the phrase
      automata, multi-word aliases, the emission pipeline, the builder.
    - [Analyze] ([normalize/core/features.rs], [normalize/core/phrase.rs]): from a
      text to ids; [Titles]: the views of a title that the matcher reads.
    - [Phrase] ([normalize.rs], [normalize/core/phrase.rs]): phrase graphs and the
      two searches for a phrase in a title.
    Compiled queries.
    - [Compile], [Extract], [Plan] ([compile.rs], [compile/extract.rs],
      [compile/plan.rs]): the integer form of a query, its meaning, its canonical
      form, the signatures it is stored under.
    - [View], [Predicate], [Store] ([exact.rs], [exact/predicate.rs],
      [exact/store.rs], [exact/store/*.rs]): title views, the predicate programs
      and their validator and evaluator, the column store and exact verification.
    - [Tags] ([tagdict.rs] and the tag functions of [segment/ingest.rs]): the tag
      dictionary and request filters.
    Segments.
    - [Util], [Filter], [Index] ([util.rs], [filter.rs], [index.rs]): signatures,
      the Bloom filter, the candidate index.
    - [Segment], [SegMatch], [Lifecycle] ([segment/seg.rs], [segment/seg/*.rs],
      [segment/tag_summary.rs], [segment/match_types.rs]): building a segment,
      matching against it, the histories it can have.
    - [Merge] ([segment/merge.rs]): the three compaction merges.
    - [Ownership] ([ownership.rs]): placement in a cluster and unique emission.
    - [Collect] ([collect.rs], [collect/top_k.rs], [result.rs],
      [segment/match_types.rs]): the sinks a match delivers to, deadlines.
    - [Snapshot] ([segment/snapshot/view.rs]): one title against all the segments.
    Durability.
    - [Crc] ([storage/format.rs], the checksum), [Utf8] (encoding to bytes and
      [str::from_utf8]).
    - [FramedLog] ([framed_log.rs], [framed_log/*.rs]): an append-only file of
      checksummed frames, its recovery and its repair of a torn tail.
    - [Wal] ([wal.rs], [wal/*.rs]): the write-ahead log, its record formats over
      all versions, and the histories of a log that meets failing writes.
    - [SourceFile], [SourceCodec], [Sources] ([storage/sources.rs],
      [storage/sources/*.rs]): the sidecar file of the stored queries' texts and
      tags, its checks at open, and the store in its resident and lazy modes.
    The engine.
    - [Engine] ([segment.rs], [segment/persistence.rs], [segment/persistence/*.rs]):
      the engine's state, its data directory, sealing, staging and committing the
      sources and the manifest, the checkpoint and the reset of the log.
    - [Compaction] ([segment/compaction.rs]): flush, the merge policy, merges with
      their rollback, re-sealing.
    - [Ingest] ([segment/ingest.rs], [segment/ingest/*.rs]): inserts, upserts,
      deletes, batches, the write path of a cluster shard.
    - [Open] ([segment/lifecycle/construct.rs], [segment/lifecycle/recovery.rs],
      [segment/lifecycle/recovery/open.rs]): the open of a directory, the replay.
    - [Matching] ([segment/matching.rs]): one title against an engine.
    Reasoning about the engine.
    - [Meaning], [Recompile]: what a query compiled once means under every later
      dictionary, and that recovery accepts what was accepted.
    - [EngineLogic]: weakest preconditions for engine operations.
    - [Documents], [Durable], [Replay], [Layout]: the documents that segments, an
      engine, a disk and a log stand for.
    - [Housekeeping], [Writes], [Batches], [Restart]: every operation against these.
    - [Serving], [Scenario], [Contract]: histories of an engine, the specification
      they refine, one history evaluated, and the theorems.
    [Prelude] and [Cursor] hold what the components share.

    ** Correspondence

    Unsigned integers are values of [N] and every wrap-around the source performs
    is written out at its width, as a release build performs it ([wrap],
    [sat_add], [checked_add]); [i64] is [Z].  A [Vec] is a list, an index a [nat]
    ([usize]); reading out of range is [None], so a theorem that gives [Some] also
    says the code does not panic.  An early return is the left side of a sum
    ([let?]); the decoders over a word buffer run in the cursor monad ([let!]).  A
    hash map is a [gmap]; where the source iterates over one the theorem holds for
    every order.  [sort_unstable] followed by [dedup] is [sort_dedup].  Traits are
    classes: [MatchSink], [MatchCollector], [EmissionPolicy], [DeadlineCheck].

    An operation on the engine is a function on a [World] ([Eng], [let&]): the
    engine, the disk and a list of outcomes that the coming disk steps will have.
    A step past the end of the list succeeds.  The theorems hold for every list, so
    the disk may fail at any step and as often as it likes; an engine killed in the
    middle of an operation leaves the directory of one whose remaining steps all
    failed.  An open has such steps too: publishing the manifest again, each
    segment file and the sidecar may fail, the log is read and repaired without a
    fault.  An open that has to skip a segment gives an engine that reports an
    incomplete recovery; a history ([Serving.history]) may contain any number of
    such opens and of opens that failed ([Serving.tried]), but no request to an
    engine with segments missing.  What was written is read back: data lost from a
    cache of the operating system is not modelled.  A file of a segment stands for
    the segment it was written from.

    Two crates are parameters: roaring ([Roaring], [RoaringLaws] in [Index]) and
    daachorse ([Daachorse], [DaachorseLaws] in [Automaton]).  The laws state the
    crates' documented behaviour, and both have a list instance that satisfies
    them, at which the witnesses run.  [Analyzer] is the interface of the
    normalizer towards compilation; [Normalize] gives its instance.

    ** What the theorems show

    - The engine.  Over every history of requests, batches, disk failures and
      restarts the engine is a list of documents: its replies are those of a run of
      the specification, and a title with a tag filter is answered with the
      documents of that run whose query text holds of the title
      ([Contract.engine_refines_specification]).  Acknowledged writes survive a
      restart ([Contract.acknowledged_survive_restart]), a batch is taken whole or
      not at all ([Contract.batch_all_or_nothing]), requests and the open return
      ([Contract.requests_return], [Contract.restart_returns], which also says what
      an open on a failing disk gives), every reachable engine is well formed ([Contract.reachable_well_formed]) and a restart brings
      the writes back ([Contract.restart_restores_writes]).  A write that was
      turned down may come back at a restart, when its record had reached the log;
      the specification says so, and [Contract.half_recovered_upsert] is a history
      in which an upsert does so by half.
      [Contract.skipped_segment_misdirects] evaluates an open that skips a segment
      and replays a positional delete onto the wrong one.
    - Segments.  A segment built by any history of additions, deletions,
      dictionary growth and sealing answers a title with the stored queries that
      match it ([Lifecycle.segment_match_refines]), so does a snapshot of many
      segments with a reused scratch ([Snapshot.snapshot_match_exact]), and merges
      keep the answers ([Merge.compaction_preserves_answers],
      [Merge.reanchoring_keeps_visible]).
    - No false negatives of the accelerators: the signature cover, the Bloom
      filter, the shared bodies, the pure-anchor shortcut, the tag filter.
    - The exact store and its programs: what is pushed is what is verified, encoded
      programs decode to their meaning, validated bytes cannot make the evaluator
      read out of bounds.
    - Text: the parser against the grammar of the query language
      ([Dsl.parse_accepts_grammar]), the meaning of a compiled query, the title views
      and the alias closure, phrase search against its path semantics.
    - Durability.  Whatever a failing disk did to the appends, recovery returns the
      acknowledged records in order ([Wal.wal_crash_recovery]); a record survives
      encoding and decoding; a sidecar with one flipped burst is refused
      ([Sources.damaged_source_file_refused]), unless the burst makes it a file of
      the first version, which has no checksum ([Sources.version_damage_accepted]).
      The source store in either mode is a map from logical ids to documents
      ([Sources.source_store_refines]), and the file it writes opens as the same map
      ([Sources.source_corpus_saved]).
    - Collection: top-K, deadlines, cancelled matches, unique emission in a cluster.
    Each property is stated at its theorem, with its number.

    ** Bounds and fuel

    Loops that are not structural run on fuel, and the theorems say the fuel is
    enough.  The parser's fuel is the number of characters left; the phrase
    searches' fuel is the number of product states ([search_fuel]) or the source's
    own state budget ([bounded_fuel]); the owner search walks two lists and its
    fuel is their total length; the alias worklist takes as many rounds as there
    are names the forms can bring.  Where a theorem assumes a size (a dictionary
    below 2^31 names, fewer than 2^32 rows, a text of fewer than 2^32 tokens) the
    source keeps the quantity in a [u32]; the hypothesis is named at the theorem
    and its witness satisfies it.  The engine theorems name this room once per
    operation: [allowed] for a request, [batch_allowed] for a batch, [can_reopen]
    for a restart.

    ** Not modelled

    Of the engine: installing a vocabulary, the check of the recorded feature model,
    segments of older versions that an open migrates, the acceptance of a lost log,
    the byte layout of segment and manifest files, observers, and the files and
    bulk path of a cluster shard.  Beside it: the batch kernels and the mmap twins
    of the store (the same operations over other layouts), the exhaustive
    deduplication of [view.rs], rank scoring and chunked delivery, vocabulary learning, the cluster's networking, consensus and
    handoff, the HTTP server, the generators and the fault injection.  They are
    threads, sockets and files, or floating-point statistics, around the engine
    modelled here. *)

From stdpp Require Export base tactics option list list_numbers numbers gmap sorting.
From Stdlib Require Export NArith Lia.

#[global] Open Scope N_scope.

(** ** Machine integers

    Unsigned machine integers are values of [N]; each wrap-around the source
    performs is written out at the width it happens at. *)

Definition wrap (w n : N) : N := n mod 2 ^ w.

Abbreviation wrap8 := (wrap 8).
Abbreviation wrap16 := (wrap 16).
Abbreviation wrap32 := (wrap 32).
Abbreviation wrap64 := (wrap 64).

Definition umax (w : N) : N := 2 ^ w - 1.

(** [saturating_add], [saturating_sub], [checked_add] of the unsigned types. *)
Definition sat_add (w a b : N) : N := N.min (a + b) (umax w).
Definition sat_sub (a b : N) : N := a - b.
Definition checked_add (w a b : N) : option N :=
  if a + b <=? umax w then Some (a + b) else None.

(** [u32::try_from(len).unwrap_or(u32::MAX)]. *)
Definition try_u32 (n : nat) : N := N.min (N.of_nat n) (umax 32).

(** [len as u32] and [len as u16]. *)
Definition as_u32 (n : nat) : N := wrap32 (N.of_nat n).
Definition as_u16 (n : nat) : N := wrap16 (N.of_nat n).

(** An unsigned value fits its width. *)
Definition fits (w n : N) : Prop := n < 2 ^ w.

Lemma fits_testbit w n i : fits w n → w ≤ i → N.testbit n i = false.
Proof.
  unfold fits. intros Hn Hi. destruct (decide (n = 0)) as [->|Hz]; [apply N.bits_0|].
  apply N.bits_above_log2. apply N.log2_lt_pow2 in Hn; lia.
Qed.

Lemma testbit_fits w n : (∀ i, w ≤ i → N.testbit n i = false) → fits w n.
Proof.
  intros Hb. unfold fits. destruct (decide (n = 0)) as [->|Hz]; [apply N.neq_0_lt_0; by apply N.pow_nonzero|].
  apply N.log2_lt_pow2; [lia|]. destruct (N.lt_ge_cases (N.log2 n) w) as [|Hge]; [done|].
  specialize (Hb _ Hge). by rewrite N.bit_log2 in Hb.
Qed.

Lemma wrap_fits w n : fits w (wrap w n).
Proof. unfold fits, wrap. apply N.mod_lt. by apply N.pow_nonzero. Qed.

Lemma wrap_small w n : fits w n → wrap w n = n.
Proof. intros. by apply N.mod_small. Qed.

Lemma lxor_fits w a b : fits w a → fits w b → fits w (N.lxor a b).
Proof.
  intros Ha Hb. apply testbit_fits. intros i Hi.
  by rewrite N.lxor_spec, !(fits_testbit w) by done.
Qed.

Lemma shiftr_fits w a n : fits w a → fits w (N.shiftr a n).
Proof.
  intros Ha. apply testbit_fits. intros i Hi.
  rewrite N.shiftr_spec'. apply (fits_testbit w); [done|lia].
Qed.

Lemma as_u32_small n : N.of_nat n < 2 ^ 32 → as_u32 n = N.of_nat n.
Proof. intros. unfold as_u32. by apply wrap_small. Qed.

Lemma as_u16_small n : N.of_nat n < 2 ^ 16 → as_u16 n = N.of_nat n.
Proof. intros. unfold as_u16. by apply wrap_small. Qed.

(** ** Total orders: what [#[derive(Ord)]] gives a type *)

Class RustOrd (A : Type) := rcmp : A → A → comparison.

Class RustOrdLaws (A : Type) `{RustOrd A} := {
  rcmp_eq_iff (x y : A) : rcmp x y = Eq ↔ x = y;
  rcmp_opp (x y : A) : rcmp y x = CompOpp (rcmp x y);
  rcmp_lt_trans (x y z : A) : rcmp x y = Lt → rcmp y z = Lt → rcmp x z = Lt;
}.

Definition rle {A} `{RustOrd A} (x y : A) : Prop := rcmp x y ≠ Gt.
Definition rlt {A} `{RustOrd A} (x y : A) : Prop := rcmp x y = Lt.

#[export] Instance comparison_eq_dec : EqDecision comparison.
Proof. solve_decision. Defined.

#[export] Instance rle_dec {A} `{RustOrd A} (x y : A) : Decision (rle x y).
Proof. unfold rle. apply _. Defined.

#[export] Instance rlt_dec {A} `{RustOrd A} (x y : A) : Decision (rlt x y).
Proof. unfold rlt. apply _. Defined.

#[export] Instance N_ord : RustOrd N := N.compare.

(** Slices compare lexicographically, a proper prefix first. *)
Fixpoint list_cmp {A} `{RustOrd A} (l k : list A) : comparison :=
  match l, k with
  | [], [] => Eq
  | [], _ :: _ => Lt
  | _ :: _, [] => Gt
  | x :: l', y :: k' =>
      match rcmp x y with
      | Eq => list_cmp l' k'
      | c => c
      end
  end.

#[export] Instance list_ord {A} `{RustOrd A} : RustOrd (list A) := list_cmp.

(** Tuples, and structs by their fields in declaration order. *)
#[export] Instance prod_ord {A B} `{RustOrd A} `{RustOrd B} : RustOrd (A * B) :=
  λ p q, match rcmp p.1 q.1 with Eq => rcmp p.2 q.2 | c => c end.

#[export] Instance N_ord_laws : RustOrdLaws N.
Proof.
  split; unfold rcmp, N_ord; intros.
  - apply N.compare_eq_iff.
  - rewrite N.compare_antisym. done.
  - rewrite N.compare_lt_iff in *. lia.
Qed.

Section ord_laws.
Context {A : Type} `{RustOrdLaws A}.

Lemma rcmp_refl (x : A) : rcmp x x = Eq.
Proof. by apply rcmp_eq_iff. Qed.

#[export] Instance rle_total : Total (rle (A:=A)).
Proof.
  intros x y. unfold rle. rewrite (rcmp_opp x y).
  destruct (rcmp x y); simpl; [left|left|right]; done.
Qed.

Lemma rle_lt_or_eq (x y : A) : rle x y ↔ rlt x y ∨ x = y.
Proof.
  unfold rle, rlt. rewrite <-rcmp_eq_iff.
  destruct (rcmp x y); intuition discriminate.
Qed.

#[export] Instance rle_trans : Transitive (rle (A:=A)).
Proof.
  intros x y z [Hxy| ->]%rle_lt_or_eq [Hyz| ->]%rle_lt_or_eq; apply rle_lt_or_eq; eauto.
  left. by eapply rcmp_lt_trans.
Qed.

#[export] Instance rle_antisymm : AntiSymm (=) (rle (A:=A)).
Proof.
  intros x y Hxy Hyx. unfold rle in *. rewrite (rcmp_opp x y) in Hyx.
  apply rcmp_eq_iff. destruct (rcmp x y); simpl in *; congruence.
Qed.

#[export] Instance rle_refl : Reflexive (rle (A:=A)).
Proof. intros x. unfold rle. by rewrite rcmp_refl. Qed.

Lemma rlt_irrefl (x : A) : ¬ rlt x x.
Proof. unfold rlt. by rewrite rcmp_refl. Qed.

Lemma rlt_rle (x y : A) : rlt x y → rle x y.
Proof. intros. apply rle_lt_or_eq. auto. Qed.

Lemma rle_not_rlt (x y : A) : rle x y ↔ ¬ rlt y x.
Proof.
  unfold rle, rlt. rewrite (rcmp_opp x y).
  destruct (rcmp x y); simpl; intuition discriminate.
Qed.

#[export] Instance rlt_trans : Transitive (rlt (A:=A)).
Proof. intros x y z. apply rcmp_lt_trans. Qed.

End ord_laws.

#[export] Instance list_ord_laws {A} `{RustOrdLaws A} : RustOrdLaws (list A).
Proof.
  split; unfold rcmp, list_ord.
  - induction x as [|a x IH]; intros [|b y]; simpl; try (split; congruence).
    destruct (rcmp a b) eqn:E.
    + apply rcmp_eq_iff in E as ->. rewrite IH. split; congruence.
    + split; [done|]. intros [= -> ->]. by rewrite rcmp_refl in E.
    + split; [done|]. intros [= -> ->]. by rewrite rcmp_refl in E.
  - induction x as [|a x IH]; intros [|b y]; simpl; try done.
    rewrite (rcmp_opp a b). destruct (rcmp a b); simpl; auto.
  - induction x as [|a x IH]; intros [|b y] [|c z]; simpl; try done.
    destruct (rcmp a b) eqn:E1; [|intros _|done].
    + apply rcmp_eq_iff in E1 as ->. destruct (rcmp b c); eauto.
    + destruct (rcmp b c) eqn:E2; [intros _|intros _|done].
      * apply rcmp_eq_iff in E2 as ->. by rewrite E1.
      * by rewrite (rcmp_lt_trans a b c).
Qed.

#[export] Instance prod_ord_laws {A B} `{RustOrdLaws A} `{RustOrdLaws B} : RustOrdLaws (A * B).
Proof.
  split; unfold rcmp, prod_ord.
  - intros [a b] [c d]; simpl. destruct (rcmp a c) eqn:E.
    + apply rcmp_eq_iff in E as ->. rewrite rcmp_eq_iff. split; congruence.
    + split; [done|]. intros [= -> ->]. by rewrite rcmp_refl in E.
    + split; [done|]. intros [= -> ->]. by rewrite rcmp_refl in E.
  - intros [a b] [c d]; simpl. rewrite (rcmp_opp a c).
    destruct (rcmp a c); simpl; [apply rcmp_opp|done|done].
  - intros [a b] [c d] [e f]; simpl. destruct (rcmp a c) eqn:E1; [|intros _|done].
    + apply rcmp_eq_iff in E1 as ->. destruct (rcmp c e) eqn:E2; eauto using rcmp_lt_trans.
    + destruct (rcmp c e) eqn:E2; [intros _|intros _|done].
      * apply rcmp_eq_iff in E2 as ->. by rewrite E1.
      * by rewrite (rcmp_lt_trans a c e).
Qed.

(** A struct ordered through the tuple of its fields. *)
Lemma ord_laws_via {A B} `{RustOrd A} `{RustOrdLaws B} (f : A → B) :
  Inj (=) (=) f → (∀ x y, rcmp x y = rcmp (f x) (f y)) → RustOrdLaws A.
Proof.
  intros Hinj Hf. split.
  - intros x y. rewrite Hf, rcmp_eq_iff. split; [apply Hinj|congruence].
  - intros x y. by rewrite !Hf, rcmp_opp.
  - intros x y z. rewrite !Hf. apply rcmp_lt_trans.
Qed.

(** ** [sort_unstable], [dedup] and binary search of the slice library *)

(** On a total order whose equivalence is equality the result of
    [sort_unstable] does not depend on the algorithm. *)
Definition sort_unstable {A} `{RustOrd A} (l : list A) : list A := merge_sort rle l.

(** [sort_by_key]: stable, so the ties keep their order. *)
Definition key_le {A} (key : A → N) (x y : A) : Prop := key x ≤ key y.
#[export] Instance key_le_dec {A} (key : A → N) (x y : A) : Decision (key_le key x y).
Proof. unfold key_le. apply _. Defined.
Definition sort_by_key {A} (key : A → N) (l : list A) : list A := merge_sort (key_le key) l.

(** [Vec::dedup]: the first element of every run of equal elements. *)
Fixpoint dedup_from {A} `{EqDecision A} (prev : A) (l : list A) : list A :=
  match l with
  | [] => []
  | y :: l' => if decide (y = prev) then dedup_from prev l' else y :: dedup_from y l'
  end.

Definition dedup {A} `{EqDecision A} (l : list A) : list A :=
  match l with
  | [] => []
  | x :: l' => x :: dedup_from x l'
  end.

(** [v.sort_unstable(); v.dedup();], which the compiler applies throughout. *)
Definition sort_dedup {A} `{RustOrd A} `{EqDecision A} (l : list A) : list A :=
  dedup (sort_unstable l).

(** [slice::binary_search_by]: the loop of the standard library, with the
    slice length as fuel; [inl i] is [Ok(i)], [inr i] is [Err(i)]. *)
Fixpoint bsearch_loop {A} (f : A → comparison) (l : list A) (fuel base size : nat) : nat :=
  match fuel with
  | O => base
  | S fuel' =>
      if (size <=? 1)%nat then base
      else
        let half := (size / 2)%nat in
        let mid := (base + half)%nat in
        let base' :=
          match l !! mid with
          | Some e => match f e with Gt => base | _ => mid end
          | None => base
          end in
        bsearch_loop f l fuel' base' (size - half)
  end.

Definition binary_search_by {A} (f : A → comparison) (l : list A) : nat + nat :=
  match l !! bsearch_loop f l (length l) 0 (length l) with
  | None => inr O
  | Some e =>
      let base := bsearch_loop f l (length l) 0 (length l) in
      match f e with
      | Eq => inl base
      | Lt => inr (S base)
      | Gt => inr base
      end
  end.

Definition binary_search {A} `{RustOrd A} (x : A) (l : list A) : nat + nat :=
  binary_search_by (λ e, rcmp e x) l.

Definition is_ok {A B} (r : A + B) : bool := match r with inl _ => true | inr _ => false end.

(** [l.binary_search(&x).is_ok()]. *)
Definition bsearch_mem {A} `{RustOrd A} (x : A) (l : list A) : bool := is_ok (binary_search x l).

(** [slice::partition_point]. *)
Definition partition_point {A} (p : A → bool) (l : list A) : nat :=
  match binary_search_by (λ e, if p e then Lt else Gt) l with inl i => i | inr i => i end.

Section sorting_lemmas.
Context {A : Type} `{RustOrdLaws A} `{!EqDecision A}.
Implicit Types l : list A.

Lemma sort_unstable_perm l : sort_unstable l ≡ₚ l.
Proof. apply merge_sort_Permutation. Qed.

Lemma elem_of_sort_unstable x l : x ∈ sort_unstable l ↔ x ∈ l.
Proof. by rewrite sort_unstable_perm. Qed.

Lemma sort_unstable_sorted l : StronglySorted rle (sort_unstable l).
Proof. apply StronglySorted_merge_sort; apply _. Qed.

Lemma elem_of_dedup_from prev x l : x ∈ prev :: dedup_from prev l ↔ x ∈ prev :: l.
Proof.
  revert prev. induction l as [|y l IH]; intros prev; simpl; [done|].
  case_decide as E.
  - subst. rewrite IH, !elem_of_cons. tauto.
  - specialize (IH y). rewrite !elem_of_cons in *. tauto.
Qed.

Lemma elem_of_dedup x l : x ∈ dedup l ↔ x ∈ l.
Proof. destruct l; [done|]. apply elem_of_dedup_from. Qed.

Lemma dedup_from_sorted prev l :
  StronglySorted rle (prev :: l) → StronglySorted rlt (prev :: dedup_from prev l).
Proof.
  revert prev. induction l as [|y l IH]; intros prev Hs; simpl.
  { repeat constructor. }
  apply StronglySorted_inv in Hs as [Hs Hprev].
  apply Forall_cons in Hprev as [Hpy Hpl].
  case_decide as E.
  - subst. apply IH. done.
  - specialize (IH y Hs). constructor; [done|].
    assert (rlt prev y) as Hlt by (apply rle_lt_or_eq in Hpy as [?|?]; naive_solver).
    constructor; [done|]. apply StronglySorted_inv in IH as [_ Hf].
    eapply Forall_impl; [exact Hf|]. intros z Hz. by trans y.
Qed.

Lemma dedup_sorted l : StronglySorted rle l → StronglySorted rlt (dedup l).
Proof. destruct l; [constructor|]. apply dedup_from_sorted. Qed.

Lemma sort_dedup_sorted l : StronglySorted rlt (sort_dedup l).
Proof. apply dedup_sorted, sort_unstable_sorted. Qed.

Lemma elem_of_sort_dedup x l : x ∈ sort_dedup l ↔ x ∈ l.
Proof. unfold sort_dedup. by rewrite elem_of_dedup, elem_of_sort_unstable. Qed.

Lemma strictly_sorted_sorted l : StronglySorted rlt l → StronglySorted rle l.
Proof.
  induction 1 as [|x l _ IH Hf]; constructor; [done|].
  eapply Forall_impl; [exact Hf|]. intros; by apply rlt_rle.
Qed.

Lemma strictly_sorted_NoDup l : StronglySorted rlt l → NoDup l.
Proof.
  induction 1 as [|x l _ IH Hf]; constructor; [|done].
  intros Hx. rewrite Forall_forall in Hf. by apply (rlt_irrefl x), Hf.
Qed.

(** Two strictly sorted lists with the same elements are equal. *)
Lemma strictly_sorted_ext l k :
  StronglySorted rlt l → StronglySorted rlt k → (∀ x, x ∈ l ↔ x ∈ k) → l = k.
Proof.
  intros Hl Hk Hext.
  apply (StronglySorted_unique rle); eauto using strictly_sorted_sorted.
  apply NoDup_Permutation; eauto using strictly_sorted_NoDup.
Qed.

Lemma dedup_from_id prev l : StronglySorted rlt (prev :: l) → dedup_from prev l = l.
Proof.
  revert prev. induction l as [|y l IH]; intros prev Hs; simpl; [done|].
  apply StronglySorted_inv in Hs as [Hs Hf]. apply Forall_cons in Hf as [Hp _].
  rewrite decide_False by (intros ->; by apply rlt_irrefl in Hp).
  by rewrite IH.
Qed.

Lemma sort_dedup_id l : StronglySorted rlt l → sort_dedup l = l.
Proof.
  intros Hl. apply strictly_sorted_ext; auto using sort_dedup_sorted.
  intros. apply elem_of_sort_dedup.
Qed.

Lemma sort_dedup_ext l k : (∀ x, x ∈ l ↔ x ∈ k) → sort_dedup l = sort_dedup k.
Proof.
  intros Hext. apply strictly_sorted_ext; try apply sort_dedup_sorted.
  intros x. by rewrite !elem_of_sort_dedup.
Qed.

Lemma sort_dedup_idemp l : sort_dedup (sort_dedup l) = sort_dedup l.
Proof. apply sort_dedup_id, sort_dedup_sorted. Qed.

Lemma length_sort_dedup l : (length (sort_dedup l) ≤ length l)%nat.
Proof.
  apply submseteq_length, NoDup_submseteq; [apply strictly_sorted_NoDup, sort_dedup_sorted|].
  intros x. by rewrite elem_of_sort_dedup.
Qed.

Lemma sort_dedup_nil l : sort_dedup l = [] ↔ l = [].
Proof.
  split; [|by intros ->].
  destruct l as [|x l]; [done|]. intros E.
  assert (x ∈ sort_dedup (x :: l)) as Hx by (rewrite elem_of_sort_dedup; set_solver).
  rewrite E in Hx. set_solver.
Qed.

Lemma sorted_lookup_le l i j x y :
  StronglySorted rle l → l !! i = Some x → l !! j = Some y → (i ≤ j)%nat → rle x y.
Proof.
  intros Hs. revert i j. induction Hs as [|z l Hs IH Hf]; intros i j Hi Hj Hij; [done|].
  destruct i as [|i], j as [|j]; simpl in *; simplify_eq; try lia.
  - reflexivity.
  - rewrite Forall_forall in Hf. apply Hf. by eapply list_elem_of_lookup_2.
  - eapply IH; eauto. lia.
Qed.

End sorting_lemmas.

Section bsearch_lemmas.
Context {A : Type} (f : A → comparison).
Implicit Types l : list A.

(** The slice is ordered for [f]: [Less] entries, then [Equal], then [Greater]. *)
Definition bs_ordered l : Prop :=
  ∀ i j x y, l !! i = Some x → l !! j = Some y → (i ≤ j)%nat →
    (f x = Gt → f y = Gt) ∧ (f y = Lt → f x = Lt).

Lemma bsearch_loop_spec l fuel base size :
  bs_ordered l → (size ≤ fuel)%nat → (1 ≤ size)%nat → (base + size ≤ length l)%nat →
  (base = O ∨ ∃ e, l !! base = Some e ∧ f e ≠ Gt) →
  (∀ j e, l !! j = Some e → (base + size ≤ j)%nat → f e = Gt) →
  let r := bsearch_loop f l fuel base size in
  (r < length l)%nat ∧ (r = O ∨ ∃ e, l !! r = Some e ∧ f e ≠ Gt) ∧
  (∀ j e, l !! j = Some e → (S r ≤ j)%nat → f e = Gt).
Proof.
  intros Hord. revert base size.
  induction fuel as [|fuel IH]; intros base size Hfuel H1 Hlen Hlo Hhi; [lia|].
  cbn [bsearch_loop].
  destruct (Nat.leb_spec size 1) as [Hle|Hgt].
  { assert (size = 1%nat) as -> by lia. split; [lia|]. split; [done|].
    intros j e Hj ?. eapply Hhi; eauto. lia. }
  assert (size / 2 < size)%nat by (apply Nat.div_lt; lia).
  assert (1 ≤ size / 2)%nat by (apply Nat.div_le_lower_bound; lia).
  assert (size / 2 + size / 2 ≤ size)%nat by (pose proof (Nat.Div0.mul_div_le size 2); lia).
  destruct (lookup_lt_is_Some_2 l (base + size / 2)) as [e He]; [lia|].
  cbv zeta. rewrite He.
  destruct (f e) eqn:Ef; apply IH; try lia; eauto.
  - right. exists e. by rewrite Ef.
  - intros j e' Hj ?. eapply Hhi; eauto. lia.
  - right. exists e. by rewrite Ef.
  - intros j e' Hj ?. eapply Hhi; eauto. lia.
  - intros j e' Hj ?. eapply (Hord (base + size / 2)%nat j); eauto. lia.
Qed.

Lemma binary_search_by_ok l i :
  binary_search_by f l = inl i → ∃ e, l !! i = Some e ∧ f e = Eq.
Proof.
  unfold binary_search_by. destruct (l !! _) as [e|] eqn:E; [|done].
  destruct (f e) eqn:Ef; naive_solver.
Qed.

(** Found or not: [Err(i)] splits the slice at [i]. *)
Lemma binary_search_by_err l i :
  bs_ordered l → binary_search_by f l = inr i →
  (i ≤ length l)%nat ∧
  (∀ j e, l !! j = Some e → (j < i)%nat → f e = Lt) ∧
  (∀ j e, l !! j = Some e → (i ≤ j)%nat → f e = Gt).
Proof.
  intros Hord Hbs. destruct (decide (l = [])) as [->|Hne].
  { unfold binary_search_by in Hbs. simpl in Hbs. simplify_eq. split; [done|]. done. }
  assert (1 ≤ length l)%nat as Hlen by (destruct l; simpl; [done|lia]).
  pose proof (bsearch_loop_spec l (length l) 0 (length l)) as Hspec.
  destruct Hspec as (Hr & Hlo & Hhi); auto.
  { intros j e Hj%lookup_lt_Some ?. lia. }
  unfold binary_search_by in Hbs.
  set (r := bsearch_loop f l (length l) 0 (length l)) in *.
  destruct (lookup_lt_is_Some_2 l r) as [e He]; [done|]. rewrite He in Hbs.
  clearbody r. destruct (f e) eqn:Ef; [done| |]; injection Hbs as <-.
  - split; [lia|]. split; [|done].
    intros j e' Hj ?. eapply (Hord j r); eauto. lia.
  - assert (r = O) as ->.
    { destruct Hlo as [?|(e' & He' & Hn)]; [done|]. by simplify_eq. }
    split; [lia|]. split; [lia|].
    intros j e' Hj ?. by eapply (Hord 0%nat j); eauto.
Qed.

End bsearch_lemmas.

Lemma partition_point_spec {A} (p : A → bool) (l : list A) k :
  (k ≤ length l)%nat →
  (∀ j e, l !! j = Some e → (j < k)%nat → p e = true) →
  (∀ j e, l !! j = Some e → (k ≤ j)%nat → p e = false) →
  partition_point p l = k.
Proof.
  intros Hk Hlo Hhi. unfold partition_point.
  destruct (binary_search_by _ l) as [i|i] eqn:E.
  { apply binary_search_by_ok in E as (e & _ & He). by destruct (p e). }
  apply binary_search_by_err in E as (Hi & Hlt & Hge).
  - destruct (Nat.lt_trichotomy i k) as [Hik|[?|Hik]]; [|done|].
    + destruct (lookup_lt_is_Some_2 l i) as [e He]; [lia|].
      specialize (Hlo _ _ He Hik). specialize (Hge _ _ He). rewrite Hlo in Hge.
      by specialize (Hge (le_n _)).
    + destruct (lookup_lt_is_Some_2 l k) as [e He]; [lia|].
      specialize (Hlt _ _ He Hik). specialize (Hhi _ _ He). by rewrite Hhi in Hlt.
  - intros a b x y Hx Hy Hab.
    destruct (decide (a < k)%nat), (decide (b < k)%nat);
      repeat match goal with
      | H : l !! ?i = Some ?x |- _ =>
          first [rewrite (Hlo i x H) by lia | rewrite (Hhi i x H) by lia]; clear H
      end; done || lia.
Qed.

Section bsearch_mem.
Context {A : Type} `{RustOrdLaws A}.
Implicit Types l : list A.

Lemma sorted_bs_ordered x l : StronglySorted rle l → bs_ordered (λ e, rcmp e x) l.
Proof.
  intros Hs i j a b Ha Hb Hij. pose proof (sorted_lookup_le _ _ _ _ _ Hs Ha Hb Hij) as Hle.
  apply rle_lt_or_eq in Hle as [Hlt| ->]; [|done]. split.
  - intros Hgt. rewrite rcmp_opp in Hgt |- *.
    destruct (rcmp x a) eqn:E; try done. by rewrite (rcmp_lt_trans x a b).
  - intros Hb'. by apply (rcmp_lt_trans a b x).
Qed.

(** What binary search finds is there, on any slice; *)
Lemma bsearch_mem_elem x l : bsearch_mem x l = true → x ∈ l.
Proof.
  unfold bsearch_mem, binary_search. destruct (binary_search_by _ l) as [i|] eqn:E; [|done].
  apply binary_search_by_ok in E as (e & He & ->%rcmp_eq_iff). intros _. by eapply list_elem_of_lookup_2.
Qed.

(** on a sorted slice it decides membership. *)
Lemma bsearch_mem_spec x l : StronglySorted rle l → bsearch_mem x l = true ↔ x ∈ l.
Proof.
  intros Hs. unfold bsearch_mem, binary_search.
  destruct (binary_search_by _ l) as [i|i] eqn:E; simpl.
  - split; [|done]. intros _. apply binary_search_by_ok in E as (e & He & ->%rcmp_eq_iff). by eapply list_elem_of_lookup_2.
  - split; [done|]. intros (j & Hj)%list_elem_of_lookup.
    apply binary_search_by_err in E as (_ & Hlt & Hge); [|by apply sorted_bs_ordered].
    destruct (decide (j < i)%nat).
    + specialize (Hlt _ _ Hj). rewrite rcmp_refl in Hlt. naive_solver.
    + specialize (Hge _ _ Hj). rewrite rcmp_refl in Hge. assert (i ≤ j)%nat by lia. naive_solver.
Qed.

Lemma bsearch_mem_bool x l `{!EqDecision A} :
  StronglySorted rle l → bsearch_mem x l = bool_decide (x ∈ l).
Proof.
  intros Hs. apply eq_true_iff_eq. rewrite bsearch_mem_spec by done.
  by rewrite bool_decide_eq_true.
Qed.

End bsearch_mem.

(** ** Checked indexing

    Indexing that panics out of range returns [None] there; a theorem that a
    function returns [Some _] is therefore also a theorem that it does not
    panic. *)

(** [v[off..off + len]]. *)
Definition slice {A} (l : list A) (off len : nat) : option (list A) :=
  if decide (off + len ≤ length l)%nat then Some (take len (drop off l)) else None.

(** [x as usize]. *)
Abbreviation usize := N.to_nat.

Lemma slice_mid {A} (l1 l2 l3 : list A) :
  slice (l1 ++ l2 ++ l3) (length l1) (length l2) = Some l2.
Proof.
  unfold slice. rewrite !length_app, decide_True by lia.
  rewrite drop_app_length. by rewrite take_app_length.
Qed.

Lemma slice_Some {A} (l : list A) off len s :
  slice l off len = Some s → ∃ l1 l3, l = l1 ++ s ++ l3 ∧ length l1 = off.
Proof.
  unfold slice. intros Hs. case_decide as Hl; simplify_eq. exists (take off l), (drop len (drop off l)).
  rewrite length_take. split; [|lia]. by rewrite !take_drop.
Qed.

Lemma slice_suffix {A} (l1 l2 : list A) :
  slice (l1 ++ l2) (length l1) (length l2) = Some l2.
Proof. rewrite <-(app_nil_r l2) at 1. apply slice_mid. Qed.

(** Growing a column keeps every slice already taken from it. *)
Lemma slice_app_grow {A} (l k : list A) off len s :
  slice l off len = Some s → slice (l ++ k) off len = Some s.
Proof.
  unfold slice. intros Hs. case_decide as Hl; [|done].
  rewrite decide_True by (rewrite length_app; lia). injection Hs as <-. f_equal.
  destruct (decide (len = O)) as [->|]; [done|].
  rewrite drop_app_le by lia. rewrite take_app_le; [done|]. rewrite length_drop. lia.
Qed.

Lemma slice_length {A} (l : list A) off len s :
  slice l off len = Some s → length s = len.
Proof.
  unfold slice. intros Hs. case_decide; simplify_eq.
  rewrite length_take, length_drop. lia.
Qed.

Lemma slice_elem_of {A} (l : list A) off len s x :
  slice l off len = Some s → x ∈ s → x ∈ l.
Proof.
  unfold slice. intros Hs Hx. case_decide; simplify_eq.
  apply list_elem_of_lookup in Hx as (i & Hi).
  apply lookup_take_Some in Hi as [Hi _]. rewrite lookup_drop in Hi.
  by eapply list_elem_of_lookup_2.
Qed.

(** ** Iterator adaptors *)

(** [Iterator::min_by_key]: the first element of least key. *)
Fixpoint min_by_key {A} (key : A → N) (l : list A) : option A :=
  match l with
  | [] => None
  | x :: l' =>
      match min_by_key key l' with
      | None => Some x
      | Some y => if key x <=? key y then Some x else Some y
      end
  end.

(** [Iterator::max] and [Iterator::min] over integers. *)
Definition iter_max (l : list N) : option N :=
  match l with [] => None | x :: l' => Some (foldr N.max x l') end.
Definition iter_min (l : list N) : option N :=
  match l with [] => None | x :: l' => Some (foldr N.min x l') end.

Lemma min_by_key_elem {A} (key : A → N) (l : list A) x : min_by_key key l = Some x → x ∈ l.
Proof.
  revert x. induction l as [|y l IH]; intros x; simpl; [done|].
  destruct (min_by_key key l) as [z|]; [case_match|]; intros [= <-]; set_solver.
Qed.

Lemma min_by_key_le {A} (key : A → N) (l : list A) x y :
  min_by_key key l = Some x → y ∈ l → key x ≤ key y.
Proof.
  revert x y. induction l as [|a l IH]; intros x y; simpl; [done|].
  destruct (min_by_key key l) as [z|] eqn:E.
  - destruct (N.leb_spec (key a) (key z)); intros [= <-] [->|Hy]%elem_of_cons;
      try lia; specialize (IH z y eq_refl Hy); lia.
  - intros [= <-] [->|Hy]%elem_of_cons; [lia|].
    destruct l as [|b l]; [by apply not_elem_of_nil in Hy|].
    exfalso. simpl in E. destruct (min_by_key key l); [case_match|]; done.
Qed.

Lemma min_by_key_None {A} (key : A → N) (l : list A) : min_by_key key l = None ↔ l = [].
Proof.
  split; [|by intros ->]. destruct l as [|a l]; simpl; [done|].
  destruct (min_by_key key l); [case_match|]; done.
Qed.

Lemma sort_by_key_perm {A} (key : A → N) (l : list A) : sort_by_key key l ≡ₚ l.
Proof. apply merge_sort_Permutation. Qed.

#[export] Instance key_le_total {A} (key : A → N) : Total (key_le key).
Proof. intros x y. unfold key_le. lia. Qed.

#[export] Instance key_le_trans {A} (key : A → N) : Transitive (key_le key).
Proof. intros x y z. unfold key_le. lia. Qed.

Lemma sort_by_key_sorted {A} (key : A → N) (l : list A) :
  StronglySorted (key_le key) (sort_by_key key l).
Proof. apply StronglySorted_merge_sort; apply _. Qed.

Lemma StronglySorted_lookup {A} (R : A → A → Prop) (l : list A) i j x y :
  StronglySorted R l → l !! i = Some x → l !! j = Some y → (i < j)%nat → R x y.
Proof.
  intros Hs. revert i j. induction Hs as [|z l Hs IH Hf]; intros i j Hi Hj Hij; [done|].
  destruct i as [|i], j as [|j]; simpl in *; simplify_eq; try lia.
  - rewrite Forall_forall in Hf. apply Hf. by eapply list_elem_of_lookup_2.
  - eapply IH; eauto. lia.
Qed.

Lemma StronglySorted_impl {A} (R S : A → A → Prop) (l : list A) :
  (∀ x y, x ∈ l → y ∈ l → R x y → S x y) → StronglySorted R l → StronglySorted S l.
Proof.
  intros HRS Hs. induction Hs as [|x l Hs IH Hf]; constructor.
  - apply IH. intros y z Hy Hz. apply HRS; by right.
  - rewrite Forall_forall in *. intros y Hy. apply HRS; [by left|by right|]. by apply Hf.
Qed.

(** [Iterator::skip_while] and [Iterator::take_while]. *)
Fixpoint skip_while {A} (p : A → bool) (l : list A) : list A :=
  match l with
  | [] => []
  | x :: l' => if p x then skip_while p l' else l
  end.

Fixpoint take_while {A} (p : A → bool) (l : list A) : list A :=
  match l with
  | [] => []
  | x :: l' => if p x then x :: take_while p l' else []
  end.

(** The entries of key [k] in a slice sorted by key: the run between two
    partition points, or between a [skip_while] and a [take_while]. *)
Section key_run.
Context {A : Type} (key : A → N).
Implicit Types l : list A.

Lemma filter_none (P : A → Prop) `{∀ x, Decision (P x)} l :
  (∀ x, x ∈ l → ¬ P x) → filter P l = [].
Proof.
  induction l as [|x l IH]; intros HP; [done|].
  rewrite filter_cons_False by (apply HP; by left). apply IH. intros y Hy. apply HP. by right.
Qed.

Lemma take_while_run k l :
  StronglySorted (key_le key) l → Forall (λ x, k ≤ key x) l →
  take_while (λ x, key x =? k) l = filter (λ x, key x = k) l.
Proof.
  induction 1 as [|x l Hs IH Hf]; intros Hk; [done|]. simpl.
  apply Forall_cons in Hk as [Hx Hk]. destruct (N.eqb_spec (key x) k) as [E|E].
  - rewrite filter_cons_True by done. by rewrite IH.
  - rewrite filter_none; [done|]. intros y [->|Hy]%elem_of_cons; [done|].
    rewrite Forall_forall in Hf. specialize (Hf y Hy). unfold key_le in Hf. lia.
Qed.

Lemma key_run_while k l :
  StronglySorted (key_le key) l →
  take_while (λ x, key x =? k) (skip_while (λ x, key x <? k) l) = filter (λ x, key x = k) l.
Proof.
  induction 1 as [|x l Hs IH Hf]; [done|]. simpl.
  destruct (N.ltb_spec (key x) k) as [Hlt|Hge].
  - rewrite IH, filter_cons_False; [done|lia].
  - apply take_while_run; [by constructor|]. constructor; [done|].
    eapply Forall_impl; [exact Hf|]. unfold key_le. intros y Hy. simpl in *. lia.
Qed.

Lemma take_skip_while (p : A → bool) l : take_while p l ++ skip_while p l = l.
Proof. induction l as [|x l IH]; simpl; [done|]. destruct (p x); simpl; by rewrite ?IH. Qed.

Lemma take_while_true (p : A → bool) l x : x ∈ take_while p l → p x = true.
Proof.
  induction l as [|y l IH]; simpl; [by intros ?%not_elem_of_nil|].
  destruct (p y) eqn:E; [|by intros ?%not_elem_of_nil]. by intros [->|?]%elem_of_cons; auto.
Qed.

Lemma skip_while_head (p : A → bool) l x l' : skip_while p l = x :: l' → p x = false.
Proof.
  induction l as [|y l IH]; simpl; [done|]. destruct (p y) eqn:E; [done|]. by intros [= <- <-].
Qed.

(** On a slice with the [p] entries first, [partition_point] cuts where
    [take_while] stops. *)
Lemma partition_point_take_while (p : A → bool) l :
  StronglySorted (λ x y, p y = true → p x = true) l →
  partition_point p l = length (take_while p l).
Proof.
  intros Hs. apply partition_point_spec.
  - rewrite <-(take_skip_while p l) at 2. rewrite length_app. lia.
  - intros j e Hj Hlt. rewrite <-(take_skip_while p l), lookup_app_l in Hj by done.
    eapply take_while_true, list_elem_of_lookup_2, Hj.
  - intros j e Hj Hge. rewrite <-(take_skip_while p l) in Hs, Hj.
    rewrite lookup_app_r in Hj by done. apply StronglySorted_app_1_r in Hs.
    destruct (skip_while p l) as [|x l'] eqn:E; [done|].
    apply skip_while_head in E. apply StronglySorted_inv in Hs as [_ Hf].
    destruct (p e) eqn:Ep; [|done]. exfalso.
    destruct (j - length (take_while p l))%nat; simpl in Hj; [congruence|].
    rewrite Forall_forall in Hf. apply list_elem_of_lookup_2 in Hj. specialize (Hf e Hj Ep). congruence.
Qed.

Lemma drop_partition_point (p : A → bool) l :
  StronglySorted (λ x y, p y = true → p x = true) l →
  drop (partition_point p l) l = skip_while p l.
Proof.
  intros Hs. rewrite partition_point_take_while by done.
  rewrite <-(take_skip_while p l) at 2. apply drop_app_length.
Qed.

Lemma take_partition_point (p : A → bool) l :
  StronglySorted (λ x y, p y = true → p x = true) l →
  take (partition_point p l) l = take_while p l.
Proof.
  intros Hs. rewrite partition_point_take_while by done.
  rewrite <-(take_skip_while p l) at 2. apply take_app_length.
Qed.

Lemma skip_while_sorted (R : A → A → Prop) (p : A → bool) l :
  StronglySorted R l → StronglySorted R (skip_while p l).
Proof. intros Hs. rewrite <-(take_skip_while p l) in Hs. by eapply StronglySorted_app_1_r. Qed.

Lemma skip_while_lt_ge k l :
  StronglySorted (key_le key) l → Forall (λ x, k ≤ key x) (skip_while (λ x, key x <? k) l).
Proof.
  induction 1 as [|x l Hs IH Hf]; simpl; [constructor|].
  destruct (N.ltb_spec (key x) k); [done|]. constructor; [done|].
  eapply Forall_impl; [exact Hf|]. unfold key_le. intros y Hy. simpl in *. lia.
Qed.

Lemma key_run_partition_point k l :
  StronglySorted (key_le key) l →
  let rest := drop (partition_point (λ x, key x <? k) l) l in
  take (partition_point (λ x, key x =? k) rest) rest = filter (λ x, key x = k) l.
Proof.
  intros Hs. cbv zeta. rewrite drop_partition_point, take_partition_point.
  - by apply key_run_while.
  - eapply StronglySorted_impl; [|by apply skip_while_sorted].
    intros x y Hx _. pose proof (skip_while_lt_ge k l Hs) as Hge. rewrite Forall_forall in Hge.
    specialize (Hge x Hx). simpl in Hge. unfold key_le. rewrite !N.eqb_eq. lia.
  - eapply StronglySorted_impl; [|exact Hs].
    intros x y _ _. unfold key_le. rewrite !N.ltb_lt. lia.
Qed.

End key_run.

(** The range [0..n]. *)
Definition range_to (n : N) : list N := N.of_nat <$> seq 0 (usize n).

Lemma elem_of_range_to x n : x ∈ range_to n ↔ x < n.
Proof.
  unfold range_to. rewrite list_elem_of_fmap. split.
  - intros (i & -> & Hi%elem_of_seq). lia.
  - intros Hx. exists (usize x). rewrite elem_of_seq. lia.
Qed.

Lemma NoDup_range_to n : NoDup (range_to n).
Proof. apply NoDup_fmap_2; [apply _|]. apply NoDup_seq. Qed.

Lemma length_range_to n : length (range_to n) = usize n.
Proof. unfold range_to. by rewrite length_fmap, length_seq. Qed.

Lemma size_list_to_set_le {A} `{Countable A} (l : list A) : (size (list_to_set l : gset A) ≤ length l)%nat.
Proof.
  induction l as [|x l IH]; simpl; [done|].
  destruct (decide (x ∈ (list_to_set l : gset A))) as [Hx|Hx].
  - replace ({[x]} ∪ list_to_set l : gset A) with (list_to_set l : gset A) by set_solver. lia.
  - rewrite size_union, size_singleton by set_solver. lia.
Qed.

(** ** Early return

    A function body that may [return e] before its end: [inl e] is the early
    return, [inr a] goes on with [a]. *)

Definition try_bind {E A B} (m : E + A) (k : A → E + B) : E + B :=
  match m with inl e => inl e | inr a => k a end.

Declare Scope early_scope.
Delimit Scope early_scope with early.
Notation "'let?' x := m 'in' k" := (try_bind m (λ x, k))
  (at level 10, x name, m at level 100, k at level 200) : early_scope.
#[global] Open Scope early_scope.

(** A [for] loop with early return. *)
Fixpoint try_foldl {E A B} (f : A → B → E + A) (a : A) (l : list B) : E + A :=
  match l with
  | [] => inr a
  | x :: l' => let? a := f a x in try_foldl f a l'
  end.

(** [if cond { return e }]. *)
Definition return_if {E} (cond : bool) (e : E) : E + unit := if cond then inl e else inr tt.

(** ** [Iterator::all] and [Iterator::any] *)

Lemma forallb_elem {A} (f : A → bool) (l : list A) :
  forallb f l = true ↔ ∀ x, x ∈ l → f x = true.
Proof. rewrite forallb_forall. by setoid_rewrite list_elem_of_In. Qed.

Lemma existsb_elem {A} (f : A → bool) (l : list A) :
  existsb f l = true ↔ ∃ x, x ∈ l ∧ f x = true.
Proof. rewrite existsb_exists. by setoid_rewrite list_elem_of_In. Qed.

Lemma forallb_mem_ext {A} (f g : A → bool) (l k : list A) :
  (∀ x, x ∈ l ↔ x ∈ k) → (∀ x, x ∈ l → f x = g x) → forallb f l = forallb g k.
Proof.
  intros Hm Hf. apply eq_true_iff_eq. rewrite !forallb_elem. setoid_rewrite <-Hm.
  split; intros H x Hx; specialize (H x Hx); rewrite Hf in * by done; done.
Qed.

Lemma existsb_mem_ext {A} (f g : A → bool) (l k : list A) :
  (∀ x, x ∈ l ↔ x ∈ k) → (∀ x, x ∈ l → f x = g x) → existsb f l = existsb g k.
Proof.
  intros Hm Hf. apply eq_true_iff_eq. rewrite !existsb_elem. setoid_rewrite <-Hm.
  split; intros (x & Hx & H); exists x; rewrite Hf in * by done; done.
Qed.

Lemma list_filter_all {A} (p : A → bool) (l : list A) :
  (∀ x, x ∈ l → p x = true) → List.filter p l = l.
Proof.
  induction l as [|x l IH]; intros Hp; simpl; [done|].
  rewrite Hp by by left. f_equal. apply IH. intros y Hy. apply Hp. by right.
Qed.

Lemma elem_of_list_filter_bool {A} (p : A → bool) (l : list A) x :
  x ∈ List.filter p l ↔ p x = true ∧ x ∈ l.
Proof. rewrite !list_elem_of_In, filter_In. tauto. Qed.

Lemma list_fmap_ident {A} (f : A → A) (l : list A) : (∀ x, x ∈ l → f x = x) → f <$> l = l.
Proof.
  induction l as [|x l IH]; intros Hf; [done|]. rewrite fmap_cons, Hf, IH; [done| |by left].
  intros y Hy. apply Hf. by right.
Qed.

(** ** Loops that may panic *)

(** [foldl] with a step that may panic. *)
Definition foldM {S A} (f : S → A → option S) (s : S) (l : list A) : option S :=
  foldl (λ o a, s ← o; f s a) (Some s) l.

Section fold.
Context {S A : Type} (f : S → A → option S).

Lemma foldM_none l : foldl (λ o a, s ← o; f s a) None l = None.
Proof. by induction l. Qed.

Lemma foldM_cons s x l : foldM f s (x :: l) = (s' ← f s x; foldM f s' l).
Proof. unfold foldM. simpl. destruct (f s x); [done|]. simpl. apply foldM_none. Qed.

Lemma foldM_app s l k : foldM f s (l ++ k) = (s' ← foldM f s l; foldM f s' k).
Proof.
  revert s. induction l as [|x l IH]; intros s; [done|]. cbn [app]. rewrite !foldM_cons. destruct (f s x); [|done]. simpl. apply IH.
Qed.

(** A loop invariant, over the part of the list done so far. *)
Lemma foldM_invariant (I : list A → S → Prop) l s :
  I [] s → (∀ done s x, done ++ [x] `prefix_of` l → I done s → ∃ s', f s x = Some s' ∧ I (done ++ [x]) s') →
  ∃ s', foldM f s l = Some s' ∧ I l s'.
Proof.
  intros H0 Hstep. assert (∀ k, k `prefix_of` l → ∃ s', foldM f s k = Some s' ∧ I k s') as Hk.
  { induction k as [|x k IH] using rev_ind; intros Hp; [by exists s|].
    destruct IH as (s1 & E & HI); [by eapply prefix_app_l|]. rewrite foldM_app, E. simpl.
    destruct (Hstep k s1 x Hp HI) as (s2 & E2 & HI2). exists s2. rewrite foldM_cons, E2. done. }
  by apply Hk.
Qed.

End fold.
