(* ===== verification/Cursor.v ===== *)
(** * Reading a word buffer through a cursor

    The decoders of [exact/predicate.rs] walk a [&[u32]] with a mutable cursor
    [at]; they index (and panic out of range), return early, or return an
    error.  [Cursor R A] is that effect: from a cursor, either leave the
    function ([inl (Some r)] with its result, [inl None] by a panic) or go on
    with a new cursor and a value.  The lemmas relate a decoder to the words an
    encoder wrote: [occurs words at l] says that [l] stands at [at]. *)

From S2P Require Import Prelude.

Definition Cursor (R A : Type) : Type := nat → option R + (nat * A).

Definition cur_ret {R A} (a : A) : Cursor R A := λ at_, inr (at_, a).
Definition cur_bind {R A B} (m : Cursor R A) (k : A → Cursor R B) : Cursor R B := λ at_,
  match m at_ with inl e => inl e | inr (at_, a) => k a at_ end.

Declare Scope cursor_scope.
Delimit Scope cursor_scope with cursor.
Notation "'let!' x := m 'in' k" := (cur_bind m (λ x, k))
  (at level 10, x pattern, m at level 100, k at level 200) : cursor_scope.
#[global] Open Scope cursor_scope.

(** [return r], a panic, and the two conditional exits. *)
Definition cur_return {R A} (r : R) : Cursor R A := λ _, inl (Some r).
Definition cur_panic {R A} : Cursor R A := λ _, inl None.
Definition return_when {R} (cond : bool) (r : R) : Cursor R unit :=
  if cond then cur_return r else cur_ret tt.
Definition or_panic {R A} (o : option A) : Cursor R A :=
  match o with Some a => cur_ret a | None => cur_panic end.

(** The cursor itself, and jumping. *)
Definition get_at {R} : Cursor R nat := λ at_, inr (at_, at_).
Definition set_at {R} (at_ : nat) : Cursor R unit := λ _, inr (at_, tt).
Definition advance {R} (n : nat) : Cursor R unit := λ at_, inr ((at_ + n)%nat, tt).

(** [let w = words[at]; at += 1]. *)
Definition next_word {R} (words : list N) : Cursor R N := λ at_,
  match words !! at_ with Some w => inr (S at_, w) | None => inl None end.

(** [let s = &words[at..at + n]; at += n]. *)
Definition next_words {R} (words : list N) (n : N) : Cursor R (list N) := λ at_,
  match slice words at_ (usize n) with Some s => inr ((at_ + usize n)%nat, s) | None => inl None end.

(** [for _ in 0..n { s = body(s) }]: doubling on the binary count, so that a
    body that leaves early also ends the evaluation early. *)
Fixpoint repeat_pos {R S} (p : positive) (body : S → Cursor R S) (s : S) : Cursor R S :=
  match p with
  | xH => body s
  | xO p => let! s := repeat_pos p body s in repeat_pos p body s
  | xI p => let! s := body s in let! s := repeat_pos p body s in repeat_pos p body s
  end.
Definition repeat_n {R S} (n : N) (body : S → Cursor R S) (s : S) : Cursor R S :=
  match n with N0 => cur_ret s | Npos p => repeat_pos p body s end.

(** Run a whole body from a cursor. *)
Definition run_cursor {R} (m : Cursor R R) (at_ : nat) : option R :=
  match m at_ with inl e => e | inr (_, r) => Some r end.

(** ** The loop, unrolled *)

Fixpoint repeat_nat {R S} (n : nat) (body : S → Cursor R S) (s : S) : Cursor R S :=
  match n with O => cur_ret s | S n => let! s := body s in repeat_nat n body s end.

Lemma repeat_nat_add {R St} (n m : nat) (body : St → Cursor R St) s at_ :
  repeat_nat (n + m) body s at_ = (let! s := repeat_nat n body s in repeat_nat m body s) at_.
Proof.
  revert s at_. induction n as [|n IH]; intros s at_; [done|]. cbn [repeat_nat Nat.add].
  unfold cur_bind in *. destruct (body s at_) as [|[at1 s1]]; [done|]. apply IH.
Qed.

Lemma repeat_pos_nat {R St} p (body : St → Cursor R St) s at_ :
  repeat_pos p body s at_ = repeat_nat (Pos.to_nat p) body s at_.
Proof.
  revert s at_. induction p as [p IH|p IH|]; intros s at_; cbn [repeat_pos].
  - rewrite Pos2Nat.inj_xI. replace (2 * _)%nat with (Pos.to_nat p + Pos.to_nat p)%nat by lia.
    cbn [repeat_nat]. unfold cur_bind. destruct (body s at_) as [|[at1 s1]]; [done|].
    rewrite IH, repeat_nat_add. unfold cur_bind. by destruct (repeat_nat _ _ _ _) as [|[]].
  - rewrite Pos2Nat.inj_xO. replace (2 * _)%nat with (Pos.to_nat p + Pos.to_nat p)%nat by lia.
    rewrite repeat_nat_add. unfold cur_bind. rewrite IH. by destruct (repeat_nat _ _ _ _) as [|[]].
  - change (Pos.to_nat 1) with 1%nat. cbn [repeat_nat]. unfold cur_bind, cur_ret.
    by destruct (body s at_) as [|[]].
Qed.

Lemma repeat_n_nat {R St} n (body : St → Cursor R St) s at_ :
  repeat_n n body s at_ = repeat_nat (usize n) body s at_.
Proof. destruct n; [done|apply repeat_pos_nat]. Qed.

(** ** Words at a position *)

Definition occurs (words : list N) (at_ : nat) (l : list N) : Prop := slice words at_ (length l) = Some l.

Lemma occurs_app words at_ l1 l2 :
  occurs words at_ (l1 ++ l2) ↔ occurs words at_ l1 ∧ occurs words (at_ + length l1) l2.
Proof.
  unfold occurs, slice. rewrite length_app. split.
  - intros H. case_decide; [|done]. injection H as H.
    rewrite !decide_True by lia. rewrite <-drop_drop. split; f_equal.
    + apply (f_equal (take (length l1))) in H. rewrite take_app_length, take_take in H.
      by rewrite Nat.min_l in H by lia.
    + apply (f_equal (drop (length l1))) in H. rewrite drop_app_length, skipn_firstn_comm in H.
      by replace (_ + _ - _)%nat with (length l2) in H by lia.
  - intros [H1 H2]. case_decide; [|done]. case_decide; [|done]. rewrite decide_True by lia.
    injection H1 as H1. injection H2 as H2. f_equal.
    rewrite <-(take_drop (length l1) (take _ (drop at_ words))), take_take, skipn_firstn_comm, drop_drop.
    rewrite Nat.min_l by lia. replace (_ + _ - _)%nat with (length l2) by lia. by rewrite H1, H2.
Qed.

Lemma occurs_nil words at_ : occurs words at_ [] ↔ (at_ ≤ length words)%nat.
Proof.
  unfold occurs, slice. cbn [length]. rewrite take_0.
  case_decide; split; intros; [lia|done|done|lia].
Qed.

Lemma occurs_singleton words at_ w : occurs words at_ [w] ↔ words !! at_ = Some w.
Proof.
  unfold occurs, slice. cbn [length]. split.
  - intros H. case_decide; [|done]. injection H as H.
    rewrite <-(Nat.add_0_r at_), <-lookup_drop. destruct (drop at_ words); naive_solver.
  - intros H. rewrite decide_True by (apply lookup_lt_Some in H; lia).
    f_equal. rewrite (drop_S _ _ _ H). simpl. by rewrite take_0.
Qed.

Lemma occurs_cons words at_ w l :
  occurs words at_ (w :: l) ↔ words !! at_ = Some w ∧ occurs words (S at_) l.
Proof.
  rewrite (occurs_app words at_ [w] l), occurs_singleton. cbn [length].
  by replace (at_ + 1)%nat with (S at_) by lia.
Qed.

Lemma occurs_whole l : occurs l 0 l.
Proof. unfold occurs. rewrite <-(app_nil_r l) at 1. apply (slice_mid [] l []). Qed.

Lemma occurs_end words at_ l : occurs words at_ l → (at_ + length l ≤ length words)%nat.
Proof. unfold occurs, slice. intros H. by case_decide. Qed.

(** ** Evaluating a decoder on words an encoder wrote *)

Lemma next_word_occurs {R} words at_ w :
  words !! at_ = Some w → next_word (R:=R) words at_ = inr (S at_, w).
Proof. unfold next_word. by intros ->. Qed.

Lemma next_words_occurs {R} words at_ l :
  occurs words at_ l → next_words (R:=R) words (N.of_nat (length l)) at_ = inr ((at_ + length l)%nat, l).
Proof. unfold occurs, next_words. rewrite Nat2N.id. by intros ->. Qed.

(** A loop over encoded items is the fold over the items. *)
Lemma repeat_eval {R St X} (words : list N) (enc : X → list N) (body : St → Cursor R St)
  (step : St → X → option R + St) (xs : list X) s at_ :
  (∀ x s at_, x ∈ xs → occurs words at_ (enc x) →
     body s at_ = let? s' := step s x in inr ((at_ + length (enc x))%nat, s')) →
  occurs words at_ (xs ≫= enc) →
  repeat_n (N.of_nat (length xs)) body s at_ =
    let? s' := try_foldl step s xs in inr ((at_ + length (xs ≫= enc))%nat, s').
Proof.
  rewrite repeat_n_nat, Nat2N.id. intros Hb. revert s at_.
  induction xs as [|x xs IH]; intros s at_ Ho; cbn [length repeat_nat try_foldl].
  { unfold cur_ret. simpl. by rewrite Nat.add_0_r. }
  rewrite bind_cons in Ho. apply occurs_app in Ho as [Ho1 Ho2].
  unfold cur_bind. rewrite (Hb x s at_) by (done || by left).
  destruct (step s x) as [e|s']; simpl; [done|].
  rewrite IH; [|intros; apply Hb; [by right|done]|done]. by rewrite length_app, Nat.add_assoc.
Qed.

(** ** What a decoder accepts

    [reads words m P]: [m] goes on from [at] exactly when some [l] with
    [P l a] stands there, and then it consumes [l] and yields [a]. *)
Definition reads {R A} (words : list N) (m : Cursor R A) (P : list N → A → Prop) : Prop :=
  ∀ at_, (at_ ≤ length words)%nat → ∀ at' a,
    m at_ = inr (at', a) ↔ ∃ l, occurs words at_ l ∧ at' = (at_ + length l)%nat ∧ P l a.

Section reads.
Context {R : Type} (words : list N).

Lemma reads_iff {A} (m : Cursor R A) (P Q : list N → A → Prop) :
  (∀ l a, P l a ↔ Q l a) → reads words m P → reads words m Q.
Proof. intros HPQ Hm at_ Hat at' a. rewrite (Hm at_ Hat). by setoid_rewrite HPQ. Qed.

Lemma reads_ret {A} (a : A) : reads words (cur_ret (R:=R) a) (λ l b, l = [] ∧ b = a).
Proof.
  intros at_ Hat at' b. unfold cur_ret. split.
  - intros [= <- <-]. exists []. rewrite occurs_nil. simpl. split_and!; [done|lia|done|done].
  - intros (l & Ho & -> & -> & ->). simpl. by rewrite Nat.add_0_r.
Qed.

Lemma reads_bind {A B} (m : Cursor R A) (k : A → Cursor R B) P (Q : A → list N → B → Prop) :
  reads words m P → (∀ a, reads words (k a) (Q a)) →
  reads words (cur_bind m k) (λ l b, ∃ l1 l2 a, l = l1 ++ l2 ∧ P l1 a ∧ Q a l2 b).
Proof.
  intros Hm Hk at_ Hat at' b. unfold cur_bind. split.
  - destruct (m at_) as [|[at1 a]] eqn:E; [done|]. intros Hb.
    apply (Hm at_ Hat) in E as (l1 & Ho1 & -> & HP).
    apply (Hk a) in Hb as (l2 & Ho2 & -> & HQ); [|by apply occurs_end].
    exists (l1 ++ l2). rewrite occurs_app, length_app. split_and!; [done|done|lia|naive_solver].
  - intros (l & Ho & -> & l1 & l2 & a & -> & HP & HQ). apply occurs_app in Ho as [Ho1 Ho2].
    assert (m at_ = inr ((at_ + length l1)%nat, a)) as -> by (apply Hm; eauto).
    apply (Hk a); [by apply occurs_end|]. exists l2. rewrite length_app. split_and!; [done|lia|done].
Qed.

Lemma reads_word : reads words (next_word (R:=R) words) (λ l w, l = [w]).
Proof.
  intros at_ Hat at' w. unfold next_word. split.
  - destruct (words !! at_) as [v|] eqn:E; [|done]. intros [= <- <-].
    exists [v]. rewrite occurs_singleton. simpl. split_and!; [done|lia|done].
  - intros (l & Ho & -> & ->). apply occurs_singleton in Ho as ->. simpl. f_equal. f_equal. lia.
Qed.

Lemma reads_words n : reads words (next_words (R:=R) words n) (λ l s, l = s ∧ N.of_nat (length l) = n).
Proof.
  intros at_ Hat at' s. unfold next_words. split.
  - destruct (slice words at_ (usize n)) as [v|] eqn:E; [|done]. intros [= <- <-].
    pose proof (slice_length _ _ _ _ E) as Hl. exists v. unfold occurs. rewrite Hl, E.
    split_and!; [done|done|done|lia].
  - intros (l & Ho & -> & -> & <-). unfold occurs in Ho. by rewrite Nat2N.id, Ho.
Qed.

Lemma reads_return_when cond (r : R) : reads words (return_when cond r) (λ l _, l = [] ∧ cond = false).
Proof.
  destruct cond; simpl.
  - intros at_ _ at' []. unfold cur_return. split; [done|]. naive_solver.
  - eapply reads_iff; [|apply reads_ret]. intros l []. naive_solver.
Qed.

(** The items a loop reads, with the state threaded through them. *)
Inductive items {St} (P : St → list N → St → Prop) : nat → St → list N → St → Prop :=
  | items_nil s : items P 0 s [] s
  | items_cons n s1 l1 s2 l2 s3 : P s1 l1 s2 → items P n s2 l2 s3 → items P (S n) s1 (l1 ++ l2) s3.

Lemma reads_repeat {St} n (body : St → Cursor R St) (P : St → list N → St → Prop) s :
  (∀ s, reads words (body s) (P s)) →
  reads words (repeat_n n body s) (items P (usize n) s).
Proof.
  intros Hb. assert (reads words (repeat_nat (usize n) body s) (items P (usize n) s)) as H;
    [|intros at_ Hat at' a; rewrite repeat_n_nat; by apply H].
  generalize (usize n). clear n. intros n. revert s.
  induction n as [|n IH]; intros s; cbn [repeat_nat].
  - eapply reads_iff; [|apply reads_ret]. intros l a. split; [intros [-> ->]; constructor|].
    inversion 1; by subst.
  - eapply reads_iff; [|apply reads_bind; [apply Hb|exact IH]]. intros l a. split.
    + intros (l1 & l2 & s' & -> & HP & HI). by econstructor.
    + inversion 1; subst. eauto 10.
Qed.

End reads.

(** ** Decoders that never panic

    [safe words m]: from a cursor inside the buffer [m] does not panic, and it
    leaves the cursor inside the buffer. *)
Definition safe {R A} (words : list N) (m : Cursor R A) : Prop :=
  ∀ at_, (at_ ≤ length words)%nat →
    match m at_ with inl e => e ≠ None | inr (at', _) => (at' ≤ length words)%nat end.

Create HintDb cursor.

Section safe.
Context {R : Type} (words : list N).

Lemma safe_ret {A} (a : A) : safe words (cur_ret (R:=R) a).
Proof. by intros at_ Hat. Qed.

Lemma safe_bind {A B} (m : Cursor R A) (k : A → Cursor R B) :
  safe words m → (∀ a, safe words (k a)) → safe words (cur_bind m k).
Proof.
  intros Hm Hk at_ Hat. unfold cur_bind. specialize (Hm at_ Hat).
  destruct (m at_) as [|[at1 a]]; [done|]. by apply Hk.
Qed.

Lemma safe_return_when cond (r : R) : safe words (return_when cond r).
Proof. intros at_ Hat. by destruct cond. Qed.

Lemma safe_repeat {St} n (body : St → Cursor R St) s :
  (∀ s, safe words (body s)) → safe words (repeat_n n body s).
Proof.
  intros Hb at_ Hat. rewrite repeat_n_nat. generalize (usize n). clear n. intros n.
  revert s at_ Hat. induction n as [|n IH]; intros s at_ Hat; [done|]. cbn [repeat_nat].
  apply (safe_bind (body s) (repeat_nat n body)); [apply Hb| |done].
  intros s' at1 Hat1. by apply IH.
Qed.

End safe.

#[export] Hint Resolve safe_ret safe_bind safe_return_when safe_repeat : cursor.
