(* ===== verification/Util.v ===== *)
(** * Hashing utilities ([engine/src/util.rs])

    FNV-1a, the signature key of a feature group, its zero reservation and the
    universal signature, all on [u64] values kept in range by explicit
    wrap-around. *)

From S2P Require Import Prelude.

Definition FNV_BASIS : N := 0xcbf29ce484222325.
Definition FNV_PRIME : N := 0x100000001b3.
Definition AVALANCHE : N := 0xff51afd7ed558ccd.

(** [fnv1a64]: bytes are values below 256. *)
Definition fnv1a64_step (h b : N) : N := wrap64 (N.lxor h b * FNV_PRIME).
Definition fnv1a64 (bytes : list N) : N := foldl fnv1a64_step FNV_BASIS bytes.

Definition xorshift33 (h : N) : N := N.lxor h (N.shiftr h 33).

(** The avalanche of [finalize_sig], before the fold of [0] to [1]. *)
Definition avalanche (h : N) : N := xorshift33 (wrap64 (xorshift33 h * AVALANCHE)).

Definition finalize_sig (h : N) : N :=
  let h := avalanche h in
  if h =? 0 then 1 else h.

Definition sig_step (h f : N) : N :=
  let h := wrap64 (N.lxor h f * FNV_PRIME) in
  wrap64 (N.lxor h (N.shiftr f 13) * FNV_PRIME).

Definition sig_accumulate (features : list N) : N := foldl sig_step FNV_BASIS features.

Definition sig_key (features : list N) : N := finalize_sig (sig_accumulate features).

Definition universal_sig : N := sig_key [].

(** ** Bit-level facts about [u64] values *)

Lemma xorshift33_fits h : fits 64 h → fits 64 (xorshift33 h).
Proof. intros. apply lxor_fits; auto using shiftr_fits. Qed.

Lemma avalanche_fits h : fits 64 (avalanche h).
Proof. apply xorshift33_fits, wrap_fits. Qed.

Lemma sig_accumulate_fits fs : fits 64 (sig_accumulate fs).
Proof.
  unfold sig_accumulate. destruct fs as [|f fs] using rev_ind; [done|].
  rewrite foldl_app. apply wrap_fits.
Qed.

(** [xorshift33] undoes itself on 64-bit values. *)
Lemma xorshift33_involutive h : fits 64 h → xorshift33 (xorshift33 h) = h.
Proof.
  intros Hh. apply N.bits_inj. intros i. unfold xorshift33.
  rewrite !N.lxor_spec, !N.shiftr_spec', N.lxor_spec, N.shiftr_spec'.
  rewrite (fits_testbit 64 h (i + 33 + 33)) by (done || lia).
  destruct (N.testbit h i), (N.testbit h (i + 33)); done.
Qed.

(** The avalanche multiplier is odd, so multiplication by it is invertible. *)
Definition AVALANCHE_INV : N := 0x4f74430c22a54005.

Lemma avalanche_mul_inv a : fits 64 a → wrap64 (wrap64 (a * AVALANCHE) * AVALANCHE_INV) = a.
Proof.
  intros Ha. unfold wrap. rewrite N.Div0.mul_mod_idemp_l, <-N.mul_assoc.
  rewrite <-N.Div0.mul_mod_idemp_r.
  replace ((AVALANCHE * AVALANCHE_INV) mod 2 ^ 64) with 1 by (vm_compute; reflexivity).
  rewrite N.mul_1_r. by apply N.mod_small.
Qed.

Lemma avalanche_inj_u64 a b : fits 64 a → fits 64 b → avalanche a = avalanche b → a = b.
Proof.
  intros Ha Hb E. unfold avalanche in E.
  apply (f_equal xorshift33) in E.
  rewrite !xorshift33_involutive in E by apply wrap_fits.
  apply (f_equal (λ n, wrap64 (n * AVALANCHE_INV))) in E.
  rewrite !avalanche_mul_inv in E by auto using xorshift33_fits.
  apply (f_equal xorshift33) in E. by rewrite !xorshift33_involutive in E.
Qed.

Lemma avalanche_zero h : fits 64 h → avalanche h = 0 ↔ h = 0.
Proof.
  intros Hh. split; [|by intros ->].
  intros E. apply avalanche_inj_u64; [done|done|]. by rewrite E.
Qed.

Lemma finalize_sig_nonzero h : finalize_sig h ≠ 0.
Proof. unfold finalize_sig. destruct (N.eqb_spec (avalanche h) 0); lia. Qed.

(** The fold of zero perturbs exactly one accumulator value: every non-zero
    accumulator keeps its avalanche, and no two of them share a key. *)
Theorem finalize_sig_zero_reservation a b :
  fits 64 a → fits 64 b → a ≠ 0 → b ≠ 0 →
  finalize_sig a = avalanche a ∧ fits 64 (finalize_sig a) ∧ finalize_sig a ≠ 0 ∧
  (finalize_sig a = finalize_sig b → a = b).
Proof.
  intros Ha Hb Ha0 Hb0.
  assert (∀ h, fits 64 h → h ≠ 0 → finalize_sig h = avalanche h) as Heq.
  { intros h Hh Hh0. unfold finalize_sig.
    destruct (N.eqb_spec (avalanche h) 0) as [E|]; [|done].
    by rewrite avalanche_zero in E. }
  rewrite !Heq by done. split; [done|]. split; [apply avalanche_fits|].
  split; [by rewrite avalanche_zero|]. by apply avalanche_inj_u64.
Qed.

Lemma finalize_sig_zero_reservation_witness :
  finalize_sig 42 = avalanche 42 ∧ fits 64 (finalize_sig 42) ∧ finalize_sig 42 ≠ 0 ∧
  (finalize_sig 42 = finalize_sig 43 → 42 = 43).
Proof. apply (finalize_sig_zero_reservation 42 43); done. Defined.

(** A signature key is a non-zero [u64]. *)
Lemma sig_key_range fs : sig_key fs ≠ 0 ∧ fits 64 (sig_key fs).
Proof.
  split; [apply finalize_sig_nonzero|]. unfold sig_key, finalize_sig.
  destruct (_ =? 0); [done|apply avalanche_fits].
Qed.
