(* ===== verification/Crc.v ===== *)
(** * The checksum of the durable files ([engine/src/storage.rs])

    CRC-32 over byte strings, table driven and eight bytes at a time.  The
    reference is the division of a bit polynomial, one bit per step
    ([crc_bit]): the checksum of [n] bytes is [8 n] steps from the initial value
    with the bytes, as one little-endian number, added to it. *)

From S2P Require Import Prelude.
From Stdlib Require Import Btauto.

Definition CRC32_POLYNOMIAL : N := 0xEDB88320.

(** One round of the inner loop of [crc32_tables]. *)
Definition crc_bit (crc : N) : N :=
  if negb (N.land crc 1 =? 0) then N.lxor (N.shiftr crc 1) CRC32_POLYNOMIAL else N.shiftr crc 1.

Definition first_table : list N := (λ byte, Nat.iter 8 crc_bit (N.of_nat byte)) <$> seq 0 256.

Definition next_table (previous : list N) : list N :=
  (λ p, N.lxor (N.shiftr p 8) (first_table !!! usize (N.land p 0xFF))) <$> previous.

(** [CRC32_TABLES], a constant of the source. *)
Definition crc32_tables : list (list N) := (λ k, Nat.iter k next_table first_table) <$> seq 0 8.
Definition CRC32_TABLES : list (list N) := Eval vm_compute in crc32_tables.

(** The arrays have 256 entries and the index is a byte. *)
Definition crc_table (k : nat) (byte : N) : N := (CRC32_TABLES !!! k) !!! usize byte.

Definition crc_new : N := 0xFFFFFFFF.
Definition crc_finish (crc : N) : N := N.lxor crc 0xFFFFFFFF.

Definition crc_update (crc byte : N) : N :=
  N.lxor (crc_table 0 (N.land (N.lxor crc byte) 0xFF)) (N.shiftr crc 8).

(** [from_le_bytes]. *)
Definition le_value (bytes : list N) : N := foldr (λ byte acc, byte + 256 * acc) 0 bytes.

Fixpoint crc_update_slice (crc : N) (data : list N) : N :=
  match data with
  | c0 :: c1 :: c2 :: c3 :: c4 :: c5 :: c6 :: c7 :: rest =>
      let low := N.lxor crc (le_value [c0; c1; c2; c3]) in
      crc_update_slice
        (N.lxor (N.lxor (N.lxor (N.lxor (N.lxor (N.lxor (N.lxor
          (crc_table 7 (N.land low 0xFF))
          (crc_table 6 (N.land (N.shiftr low 8) 0xFF)))
          (crc_table 5 (N.land (N.shiftr low 16) 0xFF)))
          (crc_table 4 (N.shiftr low 24)))
          (crc_table 3 c4)) (crc_table 2 c5)) (crc_table 1 c6)) (crc_table 0 c7)) rest
  | remainder => foldl crc_update crc remainder
  end.

Definition crc32 (data : list N) : N := crc_finish (crc_update_slice crc_new data).

(** ** Bytes *)

Definition byte_ok (b : N) : Prop := b < 256.
Abbreviation bytes_ok := (Forall byte_ok).

Lemma add_disjoint b a : b < 256 → b + 256 * a = N.lxor b (N.shiftl a 8).
Proof.
  intros Hb. rewrite N.mul_comm. change (a * 256) with (a * 2 ^ 8). rewrite <-N.shiftl_mul_pow2.
  rewrite N.add_nocarry_lxor; [done|]. apply N.bits_inj. intros i. rewrite N.land_spec, N.bits_0.
  destruct (N.lt_ge_cases i 8) as [Hi|Hi]; [by rewrite N.shiftl_spec_low, andb_false_r|].
  rewrite (fits_testbit 8 b i) by done. done.
Qed.

Lemma le_value_cons b l : b < 256 → le_value (b :: l) = N.lxor b (N.shiftl (le_value l) 8).
Proof. intros Hb. simpl. by rewrite add_disjoint. Qed.

Lemma le_value_bound l : bytes_ok l → le_value l < 2 ^ (8 * N.of_nat (length l)).
Proof.
  induction 1 as [|b l Hb _ IH]; [done|]. unfold byte_ok in Hb. simpl.
  replace (8 * N.of_nat (S (length l))) with (8 + 8 * N.of_nat (length l)) by lia. rewrite N.pow_add_r.
  change (2 ^ 8) with 256. lia.
Qed.

Lemma le_value_inj l k : bytes_ok l → bytes_ok k → length l = length k → le_value l = le_value k → l = k.
Proof.
  intros Hl. revert k. induction Hl as [|b l Hb Hl IH]; intros [|c k] Hk Hlen E; simpl in *; [done..|].
  inversion Hk as [|? ? Hc Hk']; subst. unfold byte_ok in *. f_equal; [lia|]. apply IH; [done|lia|lia].
Qed.

(** ** The division step *)

Lemma crc_bit_odd x : crc_bit x = if N.testbit x 0 then N.lxor (N.shiftr x 1) CRC32_POLYNOMIAL else N.shiftr x 1.
Proof.
  unfold crc_bit. change 1 with (N.ones 1) at 1. rewrite N.land_ones, <-N.bit0_mod. by destruct (N.testbit x 0).
Qed.

Lemma crc_bit_lxor a b : crc_bit (N.lxor a b) = N.lxor (crc_bit a) (crc_bit b).
Proof.
  rewrite !crc_bit_odd, N.lxor_spec, N.shiftr_lxor. apply N.bits_inj. intros i.
  destruct (N.testbit a 0), (N.testbit b 0); simpl; rewrite !N.lxor_spec; btauto.
Qed.

Definition crc_byte : N → N := Nat.iter 8 crc_bit.

Lemma crc_byte_lxor a b : crc_byte (N.lxor a b) = N.lxor (crc_byte a) (crc_byte b).
Proof. unfold crc_byte. simpl. by rewrite !crc_bit_lxor. Qed.

Lemma crc_bit_double a : crc_bit (N.shiftl a 1) = a.
Proof. rewrite crc_bit_odd, N.shiftl_spec_low by done. by rewrite N.shiftr_shiftl_l, N.shiftl_0_r. Qed.

Lemma crc_byte_shift a : crc_byte (N.shiftl a 8) = a.
Proof.
  unfold crc_byte. change 8 with (1 + 1 + 1 + 1 + 1 + 1 + 1 + 1) at 1. rewrite <-!N.shiftl_shiftl. simpl. by rewrite !crc_bit_double.
Qed.

Lemma crc_bit_bound x : x < 2 ^ 32 → crc_bit x < 2 ^ 32.
Proof.
  intros Hx. assert (N.shiftr x 1 < 2 ^ 32) as Hs.
  { rewrite N.shiftr_div_pow2. eapply N.le_lt_trans; [|exact Hx]. apply N.Div0.div_le_upper_bound. change (2 ^ 1) with 2. lia. }
  rewrite crc_bit_odd. destruct (N.testbit x 0); [|done]. by apply lxor_fits.
Qed.

(** On 32-bit values a step loses nothing: the top bit of the result says
    whether the polynomial was added. *)
Lemma crc_bit_inj x y : x < 2 ^ 32 → y < 2 ^ 32 → crc_bit x = crc_bit y → x = y.
Proof.
  intros Hx Hy E. assert (N.testbit x 0 = N.testbit y 0 ∧ N.shiftr x 1 = N.shiftr y 1) as [E0 Es].
  { assert (∀ z, z < 2 ^ 32 → N.testbit (crc_bit z) 31 = N.testbit z 0) as Htop.
    { intros z Hz. assert (N.testbit z 32 = false) as H32 by (by apply (fits_testbit 32)).
      rewrite crc_bit_odd. destruct (N.testbit z 0); rewrite ?N.lxor_spec, N.shiftr_spec'; change (31 + 1) with 32; by rewrite H32. }
    assert (N.testbit x 0 = N.testbit y 0) as E0 by (rewrite <-!Htop by done; by rewrite E). split; [done|].
    rewrite !crc_bit_odd, <-E0 in E. destruct (N.testbit x 0); [|done].
    apply (f_equal (λ z, N.lxor z CRC32_POLYNOMIAL)) in E. by rewrite !N.lxor_assoc, !N.lxor_nilpotent, !N.lxor_0_r in E. }
  apply N.bits_inj. intros i. destruct (decide (i = 0)) as [->|Hi]; [done|].
  replace i with (N.pred i + 1) by lia. by rewrite <-!N.shiftr_spec', Es.
Qed.

(** What a step keeps: 32-bit values, one to one. *)
Definition crc_perm (f : N → N) : Prop :=
  (∀ x, x < 2 ^ 32 → f x < 2 ^ 32) ∧ ∀ x y, x < 2 ^ 32 → y < 2 ^ 32 → f x = f y → x = y.

Lemma iter_perm f n : crc_perm f → crc_perm (Nat.iter n f).
Proof.
  intros [Hb Hi]. induction n as [|n [IHb IHi]]; [by split|]. split; simpl; [auto|]. intros x y Hx Hy E. apply IHi, Hi; auto.
Qed.

Lemma crc_byte_perm : crc_perm crc_byte.
Proof. apply iter_perm. split; [apply crc_bit_bound|apply crc_bit_inj]. Qed.

Lemma low_high x : x = N.lxor (N.land x 0xFF) (N.shiftl (N.shiftr x 8) 8).
Proof.
  apply N.bits_inj. intros i. rewrite N.lxor_spec, N.land_spec. change 0xFF with (N.ones 8).
  destruct (N.lt_ge_cases i 8) as [Hi|Hi].
  - by rewrite N.ones_spec_low, N.shiftl_spec_low, andb_true_r, xorb_false_r.
  - rewrite N.ones_spec_high, N.shiftl_spec_high', N.shiftr_spec', andb_false_r by done. rewrite xorb_false_l. f_equal. lia.
Qed.

Lemma crc_byte_split x : crc_byte x = N.lxor (crc_byte (N.land x 0xFF)) (N.shiftr x 8).
Proof. by rewrite (low_high x) at 1; rewrite crc_byte_lxor, crc_byte_shift. Qed.

(** ** The tables *)

Lemma crc_table_spec k b : (k < 8)%nat → b < 256 → crc_table k b = Nat.iter (S k) crc_byte b.
Proof.
  intros Hk Hb.
  assert (forallb (λ k, forallb (λ b, crc_table k (N.of_nat b) =? Nat.iter (S k) crc_byte (N.of_nat b)) (seq 0 256)) (seq 0 8) = true) as H
    by by vm_compute.
  rewrite forallb_forall in H. specialize (H k). rewrite in_seq in H. specialize (H ltac:(lia)). cbv beta in H.
  rewrite forallb_forall in H. specialize (H (N.to_nat b)). rewrite in_seq, N2Nat.id in H. apply N.eqb_eq, H. lia.
Qed.

Lemma land_byte x : N.land x 0xFF < 256.
Proof. change 0xFF with (N.ones 8). rewrite N.land_ones. by apply N.mod_lt. Qed.

Lemma crc_update_byte crc b : b < 256 → crc_update crc b = crc_byte (N.lxor crc b).
Proof.
  intros Hb. unfold crc_update. rewrite crc_table_spec by (lia || apply land_byte). rewrite (crc_byte_split (N.lxor crc b)).
  simpl Nat.iter. f_equal. rewrite N.shiftr_lxor. assert (N.shiftr b 8 = 0) as ->; [|by rewrite N.lxor_0_r].
  by apply N.shiftr_eq_0_iff; destruct (decide (b = 0)); [left|right; split; [lia|apply N.log2_lt_pow2; lia]].
Qed.

(** Bytes in turn: as many division steps, from the value with the bytes added. *)
Lemma crc_updates data crc :
  bytes_ok data → foldl crc_update crc data = Nat.iter (length data) crc_byte (N.lxor crc (le_value data)).
Proof.
  intros Hd. revert crc. induction Hd as [|b data Hb Hd IH]; intros crc; [by rewrite N.lxor_0_r|].
  rewrite le_value_cons by done. cbn [foldl length]. rewrite IH, crc_update_byte by done.
  rewrite Nat.iter_succ_r. f_equal. by rewrite <-N.lxor_assoc, (crc_byte_lxor _ (N.shiftl _ _)), crc_byte_shift.
Qed.

Lemma iter_lxor n a b : Nat.iter n crc_byte (N.lxor a b) = N.lxor (Nat.iter n crc_byte a) (Nat.iter n crc_byte b).
Proof. induction n as [|n IH]; [done|]. simpl. by rewrite IH, crc_byte_lxor. Qed.

Lemma iter_shift n a : Nat.iter (S n) crc_byte (N.shiftl a 8) = Nat.iter n crc_byte a.
Proof. by rewrite Nat.iter_succ_r, crc_byte_shift. Qed.

Lemma iter_split n x :
  Nat.iter (S n) crc_byte x = N.lxor (Nat.iter (S n) crc_byte (N.land x 0xFF)) (Nat.iter n crc_byte (N.shiftr x 8)).
Proof. by rewrite (low_high x) at 1; rewrite iter_lxor, iter_shift. Qed.

Lemma iter_le_cons n b l :
  b < 256 → Nat.iter (S n) crc_byte (le_value (b :: l)) = N.lxor (Nat.iter (S n) crc_byte b) (Nat.iter n crc_byte (le_value l)).
Proof. intros Hb. by rewrite le_value_cons, iter_lxor, iter_shift. Qed.

Lemma le_value_app l k :
  bytes_ok l → le_value (l ++ k) = N.lxor (le_value l) (N.shiftl (le_value k) (8 * N.of_nat (length l))).
Proof.
  induction 1 as [|b l Hb Hl IH]; [by rewrite N.shiftl_0_r, N.lxor_0_l|].
  rewrite <-app_comm_cons, !le_value_cons, IH by done. rewrite N.shiftl_lxor, N.shiftl_shiftl, <-N.lxor_assoc.
  do 2 f_equal. simpl length. lia.
Qed.

Lemma iter_zero n : Nat.iter n crc_byte 0 = 0.
Proof. induction n as [|n IH]; [done|]. simpl Nat.iter. by rewrite IH. Qed.

(** [low] of an eight-byte step. *)
Lemma crc_low crc chunk :
  crc < 2 ^ 32 → bytes_ok chunk → length chunk = 4%nat → N.lxor crc (le_value chunk) < 2 ^ 32.
Proof. intros Hc Hk Hl. apply lxor_fits; [done|]. pose proof (le_value_bound chunk Hk) as Hb. rewrite Hl in Hb. exact Hb. Qed.

Lemma crc_slice_step crc c0 c1 c2 c3 c4 c5 c6 c7 :
  crc < 2 ^ 32 → bytes_ok [c0; c1; c2; c3; c4; c5; c6; c7] →
  let low := N.lxor crc (le_value [c0; c1; c2; c3]) in
  N.lxor (N.lxor (N.lxor (N.lxor (N.lxor (N.lxor (N.lxor
    (crc_table 7 (N.land low 0xFF)) (crc_table 6 (N.land (N.shiftr low 8) 0xFF)))
    (crc_table 5 (N.land (N.shiftr low 16) 0xFF))) (crc_table 4 (N.shiftr low 24)))
    (crc_table 3 c4)) (crc_table 2 c5)) (crc_table 1 c6)) (crc_table 0 c7) =
  foldl crc_update crc [c0; c1; c2; c3; c4; c5; c6; c7].
Proof.
  intros Hc Hk low. assert (bytes_ok [c0; c1; c2; c3] ∧ bytes_ok [c4; c5; c6; c7]) as [Hk1 Hk2].
  { apply Forall_app. done. }
  assert (low < 2 ^ 32) as Hlow by by apply crc_low.
  rewrite crc_updates by done. change [c0; c1; c2; c3; c4; c5; c6; c7] with ([c0; c1; c2; c3] ++ [c4; c5; c6; c7]).
  rewrite le_value_app, <-N.lxor_assoc by done. fold low. clearbody low.
  cbn [length app]. rewrite iter_lxor. change (8 * N.of_nat 4) with (8 + (8 + (8 + 8))). rewrite <-!N.shiftl_shiftl, !iter_shift.
  repeat match goal with H : Forall _ (_ :: _) |- _ => apply Forall_cons in H as [? H] end. unfold byte_ok in *.
  rewrite !iter_le_cons by done. rewrite (iter_split 7 low), (iter_split 6), (iter_split 5), !N.shiftr_shiftr.
  assert (N.shiftr low 24 < 256) by (rewrite N.shiftr_div_pow2; apply N.Div0.div_lt_upper_bound; exact Hlow).
  rewrite !crc_table_spec by (lia || apply land_byte). change (le_value []) with 0. rewrite iter_zero, N.lxor_0_r, <-!N.lxor_assoc. done.
Qed.

Lemma crc_update_bound crc data : bytes_ok data → crc < 2 ^ 32 → foldl crc_update crc data < 2 ^ 32.
Proof.
  intros Hd. revert crc. induction Hd as [|b data Hb _ IH]; intros crc Hc; [done|]. cbn [foldl]. apply IH.
  rewrite crc_update_byte by done. apply crc_byte_perm. apply lxor_fits; [done|]. unfold fits. unfold byte_ok in Hb. change (2 ^ 32) with 4294967296. lia.
Qed.

Lemma crc_update_slice_spec data crc :
  bytes_ok data → crc < 2 ^ 32 → crc_update_slice crc data = foldl crc_update crc data.
Proof.
  remember (length data) as n eqn:Hn. revert data crc Hn.
  induction n as [n IH] using lt_wf_ind. intros data crc -> Hd Hc.
  destruct data as [|c0 [|c1 [|c2 [|c3 [|c4 [|c5 [|c6 [|c7 rest]]]]]]]]; [done..|].
  change (c0 :: c1 :: c2 :: c3 :: c4 :: c5 :: c6 :: c7 :: rest) with ([c0; c1; c2; c3; c4; c5; c6; c7] ++ rest) in Hd |- * at 2.
  apply Forall_app in Hd as [Hd Hr]. rewrite foldl_app. cbn [crc_update_slice]. cbv zeta. rewrite crc_slice_step by done.
  apply (IH (length rest)); [simpl; lia|done|done|by apply crc_update_bound].
Qed.

Lemma crc32_fold data : bytes_ok data → crc32 data = crc_finish (foldl crc_update crc_new data).
Proof. intros Hd. unfold crc32. by rewrite crc_update_slice_spec. Qed.

Lemma crc32_bound data : bytes_ok data → crc32 data < 2 ^ 32.
Proof. intros Hd. rewrite crc32_fold by done. apply lxor_fits; [by apply crc_update_bound|done]. Qed.

(** C25. The table-driven checksum is CRC-32.  Over bytes, taking eight at a time
    through the eight tables and the rest one by one gives the same result as the
    incremental form byte by byte, and both are the bitwise polynomial division:
    [8 n] division steps from the initial value with the [n] bytes, read as one
    little-endian number, added to it. *)
Theorem crc32_reference data :
  bytes_ok data →
  crc32 data = crc_finish (foldl crc_update crc_new data) ∧
  crc32 data = N.lxor (Nat.iter (8 * length data) crc_bit (N.lxor crc_new (le_value data))) 0xFFFFFFFF.
Proof.
  intros Hd. rewrite crc32_fold by done. split; [done|]. unfold crc_finish. f_equal. rewrite crc_updates by done.
  generalize (N.lxor crc_new (le_value data)). generalize (length data). intros n. induction n as [|n IH]; intros x; [done|].
  rewrite !Nat.iter_succ_r, IH. replace (8 * S n)%nat with (8 * n + 8)%nat by lia. by rewrite Nat.iter_add.
Qed.

Lemma crc_updates_inj data x y :
  bytes_ok data → x < 2 ^ 32 → y < 2 ^ 32 → foldl crc_update x data = foldl crc_update y data → x = y.
Proof.
  intros Hd. revert x y. induction Hd as [|c data Hc _ IH]; intros x y Hx Hy E; [done|]. cbn [foldl] in E. unfold byte_ok in Hc.
  assert (∀ z, z < 2 ^ 32 → N.lxor z c < 2 ^ 32) as Hz.
  { intros z Hz. apply lxor_fits; [done|]. unfold fits. change (2 ^ 32) with 4294967296. lia. }
  apply IH in E; [|rewrite crc_update_byte by done; by apply crc_byte_perm, Hz..].
  rewrite !crc_update_byte in E by done. apply crc_byte_perm in E; [|by apply Hz..].
  apply (f_equal (λ z, N.lxor z c)) in E. by rewrite !N.lxor_assoc, !N.lxor_nilpotent, !N.lxor_0_r in E.
Qed.

(** Checksums of equal-length data that differ only within four consecutive bytes
    differ. *)
Lemma crc32_burst pre a b post :
  bytes_ok pre → bytes_ok a → bytes_ok b → bytes_ok post → length a = length b → (length a ≤ 4)%nat →
  a ≠ b → crc32 (pre ++ a ++ post) ≠ crc32 (pre ++ b ++ post).
Proof.
  intros Hp Ha Hb Hq Hl H4 Hne E. rewrite !crc32_fold in E by (apply Forall_app; split; [done|by apply Forall_app]).
  unfold crc_finish in E. apply (f_equal (λ z, N.lxor z 0xFFFFFFFF)) in E. rewrite !N.lxor_assoc, !N.lxor_nilpotent, !N.lxor_0_r in E.
  rewrite !foldl_app in E. set (s := foldl crc_update crc_new pre) in E. assert (s < 2 ^ 32) as Hs by by apply crc_update_bound.
  assert (∀ l, bytes_ok l → (length l ≤ 4)%nat → N.lxor s (le_value l) < 2 ^ 32) as Hx.
  { intros l Hok Hll. apply lxor_fits; [done|]. pose proof (le_value_bound l Hok) as Hbd. unfold fits.
    eapply N.lt_le_trans; [exact Hbd|]. apply N.pow_le_mono_r; lia. }
  rewrite !crc_updates in E by done. clearbody s.
  assert (∀ n, crc_perm (Nat.iter n crc_byte)) as Hperm by (intros n; apply iter_perm, crc_byte_perm).
  set (x := Nat.iter (length a) crc_byte _) in E. set (y := Nat.iter (length b) crc_byte _) in E.
  assert (x = y) as Exy by (apply (crc_updates_inj post); [done|apply Hperm, Hx; [done|lia]..|by rewrite !crc_updates]).
  unfold x, y in Exy. rewrite Hl in Exy. apply Hperm in Exy; [|apply Hx; [done|lia]..].
  apply (f_equal (N.lxor s)) in Exy. rewrite <-!N.lxor_assoc, !N.lxor_nilpotent, !N.lxor_0_l in Exy.
  by apply Hne, le_value_inj.
Qed.

Lemma crc32_reference_witness :
  crc32 (N.of_nat <$> seq 49 9) = 0xCBF43926 ∧
  crc_finish (foldl crc_update crc_new (N.of_nat <$> seq 49 9)) = 0xCBF43926.
Proof.
  destruct (crc32_reference (N.of_nat <$> seq 49 9)) as [E _]; [apply (bool_decide_unpack _); by vm_compute|].
  rewrite <-E. clear E. split; vm_compute; reflexivity.
Defined.
