(* ===== verification/Filter.v ===== *)
(** * The per-segment anchor filter ([engine/src/filter.rs])

    A cache-line blocked bloom filter over signature keys. Every index into the
    flat word array is checked, so [Some _] results also say that the code does
    not panic. *)

From S2P Require Import Prelude Util.

Definition WORDS_PER_BLOCK : nat := 8.
Definition NUM_PROBES : nat := 6.

Record SegmentFilter := mkSegmentFilter {
  filter_data : list N;
  filter_num_blocks : N;
  filter_mask : N;
}.

(** [usize::next_power_of_two] for a positive argument. *)
Definition next_power_of_two (n : N) : N := 2 ^ N.log2_up n.

Definition block_offset (key m : N) : nat :=
  (usize (N.land (N.shiftr key 32) m) * WORDS_PER_BLOCK)%nat.

(** Bit position of probe [i] of [key] inside its 512-bit block. *)
Definition probe_bit_pos (key : N) (i : nat) : N :=
  let lo := wrap32 key in
  let h1 := N.land lo 0x1FF in
  let h2 := N.lor (N.shiftr lo 9) 1 in
  N.land (wrap32 (h1 + wrap32 (N.of_nat i * h2))) 0x1FF.

Fixpoint set_probes_loop (d : list N) (block_start : nat) (key : N) (ps : list nat) : option (list N) :=
  match ps with
  | [] => Some d
  | i :: ps' =>
      let bit_pos := probe_bit_pos key i in
      let word_idx := usize (N.shiftr bit_pos 6) in
      let bit_idx := N.land bit_pos 63 in
      w ← d !! (block_start + word_idx)%nat;
      set_probes_loop (<[(block_start + word_idx)%nat := N.lor w (N.shiftl 1 bit_idx)]> d)
        block_start key ps'
  end.

Definition set_probes (d : list N) (block_start : nat) (key : N) : option (list N) :=
  set_probes_loop d block_start key (seq 0 NUM_PROBES).

Fixpoint check_probes_loop (d : list N) (block_start : nat) (key : N) (ps : list nat) : option bool :=
  match ps with
  | [] => Some true
  | i :: ps' =>
      let bit_pos := probe_bit_pos key i in
      let word_idx := usize (N.shiftr bit_pos 6) in
      let bit_idx := N.land bit_pos 63 in
      w ← d !! (block_start + word_idx)%nat;
      if N.land w (N.shiftl 1 bit_idx) =? 0 then Some false
      else check_probes_loop d block_start key ps'
  end.

Definition check_probes (d : list N) (block_start : nat) (key : N) : option bool :=
  check_probes_loop d block_start key (seq 0 NUM_PROBES).

Fixpoint build_loop (d : list N) (m : N) (keys : list N) : option (list N) :=
  match keys with
  | [] => Some d
  | key :: keys' =>
      d' ← set_probes d (block_offset key m) key;
      build_loop d' m keys'
  end.

Definition filter_build (keys : list N) : option SegmentFilter :=
  match keys with
  | [] => Some (mkSegmentFilter [] 0 0)
  | _ :: _ =>
      let target_blocks := N.max (N.of_nat (length keys) / 51) 1 in
      let nb := next_power_of_two target_blocks in
      let m := nb - 1 in
      let d := replicate (usize nb * WORDS_PER_BLOCK) 0 in
      d' ← build_loop d m keys;
      Some (mkSegmentFilter d' nb m)
  end.

Definition may_contain (f : SegmentFilter) (key : N) : option bool :=
  match filter_data f with
  | [] => Some false
  | _ :: _ => check_probes (filter_data f) (block_offset key (filter_mask f)) key
  end.

(** The raw-slice twin used by the mmap segment. *)
Definition bloom_check (key : N) (d : list N) (m : N) : option bool :=
  match d with
  | [] => Some false
  | _ :: _ => check_probes d (block_offset key m) key
  end.

(** ** Probe positions stay inside the block *)

Lemma land_low_lt a n : N.land a (N.ones n) < 2 ^ n.
Proof. rewrite N.land_ones. apply N.mod_lt. by apply N.pow_nonzero. Qed.

Lemma probe_word_lt key i : (usize (N.shiftr (probe_bit_pos key i) 6) < WORDS_PER_BLOCK)%nat.
Proof.
  unfold probe_bit_pos. cbv zeta. change 0x1FF with (N.ones 9).
  set (x := wrap32 _). rewrite N.shiftr_div_pow2.
  pose proof (land_low_lt x 9). assert (N.land x (N.ones 9) / 2 ^ 6 < 8).
  { apply N.Div0.div_lt_upper_bound. change (2 ^ 6 * 8) with (2 ^ 9). done. }
  unfold WORDS_PER_BLOCK. lia.
Qed.

(** A block lies inside an array of [2^k] blocks. *)
Lemma block_in_range key k n :
  n = (usize (2 ^ k) * WORDS_PER_BLOCK)%nat →
  (block_offset key (2 ^ k - 1) + WORDS_PER_BLOCK ≤ n)%nat.
Proof.
  intros ->. unfold block_offset.
  assert (2 ^ k - 1 = N.ones k) as -> by (rewrite N.ones_equiv; lia).
  pose proof (land_low_lt (N.shiftr key 32) k) as Hlt. unfold WORDS_PER_BLOCK. lia.
Qed.

(** ** Bits only get set *)

Definition bits_le (d d' : list N) : Prop :=
  length d = length d' ∧
  ∀ i w w' b, d !! i = Some w → d' !! i = Some w' → N.testbit w b = true → N.testbit w' b = true.

#[export] Instance bits_le_preorder : PreOrder bits_le.
Proof.
  split.
  - intros d. split; [done|]. naive_solver.
  - intros d1 d2 d3 [L1 H1] [L2 H2]. split; [congruence|].
    intros i w w' b Hw Hw' Hb.
    destruct (lookup_lt_is_Some_2 d2 i) as [w2 Hw2].
    { apply lookup_lt_Some in Hw. lia. }
    eapply H2; eauto.
Qed.

Lemma bits_le_set d i w x : d !! i = Some w → bits_le d (<[i := N.lor w x]> d).
Proof.
  intros Hi. split; [by rewrite length_insert|].
  intros j v v' b Hv Hv' Hb. destruct (decide (i = j)) as [->|].
  - rewrite list_lookup_insert_eq in Hv' by by eapply lookup_lt_Some. simplify_eq.
    rewrite N.lor_spec, Hb. done.
  - rewrite list_lookup_insert_ne in Hv' by done. by simplify_eq.
Qed.

(** The probe bits of [key] at indices [ps] are set. *)
Definition probes_set (d : list N) (bs : nat) (key : N) (ps : list nat) : Prop :=
  ∀ i, i ∈ ps → ∃ w, d !! (bs + usize (N.shiftr (probe_bit_pos key i) 6))%nat = Some w ∧
    N.testbit w (N.land (probe_bit_pos key i) 63) = true.

Lemma probes_set_mono d d' bs key ps : bits_le d d' → probes_set d bs key ps → probes_set d' bs key ps.
Proof.
  intros [Hlen Hbits] Hp i Hi. destruct (Hp i Hi) as (w & Hw & Hb).
  destruct (lookup_lt_is_Some_2 d' (bs + usize (N.shiftr (probe_bit_pos key i) 6))) as [w' Hw'].
  { apply lookup_lt_Some in Hw. lia. }
  eauto.
Qed.

Lemma set_probes_loop_spec ps d bs key :
  (bs + WORDS_PER_BLOCK ≤ length d)%nat →
  ∃ d', set_probes_loop d bs key ps = Some d' ∧ bits_le d d' ∧ probes_set d' bs key ps.
Proof.
  revert d. induction ps as [|i ps IH]; intros d Hlen; simpl.
  { exists d. split; [done|]. split; [done|]. by intros ? ?%not_elem_of_nil. }
  pose proof (probe_word_lt key i) as Hw.
  set (j := (bs + usize (N.shiftr (probe_bit_pos key i) 6))%nat) in *.
  set (b := N.land (probe_bit_pos key i) 63).
  destruct (lookup_lt_is_Some_2 d j) as [w Hdj]; [lia|]. rewrite Hdj. simpl.
  destruct (IH (<[j:=N.lor w (N.shiftl 1 b)]> d)) as (d' & E & Hle & Hset).
  { by rewrite length_insert. }
  exists d'. split; [done|]. split; [trans (<[j:=N.lor w (N.shiftl 1 b)]> d); auto using bits_le_set|].
  intros i' [->|Hi']%elem_of_cons; [|auto].
  fold j b. destruct Hle as [Hl Hbits].
  destruct (lookup_lt_is_Some_2 d' j) as [w' Hw']; [rewrite length_insert in Hl; lia|].
  exists w'. split; [done|]. eapply Hbits; [|exact Hw'|].
  - apply list_lookup_insert_eq. lia.
  - rewrite N.lor_spec, N.shiftl_spec_high' by lia. rewrite N.sub_diag. apply orb_true_r.
Qed.

Lemma check_probes_loop_true ps d bs key :
  probes_set d bs key ps → check_probes_loop d bs key ps = Some true.
Proof.
  induction ps as [|i ps IH]; intros Hp; simpl; [done|].
  destruct (Hp i) as (w & Hw & Hb); [set_solver|]. rewrite Hw. simpl.
  destruct (N.eqb_spec (N.land w (N.shiftl 1 (N.land (probe_bit_pos key i) 63))) 0) as [E|].
  - exfalso. apply (f_equal (λ n, N.testbit n (N.land (probe_bit_pos key i) 63))) in E.
    rewrite N.land_spec, Hb, N.shiftl_spec_high', N.sub_diag, N.bits_0 in E by lia. done.
  - apply IH. intros j Hj. apply Hp. set_solver.
Qed.

Lemma check_probes_loop_total ps d bs key :
  (bs + WORDS_PER_BLOCK ≤ length d)%nat → ∃ b, check_probes_loop d bs key ps = Some b.
Proof.
  intros Hlen. induction ps as [|i ps IH]; simpl; [eauto|].
  pose proof (probe_word_lt key i).
  destruct (lookup_lt_is_Some_2 d (bs + usize (N.shiftr (probe_bit_pos key i) 6))) as [w ->]; [lia|].
  simpl. destruct (_ =? 0); eauto.
Qed.

(** ** Building *)

Lemma build_loop_spec keys d k :
  length d = (usize (2 ^ k) * WORDS_PER_BLOCK)%nat →
  ∃ d', build_loop d (2 ^ k - 1) keys = Some d' ∧ bits_le d d' ∧
    ∀ key, key ∈ keys → probes_set d' (block_offset key (2 ^ k - 1)) key (seq 0 NUM_PROBES).
Proof.
  revert d. induction keys as [|key keys IH]; intros d Hd; cbn [build_loop].
  { exists d. split; [done|]. split; [done|]. by intros ? ?%not_elem_of_nil. }
  destruct (set_probes_loop_spec (seq 0 NUM_PROBES) d (block_offset key (2 ^ k - 1)) key)
    as (d1 & E1 & Hle1 & Hset1); [by apply block_in_range|].
  unfold set_probes. rewrite E1. simpl.
  destruct (IH d1) as (d2 & E2 & Hle2 & Hset2); [destruct Hle1; congruence|].
  exists d2. split; [done|]. split; [by trans d1|].
  intros key' [->|Hk]%elem_of_cons; [|auto]. by eapply probes_set_mono.
Qed.

(** The shape every built filter has. *)
Definition filter_wf (f : SegmentFilter) : Prop :=
  filter_data f = [] ∨ ∃ k, filter_num_blocks f = 2 ^ k ∧ filter_mask f = filter_num_blocks f - 1 ∧
    length (filter_data f) = (usize (filter_num_blocks f) * WORDS_PER_BLOCK)%nat.

Lemma filter_build_spec keys :
  ∃ f, filter_build keys = Some f ∧ filter_wf f ∧
    ∀ key, key ∈ keys → may_contain f key = Some true.
Proof.
  destruct keys as [|k0 keys].
  { exists (mkSegmentFilter [] 0 0). split; [done|]. split; [by left|]. by intros ? ?%not_elem_of_nil. }
  set (ks := k0 :: keys). unfold filter_build. fold ks. unfold next_power_of_two.
  set (k := N.log2_up _).
  destruct (build_loop_spec ks (replicate (usize (2 ^ k) * WORDS_PER_BLOCK) 0) k)
    as (d & E & [Hlen _] & Hset); [apply length_replicate|].
  rewrite length_replicate in Hlen.
  exists (mkSegmentFilter d (2 ^ k) (2 ^ k - 1)). unfold ks at 1. cbv zeta. rewrite E.
  split; [done|]. split; [right; exists k; done|].
  intros key Hk. unfold may_contain. simpl. destruct d as [|w d'] eqn:Ed.
  - exfalso. simpl in Hlen. pose proof (N.pow_nonzero 2 k ltac:(done)). unfold WORDS_PER_BLOCK in Hlen. lia.
  - rewrite <-Ed in *. by apply check_probes_loop_true, Hset.
Qed.

Lemma may_contain_total f key : filter_wf f → ∃ b, may_contain f key = Some b.
Proof.
  intros [E|(k & Hn & Hm & Hl)]; unfold may_contain; [rewrite E; eauto|].
  destruct (filter_data f) eqn:E; [eauto|]. rewrite <-E in *.
  apply check_probes_loop_total. rewrite Hm, Hn in *. by apply block_in_range.
Qed.

(** C30. Building a filter never panics; the filter answers every key without
    panicking, rejects everything when it was built from no key, and says
    "possibly present" for every key it was built from. *)
Theorem filter_no_false_negatives keys :
  ∃ f, filter_build keys = Some f ∧
    (∀ key, key ∈ keys → may_contain f key = Some true) ∧
    (∀ key, may_contain f key = Some true ∨ may_contain f key = Some false) ∧
    (keys = [] → ∀ key, may_contain f key = Some false) ∧
    (∀ key, bloom_check key (filter_data f) (filter_mask f) = may_contain f key).
Proof.
  destruct (filter_build_spec keys) as (f & E & Hwf & Hk). exists f.
  split; [done|]. split; [done|]. split.
  { intros key. destruct (may_contain_total f key Hwf) as ([] & ->); auto. }
  split; [|done]. intros -> key. simpl in E. by simplify_eq.
Qed.
