(* ===== verification/Text.v ===== *)
(** * Characters and strings

    What the sources use of [char] and [str]: a string is the list of its
    Unicode scalar values, its bytes are their UTF-8 encoding. *)

From S2P Require Import Prelude.
From stdpp Require Export strings.

#[global] Open Scope N_scope.

Abbreviation char := N (only parsing).
Abbreviation rstring := (list N).

(** ASCII literals. *)
Fixpoint str (s : String.string) : rstring :=
  match s with
  | String.EmptyString => []
  | String.String a s' => Ascii.N_of_ascii a :: str s'
  end.

Arguments str s%_string.

Definition SPACE : char := 32.
Definition QUOTE : char := 34.
Definition LPAREN : char := 40.
Definition RPAREN : char := 41.
Definition COMMA : char := 44.
Definition DASH : char := 45.

(** [char::is_whitespace]: the Unicode [White_Space] property. *)
Definition is_whitespace (c : char) : bool :=
  ((9 <=? c) && (c <=? 13)) || (c =? 0x20) || (c =? 0x85) || (c =? 0xA0) || (c =? 0x1680) ||
  ((0x2000 <=? c) && (c <=? 0x200A)) || (c =? 0x2028) || (c =? 0x2029) || (c =? 0x202F) ||
  (c =? 0x205F) || (c =? 0x3000).

(** UTF-8 encoding of one scalar value. *)
Definition utf8 (c : char) : list N :=
  if c <? 0x80 then [c]
  else if c <? 0x800 then [0xC0 + N.shiftr c 6; 0x80 + N.land c 0x3F]
  else if c <? 0x10000 then
    [0xE0 + N.shiftr c 12; 0x80 + N.land (N.shiftr c 6) 0x3F; 0x80 + N.land c 0x3F]
  else
    [0xF0 + N.shiftr c 18; 0x80 + N.land (N.shiftr c 12) 0x3F;
     0x80 + N.land (N.shiftr c 6) 0x3F; 0x80 + N.land c 0x3F].

(** [str::as_bytes] and [str::len]. *)
Definition as_bytes (s : rstring) : list N := mjoin (utf8 <$> s).
Definition str_len (s : rstring) : nat := length (as_bytes s).

(** [str::trim]. *)
Fixpoint trim_start (s : rstring) : rstring :=
  match s with
  | [] => []
  | c :: s' => if is_whitespace c then trim_start s' else s
  end.

Definition trim (s : rstring) : rstring := reverse (trim_start (reverse (trim_start s))).

(** [[str]::join]. *)
Fixpoint join (sep : rstring) (ws : list rstring) : rstring :=
  match ws with
  | [] => []
  | [w] => w
  | w :: ws' => w ++ sep ++ join sep ws'
  end.

(** ** Trimming *)

Definition starts_ws (s : rstring) : Prop := ∃ c s', s = c :: s' ∧ is_whitespace c = true.

Lemma trim_start_suffix s : ∃ k, s = k ++ trim_start s.
Proof.
  induction s as [|c s [k IH]]; simpl; [by exists []|].
  destruct (is_whitespace c); [exists (c :: k); by rewrite IH at 1|by exists []].
Qed.

Lemma trim_start_head s c s' : trim_start s = c :: s' → is_whitespace c = false.
Proof. induction s as [|d s IH]; simpl; [done|]. destruct (is_whitespace d) eqn:E; naive_solver. Qed.

Lemma trim_start_id s : (∀ c s', s = c :: s' → is_whitespace c = false) → trim_start s = s.
Proof. destruct s as [|c s]; simpl; [done|]. intros H. by rewrite (H c s). Qed.

Lemma trim_start_idemp s : trim_start (trim_start s) = trim_start s.
Proof. apply trim_start_id. apply trim_start_head. Qed.

(** The first character of a trimmed suffix survives dropping trailing
    whitespace, so trimming twice is trimming once. *)
Lemma trim_end_head s c s' :
  reverse (trim_start (reverse s)) = c :: s' → ∃ s'', s = c :: s''.
Proof.
  intros E. destruct (trim_start_suffix (reverse s)) as [k Hk].
  apply (f_equal reverse) in Hk. rewrite reverse_involutive, reverse_app, E in Hk.
  simpl in Hk. eauto.
Qed.

Lemma trim_idemp s : trim (trim s) = trim s.
Proof.
  unfold trim. set (t := trim_start s).
  rewrite (trim_start_id (reverse (trim_start (reverse t)))).
  - rewrite reverse_involutive. by rewrite trim_start_idemp.
  - intros c s' (s'' & Ht)%trim_end_head. by eapply trim_start_head.
Qed.

Lemma trim_start_elem c s : c ∈ trim_start s → c ∈ s.
Proof. destruct (trim_start_suffix s) as [k Hk]. rewrite Hk at 2. set_solver. Qed.

Lemma trim_elem c s : c ∈ trim s → c ∈ s.
Proof.
  unfold trim. rewrite elem_of_reverse. intros H%trim_start_elem.
  rewrite elem_of_reverse in H. by apply trim_start_elem.
Qed.
