(* ===== verification/Utf8.v ===== *)
(** * Decoding UTF-8

    [std::str::from_utf8], which the readers of the durable files use: it accepts
    exactly the encodings of strings of Unicode scalar values, and returns the
    string. *)

From S2P Require Import Prelude Text.
From Stdlib Require Import ZArith.

Ltac Zify.zify_post_hook ::= Z.to_euclidean_division_equations.

Definition is_scalar (c : char) : bool := (c <? 0xD800) || ((0xE000 <=? c) && (c <? 0x110000)).

Definition in_range (lo hi b : N) : bool := (lo <=? b) && (b <=? hi).
Definition is_continuation (b : N) : bool := in_range 0x80 0xBF b.

(** The second byte after a first byte of a sequence of three or four. *)
Definition second_ok (b0 b1 : N) : bool :=
  if b0 =? 0xE0 then in_range 0xA0 0xBF b1
  else if b0 =? 0xED then in_range 0x80 0x9F b1
  else if b0 =? 0xF0 then in_range 0x90 0xBF b1
  else if b0 =? 0xF4 then in_range 0x80 0x8F b1
  else is_continuation b1.

Fixpoint from_utf8 (bytes : list N) : option rstring :=
  match bytes with
  | [] => Some []
  | b0 :: rest =>
      if b0 <? 0x80 then cons b0 <$> from_utf8 rest
      else if in_range 0xC2 0xDF b0 then
        match rest with
        | b1 :: rest' =>
            if is_continuation b1 then cons ((b0 - 0xC0) * 0x40 + (b1 - 0x80)) <$> from_utf8 rest' else None
        | _ => None
        end
      else if in_range 0xE0 0xEF b0 then
        match rest with
        | b1 :: b2 :: rest' =>
            if second_ok b0 b1 && is_continuation b2
            then cons ((b0 - 0xE0) * 0x1000 + (b1 - 0x80) * 0x40 + (b2 - 0x80)) <$> from_utf8 rest' else None
        | _ => None
        end
      else if in_range 0xF0 0xF4 b0 then
        match rest with
        | b1 :: b2 :: b3 :: rest' =>
            if second_ok b0 b1 && is_continuation b2 && is_continuation b3
            then cons ((b0 - 0xF0) * 0x40000 + (b1 - 0x80) * 0x1000 + (b2 - 0x80) * 0x40 + (b3 - 0x80)) <$> from_utf8 rest'
            else None
        | _ => None
        end
      else None
  end.

(** A string of the source's type: scalar values only. *)
Definition rstring_ok (s : rstring) : Prop := Forall (λ c, is_scalar c = true) s.

Lemma is_scalar_spec c : is_scalar c = true ↔ c < 0xD800 ∨ 0xE000 ≤ c < 0x110000.
Proof. unfold is_scalar. rewrite orb_true_iff, andb_true_iff, !N.ltb_lt, N.leb_le. done. Qed.

Lemma in_range_spec lo hi b : in_range lo hi b = true ↔ lo ≤ b ≤ hi.
Proof. unfold in_range. by rewrite andb_true_iff, !N.leb_le. Qed.

Lemma in_range_false lo hi b : b < lo ∨ hi < b → in_range lo hi b = false.
Proof. intros Hb. apply not_true_iff_false. rewrite in_range_spec. lia. Qed.

(** The encoding in arithmetic. *)
Lemma utf8_arith c :
  utf8 c =
    if c <? 0x80 then [c]
    else if c <? 0x800 then [0xC0 + c / 0x40; 0x80 + c mod 0x40]
    else if c <? 0x10000 then [0xE0 + c / 0x1000; 0x80 + c / 0x40 mod 0x40; 0x80 + c mod 0x40]
    else [0xF0 + c / 0x40000; 0x80 + c / 0x1000 mod 0x40; 0x80 + c / 0x40 mod 0x40; 0x80 + c mod 0x40].
Proof. unfold utf8. change 0x3F with (N.ones 6). rewrite !N.land_ones, !N.shiftr_div_pow2. done. Qed.

Ltac bool_to_arith :=
  repeat match goal with
         | E : (_ =? _) = true |- _ => apply N.eqb_eq in E
         | E : (_ =? _) = false |- _ => apply N.eqb_neq in E
         | E : (_ <? _) = true |- _ => apply N.ltb_lt in E
         | E : (_ <? _) = false |- _ => apply N.ltb_ge in E
         | E : in_range _ _ _ = true |- _ => apply in_range_spec in E
         | E : _ && _ = true |- _ => apply andb_true_iff in E as [? ?]
         end.

Lemma from_utf8_char c bytes : is_scalar c = true → from_utf8 (utf8 c ++ bytes) = cons c <$> from_utf8 bytes.
Proof.
  intros Hc%is_scalar_spec. rewrite utf8_arith. unfold is_continuation.
  assert (∀ lo hi b, lo ≤ b ≤ hi → in_range lo hi b = true) as Hin by (intros; by apply in_range_spec).
  destruct (N.ltb_spec c 0x80) as [H1|H1]; [cbn [app from_utf8]; by rewrite (proj2 (N.ltb_lt _ _) H1)|].
  destruct (N.ltb_spec c 0x800) as [H2|H2]; [|destruct (N.ltb_spec c 0x10000) as [H3|H3]]; cbn [app from_utf8]; unfold is_continuation.
  - rewrite (proj2 (N.ltb_ge (0xC0 + c / 0x40) 0x80)) by lia. rewrite !Hin by lia. f_equal. f_equal. lia.
  - rewrite (proj2 (N.ltb_ge (0xE0 + c / 0x1000) 0x80)) by lia. rewrite (in_range_false 0xC2), !(Hin 0xE0), (Hin 0x80 0xBF (0x80 + c mod 0x40)) by lia.
    assert (second_ok (0xE0 + c / 0x1000) (0x80 + c / 0x40 mod 0x40) = true) as ->.
    { unfold second_ok, is_continuation. repeat case_match; try apply Hin; bool_to_arith; lia. }
    simpl andb. cbv iota. f_equal. f_equal. lia.
  - rewrite (proj2 (N.ltb_ge (0xF0 + c / 0x40000) 0x80)) by lia.
    rewrite (in_range_false 0xC2), (in_range_false 0xE0), !(Hin 0xF0), (Hin 0x80 0xBF (0x80 + c mod 0x40)), (Hin 0x80 0xBF (0x80 + c / 0x40 mod 0x40)) by lia.
    assert (second_ok (0xF0 + c / 0x40000) (0x80 + c / 0x1000 mod 0x40) = true) as ->.
    { unfold second_ok, is_continuation. repeat case_match; try apply Hin; bool_to_arith; lia. }
    simpl andb. cbv iota. f_equal. f_equal. lia.
Qed.

Lemma from_utf8_as_bytes s : rstring_ok s → from_utf8 (as_bytes s) = Some s.
Proof.
  unfold as_bytes. induction 1 as [|c s Hc _ IH]; [done|]. rewrite fmap_cons. simpl mjoin. by rewrite from_utf8_char, IH.
Qed.

Lemma as_bytes_ok s : rstring_ok s → Forall (λ b, b < 256) (as_bytes s).
Proof.
  unfold as_bytes. induction 1 as [|c s Hc _ IH]; [constructor|]. rewrite fmap_cons. simpl mjoin. apply Forall_app. split; [|done].
  apply is_scalar_spec in Hc. rewrite utf8_arith. repeat case_match; repeat constructor; bool_to_arith; lia.
Qed.

(** What the decoder accepts at the front is the encoding of the scalar it
    returns. *)
Lemma from_utf8_head b0 rest s :
  from_utf8 (b0 :: rest) = Some s →
  ∃ c s' rest', s = c :: s' ∧ is_scalar c = true ∧ b0 :: rest = utf8 c ++ rest' ∧ from_utf8 rest' = Some s'.
Proof.
  assert (∀ c r, is_scalar c = true → b0 :: rest = utf8 c ++ r → cons c <$> from_utf8 r = Some s →
    ∃ c s' rest', s = c :: s' ∧ is_scalar c = true ∧ b0 :: rest = utf8 c ++ rest' ∧ from_utf8 rest' = Some s') as Hgo.
  { intros c r Hc E. destruct (from_utf8 r) as [s'|] eqn:Er; simpl; [|done]. intros [= <-]. by exists c, s', r. }
  cbn [from_utf8]. unfold second_ok, is_continuation. destruct (b0 <? 0x80) eqn:E0; bool_to_arith.
  { apply Hgo; [apply is_scalar_spec; lia|]. rewrite utf8_arith. by rewrite (proj2 (N.ltb_lt _ _) E0). }
  destruct (in_range 0xC2 0xDF b0) eqn:E2; bool_to_arith.
  { destruct rest as [|b1 rest']; [done|]. destruct (in_range _ _ b1) eqn:F1; [|done]. bool_to_arith.
    apply Hgo; [apply is_scalar_spec; lia|]. rewrite utf8_arith. rewrite (proj2 (N.ltb_ge _ _)), (proj2 (N.ltb_lt _ 0x800)) by lia.
    simpl. repeat f_equal; lia. }
  destruct (in_range 0xE0 0xEF b0) eqn:E3; bool_to_arith.
  { destruct rest as [|b1 [|b2 rest']]; [done..|]. destruct (_ && _) eqn:F1; [|done]. apply andb_true_iff in F1 as [F1 F2].
    set (c := _ + (b2 - 0x80)). assert (0x800 ≤ c < 0x10000 ∧ is_scalar c = true) as [Hc Hs].
    { rewrite is_scalar_spec. unfold c. repeat case_match; bool_to_arith; lia. }
    apply Hgo; [done|]. rewrite utf8_arith. rewrite !(proj2 (N.ltb_ge _ _)), (proj2 (N.ltb_lt _ 0x10000)) by lia.
    assert (0x80 ≤ b1 ≤ 0xBF) by (repeat case_match; bool_to_arith; lia). bool_to_arith. unfold c. simpl. repeat f_equal; lia. }
  destruct (in_range 0xF0 0xF4 b0) eqn:E4; bool_to_arith; [|done].
  destruct rest as [|b1 [|b2 [|b3 rest']]]; [done..|]. destruct (_ && _) eqn:F1; [|done].
  apply andb_true_iff in F1 as [F1 F3]. apply andb_true_iff in F1 as [F1 F2].
  set (c := _ + (b3 - 0x80)). assert (0x10000 ≤ c < 0x110000) as Hc by (unfold c; repeat case_match; bool_to_arith; lia).
  apply Hgo; [apply is_scalar_spec; lia|]. rewrite utf8_arith. rewrite !(proj2 (N.ltb_ge _ _)) by lia.
  assert (0x80 ≤ b1 ≤ 0xBF) by (repeat case_match; bool_to_arith; lia). bool_to_arith. unfold c. simpl. repeat f_equal; lia.
Qed.

Lemma from_utf8_sound bytes s : from_utf8 bytes = Some s → rstring_ok s ∧ as_bytes s = bytes.
Proof.
  remember (length bytes) as n eqn:Hn. revert bytes s Hn. induction n as [n IH] using lt_wf_ind. intros [|b0 rest] s -> E.
  { simpl in E. simplify_eq. split; [constructor|done]. }
  apply from_utf8_head in E as (c & s' & rest' & -> & Hc & E & Es). rewrite E.
  destruct (IH (length rest')) with rest' s' as [Hs' <-]; [|done..|].
  - rewrite E, length_app. unfold utf8. repeat case_match; simpl; lia.
  - split; [by constructor|done].
Qed.
