(* ===== verification/Dsl.v ===== *)
(** * The query DSL parser ([engine/src/dsl.rs])

    The parser works on the input's characters with the index of the current
    one, as the source does. The outer [while] runs on fuel; [parse_total]
    shows that the fuel handed over is always enough. *)

From S2P Require Import Prelude Text.

Record ParseLimits := mkParseLimits {
  max_query_length : N;
  max_clauses : N;
  max_any_of_size : N;
}.

Definition MAX_QUERY_LENGTH : N := 10240.
Definition MAX_CLAUSES : N := 256.
Definition MAX_ANY_OF_SIZE : N := 64.

Definition default_limits : ParseLimits :=
  mkParseLimits MAX_QUERY_LENGTH MAX_CLAUSES MAX_ANY_OF_SIZE.

(** The part of [error.rs]'s kinds the parser raises. *)
Inductive ParseErrorKind :=
  | TrailingDash | UnclosedGroup | UnclosedQuote | EmptyAnyOfGroup
  | QueryTooLong | TooManyClauses | AnyOfGroupTooLarge
  | TooManyTags | TagFieldTooLong | CompiledColumnTooLarge.

Record ParseError := mkParseError { kind : ParseErrorKind; pos : nat }.

Inductive Atom :=
  | Term (w : rstring)
  | Phrase (w : rstring)
  | AnyOf (members : list rstring).

Record Clause := mkClause { negated : bool; atom : Atom }.

(** [Ast { clauses }]. *)
Abbreviation Ast := (list Clause).

Definition push_member (members : list rstring) (cur : rstring) : list rstring :=
  match trim cur with
  | [] => members
  | t => members ++ [t]
  end.

(** The inner loops: each returns the index after what it consumed and the
    remaining characters. *)
Fixpoint skip_whitespace (i : nat) (cs : rstring) : nat * rstring :=
  match cs with
  | c :: cs' => if is_whitespace c then skip_whitespace (S i) cs' else (i, cs)
  | [] => (i, [])
  end.

(** The body of a group up to and including [')']; [None] when it never closes. *)
Fixpoint scan_group (i : nat) (cs : rstring) (members : list rstring) (cur : rstring)
  : option (nat * rstring * list rstring) :=
  match cs with
  | [] => None
  | c :: cs' =>
      if c =? RPAREN then Some (S i, cs', push_member members cur)
      else if c =? COMMA then scan_group (S i) cs' (push_member members cur) []
      else if is_whitespace c then scan_group (S i) cs' members (cur ++ [SPACE])
      else scan_group (S i) cs' members (cur ++ [c])
  end.

Fixpoint scan_quote (i : nat) (cs : rstring) (phrase : rstring) : option (nat * rstring * rstring) :=
  match cs with
  | [] => None
  | c :: cs' =>
      if c =? QUOTE then Some (S i, cs', phrase)
      else scan_quote (S i) cs' (phrase ++ [c])
  end.

Definition word_char (c : char) : bool :=
  negb (is_whitespace c) && negb (c =? LPAREN) && negb (c =? QUOTE).

Fixpoint scan_word (i : nat) (cs : rstring) (word : rstring) : nat * rstring * rstring :=
  match cs with
  | c :: cs' => if word_char c then scan_word (S i) cs' (word ++ [c]) else (i, cs, word)
  | [] => (i, [], word)
  end.

(** The [match chars[i]] of the main loop; [cs] is not empty. *)
Definition parse_atom (limits : ParseLimits) (i : nat) (cs : rstring)
  : ParseError + (nat * rstring * Atom) :=
  match cs with
  | [] => inr (i, [], Term [])
  | c :: cs' =>
      if c =? LPAREN then
        match scan_group (S i) cs' [] [] with
        | None => inl (mkParseError UnclosedGroup i)
        | Some (i', rest, members) =>
            match members with
            | [] => inl (mkParseError EmptyAnyOfGroup i)
            | _ =>
                if max_any_of_size limits <? N.of_nat (length members)
                then inl (mkParseError AnyOfGroupTooLarge i)
                else inr (i', rest, AnyOf members)
            end
        end
      else if c =? QUOTE then
        match scan_quote (S i) cs' [] with
        | None => inl (mkParseError UnclosedQuote i)
        | Some (i', rest, phrase) => inr (i', rest, Phrase (trim phrase))
        end
      else
        let '(i', rest, word) := scan_word i cs [] in
        inr (i', rest, Term word)
  end.

(** One clause: an optional ['-'], immediately followed by an atom. *)
Definition parse_clause (limits : ParseLimits) (i : nat) (cs : rstring)
  : ParseError + (nat * rstring * Clause) :=
  match cs with
  | [] => inr (i, [], mkClause false (Term []))
  | c :: cs' =>
      if c =? DASH then
        match cs' with
        | [] => inl (mkParseError TrailingDash i)
        | c' :: _ =>
            if is_whitespace c' then inl (mkParseError TrailingDash i)
            else
              match parse_atom limits (S i) cs' with
              | inl e => inl e
              | inr (i', rest, a) => inr (i', rest, mkClause true a)
              end
        end
      else
        match parse_atom limits i cs with
        | inl e => inl e
        | inr (i', rest, a) => inr (i', rest, mkClause false a)
        end
  end.

(** The main loop; [None] is running out of fuel. *)
Fixpoint parse_loop (fuel : nat) (limits : ParseLimits) (i : nat) (cs : rstring) (clauses : list Clause)
  : option (ParseError + list Clause) :=
  match fuel with
  | O => None
  | S fuel' =>
      let '(i1, cs1) := skip_whitespace i cs in
      match cs1 with
      | [] => Some (inr clauses)
      | _ :: _ =>
          match parse_clause limits i1 cs1 with
          | inl e => Some (inl e)
          | inr (i2, cs2, cl) => parse_loop fuel' limits i2 cs2 (clauses ++ [cl])
          end
      end
  end.

Definition parse_with_limits (input : rstring) (limits : ParseLimits) : option (ParseError + Ast) :=
  if max_query_length limits <? N.of_nat (str_len input) then Some (inl (mkParseError QueryTooLong 0))
  else
    match parse_loop (S (length input)) limits 0 input [] with
    | None => None
    | Some (inl e) => Some (inl e)
    | Some (inr clauses) =>
        if max_clauses limits <? N.of_nat (length clauses) then Some (inl (mkParseError TooManyClauses 0))
        else Some (inr clauses)
    end.

Definition parse (input : rstring) : option (ParseError + Ast) := parse_with_limits input default_limits.

(** Recovery parses with the durable encodings' ceilings only. *)
Definition RECOVERY_PARSE_LIMITS : ParseLimits :=
  mkParseLimits (umax 32) (umax 16) (umax 16).

Definition parse_for_recovery (input : rstring) : option (ParseError + Ast) :=
  parse_with_limits input RECOVERY_PARSE_LIMITS.

(** The golden cases of the source's own tests. *)
Example golden_negations :
  parse (str "-(used,open box,returned)") =
  Some (inr [mkClause true (AnyOf [str "used"; str "open box"; str "returned"])]).
Proof. vm_compute. reflexivity. Qed.

Example golden_group_trims_members_and_drops_empties :
  parse (str "(a ,, b)") = Some (inr [mkClause false (AnyOf [str "a"; str "b"])]).
Proof. vm_compute. reflexivity. Qed.

Example dash_followed_by_space_errors_at_dash :
  parse (str "foo - bar") = Some (inl (mkParseError TrailingDash 4)).
Proof. vm_compute. reflexivity. Qed.

(** ** What the scanners consume *)

(** [rest] is what remains of [cs] from index [i'] on, when [cs] started at [i]. *)
Definition consumed (i : nat) (cs : rstring) (i' : nat) (rest : rstring) : Prop :=
  ∃ used, cs = used ++ rest ∧ i' = (i + length used)%nat.

Lemma consumed_refl i cs : consumed i cs i cs.
Proof. exists []. simpl. split; [done|lia]. Qed.

Lemma consumed_cons i c cs i' rest : consumed (S i) cs i' rest → consumed i (c :: cs) i' rest.
Proof. intros (u & -> & ->). exists (c :: u). simpl. split; [done|lia]. Qed.

Lemma consumed_trans i1 cs1 i2 cs2 i3 cs3 :
  consumed i1 cs1 i2 cs2 → consumed i2 cs2 i3 cs3 → consumed i1 cs1 i3 cs3.
Proof.
  intros (u & -> & ->) (v & -> & ->). exists (u ++ v).
  rewrite length_app, app_assoc. split; [done|lia].
Qed.

Lemma consumed_length i cs i' rest : consumed i cs i' rest → (length rest ≤ length cs)%nat.
Proof. intros (u & -> & _). rewrite length_app. lia. Qed.

Create HintDb parser.
#[export] Hint Resolve consumed_refl consumed_cons consumed_trans : parser.

Lemma skip_whitespace_spec i cs :
  let '(i', rest) := skip_whitespace i cs in
  consumed i cs i' rest ∧ ∀ c rest', rest = c :: rest' → is_whitespace c = false.
Proof.
  revert i. induction cs as [|c cs IH]; intros i; simpl; [split; eauto with parser; done|].
  destruct (is_whitespace c) eqn:E.
  - specialize (IH (S i)). destruct (skip_whitespace (S i) cs). naive_solver eauto with parser.
  - split; eauto with parser. naive_solver.
Qed.

Lemma scan_group_consumed i cs ms cur i' rest ms' :
  scan_group i cs ms cur = Some (i', rest, ms') → consumed i cs i' rest.
Proof.
  revert i ms cur. induction cs as [|c cs IH]; intros i ms cur; simpl; [done|].
  repeat case_match; naive_solver eauto with parser.
Qed.

Lemma scan_quote_consumed i cs p i' rest p' :
  scan_quote i cs p = Some (i', rest, p') → consumed i cs i' rest.
Proof.
  revert i p. induction cs as [|c cs IH]; intros i p; simpl; [done|].
  case_match; naive_solver eauto with parser.
Qed.

Lemma scan_word_consumed i cs w i' rest w' :
  scan_word i cs w = (i', rest, w') → consumed i cs i' rest.
Proof.
  revert i w. induction cs as [|c cs IH]; intros i w; simpl.
  - intros [= <- <- <-]. eauto with parser.
  - case_match; naive_solver eauto with parser.
Qed.

(** An atom always consumes its first character. *)
Lemma parse_atom_consumed l i c cs i' rest a :
  is_whitespace c = false → parse_atom l i (c :: cs) = inr (i', rest, a) →
  consumed (S i) cs i' rest.
Proof.
  intros Hws. cbn [parse_atom].
  destruct (c =? LPAREN) eqn:E1; [|destruct (c =? QUOTE) eqn:E2].
  - destruct (scan_group _ _ _ _) as [[[] ms]|] eqn:E; [|done].
    apply scan_group_consumed in E. destruct ms; [done|]. by case_match; intros; simplify_eq.
  - destruct (scan_quote _ _ _) as [[[] p]|] eqn:E; [|done].
    apply scan_quote_consumed in E. intros; by simplify_eq.
  - cbn [scan_word]. unfold word_char at 1. rewrite Hws, E1, E2. simpl.
    destruct (scan_word _ _ _) as [[] w] eqn:E.
    apply scan_word_consumed in E. intros; by simplify_eq.
Qed.

Lemma parse_clause_consumed l i c cs i' rest cl :
  is_whitespace c = false → parse_clause l i (c :: cs) = inr (i', rest, cl) →
  consumed i (c :: cs) i' rest ∧ (length rest ≤ length cs)%nat.
Proof.
  intros Hws. cbn [parse_clause]. destruct (c =? DASH).
  - destruct cs as [|c' cs]; [done|]. destruct (is_whitespace c') eqn:E; [done|].
    destruct (parse_atom l (S i) (c' :: cs)) as [|[[]]] eqn:Ea; intros; simplify_eq.
    apply parse_atom_consumed in Ea; [|done].
    apply consumed_length in Ea as ?. simpl. split; [eauto with parser|lia].
  - destruct (parse_atom l i (c :: cs)) as [|[[]]] eqn:Ea; intros; simplify_eq.
    apply parse_atom_consumed in Ea; [|done].
    apply consumed_length in Ea as ?. split; [eauto with parser|lia].
Qed.

Lemma parse_loop_total fuel l i cs acc :
  (length cs < fuel)%nat → ∃ r, parse_loop fuel l i cs acc = Some r.
Proof.
  revert i cs acc. induction fuel as [|fuel IH]; intros i cs acc Hf; [lia|]. simpl.
  pose proof (skip_whitespace_spec i cs) as Hs.
  destruct (skip_whitespace i cs) as [i1 cs1]. destruct Hs as [Hc%consumed_length Hnw].
  destruct cs1 as [|c cs1]; [eauto|].
  destruct (parse_clause l i1 (c :: cs1)) as [|[[i2 cs2] cl]] eqn:E; [eauto|].
  apply parse_clause_consumed in E as [_ Hl]; [|eauto].
  apply IH. simpl in *. lia.
Qed.

(** ** Shape of the result *)

Definition term_ok (neg : bool) (w : rstring) : Prop :=
  (∃ c w', w = c :: w' ∧ (neg = false → c ≠ DASH)) ∧ Forall (λ c, word_char c = true) w.

Definition phrase_ok (p : rstring) : Prop := trim p = p ∧ QUOTE ∉ p.

Definition member_char (c : char) : Prop :=
  c ≠ COMMA ∧ c ≠ RPAREN ∧ (is_whitespace c = true → c = SPACE).

Definition member_ok (m : rstring) : Prop := m ≠ [] ∧ trim m = m ∧ Forall member_char m.

(** A clause the parser can produce. *)
Definition clause_ok (l : ParseLimits) (cl : Clause) : Prop :=
  match atom cl with
  | Term w => term_ok (negated cl) w
  | Phrase p => phrase_ok p
  | AnyOf ms => ms ≠ [] ∧ N.of_nat (length ms) ≤ max_any_of_size l ∧ Forall member_ok ms
  end.

Definition ast_ok (l : ParseLimits) (a : Ast) : Prop :=
  N.of_nat (length a) ≤ max_clauses l ∧ Forall (clause_ok l) a.

Lemma push_member_ok ms cur :
  Forall member_ok ms → Forall member_char cur → Forall member_ok (push_member ms cur).
Proof.
  intros Hms Hcur. unfold push_member.
  assert (Forall member_char (trim cur)) as Ht.
  { rewrite Forall_forall in *. intros c Hc. apply Hcur. by apply trim_elem. }
  pose proof (trim_idemp cur) as Hi.
  destruct (trim cur) as [|c t] eqn:E; [done|].
  apply Forall_app_2; [done|]. constructor; [|constructor].
  split; [done|]. split; [done|]. done.
Qed.

Lemma scan_group_ok i cs ms cur i' rest ms' :
  Forall member_ok ms → Forall member_char cur →
  scan_group i cs ms cur = Some (i', rest, ms') → Forall member_ok ms'.
Proof.
  revert i ms cur. induction cs as [|c cs IH]; intros i ms cur Hms Hcur; simpl; [done|].
  destruct (N.eqb_spec c RPAREN); [|destruct (N.eqb_spec c COMMA);
    [|destruct (is_whitespace c) eqn:Ew]].
  - intros [= <- <- <-]. by apply push_member_ok.
  - apply IH; [by apply push_member_ok|done].
  - apply IH; [done|]. apply Forall_app_2; [done|]. repeat constructor; done.
  - apply IH; [done|]. apply Forall_app_2; [done|]. repeat constructor; congruence.
Qed.

Lemma scan_quote_ok i cs p i' rest p' :
  QUOTE ∉ p → scan_quote i cs p = Some (i', rest, p') → QUOTE ∉ p'.
Proof.
  revert i p. induction cs as [|c cs IH]; intros i p Hp; simpl; [done|].
  destruct (N.eqb_spec c QUOTE); [naive_solver|]. apply IH. set_solver.
Qed.

Lemma scan_word_prefix i cs w i' rest w' :
  Forall (λ c, word_char c = true) w → scan_word i cs w = (i', rest, w') →
  Forall (λ c, word_char c = true) w' ∧ ∃ k, w' = w ++ k.
Proof.
  revert i w. induction cs as [|c cs IH]; intros i w Hw; simpl.
  - intros [= <- <- <-]. split; [done|]. exists []. by rewrite app_nil_r.
  - destruct (word_char c) eqn:E.
    + intros H. apply IH in H as [? [k ->]]; [|apply Forall_app_2; auto].
      split; [done|]. exists (c :: k). by rewrite <-app_assoc.
    + intros [= <- <- <-]. split; [done|]. exists []. by rewrite app_nil_r.
Qed.

Lemma parse_atom_ok l i c cs i' rest a neg :
  is_whitespace c = false → (neg = false → c ≠ DASH) →
  parse_atom l i (c :: cs) = inr (i', rest, a) → clause_ok l (mkClause neg a).
Proof.
  intros Hws Hd. cbn [parse_atom].
  destruct (c =? LPAREN) eqn:E1; [|destruct (c =? QUOTE) eqn:E2].
  - destruct (scan_group _ _ _ _) as [[[] ms]|] eqn:E; [|done].
    apply scan_group_ok in E; [|done|done]. destruct ms as [|m ms]; [done|].
    destruct (N.ltb_spec (max_any_of_size l) (N.of_nat (length (m :: ms)))); [done|].
    intros; simplify_eq. split; [done|]. split; [done|]. done.
  - destruct (scan_quote _ _ _) as [[[] p]|] eqn:E; [|done].
    apply scan_quote_ok in E; [|set_solver]. intros; simplify_eq.
    split; [apply trim_idemp|]. intros H%trim_elem. done.
  - cbn [scan_word]. unfold word_char at 1. rewrite Hws, E1, E2. simpl.
    destruct (scan_word _ _ _) as [[] w] eqn:E.
    apply scan_word_prefix in E as [Hw [k ->]].
    + intros; simplify_eq. split; [|done]. exists c, k. done.
    + repeat constructor. unfold word_char. by rewrite Hws, E1, E2.
Qed.

Lemma parse_clause_ok l i c cs i' rest cl :
  is_whitespace c = false → parse_clause l i (c :: cs) = inr (i', rest, cl) → clause_ok l cl.
Proof.
  intros Hws. cbn [parse_clause]. destruct (N.eqb_spec c DASH).
  - destruct cs as [|c' cs]; [done|]. destruct (is_whitespace c') eqn:E; [done|].
    destruct (parse_atom l (S i) (c' :: cs)) as [|[[]]] eqn:Ea; intros; simplify_eq.
    by eapply parse_atom_ok.
  - destruct (parse_atom l i (c :: cs)) as [|[[]]] eqn:Ea; intros; simplify_eq.
    by eapply parse_atom_ok.
Qed.

Lemma parse_loop_ok fuel l i cs acc out :
  Forall (clause_ok l) acc → parse_loop fuel l i cs acc = Some (inr out) → Forall (clause_ok l) out.
Proof.
  revert i cs acc. induction fuel as [|fuel IH]; intros i cs acc Hacc; simpl; [done|].
  pose proof (skip_whitespace_spec i cs) as Hs.
  destruct (skip_whitespace i cs) as [i1 cs1]. destruct Hs as [_ Hnw].
  destruct cs1 as [|c cs1]; [naive_solver|].
  destruct (parse_clause l i1 (c :: cs1)) as [|[[i2 cs2] cl]] eqn:E; [done|].
  apply IH. apply Forall_app_2; [done|]. constructor; [|done].
  eapply parse_clause_ok; eauto.
Qed.

(** ** Error positions *)

(** The character an error of each kind points at. *)
Definition error_delimiter (k : ParseErrorKind) : option char :=
  match k with
  | TrailingDash => Some DASH
  | UnclosedGroup | EmptyAnyOfGroup | AnyOfGroupTooLarge => Some LPAREN
  | UnclosedQuote => Some QUOTE
  | _ => None
  end.

(** What the source can say about position [pos] of [input]. *)
Definition error_points_at (input : rstring) (e : ParseError) : Prop :=
  match error_delimiter (kind e) with
  | Some d => input !! pos e = Some d
  | None => (kind e = QueryTooLong ∨ kind e = TooManyClauses) ∧ pos e = O
  end.

Lemma parse_atom_error l pre c cs e :
  parse_atom l (length pre) (c :: cs) = inl e → error_points_at (pre ++ c :: cs) e.
Proof.
  cbn [parse_atom]. unfold error_points_at.
  destruct (N.eqb_spec c LPAREN) as [->|]; [|destruct (N.eqb_spec c QUOTE) as [->|]].
  - destruct (scan_group _ _ _ _) as [[[] ms]|]; [destruct ms; [|case_match]|];
      intros; simplify_eq; simpl; by rewrite list_lookup_middle.
  - destruct (scan_quote _ _ _) as [[[] ms]|]; intros; simplify_eq; simpl.
    by rewrite list_lookup_middle.
  - by destruct (scan_word _ _ _) as [[] w].
Qed.

Lemma parse_clause_error l pre c cs e :
  parse_clause l (length pre) (c :: cs) = inl e → error_points_at (pre ++ c :: cs) e.
Proof.
  cbn [parse_clause]. destruct (N.eqb_spec c DASH) as [->|].
  - destruct cs as [|c' cs].
    { intros; simplify_eq. unfold error_points_at; simpl. by rewrite list_lookup_middle. }
    destruct (is_whitespace c').
    { intros; simplify_eq. unfold error_points_at; simpl. by rewrite list_lookup_middle. }
    destruct (parse_atom l (S (length pre)) (c' :: cs)) as [e'|[[]]] eqn:Ea; intros; simplify_eq.
    replace (S (length pre)) with (length (pre ++ [DASH])) in Ea by (rewrite length_app; simpl; lia).
    apply parse_atom_error in Ea. by rewrite <-app_assoc in Ea.
  - destruct (parse_atom l (length pre) (c :: cs)) as [e'|[[]]] eqn:Ea; intros; simplify_eq.
    by eapply parse_atom_error.
Qed.

Lemma consumed_prefix pre cs i' rest :
  consumed (length pre) cs i' rest → ∃ pre', pre ++ cs = pre' ++ rest ∧ i' = length pre'.
Proof.
  intros (u & -> & ->). exists (pre ++ u). by rewrite app_assoc, length_app.
Qed.

Lemma parse_loop_error fuel l pre cs acc e :
  parse_loop fuel l (length pre) cs acc = Some (inl e) → error_points_at (pre ++ cs) e.
Proof.
  revert pre cs acc. induction fuel as [|fuel IH]; intros pre cs acc; simpl; [done|].
  pose proof (skip_whitespace_spec (length pre) cs) as Hs.
  destruct (skip_whitespace (length pre) cs) as [i1 cs1].
  destruct Hs as [(pre1 & -> & ->)%consumed_prefix Hnw].
  destruct cs1 as [|c cs1]; [done|].
  destruct (parse_clause l (length pre1) (c :: cs1)) as [e'|[[i2 cs2] cl]] eqn:E.
  - intros; simplify_eq. by eapply parse_clause_error.
  - apply parse_clause_consumed in E as [(pre2 & -> & ->)%consumed_prefix _]; [|eauto].
    apply IH.
Qed.

(** ** The grammar

    The grammar of the source's module comment, with what its comments add: a
    member of a group is trimmed, its inner whitespace becomes spaces and an empty
    one is dropped; a phrase is trimmed; ['-'] touches the atom it negates; a word
    ends before whitespace, an opening parenthesis or a quote. *)

Definition spaced (c : char) : char := if is_whitespace c then SPACE else c.

Definition group_member (part : rstring) : option rstring :=
  match trim (spaced <$> part) with [] => None | m => Some m end.

Definition part_ok (part : rstring) : Prop := Forall (λ c, c ≠ COMMA ∧ c ≠ RPAREN) part.

Inductive atom_text : Atom → rstring → Prop :=
  | term_text c w : Forall (λ c, word_char c = true) (c :: w) → atom_text (Term (c :: w)) (c :: w)
  | phrase_text body : QUOTE ∉ body → atom_text (Phrase (trim body)) (QUOTE :: body ++ [QUOTE])
  | group_text part parts :
      Forall part_ok (part :: parts) → omap group_member (part :: parts) ≠ [] →
      atom_text (AnyOf (omap group_member (part :: parts))) (LPAREN :: join [COMMA] (part :: parts) ++ [RPAREN]).

Inductive clause_text : Clause → rstring → Prop :=
  | positive_text a s : atom_text a s → head s ≠ Some DASH → clause_text (mkClause false a) s
  | negated_text a s : atom_text a s → clause_text (mkClause true a) (DASH :: s).

(** A word goes on as long as it can. *)
Definition ends_before (a : Atom) (rest : rstring) : Prop :=
  match a, rest with Term _, c :: _ => word_char c = false | _, _ => True end.

Inductive query_text : Ast → rstring → Prop :=
  | query_end ws : Forall (λ c, is_whitespace c = true) ws → query_text [] ws
  | query_clause ws cl s ast rest :
      Forall (λ c, is_whitespace c = true) ws → clause_text cl s → ends_before (atom cl) rest → query_text ast rest →
      query_text (cl :: ast) (ws ++ s ++ rest).

Definition group_fits (l : ParseLimits) (cl : Clause) : Prop :=
  match atom cl with AnyOf ms => N.of_nat (length ms) ≤ max_any_of_size l | _ => True end.

Lemma push_member_part ms part :
  push_member ms (spaced <$> part) = ms ++ omap group_member [part].
Proof. unfold push_member. simpl. unfold group_member. by destruct (trim _); rewrite ?app_nil_r. Qed.

(** *** The scanners follow the grammar *)

Lemma scan_group_part i part rest ms cur :
  part_ok part →
  scan_group i (part ++ rest) ms cur =
    scan_group (i + length part) rest ms (cur ++ (spaced <$> part)).
Proof.
  intros Hp. revert i cur. induction Hp as [|c part [H1 H2] _ IH]; intros i cur; simpl; [by rewrite app_nil_r, Nat.add_0_r|].
  apply N.eqb_neq in H1, H2. rewrite H1, H2, Nat.add_succ_r, <-Nat.add_succ_l.
  transitivity (scan_group (S i) (part ++ rest) ms (cur ++ [spaced c])); [unfold spaced; by destruct (is_whitespace c)|].
  by rewrite IH, <-app_assoc.
Qed.

Lemma scan_group_text i part parts rest ms :
  Forall part_ok (part :: parts) →
  ∃ i', scan_group i (join [COMMA] (part :: parts) ++ RPAREN :: rest) ms [] = Some (i', rest, ms ++ omap group_member (part :: parts)).
Proof.
  revert i part ms. induction parts as [|part' parts IH]; intros i part ms Hp; apply Forall_cons in Hp as [Hpart Hp].
  - cbn [join]. rewrite scan_group_part by done. cbn [scan_group app]. rewrite N.eqb_refl, push_member_part. by eexists.
  - change (join [COMMA] (part :: part' :: parts)) with (part ++ [COMMA] ++ join [COMMA] (part' :: parts)).
    rewrite <-!app_assoc, scan_group_part by done. cbn [scan_group app]. change (COMMA =? RPAREN) with false. rewrite N.eqb_refl. cbv iota.
    rewrite push_member_part. destruct (IH (S (i + length part)) part' (ms ++ omap group_member [part]) Hp) as [i' ->].
    exists i'. do 2 f_equal. rewrite <-app_assoc. by rewrite <-omap_app.
Qed.

Lemma scan_group_inv i cs ms cur i' rest ms' :
  scan_group i cs ms cur = Some (i', rest, ms') →
  ∃ part parts, cs = join [COMMA] (part :: parts) ++ RPAREN :: rest ∧ Forall part_ok (part :: parts) ∧
    ms' = push_member ms (cur ++ (spaced <$> part)) ++ omap group_member parts.
Proof.
  revert i ms cur. induction cs as [|c cs IH]; intros i ms cur; simpl; [done|].
  destruct (N.eqb_spec c RPAREN) as [->|Hr]; [|destruct (N.eqb_spec c COMMA) as [->|Hc]].
  - intros [= _ <- <-]. exists [], []. split_and!; [done|repeat constructor|]. by rewrite fmap_nil, !app_nil_r.
  - intros (part & parts & -> & Hp & ->)%IH. exists [], (part :: parts). split_and!; [done|constructor; [constructor|done]|].
    rewrite fmap_nil, app_nil_r, app_nil_l, push_member_part, <-app_assoc. by rewrite <-omap_app.
  - intros E. assert (scan_group (S i) cs ms (cur ++ [spaced c]) = Some (i', rest, ms')) as (part & parts & -> & Hp & ->)%IH
      by (unfold spaced; by destruct (is_whitespace c)).
    apply Forall_cons in Hp as [Hpart Hp]. exists (c :: part), parts. split_and!; [by destruct parts|by repeat constructor|].
    rewrite fmap_cons, <-app_assoc. done.
Qed.

Lemma scan_quote_text i body rest acc :
  QUOTE ∉ body → scan_quote i (body ++ QUOTE :: rest) acc = Some ((i + length body + 1)%nat, rest, acc ++ body).
Proof.
  revert i acc. induction body as [|c body IH]; intros i acc Hp; simpl; [rewrite app_nil_r; repeat f_equal; lia|].
  apply not_elem_of_cons in Hp as [Hc Hp]. destruct (N.eqb_spec c QUOTE); [done|].
  rewrite IH, <-app_assoc by done. simpl. repeat f_equal. lia.
Qed.

Lemma scan_quote_inv i cs acc i' rest body :
  scan_quote i cs acc = Some (i', rest, body) → ∃ more, cs = more ++ QUOTE :: rest ∧ (QUOTE ∉ more) ∧ body = acc ++ more.
Proof.
  revert i acc. induction cs as [|c cs IH]; intros i acc; simpl; [done|]. destruct (N.eqb_spec c QUOTE) as [->|Hc].
  - intros [= _ <- <-]. exists []. rewrite app_nil_r. split_and!; [done|apply not_elem_of_nil|done].
  - intros (more & -> & Hm & ->)%IH. exists (c :: more). rewrite <-app_assoc. split_and!; [done|by apply not_elem_of_cons|done].
Qed.

Lemma scan_word_text i w rest acc :
  Forall (λ c, word_char c = true) w → ends_before (Term w) rest →
  scan_word i (w ++ rest) acc = ((i + length w)%nat, rest, acc ++ w).
Proof.
  intros Hw Hr. revert i acc. induction Hw as [|c w Hc Hw IH]; intros i acc; simpl.
  - rewrite Nat.add_0_r, app_nil_r. destruct rest as [|c rest]; simpl in *; [done|]. by rewrite Hr.
  - rewrite Hc, IH, <-app_assoc by done. simpl. repeat f_equal. lia.
Qed.

Lemma scan_word_inv i cs acc i' rest w :
  scan_word i cs acc = (i', rest, w) →
  ∃ more, cs = more ++ rest ∧ Forall (λ c, word_char c = true) more ∧ w = acc ++ more ∧ ends_before (Term w) rest.
Proof.
  revert i acc. induction cs as [|c cs IH]; intros i acc; simpl.
  - intros [= _ <- <-]. exists []. rewrite !app_nil_r. by split_and!.
  - destruct (word_char c) eqn:E.
    + intros (more & -> & Hm & -> & He)%IH. exists (c :: more). rewrite <-app_assoc in *. split_and!; [done|by constructor|done|done].
    + intros [= _ <- <-]. exists []. rewrite !app_nil_r. by split_and!.
Qed.

Lemma word_char_false c : word_char c = true →
  (c =? LPAREN) = false ∧ (c =? QUOTE) = false ∧ is_whitespace c = false.
Proof.
  unfold word_char. rewrite !andb_true_iff, !negb_true_iff. naive_solver.
Qed.

(** *** The parser follows the grammar *)

Lemma atom_text_head a s : atom_text a s → ∃ c s', s = c :: s' ∧ is_whitespace c = false.
Proof.
  destruct 1 as [c w Hw|body _|part parts _ _]; [|by eexists _, _..]. exists c, w. split; [done|].
  by apply Forall_cons in Hw as [(_ & _ & ?)%word_char_false _].
Qed.

Lemma parse_atom_text l i a s rest :
  atom_text a s → group_fits l (mkClause false a) → ends_before a rest → ∃ i', parse_atom l i (s ++ rest) = inr (i', rest, a).
Proof.
  intros Ha Hf He. destruct Ha as [c w Hw|body Hb|part parts Hp Hne].
  - cbn [app parse_atom]. apply Forall_cons in Hw as Hc. destruct Hc as [(E1 & E2 & _)%word_char_false _]. rewrite E1, E2.
    change (c :: w ++ rest) with ((c :: w) ++ rest). rewrite scan_word_text by done. by eexists.
  - cbn [app parse_atom]. change (QUOTE =? LPAREN) with false. rewrite N.eqb_refl, <-app_assoc. cbn [app]. rewrite scan_quote_text by done. by eexists.
  - cbn [app parse_atom]. rewrite N.eqb_refl, <-app_assoc. cbn [app]. destruct (scan_group_text (S i) part parts rest [] Hp) as [i' ->]. exists i'.
    cbn [app]. unfold group_fits in Hf. cbn [atom] in Hf. revert Hf Hne. generalize (omap group_member (part :: parts)). intros [|m ms] Hf Hne; [done|]. by destruct (N.ltb_spec (max_any_of_size l) (N.of_nat (length (m :: ms)))); [lia|].
Qed.

Lemma parse_atom_inv l i c cs i' rest a :
  is_whitespace c = false → parse_atom l i (c :: cs) = inr (i', rest, a) →
  ∃ s, c :: cs = s ++ rest ∧ atom_text a s ∧ group_fits l (mkClause false a) ∧ ends_before a rest.
Proof.
  intros Hws. cbn [parse_atom]. destruct (N.eqb_spec c LPAREN) as [->|H1]; [|destruct (N.eqb_spec c QUOTE) as [->|H2]].
  - destruct (scan_group _ _ _ _) as [[[j r] ms]|] eqn:E; [|done]. apply scan_group_inv in E as (part & parts & -> & Hp & E).
    rewrite app_nil_l, push_member_part, app_nil_l, <-omap_app in E. cbn [app] in E. destruct ms as [|m ms]; [done|].
    destruct (N.ltb_spec (max_any_of_size l) (N.of_nat (length (m :: ms)))); [done|]. intros [= _ <- <-].
    exists (LPAREN :: join [COMMA] (part :: parts) ++ [RPAREN]). split_and!; [simpl; by rewrite <-app_assoc| |done|done].
    rewrite E. constructor; [done|]. by rewrite <-E.
  - destruct (scan_quote _ _ _) as [[[j r] body]|] eqn:E; [|done]. apply scan_quote_inv in E as (more & -> & Hm & ->).
    intros [= _ <- <-]. exists (QUOTE :: more ++ [QUOTE]). split_and!; [simpl; by rewrite <-app_assoc|by constructor|done|done].
  - cbn [scan_word]. apply N.eqb_neq in H1, H2. assert (word_char c = true) as Hc by (unfold word_char; by rewrite Hws, H1, H2).
    rewrite Hc. destruct (scan_word _ _ _) as [[j r] w] eqn:E. apply scan_word_inv in E as (more & -> & Hm & -> & He).
    intros [= _ <- <-]. exists (c :: more). split_and!; [done|by repeat constructor|done|done].
Qed.

Lemma parse_clause_text l i cl s rest :
  clause_text cl s → group_fits l cl → ends_before (atom cl) rest → ∃ i', parse_clause l i (s ++ rest) = inr (i', rest, cl).
Proof.
  intros Hcl Hf He. destruct Hcl as [a s Ha Hd|a s Ha]; destruct (atom_text_head _ _ Ha) as (c & s' & -> & Hws).
  - destruct (parse_atom_text l i a (c :: s') rest Ha Hf He) as [i' E]. exists i'. cbn [app parse_clause] in *.
    destruct (N.eqb_spec c DASH) as [->|]; [done|]. by rewrite E.
  - destruct (parse_atom_text l (S i) a (c :: s') rest Ha Hf He) as [i' E]. exists i'. cbn [app parse_clause] in *.
    by rewrite N.eqb_refl, Hws, E.
Qed.

Lemma parse_clause_inv l i c cs i' rest cl :
  is_whitespace c = false → parse_clause l i (c :: cs) = inr (i', rest, cl) →
  ∃ s, c :: cs = s ++ rest ∧ clause_text cl s ∧ group_fits l cl ∧ ends_before (atom cl) rest.
Proof.
  intros Hws. cbn [parse_clause]. destruct (N.eqb_spec c DASH) as [->|Hd].
  - destruct cs as [|c' cs]; [done|]. destruct (is_whitespace c') eqn:E; [done|].
    destruct (parse_atom l (S i) (c' :: cs)) as [|[[j r] a]] eqn:Ea; [done|]. intros [= _ <- <-].
    destruct (parse_atom_inv _ _ _ _ _ _ _ E Ea) as (s & Es & Ha & Hf & He). exists (DASH :: s). rewrite Es. split_and!; [done|by constructor|done|done].
  - destruct (parse_atom l i (c :: cs)) as [|[[j r] a]] eqn:Ea; [done|]. intros [= _ <- <-].
    destruct (parse_atom_inv _ _ _ _ _ _ _ Hws Ea) as (s & Es & Ha & Hf & He). exists s. split_and!; [done| |done|done].
    constructor; [done|]. destruct (atom_text_head _ _ Ha) as (c' & s' & -> & _). injection Es as <- _. cbn. congruence.
Qed.

Lemma skip_whitespace_text i ws rest :
  Forall (λ c, is_whitespace c = true) ws → (∀ c rest', rest = c :: rest' → is_whitespace c = false) →
  skip_whitespace i (ws ++ rest) = ((i + length ws)%nat, rest).
Proof.
  intros Hw Hr. revert i. induction Hw as [|c ws Hc _ IH]; intros i; simpl.
  - rewrite Nat.add_0_r. destruct rest as [|c rest]; simpl; [done|]. by rewrite (Hr c rest).
  - rewrite Hc, IH. f_equal. lia.
Qed.

Lemma skip_whitespace_inv i cs i' rest :
  skip_whitespace i cs = (i', rest) → ∃ ws, cs = ws ++ rest ∧ Forall (λ c, is_whitespace c = true) ws.
Proof.
  revert i. induction cs as [|c cs IH]; intros i; simpl; [intros [= _ <-]; by exists []|].
  destruct (is_whitespace c) eqn:E; [|intros [= _ <-]; by exists []]. intros (ws & -> & Hw)%IH. exists (c :: ws). by split; [|constructor].
Qed.

Lemma clause_text_head cl s : clause_text cl s → ∃ c s', s = c :: s' ∧ is_whitespace c = false.
Proof. destruct 1 as [a s Ha _|a s _]; [by eapply atom_text_head|]. by exists DASH, s. Qed.

Lemma parse_loop_text l ast cs :
  query_text ast cs → Forall (group_fits l) ast →
  ∀ fuel i acc, (length cs < fuel)%nat → parse_loop fuel l i cs acc = Some (inr (acc ++ ast)).
Proof.
  induction 1 as [ws Hw|ws cl s ast rest Hw Hcl He _ IH]; intros Hf fuel i acc Hl; (destruct fuel as [|fuel]; [lia|]); cbn [parse_loop].
  - rewrite <-(app_nil_r ws), skip_whitespace_text by done. by rewrite app_nil_r.
  - apply Forall_cons in Hf as [Hcf Hf]. destruct (clause_text_head _ _ Hcl) as (c & s' & -> & Hws).
    rewrite skip_whitespace_text by (done || (cbn; intros ? ? [= <- _]; done)). cbn [app].
    destruct (parse_clause_text l (i + length ws) cl (c :: s') rest Hcl Hcf He) as [i' E]. cbn [app] in E. rewrite E.
    rewrite (IH Hf), <-app_assoc; [done|]. rewrite !length_app in Hl. cbn in Hl. lia.
Qed.

Lemma parse_loop_inv fuel l i cs acc out :
  parse_loop fuel l i cs acc = Some (inr out) → ∃ ast, out = acc ++ ast ∧ query_text ast cs ∧ Forall (group_fits l) ast.
Proof.
  revert i cs acc. induction fuel as [|fuel IH]; intros i cs acc; cbn [parse_loop]; [done|].
  pose proof (skip_whitespace_spec i cs) as Hs. destruct (skip_whitespace i cs) as [i1 cs1] eqn:Ew. destruct Hs as [_ Hnw].
  apply skip_whitespace_inv in Ew as (ws & -> & Hw). destruct cs1 as [|c cs1].
  - intros [= <-]. exists []. rewrite !app_nil_r. split_and!; [done|by constructor|done].
  - destruct (parse_clause l i1 (c :: cs1)) as [|[[i2 cs2] cl]] eqn:E; [done|]. intros (ast & -> & Hq & Hf)%IH.
    destruct (parse_clause_inv _ _ _ _ _ _ _ (Hnw c cs1 eq_refl) E) as (s & Es & Hcl & Hcf & He).
    exists (cl :: ast). rewrite Es, <-app_assoc. split_and!; [done|by constructor|by constructor].
Qed.

(** ** Looser limits *)

Definition limits_le (l l' : ParseLimits) : Prop :=
  max_query_length l ≤ max_query_length l' ∧ max_clauses l ≤ max_clauses l' ∧
  max_any_of_size l ≤ max_any_of_size l'.

Lemma parse_clause_mono l l' i cs r :
  limits_le l l' → parse_clause l i cs = inr r → parse_clause l' i cs = inr r.
Proof.
  intros (_ & _ & Ha).
  assert (∀ j ks q, parse_atom l j ks = inr q → parse_atom l' j ks = inr q) as Hatom.
  { intros j [|c ks] q; cbn [parse_atom]; [done|].
    destruct (c =? LPAREN); [|done].
    destruct (scan_group _ _ _ _) as [[[] ms]|]; [|done]. destruct ms as [|m ms]; [done|].
    destruct (N.ltb_spec (max_any_of_size l) (N.of_nat (length (m :: ms)))); [done|].
    destruct (N.ltb_spec (max_any_of_size l') (N.of_nat (length (m :: ms)))); [lia|done]. }
  destruct cs as [|c cs]; cbn [parse_clause]; [done|]. destruct (c =? DASH).
  - destruct cs as [|c' cs]; [done|]. destruct (is_whitespace c'); [done|].
    destruct (parse_atom l _ _) as [|q] eqn:E; [done|]. by rewrite (Hatom _ _ _ E).
  - destruct (parse_atom l _ _) as [|q] eqn:E; [done|]. by rewrite (Hatom _ _ _ E).
Qed.

Lemma parse_loop_mono fuel l l' i cs acc out :
  limits_le l l' → parse_loop fuel l i cs acc = Some (inr out) →
  parse_loop fuel l' i cs acc = Some (inr out).
Proof.
  intros Hle. revert i cs acc. induction fuel as [|fuel IH]; intros i cs acc; simpl; [done|].
  destruct (skip_whitespace i cs) as [i1 [|c cs1]]; [done|].
  destruct (parse_clause l i1 (c :: cs1)) as [|[[i2 cs2] cl]] eqn:E; [done|].
  rewrite (parse_clause_mono _ _ _ _ _ Hle E). apply IH.
Qed.

(** C35. The parser returns on every input and under every limit: either an AST
    within the limits whose every clause has the shape the grammar gives it, or
    an error that points at the delimiter it blames. *)
Theorem parse_outcome input limits :
  ∃ r, parse_with_limits input limits = Some r ∧
    match r with
    | inr ast => ast_ok limits ast ∧ N.of_nat (str_len input) ≤ max_query_length limits
    | inl e => error_points_at input e
    end.
Proof.
  unfold parse_with_limits.
  destruct (N.ltb_spec (max_query_length limits) (N.of_nat (str_len input))).
  { eexists; split; [done|]. split; [by left|done]. }
  destruct (parse_loop_total (S (length input)) limits 0 input []) as [[e|out] E]; [lia| |];
    rewrite E.
  - eexists; split; [done|]. change 0%nat with (length (@nil N)) in E.
    by apply parse_loop_error in E.
  - destruct (N.ltb_spec (max_clauses limits) (N.of_nat (length out)));
      (eexists; split; [done|]).
    + split; [by right|done].
    + split; [|done]. split; [done|]. by eapply parse_loop_ok.
Qed.

(** C34. The parser accepts the grammar.  A text is accepted as an AST exactly when
    the grammar derives the text from the AST (any whitespace between clauses, any
    whitespace and empty members in a group) and the byte length, the number of
    clauses and the size of every group are within the limits. *)
Theorem parse_accepts_grammar input limits ast :
  parse_with_limits input limits = Some (inr ast) ↔
    query_text ast input ∧ N.of_nat (str_len input) ≤ max_query_length limits ∧
    N.of_nat (length ast) ≤ max_clauses limits ∧ Forall (group_fits limits) ast.
Proof.
  unfold parse_with_limits. destruct (N.ltb_spec (max_query_length limits) (N.of_nat (str_len input))); [split; [done|lia]|]. split.
  - destruct (parse_loop _ _ _ _ _) as [[e|out]|] eqn:E; [done| |done]. apply parse_loop_inv in E as (ast' & -> & Hq & Hf). cbn [app].
    destruct (N.ltb_spec (max_clauses limits) (N.of_nat (length ast'))); [done|]. by intros [= <-].
  - intros (Hq & _ & Hc & Hf). rewrite (parse_loop_text _ _ _ Hq Hf) by lia. cbn [app].
    by destruct (N.ltb_spec (max_clauses limits) (N.of_nat (length ast))); [lia|].
Qed.

(** A query accepted under limits is accepted, as the same AST, under larger ones. *)
Lemma parse_limits_mono input limits limits' ast :
  limits_le limits limits' → parse_with_limits input limits = Some (inr ast) → parse_with_limits input limits' = Some (inr ast).
Proof.
  intros Hle. unfold parse_with_limits. pose proof Hle as (Hq & Hc & Ha).
  destruct (N.ltb_spec (max_query_length limits) (N.of_nat (str_len input))); [done|].
  destruct (N.ltb_spec (max_query_length limits') (N.of_nat (str_len input))); [lia|].
  destruct (parse_loop _ limits _ _ _) as [[|out]|] eqn:E; [done| |done].
  rewrite (parse_loop_mono _ _ limits' _ _ _ _ Hle E).
  destruct (N.ltb_spec (max_clauses limits) (N.of_nat (length out))); [done|].
  by destruct (N.ltb_spec (max_clauses limits') (N.of_nat (length out))); [lia|].
Qed.

Lemma parse_limits_total input limits : ∃ r, parse_with_limits input limits = Some r.
Proof.
  unfold parse_with_limits. destruct (_ <? _); [by eexists|].
  destruct (parse_loop_total (S (length input)) limits 0 input []) as [[e|out] E]; [lia| |]; rewrite E; [by eexists|].
  destruct (_ <? _); by eexists.
Qed.

(** Recovery never rejects what an engine once acknowledged: any query accepted
    under limits within the durable encodings' ceilings re-parses, to the same
    AST, under the recovery limits. *)
Theorem recovery_accepts_acknowledged input limits ast :
  limits_le limits RECOVERY_PARSE_LIMITS →
  parse_with_limits input limits = Some (inr ast) →
  parse_for_recovery input = Some (inr ast).
Proof. apply parse_limits_mono. Qed.

Lemma recovery_accepts_acknowledged_witness :
  parse_for_recovery (str "laptop -(used,open box)") =
  Some (inr [mkClause false (Term (str "laptop"));
             mkClause true (AnyOf [str "used"; str "open box"])]).
Proof.
  apply (recovery_accepts_acknowledged _ default_limits).
  - repeat split; vm_compute; discriminate.
  - vm_compute. reflexivity.
Defined.
