(* ===== verification/Dictionary.v ===== *)
(** * The feature dictionary ([engine/src/dict.rs])

    Interning of feature names, query frequencies, the 64-bit common mask, and
    the synthetic ids of names outside the dictionary. *)

From S2P Require Import Prelude Util Text.

Abbreviation FeatureId := N (only parsing).

Definition NO_MASK_BIT : N := 64.
Definition SYNTHETIC_BASE : N := 0x80000000.

Definition is_synthetic (id : FeatureId) : bool := SYNTHETIC_BASE <=? id.

Definition name_hash (name : rstring) : N := fnv1a64 (as_bytes name).

Definition synthetic_id (name : rstring) : FeatureId :=
  let h := fnv1a64 (as_bytes name) in
  let folded := wrap32 (N.lxor h (N.shiftr h 32)) in
  N.lor SYNTHETIC_BASE (N.land folded (SYNTHETIC_BASE - 1)).

(** [EquivMap]: a member feature to its whole equivalence group. *)
Abbreviation EquivMap := (gmap N (list N)).

Record Equivalences := mkEquivalences {
  by_feature : EquivMap;
  by_name : gmap N (list N);
}.

Definition no_equivalences : Equivalences := mkEquivalences ∅ ∅.

Inductive FeatureKind := Year | Brand | Entity | Category | Flag | Generic.

#[export] Instance FeatureKind_eq_dec : EqDecision FeatureKind.
Proof. solve_decision. Defined.

Definition kind_tag (k : FeatureKind) : N :=
  match k with
  | Year => 0 | Brand => 1 | Entity => 2 | Category => 3 | Flag => 7 | Generic => 8
  end.

Definition kind_from_tag (tag : N) : option FeatureKind :=
  if tag =? 0 then Some Year
  else if tag =? 1 then Some Brand
  else if tag =? 2 then Some Entity
  else if tag =? 3 then Some Category
  else if tag =? 7 then Some Flag
  else if tag =? 8 then Some Generic
  else None.

Record Dict := mkDict {
  name_map : gmap rstring N;
  names : list rstring;
  kinds : list FeatureKind;
  freqs : list N;
  mask_bits : list N;
  finalized : bool;
  equivs : Equivalences;
}.

Definition dict_new : Dict := mkDict ∅ [] [] [] [] false no_equivalences.

Definition set_equivalences (e : Equivalences) (d : Dict) : Dict :=
  mkDict (name_map d) (names d) (kinds d) (freqs d) (mask_bits d) (finalized d) e.

Definition equivalences (d : Dict) : EquivMap := by_feature (equivs d).

Definition dict_get (d : Dict) (name : rstring) : option FeatureId := name_map d !! name.

Definition intern (name : rstring) (kind : FeatureKind) (d : Dict) : FeatureId * Dict :=
  match name_map d !! name with
  | Some id => (id, d)
  | None =>
      let id := as_u32 (length (names d)) in
      (id, mkDict (<[name := id]> (name_map d)) (names d ++ [name]) (kinds d ++ [kind])
             (freqs d ++ [0]) (mask_bits d ++ [NO_MASK_BIT]) (finalized d) (equivs d))
  end.

Definition get_or_synthetic (d : Dict) (name : rstring) : FeatureId :=
  match name_map d !! name with
  | Some id => id
  | None => synthetic_id name
  end.

Definition dict_len (d : Dict) : nat := length (names d).

Definition dict_name (d : Dict) (id : FeatureId) : option rstring := names d !! usize id.
Definition dict_kind (d : Dict) (id : FeatureId) : FeatureKind := default Generic (kinds d !! usize id).
Definition freq (d : Dict) (id : FeatureId) : N := default 0 (freqs d !! usize id).
Definition mask_bit (d : Dict) (id : FeatureId) : N := default NO_MASK_BIT (mask_bits d !! usize id).

(** [freq[id] = freq[id].saturating_add(1)]; [None] is the index panic. *)
Definition bump_freq (id : FeatureId) (d : Dict) : option Dict :=
  x ← freqs d !! usize id;
  Some (mkDict (name_map d) (names d) (kinds d) (<[usize id := sat_add 32 x 1]> (freqs d))
          (mask_bits d) (finalized d) (equivs d)).

(** The loop [for (bit, &id) in idx.iter().take(64).enumerate()]. *)
Fixpoint assign_bits (bit : N) (ids : list N) (mb : list N) : option (list N) :=
  match ids with
  | [] => Some mb
  | id :: ids' =>
      _ ← mb !! usize id;
      assign_bits (bit + 1) ids' (<[usize id := wrap8 bit]> mb)
  end.

(** [finalize_mask]. The source sorts the ids with [sort_unstable_by_key] on
    decreasing frequency, which leaves the order of equally frequent ids open:
    [idx] is the sorted id vector, constrained by [mask_order]. *)
Definition finalize_mask (idx : list N) (d : Dict) : option Dict :=
  if finalized d then Some d
  else
    mb ← assign_bits 0 (take 64 idx) ((λ _, NO_MASK_BIT) <$> mask_bits d);
    Some (mkDict (name_map d) (names d) (kinds d) (freqs d) mb true (equivs d)).

Definition all_ids (d : Dict) : list N := N.of_nat <$> seq 0 (length (names d)).

Definition mask_order (d : Dict) (idx : list N) : Prop :=
  idx ≡ₚ all_ids d ∧ StronglySorted (λ f g, freq d g ≤ freq d f) idx.

(** One admissible order: the ids of equal frequency in increasing order. *)
Definition mask_order_of (d : Dict) : list N :=
  sort_by_key (λ f, umax 32 - freq d f) (all_ids d).

(** The loop [for (id, &b) in mask_bit.iter().enumerate()]. *)
Fixpoint mask_inverse_loop (id : N) (mb : list N) (inv : list (option N)) : option (list (option N)) :=
  match mb with
  | [] => Some inv
  | b :: mb' =>
      if b =? NO_MASK_BIT then mask_inverse_loop (id + 1) mb' inv
      else
        _ ← inv !! usize b;
        mask_inverse_loop (id + 1) mb' (<[usize b := Some (wrap32 id)]> inv)
  end.

Definition mask_inverse (d : Dict) : option (list (option N)) :=
  mask_inverse_loop 0 (mask_bits d) (replicate 64 None).

Definition set_freq_and_mask (id f b : N) (d : Dict) : Dict :=
  mkDict (name_map d) (names d) (kinds d)
    (if decide (usize id < length (freqs d))%nat then <[usize id := f]> (freqs d) else freqs d)
    (if decide (usize id < length (mask_bits d))%nat then <[usize id := b]> (mask_bits d) else mask_bits d)
    (finalized d) (equivs d).

Definition mark_finalized (d : Dict) : Dict :=
  mkDict (name_map d) (names d) (kinds d) (freqs d) (mask_bits d) true (equivs d).

(** [u32::to_le_bytes]. *)
Definition le32 (n : N) : list N :=
  [N.land n 0xFF; N.land (N.shiftr n 8) 0xFF; N.land (N.shiftr n 16) 0xFF; N.land (N.shiftr n 24) 0xFF].

(** [u64::to_le_bytes]. *)
Definition le64 (v : N) : list N := (λ k, N.land (N.shiftr v (8 * k)) 255) <$> [0; 1; 2; 3; 4; 5; 6; 7].

Definition fingerprint_entry (e : rstring * FeatureKind * N) : list N :=
  let '(name, kind, mask) := e in
  le32 (as_u32 (str_len name)) ++ as_bytes name ++ [kind_tag kind; mask].

Definition fingerprint_bytes (d : Dict) : list N :=
  le32 (as_u32 (length (names d))) ++
  mjoin (fingerprint_entry <$> zip (zip (names d) (kinds d)) (mask_bits d)) ++
  [if finalized d then 1 else 0].

Definition fingerprint (d : Dict) : N := fnv1a64 (fingerprint_bytes d).

(** "Hot": one of the 64 masked features ([compile/extract.rs]). *)
Definition is_hot (d : Dict) (f : FeatureId) : bool := negb (mask_bit d f =? NO_MASK_BIT).

Definition is_hot_anchor (d : Dict) (f : FeatureId) (theta : N) : bool :=
  is_hot d f || (negb (theta =? 0) && (theta <=? freq d f)).

(** ** The dictionary invariant *)

Record dict_wf (d : Dict) : Prop := {
  wf_kinds : length (kinds d) = length (names d);
  wf_freqs : length (freqs d) = length (names d);
  wf_masks : length (mask_bits d) = length (names d);
  (** the map and the dense name vector are inverse to each other *)
  wf_map name id : name_map d !! name = Some id ↔ names d !! usize id = Some name;
  (** a mask bit belongs to at most one feature *)
  wf_mask_range i b : mask_bits d !! i = Some b → b ≤ NO_MASK_BIT;
  wf_mask_inj i j b : mask_bits d !! i = Some b → mask_bits d !! j = Some b → b ≠ NO_MASK_BIT → i = j;
}.

Lemma dict_new_wf : dict_wf dict_new.
Proof. by split. Qed.

Lemma dict_wf_names_inj d i j name :
  dict_wf d → names d !! i = Some name → names d !! j = Some name → i = j.
Proof.
  intros Hwf Hi Hj. rewrite <-(Nat2N.id i) in Hi. rewrite <-(Nat2N.id j) in Hj.
  apply (wf_map d Hwf) in Hi, Hj. simplify_eq. lia.
Qed.

Lemma mask_bit_range d f : dict_wf d → mask_bit d f ≤ NO_MASK_BIT.
Proof.
  intros Hwf. unfold mask_bit. destruct (mask_bits d !! usize f) eqn:E; simpl; [|done].
  by eapply wf_mask_range.
Qed.

Lemma mask_bit_inj d f g :
  dict_wf d → mask_bit d f = mask_bit d g → mask_bit d f ≠ NO_MASK_BIT → f = g.
Proof.
  intros Hwf E Hb. unfold mask_bit in *.
  destruct (mask_bits d !! usize f) eqn:Ef; simpl in *; [|done].
  destruct (mask_bits d !! usize g) eqn:Eg; simpl in *; [|done]. subst.
  apply N2Nat.inj. by eapply (wf_mask_inj d).
Qed.

Lemma intern_wf name k d :
  dict_wf d → N.of_nat (length (names d)) < 2 ^ 32 → dict_wf (intern name k d).2.
Proof.
  intros Hwf Hsm. unfold intern. destruct (name_map d !! name) as [id|] eqn:E; [done|].
  assert (name ∉ names d) as Hfresh.
  { intros (i & Hi)%list_elem_of_lookup. rewrite <-(Nat2N.id i) in Hi.
    apply (wf_map d Hwf) in Hi. by rewrite E in Hi. }
  rewrite as_u32_small by done. split; simpl.
  - rewrite !length_app. simpl. by rewrite wf_kinds.
  - rewrite !length_app. simpl. by rewrite wf_freqs.
  - rewrite !length_app. simpl. by rewrite wf_masks.
  - intros n id. destruct (decide (n = name)) as [->|Hn].
    + rewrite lookup_insert_eq. split.
      * intros [= <-]. rewrite Nat2N.id. by apply list_lookup_middle.
      * intros [H|(Hge & H)]%lookup_app_Some.
        { apply list_elem_of_lookup_2 in H. done. }
        apply list_lookup_singleton_Some in H as [H _]. f_equal. lia.
    + rewrite lookup_insert_ne by done. rewrite (wf_map d Hwf). split.
      * intros H. by apply lookup_app_l_Some.
      * intros [H|(Hge & H)]%lookup_app_Some; [done|].
        apply list_lookup_singleton_Some in H as [_ H]. congruence.
  - intros i b [H|(_ & H)]%lookup_app_Some; [by eapply wf_mask_range|].
    apply list_lookup_singleton_Some in H as [_ <-]. done.
  - intros i j b [Hi|(_ & Hi)]%lookup_app_Some [Hj|(_ & Hj)]%lookup_app_Some Hb;
      repeat match goal with
      | H : [_] !! _ = Some _ |- _ => apply list_lookup_singleton_Some in H as [_ <-]
      end; try done. by eapply (wf_mask_inj d).
Qed.

Lemma synthetic_id_range name : SYNTHETIC_BASE ≤ synthetic_id name ∧ fits 32 (synthetic_id name).
Proof.
  unfold synthetic_id. cbv zeta. set (x := N.land _ _).
  assert (fits 31 x) as Hx.
  { unfold x. change (SYNTHETIC_BASE - 1) with (N.ones 31). unfold fits.
    rewrite N.land_ones. by apply N.mod_lt. }
  assert (N.land SYNTHETIC_BASE x = 0) as H0.
  { apply N.bits_inj. intros i. rewrite N.land_spec, N.bits_0.
    change SYNTHETIC_BASE with (2 ^ 31). rewrite N.pow2_bits_eqb.
    destruct (N.eqb_spec 31 i) as [<-|]; [|done]. by rewrite (fits_testbit 31). }
  assert (N.lor SYNTHETIC_BASE x = SYNTHETIC_BASE + x) as ->.
  { by rewrite N.add_nocarry_lxor, N.lxor_lor. }
  unfold fits in *. change (2 ^ 32) with (SYNTHETIC_BASE + 2 ^ 31).
  change (2 ^ 31) with SYNTHETIC_BASE in *. lia.
Qed.

(** Interning keeps the invariant, gives a name one dense id for good, never
    hands out an id of the synthetic range, and leaves every other name and
    every frequency and mask bit alone; a repeated intern changes nothing. *)
Theorem intern_correct name k d :
  dict_wf d → N.of_nat (length (names d)) < SYNTHETIC_BASE →
  let '(id, d') := intern name k d in
  dict_wf d' ∧ dict_get d' name = Some id ∧ dict_name d' id = Some name ∧
  is_synthetic id = false ∧
  (∀ n, n ≠ name → get_or_synthetic d' n = get_or_synthetic d n) ∧
  (∀ f, freq d' f = freq d f ∧ mask_bit d' f = mask_bit d f) ∧
  intern name k d' = (id, d').
Proof.
  intros Hwf Hsm. pose proof (intern_wf name k d Hwf) as Hwf'.
  assert (N.of_nat (length (names d)) < 2 ^ 32) as H32 by (unfold SYNTHETIC_BASE in Hsm; lia).
  specialize (Hwf' H32). unfold dict_get, dict_name, get_or_synthetic, is_synthetic.
  assert (name_map (intern name k d).2 !! name = Some (intern name k d).1) as Hget.
  { unfold intern. destruct (name_map d !! name) eqn:E; simpl; [done|]. by rewrite lookup_insert_eq. }
  destruct (intern name k d) as [id d'] eqn:Ei. simpl in *.
  split; [done|]. split; [done|]. split; [by apply (wf_map d' Hwf')|].
  unfold intern in Ei |- *. rewrite Hget. destruct (name_map d !! name) as [id0|] eqn:E.
  - injection Ei as <- <-. split; [|done].
    apply (wf_map d Hwf) in E. apply lookup_lt_Some in E.
    apply N.leb_gt. unfold SYNTHETIC_BASE in *. lia.
  - rewrite as_u32_small in Ei by done. injection Ei as <- <-.
    split; [by apply N.leb_gt|]. split; [|split; [|done]].
    + intros n Hn. simpl. by rewrite lookup_insert_ne.
    + intros f. unfold freq, mask_bit. simpl.
      pose proof (wf_freqs d Hwf). pose proof (wf_masks d Hwf).
      destruct (decide (usize f < length (names d))%nat).
      * by rewrite !lookup_app_l by lia.
      * destruct (decide (usize f = length (names d))) as [Ef|].
        { rewrite !lookup_app_r by lia. rewrite !lookup_ge_None_2 with (l := freqs d) by lia.
          rewrite (lookup_ge_None_2 (mask_bits d)) by lia.
          replace (usize f - length (freqs d))%nat with 0%nat by lia.
          by replace (usize f - length (mask_bits d))%nat with 0%nat by lia. }
        by rewrite !lookup_ge_None_2 by (rewrite ?length_app; simpl; lia).
Qed.

Lemma intern_correct_witness :
  let '(id, d') := intern (str "term:acme") Generic dict_new in
  dict_wf d' ∧ dict_get d' (str "term:acme") = Some id ∧ dict_name d' id = Some (str "term:acme") ∧
  is_synthetic id = false ∧
  (∀ n, n ≠ str "term:acme" → get_or_synthetic d' n = get_or_synthetic dict_new n) ∧
  (∀ f, freq d' f = freq dict_new f ∧ mask_bit d' f = mask_bit dict_new f) ∧
  intern (str "term:acme") Generic d' = (id, d').
Proof. apply (intern_correct (str "term:acme") Generic dict_new); [apply dict_new_wf|done]. Defined.

(** ** The common mask *)

Lemma assign_bits_spec bit ids mb :
  NoDup ids → Forall (λ f, (usize f < length mb)%nat) ids → bit + N.of_nat (length ids) ≤ 64 →
  ∃ mb', assign_bits bit ids mb = Some mb' ∧ length mb' = length mb ∧
    (∀ p f, ids !! p = Some f → mb' !! usize f = Some (bit + N.of_nat p)) ∧
    (∀ f, f ∉ ids → mb' !! usize f = mb !! usize f).
Proof.
  revert bit mb. induction ids as [|f ids IH]; intros bit mb Hnd Hr Hb; simpl.
  { exists mb. split_and!; [done|done| |done]. intros p f Hp. by rewrite lookup_nil in Hp. }
  apply NoDup_cons in Hnd as [Hf Hnd]. apply Forall_cons in Hr as [Hfr Hr]. simpl in Hb.
  destruct (lookup_lt_is_Some_2 mb (usize f) Hfr) as [x Hx]. rewrite Hx. simpl.
  destruct (IH (bit + 1) (<[usize f := wrap8 bit]> mb)) as (mb' & -> & Hlen & Hin & Hout); [done| |lia|].
  { by rewrite length_insert. }
  exists mb'. split; [done|]. rewrite length_insert in Hlen. split; [done|]. split.
  - intros [|p] g Hp; simpl in Hp; simplify_eq.
    + rewrite (Hout g) by done. rewrite list_lookup_insert_eq by done.
      rewrite wrap_small by (unfold fits; lia). f_equal. lia.
    + rewrite (Hin p g Hp). f_equal. lia.
  - intros g [Hg Hg']%not_elem_of_cons. rewrite (Hout g) by done.
    rewrite list_lookup_insert_ne; [done|]. intros ?%N2Nat.inj. congruence.
Qed.

Lemma elem_of_all_ids d f : f ∈ all_ids d ↔ (usize f < length (names d))%nat.
Proof.
  unfold all_ids. rewrite list_elem_of_fmap. split.
  - intros (i & -> & Hi%elem_of_seq). lia.
  - intros Hf. exists (usize f). split; [lia|]. apply elem_of_seq. lia.
Qed.

Lemma NoDup_all_ids d : NoDup (all_ids d).
Proof. apply NoDup_fmap_2; [apply _|]. apply NoDup_seq. Qed.

Lemma mask_order_NoDup d idx : mask_order d idx → NoDup idx.
Proof. intros [Hp _]. rewrite Hp. apply NoDup_all_ids. Qed.

Lemma mask_order_of_ok d : Forall (fits 32) (freqs d) → mask_order d (mask_order_of d).
Proof.
  intros Hf. split; [apply sort_by_key_perm|].
  eapply StronglySorted_impl; [|apply sort_by_key_sorted].
  intros f g _ _ Hle. unfold key_le in Hle.
  assert (∀ h, freq d h ≤ umax 32) as Hmax.
  { intros h. unfold freq. destruct (freqs d !! usize h) eqn:E; simpl; [|by vm_compute].
    rewrite Forall_lookup in Hf. apply Hf in E. unfold fits in E. unfold umax. lia. }
  pose proof (Hmax f). pose proof (Hmax g). lia.
Qed.

(** The mask bit [finalize_mask] gives each feature: its rank, below 64. *)
Lemma finalize_mask_bits d idx :
  dict_wf d → finalized d = false → mask_order d idx →
  ∃ d', finalize_mask idx d = Some d' ∧ length (mask_bits d') = length (names d) ∧
    names d' = names d ∧ freqs d' = freqs d ∧ name_map d' = name_map d ∧ kinds d' = kinds d ∧
    finalized d' = true ∧
    (∀ p f, idx !! p = Some f → mask_bit d' f = if decide (p < 64)%nat then N.of_nat p else NO_MASK_BIT).
Proof.
  intros Hwf Hfin Hord. pose proof (mask_order_NoDup _ _ Hord) as Hnd.
  destruct Hord as [Hperm _]. unfold finalize_mask. rewrite Hfin.
  assert (∀ f, f ∈ idx → (usize f < length (mask_bits d))%nat) as Hr.
  { intros f Hf. rewrite Hperm in Hf. apply elem_of_all_ids in Hf. by rewrite wf_masks. }
  destruct (assign_bits_spec 0 (take 64 idx) ((λ _, NO_MASK_BIT) <$> mask_bits d))
    as (mb & -> & Hlen & Hin & Hout).
  { eapply sublist_NoDup; [done|]. apply sublist_take. }
  { apply Forall_forall. intros f Hf. rewrite length_fmap. apply Hr. eapply elem_of_sublist; [exact Hf|apply sublist_take]. }
  { rewrite length_take. lia. }
  eexists. split; [done|]. cbn. rewrite length_fmap, wf_masks in Hlen by done.
  split_and!; try done. intros p f Hp. unfold mask_bit. cbn. case_decide as Hp64.
  - rewrite (Hin p f) by (rewrite lookup_take_lt; done). done.
  - rewrite Hout, list_lookup_fmap.
    + by destruct (mask_bits d !! usize f).
    + intros (q & Hq)%list_elem_of_lookup. apply lookup_take_Some in Hq as [Hq ?].
      assert (p = q) by (by eapply NoDup_lookup). lia.
Qed.

Lemma finalize_mask_wf d idx d' :
  dict_wf d → mask_order d idx → finalize_mask idx d = Some d' → dict_wf d'.
Proof.
  intros Hwf Hord Hd'. destruct (finalized d) eqn:Hfin.
  { unfold finalize_mask in Hd'. rewrite Hfin in Hd'. by simplify_eq. }
  pose proof Hord as [Hperm _].
  destruct (finalize_mask_bits d idx Hwf Hfin Hord)
    as (d1 & E & Hmb & Hn & Hf & Hm & Hk & _ & Hbit). simplify_eq.
  assert (∀ i b, mask_bits d' !! i = Some b →
    ∃ p, idx !! p = Some (N.of_nat i) ∧ b = if decide (p < 64)%nat then N.of_nat p else NO_MASK_BIT) as Hrank.
  { intros i b Hi. assert (N.of_nat i ∈ idx) as (p & Hp)%list_elem_of_lookup.
    { rewrite Hperm, elem_of_all_ids. apply lookup_lt_Some in Hi. lia. }
    exists p. split; [done|]. specialize (Hbit p _ Hp). unfold mask_bit in Hbit.
    rewrite Nat2N.id, Hi in Hbit. done. }
  split; rewrite ?Hn, ?Hf, ?Hm, ?Hk; try by destruct Hwf.
  - intros i b (p & _ & ->)%Hrank. unfold NO_MASK_BIT. case_decide; lia.
  - intros i j b (p & Hp & ->)%Hrank (q & Hq & E')%Hrank Hb.
    repeat case_decide; try done; unfold NO_MASK_BIT in *; try lia.
    assert (p = q) as -> by lia. simplify_eq. lia.
Qed.

(** Hot is being among the first 64 of the frequency order. *)
Lemma finalize_mask_hot d idx d' :
  dict_wf d → finalized d = false → mask_order d idx → finalize_mask idx d = Some d' →
  ∀ f, is_hot d' f = true ↔ f ∈ take 64 idx.
Proof.
  intros Hwf Hfin Hord E f.
  destruct (finalize_mask_bits d idx Hwf Hfin Hord) as (d1 & E' & Hmb & _ & _ & _ & _ & _ & Hbit).
  simplify_eq. destruct Hord as [Hperm _]. rewrite elem_of_take.
  unfold is_hot. rewrite negb_true_iff, N.eqb_neq. split.
  - intros Hne. assert (f ∈ idx) as (p & Hp)%list_elem_of_lookup.
    { rewrite Hperm, elem_of_all_ids, <-Hmb. apply lookup_lt_is_Some_1. unfold mask_bit in Hne.
      destruct (mask_bits d' !! usize f); [eauto|done]. }
    exists p. split; [done|]. rewrite (Hbit p f Hp) in Hne. by case_decide.
  - intros (p & Hp & ?). rewrite (Hbit p f Hp). unfold NO_MASK_BIT. case_decide; lia.
Qed.

(** C36. Freezing the common mask, in any order the unstable sort may leave equal
    frequencies in: it does not panic, gives bits to exactly
    [min (64, len)] features, one each, and no feature without a bit is more
    frequent than one with a bit; frequencies and names stay, and a second
    freeze is a no-op, so bits are assigned once. *)
Theorem finalize_mask_top64 d idx idx' :
  dict_wf d → finalized d = false → mask_order d idx →
  ∃ d', finalize_mask idx d = Some d' ∧ dict_wf d' ∧ finalize_mask idx' d' = Some d' ∧
    names d' = names d ∧ freqs d' = freqs d ∧
    length (filter (λ f, is_hot d' f = true) (all_ids d')) = (64 `min` length (names d))%nat ∧
    (∀ f g, is_hot d' f = true → is_hot d' g = false → freq d' g ≤ freq d' f).
Proof.
  intros Hwf Hfin Hord.
  destruct (finalize_mask_bits d idx Hwf Hfin Hord)
    as (d' & E & _ & Hn & Hf & _ & _ & Hfin' & _).
  pose proof (finalize_mask_hot _ _ _ Hwf Hfin Hord E) as Hhot.
  pose proof (mask_order_NoDup _ _ Hord) as Hnd. destruct Hord as [Hperm Hsort].
  exists d'. split; [done|]. split; [by eapply finalize_mask_wf|].
  split; [by unfold finalize_mask; rewrite Hfin'|]. split; [done|]. split; [done|].
  assert (all_ids d' = all_ids d) as -> by (unfold all_ids; by rewrite Hn). split.
  - trans (length (take 64 idx)).
    + apply Permutation_length, NoDup_Permutation.
      * apply NoDup_filter, NoDup_all_ids.
      * eapply sublist_NoDup; [exact Hnd|]. apply sublist_take.
      * intros f. rewrite list_elem_of_filter, Hhot, <-Hperm. split; [naive_solver|].
        intros Hft. split; [done|]. eapply elem_of_sublist; [exact Hft|]. apply sublist_take.
    + rewrite length_take, Hperm. unfold all_ids. by rewrite length_fmap, length_seq.
  - intros f g Hhf Hhg. unfold freq. rewrite Hf. fold (freq d f) (freq d g).
    destruct (decide (g ∈ idx)) as [Hg|Hg].
    + rewrite <-(take_drop 64 idx) in Hsort, Hg. apply Hhot in Hhf.
      apply (StronglySorted_app_1_elem_of _ _ _ f g Hsort Hhf).
      apply elem_of_app in Hg as [Hg|Hg]; [|done]. apply Hhot in Hg. congruence.
    + rewrite Hperm, elem_of_all_ids in Hg. unfold freq at 1.
      rewrite lookup_ge_None_2; [simpl; lia|]. rewrite wf_freqs by done. lia.
Qed.

Definition mask_demo : Dict :=
  let d := (intern (str "year:1996") Year (intern (str "term:acme") Generic dict_new).2).2 in
  default d (bump_freq 1 d).

Lemma mask_demo_wf : dict_wf mask_demo.
Proof.
  pose proof (intern_wf (str "year:1996") Year (intern (str "term:acme") Generic dict_new).2) as H.
  destruct H as [Hk Hf Hm Hmap Hr Hi]; [by apply intern_wf; [apply dict_new_wf|]|done|].
  split; try done; vm_compute in Hk, Hf, Hm |- *; done.
Qed.

Lemma finalize_mask_top64_witness :
  ∃ d', finalize_mask [1; 0] mask_demo = Some d' ∧ dict_wf d' ∧ finalize_mask [0; 1] d' = Some d' ∧
    names d' = names mask_demo ∧ freqs d' = freqs mask_demo ∧
    length (filter (λ f, is_hot d' f = true) (all_ids d')) = (64 `min` length (names mask_demo))%nat ∧
    (∀ f g, is_hot d' f = true → is_hot d' g = false → freq d' g ≤ freq d' f).
Proof.
  apply (finalize_mask_top64 mask_demo [1; 0] [0; 1]).
  - apply mask_demo_wf.
  - reflexivity.
  - apply (mask_order_of_ok mask_demo). change (freqs mask_demo) with [0; 1]. repeat (constructor; [done|]). constructor.
Defined.

(** ** The inverse of the mask ([Dict::mask_inverse]) *)

Lemma mask_inverse_loop_spec mb id inv :
  Forall (λ b, b ≤ NO_MASK_BIT) mb → length inv = 64%nat → id + N.of_nat (length mb) ≤ 2 ^ 32 →
  (∀ i j b, mb !! i = Some b → mb !! j = Some b → b ≠ NO_MASK_BIT → i = j) →
  ∃ inv', mask_inverse_loop id mb inv = Some inv' ∧ length inv' = 64%nat ∧
    (∀ b, b < 64 → inv' !! usize b =
       match list_find (λ x, x = b) mb with
       | Some (i, _) => Some (Some (id + N.of_nat i))
       | None => inv !! usize b
       end).
Proof.
  revert id inv. induction mb as [|b0 mb IH]; intros id inv Hr Hlen Hid Hinj; simpl.
  { by exists inv. }
  apply Forall_cons in Hr as [Hb0 Hr]. simpl in Hid.
  assert (∀ i j b, mb !! i = Some b → mb !! j = Some b → b ≠ NO_MASK_BIT → i = j) as Hinj'.
  { intros i j b Hi Hj Hb. by specialize (Hinj (S i) (S j) b Hi Hj Hb) as [= ->]. }
  unfold NO_MASK_BIT in *.
  destruct (N.eqb_spec b0 64) as [->|Hne].
  - destruct (IH (id + 1) inv) as (inv' & -> & Hl & Hs); [done|done|lia|done|].
    exists inv'. split_and!; [done|done|]. intros b Hb. rewrite (Hs b Hb).
    rewrite decide_False by lia. destruct (list_find _ mb) as [[i x]|]; simpl; [|done].
    do 2 f_equal. lia.
  - destruct (lookup_lt_is_Some_2 inv (usize b0)) as [x Hx]; [lia|]. rewrite Hx. simpl.
    destruct (IH (id + 1) (<[usize b0 := Some (wrap32 id)]> inv)) as (inv' & -> & Hl & Hs);
      [done|by rewrite length_insert|lia|done|].
    exists inv'. split_and!; [done|done|]. intros b Hb. rewrite (Hs b Hb).
    destruct (decide (b0 = b)) as [->|Hbb].
    + destruct (list_find (λ x, x = b) mb) as [[i y]|] eqn:Efind.
      { apply list_find_Some in Efind as (Hi & -> & _). by specialize (Hinj O (S i) b eq_refl Hi Hne). }
      rewrite list_lookup_insert_eq by lia. rewrite wrap_small by (unfold fits; lia).
      do 2 f_equal. lia.
    + rewrite list_lookup_insert_ne by (intros ?%N2Nat.inj; congruence).
      destruct (list_find _ mb) as [[i y]|]; simpl; [|done]. do 2 f_equal. lia.
Qed.

Lemma mask_inverse_spec d :
  dict_wf d → N.of_nat (length (names d)) ≤ 2 ^ 32 →
  ∃ inv, mask_inverse d = Some inv ∧ length inv = 64%nat ∧
    ∀ b f, b < 64 → inv !! usize b = Some (Some f) ↔ mask_bit d f = b.
Proof.
  intros Hwf Hsz. unfold mask_inverse.
  destruct (mask_inverse_loop_spec (mask_bits d) 0 (replicate 64 None)) as (inv & -> & Hl & Hs).
  - apply Forall_lookup. intros i b. by apply wf_mask_range.
  - done.
  - rewrite wf_masks by done. lia.
  - intros i j b. by apply wf_mask_inj.
  - exists inv. split_and!; [done|done|]. intros b f Hb. rewrite (Hs b Hb).
    destruct (list_find (λ x, x = b) (mask_bits d)) as [[i x]|] eqn:E.
    + apply list_find_Some in E as (Hi & -> & _). split.
      * intros [= <-]. unfold mask_bit. by rewrite N.add_0_l, Nat2N.id, Hi.
      * intros Hm. do 2 f_equal. apply (mask_bit_inj d); [done| |].
        { rewrite Hm. unfold mask_bit. by rewrite N.add_0_l, Nat2N.id, Hi. }
        unfold mask_bit, NO_MASK_BIT. rewrite N.add_0_l, Nat2N.id, Hi. simpl. lia.
    + split; [by rewrite lookup_replicate_2 by lia|]. intros Hm.
      apply list_find_None in E. unfold mask_bit in Hm.
      destruct (mask_bits d !! usize f) eqn:Ef; simpl in Hm; [|unfold NO_MASK_BIT in Hm; lia].
      rewrite Forall_lookup in E. by apply E in Ef.
Qed.

(** [mask_inverse] inverts [mask_bit]: bit [b] names feature [f] exactly when
    [f]'s mask bit is [b]; it never panics. *)
Theorem mask_inverse_correct d :
  dict_wf d → N.of_nat (length (names d)) ≤ 2 ^ 32 →
  ∃ inv, mask_inverse d = Some inv ∧ length inv = 64%nat ∧
    ∀ b f, b < 64 → inv !! usize b = Some (Some f) ↔ mask_bit d f = b.
Proof. apply mask_inverse_spec. Qed.

Lemma mask_inverse_correct_witness :
  ∃ inv, mask_inverse mask_demo = Some inv ∧ length inv = 64%nat ∧
    ∀ b f, b < 64 → inv !! usize b = Some (Some f) ↔ mask_bit mask_demo f = b.
Proof. apply (mask_inverse_correct mask_demo); [apply mask_demo_wf|done]. Defined.

(** ** The fingerprint *)

(** [u32::from_le_bytes] of [u32::to_le_bytes]. *)
Lemma le32_value n :
  fits 32 n →
  n = foldr (λ byte acc, byte + 256 * acc) 0 (le32 n).
Proof.
  unfold fits, le32. intros Hn. cbn [foldr].
  replace (N.shiftr n 16) with (N.shiftr (N.shiftr n 8) 8) by by rewrite N.shiftr_shiftr.
  replace (N.shiftr n 24) with (N.shiftr (N.shiftr (N.shiftr n 8) 8) 8) by by rewrite !N.shiftr_shiftr.
  change 0xFF with (N.ones 8). rewrite !N.land_ones, !N.shiftr_div_pow2.
  change (2 ^ 8) with 256. change (2 ^ 32) with (256 * (256 * (256 * 256))) in Hn.
  assert (n / 256 / 256 / 256 < 256).
  { repeat (apply N.Div0.div_lt_upper_bound). lia. }
  rewrite (N.mod_small (n / 256 / 256 / 256)) by done.
  pose proof (N.div_mod n 256). pose proof (N.div_mod (n / 256) 256).
  pose proof (N.div_mod (n / 256 / 256) 256). lia.
Qed.

Lemma le32_inj a b : fits 32 a → fits 32 b → le32 a = le32 b → a = b.
Proof. intros Ha Hb E. by rewrite (le32_value a), (le32_value b), E by done. Qed.

(** The tag byte of a kind reads back as that kind. *)
Lemma kind_from_kind_tag k : kind_from_tag (kind_tag k) = Some k.
Proof. by destruct k. Qed.

Lemma kind_tag_inj k k' : kind_tag k = kind_tag k' → k = k'.
Proof.
  intros E. pose proof (kind_from_kind_tag k) as H. rewrite E, kind_from_kind_tag in H. congruence.
Qed.

(** The record of one feature is self-delimiting. *)
Lemma fingerprint_entry_prefix n k m n' k' m' r r' :
  fits 32 (N.of_nat (str_len n)) → fits 32 (N.of_nat (str_len n')) →
  fingerprint_entry (n, k, m) ++ r = fingerprint_entry (n', k', m') ++ r' →
  as_bytes n = as_bytes n' ∧ k = k' ∧ m = m' ∧ r = r'.
Proof.
  unfold fingerprint_entry. intros Hn Hn' E. rewrite <-!app_assoc in E.
  rewrite !as_u32_small in E by done.
  apply app_inj_1 in E as [Elen E]; [|done].
  apply le32_inj in Elen; [|done..]. apply Nat2N.inj in Elen. unfold str_len in Elen.
  apply app_inj_1 in E as [En E]; [|done].
  simpl in E. injection E as Ek Em Er. by apply kind_tag_inj in Ek.
Qed.

Definition short_names (d : Dict) : Prop :=
  Forall (λ n, fits 32 (N.of_nat (str_len n))) (names d).

Lemma fingerprint_rows_inj ns ks ms ns' ks' ms' r r' :
  Forall (λ n, fits 32 (N.of_nat (str_len n))) ns → Forall (λ n, fits 32 (N.of_nat (str_len n))) ns' →
  length ns = length ns' → length ks = length ns → length ms = length ns →
  length ks' = length ns' → length ms' = length ns' →
  mjoin (fingerprint_entry <$> zip (zip ns ks) ms) ++ r =
    mjoin (fingerprint_entry <$> zip (zip ns' ks') ms') ++ r' →
  as_bytes <$> ns = as_bytes <$> ns' ∧ ks = ks' ∧ ms = ms' ∧ r = r'.
Proof.
  revert ks ms ns' ks' ms'.
  induction ns as [|n ns IH]; intros [|k ks] [|m ms] [|n' ns'] [|k' ks'] [|m' ms'] Hs Hs' El E1 E2 E3 E4 E;
    cbn [length] in *; try lia; [done|].
  cbn [zip_with] in E. rewrite !fmap_cons in E. cbn [mjoin list_join] in E.
  apply Forall_cons in Hs as [Hn Hs], Hs' as [Hn' Hs']. rewrite <-!app_assoc in E.
  apply fingerprint_entry_prefix in E as (En & -> & -> & E); [|done..].
  edestruct (IH ks ms ns' ks' ms') as (H1 & -> & -> & ->); [done..|lia|lia|lia|lia|lia|exact E|]. by rewrite !fmap_cons, En, H1.
Qed.

(** The byte stream the fingerprint hashes determines the dictionary: its
    names (as UTF-8), kinds, mask bits and freeze flag. Two dictionaries that
    differ in any of them feed different streams to the hash. *)
Theorem fingerprint_bytes_faithful d d' :
  dict_wf d → dict_wf d' → short_names d → short_names d' →
  N.of_nat (length (names d)) < 2 ^ 32 → N.of_nat (length (names d')) < 2 ^ 32 →
  fingerprint_bytes d = fingerprint_bytes d' →
  as_bytes <$> names d = as_bytes <$> names d' ∧ kinds d = kinds d' ∧
  mask_bits d = mask_bits d' ∧ finalized d = finalized d'.
Proof.
  intros Hwf Hwf' Hs Hs' Hl Hl' E. unfold fingerprint_bytes in E.
  rewrite !as_u32_small in E by done.
  apply app_inj_1 in E as [Elen E]; [|done]. apply le32_inj in Elen; [|done..].
  apply fingerprint_rows_inj in E as (-> & -> & -> & E);
    try done; try (by apply wf_kinds); try (by apply wf_masks); try lia.
  split_and!; try done. by destruct (finalized d), (finalized d').
Qed.

Lemma fingerprint_bytes_faithful_witness :
  let d := (intern (str "a") Generic dict_new).2 in
  as_bytes <$> names d = as_bytes <$> names d ∧ kinds d = kinds d ∧
  mask_bits d = mask_bits d ∧ finalized d = finalized d.
Proof.
  intros d. apply (fingerprint_bytes_faithful d d); try (by apply intern_wf; [apply dict_new_wf|]);
    try done; by repeat constructor.
Defined.

(** ** Growth *)

(** [d'] is [d] with names interned: old ids, frequencies and mask bits stay. *)
Record dict_ext (d d' : Dict) : Prop := {
  ext_names : ∃ k, names d' = names d ++ k;
  ext_freq f : freq d' f = freq d f;
  ext_mask f : mask_bit d' f = mask_bit d f;
  ext_finalized : finalized d' = finalized d;
  ext_equivs : equivs d' = equivs d;
}.

#[export] Instance dict_ext_refl : Reflexive dict_ext.
Proof. intros d. split; try done. exists []. by rewrite app_nil_r. Qed.

#[export] Instance dict_ext_trans : Transitive dict_ext.
Proof.
  intros d1 d2 d3 [[k1 N1] F1 M1 Z1 E1] [[k2 N2] F2 M2 Z2 E2]. split; try congruence.
  exists (k1 ++ k2). by rewrite N2, N1, app_assoc.
Qed.

Lemma dict_ext_length d d' : dict_ext d d' → (length (names d) ≤ length (names d'))%nat.
Proof. intros [[k ->] _ _ _ _]. rewrite length_app. lia. Qed.

(** The id of an interned feature. *)
Definition interned (d : Dict) (f : N) : Prop := (usize f < length (names d))%nat.

Lemma interned_ext d d' f : dict_ext d d' → interned d f → interned d' f.
Proof. intros Hext%dict_ext_length Hf. unfold interned in *. lia. Qed.

(** The dictionary has room for dense ids. *)
Definition dict_room (d : Dict) : Prop := N.of_nat (length (names d)) < SYNTHETIC_BASE.

Lemma dict_room_ext d d' : dict_ext d d' → dict_room d' → dict_room d.
Proof. intros Hext%dict_ext_length Hr. unfold dict_room in *. lia. Qed.

Lemma intern_ext name k d :
  dict_wf d → dict_room d →
  dict_wf (intern name k d).2 ∧ dict_ext d (intern name k d).2 ∧
  interned (intern name k d).2 (intern name k d).1.
Proof.
  intros Hwf Hr. assert (N.of_nat (length (names d)) < 2 ^ 32) as H32.
  { unfold dict_room, SYNTHETIC_BASE in Hr. lia. }
  split; [by apply intern_wf|].
  pose proof (wf_freqs d Hwf) as Hf. pose proof (wf_masks d Hwf) as Hm.
  assert (∀ (l : list N) (x : N) f, length l = length (names d) →
    default x ((l ++ [x]) !! usize f) = default x (l !! usize f)) as Hsnoc.
  { intros l x f Hl. destruct (decide (usize f < length l)%nat); [by rewrite lookup_app_l|].
    rewrite (lookup_ge_None_2 l) by lia. rewrite lookup_app_r by lia.
    by destruct (usize f - length l)%nat as [|[]]. }
  unfold intern, interned. destruct (name_map d !! name) as [id|] eqn:E; simpl.
  - split; [reflexivity|]. apply (wf_map d Hwf) in E. by apply lookup_lt_Some in E.
  - split.
    + split; simpl; try done.
      * by eexists.
      * intros f. unfold freq. simpl. by apply Hsnoc.
      * intros f. unfold mask_bit. simpl. by apply Hsnoc.
    + rewrite as_u32_small by done. rewrite length_app. simpl. lia.
Qed.

(** ** The mask only grows

    Bits are assigned once and never move, so a row masked under an older
    dictionary still reads right under a newer one. *)

Definition mask_le (d d' : Dict) : Prop := ∀ f, is_hot d f = true → mask_bit d' f = mask_bit d f.

#[export] Instance mask_le_refl : Reflexive mask_le.
Proof. by intros d f. Qed.

Lemma mask_le_hot d d' f : mask_le d d' → is_hot d f = true → is_hot d' f = true.
Proof. intros H Hf. unfold is_hot in *. by rewrite H. Qed.

#[export] Instance mask_le_trans : Transitive mask_le.
Proof. intros d1 d2 d3 H12 H23 f Hf. rewrite H23 by by eapply mask_le_hot. by apply H12. Qed.

Lemma dict_ext_mask_le d d' : dict_ext d d' → mask_le d d'.
Proof. intros H f _. by apply ext_mask. Qed.
