(* ===== verification/FramedLog.v ===== *)
(** * Framed logs ([engine/src/storage/framed_log.rs])

    The write-ahead log, the translog and the control log share one framing: a
    record body follows its length and its checksum.  The file models writing a
    frame, the append handle that refuses to go on after a failure, the scan of a
    log with its treatment of an incomplete last write, the repair, and the
    bounds-checked record reader.

    A file is the list of its bytes.  A write that fails may have put any prefix of
    its bytes into the file. *)

From stdpp Require Import strings.
From S2P Require Import Prelude Text Utf8 Dictionary Crc.
From Stdlib Require Import ZArith.

Inductive LogError :=
  | Invalid (what : string)
  | InvalidInput (what : string)
  | CrcMismatch (at_ : nat)
  | InvalidRecord (at_ : nat) (e : LogError)
  | Refused (why : string)
  | WriteFailed.

Definition u32_at (data : list N) (offset : nat) : LogError + N :=
  match slice data offset 4 with
  | Some bytes => inr (le_value bytes)
  | None => inl (Invalid "truncated frame header")
  end.

(** ** Writing *)

Definition write_frame (body : list N) : LogError + list N :=
  if umax 32 <? N.of_nat (length body) then inl (InvalidInput "log record exceeds u32 length")
  else inr (le32 (N.of_nat (length body)) ++ le32 (crc32 body) ++ body).

(** What became of a write: all of it and the flush or sync after it, or a failure
    after some of the bytes had reached the file. *)
Inductive WriteOutcome := Written | Failed (reached : nat).

Record LogAppender := mkLogAppender { la_file : list N; la_refusal : option string }.

Definition AFTER_A_FAILURE : string := "log append disabled after I/O failure; reopen the log".

Definition appender_new (file : list N) : LogAppender := mkLogAppender file None.

(** The first reason stays. *)
Definition disable_because (why : string) (a : LogAppender) : LogAppender :=
  mkLogAppender (la_file a) (Some (default why (la_refusal a))).
Definition disable (a : LogAppender) : LogAppender := disable_because AFTER_A_FAILURE a.
Definition is_disabled (a : LogAppender) : bool := bool_decide (is_Some (la_refusal a)).

Definition healthy (a : LogAppender) : LogError + unit :=
  match la_refusal a with Some why => inl (Refused why) | None => inr tt end.

(** [append_at]: the appender afterwards, and the frame's length or the error. *)
Definition append_at (a : LogAppender) (body : list N) (io : WriteOutcome) : LogAppender * (LogError + nat) :=
  match healthy a with
  | inl e => (a, inl e)
  | inr _ =>
      match write_frame body with
      | inl e => (disable a, inl e)
      | inr frame =>
          match io with
          | Written => (mkLogAppender (la_file a ++ frame) (la_refusal a), inr (length frame))
          | Failed reached => (disable (mkLogAppender (la_file a ++ take reached frame) (la_refusal a)), inl WriteFailed)
          end
      end
  end.

(** [sync_at]; the flag says whether the sync succeeded. *)
Definition sync_at (a : LogAppender) (synced : bool) : LogAppender * (LogError + unit) :=
  match healthy a with
  | inl e => (a, inl e)
  | inr _ => if synced then (a, inr tt) else (disable a, inl WriteFailed)
  end.

(** ** Scanning *)

(** Whether a prefix of the bytes has the checksum. *)
Fixpoint prefix_has_crc (crc expected : N) (bytes : list N) : bool :=
  match bytes with
  | [] => false
  | byte :: bytes' =>
      let crc := crc_update crc byte in
      (crc_finish crc =? expected) || prefix_has_crc crc expected bytes'
  end.

(** The second loop of [validate_torn_suffix], over the offsets. *)
Fixpoint embedded_loop (tail : list N) (budget : N) (offsets : list nat) : LogError + unit :=
  match offsets with
  | [] => inr tt
  | offset :: offsets' =>
      let? len := u32_at tail offset in
      if len =? 0 then embedded_loop tail budget offsets'
      else
        let start := (offset + 8)%nat in
        if N.of_nat (length tail) <? N.of_nat start + len then embedded_loop tail budget offsets'
        else if budget <? len then inl (Invalid "ambiguous log tail exceeds repair validation budget")
        else
          let budget := budget - len in
          let? expected := u32_at tail (offset + 4) in
          if crc32 (take (usize len) (drop start tail)) =? expected
          then inl (Invalid "damaged log prefix precedes a complete record; refusing repair")
          else embedded_loop tail budget offsets'
  end.

Definition validate_torn_suffix (tail : list N) : LogError + unit :=
  let n := N.of_nat (length tail) in
  let budget := N.max (N.min (n * 4) (umax 64)) 64 in
  let? budget :=
    if (8 <? length tail)%nat then
      let budget := budget - (n - 8) in
      let? expected := u32_at tail 4 in
      if prefix_has_crc crc_new expected (drop 8 tail)
      then inl (Invalid "complete log payload has a damaged length; refusing repair")
      else inr budget
    else inr budget in
  embedded_loop tail budget (seq 1 (length tail - 8)).

Record FrameScan (T : Type) := mkFrameScan { records : list T; valid_len : nat; torn_bytes : nat }.
Arguments mkFrameScan {T}.
Arguments records {T}.
Arguments valid_len {T}.
Arguments torn_bytes {T}.

Section scan.
Context {T St : Type} (decode : St → list N → LogError + (T * St)).

(** [while cursor < data.len()]; [None] when the fuel is used up. *)
Fixpoint scan_loop (fuel : nat) (data : list N) (cursor : nat) (st : St) (records : list T) :
  option (LogError + (list T * nat)) :=
  match fuel with
  | O => None
  | S fuel' =>
      if (length data <=? cursor)%nat then Some (inr (records, cursor))
      else
        let tail := drop cursor data in
        if forallb (λ byte, byte =? 0) tail then Some (inr (records, cursor))
        else if (length tail <? 8)%nat then Some (inr (records, cursor))
        else
          match u32_at tail 0, u32_at tail 4 with
          | inl e, _ => Some (inl e)
          | inr len, crc =>
              if N.of_nat (length tail) <? 8 + len then
                match validate_torn_suffix tail with
                | inl e => Some (inl e)
                | inr _ => Some (inr (records, cursor))
                end
              else
                let body := take (usize len) (drop 8 tail) in
                match crc with
                | inl e => Some (inl e)
                | inr expected =>
                    if negb (crc32 body =? expected) then Some (inl (CrcMismatch cursor))
                    else
                      match decode st body with
                      | inl e => Some (inl (InvalidRecord cursor e))
                      | inr (record, st) => scan_loop fuel' data (cursor + (8 + usize len)) st (records ++ [record])
                      end
                end
          end
  end.

(** Every round but the last moves the cursor. *)
Definition scan_records (data : list N) (header_len : nat) (st : St) : option (LogError + FrameScan T) :=
  if (length data <? header_len)%nat then Some (inl (Invalid "truncated log header"))
  else
    r ← scan_loop (S (length data)) data header_len st [];
    Some (let? rc := r in inr (mkFrameScan rc.1 rc.2 (length data - rc.2))).

End scan.

(** [repair_tail]: the file cut to its valid part. *)
Definition repair_tail (file : list N) (scanned_len valid_len : nat) : LogError + list N :=
  if (scanned_len <? valid_len)%nat then inl (Invalid "invalid log repair boundary")
  else if (valid_len =? scanned_len)%nat then inr file
  else if negb (length file =? scanned_len)%nat then inl (Invalid "log length changed during recovery validation")
  else inr (take valid_len file).

(** A file shorter than a header, all of whose bytes a header has there. *)
Definition header_was_interrupted (file : list N) (headers : list (list N)) : bool :=
  let whole := match headers with h :: _ => length h | [] => O end in
  if (whole <=? length file)%nat then false
  else existsb (λ header, bool_decide (take (length file) header = file)) headers.

(** ** Reading a record *)

Definition Reader (A : Type) : Type := list N → LogError + (A * list N).

Definition rd_ret {A} (a : A) : Reader A := λ remaining, inr (a, remaining).
Definition rd_bind {A B} (m : Reader A) (k : A → Reader B) : Reader B :=
  λ remaining, let? r := m remaining in k r.1 r.2.
Definition rd_fail {A} (e : LogError) : Reader A := λ _, inl e.

Declare Scope reader_scope.
Delimit Scope reader_scope with reader.
Notation "'let*' x := m 'in' k" := (rd_bind m (λ x, k))
  (at level 10, x name, m at level 100, k at level 200) : reader_scope.
#[global] Open Scope reader_scope.

Definition rd_take (len : nat) : Reader (list N) := λ remaining,
  if (length remaining <? len)%nat then inl (Invalid "short record payload")
  else inr (take len remaining, drop len remaining).

Definition rd_remaining : Reader nat := λ remaining, inr (length remaining, remaining).

Definition rd_int (len : nat) : Reader N := let* bytes := rd_take len in rd_ret (le_value bytes).
Definition rd_u8 : Reader N := rd_int 1.
Definition rd_u16 : Reader N := rd_int 2.
Definition rd_u32 : Reader N := rd_int 4.
Definition rd_u64 : Reader N := rd_int 8.

(** [i64::from_le_bytes]: two's complement. *)
Definition as_i64 (n : N) : Z := if n <? 2 ^ 63 then Z.of_N n else (Z.of_N n - 2 ^ 64)%Z.
Definition rd_i64 : Reader Z := let* n := rd_int 8 in rd_ret (as_i64 n).

Definition rd_string (len : nat) : Reader rstring :=
  let* bytes := rd_take len in
  match from_utf8 bytes with
  | Some s => rd_ret s
  | None => rd_fail (Invalid "invalid utf-8")
  end.

Definition rd_finish : Reader unit := λ remaining,
  match remaining with [] => inr (tt, []) | _ => inl (Invalid "trailing record payload") end.

(** ** Integers as bytes *)

Fixpoint le_bytes (k : nat) (v : N) : list N :=
  match k with O => [] | S k' => N.land v 0xFF :: le_bytes k' (N.shiftr v 8) end.

Lemma length_le_bytes k v : length (le_bytes k v) = k.
Proof. revert v. induction k as [|k IH]; intros v; simpl; [done|]. by rewrite IH. Qed.

Lemma le_bytes_ok k v : bytes_ok (le_bytes k v).
Proof. revert v. induction k as [|k IH]; intros v; constructor; [apply land_byte|apply IH]. Qed.

Lemma le_value_bytes k v : fits (8 * N.of_nat k) v → le_value (le_bytes k v) = v.
Proof.
  revert v. induction k as [|k IH]; intros v Hv.
  { unfold fits in Hv. change (2 ^ (8 * N.of_nat 0)) with 1 in Hv. simpl. lia. }
  cbn [le_bytes]. change (le_value (N.land v 0xFF :: le_bytes k (N.shiftr v 8)))
    with (N.land v 0xFF + 256 * le_value (le_bytes k (N.shiftr v 8))).
  rewrite IH; [rewrite add_disjoint by apply land_byte; symmetry; apply low_high|].
  unfold fits in *. rewrite N.shiftr_div_pow2. apply N.Div0.div_lt_upper_bound. rewrite <-N.pow_add_r.
  by replace (8 + 8 * N.of_nat k) with (8 * N.of_nat (S k)) by lia.
Qed.

Lemma le32_bytes v : le32 v = le_bytes 4 v.
Proof. unfold le32. simpl. by rewrite !N.shiftr_shiftr. Qed.

Lemma le64_bytes v : le64 v = le_bytes 8 v.
Proof. unfold le64. simpl. by rewrite !N.shiftr_shiftr. Qed.

Lemma le32_ok v : bytes_ok (le32 v).
Proof. rewrite le32_bytes. apply le_bytes_ok. Qed.

Lemma le64_ok v : bytes_ok (le64 v).
Proof. rewrite le64_bytes. apply le_bytes_ok. Qed.

Lemma length_le32 v : length (le32 v) = 4%nat.
Proof. done. Qed.

(** ** Frames *)

Definition frame_of (body : list N) : list N := le32 (N.of_nat (length body)) ++ le32 (crc32 body) ++ body.
Definition frames_of (bodies : list (list N)) : list N := mjoin (frame_of <$> bodies).

Lemma frames_of_snoc bodies body : frames_of (bodies ++ [body]) = frames_of bodies ++ frame_of body.
Proof. unfold frames_of. rewrite fmap_app, join_app. cbn [fmap list_fmap mjoin list_join]. by rewrite app_nil_r. Qed.

(** A body that can be a record: bytes, not empty, of a [u32] length. *)
Definition body_ok (body : list N) : Prop :=
  bytes_ok body ∧ body ≠ [] ∧ N.of_nat (length body) < 2 ^ 32.

Lemma write_frame_ok body : body_ok body → write_frame body = inr (frame_of body).
Proof.
  intros (_ & _ & Hl). unfold write_frame. rewrite (proj2 (N.ltb_ge _ _)); [done|]. unfold umax. lia.
Qed.

Lemma length_frame body : length (frame_of body) = (8 + length body)%nat.
Proof. unfold frame_of. rewrite !length_app, !length_le32. lia. Qed.

Lemma frames_of_cons body bodies : frames_of (body :: bodies) = frame_of body ++ frames_of bodies.
Proof. done. Qed.

Lemma frames_of_app a b : frames_of (a ++ b) = frames_of a ++ frames_of b.
Proof. unfold frames_of. by rewrite fmap_app, join_app. Qed.

Lemma u32_at_app pre v post : v < 2 ^ 32 → u32_at (pre ++ le32 v ++ post) (length pre) = inr v.
Proof.
  intros Hv. unfold u32_at. rewrite le32_bytes. pose proof (slice_mid pre (le_bytes 4 v) post) as E.
  rewrite length_le_bytes in E. rewrite E. f_equal. by apply le_value_bytes.
Qed.

Lemma zero_length_field n : N.of_nat n < 2 ^ 32 → forallb (λ byte, byte =? 0) (le32 (N.of_nat n)) = true → n = O.
Proof.
  intros Hn Hz. assert (le_value (le32 (N.of_nat n)) = 0) as E.
  { revert Hz. generalize (le32 (N.of_nat n)). intros l. induction l as [|b l IH]; [done|]. cbn [forallb].
    intros [->%N.eqb_eq Hl']%andb_true_iff. change (le_value (0 :: l)) with (0 + 256 * le_value l). by rewrite IH. }
  rewrite le32_bytes, le_value_bytes in E by exact Hn. lia.
Qed.

Lemma frame_not_zero body post : body_ok body → forallb (λ byte, byte =? 0) (frame_of body ++ post) = false.
Proof.
  intros (_ & Hne & Hl). apply not_true_iff_false. intros Hz. unfold frame_of in Hz. rewrite <-!app_assoc, !forallb_app in Hz.
  apply andb_true_iff in Hz as [Hz _]. by apply Hne, nil_length_inv, zero_length_field.
Qed.

Section scanning.
Context {T St : Type} (decode : St → list N → LogError + (T * St)).

(** Decoding bodies in turn. *)
Fixpoint decode_all (st : St) (bodies : list (list N)) : LogError + (list T * St) :=
  match bodies with
  | [] => inr ([], st)
  | body :: bodies' =>
      let? r := decode st body in
      let? rs := decode_all r.2 bodies' in
      inr (r.1 :: rs.1, rs.2)
  end.

(** One round on a whole frame. *)
Lemma scan_frame fuel data cursor st rs body post :
  drop cursor data = frame_of body ++ post → body_ok body →
  scan_loop decode (S fuel) data cursor st rs =
    match decode st body with
    | inl e => Some (inl (InvalidRecord cursor e))
    | inr r => scan_loop decode fuel data (cursor + length (frame_of body)) r.2 (rs ++ [r.1])
    end.
Proof.
  intros Hd Hok. pose proof Hok as (Hb & Hne & Hl). cbn [scan_loop]. pose proof (length_frame body) as Hlf.
  assert (length (drop cursor data) = 8 + length body + length post)%nat as Hlen by (rewrite Hd, length_app, Hlf; lia).
  rewrite length_drop in Hlen. rewrite (proj2 (Nat.leb_gt _ _)) by lia. rewrite Hd, frame_not_zero by done.
  rewrite (proj2 (Nat.ltb_ge (length (frame_of body ++ post)) 8)) by (rewrite length_app; lia).
  assert (u32_at (frame_of body ++ post) 0 = inr (N.of_nat (length body))) as ->.
  { unfold frame_of. rewrite <-!app_assoc. by apply (u32_at_app []). }
  assert (u32_at (frame_of body ++ post) 4 = inr (crc32 body)) as ->.
  { unfold frame_of. rewrite <-!app_assoc. pose proof (u32_at_app (le32 (N.of_nat (length body))) (crc32 body) (body ++ post)) as E.
    rewrite length_le32 in E. apply E. by apply crc32_bound. }
  rewrite (proj2 (N.ltb_ge _ _)) by (rewrite length_app; lia). rewrite Nat2N.id.
  assert (take (length body) (drop 8 (frame_of body ++ post)) = body) as ->.
  { replace (frame_of body ++ post) with ((le32 (N.of_nat (length body)) ++ le32 (crc32 body)) ++ body ++ post)
      by (unfold frame_of; by rewrite <-!app_assoc).
    rewrite drop_app_length' by done. by rewrite take_app_length. }
  rewrite N.eqb_refl, Hlf. simpl negb. cbv iota. destruct (decode st body) as [e|[r st']]; done.
Qed.

Lemma scan_frames bodies fuel data cursor st rs ts st' post :
  drop cursor data = frames_of bodies ++ post → Forall body_ok bodies → decode_all st bodies = inr (ts, st') →
  scan_loop decode (length bodies + fuel) data cursor st rs =
    scan_loop decode fuel data (cursor + length (frames_of bodies)) st' (rs ++ ts).
Proof.
  intros Hd Hok. revert cursor st rs ts Hd. induction Hok as [|body bodies Hb _ IH]; intros cursor st rs ts Hd E.
  { simpl in E. simplify_eq. simpl. by rewrite Nat.add_0_r, app_nil_r. }
  simpl in E. rewrite frames_of_cons in Hd |- *. rewrite <-app_assoc in Hd.
  cbn [length]. rewrite Nat.add_succ_l, (scan_frame _ _ _ _ _ _ _ Hd Hb).
  destruct (decode st body) as [e|[r st1]]; [done|]. simpl in E. destruct (decode_all st1 bodies) as [e|[rs' st2]] eqn:E2; [done|].
  simpl in E. injection E as <- <-. cbn [fst snd]. rewrite (IH _ _ _ rs'); [|by rewrite <-drop_drop, Hd, drop_app_length|done].
  rewrite length_app, <-app_assoc. f_equal. lia.
Qed.

(** The scan ends: with the records it had and more, or with an error. *)
Lemma scan_loop_ends fuel data cursor st rs :
  (length data - cursor < fuel)%nat →
  ∃ r, scan_loop decode fuel data cursor st rs = Some r ∧
    ∀ rs' c, r = inr (rs', c) → rs `prefix_of` rs' ∧ (cursor ≤ c)%nat.
Proof.
  revert cursor st rs. induction fuel as [|fuel IH]; intros cursor st rs Hf; [lia|]. cbn [scan_loop].
  assert (∃ r : LogError + (list T * nat), Some (inr (rs, cursor)) = Some r ∧ ∀ rs' c, r = inr (rs', c) → rs `prefix_of` rs' ∧ (cursor ≤ c)%nat) as Hstop.
  { eexists. split; [done|]. by intros ? ? [= <- <-]. }
  assert (∀ e, ∃ r : LogError + (list T * nat), Some (inl e) = Some r ∧ ∀ rs' c, r = inr (rs', c) → rs `prefix_of` rs' ∧ (cursor ≤ c)%nat) as Herr.
  { intros e. by eexists. }
  destruct (Nat.leb_spec (length data) cursor); [done|]. destruct (forallb _ _); [done|]. destruct (_ <? 8)%nat; [done|].
  destruct (u32_at _ 0) as [|len]; [done|]. destruct (_ <? _); [by destruct (validate_torn_suffix _)|].
  destruct (u32_at _ 4) as [|expected]; [done|]. destruct (negb _); [done|]. destruct (decode st _) as [|[r st1]]; [done|].
  destruct (IH (cursor + (8 + usize len))%nat st1 (rs ++ [r])) as (r' & -> & Hr); [lia|]. eexists. split; [done|].
  intros rs' c E. destruct (Hr _ _ E) as [Hp Hc]. split; [by eapply prefix_app_l|lia].
Qed.

(** A round on the beginning of a frame that was not completely written. *)
Lemma scan_torn fuel data cursor st rs body k :
  body_ok body → (k < length (frame_of body))%nat → drop cursor data = take k (frame_of body) →
  scan_loop decode (S fuel) data cursor st rs = Some (inr (rs, cursor)) ∨
  ∃ e, (8 ≤ k)%nat ∧ validate_torn_suffix (take k (frame_of body)) = inl e ∧ scan_loop decode (S fuel) data cursor st rs = Some (inl e).
Proof.
  intros Hok Hk Hd. cbn [scan_loop]. destruct (Nat.leb_spec (length data) cursor); [by left|]. rewrite Hd.
  destruct (forallb _ _); [by left|]. rewrite length_take_le by lia. destruct (Nat.ltb_spec k 8); [by left|].
  assert (∃ mid, take k (frame_of body) = le32 (N.of_nat (length body)) ++ mid) as [mid Hmid].
  { unfold frame_of. rewrite take_app, length_le32, take_ge by (rewrite length_le32; lia). eauto. }
  assert (u32_at (take k (frame_of body)) 0 = inr (N.of_nat (length body))) as ->.
  { rewrite Hmid. apply (u32_at_app []). apply Hok. }
  rewrite length_frame in Hk. rewrite (proj2 (N.ltb_lt _ _)) by lia.
  destruct (validate_torn_suffix _) as [e|[]] eqn:E; [right|by left]. by exists e.
Qed.

(** A scan goes through the whole frames at its front. *)
Lemma scan_records_front header bodies tail st ts st' :
  Forall body_ok bodies → decode_all st bodies = inr (ts, st') →
  let data := header ++ frames_of bodies ++ tail in
  let front := (length header + length (frames_of bodies))%nat in
  ∃ fuel, (length tail < S fuel)%nat ∧ drop front data = tail ∧ length data = (front + length tail)%nat ∧
    scan_records decode data (length header) st =
      (r ← scan_loop decode (S fuel) data front st' ts; Some (let? rc := r in inr (mkFrameScan rc.1 rc.2 (length data - rc.2)))).
Proof.
  intros Hok Hd data front. assert (length bodies ≤ length (frames_of bodies))%nat as Hle.
  { clear. induction bodies as [|b bodies IH]; [done|]. rewrite frames_of_cons, length_app, length_frame. simpl. lia. }
  assert (length data = (front + length tail)%nat) as Hlen by (unfold data, front; rewrite !length_app; lia).
  assert (drop front data = tail) as Hdrop.
  { unfold data, front. rewrite app_assoc. apply drop_app_length'. by rewrite length_app. }
  exists (length data - length bodies)%nat. split_and!; [lia|done|done|].
  unfold scan_records. rewrite (proj2 (Nat.ltb_ge _ _)) by lia.
  replace (S (length data)) with (length bodies + S (length data - length bodies))%nat by lia.
  by rewrite (scan_frames bodies _ data (length header) st [] ts st' tail) by (done || by unfold data; rewrite drop_app_length).
Qed.

Lemma scan_whole header bodies st ts st' :
  Forall body_ok bodies → decode_all st bodies = inr (ts, st') →
  scan_records decode (header ++ frames_of bodies) (length header) st =
    Some (inr (mkFrameScan ts (length (header ++ frames_of bodies)) 0)).
Proof.
  intros Hok Hd. destruct (scan_records_front header bodies [] st ts st' Hok Hd) as (fuel & _ & Hdrop & Hlen & E).
  rewrite app_nil_r in E, Hlen. rewrite E. cbn [scan_loop]. rewrite (proj2 (Nat.leb_le _ _)) by (simpl in Hlen; lia). simpl.
  rewrite Hlen. simpl. by rewrite Nat.add_0_r, Nat.sub_diag.
Qed.

Lemma scan_prefix header bodies tail st ts st' :
  Forall body_ok bodies → decode_all st bodies = inr (ts, st') →
  ∃ r, scan_records decode (header ++ frames_of bodies ++ tail) (length header) st = Some r ∧
    ∀ scan, r = inr scan → ts `prefix_of` records scan ∧ (length header + length (frames_of bodies) ≤ valid_len scan)%nat.
Proof.
  intros Hok Hd. destruct (scan_records_front header bodies tail st ts st' Hok Hd) as (fuel & Hf & Hdrop & Hlen & E). rewrite E.
  set (data := header ++ frames_of bodies ++ tail) in *. set (front := (length header + length (frames_of bodies))%nat) in *.
  destruct (scan_loop_ends (S fuel) data front st' ts) as (r & -> & Hr); [lia|]. eexists. split; [done|].
  intros scan. destruct r as [e|[rs c]]; [done|]. simpl. intros [= <-]. by apply Hr.
Qed.

Lemma scan_interrupted header bodies body k st ts st' :
  Forall body_ok bodies → decode_all st bodies = inr (ts, st') → body_ok body → (k < length (frame_of body))%nat →
  let data := header ++ frames_of bodies ++ take k (frame_of body) in
  scan_records decode data (length header) st =
    Some (inr (mkFrameScan ts (length header + length (frames_of bodies)) k)) ∨
  ∃ e, (8 ≤ k)%nat ∧ validate_torn_suffix (take k (frame_of body)) = inl e ∧
    scan_records decode data (length header) st = Some (inl e).
Proof.
  intros Hok Hd Hb Hk data. destruct (scan_records_front header bodies (take k (frame_of body)) st ts st' Hok Hd) as (fuel & Hf & Hdrop & Hlen & E).
  fold data in E, Hdrop, Hlen. rewrite E. rewrite length_take_le in Hlen by lia.
  destruct (scan_torn fuel data _ st' ts body k Hb Hk Hdrop) as [->|(e & H8 & He & ->)]; simpl; [left|right; by exists e].
  do 3 f_equal. lia.
Qed.

End scanning.

(** Damage to a record is found.  Change up to four consecutive bytes of the
    body of any record of a log, leave whatever follows it arbitrary: the scan
    fails with a checksum error at that record, whatever the record decoder does.
    A damaged record is never read as another record, and never taken for an
    incomplete last write and cut off. *)
Theorem damaged_record_refused {T St} (decode : St → list N → LogError + (T * St)) header bodies pre a b post rest st ts st' :
  Forall body_ok bodies → decode_all decode st bodies = inr (ts, st') →
  body_ok (pre ++ a ++ post) → bytes_ok b → length a = length b → (length a ≤ 4)%nat → a ≠ b →
  let damaged := le32 (N.of_nat (length (pre ++ a ++ post))) ++ le32 (crc32 (pre ++ a ++ post)) ++ pre ++ b ++ post in
  scan_records decode (header ++ frames_of bodies ++ damaged ++ rest) (length header) st =
    Some (inl (CrcMismatch (length header + length (frames_of bodies)))).
Proof.
  intros Hok Hd Hbody Hbb Hl H4 Hne damaged.
  destruct (scan_records_front decode header bodies (damaged ++ rest) st ts st' Hok Hd) as (fuel & Hf & Hdrop & Hlen & ->).
  set (data := header ++ frames_of bodies ++ damaged ++ rest) in *. set (front := (length header + length (frames_of bodies))%nat) in *.
  pose proof Hbody as (Hbytes & _ & Hl32). set (body := pre ++ a ++ post) in *. set (body' := pre ++ b ++ post).
  assert (length body' = length body) as Hl' by (unfold body, body'; rewrite !length_app; lia).
  assert (length (damaged ++ rest) = (8 + length body + length rest)%nat) as Hld.
  { unfold damaged. fold body'. rewrite !length_app, !length_le32, Hl'. lia. }
  cbn [scan_loop]. rewrite (proj2 (Nat.leb_gt _ _)) by lia. rewrite Hdrop.
  assert (forallb (λ byte, byte =? 0) (damaged ++ rest) = false) as ->.
  { apply not_true_iff_false. unfold damaged. rewrite <-app_assoc, forallb_app, andb_true_iff. intros [Hz _].
    by apply Hbody, nil_length_inv, zero_length_field. }
  rewrite (proj2 (Nat.ltb_ge (length (damaged ++ rest)) 8)) by lia.
  assert (u32_at (damaged ++ rest) 0 = inr (N.of_nat (length body))) as ->.
  { unfold damaged. rewrite <-!app_assoc. by apply (u32_at_app []). }
  assert (u32_at (damaged ++ rest) 4 = inr (crc32 body)) as ->.
  { unfold damaged. rewrite <-!app_assoc. pose proof (u32_at_app (le32 (N.of_nat (length body))) (crc32 body) (pre ++ b ++ post ++ rest)) as E.
    rewrite length_le32 in E. apply E. by apply crc32_bound. }
  rewrite (proj2 (N.ltb_ge _ _)) by lia. rewrite Nat2N.id.
  assert (take (length body) (drop 8 (damaged ++ rest)) = body') as ->.
  { replace (damaged ++ rest) with ((le32 (N.of_nat (length body)) ++ le32 (crc32 body)) ++ body' ++ rest)
      by (unfold damaged, body'; by rewrite <-!app_assoc).
    rewrite drop_app_length' by done. rewrite <-Hl'. by rewrite take_app_length. }
  apply Forall_app in Hbytes as [Hp [Ha Hq]%Forall_app]. pose proof (crc32_burst pre a b post Hp Ha Hbb Hq Hl H4 Hne) as Hcrc.
  rewrite (proj2 (N.eqb_neq _ _)); [done|]. by apply not_eq_sym.
Qed.

Lemma damaged_record_refused_witness :
  scan_records (λ (st : unit) body, inr (body, st)) ([80] ++ frames_of [[7; 7]] ++
    (le32 5 ++ le32 (crc32 [1; 2; 3; 4; 5]) ++ [1] ++ [2; 3; 9] ++ [5]) ++ [1; 2]) 1 tt = Some (inl (CrcMismatch 11)).
Proof.
  assert (∀ l, bool_decide (bytes_ok l) = true → bytes_ok l) as Hb by (intros l; apply bool_decide_eq_true).
  apply (damaged_record_refused (λ (st : unit) body, inr (body, st)) [80] [[7; 7]] [1] [2; 3; 4] [2; 3; 9] [5] [1; 2] tt [[7; 7]] tt).
  - constructor; [|constructor]. split_and!; [by apply Hb|done|done].
  - done.
  - split_and!; [by apply Hb|done|done].
  - by apply Hb.
  - done.
  - simpl. lia.
  - done.
Defined.
