(* ===== verification/Wal.v ===== *)
(** * The write-ahead log ([engine/src/wal.rs], [wal/write.rs], [wal/recovery.rs])

    Every mutation is appended to the log before it is applied.  The file models the
    entries and their payload bytes, the append operations with their sequence
    numbers and error paths, checkpoints, resets, the recovery of a log and its
    reopening with repair and header upgrade.

    The log file is the list of its bytes (the append handle of [FramedLog]).  A
    write either succeeds with its flush or sync, or fails after some of its bytes
    reached the file.  The per-write sync policy decides which of the two a power
    loss can turn an acknowledged write into; it has no other effect and is not
    a field here. *)

From stdpp Require Import strings.
From S2P Require Import Prelude Text Utf8 Dictionary Crc FramedLog.
From Stdlib Require Import ZArith.

Definition WAL_MAGIC : list N := Eval vm_compute in str "PWAL".
Definition WAL_VERSION : N := 7.
Definition WAL_HEADER_SIZE : nat := 8.
Definition SOURCE_GENERATION_MAGIC : list N := Eval vm_compute in str "SGEN".

Definition OP_INSERT : N := 0.
Definition OP_TOMBSTONE : N := 1.
Definition OP_FLUSH_CHECKPOINT : N := 2.
Definition OP_DELETE_LOGICAL : N := 3.
Definition OP_UPSERT : N := 4.
Definition OP_INSERT_CLASS_D : N := 5.
Definition OP_UPSERT_CLASS_D : N := 6.

(** The fields of [Insert] and of [Upsert]. *)
Record WalPut := mkWalPut {
  wp_seq : N;
  wp_logical : N;
  wp_version : N;
  wp_text : rstring;
  wp_tags : list (rstring * rstring);
  wp_priority : option Z;
  wp_source_generation : option N;
  wp_class_d_accepted : bool;
}.

Inductive WalEntry :=
  | WalInsert (p : WalPut)
  | WalTombstone (seq seg_idx local_id : N)
  | WalFlushCheckpoint (seq : N) (segment_file : rstring)
  | WalDeleteByLogical (seq logical : N)
  | WalUpsert (p : WalPut).

Definition entry_seq (e : WalEntry) : N :=
  match e with
  | WalInsert p | WalUpsert p => wp_seq p
  | WalTombstone seq _ _ | WalFlushCheckpoint seq _ | WalDeleteByLogical seq _ => seq
  end.

Definition is_checkpoint (e : WalEntry) : bool := match e with WalFlushCheckpoint _ _ => true | _ => false end.

(** ** Encoding *)

Definition le16 (n : N) : list N := le_bytes 2 n.

(** [i64::to_le_bytes]. *)
Definition le_i64 (z : Z) : list N := le64 (Z.to_N (z mod 2 ^ 64)).

Definition put_op (upsert class_d_accepted : bool) : N :=
  match upsert, class_d_accepted with
  | false, false => OP_INSERT
  | false, true => OP_INSERT_CLASS_D
  | true, false => OP_UPSERT
  | true, true => OP_UPSERT_CLASS_D
  end.

(** One tag of the tag section. *)
Definition encode_tag (tag_bytes : list N) (kv : rstring * rstring) : LogError + list N :=
  let kb := as_bytes kv.1 in
  let vb := as_bytes kv.2 in
  let? _ := return_if (umax 16 <? N.of_nat (length kb)) (InvalidInput "WAL tag key exceeds u16 length") in
  let? _ := return_if (umax 16 <? N.of_nat (length vb)) (InvalidInput "WAL tag value exceeds u16 length") in
  inr (tag_bytes ++ le16 (N.of_nat (length kb)) ++ kb ++ le16 (N.of_nat (length vb)) ++ vb).

Definition encode_tags (tags : list (rstring * rstring)) : LogError + list N :=
  let? _ := return_if (umax 16 <? N.of_nat (length tags)) (InvalidInput "too many WAL tags") in
  try_foldl encode_tag (le16 (N.of_nat (length tags))) tags.

(** The tail after the tags: the marked generation, or the bare priority. *)
Definition encode_extension (priority : option Z) (source_generation : option N) : list N :=
  match source_generation with
  | Some generation =>
      SOURCE_GENERATION_MAGIC ++ le64 generation ++
      match priority with Some value => 1 :: le_i64 value | None => [0] end
  | None => match priority with Some value => le_i64 value | None => [] end
  end.

Definition put_body (op seq : N) (p : WalPut) : LogError + list N :=
  let text_bytes := as_bytes (wp_text p) in
  let? tag_bytes := encode_tags (wp_tags p) in
  let? _ := return_if (umax 32 <? N.of_nat (length text_bytes)) (InvalidInput "WAL text exceeds u32 length") in
  inr (le64 seq ++ [op] ++ le64 (wp_logical p) ++ le32 (wp_version p) ++ le32 (N.of_nat (length text_bytes)) ++ text_bytes ++
    tag_bytes ++ encode_extension (wp_priority p) (wp_source_generation p)).

(** ** The operations *)

Record Wal := mkWal {
  wal_file : LogAppender;
  next_seq : N;
  size_bytes : N;
  pending_entries : N;
  repaired_tail_bytes : nat;
}.

(** What a caller asks to append: the sequence number is the log's. *)
Inductive WalOp :=
  | AppendInsert (p : WalPut)
  | AppendUpsert (p : WalPut)
  | AppendTombstone (seg_idx local_id : N)
  | AppendDeleteLogical (logical : N)
  | AppendFlushCheckpoint (segment_file : rstring).

Definition with_seq (seq : N) (p : WalPut) : WalPut :=
  mkWalPut seq (wp_logical p) (wp_version p) (wp_text p) (wp_tags p) (wp_priority p) (wp_source_generation p) (wp_class_d_accepted p).

Definition entry_of (op : WalOp) (seq : N) : WalEntry :=
  match op with
  | AppendInsert p => WalInsert (with_seq seq p)
  | AppendUpsert p => WalUpsert (with_seq seq p)
  | AppendTombstone seg_idx local_id => WalTombstone seq seg_idx local_id
  | AppendDeleteLogical logical => WalDeleteByLogical seq logical
  | AppendFlushCheckpoint segment_file => WalFlushCheckpoint seq segment_file
  end.

(** The body each append operation builds. *)
Definition encode_entry (e : WalEntry) : LogError + list N :=
  match e with
  | WalInsert p => put_body (put_op false (wp_class_d_accepted p)) (wp_seq p) p
  | WalUpsert p => put_body (put_op true (wp_class_d_accepted p)) (wp_seq p) p
  | WalTombstone seq seg_idx local_id => inr (le64 seq ++ [OP_TOMBSTONE] ++ le32 seg_idx ++ le32 local_id)
  | WalDeleteByLogical seq logical => inr (le64 seq ++ [OP_DELETE_LOGICAL] ++ le64 logical)
  | WalFlushCheckpoint seq segment_file =>
      let name_bytes := as_bytes segment_file in
      let? _ := return_if (umax 32 <? N.of_nat (length name_bytes)) (InvalidInput "WAL checkpoint name exceeds u32 length") in
      inr (le64 seq ++ [OP_FLUSH_CHECKPOINT] ++ le32 (N.of_nat (length name_bytes)) ++ name_bytes)
  end.

(** [source_generation == Some(0)] is refused before a number is taken. *)
Definition zero_generation (op : WalOp) : bool :=
  match op with
  | AppendInsert p | AppendUpsert p => bool_decide (wp_source_generation p = Some 0)
  | _ => false
  end.

Definition SEQ_EXHAUSTED : LogError := Invalid "WAL sequence space exhausted".

(** An append: the log afterwards, and the sequence number or the error. *)
Definition wal_append (w : Wal) (op : WalOp) (io : WriteOutcome) : Wal * (LogError + N) :=
  if zero_generation op then (w, inl (InvalidInput "zero WAL source generation"))
  else
    match checked_add 64 (next_seq w) 1 with
    | None => (w, inl SEQ_EXHAUSTED)
    | Some next =>
        let seq := next_seq w in
        let w := mkWal (wal_file w) next (size_bytes w) (pending_entries w) (repaired_tail_bytes w) in
        match encode_entry (entry_of op seq) with
        | inl e => (w, inl e)
        | inr body =>
            let '(file, r) := append_at (wal_file w) body io in
            match r with
            | inl e => (mkWal file next (size_bytes w) (pending_entries w) (repaired_tail_bytes w), inl e)
            | inr _ =>
                (mkWal file next (wrap64 (size_bytes w + 8 + N.of_nat (length body)))
                   (if is_checkpoint (entry_of op seq) then 0 else wrap64 (pending_entries w + 1)) (repaired_tail_bytes w), inr seq)
            end
        end
    end.

Definition wal_sync (w : Wal) (synced : bool) : Wal * (LogError + unit) :=
  let '(file, r) := sync_at (wal_file w) synced in
  (mkWal file (next_seq w) (size_bytes w) (pending_entries w) (repaired_tail_bytes w), r).

Definition last_seq (w : Wal) : N := next_seq w - 1.

Definition ensure_seq_after (w : Wal) (watermark : N) : Wal :=
  if next_seq w <=? watermark
  then mkWal (wal_file w) (sat_add 64 watermark 1) (size_bytes w) (pending_entries w) (repaired_tail_bytes w)
  else w.

Definition header (version : N) : list N := WAL_MAGIC ++ le32 version.

(** How far a reset got: done; stopped before the rename; stopped after the old
    handle was disabled, with the rename in effect or not. *)
Inductive ResetOutcome := ResetDone | ResetNotStarted | ResetInterrupted (renamed : bool).

Definition wal_reset (w : Wal) (io : ResetOutcome) : Wal * (LogError + unit) :=
  match io with
  | ResetNotStarted => (w, inl WriteFailed)
  | ResetInterrupted renamed =>
      let file := disable (wal_file w) in
      (mkWal (if renamed then mkLogAppender (header WAL_VERSION) (la_refusal file) else file)
         (next_seq w) (size_bytes w) (pending_entries w) (repaired_tail_bytes w), inl WriteFailed)
  | ResetDone =>
      (mkWal (appender_new (header WAL_VERSION)) (next_seq w) (N.of_nat WAL_HEADER_SIZE) 0 (repaired_tail_bytes w), inr tt)
  end.

Definition close_until_reopen (why : string) (w : Wal) : Wal :=
  mkWal (disable_because why (wal_file w)) (next_seq w) (size_bytes w) (pending_entries w) (repaired_tail_bytes w).

(** ** Decoding *)

Fixpoint decode_tags (count : nat) : Reader (list (rstring * rstring)) :=
  match count with
  | O => rd_ret []
  | S count' =>
      let* key_len := rd_u16 in
      let* key := rd_string (usize key_len) in
      let* value_len := rd_u16 in
      let* value := rd_string (usize value_len) in
      let* tags := decode_tags count' in
      rd_ret ((key, value) :: tags)
  end.

Definition decode_extension : Reader (option N * option Z) :=
  let* left_ := rd_remaining in
  if (left_ =? 0)%nat then rd_ret (None, None)
  else if (left_ =? 8)%nat then (let* priority := rd_i64 in rd_ret (None, Some priority))
  else if (left_ =? 13)%nat || (left_ =? 21)%nat then
    let* magic := rd_take 4 in
    if bool_decide (magic ≠ SOURCE_GENERATION_MAGIC) then rd_fail (Invalid "unknown WAL payload extension")
    else
      let* generation := rd_u64 in
      if generation =? 0 then rd_fail (Invalid "zero WAL source generation")
      else
        let* present := rd_u8 in
        if present =? 0 then rd_ret (Some generation, None)
        else if present =? 1 then (let* priority := rd_i64 in rd_ret (Some generation, Some priority))
        else rd_fail (Invalid "invalid WAL priority-presence flag")
  else rd_fail (Invalid "malformed WAL payload extension").

Definition decode_put (seq op : N) : Reader WalEntry :=
  let* logical := rd_u64 in
  let* version := rd_u32 in
  let* text_len := rd_u32 in
  let* text := rd_string (usize text_len) in
  let* left_ := rd_remaining in
  let* tags := (if (left_ =? 0)%nat then rd_ret [] else let* count := rd_u16 in decode_tags (usize count)) in
  let* extension := decode_extension in
  let put class_d_accepted := mkWalPut seq logical version text tags extension.2 extension.1 class_d_accepted in
  rd_ret (if (op =? OP_INSERT) || (op =? OP_INSERT_CLASS_D)
          then WalInsert (put (op =? OP_INSERT_CLASS_D))
          else WalUpsert (put (op =? OP_UPSERT_CLASS_D))).

Definition decode_body : Reader WalEntry :=
  let* seq := rd_u64 in
  let* op := rd_u8 in
  let* entry :=
    (if (op =? OP_INSERT) || (op =? OP_UPSERT) || (op =? OP_INSERT_CLASS_D) || (op =? OP_UPSERT_CLASS_D) then decode_put seq op
     else if op =? OP_TOMBSTONE then
       let* seg_idx := rd_u32 in
       let* local_id := rd_u32 in
       rd_ret (WalTombstone seq seg_idx local_id)
     else if op =? OP_DELETE_LOGICAL then (let* logical := rd_u64 in rd_ret (WalDeleteByLogical seq logical))
     else if op =? OP_FLUSH_CHECKPOINT then
       let* len := rd_u32 in
       let* segment_file := rd_string (usize len) in
       rd_ret (WalFlushCheckpoint seq segment_file)
     else rd_fail (Invalid "unknown WAL opcode")) in
  let* _ := rd_finish in
  rd_ret entry.

Definition decode_entry (body : list N) : LogError + WalEntry := let? r := decode_body body in inr r.1.

(** The decoder of the scan: sequence numbers strictly increase. *)
Definition decode_next (previous_seq : N) (body : list N) : LogError + (WalEntry * N) :=
  let? entry := decode_entry body in
  if entry_seq entry <=? previous_seq then inl (Invalid "WAL sequence numbers must be strictly increasing")
  else inr (entry, entry_seq entry).

Definition read_entries (data : list N) : option (LogError + (FrameScan WalEntry * N)) :=
  match slice data 0 WAL_HEADER_SIZE with
  | None => Some (inl (Invalid "WAL too small"))
  | Some h =>
      if bool_decide (take 4 h ≠ WAL_MAGIC) then Some (inl (Invalid "bad WAL magic"))
      else
        let version := le_value (drop 4 h) in
        if (version =? 0) || (WAL_VERSION <? version) then Some (inl (Invalid "unsupported WAL format"))
        else
          r ← scan_records decode_next data WAL_HEADER_SIZE 0;
          Some (let? scan := r in inr (scan, version))
  end.

(** [(1..=WAL_VERSION).map(header)] *)
Definition supported_headers : list (list N) := header <$> [1; 2; 3; 4; 5; 6; 7].

(** The entries after the last checkpoint. *)
Fixpoint after_checkpoint (entries : list WalEntry) : list WalEntry :=
  match entries with
  | [] => []
  | e :: entries' => if existsb is_checkpoint entries' then after_checkpoint entries' else if is_checkpoint e then entries' else entries
  end.

Record WalRecovery := mkWalRecovery { wr_entries : list WalEntry; wr_skipped_bytes : nat }.

Definition recover (file : list N) : option (LogError + WalRecovery) :=
  if header_was_interrupted file supported_headers then Some (inr (mkWalRecovery [] 0))
  else
    r ← read_entries file;
    Some (let? sv := r in inr (mkWalRecovery (after_checkpoint (records sv.1)) (torn_bytes sv.1))).

(** [entries.iter().map(WalEntry::seq).max().unwrap_or(0)] *)
Definition max_seq (entries : list WalEntry) : N := foldr N.max 0 (entry_seq <$> entries).

Definition fresh_wal : Wal := mkWal (appender_new (header WAL_VERSION)) 1 (N.of_nat WAL_HEADER_SIZE) 0 0.

(** The file with the version bytes of its header overwritten. *)
Definition upgrade_header (version : N) (file : list N) : list N :=
  if version <? WAL_VERSION then take 4 file ++ le32 WAL_VERSION ++ drop 8 file else file.

(** [Wal::open]: [None] for a path with no file. *)
Definition wal_open (path : option (list N)) : option (LogError + Wal) :=
  match path with
  | None => Some (inr fresh_wal)
  | Some file =>
      if header_was_interrupted file supported_headers then Some (inr fresh_wal)
      else
        r ← read_entries file;
        Some (
          let? sv := r in
          let '(scan, version) := sv in
          match checked_add 64 (max_seq (records scan)) 1 with
          | None => inl SEQ_EXHAUSTED
          | Some next =>
              let pending := wrap64 (N.of_nat (length (after_checkpoint (records scan)))) in
              let? file := repair_tail file (valid_len scan + torn_bytes scan) (valid_len scan) in
              inr (mkWal (appender_new (upgrade_header version file)) next (wrap64 (N.of_nat (valid_len scan))) pending (torn_bytes scan))
          end)
  end.

(** ** Entries survive encoding *)

(** Field values of the source's types. *)
Definition put_ok (p : WalPut) : Prop :=
  fits 64 (wp_logical p) ∧ fits 32 (wp_version p) ∧ rstring_ok (wp_text p) ∧
  Forall (λ kv : rstring * rstring, rstring_ok kv.1 ∧ rstring_ok kv.2) (wp_tags p) ∧
  (∀ z, wp_priority p = Some z → (- 2 ^ 63 ≤ z < 2 ^ 63)%Z) ∧
  (∀ g, wp_source_generation p = Some g → fits 64 g).

Definition entry_ok (e : WalEntry) : Prop :=
  fits 64 (entry_seq e) ∧
  match e with
  | WalInsert p | WalUpsert p => put_ok p ∧ wp_source_generation p ≠ Some 0
  | WalTombstone _ seg_idx local_id => fits 32 seg_idx ∧ fits 32 local_id
  | WalFlushCheckpoint _ segment_file => rstring_ok segment_file
  | WalDeleteByLogical _ logical => fits 64 logical
  end.

Definition reads {A} (m : Reader A) (bytes : list N) (a : A) : Prop := ∀ rest, m (bytes ++ rest) = inr (a, rest).

Create HintDb readers.

Section readers.
Context {A B : Type}.

Lemma rd_reads_bind (m : Reader A) (k : A → Reader B) b1 b2 a b :
  reads m b1 a → reads (k a) b2 b → reads (rd_bind m k) (b1 ++ b2) b.
Proof. intros Hm Hk rest. unfold rd_bind. rewrite <-app_assoc, Hm. simpl. apply Hk. Qed.

Lemma rd_reads_ret (a : A) : reads (rd_ret a) [] a.
Proof. by intros rest. Qed.

Lemma rd_reads_run (m : Reader A) (k : A → Reader B) b1 rest a :
  reads m b1 a → rd_bind m k (b1 ++ rest) = k a rest.
Proof. intros Hm. unfold rd_bind. by rewrite Hm. Qed.

End readers.

Lemma rd_reads_take bytes : reads (rd_take (length bytes)) bytes bytes.
Proof.
  intros rest. unfold rd_take. rewrite (proj2 (Nat.ltb_ge _ _)) by (rewrite length_app; lia). by rewrite take_app_length, drop_app_length.
Qed.

Lemma rd_reads_int k v : fits (8 * N.of_nat k) v → reads (rd_int k) (le_bytes k v) v.
Proof.
  intros Hv rest. unfold rd_int, rd_bind. pose proof (rd_reads_take (le_bytes k v) rest) as E. rewrite length_le_bytes in E. rewrite E.
  simpl. unfold rd_ret. by rewrite le_value_bytes.
Qed.

Lemma rd_reads_u8 v : v < 256 → reads rd_u8 [v] v.
Proof.
  intros Hv. replace [v] with (le_bytes 1 v); [by apply (rd_reads_int 1)|]. simpl. f_equal. change 0xFF with (N.ones 8).
  rewrite N.land_ones. by apply N.mod_small.
Qed.

Lemma rd_reads_u16 v : v < 2 ^ 16 → reads rd_u16 (le16 v) v.
Proof. apply (rd_reads_int 2). Qed.

Lemma rd_reads_u32 v : fits 32 v → reads rd_u32 (le32 v) v.
Proof. rewrite le32_bytes. apply (rd_reads_int 4). Qed.

Lemma rd_reads_u64 v : fits 64 v → reads rd_u64 (le64 v) v.
Proof. rewrite le64_bytes. apply (rd_reads_int 8). Qed.

Lemma rd_reads_i64 z : (- 2 ^ 63 ≤ z < 2 ^ 63)%Z → reads rd_i64 (le_i64 z) z.
Proof.
  intros Hz rest. unfold rd_i64, le_i64. set (n := Z.to_N (z mod 2 ^ 64)).
  assert (fits 64 n) as Hn. { unfold fits, n. pose proof (Z.mod_pos_bound z (2 ^ 64) eq_refl). change (2 ^ 64) with (Z.to_N (2 ^ 64)). lia. }
  rewrite (rd_reads_run _ _ _ _ n) by by apply rd_reads_u64. unfold rd_ret, as_i64. do 2 f_equal.
  assert (Z.of_N n = (z mod 2 ^ 64)%Z) as -> by (unfold n; rewrite Z2N.id; [done|by apply Z.mod_pos_bound]).
  change (2 ^ 63)%N with 9223372036854775808. change (2 ^ 63)%Z with 9223372036854775808%Z in *. unfold n. clear n Hn.
  change (2 ^ 64)%Z with 18446744073709551616%Z. destruct (decide (0 ≤ z)%Z) as [Hp|Hp].
  - rewrite Z.mod_small by lia. by rewrite (proj2 (N.ltb_lt _ _)) by lia.
  - assert ((z mod 18446744073709551616 = z + 18446744073709551616)%Z) as ->.
    { symmetry. apply Z.mod_unique with (-1)%Z; [left|]; lia. }
    rewrite (proj2 (N.ltb_ge _ _)) by lia. lia.
Qed.

Lemma rd_reads_string s : rstring_ok s → reads (rd_string (length (as_bytes s))) (as_bytes s) s.
Proof.
  intros Hs rest. unfold rd_string. rewrite (rd_reads_run _ _ _ _ (as_bytes s)) by apply rd_reads_take. by rewrite from_utf8_as_bytes.
Qed.

Lemma return_if_inr {E} c (e : E) x : return_if c e = inr x → c = false.
Proof. by destruct c. Qed.

Lemma fits_16 n : (umax 16 <? N.of_nat n) = false → N.of_nat n < 2 ^ 16.
Proof. rewrite N.ltb_ge. change (umax 16) with 65535. change (2 ^ 16) with 65536. lia. Qed.

Lemma fits_32 n : (umax 32 <? N.of_nat n) = false → fits 32 (N.of_nat n).
Proof. rewrite N.ltb_ge. unfold fits. change (umax 32) with 4294967295. change (2 ^ 32) with 4294967296. lia. Qed.

Definition tags_ok (tags : list (rstring * rstring)) : Prop :=
  Forall (λ kv : rstring * rstring, rstring_ok kv.1 ∧ rstring_ok kv.2) tags.

Lemma encode_tag_reads acc kv out :
  rstring_ok kv.1 → rstring_ok kv.2 → encode_tag acc kv = inr out →
  ∃ bytes, out = acc ++ bytes ∧ bytes_ok bytes ∧
    ∀ n b tags, reads (decode_tags n) b tags → reads (decode_tags (S n)) (bytes ++ b) (kv :: tags).
Proof.
  intros Hk Hv. unfold encode_tag. destruct (return_if _ _) as [|u] eqn:E1; [done|]. destruct (return_if (umax 16 <? N.of_nat (length (as_bytes kv.2))) _) as [|u'] eqn:E2; [done|].
  cbn [try_bind]. intros E. apply (inj inr) in E as <-. eexists. split; [done|]. apply return_if_inr, fits_16 in E1, E2. split.
  { repeat (apply Forall_app; split); try apply le_bytes_ok; by apply as_bytes_ok. }
  intros n b tags Hr. rewrite <-!app_assoc. cbn [decode_tags].
  eapply rd_reads_bind; [by apply rd_reads_u16|]. rewrite Nat2N.id. eapply rd_reads_bind; [by apply rd_reads_string|].
  eapply rd_reads_bind; [by apply rd_reads_u16|]. rewrite Nat2N.id. eapply rd_reads_bind; [by apply rd_reads_string|].
  rewrite <-(app_nil_r b). eapply rd_reads_bind; [done|]. destruct kv. apply rd_reads_ret.
Qed.

Lemma encode_tag_list tags acc out :
  tags_ok tags → try_foldl encode_tag acc tags = inr out →
  ∃ bytes, out = acc ++ bytes ∧ bytes_ok bytes ∧ reads (decode_tags (length tags)) bytes tags.
Proof.
  intros Ht. revert acc. induction Ht as [|kv tags [Hk Hv] _ IH]; intros acc E.
  { simpl in E. simplify_eq. exists []. split_and!; [by rewrite app_nil_r|constructor|apply rd_reads_ret]. }
  cbn [try_foldl] in E. destruct (encode_tag acc kv) as [|acc1] eqn:E1; [done|]. cbn [try_bind] in E.
  destruct (encode_tag_reads _ _ _ Hk Hv E1) as (b1 & -> & Hok1 & Hr1). destruct (IH _ E) as (b2 & -> & Hok2 & Hr2).
  exists (b1 ++ b2). split_and!; [by rewrite app_assoc|by apply Forall_app|by apply Hr1].
Qed.

Lemma encode_tags_reads tags out :
  tags_ok tags → encode_tags tags = inr out →
  bytes_ok out ∧ (2 ≤ length out)%nat ∧ reads (let* count := rd_u16 in decode_tags (usize count)) out tags.
Proof.
  intros Ht. unfold encode_tags. destruct (return_if _ _) as [|u] eqn:E1; [done|]. cbn [try_bind]. apply return_if_inr, fits_16 in E1.
  intros E. destruct (encode_tag_list _ _ _ Ht E) as (bytes & -> & Hok & Hr). split_and!.
  - apply Forall_app. split; [apply le_bytes_ok|done].
  - rewrite length_app. unfold le16. rewrite length_le_bytes. lia.
  - eapply rd_reads_bind; [by apply rd_reads_u16|]. by rewrite Nat2N.id.
Qed.

Lemma length_le_i64 z : length (le_i64 z) = 8%nat.
Proof. done. Qed.

Lemma encode_extension_reads priority generation :
  (∀ z, priority = Some z → (- 2 ^ 63 ≤ z < 2 ^ 63)%Z) → (∀ g, generation = Some g → fits 64 g ∧ g ≠ 0) →
  bytes_ok (encode_extension priority generation) ∧
  decode_extension (encode_extension priority generation) = inr ((generation, priority), []).
Proof.
  intros Hp Hg. split.
  { assert (bytes_ok SOURCE_GENERATION_MAGIC) by (apply (bool_decide_unpack _); by vm_compute). unfold encode_extension, le_i64.
    destruct generation; [|destruct priority; [apply le64_ok|constructor]].
    apply Forall_app. split; [done|]. apply Forall_app. split; [apply le64_ok|].
    destruct priority; constructor; [done|apply le64_ok|done|constructor]. }
  assert (∀ z rest, priority = Some z → rd_i64 (le_i64 z ++ rest) = inr (z, rest)) as Hz by (intros z rest E; apply rd_reads_i64; auto).
  destruct generation as [g|]; [|destruct priority as [z|]; [|done]].
  - destruct (Hg g eq_refl) as [Hfit Hne]. unfold encode_extension, decode_extension. unfold rd_remaining at 1. unfold rd_bind at 1. cbn [try_bind fst snd].
    replace (length (SOURCE_GENERATION_MAGIC ++ le64 g ++ match priority with Some value => 1 :: le_i64 value | None => [0] end))
      with (match priority with Some _ => 21 | None => 13 end)%nat by by destruct priority.
    replace (match priority with Some _ => 21 | None => 13 end =? 0)%nat with false by by destruct priority.
    replace (match priority with Some _ => 21 | None => 13 end =? 8)%nat with false by by destruct priority.
    replace ((match priority with Some _ => 21 | None => 13 end =? 13)%nat || (match priority with Some _ => 21 | None => 13 end =? 21)%nat)
      with true by by destruct priority.
    rewrite (rd_reads_run (rd_take 4) _ SOURCE_GENERATION_MAGIC _ SOURCE_GENERATION_MAGIC) by apply (rd_reads_take SOURCE_GENERATION_MAGIC).
    rewrite bool_decide_false by naive_solver. rewrite (rd_reads_run _ _ _ _ g) by by apply rd_reads_u64.
    rewrite (proj2 (N.eqb_neq _ _)) by done. destruct priority as [z|].
    + change (1 :: le_i64 z) with ([1] ++ le_i64 z). rewrite (rd_reads_run _ _ _ _ 1) by by apply rd_reads_u8. cbn [N.eqb Pos.eqb].
      rewrite <-(app_nil_r (le_i64 z)). rewrite (rd_reads_run _ _ _ _ z); [done|]. intros rest. by apply Hz.
    + rewrite <-(app_nil_r [0]). by rewrite (rd_reads_run _ _ _ _ 0) by by apply rd_reads_u8.
  - unfold encode_extension, decode_extension, rd_remaining. unfold rd_bind at 1. cbn [try_bind fst snd]. rewrite length_le_i64.
    cbn [Nat.eqb]. rewrite <-(app_nil_r (le_i64 z)). rewrite (rd_reads_run _ _ _ _ z); [done|]. intros rest. by apply Hz.
Qed.

Definition put_entry (upsert : bool) (p : WalPut) : WalEntry := if upsert then WalUpsert p else WalInsert p.

Lemma decode_put_spec upsert p tag_bytes :
  put_ok p → wp_source_generation p ≠ Some 0 → encode_tags (wp_tags p) = inr tag_bytes → fits 32 (N.of_nat (length (as_bytes (wp_text p)))) →
  decode_put (wp_seq p) (put_op upsert (wp_class_d_accepted p))
    (le64 (wp_logical p) ++ le32 (wp_version p) ++ le32 (N.of_nat (length (as_bytes (wp_text p)))) ++ as_bytes (wp_text p) ++
     tag_bytes ++ encode_extension (wp_priority p) (wp_source_generation p)) = inr (put_entry upsert p, []).
Proof.
  intros (Hl & Hv & Htext & Htags & Hp & Hg') Hnz Etags Hlen.
  assert (∀ g, wp_source_generation p = Some g → fits 64 g ∧ g ≠ 0) as Hg by (intros g E; split; [auto|congruence]).
  destruct (encode_tags_reads _ _ Htags Etags) as (_ & H2 & Hr).
  destruct (encode_extension_reads _ _ Hp Hg) as [_ Hext]. unfold decode_put.
  rewrite (rd_reads_run _ _ _ _ (wp_logical p)) by by apply rd_reads_u64. rewrite (rd_reads_run _ _ _ _ (wp_version p)) by by apply rd_reads_u32.
  rewrite (rd_reads_run _ _ _ _ (N.of_nat (length (as_bytes (wp_text p))))) by by apply rd_reads_u32. rewrite Nat2N.id.
  rewrite (rd_reads_run _ _ _ _ (wp_text p)) by by apply rd_reads_string. unfold rd_remaining. unfold rd_bind at 1. cbn [try_bind fst snd].
  rewrite (proj2 (Nat.eqb_neq (length (tag_bytes ++ _)) 0)) by (rewrite length_app; lia).
  rewrite (rd_reads_run _ _ tag_bytes _ (wp_tags p)) by exact Hr. unfold rd_bind. rewrite Hext. cbn [try_bind fst snd]. unfold rd_ret.
  destruct p as [seq lg v t tg pr g cd], upsert, cd; done.
Qed.

Lemma put_body_spec upsert p body :
  fits 64 (wp_seq p) → put_ok p → wp_source_generation p ≠ Some 0 → put_body (put_op upsert (wp_class_d_accepted p)) (wp_seq p) p = inr body →
  bytes_ok body ∧ body ≠ [] ∧ decode_entry body = inr (put_entry upsert p).
Proof.
  intros Hseq Hok Hnz. pose proof Hok as (Hl & Hv & Htext & Htags & Hp & Hg). unfold put_body.
  destruct (encode_tags (wp_tags p)) as [|tag_bytes] eqn:Et; [done|]. cbn [try_bind]. destruct (return_if _ _) as [|u] eqn:E1; [done|].
  cbn [try_bind]. intros E. apply (inj inr) in E as <-. apply return_if_inr, fits_32 in E1.
  assert (put_op upsert (wp_class_d_accepted p) < 256) as Hop by by destruct upsert, (wp_class_d_accepted p).
  split_and!.
  - repeat (apply Forall_app; split); try apply le64_ok; try apply le32_ok; [by constructor|by apply as_bytes_ok| |].
    + by eapply encode_tags_reads.
    + apply encode_extension_reads; [done|]. intros g E. split; [auto|congruence].
  - destruct (le64 (wp_seq p)) eqn:E; [by vm_compute in E|done].
  - unfold decode_entry, decode_body. rewrite (rd_reads_run _ _ _ _ (wp_seq p)) by by apply rd_reads_u64.
    rewrite (rd_reads_run _ _ _ _ (put_op upsert (wp_class_d_accepted p))) by by apply rd_reads_u8.
    replace ((put_op upsert (wp_class_d_accepted p) =? OP_INSERT) || (put_op upsert (wp_class_d_accepted p) =? OP_UPSERT) ||
      (put_op upsert (wp_class_d_accepted p) =? OP_INSERT_CLASS_D) || (put_op upsert (wp_class_d_accepted p) =? OP_UPSERT_CLASS_D))
      with true by by destruct upsert, (wp_class_d_accepted p).
    unfold rd_bind. by rewrite decode_put_spec.
Qed.

Lemma decode_encode e body :
  entry_ok e → encode_entry e = inr body → bytes_ok body ∧ body ≠ [] ∧ decode_entry body = inr e.
Proof.
  intros [Hseq Hok]. assert (∀ l : list N, le64 (entry_seq e) ++ l ≠ []) as Hne by by intros l.
  assert (∀ l k : list N, bytes_ok l → bytes_ok k → bytes_ok (l ++ k)) as Happ by (intros; by apply Forall_app).
  assert (bytes_ok [OP_TOMBSTONE] ∧ bytes_ok [OP_DELETE_LOGICAL] ∧ bytes_ok [OP_FLUSH_CHECKPOINT]) as (H1 & H2 & H3) by by repeat constructor.
  destruct e as [p|seq si li|seq name|seq lg|p]; simpl in Hseq, Hok, Hne; cbn [encode_entry].
  - destruct Hok. by apply (put_body_spec false).
  - intros E. apply (inj inr) in E as <-. destruct Hok as [Hsi Hli]. split_and!; [auto 10 using le64_ok, le32_ok|apply Hne|].
    unfold decode_entry, decode_body. rewrite (rd_reads_run _ _ _ _ seq) by by apply rd_reads_u64.
    rewrite (rd_reads_run _ _ _ _ OP_TOMBSTONE) by by apply rd_reads_u8. cbn [N.eqb Pos.eqb OP_TOMBSTONE OP_INSERT OP_UPSERT OP_INSERT_CLASS_D OP_UPSERT_CLASS_D orb].
    unfold rd_bind at 1. rewrite (rd_reads_run _ _ _ _ si) by by apply rd_reads_u32. rewrite <-(app_nil_r (le32 li)).
    by rewrite (rd_reads_run _ _ _ _ li) by by apply rd_reads_u32.
  - destruct (return_if _ _) as [|u] eqn:E1; [done|]. cbn [try_bind]. apply return_if_inr, fits_32 in E1.
    intros E. apply (inj inr) in E as <-. split_and!; [auto 10 using le64_ok, le32_ok, as_bytes_ok|apply Hne|].
    unfold decode_entry, decode_body. rewrite (rd_reads_run _ _ _ _ seq) by by apply rd_reads_u64.
    rewrite (rd_reads_run _ _ _ _ OP_FLUSH_CHECKPOINT) by by apply rd_reads_u8.
    cbn [N.eqb Pos.eqb OP_FLUSH_CHECKPOINT OP_TOMBSTONE OP_DELETE_LOGICAL OP_INSERT OP_UPSERT OP_INSERT_CLASS_D OP_UPSERT_CLASS_D orb].
    unfold rd_bind at 1. rewrite (rd_reads_run _ _ _ _ (N.of_nat (length (as_bytes name)))) by by apply rd_reads_u32. rewrite Nat2N.id.
    rewrite <-(app_nil_r (as_bytes name)) at 2. by rewrite (rd_reads_run _ _ _ _ name) by by apply rd_reads_string.
  - intros E. apply (inj inr) in E as <-. split_and!; [auto 10 using le64_ok|apply Hne|].
    unfold decode_entry, decode_body. rewrite (rd_reads_run _ _ _ _ seq) by by apply rd_reads_u64.
    rewrite (rd_reads_run _ _ _ _ OP_DELETE_LOGICAL) by by apply rd_reads_u8.
    cbn [N.eqb Pos.eqb OP_DELETE_LOGICAL OP_TOMBSTONE OP_INSERT OP_UPSERT OP_INSERT_CLASS_D OP_UPSERT_CLASS_D orb].
    unfold rd_bind at 1. rewrite <-(app_nil_r (le64 lg)). by rewrite (rd_reads_run _ _ _ _ lg) by by apply rd_reads_u64.
  - destruct Hok. by apply (put_body_spec true).
Qed.

(** ** Histories of a log

    A log is created, appended to, checkpointed, reset, closed and reopened, in any
    order, with any outcome of the writes.  A history keeps what an observer knows:
    the entries of the log that are complete in the file, and, when an append
    failed in the middle, its entry with the number of bytes that had reached the
    file. *)

Definition op_ok (op : WalOp) : Prop :=
  match op with
  | AppendInsert p | AppendUpsert p => put_ok p
  | AppendTombstone seg_idx local_id => fits 32 seg_idx ∧ fits 32 local_id
  | AppendDeleteLogical logical => fits 64 logical
  | AppendFlushCheckpoint segment_file => rstring_ok segment_file
  end.

(** The entry that a failed append may have left in the file. *)
Definition landed (cut : option (WalEntry * nat)) : list WalEntry :=
  match cut with
  | Some (e, reached) =>
      match encode_entry e with
      | inr body => if (8 + length body <=? reached)%nat then [e] else []
      | inl _ => []
      end
  | None => []
  end.

(** What an append that returned an error leaves behind. *)
Definition cut_by (w : Wal) (op : WalOp) (io : WriteOutcome) (err : LogError) (cut : option (WalEntry * nat)) :
  option (WalEntry * nat) :=
  match err, io with WriteFailed, Failed reached => Some (entry_of op (next_seq w), reached) | _, _ => cut end.

Inductive wal_history : Wal → list WalEntry → option (WalEntry * nat) → Prop :=
  | wh_created w : wal_open None = Some (inr w) → wal_history w [] None
  | wh_appended w log cut op io w' seq :
      wal_history w log cut → op_ok op → wal_append w op io = (w', inr seq) → wal_history w' (log ++ [entry_of op seq]) cut
  | wh_failed w log cut op io w' err :
      wal_history w log cut → op_ok op → wal_append w op io = (w', inl err) → wal_history w' log (cut_by w op io err cut)
  | wh_reset w log cut w' : wal_history w log cut → wal_reset w ResetDone = (w', inr tt) → wal_history w' [] None
  | wh_reset_refused w log cut w' err :
      wal_history w log cut → wal_reset w ResetNotStarted = (w', inl err) → wal_history w' log cut
  | wh_reset_cut w log cut renamed w' err :
      wal_history w log cut → wal_reset w (ResetInterrupted renamed) = (w', inl err) →
      wal_history w' (if renamed then [] else log) (if renamed then None else cut)
  | wh_synced w log cut synced : wal_history w log cut → wal_history (wal_sync w synced).1 log cut
  | wh_closed w log cut why : wal_history w log cut → wal_history (close_until_reopen why w) log cut
  | wh_numbered w log cut watermark :
      wal_history w log cut → wal_history (ensure_seq_after w watermark) log cut
  | wh_reopened w log cut w' :
      wal_history w log cut → wal_open (Some (la_file (wal_file w))) = Some (inr w') → wal_history w' (log ++ landed cut) None.

(** Sequence numbers of the entries, from above [previous] and below [next]. *)
Fixpoint numbered (previous : N) (log : list WalEntry) : Prop :=
  match log with [] => True | e :: log' => previous < entry_seq e ∧ numbered (entry_seq e) log' end.

Definition coded (e : WalEntry) (body : list N) : Prop :=
  entry_ok e ∧ encode_entry e = inr body ∧ N.of_nat (length body) < 2 ^ 32.

(** The file is the header, the frames of the entries and what a failed append
    left. *)
Record wal_ok (w : Wal) (log : list WalEntry) (cut : option (WalEntry * nat)) : Prop := {
  wo_next : 1 ≤ next_seq w < 2 ^ 64;
  wo_numbered : numbered 0 log;
  wo_below : Forall (λ e, entry_seq e < next_seq w) log;
  wo_cut : match cut with
           | Some (e, _) => is_Some (la_refusal (wal_file w)) ∧ Forall (λ e', entry_seq e' < entry_seq e) log ∧ 0 < entry_seq e < next_seq w
           | None => True
           end;
  wo_file : ∃ bodies torn, Forall2 coded log bodies ∧ la_file (wal_file w) = header WAL_VERSION ++ frames_of bodies ++ torn ∧
    match cut with
    | Some (e, reached) => ∃ body, coded e body ∧ torn = take reached (frame_of body)
    | None => torn = []
    end;
  wo_counts : la_refusal (wal_file w) = None →
    size_bytes w = wrap64 (N.of_nat (length (la_file (wal_file w)))) ∧
    pending_entries w = wrap64 (N.of_nat (length (after_checkpoint log)));
}.

Lemma coded_body e body : coded e body → body_ok body.
Proof. intros (Hok & Henc & Hl). destruct (decode_encode e body Hok Henc) as (H1 & H2 & _). done. Qed.

Lemma coded_bodies log bodies : Forall2 coded log bodies → Forall body_ok bodies.
Proof. induction 1; constructor; [by eapply coded_body|done]. Qed.

Lemma coded_decode log bodies previous :
  Forall2 coded log bodies → numbered previous log → ∃ last, decode_all decode_next previous bodies = inr (log, last).
Proof.
  intros Hc. revert previous. induction Hc as [|e body log bodies (Hok & Henc & _) _ IH]; intros previous Hn; [by eexists|].
  destruct Hn as [Hlt Hn]. destruct (IH _ Hn) as [last E]. exists last. cbn [decode_all]. unfold decode_next at 1.
  destruct (decode_encode e body Hok Henc) as (_ & _ & ->). cbn [try_bind]. rewrite (proj2 (N.leb_gt _ _)) by done.
  cbn [try_bind fst snd]. by rewrite E.
Qed.

Lemma numbered_snoc previous log e :
  numbered previous log → previous < entry_seq e → Forall (λ e', entry_seq e' < entry_seq e) log → numbered previous (log ++ [e]).
Proof.
  intros Hn Hp Hf. revert previous Hn Hp. induction Hf as [|e' log He _ IH]; intros previous Hn Hp; simpl in *; [done|].
  split; [apply Hn|]. apply IH; [apply Hn|done].
Qed.

Lemma header_length v : length (header v) = WAL_HEADER_SIZE.
Proof. done. Qed.

Lemma read_header rest :
  read_entries (header WAL_VERSION ++ rest) =
    (r ← scan_records decode_next (header WAL_VERSION ++ rest) (length (header WAL_VERSION)) 0; Some (let? scan := r in inr (scan, WAL_VERSION))).
Proof.
  unfold read_entries. assert (slice (header WAL_VERSION ++ rest) 0 WAL_HEADER_SIZE = Some (header WAL_VERSION)) as ->.
  { pose proof (slice_mid [] (header WAL_VERSION) rest) as E. exact E. }
  rewrite bool_decide_false by naive_solver. done.
Qed.

Lemma not_interrupted rest : header_was_interrupted (header WAL_VERSION ++ rest) supported_headers = false.
Proof.
  unfold header_was_interrupted. change (match supported_headers with h :: _ => length h | [] => O end) with WAL_HEADER_SIZE.
  rewrite (proj2 (Nat.leb_le _ _)); [done|]. rewrite length_app, header_length. lia.
Qed.

(** What the scan finds in the file of a log: the complete entries and where they
    end; or the rest of a failed append that it cannot tell from damage. *)
Definition scan_finds (w : Wal) (log : list WalEntry) (cut : option (WalEntry * nat)) : Prop :=
  let file := la_file (wal_file w) in
  ∃ bodies torn, Forall2 coded (log ++ landed cut) bodies ∧ file = header WAL_VERSION ++ frames_of bodies ++ torn ∧
    read_entries file = Some (inr (mkFrameScan (log ++ landed cut) (WAL_HEADER_SIZE + length (frames_of bodies)) (length torn), WAL_VERSION)) ∧
    (cut = None → torn = []).

Definition scan_refuses (w : Wal) (cut : option (WalEntry * nat)) (err : LogError) : Prop :=
  ∃ e reached body, cut = Some (e, reached) ∧ encode_entry e = inr body ∧ (8 ≤ reached < 8 + length body)%nat ∧
    validate_torn_suffix (take reached (frame_of body)) = inl err ∧ read_entries (la_file (wal_file w)) = Some (inl err).

Lemma landed_coded e reached body :
  encode_entry e = inr body → landed (Some (e, reached)) = if (8 + length body <=? reached)%nat then [e] else [].
Proof. intros E. unfold landed. by rewrite E. Qed.

Lemma wal_ok_scan w log cut : wal_ok w log cut → scan_finds w log cut ∨ ∃ err, scan_refuses w cut err.
Proof.
  intros [_ Hn _ Hcut (bodies & torn & Hc & Hfile & Htorn) _]. unfold scan_finds, scan_refuses. rewrite Hfile, read_header.
  destruct cut as [[e reached]|].
  - destruct Htorn as (body & Hcode & ->). pose proof Hcode as (_ & Henc & _). rewrite (landed_coded e reached body Henc).
    destruct Hcut as (_ & Hbelow & Hseq). pose proof (length_frame body) as Hlf.
    destruct (Nat.leb_spec (8 + length body) reached) as [Hfull|Hpart].
    + left. exists (bodies ++ [body]), []. rewrite take_ge by lia. rewrite frames_of_snoc.
      assert (Forall2 coded (log ++ [e]) (bodies ++ [body])) as Hc' by (apply Forall2_app; [done|by constructor]).
      destruct (coded_decode (log ++ [e]) (bodies ++ [body]) 0 Hc') as [last Hlast]; [by apply numbered_snoc; [|apply Hseq|]|].
      pose proof (scan_whole decode_next (header WAL_VERSION) (bodies ++ [body]) 0 _ _ (coded_bodies _ _ Hc') Hlast) as E.
      rewrite frames_of_snoc in E. rewrite app_nil_r. split_and!; [done|done| |done]. rewrite E. cbn [mbind option_bind try_bind]. by rewrite length_app.
    + destruct (coded_decode log bodies 0 Hc Hn) as [last Hlast].
      destruct (scan_interrupted decode_next (header WAL_VERSION) bodies body reached 0 _ _ (coded_bodies _ _ Hc) Hlast (coded_body _ _ Hcode))
        as [->|(err & H8 & Hv & ->)]; [lia| |].
      * left. exists bodies, (take reached (frame_of body)). rewrite app_nil_r. split_and!; [done|done| |done].
        cbn [mbind option_bind try_bind]. by rewrite length_take_le by lia.
      * right. exists err, e, reached, body. split_and!; [done|done|lia|lia|done|done].
  - subst torn. left. exists bodies, []. simpl landed. rewrite !app_nil_r. split_and!; [done|done| |done].
    destruct (coded_decode log bodies 0 Hc Hn) as [last Hlast].
    rewrite (scan_whole decode_next (header WAL_VERSION) bodies 0 _ _ (coded_bodies _ _ Hc) Hlast). cbn [mbind option_bind try_bind length]. by rewrite length_app.
Qed.

Lemma op_entry_ok op seq : op_ok op → zero_generation op = false → fits 64 seq → entry_ok (entry_of op seq).
Proof.
  intros Hop Hz Hseq. destruct op as [p|p|si li|lg|name]; (split; [done|]); simpl in *; try done; split; try done;
    by apply bool_decide_eq_false in Hz.
Qed.

Lemma entry_of_seq op seq : entry_seq (entry_of op seq) = seq.
Proof. by destruct op. Qed.

Lemma after_checkpoint_snoc log e :
  after_checkpoint (log ++ [e]) = if is_checkpoint e then [] else after_checkpoint log ++ [e].
Proof.
  induction log as [|e' log IH]; [by cbn; destruct (is_checkpoint e)|]. cbn [app after_checkpoint].
  rewrite existsb_app, IH. cbn [existsb]. rewrite orb_false_r. destruct (is_checkpoint e); [by rewrite orb_true_r|]. rewrite orb_false_r.
  destruct (existsb _ log); [done|]. by destruct (is_checkpoint e').
Qed.

Lemma below_mono (n m : N) log : n ≤ m → Forall (λ e, entry_seq e < n) log → Forall (λ e, entry_seq e < m) log.
Proof. intros Hle Hf. eapply Forall_impl; [exact Hf|]. simpl. lia. Qed.

(** What an encoder refuses is its input. *)
Lemma encode_tags_error tags acc err : try_foldl encode_tag acc tags = inl err → ∃ what, err = InvalidInput what.
Proof.
  revert acc. induction tags as [|kv tags IH]; intros acc; [done|]. cbn [try_foldl]. unfold encode_tag at 1, return_if.
  destruct (_ <? _); [intros [= <-]; by eexists|]. cbn [try_bind]. destruct (_ <? _); [intros [= <-]; by eexists|]. cbn [try_bind]. apply IH.
Qed.

Lemma put_body_error op seq p err : put_body op seq p = inl err → ∃ what, err = InvalidInput what.
Proof.
  unfold put_body, encode_tags, return_if. destruct (_ <? _); [intros [= <-]; by eexists|]. cbn [try_bind].
  destruct (try_foldl _ _ _) as [e|] eqn:E; cbn [try_bind].
  - intros [= <-]. by apply encode_tags_error in E.
  - destruct (_ <? _); [intros [= <-]; by eexists|done].
Qed.

Lemma encode_entry_error e err : encode_entry e = inl err → ∃ what, err = InvalidInput what.
Proof.
  destruct e; cbn [encode_entry]; try done; try apply put_body_error. unfold return_if. destruct (_ <? _); [intros [= <-]; by eexists|done].
Qed.

(** More room for numbers, and a handle closed or as it was. *)
Lemma wal_ok_touched w log cut next file size pending repaired :
  wal_ok w log cut → next_seq w ≤ next < 2 ^ 64 → la_file file = la_file (wal_file w) →
  is_Some (la_refusal file) ∨ file = wal_file w ∧ size = size_bytes w ∧ pending = pending_entries w →
  wal_ok (mkWal file next size pending repaired) log cut.
Proof.
  intros Hw Hn Hf Hr. destruct Hw as [H1 H2 H3 H4 H5 H6]. split; simpl; [lia|done|by apply (below_mono (next_seq w)); [lia|]| | |].
  - destruct cut as [[e k]|]; [|done]. destruct H4 as (Hs & Hb & Hq). split_and!; [|done|lia|lia].
    destruct Hr as [Hr|[-> _]]; done.
  - by rewrite Hf.
  - intros Hnone. destruct Hr as [[why Hr]|(-> & -> & ->)]; [by rewrite Hr in Hnone|]. by apply H6.
Qed.

Lemma checked_next w log cut next :
  wal_ok w log cut → checked_add 64 (next_seq w) 1 = Some next → next_seq w ≤ next < 2 ^ 64 ∧ next = next_seq w + 1 ∧ fits 64 (next_seq w).
Proof.
  intros [Hn _ _ _ _ _]. unfold checked_add. destruct (N.leb_spec (next_seq w + 1) (umax 64)) as [Hle|]; [|done]. intros [= <-].
  change (umax 64) with 18446744073709551615 in Hle. unfold fits. change (2 ^ 64) with 18446744073709551616 in *. lia.
Qed.

Lemma disable_refuses why a : is_Some (la_refusal (disable_because why a)).
Proof. by eexists. Qed.

Lemma wal_append_preserves w log cut op io w' r :
  wal_ok w log cut → op_ok op → wal_append w op io = (w', r) →
  match r with
  | inr seq => wal_ok w' (log ++ [entry_of op seq]) cut ∧ seq = next_seq w ∧ io = Written ∧ cut = None ∧ la_refusal (wal_file w') = None
  | inl err => wal_ok w' log (cut_by w op io err cut)
  end.
Proof.
  intros Hw Hop. unfold wal_append. destruct (zero_generation op) eqn:Ez; [intros [= <- <-]; by destruct io|].
  destruct (checked_add 64 (next_seq w) 1) as [next|] eqn:En; [|intros [= <- <-]; by destruct io].
  destruct (checked_next _ _ _ _ Hw En) as (Hnext & -> & Hfit). pose proof (op_entry_ok op (next_seq w) Hop Ez Hfit) as Hok.
  destruct (encode_entry (entry_of op (next_seq w))) as [e|body] eqn:Eb.
  { intros [= <- <-]. assert (cut_by w op io e cut = cut) as ->.
    { by destruct (encode_entry_error _ _ Eb) as [what ->]. }
    apply (wal_ok_touched w); [done|done|done|by right]. }
  cbn [wal_file next_seq size_bytes pending_entries repaired_tail_bytes].
  destruct (append_at (wal_file w) body io) as [file rr] eqn:Ea. unfold append_at, healthy in Ea.
  destruct (la_refusal (wal_file w)) as [why|] eqn:Er.
  { injection Ea as <- <-. intros [= <- <-]. cbn [cut_by]. apply (wal_ok_touched w); [done|done|done|by right]. }
  destruct cut as [[e0 k0]|] eqn:Ecut.
  { destruct Hw as [_ _ _ [[? Hs] _] _ _]. by rewrite Er in Hs. }
  destruct (write_frame body) as [e|frame] eqn:Ew.
  { injection Ea as <- <-. intros [= <- <-]. unfold write_frame in Ew. destruct (_ <? _); [|done]. injection Ew as <-.
    cbn [cut_by]. apply (wal_ok_touched w); [done|done|done|left; apply disable_refuses]. }
  assert (N.of_nat (length body) < 2 ^ 32 ∧ frame = frame_of body) as [Hlen ->].
  { unfold write_frame in Ew. destruct (umax 32 <? _) eqn:El; [done|]. apply (inj inr) in Ew as <-. split; [by apply fits_32|done]. }
  assert (coded (entry_of op (next_seq w)) body) as Hcode by done.
  destruct Hw as [H1 H2 H3 H4 (bodies & torn & Hc & Hfile & ->) H6]. rewrite app_nil_r in Hfile.
  destruct io as [|k]; injection Ea as <- <-; intros E; injection E as <- <-.
  - split; [|done]. destruct (H6 Er) as [Hsize Hpend].
    split; simpl; [lia| | |done| |].
    + apply numbered_snoc; [done|rewrite entry_of_seq; lia|by rewrite entry_of_seq].
    + apply Forall_app. split; [by apply (below_mono (next_seq w)); [lia|]|]. constructor; [|done]. rewrite entry_of_seq. lia.
    + exists (bodies ++ [body]), []. split; [apply Forall2_app; [done|by constructor]|]. by rewrite Hfile, frames_of_snoc, app_nil_r, <-app_assoc.
    + intros _. rewrite length_app, length_frame, after_checkpoint_snoc, Hsize, Hpend. split.
      * rewrite <-N.add_assoc. unfold wrap. rewrite N.Div0.add_mod_idemp_l. f_equal. lia.
      * destruct (is_checkpoint _); [done|]. rewrite length_app. simpl length. unfold wrap. rewrite N.Div0.add_mod_idemp_l. f_equal. lia.
  - unfold cut_by. split; simpl; [lia|done|by apply (below_mono (next_seq w)); [lia|]| | |done].
    + split; [done|]. rewrite entry_of_seq. split; [done|lia].
    + exists bodies, (take k (frame_of body)). split; [done|]. split; [by rewrite Hfile, <-app_assoc|]. by exists body.
Qed.

Lemma kept_numbered w log cut :
  wal_ok w log cut → numbered 0 (log ++ landed cut) ∧ Forall (λ e, entry_seq e < next_seq w) (log ++ landed cut).
Proof.
  intros [_ H2 H3 H4 _ _]. destruct cut as [[e k]|]; [|by rewrite app_nil_r]. destruct H4 as (_ & Hb & Hs).
  assert (landed (Some (e, k)) = [e] ∨ landed (Some (e, k)) = []) as [->| ->].
  { unfold landed. destruct (encode_entry e); [by right|]. destruct (_ <=? _)%nat; [by left|by right]. }
  - split; [apply numbered_snoc; [done|lia|done]|]. apply Forall_app. split; [done|]. constructor; [lia|done].
  - by rewrite app_nil_r.
Qed.

Lemma max_seq_spec log n : Forall (λ e, entry_seq e < n) log → 0 < n → max_seq log < n ∧ Forall (λ e, entry_seq e < max_seq log + 1) log.
Proof.
  intros Hf Hn. unfold max_seq. induction Hf as [|e log He _ [IH1 IH2]]; [by split|]. rewrite fmap_cons. cbn [foldr]. split; [lia|].
  constructor; [lia|]. eapply Forall_impl; [exact IH2|]. simpl. lia.
Qed.

(** Opening the file of a log: the torn rest is cut off, the numbers continue after
    those of the entries kept. *)
Lemma wal_reopen w log cut :
  wal_ok w log cut → scan_finds w log cut →
  ∃ w', wal_open (Some (la_file (wal_file w))) = Some (inr w') ∧ wal_ok w' (log ++ landed cut) None ∧ la_refusal (wal_file w') = None.
Proof.
  intros Hw (bodies & torn & Hc & Hfile & Hread & _). destruct (kept_numbered _ _ _ Hw) as [Hnum Hbelow].
  pose proof (wo_next _ _ _ Hw) as Hnext. destruct (max_seq_spec _ _ Hbelow) as [Hmax Habove]; [lia|].
  assert (checked_add 64 (max_seq (log ++ landed cut)) 1 = Some (max_seq (log ++ landed cut) + 1)) as Hadd.
  { unfold checked_add. rewrite (proj2 (N.leb_le _ _)); [done|]. change (umax 64) with 18446744073709551615.
    change (2 ^ 64) with 18446744073709551616 in Hnext. lia. }
  unfold wal_open. assert (header_was_interrupted (la_file (wal_file w)) supported_headers = false) as -> by (rewrite Hfile; apply not_interrupted).
  rewrite Hread. cbn [mbind option_bind try_bind records valid_len torn_bytes].
  rewrite Hadd. unfold repair_tail.
  assert (length (la_file (wal_file w)) = (WAL_HEADER_SIZE + length (frames_of bodies) + length torn)%nat) as Hlen.
  { rewrite Hfile, !length_app, header_length. lia. }
  rewrite (proj2 (Nat.ltb_ge _ _)) by lia.
  assert (∃ file, (if (WAL_HEADER_SIZE + length (frames_of bodies) =? WAL_HEADER_SIZE + length (frames_of bodies) + length torn)%nat
    then inr (la_file (wal_file w))
    else if negb (length (la_file (wal_file w)) =? WAL_HEADER_SIZE + length (frames_of bodies) + length torn)%nat
    then inl (Invalid "log length changed during recovery validation")
    else inr (take (WAL_HEADER_SIZE + length (frames_of bodies)) (la_file (wal_file w)))) = inr file ∧
    file = header WAL_VERSION ++ frames_of bodies) as (file & -> & ->).
  { rewrite (proj2 (Nat.eqb_eq (length (la_file (wal_file w))) _)) by done. simpl negb. cbv iota. destruct (Nat.eqb_spec (WAL_HEADER_SIZE + length (frames_of bodies)) (WAL_HEADER_SIZE + length (frames_of bodies) + length torn)) as [E|E].
    - assert (torn = []) as -> by (apply nil_length_inv; lia). eexists. split; [done|]. by rewrite Hfile, app_nil_r.
    - eexists. split; [done|]. rewrite Hfile, app_assoc. apply take_app_length'. by rewrite length_app, header_length. }
  cbn [try_bind]. unfold upgrade_header. rewrite N.ltb_irrefl. eexists. split; [done|]. split; [|done].
  split; cbn [next_seq wal_file size_bytes pending_entries la_file la_refusal appender_new]; [lia|done|done|done| |].
  - exists bodies, []. by rewrite app_nil_r.
  - intros _. by rewrite length_app, header_length.
Qed.

Lemma wal_history_ok w log cut : wal_history w log cut → wal_ok w log cut.
Proof.
  induction 1 as [w E|w log cut op io w' seq _ IH Hop E|w log cut op io w' err _ IH Hop E|w log cut w' _ IH E|w log cut w' err _ IH E
    |w log cut renamed w' err _ IH E|w log cut synced _ IH|w log cut why _ IH|w log cut watermark _ IH|w log cut w' _ IH E].
  - injection E as <-. split; [done|done|constructor|done|by exists [], []|done].
  - by apply (wal_append_preserves _ _ _ _ _ _ _ IH Hop E).
  - by apply (wal_append_preserves _ _ _ _ _ _ _ IH Hop E).
  - injection E as <-. pose proof (wo_next _ _ _ IH) as Hn. split; [done|done|constructor|done|by exists [], []|done].
  - injection E as <- _. done.
  - injection E as <- _. destruct renamed.
    + pose proof (wo_next _ _ _ IH) as Hn. split; [done|done|constructor|done|by exists [], []|done].
    + pose proof (wo_next _ _ _ IH) as Hn. apply (wal_ok_touched w); [done|lia|done|left; apply disable_refuses].
  - pose proof (wo_next _ _ _ IH) as Hn. unfold wal_sync, sync_at. destruct (healthy (wal_file w)), synced; simpl;
      (apply (wal_ok_touched w); [done|lia|done|first [by right|left; apply disable_refuses]]).
  - pose proof (wo_next _ _ _ IH) as Hn. apply (wal_ok_touched w); [done|lia|done|left; apply disable_refuses].
  - pose proof (wo_next _ _ _ IH) as Hn. unfold ensure_seq_after. destruct (N.leb_spec (next_seq w) watermark); [|done].
    apply (wal_ok_touched w); [done| |done|by right]. unfold sat_add. change (umax 64) with 18446744073709551615.
    change (2 ^ 64) with 18446744073709551616 in *. lia.
  - destruct (wal_ok_scan _ _ _ IH) as [Hf|(err & e & k & body & -> & _ & _ & _ & Hr)].
    + destruct (wal_reopen _ _ _ IH Hf) as (w1 & E1 & Hok & _). rewrite E in E1. by simplify_eq.
    + exfalso. destruct IH as [_ _ _ _ (bodies & torn & _ & Hfile & _) _]. unfold wal_open in E. rewrite Hr in E.
      assert (header_was_interrupted (la_file (wal_file w)) supported_headers = false) as Hi by (rewrite Hfile; apply not_interrupted).
      by rewrite Hi in E.
Qed.

(** C10. A crash never loses an acknowledged write.  After any history of a log
    (creation, appends of any kind with any outcome of the write, checkpoints,
    syncs, resets complete or interrupted,
    closing, reopening), stop anywhere and recover
    the file.  Either the recovery returns exactly the entries since the last
    checkpoint, in order and with every field, where the only entry beyond the
    acknowledged ones can be that of a failed append all of whose bytes had
    reached the file; then reopening succeeds, cuts off the rest of a failed
    append, and continues with numbers above every entry kept.  Or a failed
    append left between eight bytes and all but one byte of its frame, and these
    bytes themselves look like a complete record with a damaged length: then both
    recovery and reopening report an error and nothing is cut off. *)
Theorem wal_crash_recovery w log cut :
  wal_history w log cut →
  let file := la_file (wal_file w) in
  let kept := log ++ landed cut in
  (∃ skipped w',
     recover file = Some (inr (mkWalRecovery (after_checkpoint kept) skipped)) ∧ (cut = None → skipped = O) ∧
     wal_open (Some file) = Some (inr w') ∧ wal_history w' kept None ∧ la_refusal (wal_file w') = None ∧
     la_file (wal_file w') `prefix_of` file ∧
     (∀ e, e ∈ kept → entry_seq e < next_seq w') ∧
     pending_entries w' = wrap64 (N.of_nat (length (after_checkpoint kept)))) ∨
  (∃ e reached body err,
     cut = Some (e, reached) ∧ encode_entry e = inr body ∧ (8 ≤ reached < 8 + length body)%nat ∧
     validate_torn_suffix (take reached (frame_of body)) = inl err ∧
     recover file = Some (inl err) ∧ wal_open (Some file) = Some (inl err)).
Proof.
  intros Hh. pose proof (wal_history_ok _ _ _ Hh) as Hw. intros file kept. pose proof Hw as [_ _ _ _ (bodies0 & torn0 & _ & Hfile0 & _) _].
  assert (header_was_interrupted file supported_headers = false) as Hi by (unfold file; rewrite Hfile0; apply not_interrupted).
  destruct (wal_ok_scan _ _ _ Hw) as [Hf|(err & e & k & body & -> & Henc & Hk & Hv & Hr)].
  - left. destruct (wal_reopen _ _ _ Hw Hf) as (w' & E & Hok & Hr). destruct Hf as (bodies & torn & _ & Hfile & Hread & Htorn).
    exists (length torn), w'. unfold recover. rewrite Hi. unfold file. rewrite Hread. cbn [mbind option_bind try_bind records torn_bytes fst].
    pose proof (wh_reopened _ _ _ _ Hh E) as Hh'. split_and!; [done|by intros ->%Htorn|done|done|done| | |].
    + unfold wal_open in E. unfold file in Hi. rewrite Hi, Hread in E. cbn [mbind option_bind try_bind records valid_len torn_bytes] in E.
      destruct (checked_add _ _ _); [|done]. destruct (repair_tail _ _ _) as [|f] eqn:Er; [done|]. cbn [try_bind] in E.
      assert (f `prefix_of` la_file (wal_file w)) as Hp.
      { unfold repair_tail in Er. repeat case_match; simplify_eq; [done|]. eexists. symmetry. apply take_drop. }
      simplify_eq. done.
    + intros e He. pose proof (wo_below _ _ _ Hok) as Hb. rewrite Forall_forall in Hb. by apply Hb.
    + by apply (wo_counts _ _ _ Hok).
  - right. exists e, k, body, err. unfold recover, wal_open. rewrite Hi. unfold file. rewrite Hr. done.
Qed.

(** C24. Log entries survive their encoding.  Every entry whose fields have the
    source's types, and which the encoder accepts (at most 65535 tags, tag keys
    and values of at most 65535 bytes, a text and a file name of a [u32] length),
    is decoded from its payload as it was, whatever of the optional priority, the
    source generation and the class-D marker it carries. *)
Theorem wal_entry_roundtrip e body : entry_ok e → encode_entry e = inr body → decode_entry body = inr e.
Proof. intros Hok Henc. by destruct (decode_encode e body Hok Henc) as (_ & _ & ->). Qed.

(** ** A history *)

Definition demo_put : WalPut :=
  mkWalPut 0 77 3 (str "acme -1996") [(str "shop", str "eu")] (Some (-5)%Z) (Some 9) true.

Definition demo_entry : WalEntry := WalUpsert (with_seq 4 demo_put).

Lemma demo_put_ok : put_ok demo_put.
Proof.
  assert (∀ s, forallb is_scalar s = true → rstring_ok s) as Hs.
  { intros s Hs. apply Forall_forall. intros c Hc. rewrite forallb_elem in Hs. by apply Hs. }
  split_and!; [done|done|by apply Hs| |by intros z [= <-]|by intros g [= <-]].
  constructor; [|constructor]. by split; apply Hs.
Qed.

Lemma wal_entry_roundtrip_witness : ∃ body, encode_entry demo_entry = inr body ∧ decode_entry body = inr demo_entry.
Proof.
  destruct (encode_entry demo_entry) as [|body] eqn:E; [by vm_compute in E|]. exists body. split; [done|].
  apply (wal_entry_roundtrip demo_entry body); [|done]. split; [done|]. split; [exact demo_put_ok|done].
Defined.

Definition demo_step (w : Wal) (op : WalOp) (io : WriteOutcome) : Wal := (wal_append w op io).1.
Definition demo_wal1 : Wal := demo_step fresh_wal (AppendInsert demo_put) Written.
Definition demo_wal2 : Wal := demo_step demo_wal1 (AppendFlushCheckpoint (str "seg-1")) Written.
Definition demo_wal3 : Wal := demo_step demo_wal2 (AppendDeleteLogical 77) Written.
Definition demo_wal4 : Wal := demo_step demo_wal3 (AppendUpsert demo_put) (Failed 20).

Lemma demo_history :
  wal_history demo_wal4 [WalInsert (with_seq 1 demo_put); WalFlushCheckpoint 2 (str "seg-1"); WalDeleteByLogical 3 77]
    (Some (demo_entry, 20%nat)).
Proof.
  apply (wh_failed demo_wal3 [WalInsert (with_seq 1 demo_put); WalFlushCheckpoint 2 (str "seg-1"); WalDeleteByLogical 3 77] None
    (AppendUpsert demo_put) (Failed 20) demo_wal4 WriteFailed); [|exact demo_put_ok|by vm_compute].
  apply (wh_appended demo_wal2 [WalInsert (with_seq 1 demo_put); WalFlushCheckpoint 2 (str "seg-1")] None (AppendDeleteLogical 77) Written _ 3);
    [|done|by vm_compute].
  apply (wh_appended demo_wal1 [WalInsert (with_seq 1 demo_put)] None (AppendFlushCheckpoint (str "seg-1")) Written _ 2); [| |by vm_compute].
  - apply (wh_appended fresh_wal [] None (AppendInsert demo_put) Written _ 1); [by apply wh_created|exact demo_put_ok|by vm_compute].
  - by repeat constructor.
Qed.

Lemma wal_crash_recovery_witness :
  ∃ skipped, recover (la_file (wal_file demo_wal4)) = Some (inr (mkWalRecovery [WalDeleteByLogical 3 77] skipped)).
Proof.
  destruct (wal_crash_recovery _ _ _ demo_history) as [(skipped & w' & E & _)|(e & k & body & err & Ec & Henc & Hk & Hv & E & _)].
  - exists skipped. exact E.
  - exfalso. injection Ec as <- <-. assert (match encode_entry demo_entry with
      | inr body => match validate_torn_suffix (take 20 (frame_of body)) with inr _ => true | inl _ => false end | inl _ => false end = true) as K
      by by vm_compute.
    rewrite Henc in K. by rewrite Hv in K.
Defined.
