(* ===== verification/SourceFile.v ===== *)
(** * The source file ([engine/src/storage/sources/format.rs], [sources/lazy.rs])

    The text, version and tags of every stored query are kept in one immutable file:
    a sorted index of logical ids, the query texts, a directory of metadata records
    with their encoded tags, a footer and a checksum.  The file models writing it,
    the two ways of reading it (whole, or lazily by binary search in the mapped
    bytes) with every check they make, and the older layouts they accept.

    A file is the list of its bytes; offsets are 64-bit numbers. *)

From stdpp Require Import strings.
From S2P Require Import Prelude Text Utf8 Dictionary Crc FramedLog.

Inductive SourceError :=
  | BadSources
  | Truncated
  | TooLong (what : string)
  | UnexpectedVersion (version : N)
  | SourcesCrcMismatch
  | BadText.

Record StoredSource := mkStoredSource {
  ss_query : rstring;
  ss_version : N;
  ss_source_generation : N;
  ss_tags : list (rstring * rstring);
  ss_tags_known : bool;
  ss_metadata_known : bool;
}.

Definition legacy (query : rstring) : StoredSource := mkStoredSource query 1 0 [] false false.

Definition SOURCES_MAGIC : list N := Eval vm_compute in str "SRCS".
Definition SOURCES_VERSION_V1 : N := 1.
Definition SOURCES_VERSION : N := 2.
Definition SRC_HEADER : N := 16.
Definition SRC_IDX_REC : N := 24.
Definition META_MAGIC : list N := Eval vm_compute in str "SMET".
Definition META_VERSION_V1 : N := 1.
Definition META_VERSION : N := 2.
Definition META_IDX_REC_V1 : N := 24.
Definition META_IDX_REC : N := 32.
Definition META_FOOTER : N := 16.
Definition META_HEADER_MARKER : N := Eval vm_compute in le_value META_MAGIC.
Definition TAGS_KNOWN : N := 1.
Definition METADATA_KNOWN : N := 2.

(** ** Reading bytes *)

(** [data.get(start..end)] *)
Definition get_range (data : list N) (start end_ : N) : option (list N) :=
  if (start <=? end_) && (end_ <=? N.of_nat (length data))
  then Some (take (usize (end_ - start)) (drop (usize start) data)) else None.

(** [.ok_or_else(bad_sources)?] *)
Definition or_bad {A} (o : option A) : SourceError + A := match o with Some a => inr a | None => inl BadSources end.

(** [.ok()?] *)
Definition ok {E A} (r : E + A) : option A := match r with inl _ => None | inr a => Some a end.

Definition read_at (width : N) (data : list N) (off : N) : SourceError + N :=
  match get_range data off (off + width) with Some bytes => inr (le_value bytes) | None => inl Truncated end.
Definition read_u32_at : list N → N → SourceError + N := read_at 4.
Definition read_u64_at : list N → N → SourceError + N := read_at 8.

Definition checked_mul (w a b : N) : option N := if a * b <=? umax w then Some (a * b) else None.

Definition peek_sources_version (data : list N) : SourceError + N :=
  match get_range data 0 8 with
  | None => inl Truncated
  | Some head =>
      let? _ := return_if (negb (bool_decide (take 4 head = SOURCES_MAGIC))) BadSources in
      inr (le_value (drop 4 head))
  end.

(** ** Tags *)

(** [out] with one tag appended. *)
Definition encode_source_tag (out : list N) (kv : rstring * rstring) : SourceError + list N :=
  let '(key, value) := kv in
  let? _ := return_if (umax 32 <? N.of_nat (str_len key)) (TooLong "source tag key too long") in
  let? _ := return_if (umax 32 <? N.of_nat (str_len value)) (TooLong "source tag value too long") in
  inr (out ++ le32 (N.of_nat (str_len key)) ++ le32 (N.of_nat (str_len value)) ++ as_bytes key ++ as_bytes value).

Definition encode_source_tags (tags : list (rstring * rstring)) (out : list N) : SourceError + list N :=
  let? _ := return_if (umax 32 <? N.of_nat (length tags)) (TooLong "too many source tags") in
  try_foldl encode_source_tag (out ++ le32 (N.of_nat (length tags))) tags.

Definition encoded_tag_count (data : list N) : SourceError + N :=
  let? _ := return_if (N.of_nat (length data) <? 4) BadSources in
  let? count := read_u32_at data 0 in
  let? _ := return_if (sat_sub (N.of_nat (length data)) 4 / 8 <? count) BadSources in
  inr count.

(** One round of the loop: the cursor after the tag, and the tag visited. *)
Definition visit_tag (data : list N) (st : N * list (rstring * rstring)) : SourceError + (N * list (rstring * rstring)) :=
  let '(cursor, tags) := st in
  let? key_len := read_u32_at data cursor in
  let? cursor := or_bad (checked_add 64 cursor 4) in
  let? value_len := read_u32_at data cursor in
  let? cursor := or_bad (checked_add 64 cursor 4) in
  let? key_end := or_bad (checked_add 64 cursor key_len) in
  let? key := or_bad (get_range data cursor key_end ≫= from_utf8) in
  let? value_end := or_bad (checked_add 64 key_end value_len) in
  let? value := or_bad (get_range data key_end value_end ≫= from_utf8) in
  inr (value_end, tags ++ [(key, value)]).

(** The tags visited, in order. *)
Definition visit_encoded_tags (data : list N) : SourceError + list (rstring * rstring) :=
  let? count := encoded_tag_count data in
  let? r := try_foldl (λ st (_ : nat), visit_tag data st) (4, []) (seq 0 (usize count)) in
  let? _ := return_if (negb (r.1 =? N.of_nat (length data))) BadSources in
  inr r.2.

Definition validate_encoded_tags (data : list N) : SourceError + unit :=
  let? _ := visit_encoded_tags data in inr tt.

Definition decode_source_tags (data : list N) : SourceError + list (rstring * rstring) :=
  let? _ := encoded_tag_count data in visit_encoded_tags data.

(** ** Writing *)

Inductive TagsRef := Decoded (tags : list (rstring * rstring)) | Encoded (bytes : list N).

Record SourceEntryRef := mkSourceEntry {
  se_logical : N;
  se_query : rstring;
  se_version : N;
  se_source_generation : N;
  se_tags_known : bool;
  se_metadata_known : bool;
  se_tags : TagsRef;
}.

(** What the loop over the entries builds. *)
Record SourceWriter := mkSourceWriter {
  sw_query_blob : list N;
  sw_metadata_blob : list N;
  sw_query_records : list (N * N * N);
  sw_metadata_records : list (N * N * N * N * N);
}.

Definition source_flags (tags_known metadata_known : bool) : N :=
  N.lor (N.b2n tags_known * TAGS_KNOWN) (N.b2n metadata_known * METADATA_KNOWN).

Definition write_entry (w : SourceWriter) (entry : SourceEntryRef) : SourceError + SourceWriter :=
  let query_off := N.of_nat (length (sw_query_blob w)) in
  let? _ := return_if (umax 32 <? N.of_nat (str_len (se_query entry))) (TooLong "query source too long") in
  let query_len := N.of_nat (str_len (se_query entry)) in
  let metadata_off := N.of_nat (length (sw_metadata_blob w)) in
  let? metadata_blob :=
    match se_tags entry with
    | Decoded tags => encode_source_tags tags (sw_metadata_blob w)
    | Encoded encoded => inr (sw_metadata_blob w ++ encoded)
    end in
  let metadata_len := N.of_nat (length metadata_blob) - metadata_off in
  let? _ := return_if (umax 32 <? metadata_len) (TooLong "source metadata too long") in
  inr (mkSourceWriter (sw_query_blob w ++ as_bytes (se_query entry)) metadata_blob
    (sw_query_records w ++ [(se_logical entry, query_off, query_len)])
    (sw_metadata_records w ++
      [(source_flags (se_tags_known entry) (se_metadata_known entry), se_version entry, se_source_generation entry,
        metadata_off, metadata_len)])).

Definition query_record_bytes (r : N * N * N) : list N :=
  let '(logical, query_off, query_len) := r in le64 logical ++ le64 query_off ++ le32 query_len ++ le32 0.

Definition metadata_record_bytes (r : N * N * N * N * N) : list N :=
  let '(flags, version, source_generation, metadata_off, metadata_len) := r in
  le32 flags ++ le32 version ++ le64 source_generation ++ le64 metadata_off ++ le32 metadata_len ++ le32 0.

(** The bytes of the file. *)
Definition write_sources_v2 (entries : list SourceEntryRef) : SourceError + list N :=
  let? _ := return_if (umax 32 <? N.of_nat (length entries)) (TooLong "too many query sources") in
  let? w := try_foldl write_entry (mkSourceWriter [] [] [] []) entries in
  let buf := SOURCES_MAGIC ++ le32 SOURCES_VERSION ++ le32 (N.of_nat (length entries)) ++ le32 META_HEADER_MARKER ++
    mjoin (query_record_bytes <$> sw_query_records w) ++ sw_query_blob w in
  let metadata_directory_off := N.of_nat (length buf) in
  let buf := buf ++ mjoin (metadata_record_bytes <$> sw_metadata_records w) ++ sw_metadata_blob w ++
    META_MAGIC ++ le32 META_VERSION ++ le64 metadata_directory_off in
  inr (buf ++ le32 (crc32 buf)).

(** ** Opening *)

Record MetadataLayout := mkMetadataLayout { ml_version : N; ml_record_size : N; ml_directory_off : N; ml_blob_off : N }.

(** Where a metadata record keeps its tags: offset and length. *)
Definition tags_range (data : list N) (version record : N) : SourceError + (N * N) :=
  if version =? META_VERSION_V1 then
    let? tags_off := read_u64_at data (record + 8) in
    let? tags_len := read_u32_at data (record + 16) in
    inr (tags_off, tags_len)
  else
    let? tags_off := read_u64_at data (record + 16) in
    let? tags_len := read_u32_at data (record + 24) in
    inr (tags_off, tags_len).

Definition check_metadata_record (data : list N) (version record_size directory_off blob_off footer_off : N) (i : nat) :
  SourceError + unit :=
  let record := directory_off + N.of_nat i * record_size in
  let? range := tags_range data version record in
  let? tags_start := or_bad (checked_add 64 blob_off range.1) in
  let? tags_end := or_bad (checked_add 64 tags_start range.2) in
  let? _ := return_if (footer_off <? tags_end) BadSources in
  let? encoded := or_bad (get_range data tags_start tags_end) in
  validate_encoded_tags encoded.

Definition metadata_layout (data : list N) (count query_blob_off : N) : SourceError + option MetadataLayout :=
  let? marker := read_u32_at data 12 in
  if negb (marker =? META_HEADER_MARKER) then inr None
  else
    let? _ := return_if (N.of_nat (length data) <? 4 + META_FOOTER) BadSources in
    let footer_off := N.of_nat (length data) - (4 + META_FOOTER) in
    let? _ := return_if (negb (bool_decide (get_range data footer_off (footer_off + 4) = Some META_MAGIC))) BadSources in
    let? version := read_u32_at data (footer_off + 4) in
    let? record_size :=
      if version =? META_VERSION_V1 then inr META_IDX_REC_V1
      else if version =? META_VERSION then inr META_IDX_REC
      else inl BadSources in
    let? directory_off := read_u64_at data (footer_off + 8) in
    let? size := or_bad (checked_mul 64 count record_size) in
    let? blob_off := or_bad (checked_add 64 directory_off size) in
    let? _ := return_if ((directory_off <? query_blob_off) || (footer_off <? blob_off)) BadSources in
    let? _ := try_foldl (λ (_ : unit), check_metadata_record data version record_size directory_off blob_off footer_off)
      tt (seq 0 (usize count)) in
    inr (Some (mkMetadataLayout version record_size directory_off blob_off)).

Record LazyBase := mkLazyBase {
  mmap : list N;
  index_off : N;
  base_count : N;
  base_blob_off : N;
  base_metadata : option MetadataLayout;
}.

(** The checks before the records: the blob offset. *)
Definition check_frame (data : list N) (count : N) : SourceError + N :=
  let? size := or_bad (checked_mul 64 count SRC_IDX_REC) in
  let? blob_off := or_bad (checked_add 64 SRC_HEADER size) in
  let? _ := return_if (N.of_nat (length data) <? blob_off + 4) BadSources in
  let? want := read_u32_at data (N.of_nat (length data) - 4) in
  let? _ := return_if (negb (crc32 (take (length data - 4) data) =? want)) SourcesCrcMismatch in
  inr blob_off.

Definition query_limit (data : list N) (metadata : option MetadataLayout) : N :=
  match metadata with Some layout => ml_directory_off layout | None => N.of_nat (length data) - 4 end.

(** One round of the loop over the index; the state is the previous logical id. *)
Definition check_query_record (data : list N) (blob_off limit : N) (previous : option N) (i : nat) : SourceError + option N :=
  let rec := SRC_HEADER + N.of_nat i * SRC_IDX_REC in
  let? logical := read_u64_at data rec in
  let? _ := return_if (match previous with Some prior => logical <=? prior | None => false end) BadSources in
  let? query_off := read_u64_at data (rec + 8) in
  let? query_len := read_u32_at data (rec + 16) in
  let? query_start := or_bad (checked_add 64 blob_off query_off) in
  let? query_end := or_bad (checked_add 64 query_start query_len) in
  let? query_bytes := or_bad (get_range data query_start query_end) in
  let? _ := return_if ((limit <? query_end) || bool_decide (from_utf8 query_bytes = None)) BadSources in
  inr (Some logical).

Definition open_lazy_base (data : list N) : SourceError + LazyBase :=
  let? _ := return_if ((N.of_nat (length data) <? SRC_HEADER + 4) || negb (bool_decide (take 4 data = SOURCES_MAGIC))) BadSources in
  let? version := read_u32_at data 4 in
  let? _ := return_if (negb (version =? SOURCES_VERSION)) (UnexpectedVersion version) in
  let? count := read_u32_at data 8 in
  let? blob_off := check_frame data count in
  let? metadata := metadata_layout data count blob_off in
  let limit := query_limit data metadata in
  let? _ := try_foldl (check_query_record data blob_off limit) None (seq 0 (usize count)) in
  inr (mkLazyBase data SRC_HEADER count blob_off metadata).

(** ** Reading the whole file *)

(** The document at position [i]: the query read from the index, the rest from the
    metadata record. *)
Definition load_source (data : list N) (metadata : option MetadataLayout) (i : nat) (query : rstring) : SourceError + StoredSource :=
  match metadata with
  | Some metadata =>
      let metadata_rec := ml_directory_off metadata + N.of_nat i * ml_record_size metadata in
      let? flags := read_u32_at data metadata_rec in
      let? stored_version := read_u32_at data (metadata_rec + 4) in
      let v1 := ml_version metadata =? META_VERSION_V1 in
      let? source_generation := if v1 then inr 0 else read_u64_at data (metadata_rec + 8) in
      let? range := tags_range data (ml_version metadata) metadata_rec in
      let metadata_known := if v1 then true else negb (N.land flags METADATA_KNOWN =? 0) in
      let? tags_start := or_bad (checked_add 64 (ml_blob_off metadata) range.1) in
      let? tags_end := or_bad (checked_add 64 tags_start range.2) in
      let? encoded := or_bad (get_range data tags_start tags_end) in
      let? tags := decode_source_tags encoded in
      inr (mkStoredSource query stored_version source_generation tags (negb (N.land flags TAGS_KNOWN =? 0)) metadata_known)
  | None => inr (legacy query)
  end.

Definition load_record (data : list N) (blob_off limit : N) (metadata : option MetadataLayout)
  (st : option N * gmap N StoredSource) (i : nat) : SourceError + (option N * gmap N StoredSource) :=
  let '(previous, store) := st in
  let rec := SRC_HEADER + N.of_nat i * SRC_IDX_REC in
  let? logical_id := read_u64_at data rec in
  let? _ := return_if (match previous with Some prior => logical_id <=? prior | None => false end) BadSources in
  let? boff := read_u64_at data (rec + 8) in
  let? len := read_u32_at data (rec + 16) in
  let? start := or_bad (checked_add 64 blob_off boff) in
  let? end_ := or_bad (checked_add 64 start len) in
  let? _ := return_if (limit <? end_) BadSources in
  let? query := match get_range data start end_ ≫= from_utf8 with Some query => inr query | None => inl BadText end in
  let? source := load_source data metadata i query in
  inr (Some logical_id, <[logical_id := source]> store).

(** Version 1: entries follow each other, and an incomplete one ends the loop. *)
Fixpoint load_v1 (data : list N) (rounds : nat) (cursor : N) (store : gmap N StoredSource) : SourceError + gmap N StoredSource :=
  match rounds with
  | O => inr store
  | S rounds' =>
      if N.of_nat (length data) <? cursor + 12 then inr store
      else
        let? logical_id := read_u64_at data cursor in
        let cursor := cursor + 8 in
        let? text_len := read_u32_at data cursor in
        let cursor := cursor + 4 in
        if N.of_nat (length data) <? cursor + text_len then inr store
        else
          let? text := match get_range data cursor (cursor + text_len) ≫= from_utf8 with Some text => inr text | None => inl BadText end in
          load_v1 data rounds' (cursor + text_len) (<[logical_id := legacy text]> store)
  end.

(** [None] is an absent file. *)
Definition load_stored_sources (path : option (list N)) : SourceError + gmap N StoredSource :=
  match path with
  | None => inr ∅
  | Some data =>
      let? _ := return_if ((N.of_nat (length data) <? 12) || negb (bool_decide (take 4 data = SOURCES_MAGIC))) BadSources in
      let? version := read_u32_at data 4 in
      let? count := read_u32_at data 8 in
      if version =? SOURCES_VERSION_V1 then load_v1 data (usize count) 12 ∅
      else if version =? SOURCES_VERSION then
        let? blob_off := check_frame data count in
        let? metadata := metadata_layout data count blob_off in
        let? r := try_foldl (load_record data blob_off (query_limit data metadata) metadata) (None, ∅) (seq 0 (usize count)) in
        inr r.2
      else inl (UnexpectedVersion version)
  end.

Definition load_query_sources (path : option (list N)) : SourceError + gmap N rstring :=
  let? store := load_stored_sources path in inr (ss_query <$> store).

(** ** Reading lazily *)

Record SourceRecord := mkSourceRecord {
  sr_logical : N;
  sr_query : rstring;
  sr_version : N;
  sr_source_generation : N;
  sr_tags_known : bool;
  sr_metadata_known : bool;
  sr_encoded_tags : option (list N);
}.

Definition logical_at (b : LazyBase) (i : N) : option N := ok (read_u64_at (mmap b) (index_off b + i * SRC_IDX_REC)).

Definition query_record (b : LazyBase) (i : N) : option (N * rstring) :=
  let rec := index_off b + i * SRC_IDX_REC in
  logical ← ok (read_u64_at (mmap b) rec);
  query_off ← ok (read_u64_at (mmap b) (rec + 8));
  query_len ← ok (read_u32_at (mmap b) (rec + 16));
  query_start ← checked_add 64 (base_blob_off b) query_off;
  query_end ← checked_add 64 query_start query_len;
  query ← get_range (mmap b) query_start query_end ≫= from_utf8;
  Some (logical, query).

Definition base_record (b : LazyBase) (i : N) : option SourceRecord :=
  '(logical, query) ← query_record b i;
  match base_metadata b with
  | Some metadata =>
      let metadata_rec := ml_directory_off metadata + i * ml_record_size metadata in
      flags ← ok (read_u32_at (mmap b) metadata_rec);
      version ← ok (read_u32_at (mmap b) (metadata_rec + 4));
      let v1 := ml_version metadata =? META_VERSION_V1 in
      source_generation ← (if v1 then Some 0 else ok (read_u64_at (mmap b) (metadata_rec + 8)));
      range ← ok (tags_range (mmap b) (ml_version metadata) metadata_rec);
      let metadata_known := if v1 then true else negb (N.land flags METADATA_KNOWN =? 0) in
      tags_start ← checked_add 64 (ml_blob_off metadata) range.1;
      tags_end ← checked_add 64 tags_start range.2;
      encoded ← get_range (mmap b) tags_start tags_end;
      Some (mkSourceRecord logical query version source_generation (negb (N.land flags TAGS_KNOWN =? 0)) metadata_known (Some encoded))
  | None => Some (mkSourceRecord logical query 1 0 false false None)
  end.

(** The binary search; the number of records bounds its rounds. *)
Fixpoint index_of_loop (b : LazyBase) (logical : N) (fuel : nat) (lo hi : N) : option N :=
  match fuel with
  | O => None
  | S fuel' =>
      if hi <=? lo then None
      else
        let mid := lo + (hi - lo) / 2 in
        found ← logical_at b mid;
        match found ?= logical with
        | Lt => index_of_loop b logical fuel' (mid + 1) hi
        | Gt => index_of_loop b logical fuel' lo mid
        | Eq => Some mid
        end
  end.

Definition index_of (b : LazyBase) (logical : N) : option N := index_of_loop b logical (usize (base_count b)) 0 (base_count b).

Definition base_find (b : LazyBase) (logical : N) : option SourceRecord := i ← index_of b logical; base_record b i.

(** [Err(len)] is [inl]. *)
Definition base_get_bounded (b : LazyBase) (logical : N) (max_bytes : nat) : nat + option rstring :=
  match index_of b logical with
  | None => inr None
  | Some i =>
      match query_record b i with
      | None => inr None
      | Some (_, query) => if (max_bytes <? str_len query)%nat then inl (str_len query) else inr (Some query)
      end
  end.

Definition base_get_bounded_at_generation (b : LazyBase) (logical expected_generation : N) (max_bytes : nat) : nat + option rstring :=
  match base_find b logical with
  | None => inr None
  | Some record =>
      if negb (sr_source_generation record =? expected_generation) then inr None
      else if (max_bytes <? str_len (sr_query record))%nat then inl (str_len (sr_query record)) else inr (Some (sr_query record))
  end.

(** The document of a record, its tags decoded. *)
Definition stored_of (record : SourceRecord) : option StoredSource :=
  tags ← match sr_encoded_tags record with Some encoded => ok (decode_source_tags encoded) | None => Some [] end;
  Some (mkStoredSource (sr_query record) (sr_version record) (sr_source_generation record) tags
    (sr_tags_known record) (sr_metadata_known record)).

Definition base_get_document (b : LazyBase) (logical : N) : option StoredSource := base_find b logical ≫= stored_of.

(** ** Ranges of bytes *)

Lemma get_range_mid a b c n : n = N.of_nat (length a) → get_range (a ++ b ++ c) n (n + N.of_nat (length b)) = Some b.
Proof.
  intros ->. unfold get_range. rewrite !length_app.
  destruct (N.leb_spec (N.of_nat (length a)) (N.of_nat (length a) + N.of_nat (length b))); [|lia].
  destruct (N.leb_spec (N.of_nat (length a) + N.of_nat (length b)) (N.of_nat (length a + (length b + length c)))); [|lia]. simpl.
  rewrite Nat2N.id, drop_app_length. f_equal. rewrite take_app_le by lia. apply take_ge. lia.
Qed.

Lemma get_range_Some data start end_ :
  start ≤ end_ → end_ ≤ N.of_nat (length data) →
  ∃ pre mid post, get_range data start end_ = Some mid ∧ data = pre ++ mid ++ post ∧ N.of_nat (length pre) = start ∧
    N.of_nat (length mid) = end_ - start.
Proof.
  intros H1 H2. exists (take (usize start) data), (take (usize (end_ - start)) (drop (usize start) data)),
    (drop (usize (end_ - start)) (drop (usize start) data)).
  unfold get_range. rewrite (proj2 (N.leb_le _ _) H1), (proj2 (N.leb_le _ _) H2), !take_drop. split_and!; [done..| |];
    rewrite ?length_take, ?length_drop; lia.
Qed.

Lemma get_range_inv data start end_ mid : get_range data start end_ = Some mid →
  start ≤ end_ ∧ end_ ≤ N.of_nat (length data) ∧ N.of_nat (length mid) = end_ - start ∧ ∃ pre post, data = pre ++ mid ++ post.
Proof.
  unfold get_range. destruct (N.leb_spec start end_) as [H1|]; [|done]. destruct (N.leb_spec end_ (N.of_nat (length data))) as [H2|]; [|done].
  intros E. destruct (get_range_Some data start end_ H1 H2) as (pre & mid' & post & E' & Hd & _ & Hl). unfold get_range in E'.
  rewrite (proj2 (N.leb_le _ _) H1), (proj2 (N.leb_le _ _) H2) in E'. rewrite E in E'. injection E' as <-. eauto 6.
Qed.

Lemma read_at_mid (k : nat) a v c n :
  n = N.of_nat (length a) → fits (8 * N.of_nat k) v → read_at (N.of_nat k) (a ++ le_bytes k v ++ c) n = inr v.
Proof.
  intros -> Hv. pose proof (get_range_mid a (le_bytes k v) c _ eq_refl) as Er. rewrite length_le_bytes in Er.
  unfold read_at. rewrite Er. by rewrite le_value_bytes.
Qed.

Lemma read_u32_mid a v c n : n = N.of_nat (length a) → fits 32 v → read_u32_at (a ++ le32 v ++ c) n = inr v.
Proof. rewrite le32_bytes. apply (read_at_mid 4). Qed.

Lemma read_u64_mid a v c n : n = N.of_nat (length a) → fits 64 v → read_u64_at (a ++ le64 v ++ c) n = inr v.
Proof. rewrite le64_bytes. apply (read_at_mid 8). Qed.

Lemma read_at_ok width data off :
  bytes_ok data → off + width ≤ N.of_nat (length data) → ∃ v, read_at width data off = inr v ∧ fits (8 * width) v.
Proof.
  intros Hb Hl. destruct (get_range_Some data off (off + width)) as (pre & mid & post & E & -> & _ & Hm); [lia|done|].
  exists (le_value mid). unfold read_at. rewrite E. split; [done|]. replace width with (N.of_nat (length mid)) by lia.
  apply le_value_bound. apply Forall_app in Hb as [_ Hb]. by apply Forall_app in Hb as [Hb _].
Qed.

Lemma read_at_inv width data off v : read_at width data off = inr v → off + width ≤ N.of_nat (length data).
Proof. unfold read_at. destruct (get_range _ _ _) eqn:E; [|done]. by apply get_range_inv in E as (_ & ? & _). Qed.

Lemma checked_add_ok w a b : a + b ≤ umax w → checked_add w a b = Some (a + b).
Proof. intros. unfold checked_add. by rewrite (proj2 (N.leb_le _ _)). Qed.

Lemma checked_mul_ok w a b : a * b ≤ umax w → checked_mul w a b = Some (a * b).
Proof. intros. unfold checked_mul. by rewrite (proj2 (N.leb_le _ _)). Qed.

(** ** Loops over an index *)

Section loops.
Context {E A : Type} (f : A → nat → E + A) (I : nat → A → Prop).

Lemma try_foldl_app {B} (g : A → B → E + A) l k a :
  try_foldl g a (l ++ k) = (let? a := try_foldl g a l in try_foldl g a k).
Proof. revert a. induction l as [|x l IH]; intros a; [done|]. simpl. destruct (g a x); [done|]. apply IH. Qed.

Lemma seq_loop_inv n a0 a :
  try_foldl f a0 (seq 0 n) = inr a → I 0 a0 →
  (∀ i a a', (i < n)%nat → I i a → f a i = inr a' → I (S i) a') → I n a.
Proof.
  revert a. induction n as [|n IH]; intros a Hr H0 Hs; [by injection Hr as <-|].
  rewrite seq_S, try_foldl_app in Hr. simpl in Hr. destruct (try_foldl f a0 (seq 0 n)) as [|a1] eqn:E1; [done|]. simpl in Hr.
  destruct (f a1 n) as [|a2] eqn:E2; [done|]. injection Hr as <-. apply (Hs n a1); [lia| |done].
  apply IH; [done|done|]. intros i ???. apply Hs. lia.
Qed.

Lemma seq_loop_run n a0 :
  I 0 a0 → (∀ i a, (i < n)%nat → I i a → ∃ a', f a i = inr a' ∧ I (S i) a') →
  ∃ a, try_foldl f a0 (seq 0 n) = inr a ∧ I n a.
Proof.
  induction n as [|n IH]; intros H0 Hs; [by exists a0|]. destruct IH as (a1 & E1 & H1); [done|intros i a ?; apply Hs; lia|].
  destruct (Hs n a1) as (a2 & E2 & H2); [lia|done|]. exists a2. rewrite seq_S, try_foldl_app, E1. simpl. by rewrite E2.
Qed.
End loops.

Lemma index_choice {A} (P : nat → A → Prop) n :
  (∀ i, (i < n)%nat → ∃ x, P i x) → ∃ l, length l = n ∧ ∀ i x, l !! i = Some x → P i x.
Proof.
  induction n as [|n IH]; intros Hx; [by exists []|]. destruct IH as (l & Hl & Hp); [intros; apply Hx; lia|].
  destruct (Hx n) as (x & Hpx); [lia|]. exists (l ++ [x]). rewrite length_app. split; [simpl; lia|].
  intros i y [Hy|[Hi Hy]]%lookup_app_Some; [by apply Hp|].
  destruct (i - length l)%nat as [|k] eqn:Ek; [|done]. injection Hy as <-. by replace i with n by lia.
Qed.

(** Goes on past the steps of a run that returned. *)
Ltac try_step H v :=
  match type of H with
  | try_bind ?m _ = inr _ =>
      let E := fresh "E" v in destruct m as [|v] eqn:E; [discriminate H|]; cbn [try_bind] in H
  end.

Lemma return_if_inv {E} c (e : E) u : return_if c e = inr u → c = false.
Proof. by destruct c. Qed.

Lemma or_bad_inv {A} (o : option A) a : or_bad o = inr a → o = Some a.
Proof. destruct o; simpl; congruence. Qed.

(** ** What an opened file holds *)

(** The records of an opened file, in order. *)
Record base_ok (b : LazyBase) (recs : list SourceRecord) : Prop := {
  bo_count : base_count b = N.of_nat (length recs);
  bo_logical i r : recs !! i = Some r → logical_at b (N.of_nat i) = Some (sr_logical r);
  bo_query i r : recs !! i = Some r → query_record b (N.of_nat i) = Some (sr_logical r, sr_query r);
  bo_record i r : recs !! i = Some r → base_record b (N.of_nat i) = Some r;
  bo_sorted i j r r' : (i < j)%nat → recs !! i = Some r → recs !! j = Some r' → sr_logical r < sr_logical r';
  bo_tags r : r ∈ recs → is_Some (stored_of r);
}.

(** The documents of the records. *)
Definition docs_of (recs : list SourceRecord) : list (N * StoredSource) :=
  omap (λ r, pair (sr_logical r) <$> stored_of r) recs.

Section base.
Context {b : LazyBase} {recs : list SourceRecord} (Hb : base_ok b recs).

Lemma index_of_loop_spec logical fuel lo hi :
  hi ≤ base_count b → hi - lo ≤ N.of_nat fuel →
  match index_of_loop b logical fuel lo hi with
  | Some i => ∃ r, recs !! usize i = Some r ∧ sr_logical r = logical
  | None => ∀ i r, lo ≤ N.of_nat i < hi → recs !! i = Some r → sr_logical r ≠ logical
  end.
Proof.
  pose proof (bo_count _ _ Hb) as Hc. revert lo hi. induction fuel as [|fuel IH]; intros lo hi Hhi Hf; simpl; [intros; lia|].
  destruct (N.leb_spec hi lo); [intros; lia|]. set (mid := lo + (hi - lo) / 2).
  assert (lo ≤ mid < hi) as Hm by (unfold mid; pose proof (N.Div0.div_lt_upper_bound (hi - lo) 2 (hi - lo)); lia).
  destruct (lookup_lt_is_Some_2 recs (usize mid)) as [r Hr]; [lia|].
  pose proof (bo_logical _ _ Hb _ _ Hr) as Hl. rewrite N2Nat.id in Hl. rewrite Hl. simpl.
  destruct (N.compare_spec (sr_logical r) logical) as [Heq|Hlt|Hgt].
  - eauto.
  - specialize (IH (mid + 1) hi ltac:(lia) ltac:(lia)). destruct (index_of_loop _ _ _ _ _) as [i|]; [done|].
    intros i r' Hi Hr'. destruct (decide (mid < N.of_nat i)); [by apply (IH i); [lia|]|].
    destruct (decide (i = usize mid)) as [->|Hne]; [simplify_eq; lia|].
    pose proof (bo_sorted _ _ Hb i (usize mid) r' r ltac:(lia) Hr' Hr). lia.
  - specialize (IH lo mid ltac:(lia) ltac:(lia)). destruct (index_of_loop _ _ _ _ _) as [i|]; [done|].
    intros i r' Hi Hr'. destruct (decide (N.of_nat i < mid)); [by apply (IH i); [lia|]|].
    destruct (decide (i = usize mid)) as [->|Hne]; [simplify_eq; lia|].
    pose proof (bo_sorted _ _ Hb (usize mid) i r r' ltac:(lia) Hr Hr'). lia.
Qed.

Lemma base_logical_inj i j r r' : recs !! i = Some r → recs !! j = Some r' → sr_logical r = sr_logical r' → i = j.
Proof.
  intros Hr Hr' E. destruct (lt_eq_lt_dec i j) as [[Hlt|]|Hlt]; [|done|].
  - pose proof (bo_sorted _ _ Hb i j r r' Hlt Hr Hr'). lia.
  - pose proof (bo_sorted _ _ Hb j i r' r Hlt Hr' Hr). lia.
Qed.

Lemma index_of_Some i r : recs !! i = Some r → index_of b (sr_logical r) = Some (N.of_nat i).
Proof.
  intros Hr. pose proof (bo_count _ _ Hb) as Hc. pose proof (lookup_lt_Some _ _ _ Hr).
  pose proof (index_of_loop_spec (sr_logical r) (usize (base_count b)) 0 (base_count b) ltac:(lia) ltac:(lia)) as Hs.
  unfold index_of. destruct (index_of_loop _ _ _ _ _) as [j|].
  - destruct Hs as (r' & Hr' & E). assert (i = usize j) as -> by by eapply base_logical_inj. by rewrite N2Nat.id.
  - exfalso. by apply (Hs i r); [lia|..].
Qed.

Lemma index_of_None logical : (∀ r, r ∈ recs → sr_logical r ≠ logical) → index_of b logical = None.
Proof.
  intros Hn. pose proof (index_of_loop_spec logical (usize (base_count b)) 0 (base_count b) ltac:(lia) ltac:(lia)) as Hs.
  unfold index_of. destruct (index_of_loop _ _ _ _ _) as [j|]; [|done].
  destruct Hs as (r & Hr & E). exfalso. by apply (Hn r); [eapply list_elem_of_lookup_2|].
Qed.

Lemma base_find_spec logical r : base_find b logical = Some r ↔ r ∈ recs ∧ sr_logical r = logical.
Proof.
  unfold base_find. split.
  - destruct (decide (Exists (λ r, sr_logical r = logical) recs)) as [(r' & Hr' & <-)%Exists_exists|Hn].
    + apply list_elem_of_lookup in Hr' as [i Hi]. rewrite (index_of_Some i r' Hi). simpl. rewrite (bo_record _ _ Hb _ _ Hi).
      intros [= <-]. split; [by eapply list_elem_of_lookup_2|done].
    + rewrite index_of_None; [done|]. intros r' Hr' E. apply Hn, Exists_exists. eauto.
  - intros [[i Hi]%list_elem_of_lookup <-]. rewrite (index_of_Some i r Hi). simpl. by apply (bo_record _ _ Hb).
Qed.

Lemma docs_of_NoDup : NoDup (docs_of recs).*1.
Proof.
  assert ((docs_of recs).*1 = sr_logical <$> recs) as ->.
  { pose proof (bo_tags _ _ Hb) as Ht. clear Hb. induction recs as [|r l IH]; [done|]. unfold docs_of. simpl.
    destruct (Ht r) as [d Hd]; [by left|]. rewrite Hd. simpl. f_equal. apply IH. intros. apply Ht. by right. }
  apply NoDup_alt. intros i j l (r & -> & Hr)%list_lookup_fmap_Some (r' & E & Hr')%list_lookup_fmap_Some.
  by eapply base_logical_inj.
Qed.

(** Reading lazily gives the document of the map. *)
Lemma base_get_document_spec logical : base_get_document b logical = (list_to_map (docs_of recs) : gmap N StoredSource) !! logical.
Proof.
  unfold base_get_document. apply option_eq. intros d. rewrite <-elem_of_list_to_map by apply docs_of_NoDup.
  unfold docs_of. rewrite list_elem_of_omap. split.
  - intros (r & [Hr Hl]%base_find_spec & Hd)%bind_Some. exists r. rewrite Hd, Hl. done.
  - intros (r & Hr & (d' & Hd & [= -> ->])%fmap_Some). apply bind_Some. exists r. split; [by apply base_find_spec|done].
Qed.

Lemma base_find_document logical : base_find b logical = None ↔ base_get_document b logical = None.
Proof.
  unfold base_get_document. destruct (base_find b logical) as [r|] eqn:E; [|done]. simpl.
  apply base_find_spec in E as [Hr _]. destruct (bo_tags _ _ Hb r Hr) as [d ->]. done.
Qed.

Lemma base_find_stored logical r :
  base_find b logical = Some r → ∃ d, base_get_document b logical = Some d ∧ ss_source_generation d = sr_source_generation r ∧ ss_query d = sr_query r.
Proof.
  intros E. pose proof E as [Hr _]%base_find_spec. destruct (bo_tags _ _ Hb r Hr) as [d Hd]. exists d. unfold base_get_document.
  rewrite E. simpl. split; [done|]. unfold stored_of in Hd. apply bind_Some in Hd as (tags & _ & [= <-]). done.
Qed.
End base.

(** ** Opening validates every record *)

Lemma decode_source_tags_visit data : decode_source_tags data = visit_encoded_tags data.
Proof. unfold decode_source_tags, visit_encoded_tags. by destruct (encoded_tag_count data). Qed.

Definition version_size (version : N) : N := if version =? META_VERSION_V1 then META_IDX_REC_V1 else META_IDX_REC.

Record layout_ok (data : list N) (count : N) (m : MetadataLayout) : Prop := {
  lo_size : ml_record_size m = version_size (ml_version m);
  lo_blob : ml_blob_off m = ml_directory_off m + count * ml_record_size m;
  lo_end : ml_blob_off m + 20 ≤ N.of_nat (length data);
  lo_record i : (i < usize count)%nat →
    check_metadata_record data (ml_version m) (ml_record_size m) (ml_directory_off m) (ml_blob_off m) (N.of_nat (length data) - 20) i = inr tt;
}.

Lemma metadata_layout_inv data count query_blob_off m :
  metadata_layout data count query_blob_off = inr (Some m) → query_blob_off ≤ ml_directory_off m ∧ layout_ok data count m.
Proof.
  unfold metadata_layout. intros Hr. try_step Hr marker. destruct (negb _); [done|].
  try_step Hr u1. apply return_if_inv, N.ltb_ge in Eu1. change (4 + META_FOOTER) with 20 in *.
  try_step Hr u2. try_step Hr version. try_step Hr record_size. try_step Hr directory_off. try_step Hr sz.
  apply or_bad_inv in Esz. try_step Hr blob_off. apply or_bad_inv in Eblob_off.
  try_step Hr u3. apply return_if_inv, orb_false_iff in Eu3 as [H1%N.ltb_ge H2%N.ltb_ge].
  unfold checked_mul in Esz. case_match; [|done]. unfold checked_add in Eblob_off. case_match; [|done].
  injection Esz as <-. injection Eblob_off as <-. try_step Hr u4. injection Hr as <-. split; [done|].
  split; simpl; [|done|lia|].
  - unfold version_size. destruct (version =? META_VERSION_V1); [congruence|]. destruct (version =? META_VERSION); congruence.
  - intros i Hi. pose proof (seq_loop_inv _ (λ n _, ∀ j, (j < n)%nat →
      check_metadata_record data version record_size directory_off (directory_off + count * record_size) (N.of_nat (length data) - 20) j
        = inr tt) _ _ _ Eu4) as HI. apply HI; [intros; lia| |done].
    intros j [] [] _ Hj Hc k Hk. destruct (decide (k = j)) as [->|]; [done|]. apply Hj. lia.
Qed.

Section records.
Context {data : list N} {count blob_off : N} {metadata : option MetadataLayout}.
Context (Hbytes : bytes_ok data) (Hmeta : match metadata with Some m => layout_ok data count m | None => True end).
Let b := mkLazyBase data SRC_HEADER count blob_off metadata.

Lemma read_at_fits width off v : read_at width data off = inr v → fits (8 * width) v.
Proof.
  intros Hr. destruct (read_at_ok width data off Hbytes (read_at_inv _ _ _ _ Hr)) as (v' & Hr' & Hf). rewrite Hr in Hr'. by injection Hr' as ->.
Qed.

Lemma tags_range_fits version record range : tags_range data version record = inr range → fits 32 range.2.
Proof.
  unfold tags_range. intros Hr. destruct (version =? META_VERSION_V1); try_step Hr off; try_step Hr len; injection Hr as <-;
    by apply (read_at_fits 4) in Elen.
Qed.

Lemma check_query_record_inv limit previous i next :
  check_query_record data blob_off limit previous i = inr next →
  ∃ logical query, next = Some logical ∧ query_record b (N.of_nat i) = Some (logical, query) ∧ logical_at b (N.of_nat i) = Some logical ∧
    fits 64 logical ∧ (∀ prior, previous = Some prior → prior < logical) ∧
    ∃ boff len start end_, read_u64_at data (SRC_HEADER + N.of_nat i * SRC_IDX_REC + 8) = inr boff ∧
      read_u32_at data (SRC_HEADER + N.of_nat i * SRC_IDX_REC + 16) = inr len ∧ checked_add 64 blob_off boff = Some start ∧
      checked_add 64 start len = Some end_ ∧ end_ ≤ limit ∧ get_range data start end_ ≫= from_utf8 = Some query ∧
      fits 32 (N.of_nat (str_len query)).
Proof.
  unfold check_query_record, query_record, logical_at, b. cbv zeta. cbn [mmap index_off base_blob_off]. intros Hr.
  set (rec := SRC_HEADER + N.of_nat i * SRC_IDX_REC) in *. try_step Hr logical. try_step Hr u1. apply return_if_inv in Eu1.
  try_step Hr boff. try_step Hr len. try_step Hr start. apply or_bad_inv in Estart. try_step Hr end_. apply or_bad_inv in Eend_.
  try_step Hr bytes. apply or_bad_inv in Ebytes. try_step Hr u2. apply return_if_inv, orb_false_iff in Eu2 as [H1%N.ltb_ge H2%bool_decide_eq_false].
  injection Hr as <-. destruct (from_utf8 bytes) as [query|] eqn:Eq; [|done]. exists logical, query. split; [done|]. split.
  { simpl. rewrite Estart. simpl. rewrite Eend_. simpl. rewrite Ebytes. simpl. by rewrite Eq. }
  split; [done|]. split.
  { by apply (read_at_fits 8) in Elogical. }
  split. { intros prior ->. by apply N.leb_gt. }
  exists boff, len, start, end_. rewrite Ebytes. split_and!; [done..|]. unfold str_len. apply from_utf8_sound in Eq as [_ ->].
  apply get_range_inv in Ebytes as (_ & _ & -> & _). apply (read_at_fits 4) in Elen. unfold checked_add in Eend_. case_match; [|done].
  injection Eend_ as <-. by replace (start + len - start) with len by lia.
Qed.

(** A record within the checked ones, as both readers read it. *)
Lemma record_checked i logical query :
  (i < usize count)%nat → query_record b (N.of_nat i) = Some (logical, query) →
  ∃ r d, base_record b (N.of_nat i) = Some r ∧ stored_of r = Some d ∧ sr_logical r = logical ∧ sr_query r = query ∧
    fits 32 (ss_version d) ∧ fits 64 (ss_source_generation d) ∧ (∀ encoded, sr_encoded_tags r = Some encoded → bytes_ok encoded ∧ fits 32 (N.of_nat (length encoded))) ∧
    load_source data metadata i query = inr d.
Proof.
  intros Hi Hq. unfold base_record. rewrite Hq. unfold b, load_source. cbn [mbind option_bind base_metadata mmap].
  destruct metadata as [m|].
  2: { eexists _, (legacy query). split; [done|]. unfold stored_of. simpl. done. }
  pose proof (lo_record _ _ _ Hmeta i Hi) as Hc. unfold check_metadata_record in Hc. set (rec := ml_directory_off m + N.of_nat i * ml_record_size m) in *.
  assert (rec + 24 ≤ N.of_nat (length data)) as Hroom.
  { pose proof (lo_size _ _ _ Hmeta). pose proof (lo_blob _ _ _ Hmeta). pose proof (lo_end _ _ _ Hmeta).
    assert (24 ≤ ml_record_size m) by (rewrite (lo_size _ _ _ Hmeta); unfold version_size; by destruct (_ =? _)).
    unfold rec. nia. }
  try_step Hc range. try_step Hc tags_start. apply or_bad_inv in Etags_start. try_step Hc tags_end. apply or_bad_inv in Etags_end.
  try_step Hc u1. try_step Hc encoded. apply or_bad_inv in Eencoded. unfold validate_encoded_tags in Hc. try_step Hc tags.
  destruct (read_at_ok 4 data rec Hbytes) as (flags & Ef & _); [lia|]. destruct (read_at_ok 4 data (rec + 4) Hbytes) as (ver & Ev & Hv); [lia|].
  destruct (read_at_ok 8 data (rec + 8) Hbytes) as (gen & Eg & Hg); [lia|].
  unfold read_u32_at, read_u64_at. rewrite Ef, Ev, Eg. cbn [ok try_bind mbind option_bind].
  set (g := if ml_version m =? META_VERSION_V1 then 0 else gen).
  set (known := if ml_version m =? META_VERSION_V1 then true else negb (N.land flags METADATA_KNOWN =? 0)).
  set (tk := negb (N.land flags TAGS_KNOWN =? 0)).
  exists (mkSourceRecord logical query ver g tk known (Some encoded)), (mkStoredSource query ver g tags tk known).
  assert (∀ g known, (tags_start ← checked_add 64 (ml_blob_off m) range.1; tags_end ← checked_add 64 tags_start range.2;
    encoded ← get_range data tags_start tags_end; Some (mkSourceRecord logical query ver g tk known (Some encoded)))
    = Some (mkSourceRecord logical query ver g tk known (Some encoded))) as Hrun.
  { intros. rewrite Etags_start. simpl. rewrite Etags_end. simpl. by rewrite Eencoded. }
  split. { unfold g, known. destruct (ml_version m =? META_VERSION_V1); simpl; rewrite Hrun; done. }
  unfold stored_of. simpl. rewrite decode_source_tags_visit, Etags. simpl.
  split_and!; [done|done|done|done|unfold g; by destruct (_ =? _)| |].
  2: { unfold g, known. destruct (ml_version m =? META_VERSION_V1); simpl; rewrite Etags_start; simpl; rewrite Etags_end; simpl; rewrite Eencoded; simpl;
       by rewrite decode_source_tags_visit, Etags. }
  intros ? [= <-]. pose proof (get_range_inv _ _ _ _ Eencoded) as (_ & _ & Hl & pre & post & Hd). split.
  - rewrite Hd in Hbytes. apply Forall_app in Hbytes as [_ Hb]. by apply Forall_app in Hb as [? _].
  - rewrite Hl. assert (fits 32 range.2) as H32 by (by eapply tags_range_fits). unfold checked_add in Etags_end. case_match; [|done].
    injection Etags_end as <-. by replace (tags_start + range.2 - tags_start) with range.2 by lia.
Qed.
End records.

(** A record whose fields have the source's types. *)
Definition record_fits (r : SourceRecord) : Prop :=
  fits 64 (sr_logical r) ∧ rstring_ok (sr_query r) ∧ fits 32 (N.of_nat (str_len (sr_query r))) ∧ fits 32 (sr_version r) ∧
  fits 64 (sr_source_generation r) ∧
  (∀ encoded, sr_encoded_tags r = Some encoded → bytes_ok encoded ∧ fits 32 (N.of_nat (length encoded))) ∧ is_Some (stored_of r).

Lemma docs_of_app l k : docs_of (l ++ k) = docs_of l ++ docs_of k.
Proof. apply omap_app. Qed.

Section opened.
Context {data : list N} {count blob_off : N} {metadata : option MetadataLayout}.
Context (Hbytes : bytes_ok data) (Hmeta : match metadata with Some m => layout_ok data count m | None => True end).
Let b := mkLazyBase data SRC_HEADER count blob_off metadata.
Let limit := query_limit data metadata.

(** The previous logical id at the start of a round. *)
Definition prior_at (b : LazyBase) (n : nat) : option N := match n with O => None | S j => logical_at b (N.of_nat j) end.

Lemma checked_records previous :
  try_foldl (check_query_record data blob_off limit) None (seq 0 (usize count)) = inr previous →
  ∀ i, (i < usize count)%nat → ∃ next, check_query_record data blob_off limit (prior_at b i) i = inr next.
Proof.
  intros Hr. apply (seq_loop_inv _ (λ n prev, prev = prior_at b n ∧ ∀ i, (i < n)%nat → ∃ next, check_query_record data blob_off limit (prior_at b i) i = inr next)) in Hr.
  - by destruct Hr.
  - split; [done|intros; lia].
  - intros i prev next _ [-> Hi] Hc. pose proof (check_query_record_inv (count:=count) (metadata:=metadata) Hbytes _ _ _ _ Hc) as (l & q & -> & _ & Hl & _).
    split; [by rewrite <-Hl|]. intros j Hj. destruct (decide (j = i)) as [->|]; [eauto|]. apply Hi. lia.
Qed.

(** What is known of the record at [i], as both readers see it. *)
Record opened_at (i : nat) (r : SourceRecord) (d : StoredSource) : Prop := {
  oa_record : base_record b (N.of_nat i) = Some r;
  oa_stored : stored_of r = Some d;
  oa_fits : record_fits r;
  oa_query : query_record b (N.of_nat i) = Some (sr_logical r, sr_query r);
  oa_logical : logical_at b (N.of_nat i) = Some (sr_logical r);
  oa_prior prior : prior_at b i = Some prior → prior < sr_logical r;
  oa_load store : load_record data blob_off limit metadata (prior_at b i, store) i = inr (Some (sr_logical r), <[sr_logical r := d]> store);
}.

Lemma opened_record i next :
  (i < usize count)%nat → check_query_record data blob_off limit (prior_at b i) i = inr next → ∃ r d, opened_at i r d.
Proof.
  intros Hi Hn.
  destruct (check_query_record_inv (count:=count) (metadata:=metadata) Hbytes _ _ _ _ Hn)
    as (l & q & -> & Hq & Hl & Hf & Hp & boff & len & start & end_ & E1 & E2 & E3 & E4 & H5 & E6 & H32).
  destruct (record_checked Hbytes Hmeta i l q Hi Hq) as (r & d & Hr & Hd & <- & <- & Hv & Hg & He & Hload).
  assert (ss_version d = sr_version r ∧ ss_source_generation d = sr_source_generation r) as [Ev Eg].
  { unfold stored_of in Hd. by apply bind_Some in Hd as (tags & _ & [= <-]). }
  exists r, d. split; [done|done| |done|done|done|].
  - split_and!; [done| |done|congruence|congruence|done|eauto]. apply bind_Some in E6 as (bytes & _ & E6). by apply from_utf8_sound in E6 as [? _].
  - intros store. unfold load_record. unfold logical_at in Hl. cbn [mmap index_off b] in Hl.
    destruct (read_u64_at data (SRC_HEADER + N.of_nat i * SRC_IDX_REC)) as [|l'] eqn:E0; [done|]. injection Hl as ->. cbn [try_bind].
    assert (match prior_at b i with Some prior => sr_logical r <=? prior | None => false end = false) as ->.
    { destruct (prior_at b i) as [p|]; [|done]. apply N.leb_gt. by apply Hp. }
    cbn [return_if try_bind]. rewrite E1. cbn [try_bind]. rewrite E2. cbn [try_bind]. rewrite E3. cbn [or_bad try_bind].
    rewrite E4. cbn [or_bad try_bind]. rewrite (proj2 (N.ltb_ge _ _) H5). cbn [return_if try_bind]. rewrite E6. cbn [try_bind].
    by rewrite Hload.
Qed.

Lemma opened_base_ok recs :
  length recs = usize count → (∀ i r, recs !! i = Some r → ∃ d, opened_at i r d) → base_ok b recs.
Proof.
  intros Hlen Hrecs. split; [simpl; lia|..].
  - intros i r Hr. destruct (Hrecs _ _ Hr) as [d Ho]. apply Ho.
  - intros i r Hr. destruct (Hrecs _ _ Hr) as [d Ho]. apply Ho.
  - intros i r Hr. destruct (Hrecs _ _ Hr) as [d Ho]. apply Ho.
  - intros i j r r' Hij Hr. revert r'. induction Hij as [|j Hij IH]; intros r' Hr'; destruct (Hrecs _ _ Hr') as [d' Ho'].
    + destruct (Hrecs _ _ Hr) as [d Ho]. apply Ho', Ho.
    + destruct (lookup_lt_is_Some_2 recs j) as [r2 Hr2]; [apply lookup_lt_Some in Hr'; lia|].
      destruct (Hrecs _ _ Hr2) as [d2 Ho2]. specialize (IH _ Hr2). pose proof (oa_prior _ _ _ Ho' _ (oa_logical _ _ _ Ho2)). lia.
  - intros r [i Hr]%list_elem_of_lookup. destruct (Hrecs _ _ Hr) as [d Ho]. exists d. apply Ho.
Qed.

Lemma opened_load recs :
  length recs = usize count → (∀ i r, recs !! i = Some r → ∃ d, opened_at i r d) → base_ok b recs →
  try_foldl (load_record data blob_off limit metadata) (None, ∅) (seq 0 (usize count)) =
    inr (prior_at b (length recs), list_to_map (docs_of recs)).
Proof.
  intros Hlen Hrecs Hb.
  destruct (seq_loop_run (load_record data blob_off limit metadata)
    (λ n st, st = (prior_at b n, list_to_map (docs_of (take n recs)))) (usize count) (None, ∅)) as (st & Est & ->); [done|..].
  - intros i st Hi ->. destruct (lookup_lt_is_Some_2 recs i) as [r Hr]; [lia|].
    destruct (Hrecs _ _ Hr) as [d Ho]. rewrite (oa_load _ _ _ Ho). eexists. split; [done|]. simpl. rewrite (oa_logical _ _ _ Ho). f_equal.
    pose proof (docs_of_NoDup Hb) as Hnd. rewrite <-(take_drop_middle _ _ _ Hr), docs_of_app, fmap_app in Hnd.
    rewrite (take_S_r _ _ _ Hr), docs_of_app. unfold docs_of at 3. simpl. rewrite (oa_stored _ _ _ Ho). simpl. symmetry. apply list_to_map_snoc.
    apply NoDup_app in Hnd as (_ & Hnd & _). intros Hin. apply (Hnd _ Hin). unfold docs_of. simpl. rewrite (oa_stored _ _ _ Ho). by left.
  - rewrite Est, take_ge, Hlen by lia. done.
Qed.

Lemma opened_records previous :
  try_foldl (check_query_record data blob_off limit) None (seq 0 (usize count)) = inr previous →
  ∃ recs, base_ok b recs ∧ Forall record_fits recs ∧
    try_foldl (load_record data blob_off limit metadata) (None, ∅) (seq 0 (usize count)) =
      inr (prior_at b (length recs), list_to_map (docs_of recs)).
Proof.
  intros Hr. pose proof (checked_records _ Hr) as Hc.
  destruct (index_choice (λ i r, ∃ d, opened_at i r d) (usize count)) as (recs & Hlen & Hrecs).
  { intros i Hi. destruct (Hc i Hi) as [next Hn]. by apply (opened_record i next). }
  pose proof (opened_base_ok recs Hlen Hrecs) as Hb. exists recs. split; [done|]. split; [|by apply opened_load].
  apply Forall_lookup. intros i r Hi. destruct (Hrecs _ _ Hi) as [d Ho]. apply Ho.
Qed.
End opened.

Lemma open_base_ok data b :
  bytes_ok data → open_lazy_base data = inr b →
  ∃ recs, base_ok b recs ∧ Forall record_fits recs ∧ load_stored_sources (Some data) = inr (list_to_map (docs_of recs)).
Proof.
  intros Hbytes Hr. unfold open_lazy_base in Hr. try_step Hr u1. apply return_if_inv, orb_false_iff in Eu1 as [Hlen%N.ltb_ge Hmagic].
  try_step Hr version. try_step Hr u2. apply return_if_inv, negb_false_iff in Eu2.
  try_step Hr count. try_step Hr blob_off. try_step Hr metadata. try_step Hr previous. injection Hr as <-.
  assert (match metadata with Some m => layout_ok data count m | None => True end) as Hmeta.
  { destruct metadata as [m|]; [|done]. by apply metadata_layout_inv in Emetadata as [_ ?]. }
  destruct (opened_records Hbytes Hmeta _ Eprevious) as (recs & Hb & Hf & Hload). exists recs. split; [done|]. split; [done|].
  unfold load_stored_sources. change (SRC_HEADER + 4) with 20 in Hlen. rewrite (proj2 (N.ltb_ge _ 12)), Hmagic by lia.
  cbn [orb return_if try_bind]. rewrite Eversion. cbn [try_bind]. rewrite Ecount. cbn [try_bind].
  apply N.eqb_eq in Eu2 as ->. change (SOURCES_VERSION =? SOURCES_VERSION_V1) with false. change (SOURCES_VERSION =? SOURCES_VERSION) with true.
  cbv iota. rewrite Eblob_off. cbn [try_bind]. rewrite Emetadata. cbn [try_bind]. by rewrite Hload.
Qed.
