(* ===== verification/SourceCodec.v ===== *)
(** * Round trip of the source file

    Proofs about [SourceFile]: a written file passes every check of the reader, and
    each of its records is read back as the entry it was written from; and a file
    with up to four changed bytes has a wrong checksum. *)

From stdpp Require Import strings.
From S2P Require Import Prelude Text Utf8 Dictionary Crc FramedLog SourceFile.

(** ** The tag codec *)

Definition tag_bytes (kv : rstring * rstring) : list N :=
  le32 (N.of_nat (str_len kv.1)) ++ le32 (N.of_nat (str_len kv.2)) ++ as_bytes kv.1 ++ as_bytes kv.2.

Definition tags_bytes (tags : list (rstring * rstring)) : list N :=
  le32 (N.of_nat (length tags)) ++ mjoin (tag_bytes <$> tags).

Definition tag_small (kv : rstring * rstring) : Prop := N.of_nat (str_len kv.1) ≤ umax 32 ∧ N.of_nat (str_len kv.2) ≤ umax 32.
Definition tag_texts (kv : rstring * rstring) : Prop := rstring_ok kv.1 ∧ rstring_ok kv.2.

Lemma fits_umax w n : n ≤ umax w → fits w n.
Proof. unfold fits, umax. pose proof (N.pow_nonzero 2 w ltac:(done)). lia. Qed.

Lemma encode_source_tags_spec tags out :
  N.of_nat (length tags) ≤ umax 32 → Forall tag_small tags → encode_source_tags tags out = inr (out ++ tags_bytes tags).
Proof.
  intros Hl Hs. unfold encode_source_tags. rewrite (proj2 (N.ltb_ge _ _) Hl). cbn [return_if try_bind]. unfold tags_bytes.
  generalize (le32 (N.of_nat (length tags))) as head. clear Hl. induction Hs as [|[k v] tags [Hk Hv] _ IH] using Forall_ind in out |- *; intros head.
  - simpl. by rewrite app_nil_r.
  - cbn [fst snd] in Hk, Hv. cbn [try_foldl]. unfold encode_source_tag at 1. rewrite (proj2 (N.ltb_ge _ _) Hk), (proj2 (N.ltb_ge _ _) Hv). cbn [return_if try_bind].
    rewrite <-app_assoc, IH. f_equal. unfold tag_bytes at 2. cbn [fmap list_fmap mjoin list_join fst snd]. by rewrite <-!app_assoc.
Qed.

Lemma encode_source_tags_inv tags out out' :
  encode_source_tags tags out = inr out' → N.of_nat (length tags) ≤ umax 32 ∧ Forall tag_small tags.
Proof.
  unfold encode_source_tags. intros Hr. try_step Hr u. apply return_if_inv, N.ltb_ge in Eu. split; [done|].
  revert Hr. generalize (out ++ le32 (N.of_nat (length tags))) as acc. clear Eu. induction tags as [|[k v] tags IH]; intros acc Hr; [done|].
  cbn [try_foldl] in Hr. try_step Hr acc'. unfold encode_source_tag in Eacc'. try_step Eacc' u1. try_step Eacc' u2.
  apply return_if_inv, N.ltb_ge in Eu1. apply return_if_inv, N.ltb_ge in Eu2. constructor; [done|]. by apply (IH acc').
Qed.

Lemma as_bytes_len_fits s w : N.of_nat (str_len s) ≤ umax w → fits w (N.of_nat (length (as_bytes s))).
Proof. apply fits_umax. Qed.

Lemma visit_tag_mid pre kv post tags :
  tag_small kv → tag_texts kv → N.of_nat (length (pre ++ tag_bytes kv ++ post)) ≤ umax 64 →
  visit_tag (pre ++ tag_bytes kv ++ post) (N.of_nat (length pre), tags) = inr (N.of_nat (length (pre ++ tag_bytes kv)), tags ++ [kv]).
Proof.
  destruct kv as [k v]. intros [Hk Hv] [Tk Tv]. unfold tag_bytes. cbn [fst snd] in *.
  pose proof (from_utf8_as_bytes k Tk) as Uk. pose proof (from_utf8_as_bytes v Tv) as Uv.
  set (kb := as_bytes k) in *. set (vb := as_bytes v) in *. unfold str_len in *. fold kb vb in Hk, Hv |- *. rewrite !length_app, !length_le32. intros Hlen.
  unfold visit_tag. rewrite <-!app_assoc.
  rewrite (read_u32_mid pre) by (done || by apply fits_umax). cbn [try_bind]. rewrite checked_add_ok by lia. cbn [or_bad try_bind].
  rewrite (app_assoc pre (le32 (N.of_nat (length kb)))).
  rewrite (read_u32_mid (pre ++ le32 (N.of_nat (length kb)))) by (rewrite ?length_app, ?length_le32; lia || by apply fits_umax). cbn [try_bind].
  rewrite checked_add_ok by lia. cbn [or_bad try_bind]. rewrite checked_add_ok by lia. cbn [or_bad try_bind].
  rewrite (app_assoc (pre ++ _) (le32 (N.of_nat (length vb)))).
  rewrite (get_range_mid _ kb) by (rewrite !length_app, !length_le32; lia). cbn [mbind option_bind]. rewrite Uk.
  cbn [or_bad try_bind]. rewrite checked_add_ok by lia. cbn [or_bad try_bind].
  rewrite (app_assoc (_ ++ le32 (N.of_nat (length vb))) kb).
  rewrite (get_range_mid _ vb) by (rewrite !length_app, !length_le32; lia). cbn [mbind option_bind]. rewrite Uv.
  cbn [or_bad try_bind]. do 2 f_equal. lia.
Qed.

Lemma mjoin_fmap_cons {A B} (f : A → list B) x l : mjoin (f <$> x :: l) = f x ++ mjoin (f <$> l).
Proof. done. Qed.

Lemma visit_tags_mid (l : list nat) tags pre done_ :
  length l = length tags → Forall tag_small tags → Forall tag_texts tags →
  N.of_nat (length (pre ++ mjoin (tag_bytes <$> tags))) ≤ umax 64 →
  try_foldl (λ st _, visit_tag (pre ++ mjoin (tag_bytes <$> tags)) st) (N.of_nat (length pre), done_) l
  = inr (N.of_nat (length (pre ++ mjoin (tag_bytes <$> tags))), done_ ++ tags).
Proof.
  revert l pre done_. induction tags as [|kv tags IH]; intros [|x l] pre done_ Hl Hs Ht Hlen; try done.
  { simpl. by rewrite !app_nil_r. }
  apply Forall_cons in Hs as [Hk Hs]. apply Forall_cons in Ht as [Tk Ht]. cbn [fmap list_fmap mjoin list_join try_foldl] in *.
  rewrite visit_tag_mid by done. cbn [try_bind]. rewrite (app_assoc pre) in Hlen |- *. rewrite IH; [by rewrite <-(app_assoc done_)|simpl in Hl; lia|done..].
Qed.

Lemma length_tag_bytes kv : (8 ≤ length (tag_bytes kv))%nat.
Proof. unfold tag_bytes. rewrite !length_app, !length_le32. lia. Qed.

Lemma length_tags tags : (8 * length tags ≤ length (mjoin (tag_bytes <$> tags)))%nat.
Proof.
  induction tags as [|kv tags IH]; [done|]. rewrite mjoin_fmap_cons, length_app. cbn [length].
  pose proof (length_tag_bytes kv). lia.
Qed.

Lemma visit_tags_bytes tags :
  N.of_nat (length tags) ≤ umax 32 → Forall tag_small tags → Forall tag_texts tags → N.of_nat (length (tags_bytes tags)) ≤ umax 64 →
  visit_encoded_tags (tags_bytes tags) = inr tags.
Proof.
  intros Hn Hs Ht Hlen. pose proof (length_tags tags) as H8. unfold visit_encoded_tags, encoded_tag_count.
  assert (length (tags_bytes tags) = (4 + length (mjoin (tag_bytes <$> tags)))%nat) as El by (unfold tags_bytes; by rewrite length_app).
  rewrite (proj2 (N.ltb_ge _ 4)) by lia. cbn [return_if try_bind].
  assert (read_u32_at (tags_bytes tags) 0 = inr (N.of_nat (length tags))) as -> by (apply (read_u32_mid []); [done|by apply fits_umax]).
  cbn [try_bind]. rewrite (proj2 (N.ltb_ge _ _)) by (rewrite El; unfold sat_sub; apply N.div_le_lower_bound; lia). cbn [return_if try_bind].
  pose proof (visit_tags_mid (seq 0 (usize (N.of_nat (length tags)))) tags (le32 (N.of_nat (length tags))) []) as Hv.
  fold (tags_bytes tags) in Hv. rewrite length_le32 in Hv. change (N.of_nat 4) with 4 in Hv. rewrite Hv; [|rewrite length_seq; lia|done..].
  cbn [try_bind fst snd]. by rewrite N.eqb_refl.
Qed.

Lemma tag_bytes_ok kv : tag_texts kv → bytes_ok (tag_bytes kv).
Proof.
  intros [Tk Tv]. unfold tag_bytes. repeat (apply Forall_app; split); first [apply le32_ok|by apply as_bytes_ok].
Qed.

Lemma mjoin_ok {A} (f : A → list N) l : (∀ x, x ∈ l → bytes_ok (f x)) → bytes_ok (mjoin (f <$> l)).
Proof.
  induction l as [|x l IH]; intros Hf; [constructor|]. cbn [fmap list_fmap mjoin list_join]. apply Forall_app. split; [apply Hf; by left|].
  apply IH. intros y Hy. apply Hf. by right.
Qed.

Lemma tags_bytes_ok tags : Forall tag_texts tags → bytes_ok (tags_bytes tags).
Proof.
  intros Ht. unfold tags_bytes. apply Forall_app. split; [apply le32_ok|].
  apply mjoin_ok. intros kv Hkv. rewrite Forall_forall in Ht. by apply tag_bytes_ok, Ht.
Qed.

(** ** Only encodings decode *)

Lemma le32_of_value bytes : bytes_ok bytes → length bytes = 4%nat → le32 (le_value bytes) = bytes.
Proof.
  intros Hb Hl. rewrite le32_bytes. apply le_value_inj; [apply le_bytes_ok|done|by rewrite length_le_bytes|].
  rewrite le_value_bytes; [done|]. unfold fits. change 4%nat with (4)%nat. rewrite <-Hl. by apply le_value_bound.
Qed.

Lemma get_range_join data a b c p q :
  get_range data a b = Some p → get_range data b c = Some q → get_range data a c = Some (p ++ q).
Proof.
  unfold get_range. intros Hp Hq. repeat case_match; try done; try (rewrite ?andb_true_iff, ?andb_false_iff, ?N.leb_le, ?N.leb_gt in *; lia).
  injection Hp as <-. injection Hq as <-. rewrite !andb_true_iff, !N.leb_le in *. f_equal.
  replace (usize b) with (usize a + usize (b - a))%nat by lia. rewrite <-drop_drop, take_take_drop. f_equal. lia.
Qed.

Lemma read_u32_range data off v : bytes_ok data → read_u32_at data off = inr v →
  get_range data off (off + 4) = Some (le32 v) ∧ v ≤ umax 32.
Proof.
  intros Hb Hr. split.
  - unfold read_u32_at, read_at in Hr. destruct (get_range data off (off + 4)) as [bytes|] eqn:E; [|done]. injection Hr as <-.
    apply get_range_inv in E as (_ & _ & Hl & pre & post & ->). rewrite le32_of_value; [done| |lia].
    apply Forall_app in Hb as [_ Hb]. by apply Forall_app in Hb as [? _].
  - apply (read_at_fits Hb 4) in Hr. unfold fits in Hr. change (2 ^ (8 * 4)) with 4294967296 in Hr. change (umax 32) with 4294967295. lia.
Qed.

Lemma utf8_range data a b s : get_range data a b ≫= from_utf8 = Some s →
  get_range data a b = Some (as_bytes s) ∧ rstring_ok s ∧ N.of_nat (str_len s) = b - a.
Proof.
  intros (bytes & E & [Hok <-]%from_utf8_sound)%bind_Some. split; [done|]. split; [done|]. by apply get_range_inv in E as (_ & _ & ? & _).
Qed.

Lemma visit_tag_inv data cursor tags cursor' tags' :
  bytes_ok data → visit_tag data (cursor, tags) = inr (cursor', tags') →
  ∃ kv, tags' = tags ++ [kv] ∧ tag_small kv ∧ tag_texts kv ∧ get_range data cursor cursor' = Some (tag_bytes kv).
Proof.
  intros Hb Hr. unfold visit_tag in Hr. try_step Hr kl. try_step Hr c1. try_step Hr vl. try_step Hr c2. try_step Hr ke. try_step Hr k.
  try_step Hr ve. try_step Hr v. injection Hr as <- <-.
  apply or_bad_inv in Ec1, Ec2, Eke, Eve, Ek, Ev. unfold checked_add in Ec1, Ec2, Eke, Eve. repeat case_match; try done. simplify_eq.
  apply read_u32_range in Ekl as [Gk Hk]; [|done]. apply read_u32_range in Evl as [Gv Hv]; [|done].
  apply utf8_range in Ek as (Gkb & Tk & Lk). apply utf8_range in Ev as (Gvb & Tv & Lv).
  exists (k, v). split; [done|]. split; [split; simpl; lia|]. split; [done|]. unfold tag_bytes. cbn [fst snd].
  replace (N.of_nat (str_len k)) with kl by lia. replace (N.of_nat (str_len v)) with vl by lia.
  repeat (eapply get_range_join; [done|]). done.
Qed.

Lemma visit_encoded_tags_inv data tags :
  bytes_ok data → visit_encoded_tags data = inr tags →
  data = tags_bytes tags ∧ N.of_nat (length tags) ≤ umax 32 ∧ Forall tag_small tags ∧ Forall tag_texts tags.
Proof.
  intros Hb Hr. unfold visit_encoded_tags in Hr. try_step Hr count. try_step Hr r. try_step Hr u. apply return_if_inv, negb_false_iff, N.eqb_eq in Eu.
  injection Hr as <-. unfold encoded_tag_count in Ecount. try_step Ecount u1. try_step Ecount c. try_step Ecount u2. injection Ecount as <-.
  apply read_u32_range in Ec as [G0 Hc]; [|done].
  apply (seq_loop_inv _ (λ k st, length st.2 = k ∧ Forall tag_small st.2 ∧ Forall tag_texts st.2 ∧
    get_range data 0 st.1 = Some (le32 c ++ mjoin (tag_bytes <$> st.2)))) in Er.
  - destruct Er as (Hn & Hs & Ht & G). rewrite Eu in G. assert (N.of_nat (length r.2) = c) as En by lia.
    split; [|split; [lia|done]]. unfold tags_bytes. rewrite En. unfold get_range in G.
    rewrite N.leb_refl, (proj2 (N.leb_le 0 _)) in G by lia. apply (inj Some) in G. rewrite <-G, drop_0, N.sub_0_r, Nat2N.id. symmetry. by apply take_ge.
  - rewrite app_nil_r. done.
  - intros i [cur done_] [cur' done'] _ (Hn & Hs & Ht & G) Hv. apply visit_tag_inv in Hv as (kv & -> & Hk & Tk & Gk); [|done].
    cbn [fst snd] in *. rewrite length_app. split; [simpl; lia|]. split; [apply Forall_app; auto|]. split; [apply Forall_app; auto|].
    rewrite (get_range_join _ _ _ _ _ _ G Gk), fmap_app, join_app, <-app_assoc. by rewrite mjoin_fmap_cons, app_nil_r.
Qed.

(** ** The written file *)

Definition encoded_of (t : TagsRef) : list N := match t with Decoded tags => tags_bytes tags | Encoded bytes => bytes end.

(** An entry whose fields have the source's types and whose encoded tags decode. *)
Definition entry_fits (e : SourceEntryRef) : Prop :=
  fits 64 (se_logical e) ∧ rstring_ok (se_query e) ∧ fits 32 (se_version e) ∧ fits 64 (se_source_generation e) ∧
  match se_tags e with
  | Decoded tags => Forall tag_texts tags
  | Encoded bytes => bytes_ok bytes ∧ is_Some (ok (decode_source_tags bytes))
  end.

(** The sizes the format has room for. *)
Definition tags_room (t : TagsRef) : Prop :=
  N.of_nat (length (encoded_of t)) ≤ umax 32 ∧
  match t with Decoded tags => N.of_nat (length tags) ≤ umax 32 ∧ Forall tag_small tags | Encoded _ => True end.
Definition entry_room (e : SourceEntryRef) : Prop := N.of_nat (str_len (se_query e)) ≤ umax 32 ∧ tags_room (se_tags e).

Definition query_blob_of (entries : list SourceEntryRef) : list N := mjoin ((λ e, as_bytes (se_query e)) <$> entries).
Definition metadata_blob_of (entries : list SourceEntryRef) : list N := mjoin ((λ e, encoded_of (se_tags e)) <$> entries).

Fixpoint query_records_of (off : N) (entries : list SourceEntryRef) : list (N * N * N) :=
  match entries with
  | [] => []
  | e :: rest =>
      let len := N.of_nat (str_len (se_query e)) in
      (se_logical e, off, len) :: query_records_of (off + len) rest
  end.

Fixpoint metadata_records_of (off : N) (entries : list SourceEntryRef) : list (N * N * N * N * N) :=
  match entries with
  | [] => []
  | e :: rest =>
      let len := N.of_nat (length (encoded_of (se_tags e))) in
      (source_flags (se_tags_known e) (se_metadata_known e), se_version e, se_source_generation e, off, len)
        :: metadata_records_of (off + len) rest
  end.

Lemma write_entry_spec w e :
  entry_room e →
  write_entry w e = inr (mkSourceWriter (sw_query_blob w ++ as_bytes (se_query e)) (sw_metadata_blob w ++ encoded_of (se_tags e))
    (sw_query_records w ++ [(se_logical e, N.of_nat (length (sw_query_blob w)), N.of_nat (str_len (se_query e)))])
    (sw_metadata_records w ++ [(source_flags (se_tags_known e) (se_metadata_known e), se_version e, se_source_generation e,
      N.of_nat (length (sw_metadata_blob w)), N.of_nat (length (encoded_of (se_tags e))))])).
Proof.
  intros [Hq [Hl Ht]]. unfold write_entry. rewrite (proj2 (N.ltb_ge _ _) Hq). cbn [return_if try_bind].
  assert ((match se_tags e with
    | Decoded tags => encode_source_tags tags (sw_metadata_blob w)
    | Encoded encoded => inr (sw_metadata_blob w ++ encoded)
    end) = inr (sw_metadata_blob w ++ encoded_of (se_tags e))) as ->.
  { destruct (se_tags e); [|done]. destruct Ht. by apply encode_source_tags_spec. }
  cbn [try_bind]. rewrite length_app.
  replace (N.of_nat (length (sw_metadata_blob w) + length (encoded_of (se_tags e))) - N.of_nat (length (sw_metadata_blob w)))
    with (N.of_nat (length (encoded_of (se_tags e)))) by lia.
  rewrite (proj2 (N.ltb_ge _ _) Hl). done.
Qed.

Lemma write_entry_inv w e w' : write_entry w e = inr w' → entry_room e.
Proof.
  unfold write_entry. intros Hr. try_step Hr u. apply return_if_inv, N.ltb_ge in Eu. try_step Hr mb. try_step Hr u2.
  apply return_if_inv, N.ltb_ge in Eu2. split; [done|]. unfold tags_room. destruct (se_tags e) as [tags|bytes].
  - pose proof (encode_source_tags_inv _ _ _ Emb) as [Hn Hs]. rewrite encode_source_tags_spec in Emb by done. injection Emb as <-.
    rewrite length_app in Eu2. split; [cbn [encoded_of]; lia|done].
  - injection Emb as <-. rewrite length_app in Eu2. split; [cbn [encoded_of]; lia|done].
Qed.

Lemma write_entries_spec entries w :
  Forall entry_room entries →
  try_foldl write_entry w entries = inr (mkSourceWriter (sw_query_blob w ++ query_blob_of entries) (sw_metadata_blob w ++ metadata_blob_of entries)
    (sw_query_records w ++ query_records_of (N.of_nat (length (sw_query_blob w))) entries)
    (sw_metadata_records w ++ metadata_records_of (N.of_nat (length (sw_metadata_blob w))) entries)).
Proof.
  intros Hr. revert w. induction Hr as [|e entries He _ IH]; intros w.
  - simpl. unfold query_blob_of, metadata_blob_of. simpl. rewrite !app_nil_r. by destruct w.
  - cbn [try_foldl]. rewrite write_entry_spec by done. cbn [try_bind]. rewrite IH.
    cbn [sw_query_blob sw_metadata_blob sw_query_records sw_metadata_records]. f_equal.
    unfold query_blob_of, metadata_blob_of. cbn [fmap list_fmap mjoin list_join query_records_of metadata_records_of].
    rewrite <-!app_assoc, !length_app, !Nat2N.inj_add. done.
Qed.

Lemma write_entries_inv entries w w' : try_foldl write_entry w entries = inr w' → Forall entry_room entries.
Proof.
  revert w. induction entries as [|e entries IH]; intros w Hr; [done|]. cbn [try_foldl] in Hr. try_step Hr w1.
  constructor; [by eapply write_entry_inv|by eapply IH].
Qed.

(** ** Places in the file *)

Lemma mjoin_at {A B} (f : A → list B) l i x :
  l !! i = Some x → mjoin (f <$> l) = mjoin (f <$> take i l) ++ f x ++ mjoin (f <$> drop (S i) l).
Proof.
  intros Hx. rewrite <-(take_drop_middle l i x Hx) at 1. by rewrite fmap_app, join_app, mjoin_fmap_cons.
Qed.

Lemma length_mjoin_const {A B} (f : A → list B) k l : (∀ x, length (f x) = k) → length (mjoin (f <$> l)) = (length l * k)%nat.
Proof. intros Hf. induction l as [|x l IH]; [done|]. rewrite mjoin_fmap_cons, length_app, IH, Hf. simpl. lia. Qed.

Lemma length_query_record r : length (query_record_bytes r) = 24%nat.
Proof. by destruct r as [[? ?] ?]. Qed.

Lemma length_metadata_record r : length (metadata_record_bytes r) = 32%nat.
Proof. by destruct r as [[[[? ?] ?] ?] ?]. Qed.

Lemma query_records_lookup off entries i e :
  entries !! i = Some e →
  query_records_of off entries !! i = Some (se_logical e, off + N.of_nat (length (query_blob_of (take i entries))), N.of_nat (str_len (se_query e))).
Proof.
  revert off i. induction entries as [|x entries IH]; intros off [|i] He; simplify_eq/=.
  - by rewrite N.add_0_r.
  - rewrite (IH _ _ He). unfold query_blob_of. rewrite mjoin_fmap_cons, length_app, Nat2N.inj_add, N.add_assoc. done.
Qed.

Lemma metadata_records_lookup off entries i e :
  entries !! i = Some e →
  metadata_records_of off entries !! i =
    Some (source_flags (se_tags_known e) (se_metadata_known e), se_version e, se_source_generation e,
      off + N.of_nat (length (metadata_blob_of (take i entries))), N.of_nat (length (encoded_of (se_tags e)))).
Proof.
  revert off i. induction entries as [|x entries IH]; intros off [|i] He; simplify_eq/=.
  - by rewrite N.add_0_r.
  - rewrite (IH _ _ He). unfold metadata_blob_of. rewrite mjoin_fmap_cons, length_app, Nat2N.inj_add, N.add_assoc. done.
Qed.

Lemma length_query_records off entries : length (query_records_of off entries) = length entries.
Proof. revert off. induction entries as [|e entries IH]; intros off; simpl; [done|]. by rewrite IH. Qed.

Lemma length_metadata_records off entries : length (metadata_records_of off entries) = length entries.
Proof. revert off. induction entries as [|e entries IH]; intros off; simpl; [done|]. by rewrite IH. Qed.

Lemma query_record_reads a l o n c at_ :
  at_ = N.of_nat (length a) → fits 64 l → fits 64 o → fits 32 n →
  let data := a ++ query_record_bytes (l, o, n) ++ c in
  read_u64_at data at_ = inr l ∧ read_u64_at data (at_ + 8) = inr o ∧ read_u32_at data (at_ + 16) = inr n.
Proof.
  intros -> Hl Ho Hn. cbv zeta. unfold query_record_bytes. rewrite <-!app_assoc. split; [by apply read_u64_mid|]. split.
  - rewrite (app_assoc a). apply read_u64_mid; [rewrite length_app; cbn; lia|done].
  - rewrite (app_assoc a), (app_assoc _ (le64 o)). apply read_u32_mid; [rewrite !length_app; cbn; lia|done].
Qed.

Lemma metadata_record_reads a f v g o n c at_ :
  at_ = N.of_nat (length a) → fits 32 f → fits 32 v → fits 64 g → fits 64 o → fits 32 n →
  let data := a ++ metadata_record_bytes (f, v, g, o, n) ++ c in
  read_u32_at data at_ = inr f ∧ read_u32_at data (at_ + 4) = inr v ∧ read_u64_at data (at_ + 8) = inr g ∧
  read_u64_at data (at_ + 16) = inr o ∧ read_u32_at data (at_ + 24) = inr n.
Proof.
  intros -> Hf Hv Hg Ho Hn. cbv zeta. unfold metadata_record_bytes. rewrite <-!app_assoc. split; [by apply read_u32_mid|].
  rewrite (app_assoc a). split; [apply read_u32_mid; [rewrite length_app; cbn; lia|done]|].
  rewrite (app_assoc _ (le32 v)). split; [apply read_u64_mid; [rewrite !length_app; cbn; lia|done]|].
  rewrite (app_assoc _ (le64 g)). split; [apply read_u64_mid; [rewrite !length_app; cbn; lia|done]|].
  rewrite (app_assoc _ (le64 o)). apply read_u32_mid; [rewrite !length_app; cbn; lia|done].
Qed.

(** ** The file of a list of entries *)

Definition file_head (entries : list SourceEntryRef) : list N :=
  SOURCES_MAGIC ++ le32 SOURCES_VERSION ++ le32 (N.of_nat (length entries)) ++ le32 META_HEADER_MARKER.

Definition file_front (entries : list SourceEntryRef) : list N :=
  file_head entries ++
  mjoin (query_record_bytes <$> query_records_of 0 entries) ++ query_blob_of entries.

Definition file_body (entries : list SourceEntryRef) : list N :=
  file_front entries ++ mjoin (metadata_record_bytes <$> metadata_records_of 0 entries) ++ metadata_blob_of entries ++
  META_MAGIC ++ le32 META_VERSION ++ le64 (N.of_nat (length (file_front entries))).

Definition file_of (entries : list SourceEntryRef) : list N := file_body entries ++ le32 (crc32 (file_body entries)).

Lemma write_sources_spec entries :
  Forall entry_room entries → N.of_nat (length entries) ≤ umax 32 → write_sources_v2 entries = inr (file_of entries).
Proof.
  intros Hr Hn. unfold write_sources_v2. rewrite (proj2 (N.ltb_ge _ _) Hn). cbn [return_if try_bind].
  rewrite write_entries_spec by done. cbn [try_bind sw_query_blob sw_metadata_blob sw_query_records sw_metadata_records length app].
  unfold file_of, file_body, file_front, file_head. rewrite <-!app_assoc. done.
Qed.

Lemma write_sources_inv entries file :
  write_sources_v2 entries = inr file → Forall entry_room entries ∧ N.of_nat (length entries) ≤ umax 32 ∧ file = file_of entries.
Proof.
  intros Hw. pose proof Hw as Hr. unfold write_sources_v2 in Hr. try_step Hr u. apply return_if_inv, N.ltb_ge in Eu. try_step Hr w.
  apply write_entries_inv in Ew. rewrite write_sources_spec in Hw by done. injection Hw as <-. done.
Qed.

(** The record read back for an entry. *)
Definition record_of (e : SourceEntryRef) : SourceRecord :=
  mkSourceRecord (se_logical e) (se_query e) (se_version e) (se_source_generation e) (se_tags_known e) (se_metadata_known e)
    (Some (encoded_of (se_tags e))).

Lemma entry_tags_decode e : entry_room e → entry_fits e → is_Some (ok (decode_source_tags (encoded_of (se_tags e)))).
Proof.
  intros [_ [Hl Ht]] (_ & _ & _ & _ & Hf). unfold encoded_of in *. destruct (se_tags e) as [tags|bytes]; [|by destruct Hf].
  destruct Ht as [Ht Hs]. rewrite decode_source_tags_visit, visit_tags_bytes; [eauto|done..|]. change (umax 64) with 18446744073709551615.
  change (umax 32) with 4294967295 in Hl. lia.
Qed.

Section written.
Context (entries : list SourceEntryRef).
Context (Hroom : Forall entry_room entries) (Hfits : Forall entry_fits entries).
Context (Hn : N.of_nat (length entries) ≤ umax 32) (Hlen : N.of_nat (length (file_of entries)) ≤ umax 64).
Context (Hsorted : ∀ i j e e', (i < j)%nat → entries !! i = Some e → entries !! j = Some e' → se_logical e < se_logical e').

Let n := N.of_nat (length entries).
Let file := file_of entries.
Let qoff := SRC_HEADER + n * SRC_IDX_REC.
Let dir := N.of_nat (length (file_front entries)).
Let layout := mkMetadataLayout META_VERSION META_IDX_REC dir (dir + n * META_IDX_REC).
Let base := mkLazyBase file SRC_HEADER n qoff (Some layout).

Lemma entry_at i e : entries !! i = Some e → entry_room e ∧ entry_fits e.
Proof. intros He. split; [by apply (Forall_lookup_1 _ _ _ _ Hroom He)|by apply (Forall_lookup_1 _ _ _ _ Hfits He)]. Qed.

Lemma length_front : dir = qoff + N.of_nat (length (query_blob_of entries)).
Proof.
  unfold dir, qoff, file_front, n. rewrite !length_app, (length_mjoin_const _ 24), length_query_records by apply length_query_record.
  change (length (file_head entries)) with 16%nat. change SRC_HEADER with 16. change SRC_IDX_REC with 24. lia.
Qed.

Lemma length_file : N.of_nat (length file) = dir + n * META_IDX_REC + N.of_nat (length (metadata_blob_of entries)) + 20.
Proof.
  unfold file, file_of, file_body, dir, n. rewrite !length_app, (length_mjoin_const _ 32), length_metadata_records by apply length_metadata_record.
  rewrite !length_le32. change (length (le64 _)) with 8%nat. change (length META_MAGIC) with 4%nat. change META_IDX_REC with 32. lia.
Qed.

Lemma blob_prefix {A} (f : A → list N) (l : list A) i x : l !! i = Some x →
  (length (mjoin (f <$> take i l)) + length (f x) ≤ length (mjoin (f <$> l)))%nat.
Proof. intros Hx. rewrite (mjoin_at f l i x Hx), !length_app. lia. Qed.

Lemma file_starts : ∃ rest, file = file_front entries ++ rest.
Proof. unfold file, file_of, file_body. rewrite <-!app_assoc. eauto. Qed.

Lemma index_place i e : entries !! i = Some e → ∃ a c,
  file = a ++ query_record_bytes (se_logical e, N.of_nat (length (query_blob_of (take i entries))), N.of_nat (str_len (se_query e))) ++ c ∧
  SRC_HEADER + N.of_nat i * SRC_IDX_REC = N.of_nat (length a).
Proof.
  intros He. destruct file_starts as [rest ->]. unfold file_front.
  rewrite (mjoin_at query_record_bytes _ i _ (query_records_lookup 0 entries i e He)), N.add_0_l.
  exists (file_head entries ++ mjoin (query_record_bytes <$> take i (query_records_of 0 entries))),
    (mjoin (query_record_bytes <$> drop (S i) (query_records_of 0 entries)) ++ query_blob_of entries ++ rest).
  rewrite <-!app_assoc. split; [done|].
  rewrite !length_app, (length_mjoin_const _ 24), length_take, length_query_records by apply length_query_record.
  apply lookup_lt_Some in He. change (length (file_head entries)) with 16%nat. change SRC_HEADER with 16. change SRC_IDX_REC with 24. lia.
Qed.

Lemma text_place i e : entries !! i = Some e → ∃ a c,
  file = a ++ as_bytes (se_query e) ++ c ∧ qoff + N.of_nat (length (query_blob_of (take i entries))) = N.of_nat (length a).
Proof.
  intros He. destruct file_starts as [rest ->]. unfold file_front.
  unfold query_blob_of at 1. rewrite (mjoin_at _ _ i e He).
  exists (file_head entries ++ mjoin (query_record_bytes <$> query_records_of 0 entries) ++ query_blob_of (take i entries)),
    (query_blob_of (drop (S i) entries) ++ rest).
  rewrite <-!app_assoc. split; [done|].
  rewrite !length_app, (length_mjoin_const query_record_bytes 24), length_query_records by apply length_query_record.
  change (length (file_head entries)) with 16%nat. unfold qoff, n. change SRC_HEADER with 16. change SRC_IDX_REC with 24. lia.
Qed.

Lemma file_continues : ∃ rest,
  file = file_front entries ++ mjoin (metadata_record_bytes <$> metadata_records_of 0 entries) ++ metadata_blob_of entries ++ rest.
Proof. unfold file, file_of, file_body. rewrite <-!app_assoc. eauto. Qed.

Lemma metadata_place i e : entries !! i = Some e → ∃ a c,
  file = a ++ metadata_record_bytes (source_flags (se_tags_known e) (se_metadata_known e), se_version e, se_source_generation e,
    N.of_nat (length (metadata_blob_of (take i entries))), N.of_nat (length (encoded_of (se_tags e)))) ++ c ∧
  dir + N.of_nat i * META_IDX_REC = N.of_nat (length a).
Proof.
  intros He. destruct file_continues as [rest ->].
  rewrite (mjoin_at metadata_record_bytes _ i _ (metadata_records_lookup 0 entries i e He)), N.add_0_l.
  exists (file_front entries ++ mjoin (metadata_record_bytes <$> take i (metadata_records_of 0 entries))),
    (mjoin (metadata_record_bytes <$> drop (S i) (metadata_records_of 0 entries)) ++ metadata_blob_of entries ++ rest).
  rewrite <-!app_assoc. split; [done|].
  rewrite !length_app, (length_mjoin_const _ 32), length_take, length_metadata_records by apply length_metadata_record.
  apply lookup_lt_Some in He. unfold dir. change META_IDX_REC with 32. lia.
Qed.

Lemma tags_place i e : entries !! i = Some e → ∃ a c,
  file = a ++ encoded_of (se_tags e) ++ c ∧
  dir + n * META_IDX_REC + N.of_nat (length (metadata_blob_of (take i entries))) = N.of_nat (length a).
Proof.
  intros He. destruct file_continues as [rest ->]. unfold metadata_blob_of at 1. rewrite (mjoin_at _ _ i e He).
  exists (file_front entries ++ mjoin (metadata_record_bytes <$> metadata_records_of 0 entries) ++ metadata_blob_of (take i entries)),
    (metadata_blob_of (drop (S i) entries) ++ rest).
  rewrite <-!app_assoc. split; [done|].
  rewrite !length_app, (length_mjoin_const metadata_record_bytes 32), length_metadata_records by apply length_metadata_record.
  unfold dir, n. change META_IDX_REC with 32. lia.
Qed.

(** The index record of an entry and the query text it points to. *)
Lemma written_query i e : entries !! i = Some e →
  let rec := SRC_HEADER + N.of_nat i * SRC_IDX_REC in
  let off := N.of_nat (length (query_blob_of (take i entries))) in
  let len := N.of_nat (str_len (se_query e)) in
  read_u64_at file rec = inr (se_logical e) ∧ read_u64_at file (rec + 8) = inr off ∧ read_u32_at file (rec + 16) = inr len ∧
  checked_add 64 qoff off = Some (qoff + off) ∧ checked_add 64 (qoff + off) len = Some (qoff + off + len) ∧ qoff + off + len ≤ dir ∧
  get_range file (qoff + off) (qoff + off + len) = Some (as_bytes (se_query e)).
Proof.
  intros He rec off len. destruct (entry_at i e He) as [[Hq _] (Hl & _ & _ & _ & _)].
  pose proof (blob_prefix (λ e, as_bytes (se_query e)) _ _ _ He) as Hp. fold (query_blob_of (take i entries)) (query_blob_of entries) in Hp.
  cbv beta in Hp. fold (str_len (se_query e)) in Hp. pose proof length_front as Hd. pose proof length_file as Hf.
  fold file in Hlen. assert (fits 64 off) as Hoff by (apply fits_umax; unfold off; lia).
  destruct (index_place i e He) as (a & c & Ea & Hra). fold rec off len in Ea, Hra.
  destruct (query_record_reads a (se_logical e) off len c rec Hra Hl Hoff ltac:(by apply fits_umax)) as (R1 & R2 & R3). rewrite <-Ea in R1, R2, R3.
  split_and!; [done..| | |unfold off, len; lia|].
  - apply checked_add_ok. unfold off. lia.
  - apply checked_add_ok. unfold off, len. lia.
  - destruct (text_place i e He) as (a' & c' & Ea' & Hra'). rewrite Ea'. by apply get_range_mid.
Qed.

(** The metadata record of an entry and the tags it points to. *)
Lemma written_metadata i e : entries !! i = Some e →
  let rec := dir + N.of_nat i * META_IDX_REC in
  let off := N.of_nat (length (metadata_blob_of (take i entries))) in
  let len := N.of_nat (length (encoded_of (se_tags e))) in
  let blob := dir + n * META_IDX_REC in
  read_u32_at file rec = inr (source_flags (se_tags_known e) (se_metadata_known e)) ∧ read_u32_at file (rec + 4) = inr (se_version e) ∧
  read_u64_at file (rec + 8) = inr (se_source_generation e) ∧ tags_range file META_VERSION rec = inr (off, len) ∧
  checked_add 64 blob off = Some (blob + off) ∧ checked_add 64 (blob + off) len = Some (blob + off + len) ∧
  blob + off + len + 20 ≤ N.of_nat (length file) ∧ get_range file (blob + off) (blob + off + len) = Some (encoded_of (se_tags e)).
Proof.
  intros He rec off len blob. destruct (entry_at i e He) as [[_ [Hm _]] (_ & _ & Hv & Hg & _)].
  pose proof (blob_prefix (λ e, encoded_of (se_tags e)) _ _ _ He) as Hp. fold (metadata_blob_of (take i entries)) (metadata_blob_of entries) in Hp.
  cbv beta in Hp. pose proof length_file as Hf. fold file in Hlen. assert (fits 64 off) as Hoff by (apply fits_umax; unfold off; lia).
  destruct (metadata_place i e He) as (a & c & Ea & Hra). fold rec off len in Ea, Hra.
  destruct (metadata_record_reads a (source_flags (se_tags_known e) (se_metadata_known e)) (se_version e) (se_source_generation e) off len c rec Hra
    ltac:(by destruct (se_tags_known e), (se_metadata_known e)) Hv Hg Hoff ltac:(by apply fits_umax)) as (R1 & R2 & R3 & R4 & R5).
  rewrite <-Ea in R1, R2, R3, R4, R5. split_and!; [done|done|done| | | |unfold blob, off, len; lia|].
  - unfold tags_range. change (META_VERSION =? META_VERSION_V1) with false. rewrite R4. cbn [try_bind]. by rewrite R5.
  - apply checked_add_ok. unfold blob, off. lia.
  - apply checked_add_ok. unfold blob, off, len. lia.
  - destruct (tags_place i e He) as (a' & c' & Ea' & Hra'). rewrite Ea'. by apply get_range_mid.
Qed.
Lemma written_check i : (i < length entries)%nat →
  check_metadata_record file META_VERSION META_IDX_REC dir (dir + n * META_IDX_REC) (N.of_nat (length file) - 20) i = inr tt.
Proof.
  intros [e He]%lookup_lt_is_Some_2. destruct (written_metadata i e He) as (_ & _ & _ & R & C1 & C2 & Hl & G).
  unfold check_metadata_record. rewrite R. cbn [try_bind fst snd]. rewrite C1. cbn [or_bad try_bind]. rewrite C2. cbn [or_bad try_bind].
  rewrite (proj2 (N.ltb_ge _ _)) by lia. cbn [return_if try_bind]. rewrite G. cbn [or_bad try_bind]. unfold validate_encoded_tags.
  destruct (entry_at i e He) as [Hr Hf]. destruct (entry_tags_decode e Hr Hf) as [tags Ht]. rewrite decode_source_tags_visit in Ht.
  by destruct (visit_encoded_tags (encoded_of (se_tags e))).
Qed.

Lemma file_ends : ∃ pre crc,
  file = pre ++ META_MAGIC ++ le32 META_VERSION ++ le64 dir ++ le32 crc ∧ N.of_nat (length pre) = N.of_nat (length file) - 20.
Proof.
  exists (file_front entries ++ mjoin (metadata_record_bytes <$> metadata_records_of 0 entries) ++ metadata_blob_of entries), (crc32 (file_body entries)).
  assert (file = (file_front entries ++ mjoin (metadata_record_bytes <$> metadata_records_of 0 entries) ++ metadata_blob_of entries) ++
    META_MAGIC ++ le32 META_VERSION ++ le64 dir ++ le32 (crc32 (file_body entries))) as E.
  { unfold file, file_of, file_body at 1. rewrite <-!app_assoc. done. }
  split; [done|]. rewrite E. rewrite !length_app, !length_le32. change (length (le64 _)) with 8%nat. change (length META_MAGIC) with 4%nat. lia.
Qed.

Lemma written_layout : metadata_layout file n qoff = inr (Some layout).
Proof.
  unfold metadata_layout. destruct file_starts as [rest Es].
  assert (read_u32_at file 12 = inr META_HEADER_MARKER) as ->.
  { rewrite Es. unfold file_front, file_head. rewrite <-!app_assoc. rewrite 2!app_assoc. by apply read_u32_mid. }
  cbn [try_bind]. rewrite N.eqb_refl. cbn [negb]. pose proof length_file as Hf. pose proof length_front as Hd. fold file in Hlen.
  rewrite (proj2 (N.ltb_ge _ _)) by (change (4 + META_FOOTER) with 20; lia). cbn [return_if try_bind]. change (4 + META_FOOTER) with 20.
  destruct file_ends as (pre & crc & Ef & Hp). rewrite <-Hp.
  assert (get_range file (N.of_nat (length pre)) (N.of_nat (length pre) + 4) = Some META_MAGIC) as -> by (rewrite Ef; by apply get_range_mid).
  rewrite bool_decide_eq_true_2 by done. cbn [negb return_if try_bind].
  assert (read_u32_at file (N.of_nat (length pre) + 4) = inr META_VERSION) as ->.
  { rewrite Ef, app_assoc. apply read_u32_mid; [rewrite length_app; cbn; lia|done]. }
  cbn [try_bind]. change (META_VERSION =? META_VERSION_V1) with false. change (META_VERSION =? META_VERSION) with true. cbv iota. cbn [try_bind].
  assert (read_u64_at file (N.of_nat (length pre) + 8) = inr dir) as ->.
  { rewrite Ef, app_assoc, (app_assoc _ (le32 _)). apply read_u64_mid; [rewrite !length_app; cbn; lia|apply fits_umax; lia]. }
  cbn [try_bind]. rewrite checked_mul_ok by (change META_IDX_REC with 32 in *; lia). cbn [or_bad try_bind].
  rewrite checked_add_ok by lia. cbn [or_bad try_bind].
  rewrite (proj2 (N.ltb_ge _ _)) by lia. rewrite (proj2 (N.ltb_ge _ _)) by lia. cbn [orb return_if try_bind]. rewrite Hp.
  destruct (seq_loop_run (λ (_ : unit), check_metadata_record file META_VERSION META_IDX_REC dir (dir + n * META_IDX_REC) (N.of_nat (length file) - 20))
    (λ _ _, True) (usize n) tt) as ([] & -> & _); [done| |done].
  intros i [] Hi _. exists tt. split; [|done]. apply written_check. unfold n in Hi. lia.
Qed.

Lemma entries_ok : bytes_ok (file_body entries).
Proof.
  unfold file_body, file_front, file_head. repeat (apply Forall_app; split); try first [apply le32_ok|apply le64_ok|by repeat (constructor; [done|]); constructor].
  all: apply mjoin_ok.
  - intros [[? ?] ?] _. unfold query_record_bytes. repeat (apply Forall_app; split); first [apply le32_ok|apply le64_ok].
  - intros e [i He]%list_elem_of_lookup. destruct (entry_at i e He) as [_ (_ & Hq & _)]. by apply as_bytes_ok.
  - intros [[[[? ?] ?] ?] ?] _. unfold metadata_record_bytes. repeat (apply Forall_app; split); first [apply le32_ok|apply le64_ok].
  - intros e [i He]%list_elem_of_lookup. destruct (entry_at i e He) as [_ (_ & _ & _ & _ & Ht)]. unfold encoded_of.
    destruct (se_tags e); [by apply tags_bytes_ok|by destruct Ht].
Qed.

Lemma written_frame : check_frame file n = inr qoff.
Proof.
  pose proof length_file as Hf. pose proof length_front as Hd. fold file in Hlen. unfold check_frame.
  rewrite checked_mul_ok by (change SRC_IDX_REC with 24; change (umax 64) with 18446744073709551615; change (umax 32) with 4294967295 in Hn; unfold n; lia).
  cbn [or_bad try_bind]. rewrite checked_add_ok by (unfold qoff in *; lia). cbn [or_bad try_bind]. fold qoff.
  rewrite (proj2 (N.ltb_ge _ _)) by lia. cbn [return_if try_bind].
  assert (length file = (length (file_body entries) + 4)%nat) as El by (unfold file, file_of; by rewrite length_app, length_le32).
  assert (read_u32_at file (N.of_nat (length file) - 4) = inr (crc32 (file_body entries))) as ->.
  { unfold file, file_of. rewrite <-(app_nil_r (le32 _)). apply read_u32_mid; [rewrite !length_app, length_le32; simpl; lia|].
    apply crc32_bound, entries_ok. }
  cbn [try_bind]. assert (take (length file - 4) file = file_body entries) as ->.
  { replace (length file - 4)%nat with (length (file_body entries)) by lia. unfold file, file_of. by rewrite take_app_length. }
  rewrite N.eqb_refl. done.
Qed.
Lemma written_open : open_lazy_base file = inr base.
Proof.
  pose proof length_file as Hf. destruct file_starts as [rest Es]. unfold open_lazy_base.
  rewrite (proj2 (N.ltb_ge _ _)) by (change (SRC_HEADER + 4) with 20; lia).
  assert (take 4 file = SOURCES_MAGIC) as -> by (rewrite Es; done). rewrite bool_decide_eq_true_2 by done. cbn [orb negb return_if try_bind].
  assert (read_u32_at file 4 = inr SOURCES_VERSION) as ->.
  { rewrite Es. unfold file_front, file_head. rewrite <-!app_assoc. by apply read_u32_mid. }
  cbn [try_bind]. rewrite N.eqb_refl. cbn [negb return_if try_bind].
  assert (read_u32_at file 8 = inr n) as ->.
  { rewrite Es. unfold file_front, file_head. rewrite <-!app_assoc, app_assoc. apply read_u32_mid; [done|by apply fits_umax]. }
  cbn [try_bind]. rewrite written_frame. cbn [try_bind]. rewrite written_layout. cbn [try_bind].
  destruct (seq_loop_run (check_query_record file qoff (query_limit file (Some layout)))
    (λ k prev, prev = match k with O => None | S j => se_logical <$> entries !! j end) (usize n) None) as (prev & -> & _); [done| |done].
  intros i prev Hi ->. destruct (lookup_lt_is_Some_2 entries i) as [e He]; [unfold n in Hi; lia|].
  destruct (written_query i e He) as (R1 & R2 & R3 & C1 & C2 & Hl & G). exists (Some (se_logical e)). rewrite He. split; [|done].
  unfold check_query_record. rewrite R1. cbn [try_bind].
  assert (match match i with O => None | S j => se_logical <$> entries !! j end with Some prior => se_logical e <=? prior | None => false end = false) as ->.
  { destruct i as [|j]; [done|]. destruct (entries !! j) as [e'|] eqn:Ej; [|done]. apply N.leb_gt. apply (Hsorted j (S j)); [lia|done..]. }
  cbn [return_if try_bind]. rewrite R2. cbn [try_bind]. rewrite R3. cbn [try_bind]. rewrite C1. cbn [or_bad try_bind]. rewrite C2.
  cbn [or_bad try_bind]. rewrite G. cbn [or_bad try_bind query_limit ml_directory_off layout].
  destruct (entry_at i e He) as [_ (_ & Hq & _)]. rewrite (proj2 (N.ltb_ge _ _)) by done. by rewrite from_utf8_as_bytes.
Qed.

Lemma written_record i e : entries !! i = Some e → base_record base (N.of_nat i) = Some (record_of e).
Proof.
  intros He. destruct (written_query i e He) as (R1 & R2 & R3 & C1 & C2 & Hl & G).
  destruct (written_metadata i e He) as (M1 & M2 & M3 & M4 & D1 & D2 & _ & T). destruct (entry_at i e He) as [_ (_ & Hq & _)].
  unfold base_record, query_record. cbn [mmap index_off base_blob_off base_metadata base]. rewrite R1, R2, R3. cbn [ok mbind option_bind].
  rewrite C1. cbn [mbind option_bind]. rewrite C2. cbn [mbind option_bind]. rewrite G. cbn [mbind option_bind]. rewrite from_utf8_as_bytes by done.
  cbn [mbind option_bind ml_directory_off ml_record_size ml_version ml_blob_off layout]. rewrite M1, M2, M3, M4. cbn [ok mbind option_bind].
  change (META_VERSION =? META_VERSION_V1) with false. cbn [mbind option_bind fst snd]. rewrite D1. cbn [mbind option_bind]. rewrite D2.
  cbn [mbind option_bind]. rewrite T. cbn [mbind option_bind]. unfold record_of. by destruct (se_tags_known e), (se_metadata_known e).
Qed.

Lemma file_bytes_ok : bytes_ok file.
Proof. unfold file, file_of. apply Forall_app. split; [apply entries_ok|apply le32_ok]. Qed.

Lemma written_base : base_ok base (record_of <$> entries) ∧ Forall record_fits (record_of <$> entries) ∧
  load_stored_sources (Some file) = inr (list_to_map (docs_of (record_of <$> entries))).
Proof.
  destruct (open_base_ok file base file_bytes_ok written_open) as (recs & Hb & Hf & Hload).
  assert (recs = record_of <$> entries) as <-; [|done]. pose proof (bo_count _ _ Hb) as Hc. cbn [base_count base] in Hc. unfold n in Hc.
  apply list_eq. intros i. rewrite list_lookup_fmap. destruct (entries !! i) as [e|] eqn:He.
  - pose proof (lookup_lt_Some _ _ _ He). destruct (lookup_lt_is_Some_2 recs i) as [r Hr]; [lia|].
    pose proof (bo_record _ _ Hb _ _ Hr) as Hbr. rewrite (written_record i e He) in Hbr. simpl. congruence.
  - apply lookup_ge_None in He. simpl. apply lookup_ge_None. lia.
Qed.
End written.

(** A written file opens, with the entries as its records. *)
Lemma written_file_opens entries file :
  write_sources_v2 entries = inr file → Forall entry_fits entries → N.of_nat (length file) ≤ umax 64 →
  (∀ i j e e', (i < j)%nat → entries !! i = Some e → entries !! j = Some e' → se_logical e < se_logical e') →
  bytes_ok file ∧ ∃ b, open_lazy_base file = inr b ∧ base_ok b (record_of <$> entries) ∧ Forall record_fits (record_of <$> entries) ∧
    load_stored_sources (Some file) = inr (list_to_map (docs_of (record_of <$> entries))).
Proof.
  intros (Hr & Hn & ->)%write_sources_inv Hf Hl Hs. split; [by apply file_bytes_ok|].
  eexists. split; [by apply written_open|]. by apply written_base.
Qed.

(** ** Damage *)

(** The last four bytes are the checksum of the others. *)
Definition sums (data : list N) : Prop := ∃ body sum, data = body ++ sum ∧ length sum = 4%nat ∧ crc32 body = le_value sum.

Lemma check_frame_sums data count blob_off : check_frame data count = inr blob_off → sums data.
Proof.
  intros Hr. unfold check_frame in Hr. try_step Hr s1. try_step Hr s2. try_step Hr u3. apply return_if_inv, N.ltb_ge in Eu3.
  try_step Hr want. try_step Hr u4. apply return_if_inv, negb_false_iff, N.eqb_eq in Eu4.
  exists (take (length data - 4) data), (drop (length data - 4) data). rewrite take_drop, length_drop. split; [done|]. split; [lia|].
  rewrite Eu4. unfold read_u32_at, read_at in Ewant. destruct (get_range_Some data (N.of_nat (length data) - 4) (N.of_nat (length data) - 4 + 4))
    as (pre & mid & post & E & Hd & Hpre & Hmid); [lia..|]. rewrite E in Ewant. injection Ewant as <-. f_equal.
  assert (length post = 0%nat) as ->%nil_length_inv by (apply (f_equal length) in Hd; rewrite !length_app in Hd; lia).
  rewrite Hd, app_nil_r. rewrite length_app. replace (length pre + length mid - 4)%nat with (length pre) by lia. by rewrite drop_app_length.
Qed.

(** No change of up to four consecutive bytes, within the summed part or within the
    checksum, keeps the sum right. *)
Lemma sums_burst pre a c post :
  bytes_ok (pre ++ a ++ post) → bytes_ok c → length c = length a → (length a ≤ 4)%nat → c ≠ a →
  (4 ≤ length post)%nat ∨ (length a + length post ≤ 4)%nat →
  sums (pre ++ a ++ post) → ¬ sums (pre ++ c ++ post).
Proof.
  intros Hb Hc Hl H4 Hne Hw (body & sum & E & Hs & Hcrc) (body' & sum' & E' & Hs' & Hcrc').
  apply Forall_app in Hb as [Hbp [Hba Hbq]%Forall_app].
  destruct Hw as [Hw|Hw].
  - assert (∀ x body sum, pre ++ x ++ post = body ++ sum → length sum = 4%nat →
      body = pre ++ x ++ take (length post - 4) post ∧ sum = drop (length post - 4) post) as Hsplit.
    { intros x bd sm Ex Hsm. apply app_inj_2; [rewrite length_drop; lia|]. by rewrite <-!app_assoc, take_drop. }
    destruct (Hsplit a body sum E Hs) as [-> ->]. destruct (Hsplit c body' sum' E' Hs') as [-> ->].
    eapply (crc32_burst pre a c); [..|by rewrite Hcrc, Hcrc']; try done. by apply Forall_take.
  - assert (body' = body ∧ length pre + length a + length post = length body + 4)%nat as [-> Hlen].
    { pose proof (f_equal length E) as L. pose proof (f_equal length E') as L'. rewrite !length_app in L, L'.
      split; [|lia]. apply (f_equal (take (length body))) in E, E'. rewrite take_app_length in E. rewrite (take_app_length' body' sum') in E' by lia.
      rewrite <-E, <-E'. rewrite !take_app_le by lia. done. }
    assert (sum' = sum) as ->.
    { apply le_value_inj; [| |lia|congruence].
      - assert (bytes_ok (body ++ sum')) as Hx by (rewrite <-E'; apply Forall_app; split; [done|by apply Forall_app]). by apply Forall_app in Hx as [_ ?].
      - assert (bytes_ok (body ++ sum)) as Hx by (rewrite <-E; apply Forall_app; split; [done|by apply Forall_app]). by apply Forall_app in Hx as [_ ?]. }
    rewrite <-E' in E. apply app_inv_head in E. by apply app_inj_1 in E as [? _].
Qed.

(** A file with one query. *)
Definition demo_source_entry : SourceEntryRef := mkSourceEntry 42 (str "acme shoe") 3 7 true true (Decoded [(str "lang", str "de")]).
Definition demo_file : list N := Eval vm_compute in match write_sources_v2 [demo_source_entry] with inr file => file | inl _ => [] end.

