(* ===== verification/Sources.v ===== *)
(** * The source store ([engine/src/storage/sources.rs], [sources/store.rs])

    The stored queries by logical id.  A resident store keeps them in a map; a lazy
    one reads the source file on demand and keeps the changes since it was written
    in an overlay, where a removed query is an explicit entry.  A write never lets an
    older generation replace a newer one.  Saving writes the whole corpus as a new
    file. *)

From stdpp Require Import strings.
From S2P Require Import Prelude Text Utf8 Dictionary Crc SourceFile SourceCodec.

Definition source_with_generation (query : rstring) (version source_generation : N) (tags : list (rstring * rstring))
  (tags_known : bool) : StoredSource :=
  mkStoredSource query version source_generation tags tags_known true.

Inductive SourceStore :=
  | Resident (documents : gmap N StoredSource)
  | Lazy (base : option LazyBase) (overlay : gmap N (option StoredSource)).

Definition store_empty (retain : bool) : SourceStore := if retain then Resident ∅ else Lazy None ∅.

Definition entry_of_source (p : N * StoredSource) : SourceEntryRef :=
  let '(logical, source) := p in
  mkSourceEntry logical (ss_query source) (ss_version source) (ss_source_generation source) (ss_tags_known source)
    (ss_metadata_known source) (Decoded (ss_tags source)).

Definition entry_of_record (record : SourceRecord) : SourceEntryRef :=
  mkSourceEntry (sr_logical record) (sr_query record) (sr_version record) (sr_source_generation record) (sr_tags_known record)
    (sr_metadata_known record)
    (match sr_encoded_tags record with Some encoded => Encoded encoded | None => Decoded [] end).

(** [open]: the store, and the file it leaves ([None] is an absent file). *)
Definition store_open (path : option (list N)) (retain : bool) : SourceError + (option (list N) * SourceStore) :=
  if retain then let? documents := load_stored_sources path in inr (path, Resident documents)
  else
    match path with
    | None => inr (None, Lazy None ∅)
    | Some data =>
        let? version := peek_sources_version data in
        let? data :=
          if version =? SOURCES_VERSION_V1 then
            let? map := load_stored_sources path in
            write_sources_v2 (sort_by_key se_logical (entry_of_source <$> map_to_list map))
          else inr data in
        let? base := open_lazy_base data in
        inr (Some data, Lazy (Some base) ∅)
    end.

Definition get_document (s : SourceStore) (logical : N) : option StoredSource :=
  match s with
  | Resident m => m !! logical
  | Lazy base overlay =>
      match overlay !! logical with
      | Some value => value
      | None => base ← base; base_get_document base logical
      end
  end.

(** [Err(actual_len)] is [inl]. *)
Definition bounded_copy (max_bytes : nat) (query : rstring) : nat + option rstring :=
  if (max_bytes <? str_len query)%nat then inl (str_len query) else inr (Some query).

Definition get_bounded (s : SourceStore) (logical : N) (max_bytes : nat) : nat + option rstring :=
  match s with
  | Resident m => match m !! logical with Some source => bounded_copy max_bytes (ss_query source) | None => inr None end
  | Lazy base overlay =>
      match overlay !! logical with
      | Some (Some source) => bounded_copy max_bytes (ss_query source)
      | Some None => inr None
      | None => match base with Some base => base_get_bounded base logical max_bytes | None => inr None end
      end
  end.

Definition generation_copy (expected_generation : N) (max_bytes : nat) (source : StoredSource) : nat + option rstring :=
  if negb (ss_source_generation source =? expected_generation) then inr None else bounded_copy max_bytes (ss_query source).

Definition get_bounded_at_generation (s : SourceStore) (logical expected_generation : N) (max_bytes : nat) : nat + option rstring :=
  let copy := generation_copy expected_generation max_bytes in
  match s with
  | Resident m => match m !! logical with Some source => copy source | None => inr None end
  | Lazy base overlay =>
      match overlay !! logical with
      | Some (Some source) => copy source
      | Some None => inr None
      | None => match base with
                | Some base => base_get_bounded_at_generation base logical expected_generation max_bytes
                | None => inr None
                end
      end
  end.

(** [.is_none_or(|current| current <= generation)] *)
Definition replaceable (current : option N) (generation : N) : bool :=
  match current with Some current => current <=? generation | None => true end.

Definition insert_stored (logical : N) (source : StoredSource) (s : SourceStore) : SourceStore :=
  let source_generation := ss_source_generation source in
  match s with
  | Resident m =>
      if replaceable (ss_source_generation <$> m !! logical) source_generation then Resident (<[logical := source]> m) else s
  | Lazy base overlay =>
      let should_replace :=
        match overlay !! logical with
        | Some (Some current) => ss_source_generation current <=? source_generation
        | Some None => true
        | None => replaceable (sr_source_generation <$> (base ← base; base_find base logical)) source_generation
        end in
      if should_replace then Lazy base (<[logical := Some source]> overlay) else s
  end.

Definition insert_document_with_generation (logical : N) (text : rstring) (version source_generation : N)
  (tags : list (rstring * rstring)) (s : SourceStore) : SourceStore :=
  insert_stored logical (source_with_generation text version source_generation tags true) s.

Definition source_remove (logical : N) (s : SourceStore) : SourceStore :=
  match s with
  | Resident m => Resident (delete logical m)
  | Lazy base overlay => Lazy base (<[logical := None]> overlay)
  end.

(** The records of the base, in order; [base.record(i)] for every [i]. *)
Definition base_records (b : LazyBase) : list SourceRecord := omap (λ i, base_record b (N.of_nat i)) (seq 0 (usize (base_count b))).

Definition source_store_len (s : SourceStore) : nat :=
  match s with
  | Resident m => size m
  | Lazy base overlay =>
      (length (omap id (map_to_list overlay).*2) +
       match base with
       | Some b =>
           length (List.filter (λ l, bool_decide (overlay !! l = None))
             (omap (λ i, logical_at b (N.of_nat i)) (seq 0 (usize (base_count b)))))
       | None => 0
       end)%nat
  end.

Definition max_of (l : list N) : N := foldr N.max 0 l.

Definition max_source_generation (s : SourceStore) : N :=
  match s with
  | Resident m => max_of (ss_source_generation <$> (map_to_list m).*2)
  | Lazy base overlay =>
      N.max (match base with Some b => max_of (sr_source_generation <$> base_records b) | None => 0 end)
        (max_of (ss_source_generation <$> omap id (map_to_list overlay).*2))
  end.

Definition source_generation_of (s : SourceStore) (logical : N) : option N :=
  match s with
  | Resident m => ss_source_generation <$> m !! logical
  | Lazy base overlay =>
      match overlay !! logical with
      | Some (Some source) => Some (ss_source_generation source)
      | Some None => None
      | None => sr_source_generation <$> (base ← base; base_find base logical)
      end
  end.

(** The newest update of every id. *)
Definition push_winner (winners : gmap N StoredSource) (update : N * StoredSource) : gmap N StoredSource :=
  let '(logical, source) := update in
  if replaceable (ss_source_generation <$> winners !! logical) (ss_source_generation source) then <[logical := source]> winners else winners.

Definition update_winners (s : SourceStore) (updates : list (N * StoredSource)) : gmap N StoredSource :=
  filter (λ p, replaceable (source_generation_of s p.1) (ss_source_generation p.2) = true) (foldl push_winner ∅ updates).

(** The entries written, before they are sorted. *)
Definition save_entries (s : SourceStore) (winners : gmap N StoredSource) : list SourceEntryRef :=
  match s with
  | Resident m =>
      (entry_of_source <$> List.filter (λ p, bool_decide (winners !! p.1 = None)) (map_to_list m)) ++
      (entry_of_source <$> map_to_list winners)
  | Lazy base overlay =>
      match base with
      | Some b =>
          entry_of_record <$> List.filter (λ r, bool_decide (overlay !! sr_logical r = None) && bool_decide (winners !! sr_logical r = None))
            (base_records b)
      | None => []
      end ++
      omap (λ p, if bool_decide (winners !! p.1 = None) then entry_of_source ∘ pair p.1 <$> p.2 else None) (map_to_list overlay) ++
      (entry_of_source <$> map_to_list winners)
  end.

(** The bytes of the saved file. *)
Definition write_to_with_updates (s : SourceStore) (updates : list (N * StoredSource)) : SourceError + list N :=
  write_sources_v2 (sort_by_key se_logical (save_entries s (update_winners s updates))).

Definition write_to (s : SourceStore) : SourceError + list N := write_to_with_updates s [].

(** The documents visited, in some order. *)
Definition for_each_live_document (s : SourceStore) : list (N * StoredSource) :=
  match s with
  | Resident m => map_to_list m
  | Lazy base overlay =>
      match base with
      | Some b => docs_of (List.filter (λ r, bool_decide (overlay !! sr_logical r = None)) (base_records b))
      | None => []
      end ++
      omap (λ p, pair p.1 <$> p.2) (map_to_list overlay)
  end.

(** ** What a store holds *)

Definition base_documents (base : option LazyBase) : gmap N StoredSource :=
  match base with Some b => list_to_map (docs_of (base_records b)) | None => ∅ end.

(** The documents of a store, whichever form it has. *)
Definition documents (s : SourceStore) : gmap N StoredSource :=
  match s with
  | Resident m => m
  | Lazy base overlay => merge (λ o b, match o with Some v => v | None => b end) overlay (base_documents base)
  end.

(** A document with fields of the source's types, of a size the file has room for. *)
Definition source_fits (logical : N) (d : StoredSource) : Prop :=
  entry_fits (entry_of_source (logical, d)) ∧ entry_room (entry_of_source (logical, d)).

Definition base_opened (base : option LazyBase) : Prop :=
  ∀ b, base = Some b → ∃ recs, base_ok b recs ∧ Forall record_fits recs.

Definition store_ok (s : SourceStore) : Prop :=
  match s with
  | Resident m => map_Forall source_fits m
  | Lazy base overlay => base_opened base ∧ ∀ l d, overlay !! l = Some (Some d) → source_fits l d
  end.

Lemma omap_seq {A} (f : nat → option A) (l : list A) : (∀ i x, l !! i = Some x → f i = Some x) → omap f (seq 0 (length l)) = l.
Proof.
  intros Hf. assert (∀ k, k `prefix_of` l → omap f (seq 0 (length k)) = k) as Hk; [|by apply Hk].
  induction k as [|x k IH] using rev_ind; intros Hp; [done|]. rewrite length_app, Nat.add_comm. cbn [length Nat.add]. rewrite seq_S, omap_app.
  rewrite IH by by eapply prefix_app_l. f_equal. simpl. rewrite (Hf _ x); [done|].
  apply (prefix_lookup_Some _ _ _ _ ltac:(by apply list_lookup_middle) Hp).
Qed.

Lemma base_records_ok b recs : base_ok b recs → base_records b = recs.
Proof. intros Hb. unfold base_records. rewrite (bo_count _ _ Hb), Nat2N.id. apply omap_seq. apply (bo_record _ _ Hb). Qed.

Lemma lookup_documents base overlay l :
  documents (Lazy base overlay) !! l = match overlay !! l with Some v => v | None => base_documents base !! l end.
Proof. simpl. rewrite lookup_merge. unfold diag_None. by destruct (overlay !! l) as [[v|]|], (base_documents base !! l). Qed.

Lemma base_document_lookup base l : base_opened base → base_documents base !! l = (b ← base; base_get_document b l).
Proof.
  intros Hb. destruct base as [b|]; [|done]. destruct (Hb b eq_refl) as (recs & Hok & _). simpl.
  by rewrite (base_records_ok b recs Hok), (base_get_document_spec Hok).
Qed.

Lemma get_document_spec s l : store_ok s → get_document s l = documents s !! l.
Proof.
  destruct s as [m|base overlay]; [done|]. intros [Hb _]. rewrite lookup_documents, base_document_lookup by done. done.
Qed.

Lemma base_find_generation base l :
  base_opened base → sr_source_generation <$> (b ← base; base_find b l) = ss_source_generation <$> base_documents base !! l.
Proof.
  intros Hb. rewrite base_document_lookup by done. destruct base as [b|]; [|done]. destruct (Hb b eq_refl) as (recs & Hok & _). simpl.
  destruct (base_find b l) as [r|] eqn:E; simpl.
  - by destruct (base_find_stored Hok l r E) as (d & -> & <- & _).
  - by apply (base_find_document Hok) in E as ->.
Qed.

Lemma source_generation_of_spec s l : store_ok s → source_generation_of s l = ss_source_generation <$> documents s !! l.
Proof.
  destruct s as [m|base overlay]; [done|]. intros [Hb _]. rewrite lookup_documents. simpl.
  destruct (overlay !! l) as [[d|]|]; [done|done|]. by apply base_find_generation.
Qed.

(** A document put into a map, unless it is older than the one there. *)
Definition put_document (m : gmap N StoredSource) (p : N * StoredSource) : gmap N StoredSource := push_winner m p.

Lemma insert_stored_spec l d s : store_ok s → documents (insert_stored l d s) = put_document (documents s) (l, d).
Proof.
  destruct s as [m|base overlay]; simpl; [by destruct (replaceable _ _)|]. intros [Hb _].
  assert ((match overlay !! l with
    | Some (Some current) => ss_source_generation current <=? ss_source_generation d
    | Some None => true
    | None => replaceable (sr_source_generation <$> (base ← base; base_find base l)) (ss_source_generation d)
    end) = replaceable (ss_source_generation <$> documents (Lazy base overlay) !! l) (ss_source_generation d)) as ->.
  { rewrite lookup_documents. destruct (overlay !! l) as [[?|]|]; [done|done|]. by rewrite base_find_generation. }
  destruct (replaceable _ _); [|done]. apply map_eq. intros i. rewrite lookup_documents.
  destruct (decide (i = l)) as [->|Hne]; [by rewrite !lookup_insert_eq|]. rewrite !lookup_insert_ne by done. symmetry. apply lookup_documents.
Qed.

Lemma source_remove_spec l s : documents (source_remove l s) = delete l (documents s).
Proof.
  destruct s as [m|base overlay]; [done|]. apply map_eq. intros i. cbn [source_remove]. rewrite lookup_documents.
  destruct (decide (i = l)) as [->|Hne]; [by rewrite lookup_insert_eq, lookup_delete_eq|].
  rewrite lookup_insert_ne, lookup_delete_ne by done. symmetry. apply lookup_documents.
Qed.

Lemma base_record_query b i r : base_record b i = Some r → query_record b i = Some (sr_logical r, sr_query r).
Proof.
  unfold base_record. intros ([l q] & -> & Hr)%bind_Some. destruct (base_metadata b) as [m|]; [|by injection Hr as <-].
  cbv zeta in Hr. repeat (apply bind_Some in Hr as (? & _ & Hr)). by injection Hr as <-.
Qed.

Lemma get_bounded_spec s l max_bytes : store_ok s →
  get_bounded s l max_bytes = match documents s !! l with Some d => bounded_copy max_bytes (ss_query d) | None => inr None end.
Proof.
  intros Hs. rewrite <-get_document_spec by done. destruct s as [m|base overlay]; [done|]. destruct Hs as [Hb _]. simpl.
  destruct (overlay !! l) as [[d|]|]; [done|done|]. destruct base as [b|]; [|done]. destruct (Hb b eq_refl) as (recs & Hok & _). simpl.
  unfold base_get_bounded. destruct (index_of b l) as [i|] eqn:Ei.
  - destruct (base_find b l) as [r|] eqn:Er.
    + destruct (base_find_stored Hok l r Er) as (d & -> & _ & ->). unfold base_find in Er. rewrite Ei in Er. simpl in Er.
      by rewrite (base_record_query _ _ _ Er).
    + exfalso. pose proof (index_of_loop_spec Hok l (usize (base_count b)) 0 (base_count b) ltac:(lia) ltac:(lia)) as Hi.
      unfold index_of in Ei. rewrite Ei in Hi. destruct Hi as (r & Hr & Hl). assert (base_find b l = Some r) by (apply (base_find_spec Hok); split; [by eapply list_elem_of_lookup_2|done]).
      congruence.
  - assert (base_find b l = None) as Er by (unfold base_find; by rewrite Ei). by apply (base_find_document Hok) in Er as ->.
Qed.

Lemma get_bounded_at_generation_spec s l generation max_bytes : store_ok s →
  get_bounded_at_generation s l generation max_bytes =
    match documents s !! l with Some d => generation_copy generation max_bytes d | None => inr None end.
Proof.
  intros Hs. rewrite <-get_document_spec by done. destruct s as [m|base overlay]; [done|]. destruct Hs as [Hb _]. simpl.
  destruct (overlay !! l) as [[d|]|]; [done|done|]. destruct base as [b|]; [|done]. destruct (Hb b eq_refl) as (recs & Hok & _). simpl.
  unfold base_get_bounded_at_generation. destruct (base_find b l) as [r|] eqn:Er.
  - destruct (base_find_stored Hok l r Er) as (d & -> & Hg & Hq). unfold generation_copy, bounded_copy. by rewrite Hg, Hq.
  - by apply (base_find_document Hok) in Er as ->.
Qed.

Lemma insert_stored_ok l d s : store_ok s → source_fits l d → store_ok (insert_stored l d s).
Proof.
  intros Hs Hd. destruct s as [m|base overlay]; simpl in *.
  - destruct (replaceable _ _); [|done]. by apply map_Forall_insert_2.
  - destruct Hs as [Hb Ho]. case_match; [|done]. split; [done|]. intros i x. destruct (decide (i = l)) as [->|Hne].
    + rewrite lookup_insert_eq. by intros [= <-].
    + rewrite lookup_insert_ne by done. apply Ho.
Qed.

Lemma source_remove_ok l s : store_ok s → store_ok (source_remove l s).
Proof.
  intros Hs. destruct s as [m|base overlay]; simpl in *; [by apply map_Forall_delete|]. destruct Hs as [Hb Ho]. split; [done|].
  intros i x. destruct (decide (i = l)) as [->|Hne]; [by rewrite lookup_insert_eq|]. rewrite lookup_insert_ne by done. apply Ho.
Qed.

(** ** Listing and counting *)

Lemma elem_of_docs_of recs l d : (l, d) ∈ docs_of recs ↔ ∃ r, r ∈ recs ∧ sr_logical r = l ∧ stored_of r = Some d.
Proof.
  unfold docs_of. rewrite list_elem_of_omap. split.
  - intros (r & Hr & (d' & Hd & [= -> ->])%fmap_Some). eauto.
  - intros (r & Hr & <- & Hd). exists r. by rewrite Hd.
Qed.

Lemma docs_of_filter_NoDup b recs p : base_ok b recs → NoDup (docs_of (List.filter p recs)).
Proof.
  intros Hb. apply (NoDup_fmap_1 fst). eapply sublist_NoDup; [apply (docs_of_NoDup Hb)|].
  apply fmap_sublist. unfold docs_of. induction recs as [|r recs IH] in |- *; [constructor|]. simpl.
  destruct (p r); simpl; destruct (stored_of r); simpl; auto using sublist_skip, sublist_cons.
Qed.

(** The documents of a lazy store that [w] does not replace, and those of [w]. *)
Definition lazy_list (base : option LazyBase) (overlay : gmap N (option StoredSource)) (w : gmap N StoredSource) : list (N * StoredSource) :=
  match base with
  | Some b => docs_of (List.filter (λ r, bool_decide (overlay !! sr_logical r = None) && bool_decide (w !! sr_logical r = None)) (base_records b))
  | None => []
  end ++
  omap (λ p, if bool_decide (w !! p.1 = None) then pair p.1 <$> p.2 else None) (map_to_list overlay) ++
  map_to_list w.

Lemma elem_of_overlay (overlay : gmap N (option StoredSource)) (w : gmap N StoredSource) l d :
  (l, d) ∈ omap (λ p, if bool_decide (w !! p.1 = None) then pair p.1 <$> p.2 else None) (map_to_list overlay) ↔
  overlay !! l = Some (Some d) ∧ w !! l = None.
Proof.
  rewrite list_elem_of_omap. split.
  - intros ([k v] & Hk%elem_of_map_to_list & E). cbn [fst snd] in E. case_bool_decide; [|done].
    apply fmap_Some in E as (d' & -> & [= -> ->]). done.
  - intros [Ho Hw]. exists (l, Some d). split; [by apply elem_of_map_to_list|]. cbn [fst snd]. by rewrite bool_decide_eq_true_2.
Qed.

Lemma NoDup_overlay (overlay : gmap N (option StoredSource)) (w : gmap N StoredSource) :
  NoDup (omap (λ p, if bool_decide (w !! p.1 = None) then pair p.1 <$> p.2 else None) (map_to_list overlay)).
Proof.
  apply (NoDup_fmap_1 fst). eapply (sublist_NoDup _ (map_to_list overlay).*1); [apply NoDup_fst_map_to_list|].
  induction (map_to_list overlay) as [|[k v] l IH]; [constructor|]. cbn [omap list_omap fst snd].
  destruct (bool_decide _); [destruct v|]; simpl; auto using sublist_skip, sublist_cons.
Qed.

Lemma lazy_list_spec base overlay w :
  base_opened base → lazy_list base overlay w ≡ₚ map_to_list (w ∪ documents (Lazy base overlay)).
Proof.
  intros Hb. apply NoDup_Permutation; [|apply NoDup_map_to_list|].
  - unfold lazy_list. apply NoDup_app. split; [|split].
    + destruct base as [b|]; [|constructor]. destruct (Hb b eq_refl) as (recs & Hok & _). rewrite (base_records_ok b recs Hok).
      by eapply docs_of_filter_NoDup.
    + destruct base as [b|]; [|by intros ? ?%elem_of_nil]. intros [l d] (r & [Hp _]%elem_of_list_filter_bool & <- & _)%elem_of_docs_of.
      apply andb_true_iff in Hp as [Ho%bool_decide_eq_true Hw%bool_decide_eq_true].
      rewrite elem_of_app, elem_of_overlay, elem_of_map_to_list, Ho, Hw. intros [[? _]|?]; done.
    + apply NoDup_app. split; [apply NoDup_overlay|]. split; [|apply NoDup_map_to_list].
      intros [l d] [_ Hw]%elem_of_overlay. rewrite elem_of_map_to_list, Hw. done.
  - intros [l d]. unfold lazy_list. rewrite !elem_of_app, elem_of_overlay, !elem_of_map_to_list, lookup_union, lookup_documents.
    assert ((l, d) ∈ match base with
      | Some b => docs_of (List.filter (λ r, bool_decide (overlay !! sr_logical r = None) && bool_decide (w !! sr_logical r = None)) (base_records b))
      | None => [] end ↔ base_documents base !! l = Some d ∧ overlay !! l = None ∧ w !! l = None) as ->.
    { destruct base as [b|]; [|rewrite elem_of_nil; simpl; rewrite lookup_empty; by split; [|intros [? _]]].
      destruct (Hb b eq_refl) as (recs & Hok & _). simpl. rewrite (base_records_ok b recs Hok).
      rewrite <-elem_of_list_to_map by apply (docs_of_NoDup Hok). rewrite !elem_of_docs_of. split.
      - intros (r & [Hp Hr]%elem_of_list_filter_bool & <- & Hd). apply andb_true_iff in Hp as [Ho%bool_decide_eq_true Hw%bool_decide_eq_true]. eauto 8.
      - intros ((r & Hr & <- & Hd) & Ho & Hw). exists r. rewrite elem_of_list_filter_bool, !bool_decide_eq_true_2 by done. done. }
    destruct (w !! l) as [x|], (overlay !! l) as [[y|]|], (base_documents base !! l) as [z|]; cbn; intuition congruence.
Qed.

Lemma resident_list_spec (m w : gmap N StoredSource) :
  List.filter (λ p, bool_decide (w !! p.1 = None)) (map_to_list m) ++ map_to_list w ≡ₚ map_to_list (w ∪ m).
Proof.
  apply NoDup_Permutation; [|apply NoDup_map_to_list|].
  - apply NoDup_app. split; [apply NoDup_ListNoDup, List.NoDup_filter, NoDup_ListNoDup, NoDup_map_to_list|]. split; [|apply NoDup_map_to_list].
    intros [l d] [Hw%bool_decide_eq_true _]%elem_of_list_filter_bool. cbn in Hw. rewrite elem_of_map_to_list, Hw. done.
  - intros [l d]. rewrite elem_of_app, elem_of_list_filter_bool, !elem_of_map_to_list, lookup_union, bool_decide_eq_true. cbn [fst].
    destruct (w !! l) as [x|], (m !! l) as [y|]; simpl; naive_solver.
Qed.

Lemma for_each_live_spec s : store_ok s → for_each_live_document s ≡ₚ map_to_list (documents s).
Proof.
  destruct s as [m|base overlay]; [done|]. intros [Hb _]. pose proof (lazy_list_spec base overlay ∅ Hb) as Hp.
  rewrite (left_id_L ∅ (∪)) in Hp. rewrite <-Hp. unfold lazy_list. rewrite map_to_list_empty, app_nil_r. simpl.
  destruct base as [b|]; [|done]. apply reflexive_eq. f_equal. f_equal. apply filter_ext. intros r. by rewrite andb_true_r.
Qed.

Lemma length_docs_of b recs p : base_ok b recs → length (docs_of (List.filter p recs)) = length (List.filter p recs).
Proof.
  intros Hb. pose proof (bo_tags _ _ Hb) as Ht. clear Hb. unfold docs_of. induction recs as [|r recs IH]; [done|]. simpl.
  destruct (Ht r) as [d Hd]; [by left|].
  destruct (p r); simpl; rewrite ?Hd; simpl; [f_equal|]; apply IH; intros; apply Ht; by right.
Qed.

Lemma length_filter_fmap {A B} (f : A → B) p l : length (List.filter p (f <$> l)) = length (List.filter (λ x, p (f x)) l).
Proof. induction l as [|x l IH]; [done|]. simpl. destruct (p (f x)); simpl; [f_equal|]; apply IH. Qed.

Lemma source_store_len_spec s : store_ok s → source_store_len s = size (documents s).
Proof.
  intros Hs. rewrite <-length_map_to_list, <-(for_each_live_spec s Hs). destruct s as [m|base overlay]; [simpl; by rewrite length_map_to_list|]. destruct Hs as [Hb _].
  cbn [source_store_len for_each_live_document]. rewrite length_app, Nat.add_comm. f_equal.
  - destruct base as [b|]; [|done]. destruct (Hb b eq_refl) as (recs & Hok & _). rewrite (base_records_ok b recs Hok), (length_docs_of b) by done.
    rewrite (bo_count _ _ Hok), Nat2N.id. etrans; [|exact (length_filter_fmap sr_logical (λ l, bool_decide (overlay !! l = None)) recs)]. do 2 f_equal.
    rewrite <-(length_fmap sr_logical recs). apply omap_seq. intros i l (r & -> & Hr)%list_lookup_fmap_Some. by apply (bo_logical _ _ Hok).
  - induction (map_to_list overlay) as [|[k [v|]] l IH]; simpl; auto.
Qed.

Lemma max_of_ge x l : x ∈ l → x ≤ max_of l.
Proof. induction 1; simpl; lia. Qed.

(** The seed of the next generation is at least every generation stored. *)
Lemma max_source_generation_ge s l d : store_ok s → documents s !! l = Some d → ss_source_generation d ≤ max_source_generation s.
Proof.
  intros Hs Hd. destruct s as [m|base overlay]; simpl.
  - apply max_of_ge, list_elem_of_fmap. exists d. split; [done|]. apply list_elem_of_fmap. exists (l, d). split; [done|]. by apply elem_of_map_to_list.
  - destruct Hs as [Hb _]. rewrite lookup_documents in Hd. destruct (overlay !! l) as [[y|]|] eqn:Ho; simplify_eq.
    + etrans; [|apply N.le_max_r]. apply max_of_ge, list_elem_of_fmap. exists d. split; [done|]. apply list_elem_of_omap. exists (Some d). split; [|done].
      apply list_elem_of_fmap. exists (l, Some d). split; [done|]. by apply elem_of_map_to_list.
    + etrans; [|apply N.le_max_l]. rewrite base_document_lookup in Hd by done. destruct base as [b|]; [|done]. simpl in Hd.
      destruct (Hb b eq_refl) as (recs & Hok & _). rewrite (base_records_ok b recs Hok). unfold base_get_document in Hd.
      apply bind_Some in Hd as (r & Hr & Hd). pose proof (base_find_stored Hok l r Hr) as (d' & Hd' & Hg & _).
      unfold base_get_document in Hd'. rewrite Hr in Hd'. simpl in Hd'. apply (base_find_spec Hok) in Hr as [Hr _].
      apply max_of_ge, list_elem_of_fmap. exists r. split; [congruence|done].
Qed.

(** ** Saving and reopening *)

Lemma entry_of_source_stored l d : source_fits l d → stored_of (record_of (entry_of_source (l, d))) = Some d.
Proof.
  intros [(_ & _ & _ & _ & Ht) [_ [Hlen [Hn Hs]]]]. cbn [entry_of_source se_tags encoded_of] in Ht, Hlen, Hn, Hs. unfold stored_of. cbn [record_of entry_of_source sr_encoded_tags se_tags encoded_of].
  rewrite decode_source_tags_visit, visit_tags_bytes; [by destruct d|done..|].
  change (umax 64) with 18446744073709551615. change (umax 32) with 4294967295 in Hlen. lia.
Qed.

Lemma entry_of_record_stored r : stored_of (record_of (entry_of_record r)) = stored_of r.
Proof. destruct r as [l q v g tk mk [encoded|]]; done. Qed.

Lemma entry_of_record_ok r : record_fits r → entry_fits (entry_of_record r) ∧ entry_room (entry_of_record r).
Proof.
  intros (Hl & Hq & Hq32 & Hv & Hg & He & [d Hd]). destruct r as [l q v g tk mk [encoded|]]; cbn in *.
  - destruct (He encoded eq_refl) as [Hb Hn]. unfold fits in Hq32, Hn. change (2 ^ 32) with 4294967296 in *.
    split.
    + split_and!; cbn; [done..|]. split; [done|]. unfold stored_of in Hd. cbn in Hd. apply bind_Some in Hd as (tags & -> & _). eauto.
    + split; cbn; [change (umax 32) with 4294967295; lia|]. split; [cbn; change (umax 32) with 4294967295; lia|done].
  - unfold fits in Hq32. change (2 ^ 32) with 4294967296 in *. split; [split_and!; cbn; done|]. split; cbn; [change (umax 32) with 4294967295; lia|].
    split; [done|]. split; [done|constructor].
Qed.

(** What a save of a store writes. *)
Section save.
Context (s : SourceStore) (w : gmap N StoredSource) (Hs : store_ok s) (Hw : map_Forall source_fits w).

Definition source_entry_ok (e : SourceEntryRef) : Prop := entry_fits e ∧ entry_room e.

Lemma save_entries_ok : Forall source_entry_ok (save_entries s w).
Proof.
  assert (∀ p, p ∈ map_to_list w → source_entry_ok (entry_of_source p)) as Hwin by (intros [l d] ?%elem_of_map_to_list; by apply Hw).
  apply Forall_forall. intros e. destruct s as [m|base overlay]; cbn [save_entries]; rewrite !elem_of_app.
  - intros [(p & -> & [_ Hp]%elem_of_list_filter_bool)%list_elem_of_fmap|(p & -> & Hp)%list_elem_of_fmap]; [|by apply Hwin].
    destruct p as [l d]. apply elem_of_map_to_list in Hp. by apply Hs.
  - destruct Hs as [Hb Ho]. intros [He|[([l v] & Hp%elem_of_map_to_list & E)%list_elem_of_omap|(p & -> & Hp)%list_elem_of_fmap]]; [| |by apply Hwin].
    + destruct base as [b|]; [|by apply elem_of_nil in He]. destruct (Hb b eq_refl) as (recs & Hok & Hf). rewrite (base_records_ok b recs Hok) in He.
      apply list_elem_of_fmap in He as (r & -> & [_ Hr]%elem_of_list_filter_bool). rewrite Forall_forall in Hf. by apply entry_of_record_ok, Hf.
    + cbn [fst snd] in E. case_bool_decide; [|done]. apply fmap_Some in E as (d & -> & ->). by apply Ho.
Qed.

Lemma docs_of_sources l : Forall (λ p, source_fits p.1 p.2) l → docs_of (record_of <$> (entry_of_source <$> l)) = l.
Proof.
  induction 1 as [|[k d] l Hd _ IH]; [done|]. unfold docs_of. rewrite !fmap_cons. cbn [omap list_omap].
  rewrite (entry_of_source_stored k d Hd). cbn [fmap option_fmap option_map]. f_equal. apply IH.
Qed.

Lemma docs_of_records l : docs_of (record_of <$> (entry_of_record <$> l)) = docs_of l.
Proof.
  induction l as [|r l IH]; [done|]. unfold docs_of. rewrite !fmap_cons. cbn [omap list_omap]. rewrite entry_of_record_stored.
  change (sr_logical (record_of (entry_of_record r))) with (sr_logical r). destruct (stored_of r); cbn; [f_equal|]; apply IH.
Qed.

Lemma overlay_entries (overlay : gmap N (option StoredSource)) :
  omap (λ p, if bool_decide (w !! p.1 = None) then entry_of_source ∘ pair p.1 <$> p.2 else None) (map_to_list overlay) =
  entry_of_source <$> omap (λ p, if bool_decide (w !! p.1 = None) then pair p.1 <$> p.2 else None) (map_to_list overlay).
Proof.
  induction (map_to_list overlay) as [|[k v] l IH]; [done|]. cbn [omap list_omap fst snd].
  destruct (bool_decide _), v; cbn; [f_equal|..]; apply IH.
Qed.

Lemma save_docs : docs_of (record_of <$> save_entries s w) ≡ₚ map_to_list (w ∪ documents s).
Proof.
  assert (Forall (λ p, source_fits p.1 p.2) (map_to_list w)) as Fw by (apply Forall_forall; intros [l d] ?%elem_of_map_to_list; by apply Hw).
  destruct s as [m|base overlay]; cbn [save_entries].
  - rewrite fmap_app, docs_of_app, !docs_of_sources; [apply resident_list_spec|done|].
    apply Forall_forall. intros [l d] [_ Hp%elem_of_map_to_list]%elem_of_list_filter_bool. by apply Hs.
  - destruct Hs as [Hb Ho]. rewrite <-(lazy_list_spec base overlay w Hb). unfold lazy_list. rewrite !fmap_app, !docs_of_app, (docs_of_sources _ Fw).
    apply reflexive_eq. f_equal; [|f_equal].
    + destruct base as [b|]; [|done]. apply docs_of_records.
    + rewrite overlay_entries. apply docs_of_sources. apply Forall_forall. intros [l d] [Hl _]%elem_of_overlay. by apply Ho.
Qed.
End save.

Lemma StronglySorted_at {A} (R : A → A → Prop) (l : list A) i j x y :
  StronglySorted R l → (i < j)%nat → l !! i = Some x → l !! j = Some y → R x y.
Proof.
  intros Hs. revert i j. induction Hs as [|z l Hs IH Hf]; intros [|i] [|j] Hij Hx Hy; try done; try lia; simpl in *; simplify_eq.
  - rewrite Forall_forall in Hf. by eapply Hf, list_elem_of_lookup_2.
  - by apply (IH i j); [lia|..].
Qed.

Lemma sort_by_key_strict {A} (key : A → N) (l : list A) i j x y :
  NoDup (key <$> l) → (i < j)%nat → sort_by_key key l !! i = Some x → sort_by_key key l !! j = Some y → key x < key y.
Proof.
  intros Hnd Hij Hx Hy. pose proof (StronglySorted_at _ _ _ _ _ _ (sort_by_key_sorted key l) Hij Hx Hy) as Hle. unfold key_le in Hle.
  destruct (decide (key x = key y)) as [E|]; [|lia]. rewrite <-(sort_by_key_perm key l) in Hnd.
  assert (i = j); [|lia]. eapply (NoDup_lookup _ _ _ (key x) Hnd); rewrite list_lookup_fmap, ?Hx, ?Hy; simpl; congruence.
Qed.

Lemma docs_of_fst entries : Forall source_entry_ok entries → (docs_of (record_of <$> entries)).*1 = se_logical <$> entries.
Proof.
  induction 1 as [|e entries [Hf Hr] _ IH]; [done|]. unfold docs_of. rewrite !fmap_cons. cbn [omap list_omap].
  destruct (entry_tags_decode e Hr Hf) as [tags Ht]. unfold stored_of at 1. cbn [record_of sr_encoded_tags]. rewrite Ht. cbn. f_equal. apply IH.
Qed.

(** Entries that hold the documents of a map: their file opens, in either way, as the map. *)
Lemma written_store entries (m : gmap N StoredSource) :
  Forall source_entry_ok entries → docs_of (record_of <$> entries) ≡ₚ map_to_list m → N.of_nat (size m) ≤ umax 32 →
  ∃ file, write_sources_v2 (sort_by_key se_logical entries) = inr file ∧
    (N.of_nat (length file) ≤ umax 64 →
     ∃ b recs, open_lazy_base file = inr b ∧ base_ok b recs ∧ Forall record_fits recs ∧ bytes_ok file ∧
       list_to_map (docs_of recs) = m ∧ load_stored_sources (Some file) = inr m).
Proof.
  intros Hok Hd Hn. pose proof (docs_of_fst entries Hok) as Hk.
  assert (NoDup (se_logical <$> entries)) as Hnd by (rewrite <-Hk, Hd; apply NoDup_fst_map_to_list).
  set (sorted := sort_by_key se_logical entries). pose proof (sort_by_key_perm se_logical entries) as Hp. fold sorted in Hp.
  assert (Forall source_entry_ok sorted) as Hok' by by rewrite Hp.
  assert (length sorted = size m) as Hl.
  { rewrite Hp, <-length_map_to_list, <-Hd, <-(length_fmap fst (docs_of _)), Hk. by rewrite length_fmap. }
  exists (file_of sorted). assert (write_sources_v2 sorted = inr (file_of sorted)) as Hw.
  { apply write_sources_spec; [|by rewrite Hl]. eapply Forall_impl; [exact Hok'|]. by intros e [_ ?]. }
  split; [done|]. intros Hlen.
  destruct (written_file_opens sorted (file_of sorted) Hw) as (Hb & b & Ho & Hbase & Hf & Hload); [|done|intros i j e e' ?; by apply sort_by_key_strict|].
  { eapply Forall_impl; [exact Hok'|]. by intros e [? _]. }
  assert (list_to_map (docs_of (record_of <$> sorted)) = m) as Em.
  { rewrite <-(list_to_map_to_list m). apply list_to_map_proper; [apply (docs_of_NoDup Hbase)|]. rewrite <-Hd. unfold docs_of. by rewrite Hp. }
  rewrite Em in Hload. eauto 10.
Qed.

Lemma peek_read data v :
  12 ≤ N.of_nat (length data) → negb (bool_decide (take 4 data = SOURCES_MAGIC)) = false → read_u32_at data 4 = inr v → peek_sources_version data = inr v.
Proof.
  intros Hlen Hm Hr. unfold peek_sources_version, read_u32_at, read_at, get_range in *.
  rewrite (proj2 (N.leb_le 0 8)), (proj2 (N.leb_le 8 _)) by lia. cbn [andb]. change (usize (8 - 0)) with 8%nat. change (usize 0) with 0%nat.
  rewrite drop_0, take_take. change (4 `min` 8)%nat with 4%nat. rewrite Hm. cbn [return_if try_bind].
  rewrite (proj2 (N.leb_le 4 (4 + 4))), (proj2 (N.leb_le (4 + 4) _)) in Hr by lia. cbn [andb] in Hr. injection Hr as <-. f_equal. f_equal.
  change (usize (4 + 4 - 4)) with 4%nat. change (usize 4) with 4%nat. by rewrite skipn_firstn_comm.
Qed.

Lemma peek_opened data b : open_lazy_base data = inr b → peek_sources_version data = inr SOURCES_VERSION.
Proof.
  intros Hr. unfold open_lazy_base in Hr. try_step Hr u1. apply return_if_inv, orb_false_iff in Eu1 as [Hlen%N.ltb_ge Hmagic].
  try_step Hr version. try_step Hr u2. apply return_if_inv, negb_false_iff, N.eqb_eq in Eu2. subst version.
  change (SRC_HEADER + 4) with 20 in Hlen. apply peek_read; [lia|done|done].
Qed.

(** The documents of well-typed records fit. *)
Lemma record_document_fits r d : record_fits r → stored_of r = Some d → source_fits (sr_logical r) d.
Proof.
  intros (Hl & Hq & Hq32 & Hv & Hg & He & _) Hd. unfold stored_of in Hd. apply bind_Some in Hd as (tags & Ht & [= <-]).
  assert (N.of_nat (str_len (sr_query r)) ≤ umax 32) as Hroom.
  { unfold fits in Hq32. change (2 ^ 32) with 4294967296 in Hq32. change (umax 32) with 4294967295. lia. }
  destruct (sr_encoded_tags r) as [encoded|].
  - destruct (He encoded eq_refl) as [Hb Hn]. rewrite decode_source_tags_visit in Ht.
    destruct (visit_encoded_tags encoded) as [|tags'] eqn:E; [done|]. injection Ht as ->.
    apply visit_encoded_tags_inv in E as (E & H1 & H2 & H3); [|done].
    split; [by split_and!|]. split; [done|]. split; [|done]. cbn [entry_of_source se_tags ss_tags encoded_of]. rewrite <-E.
    unfold fits in Hn. change (2 ^ 32) with 4294967296 in Hn. change (umax 32) with 4294967295. lia.
  - injection Ht as <-. split; [split_and!; [done..|constructor]|]. split; [done|]. split; [done|]. split; [done|constructor].
Qed.

Lemma opened_documents_fit b recs : base_ok b recs → Forall record_fits recs → map_Forall source_fits (list_to_map (docs_of recs) : gmap N StoredSource).
Proof.
  intros Hb Hf l d Hd. rewrite <-elem_of_list_to_map in Hd by apply (docs_of_NoDup Hb). apply elem_of_docs_of in Hd as (r & Hr & <- & Hd).
  rewrite Forall_forall in Hf. by apply record_document_fits; [apply Hf|].
Qed.

Lemma lazy_opened b recs : base_ok b recs → Forall record_fits recs →
  store_ok (Lazy (Some b) ∅) ∧ documents (Lazy (Some b) ∅) = list_to_map (docs_of recs).
Proof.
  intros Hb Hf. split; [split; [intros ? [= <-]; eauto|done]|]. apply map_eq. intros l. rewrite lookup_documents, lookup_empty. simpl.
  by rewrite (base_records_ok b recs Hb).
Qed.

(** An id's document after an update, and after a winner is laid over the old one. *)
Definition put_over (old : option StoredSource) (u : StoredSource) : option StoredSource :=
  if replaceable (ss_source_generation <$> old) (ss_source_generation u) then Some u else old.
Definition lay_over (winner old : option StoredSource) : option StoredSource :=
  match winner with Some u => put_over old u | None => old end.

Lemma put_lay_over winner old u : lay_over (put_over winner u) old = put_over (lay_over winner old) u.
Proof.
  unfold lay_over, put_over. destruct winner as [w|], old as [o|]; cbn [fmap option_fmap option_map replaceable]; try done;
    repeat (case_match; cbn [fmap option_fmap option_map replaceable] in *; simplify_eq; rewrite ?N.leb_le, ?N.leb_gt in *; try done; try lia).
Qed.

Lemma lookup_push_winner m k u l :
  push_winner m (k, u) !! l = if decide (l = k) then put_over (m !! l) u else m !! l.
Proof.
  unfold push_winner, put_over. case_decide as E; [subst|]; destruct (replaceable _ _); by rewrite ?lookup_insert_eq, ?lookup_insert_ne.
Qed.

(** The winners of a sequence of updates are what putting them one by one leaves. *)
Lemma update_winners_spec s updates :
  store_ok s → update_winners s updates ∪ documents s = foldl put_document (documents s) updates.
Proof.
  intros Hs. apply map_eq. intros l.
  assert ((update_winners s updates ∪ documents s) !! l = lay_over (foldl push_winner ∅ updates !! l) (documents s !! l)) as ->.
  { unfold update_winners. rewrite lookup_union, map_lookup_filter. unfold lay_over, put_over.
    destruct (foldl push_winner ∅ updates !! l) as [d|]; simpl; [|by destruct (documents s !! l)].
    rewrite source_generation_of_spec by done. unfold guard. destruct (replaceable _ _); simpl; by destruct (documents s !! l). }
  induction updates as [|[k u] updates IH] using rev_ind; [done|]. rewrite !foldl_app. cbn [foldl]. unfold put_document at 1.
  rewrite !lookup_push_winner. case_decide; [|done]. by rewrite put_lay_over, IH.
Qed.

Lemma load_v1_fits data rounds cursor store m :
  bytes_ok data → load_v1 data rounds cursor store = inr m → map_Forall source_fits store →
  map_Forall source_fits m ∧ (size m ≤ size store + rounds)%nat.
Proof.
  intros Hb. revert cursor store. induction rounds as [|rounds IH]; intros cursor store Hr Hst; cbn [load_v1] in Hr.
  { injection Hr as <-. split; [done|lia]. }
  destruct (_ <? _); [injection Hr as <-; split; [done|lia]|]. try_step Hr l. try_step Hr text_len.
  destruct (_ <? _); [injection Hr as <-; split; [done|lia]|]. try_step Hr text.
  destruct (get_range data (cursor + 8 + 4) (cursor + 8 + 4 + text_len) ≫= from_utf8) as [t|] eqn:Et; [|done]. injection Etext as ->.
  apply utf8_range in Et as (_ & Hok & Hlen). apply (read_at_fits Hb 8) in El. apply (read_at_fits Hb 4) in Etext_len.
  apply IH in Hr as [Hm Hs].
  - split; [done|]. pose proof (map_size_insert (M:=gmap N) l (legacy text) store) as Hi. rewrite Hi in Hs. destruct (store !! l); simpl in Hs; lia.
  - apply map_Forall_insert_2; [|done]. unfold fits in *. change (2 ^ (8 * 4)) with 4294967296 in *.
    split; [split_and!; cbn; [done..|constructor]|]. split; [change (N.of_nat (str_len text) ≤ 4294967295); lia|].
    split; [done|]. split; [done|constructor].
Qed.

Lemma update_winners_fit s updates :
  Forall (λ p, source_fits p.1 p.2) updates → map_Forall source_fits (update_winners s updates).
Proof.
  intros Hu l d Hl. unfold update_winners in Hl. apply map_lookup_filter_Some in Hl as [Hl _]. revert l d Hl.
  induction updates as [|[k u] updates IH] using rev_ind; [done|]. apply Forall_app in Hu as [Hu Hk%Forall_cons]. destruct Hk as [Hk _]. intros l d.
  rewrite foldl_app. cbn [foldl]. rewrite lookup_push_winner. unfold put_over. case_decide; [subst|by apply IH].
  case_match; [by intros [= <-]|by apply IH].
Qed.

Lemma peek_version data v v' : peek_sources_version data = inr v → read_u32_at data 4 = inr v' → v' = v.
Proof.
  unfold peek_sources_version. intros Hp Hr. destruct (get_range data 0 8) as [head|] eqn:Eh; [|done]. try_step Hp u.
  injection Hp as <-. unfold read_u32_at, read_at in Hr. destruct (get_range data 4 (4 + 4)) as [mid|] eqn:Em; [|done].
  injection Hr as <-. f_equal. unfold get_range in Eh, Em. repeat case_match; simplify_eq.
  change (usize (8 - 0)) with 8%nat. change (usize 0) with 0%nat. change (usize (4 + 4 - 4)) with 4%nat. change (usize 4) with 4%nat.
  by rewrite drop_0, skipn_firstn_comm.
Qed.

Lemma load_first_version data m :
  bytes_ok data → peek_sources_version data = inr SOURCES_VERSION_V1 → load_stored_sources (Some data) = inr m →
  map_Forall source_fits m ∧ N.of_nat (size m) ≤ umax 32.
Proof.
  intros Hb Hp Hr. unfold load_stored_sources in Hr. try_step Hr u1. try_step Hr v. try_step Hr count.
  rewrite (peek_version _ _ _ Hp Ev) in Hr. change (SOURCES_VERSION_V1 =? SOURCES_VERSION_V1) with true in Hr. cbv iota in Hr.
  apply load_v1_fits in Hr as [Hm Hs]; [|done|apply map_Forall_empty]. rewrite map_size_empty in Hs.
  split; [done|]. apply read_u32_range in Ecount as [_ Hc]; [|done]. lia.
Qed.

(** ** The theorems *)

Inductive SourceOp := PutSource (logical : N) (d : StoredSource) | DropSource (logical : N).

Definition run_op (s : SourceStore) (op : SourceOp) : SourceStore :=
  match op with PutSource l d => insert_stored l d s | DropSource l => source_remove l s end.
Definition map_op (m : gmap N StoredSource) (op : SourceOp) : gmap N StoredSource :=
  match op with PutSource l d => put_document m (l, d) | DropSource l => delete l m end.
Definition op_fits (op : SourceOp) : Prop := match op with PutSource l d => source_fits l d | DropSource _ => True end.

Lemma run_ops_spec ops s : store_ok s → Forall op_fits ops →
  store_ok (foldl run_op s ops) ∧ documents (foldl run_op s ops) = foldl map_op (documents s) ops.
Proof.
  intros Hs Ho. revert s Hs. induction Ho as [|[l d|l] ops Hd _ IH]; intros s Hs; [done|..]; cbn [foldl run_op map_op].
  - rewrite <-insert_stored_spec by done. by apply IH, insert_stored_ok.
  - rewrite <-source_remove_spec. by apply IH, source_remove_ok.
Qed.

(** C19. The two forms of the source store are one map.  After any sequence of
    insertions and removals, a resident store and a lazy store over an opened file
    both answer from the map those operations give on the documents they started
    with, where an insertion is ignored when the map holds a newer generation of its
    id: the document, the bounded text (with its length when it is over the bound),
    the text of one generation, the number of documents, the listing; and the
    generation that seeds the next open is at least every stored one. *)
Theorem source_store_refines s ops :
  store_ok s → Forall op_fits ops →
  let s' := foldl run_op s ops in
  let m := foldl map_op (documents s) ops in
  (∀ l, get_document s' l = m !! l) ∧
  (∀ l n, get_bounded s' l n = match m !! l with Some d => bounded_copy n (ss_query d) | None => inr None end) ∧
  (∀ l g n, get_bounded_at_generation s' l g n = match m !! l with Some d => generation_copy g n d | None => inr None end) ∧
  source_store_len s' = size m ∧ for_each_live_document s' ≡ₚ map_to_list m ∧
  (∀ l d, m !! l = Some d → ss_source_generation d ≤ max_source_generation s').
Proof.
  intros Hs Ho s' m. destruct (run_ops_spec ops s Hs Ho) as [Hok Hd]. fold s' in Hok, Hd. unfold m. rewrite <-Hd. split_and!.
  - intros l. by apply get_document_spec.
  - intros l n. by apply get_bounded_spec.
  - intros l g n. by apply get_bounded_at_generation_spec.
  - by apply source_store_len_spec.
  - by apply for_each_live_spec.
  - intros l d Hl. by eapply max_source_generation_ge.
Qed.

(** C18. A saved corpus is read back exactly.  Saving a store together with updates
    that are not in it yet succeeds when the documents fit the format's 32-bit
    counts and lengths, and the file, opened whole or lazily, holds exactly the
    documents the updates give when they are put one by one, with every text,
    version, generation, tag and flag. *)
Theorem source_corpus_saved s updates :
  store_ok s → Forall (λ p, source_fits p.1 p.2) updates →
  let m := foldl put_document (documents s) updates in
  N.of_nat (size m) ≤ umax 32 →
  ∃ file, write_to_with_updates s updates = inr file ∧
    (N.of_nat (length file) ≤ umax 64 →
     ∀ retain, ∃ s', store_open (Some file) retain = inr (Some file, s') ∧ store_ok s' ∧ documents s' = m).
Proof.
  intros Hs Hu m Hn. pose proof (update_winners_fit s updates Hu) as Hw.
  unfold m in *. rewrite <-update_winners_spec in * by done.
  destruct (written_store _ _ (save_entries_ok s _ Hs Hw) (save_docs s _ Hs Hw) Hn) as (file & Hf & Ho). exists file. split; [done|].
  intros Hlen. destruct (Ho Hlen) as (b & recs & Eo & Hb & Hr & _ & Em & El). pose proof (opened_documents_fit b recs Hb Hr) as Hfit. rewrite Em in Hfit.
  intros [|]; unfold store_open.
  - rewrite El. cbn [try_bind]. eauto.
  - rewrite (peek_opened _ _ Eo). cbn [try_bind]. change (SOURCES_VERSION =? SOURCES_VERSION_V1) with false. cbv iota. cbn [try_bind]. rewrite Eo.
    destruct (lazy_opened b recs Hb Hr) as [H1 H2]. eexists. split; [done|]. split; [done|]. by rewrite H2, Em.
Qed.

(** Opening a source file lazily or whole gives the same documents.  Whatever
    the bytes of the file (the current layout with or without a metadata directory,
    its first version, or the old unsorted format, which lazy opening rewrites), a
    lazy open that succeeds yields the documents a whole load of the original bytes
    yields. *)
Theorem source_open_modes_agree data file s :
  bytes_ok data → store_open (Some data) false = inr (Some file, s) → N.of_nat (length file) ≤ umax 64 →
  store_open (Some data) true = inr (Some data, Resident (documents s)) ∧ store_ok s ∧ store_ok (Resident (documents s)).
Proof.
  intros Hb Hr Hlen. unfold store_open in *. try_step Hr version. try_step Hr data'. try_step Hr base. injection Hr as -> <-.
  destruct (N.eqb_spec version SOURCES_VERSION_V1) as [->|Hv].
  - try_step Edata' m. rename Em into El. assert (map_Forall source_fits m ∧ N.of_nat (size m) ≤ umax 32) as [Hfit Hn].
    { by eapply load_first_version. }
    cbn [try_bind].
    destruct (written_store (entry_of_source <$> map_to_list m) m) as (file' & Hf & Ho); [| |done|].
    { apply Forall_fmap, Forall_forall. intros [l d] Hd%elem_of_map_to_list. by apply Hfit. }
    { rewrite docs_of_sources; [done|]. apply Forall_forall. intros [l d] Hd%elem_of_map_to_list. by apply Hfit. }
    rewrite Hf in Edata'. injection Edata' as ->. destruct (Ho Hlen) as (b & recs & Eo & Hbase & Hr & _ & Em & _). rewrite Eo in Ebase. injection Ebase as <-.
    destruct (lazy_opened b recs Hbase Hr) as [H1 H2]. rewrite H2, Em. done.
  - injection Edata' as ->. destruct (open_base_ok file base Hb Ebase) as (recs & Hbase & Hr & El). rewrite El. cbn [try_bind].
    destruct (lazy_opened base recs Hbase Hr) as [H1 H2]. rewrite H2. split; [done|]. split; [done|]. by eapply opened_documents_fit.
Qed.

(** ** Examples *)

Definition demo_shoe : StoredSource := source_with_generation (str "acme red shoe") 3 7 [(str "priority", str "5")] true.
Definition demo_older : StoredSource := source_with_generation (str "acme shoe") 2 6 [] true.
Definition demo_hat : StoredSource := source_with_generation (str "green hat") 1 8 [(str "shop", str "north"); (str "lang", str "de")] true.

Lemma demo_sources_fit : source_fits 42 demo_shoe ∧ source_fits 42 demo_older ∧ source_fits 9 demo_hat.
Proof.
  split_and!; (split; [split_and!|split; [|split; [|split]]]); unfold fits; apply (bool_decide_unpack _); by vm_compute.
Qed.

Definition demo_ops : list SourceOp := [PutSource 42 demo_shoe; PutSource 42 demo_older; PutSource 9 demo_hat; DropSource 9].

Lemma source_store_refines_witness :
  get_document (foldl run_op (store_empty false) demo_ops) 42 = Some demo_shoe ∧
  get_bounded (foldl run_op (store_empty false) demo_ops) 42 5 = inl 13%nat ∧
  get_bounded_at_generation (foldl run_op (store_empty false) demo_ops) 42 6 100 = inr None ∧
  source_store_len (foldl run_op (store_empty false) demo_ops) = 1%nat.
Proof.
  destruct demo_sources_fit as (H1 & H2 & H3).
  pose proof (source_store_refines (store_empty false) demo_ops ltac:(split; [by intros ? ?|by intros ? ?])
    ltac:(repeat (apply Forall_cons; split; [done|]); constructor)) as (Hd & Hb & Hg & Hl & _).
  rewrite Hd, Hb, Hg, Hl. by vm_compute.
Defined.

Lemma source_corpus_saved_witness :
  ∃ file, write_to_with_updates (Resident {[42 := demo_shoe]}) [(42, demo_older); (9, demo_hat)] = inr file ∧
    ∀ retain, ∃ s', store_open (Some file) retain = inr (Some file, s') ∧
      documents s' = {[9 := demo_hat; 42 := demo_shoe]}.
Proof.
  destruct demo_sources_fit as (H1 & H2 & H3).
  destruct (source_corpus_saved (Resident {[42 := demo_shoe]}) [(42, demo_older); (9, demo_hat)]
    ltac:(by apply map_Forall_singleton) ltac:(repeat (apply Forall_cons; split; [done|]); constructor)
    ltac:(apply (bool_decide_unpack _); by vm_compute)) as (file & Hf & Ho).
  exists file. split; [done|]. intros retain.
  assert (N.of_nat (length file) ≤ umax 64) as Hlen.
  { pose proof (f_equal (λ r, match r with inr f => bool_decide (N.of_nat (length f) ≤ umax 64) | inl _ => true end) Hf) as E.
    apply (bool_decide_unpack _). apply Is_true_true. etrans; [symmetry; exact E|]. by vm_compute. }
  destruct (Ho Hlen retain) as (s' & Eo & _ & Ed). exists s'. split; [done|]. rewrite Ed. by vm_compute.
Defined.

(** A file of the old format with two queries. *)
Definition demo_v1 : list N :=
  SOURCES_MAGIC ++ le32 SOURCES_VERSION_V1 ++ le32 2 ++ le64 42 ++ le32 9 ++ str "acme shoe" ++ le64 9 ++ le32 9 ++ str "green hat".

Definition demo_migrated : option (list N * SourceStore) :=
  Eval vm_compute in match store_open (Some demo_v1) false with inr (Some file, s) => Some (file, s) | _ => None end.

Lemma source_open_modes_agree_witness :
  ∃ file s, store_open (Some demo_v1) false = inr (Some file, s) ∧ store_open (Some demo_v1) true = inr (Some demo_v1, Resident (documents s)) ∧
    documents s = {[9 := legacy (str "green hat"); 42 := legacy (str "acme shoe")]}.
Proof.
  destruct demo_migrated as [[file s]|] eqn:Em; [|by vm_compute in Em]. exists file, s.
  assert (store_open (Some demo_v1) false = inr (Some file, s)) as Eo by (injection Em as <- <-; by vm_compute).
  pose proof (source_open_modes_agree demo_v1 file s ltac:(apply (bool_decide_unpack _); by vm_compute) Eo
    ltac:(injection Em as <- <-; apply (bool_decide_unpack _); by vm_compute)) as [H1 _].
  split; [done|]. split; [done|]. injection Em as <- <-. by vm_compute.
Defined.

(** ** Damage *)

(** What opens as a file of the current version has the right checksum. *)
Lemma store_open_sums data retain r :
  peek_sources_version data ≠ inr SOURCES_VERSION_V1 → store_open (Some data) retain = inr r → sums data.
Proof.
  intros Hp. unfold store_open. destruct retain.
  - intros Hr. try_step Hr m. clear Hr. unfold load_stored_sources in Em. rename Em into Hr.
    try_step Hr u1. apply return_if_inv, orb_false_iff in Eu1 as [Hlen%N.ltb_ge Hmagic]. try_step Hr version. try_step Hr count.
    destruct (N.eqb_spec version SOURCES_VERSION_V1) as [->|_].
    + destruct Hp. by apply peek_read.
    + destruct (version =? SOURCES_VERSION); [|done]. try_step Hr blob_off. by eapply check_frame_sums.
  - intros Hr. try_step Hr version. destruct (N.eqb_spec version SOURCES_VERSION_V1) as [->|_]; [done|]. cbn [try_bind] in Hr.
    try_step Hr b. clear Hr. unfold open_lazy_base in Eb. rename Eb into Hr.
    try_step Hr u1. try_step Hr v. try_step Hr u2. try_step Hr count. try_step Hr blob_off. by eapply check_frame_sums.
Qed.

(** C23. A damaged source file is refused.  When a file of the current version that
    opens has up to four consecutive bytes changed, within the checksummed part or
    within the checksum itself, opening it is an error, whether the texts are kept
    resident or read lazily; except where the change turns the version field into
    that of the first format, which has no checksum. *)
Theorem damaged_source_file_refused pre a c post retain r :
  bytes_ok (pre ++ a ++ post) → bytes_ok c → length c = length a → (length a ≤ 4)%nat → c ≠ a →
  (4 ≤ length post)%nat ∨ (length a + length post ≤ 4)%nat →
  peek_sources_version (pre ++ a ++ post) = inr SOURCES_VERSION → store_open (Some (pre ++ a ++ post)) retain = inr r →
  peek_sources_version (pre ++ c ++ post) ≠ inr SOURCES_VERSION_V1 →
  ∀ retain', ∃ e, store_open (Some (pre ++ c ++ post)) retain' = inl e.
Proof.
  intros Hb Hc Hl H4 Hne Hw Hp Ho Hp' retain'. destruct (store_open (Some (pre ++ c ++ post)) retain') as [e|r'] eqn:E; [by exists e|]. exfalso.
  eapply (sums_burst pre a c post); [done..|eapply store_open_sums; [|exact Ho]; by rewrite Hp|by eapply store_open_sums].
Qed.

Lemma damaged_source_file_refused_witness :
  (∃ r, store_open (Some demo_file) false = inr r) ∧ ∀ retain, ∃ e, store_open (Some (take 42 demo_file ++ [120] ++ drop 43 demo_file)) retain = inl e.
Proof.
  destruct (store_open (Some demo_file) false) as [|r] eqn:Er; [by vm_compute in Er|]. split; [by exists r|].
  apply (damaged_source_file_refused (take 42 demo_file) [109] [120] (drop 43 demo_file) false r);
    [apply (bool_decide_unpack _); by vm_compute|apply (bool_decide_unpack _); by vm_compute|done|apply (bool_decide_unpack _); by vm_compute|done|
     left; apply (bool_decide_unpack _); by vm_compute|by vm_compute| |by vm_compute].
  rewrite <-Er. f_equal.
Defined.

(** The exception is real: with the version byte changed from 2 to 1 the file
    opens, its checksum unread, as a corpus without the query it held. *)
Definition downgraded_file : list N := take 4 demo_file ++ [1] ++ drop 5 demo_file.

Definition text_in (data : list N) (retain : bool) (logical : N) : SourceError + option rstring :=
  let? r := store_open (Some data) retain in inr (ss_query <$> get_document r.2 logical).

Example version_damage_accepted retain :
  text_in demo_file retain 42 = inr (Some (str "acme shoe")) ∧ text_in downgraded_file retain 42 = inr None.
Proof. destruct retain; split; by vm_compute. Qed.
