(* ===== verification/Index.v ===== *)
(** * The candidate index ([engine/src/index.rs])

    Posting lists in three tiers (inline array, sorted vector, roaring bitmap)
    under signature keys. The roaring crate is not part of the sources: it is
    the class [Roaring], with its documented behaviour in [RoaringLaws]. *)

From S2P Require Import Prelude.

(** What [index.rs] uses of [roaring::RoaringBitmap]: a compressed set of
    32-bit values iterated in increasing order. *)
Class Roaring (B : Type) := {
  rb_new : B;
  rb_insert : N → B → B;
  rb_iter : B → list N;
  rb_len : B → N;
}.

Class RoaringLaws (B : Type) `{Roaring B} := {
  rb_iter_new : rb_iter rb_new = [];
  rb_iter_sorted b : StronglySorted rlt (rb_iter b);
  rb_iter_insert x y b : fits 32 y → x ∈ rb_iter (rb_insert y b) ↔ x = y ∨ x ∈ rb_iter b;
  rb_len_iter b : rb_len b = N.of_nat (length (rb_iter b));
}.

(** A bitmap as the sorted vector of its elements. *)
#[export] Instance sorted_roaring : Roaring (list N) := {|
  rb_new := [];
  rb_insert x b := sort_dedup (x :: b);
  rb_iter b := sort_dedup b;
  rb_len b := N.of_nat (length (sort_dedup b));
|}.

#[export] Instance sorted_roaring_laws : RoaringLaws (list N).
Proof.
  split; simpl; try done.
  - intros b. apply sort_dedup_sorted.
  - intros x y b _. rewrite sort_dedup_idemp, !elem_of_sort_dedup. apply elem_of_cons.
Qed.

Definition INLINE_CAP : nat := 8.
Definition ROARING_THRESHOLD : nat := 256.

Inductive Posting (B : Type) :=
  | Inline (ids : list N) (len : N)
  | Heap (v : list N)
  | RoaringTier (bm : B).
Arguments Inline {_}.
Arguments Heap {_}.
Arguments RoaringTier {_}.

Section posting.
Context {B : Type} `{Roaring B}.

(** The inline tier is an array of [INLINE_CAP] words of which the first
    [len] are ids. *)
Definition posting_new (first : N) : Posting B :=
  Inline (<[O := first]> (replicate INLINE_CAP 0)) 1.

Definition posting_push (id : N) (p : Posting B) : Posting B :=
  match p with
  | Inline ids len =>
      if (usize len <? INLINE_CAP)%nat then Inline (<[usize len := id]> ids) (wrap8 (len + 1))
      else Heap (ids ++ [id])
  | Heap v =>
      let v := v ++ [id] in
      if (ROARING_THRESHOLD <? length v)%nat
      then RoaringTier (foldl (λ bm val, rb_insert val bm) rb_new v)
      else Heap v
  | RoaringTier bm => RoaringTier (rb_insert id bm)
  end.

(** A [for] loop whose body updates the captured state [S] and breaks on false. *)
Fixpoint iter_while {S} (f : S → N → S * bool) (s : S) (l : list N) : S :=
  match l with
  | [] => s
  | id :: l' =>
      let '(s', go) := f s id in
      if go then iter_while f s' l' else s'
  end.

(** [None] is the panic of the slice [ids[..len]]. *)
Definition for_each_while {S} (f : S → N → S * bool) (s : S) (p : Posting B) : option S :=
  match p with
  | Inline ids len => ids ← slice ids 0 (usize len); Some (iter_while f s ids)
  | Heap v => Some (iter_while f s v)
  | RoaringTier bm => Some (iter_while f s (rb_iter bm))
  end.

Definition for_each {S} (f : S → N → S) (s : S) (p : Posting B) : option S :=
  for_each_while (λ s id, (f s id, true)) s p.

Definition posting_len (p : Posting B) : nat :=
  match p with
  | Inline _ len => usize len
  | Heap v => length v
  | RoaringTier bm => usize (rb_len bm)
  end.

Record CandidateIndex := mkIndex { index_map : gmap N (Posting B) }.

Definition index_new : CandidateIndex := mkIndex ∅.

Definition index_insert (sig local_id : N) (ix : CandidateIndex) : CandidateIndex :=
  mkIndex (<[sig := match index_map ix !! sig with
                    | Some p => posting_push local_id p
                    | None => posting_new local_id
                    end]> (index_map ix)).

Definition index_get (ix : CandidateIndex) (sig : N) : option (Posting B) := index_map ix !! sig.

Definition num_signatures (ix : CandidateIndex) : nat := size (index_map ix).

(** The iteration order of a hash map is not specified; the map's own order is
    one of them, and no theorem depends on it. *)
Definition index_keys (ix : CandidateIndex) : list N := (map_to_list (index_map ix)).*1.
Definition total_postings (ix : CandidateIndex) : nat :=
  sum_list (posting_len <$> (map_to_list (index_map ix)).*2).

(** The ids a posting holds, collected through [for_each]. *)
Definition posting_ids (p : Posting B) : option (list N) := for_each (λ l id, l ++ [id]) [] p.

Definition insert_all (ins : list (N * N)) (ix : CandidateIndex) : CandidateIndex :=
  foldl (λ ix e, index_insert e.1 e.2 ix) ix ins.

(** The ids inserted under one key, in order. *)
Definition inserted (sig : N) (ins : list (N * N)) : list N :=
  (filter (λ e, e.1 = sig) ins).*2.

End posting.
Arguments CandidateIndex _ : clear implicits.

(** ** Postings *)

Section posting_lemmas.
Context {B : Type} `{RoaringLaws B}.
Implicit Types p : Posting B.

(** The tier a posting of [n] ids is in, and the ids it holds. *)
Definition posting_holds p (l : list N) : Prop :=
  match p with
  | Inline ids len =>
      (1 ≤ len ≤ 8) ∧ length ids = INLINE_CAP ∧ l = take (usize len) ids
  | Heap v => (INLINE_CAP < length v ≤ ROARING_THRESHOLD)%nat ∧ l = v
  | RoaringTier bm => l = rb_iter bm
  end.

Lemma iter_while_true {S} (f : S → N → S) s l :
  iter_while (λ s id, (f s id, true)) s l = foldl f s l.
Proof. revert s. induction l as [|x l IH]; intros s; simpl; auto. Qed.

Lemma for_each_while_holds {S} (f : S → N → S * bool) s p l :
  posting_holds p l → for_each_while f s p = Some (iter_while f s l).
Proof.
  destruct p as [ids len|v|bm]; simpl.
  - intros (Hlen & Hids & ->). unfold slice. rewrite decide_True; [done|].
    rewrite Hids. unfold INLINE_CAP. lia.
  - by intros [_ ->].
  - by intros ->.
Qed.

Lemma for_each_holds {S} (f : S → N → S) s p l :
  posting_holds p l → for_each f s p = Some (foldl f s l).
Proof. intros Hp. unfold for_each. by rewrite (for_each_while_holds _ _ _ _ Hp), iter_while_true. Qed.

Lemma foldl_snoc_id {A} (l acc : list A) : foldl (λ l x, l ++ [x]) acc l = acc ++ l.
Proof. revert acc. induction l as [|x l IH]; intros acc; simpl; [by rewrite app_nil_r|]. by rewrite IH, <-app_assoc. Qed.

Lemma posting_ids_holds p l : posting_holds p l → posting_ids p = Some l.
Proof. intros Hp. unfold posting_ids. by rewrite (for_each_holds _ _ _ _ Hp), foldl_snoc_id. Qed.

Lemma posting_len_holds p l : posting_holds p l → posting_len p = length l.
Proof.
  destruct p as [ids len|v|bm]; simpl.
  - intros (? & Hids & ->). rewrite length_take, Hids. unfold INLINE_CAP. lia.
  - by intros [_ ->].
  - intros ->. rewrite rb_len_iter. lia.
Qed.

Lemma posting_new_holds id : posting_holds (posting_new id) [id].
Proof. split; [lia|]. done. Qed.

Lemma rb_of_list_elem x v (bm : B) :
  Forall (fits 32) v →
  x ∈ rb_iter (foldl (λ bm val, rb_insert val bm) bm v) ↔ x ∈ v ∨ x ∈ rb_iter bm.
Proof.
  revert bm. induction v as [|y v IH]; intros bm Hv; simpl.
  { rewrite elem_of_nil. tauto. }
  apply Forall_cons in Hv as [Hy Hv]. rewrite IH, rb_iter_insert, elem_of_cons by done. tauto.
Qed.

(** Appending an id adds it and keeps the others; when the ids so far are
    below it, it is appended at the end, whatever tier change happens. *)
Lemma posting_push_holds id p l :
  posting_holds p l → Forall (fits 32) (id :: l) →
  ∃ l', posting_holds (posting_push id p) l' ∧ (∀ x, x ∈ l' ↔ x ∈ l ∨ x = id) ∧
    (StronglySorted rlt (l ++ [id]) → l' = l ++ [id]).
Proof.
  intros Hp Hfit. apply Forall_cons in Hfit as [Hid Hfit].
  assert (∀ x : N, x ∈ l ++ [id] ↔ x ∈ l ∨ x = id) as Happ.
  { intros x. by rewrite elem_of_app, list_elem_of_singleton. }
  assert (∀ bm : B, (∀ x, x ∈ rb_iter bm ↔ x ∈ l ∨ x = id) →
    StronglySorted rlt (l ++ [id]) → rb_iter bm = l ++ [id]) as Hrb.
  { intros bm Hbm Hs. apply strictly_sorted_ext; [apply rb_iter_sorted|done|].
    intros x. by rewrite Hbm, Happ. }
  destruct p as [ids len|v|bm]; simpl in Hp |- *.
  - destruct Hp as (Hlen & Hids & ->). unfold INLINE_CAP in *.
    destruct (Nat.ltb_spec (usize len) 8) as [Hlt|Hge].
    + exists (take (usize len) ids ++ [id]). split; [|done]. split; [|split].
      * rewrite wrap_small by (unfold fits; lia). lia.
      * by rewrite length_insert.
      * rewrite wrap_small by (unfold fits; lia). rewrite N.add_1_r, N2Nat.inj_succ.
        rewrite (take_S_r _ _ id) by (rewrite list_lookup_insert_eq; [done|lia]).
        by rewrite take_insert_ge.
    + assert (len = 8) as -> by lia. exists (ids ++ [id]).
      rewrite firstn_all2 in * by (simpl; lia). split; [|done].
      split; [|done]. rewrite length_app, Hids. unfold ROARING_THRESHOLD, INLINE_CAP. simpl. lia.
  - destruct Hp as (Hlen & ->).
    destruct (Nat.ltb_spec ROARING_THRESHOLD (length (v ++ [id]))) as [Hgt|Hle].
    + set (bm := foldl _ _ _).
      assert (∀ x, x ∈ rb_iter bm ↔ x ∈ v ∨ x = id) as Hbm.
      { intros x. unfold bm. rewrite rb_of_list_elem, Happ, rb_iter_new, elem_of_nil; [tauto|].
        apply Forall_app_2; [done|]. by constructor. }
      exists (rb_iter bm). simpl. auto.
    + exists (v ++ [id]). split; [|done]. split; [|done].
      rewrite length_app in *. simpl in *. lia.
  - subst l. assert (∀ x, x ∈ rb_iter (rb_insert id bm) ↔ x ∈ rb_iter bm ∨ x = id) as Hbm.
    { intros x. rewrite rb_iter_insert by done. tauto. }
    eexists. split; [done|]. auto.
Qed.

(** ** The index *)

Implicit Types ix : CandidateIndex B.

(** [ix] is what the insertions [ins], in order, leave. *)
Definition index_holds ix (ins : list (N * N)) : Prop :=
  ∀ sig,
    match index_map ix !! sig with
    | None => inserted sig ins = []
    | Some p => ∃ l, posting_holds p l ∧ (∀ x, x ∈ l ↔ x ∈ inserted sig ins) ∧
        (StronglySorted rlt (inserted sig ins) → l = inserted sig ins)
    end.

Lemma index_holds_new : index_holds index_new [].
Proof. done. Qed.

Lemma elem_of_inserted sig x ins : x ∈ inserted sig ins ↔ (sig, x) ∈ ins.
Proof.
  unfold inserted. rewrite list_elem_of_fmap. split.
  - intros ([s y] & -> & [Hs Hin]%list_elem_of_filter). by simpl in Hs; subst.
  - intros Hin. exists (sig, x). split; [done|]. by apply list_elem_of_filter.
Qed.

Lemma inserted_snoc sig s x ins :
  inserted sig (ins ++ [(s, x)]) = if decide (s = sig) then inserted sig ins ++ [x] else inserted sig ins.
Proof.
  unfold inserted. rewrite filter_app, fmap_app, filter_cons. simpl.
  case_decide; simpl; [done|]. by rewrite app_nil_r.
Qed.

Lemma inserted_app sig ins ins' : inserted sig (ins ++ ins') = inserted sig ins ++ inserted sig ins'.
Proof. unfold inserted. by rewrite filter_app, fmap_app. Qed.

Lemma index_insert_holds sig id ix ins :
  index_holds ix ins → Forall (fits 32) (ins ++ [(sig, id)]).*2 →
  index_holds (index_insert sig id ix) (ins ++ [(sig, id)]).
Proof.
  intros Hix Hfit s. unfold index_insert. simpl. rewrite inserted_snoc.
  specialize (Hix s). rewrite fmap_app, Forall_app in Hfit. destruct Hfit as [Hfit Hid].
  case_decide as Es; [subst s; rewrite lookup_insert_eq|by rewrite lookup_insert_ne].
  destruct (index_map ix !! sig) as [p|].
  - destruct Hix as (l & Hl & Hmem & Hsorted).
    destruct (posting_push_holds id p l) as (l' & Hl' & Hmem' & Hsorted'); [done| |].
    { apply Forall_cons. split; [by apply Forall_inv in Hid|]. apply Forall_forall. intros x Hx.
      apply Hmem, elem_of_inserted in Hx. rewrite Forall_forall in Hfit. apply Hfit.
      apply list_elem_of_fmap. by exists (sig, x). }
    exists l'. split; [done|]. split.
    + intros x. by rewrite Hmem', elem_of_app, list_elem_of_singleton, Hmem.
    + intros Hs. rewrite <-Hsorted by (by eapply StronglySorted_app_1_l).
      apply Hsorted'. by rewrite Hsorted by (by eapply StronglySorted_app_1_l).
  - rewrite Hix. exists [id]. split; [apply posting_new_holds|]. done.
Qed.

Lemma insert_all_holds ix ins0 ins :
  index_holds ix ins0 → Forall (fits 32) (ins0 ++ ins).*2 →
  index_holds (insert_all ins ix) (ins0 ++ ins).
Proof.
  revert ix ins0. induction ins as [|[s x] ins IH]; intros ix ins0 Hix Hfit; simpl.
  { by rewrite app_nil_r. }
  rewrite cons_middle, app_assoc in *. apply IH; [|done].
  apply index_insert_holds; [done|]. rewrite fmap_app, Forall_app in Hfit. tauto.
Qed.

Lemma index_holds_keys ix ins sig : index_holds ix ins → inserted sig ins ≠ [] → sig ∈ index_keys ix.
Proof.
  intros Hix Hne. specialize (Hix sig). unfold index_keys. apply list_elem_of_fmap.
  destruct (index_map ix !! sig) as [p|] eqn:E; [|done].
  exists (sig, p). split; [done|]. by apply elem_of_map_to_list.
Qed.

(** Walking the posting under [sig], with any loop body. *)
Lemma index_get_holds ix ins sig :
  index_holds ix ins →
  match index_get ix sig with
  | None => inserted sig ins = []
  | Some p =>
      ∃ l, (∀ S (f : S → N → S * bool) s, for_each_while f s p = Some (iter_while f s l)) ∧
        posting_len p = length l ∧ (∀ x, x ∈ l ↔ x ∈ inserted sig ins) ∧
        (StronglySorted rlt (inserted sig ins) → l = inserted sig ins)
  end.
Proof.
  intros Hix. specialize (Hix sig). unfold index_get. destruct (index_map ix !! sig) as [p|]; [|done].
  destruct Hix as (l & Hl & Hmem & Hs). exists l. split; [intros; by apply for_each_while_holds|].
  split; [by apply posting_len_holds|]. done.
Qed.

(** A posting comes from an insertion. *)
Lemma insert_all_posting sig ins ix p :
  index_map (insert_all ins ix) !! sig = Some p → is_Some (index_map ix !! sig) ∨ inserted sig ins ≠ [].
Proof.
  revert ix. induction ins as [|[s x] ins IH]; intros ix; simpl; [by left|]. intros [[q Hq]|Hne]%IH.
  - destruct (decide (s = sig)) as [->|Hs].
    + right. intros E. assert (x ∈ inserted sig ((sig, x) :: ins)) as Hx by (apply elem_of_inserted; by left). by rewrite E in Hx; apply not_elem_of_nil in Hx.
    + left. unfold index_insert in Hq. simpl in Hq. rewrite lookup_insert_ne in Hq by done. by exists q.
  - right. change ((s, x) :: ins) with ([(s, x)] ++ ins). rewrite inserted_app. by intros [_ ?]%app_nil.
Qed.

(** C31. The index returns what was inserted: after any sequence of insertions of
    32-bit ids, a loop over the posting of a key (with any body, early exit
    included) never panics and visits exactly the ids inserted under that key;
    when they were inserted in increasing order, as segments do, it visits them
    in that order and once each, through both tier promotions. A key has a
    posting exactly when something was inserted under it. *)
Theorem candidate_index_faithful (ins : list (N * N)) sig :
  Forall (fits 32) ins.*2 →
  match index_get (insert_all ins (@index_new B)) sig with
  | None => inserted sig ins = []
  | Some p =>
      inserted sig ins ≠ [] ∧
      ∃ l, (∀ S (f : S → N → S * bool) s, for_each_while f s p = Some (iter_while f s l)) ∧
        posting_len p = length l ∧ (∀ x, x ∈ l ↔ x ∈ inserted sig ins) ∧
        (StronglySorted rlt (inserted sig ins) → l = inserted sig ins)
  end.
Proof.
  intros Hfit. pose proof (index_get_holds _ _ sig (insert_all_holds index_new [] ins index_holds_new Hfit)) as Hg. simpl in Hg.
  destruct (index_get _ sig) as [p|] eqn:E; [|done]. split; [|done]. unfold index_get in E.
  destruct (insert_all_posting _ _ _ _ E) as [[q Hq]|]; [|done]. simpl in Hq. by rewrite lookup_empty in Hq.
Qed.

End posting_lemmas.

Lemma candidate_index_faithful_witness :
  let ins := (λ n, (7, N.of_nat n)) <$> seq 0 300 in
  match index_get (insert_all ins (@index_new (list N))) 7 with
  | None => inserted 7 ins = []
  | Some p =>
      inserted 7 ins ≠ [] ∧
      ∃ l, (∀ S (f : S → N → S * bool) s, for_each_while f s p = Some (iter_while f s l)) ∧
        posting_len p = length l ∧ (∀ x, x ∈ l ↔ x ∈ inserted 7 ins) ∧
        (StronglySorted rlt (inserted 7 ins) → l = inserted 7 ins)
  end.
Proof.
  intros ins. apply (candidate_index_faithful ins 7).
  apply Forall_fmap, Forall_fmap, Forall_forall. intros n Hn%elem_of_seq. unfold fits. simpl. lia.
Defined.
