(* ===== verification/Phrase.v ===== *)
(** * Quoted phrases ([engine/src/normalize.rs], [normalize/core/phrase.rs])

    A quoted clause is compiled to a graph over token positions, and occurs in
    a title when the two graphs have a common contiguous path. The file models
    the graph types, the allocating search [phrase_graph_matches], the budgeted
    search [phrase_graph_matches_bounded] and the grouping [phrase_graph], and
    relates the searches to the path relation [reaches]. *)

From S2P Require Import Prelude.

Record PositionArc := mkPositionArc { pa_feature : N; pa_start : N; pa_end : N }.
Record PhraseArc := mkPhraseArc { ph_start : N; ph_end : N; alternatives : list N }.
Record PhraseGraph := mkPhraseGraph { positions : N; arcs : list PhraseArc }.

#[export] Instance PositionArc_eq_dec : EqDecision PositionArc.
Proof. solve_decision. Defined.
#[export] Instance PhraseArc_eq_dec : EqDecision PhraseArc.
Proof. solve_decision. Defined.
#[export] Instance PhraseGraph_eq_dec : EqDecision PhraseGraph.
Proof. solve_decision. Defined.

(** [#[derive(Ord)]]: the fields in declaration order. *)
#[export] Instance PhraseArc_ord : RustOrd PhraseArc :=
  λ a b, rcmp (ph_start a, (ph_end a, alternatives a)) (ph_start b, (ph_end b, alternatives b)).
#[export] Instance PhraseGraph_ord : RustOrd PhraseGraph :=
  λ a b, rcmp (positions a, arcs a) (positions b, arcs b).

#[export] Instance PhraseArc_ord_laws : RustOrdLaws PhraseArc.
Proof.
  apply (ord_laws_via (λ a, (ph_start a, (ph_end a, alternatives a)))); [|done].
  by intros [] [] [= -> -> ->].
Qed.
#[export] Instance PhraseGraph_ord_laws : RustOrdLaws PhraseGraph.
Proof.
  apply (ord_laws_via (λ a, (positions a, arcs a))); [|done]. by intros [] [] [= -> ->].
Qed.

(** The key of [sort_unstable_by_key(|arc| (arc.start, arc.end, arc.feature))]:
    all the fields, so the sort is determined. *)
Definition arc_key (a : PositionArc) : N * (N * N) := (pa_start a, (pa_end a, pa_feature a)).

#[export] Instance PositionArc_ord : RustOrd PositionArc := λ a b, rcmp (arc_key a) (arc_key b).
#[export] Instance PositionArc_ord_laws : RustOrdLaws PositionArc.
Proof. apply (ord_laws_via arc_key); [|done]. by intros [] [] [= -> -> ->]. Qed.

Definition PHRASE_GRAPH_MAX_STATES : N := 65536.
Definition PHRASE_GRAPH_MAX_WORK : N := 65536.

(** [spend_phrase_graph_work]; [None] is false. *)
Definition spend_phrase_graph_work (work : N) : option N :=
  if PHRASE_GRAPH_MAX_WORK <=? work then None else Some (work + 1).

(** ** Building a graph from analyzed edges *)

(** The loop of [phrase_graph]; [grouped] is held last element first. *)
Fixpoint group_arcs (l : list PositionArc) (grouped : list PhraseArc) : list PhraseArc :=
  match l with
  | [] => reverse grouped
  | arc :: l' =>
      let fresh := mkPhraseArc (pa_start arc) (pa_end arc) [pa_feature arc] in
      match grouped with
      | last :: rest =>
          if (ph_start last =? pa_start arc) && (ph_end last =? pa_end arc)
          then group_arcs l' (mkPhraseArc (ph_start last) (ph_end last)
                                (alternatives last ++ [pa_feature arc]) :: rest)
          else group_arcs l' (fresh :: grouped)
      | [] => group_arcs l' [fresh]
      end
  end.

Definition phrase_graph (pos : N) (l : list PositionArc) : PhraseGraph :=
  mkPhraseGraph pos (group_arcs (sort_dedup l) []).

(** ** The allocating search *)

Abbreviation state := (N * N)%type (only parsing).

(** [Vec::insert]. *)
Definition insert_at {A} (at_ : nat) (x : A) (l : list A) : list A := take at_ l ++ x :: drop at_ l.

(** One pair of arcs: the innermost body. The stack's top is the head of the list. *)
Definition try_push (query_arc : PhraseArc) (ss : list state * list state) (title_arc : PositionArc) :
  list state * list state :=
  let '(stack, seen) := ss in
  if bsearch_mem (pa_feature title_arc) (alternatives query_arc) then
    let next := (ph_end query_arc, pa_end title_arc) in
    match binary_search next seen with
    | inl _ => (stack, seen)
    | inr at_ => (next :: stack, insert_at at_ next seen)
    end
  else (stack, seen).

Definition expand_state (query : PhraseGraph) (title : list PositionArc) (s : state)
  (ss : list state * list state) : list state * list state :=
  let '(query_node, title_node) := s in
  foldl
    (λ ss query_arc,
       foldl (try_push query_arc) ss
         (take_while (λ a, pa_start a =? title_node)
            (skip_while (λ a, pa_start a <? title_node) title)))
    ss
    (take_while (λ a, ph_start a =? query_node)
       (skip_while (λ a, ph_start a <? query_node) (arcs query))).

(** The [while let Some(..) = stack.pop()] loop of one start; [None] is fuel
    exhaustion, which [phrase_graph_matches_total] excludes. *)
Fixpoint search_from (fuel : nat) (query : PhraseGraph) (title : list PositionArc)
  (stack seen : list state) : option bool :=
  match fuel with
  | O => None
  | S fuel' =>
      match stack with
      | [] => Some false
      | s :: stack' =>
          if s.1 =? positions query then Some true
          else
            let '(stack'', seen') := expand_state query title s (stack', seen) in
            search_from fuel' query title stack'' seen'
      end
  end.

(** Every state is pushed once, and a pushed state is a pair of arc ends. *)
Definition search_fuel (query : PhraseGraph) (title : list PositionArc) : nat :=
  (2 + length (arcs query) * length title)%nat.

Fixpoint search_starts (query : PhraseGraph) (title : list PositionArc) (starts : list N) : option bool :=
  match starts with
  | [] => Some false
  | ts :: starts' =>
      found ← search_from (search_fuel query title) query title [(0, ts)] [(0, ts)];
      if found : bool then Some true else search_starts query title starts'
  end.

Definition phrase_graph_matches (query : PhraseGraph) (title_positions : N) (title : list PositionArc) :
  option bool :=
  if (positions query =? 0) || bool_decide (arcs query = []) then Some false
  else search_starts query title (range_to title_positions).

(** ** The budgeted search *)

(** The mutable state of the loop: work spent, stack, seen set. *)
Record Search := mkSearch { sw_work : N; sw_stack : list state; sw_seen : gset state }.

Definition push_next (next : state) (sr : Search) : option Search :=
  if bool_decide (next ∈ sw_seen sr) then Some sr
  else if PHRASE_GRAPH_MAX_STATES <=? N.of_nat (size (sw_seen sr)) then None
  else Some (mkSearch (sw_work sr) (next :: sw_stack sr) ({[next]} ∪ sw_seen sr)).

(** [for title_arc in &title[title_start..title_end]]; [None] is [return None]. *)
Fixpoint title_arc_loop (alts : list N) (end_ : N) (tarcs : list PositionArc) (sr : Search) : option Search :=
  match tarcs with
  | [] => Some sr
  | ta :: tarcs' =>
      w ← spend_phrase_graph_work (sw_work sr);
      let sr := mkSearch w (sw_stack sr) (sw_seen sr) in
      if bsearch_mem (pa_feature ta) alts then
        sr ← push_next (end_, pa_end ta) sr;
        title_arc_loop alts end_ tarcs' sr
      else title_arc_loop alts end_ tarcs' sr
  end.

(** [for query_arc in &query.arcs] with its [continue] and [break]. *)
Fixpoint query_arc_loop (query_node : N) (tarcs : list PositionArc) (qarcs : list PhraseArc) (sr : Search) :
  option Search :=
  match qarcs with
  | [] => Some sr
  | qa :: qarcs' =>
      w ← spend_phrase_graph_work (sw_work sr);
      let sr := mkSearch w (sw_stack sr) (sw_seen sr) in
      if ph_start qa <? query_node then query_arc_loop query_node tarcs qarcs' sr
      else if query_node <? ph_start qa then Some sr
      else
        sr ← title_arc_loop (alternatives qa) (ph_end qa) tarcs sr;
        query_arc_loop query_node tarcs qarcs' sr
  end.

(** [&title[title_start..title_end]] between the two partition points. *)
Definition title_run (title : list PositionArc) (title_node : N) : list PositionArc :=
  let rest := drop (partition_point (λ a, pa_start a <? title_node) title) title in
  take (partition_point (λ a, pa_start a =? title_node) rest) rest.

(** The outer option is fuel, the inner one the fail-open result. *)
Fixpoint bounded_loop (fuel : nat) (query : PhraseGraph) (title : list PositionArc) (sr : Search) :
  option (option bool) :=
  match fuel with
  | O => None
  | S fuel' =>
      match sw_stack sr with
      | [] => Some (Some false)
      | (query_node, title_node) :: stack' =>
          if query_node =? positions query then Some (Some true)
          else
            match query_arc_loop query_node (title_run title title_node) (arcs query)
                    (mkSearch (sw_work sr) stack' (sw_seen sr)) with
            | None => Some None
            | Some sr' => bounded_loop fuel' query title sr'
            end
      end
  end.

Definition initial_search (title_positions : N) : Search :=
  foldl (λ sr ts, mkSearch (sw_work sr) ((0, ts) :: sw_stack sr) ({[(0, ts)]} ∪ sw_seen sr))
    (mkSearch 0 [] ∅) (range_to title_positions).

(** No more states are ever pushed than [PHRASE_GRAPH_MAX_STATES]. *)
Definition bounded_fuel : nat := S (usize PHRASE_GRAPH_MAX_STATES).

Definition phrase_graph_matches_bounded (query : PhraseGraph) (title_positions : N)
  (title : list PositionArc) (complete : bool) : option (option bool) :=
  if negb complete then Some None
  else if (positions query =? 0) || bool_decide (arcs query = []) then Some (Some false)
  else if PHRASE_GRAPH_MAX_STATES <? title_positions then Some None
  else bounded_loop bounded_fuel query title (initial_search title_positions).

Lemma bounded_fuel_eq : bounded_fuel = S (usize PHRASE_GRAPH_MAX_STATES).
Proof. done. Qed.

#[global] Opaque bounded_fuel.

(** ** The meaning: a common path *)

(** The graphs have a common path from [s]: query arc and title arc from the
    current nodes, the title label among the query alternatives. *)
Inductive reaches (query : PhraseGraph) (title : list PositionArc) (s : state) : state → Prop :=
  | reaches_refl : reaches query title s s
  | reaches_step qn tn qa ta :
      reaches query title s (qn, tn) →
      qa ∈ arcs query → ph_start qa = qn →
      ta ∈ title → pa_start ta = tn →
      pa_feature ta ∈ alternatives qa →
      reaches query title s (ph_end qa, pa_end ta).

(** The quoted phrase occurs in a title of [title_positions] tokens. *)
Definition phrase_occurs (query : PhraseGraph) (title_positions : N) (title : list PositionArc) : Prop :=
  positions query ≠ 0 ∧ arcs query ≠ [] ∧
  ∃ start stop, start < title_positions ∧ reaches query title (0, start) (positions query, stop).

(** The canonical forms the searches rely on. *)
Definition title_sorted (title : list PositionArc) : Prop := StronglySorted (key_le pa_start) title.
Definition query_sorted (query : PhraseGraph) : Prop :=
  StronglySorted (key_le ph_start) (arcs query) ∧
  Forall (λ a, StronglySorted rle (alternatives a)) (arcs query).

(** The successors of a state, in the order the loops visit them. *)
Definition nexts (query : PhraseGraph) (title : list PositionArc) (s : state) : list state :=
  qa ← filter (λ a, ph_start a = s.1) (arcs query);
  ta ← filter (λ t, pa_start t = s.2 ∧ pa_feature t ∈ alternatives qa) title;
  [(ph_end qa, pa_end ta)].

Implicit Types (query : PhraseGraph) (title : list PositionArc) (sr : Search).

Lemma elem_of_nexts query title s n :
  n ∈ nexts query title s ↔
  ∃ qa ta, qa ∈ arcs query ∧ ph_start qa = s.1 ∧ ta ∈ title ∧ pa_start ta = s.2 ∧
    pa_feature ta ∈ alternatives qa ∧ n = (ph_end qa, pa_end ta).
Proof.
  unfold nexts. rewrite list_elem_of_bind. setoid_rewrite list_elem_of_bind.
  setoid_rewrite list_elem_of_filter. setoid_rewrite list_elem_of_singleton. naive_solver.
Qed.

(** Every state pushed is a pair of a query end and a title end. *)
Definition end_states (query : PhraseGraph) (title : list PositionArc) : gset state :=
  list_to_set (list_prod (ph_end <$> arcs query) (pa_end <$> title)).

Lemma nexts_end_states query title s : list_to_set (nexts query title s) ⊆ end_states query title.
Proof.
  intros n Hn%elem_of_list_to_set. apply elem_of_nexts in Hn as (qa & ta & Hq & _ & Ht & _ & _ & ->).
  apply elem_of_list_to_set, list_elem_of_In, in_prod_iff. rewrite <-!list_elem_of_In. split; by apply list_elem_of_fmap_2.
Qed.

Lemma size_end_states query title : (size (end_states query title) ≤ length (arcs query) * length title)%nat.
Proof.
  unfold end_states. etrans; [apply size_list_to_set_le|]. by rewrite length_prod, !length_fmap.
Qed.

(** ** A reference search

    Both loops are instances of one depth-first search over the successor
    function; it is the reference the implementations are compared with. *)

Definition dfs_push (ss : list state * gset state) (n : state) : list state * gset state :=
  if bool_decide (n ∈ ss.2) then ss else (n :: ss.1, {[n]} ∪ ss.2).

Fixpoint dfs (fuel : nat) (query : PhraseGraph) (title : list PositionArc)
  (ss : list state * gset state) : option bool :=
  match fuel with
  | O => None
  | S fuel' =>
      match ss.1 with
      | [] => Some false
      | s :: stack' =>
          if s.1 =? positions query then Some true
          else dfs fuel' query title (foldl dfs_push (stack', ss.2) (nexts query title s))
      end
  end.

Section dfs_correct.
Context (query : PhraseGraph) (title : list PositionArc).

Lemma dfs_push_seen l ss n : n ∈ (foldl dfs_push ss l).2 ↔ n ∈ ss.2 ∨ n ∈ l.
Proof.
  revert ss. induction l as [|m l IH]; intros ss; simpl; [set_solver|].
  rewrite IH, elem_of_cons. unfold dfs_push.
  case_bool_decide; simpl; [|rewrite elem_of_union, elem_of_singleton]; naive_solver.
Qed.

Lemma dfs_push_stack l ss n :
  n ∈ (foldl dfs_push ss l).1 ↔ n ∈ ss.1 ∨ (n ∈ l ∧ n ∉ ss.2).
Proof.
  revert ss. induction l as [|m l IH]; intros ss; simpl; [set_solver|].
  rewrite IH, elem_of_cons. unfold dfs_push. case_bool_decide as Hm; simpl.
  - naive_solver.
  - rewrite elem_of_cons, not_elem_of_union, not_elem_of_singleton.
    destruct (decide (n = m)); naive_solver.
Qed.

(** Every state enters the stack once: pending plus unseen states never grow. *)
Lemma dfs_push_measure (univ : gset state) l ss :
  list_to_set l ⊆ univ →
  (length (foldl dfs_push ss l).1 + size (univ ∖ (foldl dfs_push ss l).2) ≤
   length ss.1 + size (univ ∖ ss.2))%nat.
Proof.
  revert ss. induction l as [|m l IH]; intros ss Hl; simpl; [lia|].
  simpl in Hl. etrans; [apply IH; set_solver|]. unfold dfs_push. case_bool_decide as Hm; simpl; [done|].
  assert (univ ∖ ss.2 = {[m]} ∪ univ ∖ ({[m]} ∪ ss.2)) as ->.
  { apply set_eq. intros x. rewrite elem_of_union, !elem_of_difference, elem_of_union, elem_of_singleton.
    destruct (decide (x = m)); set_solver. }
  rewrite (size_union {[m]} (univ ∖ ({[m]} ∪ ss.2))) by set_solver. rewrite size_singleton. lia.
Qed.

(** The states seen are reachable from [starts], and closed under successors
    except at the pending ones. *)
Record dfs_inv (starts : state → Prop) (ss : list state * gset state) : Prop := {
  inv_starts s : starts s → s ∈ ss.2;
  inv_stack s : s ∈ ss.1 → s ∈ ss.2;
  inv_reach s : s ∈ ss.2 → ∃ s0, starts s0 ∧ reaches query title s0 s;
  inv_closed s : s ∈ ss.2 → s ∉ ss.1 → s.1 ≠ positions query ∧ ∀ n, n ∈ nexts query title s → n ∈ ss.2;
}.

Lemma reaches_nexts s0 s n : reaches query title s0 s → n ∈ nexts query title s → reaches query title s0 n.
Proof.
  intros Hr (qa & ta & ? & ? & ? & ? & ? & ->)%elem_of_nexts. destruct s. by econstructor.
Qed.

Lemma dfs_inv_expand starts s stack seen :
  dfs_inv starts (s :: stack, seen) → s.1 ≠ positions query →
  dfs_inv starts (foldl dfs_push (stack, seen) (nexts query title s)).
Proof.
  intros [Hst Hsk Hr Hc] Hs. simpl in *. split.
  - intros x Hx. apply dfs_push_seen. left. by apply Hst.
  - intros x. rewrite dfs_push_stack, dfs_push_seen. simpl. intros [Hx|[Hx _]]; [|tauto].
    left. apply Hsk. by right.
  - intros x. rewrite dfs_push_seen. simpl. intros [Hx|Hx]; [by apply Hr|].
    destruct (Hr s) as (s0 & ? & ?); [by apply Hsk; left|]. exists s0. eauto using reaches_nexts.
  - intros x. rewrite dfs_push_seen, dfs_push_stack. simpl. intros Hseen Hnst.
    destruct (decide (x = s)) as [->|Hne].
    + split; [done|]. intros n Hn. apply dfs_push_seen. by right.
    + destruct (decide (x ∈ seen)) as [Hx|Hx]; [|naive_solver].
      destruct (Hc x Hx) as [Hf Hn]; [rewrite elem_of_cons; naive_solver|].
      split; [done|]. intros n Hnn. apply dfs_push_seen. left. by apply Hn.
Qed.

Lemma dfs_inv_done starts seen s0 s :
  dfs_inv starts ([], seen) → starts s0 → reaches query title s0 s → s ∈ seen ∧ s.1 ≠ positions query.
Proof.
  intros [Hst _ _ Hc] H0 Hr. simpl in *.
  assert (s ∈ seen) as Hs.
  { induction Hr as [|qn tn qa ta Hr IH Hq Hqs Ht Hts Hf]; [by apply Hst|].
    apply (Hc _ IH (not_elem_of_nil _)). apply elem_of_nexts. naive_solver. }
  split; [done|]. apply (Hc s Hs (not_elem_of_nil _)).
Qed.

(** With fuel for the pending and the unseen states, the search decides
    whether a final state is reachable. *)
Lemma dfs_correct (univ : gset state) starts fuel ss :
  dfs_inv starts ss → (∀ s, list_to_set (nexts query title s) ⊆ univ) →
  (length ss.1 + size (univ ∖ ss.2) < fuel)%nat →
  ∃ b, dfs fuel query title ss = Some b ∧
    (b = true ↔ ∃ s0 t, starts s0 ∧ reaches query title s0 (positions query, t)).
Proof.
  revert ss. induction fuel as [|fuel IH]; intros [stack seen] Hinv Huniv Hfuel; [lia|].
  cbn [dfs fst snd] in *. destruct stack as [|s stack].
  - exists false. split; [done|]. split; [done|]. intros (s0 & t & H0 & Hr).
    by destruct (dfs_inv_done _ _ _ _ Hinv H0 Hr) as [_ []].
  - destruct (N.eqb_spec s.1 (positions query)) as [E|E].
    + exists true. split; [done|]. split; [|done]. intros _.
      destruct Hinv as [_ Hsk Hr _]. destruct (Hr s) as (s0 & ? & ?); [apply Hsk; by left|].
      exists s0, s.2. rewrite <-E. by destruct s.
    + apply IH; [by apply dfs_inv_expand|done|].
      pose proof (dfs_push_measure univ (nexts query title s) (stack, seen) (Huniv s)).
      simpl in *. lia.
Qed.

End dfs_correct.

(** The successors through one query arc. *)
Definition arc_nexts (title : list PositionArc) (tn : N) (qa : PhraseArc) : list state :=
  ta ← filter (λ t, pa_start t = tn ∧ pa_feature t ∈ alternatives qa) title;
  [(ph_end qa, pa_end ta)].

Lemma arc_nexts_cons title tn qa ta :
  arc_nexts (ta :: title) tn qa =
  (if decide (pa_start ta = tn ∧ pa_feature ta ∈ alternatives qa)
   then [(ph_end qa, pa_end ta)] else []) ++ arc_nexts title tn qa.
Proof. unfold arc_nexts. rewrite filter_cons. by case_decide. Qed.

Lemma nexts_arc_nexts query title s :
  nexts query title s = qa ← filter (λ a, ph_start a = s.1) (arcs query); arc_nexts title s.2 qa.
Proof. done. Qed.

(** ** The allocating search is the reference search *)

Lemma insert_at_sorted {A} `{RustOrdLaws A} (x : A) (l : list A) at_ :
  StronglySorted rlt l → binary_search x l = inr at_ →
  StronglySorted rlt (insert_at at_ x l) ∧ (x ∉ l) ∧ (∀ y, y ∈ insert_at at_ x l ↔ y = x ∨ y ∈ l).
Proof.
  intros Hs E. pose proof (sorted_bs_ordered x l (strictly_sorted_sorted l Hs)) as Hord.
  apply binary_search_by_err in E as (Hi & Hlo & Hhi); [|done].
  assert (∀ y, y ∈ take at_ l → rlt y x) as Htake.
  { intros y (j & Hj & Hlt)%elem_of_take. by apply (Hlo j). }
  assert (∀ y, y ∈ drop at_ l → rlt x y) as Hdrop.
  { intros y (j & Hj)%list_elem_of_lookup. rewrite lookup_drop in Hj.
    unfold rlt. rewrite rcmp_opp. rewrite (Hhi _ _ Hj) by lia. done. }
  assert (∀ y, y ∈ l ↔ y ∈ take at_ l ∨ y ∈ drop at_ l) as Hl.
  { intros y. by rewrite <-elem_of_app, take_drop. }
  unfold insert_at. split_and!.
  - rewrite <-(take_drop at_ l) in Hs. apply StronglySorted_app. split_and!.
    + intros y z Hy [->|Hz]%elem_of_cons; [by apply Htake|]. trans x; auto.
    + by eapply StronglySorted_app_1_l.
    + constructor; [by eapply StronglySorted_app_1_r|]. by apply Forall_forall.
  - intros [Hx|Hx]%Hl; [apply Htake in Hx|apply Hdrop in Hx]; by apply rlt_irrefl in Hx.
  - intros y. rewrite elem_of_app, elem_of_cons, Hl. tauto.
Qed.

(** A sorted seen-vector stands for the set of its elements. *)
Definition seen_rel (ss : list state * list state) (rs : list state * gset state) : Prop :=
  StronglySorted rlt ss.2 ∧ rs = (ss.1, list_to_set ss.2).

Lemma try_push_rel qa ta ss rs :
  StronglySorted rle (alternatives qa) → seen_rel ss rs →
  seen_rel (try_push qa ss ta)
    (if decide (pa_feature ta ∈ alternatives qa) then dfs_push rs (ph_end qa, pa_end ta) else rs).
Proof.
  intros Hqa [Hs ->]. destruct ss as [stack seen]. unfold try_push. simpl in *.
  rewrite (bsearch_mem_bool _ _) by done. case_bool_decide as Hf; [rewrite decide_True by done|by rewrite decide_False].
  unfold dfs_push. simpl. destruct (binary_search _ seen) as [i|i] eqn:E.
  - rewrite bool_decide_true; [done|]. apply elem_of_list_to_set.
    apply binary_search_by_ok in E as (e & He & ->%rcmp_eq_iff). by eapply list_elem_of_lookup_2.
  - apply insert_at_sorted in E as (Hs' & Hn & Hel); [|done].
    rewrite bool_decide_false by by rewrite elem_of_list_to_set.
    split; [done|]. simpl. f_equal. apply set_eq. intros y.
    rewrite elem_of_union, elem_of_singleton, !elem_of_list_to_set, Hel. done.
Qed.

Lemma try_push_loop_rel qa title tn ss rs :
  StronglySorted rle (alternatives qa) → seen_rel ss rs →
  seen_rel (foldl (try_push qa) ss (filter (λ a, pa_start a = tn) title))
    (foldl dfs_push rs (arc_nexts title tn qa)).
Proof.
  intros Hqa. revert ss rs. induction title as [|ta title IH]; intros ss rs Hrel; [done|].
  rewrite arc_nexts_cons, filter_cons. pose proof (try_push_rel qa ta ss rs Hqa Hrel) as Hp.
  destruct (decide (pa_start ta = tn)) as [Hs|Hs].
  - simpl. destruct (decide (pa_feature ta ∈ alternatives qa)) as [Hf|Hf].
    + rewrite decide_True by done. simpl. by apply IH.
    + rewrite decide_False by naive_solver. simpl. by apply IH.
  - rewrite decide_False by naive_solver. simpl. by apply IH.
Qed.

Lemma expand_state_rel query title s ss rs :
  query_sorted query → title_sorted title → seen_rel ss rs →
  seen_rel (expand_state query title s ss) (foldl dfs_push rs (nexts query title s)).
Proof.
  intros [Hq Halt] Ht. destruct s as [qn tn]. unfold expand_state. rewrite nexts_arc_nexts.
  rewrite (key_run_while ph_start), (key_run_while pa_start) by done. simpl.
  assert (Forall (λ a, StronglySorted rle (alternatives a)) (filter (λ a, ph_start a = qn) (arcs query))) as Hf.
  { apply Forall_forall. intros a [_ Ha]%list_elem_of_filter. rewrite Forall_forall in Halt. auto. }
  revert ss rs. induction Hf as [|qa l Hqa _ IH]; intros ss rs Hrel; simpl; [done|].
  rewrite foldl_app. apply IH. by apply try_push_loop_rel.
Qed.

Lemma search_from_dfs query title fuel stack seen :
  query_sorted query → title_sorted title → StronglySorted rlt seen →
  search_from fuel query title stack seen = dfs fuel query title (stack, list_to_set seen).
Proof.
  intros Hq Ht. revert stack seen. induction fuel as [|fuel IH]; intros stack seen Hs; [done|].
  cbn [search_from dfs fst snd]. destruct stack as [|s stack]; [done|].
  case_match; [done|].
  destruct (expand_state_rel query title s (stack, seen) (stack, list_to_set seen)) as [Hs' ->]; [done..|].
  destruct (expand_state query title s (stack, seen)) as [stack' seen'] eqn:E. by apply IH.
Qed.

(** The invariant of a search that has just pushed its start states. *)
Lemma dfs_inv_initial (query : PhraseGraph) (title : list PositionArc) (stack : list state) (seen : gset state) :
  (∀ s, s ∈ stack ↔ s ∈ seen) → dfs_inv query title (λ s, s ∈ stack) (stack, seen).
Proof.
  intros Hss. split; simpl.
  - intros s. by rewrite Hss.
  - intros s. by rewrite Hss.
  - intros s Hs. exists s. rewrite Hss. split; [done|constructor].
  - intros s Hs Hn. rewrite Hss in Hn. done.
Qed.

Lemma search_one_start query title ts :
  query_sorted query → title_sorted title →
  ∃ b, search_from (search_fuel query title) query title [(0, ts)] [(0, ts)] = Some b ∧
    (b = true ↔ ∃ t, reaches query title (0, ts) (positions query, t)).
Proof.
  intros Hq Ht. rewrite search_from_dfs by first [done | repeat constructor].
  destruct (dfs_correct query title (end_states query title) (λ s, s ∈ [(0, ts)])
    (search_fuel query title) ([(0, ts)], list_to_set [(0, ts)])) as (b & -> & Hb).
  - apply dfs_inv_initial. intros s. rewrite elem_of_list_to_set. done.
  - apply nexts_end_states.
  - unfold search_fuel. pose proof (size_end_states query title). simpl.
    assert (size (end_states query title ∖ ({[(0%N, ts)]} ∪ ∅)) ≤ size (end_states query title))%nat
      by (apply subseteq_size; set_solver). lia.
  - exists b. split; [done|]. rewrite Hb. setoid_rewrite list_elem_of_singleton. naive_solver.
Qed.

(** The allocating search returns, and decides whether the phrase occurs. *)
Lemma phrase_graph_matches_spec query title_positions title :
  query_sorted query → title_sorted title →
  ∃ b, phrase_graph_matches query title_positions title = Some b ∧
    (b = true ↔ phrase_occurs query title_positions title).
Proof.
  intros Hq Ht. unfold phrase_graph_matches, phrase_occurs.
  destruct (N.eqb_spec (positions query) 0) as [E|E]; simpl; [exists false; naive_solver|].
  case_bool_decide as Ea; [exists false; naive_solver|].
  assert (∀ starts, ∃ b, search_starts query title starts = Some b ∧
    (b = true ↔ ∃ start stop, start ∈ starts ∧ reaches query title (0, start) (positions query, stop))) as Hss.
  { induction starts as [|ts starts IH]; cbn [search_starts].
    { exists false. split; [done|]. split; [done|]. by intros (? & ? & ?%not_elem_of_nil & _). }
    destruct (search_one_start query title ts Hq Ht) as (b0 & -> & Hb0). simpl.
    destruct IH as (b & -> & Hb). setoid_rewrite elem_of_cons.
    destruct b0; [exists true|exists b]; (split; [done|]); naive_solver. }
  destruct (Hss (range_to title_positions)) as (b & -> & Hb). exists b. split; [done|].
  rewrite Hb. setoid_rewrite elem_of_range_to. naive_solver.
Qed.

(** ** The budgeted search is the reference search until a budget runs out *)

Lemma dfs_push_set l ss : (foldl dfs_push ss l).2 = ss.2 ∪ list_to_set l.
Proof. apply set_eq. intros n. by rewrite dfs_push_seen, elem_of_union, elem_of_list_to_set. Qed.

Lemma dfs_push_size l ss :
  (length (foldl dfs_push ss l).1 + size ss.2 = length ss.1 + size (foldl dfs_push ss l).2)%nat.
Proof.
  revert ss. induction l as [|m l IH]; intros ss; simpl; [lia|].
  specialize (IH (dfs_push ss m)). unfold dfs_push in *. case_bool_decide as Hm; [done|].
  simpl in *. rewrite (size_union {[m]} ss.2), size_singleton in IH by set_solver. lia.
Qed.

Definition search_pair (sr : Search) : list state * gset state := (sw_stack sr, sw_seen sr).

(** A loop over arcs worth [n] units of work, with successors [l]. *)
Definition arc_loop_spec (n : nat) (l : list state) (sr : Search) (r : option Search) : Prop :=
  match r with
  | Some sr' =>
      search_pair sr' = foldl dfs_push (search_pair sr) l ∧
      sw_work sr' = sw_work sr + N.of_nat n ∧ sw_work sr' ≤ N.max PHRASE_GRAPH_MAX_WORK (sw_work sr) ∧
      (N.of_nat (size (sw_seen sr)) ≤ PHRASE_GRAPH_MAX_STATES →
       N.of_nat (size (sw_seen sr')) ≤ PHRASE_GRAPH_MAX_STATES)
  | None =>
      PHRASE_GRAPH_MAX_WORK < sw_work sr + N.of_nat n ∨
      PHRASE_GRAPH_MAX_STATES < N.of_nat (size (sw_seen sr ∪ list_to_set l))
  end.

Lemma arc_loop_spec_app n1 n2 l1 l2 sr r (k : Search → option Search) :
  arc_loop_spec n1 l1 sr r → (∀ sr', arc_loop_spec n2 l2 sr' (k sr')) →
  arc_loop_spec (n1 + n2) (l1 ++ l2) sr (r ≫= k).
Proof.
  intros Hr Hk. destruct r as [sr1|]; simpl in *.
  - destruct Hr as (E & Hw & Hm & Hs). specialize (Hk sr1). destruct (k sr1) as [sr2|]; simpl in *.
    + destruct Hk as (E2 & Hw2 & Hm2 & Hs2). rewrite foldl_app, <-E, E2. split_and!; [done|lia|lia|auto].
    + pose proof (f_equal snd E) as E'. simpl in E'. rewrite dfs_push_set in E'. simpl in E'.
      rewrite E', list_to_set_app_L, <-union_assoc_L in *. destruct Hk as [Hk|Hk]; [left|right]; [lia|done].
  - destruct Hr as [Hr|Hr]; [left; lia|right]. rewrite list_to_set_app_L.
    assert (size (sw_seen sr ∪ list_to_set l1) ≤ size (sw_seen sr ∪ (list_to_set l1 ∪ list_to_set l2)))%nat
      by (apply subseteq_size; set_solver). lia.
Qed.

Lemma spend_spec sr (k : N → option Search) n l :
  (∀ w, arc_loop_spec n l (mkSearch w (sw_stack sr) (sw_seen sr)) (k w)) →
  arc_loop_spec (S n) l sr (spend_phrase_graph_work (sw_work sr) ≫= k).
Proof.
  intros Hk. unfold spend_phrase_graph_work.
  destruct (N.leb_spec PHRASE_GRAPH_MAX_WORK (sw_work sr)); simpl; [left; lia|].
  specialize (Hk (sw_work sr + 1)). destruct (k _) as [sr'|]; simpl in *; [|lia].
  destruct Hk as (? & ? & ? & ?). split_and!; [done|lia|lia|done].
Qed.

Lemma push_next_spec next sr : arc_loop_spec 0 [next] sr (push_next next sr).
Proof.
  unfold push_next. case_bool_decide as Hn; simpl.
  - unfold dfs_push, search_pair. simpl. rewrite bool_decide_true by done. split_and!; [done|lia|lia|done].
  - destruct (N.leb_spec PHRASE_GRAPH_MAX_STATES (N.of_nat (size (sw_seen sr)))) as [Hle|Hlt]; simpl.
    + right. rewrite union_empty_r_L, union_comm_L, size_union, size_singleton by set_solver. lia.
    + unfold dfs_push, search_pair. simpl. rewrite bool_decide_false by done. split_and!; [done|simpl; lia|simpl; lia|].
      intros _. rewrite (size_union {[next]} (sw_seen sr)), size_singleton by set_solver. lia.
Qed.

Lemma title_arc_loop_spec qa title tn sr :
  StronglySorted rle (alternatives qa) →
  arc_loop_spec (length (filter (λ a, pa_start a = tn) title)) (arc_nexts title tn qa) sr
    (title_arc_loop (alternatives qa) (ph_end qa) (filter (λ a, pa_start a = tn) title) sr).
Proof.
  intros Hqa. revert sr. induction title as [|ta title IH]; intros sr.
  { simpl. split_and!; [done|lia|lia|done]. }
  rewrite arc_nexts_cons, filter_cons. destruct (decide (pa_start ta = tn)) as [Hs|Hs].
  - cbn [title_arc_loop length]. apply spend_spec. intros w.
    rewrite (bsearch_mem_bool _ _) by done. case_bool_decide as Hf.
    + rewrite decide_True by done. apply (arc_loop_spec_app 0); [apply push_next_spec|done].
    + rewrite decide_False by naive_solver. apply IH.
  - rewrite decide_False by naive_solver. apply IH.
Qed.

(** The work one expansion spends: one unit per query arc looked at, one per
    title arc tried. It does not depend on the alternatives. *)
Fixpoint query_work (query_node : N) (run : nat) (qarcs : list PhraseArc) : nat :=
  match qarcs with
  | [] => O
  | qa :: qarcs' =>
      S (if ph_start qa <? query_node then query_work query_node run qarcs'
         else if query_node <? ph_start qa then O
         else (run + query_work query_node run qarcs')%nat)
  end.

Lemma query_arc_loop_spec qn tn title qarcs sr :
  StronglySorted (key_le ph_start) qarcs → Forall (λ a, StronglySorted rle (alternatives a)) qarcs →
  let run := filter (λ a, pa_start a = tn) title in
  arc_loop_spec (query_work qn (length run) qarcs)
    (filter (λ a, ph_start a = qn) qarcs ≫= arc_nexts title tn) sr
    (query_arc_loop qn run qarcs sr).
Proof.
  intros Hs Ha run. revert sr. induction Hs as [|qa qarcs Hs IH Hf]; intros sr.
  { simpl. split_and!; [done|lia|lia|done]. }
  apply Forall_cons in Ha as [Hqa Ha]. specialize (IH Ha). cbn [query_arc_loop query_work].
  apply spend_spec. intros w.
  destruct (N.ltb_spec (ph_start qa) qn) as [Hlt|Hge].
  { rewrite filter_cons_False by lia. apply IH. }
  destruct (N.ltb_spec qn (ph_start qa)) as [Hgt|Hle].
  { rewrite filter_none.
    - simpl. split_and!; [done|lia|lia|done].
    - intros b [->|Hb]%elem_of_cons; [lia|]. rewrite Forall_forall in Hf. specialize (Hf b Hb).
      unfold key_le in Hf. lia. }
  rewrite filter_cons_True by lia. apply arc_loop_spec_app; [|apply IH]. by apply title_arc_loop_spec.
Qed.

Lemma title_run_filter title tn : title_sorted title → title_run title tn = filter (λ a, pa_start a = tn) title.
Proof. intros Ht. by apply key_run_partition_point. Qed.

(** The work of expanding one state, and of expanding a set of states. *)
Definition expand_work (query : PhraseGraph) (title : list PositionArc) (s : state) : nat :=
  query_work s.1 (length (filter (λ a, pa_start a = s.2) title)) (arcs query).

Definition set_work (query : PhraseGraph) (title : list PositionArc) (X : gset state) : nat :=
  sum_list_with (expand_work query title) (elements X).

(** A bound on the work of one state. *)
Definition expand_cost (query : PhraseGraph) (title : list PositionArc) : nat :=
  (length (arcs query) * S (length title))%nat.

Lemma expand_work_le query title s : (expand_work query title s ≤ expand_cost query title)%nat.
Proof.
  unfold expand_work, expand_cost. pose proof (length_filter (λ a, pa_start a = s.2) title) as Hf.
  induction (arcs query) as [|qa qarcs IH]; simpl; [lia|]. repeat case_match; lia.
Qed.

(** One expansion of the budgeted search. *)
Lemma bounded_expand_spec query title qn tn sr :
  query_sorted query → title_sorted title →
  arc_loop_spec (expand_work query title (qn, tn)) (nexts query title (qn, tn)) sr
    (query_arc_loop qn (title_run title tn) (arcs query) sr).
Proof.
  intros [Hq Ha] Ht. rewrite title_run_filter, nexts_arc_nexts by done. by apply query_arc_loop_spec.
Qed.

(** The loop returns within its fuel; a verdict is the reference verdict. *)
Lemma bounded_loop_dfs query title fuel sr :
  query_sorted query → title_sorted title →
  N.of_nat (size (sw_seen sr)) ≤ PHRASE_GRAPH_MAX_STATES →
  (length (sw_stack sr) + usize PHRASE_GRAPH_MAX_STATES < fuel + size (sw_seen sr))%nat →
  ∃ r, bounded_loop fuel query title sr = Some r ∧
    (∀ b, r = Some b → dfs fuel query title (search_pair sr) = Some b).
Proof.
  intros Hq Ht. revert sr. induction fuel as [|fuel IH]; intros sr Hsz Hfuel.
  { assert (size (sw_seen sr) ≤ usize PHRASE_GRAPH_MAX_STATES)%nat by lia. lia. }
  cbn [bounded_loop dfs search_pair fst snd]. destruct (sw_stack sr) as [|[qn tn] stack] eqn:Est; [by eexists|].
  simpl (fst (qn, tn)). case_match; [by eexists|].
  pose proof (bounded_expand_spec query title qn tn (mkSearch (sw_work sr) stack (sw_seen sr)) Hq Ht) as Hx.
  destruct (query_arc_loop _ _ _ _) as [sr'|]; [|by eexists].
  destruct Hx as (E & _ & _ & Hs). unfold search_pair in E at 2. cbn [sw_stack sw_seen] in E, Hs.
  rewrite <-E. apply IH; [by apply Hs|].
  pose proof (dfs_push_size (nexts query title (qn, tn)) (stack, sw_seen sr)) as Hm.
  rewrite <-E in Hm. simpl in Hm, Hfuel. lia.
Qed.

Lemma set_work_union query title (X Y : gset state) :
  X ## Y → set_work query title (X ∪ Y) = (set_work query title X + set_work query title Y)%nat.
Proof. intros HXY. unfold set_work. rewrite elements_disj_union by done. apply sum_list_with_app. Qed.

Lemma set_work_mono query title (X Y : gset state) :
  X ⊆ Y → (set_work query title X ≤ set_work query title Y)%nat.
Proof.
  intros HXY. rewrite (union_difference_L X Y HXY), set_work_union by set_solver. lia.
Qed.

Lemma set_work_singleton query title s : set_work query title {[s]} = expand_work query title s.
Proof. unfold set_work. rewrite elements_singleton. simpl. lia. Qed.

Lemma set_work_le query title (X : gset state) :
  (set_work query title X ≤ size X * expand_cost query title)%nat.
Proof.
  unfold set_work, size, set_size. simpl. induction (elements X) as [|s l IH]; simpl; [lia|].
  pose proof (expand_work_le query title s). lia.
Qed.

(** The states already expanded, and the accounting of the work spent on them. *)
Definition expanded (sr : Search) : gset state := sw_seen sr ∖ list_to_set (sw_stack sr).

Record accounted (query : PhraseGraph) (title : list PositionArc) (sr : Search) : Prop := {
  acc_nodup : NoDup (sw_stack sr);
  acc_stack s : s ∈ sw_stack sr → s ∈ sw_seen sr;
  acc_work : sw_work sr = N.of_nat (set_work query title (expanded sr));
  acc_budget : sw_work sr ≤ PHRASE_GRAPH_MAX_WORK;
  acc_states : N.of_nat (size (sw_seen sr)) ≤ PHRASE_GRAPH_MAX_STATES;
}.

Lemma dfs_push_NoDup l ss :
  NoDup ss.1 → (∀ s, s ∈ ss.1 → s ∈ ss.2) → NoDup (foldl dfs_push ss l).1.
Proof.
  revert ss. induction l as [|n l IH]; intros ss Hnd Hsub; simpl; [done|].
  unfold dfs_push at 2. case_bool_decide as Hn; [by apply IH|]. apply IH; simpl.
  - constructor; [|done]. intros ?%Hsub. done.
  - intros s [->|Hs]%elem_of_cons; [set_solver|]. apply Hsub in Hs. set_solver.
Qed.

(** What one expansion does to the accounts. *)
Lemma bounded_expand_accounts query title qn tn stack sr sr' :
  query_sorted query → title_sorted title → accounted query title sr →
  sw_stack sr = (qn, tn) :: stack →
  query_arc_loop qn (title_run title tn) (arcs query) (mkSearch (sw_work sr) stack (sw_seen sr)) = Some sr' →
  accounted query title sr' ∧ expanded sr' = {[(qn, tn)]} ∪ expanded sr ∧
  search_pair sr' = foldl dfs_push (stack, sw_seen sr) (nexts query title (qn, tn)).
Proof.
  intros Hq Ht [Hnd Hsub Hw Hb Hs] Est Eq.
  pose proof (bounded_expand_spec query title qn tn (mkSearch (sw_work sr) stack (sw_seen sr)) Hq Ht) as Hx.
  rewrite Eq in Hx. destruct Hx as (E & Hw' & Hb' & Hs'). unfold search_pair in E at 2.
  cbn [sw_work sw_stack sw_seen] in *. rewrite Est in Hnd, Hsub.
  apply NoDup_cons in Hnd as [Hnin Hnd].
  pose proof (dfs_push_seen (nexts query title (qn, tn)) (stack, sw_seen sr)) as Hseen.
  pose proof (dfs_push_stack (nexts query title (qn, tn)) (stack, sw_seen sr)) as Hstack.
  pose proof (dfs_push_NoDup (nexts query title (qn, tn)) (stack, sw_seen sr) Hnd) as Hnd'.
  rewrite <-E in *. unfold search_pair in Hseen, Hstack, Hnd'. cbn [fst snd] in *.
  assert ((qn, tn) ∈ sw_seen sr) as Hin by (apply Hsub; by left).
  assert (expanded sr' = {[(qn, tn)]} ∪ expanded sr) as Hexp.
  { apply set_eq. intros s. unfold expanded. rewrite elem_of_union, elem_of_singleton, !elem_of_difference,
      !elem_of_list_to_set, Hseen, Hstack, Est, elem_of_cons.
    destruct (decide (s = (qn, tn))) as [->|]; [naive_solver|].
    destruct (decide (s ∈ sw_seen sr)); naive_solver. }
  split; [|done]. split.
  - apply Hnd'. intros s Hs0. apply Hsub. by right.
  - intros s. rewrite Hstack, Hseen. intros [Hs0|[Hs0 _]]; [left; apply Hsub; by right|by right].
  - rewrite Hexp, set_work_union, set_work_singleton, Hw', Hw; [lia|].
    apply disjoint_singleton_l. unfold expanded. rewrite Est. set_solver.
  - lia.
  - auto.
Qed.

(** A negative verdict explored a closed set within both budgets. *)
Lemma bounded_loop_false query title starts fuel sr :
  query_sorted query → title_sorted title → accounted query title sr →
  dfs_inv query title starts (search_pair sr) →
  bounded_loop fuel query title sr = Some (Some false) →
  ∃ R : gset state, dfs_inv query title starts ([], R) ∧
    N.of_nat (size R) ≤ PHRASE_GRAPH_MAX_STATES ∧ N.of_nat (set_work query title R) ≤ PHRASE_GRAPH_MAX_WORK.
Proof.
  intros Hq Ht. revert sr. induction fuel as [|fuel IH]; intros sr Hacc Hinv; [done|].
  cbn [bounded_loop]. destruct (sw_stack sr) as [|[qn tn] stack] eqn:Est.
  { intros _. exists (sw_seen sr). unfold search_pair in Hinv. rewrite Est in Hinv.
    destruct Hacc as [_ _ Hw Hb Hs]. unfold expanded in Hw. rewrite Est in Hw. simpl in Hw.
    rewrite difference_empty_L in Hw. split_and!; [done|done|lia]. }
  destruct (N.eqb_spec qn (positions query)) as [|Hne]; [done|].
  destruct (query_arc_loop _ _ _ _) as [sr'|] eqn:Eq; [|done].
  apply (bounded_expand_accounts query title qn tn stack sr) in Eq as (Hacc' & _ & E); [|done..].
  apply IH; [done|]. rewrite E. apply dfs_inv_expand; [|done].
  unfold search_pair in Hinv. by rewrite Est in Hinv.
Qed.

(** While the states and the work of a closed set fit the budgets, there is a verdict. *)
Lemma bounded_loop_budget (query : PhraseGraph) (title : list PositionArc) (R : gset state) fuel sr :
  query_sorted query → title_sorted title → accounted query title sr →
  N.of_nat (size R) ≤ PHRASE_GRAPH_MAX_STATES → N.of_nat (set_work query title R) ≤ PHRASE_GRAPH_MAX_WORK →
  sw_seen sr ⊆ R → (∀ s, s ∈ R → list_to_set (nexts query title s) ⊆ R) →
  bounded_loop fuel query title sr ≠ Some None.
Proof.
  intros Hq Ht Hacc HR Hwk. revert sr Hacc.
  induction fuel as [|fuel IH]; intros sr Hacc Hsub Hclosed; [done|].
  cbn [bounded_loop]. destruct (sw_stack sr) as [|[qn tn] stack] eqn:Est; [done|].
  case_match; [done|].
  assert ((qn, tn) ∈ sw_seen sr) as Hin by (apply (acc_stack _ _ _ Hacc); rewrite Est; by left).
  assert (list_to_set (nexts query title (qn, tn)) ⊆ R) as Hn by (apply Hclosed; set_solver).
  destruct (query_arc_loop _ _ _ _) as [sr'|] eqn:Eq.
  - apply (bounded_expand_accounts query title qn tn stack sr) in Eq as (Hacc' & _ & E); [|done..].
    apply IH; [done| |done]. pose proof (f_equal snd E) as Es. simpl in Es.
    rewrite dfs_push_set in Es. simpl in Es. set_solver.
  - pose proof (bounded_expand_spec query title qn tn (mkSearch (sw_work sr) stack (sw_seen sr)) Hq Ht) as Hx.
    rewrite Eq in Hx. simpl in Hx. intros _. destruct Hx as [Hx|Hx].
    + assert (set_work query title ({[(qn, tn)]} ∪ expanded sr) ≤ set_work query title R)%nat as Hle.
      { apply set_work_mono. unfold expanded. set_solver. }
      rewrite set_work_union, set_work_singleton in Hle.
      * rewrite (acc_work _ _ _ Hacc) in Hx. lia.
      * apply disjoint_singleton_l. unfold expanded. rewrite Est. set_solver.
    + assert (size (sw_seen sr ∪ list_to_set (nexts query title (qn, tn))) ≤ size R)%nat
        by (apply subseteq_size; set_solver). lia.
Qed.

Lemma dfs_mono query title f f' ss b :
  dfs f query title ss = Some b → (f ≤ f')%nat → dfs f' query title ss = Some b.
Proof.
  revert f' ss. induction f as [|f IH]; intros [|f'] ss Hd Hf; try done; [lia|].
  cbn [dfs] in *. destruct ss.1; [done|]. case_match; [done|]. apply IH; [done|lia].
Qed.

Lemma initial_search_spec tp :
  sw_work (initial_search tp) = 0 ∧
  length (sw_stack (initial_search tp)) = usize tp ∧
  size (sw_seen (initial_search tp)) = usize tp ∧
  (∀ s, s ∈ sw_stack (initial_search tp) ↔ s.1 = 0 ∧ s.2 < tp) ∧
  (∀ s, s ∈ sw_seen (initial_search tp) ↔ s.1 = 0 ∧ s.2 < tp) ∧
  NoDup (sw_stack (initial_search tp)).
Proof.
  unfold initial_search. setoid_rewrite <-elem_of_range_to. rewrite <-length_range_to.
  pose proof (NoDup_range_to tp) as Hnd. induction (range_to tp) as [|x l IH] using rev_ind.
  { simpl. setoid_rewrite elem_of_nil. split_and!; [done..|naive_solver|set_solver|constructor]. }
  apply NoDup_app in Hnd as (Hnd & Hx & _).
  destruct (IH Hnd) as (Hw & Hl & Hs & Hst & Hse & Hnd'). rewrite foldl_app. cbn [foldl sw_work sw_stack sw_seen].
  assert (x ∉ l) as Hxl by (intros ?; by eapply Hx; [|left]).
  setoid_rewrite elem_of_app. setoid_rewrite list_elem_of_singleton. rewrite length_app. simpl.
  split_and!; [done|lia| | | |].
  - rewrite size_union, size_singleton by (apply disjoint_singleton_l; rewrite Hse; naive_solver). lia.
  - intros [a b]. rewrite elem_of_cons, Hst. simpl. naive_solver.
  - intros [a b]. rewrite elem_of_union, elem_of_singleton, Hse. simpl. naive_solver.
  - constructor; [|done]. rewrite Hst. naive_solver.
Qed.

(** The allocating search always returns, and decides whether the two
    analyzed graphs have a common contiguous path from some title position to
    the end of the quoted phrase. *)
Theorem phrase_graph_matches_correct query title_positions title :
  query_sorted query → title_sorted title →
  ∃ b, phrase_graph_matches query title_positions title = Some b ∧
    (b = true ↔ phrase_occurs query title_positions title).
Proof. apply phrase_graph_matches_spec. Qed.

Definition demo_query : PhraseGraph := mkPhraseGraph 2 [mkPhraseArc 0 1 [7; 9]; mkPhraseArc 1 2 [8]].
Definition demo_title : list PositionArc :=
  [mkPositionArc 5 0 1; mkPositionArc 9 1 2; mkPositionArc 8 2 3].

Lemma demo_sorted : query_sorted demo_query ∧ title_sorted demo_title.
Proof.
  unfold query_sorted, title_sorted, demo_query, demo_title. simpl.
  split; [split|]; repeat (constructor; try done).
Qed.

Lemma phrase_graph_matches_correct_witness :
  ∃ b, phrase_graph_matches demo_query 3 demo_title = Some b ∧
    (b = true ↔ phrase_occurs demo_query 3 demo_title).
Proof. apply (phrase_graph_matches_correct demo_query 3 demo_title); apply demo_sorted. Defined.

(** The verdict of the budgeted search, when it gives one. *)
Lemma bounded_verdict query title_positions title complete b :
  query_sorted query → title_sorted title →
  phrase_graph_matches_bounded query title_positions title complete = Some (Some b) →
  b = true ↔ phrase_occurs query title_positions title.
Proof.
  intros Hq Ht. unfold phrase_graph_matches_bounded, phrase_occurs.
  destruct complete; simpl; [|done].
  destruct (N.eqb_spec (positions query) 0) as [E|E]; simpl; [intros [= <-]; naive_solver|].
  case_bool_decide as Ea; [intros [= <-]; naive_solver|].
  destruct (N.ltb_spec PHRASE_GRAPH_MAX_STATES title_positions) as [|Hle]; [done|].
  destruct (initial_search_spec title_positions) as (Hw & Hl & Hs & Hst & Hse & _). intros Hb.
  destruct (bounded_loop_dfs query title bounded_fuel (initial_search title_positions)) as (r & Er & Hr);
    [done..|lia|rewrite bounded_fuel_eq; lia|].
  rewrite Hb in Er. simplify_eq. specialize (Hr b eq_refl).
  set (ss := search_pair (initial_search title_positions)) in *.
  destruct (dfs_correct query title (end_states query title) (λ s, s ∈ sw_stack (initial_search title_positions))
    (S (length ss.1 + size (end_states query title ∖ ss.2))) ss) as (b' & Hb' & Hiff).
  - apply dfs_inv_initial. intros s. by rewrite Hst, Hse.
  - apply nexts_end_states.
  - lia.
  - eapply (dfs_mono _ _ _ (max bounded_fuel (S (length ss.1 + size (end_states query title ∖ ss.2))))) in Hr, Hb'; [|lia..].
    rewrite Hr in Hb'. simplify_eq. rewrite Hiff. split.
    + intros ([qn tn] & t & Hs0 & Hrch). apply Hst in Hs0 as [? ?]. simpl in *. subst. naive_solver.
    + intros (_ & _ & start & stop & ? & ?). exists (0, start), stop. by rewrite Hst.
Qed.

Lemma initial_accounted query title tp :
  tp ≤ PHRASE_GRAPH_MAX_STATES → accounted query title (initial_search tp).
Proof.
  intros Htp. destruct (initial_search_spec tp) as (Hw & Hl & Hs & Hst & Hse & Hnd).
  assert (expanded (initial_search tp) = ∅) as He.
  { unfold expanded. apply set_eq. intros s. rewrite elem_of_difference, elem_of_list_to_set, Hst, Hse. set_solver. }
  split.
  - done.
  - intros s. by rewrite Hst, Hse.
  - rewrite He, Hw. done.
  - rewrite Hw. unfold PHRASE_GRAPH_MAX_WORK. lia.
  - lia.
Qed.

(** Every state on the stack has been counted in [seen], which is bounded: the
    potential [stack + (MAX - seen)] never grows while a state is expanded. *)
Definition potential (sr : Search) : nat :=
  (length (sw_stack sr) + (usize PHRASE_GRAPH_MAX_STATES - size (sw_seen sr)))%nat.

Lemma push_next_potential next sr sr' :
  push_next next sr = Some sr' → (potential sr' ≤ potential sr)%nat.
Proof.
  unfold push_next, potential. case_bool_decide as Hn; [by intros [= <-]|].
  case_match eqn:E; [done|]. intros [= <-]. apply N.leb_gt in E.
  cbn [sw_stack sw_seen length]. rewrite (size_union {[next]} (sw_seen sr)), size_singleton by set_solver. lia.
Qed.

Lemma title_arc_loop_potential alts end_ tarcs sr sr' :
  title_arc_loop alts end_ tarcs sr = Some sr' → (potential sr' ≤ potential sr)%nat.
Proof.
  revert sr. induction tarcs as [|ta tarcs IH]; intros sr; cbn [title_arc_loop]; [by intros [= <-]|].
  destruct (spend_phrase_graph_work _) as [w|]; simpl mbind; [|done].
  destruct (bsearch_mem _ _); [|apply (IH (mkSearch w (sw_stack sr) (sw_seen sr)))].
  destruct (push_next _ _) as [sr1|] eqn:E; simpl mbind; [|done]. intros Hl%IH.
  apply push_next_potential in E. etrans; [exact Hl|exact E].
Qed.

Lemma query_arc_loop_potential qn tarcs qarcs sr sr' :
  query_arc_loop qn tarcs qarcs sr = Some sr' → (potential sr' ≤ potential sr)%nat.
Proof.
  revert sr. induction qarcs as [|qa qarcs IH]; intros sr; cbn [query_arc_loop]; [by intros [= <-]|].
  destruct (spend_phrase_graph_work _) as [w|]; simpl mbind; [|done].
  destruct (_ <? qn); [apply (IH (mkSearch w (sw_stack sr) (sw_seen sr)))|].
  destruct (qn <? _); [by intros [= <-]|].
  destruct (title_arc_loop _ _ _ _) as [sr1|] eqn:E; simpl mbind; [|done]. intros Hl%IH.
  apply title_arc_loop_potential in E. etrans; [exact Hl|exact E].
Qed.

Lemma bounded_loop_total query title fuel sr :
  (potential sr < fuel)%nat → ∃ r, bounded_loop fuel query title sr = Some r.
Proof.
  revert sr. induction fuel as [|fuel IH]; intros sr Hp; [lia|]. cbn [bounded_loop].
  destruct (sw_stack sr) as [|[qn tn] stack] eqn:Es; [by eexists|].
  destruct (_ =? _); [by eexists|]. destruct (query_arc_loop _ _ _ _) as [sr'|] eqn:E; [|by eexists].
  apply IH. apply query_arc_loop_potential in E. unfold potential in *.
  rewrite Es in Hp. cbn [sw_stack sw_seen length] in *. lia.
Qed.

Lemma bounded_total query tp title complete :
  ∃ r, phrase_graph_matches_bounded query tp title complete = Some r.
Proof.
  unfold phrase_graph_matches_bounded. repeat case_match; try by eexists.
  apply bounded_loop_total. destruct (initial_search_spec tp) as (_ & Hl & Hs & _).
  unfold potential. rewrite Hl, Hs, bounded_fuel_eq. apply N.ltb_ge in H1. lia.
Qed.

(** C17. The budgeted search of the matcher never diverges; a verdict agrees with
    the allocating search; an incomplete analysis has no verdict; and while
    title positions plus arc pairs stay within the state budget, and that
    number times the cost of one expansion within the work budget, a complete
    analysis always has a verdict. *)
Theorem phrase_graph_matches_bounded_correct query title_positions title complete :
  query_sorted query → title_sorted title →
  ∃ r, phrase_graph_matches_bounded query title_positions title complete = Some r ∧
    (∀ b, r = Some b → phrase_graph_matches query title_positions title = Some b) ∧
    (complete = false → r = None) ∧
    (complete = true →
     let states := (usize title_positions + length (arcs query) * length title)%nat in
     N.of_nat states ≤ PHRASE_GRAPH_MAX_STATES →
     N.of_nat (states * expand_cost query title) ≤ PHRASE_GRAPH_MAX_WORK →
     r ≠ None).
Proof.
  intros Hq Ht.
  destruct (bounded_total query title_positions title complete) as [r Hr].
  exists r. split; [done|]. split; [|split].
  - intros b ->. apply bounded_verdict in Hr; [|done..].
    destruct (phrase_graph_matches_spec query title_positions title Hq Ht) as (b' & -> & Hb').
    f_equal. apply eq_true_iff_eq. by rewrite Hr, Hb'.
  - intros ->. unfold phrase_graph_matches_bounded in Hr. simpl in Hr. congruence.
  - intros -> states Hst Hwk ->. revert Hr. unfold phrase_graph_matches_bounded. simpl.
    destruct (_ || _); [done|].
    destruct (N.ltb_spec PHRASE_GRAPH_MAX_STATES title_positions); [unfold states in Hst; lia|].
    destruct (initial_search_spec title_positions) as (Hw & Hl & Hs & _).
    set (univ := sw_seen (initial_search title_positions) ∪ end_states query title).
    pose proof (size_end_states query title) as He.
    assert (size univ ≤ states)%nat as Hu by (unfold univ; rewrite size_union_alt;
      assert (size (end_states query title ∖ sw_seen (initial_search title_positions)) ≤ size (end_states query title))%nat
        by (apply subseteq_size; set_solver); unfold states; lia).
    apply (bounded_loop_budget query title univ); [done|done|by apply initial_accounted|lia| |set_solver|].
    + pose proof (set_work_le query title univ).
      assert (size univ * expand_cost query title ≤ states * expand_cost query title)%nat
        by (apply Nat.mul_le_mono_r; lia). lia.
    + intros s _. pose proof (nexts_end_states query title s). set_solver.
Qed.

Lemma phrase_graph_matches_bounded_correct_witness :
  ∃ r, phrase_graph_matches_bounded demo_query 3 demo_title true = Some r ∧
    (∀ b, r = Some b → phrase_graph_matches demo_query 3 demo_title = Some b) ∧
    (true = false → r = None) ∧
    (true = true →
     let states := (usize 3 + length (arcs demo_query) * length demo_title)%nat in
     N.of_nat states ≤ PHRASE_GRAPH_MAX_STATES →
     N.of_nat (states * expand_cost demo_query demo_title) ≤ PHRASE_GRAPH_MAX_WORK →
     r ≠ None).
Proof. apply (phrase_graph_matches_bounded_correct demo_query 3 demo_title true); apply demo_sorted. Defined.

(** ** Widening a phrase

    Adding alternatives to the arcs of a query graph. *)

Definition arc_widens (a a' : PhraseArc) : Prop :=
  ph_start a = ph_start a' ∧ ph_end a = ph_end a' ∧ alternatives a ⊆ alternatives a'.

Definition graph_widens (query query' : PhraseGraph) : Prop :=
  positions query = positions query' ∧ Forall2 arc_widens (arcs query) (arcs query').

Lemma nexts_widen query query' title s n :
  graph_widens query query' → n ∈ nexts query title s → n ∈ nexts query' title s.
Proof.
  intros [_ Hw]. rewrite !elem_of_nexts. intros (qa & ta & Hqa & Hs & Ht & Hts & Hf & ->).
  apply list_elem_of_lookup in Hqa as (i & Hi).
  destruct (Forall2_lookup_l _ _ _ _ _ Hw Hi) as (qa' & Hi' & Hs' & He' & Ha).
  exists qa', ta. split; [by eapply list_elem_of_lookup_2|]. rewrite <-Hs', <-He'. split_and!; try done. by apply Ha.
Qed.

Lemma reaches_widen query query' title s s' :
  graph_widens query query' → reaches query title s s' → reaches query' title s s'.
Proof.
  intros Hw. induction 1 as [|qn tn qa ta _ IH Hq Hqs Ht Hts Hf]; [constructor|].
  eapply reaches_nexts; [exact IH|]. eapply nexts_widen; [exact Hw|]. apply elem_of_nexts. naive_solver.
Qed.

Lemma expand_work_widen query query' title s :
  graph_widens query query' → expand_work query title s = expand_work query' title s.
Proof.
  intros [_ Hw]. unfold expand_work. induction Hw as [|a a' l l' (E & _ & _) _ IH]; simpl; [done|].
  by rewrite E, IH.
Qed.

Lemma set_work_widen query query' title X :
  graph_widens query query' → set_work query title X = set_work query' title X.
Proof.
  intros Hw. unfold set_work. induction (elements X) as [|s l IH]; simpl; [done|].
  by rewrite IH, (expand_work_widen _ _ _ _ Hw).
Qed.

Lemma phrase_occurs_widen query query' tp title :
  graph_widens query query' → phrase_occurs query tp title → phrase_occurs query' tp title.
Proof.
  intros Hw (Hp & Ha & start & stop & Hs & Hr). pose proof Hw as [Ep Ea]. split_and!.
  - by rewrite <-Ep.
  - intros E. rewrite E in Ea. by apply Forall2_nil_inv_r in Ea.
  - exists start, stop. split; [done|]. rewrite <-Ep. by eapply reaches_widen.
Qed.

(** A widened graph is rejected only where the original is: neither a match
    nor a budget fail-open of the original turns into a rejection. *)
Lemma bounded_widen query query' tp title complete :
  query_sorted query → query_sorted query' → title_sorted title → graph_widens query query' →
  phrase_graph_matches_bounded query' tp title complete = Some (Some false) →
  phrase_graph_matches_bounded query tp title complete = Some (Some false).
Proof.
  intros Hq Hq' Ht Hw Hb'. destruct (bounded_total query tp title complete) as [[b|] Hb].
  - rewrite Hb. do 2 f_equal. destruct b; [|done]. apply bounded_verdict in Hb, Hb'; [|done..].
    destruct Hb' as [_ Hb']. rewrite <-Hb'; [done|]. eapply phrase_occurs_widen; [exact Hw|]. by apply Hb.
  - exfalso. unfold phrase_graph_matches_bounded in Hb, Hb'. destruct complete; simpl in *; [|done].
    destruct Hw as [Ep Ea] eqn:Hw0. clear Hw0. rewrite <-Ep in Hb'.
    destruct (positions query =? 0); simpl in *; [done|].
    case_bool_decide as E1; [done|]. case_bool_decide as E2.
    { rewrite E2 in Ea. by apply Forall2_nil_inv_r in Ea. }
    destruct (N.ltb_spec PHRASE_GRAPH_MAX_STATES tp) as [|Hle]; [done|].
    destruct (initial_search_spec tp) as (_ & _ & _ & Hst & Hse & _).
    assert (∀ q, dfs_inv q title (λ s, s ∈ sw_stack (initial_search tp)) (search_pair (initial_search tp))) as Hi.
    { intros q. apply dfs_inv_initial. intros s. by rewrite Hst, Hse. }
    apply (bounded_loop_false query' title (λ s, s ∈ sw_stack (initial_search tp))) in Hb'
      as (R & HR & Hsz & Hwk); [|done|done|by apply initial_accounted|done].
    revert Hb. apply (bounded_loop_budget query title R); [done|done|by apply initial_accounted|done| | |].
    + by rewrite (set_work_widen query query') by done.
    + intros s Hs. apply (inv_starts _ _ _ _ HR). by rewrite Hst, <-Hse.
    + intros s Hs n Hn%elem_of_list_to_set. apply (inv_closed _ _ _ _ HR s Hs (not_elem_of_nil _)).
      by eapply nexts_widen.
Qed.

(** ** Grouping edges *)

(** The singleton edges a query arc stands for. *)
Definition arc_edges (q : PhraseArc) : list PositionArc :=
  (λ f, mkPositionArc f (ph_start q) (ph_end q)) <$> alternatives q.

(** Grouping concatenates back to the edges it was given. *)
Lemma group_arcs_edges l grouped :
  mjoin (arc_edges <$> group_arcs l grouped) = mjoin (arc_edges <$> reverse grouped) ++ l.
Proof.
  revert grouped. induction l as [|a l IH]; intros grouped; simpl; [by rewrite app_nil_r|].
  assert (∀ g : list PhraseArc, mjoin (arc_edges <$> reverse g) ++ [a] ++ l =
    mjoin (arc_edges <$> reverse (mkPhraseArc (pa_start a) (pa_end a) [pa_feature a] :: g)) ++ l) as Hfresh.
  { intros g. rewrite reverse_cons, fmap_app, join_app, <-app_assoc. simpl. f_equal. by destruct a. }
  destruct grouped as [|g grouped]; [rewrite IH; apply (eq_sym (Hfresh []))|].
  destruct ((ph_start g =? pa_start a) && (ph_end g =? pa_end a)) eqn:E.
  - apply andb_prop in E as [E1%N.eqb_eq E2%N.eqb_eq]. rewrite IH, !reverse_cons, !fmap_app, !join_app.
    rewrite <-!app_assoc. f_equal. simpl. unfold arc_edges at 1. simpl.
    rewrite fmap_app, !app_nil_r, <-app_assoc. unfold arc_edges. f_equal. simpl. rewrite E1, E2. by destruct a.
  - rewrite IH. apply (eq_sym (Hfresh _)).
Qed.

Lemma group_arcs_nonempty l grouped :
  Forall (λ q, alternatives q ≠ []) grouped → Forall (λ q, alternatives q ≠ []) (group_arcs l grouped).
Proof.
  revert grouped. induction l as [|a l IH]; intros grouped Hg; simpl; [by apply Forall_reverse|].
  destruct grouped as [|g grouped]; [apply IH; by constructor|].
  apply Forall_cons in Hg as [Hg Hgs].
  case_match; apply IH; repeat constructor; simpl; try done. by destruct (alternatives g).
Qed.

(** The span of an arc; a canonical graph has one arc per span, in order. *)
Definition ph_span (a : PhraseArc) : N * N := (ph_start a, ph_end a).
Definition spans_sorted (gs : list PhraseArc) : Prop :=
  StronglySorted (λ a b, rlt (ph_span a) (ph_span b)) gs.

Lemma rlt_pair (a b c d : N) : rlt (a, b) (c, d) ↔ a < c ∨ (a = c ∧ b < d).
Proof.
  unfold rlt, rcmp, prod_ord, rcmp, N_ord. simpl.
  destruct (N.compare_spec a c); [|naive_solver lia..]. rewrite N.compare_lt_iff. naive_solver lia.
Qed.

Lemma spans_sorted_starts gs : spans_sorted gs → StronglySorted (key_le ph_start) gs.
Proof. apply StronglySorted_impl. intros a b _ _ Hab%rlt_pair. unfold key_le. lia. Qed.

(** Neighbouring groups have different spans. *)
Definition adjacent_distinct (gs : list PhraseArc) : Prop :=
  ∀ i a b, gs !! i = Some a → gs !! S i = Some b → ph_span a ≠ ph_span b.

Lemma adjacent_distinct_reverse gs : adjacent_distinct gs → adjacent_distinct (reverse gs).
Proof.
  intros Hd i a b Ha Hb. pose proof (lookup_lt_Some _ _ _ Hb) as Hi. rewrite length_reverse in Hi.
  rewrite reverse_lookup in Ha, Hb by lia. intros E. symmetry in E. revert E.
  apply (Hd (length gs - S (S i))%nat); [done|]. rewrite <-Ha. f_equal. lia.
Qed.

Lemma adjacent_distinct_cons a gs :
  adjacent_distinct gs → (∀ b, head gs = Some b → ph_span a ≠ ph_span b) → adjacent_distinct (a :: gs).
Proof.
  intros Hd Hh [|i] x y Hx Hy; simpl in *; [|by eapply Hd].
  simplify_eq. apply Hh. by destruct gs.
Qed.

Lemma adjacent_distinct_tail a gs : adjacent_distinct (a :: gs) → adjacent_distinct gs.
Proof. intros Hd i. apply (Hd (S i)). Qed.

Lemma group_arcs_adjacent l grouped :
  adjacent_distinct grouped → adjacent_distinct (group_arcs l grouped).
Proof.
  revert grouped. induction l as [|a l IH]; intros grouped Hd; simpl; [by apply adjacent_distinct_reverse|].
  destruct grouped as [|g grouped]; [apply IH; by apply adjacent_distinct_cons|].
  destruct ((ph_start g =? pa_start a) && (ph_end g =? pa_end a)) eqn:E; apply IH.
  - apply adjacent_distinct_cons; [by eapply adjacent_distinct_tail|].
    intros b Hb. apply (Hd O g b); [done|]. by destruct grouped.
  - apply adjacent_distinct_cons; [done|]. intros b [= <-]. unfold ph_span. simpl. intros [= E1 E2].
    rewrite E1, E2, !N.eqb_refl in E. done.
Qed.

Lemma spans_sorted_of_le gs :
  StronglySorted (λ a b, rle (ph_span a) (ph_span b)) gs → adjacent_distinct gs → spans_sorted gs.
Proof.
  induction 1 as [|a gs Hs IH Hf]; intros Hd; constructor; [by eapply IH, adjacent_distinct_tail|].
  destruct gs as [|b gs]; constructor.
  - apply Forall_inv in Hf. apply rle_lt_or_eq in Hf as [|Hf]; [done|]. by apply (Hd O a b) in Hf.
  - apply StronglySorted_inv in Hs as [_ Hb]. eapply Forall_impl; [exact Hb|]. intros c Hc. simpl in Hc.
    apply Forall_inv in Hf. apply rle_lt_or_eq in Hf as [Hf|Hf]; [|by apply (Hd O a b) in Hf].
    apply rle_lt_or_eq in Hc as [Hc|Hc]; [by trans (ph_span b)|]. by rewrite <-Hc.
Qed.

Lemma edges_sorted gs :
  StronglySorted rlt (mjoin (arc_edges <$> gs)) → Forall (λ q, alternatives q ≠ []) gs →
  StronglySorted (λ a b, rle (ph_span a) (ph_span b)) gs ∧ Forall (λ a, StronglySorted rlt (alternatives a)) gs.
Proof.
  assert (∀ a b : PositionArc, rlt a b → pa_start a < pa_start b ∨
    (pa_start a = pa_start b ∧ (pa_end a < pa_end b ∨ (pa_end a = pa_end b ∧ pa_feature a < pa_feature b)))) as Hlt.
  { intros a b Hab. unfold rlt, rcmp, PositionArc_ord, rcmp, prod_ord, rcmp, prod_ord, rcmp, N_ord in Hab. simpl in Hab.
    destruct (N.compare_spec (pa_start a) (pa_start b)); [|by left|done]. right. split; [done|].
    destruct (N.compare_spec (pa_end a) (pa_end b)); [|by left|done]. right. split; [done|].
    by apply N.compare_lt_iff. }
  induction gs as [|g gs IH]; intros Hs Hne; simpl in *; [by split; constructor|].
  apply Forall_cons in Hne as [Hg Hne]. apply StronglySorted_app in Hs as (Hcross & Hs1 & Hs2).
  destruct (IH Hs2 Hne) as [IH1 IH2]. split; constructor; try done.
  - apply Forall_forall. intros h Hh. rewrite Forall_forall in Hne. specialize (Hne h Hh).
    destruct (alternatives g) as [|f fs] eqn:Ef; [done|]. destruct (alternatives h) as [|k ks] eqn:Ek; [done|].
    assert (mkPositionArc f (ph_start g) (ph_end g) ∈ arc_edges g) as H1.
    { unfold arc_edges. rewrite Ef. by left. }
    assert (mkPositionArc k (ph_start h) (ph_end h) ∈ mjoin (arc_edges <$> gs)) as H2.
    { apply list_elem_of_join. exists (arc_edges h). split; [unfold arc_edges; rewrite Ek; by left|].
      by apply list_elem_of_fmap_2. }
    specialize (Hcross _ _ H1 H2). apply Hlt in Hcross. simpl in Hcross.
    apply rle_not_rlt. unfold ph_span. rewrite rlt_pair. lia.
  - clear -Hs1 Hlt. unfold arc_edges in Hs1. induction (alternatives g) as [|f fs IH]; [constructor|].
    simpl in Hs1. apply StronglySorted_inv in Hs1 as [Hs1 Hf]. constructor; [by apply IH|].
    rewrite Forall_fmap in Hf. eapply Forall_impl; [exact Hf|]. intros k Hk. simpl in Hk.
    apply Hlt in Hk. simpl in Hk. unfold rlt, rcmp, N_ord. rewrite N.compare_lt_iff. lia.
Qed.

(** The graphs the compiler stores: non-empty, one arc per span in increasing
    order, forward arcs within the positions, sorted non-empty alternatives. *)
Record phrase_canonical (g : PhraseGraph) : Prop := {
  pc_positions : positions g ≠ 0;
  pc_arcs : arcs g ≠ [];
  pc_spans : spans_sorted (arcs g);
  pc_arc : Forall (λ a, ph_start a < ph_end a ∧ ph_end a ≤ positions g ∧
    alternatives a ≠ [] ∧ StronglySorted rlt (alternatives a)) (arcs g);
}.

Lemma phrase_canonical_sorted g : phrase_canonical g → query_sorted g.
Proof.
  intros [_ _ Hs Ha]. split; [by apply spans_sorted_starts|].
  eapply Forall_impl; [exact Ha|]. intros a (_ & _ & _ & H). by apply strictly_sorted_sorted.
Qed.

(** The reachable positions of a graph: paths of arcs from position 0. *)
Inductive graph_path (l : list PhraseArc) : N → Prop :=
  | path_start : graph_path l 0
  | path_arc a : a ∈ l → graph_path l (ph_start a) → graph_path l (ph_end a).

(** A canonical graph with a path through all its positions. *)
Definition graph_ok (g : PhraseGraph) : Prop := phrase_canonical g ∧ graph_path (arcs g) (positions g).

Lemma phrase_graph_spec pos l :
  (∀ f s e, mkPositionArc f s e ∈ l ↔
    ∃ q, q ∈ arcs (phrase_graph pos l) ∧ ph_start q = s ∧ ph_end q = e ∧ f ∈ alternatives q) ∧
  query_sorted (phrase_graph pos l) ∧
  (pos ≠ 0 → l ≠ [] → Forall (λ a, pa_start a < pa_end a ∧ pa_end a ≤ pos) l → phrase_canonical (phrase_graph pos l)).
Proof.
  pose proof (group_arcs_edges (sort_dedup l) []) as He. simpl in He.
  pose proof (group_arcs_nonempty (sort_dedup l) [] (List.Forall_nil _)) as Hne.
  destruct (edges_sorted (group_arcs (sort_dedup l) [])) as [Hsp Halt]; [rewrite He; apply sort_dedup_sorted|done|].
  apply spans_sorted_of_le in Hsp; [|by apply group_arcs_adjacent].
  assert (∀ f s e, mkPositionArc f s e ∈ l ↔
    ∃ q, q ∈ arcs (phrase_graph pos l) ∧ ph_start q = s ∧ ph_end q = e ∧ f ∈ alternatives q) as Hedge.
  { intros f s e. rewrite <-(elem_of_sort_dedup _ l), <-He, list_elem_of_join.
    setoid_rewrite list_elem_of_fmap. simpl. unfold arc_edges. split.
    - intros (es & Hin & q & -> & Hq). apply list_elem_of_fmap in Hin as (f' & [= -> -> ->] & Hf).
      by exists q.
    - intros (q & Hq & <- & <- & Hf). eexists. split; [|by exists q].
      apply list_elem_of_fmap. by exists f. }
  split; [done|]. split.
  - split; [by apply spans_sorted_starts|]. eapply Forall_impl; [exact Halt|]. intros. by apply strictly_sorted_sorted.
  - intros Hpos Hl Hfwd. rewrite Forall_forall in Hfwd. rewrite Forall_forall in Hne, Halt. split; [done| |done|].
    + simpl. intros E. rewrite E in He. simpl in He. by apply Hl, sort_dedup_nil.
    + apply Forall_forall. intros q Hq. specialize (Hne q Hq). split_and!; [| |done|by apply Halt].
      all: destruct (alternatives q) as [|f fs] eqn:Ef; [done|].
      all: assert (mkPositionArc f (ph_start q) (ph_end q) ∈ l) as Hin by (apply Hedge; exists q; rewrite Ef; by repeat constructor).
      all: apply Hfwd in Hin; simpl in Hin; tauto.
Qed.

(** [phrase_graph] represents exactly the analyzed edges (an edge was analyzed
    if and only if its label is an alternative of the query arc with its
    span), and the graph of a non-empty analysis with forward edges is canonical. *)
Theorem phrase_graph_canonical pos l :
  (∀ f s e, mkPositionArc f s e ∈ l ↔
    ∃ q, q ∈ arcs (phrase_graph pos l) ∧ ph_start q = s ∧ ph_end q = e ∧ f ∈ alternatives q) ∧
  query_sorted (phrase_graph pos l) ∧
  (pos ≠ 0 → l ≠ [] → Forall (λ a, pa_start a < pa_end a ∧ pa_end a ≤ pos) l → phrase_canonical (phrase_graph pos l)).
Proof. apply phrase_graph_spec. Qed.
