(* ===== verification/Clean.v ===== *)
(** * Byte cleaning and tokens ([engine/src/normalize.rs] and [engine/src/normalize/core.rs],
      [core/helpers.rs])

    The first half of the normalizer: diacritic folding, the punctuation
    table, [clean_with] and the tokenizer of [emit_positioned], with the number
    helpers of the second half.

    Offsets into the cleaned text count characters where the source counts
    bytes. An offset is only compared with other offsets, tested for a space
    next to it, or used to slice, so the two counts give the same runs. *)

From S2P Require Import Prelude Text.

(** ** [char] *)

Definition is_ascii_digit (c : char) : bool := (48 <=? c) && (c <=? 57).
Definition is_ascii_uppercase (c : char) : bool := (65 <=? c) && (c <=? 90).
Definition is_ascii_lowercase (c : char) : bool := (97 <=? c) && (c <=? 122).
Definition is_ascii_alphanumeric (c : char) : bool :=
  is_ascii_digit c || is_ascii_uppercase c || is_ascii_lowercase c.
Definition to_ascii_lowercase (c : char) : char := if is_ascii_uppercase c then c + 32 else c.

Definition eq_ignore_ascii_case (s t : rstring) : bool :=
  bool_decide (to_ascii_lowercase <$> s = to_ascii_lowercase <$> t).

(** The folded letters with the accented characters of each. *)
Definition DIACRITICS : list (char * list char) := [
  (97, [0xE1; 0xE0; 0xE2; 0xE4; 0xE3; 0xE5; 0x101; 0x105; 0xC1; 0xC0; 0xC2; 0xC4; 0xC3; 0xC5]);
  (101, [0xE9; 0xE8; 0xEA; 0xEB; 0x113; 0x117; 0x119; 0xC9; 0xC8; 0xCA; 0xCB]);
  (105, [0xED; 0xEC; 0xEE; 0xEF; 0x12B; 0x12F; 0xCD; 0xCC; 0xCE; 0xCF]);
  (111, [0xF3; 0xF2; 0xF4; 0xF6; 0xF5; 0xF8; 0x14D; 0xD3; 0xD2; 0xD4; 0xD6; 0xD5]);
  (117, [0xFA; 0xF9; 0xFB; 0xFC; 0x16B; 0xDA; 0xD9; 0xDB; 0xDC]);
  (110, [0xF1; 0x144; 0xD1]);
  (99, [0xE7; 0x107; 0x10D; 0xC7; 0x106; 0x10C]);
  (115, [0x161; 0x15B; 0x160; 0x15A]);
  (122, [0x17E; 0x17A; 0x17C; 0x17D; 0x179; 0x17B]);
  (121, [0xFD; 0xFF; 0xDD]);
  (108, [0x142; 0x141])].

Definition fold_diacritic (ch : char) : char :=
  match List.find (λ row, existsb (N.eqb ch) row.2) DIACRITICS with
  | Some (c, _) => c
  | None => ch
  end.

(** ** The punctuation table *)

Inductive PunctClass := Split | Fold | Keep | Marker.

#[export] Instance PunctClass_eq_dec : EqDecision PunctClass.
Proof. solve_decision. Defined.

(** [ascii] is an array of 128 classes. *)
Record PunctTable := mkPunctTable { ascii : list PunctClass; non_ascii : gmap char PunctClass }.

Definition HASH : char := 35.
Definition DOT : char := 46.
Definition SLASH : char := 47.

Definition punct_default : PunctTable :=
  mkPunctTable (<[N.to_nat SLASH := Marker]> (<[N.to_nat HASH := Marker]> (<[N.to_nat DOT := Keep]> (replicate 128 Split)))) ∅.

Definition class_of (t : PunctTable) (c : char) : PunctClass :=
  if c <? 128 then default Split (ascii t !! usize c) else default Split (non_ascii t !! c).

Definition punct_set (c : char) (class : PunctClass) (t : PunctTable) : PunctTable :=
  if c <? 128 then mkPunctTable (<[usize c := class]> (ascii t)) (non_ascii t)
  else mkPunctTable (ascii t) (<[c := class]> (non_ascii t)).

(** ** Cleaning *)

Definition ends_with_space (s : rstring) : bool := match last s with Some c => c =? SPACE | None => false end.

Definition push_separator (out : rstring) : rstring :=
  match out with
  | [] => []
  | _ => if ends_with_space out then out else out ++ [SPACE]
  end.

Definition clean_char (t : PunctTable) (out : rstring) (ch : char) : rstring :=
  let c := fold_diacritic ch in
  if is_ascii_alphanumeric c then out ++ [to_ascii_lowercase c]
  else
    match class_of t c with
    | Split => push_separator out
    | Fold => out
    | Keep => if c =? SPACE then push_separator out else out ++ [c]
    | Marker => if c =? SPACE then push_separator out else push_separator out ++ [c; SPACE]
    end.

Definition clean_with (t : PunctTable) (text : rstring) : rstring := foldl (clean_char t) [] text.

(** [str::split_whitespace] for [p := is_whitespace]: the maximal runs of
    characters outside [p]; [cur] is the run being read. *)
Fixpoint split_by (p : char → bool) (cur s : rstring) : list rstring :=
  match s with
  | [] => match cur with [] => [] | _ => [cur] end
  | c :: s' =>
      if p c then match cur with [] => split_by p [] s' | _ => cur :: split_by p [] s' end
      else split_by p (cur ++ [c]) s'
  end.

Definition split_whitespace (s : rstring) : list rstring := split_by is_whitespace [] s.

Definition alias_form_tokens (t : PunctTable) (form : rstring) : list rstring :=
  split_whitespace (clean_with t form).

(** ** The tokenizer of [emit_positioned] *)

Definition is_space (c : char) : bool := c =? SPACE.

(** [while pos < bytes.len() && p(bytes[pos]) { pos += 1; }] *)
Definition run_end (p : char → bool) (lc : rstring) (pos : nat) : nat :=
  (pos + length (take_while p (drop pos lc)))%nat.

(** The outer [while]; every round ends further on, so the text's length is fuel enough. *)
Fixpoint tokenize_from (fuel : nat) (lc : rstring) (pos : nat) : list (nat * nat) :=
  match fuel with
  | O => []
  | S fuel' =>
      if (pos <? length lc)%nat then
        let start := run_end is_space lc pos in
        if (length lc <=? start)%nat then []
        else
          let stop := run_end (λ c, negb (is_space c)) lc start in
          (start, stop) :: tokenize_from fuel' lc stop
      else []
  end.

Definition tokenize (lc : rstring) : list (nat * nat) := tokenize_from (length lc) lc 0.

(** [&lc[start..end]] *)
Definition tok_at (lc : rstring) (r : nat * nat) : rstring := take (r.2 - r.1) (drop r.1 lc).

(** ** Numbers *)

Fixpoint parse_number_loop (seen_digit seen_dot : bool) (cs : rstring) : option bool :=
  match cs with
  | [] => Some seen_digit
  | ch :: cs' =>
      if is_ascii_digit ch then parse_number_loop true seen_dot cs'
      else if ch =? DOT then if seen_dot then None else parse_number_loop seen_digit true cs'
      else None
  end.

Definition parse_number (tok : rstring) : option rstring :=
  match parse_number_loop false false tok with
  | Some true => Some tok
  | _ => None
  end.

(** [str::parse::<u32>] on a string of four characters without a dot, the only
    strings [as_year] hands over: an optional plus sign, then digits. Four
    digits never overflow. *)
Definition digit_value (c : char) : option N := if is_ascii_digit c then Some (c - 48) else None.

Definition parse_digits (cs : rstring) : option N :=
  match cs with
  | [] => None
  | _ => foldl (λ acc c, n ← acc; v ← digit_value c; Some (10 * n + v)) (Some 0) cs
  end.

Definition parse_u32 (cs : rstring) : option N :=
  match cs with
  | c :: cs' => if c =? 43 then parse_digits cs' else parse_digits cs
  | [] => None
  end.

Definition as_year (num : rstring) : option rstring :=
  if (str_len num =? 4)%nat && negb (existsb (N.eqb DOT) num) then
    y ← parse_u32 num;
    if (1900 <=? y) && (y <=? 2099) then Some num else None
  else None.

(** [start == 0 || bytes[start - 1] == b' '] and [end == len || bytes[end] == b' ']. *)
Definition on_boundaries (lc : rstring) (s e : nat) : bool :=
  ((s =? 0)%nat || bool_decide (lc !! (s - 1)%nat = Some SPACE)) &&
  ((e =? length lc)%nat || bool_decide (lc !! e = Some SPACE)).

(** ** Splitting *)

Lemma split_by_sep p cur a c b :
  p c = true → split_by p cur (a ++ c :: b) = split_by p cur a ++ split_by p [] b.
Proof.
  intros Hc. revert cur. induction a as [|x a IH]; intros cur; simpl.
  { rewrite Hc. by destruct cur. }
  rewrite !IH. destruct (p x); [|done]. by destruct cur.
Qed.

Lemma split_by_word p cur w s :
  Forall (λ c, p c = false) w → split_by p cur (w ++ s) = split_by p (cur ++ w) s.
Proof.
  intros Hw. revert cur. induction Hw as [|c w Hc Hw IH]; intros cur; simpl; [by rewrite app_nil_r|].
  by rewrite Hc, IH, <-app_assoc.
Qed.

Lemma split_by_words p cur s w :
  Forall (λ c, p c = false) cur → w ∈ split_by p cur s → w ≠ [] ∧ Forall (λ c, p c = false) w.
Proof.
  revert cur. induction s as [|c s IH]; intros cur Hcur; simpl.
  { destruct cur; intros Hw; [by apply not_elem_of_nil in Hw|]. by apply list_elem_of_singleton in Hw as ->. }
  destruct (p c) eqn:Hc.
  - destruct cur; intros Hw; [by apply (IH [])|]. apply elem_of_cons in Hw as [->|Hw]; [done|by apply (IH [])].
  - apply IH. by apply Forall_app_2; [|apply Forall_singleton].
Qed.

Definition word (w : rstring) : Prop := w ≠ [] ∧ Forall (λ c, is_space c = false) w.
Definition words (s : rstring) : list rstring := split_by is_space [] s.

Lemma words_word s : Forall word (words s).
Proof. apply Forall_forall. intros w Hw. by eapply split_by_words. Qed.

(** ** Token positions *)

(** Where words stand when single spaces separate them, from [off] on. *)
Fixpoint offsets (off : nat) (ws : list rstring) : list (nat * nat) :=
  match ws with
  | [] => []
  | w :: ws' => (off, off + length w)%nat :: offsets (S (off + length w)) ws'
  end.

(** The length of [ws] with a space after each word. *)
Definition room (ws : list rstring) : nat := sum_list_with (λ w, S (length w)) ws.

Lemma length_offsets off ws : length (offsets off ws) = length ws.
Proof. revert off. induction ws; intros; simpl; auto. Qed.

Lemma offsets_app off a b : offsets off (a ++ b) = offsets off a ++ offsets (off + room a) b.
Proof.
  revert off. induction a as [|w a IH]; intros off; simpl; [by rewrite Nat.add_0_r|].
  rewrite IH. do 3 f_equal. unfold room. simpl. lia.
Qed.

Definition joined (ws : list rstring) : rstring := join [SPACE] ws.

Lemma joined_cons w ws : ws ≠ [] → joined (w :: ws) = w ++ SPACE :: joined ws.
Proof. unfold joined. by destruct ws. Qed.

Lemma joined_app a b : b ≠ [] → joined (a ++ b) = (a ≫= λ w, w ++ [SPACE]) ++ joined b.
Proof.
  intros Hb. induction a as [|w a IH]; [done|]. rewrite <-app_comm_cons, joined_cons, IH by (by destruct a).
  cbn [mbind list_bind]. by rewrite <-!app_assoc.
Qed.

Lemma length_spaced a : length (a ≫= λ w, w ++ [SPACE]) = room a.
Proof. unfold room. induction a as [|w a IH]; [done|]. rewrite bind_cons, !length_app, IH. simpl. lia. Qed.

Lemma words_joined ws : Forall word ws → words (joined ws) = ws.
Proof.
  unfold words. induction 1 as [|w ws [Hne Hw] Hws IH]; [done|]. destruct ws as [|w' ws].
  - unfold joined. simpl. rewrite <-(app_nil_r w) at 1. rewrite split_by_word by done. by destruct w.
  - rewrite joined_cons by done. rewrite split_by_word by done. simpl in *. rewrite IH. by destruct w.
Qed.

(** No space comes first, and none follows another. *)
Definition clean_shape (s : rstring) : Prop :=
  ∀ i, s !! i = Some SPACE → ∃ j c, i = S j ∧ s !! j = Some c ∧ c ≠ SPACE.

Lemma take_skip_space s : ∃ w r, s = w ++ r ∧ Forall (λ c, is_space c = false) w ∧ (r = [] ∨ ∃ r', r = SPACE :: r').
Proof.
  set (q := λ c, negb (is_space c)). exists (take_while q s), (skip_while q s). split_and!.
  - by rewrite take_skip_while.
  - apply Forall_forall. intros c Hc%take_while_true. unfold q in Hc. by destruct (is_space c).
  - destruct (skip_while q s) as [|c r] eqn:E; [by left|]. right. exists r. f_equal.
    apply skip_while_head in E. unfold q, is_space in E. destruct (c =? SPACE) eqn:Ec; [by apply N.eqb_eq|done].
Qed.

Lemma clean_shape_tail w s : clean_shape (w ++ SPACE :: s) → clean_shape s.
Proof.
  intros Hs i Hi. destruct (Hs (length w + S i)%nat) as (j & c & Hj & Hc & Hne).
  { by rewrite lookup_app_r, Nat.add_comm, Nat.add_sub by lia. }
  destruct i as [|i]; [|exists i, c; split_and!; try done; replace j with (length w + S i)%nat in Hc by lia;
    by rewrite lookup_app_r, Nat.add_comm, Nat.add_sub in Hc by lia].
  replace j with (length w) in Hc by lia. rewrite list_lookup_middle in Hc by done. congruence.
Qed.

(** A cleaned text is its words with single spaces between them, and perhaps one at the end. *)
Lemma clean_shape_joined s :
  clean_shape s → ∃ trail, s = joined (words s) ++ trail ∧ (trail = [] ∨ trail = [SPACE] ∧ words s ≠ []).
Proof.
  remember (length s) as n eqn:Hn. revert s Hn. induction (lt_wf n) as [n _ IH]. intros s -> Hs.
  destruct (take_skip_space s) as (w & r & -> & Hw & Hr). destruct (decide (w = [])) as [->|Hne].
  { destruct Hr as [->|[r' ->]]; [exists []; by split; [|left]|]. by destruct (Hs 0%nat) as (j & c & ? & _). }
  unfold words. rewrite split_by_word by done. simpl. destruct Hr as [->|[r' ->]].
  { exists []. split; [|by left]. destruct w; [done|]. simpl. by rewrite !app_nil_r. }
  simpl. assert (words (w ++ SPACE :: r') = w :: words r') as Hwords.
  { unfold words. rewrite split_by_word by done. simpl. by destruct w. }
  destruct (IH (length r')) with (s := r') as (trail & Hr' & Ht); [rewrite length_app; simpl; lia|done| |].
  { by eapply clean_shape_tail. }
  assert ((match w with [] => split_by is_space [] r' | _ => w :: split_by is_space [] r' end) = w :: words r') as ->
    by by destruct w.
  destruct (decide (words r' = [])) as [E|E].
  - rewrite E in *. destruct Ht as [->|[_ ?]]; [|done]. rewrite Hr'. exists [SPACE]. split; [done|by right].
  - exists trail. rewrite joined_cons by done. rewrite <-app_assoc. simpl. rewrite <-Hr'. split; [done|].
    destruct Ht as [?|[? _]]; [by left|by right].
Qed.

Lemma run_end_app p pre w r :
  Forall (λ c, p c = true) w → (∀ c, head r = Some c → p c = false) →
  run_end p (pre ++ w ++ r) (length pre) = (length pre + length w)%nat.
Proof.
  intros Hw Hr. unfold run_end. rewrite drop_app_length. f_equal.
  induction Hw as [|c w Hc Hw IH]; simpl; [|by rewrite Hc; simpl; rewrite IH].
  destruct r as [|c r]; simpl; [done|]. by rewrite (Hr c).
Qed.

Definition trailing (trail : rstring) : Prop := trail = [] ∨ trail = [SPACE].

Lemma trailing_head trail c : trailing trail → head trail = Some c → is_space c = true.
Proof. by intros [-> | ->]; [|intros [= <-]]. Qed.

Lemma joined_head ws trail c :
  Forall word ws → ws ≠ [] → head (joined ws ++ trail) = Some c → is_space c = false.
Proof.
  intros Hws Hne. destruct Hws as [|w ws [Hw Hsp] _]; [done|].
  destruct w as [|x w]; [done|]. apply Forall_cons in Hsp as [Hx _].
  assert (head (joined ((x :: w) :: ws) ++ trail) = Some x) as -> by (unfold joined; by destruct ws). congruence.
Qed.

Lemma tokenize_from_joined ws fuel pre sp trail :
  Forall word ws → trailing sp → trailing trail → (length ws ≤ fuel)%nat →
  tokenize_from fuel (pre ++ sp ++ joined ws ++ trail) (length pre) = offsets (length pre + length sp) ws.
Proof.
  intros Hws. revert fuel pre sp trail. induction Hws as [|w ws Hw Hws IH]; intros fuel pre sp trail Hsp Ht Hf;
    (destruct fuel as [|fuel]; [by try (simpl in Hf; lia)|]); cbn [tokenize_from].
  - case_match; [|done]. assert (run_end is_space (pre ++ sp ++ joined [] ++ trail) (length pre) =
      length (pre ++ sp ++ joined [] ++ trail)) as ->; [|by rewrite Nat.leb_refl].
    replace (pre ++ sp ++ joined [] ++ trail) with (pre ++ (sp ++ trail) ++ []) by (by rewrite app_nil_r).
    rewrite run_end_app; [by rewrite !length_app, Nat.add_0_r| |done].
    apply Forall_app. split; [by destruct Hsp as [-> | ->]; repeat constructor|by destruct Ht as [-> | ->]; repeat constructor].
  - set (lc := pre ++ sp ++ joined (w :: ws) ++ trail).
    assert (length (joined (w :: ws) ++ trail) ≠ 0%nat) as Hlen.
    { destruct Hw as [Hne _], w; [done|]. by destruct ws. }
    rewrite (proj2 (Nat.ltb_lt _ _)) by (unfold lc; rewrite !length_app in *; lia).
    assert (run_end is_space lc (length pre) = length pre + length sp)%nat as Hs.
    { unfold lc. rewrite run_end_app; [done|by destruct Hsp as [-> | ->]; repeat constructor|].
      intros c. by apply joined_head; [constructor|]. }
    rewrite Hs. rewrite (proj2 (Nat.leb_gt _ _)) by (unfold lc; rewrite !length_app in *; lia).
    cbn [offsets]. destruct Hw as [Hne Hw].
    assert (∃ sp' tl, trailing sp' ∧ trailing tl ∧ joined (w :: ws) ++ trail = w ++ sp' ++ joined ws ++ tl ∧ (ws ≠ [] → sp' = [SPACE]))
      as (sp' & tl & Hsp' & Htl & E & Hsp1).
    { destruct ws as [|w' ws]; [exists trail, []; unfold joined; simpl; rewrite ?app_nil_r; unfold trailing; naive_solver|].
      exists [SPACE], trail. rewrite joined_cons by done. rewrite <-app_assoc. unfold trailing. naive_solver. }
    assert (lc = (pre ++ sp) ++ w ++ sp' ++ joined ws ++ tl) as Hlc by (unfold lc; rewrite E; by rewrite <-!app_assoc).
    assert (run_end (λ c, negb (is_space c)) lc (length pre + length sp) = length pre + length sp + length w)%nat as He.
    { rewrite Hlc. rewrite <-length_app, run_end_app; [done| |].
      - eapply Forall_impl; [exact Hw|]. intros c Hc. simpl. by rewrite Hc.
      - intros c Hc. destruct sp' as [|x sp'].
        + destruct ws; [|by specialize (Hsp1 ltac:(done))]. simpl in Hc. by rewrite (trailing_head tl c).
        + destruct Hsp' as [|[= -> ->]]; [done|]. simpl in Hc. simplify_eq. done. }
    rewrite He. f_equal. rewrite Hlc, (app_assoc (pre ++ sp)).
    replace (length pre + length sp + length w)%nat with (length ((pre ++ sp) ++ w)) by (rewrite !length_app; lia).
    rewrite IH by (done || (simpl in Hf; lia)). destruct ws as [|w' ws]; [done|]. rewrite Hsp1 by done.
    f_equal. simpl. lia.
Qed.

Lemma room_joined ws : room ws = (length (joined ws) + if decide (ws = []) then 0 else 1)%nat.
Proof.
  destruct ws as [|w ws]; [done|]. rewrite decide_False by done.
  destruct (exists_last (l := w :: ws)) as (a & x & ->); [done|].
  rewrite joined_app by done. rewrite length_app, length_spaced. unfold room.
  rewrite sum_list_with_app. unfold joined. simpl. lia.
Qed.

Lemma word_room ws : Forall word ws → (length ws ≤ length (joined ws))%nat.
Proof.
  induction 1 as [|w ws [Hw _] Hws IH]; [done|]. destruct ws as [|w' ws]; [destruct w; simpl; [done|lia]|].
  rewrite joined_cons by done. rewrite length_app. destruct w; [done|]. simpl in *. lia.
Qed.

(** The tokens of a cleaned text are its words, one space apart. *)
Lemma tokenize_joined ws trail : Forall word ws → trailing trail → tokenize (joined ws ++ trail) = offsets 0 ws.
Proof.
  intros Hws Ht. apply (tokenize_from_joined ws _ [] []); [done|by left|done|].
  pose proof (word_room ws Hws). rewrite length_app. lia.
Qed.

(** Tokens are not empty and follow each other, whatever the text. *)
Lemma run_end_ge p lc pos : (pos ≤ run_end p lc pos)%nat.
Proof. unfold run_end. lia. Qed.

Lemma run_end_stops p lc pos : (run_end p lc pos < length lc)%nat → ∃ c, lc !! run_end p lc pos = Some c ∧ p c = false.
Proof.
  unfold run_end. intros Hl. rewrite <-lookup_drop. assert (length (take_while p (drop pos lc)) < length (drop pos lc))%nat as Hlt by (rewrite length_drop; lia).
  revert Hlt. generalize (drop pos lc). intros l. induction l as [|c l IH]; simpl; [lia|]. destruct (p c) eqn:E; simpl; [intros ?; apply IH; lia|]. by exists c.
Qed.

Lemma run_end_next p lc pos c : lc !! pos = Some c → p c = true → (pos < run_end p lc pos)%nat.
Proof. intros Hc Hp. unfold run_end. rewrite (drop_S _ c) by done. simpl. rewrite Hp. simpl. lia. Qed.

Lemma tokenize_from_ordered fuel lc pos :
  Forall (λ t, (pos ≤ t.1 < t.2)%nat) (tokenize_from fuel lc pos) ∧ StronglySorted (λ t t', (t.2 ≤ t'.1)%nat) (tokenize_from fuel lc pos).
Proof.
  revert pos. induction fuel as [|fuel IH]; intros pos; cbn [tokenize_from]; [split; constructor|].
  destruct (pos <? length lc)%nat; [|split; constructor]. set (start := run_end is_space lc pos). set (stop := run_end (λ c, negb (is_space c)) lc start).
  destruct (Nat.leb_spec (length lc) start) as [|Hlt]; [split; constructor|]. pose proof (run_end_ge is_space lc pos) as Hge. fold start in Hge.
  destruct (run_end_stops is_space lc pos Hlt) as (c & Hc & Hsp). fold start in Hc.
  assert (start < stop)%nat as Hss by (eapply run_end_next; [exact Hc|]; simpl; by rewrite Hsp).
  destruct (IH stop) as [Hf Hs]. split; constructor; simpl; [lia| |done|].
  - eapply Forall_impl; [exact Hf|]. simpl. intros; lia.
  - eapply Forall_impl; [exact Hf|]. simpl. intros; lia.
Qed.

Lemma tokenize_nonempty lc k t : tokenize lc !! k = Some t → (t.1 < t.2)%nat.
Proof. intros Hk. destruct (tokenize_from_ordered (length lc) lc 0) as [Hf _]. by destruct (Forall_lookup_1 _ _ _ _ Hf Hk). Qed.

Lemma tokenize_ordered lc j k t t' : tokenize lc !! j = Some t → tokenize lc !! k = Some t' → (j < k)%nat → (t.2 ≤ t'.1)%nat.
Proof.
  intros Hj Hk Hlt. destruct (tokenize_from_ordered (length lc) lc 0) as [_ Hs]. exact (StronglySorted_lookup _ _ j k t t' Hs Hj Hk Hlt).
Qed.

Lemma tok_at_offsets pre ws trail :
  tok_at (pre ++ joined ws ++ trail) <$> offsets (length pre) ws = ws.
Proof.
  revert pre. induction ws as [|w ws IH]; intros pre; [done|]. cbn [offsets]. rewrite fmap_cons. f_equal.
  - unfold tok_at. simpl. rewrite drop_app_length, Nat.add_comm, Nat.add_sub.
    assert (∃ r, joined (w :: ws) ++ trail = w ++ r) as [r ->]; [|by rewrite take_app_length].
    destruct ws; [by eexists|]. rewrite joined_cons by done. rewrite <-app_assoc. by eexists.
  - destruct ws as [|w' ws]; [done|]. rewrite joined_cons by done.
    replace (S (length pre + length w)) with (length (pre ++ w ++ [SPACE])) by (rewrite !length_app; simpl; lia).
    specialize (IH (pre ++ w ++ [SPACE])). rewrite <-!app_assoc in *. exact IH.
Qed.

(** ** What cleaning leaves *)

Lemma clean_shape_snoc s c : clean_shape s → c ≠ SPACE → clean_shape (s ++ [c]).
Proof.
  intros Hs Hc i Hi. apply lookup_app_Some in Hi as [Hi|[_ Hi]].
  - destruct (Hs i Hi) as (j & x & -> & Hj & Hx). exists j, x. split_and!; [done|by apply lookup_app_l_Some|done].
  - apply list_lookup_singleton_Some in Hi as [_ ?]. congruence.
Qed.

Lemma clean_shape_space s c : clean_shape (s ++ [c]) → c ≠ SPACE → clean_shape ((s ++ [c]) ++ [SPACE]).
Proof.
  intros Hs Hc i Hi. apply lookup_app_Some in Hi as [Hi|[Hl Hi]].
  - destruct (Hs i Hi) as (j & x & -> & Hj & Hx). exists j, x. split_and!; [done|by apply lookup_app_l_Some|done].
  - apply list_lookup_singleton_Some in Hi as [Hi _]. rewrite length_app in *. simpl in *.
    exists (length s), c. split_and!; [lia| |done]. rewrite lookup_app_l by (rewrite length_app; simpl; lia).
    by apply list_lookup_middle.
Qed.

Lemma push_separator_shape s : clean_shape s → clean_shape (push_separator s).
Proof.
  intros Hs. destruct (decide (s = [])) as [->|Hne]; [done|].
  destruct (exists_last Hne) as (a & c & ->). unfold push_separator, ends_with_space. rewrite last_snoc.
  destruct (a ++ [c]) eqn:E; [done|]. rewrite <-E in *. destruct (N.eqb_spec c SPACE); [done|].
  by apply clean_shape_space.
Qed.

Lemma lowercase_not_space c : is_ascii_alphanumeric c = true → to_ascii_lowercase c ≠ SPACE.
Proof.
  unfold is_ascii_alphanumeric, to_ascii_lowercase, is_ascii_digit, is_ascii_uppercase, is_ascii_lowercase, SPACE.
  intros H. destruct ((65 <=? c) && (c <=? 90)) eqn:E;
    rewrite ?orb_true_iff, ?andb_true_iff, ?andb_false_iff, ?N.leb_le, ?N.leb_gt in *; lia.
Qed.

Lemma clean_char_shape t out ch : clean_shape out → clean_shape (clean_char t out ch).
Proof.
  intros Hs. unfold clean_char. destruct (is_ascii_alphanumeric _) eqn:Ea.
  { apply clean_shape_snoc; [done|by apply lowercase_not_space]. }
  pose proof (push_separator_shape out Hs). destruct (class_of _ _); [done|done| |];
    (destruct (N.eqb_spec (fold_diacritic ch) SPACE); [done|]); [by apply clean_shape_snoc|].
  change [?c; SPACE] with ([c] ++ [SPACE]). rewrite app_assoc. apply clean_shape_space; [by apply clean_shape_snoc|done].
Qed.

Lemma clean_with_shape t text : clean_shape (clean_with t text).
Proof.
  unfold clean_with. assert (clean_shape []) as H by done. revert H. generalize (@nil N).
  induction text as [|ch text IH]; intros out H; simpl; [done|]. apply IH. by apply clean_char_shape.
Qed.

(** The tokens the pipeline sees of a text. *)
Definition text_tokens (t : PunctTable) (text : rstring) : list rstring :=
  let lc := clean_with t text in tok_at lc <$> tokenize lc.

Lemma clean_with_joined t text :
  ∃ trail, trailing trail ∧ clean_with t text = joined (words (clean_with t text)) ++ trail ∧
    tokenize (clean_with t text) = offsets 0 (words (clean_with t text)) ∧
    text_tokens t text = words (clean_with t text).
Proof.
  set (lc := clean_with t text). destruct (clean_shape_joined lc) as (trail & E & Ht); [apply clean_with_shape|].
  assert (trailing trail) as Htr by (destruct Ht as [|[? _]]; [by left|by right]). exists trail.
  assert (tokenize lc = offsets 0 (words lc)) as Etok.
  { rewrite E at 1. apply tokenize_joined; [apply words_word|done]. }
  split_and!; [done..|]. unfold text_tokens. fold lc. rewrite Etok, E at 1. apply (tok_at_offsets []).
Qed.

(** ** A phrase is where its words are consecutive tokens *)

Lemma clean_shape_prefix a b : clean_shape (a ++ b) → clean_shape a.
Proof.
  intros Hs i Hi. destruct (Hs i) as (j & c & -> & Hj & Hc); [by apply lookup_app_l_Some|].
  exists j, c. split_and!; [done| |done]. apply lookup_lt_Some in Hi. rewrite lookup_app_l in Hj by lia. done.
Qed.

Lemma room_prefix pre : clean_shape (pre ++ [SPACE]) → room (words (pre ++ [SPACE])) = S (length pre).
Proof.
  intros Hs. destruct (clean_shape_joined _ Hs) as (trail & E & Ht).
  pose proof (words_word (pre ++ [SPACE])) as Hws. generalize dependent (words (pre ++ [SPACE])). intros ws E Ht Hws.
  destruct Ht as [->|[-> Hne]].
  - rewrite app_nil_r in E. destruct (decide (ws = [])) as [->|Hne]; [by destruct pre|].
    destruct (exists_last Hne) as (a & w & Ew). rewrite Ew, joined_app in E by done.
    assert (word w) as [Hw Hsp].
    { rewrite Ew in Hws. by apply Forall_app in Hws as [_ [? _]%Forall_cons]. }
    destruct (exists_last Hw) as (w' & c & ->). unfold joined in E. simpl in E. rewrite app_assoc in E.
    apply app_inj_tail in E as [_ <-]. by apply Forall_app in Hsp as [_ [? _]%Forall_cons].
  - apply app_inj_tail in E as [-> _]. rewrite room_joined, decide_False by done. lia.
Qed.

Lemma words_sep pre s : words (pre ++ SPACE :: s) = words pre ++ words s.
Proof. by apply split_by_sep. Qed.

Lemma on_boundaries_app pre p post :
  on_boundaries (pre ++ p ++ post) (length pre) (length pre + length p) = true ↔
  (pre = [] ∨ ∃ pre', pre = pre' ++ [SPACE]) ∧ (post = [] ∨ ∃ post', post = SPACE :: post').
Proof.
  unfold on_boundaries. rewrite andb_true_iff, !orb_true_iff, !Nat.eqb_eq, !bool_decide_eq_true, !length_app. f_equiv.
  - destruct (decide (pre = [])) as [->|Hne]; [naive_solver|].
    destruct (exists_last Hne) as (a & c & ->). rewrite length_app, Nat.add_sub. simpl.
    rewrite <-app_assoc. simpl. rewrite list_lookup_middle by done. split.
    + intros [?|[= ->]]; [lia|]. eauto.
    + intros [?|(pre' & [_ [= ->]]%app_inj_tail)]; [by destruct a|]. by right.
  - rewrite (app_assoc pre), <-(length_app pre). destruct post as [|c post]; simpl.
    + split; [by left|]. left. rewrite length_app. lia.
    + rewrite list_lookup_middle by done. split; [|naive_solver]. intros [Hl|[= ->]]; [rewrite length_app in Hl; lia|]. eauto.
Qed.

(** Cleaning merges separators, so a registered phrase stands on token
    boundaries exactly where its words are consecutive tokens. *)
Lemma phrase_at_tokens lc ps s :
  clean_shape lc → Forall word ps → ps ≠ [] →
  slice lc s (length (joined ps)) = Some (joined ps) ∧ on_boundaries lc s (s + length (joined ps)) = true ↔
  ∃ a b, words lc = a ++ ps ++ b ∧ s = room a.
Proof.
  intros Hs Hps Hne. split.
  - intros [Hsl Hb]. apply slice_Some in Hsl as (pre & post & -> & <-). apply on_boundaries_app in Hb as [Hpre Hpost].
    assert (words (joined ps ++ post) = ps ++ words post) as Ew.
    { destruct Hpost as [->|[post' ->]]; [rewrite !app_nil_r; by apply words_joined|].
      rewrite words_sep, words_joined by done. reflexivity. }
    exists (words pre), (words post). destruct Hpre as [->|[pre' ->]]; [done|].
    assert (clean_shape (pre' ++ [SPACE])) as Hs' by by eapply clean_shape_prefix.
    rewrite <-app_assoc. simpl. rewrite words_sep, Ew. rewrite (room_prefix _ Hs'), length_app. simpl.
    split; [|lia]. f_equal. unfold words. rewrite split_by_sep by done. by rewrite app_nil_r.
  - intros (a & b & Ew & ->). destruct (clean_shape_joined lc Hs) as (trail & E & Ht). rewrite Ew in E, Ht.
    rewrite joined_app in E by by destruct ps.
    assert (∃ r, joined (ps ++ b) ++ trail = joined ps ++ r ∧ (r = [] ∨ ∃ r', r = SPACE :: r')) as (r & Er & Hr).
    { destruct (exists_last Hne) as (p1 & x & ->). destruct b as [|y b].
      - rewrite app_nil_r. exists trail. split; [done|]. destruct Ht as [->|[-> _]]; [by left|right; by exists []].
      - rewrite <-app_assoc. simpl. rewrite !joined_app by done. rewrite joined_cons by done.
        rewrite <-!app_assoc. simpl. exists (SPACE :: joined (y :: b) ++ trail). split; [by rewrite <-app_assoc|]. right. eauto. }
    rewrite <-app_assoc, Er in E. rewrite E, <-length_spaced. split; [apply slice_mid|].
    apply on_boundaries_app. split; [|done]. destruct (decide (a = [])) as [->|Ha]; [by left|right].
    destruct (exists_last Ha) as (a' & w & ->). rewrite bind_app, bind_cons. cbn [mbind list_bind]. rewrite app_nil_r. eexists. by rewrite app_assoc.
Qed.

(** ** The tokens of an alias form *)

(** A table under which no whitespace character other than the space survives
    cleaning: each is split at or folded.  The default table is one. *)
Definition tame (t : PunctTable) : Prop :=
  ∀ c, is_whitespace c = true → c ≠ SPACE → class_of t c = Split ∨ class_of t c = Fold.

Definition only_spaces (s : rstring) : Prop := Forall (λ c, is_whitespace c = is_space c) s.

Lemma push_separator_only s : only_spaces s → only_spaces (push_separator s).
Proof.
  intros Hs. unfold push_separator. destruct s as [|c s]; [done|]. case_match; [done|].
  apply Forall_app. split; [done|]. by repeat constructor.
Qed.

Lemma is_whitespace_space c : c = SPACE → is_whitespace c = true.
Proof. by intros ->. Qed.

Lemma lowercase_not_whitespace c : is_ascii_alphanumeric c = true → is_whitespace (to_ascii_lowercase c) = false.
Proof.
  unfold is_ascii_alphanumeric, to_ascii_lowercase, is_ascii_digit, is_ascii_uppercase, is_ascii_lowercase, is_whitespace.
  intros H. assert (c < 128) by (rewrite !orb_true_iff, !andb_true_iff, !N.leb_le in H; lia).
  destruct ((65 <=? c) && (c <=? 90)) eqn:E; rewrite !orb_true_iff, ?andb_true_iff, ?andb_false_iff, ?N.leb_le, ?N.leb_gt in *;
    rewrite !orb_false_iff, !andb_false_iff, !N.leb_gt, !N.eqb_neq; lia.
Qed.

Lemma clean_char_only t out ch : tame t → only_spaces out → only_spaces (clean_char t out ch).
Proof.
  intros Ht Hs. unfold clean_char. destruct (is_ascii_alphanumeric _) eqn:Ea.
  { apply Forall_app. split; [done|]. constructor; [|done]. rewrite lowercase_not_whitespace by done.
    unfold is_space. symmetry. apply N.eqb_neq. by apply lowercase_not_space. }
  set (c := fold_diacritic ch). pose proof (push_separator_only out Hs) as Hsep.
  assert (c ≠ SPACE → class_of t c ≠ Split → class_of t c ≠ Fold → is_whitespace c = is_space c) as Hc.
  { intros Hne H1 H2. unfold is_space. rewrite (proj2 (N.eqb_neq _ _)) by done.
    destruct (is_whitespace c) eqn:E; [|done]. by destruct (Ht c E Hne). }
  destruct (class_of t c); [done|done| |]; (destruct (N.eqb_spec c SPACE) as [|Hne]; [done|]);
    apply Forall_app; (split; [done|]); repeat constructor; by apply Hc.
Qed.

Lemma clean_with_only t text : tame t → only_spaces (clean_with t text).
Proof.
  intros Ht. unfold clean_with. assert (only_spaces []) as H by constructor. revert H. generalize (@nil N).
  induction text as [|ch text IH]; intros out H; simpl; [done|]. apply IH. by apply clean_char_only.
Qed.

Lemma split_by_ext p q cur s : Forall (λ c, p c = q c) s → split_by p cur s = split_by q cur s.
Proof.
  intros Hs. revert cur. induction Hs as [|c s Hc Hs IH]; intros cur; simpl; [done|].
  rewrite Hc. destruct (q c); [destruct cur; by rewrite IH|apply IH].
Qed.

Lemma alias_form_tokens_words t form : tame t → alias_form_tokens t form = text_tokens t form.
Proof.
  intros Ht. destruct (clean_with_joined t form) as (_ & _ & _ & _ & ->).
  by apply split_by_ext, clean_with_only.
Qed.

Lemma tame_default : tame punct_default.
Proof.
  intros c Hc Hne. left. unfold class_of. destruct (N.ltb_spec c 128); [|done].
  unfold punct_default, SPACE, SLASH, HASH, DOT in *. simpl ascii.
  unfold is_whitespace in Hc. rewrite !orb_true_iff, !andb_true_iff, !N.leb_le, !N.eqb_eq in Hc.
  assert (c = 9 ∨ c = 10 ∨ c = 11 ∨ c = 12 ∨ c = 13) as H' by lia. naive_solver.
Qed.

(** ** Words and their places *)

Lemma joined_length_app a b : (length (joined a) ≤ length (joined (a ++ b)))%nat.
Proof.
  destruct (decide (b = [])) as [->|Hb]; [by rewrite app_nil_r|]. rewrite joined_app by done.
  rewrite length_app, length_spaced, room_joined. case_decide; lia.
Qed.

Lemma joined_nonempty ws : Forall word ws → ws ≠ [] → (0 < length (joined ws))%nat.
Proof. intros Hw Hne. pose proof (word_room ws Hw). destruct ws; [done|]. simpl in *. lia. Qed.

Lemma room_nil ws : room ws = O → ws = [].
Proof. unfold room. destruct ws; [done|simpl; lia]. Qed.

Lemma offsets_bounds off ws t : t ∈ offsets off ws → (off ≤ t.1)%nat ∧ (t.2 ≤ off + length (joined ws))%nat.
Proof.
  revert off. induction ws as [|w ws IH]; intros off; cbn [offsets]; [by intros ?%not_elem_of_nil|].
  intros [->|Ht]%elem_of_cons; simpl.
  - pose proof (joined_length_app [w] ws) as Hl. unfold joined in Hl at 1. simpl in *. lia.
  - specialize (IH _ Ht). destruct ws as [|w' ws]; [by apply not_elem_of_nil in Ht|].
    rewrite joined_cons by done. rewrite length_app. simpl in *. lia.
Qed.

(** A registered phrase: words with single spaces between them. *)
Definition phrase_pattern (p : rstring) : Prop := ∃ ws, ws ≠ [] ∧ Forall word ws ∧ p = joined ws.
