(* ===== verification/Automaton.v ===== *)
(** * The phrase automata ([engine/src/normalize/core/alias_overlap.rs])

    The daachorse crate is the interface [Daachorse]: building an automaton
    over patterns and the two searches the normalizer runs, with the crate's
    documented behaviour as [DaachorseLaws]. [PhraseOverlap] and its scans are
    the source's. *)

From S2P Require Import Prelude Text Dictionary Clean Phrase.

Inductive MatchKind := Standard | LeftmostLongest.

(** A match: where it starts, where it ends, and the value of its pattern.  The
    tuples [(start, end, phrase_entries index)] of the phrase selection have
    the same shape. *)
Record Match := mkMatch { m_start : nat; m_end : nat; m_value : nat }.

#[export] Instance Match_eq_dec : EqDecision Match.
Proof. solve_decision. Defined.

Class Daachorse (A : Type) := {
  da_build : MatchKind → list rstring → option A;
  leftmost_find_iter : A → rstring → list Match;
  find_overlapping_iter : A → rstring → list Match;
}.

Definition occurs (ps : list rstring) (text : rstring) (m : Match) : Prop :=
  ∃ p, ps !! m_value m = Some p ∧ slice text (m_start m) (length p) = Some p ∧ m_end m = (m_start m + length p)%nat.

(** [l] takes from [O], from an offset on, always the leftmost match and the
    longest of those, and goes on after its end. *)
Inductive leftmost_longest (O : Match → Prop) : nat → list Match → Prop :=
  | LL_nil from : (∀ m, O m → (m_start m < from)%nat) → leftmost_longest O from []
  | LL_cons from m l :
      O m → (from ≤ m_start m)%nat →
      (∀ m', O m' → (from ≤ m_start m')%nat →
        (m_start m < m_start m')%nat ∨ m_start m = m_start m' ∧ (m_end m' ≤ m_end m)%nat) →
      leftmost_longest O (m_end m) l → leftmost_longest O from (m :: l).

(** What the crate documents: a build refuses empty and repeated patterns, the
    overlapping search reports every occurrence, the leftmost-longest search
    the leftmost-longest ones. *)
Class DaachorseLaws (A : Type) `{Daachorse A} := {
  da_build_patterns kind ps (a : A) : da_build kind ps = Some a → NoDup ps ∧ [] ∉ ps;
  find_overlapping_spec ps (a : A) text m :
    da_build Standard ps = Some a → m ∈ find_overlapping_iter a text ↔ occurs ps text m;
  leftmost_find_spec ps (a : A) text :
    da_build LeftmostLongest ps = Some a → leftmost_longest (occurs ps text) 0 (leftmost_find_iter a text);
}.

Record PhraseOverlap (A : Type) := mkPhraseOverlap {
  ov_automaton : A;
  ov_entries : list (rstring * FeatureKind);
  entry_idx : list nat;
  token_lens : list N;
}.
Arguments mkPhraseOverlap {A}.
Arguments ov_automaton {A}.
Arguments ov_entries {A}.
Arguments entry_idx {A}.
Arguments token_lens {A}.

(** [a.0.cmp(&b.0).then(b.1.cmp(&a.1))] is not [Greater]. *)
Definition phrase_le (a b : Match) : Prop :=
  (m_start a < m_start b)%nat ∨ m_start a = m_start b ∧ (m_end b ≤ m_end a)%nat.
#[export] Instance phrase_le_dec a b : Decision (phrase_le a b).
Proof. unfold phrase_le. apply _. Defined.

(** The closure of [Vec::retain]. *)
Fixpoint retain_disjoint (stop : nat) (l : list Match) : list Match :=
  match l with
  | [] => []
  | m :: l' => if (stop <=? m_start m)%nat then m :: retain_disjoint (m_end m) l' else retain_disjoint stop l'
  end.

Section overlap.
Context `{Daachorse A}.
Implicit Types ov : PhraseOverlap A.

(** The matches [scan_overlapping], [scan_positioned], [occurrences] and
    [select_phrases] go on with. *)
Definition aligned_matches ov (lc : rstring) : list Match :=
  List.filter (λ m, on_boundaries lc (m_start m) (m_end m)) (find_overlapping_iter (ov_automaton ov) lc).

Definition select_phrases ov (lc : rstring) : option (list Match) :=
  out ← mapM (λ m, i ← entry_idx ov !! m_value m; Some (mkMatch (m_start m) (m_end m) i)) (aligned_matches ov lc);
  Some (retain_disjoint 0 (merge_sort phrase_le out)).

Definition occurrences ov (text : rstring) : option (list (nat * N * rstring)) :=
  mapM (λ m, n ← token_lens ov !! m_value m; e ← ov_entries ov !! m_value m; Some (m_start m, n, e.1)) (aligned_matches ov text).

(** [scan_overlapping], which is [collect_into]: the names handed to [add]. *)
Definition collect_into ov (lc : rstring) : option (list rstring) :=
  mapM (λ m, e ← ov_entries ov !! m_value m; Some e.1) (aligned_matches ov lc).

(** [scan_positioned], which is [collect_positioned_into]: the arcs appended. *)
Definition positioned_arc ov (tokens : list (nat * nat)) (d : Dict) (m : Match) : option (option PositionArc) :=
  match binary_search_by (λ t, Nat.compare t.1 (m_start m)) tokens with
  | inl start =>
      let start := try_u32 start in
      e ← ov_entries ov !! m_value m;
      n ← token_lens ov !! m_value m;
      Some (Some (mkPositionArc (get_or_synthetic d e.1) start (sat_add 32 start n)))
  | inr _ => Some None
  end.

Definition collect_positioned_into ov (lc : rstring) (tokens : list (nat * nat)) (d : Dict) : option (list PositionArc) :=
  arcs ← mapM (positioned_arc ov tokens d) (aligned_matches ov lc);
  Some (omap id arcs).

End overlap.

(** ** Selection *)

#[export] Instance phrase_le_total : Total phrase_le.
Proof. intros a b. unfold phrase_le. lia. Qed.
#[export] Instance phrase_le_trans : Transitive phrase_le.
Proof. intros a b c. unfold phrase_le. lia. Qed.

Lemma retain_leftmost (O : Match → Prop) stop l :
  StronglySorted phrase_le l → (∀ m, m ∈ l → O m ∧ (m_start m < m_end m)%nat) →
  (∀ m, O m → (stop ≤ m_start m)%nat → m ∈ l) → leftmost_longest O stop (retain_disjoint stop l).
Proof.
  intros Hl. revert stop. induction Hl as [|m l Hl IH Hm]; intros stop HO Hin; simpl.
  { constructor. intros m Hm. destruct (decide (m_start m < stop)%nat); [done|].
    specialize (Hin m Hm ltac:(lia)). by apply not_elem_of_nil in Hin. }
  rewrite Forall_forall in Hm. destruct (HO m) as [HOm Hlt]; [by left|].
  destruct (Nat.leb_spec stop (m_start m)) as [Hs|Hs].
  - constructor; [done|done| |].
    + intros m' HO' Hs'. specialize (Hin m' HO' Hs'). apply elem_of_cons in Hin as [->|Hin]; [by right|].
      exact (Hm m' Hin).
    + apply IH; [intros m' Hm'; apply HO; by right|]. intros m' HO' Hs'.
      specialize (Hin m' HO' ltac:(lia)). apply elem_of_cons in Hin as [->|Hin]; [lia|done].
  - apply IH; [intros m' Hm'; apply HO; by right|]. intros m' HO' Hs'.
    specialize (Hin m' HO' Hs'). apply elem_of_cons in Hin as [->|Hin]; [lia|done].
Qed.

(** A span determines the match. *)
Definition spans_unique (O : Match → Prop) : Prop :=
  ∀ m m', O m → O m' → m_start m = m_start m' → m_end m = m_end m' → m = m'.

Lemma leftmost_unique O from l k :
  spans_unique O → leftmost_longest O from l → leftmost_longest O from k → l = k.
Proof.
  intros Hu Hl. revert k. induction Hl as [from Hn|from m l HO Hf Hmin Hl IH]; intros k Hk.
  - destruct Hk as [|from m k HO Hf]; [done|]. specialize (Hn m HO). lia.
  - destruct Hk as [from Hn|from m' k HO' Hf' Hmin' Hk]; [specialize (Hn m HO); lia|].
    assert (m = m') as <-; [|f_equal; by apply IH].
    destruct (Hmin m' HO' Hf'), (Hmin' m HO Hf); apply Hu; try done; lia.
Qed.

Lemma leftmost_sub O V from l :
  (∀ m, V m → O m) → Forall V l → leftmost_longest O from l → leftmost_longest V from l.
Proof.
  intros Hsub Hl HLL. revert Hl. induction HLL as [from Hn|from m l HO Hf Hmin _ IH]; intros Hl; [constructor; eauto|].
  apply Forall_cons in Hl as [HV Hl]. constructor; eauto.
Qed.

(** The matches taken do not overlap. *)
Lemma leftmost_disjoint O from l :
  (∀ m, O m → (m_start m ≤ m_end m)%nat) → leftmost_longest O from l →
  Forall (λ m, (from ≤ m_start m)%nat) l ∧ StronglySorted (λ m m', (m_end m ≤ m_start m')%nat) l.
Proof.
  intros HO. induction 1 as [|from m l Hm Hle _ _ [Hf Hs]]; [split; constructor|]. specialize (HO m Hm).
  split; constructor; [done| |done|done]. eapply Forall_impl; [exact Hf|]. simpl. intros; lia.
Qed.

Lemma leftmost_elem O from l m : leftmost_longest O from l → m ∈ l → O m.
Proof. induction 1; [by intros ?%not_elem_of_nil|]. intros [->|?]%elem_of_cons; auto. Qed.

Lemma occurs_start ps text m : [] ∉ ps → occurs ps text m → (m_start m < m_end m ≤ length text)%nat.
Proof.
  intros Hne (p & Hp & Hs & ->). assert (p ≠ []) by (intros ->; apply list_elem_of_lookup_2 in Hp; done).
  apply slice_Some in Hs as (l1 & l3 & -> & <-). rewrite !length_app. destruct p; [done|]. simpl. lia.
Qed.

Lemma occurs_unique ps text : NoDup ps → spans_unique (occurs ps text).
Proof.
  intros Hnd [s e v] [s' e' v'] (p & Hp & Hs & He) (p' & Hp' & Hs' & He') E1 E2. simpl in *. subst s' e'.
  assert (length p = length p') as Hl by lia. rewrite Hl, Hs' in Hs. simplify_eq.
  f_equal. by eapply NoDup_lookup.
Qed.

(** An occurrence on token boundaries of a pattern whose entry is [m_value m]. *)
Definition selectable (ps : list rstring) (idx : list nat) (lc : rstring) (m : Match) : Prop :=
  on_boundaries lc (m_start m) (m_end m) = true ∧
  ∃ v, idx !! v = Some (m_value m) ∧ occurs ps lc (mkMatch (m_start m) (m_end m) v).

Section overlap_laws.
Context `{DaachorseLaws A}.
Implicit Types ov : PhraseOverlap A.

Lemma aligned_matches_spec ps ov lc m :
  da_build Standard ps = Some (ov_automaton ov) →
  m ∈ aligned_matches ov lc ↔ on_boundaries lc (m_start m) (m_end m) = true ∧ occurs ps lc m.
Proof.
  intros Hb. unfold aligned_matches. rewrite elem_of_list_filter_bool, (find_overlapping_spec ps) by done. tauto.
Qed.

Lemma select_phrases_spec ps ov lc :
  da_build Standard ps = Some (ov_automaton ov) → length (entry_idx ov) = length ps →
  ∃ l, select_phrases ov lc = Some l ∧ leftmost_longest (selectable ps (entry_idx ov) lc) 0 l.
Proof.
  intros Hb Hlen. destruct (da_build_patterns _ _ _ Hb) as [Hnd Hne]. unfold select_phrases.
  set (f := λ m : Match, i ← entry_idx ov !! m_value m; Some (mkMatch (m_start m) (m_end m) i)).
  assert (is_Some (mapM f (aligned_matches ov lc))) as [out Hout].
  { apply mapM_is_Some, Forall_forall. intros m Hm. apply (aligned_matches_spec ps) in Hm as [_ (p & Hp & _)]; [|done].
    apply lookup_lt_Some in Hp. destruct (lookup_lt_is_Some_2 (entry_idx ov) (m_value m)) as [i Hi]; [lia|].
    unfold f, compose. rewrite Hi. by eexists. }
  rewrite Hout. eexists. split; [done|].
  assert (∀ m, m ∈ out ↔ selectable ps (entry_idx ov) lc m) as Hin.
  { intros m. apply mapM_Some in Hout. unfold selectable. split.
    - intros Hm. apply list_elem_of_lookup in Hm as [k Hk]. destruct (Forall2_lookup_r _ _ _ _ _ Hout Hk) as (x & Hx & Hfx).
      apply list_elem_of_lookup_2, (aligned_matches_spec ps) in Hx as [Hx Ho]; [|done].
      unfold f in Hfx. destruct (entry_idx ov !! m_value x) as [i|] eqn:Ei; simplify_eq/=. split; [done|].
      exists (m_value x). split; [done|]. by destruct x.
    - intros (Hbd & v & Hv & Ho). assert (mkMatch (m_start m) (m_end m) v ∈ aligned_matches ov lc) as Hx.
      { by apply (aligned_matches_spec ps). }
      apply list_elem_of_lookup in Hx as [k Hk]. destruct (Forall2_lookup_l _ _ _ _ _ Hout Hk) as (y & Hy & Hfy).
      unfold f in Hfy. simpl in Hfy. rewrite Hv in Hfy. simplify_eq/=. destruct m. by eapply list_elem_of_lookup_2. }
  apply retain_leftmost.
  - apply (StronglySorted_merge_sort _).
  - intros m. rewrite merge_sort_Permutation, Hin. intros Hs. split; [done|].
    destruct Hs as (_ & v & _ & Ho). apply occurs_start in Ho; [|done]. simpl in Ho. lia.
  - intros m Hm _. rewrite merge_sort_Permutation. by apply Hin.
Qed.

End overlap_laws.

(** ** An instance: search every position for every pattern *)

Definition naive_occurrences (ps : list rstring) (text : rstring) : list Match :=
  s ← seq 0 (length text);
  mjoin (imap (λ v p, if decide (slice text s (length p) = Some p) then [mkMatch s (s + length p) v] else []) ps).

Definition naive_build (_ : MatchKind) (ps : list rstring) : option (list rstring) :=
  if decide (NoDup ps ∧ [] ∉ ps) then Some ps else None.

#[export] Instance naive_daachorse : Daachorse (list rstring) := {
  da_build := naive_build;
  leftmost_find_iter ps text := retain_disjoint 0 (merge_sort phrase_le (naive_occurrences ps text));
  find_overlapping_iter := naive_occurrences;
}.

Lemma naive_occurrences_spec ps text m : [] ∉ ps → m ∈ naive_occurrences ps text ↔ occurs ps text m.
Proof.
  intros Hne. unfold naive_occurrences. rewrite list_elem_of_bind. setoid_rewrite list_elem_of_join. split.
  - intros (s & (l & Hm & Hl) & _). apply elem_of_lookup_imap in Hl as (v & p & -> & Hp).
    case_decide as Hs; [|by apply not_elem_of_nil in Hm]. apply list_elem_of_singleton in Hm as ->. by exists p.
  - intros Ho. pose proof (occurs_start _ _ _ Hne Ho) as Hlt. destruct Ho as (p & Hp & Hs & He).
    exists (m_start m). split; [|apply elem_of_seq; lia]. eexists. split; [|apply elem_of_lookup_imap; by eexists _, p].
    simpl. rewrite decide_True by done. apply list_elem_of_singleton. destruct m. simpl in *. by subst.
Qed.

#[export] Instance naive_laws : DaachorseLaws (list rstring).
Proof.
  assert (∀ kind ps a, naive_build kind ps = Some a → a = ps ∧ NoDup ps ∧ [] ∉ ps) as Hb.
  { intros kind ps a. unfold naive_build. case_decide as Hd; [|done]. intros [= <-]. tauto. }
  split.
  - intros kind ps a (_ & ? & ?)%Hb. done.
  - intros ps a text m (-> & _ & ?)%Hb. by apply naive_occurrences_spec.
  - intros ps a text (-> & Hnd & Hne)%Hb. apply retain_leftmost.
    + apply (StronglySorted_merge_sort _).
    + intros m. rewrite merge_sort_Permutation, naive_occurrences_spec by done. intros Ho. split; [done|].
      apply occurs_start in Ho; [lia|done].
    + intros m Hm _. rewrite merge_sort_Permutation. by apply naive_occurrences_spec.
Qed.
