(* ===== verification/AliasWords.v ===== *)
(** * Multi-word alias forms ([engine/src/normalize/core/alias_words.rs])

    A title that carries every piece of an alias form carries the form. The
    file models the key index over the forms and the worklist that completes a
    title's view, and shows that the worklist computes the least fixed point
    it stands for. Names are their 64-bit hashes, as in the source. *)

From S2P Require Import Prelude Text Dictionary.
From Stdlib Require Import ZArith.

Record UnitSpec := mkUnitSpec { us_from : nat; us_to : nat; us_names : list rstring }.
Record FormSpec := mkFormSpec { fs_entity : rstring; fs_len : nat; fs_units : list UnitSpec }.

(** [Unit] and [Form] of the source. *)
Record FormUnit := mkFormUnit { u_from : N; u_to : N; u_names : list N }.
Record Form := mkForm { f_entity : rstring; entity_name : N; f_len : N; f_units : list FormUnit }.

Record AliasWords := mkAliasWords { forms : list Form; keyed : gmap N (list N); entities : gset N }.

Record AliasScratch := mkAliasScratch {
  as_names : list N;
  entered : gset N;
  queue : list N;
  done_forms : gset N;
  noted : gset N;
  waiting : gmap N (list N);
  reach : list bool;
  classes : list N;
  widened : gset N;
  supplies : gmap N bool;
}.

(** [u32::try_from(n).ok()] *)
Definition checked_u32 (n : nat) : option N := if N.of_nat n <? 2 ^ 32 then Some (N.of_nat n) else None.

(** [dict.equivalent_names] and [dict.has_equivalent_names]. *)
Definition equivalent_names (d : Dict) (name : N) : option (list N) := by_name (equivs d) !! name.
Definition has_equivalent_names (d : Dict) : bool := bool_decide (by_name (equivs d) ≠ ∅).

(** ** [AliasWords::new] *)

Definition unit_of_spec (u : UnitSpec) : option FormUnit :=
  from ← checked_u32 (us_from u);
  to ← checked_u32 (us_to u);
  Some (mkFormUnit from to (sort_dedup (name_hash <$> us_names u))).

(** [units.sort_by_key(|unit| (unit.from, unit.to))] *)
Definition unit_le (a b : FormUnit) : Prop := u_from a < u_from b ∨ u_from a = u_from b ∧ u_to a ≤ u_to b.
#[export] Instance unit_le_dec a b : Decision (unit_le a b).
Proof. unfold unit_le. apply _. Defined.

Definition form_of_spec (spec : FormSpec) : option Form :=
  if (0 <? fs_len spec)%nat then
    units ← mapM unit_of_spec
      (List.filter (λ u, (us_from u <? us_to u)%nat && (us_to u <=? fs_len spec)%nat) (fs_units spec));
    len ← checked_u32 (fs_len spec);
    Some (mkForm (fs_entity spec) (name_hash (fs_entity spec)) len (merge_sort unit_le units))
  else None.

(** [*map.entry(name).or_default() += 1] *)
Definition count_name (shared : gmap N N) (name : N) : gmap N N :=
  <[name := wrap32 (default 0 (shared !! name) + 1)]> shared.

Definition form_names (form : Form) : list N := f_units form ≫= u_names.

Definition shared_names (fs : list Form) : gmap N N :=
  foldl (λ shared form, foldl count_name shared (sort_dedup (form_names form))) ∅ fs.

Definition unit_cost (shared : gmap N N) (u : FormUnit) : Z :=
  foldr Z.add 0%Z ((λ name, Z.of_N (default 0 (shared !! name))) <$> u_names u).

(** [v[i] += x] *)
Definition add_at (i : nat) (x : Z) (v : list Z) : option (list Z) := y ← v !! i; Some (<[i := (y + x)%Z]> v).

Definition gap_changes (shared : gmap N N) (form : Form) : option (list Z) :=
  foldM (λ change u,
    change ← add_at (usize (u_from u)) (unit_cost shared u) change;
    add_at (usize (u_to u)) (- unit_cost shared u) change)
    (replicate (S (usize (f_len form))) 0%Z) (f_units form).

Definition I64_MAX : Z := (2 ^ 63 - 1)%Z.

(** One gap of the sweep over [(key_gap, least, running)]. *)
Definition gap_step (change : list Z) (acc : N * Z * Z) (gap : nat) : option (N * Z * Z) :=
  let '(key_gap, least, running) := acc in
  x ← change !! gap;
  let running := (running + x)%Z in
  Some (if (running <? least)%Z then (N.of_nat gap, running, running) else (key_gap, least, running)).

Definition pick_gap (change : list Z) (form : Form) : option N :=
  acc ← foldM (gap_step change) (0, I64_MAX, 0%Z) (seq 0 (usize (f_len form)));
  Some acc.1.1.

Definition over_gap (gap : N) (u : FormUnit) : bool := (u_from u <=? gap) && (gap <? u_to u).

Definition form_key (gap : N) (form : Form) : list N :=
  sort_dedup (List.filter (over_gap gap) (f_units form) ≫= u_names).

(** [keyed.entry(name).or_default().push(index)] *)
Definition key_push (index : N) (keyed : gmap N (list N)) (name : N) : gmap N (list N) :=
  <[name := default [] (keyed !! name) ++ [index]]> keyed.

(** One round of the loop that keys the forms: [None] outside is a panic, inside
    the [?] on the index. *)
Definition key_form (shared : gmap N N) (keyed : option (gmap N (list N))) (entry : nat * Form) :
  option (option (gmap N (list N))) :=
  match keyed with
  | None => Some None
  | Some keyed =>
      match checked_u32 entry.1 with
      | None => Some None
      | Some index =>
          change ← gap_changes shared entry.2;
          gap ← pick_gap change entry.2;
          Some (Some (foldl (key_push index) keyed (form_key gap entry.2)))
      end
  end.

Definition alias_words_new (specs : list FormSpec) : option (option AliasWords) :=
  let fs := omap form_of_spec specs in
  match fs with
  | [] => Some None
  | _ =>
      keyed ← foldM (key_form (shared_names fs)) (Some ∅) (imap pair fs);
      Some (keyed ← keyed; Some (mkAliasWords fs keyed (list_to_set (entity_name <$> fs))))
  end.

(** ** Completing a title's view *)

Definition set_names (names : list N) (sc : AliasScratch) : AliasScratch :=
  mkAliasScratch names (entered sc) (queue sc) (done_forms sc) (noted sc) (waiting sc) (reach sc) (classes sc) (widened sc) (supplies sc).

(** The scratch with the view that grows and the count of examinations. *)
Record Completion := mkCompletion { co_scratch : AliasScratch; co_out : list N; examined : nat }.

Section complete.
Context (aw : AliasWords) (d : Dict).

Definition has_name (sc : AliasScratch) (name : N) : bool :=
  bsearch_mem name (as_names sc) || bool_decide (name ∈ entered sc).

(** The walk over the units: which positions the view reaches, and the furthest. *)
Fixpoint walk_units (has : N → bool) (units : list FormUnit) (reach : list bool) (furthest : N) : option (list bool * N) :=
  match units with
  | [] => Some (reach, furthest)
  | u :: units' =>
      if furthest <? u_from u then Some (reach, furthest)
      else
        a ← reach !! usize (u_from u);
        if a : bool then
          b ← reach !! usize (u_to u);
          if negb b && existsb has (u_names u) then
            walk_units has units' (<[usize (u_to u) := true]> reach) (N.max furthest (u_to u))
          else walk_units has units' reach furthest
        else walk_units has units' reach furthest
  end.

Definition can_supply (name : N) (supplies : gmap N bool) : bool * gmap N bool :=
  if bool_decide (name ∈ entities aw) then (true, supplies)
  else
    match equivalent_names d name with
    | Some ((first :: _) as class) =>
        match supplies !! first with
        | Some b => (b, supplies)
        | None =>
            let b := existsb (λ same, bool_decide (same ∈ entities aw)) class in
            (b, <[first := b]> supplies)
        end
    | _ => (false, supplies)
    end.

(** [for &name in &unit.names]: note the form under the names that can still come. *)
Definition wait_on (form : N) (acc : bool * gmap N (list N) * gmap N bool) (name : N) : bool * gmap N (list N) * gmap N bool :=
  let '(any, waiting, supplies) := acc in
  let '(ok, supplies) := can_supply name supplies in
  if ok then (true, <[name := default [] (waiting !! name) ++ [form]]> waiting, supplies) else (any, waiting, supplies).

(** [(u64::from(form) << 32) | at as u64] *)
Definition note_pair (form : N) (at_ : nat) : N := N.lor (wrap64 (N.shiftl form 32)) (wrap64 (N.of_nat at_)).

Fixpoint note_units (form : N) (at_ : nat) (units : list FormUnit) (reach : list bool) (furthest : N)
  (acc : gset N * gmap N (list N) * gmap N bool) : option (gset N * gmap N (list N) * gmap N bool) :=
  match units with
  | [] => Some acc
  | u :: units' =>
      if furthest <? u_from u then Some acc
      else
        b ← reach !! usize (u_to u);
        let '(noted, waiting, supplies) := acc in
        if (b : bool) || bool_decide (note_pair form at_ ∈ noted) then note_units form (S at_) units' reach furthest acc
        else
          let '(any, waiting, supplies) := foldl (wait_on form) (false, waiting, supplies) (u_names u) in
          let noted := if any then {[note_pair form at_]} ∪ noted else noted in
          note_units form (S at_) units' reach furthest (noted, waiting, supplies)
  end.

(** The names a completed form brings: [None] when its class is already in. *)
Definition brought (sc : AliasScratch) (entity : N) : option (list N * gset N) :=
  match equivalent_names d entity with
  | Some class =>
      let first := default entity (head class) in
      if bsearch_mem first (classes sc) || bool_decide (first ∈ widened sc) then None
      else Some (class, {[first]} ∪ widened sc)
  | None => Some ([entity], widened sc)
  end.

(** [if names.binary_search(&name).is_err() && entered.insert(name) { queue.push(name); }] *)
Definition enqueue_name (names : list N) (acc : gset N * list N) (name : N) : gset N * list N :=
  let '(entered, queue) := acc in
  if bsearch_mem name names || bool_decide (name ∈ entered) then acc else ({[name]} ∪ entered, queue ++ [name]).

Definition set_done (form : N) (sc : AliasScratch) : AliasScratch :=
  mkAliasScratch (as_names sc) (entered sc) (queue sc) ({[form]} ∪ done_forms sc) (noted sc) (waiting sc) (reach sc)
    (classes sc) (widened sc) (supplies sc).

Definition set_reach (r : list bool) (sc : AliasScratch) : AliasScratch :=
  mkAliasScratch (as_names sc) (entered sc) (queue sc) (done_forms sc) (noted sc) (waiting sc) r
    (classes sc) (widened sc) (supplies sc).

Definition set_brought (members : list N) (w : gset N) (sc : AliasScratch) : AliasScratch :=
  let '(e, q) := foldl (enqueue_name (as_names sc)) (entered sc, queue sc) members in
  mkAliasScratch (as_names sc) e q (done_forms sc) (noted sc) (waiting sc) (reach sc) (classes sc) w (supplies sc).

Definition set_notes (acc : gset N * gmap N (list N) * gmap N bool) (sc : AliasScratch) : AliasScratch :=
  let '(noted, waiting, supplies) := acc in
  mkAliasScratch (as_names sc) (entered sc) (queue sc) (done_forms sc) noted waiting (reach sc) (classes sc) (widened sc) supplies.

Definition set_waiting (w : gmap N (list N)) (sc : AliasScratch) : AliasScratch :=
  mkAliasScratch (as_names sc) (entered sc) (queue sc) (done_forms sc) (noted sc) w (reach sc) (classes sc) (widened sc) (supplies sc).

Definition examine (st : Completion) (form : N) : option Completion :=
  let sc := co_scratch st in
  let examined := S (examined st) in
  if bool_decide (form ∈ done_forms sc) then Some (mkCompletion sc (co_out st) examined)
  else
    candidate ← forms aw !! usize form;
    '(r, furthest) ← walk_units (has_name sc) (f_units candidate)
      (<[O := true]> (replicate (S (usize (f_len candidate))) false)) 0;
    whole ← r !! usize (f_len candidate);
    let sc := set_reach r sc in
    if whole : bool then
      let sc := set_done form sc in
      let out := co_out st ++ [get_or_synthetic d (f_entity candidate)] in
      match brought sc (entity_name candidate) with
      | None => Some (mkCompletion sc out examined)
      | Some (members, w) => Some (mkCompletion (set_brought members w sc) out examined)
      end
    else
      acc ← note_units form 0 (f_units candidate) r furthest (noted sc, waiting sc, supplies sc);
      Some (mkCompletion (set_notes acc sc) (co_out st) examined).

Definition enter (st : Completion) (name : N) : option Completion :=
  st ← foldM examine st (default [] (keyed aw !! name));
  let sc := co_scratch st in
  match waiting sc !! name with
  | Some fs => foldM examine (mkCompletion (set_waiting (delete name (waiting sc)) sc) (co_out st) (examined st)) fs
  | None => Some st
  end.

(** [while next < scratch.queue.len()]: every name enters the queue once, so
    as many rounds as names the forms can bring are enough. *)
Fixpoint drain (fuel next : nat) (st : Completion) : option Completion :=
  match queue (co_scratch st) !! next with
  | None => Some st
  | Some name =>
      match fuel with
      | O => None
      | S fuel' => st ← enter st name; drain fuel' (S next) st
      end
  end.

(** The equivalents of the title's names, each class once. *)
Definition title_classes (names : list N) : list N :=
  omap (λ name, class ← equivalent_names d name; head class) names.

Definition widen_names (names classes : list N) : list N :=
  sort_dedup (names ++ (classes ≫= λ first, default [] (equivalent_names d first))).

(** The names a completion can put in a view, with repeats. *)
Definition suppliable : list N :=
  forms aw ≫= λ form, default [entity_name form] (equivalent_names d (entity_name form)).

Definition complete_into (sc : AliasScratch) (out : list N) : option (AliasScratch * list N * nat) :=
  let names := sort_dedup (as_names sc) in
  let cls := if has_equivalent_names d then sort_dedup (classes sc ++ title_classes names) else classes sc in
  let names := match cls with [] => names | _ => if has_equivalent_names d then widen_names names cls else names end in
  let sc := mkAliasScratch names (entered sc) (queue sc) (done_forms sc) (noted sc) (waiting sc) (reach sc) cls (widened sc) (supplies sc) in
  st ← foldM enter (mkCompletion sc out 0) names;
  st ← drain (S (length suppliable)) 0 st;
  let sc := co_scratch st in
  Some (mkAliasScratch (as_names sc) ∅ [] ∅ ∅ ∅ (reach sc) [] ∅ ∅, co_out st, examined st).

End complete.

(** ** What a title carries *)

Section carries.
Context (aw : AliasWords) (d : Dict).

(** The positions of a form's text a view reads up to. *)
Inductive reaches (units : list FormUnit) (V : N → Prop) : N → Prop :=
  | reaches_0 : reaches units V 0
  | reaches_unit u n : u ∈ units → n ∈ u_names u → V n → reaches units V (u_from u) → reaches units V (u_to u).

(** A view carries a form when it holds every piece of some parse of it. *)
Definition carries (V : N → Prop) (form : Form) : Prop := reaches (f_units form) V (f_len form).

(** The entity's name and the names a query takes for it. *)
Definition members_of_entity (entity : N) : list N := default [entity] (equivalent_names d entity).

Definition completed (V : N → Prop) : Prop :=
  ∀ form n, form ∈ forms aw → carries V form → n ∈ members_of_entity (entity_name form) → V n.

(** The least view over [base] that has the entities of the forms it carries. *)
Definition in_view (base : N → Prop) (n : N) : Prop := ∀ V : N → Prop, (∀ m, base m → V m) → completed V → V n.

End carries.

Lemma reaches_mono us us' V W p :
  (∀ u, u ∈ us → u ∈ us') → (∀ n, V n → W n) → reaches us V p → reaches us' W p.
Proof. intros Hu HV. induction 1; econstructor; eauto. Qed.

Lemma reaches_nil V p : reaches [] V p ↔ p = 0.
Proof. split; [|intros ->; constructor]. induction 1 as [|u n Hu]; [done|]. by apply not_elem_of_nil in Hu. Qed.

Lemma in_view_base aw d base n : base n → in_view aw d base n.
Proof. intros Hn V Hb _. auto. Qed.

Lemma in_view_completed aw d base : completed aw d (in_view aw d base).
Proof.
  intros form n Hf Hc Hn V Hb HV. apply (HV form); [done| |done].
  eapply reaches_mono; [done| |exact Hc]. intros m Hm. by apply Hm.
Qed.

(** A name's equivalence class contains it and is the class of its members. *)
Definition names_partition (d : Dict) : Prop :=
  ∀ n class, equivalent_names d n = Some class → n ∈ class ∧ ∀ m, m ∈ class → equivalent_names d m = Some class.

Record form_wf (form : Form) : Prop := {
  fw_len : 0 < f_len form;
  fw_sorted : StronglySorted unit_le (f_units form);
  fw_units u : u ∈ f_units form → u_from u < u_to u ≤ f_len form;
  fw_count : N.of_nat (length (f_units form)) ≤ 2 ^ 32;
}.

Record alias_words_wf (aw : AliasWords) : Prop := {
  aw_count : N.of_nat (length (forms aw)) ≤ 2 ^ 32;
  aw_forms form : form ∈ forms aw → form_wf form;
  aw_keyed n i : i ∈ default [] (keyed aw !! n) → (usize i < length (forms aw))%nat;
  aw_gap i form : forms aw !! i = Some form →
    ∃ gap, gap < f_len form ∧
      ∀ u n, u ∈ f_units form → over_gap gap u = true → n ∈ u_names u → N.of_nat i ∈ default [] (keyed aw !! n);
  aw_entities n : n ∈ entities aw ↔ ∃ form, form ∈ forms aw ∧ entity_name form = n;
}.

(** Every parse crosses every gap. *)
Lemma reaches_gap units V gap p :
  reaches units V p → gap < p → ∃ u n, u ∈ units ∧ over_gap gap u = true ∧ n ∈ u_names u ∧ V n.
Proof.
  induction 1 as [|u n Hu Hn HV Hr IH]; intros Hg; [lia|].
  destruct (decide (gap < u_from u)) as [Hlt|Hge]; [by apply IH|]. exists u, n. split_and!; [done| |done|done].
  unfold over_gap. rewrite andb_true_iff, N.leb_le, N.ltb_lt. lia.
Qed.

(** Where a parse leaves a set of positions. *)
Lemma reaches_leaves units V (R : N → Prop) p :
  (∀ q, Decision (R q)) → R 0 → ¬ R p → reaches units V p →
  ∃ u n, u ∈ units ∧ R (u_from u) ∧ ¬ R (u_to u) ∧ n ∈ u_names u ∧ V n.
Proof.
  intros Hdec H0 Hp Hr. induction Hr as [|u n Hu Hn HV Hr IH]; [done|].
  destruct (Hdec (u_from u)) as [Hf|Hf]; [by exists u, n|by apply IH].
Qed.

(** ** The walk over a form's units *)

Lemma unit_le_from units u v : StronglySorted unit_le (units ++ [u]) → v ∈ units → u_from v ≤ u_from u.
Proof.
  intros Hs Hv. apply StronglySorted_app in Hs as (Hs & _ & _). specialize (Hs v u Hv ltac:(by apply list_elem_of_singleton)).
  unfold unit_le in Hs. lia.
Qed.

Lemma reaches_snoc units u V p (Hs : StronglySorted unit_le (units ++ [u])) (Hu : u_from u < u_to u) :
  reaches (units ++ [u]) V p ↔
  reaches units V p ∨ p = u_to u ∧ reaches units V (u_from u) ∧ ∃ n, n ∈ u_names u ∧ V n.
Proof.
  split.
  - induction 1 as [|v n Hv Hn HV Hr IH]; [left; constructor|]. apply elem_of_app in Hv as [Hv|Hv].
    + destruct IH as [IH|[E _]]; [left; by econstructor|]. pose proof (unit_le_from _ _ _ Hs Hv). lia.
    + apply list_elem_of_singleton in Hv as ->. destruct IH as [IH|[E _]]; [|lia]. right. eauto.
  - assert (∀ q, reaches units V q → reaches (units ++ [u]) V q) as Hm.
    { intros q. apply reaches_mono; [|done]. intros v Hv. apply elem_of_app. by left. }
    intros [Hr|(-> & Hr & n & Hn & HV)]; [by apply Hm|]. econstructor; [|done|done|by apply Hm].
    apply elem_of_app. right. by apply list_elem_of_singleton.
Qed.

Section walk.
Context (has : N → bool) (V : N → Prop) (Hhas : ∀ n, has n = true ↔ V n) (len : N).

(** [r] marks the positions [units] reaches, none beyond [furthest]. *)
Definition marks (units : list FormUnit) (r : list bool) (furthest : N) : Prop :=
  length r = S (usize len) ∧ (∀ p, p ≤ len → r !! usize p = Some true ↔ reaches units V p) ∧
  (∀ p, reaches units V p → p ≤ furthest).

Lemma existsb_has u : existsb has (u_names u) = true ↔ ∃ n, n ∈ u_names u ∧ V n.
Proof. rewrite existsb_elem. by setoid_rewrite Hhas. Qed.

Lemma marks_step prior u r furthest :
  StronglySorted unit_le (prior ++ [u]) → u_from u < u_to u ≤ len → marks prior r furthest →
  (¬ (reaches prior V (u_from u) ∧ ∃ n, n ∈ u_names u ∧ V n) → marks (prior ++ [u]) r furthest) ∧
  (reaches prior V (u_from u) → (∃ n, n ∈ u_names u ∧ V n) →
    marks (prior ++ [u]) (<[usize (u_to u) := true]> r) (N.max furthest (u_to u))).
Proof.
  intros Hs Hu (Hl & Hm & Hf). split.
  - intros Hn. split_and!; [done| |].
    + intros p Hp. rewrite (Hm p Hp), (reaches_snoc _ _ _ _ Hs) by lia. tauto.
    + intros p. rewrite (reaches_snoc _ _ _ _ Hs) by lia. intros [Hr|?]; [by apply Hf|tauto].
  - intros Hr Hn. split_and!; [by rewrite length_insert| |].
    + intros p Hp. rewrite (reaches_snoc _ _ _ _ Hs) by lia. destruct (decide (p = u_to u)) as [->|Hne].
      * rewrite list_lookup_insert_eq by lia. naive_solver.
      * rewrite list_lookup_insert_ne by lia. rewrite (Hm p Hp). naive_solver.
    + intros p. rewrite (reaches_snoc _ _ _ _ Hs) by lia. intros [Hp%Hf|[-> _]]; lia.
Qed.

Lemma walk_units_spec units prior r furthest :
  StronglySorted unit_le (prior ++ units) → (∀ u, u ∈ prior ++ units → u_from u < u_to u ≤ len) →
  marks prior r furthest →
  ∃ r' f', walk_units has units r furthest = Some (r', f') ∧ marks (prior ++ units) r' f'.
Proof using All.
  revert prior r furthest. induction units as [|u units IH]; intros prior r furthest Hs Hu HM; simpl.
  { exists r, furthest. by rewrite app_nil_r. }
  assert (u_from u < u_to u ≤ len) as Hux by (apply Hu; set_solver).
  assert (StronglySorted unit_le (prior ++ [u])) as Hs1.
  { rewrite (app_assoc prior [u] units : prior ++ u :: units = _) in Hs. by apply StronglySorted_app in Hs as (_ & ? & _). }
  destruct (marks_step prior u r furthest Hs1 Hux HM) as [Hno Hyes]. destruct HM as (Hl & Hm & Hf).
  assert (∀ r f, marks (prior ++ [u]) r f → ∃ r' f', walk_units has units r f = Some (r', f') ∧ marks (prior ++ u :: units) r' f') as Hrec.
  { intros r1 f1 H1. rewrite (app_assoc prior [u] units : prior ++ u :: units = _). apply IH; [by rewrite <-app_assoc|by rewrite <-app_assoc|done]. }
  destruct (N.ltb_spec furthest (u_from u)) as [Hlt|Hge].
  - exists r, furthest. split; [done|].
    assert (∀ p, reaches (prior ++ u :: units) V p → reaches prior V p) as Hback.
    { induction 1 as [|v n Hv Hn HV Hr IHr]; [constructor|]. apply elem_of_app in Hv as [Hv|Hv]; [by econstructor|].
      specialize (Hf _ IHr). assert (u_from u ≤ u_from v); [|lia].
      apply StronglySorted_app in Hs as (_ & _ & Hs). apply elem_of_cons in Hv as [->|Hv]; [done|].
      apply StronglySorted_inv in Hs as [_ Hs]. rewrite Forall_forall in Hs. specialize (Hs v Hv). unfold unit_le in Hs. lia. }
    assert (∀ p, reaches prior V p → reaches (prior ++ u :: units) V p) as Hfwd.
    { intros p. apply reaches_mono; [set_solver|done]. }
    split_and!; [done| |eauto]. intros p Hp. rewrite (Hm p Hp). split; auto.
  - destruct (lookup_lt_is_Some_2 r (usize (u_from u))) as [a Ha]; [lia|]. rewrite Ha. simpl.
    destruct (lookup_lt_is_Some_2 r (usize (u_to u))) as [b Hb]; [lia|].
    pose proof (Hm (u_from u) ltac:(lia)) as Hma. rewrite Ha in Hma. destruct a.
    + rewrite Hb. simpl. destruct (negb b && existsb has (u_names u)) eqn:E.
      * apply andb_true_iff in E as [_ E%existsb_has]. apply Hrec, Hyes; [tauto|done].
      * apply andb_false_iff in E as [E|E]; [|apply Hrec, Hno; intros [_ E'%existsb_has]; congruence].
        destruct b; [|done]. destruct (existsb has (u_names u)) eqn:E2.
        -- apply existsb_has in E2. specialize (Hyes ltac:(tauto) E2). rewrite list_insert_id in Hyes by done.
           apply Hrec. destruct Hyes as (H1 & H2 & H3). split_and!; [done|done|]. intros p Hp.
           apply (reaches_snoc _ _ _ _ Hs1) in Hp as [Hp|(-> & _)]; [by apply Hf|apply Hf, (Hm (u_to u)); [lia|done]|lia].
        -- apply Hrec, Hno. intros [_ E'%existsb_has]. congruence.
    + apply Hrec, Hno. by intros [E%Hma _].
Qed.

End walk.

(** ** Notes *)

Lemma note_pair_inj i j a b :
  i < 2 ^ 32 → j < 2 ^ 32 → N.of_nat a < 2 ^ 32 → N.of_nat b < 2 ^ 32 → note_pair i a = note_pair j b → i = j ∧ a = b.
Proof.
  assert (∀ i a, i < 2 ^ 32 → N.of_nat a < 2 ^ 32 →
    N.shiftr (note_pair i a) 32 = i ∧ N.land (note_pair i a) (N.ones 32) = N.of_nat a) as H.
  { intros k c Hk Hc. unfold note_pair. rewrite (wrap_small 64 (N.shiftl k 32)), (wrap_small 64 (N.of_nat c)).
    - rewrite N.shiftr_lor, N.shiftr_shiftl_l, N.sub_diag, N.shiftl_0_r by lia. rewrite N.land_lor_distr_l.
      rewrite !N.land_ones, N.shiftr_div_pow2, N.shiftl_mul_pow2, N.Div0.mod_mul.
      rewrite N.div_small, N.mod_small by done. by rewrite N.lor_0_r, N.lor_0_l.
    - unfold fits. lia.
    - unfold fits. rewrite N.shiftl_mul_pow2. nia. }
  intros Hi Hj Ha Hb E. destruct (H i a Hi Ha) as [E1 E2], (H j b Hj Hb) as [E3 E4].
  rewrite E in E1, E2. split; [congruence|]. apply Nat2N.inj. congruence.
Qed.

(** The forms noted under a name. *)
Definition waiters (w : gmap N (list N)) (n : N) : list N := default [] (w !! n).

Lemma waiters_delete w name n : waiters (delete name w) n = if decide (n = name) then [] else waiters w n.
Proof. unfold waiters. case_decide; [subst; by rewrite lookup_delete_eq|by rewrite lookup_delete_ne by congruence]. Qed.

Section notes.
Context (aw : AliasWords) (d : Dict) (Hd : names_partition d).

(** A completion could bring [n]. *)
Definition suppliable_name (n : N) : bool :=
  bool_decide (n ∈ entities aw) ||
  match equivalent_names d n with
  | Some class => existsb (λ same, bool_decide (same ∈ entities aw)) class
  | None => false
  end.

Definition supplies_ok (s : gmap N bool) : Prop :=
  ∀ w b class, s !! w = Some b → head class = Some w → equivalent_names d w = Some class →
    b = existsb (λ same, bool_decide (same ∈ entities aw)) class.

Lemma class_head n class first :
  equivalent_names d n = Some class → head class = Some first → equivalent_names d first = Some class.
Proof using Hd. intros E Hh. apply (Hd n class E). destruct class; [done|]. simplify_eq/=. by left. Qed.

Lemma can_supply_spec n s :
  supplies_ok s → (can_supply aw d n s).1 = suppliable_name n ∧ supplies_ok (can_supply aw d n s).2.
Proof using Hd.
  intros Hs. unfold can_supply, suppliable_name. case_bool_decide; [split; [done|exact Hs]|]. simpl.
  destruct (equivalent_names d n) as [[|first class]|] eqn:E; [done| |done].
  assert (equivalent_names d first = Some (first :: class)) as Ef by by eapply class_head.
  destruct (s !! first) as [b|] eqn:Eb; simpl.
  - split; [by apply (Hs first b (first :: class))|done].
  - split; [done|]. intros w b cl. rewrite lookup_insert_Some. intros [[<- <-]|[_ Hw]]; [|by apply Hs].
    intros _ Ew. rewrite Ef in Ew. by injection Ew as <-.
Qed.

(** [w'] is [w] with the form [i] added here and there. *)
Definition notes_more (i : N) (w w' : gmap N (list N)) : Prop :=
  ∀ n j, (j ∈ waiters w n → j ∈ waiters w' n) ∧ (j ∈ waiters w' n → j ∈ waiters w n ∨ j = i).

Lemma notes_more_refl i w : notes_more i w w.
Proof. intros n j. tauto. Qed.

Lemma notes_more_trans i w1 w2 w3 : notes_more i w1 w2 → notes_more i w2 w3 → notes_more i w1 w3.
Proof. intros H1 H2 n j. destruct (H1 n j), (H2 n j). tauto. Qed.

Lemma waiters_push i w n m : waiters (<[n := default [] (w !! n) ++ [i]]> w) m = waiters w m ++ if decide (m = n) then [i] else [].
Proof.
  unfold waiters. case_decide as Hm; [subst; by rewrite lookup_insert_eq|]. rewrite lookup_insert_ne by done. by rewrite app_nil_r.
Qed.

Lemma wait_on_spec i names any w s :
  supplies_ok s →
  ∃ any' w' s', foldl (wait_on aw d i) (any, w, s) names = (any', w', s') ∧ supplies_ok s' ∧ notes_more i w w' ∧
    (∀ n, n ∈ names → suppliable_name n = true → i ∈ waiters w' n ∧ any' = true) ∧ (any = true → any' = true).
Proof using Hd.
  revert any w s. induction names as [|n names IH]; intros any w s Hs; cbn [foldl].
  { exists any, w, s. split_and!; try done. apply notes_more_refl. by intros n ?%not_elem_of_nil. }
  unfold wait_on at 2. destruct (can_supply_spec n s Hs) as [E1 Hs1]. destruct (can_supply aw d n s) as [ok s1]. simpl in *. subst ok.
  destruct (suppliable_name n) eqn:En.
  - set (w1 := <[n := _]> w). destruct (IH true w1 s1 Hs1) as (any' & w' & s' & E & Hs' & Hm & Hin & Hany).
    exists any', w', s'. split_and!; [done|done| | |auto].
    + eapply notes_more_trans; [|exact Hm]. intros m j. unfold w1. rewrite waiters_push, elem_of_app.
      case_decide; rewrite ?list_elem_of_singleton, ?elem_of_nil; tauto.
    + intros m [->|Hn]%elem_of_cons Hsup; [|by apply Hin]. split; [|auto]. apply Hm. unfold w1.
      rewrite waiters_push, decide_True by done. apply elem_of_app. right. by apply list_elem_of_singleton.
  - destruct (IH any w s1 Hs1) as (any' & w' & s' & E & Hs' & Hm & Hin & Hany).
    exists any', w', s'. split_and!; [done|done|done| |done]. intros m [->|Hn]%elem_of_cons Hsup; [congruence|by apply Hin].
Qed.

(** A unit of which every name that can still come has the form waiting. *)
Definition awaited (i : N) (w : gmap N (list N)) (u : FormUnit) : Prop :=
  ∀ n, n ∈ u_names u → suppliable_name n = true → i ∈ waiters w n.

Lemma awaited_more i w w' u : notes_more i w w' → awaited i w u → awaited i w' u.
Proof. intros Hm Ha n Hn Hs. apply Hm. by apply Ha. Qed.

Lemma note_units_spec i units at_ r furthest noted w s :
  StronglySorted unit_le units → (∀ u, u ∈ units → (usize (u_to u) < length r)%nat) → supplies_ok s →
  ∃ noted' w' s', note_units aw d i at_ units r furthest (noted, w, s) = Some (noted', w', s') ∧
    supplies_ok s' ∧ notes_more i w w' ∧
    (∀ p, p ∈ noted' → p ∈ noted ∨ ∃ k u, units !! k = Some u ∧ p = note_pair i (at_ + k) ∧ awaited i w' u) ∧
    (∀ p, p ∈ noted → p ∈ noted') ∧
    (∀ k u, units !! k = Some u → u_from u ≤ furthest → r !! usize (u_to u) = Some false →
      note_pair i (at_ + k) ∈ noted' ∨ awaited i w' u).
Proof using Hd.
  revert at_ noted w s. induction units as [|u units IH]; intros at_ noted w s Hst Hlen Hs; cbn [note_units].
  { exists noted, w, s. split_and!; try done; [apply notes_more_refl|by left]. }
  apply StronglySorted_inv in Hst as [Hst Hu]. rewrite Forall_forall in Hu.
  destruct (N.ltb_spec furthest (u_from u)) as [Hlt|Hge].
  { exists noted, w, s. split_and!; try done; [apply notes_more_refl|by left|]. intros k v Hv Hf _.
    destruct k as [|k]; simplify_eq/=; [lia|]. apply list_elem_of_lookup_2, Hu in Hv. unfold unit_le in Hv. lia. }
  destruct (lookup_lt_is_Some_2 r (usize (u_to u))) as [b Hb]; [apply Hlen; by left|]. rewrite Hb. cbn [mbind option_bind].
  assert (∀ v, v ∈ units → (usize (u_to v) < length r)%nat) as Hlen' by (intros v Hv; apply Hlen; by right).
  destruct (b || bool_decide (note_pair i at_ ∈ noted)) eqn:Eb.
  - destruct (IH (S at_) noted w s Hst Hlen' Hs) as (nt & w' & s' & E & Hs' & Hm & Hnew & Hold & Hall).
    exists nt, w', s'. split_and!; try done.
    + intros p Hp. destruct (Hnew p Hp) as [?|(k & v & Hk & -> & Ha)]; [by left|]. right.
      exists (S k), v. split_and!; [done|f_equal; lia|done].
    + intros k v Hv Hf Hr. destruct k as [|k]; simplify_eq/=.
      * apply bool_decide_eq_true in Eb. left. rewrite Nat.add_0_r. auto.
      * destruct (Hall k v Hv Hf Hr); [left|by right]. by rewrite Nat.add_succ_r.
  - destruct (wait_on_spec i (u_names u) false w s Hs) as (any & w1 & s1 & -> & Hs1 & Hm1 & Hin & _).
    assert (awaited i w1 u) as Ha1 by (intros n Hn Hsup; by apply Hin).
    destruct (IH (S at_) (if any then {[note_pair i at_]} ∪ noted else noted) w1 s1 Hst Hlen' Hs1)
      as (nt & w' & s' & E & Hs' & Hm & Hnew & Hold & Hall).
    exists nt, w', s'. split_and!; [done|done|by eapply notes_more_trans| | |].
    + intros p Hp. destruct (Hnew p Hp) as [Hp'|(k & v & Hk & -> & Ha)].
      * destruct any; [|by left]. apply elem_of_union in Hp' as [Hp'%elem_of_singleton|?]; [|by left]. right.
        exists O, u. split_and!; [done|by rewrite Nat.add_0_r|by eapply awaited_more].
      * right. exists (S k), v. split_and!; [done|f_equal; lia|done].
    + intros p Hp. apply Hold. destruct any; set_solver.
    + intros k v Hv Hf Hr. destruct k as [|k]; simplify_eq/=; [right; by eapply awaited_more|].
      destruct (Hall k v Hv Hf Hr) as [Hp|]; [left|by right]. by rewrite Nat.add_succ_r.
Qed.

End notes.

(** ** The worklist *)

Section worklist.
Context (aw : AliasWords) (d : Dict) (Haw : alias_words_wf aw) (Hd : names_partition d).
Context (names cls out0 : list N) (Hsorted : StronglySorted rle names).
Context (Hcls : ∀ first class m, first ∈ cls → head class = Some first → equivalent_names d first = Some class → m ∈ class → m ∈ names).

Abbreviation base := (λ n, n ∈ names) (only parsing).
Abbreviation supp := (suppliable_name aw d) (only parsing).

Definition view (sc : AliasScratch) (n : N) : Prop := n ∈ names ∨ n ∈ entered sc.

(** A form that was examined and not completed: past the positions [R] it got
    to, each name that can still come is one the form waits on. *)
Definition parked (P : gset N) (sc : AliasScratch) (i : N) : Prop :=
  ∃ form (R : N → bool), forms aw !! usize i = Some form ∧ R 0 = true ∧ R (f_len form) = false ∧
    ∀ u n, u ∈ f_units form → R (u_from u) = true → R (u_to u) = false → n ∈ u_names u →
      (n ∉ names) ∧ (supp n = true → (n ∉ P) ∧ i ∈ waiters (waiting sc) n).

(** [P]: the names that have been entered; [E]: the forms that have been
    examined since one of their names was. *)
Record inv (P E : gset N) (st : Completion) : Prop := {
  i_names : as_names (co_scratch st) = names;
  i_classes : classes (co_scratch st) = cls;
  i_queue : NoDup (queue (co_scratch st));
  i_queued n : n ∈ queue (co_scratch st) ↔ n ∈ entered (co_scratch st);
  i_fresh n : n ∈ entered (co_scratch st) → n ∉ names;
  i_sound n : n ∈ entered (co_scratch st) → in_view aw d base n;
  i_bounded n : n ∈ entered (co_scratch st) → n ∈ suppliable aw d;
  i_done i : i ∈ done_forms (co_scratch st) →
    ∃ form, forms aw !! usize i = Some form ∧ carries (in_view aw d base) form ∧
      ∀ n, n ∈ members_of_entity d (entity_name form) → view (co_scratch st) n;
  i_out : ∃ new, co_out st = out0 ++ new ∧
    ∀ f, f ∈ new ↔ ∃ i form, i ∈ done_forms (co_scratch st) ∧ forms aw !! usize i = Some form ∧
      f = get_or_synthetic d (f_entity form);
  i_widened first class m : first ∈ widened (co_scratch st) → head class = Some first →
    equivalent_names d first = Some class → m ∈ class → view (co_scratch st) m;
  i_supplies : supplies_ok aw d (supplies (co_scratch st));
  i_passed n : n ∈ P → view (co_scratch st) n;
  i_noted i form at_ u n : forms aw !! usize i = Some form → f_units form !! at_ = Some u →
    note_pair i at_ ∈ noted (co_scratch st) → n ∈ u_names u → supp n = true → n ∉ P → i ∈ waiters (waiting (co_scratch st)) n;
  i_waiting n i : i ∈ waiters (waiting (co_scratch st)) n → (usize i < length (forms aw))%nat;
  i_examined i : i ∈ E → i ∈ done_forms (co_scratch st) ∨ parked P (co_scratch st) i;
}.

Lemma inv_start r k : inv ∅ ∅ (mkCompletion (mkAliasScratch names ∅ [] ∅ ∅ ∅ r cls ∅ ∅) out0 k).
Proof.
  split; simpl; try by intros ? ?%elem_of_empty.
  - done.
  - done.
  - constructor.
  - intros n. split; [by intros ?%not_elem_of_nil|by intros ?%elem_of_empty].
  - exists []. rewrite app_nil_r. split; [done|]. intros f.
    split; [by intros ?%not_elem_of_nil|by intros (? & ? & ?%elem_of_empty & _)].
  - by intros ? ? ? ?%elem_of_empty.
  - intros w b class. by rewrite lookup_empty.
  - by intros ? ? ? ? ? _ _ ?%elem_of_empty.
  - intros n i. unfold waiters. rewrite lookup_empty. by intros ?%not_elem_of_nil.
Qed.

Lemma has_name_view P E st n : inv P E st → has_name (co_scratch st) n = true ↔ view (co_scratch st) n.
Proof using Hsorted.
  intros HI. unfold has_name, view. rewrite (i_names _ _ _ HI), orb_true_iff, bool_decide_eq_true, bsearch_mem_spec by done. done.
Qed.

Lemma view_in_view P E st n : inv P E st → view (co_scratch st) n → in_view aw d base n.
Proof. intros HI [Hn|Hn]; [by apply in_view_base|by eapply i_sound]. Qed.

(** The names an entity brings can be brought. *)
Lemma members_suppliable form n :
  form ∈ forms aw → n ∈ members_of_entity d (entity_name form) → n ∈ suppliable aw d.
Proof. intros Hf Hn. unfold suppliable. apply list_elem_of_bind. by exists form. Qed.

Lemma suppliable_supp n : n ∈ suppliable aw d → supp n = true.
Proof using Haw Hd.
  unfold suppliable. rewrite list_elem_of_bind. intros (form & Hn & Hf). unfold suppliable_name. apply orb_true_iff.
  assert (entity_name form ∈ entities aw) as He by (apply (aw_entities aw Haw); eauto).
  destruct (equivalent_names d (entity_name form)) as [class|] eqn:Ec; simpl in Hn.
  - right. destruct (Hd _ _ Ec) as [Hin Hsame]. rewrite (Hsame n Hn). apply existsb_elem.
    exists (entity_name form). split; [done|]. by apply bool_decide_eq_true.
  - apply list_elem_of_singleton in Hn as ->. left. by apply bool_decide_eq_true.
Qed.

Lemma enqueue_names ms e q :
  NoDup q → (∀ n, n ∈ q ↔ n ∈ e) →
  let '(e', q') := foldl (enqueue_name names) (e, q) ms in
  NoDup q' ∧ (∀ n, n ∈ q' ↔ n ∈ e') ∧ (∀ n, n ∈ e → n ∈ e') ∧
  (∀ n, n ∈ ms → n ∈ names ∨ n ∈ e') ∧ (∀ n, n ∈ e' → n ∈ e ∨ n ∈ ms ∧ n ∉ names) ∧ q `prefix_of` q'.
Proof using All.
  revert e q. induction ms as [|m ms IH]; intros e q Hnd Hq; cbn [foldl].
  { split_and!; try done. by intros n ?%not_elem_of_nil. by left. }
  unfold enqueue_name at 2. destruct (bsearch_mem m names) eqn:Eb; simpl.
  - specialize (IH e q Hnd Hq). destruct (foldl _ _ ms) as [e' q']. destruct IH as (H1 & H2 & H3 & H4 & H5 & H6).
    split_and!; try done; [|naive_solver set_solver]. intros n [->|Hn]%elem_of_cons; [|auto].
    left. by apply bsearch_mem_elem.
  - assert (m ∉ names) as Hm by (intros Hm; apply bsearch_mem_spec in Hm; [congruence|done]).
    case_bool_decide as He.
    + specialize (IH e q Hnd Hq). destruct (foldl _ _ ms) as [e' q']. destruct IH as (H1 & H2 & H3 & H4 & H5 & H6).
      split_and!; try done; [|naive_solver set_solver]. intros n [->|Hn]%elem_of_cons; auto.
    + assert (NoDup (q ++ [m])) as Hnd'.
      { apply NoDup_app. split_and!; [done| |apply NoDup_singleton]. intros n Hn ->%list_elem_of_singleton. by apply He, Hq. }
      assert (∀ n, n ∈ q ++ [m] ↔ n ∈ {[m]} ∪ e) as Hq'.
      { intros n. rewrite elem_of_app, elem_of_union, list_elem_of_singleton, elem_of_singleton, Hq. tauto. }
      specialize (IH _ _ Hnd' Hq'). destruct (foldl _ _ ms) as [e' q']. destruct IH as (H1 & H2 & H3 & H4 & H5 & H6).
      split_and!; [done|done|set_solver| | |].
      * intros n [->|Hn]%elem_of_cons; [right; apply H3; set_solver|auto].
      * intros n Hn. destruct (H5 n Hn) as [Hn'|[? ?]]; [|right; split; [by right|done]].
        apply elem_of_union in Hn' as [->%elem_of_singleton|?]; [right; split; [by left|done]|by left].
      * etrans; [|exact H6]. by eexists.
Qed.

Lemma parked_mono P sc sc' i :
  (∀ n, i ∈ waiters (waiting sc) n → i ∈ waiters (waiting sc') n) → parked P sc i → parked P sc' i.
Proof.
  intros Hw (form & R & Hf & H0 & Hl & Hu). exists form, R. split_and!; [done..|]. intros u n Hin Hfr Hto Hn.
  destruct (Hu u n Hin Hfr Hto Hn) as [Hnn Hs]. split; [done|]. intros Hsup. destruct (Hs Hsup). auto.
Qed.

(** What [brought] says: either all the members are in, or these are they. *)
Lemma brought_spec P E st sc form :
  inv P E st → entered sc = entered (co_scratch st) → widened sc = widened (co_scratch st) → classes sc = cls →
  match brought d sc (entity_name form) with
  | None => ∀ n, n ∈ members_of_entity d (entity_name form) → view (co_scratch st) n
  | Some (members, w) => members = members_of_entity d (entity_name form) ∧
      ∀ first class m, first ∈ w → head class = Some first → equivalent_names d first = Some class → m ∈ class →
        view (co_scratch st) m ∨ m ∈ members
  end.
Proof using All.
  intros HI He Hw Hc. unfold brought, members_of_entity. destruct (equivalent_names d (entity_name form)) as [class|] eqn:Ec; simpl.
  - destruct (Hd _ _ Ec) as [Hin Hsame]. destruct class as [|first class]; [by apply not_elem_of_nil in Hin|]. simpl.
    rewrite Hc, Hw. destruct (bsearch_mem first cls) eqn:Eb; simpl; [|case_bool_decide as Hwd; simpl].
    + intros n Hn. left. apply (Hcls first (first :: class)); [by apply bsearch_mem_elem|done|by eapply class_head|done].
    + intros n Hn. apply (i_widened _ _ _ HI first (first :: class)); [exact Hwd|done|by eapply class_head|done].
    + split; [done|]. intros f cl m Hf Hh Hcl Hm. apply elem_of_union in Hf as [->%elem_of_singleton|Hf].
      * rewrite (class_head d Hd _ _ _ Ec eq_refl) in Hcl. simplify_eq. by right.
      * left. by eapply (i_widened _ _ _ HI).
  - split; [done|]. intros f cl m Hf Hh Hcl Hm. left. rewrite Hw in Hf. by eapply (i_widened _ _ _ HI).
Qed.

Lemma out_snoc i form (done0 : gset N) new :
  forms aw !! usize i = Some form →
  (∀ f, f ∈ new ↔ ∃ j fm, j ∈ done0 ∧ forms aw !! usize j = Some fm ∧ f = get_or_synthetic d (f_entity fm)) →
  ∀ f, f ∈ new ++ [get_or_synthetic d (f_entity form)] ↔
    ∃ j fm, j ∈ {[i]} ∪ done0 ∧ forms aw !! usize j = Some fm ∧ f = get_or_synthetic d (f_entity fm).
Proof.
  intros Hf Hnew f. rewrite elem_of_app, list_elem_of_singleton, Hnew. setoid_rewrite elem_of_union.
  setoid_rewrite elem_of_singleton. split.
  - intros [(j & fm & ? & ? & ?)| ->]; [by exists j, fm; auto|exists i, form; auto].
  - intros (j & fm & [->|Hj] & Hfm & ->); [right; congruence|left; eauto].
Qed.

(** Finishing a form: it is done and its members are in the view. *)
Lemma inv_complete P E st i form r :
  inv P E st → forms aw !! usize i = Some form → carries (view (co_scratch st)) form →
  let sc := set_done i (set_reach r (co_scratch st)) in
  let out := co_out st ++ [get_or_synthetic d (f_entity form)] in
  let sc' := match brought d sc (entity_name form) with None => sc | Some (ms, w) => set_brought ms w sc end in
  ∀ k, inv P ({[i]} ∪ E) (mkCompletion sc' out k) ∧ queue (co_scratch st) `prefix_of` queue sc'.
Proof using All.
  intros HI Hf Hc sc out sc' k.
  assert (carries (in_view aw d base) form) as Hcv.
  { eapply reaches_mono; [done| |exact Hc]. intros n. by eapply view_in_view. }
  assert (form ∈ forms aw) as Hform by by eapply list_elem_of_lookup_2.
  pose proof (brought_spec P E st sc form HI eq_refl eq_refl (i_classes _ _ _ HI)) as Hbr.
  set (ms := match brought d sc (entity_name form) with None => [] | Some (ms, _) => ms end).
  set (w := match brought d sc (entity_name form) with None => widened (co_scratch st) | Some (_, w) => w end).
  assert (sc' = set_brought ms w sc) as Esc.
  { unfold sc', ms, w. destruct (brought d sc (entity_name form)) as [[? ?]|]; [done|]. by unfold set_brought, sc. }
  assert (∀ m, m ∈ ms → m ∈ members_of_entity d (entity_name form)) as Hms.
  { unfold ms. destruct (brought d sc (entity_name form)) as [[ms' w']|]; [by destruct Hbr as [-> _]|]. by intros m ?%not_elem_of_nil. }
  assert (∀ m, m ∈ members_of_entity d (entity_name form) → view (co_scratch st) m ∨ m ∈ ms) as Hall.
  { unfold ms. destruct (brought d sc (entity_name form)) as [[ms' w']|]; [destruct Hbr as [-> _]; by right|]. auto. }
  assert (∀ first class m, first ∈ w → head class = Some first → equivalent_names d first = Some class → m ∈ class →
    view (co_scratch st) m ∨ m ∈ ms) as Hw.
  { unfold ms, w. destruct (brought d sc (entity_name form)) as [[ms' w']|]; [by destruct Hbr|].
    intros. left. by eapply (i_widened _ _ _ HI). }
  rewrite Esc. unfold set_brought, sc. simpl. rewrite (i_names _ _ _ HI).
  pose proof (enqueue_names ms (entered (co_scratch st)) (queue (co_scratch st)) (i_queue _ _ _ HI) (i_queued _ _ _ HI)) as Henq.
  destruct (foldl (enqueue_name names) _ ms) as [e' q']. destruct Henq as (Hq1 & Hq2 & Hq3 & Hq4 & Hq5 & Hq6).
  split; [|done]. destruct (i_out _ _ _ HI) as (new & Hout & Hnew).
  assert (∀ m, view (co_scratch st) m ∨ m ∈ ms → m ∈ names ∨ m ∈ e') as Hview.
  { intros m [[?|?]|?]; auto. }
  split; simpl; unfold view; simpl; try (done || by apply HI).
  - intros n Hn. destruct (Hq5 n Hn) as [?|[_ ?]]; [by eapply i_fresh|done].
  - intros n Hn. destruct (Hq5 n Hn) as [?|[? _]]; [by eapply i_sound|]. eapply in_view_completed; eauto.
  - intros n Hn. destruct (Hq5 n Hn) as [?|[? _]]; [by eapply i_bounded|]. eapply members_suppliable; eauto.
  - intros j [->%elem_of_singleton|Hj]%elem_of_union; [exists form; split_and!; [done|done|auto]|].
    destruct (i_done _ _ _ HI j Hj) as (fm & ? & ? & Hv). exists fm. split_and!; [done|done|]. intros n Hn. apply Hview. left. by apply Hv.
  - exists (new ++ [get_or_synthetic d (f_entity form)]). unfold out. rewrite Hout, app_assoc. split; [done|]. by apply out_snoc.
  - intros first class m Hfw Hh Hcl Hm. apply Hview. by eapply Hw.
  - intros n Hn. apply Hview. left. by eapply i_passed.
  - intros j [->%elem_of_singleton|Hj]%elem_of_union; [left; set_solver|].
    destruct (i_examined _ _ _ HI j Hj) as [?|Hp]; [left; set_solver|right; exact Hp].
Qed.

Lemma form_index i form : forms aw !! usize i = Some form → i < 2 ^ 32.
Proof using Haw. intros Hf%lookup_lt_Some. pose proof (aw_count aw Haw). lia. Qed.

Lemma unit_index form at_ u : form ∈ forms aw → f_units form !! at_ = Some u → N.of_nat at_ < 2 ^ 32.
Proof using Haw. intros Hf Hu%lookup_lt_Some. pose proof (fw_count form (aw_forms aw Haw form Hf)). lia. Qed.

(** Noting a form that was not completed. *)
Lemma inv_park P E st i form r furthest :
  inv P E st → forms aw !! usize i = Some form →
  marks (view (co_scratch st)) (f_len form) (f_units form) r furthest → r !! usize (f_len form) = Some false →
  let sc := set_reach r (co_scratch st) in
  ∃ acc, note_units aw d i 0 (f_units form) r furthest (noted sc, waiting sc, supplies sc) = Some acc ∧
    ∀ k, inv P ({[i]} ∪ E) (mkCompletion (set_notes acc sc) (co_out st) k) ∧ queue (set_notes acc sc) = queue (co_scratch st).
Proof using All.
  intros HI Hf (Hlen & Hm & Hfar) Hlast sc. assert (form ∈ forms aw) as Hform by by eapply list_elem_of_lookup_2.
  destruct (aw_forms aw Haw form Hform) as [Hpos Hst Hun Hcount].
  destruct (note_units_spec aw d Hd i (f_units form) 0 r furthest (noted sc) (waiting sc) (supplies sc))
    as (nt & w' & s' & E1 & Hs' & Hmore & Hnew & Hold & Hall); [done| |by apply HI|].
  { intros u Hu. specialize (Hun u Hu). lia. }
  exists (nt, w', s'). split; [done|]. intros k. split; [|done].
  assert (∀ n j, j ∈ waiters (waiting (co_scratch st)) n → j ∈ waiters w' n) as Hgrow by (intros n j; by apply Hmore).
  split; simpl; unfold view; simpl; try by apply HI.
  - done.
  - intros j fm at_ u n Hj Hu Hp Hn Hsup HnP. destruct (Hnew _ Hp) as [Hp'|(k' & v & Hv & Ep & Ha)].
    + apply Hgrow. by eapply (i_noted _ _ _ HI).
    + assert (fm ∈ forms aw) as Hfm by by eapply list_elem_of_lookup_2.
      apply note_pair_inj in Ep as [-> ->]; [|by eapply form_index|by eapply form_index|exact (unit_index _ _ _ Hfm Hu)|exact (unit_index _ _ _ Hform Hv)].
      simpl in Hu. simplify_eq. by apply Ha.
  - intros n j Hj. destruct (Hmore n j) as [_ [Hj'| ->]]; [done|by eapply (i_waiting _ _ _ HI)|]. by apply lookup_lt_Some in Hf.
  - intros j [->%elem_of_singleton|Hj]%elem_of_union.
    2: { destruct (i_examined _ _ _ HI j Hj) as [?|Hp]; [by left|right]. eapply parked_mono; [|exact Hp]. auto. }
    right. exists form, (λ p, match r !! usize p with Some b => b | None => false end). split_and!; [done| |by rewrite Hlast|].
    { assert (r !! usize 0 = Some true) as ->; [|done]. apply Hm; [lia|constructor]. }
    intros u n Hu Hfr Hto Hn. specialize (Hun u Hu).
    assert (reaches (f_units form) (view (co_scratch st)) (u_from u)) as Hreach.
    { apply Hm; [lia|]. destruct (r !! usize (u_from u)) as [[]|] eqn:Er; [done|done|done]. }
    assert (r !! usize (u_to u) = Some false) as Hto'.
    { destruct (lookup_lt_is_Some_2 r (usize (u_to u))) as [b Hb]; [lia|]. rewrite Hb in *. by subst. }
    assert (¬ view (co_scratch st) n) as Hnv.
    { intros Hv. assert (r !! usize (u_to u) = Some true); [|congruence]. apply Hm; [lia|]. by econstructor. }
    split; [intros ?; apply Hnv; by left|]. intros Hsup. assert (n ∉ P) as HnP by (intros Hp; by apply Hnv, (i_passed _ _ _ HI)).
    split; [done|]. simpl. apply list_elem_of_lookup in Hu as [at_ Hat].
    destruct (Hall at_ u Hat (Hfar _ Hreach) Hto') as [Hp|Ha]; [|by apply Ha].
    destruct (Hnew _ Hp) as [Hp'|(k' & v & Hv & Ep & Ha)]; [apply Hgrow; by eapply (i_noted _ _ _ HI)|].
    cbn [Nat.add] in Ep. apply note_pair_inj in Ep as [_ ->]; [|by eapply form_index|by eapply form_index|exact (unit_index _ _ _ Hform Hat)|exact (unit_index _ _ _ Hform Hv)].
    simpl in Hat. simplify_eq. by apply Ha.
Qed.

Lemma examine_spec P E st i :
  inv P E st → (usize i < length (forms aw))%nat →
  ∃ st', examine aw d st i = Some st' ∧ inv P ({[i]} ∪ E) st' ∧ queue (co_scratch st) `prefix_of` queue (co_scratch st').
Proof using All.
  intros HI Hi. unfold examine. case_bool_decide as Hdone.
  { eexists. split; [done|]. split; [|done]. destruct HI. split; try done.
    intros j [->%elem_of_singleton|Hj]%elem_of_union; [by left|auto]. }
  destruct (lookup_lt_is_Some_2 _ _ Hi) as [form Hf]. rewrite Hf. cbn [mbind option_bind].
  assert (form ∈ forms aw) as Hform by by eapply list_elem_of_lookup_2.
  destruct (aw_forms aw Haw form Hform) as [Hpos Hst Hun Hcount].
  set (r0 := <[O := true]> (replicate (S (usize (f_len form))) false)).
  destruct (walk_units_spec (has_name (co_scratch st)) (view (co_scratch st)) (λ n, has_name_view P E st n HI) (f_len form)
    (f_units form) [] r0 0) as (r & far & -> & HM); [done|done| |].
  { split_and!; [unfold r0; by rewrite length_insert, length_replicate| |by intros p ->%reaches_nil].
    intros p Hp. rewrite reaches_nil. unfold r0. destruct (decide (p = 0)) as [->|Hne]; [done|].
    rewrite list_lookup_insert_ne by lia. rewrite lookup_replicate. naive_solver. }
  cbn [mbind option_bind app] in *. destruct HM as (Hl & HM).
  destruct (lookup_lt_is_Some_2 r (usize (f_len form))) as [b Hb]; [lia|]. rewrite Hb. cbn [mbind option_bind]. destruct b.
  - assert (carries (view (co_scratch st)) form) as Hc by (apply HM; done).
    destruct (inv_complete P E st i form r HI Hf Hc (S (examined st))) as [H1 H2].
    destruct (brought _ _ _) as [[ms w]|]; eexists; (split; [done|]); by split.
  - destruct (inv_park P E st i form r far HI Hf (conj Hl HM) Hb) as (acc & -> & Hacc). cbn [mbind option_bind].
    destruct (Hacc (S (examined st))) as [H1 H2]. eexists. split; [done|]. split; [done|]. simpl. by rewrite H2.
Qed.

Lemma examine_all P E st l :
  inv P E st → (∀ i, i ∈ l → (usize i < length (forms aw))%nat) →
  ∃ st', foldM (examine aw d) st l = Some st' ∧ inv P (list_to_set l ∪ E) st' ∧
    queue (co_scratch st) `prefix_of` queue (co_scratch st').
Proof using All.
  revert E st. induction l as [|i l IH]; intros E st HI Hl; cbn [list_to_set].
  { exists st. split; [done|]. split; [|done]. by rewrite union_empty_l_L. }
  rewrite foldM_cons. destruct (examine_spec P E st i HI) as (st1 & -> & HI1 & Hq1); [apply Hl; by left|]. simpl.
  destruct (IH _ st1 HI1) as (st2 & -> & HI2 & Hq2); [intros j Hj; apply Hl; by right|].
  exists st2. split; [done|]. split; [|by etrans]. by replace ({[i]} ∪ list_to_set l ∪ E) with (list_to_set l ∪ ({[i]} ∪ E)) by set_solver.
Qed.

Lemma view_prefix P E P' E' st st' n :
  inv P E st → inv P' E' st' → queue (co_scratch st) `prefix_of` queue (co_scratch st') →
  view (co_scratch st) n → view (co_scratch st') n.
Proof.
  intros HI HI' Hq [Hn|Hn]; [by left|right]. apply (i_queued _ _ _ HI'), (elem_of_prefix (queue (co_scratch st))); [|done].
  by apply (i_queued _ _ _ HI).
Qed.

(** A name is entered: the forms that waited on it are up for examination. *)
Lemma inv_pass P E st name w :
  inv P E st → view (co_scratch st) name →
  (∀ n, waiters w n = if decide (n = name) then [] else waiters (waiting (co_scratch st)) n) →
  inv ({[name]} ∪ P) (E ∖ list_to_set (waiters (waiting (co_scratch st)) name))
    (mkCompletion (set_waiting w (co_scratch st)) (co_out st) (examined st)).
Proof.
  intros HI Hname Hw. split; simpl; unfold view; simpl; try by apply HI.
  - intros n [->%elem_of_singleton|Hn]%elem_of_union; [done|by eapply i_passed].
  - intros i form at_ u n Hf Hu Hp Hn Hs HnP. rewrite Hw, decide_False by set_solver. eapply (i_noted _ _ _ HI); eauto. set_solver.
  - intros n i. rewrite Hw. case_decide; [by intros ?%not_elem_of_nil|]. by eapply (i_waiting _ _ _ HI).
  - intros i [Hi Hni]%elem_of_difference. destruct (i_examined _ _ _ HI i Hi) as [?|(form & R & Hf & H0 & Hl & Hu)]; [by left|right].
    exists form, R. split_and!; [done..|]. intros u n Hin Hfr Hto Hn. destruct (Hu u n Hin Hfr Hto Hn) as [Hnn Hs].
    split; [done|]. intros Hsup. destruct (Hs Hsup) as [HnP Hwait]. simpl. rewrite Hw.
    assert (n ≠ name) by (intros ->; apply Hni; by apply elem_of_list_to_set). rewrite decide_False by done. split; [set_solver|done].
Qed.

Lemma inv_weaken P E E' st : inv P E st → E' ⊆ E → inv P E' st.
Proof. intros [] Hsub. split; try done. auto. Qed.

Lemma enter_spec P E st name :
  inv P E st → view (co_scratch st) name →
  ∃ st', enter aw d st name = Some st' ∧ inv ({[name]} ∪ P) (list_to_set (default [] (keyed aw !! name)) ∪ E) st' ∧
    queue (co_scratch st) `prefix_of` queue (co_scratch st').
Proof using All.
  intros HI Hv. unfold enter. set (K := default [] (keyed aw !! name)).
  destruct (examine_all P E st K HI) as (st1 & -> & HI1 & Hq1); [intros i; by apply (aw_keyed aw Haw)|]. cbn [mbind option_bind].
  assert (view (co_scratch st1) name) as Hv1 by exact (view_prefix _ _ _ _ _ _ _ HI HI1 Hq1 Hv).
  pose proof (λ w, inv_pass _ _ st1 name w HI1 Hv1) as Hpass.
  destruct (waiting (co_scratch st1) !! name) as [fs|] eqn:Ew.
  - specialize (Hpass (delete name (waiting (co_scratch st1)))). set (st2 := mkCompletion _ _ _) in *.
    assert (waiters (waiting (co_scratch st1)) name = fs) as Efs by (unfold waiters; by rewrite Ew). rewrite Efs in Hpass.
    destruct (examine_all ({[name]} ∪ P) _ st2 fs (Hpass (waiters_delete _ _))) as (st3 & -> & HI3 & Hq3).
    { intros i Hi. eapply (i_waiting _ _ _ HI1 name). by rewrite Efs. }
    exists st3. split; [done|]. split; [|by etrans]. eapply inv_weaken; [exact HI3|].
    intros i Hi. destruct (decide (i ∈ (list_to_set fs : gset N))); set_solver.
  - exists st1. split; [done|]. split; [|done].
    assert (waiters (waiting (co_scratch st1)) name = []) as Efs by (unfold waiters; by rewrite Ew). rewrite Efs in Hpass.
    specialize (Hpass (waiting (co_scratch st1)) ltac:(intros n; case_decide; [by subst|done])).
    destruct st1 as [[] o k]. eapply inv_weaken; [exact Hpass|]. set_solver.
Qed.

(** The forms keyed on names of [P]. *)
Definition all_keyed (P E : gset N) : Prop := ∀ n i, n ∈ P → i ∈ default [] (keyed aw !! n) → i ∈ E.

Lemma all_keyed_step P E name :
  all_keyed P E → all_keyed ({[name]} ∪ P) (list_to_set (default [] (keyed aw !! name)) ∪ E).
Proof. intros Hk n i [->%elem_of_singleton|Hn]%elem_of_union Hi; [|specialize (Hk n i Hn Hi)]; set_solver. Qed.

Lemma enter_all P E st l :
  inv P E st → all_keyed P E → (∀ n, n ∈ l → n ∈ names) →
  ∃ E' st', foldM (enter aw d) st l = Some st' ∧ inv (list_to_set l ∪ P) E' st' ∧ all_keyed (list_to_set l ∪ P) E'.
Proof using All.
  revert P E st. induction l as [|n l IH]; intros P E st HI Hk Hl; cbn [list_to_set].
  { exists E, st. rewrite union_empty_l_L. by split. }
  rewrite foldM_cons. destruct (enter_spec P E st n HI) as (st1 & -> & HI1 & _); [left; apply Hl; by left|]. simpl.
  destruct (IH _ _ st1 HI1 (all_keyed_step _ _ _ Hk)) as (E' & st2 & -> & HI2 & Hk2); [intros m Hm; apply Hl; by right|].
  exists E', st2. replace ({[n]} ∪ list_to_set l ∪ P) with (list_to_set l ∪ ({[n]} ∪ P)) by set_solver. done.
Qed.

Lemma queue_bound P E st : inv P E st → (length (queue (co_scratch st)) ≤ length (suppliable aw d))%nat.
Proof.
  intros HI. apply submseteq_length, NoDup_submseteq; [by eapply i_queue|]. intros n Hn%(i_queued _ _ _ HI). by eapply i_bounded.
Qed.

Lemma drain_spec fuel next P E st :
  inv P E st → all_keyed P E → (∀ n, n ∈ names → n ∈ P) → (∀ n, n ∈ take next (queue (co_scratch st)) → n ∈ P) →
  (length (suppliable aw d) < fuel + next)%nat →
  ∃ P' E' st', drain aw d fuel next st = Some st' ∧ inv P' E' st' ∧ all_keyed P' E' ∧ ∀ n, view (co_scratch st') n → n ∈ P'.
Proof using All.
  revert next P E st. induction fuel as [|fuel IH]; intros next P E st HI Hk Hb Ht Hfuel; cbn [drain];
    (destruct (queue (co_scratch st) !! next) as [name|] eqn:Eq; [|exists P, E, st; split_and!; try done; intros n [Hn|Hn]; [auto|];
      apply Ht; rewrite firstn_all2 by (by apply lookup_ge_None); by apply (i_queued _ _ _ HI)]).
  { apply lookup_lt_Some in Eq. pose proof (queue_bound _ _ _ HI). lia. }
  assert (view (co_scratch st) name) as Hv by (right; apply (i_queued _ _ _ HI); by eapply list_elem_of_lookup_2).
  destruct (enter_spec P E st name HI Hv) as (st1 & -> & HI1 & Hq). cbn [mbind option_bind].
  apply (IH (S next) _ _ st1 HI1 (all_keyed_step _ _ _ Hk)); [set_solver| |lia].
  intros n Hn. rewrite (take_S_r _ _ name) in Hn by by eapply prefix_lookup_Some. apply elem_of_app in Hn as [Hn|Hn]; [|set_solver].
  apply elem_of_union. right. apply Ht. destruct Hq as [k Hq]. rewrite Hq, take_app_le in Hn; [done|].
  apply lookup_lt_Some in Eq. lia.
Qed.

(** When every name of the view has been entered, the completed forms are
    exactly the forms the least view carries. *)
Lemma drained P E st i form :
  inv P E st → all_keyed P E → (∀ n, view (co_scratch st) n → n ∈ P) → forms aw !! usize i = Some form →
  i ∈ done_forms (co_scratch st) ↔ carries (in_view aw d base) form.
Proof using All.
  intros HI Hk HP.
  assert (∀ j fm, forms aw !! usize j = Some fm → carries (view (co_scratch st)) fm → j ∈ done_forms (co_scratch st)) as Hdone.
  { intros j fm Hf Hc. destruct (aw_gap aw Haw (usize j) fm Hf) as (gap & Hgap & Hkey).
    destruct (reaches_gap _ _ gap _ Hc Hgap) as (u & n & Hu & Hg & Hn & Hv).
    specialize (Hkey u n Hu Hg Hn). rewrite N2Nat.id in Hkey.
    destruct (i_examined _ _ _ HI j) as [?|(fm' & R & Hf' & H0 & Hl & Hpark)]; [by eapply Hk; eauto|done|]. simplify_eq.
    destruct (reaches_leaves (f_units fm) (view (co_scratch st)) (λ p, R p = true) (f_len fm) _ H0) as (v & m & Hvu & HR & HnR & Hm & Hmv);
      [congruence|exact Hc|].
    apply not_true_is_false in HnR. destruct (Hpark v m Hvu HR HnR Hm) as [Hmn Hms].
    destruct Hmv as [?|Hme]; [done|]. destruct Hms as [HmP _]; [by eapply suppliable_supp, i_bounded|]. destruct HmP. apply HP. by right. }
  intros Hf. split.
  - intros Hi. destruct (i_done _ _ _ HI i Hi) as (fm & Hfm & Hc & _). by simplify_eq.
  - intros Hc. apply (Hdone i form Hf). eapply reaches_mono; [done| |exact Hc]. intros n Hn. apply Hn; [by left|].
    intros fm m Hfm Hcm Hm. apply list_elem_of_lookup in Hfm as [k Hk']. rewrite <-(Nat2N.id k) in Hk'.
    destruct (i_done _ _ _ HI (N.of_nat k)) as (fm' & Hfm' & _ & Hall); [by eapply Hdone|]. simplify_eq. by apply Hall.
Qed.

End worklist.

(** ** Completion computes the least view *)

(** [AliasScratch::is_clear] *)
Definition is_clear (sc : AliasScratch) : bool :=
  bool_decide (entered sc = ∅) && bool_decide (queue sc = []) && bool_decide (done_forms sc = ∅) &&
  bool_decide (noted sc = ∅) && bool_decide (waiting sc = ∅) && bool_decide (supplies sc = ∅) &&
  bool_decide (classes sc = []) && bool_decide (widened sc = ∅).

(** What a title carries by itself: its names and the names a query takes for them. *)
Definition title_name (d : Dict) (names : list N) (n : N) : Prop :=
  n ∈ names ∨ ∃ m class, m ∈ names ∧ equivalent_names d m = Some class ∧ n ∈ class.

Lemma in_view_ext aw d b b' n : (∀ m, b m ↔ b' m) → in_view aw d b n ↔ in_view aw d b' n.
Proof. intros Hb. unfold in_view. by setoid_rewrite Hb. Qed.

Lemma carries_ext V W form : (∀ n, V n ↔ W n) → carries V form ↔ carries W form.
Proof. intros H. split; apply reaches_mono; try done; intros n; apply H. Qed.

(** The view the first loop runs over, with the classes it came from. *)
Definition title_view (d : Dict) (names : list N) : list N * list N :=
  let names := sort_dedup names in
  let cls := if has_equivalent_names d then sort_dedup (title_classes d names) else [] in
  (match cls with [] => names | _ => if has_equivalent_names d then widen_names d names cls else names end, cls).

Lemma title_classes_elem d names first :
  first ∈ title_classes d names ↔ ∃ m class, m ∈ names ∧ equivalent_names d m = Some class ∧ head class = Some first.
Proof.
  unfold title_classes. rewrite list_elem_of_omap. split.
  - intros (m & Hm & E). destruct (equivalent_names d m) as [class|] eqn:Ec; simpl in E; [eauto|done].
  - intros (m & class & Hm & E & Hh). exists m. by rewrite E.
Qed.

Lemma title_view_spec d names :
  names_partition d →
  StronglySorted rle (title_view d names).1 ∧
  (∀ n, n ∈ (title_view d names).1 ↔ title_name d names n) ∧
  (∀ first class m, first ∈ (title_view d names).2 → head class = Some first → equivalent_names d first = Some class →
     m ∈ class → m ∈ (title_view d names).1).
Proof.
  intros Hd. unfold title_view. simpl. set (ns := sort_dedup names).
  assert (∀ n, n ∈ ns ↔ n ∈ names) as Hns by (intros n; apply elem_of_sort_dedup).
  assert (has_equivalent_names d = false → ∀ m, equivalent_names d m = None) as Hno.
  { unfold has_equivalent_names, equivalent_names. rewrite bool_decide_eq_false. intros E m.
    apply dec_stable in E. by rewrite E, lookup_empty. }
  assert (∀ cls, (∀ first, first ∈ cls ↔ first ∈ title_classes d ns) →
    ∀ n, n ∈ widen_names d ns cls ↔ title_name d names n) as Hwiden.
  { intros cls Hcls n. unfold widen_names, title_name. rewrite elem_of_sort_dedup, elem_of_app, list_elem_of_bind, Hns. f_equiv. split.
    - intros (first & Hn & Hf). apply Hcls, title_classes_elem in Hf as (m & class & Hm & E & Hh).
      rewrite (class_head d Hd m class first E Hh) in Hn. exists m, class. rewrite <-Hns. done.
    - intros (m & class & Hm & E & Hn). destruct class as [|first class]; [by apply not_elem_of_nil in Hn|].
      exists first. rewrite (class_head d Hd m (first :: class) first E eq_refl). split; [done|].
      apply Hcls, title_classes_elem. exists m, (first :: class). rewrite Hns. done. }
  destruct (has_equivalent_names d) eqn:Eh.
  - set (cls := sort_dedup (title_classes d ns)).
    assert (∀ first, first ∈ cls ↔ first ∈ title_classes d ns) as Hcls by (intros; apply elem_of_sort_dedup).
    assert ((match cls with [] => ns | _ => widen_names d ns cls end) = widen_names d ns cls) as ->.
    { destruct cls; [|done]. unfold widen_names. simpl. rewrite app_nil_r. symmetry. apply sort_dedup_idemp. }
    split_and!; [apply strictly_sorted_sorted, sort_dedup_sorted|by apply Hwiden|].
    intros first class m Hf Hh E Hm. apply Hwiden; [done|]. right.
    apply Hcls, title_classes_elem in Hf as (k & class' & Hk & E' & Hh').
    rewrite (class_head d Hd k class' first E' Hh') in E. simplify_eq. exists k, class. rewrite <-Hns. done.
  - split_and!; [apply strictly_sorted_sorted, sort_dedup_sorted| |by intros ???; intros ?%not_elem_of_nil].
    intros n. rewrite Hns. unfold title_name. split; [by left|]. intros [?|(m & class & _ & E & _)]; [done|]. by rewrite Hno in E.
Qed.

Lemma complete_into_least aw d sc out :
  alias_words_wf aw → names_partition d → is_clear sc = true →
  ∃ sc' new k, complete_into aw d sc out = Some (sc', out ++ new, k) ∧ is_clear sc' = true ∧
    ∀ f, f ∈ new ↔ ∃ form, form ∈ forms aw ∧ carries (in_view aw d (title_name d (as_names sc))) form ∧
      f = get_or_synthetic d (f_entity form).
Proof.
  intros Haw Hd Hclear. unfold is_clear in Hclear. rewrite !andb_true_iff, !bool_decide_eq_true in Hclear.
  destruct Hclear as [[[[[[[He Hq] Hdn] Hnt] Hwt] Hsp] Hcl] Hwd]. unfold complete_into.
  rewrite He, Hq, Hdn, Hnt, Hwt, Hsp, Hcl, Hwd. cbn [app].
  destruct (title_view_spec d (as_names sc) Hd) as (Hsorted & Hbase & Hcls). unfold title_view in *. simpl in Hsorted, Hbase, Hcls.
  set (cls := if has_equivalent_names d then _ else []) in *. set (names := match cls with [] => _ | _ => _ end) in *.
  set (st0 := mkCompletion (mkAliasScratch names ∅ [] ∅ ∅ ∅ (reach sc) cls ∅ ∅) out 0).
  pose proof (inv_start aw d names cls out (reach sc) 0) as HI0. fold st0 in HI0.
  destruct (enter_all aw d Haw Hd names cls out Hsorted Hcls ∅ ∅ st0 names HI0) as (E1 & st1 & -> & HI1 & Hk1); [by intros n i ?%elem_of_empty|done|].
  cbn [mbind option_bind].
  destruct (drain_spec aw d Haw Hd names cls out Hsorted Hcls (S (length (suppliable aw d))) 0 _ E1 st1 HI1 Hk1)
    as (P & E & st2 & -> & HI2 & Hk2 & HP); [set_solver|set_solver|lia|]. cbn [mbind option_bind].
  destruct (i_out _ _ _ _ _ _ _ _ HI2) as (new & -> & Hnew). eexists _, new, _. split; [done|]. split; [done|].
  intros f. rewrite Hnew. split.
  - intros (i & form & Hi & Hf & ->). exists form. split_and!; [by eapply list_elem_of_lookup_2| |done].
    apply (drained aw d Haw Hd names cls out Hsorted Hcls P E st2 i form HI2 Hk2 HP Hf) in Hi.
    eapply carries_ext; [|exact Hi]. intros n. apply in_view_ext. intros m. by rewrite Hbase.
  - intros (form & Hf & Hc & ->). apply list_elem_of_lookup in Hf as [k Hk]. exists (N.of_nat k), form.
    rewrite Nat2N.id. split_and!; [|done|done].
    apply (drained aw d Haw Hd names cls out Hsorted Hcls P E st2 (N.of_nat k) form HI2 Hk2 HP); [by rewrite Nat2N.id|].
    eapply carries_ext; [|exact Hc]. intros n. apply in_view_ext. intros m. by rewrite Hbase.
Qed.

(** ** Building the key index *)

Lemma checked_u32_Some n x : checked_u32 n = Some x → x = N.of_nat n ∧ x < 2 ^ 32.
Proof. unfold checked_u32. destruct (N.ltb_spec (N.of_nat n) (2 ^ 32)); [|done]. by intros [= <-]. Qed.

#[export] Instance unit_le_total : Total unit_le.
Proof. intros a b. unfold unit_le. lia. Qed.
#[export] Instance unit_le_trans : Transitive unit_le.
Proof. intros a b c. unfold unit_le. lia. Qed.

Lemma form_of_spec_wf spec form :
  N.of_nat (length (fs_units spec)) ≤ 2 ^ 32 → form_of_spec spec = Some form → form_wf form.
Proof.
  intros Hn. unfold form_of_spec. destruct (Nat.ltb_spec 0 (fs_len spec)) as [Hpos|]; [|done].
  set (keep := λ u, (us_from u <? us_to u)%nat && (us_to u <=? fs_len spec)%nat).
  destruct (mapM unit_of_spec _) as [units|] eqn:Em; simpl; [|done].
  destruct (checked_u32 (fs_len spec)) as [len|] eqn:El; simpl; [|done]. intros [= <-].
  apply checked_u32_Some in El as [-> _]. apply mapM_Some in Em.
  split; simpl.
  - lia.
  - apply (StronglySorted_merge_sort _).
  - intros u. rewrite merge_sort_Permutation. intros Hu. apply list_elem_of_lookup in Hu as [k Hk].
    destruct (Forall2_lookup_r _ _ _ _ _ Em Hk) as (us & Hus & E).
    apply list_elem_of_lookup_2, elem_of_list_filter_bool in Hus as [Hkeep _]. unfold unit_of_spec in E.
    destruct (checked_u32 (us_from us)) as [a|] eqn:Ea; simpl in E; [|done].
    destruct (checked_u32 (us_to us)) as [b|] eqn:Eb; simpl in E; [|done]. injection E as <-. simpl.
    apply checked_u32_Some in Ea as [-> _]. apply checked_u32_Some in Eb as [-> _].
    apply andb_true_iff in Hkeep as [H1%Nat.ltb_lt H2%Nat.leb_le]. lia.
  - rewrite merge_sort_Permutation. apply Forall2_length in Em. rewrite <-Em.
    pose proof (List.filter_length_le keep (fs_units spec)). lia.
Qed.

Lemma add_at_spec i x v : (i < length v)%nat → ∃ v', add_at i x v = Some v' ∧ length v' = length v.
Proof.
  intros Hi. unfold add_at. destruct (lookup_lt_is_Some_2 v i Hi) as [y ->]. simpl. eexists. split; [done|]. by rewrite length_insert.
Qed.

Lemma gap_changes_total shared form :
  form_wf form → ∃ change, gap_changes shared form = Some change ∧ length change = S (usize (f_len form)).
Proof.
  intros [_ _ Hu _]. unfold gap_changes.
  apply (foldM_invariant _ (λ _ (v : list Z), length v = S (usize (f_len form)))); [by rewrite length_replicate|].
  intros dn v u Hp Hv. assert (u ∈ f_units form) as Hin by (eapply elem_of_prefix; [|exact Hp]; set_solver).
  specialize (Hu u Hin). destruct (add_at_spec (usize (u_from u)) (unit_cost shared u) v) as (v1 & -> & H1); [lia|]. simpl.
  destruct (add_at_spec (usize (u_to u)) (- unit_cost shared u) v1) as (v2 & -> & H2); [lia|]. exists v2. split; [done|]. lia.
Qed.

Lemma pick_gap_total change form :
  0 < f_len form → length change = S (usize (f_len form)) → ∃ gap, pick_gap change form = Some gap ∧ gap < f_len form.
Proof.
  intros Hpos Hl. unfold pick_gap.
  destruct (foldM_invariant (gap_step change) (λ _ acc, acc.1.1 < f_len form) (seq 0 (usize (f_len form))) (0, I64_MAX, 0%Z))
    as (acc & -> & Hg); [done| |by exists acc.1.1].
  intros dn [[kg ls] rn] gap Hp Hkg. assert (gap ∈ seq 0 (usize (f_len form))) as Hin by (eapply elem_of_prefix; [|exact Hp]; set_solver).
  apply elem_of_seq in Hin. unfold gap_step. destruct (lookup_lt_is_Some_2 change gap) as [x ->]; [lia|]. simpl.
  eexists. split; [done|]. case_match; simpl in *; lia.
Qed.

Lemma key_push_all index keyed ns n i :
  i ∈ waiters (foldl (key_push index) keyed ns) n ↔ i ∈ waiters keyed n ∨ i = index ∧ n ∈ ns.
Proof.
  revert keyed. induction ns as [|m ns IH]; intros keyed; simpl; [rewrite elem_of_nil; tauto|].
  rewrite IH. unfold key_push. rewrite waiters_push, elem_of_app, elem_of_cons. case_decide; rewrite ?list_elem_of_singleton, ?elem_of_nil; tauto.
Qed.

(** The keys of the forms done so far. *)
Definition keyed_ok (dn : list (nat * Form)) (keyed : gmap N (list N)) : Prop :=
  N.of_nat (length dn) ≤ 2 ^ 32 ∧ (∀ n i, i ∈ waiters keyed n → (usize i < length dn)%nat) ∧
  ∀ i form, dn.*2 !! i = Some form → ∃ gap, gap < f_len form ∧
    ∀ u n, u ∈ f_units form → over_gap gap u = true → n ∈ u_names u → N.of_nat i ∈ waiters keyed n.

Lemma key_form_step shared dn keyed i form :
  i = length dn → form_wf form → keyed_ok dn keyed →
  ∃ r, key_form shared (Some keyed) (i, form) = Some r ∧
    match r with Some keyed' => keyed_ok (dn ++ [(i, form)]) keyed' | None => 2 ^ 32 < N.of_nat (length (dn ++ [(i, form)])) end.
Proof.
  intros -> Hw (Hlen & Hin & Hgap). cbn [key_form fst snd].
  destruct (checked_u32 (length dn)) as [index|] eqn:Ei; [|exists None; split; [done|]; unfold checked_u32 in Ei; destruct (N.ltb_spec (N.of_nat (length dn)) (2 ^ 32)); [done|]; rewrite length_app; cbn [length]; lia]. apply checked_u32_Some in Ei as [-> Hi].
  destruct (gap_changes_total shared form Hw) as (change & -> & Hl). cbn [mbind option_bind].
  destruct (pick_gap_total change form (fw_len _ Hw) Hl) as (gap & -> & Hg). cbn [mbind option_bind].
  eexists. split; [done|]. split_and!; [rewrite length_app; simpl; lia| |].
  - intros n i. rewrite key_push_all, length_app. simpl. intros [Hi'|[-> _]]; [specialize (Hin n i Hi'); lia|lia].
  - intros i fm. rewrite fmap_app. intros [Hf|[Hge Hf]]%lookup_app_Some.
    + destruct (Hgap i fm Hf) as (g & Hg' & Hall). exists g. split; [done|]. intros u n Hu Ho Hn. apply key_push_all. left. by eapply Hall.
    + apply list_lookup_singleton_Some in Hf as [Hi0 <-]. rewrite length_fmap in *. exists gap. split; [done|].
      intros u n Hu Ho Hn. apply key_push_all. right. split; [f_equal; lia|]. unfold form_key.
      rewrite elem_of_sort_dedup, list_elem_of_bind. exists u. split; [done|]. by apply elem_of_list_filter_bool.
Qed.

(** The index is built without a panic, and what it builds is well formed. *)
Lemma length_omap_le {X Y} (f : X → option Y) (l : list X) : (length (omap f l) ≤ length l)%nat.
Proof. induction l as [|x l IH]; csimpl; [done|]. destruct (f x); csimpl; lia. Qed.

Lemma alias_words_new_wf specs :
  Forall (λ spec, N.of_nat (length (fs_units spec)) ≤ 2 ^ 32) specs →
  ∃ r, alias_words_new specs = Some r ∧
    (∀ aw, r = Some aw → alias_words_wf aw ∧ forms aw = omap form_of_spec specs) ∧
    (r = None → omap form_of_spec specs = [] ∨ 2 ^ 32 < N.of_nat (length specs)).
Proof.
  intros Hspecs. unfold alias_words_new. set (fs := omap form_of_spec specs).
  assert (∀ form, form ∈ fs → form_wf form) as Hfs.
  { intros form. unfold fs. rewrite list_elem_of_omap. intros (spec & Hs & E). rewrite Forall_forall in Hspecs.
    eapply form_of_spec_wf; [by apply Hspecs|done]. }
  destruct (foldM_invariant (key_form (shared_names fs)) (λ dn r, match r with Some k => keyed_ok dn k | None => 2 ^ 32 < N.of_nat (length dn) end)
    (imap pair fs) (Some ∅)) as (r & Er & HI).
  { split_and!; [done| |]; [intros n i; unfold waiters; rewrite lookup_empty; by intros ?%not_elem_of_nil|by intros i form]. }
  { intros dn [keyed|] [i form] Hp HI; [|exists None; split; [done|]; rewrite length_app; lia]. apply key_form_step; [| |done].
    - destruct Hp as [k Hp]. assert (imap pair fs !! length dn = Some (i, form)) as Hl.
      { rewrite Hp, <-app_assoc. by apply list_lookup_middle. }
      rewrite list_lookup_imap in Hl. destruct (fs !! length dn); by simplify_eq/=.
    - apply Hfs. assert ((i, form) ∈ imap pair fs) as Hin by (eapply elem_of_prefix; [|exact Hp]; set_solver).
      apply elem_of_lookup_imap in Hin as (j & fm & E & Hj). simplify_eq. by eapply list_elem_of_lookup_2. }
  destruct fs as [|f0 fs'] eqn:Efs; [exists None; split_and!; [done..|]; by left|]. rewrite <-Efs in *. rewrite Er. simpl. eexists. split; [done|].
  destruct r as [keyed|]; simpl; [|split; [done|intros _; right; rewrite length_imap in HI; pose proof (length_omap_le form_of_spec specs) as Hle; fold fs in Hle; lia]].
  split; [|done]. intros aw [= <-]. split; [|done].
  destruct HI as (Hlen & Hin & Hgap). rewrite length_imap in *. split; simpl; [done|done|done| |].
  - intros i form Hf. apply Hgap. rewrite list_lookup_fmap, list_lookup_imap, Hf. done.
  - intros n. rewrite elem_of_list_to_set, list_elem_of_fmap. naive_solver.
Qed.

(** Two forms, the second with the first as a piece, and a title with all the words apart. *)
Definition demo_unit (from to : nat) (name : rstring) : UnitSpec := mkUnitSpec from to [name].
Definition demo_specs : list FormSpec := [
  mkFormSpec (str "term:wireless_mouse") 2 [demo_unit 0 1 (str "term:wireless"); demo_unit 1 2 (str "term:mouse")];
  mkFormSpec (str "term:wireless_mouse_pad") 3
    [demo_unit 0 1 (str "term:wireless"); demo_unit 2 3 (str "term:pad"); demo_unit 0 2 (str "term:wireless_mouse")]].

Definition demo_alias : AliasWords :=
  match alias_words_new demo_specs with Some (Some aw) => aw | _ => mkAliasWords [] ∅ ∅ end.

Definition demo_scratch : AliasScratch :=
  mkAliasScratch (name_hash <$> [str "term:pad"; str "term:mouse"; str "term:wireless"]) ∅ [] ∅ ∅ ∅ [] [] ∅ ∅.

Example demo_completion :
  (λ r, r.1.2) <$> complete_into demo_alias dict_new demo_scratch [] =
    Some (get_or_synthetic dict_new <$> [str "term:wireless_mouse"; str "term:wireless_mouse_pad"]).
Proof. by vm_compute. Qed.

(** C26. Alias completion is a least fixed point. For an index built from any
    alias forms (whose pieces can be counted in 32 bits), the worklist
    terminates within its fuel, leaves the scratch clear, and appends to the
    view the entities of exactly those forms of which the least completed view
    over the title's names and their equivalents holds every piece of some
    parse, whichever gap a form is keyed on and in whatever order forms are
    noted and examined. *)
Theorem complete_into_fixpoint specs aw d sc out :
  Forall (λ spec, N.of_nat (length (fs_units spec)) ≤ 2 ^ 32) specs → alias_words_new specs = Some (Some aw) →
  names_partition d → is_clear sc = true →
  forms aw = omap form_of_spec specs ∧
  ∃ sc' new k, complete_into aw d sc out = Some (sc', out ++ new, k) ∧ is_clear sc' = true ∧
    ∀ f, f ∈ new ↔ ∃ form, form ∈ forms aw ∧ carries (in_view aw d (title_name d (as_names sc))) form ∧
      f = get_or_synthetic d (f_entity form).
Proof.
  intros Hspecs E Hd Hclear. destruct (alias_words_new_wf specs Hspecs) as (r & E' & Hr & _). rewrite E in E'. injection E' as <-.
  destruct (Hr aw eq_refl) as [Hwf Hf]. split; [done|]. by apply complete_into_least.
Qed.

Lemma complete_into_fixpoint_witness :
  forms demo_alias = omap form_of_spec demo_specs ∧
  ∃ sc' new k, complete_into demo_alias dict_new demo_scratch [] = Some (sc', [] ++ new, k) ∧ is_clear sc' = true ∧
    ∀ f, f ∈ new ↔ ∃ form, form ∈ forms demo_alias ∧
      carries (in_view demo_alias dict_new (title_name dict_new (as_names demo_scratch))) form ∧
      f = get_or_synthetic dict_new (f_entity form).
Proof.
  apply (complete_into_fixpoint demo_specs demo_alias dict_new demo_scratch []); [by repeat constructor|by vm_compute| |done].
  intros n class. unfold equivalent_names. simpl. by rewrite lookup_empty.
Defined.
