(* ===== verification/Analyze.v ===== *)
(** * From text to features ([engine/src/normalize/core/features.rs], [normalize/core/phrase.rs])

    The compile-time and match-time entry points of the normalizer over its
    emission pipeline. The pipeline (cleaning, the phrase automaton of the
    daachorse crate, synonyms, numbers) is the class [Analyzer]: the names and
    positioned names it emits for a text, and the cleaned tokens. *)

From S2P Require Import Prelude Text Dictionary Phrase.
From Stdlib Require Import ZArith.

Inductive Side := Query | Title.

Class Analyzer := {
  (** [Normalizer::emit]: the feature names emitted for a text. *)
  emit : Side → bool → rstring → list (rstring * FeatureKind);
  (** [Normalizer::emit_positioned] in positioned mode: names with their spans. *)
  emit_positioned : Side → bool → rstring → list (rstring * FeatureKind * N * N);
  (** The tokens [&lc[start..end]] the pass leaves in the scratch. *)
  tokens : rstring → list rstring;
}.

Definition position_index (value : nat) : N := try_u32 value.

(** The tokens of the text can be counted in 32 bits; beyond, positions saturate. *)
Definition short_text `{Analyzer} (text : rstring) : Prop := N.of_nat (length (tokens text)) ≤ umax 32.

(** Emitted spans are forward and end within the token positions.  They follow each
    other: from the node at 0, either a span begins at a node and ends at one, or no
    span covers the position and the next one is a node. *)
Class AnalyzerLaws `{Analyzer} := {
  emit_positioned_span side force text name kind s e :
    short_text text → (name, kind, s, e) ∈ emit_positioned side force text → s < e ∧ e ≤ position_index (length (tokens text));
  emit_positioned_chain side force text :
    short_text text →
    ∃ node : N → Prop, node 0 ∧ ∀ i, i < position_index (length (tokens text)) → node i →
      (∃ name kind e, (name, kind, i, e) ∈ emit_positioned side force text ∧ node e) ∨
      node (i + 1) ∧ ∀ name kind s e, (name, kind, s, e) ∈ emit_positioned side force text → ¬ s ≤ i < e;
}.

Section analyze.
Context `{Analyzer}.

(** [for (name, kind) in names { ids.push(dict.intern(&name, kind)); }] *)
Fixpoint intern_all (names : list (rstring * FeatureKind)) (d : Dict) : list N * Dict :=
  match names with
  | [] => ([], d)
  | (name, kind) :: names' =>
      let '(id, d) := intern name kind d in
      let '(ids, d) := intern_all names' d in
      (id :: ids, d)
  end.

Definition compile_features (text : rstring) (d : Dict) : list N * Dict :=
  let '(ids, d) := intern_all (emit Query false text) d in (sort_dedup ids, d).

Definition compile_features_readonly (text : rstring) (d : Dict) : list N :=
  sort_dedup (get_or_synthetic d <$> (emit Query false text).*1).

Definition compile_named_readonly (text : rstring) (d : Dict) : list (N * N) :=
  sort_dedup ((λ name, (get_or_synthetic d name, name_hash name)) <$> (emit Query false text).*1).

Definition match_features (text : rstring) (d : Dict) : list N :=
  sort_dedup (get_or_synthetic d <$> (emit Title false text).*1).

(** ** Positioned analysis

    [resolve] is the closure that turns a name into an id: it interns, or
    looks up without changing the dictionary. *)

Definition Resolver := rstring → FeatureKind → Dict → N * Dict.

Definition resolve_intern : Resolver := intern.
Definition resolve_readonly : Resolver := λ name _ d, (get_or_synthetic d name, d).

Fixpoint resolve_arcs (resolve : Resolver) (emitted : list (rstring * FeatureKind * N * N)) (d : Dict) :
  list PositionArc * Dict :=
  match emitted with
  | [] => ([], d)
  | (name, kind, s, e) :: emitted' =>
      let '(f, d) := resolve name kind d in
      let '(out, d) := resolve_arcs resolve emitted' d in
      (mkPositionArc f s e :: out, d)
  end.

(** [delta[i] += v]. *)
Definition bump_delta (i : nat) (v : Z) (delta : list Z) : option (list Z) :=
  x ← delta !! i; Some (<[i := (x + v)%Z]> delta).

(** The difference array: how many arcs begin and end at each position. *)
Fixpoint coverage_delta (position_count : nat) (out : list PositionArc) (delta : list Z) : option (list Z) :=
  match out with
  | [] => Some delta
  | arc :: out' =>
      let start := Nat.min (usize (pa_start arc)) position_count in
      let end_ := Nat.min (usize (pa_end arc)) position_count in
      if (start <? end_)%nat then
        delta ← bump_delta start 1 delta;
        delta ← bump_delta end_ (-1) delta;
        coverage_delta position_count out' delta
      else coverage_delta position_count out' delta
  end.

(** The prefix-sum loop: a raw-term edge at every position no arc covers. *)
Fixpoint fill_holes (resolve : Resolver) (n i : nat) (coverage : Z) (delta : list Z) (toks : list rstring)
  (out : list PositionArc) (d : Dict) : option (list PositionArc * Dict) :=
  match n with
  | O => Some (out, d)
  | S n' =>
      x ← delta !! i;
      let coverage := (coverage + x)%Z in
      if (0 <? coverage)%Z then fill_holes resolve n' (S i) coverage delta toks out d
      else
        tok ← toks !! i;
        let '(f, d) := resolve (str "term:" ++ tok) Generic d in
        fill_holes resolve n' (S i) coverage delta toks
          (out ++ [mkPositionArc f (position_index i) (position_index (S i))]) d
  end.

Definition analyze_position_arcs (resolve : Resolver) (side : Side) (force : bool) (text : rstring) (d : Dict) :
  option (N * list PositionArc * Dict) :=
  let '(out, d) := resolve_arcs resolve (emit_positioned side force text) d in
  let positions := position_index (length (tokens text)) in
  let position_count := usize positions in
  delta ← coverage_delta position_count out (replicate (S position_count) 0%Z);
  '(out, d) ← fill_holes resolve position_count 0 0%Z delta (tokens text) out d;
  Some (positions, sort_dedup out, d).

Definition compile_phrase (text : rstring) (d : Dict) : option (PhraseGraph * Dict) :=
  '(positions, out, d) ← analyze_position_arcs resolve_intern Query false text d;
  Some (phrase_graph positions out, d).

Definition compile_phrase_readonly (text : rstring) (d : Dict) : option PhraseGraph :=
  '(positions, out, _) ← analyze_position_arcs resolve_readonly Query false text d;
  Some (phrase_graph positions out).

End analyze.

(** ** Coverage *)

(** The running sum the hole-filling loop has at position [i]. *)
Definition prefix_sum (delta : list Z) (i : nat) : Z := foldr Z.add 0%Z (take (S i) delta).

Definition covers (i : nat) (a : PositionArc) : Prop := pa_start a ≤ N.of_nat i < pa_end a.
#[export] Instance covers_dec i a : Decision (covers i a).
Proof. unfold covers. apply _. Defined.

Lemma prefix_sum_snoc delta i x :
  delta !! S i = Some x → prefix_sum delta (S i) = (prefix_sum delta i + x)%Z.
Proof.
  intros Hx. unfold prefix_sum. rewrite (take_S_r _ (S i) x) by done. rewrite foldr_app. simpl.
  rewrite Z.add_0_r. generalize (take (S i) delta). intros l. induction l; simpl; lia.
Qed.

Lemma prefix_sum_insert delta k x v i :
  delta !! k = Some x →
  prefix_sum (<[k := (x + v)%Z]> delta) i = (prefix_sum delta i + if decide (k ≤ i)%nat then v else 0)%Z.
Proof.
  unfold prefix_sum. revert k i. induction delta as [|y delta IH]; intros k i Hk; [done|].
  destruct k as [|k]; simpl in Hk.
  - simplify_eq. rewrite decide_True by lia. simpl. lia.
  - destruct i as [|i]; [rewrite decide_False by lia; simpl; lia|].
    specialize (IH k i Hk). change (take (S (S i)) (y :: delta)) with (y :: take (S i) delta).
    simpl in *. rewrite IH. repeat case_decide; lia.
Qed.

Lemma coverage_delta_spec count out delta :
  length delta = S count → Forall (λ a, pa_start a < pa_end a ∧ (usize (pa_end a) ≤ count)%nat) out →
  ∃ delta', coverage_delta count out delta = Some delta' ∧ length delta' = S count ∧
    ∀ i, prefix_sum delta' i = (prefix_sum delta i + Z.of_nat (length (filter (covers i) out)))%Z.
Proof.
  revert delta. induction out as [|a out IH]; intros delta Hl Hout; simpl.
  { exists delta. split_and!; try done. intros i. simpl. lia. }
  apply Forall_cons in Hout as [[Hlt Hle] Hout].
  rewrite !Nat.min_l by lia. rewrite (proj2 (Nat.ltb_lt _ _)) by lia. unfold bump_delta.
  destruct (lookup_lt_is_Some_2 delta (usize (pa_start a))) as [x Hx]; [lia|]. rewrite Hx. simpl.
  set (delta1 := <[usize (pa_start a) := (x + 1)%Z]> delta).
  destruct (lookup_lt_is_Some_2 delta1 (usize (pa_end a))) as [y Hy]; [unfold delta1; rewrite length_insert; lia|].
  rewrite Hy. simpl.
  destruct (IH (<[usize (pa_end a) := (y + -1)%Z]> delta1)) as (delta' & -> & Hl' & Hsum); [|done|].
  { unfold delta1. by rewrite !length_insert. }
  exists delta'. split_and!; [done|done|]. intros i. rewrite Hsum.
  rewrite prefix_sum_insert by done.
  unfold delta1. rewrite prefix_sum_insert by done. rewrite filter_cons. unfold covers at 2.
  repeat case_decide; simpl; lia.
Qed.

Lemma prefix_sum_zeros n i : prefix_sum (replicate n 0%Z) i = 0%Z.
Proof. unfold prefix_sum. rewrite take_replicate. induction (S i `min` n)%nat; simpl; lia. Qed.

(** The resolver keeps the dictionary well formed, only adds names, and a
    fact [P] of the ids it returns survives growth. *)
Record resolver_ok (resolve : Resolver) (P : Dict → N → Prop) : Prop := {
  res_step name k d : dict_wf d → dict_room d →
    let '(f, d') := resolve name k d in dict_wf d' ∧ dict_ext d d' ∧ P d' f;
  res_len name k d : (length (names d) ≤ length (names (resolve name k d).2))%nat;
  res_mono d d' f : dict_ext d d' → P d f → P d' f;
}.

Section fill.
Context (resolve : Resolver) (P : Dict → N → Prop) (Hok : resolver_ok resolve P).

Definition arcs_known (d : Dict) (out : list PositionArc) : Prop := Forall (λ a, P d (pa_feature a)) out.

Lemma arcs_known_mono d d' out : dict_ext d d' → arcs_known d out → arcs_known d' out.
Proof. intros Hext Hk. eapply Forall_impl; [exact Hk|]. intros a. by apply (res_mono _ _ Hok). Qed.

Lemma dict_room_len d d' : (length (names d) ≤ length (names d'))%nat → dict_room d' → dict_room d.
Proof. unfold dict_room. lia. Qed.

Lemma resolve_arcs_len emitted d : (length (names d) ≤ length (names (resolve_arcs resolve emitted d).2))%nat.
Proof.
  revert d. induction emitted as [|[[[name k] s] e] l IH]; intros d; simpl; [done|].
  pose proof (res_len _ _ Hok name k d) as H1. destruct (resolve name k d) as [f d1].
  specialize (IH d1). destruct (resolve_arcs resolve l d1) as [out d2]. simpl in *. lia.
Qed.

Lemma resolve_arcs_spans emitted d :
  (λ a, (pa_start a, pa_end a)) <$> (resolve_arcs resolve emitted d).1 = (λ e, (e.1.2, e.2)) <$> emitted.
Proof.
  revert d. induction emitted as [|[[[name k] s] e] l IH]; intros d; simpl; [done|].
  destruct (resolve name k d) as [f d1]. specialize (IH d1).
  destruct (resolve_arcs resolve l d1) as [out d2]. simpl in *. f_equal. exact IH.
Qed.

Lemma resolve_arcs_spec emitted d :
  dict_wf d → dict_room (resolve_arcs resolve emitted d).2 →
  let '(out, d') := resolve_arcs resolve emitted d in dict_wf d' ∧ dict_ext d d' ∧ arcs_known d' out.
Proof.
  revert d. induction emitted as [|[[[name k] s] e] l IH]; intros d Hwf Hr; simpl in *.
  { split_and!; try done. constructor. }
  pose proof (res_step _ _ Hok name k d Hwf) as H1.
  pose proof (res_len _ _ Hok name k d) as H2.
  destruct (resolve name k d) as [f d1]. pose proof (resolve_arcs_len l d1) as H3.
  specialize (IH d1). destruct (resolve_arcs resolve l d1) as [out d2]. simpl in *.
  destruct H1 as (Hwf1 & Hext1 & Hf); [eapply dict_room_len; [|exact Hr]; lia|].
  destruct IH as (Hwf2 & Hext2 & Hk); [done|done|].
  split_and!; [done|by trans d1|]. constructor; [by eapply (res_mono _ _ Hok)|done].
Qed.

Lemma fill_holes_len n i cov delta toks out d out' d' :
  fill_holes resolve n i cov delta toks out d = Some (out', d') → (length (names d) ≤ length (names d'))%nat.
Proof.
  revert i cov out d. induction n as [|n IH]; intros i cov out d; simpl; [by intros [= <- <-]|].
  destruct (delta !! i); simpl; [|done]. case_match; [apply IH|].
  destruct (toks !! i) as [tok|]; simpl; [|done].
  pose proof (res_len _ _ Hok (str "term:" ++ tok) Generic d) as H1.
  destruct (resolve _ _ _) as [f d1]. intros E%IH. simpl in *. lia.
Qed.

Lemma fill_holes_total n i cov delta toks out d :
  (i + n < length delta)%nat → (i + n ≤ length toks)%nat →
  is_Some (fill_holes resolve n i cov delta toks out d).
Proof.
  revert i cov out d. induction n as [|n IH]; intros i cov out d Hd Ht; simpl; [by eexists|].
  destruct (lookup_lt_is_Some_2 delta i) as [x ->]; [lia|]. simpl. case_match; [apply IH; lia|].
  destruct (lookup_lt_is_Some_2 toks i) as [tok ->]; [lia|]. simpl.
  destruct (resolve _ _ _). apply IH; lia.
Qed.

(** The loop keeps the arcs it had, and leaves every position it passes covered. *)
Lemma fill_holes_spec n i cov delta toks out d out' d' count :
  fill_holes resolve n i cov delta toks out d = Some (out', d') →
  dict_wf d → dict_room d' → arcs_known d out →
  (i + n = count)%nat → N.of_nat count ≤ umax 32 →
  (∀ x, delta !! i = Some x → (cov + x)%Z = prefix_sum delta i) →
  (∀ j, (i ≤ j)%nat → (0 < prefix_sum delta j)%Z → ∃ a, a ∈ out ∧ covers j a) →
  dict_wf d' ∧ dict_ext d d' ∧ arcs_known d' out' ∧ out ⊆ out' ∧
  (∀ a, a ∈ out' → a ∈ out ∨ (pa_start a < pa_end a ∧ pa_end a ≤ N.of_nat count)) ∧
  (∀ j, (i ≤ j < count)%nat → ∃ a, a ∈ out' ∧ covers j a) ∧
  (∀ j, (i ≤ j < count)%nat → (prefix_sum delta j ≤ 0)%Z → ∃ a, a ∈ out' ∧ pa_start a = N.of_nat j ∧ pa_end a = N.of_nat j + 1).
Proof.
  revert i cov out d. induction n as [|n IH]; intros i cov out d; simpl.
  { intros [= <- <-] ? ? ? Hc. intros. split_and!; try done; [auto| |]; intros j ?; lia. }
  destruct (delta !! i) as [x|] eqn:Ex; simpl; [|done].
  intros E Hwf Hr Hk Hc Hmax Hcov Hpos. specialize (Hcov x eq_refl).
  assert (∀ y, delta !! S i = Some y → (cov + x + y)%Z = prefix_sum delta (S i)) as Hcov'.
  { intros y Hy. rewrite (prefix_sum_snoc _ _ y Hy). lia. }
  destruct (Z.ltb_spec 0 (cov + x)) as [Hlt|Hge].
  - destruct (IH _ _ _ _ E) as (H1 & H2 & H3 & H4 & H5 & H6 & H7); try done; [lia|intros j ?; apply Hpos; lia|].
    split_and!; try done; intros j Hj; (destruct (decide (j = i)) as [->|]; [|first [apply H6|apply H7]; lia]).
    + destruct (Hpos i) as (a & Ha & ?); [lia|lia|]. exists a. split; [by apply H4|done].
    + lia.
  - destruct (toks !! i) as [tok|]; simpl in E; [|done].
    pose proof (res_step _ _ Hok (str "term:" ++ tok) Generic d Hwf) as Hs.
    pose proof (res_len _ _ Hok (str "term:" ++ tok) Generic d) as Hl.
    destruct (resolve _ _ _) as [f d1]. simpl in Hl.
    pose proof (fill_holes_len _ _ _ _ _ _ _ _ _ E) as Hl1.
    destruct Hs as (Hwf1 & Hext1 & Hf); [eapply dict_room_len; [|exact Hr]; lia|].
    destruct (IH _ _ _ _ E) as (H1 & H2 & H3 & H4 & H5 & H6 & H7); try done; [|lia| |].
    { apply Forall_app_2; [by eapply arcs_known_mono|]. by constructor. }
    { intros j Hj Hp. destruct (Hpos j) as (a & Ha & ?); [lia|done|]. exists a. split; [|done].
      apply elem_of_app. by left. }
    assert (position_index i = N.of_nat i) as Ei by (unfold position_index, try_u32; lia).
    assert (position_index (S i) = N.of_nat i + 1) as Ei1 by (unfold position_index, try_u32; lia).
    split_and!; [done|by trans d1|done| | | |].
    + intros a Ha. apply H4, elem_of_app. by left.
    + intros a Ha. destruct (H5 a Ha) as [Ha'|]; [|by right].
      apply elem_of_app in Ha' as [|Ha']; [by left|]. right.
      apply list_elem_of_singleton in Ha' as ->. simpl. rewrite Ei, Ei1. lia.
    + intros j Hj. destruct (decide (j = i)) as [->|]; [|apply H6; lia].
      eexists. split; [apply H4, elem_of_app; right; by left|]. unfold covers. simpl. rewrite Ei, Ei1. lia.
    + intros j Hj Hz. destruct (decide (j = i)) as [->|]; [|apply H7; [lia|done]].
      eexists. split; [apply H4, elem_of_app; right; by left|]. done.
Qed.

End fill.

Lemma resolve_intern_ok : resolver_ok resolve_intern interned.
Proof.
  split.
  - intros name k d Hwf Hr. pose proof (intern_ext name k d Hwf Hr) as Hi. unfold resolve_intern.
    by destruct (intern name k d).
  - intros name k d. unfold resolve_intern, intern. destruct (name_map d !! name); simpl; [done|].
    rewrite length_app. lia.
  - intros d d' f. apply interned_ext.
Qed.

Lemma resolve_readonly_ok : resolver_ok resolve_readonly (λ _ _, True).
Proof. by split. Qed.

Lemma fill_holes_readonly n i cov delta toks out d out' d' :
  fill_holes resolve_readonly n i cov delta toks out d = Some (out', d') → d' = d.
Proof.
  revert i cov out. induction n as [|n IH]; intros i cov out; simpl; [by intros [= _ <-]|].
  destruct (delta !! i); simpl; [|done]. case_match; [apply IH|].
  destruct (toks !! i); simpl; [|done]. apply IH.
Qed.

Section analyze_lemmas.
Context `{AnalyzerLaws}.

Lemma position_index_le n : N.of_nat (usize (position_index n)) ≤ umax 32 ∧ (usize (position_index n) ≤ n)%nat.
Proof. unfold position_index, try_u32. lia. Qed.

(** What an analysis of [text] returns. *)
Record analysis_ok (text : rstring) (pos : N) (out : list PositionArc) : Prop := {
  an_positions : pos = position_index (length (tokens text));
  an_sorted : StronglySorted rlt out;
  an_span : Forall (λ a, pa_start a < pa_end a ∧ pa_end a ≤ pos) out;
  an_covered i : N.of_nat i < pos → ∃ a, a ∈ out ∧ covers i a;
  an_chain : ∃ node : N → Prop, node 0 ∧ ∀ i, i < pos → node i → ∃ a, a ∈ out ∧ pa_start a = i ∧ node (pa_end a);
}.

Lemma span_emitted (out : list PositionArc) (emitted : list (rstring * FeatureKind * N * N)) s e :
  (λ a, (pa_start a, pa_end a)) <$> out = (λ e, (e.1.2, e.2)) <$> emitted →
  (∃ a, a ∈ out ∧ pa_start a = s ∧ pa_end a = e) → ∃ name k, (name, k, s, e) ∈ emitted.
Proof.
  intros Hsp (a & Ha & <- & <-). apply (list_elem_of_fmap_2 (λ a, (pa_start a, pa_end a))) in Ha. rewrite Hsp in Ha.
  apply list_elem_of_fmap in Ha as ([[[name k] s] e] & [= -> ->] & Ha). by exists name, k.
Qed.

Lemma emitted_span (out : list PositionArc) (emitted : list (rstring * FeatureKind * N * N)) name k s e :
  (λ a, (pa_start a, pa_end a)) <$> out = (λ e, (e.1.2, e.2)) <$> emitted →
  (name, k, s, e) ∈ emitted → ∃ a, a ∈ out ∧ pa_start a = s ∧ pa_end a = e.
Proof.
  intros Hsp Hin. apply (list_elem_of_fmap_2 (λ e : rstring * FeatureKind * N * N, (e.1.2, e.2))) in Hin. rewrite <-Hsp in Hin.
  apply list_elem_of_fmap in Hin as (a & [= -> ->] & Ha). by exists a.
Qed.

Lemma analyze_spec resolve P side force text d :
  resolver_ok resolve P → short_text text →
  ∃ pos out d', analyze_position_arcs resolve side force text d = Some (pos, out, d') ∧
    (length (names d) ≤ length (names d'))%nat ∧
    (dict_wf d → dict_room d' → analysis_ok text pos out ∧ dict_wf d' ∧ dict_ext d d' ∧ arcs_known P d' out ∧
      (resolve_arcs resolve (emit_positioned side force text) d).1 ⊆ out).
Proof.
  intros Hok Hshort. unfold analyze_position_arcs.
  pose proof (resolve_arcs_spec resolve P Hok (emit_positioned side force text) d) as Hra.
  pose proof (resolve_arcs_spans resolve (emit_positioned side force text) d) as Hsp.
  pose proof (resolve_arcs_len resolve P Hok (emit_positioned side force text) d) as Hlen.
  destruct (resolve_arcs resolve _ d) as [out0 d1]. simpl in Hra, Hsp, Hlen.
  set (pos := position_index (length (tokens text))).
  destruct (position_index_le (length (tokens text))) as [Hmax Hle]. fold pos in Hmax, Hle.
  assert (∀ a, a ∈ out0 → pa_start a < pa_end a ∧ pa_end a ≤ pos) as Hspan.
  { intros a Ha. destruct (span_emitted _ _ (pa_start a) (pa_end a) Hsp) as (name & k & Hin); [by exists a|].
    by eapply emit_positioned_span. }
  destruct (coverage_delta_spec (usize pos) out0 (replicate (S (usize pos)) 0%Z)) as (delta & -> & Hdl & Hsum).
  { apply length_replicate. }
  { apply Forall_forall. intros a Ha. destruct (Hspan a Ha). split; [done|lia]. }
  simpl. destruct (fill_holes_total resolve (usize pos) 0 0%Z delta (tokens text) out0 d1) as [[out d'] Hfill]; [lia|lia|].
  rewrite Hfill. simpl. exists pos, (sort_dedup out), d'. split; [done|].
  pose proof (fill_holes_len resolve P Hok _ _ _ _ _ _ _ _ _ Hfill) as Hl1. split; [lia|]. intros Hwf Hroom.
  destruct Hra as (Hwf1 & Hext1 & Hk1); [done|by eapply dict_room_len|].
  destruct (fill_holes_spec resolve P Hok _ _ _ _ _ _ _ _ _ (usize pos) Hfill) as (Hwf' & Hext' & Hk' & Hsub & Hspan' & Hcov & Hhole);
    try done.
  { intros x Hx. unfold prefix_sum. destruct delta as [|z delta]; simpl in Hx; [done|]. simplify_eq. simpl. lia. }
  { intros j _ Hj. rewrite Hsum, prefix_sum_zeros in Hj.
    destruct (filter (covers j) out0) as [|a l] eqn:Ef; [simpl in Hj; lia|]. exists a.
    assert (a ∈ filter (covers j) out0) as Ha by (rewrite Ef; by left). by apply list_elem_of_filter in Ha as [? ?]. }
  split_and!; [split|done|by trans d1| |]; try done.
  - apply sort_dedup_sorted.
  - apply Forall_forall. intros a Ha. rewrite elem_of_sort_dedup in Ha. destruct (Hspan' a Ha) as [|[? ?]]; [by apply Hspan|]. lia.
  - intros i Hi. destruct (Hcov i) as (a & Ha & ?); [lia|]. exists a. by rewrite elem_of_sort_dedup.
  - destruct (emit_positioned_chain side force text Hshort) as (node & Hn0 & Hnode). exists node. split; [done|]. intros i Hi Hn.
    destruct (Hnode i Hi Hn) as [(name & k & e & Hin & He)|[Hs Hfree]].
    + destruct (emitted_span _ _ _ _ _ _ Hsp Hin) as (a & Ha & <- & <-). exists a. rewrite elem_of_sort_dedup. split_and!; [by apply Hsub|done|done].
    + destruct (Hhole (usize i)) as (a & Ha & Es & Ee); [lia| |exists a; rewrite elem_of_sort_dedup, Es, Ee, N2Nat.id; done].
      rewrite Hsum, prefix_sum_zeros. destruct (filter (covers (usize i)) out0) as [|a l] eqn:Ef; [simpl; lia|].
      assert (a ∈ filter (covers (usize i)) out0) as [Hc Ha]%list_elem_of_filter by (rewrite Ef; by left).
      destruct (span_emitted _ _ (pa_start a) (pa_end a) Hsp) as (name & k & Hin); [by exists a|]. destruct (Hfree _ _ _ _ Hin). unfold covers in Hc. lia.
  - apply Forall_forall. intros a Ha. rewrite elem_of_sort_dedup in Ha. unfold arcs_known in Hk'. rewrite Forall_forall in Hk'. auto.
  - intros a Ha. rewrite elem_of_sort_dedup. by apply Hsub.
Qed.

(** A compiled phrase has a path through its positions. *)
Lemma analysis_path text pos out : analysis_ok text pos out → graph_path (arcs (phrase_graph pos out)) pos.
Proof.
  intros [_ _ Hsp _ (node & Hn0 & Hnode)]. rewrite Forall_forall in Hsp. destruct (phrase_graph_spec pos out) as (He & _ & _).
  assert (∀ n i, (usize pos - usize i ≤ n)%nat → i ≤ pos → node i → graph_path (arcs (phrase_graph pos out)) i → graph_path (arcs (phrase_graph pos out)) pos) as Hall;
    [|by apply (Hall (usize pos) 0); [lia|lia|done|constructor]].
  induction n as [|n IH]; intros i Hn Hle Hi Hp; (destruct (decide (i = pos)) as [->|Hne]; [done|]); [lia|].
  destruct (Hnode i) as (a & Ha & Es & Hnd); [lia|done|]. destruct (Hsp a Ha) as [Hlt Hend].
  apply (IH (pa_end a)); [lia|done|done|]. destruct a as [f s e]. simpl in *. subst s.
  apply He in Ha as (q & Hq & Hqs & <- & _). constructor; [done|]. by rewrite Hqs.
Qed.

(** A compiled phrase is empty, or canonical with a complete path. *)
Lemma analysis_phrase text pos out :
  analysis_ok text pos out → arcs (phrase_graph pos out) = [] ∨ graph_ok (phrase_graph pos out).
Proof.
  intros Hok. pose proof (analysis_path _ _ _ Hok) as Hpath. destruct Hok as [_ _ Hsp Hcov _]. destruct (phrase_graph_spec pos out) as (He & _ & Hcanon).
  destruct (decide (pos = 0)) as [->|Hpos].
  - left. destruct out as [|a out]; [done|]. apply Forall_inv in Hsp. lia.
  - right. split; [|done]. apply Hcanon; [done| |done]. intros ->. destruct (Hcov O) as (a & Ha & _); [lia|].
    by apply not_elem_of_nil in Ha.
Qed.

Lemma resolve_arcs_readonly l d :
  resolve_arcs resolve_readonly l d =
    ((λ e, mkPositionArc (get_or_synthetic d e.1.1.1) e.1.2 e.2) <$> l, d).
Proof. induction l as [|[[[name k] s] e] l IH]; simpl; [done|]. by rewrite IH. Qed.

(** A quoted clause compiles, against a frozen dictionary, to a graph over the
    cleaned token positions: canonical unless there is no token, with every
    emitted name as an alternative of the arc of its span, and without a gap
    (every token position is inside an arc). *)
Theorem compile_phrase_readonly_sound text d :
  dict_wf d → dict_room d → short_text text →
  ∃ g, compile_phrase_readonly text d = Some g ∧
    positions g = position_index (length (tokens text)) ∧
    (arcs g = [] ∨ phrase_canonical g) ∧
    (∀ name k s e, (name, k, s, e) ∈ emit_positioned Query false text →
       ∃ q, q ∈ arcs g ∧ ph_start q = s ∧ ph_end q = e ∧ get_or_synthetic d name ∈ alternatives q) ∧
    (∀ i, i < positions g → ∃ q, q ∈ arcs g ∧ ph_start q ≤ i < ph_end q).
Proof.
  intros Hwf Hroom Hshort. unfold compile_phrase_readonly.
  destruct (analyze_spec resolve_readonly _ Query false text d resolve_readonly_ok Hshort)
    as (pos & out & d' & E & _ & Hspec).
  assert (d' = d) as ->.
  { clear -E. unfold analyze_position_arcs in E. rewrite resolve_arcs_readonly in E.
    destruct (coverage_delta _ _ _) as [delta|]; simpl in E; [|done].
    destruct (fill_holes _ _ _ _ _ _ _ _) as [[o d1]|] eqn:Ef; simpl in E; [|done]. simplify_eq.
    by apply fill_holes_readonly in Ef. }
  destruct (Hspec Hwf Hroom) as (Hok & _ & _ & _ & Hsub). rewrite E. simpl.
  destruct (phrase_graph_spec pos out) as (He & _ & _).
  eexists. split; [done|]. split; [apply (an_positions _ _ _ Hok)|]. split; [destruct (analysis_phrase _ _ _ Hok) as [|[? _]]; tauto|]. split.
  - intros name k s e Hin. apply He, Hsub. rewrite resolve_arcs_readonly. simpl.
    apply (list_elem_of_fmap_2 (λ e, mkPositionArc (get_or_synthetic d e.1.1.1) e.1.2 e.2)) in Hin. done.
  - intros i Hi. simpl in Hi. destruct (an_covered _ _ _ Hok (usize i)) as ([f s e] & Ha & Hc); [lia|].
    apply He in Ha as (q & Hq & <- & <- & _). exists q. split; [done|]. unfold covers in Hc. simpl in Hc. lia.
Qed.

End analyze_lemmas.

(** An analyzer that splits on spaces and knows one two-word phrase. *)
Fixpoint split_spaces (cur : rstring) (s : rstring) : list rstring :=
  match s with
  | [] => match cur with [] => [] | _ => [cur] end
  | c :: s' =>
      if c =? SPACE then match cur with [] => split_spaces [] s' | _ => cur :: split_spaces [] s' end
      else split_spaces (cur ++ [c]) s'
  end.

#[export] Instance space_analyzer : Analyzer := {|
  emit _ _ text := (λ w, (str "term:" ++ w, Generic)) <$> split_spaces [] text;
  emit_positioned _ _ text :=
    match split_spaces [] text with
    | _ :: _ :: _ => [(str "entity:pair", Entity, 0, 2)]
    | _ => []
    end;
  tokens text := split_spaces [] text;
|}.

#[export] Instance space_analyzer_laws : AnalyzerLaws.
Proof.
  split.
  - intros side force text name k s e _. simpl. destruct (split_spaces [] text) as [|a [|b l]] eqn:E;
      try by intros ?%not_elem_of_nil. intros [= -> -> -> ->]%list_elem_of_singleton.
    split; [lia|]. unfold position_index, try_u32. change (umax 32) with 4294967295. simpl. lia.
  - intros side force text _. exists (λ i, i ≠ 1 ∨ (length (split_spaces [] text) ≤ 1)%nat). split; [by left|]. intros i Hi Hn. simpl in *.
    unfold position_index, try_u32 in Hi. destruct (split_spaces [] text) as [|a [|b l]]; simpl in *; [lia|right|].
    + split; [by right|]. by intros ? ? ? ? ?%not_elem_of_nil.
    + destruct (decide (i = 0)) as [->|Hi0]; [left; eexists _, _, 2; split; [by apply list_elem_of_singleton|by left]|right].
      split; [left; lia|]. intros ? ? ? ? [= -> -> -> ->]%list_elem_of_singleton. lia.
Qed.

Lemma compile_phrase_readonly_sound_witness :
  ∃ g, compile_phrase_readonly (str "new york city") mask_demo = Some g ∧
    positions g = position_index (length (tokens (str "new york city"))) ∧
    (arcs g = [] ∨ phrase_canonical g) ∧
    (∀ name k s e, (name, k, s, e) ∈ emit_positioned Query false (str "new york city") →
       ∃ q, q ∈ arcs g ∧ ph_start q = s ∧ ph_end q = e ∧ get_or_synthetic mask_demo name ∈ alternatives q) ∧
    (∀ i, i < positions g → ∃ q, q ∈ arcs g ∧ ph_start q ≤ i < ph_end q).
Proof. apply (compile_phrase_readonly_sound (str "new york city") mask_demo); [apply mask_demo_wf|done|done]. Defined.
