(* ===== verification/Normalize.v ===== *)
(** * The emission pipeline ([engine/src/normalize/core.rs], [core/emit.rs])

    [emit_positioned] in its two phases: selecting the phrases of the cleaned
    text, then walking the tokens. The callback [emit] is called in the order
    of the list returned. Buffers of [NormScratch] are cleared before use, so
    they are local values here. *)

From S2P Require Import Prelude Text Dictionary Clean Automaton AliasWords Phrase Analyze.

Inductive PhraseMode := Collapse | Additive | Alias.

#[export] Instance PhraseMode_eq_dec : EqDecision PhraseMode.
Proof. solve_decision. Defined.

Record PhraseEntry := mkPhraseEntry { pe_feature : rstring; pe_kind : FeatureKind; pe_mode : PhraseMode }.

Record EmitMode := mkEmitMode { side : Side; force_additive : bool; retain_positioned_starts : bool }.

Definition mode_flat (side : Side) (force_additive : bool) : EmitMode := mkEmitMode side force_additive false.
Definition mode_positioned (side : Side) (force_additive : bool) : EmitMode := mkEmitMode side force_additive true.

Record Normalizer (A : Type) := mkNormalizer {
  automaton : A;
  phrase_entries : list PhraseEntry;
  phrase_overlap : option (PhraseOverlap A);
  has_multiword_aliases : bool;
  alias_words : option AliasWords;
  synonyms : list (rstring * rstring * FeatureKind);
  syn_index : gmap rstring nat;
  punct : PunctTable;
  number_context : list rstring;
  norm_fingerprint : N;
}.
Arguments mkNormalizer {A}.
Arguments automaton {A}.
Arguments phrase_entries {A}.
Arguments phrase_overlap {A}.
Arguments has_multiword_aliases {A}.
Arguments alias_words {A}.
Arguments synonyms {A}.
Arguments syn_index {A}.
Arguments punct {A}.
Arguments number_context {A}.
Arguments norm_fingerprint {A}.

(** What [emit] is called with. *)
Abbreviation Emitted := (rstring * FeatureKind * N * N)%type.

Definition TERM : rstring := Eval vm_compute in str "term:".
Definition YEAR : rstring := Eval vm_compute in str "year:".

Definition emit_generic (tok : rstring) (s e : N) : Emitted := (TERM ++ tok, Generic, s, e).

(** [tok == "#" || tok == "/"] *)
Definition is_marker (tok : rstring) : bool := bool_decide (tok = [HASH]) || bool_decide (tok = [SLASH]).

Section emit.
Context {A : Type} `{Daachorse A} (norm : Normalizer A).

(** ** Phase 1: the phrases of the cleaned text *)

(** The leftmost-longest matches, as long as each is on token boundaries. *)
Fixpoint fast_phrases (lc : rstring) (ms : list Match) : option (list Match) :=
  match ms with
  | [] => Some []
  | m :: ms' => if on_boundaries lc (m_start m) (m_end m) then cons m <$> fast_phrases lc ms' else None
  end.

Definition phrase_matches (retain : bool) (lc : rstring) : option (list Match) :=
  let fast := if has_multiword_aliases norm || retain then None
              else fast_phrases lc (leftmost_find_iter (automaton norm) lc) in
  match fast with
  | Some ms => Some ms
  | None => match phrase_overlap norm with Some ov => select_phrases ov lc | None => Some [] end
  end.

(** ** Phase 2a: the phrase of each token *)

Record Claims := mkClaims { phrase_emitted : list bool; token_consumed : list bool; claimed : list Emitted }.

Definition consumes (mode : EmitMode) (entry : PhraseEntry) : bool :=
  negb (force_additive mode) &&
  match pe_mode entry with
  | Collapse => true
  | Additive => false
  | Alias => match side mode with Query => true | Title => false end
  end.

(** [tstart >= ps && tend <= pe] *)
Definition inside (t : nat * nat) (m : Match) : bool := (m_start m <=? t.1)%nat && (t.2 <=? m_end m)%nat.

(** The first phrase match a token is inside, with its index. *)
Definition holder (pm : list Match) (t : nat * nat) : option (nat * Match) := list_find (λ m, inside t m = true) pm.

(** [end_pos] of the [while end_pos < tokens.len() && tokens[end_pos].1 <= pe]. *)
Definition span_end (tokens : list (nat * nat)) (ti : nat) (m : Match) : nat :=
  (S ti + length (take_while (λ t, (t.2 <=? m_end m)%nat) (drop (S ti) tokens)))%nat.

Definition claim_token (mode : EmitMode) (pm : list Match) (tokens : list (nat * nat)) (st : Claims) (ti : nat) : option Claims :=
  t ← tokens !! ti;
  match holder pm t with
  | None => Some st
  | Some (pi, m) =>
      entry ← phrase_entries norm !! m_value m;
      let consumed := if consumes mode entry then <[ti := true]> (token_consumed st) else token_consumed st in
      seen ← phrase_emitted st !! pi;
      if seen : bool then Some (mkClaims (phrase_emitted st) consumed (claimed st))
      else
        Some (mkClaims (<[pi := true]> (phrase_emitted st)) consumed
          (claimed st ++ [(pe_feature entry, pe_kind entry, position_index ti, position_index (span_end tokens ti m))]))
  end.

Definition claim_tokens (mode : EmitMode) (pm : list Match) (tokens : list (nat * nat)) : option Claims :=
  foldM (claim_token mode pm tokens)
    (mkClaims (replicate (length pm) false) (replicate (length tokens) false) []) (seq 0 (length tokens)).

(** ** Phase 2b: numbers, synonyms and generic terms *)

Definition emit_number (lc : rstring) (tokens : list (nat * nat)) (i : nat) (numstr : rstring) : Emitted :=
  let prev := match i with O => None | S j => tok_at lc <$> tokens !! j end in
  let next := tok_at lc <$> tokens !! S i in
  let is_marked_number := bool_decide (prev = Some [HASH]) in
  let is_serial := bool_decide (prev = Some [SLASH]) || bool_decide (next = Some [SLASH]) in
  let is_numctx := match prev with Some p => existsb (eq_ignore_ascii_case p) (number_context norm) | None => false end in
  if is_marked_number || is_serial || is_numctx then emit_generic numstr (position_index i) (position_index (S i))
  else
    match as_year numstr with
    | Some y => (YEAR ++ y, Year, position_index i, position_index (S i))
    | None => emit_generic numstr (position_index i) (position_index (S i))
    end.

(** What a token emits that no collapsing phrase consumed. *)
Definition emit_token (lc : rstring) (tokens : list (nat * nat)) (i : nat) : option (list Emitted) :=
  t ← tokens !! i;
  let tok := tok_at lc t in
  if is_marker tok then Some []
  else
    match parse_number tok with
    | Some numstr => Some [emit_number lc tokens i numstr]
    | None =>
        match syn_index norm !! tok with
        | Some si => '(_, canon, kind) ← synonyms norm !! si; Some [(canon, kind, position_index i, position_index (S i))]
        | None => Some [emit_generic tok (position_index i) (position_index (S i))]
        end
    end.

Definition emit_tokens (lc : rstring) (tokens : list (nat * nat)) (consumed : list bool) : option (list Emitted) :=
  mjoin <$> mapM (λ i, c ← consumed !! i; if c : bool then Some [] else emit_token lc tokens i) (seq 0 (length tokens)).

Definition norm_emit_positioned (mode : EmitMode) (text : rstring) : option (list Emitted) :=
  let lc := clean_with (punct norm) text in
  pm ← phrase_matches (retain_positioned_starts mode) lc;
  let tokens := tokenize lc in
  claims ← claim_tokens mode pm tokens;
  rest ← emit_tokens lc tokens (token_consumed claims);
  Some (claimed claims ++ rest).

Definition norm_emit (side : Side) (force_additive : bool) (text : rstring) : option (list (rstring * FeatureKind)) :=
  fmap (M:=list) (λ e : Emitted, e.1.1) <$> norm_emit_positioned (mode_flat side force_additive) text.

(** The cleaned tokens the pass leaves in the scratch. *)
Definition norm_tokens (text : rstring) : list rstring := text_tokens (punct norm) text.

End emit.

(** ** A normalizer as [build] leaves it *)

(** [ps]: the phrase patterns it was built from. *)
Record norm_wf `{Daachorse A} (norm : Normalizer A) (ps : list rstring) : Prop := {
  nw_automaton : da_build LeftmostLongest ps = Some (automaton norm);
  nw_entries : length (phrase_entries norm) = length ps;
  nw_overlap :
    match phrase_overlap norm with
    | None => ps = []
    | Some ov =>
        da_build Standard ps = Some (ov_automaton ov) ∧ entry_idx ov = seq 0 (length ps) ∧
        ov_entries ov = (λ e, (pe_feature e, pe_kind e)) <$> phrase_entries norm ∧
        token_lens ov = (λ p, try_u32 (length (split_whitespace p))) <$> ps
    end;
  nw_aliases : has_multiword_aliases norm = existsb (λ e, bool_decide (pe_mode e = Alias)) (phrase_entries norm);
  nw_synonyms tok si : syn_index norm !! tok = Some si → ∃ canon kind, synonyms norm !! si = Some (tok, canon, kind);
}.

(** An occurrence of a pattern on token boundaries. *)
Definition phrase_at (ps : list rstring) (lc : rstring) (m : Match) : Prop :=
  on_boundaries lc (m_start m) (m_end m) = true ∧ occurs ps lc m.

Lemma fast_phrases_spec lc ms l :
  fast_phrases lc ms = Some l → l = ms ∧ Forall (λ m, on_boundaries lc (m_start m) (m_end m) = true) ms.
Proof.
  revert l. induction ms as [|m ms IH]; intros l; simpl; [by intros [= <-]|].
  destruct (on_boundaries lc (m_start m) (m_end m)) eqn:E; [|done].
  destruct (fast_phrases lc ms) as [k|]; simpl; [|done]. intros [= <-]. destruct (IH k) as [-> ?]; [done|]. by split; [|constructor].
Qed.

Section phases.
Context {A : Type} `{DaachorseLaws A} (norm : Normalizer A) (ps : list rstring) (Hn : norm_wf norm ps).

Lemma selectable_phrase_at lc m : selectable ps (seq 0 (length ps)) lc m ↔ phrase_at ps lc m.
Proof.
  unfold selectable, phrase_at. f_equiv. split.
  - intros (v & [E Hv]%lookup_seq & Ho). destruct m. simpl in *. by subst.
  - intros Ho. exists (m_value m). destruct m as [s e v]. simpl in *. split; [|done].
    apply lookup_seq. destruct Ho as (p & Hp & _). apply lookup_lt_Some in Hp. done.
Qed.

(** Phase 1 selects, on either path, the leftmost-longest phrases among those
    on token boundaries. *)
Lemma phrase_matches_spec retain lc :
  ∃ l, phrase_matches norm retain lc = Some l ∧ leftmost_longest (phrase_at ps lc) 0 l.
Proof using All.
  unfold phrase_matches.
  assert (∃ l, match phrase_overlap norm with Some ov => select_phrases ov lc | None => Some [] end = Some l ∧
    leftmost_longest (phrase_at ps lc) 0 l) as Hslow.
  { pose proof (nw_overlap _ _ Hn) as Hov. destruct (phrase_overlap norm) as [ov|].
    - destruct Hov as (Hb & Hidx & _). destruct (select_phrases_spec ps ov lc Hb) as (l & -> & Hl); [by rewrite Hidx, length_seq|].
      exists l. split; [done|]. rewrite Hidx in Hl. eapply leftmost_sub; [| |exact Hl].
      + intros m. by rewrite selectable_phrase_at.
      + apply Forall_forall. intros m Hm. apply selectable_phrase_at. by eapply leftmost_elem.
    - exists []. split; [done|]. constructor. intros m (_ & p & Hp & _). by rewrite Hov in Hp. }
  destruct (has_multiword_aliases norm || retain); [done|].
  destruct (fast_phrases lc _) as [l|] eqn:Ef; [|done]. exists l. split; [done|].
  apply fast_phrases_spec in Ef as [-> Hall]. pose proof (leftmost_find_spec ps _ lc (nw_automaton _ _ Hn)) as HLL.
  eapply leftmost_sub; [| |exact HLL]; [by intros m [_ ?]|].
  apply Forall_forall. intros m Hm. rewrite Forall_forall in Hall. split; [by apply Hall|by eapply leftmost_elem].
Qed.

Lemma phrase_at_unique lc : spans_unique (phrase_at ps lc).
Proof using All.
  destruct (da_build_patterns _ _ _ (nw_automaton _ _ Hn)) as [Hnd _].
  intros m m' [_ Hm] [_ Hm']. by eapply occurs_unique.
Qed.

Lemma phrase_matches_retain retain retain' lc : phrase_matches norm retain lc = phrase_matches norm retain' lc.
Proof using All.
  destruct (phrase_matches_spec retain lc) as (l & -> & Hl). destruct (phrase_matches_spec retain' lc) as (l' & -> & Hl').
  f_equal. eapply leftmost_unique; [apply phrase_at_unique|done|done].
Qed.

(** ** What the two phases emit *)

(** A token before [k] is inside the match [pi]. *)
Definition held (pm : list Match) (tokens : list (nat * nat)) (k : nat) (pi : nat) : Prop :=
  ∃ tj t m, (tj < k)%nat ∧ tokens !! tj = Some t ∧ holder pm t = Some (pi, m).

(** A phrase is emitted at the first token inside it. *)
Definition phrase_emits (pm : list Match) (tokens : list (nat * nat)) (ti : nat) (e : Emitted) : Prop :=
  ∃ t pi m entry, tokens !! ti = Some t ∧ holder pm t = Some (pi, m) ∧ phrase_entries norm !! m_value m = Some entry ∧
    ¬ held pm tokens ti pi ∧ e = (pe_feature entry, pe_kind entry, position_index ti, position_index (span_end tokens ti m)).

Definition consumed (mode : EmitMode) (pm : list Match) (tokens : list (nat * nat)) (ti : nat) : Prop :=
  ∃ t pi m entry, tokens !! ti = Some t ∧ holder pm t = Some (pi, m) ∧ phrase_entries norm !! m_value m = Some entry ∧
    consumes mode entry = true.

Record claims_ok (mode : EmitMode) (pm : list Match) (tokens : list (nat * nat)) (k : nat) (st : Claims) : Prop := {
  cl_phrases : length (phrase_emitted st) = length pm;
  cl_tokens : length (token_consumed st) = length tokens;
  cl_emitted pi : phrase_emitted st !! pi = Some true ↔ held pm tokens k pi;
  cl_consumed ti : token_consumed st !! ti = Some true ↔ (ti < k)%nat ∧ consumed mode pm tokens ti;
  cl_claimed e : e ∈ claimed st ↔ ∃ ti, (ti < k)%nat ∧ phrase_emits pm tokens ti e;
}.

Lemma held_S pm tokens k t pi :
  tokens !! k = Some t → held pm tokens (S k) pi ↔ held pm tokens k pi ∨ ∃ m, holder pm t = Some (pi, m).
Proof.
  intros Ht. unfold held. split.
  - intros (tj & t' & m & Hlt & Htj & Hh). destruct (decide (tj = k)) as [->|]; [simplify_eq; eauto|left; exists tj, t', m; split; [lia|done]].
  - intros [(tj & t' & m & Hlt & Htj & Hh)|[m Hh]]; [exists tj, t', m; split; [lia|done]|exists k, t, m; split; [lia|done]].
Qed.

Lemma holder_inside pm t pi m : holder pm t = Some (pi, m) → pm !! pi = Some m ∧ inside t m = true.
Proof. unfold holder. intros (Hm & Hi & _)%list_find_Some. done. Qed.

Lemma insert_true (l : list bool) i j : (i < length l)%nat → <[i := true]> l !! j = Some true ↔ j = i ∨ l !! j = Some true.
Proof.
  intros Hi. destruct (decide (j = i)) as [->|Hne]; [rewrite list_lookup_insert_eq by done; tauto|].
  rewrite list_lookup_insert_ne by done. naive_solver.
Qed.

Lemma claim_token_spec mode pm tokens k st t :
  (∀ m, m ∈ pm → is_Some (phrase_entries norm !! m_value m)) → tokens !! k = Some t →
  claims_ok mode pm tokens k st → ∃ st', claim_token norm mode pm tokens st k = Some st' ∧ claims_ok mode pm tokens (S k) st'.
Proof.
  intros Hval Ht [H1 H2 H3 H4 H5]. unfold claim_token. rewrite Ht. cbn [mbind option_bind].
  assert (∀ ti, (ti < S k)%nat ↔ (ti < k)%nat ∨ ti = k) as Hlt by lia.
  destruct (holder pm t) as [[pi m]|] eqn:Eh.
  2: { exists st. split; [done|]. split; [done|done| | |].
    - intros pi. rewrite H3, (held_S _ _ _ t) by done. naive_solver.
    - intros ti. rewrite H4, Hlt. split; [naive_solver|]. intros [[?| ->] Hc]; [done|]. destruct Hc as (t' & pi & m & en & Ht' & Hh & _). congruence.
    - intros e. rewrite H5. split; [intros (ti & ? & ?); exists ti; split; [lia|done]|].
      intros (ti & [?| ->]%Hlt & Hp); [eauto|]. destruct Hp as (t' & pi & m & en & Ht' & Hh & _). congruence. }
  destruct (holder_inside _ _ _ _ Eh) as [Hpm Hin]. pose proof (lookup_lt_Some _ _ _ Hpm) as Hpi.
  pose proof (lookup_lt_Some _ _ _ Ht) as Hk.
  destruct (Hval m) as [entry He]; [by eapply list_elem_of_lookup_2|]. rewrite He. cbn [mbind option_bind].
  set (cons' := if consumes mode entry then _ else _).
  assert (length cons' = length tokens) as Hc1 by (unfold cons'; destruct (consumes mode entry); by rewrite ?length_insert).
  assert (∀ ti, cons' !! ti = Some true ↔ (ti < S k)%nat ∧ consumed mode pm tokens ti) as Hc2.
  { assert (consumed mode pm tokens k ↔ consumes mode entry = true) as Hck.
    { unfold consumed. split; [intros (t' & pi' & m' & en & Ht' & Hh & He' & Hcs); congruence|]. intros Hcs. exists t, pi, m, entry. done. }
    intros ti. rewrite Hlt. unfold cons'. destruct (consumes mode entry); [rewrite insert_true by lia|]; rewrite H4; naive_solver. }
  destruct (lookup_lt_is_Some_2 (phrase_emitted st) pi) as [seen Hseen]; [lia|]. rewrite Hseen. cbn [mbind option_bind].
  assert (∀ e, phrase_emits pm tokens k e ↔ ¬ held pm tokens k pi ∧
    e = (pe_feature entry, pe_kind entry, position_index k, position_index (span_end tokens k m))) as Hpe.
  { intros e. unfold phrase_emits. split; [intros (t' & pi' & m' & en & Ht' & Hh & He' & Hf & Ee)|intros [Hf Ee]; by exists t, pi, m, entry].
    rewrite Ht in Ht'. injection Ht' as <-. rewrite Eh in Hh. injection Hh as <- <-. rewrite He in He'. by injection He' as <-. }
  assert (∀ e, (∃ ti, (ti < S k)%nat ∧ phrase_emits pm tokens ti e) ↔ e ∈ claimed st ∨ phrase_emits pm tokens k e) as Hsplit.
  { intros e. rewrite H5. setoid_rewrite Hlt. naive_solver. }
  destruct seen; (eexists; split; [done|]; split; simpl; [by rewrite ?length_insert|done| |done|]).
  - intros q. rewrite (held_S _ _ _ t), H3 by done. split; [by left|]. intros [?|[m' Hm']]; [done|]. rewrite Eh in Hm'. simplify_eq. by apply H3.
  - intros e. rewrite Hsplit, Hpe. split; [by left|]. intros [?|[Hnf _]]; [done|]. by apply H3 in Hseen.
  - intros q. rewrite insert_true, (held_S _ _ _ t), H3 by (done || lia). rewrite Eh. naive_solver.
  - intros e. rewrite Hsplit, Hpe, elem_of_app, list_elem_of_singleton. split; [|naive_solver].
    intros [?| ->]; [by left|right]. split; [|done]. intros Hh%H3. congruence.
Qed.

Lemma claim_tokens_spec mode pm tokens :
  (∀ m, m ∈ pm → is_Some (phrase_entries norm !! m_value m)) →
  ∃ st, claim_tokens norm mode pm tokens = Some st ∧ claims_ok mode pm tokens (length tokens) st.
Proof.
  intros Hval. unfold claim_tokens.
  destruct (foldM_invariant (claim_token norm mode pm tokens) (λ dn st, claims_ok mode pm tokens (length dn) st) (seq 0 (length tokens))
    (mkClaims (replicate (length pm) false) (replicate (length tokens) false) [])) as (st & -> & HI).
  - split; simpl; [by rewrite length_replicate|by rewrite length_replicate| | |].
    + intros pi. rewrite lookup_replicate. split; [naive_solver|]. intros (tj & t & m & Hlt & _). lia.
    + intros ti. rewrite lookup_replicate. split; [naive_solver|]. intros [Hlt _]. lia.
    + intros e. rewrite elem_of_nil. split; [done|]. intros (ti & Hlt & _). lia.
  - intros dn st ti [k Hp] HI. assert (seq 0 (length tokens) !! length dn = Some ti) as Hti.
    { rewrite Hp, <-app_assoc. by apply list_lookup_middle. }
    apply lookup_seq in Hti as [-> Hlt]. destruct (lookup_lt_is_Some_2 tokens (length dn) Hlt) as [t Ht].
    destruct (claim_token_spec mode pm tokens (length dn) st t Hval Ht HI) as (st' & E & HI').
    exists st'. split; [done|]. rewrite length_app, Nat.add_1_r. done.
  - exists st. split; [done|]. by rewrite length_seq in HI.
Qed.

(** What the token [i] of the cleaned text emits by itself. *)
Definition token_emits (lc : rstring) (i : nat) (e : Emitted) : Prop :=
  ∃ l, emit_token norm lc (tokenize lc) i = Some l ∧ e ∈ l.

Lemma emit_token_total lc tokens i t : tokens !! i = Some t → is_Some (emit_token norm lc tokens i).
Proof using Hn.
  intros Ht. unfold emit_token. rewrite Ht. cbn [mbind option_bind]. destruct (is_marker _); [by eexists|].
  destruct (parse_number _); [by eexists|]. destruct (syn_index norm !! _) as [si|] eqn:Es; [|by eexists].
  destruct (nw_synonyms _ _ Hn _ _ Es) as (canon & kind & ->). by eexists.
Qed.

Lemma emit_tokens_spec lc consumed :
  length consumed = length (tokenize lc) →
  ∃ rest, emit_tokens norm lc (tokenize lc) consumed = Some rest ∧
    ∀ e, e ∈ rest ↔ ∃ i, consumed !! i = Some false ∧ token_emits lc i e.
Proof using Hn.
  intros Hlen. unfold emit_tokens.
  set (f := λ i, c ← consumed !! i; if c : bool then Some [] else emit_token norm lc (tokenize lc) i).
  destruct (mapM_is_Some_2 f (seq 0 (length (tokenize lc)))) as [ls Hls].
  { apply Forall_forall. intros i [_ Hi]%elem_of_seq. simpl in Hi. unfold f, compose.
    destruct (lookup_lt_is_Some_2 consumed i) as [c ->]; [lia|]. simpl. destruct c; [by eexists|].
    destruct (lookup_lt_is_Some_2 (tokenize lc) i Hi) as [t Ht]. by eapply emit_token_total. }
  rewrite Hls. eexists. split; [done|]. intros e. apply mapM_Some in Hls. rewrite list_elem_of_join. split.
  - intros (l & He & Hl). apply list_elem_of_lookup in Hl as [k Hk]. destruct (Forall2_lookup_r _ _ _ _ _ Hls Hk) as (i & Hi & Hf).
    apply lookup_seq in Hi as [-> Hi]. unfold f in Hf. destruct (consumed !! _) as [[]|] eqn:Ec; simpl in Hf; [| |done].
    + simplify_eq. by apply not_elem_of_nil in He.
    + exists k. split; [done|]. by exists l.
  - intros (i & Hc & l & Hl & He). exists l. split; [done|]. assert (i < length (tokenize lc))%nat as Hi by (apply lookup_lt_Some in Hc; lia).
    assert (seq 0 (length (tokenize lc)) !! i = Some i) as Hs by by apply lookup_seq.
    destruct (Forall2_lookup_l _ _ _ _ _ Hls Hs) as (l' & Hl' & Hf). unfold f in Hf. rewrite Hc in Hf. simpl in Hf.
    rewrite Hl in Hf. simplify_eq. by eapply list_elem_of_lookup_2.
Qed.

(** The phrases selected in a cleaned text. *)
Definition phrases_of (lc : rstring) : list Match := default [] (phrase_matches norm true lc).

Lemma phrases_of_leftmost lc : leftmost_longest (phrase_at ps lc) 0 (phrases_of lc).
Proof using All. unfold phrases_of. by destruct (phrase_matches_spec true lc) as (l & -> & Hl). Qed.

Lemma phrases_of_entries lc m : m ∈ phrases_of lc → is_Some (phrase_entries norm !! m_value m).
Proof using All.
  intros Hm. destruct (leftmost_elem _ _ _ _ (phrases_of_leftmost lc) Hm) as (_ & p & Hp & _).
  apply lookup_lt_is_Some_2. rewrite (nw_entries _ _ Hn). by eapply lookup_lt_Some.
Qed.

(** A pass emits the selected phrases, each at its first token, and what every
    token that is not consumed emits by itself. *)
Lemma norm_emit_positioned_spec mode text :
  let lc := clean_with (punct norm) text in
  ∃ out, norm_emit_positioned norm mode text = Some out ∧
    ∀ e, e ∈ out ↔ (∃ ti, phrase_emits (phrases_of lc) (tokenize lc) ti e) ∨
      ∃ i, ¬ consumed mode (phrases_of lc) (tokenize lc) i ∧ token_emits lc i e.
Proof using All.
  intros lc. unfold norm_emit_positioned. fold lc.
  assert (phrase_matches norm (retain_positioned_starts mode) lc = Some (phrases_of lc)) as ->.
  { rewrite (phrase_matches_retain _ true). unfold phrases_of. by destruct (phrase_matches_spec true lc) as (l & -> & _). }
  cbn [mbind option_bind].
  destruct (claim_tokens_spec mode (phrases_of lc) (tokenize lc) (phrases_of_entries lc)) as (st & -> & [_ Hlen _ Hcons Hcl]).
  cbn [mbind option_bind]. destruct (emit_tokens_spec lc (token_consumed st) Hlen) as (rest & -> & Hrest).
  eexists. split; [done|]. intros e. rewrite elem_of_app, Hcl, Hrest. f_equiv.
  - split; [naive_solver|]. intros [ti Hp]. exists ti. split; [|done]. destruct Hp as (t & _ & _ & _ & Ht & _). by eapply lookup_lt_Some.
  - split.
    + intros (i & Hc & He). exists i. split; [|done]. intros Hcons'. assert (token_consumed st !! i = Some true); [|congruence].
      apply Hcons. split; [|done]. apply lookup_lt_Some in Hc. lia.
    + intros (i & Hc & He). exists i. split; [|done]. destruct He as (l & Hl & _). unfold emit_token in Hl.
      destruct (tokenize lc !! i) as [t|] eqn:Et; [|done]. apply lookup_lt_Some in Et.
      destruct (lookup_lt_is_Some_2 (token_consumed st) i) as [[] Hb]; [lia| |done]. apply Hcons in Hb as [_ ?]. done.
Qed.

End phases.

(** ** The pipeline discharges what its clients rely on *)

Definition normalizer_analyzer `{Daachorse A} (norm : Normalizer A) : Analyzer := {|
  emit side force text := default [] (norm_emit norm side force text);
  emit_positioned side force text := default [] (norm_emit_positioned norm (mode_positioned side force) text);
  tokens := norm_tokens norm;
|}.

Lemma span_end_bound tokens ti m : (ti < length tokens)%nat → (ti < span_end tokens ti m ≤ length tokens)%nat.
Proof.
  intros Hti. unfold span_end. pose proof (f_equal length (take_skip_while (λ t, (t.2 <=? m_end m)%nat) (drop (S ti) tokens))) as Hl.
  rewrite length_app, length_drop in Hl. lia.
Qed.

Lemma position_index_lt n i j : N.of_nat n ≤ umax 32 → (i < j ≤ n)%nat → position_index i < position_index j ≤ position_index n.
Proof. unfold position_index, try_u32. lia. Qed.

Section laws.
Context {A : Type} `{DaachorseLaws A} (norm : Normalizer A) (ps : list rstring) (Hn : norm_wf norm ps).

Lemma token_emits_span lc i e :
  token_emits norm lc i e → (i < length (tokenize lc))%nat ∧ e.1.2 = position_index i ∧ e.2 = position_index (S i).
Proof.
  intros (l & Hl & He). unfold emit_token in Hl. destruct (tokenize lc !! i) as [t|] eqn:Et; [|done].
  split; [by eapply lookup_lt_Some|]. simpl in Hl. destruct (is_marker _); [simplify_eq; by apply not_elem_of_nil in He|].
  destruct (parse_number _) as [num|]; [|destruct (syn_index norm !! _) as [si|]]; [| |].
  - simplify_eq. apply list_elem_of_singleton in He as ->. unfold emit_number. case_match; [done|]. by destruct (as_year num).
  - destruct (synonyms norm !! si) as [[[? canon] kind]|]; simpl in Hl; [|done]. simplify_eq. by apply list_elem_of_singleton in He as ->.
  - simplify_eq. by apply list_elem_of_singleton in He as ->.
Qed.

Lemma length_norm_tokens text : length (norm_tokens norm text) = length (tokenize (clean_with (punct norm) text)).
Proof. unfold norm_tokens, text_tokens. by rewrite length_fmap. Qed.

(** *** The spans follow each other *)

(** The token [k] is not in a phrase that an earlier token is in. *)
Definition fresh (pm : list Match) (toks : list (nat * nat)) (k : nat) : Prop :=
  ∀ pi t m, held pm toks k pi → toks !! k = Some t → holder pm t ≠ Some (pi, m).

Lemma phrase_at_span lc m : phrase_at ps lc m → (m_start m ≤ m_end m)%nat.
Proof. intros (_ & p & _ & _ & ->). lia. Qed.

(** A token is in one phrase at most. *)
Lemma inside_one lc k t pi pi' m m' :
  tokenize lc !! k = Some t → phrases_of norm lc !! pi = Some m → phrases_of norm lc !! pi' = Some m' →
  inside t m = true → inside t m' = true → pi = pi'.
Proof using All.
  intros Ht Hm Hm'. unfold inside. rewrite !andb_true_iff, !Nat.leb_le. intros [H1 H2] [H3 H4]. apply tokenize_nonempty in Ht.
  destruct (leftmost_disjoint _ _ _ (phrase_at_span lc) (phrases_of_leftmost norm ps Hn lc)) as [_ Hs].
  destruct (lt_eq_lt_dec pi pi') as [[Hlt| ->]|Hlt]; [|done|].
  - pose proof (StronglySorted_lookup _ _ _ _ _ _ Hs Hm Hm' Hlt). simpl in *. lia.
  - pose proof (StronglySorted_lookup _ _ _ _ _ _ Hs Hm' Hm Hlt). simpl in *. lia.
Qed.

Lemma inside_holder lc k t pi m :
  tokenize lc !! k = Some t → phrases_of norm lc !! pi = Some m → inside t m = true → holder (phrases_of norm lc) t = Some (pi, m).
Proof using All.
  intros Ht Hm Hin. destruct (holder (phrases_of norm lc) t) as [[pi' m']|] eqn:Eh.
  - destruct (holder_inside _ _ _ _ Eh) as [Hm' Hin']. pose proof (inside_one _ _ _ _ _ _ _ Ht Hm Hm' Hin Hin') as <-. congruence.
  - unfold holder in Eh. apply list_find_None in Eh. rewrite Forall_forall in Eh. destruct (Eh m); [by eapply list_elem_of_lookup_2|done].
Qed.

(** A token between two tokens of a phrase is in it. *)
Lemma inside_between lc i j k ti tj tk m :
  tokenize lc !! i = Some ti → tokenize lc !! j = Some tj → tokenize lc !! k = Some tk → (i < j < k)%nat →
  inside ti m = true → inside tk m = true → inside tj m = true.
Proof.
  intros Hi Hj Hk [Hij Hjk]. unfold inside. rewrite !andb_true_iff, !Nat.leb_le.
  pose proof (tokenize_ordered _ _ _ _ _ Hi Hj Hij). pose proof (tokenize_ordered _ _ _ _ _ Hj Hk Hjk).
  pose proof (tokenize_nonempty _ _ _ Hi). pose proof (tokenize_nonempty _ _ _ Hk). lia.
Qed.

Lemma span_inside lc k t m j tj :
  tokenize lc !! k = Some t → inside t m = true → (k ≤ j < span_end (tokenize lc) k m)%nat → tokenize lc !! j = Some tj → inside tj m = true.
Proof.
  intros Hk Hin [Hkj Hj] Htj. destruct (decide (j = k)) as [->|Hne]; [congruence|]. pose proof (tokenize_ordered _ _ _ _ _ Hk Htj ltac:(lia)).
  pose proof (tokenize_nonempty _ _ _ Hk). unfold inside in *. rewrite !andb_true_iff, !Nat.leb_le in *. split; [lia|].
  unfold span_end in Hj. set (l := drop (S k) (tokenize lc)) in *. assert (take_while (λ t, (t.2 <=? m_end m)%nat) l !! (j - S k)%nat = Some tj) as Hl.
  { assert (l !! (j - S k)%nat = Some tj) as Hd by (unfold l; rewrite lookup_drop; replace (S k + (j - S k))%nat with j by lia; done).
    rewrite <-(take_skip_while (λ t, (t.2 <=? m_end m)%nat) l), lookup_app_l in Hd by lia. done. }
  apply Nat.leb_le. exact (take_while_true (λ t, (t.2 <=? m_end m)%nat) l tj (list_elem_of_lookup_2 _ _ _ Hl)).
Qed.

Lemma span_outside lc k m t' : tokenize lc !! span_end (tokenize lc) k m = Some t' → inside t' m = false.
Proof.
  unfold span_end. rewrite <-lookup_drop. set (l := drop (S k) (tokenize lc)). intros Ht. unfold inside.
  enough ((t'.2 <=? m_end m)%nat = false) as -> by by rewrite andb_false_r. revert Ht.
  induction l as [|x l IH]; simpl; [done|]. destruct (x.2 <=? m_end m)%nat eqn:E; simpl; [done|]. by intros [= ->].
Qed.

(** Past a phrase, or past a token that is in none, the next token is fresh. *)
Lemma fresh_after_phrase lc k t pi m :
  tokenize lc !! k = Some t → holder (phrases_of norm lc) t = Some (pi, m) → fresh (phrases_of norm lc) (tokenize lc) k →
  fresh (phrases_of norm lc) (tokenize lc) (span_end (tokenize lc) k m).
Proof using All.
  intros Ht Hh Hfr pi' t' m' (tj & tt & m2 & Hj & Htj & Hhj) Ht' Hh'. destruct (holder_inside _ _ _ _ Hh) as [Hm Hin].
  destruct (holder_inside _ _ _ _ Hh') as [Hm' Hin']. destruct (holder_inside _ _ _ _ Hhj) as [Hm2 Hin2]. rewrite Hm' in Hm2. injection Hm2 as <-.
  pose proof (span_outside _ _ _ _ Ht') as Hout. assert (pi = pi') as <-; [|congruence]. destruct (le_lt_dec k tj) as [Hle|Hlt].
  - eapply (inside_one lc tj tt); [done|exact Hm|exact Hm'| |done]. by eapply (span_inside lc k t m tj tt).
  - destruct (Hfr pi' t m'); [by exists tj, tt, m'|done|]. apply (inside_holder lc k); [done|done|].
    apply (inside_between lc tj k (span_end (tokenize lc) k m) tt t t'); try done. split; [done|unfold span_end; lia].
Qed.

Lemma fresh_after_token lc k t :
  tokenize lc !! k = Some t → holder (phrases_of norm lc) t = None → fresh (phrases_of norm lc) (tokenize lc) (S k).
Proof using All.
  intros Ht Hnone pi' t' m' (tj & tt & m2 & Hj & Htj & Hhj) Ht' Hh'.
  destruct (holder_inside _ _ _ _ Hh') as [Hm' Hin']. destruct (holder_inside _ _ _ _ Hhj) as [Hm2 Hin2]. rewrite Hm' in Hm2. injection Hm2 as <-.
  destruct (decide (tj = k)) as [->|Hne]; [congruence|]. assert (inside t m' = true) as Hin by (apply (inside_between lc tj k (S k) tt t t'); [done..|lia|done|done]).
  rewrite (inside_holder lc k t pi' m' Ht Hm' Hin) in Hnone. done.
Qed.

Lemma spans_within sd force text name k s e :
  @short_text (normalizer_analyzer norm) text → (name, k, s, e) ∈ @emit_positioned (normalizer_analyzer norm) sd force text →
  s < e ∧ e ≤ position_index (length (@tokens (normalizer_analyzer norm) text)).
Proof using All.
  unfold short_text. simpl. rewrite length_norm_tokens. intros Hshort Hin.
  destruct (norm_emit_positioned_spec norm ps Hn (mode_positioned sd force) text) as (out & E & Hout). rewrite E in Hin. simpl in Hin.
  set (lc := clean_with (punct norm) text) in *.
  apply Hout in Hin as [(ti & t & pi & m & entry & Ht & _ & _ & _ & [= -> -> -> ->])|(i & _ & Hte)].
  - apply (position_index_lt (length (tokenize lc))); [done|]. apply span_end_bound. by eapply lookup_lt_Some.
  - apply token_emits_span in Hte as (Hi & Hs & He). simpl in Hs, He. subst s e. apply (position_index_lt (length (tokenize lc))); [done|]. lia.
Qed.

Lemma spans_chain sd force text :
  @short_text (normalizer_analyzer norm) text →
  ∃ node : N → Prop, node 0 ∧ ∀ i, i < position_index (length (@tokens (normalizer_analyzer norm) text)) → node i →
    (∃ name k e, (name, k, i, e) ∈ @emit_positioned (normalizer_analyzer norm) sd force text ∧ node e) ∨
    node (i + 1) ∧ ∀ name k s e, (name, k, s, e) ∈ @emit_positioned (normalizer_analyzer norm) sd force text → ¬ s ≤ i < e.
Proof using All.
  unfold short_text. cbn [tokens emit_positioned normalizer_analyzer]. rewrite length_norm_tokens. set (lc := clean_with (punct norm) text). intros Hshort.
  destruct (norm_emit_positioned_spec norm ps Hn (mode_positioned sd force) text) as (out & E & Hout). rewrite E. cbn [default]. fold lc in Hout.
  assert (∀ k, (k ≤ length (tokenize lc))%nat → position_index k = N.of_nat k) as Hidx by (intros; unfold position_index, try_u32; lia).
  exists (λ i, ∃ k, i = position_index k ∧ (k ≤ length (tokenize lc))%nat ∧ fresh (phrases_of norm lc) (tokenize lc) k). split.
  { exists O. split_and!; [done|lia|]. intros pi t m (tj & _ & _ & Hj & _). lia. }
  intros i Hi (k & -> & Hk & Hfr). rewrite !Hidx in * by lia. destruct (lookup_lt_is_Some_2 (tokenize lc) k) as [t Ht]; [lia|].
  destruct (holder (phrases_of norm lc) t) as [[pi m]|] eqn:Eh.
  - left. pose proof (span_end_bound (tokenize lc) k m ltac:(lia)) as Hb. destruct (holder_inside _ _ _ _ Eh) as [Hm _].
    destruct (phrases_of_entries norm ps Hn lc m) as [entry He]; [by eapply list_elem_of_lookup_2|].
    exists (pe_feature entry), (pe_kind entry), (position_index (span_end (tokenize lc) k m)). split.
    + apply Hout. left. exists k, t, pi, m, entry. rewrite (Hidx k) by lia. split_and!; [done..| |done]. intros Hheld. by destruct (Hfr pi t m).
    + exists (span_end (tokenize lc) k m). split_and!; [done|lia|by eapply fresh_after_phrase].
  - assert (∃ j, N.of_nat k + 1 = position_index j ∧ (j ≤ length (tokenize lc))%nat ∧ fresh (phrases_of norm lc) (tokenize lc) j) as Hnext.
    { exists (S k). rewrite Hidx by lia. split_and!; [lia|lia|by eapply fresh_after_token]. }
    destruct (emit_token_total norm ps Hn lc (tokenize lc) k t Ht) as [[|[[[name kd] s] e] l] Hl].
    + right. split; [done|]. intros name kd s e Hin Hc. apply Hout in Hin as [(ti & t0 & pi & m & entry & Ht0 & Hh0 & _ & _ & [= -> -> -> ->])|(j & _ & Hte)].
      * destruct (holder_inside _ _ _ _ Hh0) as [Hm Hin]. pose proof (lookup_lt_Some _ _ _ Ht0). pose proof (span_end_bound (tokenize lc) ti m ltac:(lia)).
        rewrite !Hidx in Hc by lia. rewrite (inside_holder lc k t pi m) in Eh; [done|done|done|]. eapply (span_inside lc ti t0 m k); [done|done|lia|done].
      * pose proof (token_emits_span _ _ _ Hte) as (Hj & Es & Ee). cbn in Es, Ee. subst s e. rewrite !Hidx in Hc by lia. assert (j = k) as -> by lia.
        destruct Hte as (l' & El & Hin). rewrite Hl in El. injection El as <-. by apply not_elem_of_nil in Hin.
    + left. assert (token_emits norm lc k (name, kd, s, e)) as Hte by (exists ((name, kd, s, e) :: l); split; [done|by left]).
      destruct (token_emits_span _ _ _ Hte) as (_ & Es & Ee). cbn in Es, Ee. rewrite (Hidx k) in Es by lia. rewrite (Hidx (S k)) in Ee by lia. subst s e.
      exists name, kd, (N.of_nat (S k)). split; [|replace (N.of_nat (S k)) with (N.of_nat k + 1) by lia; done].
      apply Hout. right. exists k. split; [|done]. intros (t0 & pi & m & entry & Ht0 & Hh0 & _). congruence.
Qed.

Lemma normalizer_laws : @AnalyzerLaws (normalizer_analyzer norm).
Proof using All.
  split; [apply spans_within|apply spans_chain].
Qed.

(** The flat pass and the positioned pass emit the same names. *)
Lemma norm_emit_positioned_names sd force text :
  @emit (normalizer_analyzer norm) sd force text =
    (λ e, e.1.1) <$> @emit_positioned (normalizer_analyzer norm) sd force text.
Proof using All.
  simpl. unfold norm_emit. assert (norm_emit_positioned norm (mode_flat sd force) text =
    norm_emit_positioned norm (mode_positioned sd force) text) as ->.
  { unfold norm_emit_positioned. simpl. rewrite (phrase_matches_retain norm ps Hn false true). done. }
  by destruct (norm_emit_positioned norm (mode_positioned sd force) text).
Qed.

(** The names a pass emits, in terms of the phases. *)
Lemma emit_names sd force text name :
  let lc := clean_with (punct norm) text in
  name ∈ (@emit (normalizer_analyzer norm) sd force text).*1 ↔
  ∃ kind s e, (∃ ti, phrase_emits norm (phrases_of norm lc) (tokenize lc) ti (name, kind, s, e)) ∨
    ∃ i, ¬ consumed norm (mode_positioned sd force) (phrases_of norm lc) (tokenize lc) i ∧ token_emits norm lc i (name, kind, s, e).
Proof using All.
  intros lc. rewrite norm_emit_positioned_names. simpl.
  destruct (norm_emit_positioned_spec norm ps Hn (mode_positioned sd force) text) as (out & -> & Hout). simpl. fold lc in Hout.
  rewrite list_elem_of_fmap. split.
  - intros ([nm k] & -> & Hin). apply list_elem_of_fmap in Hin as ([[[nm' k'] s] e] & [= <- <-] & Hin). exists k, s, e. by apply Hout.
  - intros (k & s & e & Hin). apply Hout in Hin. exists (name, k). split; [done|]. apply list_elem_of_fmap. by exists (name, k, s, e).
Qed.

(** Nothing is consumed in a pass with every phrase additive, so it emits all
    that any pass does. *)
Lemma emit_forced sd sd' force text name :
  name ∈ (@emit (normalizer_analyzer norm) sd force text).*1 → name ∈ (@emit (normalizer_analyzer norm) sd' true text).*1.
Proof using All.
  rewrite !emit_names. intros (k & s & e & [Hp|(i & _ & Ht)]); exists k, s, e; [by left|right].
  exists i. split; [|done]. intros (t & pi & m & entry & _ & _ & _ & Hc). done.
Qed.

Lemma consumes_sides force v entry :
  has_multiword_aliases norm = false → phrase_entries norm !! v = Some entry →
  consumes (mode_positioned Query force) entry = consumes (mode_positioned Title force) entry.
Proof using Hn.
  rewrite (nw_aliases _ _ Hn). intros Hna He. unfold consumes. destruct (pe_mode entry) eqn:Em; [done|done|].
  exfalso. apply not_true_iff_false in Hna. apply Hna, existsb_elem. exists entry.
  split; [by eapply list_elem_of_lookup_2|]. by apply bool_decide_eq_true.
Qed.

(** Without alias phrases the two sides emit the same. *)
Lemma emit_sides force text name :
  has_multiword_aliases norm = false →
  name ∈ (@emit (normalizer_analyzer norm) Query force text).*1 ↔ name ∈ (@emit (normalizer_analyzer norm) Title force text).*1.
Proof using All.
  intros Hna. rewrite !emit_names.
  assert (∀ pm tk i, consumed norm (mode_positioned Query force) pm tk i ↔ consumed norm (mode_positioned Title force) pm tk i) as Hc.
  { intros pm tk i. split; intros (t & pi & m & entry & ? & ? & He & Hcs); exists t, pi, m, entry; (split_and!; [done..|]);
      [by rewrite <-(consumes_sides _ _ _ Hna He)|by rewrite (consumes_sides _ _ _ Hna He)]. }
  by setoid_rewrite Hc.
Qed.

End laws.

(** ** Phrases are runs of tokens *)

Section phrase_tokens.
Context {A : Type} `{DaachorseLaws A} (norm : Normalizer A) (ps : list rstring) (Hn : norm_wf norm ps).

(** [m] is the phrase [ws] of the patterns where the tokens [lc] has it. *)
Definition tokens_at (lc : rstring) (m : Match) : Prop :=
  ∃ ws a b, ps !! m_value m = Some (joined ws) ∧ ws ≠ [] ∧ Forall word ws ∧ words lc = a ++ ws ++ b ∧
    m_start m = room a ∧ m_end m = (room a + length (joined ws))%nat.

Lemma phrase_at_tokens_at lc m : clean_shape lc → Forall phrase_pattern ps → phrase_at ps lc m ↔ tokens_at lc m.
Proof.
  intros Hs Hps. split.
  - intros (Hb & p & Hp & Hsl & He). rewrite Forall_forall in Hps.
    destruct (Hps p) as (ws & Hne & Hws & ->); [by eapply list_elem_of_lookup_2|]. rewrite He in Hb.
    destruct (proj1 (phrase_at_tokens lc ws (m_start m) Hs Hws Hne)) as (a & b & Hw & Hst); [done|].
    exists ws, a, b. rewrite <-Hst. done.
  - intros (ws & a & b & Hp & Hne & Hws & Hw & Hst & He).
    destruct (proj2 (phrase_at_tokens lc ws (room a) Hs Hws Hne)) as [Hsl Hb]; [by exists a, b|].
    split; [by rewrite He, Hst|]. exists (joined ws). rewrite Hst. done.
Qed.

(** C27. Phrase selection. On either path, the leftmost-longest automaton with
    its boundary check or the boundary-aware selection over the overlapping
    automaton, phase 1 selects the same phrases: scanning from the left, the
    longest registered phrase whose words are consecutive tokens of the cleaned
    text, then on from its end. *)
Theorem phrase_selection_exact text :
  Forall phrase_pattern ps →
  let lc := clean_with (punct norm) text in
  ∃ l, (∀ retain, phrase_matches norm retain lc = Some l) ∧ leftmost_longest (tokens_at lc) 0 l.
Proof using All.
  intros Hps lc. exists (phrases_of norm lc). split.
  - intros retain. rewrite (phrase_matches_retain norm ps Hn retain true). unfold phrases_of.
    by destruct (phrase_matches_spec norm ps Hn true lc) as (l & -> & _).
  - pose proof (phrases_of_leftmost norm ps Hn lc) as HLL. pose proof (clean_with_shape (punct norm) text) as Hs.
    eapply leftmost_sub; [| |exact HLL].
    + intros m. by apply phrase_at_tokens_at.
    + apply Forall_forall. intros m Hm. apply phrase_at_tokens_at; [done|done|]. by eapply leftmost_elem.
Qed.

(** A text that is a registered phrase is selected whole. *)
Lemma whole_phrase text i :
  Forall phrase_pattern ps → let lc := clean_with (punct norm) text in
  words lc ≠ [] → ps !! i = Some (joined (words lc)) → phrases_of norm lc = [mkMatch 0 (length (joined (words lc))) i].
Proof using All.
  intros Hps lc Hne Hi. pose proof (clean_with_shape (punct norm) text : clean_shape lc) as Hs. pose proof (words_word lc) as Hw.
  eapply leftmost_unique; [exact (phrase_at_unique norm ps Hn lc)|exact (phrases_of_leftmost norm ps Hn lc)|].
  apply leftmost_sub with (O := tokens_at lc); [intros m; by apply phrase_at_tokens_at| |].
  { constructor; [|constructor]. apply phrase_at_tokens_at; [done|done|]. exists (words lc), [], []. rewrite app_nil_r. done. }
  constructor; simpl; [exists (words lc), [], []; by rewrite app_nil_r|done| |].
  - intros m (ws & a & b & _ & _ & _ & Hwords & Hst & He) _. destruct (decide (m_start m = 0)%nat) as [E|]; [|lia]. right.
    split; [done|]. rewrite E in Hst. symmetry in Hst. apply room_nil in Hst as ->. rewrite Hwords, He. exact (joined_length_app ws b).
  - constructor. intros m (ws & a & b & _ & Hne' & Hws & Hwords & Hst & He). rewrite Hst, Hwords.
    rewrite joined_app by by destruct ws. rewrite length_app, length_spaced.
    pose proof (joined_nonempty ws Hws Hne'). pose proof (joined_length_app ws b). lia.
Qed.

End phrase_tokens.
