(* ===== verification/Fingerprint.v ===== *)
(** * The feature-model fingerprint ([engine/src/normalize/fingerprint.rs])

    The canonical bytes of a vocabulary and their hash. Strings sort by their
    characters, which is the order of their UTF-8 bytes. *)

From S2P Require Import Prelude Text Util Dictionary Clean Automaton AliasWords Phrase Analyze Normalize.

Definition DOMAIN : list N := Eval vm_compute in str "rr-feature-model-v1".

Definition mode_tag (mode : PhraseMode) : N := match mode with Collapse => 0 | Additive => 1 | Alias => 2 end.

Definition punct_tag (class : PunctClass) : N := match class with Split => 0 | Fold => 1 | Keep => 2 | Marker => 3 end.

Definition put_len (n : nat) : list N := le64 (wrap64 (N.of_nat n)).
Definition put_str (s : rstring) : list N := put_len (str_len s) ++ as_bytes s.

Definition phrase_rows (patterns : list rstring) (entries : list PhraseEntry) : list (rstring * rstring * N * N) :=
  zip_with (λ p e, (p, pe_feature e, kind_tag (pe_kind e), mode_tag (pe_mode e))) patterns entries.

Definition synonym_rows (synonyms : list (rstring * rstring * FeatureKind)) : list (rstring * rstring * N) :=
  (λ s, (s.1.1, s.1.2, kind_tag s.2)) <$> synonyms.

Definition punct_rows (t : PunctTable) : list (N * N) := (λ p, (p.1, punct_tag p.2)) <$> map_to_list (non_ascii t).

Definition put_phrase (r : rstring * rstring * N * N) : list N := put_str r.1.1.1 ++ put_str r.1.1.2 ++ [r.1.2; r.2].
Definition put_synonym (r : rstring * rstring * N) : list N := put_str r.1.1 ++ put_str r.1.2 ++ [r.2].
Definition put_punct (r : N * N) : list N := le32 r.1 ++ [r.2].

(** A list with its length in front. *)
Definition put_list {A} (put : A → list N) (l : list A) : list N := put_len (length l) ++ (l ≫= put).

Definition feature_model_bytes (patterns : list rstring) (entries : list PhraseEntry)
  (synonyms : list (rstring * rstring * FeatureKind)) (t : PunctTable) (number_context : list rstring) : list N :=
  DOMAIN ++
  put_list put_phrase (sort_unstable (phrase_rows patterns entries)) ++
  put_list put_synonym (sort_unstable (synonym_rows synonyms)) ++
  (punct_tag <$> ascii t) ++
  put_list put_punct (sort_unstable (punct_rows t)) ++
  put_list put_str (sort_dedup number_context).

Definition feature_model_fingerprint (patterns : list rstring) (entries : list PhraseEntry)
  (synonyms : list (rstring * rstring * FeatureKind)) (t : PunctTable) (number_context : list rstring) : N :=
  fnv1a64 (feature_model_bytes patterns entries synonyms t number_context).
