(* ===== verification/Builder.v ===== *)
(** * Building a normalizer ([engine/src/normalize/builder.rs])

    The builder's tables, the alias forms folded into them, and [build]. The
    automata come from the [Daachorse] interface; an error of one of them is
    the build's error. *)

From S2P Require Import Prelude Text Dictionary Clean Automaton AliasWords Phrase Analyze Normalize Fingerprint.

Record NormalizerBuilder := mkBuilder {
  phrase_patterns : list rstring;
  b_entries : list PhraseEntry;
  b_synonyms : list (rstring * rstring * FeatureKind);
  b_syn_index : gmap rstring nat;
  b_punct : PunctTable;
  alias_forms : list rstring;
  b_number_context : list rstring;
}.

Definition builder_new : NormalizerBuilder := mkBuilder [] [] [] ∅ punct_default [] [].

Definition push_pattern (pattern : rstring) (entry : PhraseEntry) (b : NormalizerBuilder) : NormalizerBuilder :=
  mkBuilder (phrase_patterns b ++ [pattern]) (b_entries b ++ [entry]) (b_synonyms b) (b_syn_index b) (b_punct b)
    (alias_forms b) (b_number_context b).

Definition add_phrase_inner (tokens : list rstring) (feature : rstring) (kind : FeatureKind) (mode : PhraseMode)
  (b : NormalizerBuilder) : NormalizerBuilder :=
  push_pattern (joined tokens) (mkPhraseEntry feature kind mode) b.

Definition add_phrase (tokens : list rstring) (feature : rstring) (kind : FeatureKind) (b : NormalizerBuilder) : NormalizerBuilder :=
  add_phrase_inner tokens feature kind Collapse b.
Definition add_phrase_additive (tokens : list rstring) (feature : rstring) (kind : FeatureKind) (b : NormalizerBuilder) : NormalizerBuilder :=
  add_phrase_inner tokens feature kind Additive b.
Definition add_phrase_alias (tokens : list rstring) (feature : rstring) (kind : FeatureKind) (b : NormalizerBuilder) : NormalizerBuilder :=
  add_phrase_inner tokens feature kind Alias b.

Definition add_alias_form (form : rstring) (b : NormalizerBuilder) : NormalizerBuilder :=
  mkBuilder (phrase_patterns b) (b_entries b) (b_synonyms b) (b_syn_index b) (b_punct b) (alias_forms b ++ [form]) (b_number_context b).

Definition add_synonym (token canon : rstring) (kind : FeatureKind) (b : NormalizerBuilder) : NormalizerBuilder :=
  match b_syn_index b !! token with
  | Some _ => b
  | None =>
      mkBuilder (phrase_patterns b) (b_entries b) (b_synonyms b ++ [(token, canon, kind)])
        (<[token := length (b_synonyms b)]> (b_syn_index b)) (b_punct b) (alias_forms b) (b_number_context b)
  end.

Definition set_punct_class (c : char) (class : PunctClass) (b : NormalizerBuilder) : NormalizerBuilder :=
  mkBuilder (phrase_patterns b) (b_entries b) (b_synonyms b) (b_syn_index b) (punct_set c class (b_punct b)) (alias_forms b)
    (b_number_context b).

Definition fold_punctuation (c : char) (b : NormalizerBuilder) : NormalizerBuilder := set_punct_class c Fold b.

Definition fold_punctuation_chars (chars : list char) (b : NormalizerBuilder) : NormalizerBuilder :=
  foldl (λ b c, set_punct_class c Fold b) b chars.

Definition set_number_context_words (ws : list rstring) (b : NormalizerBuilder) : NormalizerBuilder :=
  mkBuilder (phrase_patterns b) (b_entries b) (b_synonyms b) (b_syn_index b) (b_punct b) (alias_forms b)
    ((λ w : rstring, to_ascii_lowercase <$> w) <$> ws).

(** ** Alias forms *)

Definition UNDERSCORE : char := 95.

Definition set_alias (e : PhraseEntry) : PhraseEntry := mkPhraseEntry (pe_feature e) (pe_kind e) Alias.

Definition alias_entry (toks : list rstring) : PhraseEntry := mkPhraseEntry (TERM ++ join [UNDERSCORE] toks) Generic Alias.

Definition register_form (b : NormalizerBuilder) (form : rstring) : option NormalizerBuilder :=
  let toks := alias_form_tokens (b_punct b) form in
  if (length toks <? 2)%nat then Some b
  else
    match list_find (λ p, p = joined toks) (phrase_patterns b) with
    | Some (i, _) =>
        e ← b_entries b !! i;
        Some (mkBuilder (phrase_patterns b) (<[i := set_alias e]> (b_entries b)) (b_synonyms b) (b_syn_index b) (b_punct b)
          (alias_forms b) (b_number_context b))
    | None => Some (push_pattern (joined toks) (alias_entry toks) b)
    end.

Definition take_forms (b : NormalizerBuilder) : NormalizerBuilder :=
  mkBuilder (phrase_patterns b) (b_entries b) (b_synonyms b) (b_syn_index b) (b_punct b) [] (b_number_context b).

Definition register_alias_phrases (b : NormalizerBuilder) : option NormalizerBuilder :=
  foldM register_form (take_forms b) (alias_forms b).

(** ** [build] *)

Inductive NormalizerError := AutomatonError.

(** [pattern.split(' ')] *)
Fixpoint split_spaces_from (cur s : rstring) : list rstring :=
  match s with
  | [] => [cur]
  | c :: s' => if c =? SPACE then cur :: split_spaces_from [] s' else split_spaces_from (cur ++ [c]) s'
  end.

Definition split_on_space (s : rstring) : list rstring := split_spaces_from [] s.

(** The patterns the overlap automaton takes: a repeated pattern keeps its first entry. *)
Definition overlap_row : Type := rstring * (rstring * FeatureKind) * nat * N.

Definition overlap_push (rows : list overlap_row) (x : nat * (rstring * PhraseEntry)) : list overlap_row :=
  let '(i, (pat, entry)) := x in
  if existsb (λ r : overlap_row, bool_decide (r.1.1.1 = pat)) rows then rows
  else rows ++ [(pat, (pe_feature entry, pe_kind entry), i, try_u32 (length (split_whitespace pat)))].

Definition overlap_rows (patterns : list rstring) (entries : list PhraseEntry) : list overlap_row :=
  foldl overlap_push [] (imap pair (zip patterns entries)).

Section build.
Context {A : Type} `{Daachorse A}.

Definition build_phrase_overlap (patterns : list rstring) (entries : list PhraseEntry) :
  NormalizerError + option (PhraseOverlap A) :=
  match patterns with
  | [] => inr None
  | _ =>
      let rows := overlap_rows patterns entries in
      match da_build Standard ((λ r : overlap_row, r.1.1.1) <$> rows) with
      | Some a => inr (Some (mkPhraseOverlap a ((λ r : overlap_row, r.1.1.2) <$> rows) ((λ r : overlap_row, r.1.2) <$> rows)
                    ((λ r : overlap_row, r.2) <$> rows)))
      | None => inl AutomatonError
      end
  end.

(** [if !names.iter().any(|seen| seen == name) { names.push(name) }] *)
Definition push_name (names : list rstring) (e : rstring * FeatureKind) : list rstring :=
  if existsb (λ seen, bool_decide (seen = e.1)) names then names else names ++ [e.1].

(** [names] of a word: the token itself, then what the word emits alone. *)
Definition word_names (norm : Normalizer A) (w : rstring) : option (list rstring) :=
  emitted ← norm_emit norm Title false w;
  Some (foldl push_name [TERM ++ w] emitted).

Definition word_unit (norm : Normalizer A) (at_ : nat) (w : rstring) : option UnitSpec :=
  names ← word_names norm w; Some (mkUnitSpec at_ (at_ + 1) names).

(** A phrase of several of the words, short of the form itself. *)
Definition phrase_unit (starts : list nat) (n : nat) (occ : nat * N * rstring) : list UnitSpec :=
  let '(start, tokens, feature) := occ in
  match binary_search_by (λ s, Nat.compare s start) starts with
  | inl from =>
      let to := (from + usize tokens)%nat in
      if (2 <=? to - from)%nat && (to <=? n)%nat && (to - from <? n)%nat then [mkUnitSpec from to [feature]] else []
  | inr _ => []
  end.

Definition form_spec (norm : Normalizer A) (pattern entity : rstring) : option FormSpec :=
  let ws := split_on_space pattern in
  units ← mapM (λ x, word_unit norm x.1 x.2) (imap pair ws);
  phrases ← match phrase_overlap norm with
            | Some ov => occs ← occurrences ov pattern; Some (occs ≫= phrase_unit ((offsets 0 ws).*1) (length ws))
            | None => Some []
            end;
  Some (mkFormSpec entity (length ws) (units ++ phrases)).

Definition alias_patterns (patterns : list rstring) (entries : list PhraseEntry) : list (rstring * rstring) :=
  (λ x : rstring * PhraseEntry, (x.1, pe_feature x.2)) <$>
    List.filter (λ x : rstring * PhraseEntry, bool_decide (pe_mode x.2 = Alias)) (zip patterns entries).

Definition with_alias_words (aw : option AliasWords) (norm : Normalizer A) : Normalizer A :=
  mkNormalizer (automaton norm) (phrase_entries norm) (phrase_overlap norm) (has_multiword_aliases norm) aw (synonyms norm)
    (syn_index norm) (punct norm) (number_context norm) (norm_fingerprint norm).

Definition build (b : NormalizerBuilder) : option (NormalizerError + Normalizer A) :=
  b ← register_alias_phrases b;
  match da_build LeftmostLongest (phrase_patterns b) with
  | None => Some (inl AutomatonError)
  | Some automaton =>
      match build_phrase_overlap (phrase_patterns b) (b_entries b) with
      | inl e => Some (inl e)
      | inr phrase_overlap =>
          let norm := mkNormalizer automaton (b_entries b) phrase_overlap
            (existsb (λ e, bool_decide (pe_mode e = Alias)) (b_entries b)) None (b_synonyms b) (b_syn_index b) (b_punct b)
            (b_number_context b)
            (feature_model_fingerprint (phrase_patterns b) (b_entries b) (b_synonyms b) (b_punct b) (b_number_context b)) in
          forms ← mapM (λ x, form_spec norm x.1 x.2) (alias_patterns (phrase_patterns b) (b_entries b));
          aw ← alias_words_new forms;
          Some (inr (with_alias_words aw norm))
      end
  end.

End build.

(** ** What the builder keeps true *)

Record builder_wf (b : NormalizerBuilder) : Prop := {
  bw_entries : length (b_entries b) = length (phrase_patterns b);
  bw_synonyms tok si : b_syn_index b !! tok = Some si → ∃ canon kind, b_synonyms b !! si = Some (tok, canon, kind);
}.

Lemma builder_new_wf : builder_wf builder_new.
Proof. by split. Qed.

Lemma push_pattern_wf p e b : builder_wf b → builder_wf (push_pattern p e b).
Proof. intros [H1 H2]. split; simpl; [rewrite !length_app; simpl; lia|done]. Qed.

Lemma add_phrase_inner_wf tokens feature kind mode b : builder_wf b → builder_wf (add_phrase_inner tokens feature kind mode b).
Proof. apply push_pattern_wf. Qed.

Lemma add_alias_form_wf form b : builder_wf b → builder_wf (add_alias_form form b).
Proof. by intros [H1 H2]. Qed.

Lemma add_synonym_wf token canon kind b : builder_wf b → builder_wf (add_synonym token canon kind b).
Proof.
  intros [H1 H2]. unfold add_synonym. destruct (b_syn_index b !! token) eqn:E; [by split|]. split; simpl; [done|].
  intros tok si. rewrite lookup_insert_Some. intros [[<- <-]|[_ Hs]].
  - exists canon, kind. by apply list_lookup_middle.
  - destruct (H2 tok si Hs) as (c & k & Hc). exists c, k. by apply lookup_app_l_Some.
Qed.

Lemma set_punct_class_wf c class b : builder_wf b → builder_wf (set_punct_class c class b).
Proof. by intros [H1 H2]. Qed.

Create HintDb builder.
#[export] Hint Resolve builder_new_wf push_pattern_wf add_phrase_inner_wf add_alias_form_wf add_synonym_wf set_punct_class_wf : builder.

(** A builder with the same punctuation, synonyms and number context, and at least the patterns. *)
Record builder_ext (b b' : NormalizerBuilder) : Prop := {
  be_punct : b_punct b' = b_punct b;
  be_synonyms : b_synonyms b' = b_synonyms b;
  be_patterns : phrase_patterns b `prefix_of` phrase_patterns b';
  be_alias i : (e ← b_entries b !! i; Some (pe_mode e)) = Some Alias → (e ← b_entries b' !! i; Some (pe_mode e)) = Some Alias;
  be_phrases : tame (b_punct b) → Forall phrase_pattern (phrase_patterns b) → Forall phrase_pattern (phrase_patterns b');
}.

#[export] Instance builder_ext_refl : Reflexive builder_ext.
Proof. by split. Qed.
#[export] Instance builder_ext_trans : Transitive builder_ext.
Proof.
  intros b1 b2 b3 [H1 H2 H3 H4 H5] [K1 K2 K3 K4 K5]. split; try congruence; [by etrans|eauto|].
  intros Ht Hp. apply K5; [by rewrite H1|auto].
Qed.

Lemma alias_form_pattern t form :
  tame t → (2 ≤ length (alias_form_tokens t form))%nat → phrase_pattern (joined (alias_form_tokens t form)).
Proof.
  intros Ht Hl. exists (alias_form_tokens t form). split_and!; [by intros E; rewrite E in Hl; simpl in Hl; lia| |done].
  rewrite alias_form_tokens_words by done. destruct (clean_with_joined t form) as (_ & _ & _ & _ & ->). apply words_word.
Qed.

(** The tokens of a form are one of the patterns, in alias mode. *)
Definition registered (b : NormalizerBuilder) (toks : list rstring) : Prop :=
  ∃ i e, phrase_patterns b !! i = Some (joined toks) ∧ b_entries b !! i = Some e ∧ pe_mode e = Alias.

Lemma registered_ext b b' toks : builder_wf b' → builder_ext b b' → registered b toks → registered b' toks.
Proof.
  intros Hw [_ _ Hp Ha _] (i & e & Hi & He & Hm). specialize (Ha i). rewrite He in Ha. simpl in Ha.
  rewrite Hm in Ha. specialize (Ha eq_refl). destruct (b_entries b' !! i) as [e'|] eqn:E'; simpl in Ha; [|done]. simplify_eq.
  exists i, e'. split_and!; [by eapply prefix_lookup_Some|done|done].
Qed.

Lemma register_form_spec b form :
  builder_wf b →
  ∃ b', register_form b form = Some b' ∧ builder_wf b' ∧ builder_ext b b' ∧
    let toks := alias_form_tokens (b_punct b) form in ((2 ≤ length toks)%nat → registered b' toks).
Proof.
  intros Hw. unfold register_form. set (toks := alias_form_tokens (b_punct b) form). cbv zeta.
  destruct (Nat.ltb_spec (length toks) 2) as [Hlt|Hge]; [exists b; split_and!; try done; lia|].
  destruct (list_find _ _) as [[i p]|] eqn:Ef.
  - apply list_find_Some in Ef as (Hi & -> & _). pose proof (lookup_lt_Some _ _ _ Hi) as Hlt.
    destruct (lookup_lt_is_Some_2 (b_entries b) i) as [e He]; [rewrite (bw_entries _ Hw); done|]. rewrite He. simpl.
    eexists. split; [done|]. split_and!.
    + destruct Hw as [H1 H2]. split; simpl; [by rewrite length_insert|done].
    + split; simpl; try done. intros j. destruct (decide (i = j)) as [<-|Hne];
        [rewrite list_lookup_insert_eq by (by eapply lookup_lt_Some); done|by rewrite list_lookup_insert_ne].
    + intros _. exists i, (set_alias e). simpl. split_and!; [done|rewrite list_lookup_insert_eq by (by eapply lookup_lt_Some); done|done].
  - clear Ef. eexists. split; [done|]. split_and!; [by apply push_pattern_wf| |].
    + split; simpl; try done; [by eexists| |].
      * intros j Hj. destruct (b_entries b !! j) as [e|] eqn:E; [|done]. by rewrite (lookup_app_l_Some _ _ _ _ E).
      * intros Ht Hp. apply Forall_app. split; [done|]. constructor; [|done]. by apply alias_form_pattern.
    + intros _. exists (length (phrase_patterns b)), (alias_entry toks). simpl. rewrite <-(bw_entries _ Hw) at 2.
      split_and!; [by apply list_lookup_middle|by apply list_lookup_middle|done].
Qed.

Lemma register_alias_phrases_spec b :
  builder_wf b →
  ∃ b', register_alias_phrases b = Some b' ∧ builder_wf b' ∧ builder_ext b b' ∧
    ∀ form, form ∈ alias_forms b → let toks := alias_form_tokens (b_punct b) form in (2 ≤ length toks)%nat → registered b' toks.
Proof.
  intros Hw. unfold register_alias_phrases.
  destruct (foldM_invariant register_form (λ dn b', builder_wf b' ∧ builder_ext b b' ∧
    ∀ form, form ∈ dn → (2 ≤ length (alias_form_tokens (b_punct b) form))%nat → registered b' (alias_form_tokens (b_punct b) form))
    (alias_forms b) (take_forms b)) as (b' & -> & Hw' & He & Hr).
  - destruct Hw. split_and!; [by split|by split|by intros ? ?%not_elem_of_nil].
  - intros dn b1 form _ (Hw1 & He1 & Hr1). destruct (register_form_spec b1 form Hw1) as (b2 & E & Hw2 & He2 & Hr2).
    exists b2. split; [done|]. split_and!; [done|by etrans|]. intros f [Hf| ->%list_elem_of_singleton]%elem_of_app Hl.
    + eapply registered_ext; [done|done|by apply Hr1].
    + rewrite (be_punct _ _ He1) in Hr2. by apply Hr2.
  - exists b'. by split_and!.
Qed.

(** ** The overlap tables *)

Definition overlap_of (x : nat * (rstring * PhraseEntry)) : overlap_row :=
  (x.2.1, (pe_feature x.2.2, pe_kind x.2.2), x.1, try_u32 (length (split_whitespace x.2.1))).

Lemma overlap_push_all l rows :
  NoDup ((λ r : overlap_row, r.1.1.1) <$> rows ++ (overlap_of <$> l)) →
  foldl overlap_push rows l = rows ++ (overlap_of <$> l).
Proof.
  revert rows. induction l as [|[i [p e]] l IH]; intros rows Hnd; simpl; [by rewrite app_nil_r|].
  destruct (existsb _ rows) eqn:Ee.
  { exfalso. apply existsb_elem in Ee as (r & Hr & Er%bool_decide_eq_true). rewrite fmap_app in Hnd.
    apply NoDup_app in Hnd as (_ & Hdisj & _). apply (Hdisj p); [apply list_elem_of_fmap; by exists r|]. simpl. by left. }
  rewrite IH by (rewrite <-app_assoc; exact Hnd). by rewrite <-app_assoc.
Qed.

Lemma overlap_rows_nodup patterns entries :
  NoDup patterns → length entries = length patterns → overlap_rows patterns entries = overlap_of <$> imap pair (zip patterns entries).
Proof.
  intros Hnd Hl. unfold overlap_rows. apply overlap_push_all. simpl. rewrite <-list_fmap_compose.
  assert ((λ r : overlap_row, r.1.1.1) ∘ overlap_of <$> imap pair (zip patterns entries) = patterns) as ->; [|done].
  rewrite fmap_imap. apply list_eq. intros i. rewrite list_lookup_imap. rewrite lookup_zip_with.
  destruct (patterns !! i) as [p|] eqn:Ep; simpl; [|done].
  destruct (lookup_lt_is_Some_2 entries i) as [e ->]; [rewrite Hl; by eapply lookup_lt_Some|]. done.
Qed.

Section overlap_columns.
Context (patterns : list rstring) (entries : list PhraseEntry) (Hl : length entries = length patterns).

Lemma overlap_column {B} (f : overlap_row → B) (g : nat → rstring → PhraseEntry → B) (l : list B) :
  (∀ x, f (overlap_of x) = g x.1 x.2.1 x.2.2) → length l = length patterns →
  (∀ i p e, patterns !! i = Some p → entries !! i = Some e → l !! i = Some (g i p e)) →
  f <$> (overlap_of <$> imap pair (zip patterns entries)) = l.
Proof using Hl.
  intros Hf Hlen Hg. rewrite <-list_fmap_compose, fmap_imap. apply list_eq. intros i.
  rewrite list_lookup_imap. rewrite lookup_zip_with.
  destruct (patterns !! i) as [p|] eqn:Ep; simpl.
  - destruct (lookup_lt_is_Some_2 entries i) as [e Ee]; [rewrite Hl; by eapply lookup_lt_Some|]. rewrite Ee. simpl.
    rewrite (Hg i p e Ep Ee). f_equal. exact (Hf (i, (p, e))).
  - symmetry. apply lookup_ge_None_2. rewrite Hlen. by apply lookup_ge_None_1.
Qed.

End overlap_columns.

Section build_lemmas.
Context {A : Type} `{DaachorseLaws A}.

(** The tables the overlap automaton gets are those of the patterns themselves. *)
Lemma build_phrase_overlap_spec patterns entries ov :
  NoDup patterns → length entries = length patterns → build_phrase_overlap (A:=A) patterns entries = inr ov →
  match ov with
  | None => patterns = []
  | Some ov =>
      da_build Standard patterns = Some (ov_automaton ov) ∧ entry_idx ov = seq 0 (length patterns) ∧
      ov_entries ov = (λ e, (pe_feature e, pe_kind e)) <$> entries ∧
      token_lens ov = (λ p, try_u32 (length (split_whitespace p))) <$> patterns
  end.
Proof.
  intros Hnd Hl. unfold build_phrase_overlap. destruct patterns as [|p0 ps] eqn:Ep; [by intros [= <-]|]. rewrite <-Ep in *.
  rewrite overlap_rows_nodup by done.
  rewrite (overlap_column patterns entries Hl (λ r : overlap_row, r.1.1.1) (λ _ p _, p) patterns) by naive_solver.
  destruct (da_build Standard patterns) as [a|]; [|done]. intros [= <-]. simpl. split; [done|]. split_and!.
  - apply (overlap_column patterns entries Hl _ (λ i _ _, i)); [done|by rewrite length_seq|].
    intros i p e Hp _. apply lookup_seq. split; [done|by eapply lookup_lt_Some].
  - apply (overlap_column patterns entries Hl _ (λ _ _ e, (pe_feature e, pe_kind e))); [done|by rewrite length_fmap|].
    intros i p e _ He. by rewrite list_lookup_fmap, He.
  - apply (overlap_column patterns entries Hl _ (λ _ p _, try_u32 (length (split_whitespace p)))); [done|by rewrite length_fmap|].
    intros i p e Hp _. by rewrite list_lookup_fmap, Hp.
Qed.

Lemma with_alias_words_wf aw (norm : Normalizer A) ps : norm_wf norm ps → norm_wf (with_alias_words aw norm) ps.
Proof. by intros []. Qed.

Lemma norm_emit_total (norm : Normalizer A) ps sd force text : norm_wf norm ps → is_Some (norm_emit norm sd force text).
Proof.
  intros Hn. unfold norm_emit. destruct (norm_emit_positioned_spec norm ps Hn (mode_flat sd force) text) as (out & -> & _). by eexists.
Qed.

Lemma occurrences_total (norm : Normalizer A) ps ov text :
  norm_wf norm ps → phrase_overlap norm = Some ov → is_Some (occurrences ov text).
Proof.
  intros Hn Hov. pose proof (nw_overlap _ _ Hn) as Ho. rewrite Hov in Ho. destruct Ho as (Hb & _ & He & Ht).
  apply mapM_is_Some_2, Forall_forall. intros m Hm. apply (aligned_matches_spec ps) in Hm as [_ (p & Hp & _)]; [|done].
  apply lookup_lt_Some in Hp as Hlt. unfold compose. rewrite Ht, list_lookup_fmap, Hp. simpl.
  rewrite He, list_lookup_fmap. destruct (lookup_lt_is_Some_2 (phrase_entries norm) (m_value m)) as [e ->];
    [rewrite (nw_entries _ _ Hn); done|]. by eexists.
Qed.

Lemma push_names_keep names l x : x ∈ names → x ∈ foldl push_name names l.
Proof.
  revert names. induction l as [|e l IH]; intros names Hin; simpl; [done|]. apply IH. unfold push_name.
  case_match; [done|]. apply elem_of_app. by left.
Qed.

(** The pieces of a form: a unit per word with the word's own term among its names. *)
Lemma form_spec_total (norm : Normalizer A) ps pattern entity :
  norm_wf norm ps →
  ∃ units phrases, form_spec norm pattern entity =
      Some (mkFormSpec entity (length (split_on_space pattern)) (units ++ phrases)) ∧
    ∀ i w, split_on_space pattern !! i = Some w →
      ∃ u, units !! i = Some u ∧ us_from u = i ∧ us_to u = S i ∧ TERM ++ w ∈ us_names u.
Proof.
  intros Hn. unfold form_spec. set (ws := split_on_space pattern).
  destruct (mapM_is_Some_2 (λ x, word_unit norm x.1 x.2) (imap pair ws)) as [units Hu].
  { apply Forall_forall. intros [i w] _. unfold compose, word_unit, word_names. simpl.
    destruct (norm_emit_total norm ps Title false w Hn) as [l ->]. by eexists. }
  rewrite Hu. cbn [mbind option_bind].
  assert (∃ phrases, match phrase_overlap norm with
    | Some ov => occs ← occurrences ov pattern; Some (occs ≫= phrase_unit (offsets 0 ws).*1 (length ws))
    | None => Some [] end = Some phrases) as [phrases ->].
  { destruct (phrase_overlap norm) as [ov|] eqn:Eo; [|by eexists].
    destruct (occurrences_total norm ps ov pattern Hn Eo) as [l ->]. by eexists. }
  exists units, phrases. split; [done|]. intros i w Hw. apply mapM_Some in Hu.
  assert (imap pair ws !! i = Some (i, w)) as Hi by by rewrite list_lookup_imap, Hw.
  destruct (Forall2_lookup_l _ _ _ _ _ Hu Hi) as (u & Hui & E). exists u. split; [done|].
  unfold word_unit, word_names in E. cbn [fst snd] in E. destruct (norm_emit norm Title false w) as [l|]; [|done].
  cbn [mbind option_bind] in E. injection E as <-. cbn [us_from us_to us_names]. split_and!; [done|lia|]. apply push_names_keep. by left.
Qed.

Lemma split_spaces_word cur w rest :
  Forall (λ c, is_space c = false) w → split_spaces_from cur (w ++ rest) = split_spaces_from (cur ++ w) rest.
Proof.
  revert cur. induction w as [|c w IH]; intros cur; [by rewrite app_nil_r|]. rewrite Forall_cons. intros [Hc Hw]. simpl.
  unfold is_space in Hc. rewrite Hc, IH by done. by rewrite <-app_assoc.
Qed.

Lemma split_on_space_joined ws : ws ≠ [] → Forall word ws → split_on_space (joined ws) = ws.
Proof.
  unfold split_on_space. intros Hne. induction ws as [|w ws IH]; [done|]. rewrite Forall_cons. intros [[_ Hw] Hws].
  destruct (decide (ws = [])) as [->|Hne'].
  - unfold joined. simpl. by rewrite <-(app_nil_r w) at 1; rewrite split_spaces_word.
  - rewrite joined_cons, split_spaces_word by done. simpl. by rewrite IH.
Qed.

(** A view with the term of every word of a form carries the form. *)
Lemma form_carried (norm : Normalizer A) ps ws entity :
  norm_wf norm ps → ws ≠ [] → Forall word ws → N.of_nat (length ws) < 2 ^ 32 →
  ∃ spec form, form_spec norm (joined ws) entity = Some spec ∧ form_of_spec spec = Some form ∧ f_entity form = entity ∧
    ∀ V : N → Prop, (∀ w, w ∈ ws → V (name_hash (TERM ++ w))) → carries V form.
Proof.
  intros Hn Hne Hws Hlen. destruct (form_spec_total norm ps (joined ws) entity Hn) as (units & phrases & E & Hu).
  rewrite split_on_space_joined in E, Hu by done. exists (mkFormSpec entity (length ws) (units ++ phrases)). rewrite E. unfold form_of_spec. cbn [fs_len fs_units fs_entity].
  assert (0 < length ws)%nat as Hpos by (destruct ws; [done|simpl; lia]). destruct (Nat.ltb_spec 0 (length ws)); [|lia].
  set (kept := List.filter _ _). destruct (mapM_is_Some_2 unit_of_spec kept) as [us Hus].
  { apply Forall_forall. intros u [[Hlt%Nat.ltb_lt Hle%Nat.leb_le]%andb_true_iff _]%elem_of_list_filter_bool.
    unfold compose, unit_of_spec, checked_u32. rewrite !(proj2 (N.ltb_lt _ _)) by lia. by eexists. }
  rewrite Hus. cbn [mbind option_bind]. unfold checked_u32 at 1. rewrite (proj2 (N.ltb_lt _ _)) by lia. cbn [mbind option_bind].
  eexists. split; [done|]. split; [done|]. split; [done|]. intros V HV. unfold carries. cbn [f_units f_len].
  assert (∀ i, (i ≤ length ws)%nat → AliasWords.reaches (merge_sort unit_le us) V (N.of_nat i)) as Hreach; [|by apply Hreach].
  induction i as [|i IH]; intros Hi; [constructor|]. destruct (lookup_lt_is_Some_2 ws i) as [w Hw]; [lia|].
  destruct (Hu i w Hw) as (u & Hui & Hf & Ht & Hnm). assert (u ∈ kept) as Hk.
  { apply elem_of_list_filter_bool. rewrite Hf, Ht. split; [|apply elem_of_app; left; by eapply list_elem_of_lookup_2].
    apply andb_true_iff. split; [apply Nat.ltb_lt|apply Nat.leb_le]; lia. }
  apply list_elem_of_lookup in Hk as [k Hk]. apply mapM_Some in Hus. destruct (Forall2_lookup_l _ _ _ _ _ Hus Hk) as (fu & Hfu & Eu).
  unfold unit_of_spec, checked_u32 in Eu. rewrite Hf, Ht, !(proj2 (N.ltb_lt _ _)) in Eu by lia. cbn [mbind option_bind] in Eu. injection Eu as <-.
  change (N.of_nat (S i)) with (u_to (mkFormUnit (N.of_nat i) (N.of_nat (S i)) (sort_dedup (name_hash <$> us_names u)))).
  apply (reaches_unit _ _ _ (name_hash (TERM ++ w))); cbn [u_from u_names].
  - rewrite (merge_sort_Permutation unit_le us). by eapply list_elem_of_lookup_2.
  - apply elem_of_sort_dedup, list_elem_of_fmap_2, Hnm.
  - apply HV. by eapply list_elem_of_lookup_2.
  - apply IH. lia.
Qed.

(** The alias forms' pieces are few enough to be noted one by one. *)
Definition forms_small (norm : Normalizer A) (pats : list (rstring * rstring)) : Prop :=
  ∀ pe spec, pe ∈ pats → form_spec norm pe.1 pe.2 = Some spec → N.of_nat (length (fs_units spec)) ≤ 2 ^ 32.

(** The normalizer a build returns, before its alias index. *)
Definition bare (norm : Normalizer A) : Normalizer A := with_alias_words None norm.

Lemma build_inv b norm :
  builder_wf b → build b = Some (inr norm) →
  ∃ b' specs, register_alias_phrases b = Some b' ∧ norm_wf norm (phrase_patterns b') ∧
    phrase_entries norm = b_entries b' ∧ punct norm = b_punct b ∧
    mapM (λ x, form_spec (bare norm) x.1 x.2) (alias_patterns (phrase_patterns b') (b_entries b')) = Some specs ∧
    alias_words_new specs = Some (alias_words norm).
Proof.
  intros Hw. unfold build. destruct (register_alias_phrases_spec b Hw) as (b' & -> & Hw' & He & _). cbn [mbind option_bind].
  destruct (da_build LeftmostLongest (phrase_patterns b')) as [a|] eqn:Ea; [|done].
  destruct (da_build_patterns _ _ _ Ea) as [Hnd _].
  destruct (build_phrase_overlap _ _) as [e|ov] eqn:Eo; [done|].
  apply (build_phrase_overlap_spec _ _ _ Hnd (bw_entries _ Hw')) in Eo.
  set (norm0 := mkNormalizer _ _ _ _ _ _ _ _ _ _).
  destruct (mapM _ _) as [specs|] eqn:Es; simpl; [|done]. destruct (alias_words_new specs) as [aw|] eqn:Eaw; simpl; [|done]. intros [= <-].
  assert (norm_wf norm0 (phrase_patterns b')) as Hn0.
  { split; simpl; [done|by apply bw_entries|done|done|by apply bw_synonyms]. }
  exists b', specs. split; [done|]. split; [by apply with_alias_words_wf|]. split_and!; [done|by apply be_punct|done|done].
Qed.

End build_lemmas.

(** ** An alias form compiles to its entity *)

Section alias_form.
Context {A : Type} `{DaachorseLaws A}.

Lemma holder_whole lc i t :
  t ∈ tokenize lc → (∃ text tb, lc = clean_with tb text) → let m := mkMatch 0 (length (joined (words lc))) i in holder [m] t = Some (O, m).
Proof.
  intros Ht (text & tb & ->) m. destruct (clean_with_joined tb text) as (trail & _ & _ & Etok & _). rewrite Etok in Ht.
  apply offsets_bounds in Ht as [_ Ht]. unfold holder. simpl. rewrite decide_True; [done|].
  unfold inside, m. simpl. by apply Nat.leb_le.
Qed.

(** The phrase entry registered for a form, and what the form's text emits. *)
Lemma alias_form_entity b (norm : Normalizer A) form :
  builder_wf b → tame (b_punct b) → Forall phrase_pattern (phrase_patterns b) → build b = Some (inr norm) →
  form ∈ alias_forms b → (2 ≤ length (text_tokens (b_punct b) form))%nat →
  ∃ b' i entry, register_alias_phrases b = Some b' ∧ norm_wf norm (phrase_patterns b') ∧
    phrase_patterns b' !! i = Some (joined (text_tokens (b_punct b) form)) ∧
    phrase_entries norm !! i = Some entry ∧ pe_mode entry = Alias ∧
    ∀ name, name ∈ (@emit (normalizer_analyzer norm) Query false form).*1 ↔ name = pe_feature entry.
Proof.
  intros Hw Ht Hpat Hb Hform Hlen. destruct (build_inv b norm Hw Hb) as (b' & specs & Hreg & Hn & Hent & Hpunct & _).
  destruct (register_alias_phrases_spec b Hw) as (b1 & E1 & Hw1 & Hext & Hr). rewrite Hreg in E1. injection E1 as <-.
  destruct (Hr form Hform) as (i & entry & Hi & He & Hm); [by rewrite alias_form_tokens_words|].
  rewrite <-Hent in He. rewrite alias_form_tokens_words in Hi by done. exists b', i, entry. split_and!; [done..|].
  pose proof (be_phrases _ _ Hext Ht Hpat) as Hps. set (lc := clean_with (punct norm) form).
  assert (text_tokens (b_punct b) form = words lc) as Etoks.
  { unfold lc. rewrite Hpunct. by destruct (clean_with_joined (b_punct b) form) as (_ & _ & _ & _ & ->). }
  assert (tokenize lc = offsets 0 (words lc)) as Etok by by destruct (clean_with_joined (punct norm) form) as (_ & _ & _ & ? & _).
  assert (words lc ≠ []) as Hne by (rewrite <-Etoks; intros E; rewrite E in Hlen; simpl in Hlen; lia).
  rewrite Etoks in Hi. pose proof (whole_phrase norm _ Hn form i Hps Hne Hi) as Hsel. fold lc in Hsel. set (m := mkMatch 0 _ i) in Hsel.
  assert (∀ t, t ∈ tokenize lc → holder [m] t = Some (O, m)) as Hh by (intros t Ht'; apply (holder_whole lc i t Ht'); by exists form, (punct norm)).
  pose proof (emit_names norm _ Hn Query false form) as Hem. cbv zeta in Hem. fold lc in Hem. rewrite Hsel in Hem.
  intros name. rewrite Hem. split.
  - intros (k & s & e & [(ti & t & pi & m' & en & Htk & Hho & He' & _ & [= -> _ _ _])|(j & Hc & Hte)]).
    + rewrite (Hh t) in Hho by (by eapply list_elem_of_lookup_2). injection Hho as <- <-. cbn [m_value m] in He'. rewrite He in He'. by injection He' as <-.
    + destruct Hc. apply token_emits_span in Hte as (Hj & _). destruct (lookup_lt_is_Some_2 _ _ Hj) as [t Htk].
      exists t, O, m, entry. split_and!; [done|apply Hh; by eapply list_elem_of_lookup_2|done|]. unfold consumes. by rewrite Hm.
  - intros ->. destruct (words lc) as [|w ws] eqn:Ews; [done|]. cbn [offsets] in Etok.
    eexists _, _, _. left. exists O, (O, (0 + length w)%nat), O, m, entry.
    split_and!; [by rewrite Etok|apply Hh; rewrite Etok; by left|done|intros (tj & ? & ? & ? & _); lia|done].
Qed.

Lemma sort_dedup_single (f : N) (l : list N) : (∀ g, g ∈ l ↔ g = f) → sort_dedup l = [f].
Proof. intros Hl. change [f] with (sort_dedup [f]). apply sort_dedup_ext. intros g. by rewrite Hl, list_elem_of_singleton. Qed.

Lemma alias_form_features b (norm : Normalizer A) form d :
  builder_wf b → tame (b_punct b) → Forall phrase_pattern (phrase_patterns b) → build b = Some (inr norm) →
  form ∈ alias_forms b → (2 ≤ length (text_tokens (b_punct b) form))%nat →
  ∃ b' i entry, register_alias_phrases b = Some b' ∧ norm_wf norm (phrase_patterns b') ∧
    phrase_patterns b' !! i = Some (joined (text_tokens (b_punct b) form)) ∧
    phrase_entries norm !! i = Some entry ∧ pe_mode entry = Alias ∧
    @compile_features_readonly (normalizer_analyzer norm) form d = [get_or_synthetic d (pe_feature entry)].
Proof.
  intros Hw Ht Hpat Hb Hform Hlen.
  destruct (alias_form_entity b norm form Hw Ht Hpat Hb Hform Hlen) as (b' & i & entry & Hreg & Hn & Hi & He & Hm & Hnames).
  exists b', i, entry. split_and!; [done..|]. apply sort_dedup_single. intros f. rewrite list_elem_of_fmap. setoid_rewrite Hnames. naive_solver.
Qed.

End alias_form.

(** ** A vocabulary with a collapsing phrase, a synonym and two alias forms *)

Definition demo_builder : NormalizerBuilder :=
  add_alias_form (str "New York, City") (add_alias_form (str "wireless mouse pad")
    (add_synonym (str "tee") (str "term:shirt") Generic
      (add_phrase [str "wireless"; str "mouse"] (str "entity:wireless_mouse") Entity builder_new))).

Definition demo_norm : Normalizer (list rstring) :=
  match build demo_builder with
  | Some (inr norm) => norm
  | _ => mkNormalizer [] [] None false None [] ∅ punct_default [] 0
  end.

Lemma demo_build : build demo_builder = Some (inr demo_norm).
Proof. by vm_compute. Qed.

Lemma demo_builder_wf : builder_wf demo_builder.
Proof. unfold demo_builder, add_phrase. auto 10 with builder. Qed.

Definition demo_patterns : list rstring := [str "wireless mouse"; str "wireless mouse pad"; str "new york city"].

Lemma demo_norm_wf : norm_wf demo_norm demo_patterns.
Proof.
  destruct (build_inv demo_builder demo_norm demo_builder_wf demo_build) as (b' & specs & Hreg & Hn & _).
  assert (phrase_patterns <$> register_alias_phrases demo_builder = Some demo_patterns) as E by by vm_compute.
  rewrite Hreg in E. apply (inj Some) in E. by rewrite E in Hn.
Qed.

Lemma word_dec w : w ≠ [] → forallb (λ c, negb (is_space c)) w = true → word w.
Proof. intros Hne Hall. split; [done|]. apply Forall_forall. intros c Hc. rewrite forallb_elem in Hall. specialize (Hall c Hc). by destruct (is_space c). Qed.

Lemma demo_patterns_ok : Forall phrase_pattern demo_patterns.
Proof.
  repeat constructor; [exists [str "wireless"; str "mouse"]|exists [str "wireless"; str "mouse"; str "pad"]|
    exists [str "new"; str "york"; str "city"]]; (split_and!; [done| |done]); repeat constructor; by apply word_dec.
Qed.

Lemma phrase_selection_exact_witness :
  let lc := clean_with (punct demo_norm) (str "new york -- city cityscape") in
  ∃ l, (∀ retain, phrase_matches demo_norm retain lc = Some l) ∧ leftmost_longest (tokens_at demo_patterns lc) 0 l.
Proof.
  apply (phrase_selection_exact demo_norm demo_patterns demo_norm_wf (str "new york -- city cityscape")). apply demo_patterns_ok.
Defined.
