(* ===== verification/Compile.v ===== *)
(** * The compiled query ([engine/src/compile.rs])

    The integer form [Extracted] of a query, its direct semantics
    [matches_positioned], canonicalization, learned-equivalence expansion, the
    column-overflow guard, and the signature-plan types. *)

From Stdlib Require Import Btauto.
From S2P Require Import Prelude Dictionary Phrase.

Inductive CostClass := ClassA | ClassB | ClassC | ClassD | ClassH.

#[export] Instance CostClass_eq_dec : EqDecision CostClass.
Proof. solve_decision. Defined.

Definition is_opt_in (c : CostClass) : bool :=
  match c with ClassC | ClassD => true | _ => false end.

Record AnyOfMember := mkAnyOfMember { requirements : list (list N) }.
Record AnyOfPredicate := mkAnyOfPredicate { members : list AnyOfMember }.

#[export] Instance AnyOfMember_eq_dec : EqDecision AnyOfMember.
Proof. solve_decision. Defined.
#[export] Instance AnyOfPredicate_eq_dec : EqDecision AnyOfPredicate.
Proof. solve_decision. Defined.

#[export] Instance AnyOfMember_ord : RustOrd AnyOfMember := λ a b, rcmp (requirements a) (requirements b).
#[export] Instance AnyOfPredicate_ord : RustOrd AnyOfPredicate := λ a b, rcmp (members a) (members b).

#[export] Instance AnyOfMember_ord_laws : RustOrdLaws AnyOfMember.
Proof. apply (ord_laws_via requirements); [|done]. by intros [] [] ?; simpl in *; subst. Qed.
#[export] Instance AnyOfPredicate_ord_laws : RustOrdLaws AnyOfPredicate.
Proof. apply (ord_laws_via members); [|done]. by intros [] [] ?; simpl in *; subst. Qed.

(** [Vec::retain(|x| !x.is_empty())]. *)
Definition nonempty {A} (l : list A) : bool := match l with [] => false | _ => true end.

#[global] Arguments nonempty : simpl never.

Definition member_from_features (features : list N) : option AnyOfMember :=
  let features := sort_dedup features in
  if nonempty features then Some (mkAnyOfMember ((λ f, [f]) <$> features)) else None.

Definition member_canonicalize (m : AnyOfMember) : AnyOfMember :=
  mkAnyOfMember (sort_dedup (List.filter nonempty (sort_dedup <$> requirements m))).

Definition predicate_canonicalize (p : AnyOfPredicate) : AnyOfPredicate :=
  mkAnyOfPredicate
    (sort_dedup (List.filter (λ m, nonempty (requirements m)) (member_canonicalize <$> members p))).

Record Extracted := mkExtracted {
  required : list N;
  forbidden : list N;
  anyof : list (list N);
  semantic_anyof_groups : N;
  semantic_anyof_terms : N;
  anyof_predicates : list AnyOfPredicate;
  forbidden_conjunctions : list (list N);
  required_phrases : list PhraseGraph;
  forbidden_phrases : list PhraseGraph;
}.

Definition extracted_default : Extracted := mkExtracted [] [] [] 0 0 [] [] [] [].

Definition has_negative_predicate (ex : Extracted) : bool :=
  nonempty (forbidden ex) || nonempty (forbidden_conjunctions ex) || nonempty (forbidden_phrases ex).

Definition is_semantically_empty (ex : Extracted) : bool :=
  negb (nonempty (required ex)) && negb (nonempty (anyof ex)) && negb (nonempty (anyof_predicates ex)) &&
  negb (nonempty (required_phrases ex)) && negb (has_negative_predicate ex).

(** [member.requirements.iter().all(|r| r.iter().any(in_pos))]. *)
Definition member_matches (in_pos : N → bool) (m : AnyOfMember) : bool :=
  forallb (existsb in_pos) (requirements m).
Definition predicate_matches (in_pos : N → bool) (p : AnyOfPredicate) : bool :=
  existsb (member_matches in_pos) (members p).

(** The flat predicate over two membership tests. *)
Definition flat_matches (in_pos in_neg : N → bool) (ex : Extracted) : bool :=
  forallb in_pos (required ex) &&
  negb (existsb in_neg (forbidden ex)) &&
  forallb (existsb in_pos) (anyof ex) &&
  forallb (predicate_matches in_pos) (anyof_predicates ex) &&
  negb (existsb (forallb in_neg) (forbidden_conjunctions ex)).

Definition matches_flat_features (ex : Extracted) (pos neg : list N) : bool :=
  flat_matches (λ f, bsearch_mem f pos) (λ f, bsearch_mem f neg) ex.

Definition matches_features (ex : Extracted) (pos neg : list N) : bool :=
  negb (nonempty (required_phrases ex)) && negb (nonempty (forbidden_phrases ex)) &&
  matches_flat_features ex pos neg.

(** A search that ran out of fuel would be [None]; by [bounded_total] it never is. *)
Definition phrase_verdict (phrase : PhraseGraph) (tp : N) (title : list PositionArc) (complete : bool) :
  option bool :=
  mjoin (phrase_graph_matches_bounded phrase tp title complete).

Definition matches_positioned (ex : Extracted) (pos neg : list N) (pos_positions : N)
  (pos_arcs : list PositionArc) (pos_graph_complete : bool) (neg_positions : N)
  (neg_arcs : list PositionArc) : bool :=
  matches_flat_features ex pos neg &&
  forallb (λ phrase, bool_decide
     (phrase_verdict phrase pos_positions pos_arcs pos_graph_complete ≠ Some false)) (required_phrases ex) &&
  negb (existsb (λ phrase, bool_decide
     (phrase_verdict phrase neg_positions neg_arcs true = Some true)) (forbidden_phrases ex)).

(** ** Canonicalization *)

Definition arc_ok (pos : N) (a : PhraseArc) : bool :=
  (ph_start a <? ph_end a) && (ph_end a <=? pos) && nonempty (alternatives a).

Definition phrase_canonicalize (g : PhraseGraph) : PhraseGraph :=
  mkPhraseGraph (positions g)
    (sort_dedup (List.filter (arc_ok (positions g))
       ((λ a, mkPhraseArc (ph_start a) (ph_end a) (sort_dedup (alternatives a))) <$> arcs g))).

Definition phrase_nonempty (g : PhraseGraph) : bool := negb (positions g =? 0) && nonempty (arcs g).

Definition canonicalize_phrases (phrases : list PhraseGraph) : list PhraseGraph :=
  sort_dedup (List.filter phrase_nonempty (phrase_canonicalize <$> phrases)).

Definition canonicalize (ex : Extracted) : Extracted :=
  mkExtracted (sort_dedup (required ex)) (sort_dedup (forbidden ex)) (sort_dedup (anyof ex))
    (semantic_anyof_groups ex) (semantic_anyof_terms ex)
    (sort_dedup (List.filter (λ p, nonempty (members p)) (predicate_canonicalize <$> anyof_predicates ex)))
    (sort_dedup (List.filter nonempty (sort_dedup <$> forbidden_conjunctions ex)))
    (canonicalize_phrases (required_phrases ex)) (canonicalize_phrases (forbidden_phrases ex)).

(** ** Equivalence expansion *)

(** [for &m in g { match equiv.get(&m) { .. } }] followed by sort and dedup. *)
Definition widen (equiv : EquivMap) (g : list N) : list N :=
  sort_dedup (g ≫= λ m, match equiv !! m with Some group => group | None => [m] end).

(** The loop over [required]: the groups pushed, their saturating count, and
    the features that stay required. *)
Fixpoint split_required (equiv : EquivMap) (req : list N) (groups : list (list N)) (added : N) (still : list N) :
  list (list N) * N * list N :=
  match req with
  | [] => (groups, added, still)
  | f :: req' =>
      match equiv !! f with
      | Some group => split_required equiv req' (groups ++ [group]) (sat_add 32 added 1) still
      | None => split_required equiv req' groups added (still ++ [f])
      end
  end.

Definition widen_member (equiv : EquivMap) (m : AnyOfMember) : AnyOfMember :=
  mkAnyOfMember (widen equiv <$> requirements m).
Definition widen_predicate (equiv : EquivMap) (p : AnyOfPredicate) : AnyOfPredicate :=
  mkAnyOfPredicate (widen_member equiv <$> members p).
Definition widen_phrase (equiv : EquivMap) (g : PhraseGraph) : PhraseGraph :=
  mkPhraseGraph (positions g)
    ((λ a, mkPhraseArc (ph_start a) (ph_end a) (widen equiv (alternatives a))) <$> arcs g).

Definition expand_equivalences (equiv : EquivMap) (ex : Extracted) : Extracted :=
  if decide (equiv = ∅) then canonicalize ex
  else
    let '(anyof_, added, still) := split_required equiv (required ex) (anyof ex) 0 [] in
    canonicalize
      (mkExtracted still (forbidden ex) (widen equiv <$> anyof_)
         (sat_add 32 (semantic_anyof_groups ex) added) (sat_add 32 (semantic_anyof_terms ex) added)
         (widen_predicate equiv <$> anyof_predicates ex) (forbidden_conjunctions ex)
         (widen_phrase equiv <$> required_phrases ex) (forbidden_phrases ex)).

(** ** The column-overflow guard *)

Definition U16_MAX : N := 65535.
Definition U32_MAX : N := 4294967295.

Definition nlen {A} (l : list A) : N := N.of_nat (length l).

(** [words.checked_add(n)], with [return Some(usize::MAX)] on overflow. *)
Definition add_words (words n : N) : N + N :=
  match checked_add 64 words n with Some w => inr w | None => inl (umax 64) end.

Definition check_len {A} (ceiling : N) (l : list A) : N + unit := return_if (ceiling <? nlen l) (nlen l).

Definition count_member (words : N) (member : AnyOfMember) : N + N :=
  let? _ := check_len U32_MAX (requirements member) in
  let? words := add_words words 1 in
  try_foldl (λ words alts, let? _ := check_len U32_MAX alts in add_words words (1 + nlen alts))
    words (requirements member).

Definition count_predicate (words : N) (p : AnyOfPredicate) : N + N :=
  let? _ := check_len U32_MAX (members p) in
  let? words := add_words words 1 in
  try_foldl count_member words (members p).

Definition count_phrase (words : N) (g : PhraseGraph) : N + N :=
  let? _ := check_len U32_MAX (arcs g) in
  let? words := add_words words 2 in
  try_foldl (λ words arc, let? _ := check_len U32_MAX (alternatives arc) in
     add_words words (3 + nlen (alternatives arc))) words (arcs g).

Definition count_phrases (words : N) (phrases : list PhraseGraph) : N + N :=
  let? _ := check_len U32_MAX phrases in try_foldl count_phrase words phrases.

Definition column_overflow_body (ex : Extracted) : N + unit :=
  let? _ := check_len U16_MAX (required ex) in
  let? _ := check_len U16_MAX (forbidden ex) in
  let? _ := check_len U16_MAX (anyof ex) in
  let? _ := try_foldl (λ _ g, check_len U16_MAX g) tt (anyof ex) in
  let? _ := check_len U32_MAX (anyof_predicates ex) in
  let? words := try_foldl count_predicate 3 (anyof_predicates ex) in
  let? _ := check_len U32_MAX (forbidden_conjunctions ex) in
  let? words := try_foldl (λ words c, let? _ := check_len U32_MAX c in add_words words (1 + nlen c))
                  words (forbidden_conjunctions ex) in
  let? words :=
    if nonempty (required_phrases ex) || nonempty (forbidden_phrases ex) then
      let? words := add_words words 2 in
      let? words := count_phrases words (required_phrases ex) in
      count_phrases words (forbidden_phrases ex)
    else inr words in
  return_if (U32_MAX <? words) words.

Definition column_overflow (ex : Extracted) : option N :=
  match column_overflow_body ex with inl n => Some n | inr _ => None end.

(** ** Plans *)

Record CompiledQuery := mkCompiledQuery {
  cq_logical_id : N;
  cq_version : N;
  cq_extracted : Extracted;
  cq_main_sigs : list N;
  cq_broad_sigs : list N;
  cq_hot_sigs : list N;
  cq_cost_class : CostClass;
}.

Record SigPlan := mkSigPlan {
  main_sigs : list N;
  broad_sigs : list N;
  hot_sigs : list N;
  sp_class : CostClass;
  sp_would_be_hot : bool;
}.

Definition pin_visible (p : SigPlan) : SigPlan :=
  if decide (sp_class p = ClassC)
  then mkSigPlan (main_sigs p ++ broad_sigs p) [] (hot_sigs p) ClassB (sp_would_be_hot p)
  else p.

Record AnchorPlan := mkAnchorPlan {
  main_anchors : list (list N);
  broad_anchors : list (list N);
  hot_anchors : list (list N);
  ap_class : CostClass;
  ap_would_be_hot : bool;
}.

(** ** Well-formed queries

    What extraction produces: no empty disjunction or conjunction, and phrase
    graphs in canonical form. *)

Definition member_ok (m : AnyOfMember) : Prop :=
  requirements m ≠ [] ∧ Forall (λ r, r ≠ []) (requirements m).
Definition predicate_ok (p : AnyOfPredicate) : Prop := members p ≠ [] ∧ Forall member_ok (members p).

Record extracted_wf (ex : Extracted) : Prop := {
  wf_predicates : Forall predicate_ok (anyof_predicates ex);
  wf_conjunctions : Forall (λ c, c ≠ []) (forbidden_conjunctions ex);
  wf_required_phrases : Forall phrase_canonical (required_phrases ex);
  wf_forbidden_phrases : Forall phrase_canonical (forbidden_phrases ex);
}.

Lemma nonempty_true {A} (l : list A) : nonempty l = true ↔ l ≠ [].
Proof. by destruct l. Qed.

Lemma nonempty_false {A} (l : list A) : nonempty l = false ↔ l = [].
Proof. by destruct l. Qed.

Section canonicalize.
Context {A : Type} `{RustOrdLaws A} `{!EqDecision A}.

(** [for x in v { f(x) }; v.retain(p); v.sort_unstable(); v.dedup()] *)
Lemma elem_of_canon {B} (f : B → A) (p : A → bool) (l : list B) x :
  x ∈ sort_dedup (List.filter p (f <$> l)) ↔ p x = true ∧ ∃ y, x = f y ∧ y ∈ l.
Proof. by rewrite elem_of_sort_dedup, elem_of_list_filter_bool, list_elem_of_fmap. Qed.

Lemma forallb_canon {B} (f : B → A) (p : A → bool) (q : A → bool) (q' : B → bool) (l : list B) :
  (∀ y, y ∈ l → p (f y) = true ∧ q (f y) = q' y) →
  forallb q (sort_dedup (List.filter p (f <$> l))) = forallb q' l.
Proof.
  intros Hl. apply eq_true_iff_eq. rewrite !forallb_elem. setoid_rewrite elem_of_canon. split.
  - intros Hq y Hy. destruct (Hl y Hy) as [Hp <-]. apply Hq. eauto.
  - intros Hq x (_ & y & -> & Hy). destruct (Hl y Hy) as [_ ->]. auto.
Qed.

Lemma existsb_canon {B} (f : B → A) (p : A → bool) (q : A → bool) (q' : B → bool) (l : list B) :
  (∀ y, y ∈ l → p (f y) = true ∧ q (f y) = q' y) →
  existsb q (sort_dedup (List.filter p (f <$> l))) = existsb q' l.
Proof.
  intros Hl. apply eq_true_iff_eq. rewrite !existsb_elem. setoid_rewrite elem_of_canon. split.
  - intros (x & (_ & y & -> & Hy) & Hq). exists y. destruct (Hl y Hy) as [_ <-]. auto.
  - intros (y & Hy & Hq). exists (f y). destruct (Hl y Hy) as [Hp Hf]. rewrite Hf. eauto.
Qed.

(** A fixed point of the element step, kept and strictly sorted, stays as it is. *)
Lemma canon_id (f : A → A) (p : A → bool) (l : list A) :
  StronglySorted rlt l → (∀ x, x ∈ l → f x = x ∧ p x = true) →
  sort_dedup (List.filter p (f <$> l)) = l.
Proof.
  intros Hs Hl. rewrite (list_fmap_ident f l) by (intros x Hx; by apply Hl).
  rewrite list_filter_all by (intros x Hx; by apply Hl). by apply sort_dedup_id.
Qed.

Lemma canon_idemp (f : A → A) (p : A → bool) (l : list A) :
  (∀ x, f (f x) = f x) →
  sort_dedup (List.filter p (f <$> sort_dedup (List.filter p (f <$> l)))) = sort_dedup (List.filter p (f <$> l)).
Proof.
  intros Hf. apply canon_id; [apply sort_dedup_sorted|].
  intros x (Hp & y & -> & _)%elem_of_canon. by rewrite Hf.
Qed.

End canonicalize.

Lemma forallb_sort_dedup {A} `{RustOrdLaws A} `{!EqDecision A} (q : A → bool) (l : list A) :
  forallb q (sort_dedup l) = forallb q l.
Proof. apply forallb_mem_ext; [|done]. intros x. apply elem_of_sort_dedup. Qed.

Lemma existsb_sort_dedup {A} `{RustOrdLaws A} `{!EqDecision A} (q : A → bool) (l : list A) :
  existsb q (sort_dedup l) = existsb q l.
Proof. apply existsb_mem_ext; [|done]. intros x. apply elem_of_sort_dedup. Qed.

Lemma member_canonicalize_ok in_pos m :
  member_ok m → nonempty (requirements (member_canonicalize m)) = true ∧
    member_matches in_pos (member_canonicalize m) = member_matches in_pos m.
Proof.
  intros [Hne Hr]. rewrite Forall_forall in Hr.
  assert (∀ r, r ∈ requirements m → nonempty (sort_dedup r) = true) as Hn.
  { intros r Hin. rewrite nonempty_true, sort_dedup_nil. by apply Hr. }
  split.
  - apply nonempty_true. simpl. rewrite sort_dedup_nil. intros E.
    destruct (requirements m) as [|r rs] eqn:Er; [done|]. simpl in E. by rewrite (Hn r) in E by by left.
  - apply forallb_canon. intros r Hin. split; [by apply Hn|]. apply existsb_sort_dedup.
Qed.

Lemma predicate_canonicalize_ok in_pos p :
  predicate_ok p → nonempty (members (predicate_canonicalize p)) = true ∧
    predicate_matches in_pos (predicate_canonicalize p) = predicate_matches in_pos p.
Proof.
  intros [Hne Hm]. rewrite Forall_forall in Hm. split.
  - apply nonempty_true. simpl. rewrite sort_dedup_nil. intros E. destruct (members p) as [|m ms]; [done|].
    simpl in E. destruct (member_canonicalize_ok in_pos m) as [Hk _]; [apply Hm; by left|].
    simpl in Hk, E. by rewrite Hk in E.
  - apply existsb_canon. intros m Hin. by apply member_canonicalize_ok, Hm.
Qed.

Lemma spans_sorted_arcs gs : spans_sorted gs → StronglySorted rlt gs.
Proof.
  apply StronglySorted_impl. intros [s e al] [s' e' al'] _ _ Hab%rlt_pair. simpl in Hab.
  unfold rlt, rcmp, PhraseArc_ord, rcmp, prod_ord, rcmp, prod_ord, rcmp, N_ord. simpl.
  destruct Hab as [Hlt|[-> Hlt]]; [by rewrite (proj2 (N.compare_lt_iff _ _) Hlt)|].
  by rewrite N.compare_refl, (proj2 (N.compare_lt_iff _ _) Hlt).
Qed.

Lemma phrase_canonicalize_id g : phrase_canonical g → phrase_canonicalize g = g.
Proof.
  intros [_ _ Hs Ha]. rewrite Forall_forall in Ha. destruct g as [pos gs]. unfold phrase_canonicalize. simpl in *.
  f_equal. apply canon_id; [by apply spans_sorted_arcs|].
  intros [s e al] Hin. destruct (Ha _ Hin) as (H1 & H2 & H3 & H4). simpl in *. split.
  - by rewrite sort_dedup_id.
  - unfold arc_ok. simpl. rewrite (proj2 (N.ltb_lt _ _) H1), (proj2 (N.leb_le _ _) H2). by apply nonempty_true.
Qed.

Lemma phrase_nonempty_canonical g : phrase_canonical g → phrase_nonempty g = true.
Proof.
  intros [Hp Ha _ _]. unfold phrase_nonempty. apply N.eqb_neq in Hp. rewrite Hp. by apply nonempty_true.
Qed.

Lemma flat_matches_canonical in_pos in_neg ex :
  Forall predicate_ok (anyof_predicates ex) → Forall (λ c, c ≠ []) (forbidden_conjunctions ex) →
  flat_matches in_pos in_neg (canonicalize ex) = flat_matches in_pos in_neg ex.
Proof.
  intros Hp Hc. rewrite Forall_forall in Hp. rewrite Forall_forall in Hc.
  unfold flat_matches. simpl.
  rewrite (forallb_canon _ _ _ (predicate_matches in_pos)) by (intros p Hin; by apply predicate_canonicalize_ok, Hp).
  rewrite (existsb_canon _ _ _ (forallb in_neg)).
  - by rewrite !forallb_sort_dedup, !existsb_sort_dedup.
  - intros c Hin. split; [|apply forallb_sort_dedup].
    apply nonempty_true. rewrite sort_dedup_nil. by apply Hc.
Qed.

Lemma flat_matches_canonicalize in_pos in_neg ex :
  extracted_wf ex → flat_matches in_pos in_neg (canonicalize ex) = flat_matches in_pos in_neg ex.
Proof. intros [Hp Hc _ _]. by apply flat_matches_canonical. Qed.

(** *** Phrases before they are canonical *)

(** Arcs go forward, and one of them is usable. *)
Record phrase_usable (g : PhraseGraph) : Prop := {
  pu_positions : positions g ≠ 0;
  pu_forward : Forall (λ a, ph_start a < ph_end a) (arcs g);
  pu_arc : Exists (λ a, ph_end a ≤ positions g ∧ alternatives a ≠ []) (arcs g);
}.

Lemma elem_of_canonical_arc g a' :
  a' ∈ arcs (phrase_canonicalize g) ↔
  arc_ok (positions g) a' = true ∧ ∃ a, a' = mkPhraseArc (ph_start a) (ph_end a) (sort_dedup (alternatives a)) ∧ a ∈ arcs g.
Proof. apply elem_of_canon. Qed.

Lemma canonical_arc g a x :
  a ∈ arcs g → ph_start a < ph_end a → ph_end a ≤ positions g → x ∈ alternatives a →
  mkPhraseArc (ph_start a) (ph_end a) (sort_dedup (alternatives a)) ∈ arcs (phrase_canonicalize g).
Proof.
  intros Ha Hlt Hle Hx. apply elem_of_canonical_arc. split; [|by exists a]. unfold arc_ok. simpl.
  rewrite (proj2 (N.ltb_lt _ _) Hlt), (proj2 (N.leb_le _ _) Hle). apply nonempty_true. rewrite sort_dedup_nil. intros E. rewrite E in Hx. by apply not_elem_of_nil in Hx.
Qed.

Lemma phrase_usable_nonempty g : phrase_usable g → phrase_nonempty (phrase_canonicalize g) = true.
Proof.
  intros [Hp Hf He]. apply Exists_exists in He as (a & Ha & Hle & Hne). rewrite Forall_forall in Hf. unfold phrase_nonempty.
  apply andb_true_iff. split; [by apply negb_true_iff, N.eqb_neq|]. apply nonempty_true. destruct (alternatives a) as [|x l] eqn:El; [done|].
  pose proof (canonical_arc g a x Ha (Hf a Ha) Hle ltac:(rewrite El; by left)) as Hin. intros E. rewrite E in Hin. by apply not_elem_of_nil in Hin.
Qed.

(** An arc beyond the last position is on no path to it. *)
Lemma reaches_canonical g title s n t :
  Forall (λ a, ph_start a < ph_end a) (arcs g) → n ≤ positions g → reaches g title s (n, t) → reaches (phrase_canonicalize g) title s (n, t).
Proof.
  intros Hf. rewrite Forall_forall in Hf. intros Hle Hr. remember (n, t) as s' eqn:E. revert n t Hle E.
  induction Hr as [|qn tn qa ta _ IH Hqa Hqs Hta Hts Hfeat]; intros n t Hle E; [constructor|]. injection E as <- <-.
  pose proof (Hf qa Hqa) as Hlt. cbn in Hlt. apply (reaches_step _ _ _ qn tn (mkPhraseArc (ph_start qa) (ph_end qa) (sort_dedup (alternatives qa))) ta);
    [apply (IH qn tn); [lia|done]|by eapply canonical_arc|done|done|done|]. simpl. by apply elem_of_sort_dedup.
Qed.

Lemma canonical_reaches g title s s' : reaches (phrase_canonicalize g) title s s' → reaches g title s s'.
Proof.
  induction 1 as [|qn tn qa ta _ IH Hqa Hqs Hta Hts Hfeat]; [constructor|].
  apply elem_of_canonical_arc in Hqa as (_ & a & -> & Ha). simpl in *. rewrite elem_of_sort_dedup in Hfeat. by eapply reaches_step.
Qed.

Lemma phrase_canonicalize_occurs g tp title : phrase_usable g → phrase_occurs (phrase_canonicalize g) tp title ↔ phrase_occurs g tp title.
Proof.
  intros Hu. pose proof (phrase_usable_nonempty g Hu) as Hne. apply andb_true_iff in Hne as [_ Hne%nonempty_true]. destruct Hu as [Hp Hf He].
  assert (arcs g ≠ []) as Ha by (intros E; rewrite E in He; by apply Exists_nil in He). unfold phrase_occurs. split.
  - intros (_ & _ & start & stop & Hs & Hr). split_and!; [done|done|]. exists start, stop. split; [done|by apply canonical_reaches].
  - intros (_ & _ & start & stop & Hs & Hr). split_and!; [done|done|]. exists start, stop. split; [done|]. by apply reaches_canonical.
Qed.

Lemma phrase_canonicalize_sorted g : query_sorted (phrase_canonicalize g).
Proof.
  split.
  - eapply StronglySorted_impl; [|apply sort_dedup_sorted]. intros [s e al] [s' e' al'] _ _. unfold rlt, rcmp, PhraseArc_ord, rcmp, prod_ord, rcmp, prod_ord, rcmp, N_ord, key_le. simpl.
    destruct (N.compare_spec s s'); try done; lia.
  - apply Forall_forall. intros a (_ & a0 & -> & _)%elem_of_canonical_arc. apply strictly_sorted_sorted, sort_dedup_sorted.
Qed.

Lemma canonicalize_phrases_occur gs (P : PhraseGraph → Prop) :
  Forall phrase_usable gs → (∀ g, phrase_usable g → P (phrase_canonicalize g) ↔ P g) →
  (Forall P (canonicalize_phrases gs) ↔ Forall P gs) ∧ (Exists P (canonicalize_phrases gs) ↔ Exists P gs).
Proof.
  intros Hg HP. rewrite Forall_forall in Hg. assert (∀ g', g' ∈ canonicalize_phrases gs ↔ ∃ g, g' = phrase_canonicalize g ∧ g ∈ gs) as Hin.
  { intros g'. unfold canonicalize_phrases. rewrite elem_of_canon. split; [tauto|]. intros (g & -> & Hin). split; [by apply phrase_usable_nonempty, Hg|eauto]. }
  rewrite !Forall_forall, !Exists_exists. setoid_rewrite Hin. split; split.
  - intros Hall g Hgin. apply HP; [by apply Hg|]. eauto.
  - intros Hall g' (g & -> & Hgin). apply HP; [by apply Hg|]. auto.
  - intros (g' & (g & -> & Hgin) & Hg'). exists g. split; [done|]. by apply HP; [apply Hg|].
  - intros (g & Hgin & Hpg). exists (phrase_canonicalize g). split; [eauto|]. by apply HP; [apply Hg|].
Qed.

Lemma canonicalize_phrases_forallb q gs :
  Forall phrase_canonical gs → forallb q (canonicalize_phrases gs) = forallb q gs.
Proof.
  intros Hg. rewrite Forall_forall in Hg. apply forallb_canon. intros g Hin.
  rewrite phrase_canonicalize_id by auto. split; [|done]. by apply phrase_nonempty_canonical, Hg.
Qed.

Lemma canonicalize_phrases_existsb q gs :
  Forall phrase_canonical gs → existsb q (canonicalize_phrases gs) = existsb q gs.
Proof.
  intros Hg. rewrite Forall_forall in Hg. apply existsb_canon. intros g Hin.
  rewrite phrase_canonicalize_id by auto. split; [|done]. by apply phrase_nonempty_canonical, Hg.
Qed.

Lemma canonical_phrases_subset gs : Forall phrase_canonical gs → canonicalize_phrases gs ⊆ gs.
Proof.
  intros Hg g Hin. unfold canonicalize_phrases in Hin. rewrite elem_of_sort_dedup in Hin. apply list_elem_of_In, List.filter_In in Hin as [Hin%list_elem_of_In _].
  apply list_elem_of_fmap in Hin as (g' & -> & Hin). rewrite Forall_forall in Hg. by rewrite phrase_canonicalize_id by auto.
Qed.

Lemma matches_positioned_canonicalize ex pos neg pp pa pc np na :
  extracted_wf ex →
  matches_positioned (canonicalize ex) pos neg pp pa pc np na = matches_positioned ex pos neg pp pa pc np na.
Proof.
  intros Hwf. unfold matches_positioned, matches_flat_features. rewrite flat_matches_canonicalize by done.
  simpl. rewrite canonicalize_phrases_forallb, canonicalize_phrases_existsb by apply Hwf. done.
Qed.

Lemma member_canonicalize_idemp m : member_canonicalize (member_canonicalize m) = member_canonicalize m.
Proof. unfold member_canonicalize. simpl. f_equal. apply canon_idemp, sort_dedup_idemp. Qed.

Lemma predicate_canonicalize_idemp p : predicate_canonicalize (predicate_canonicalize p) = predicate_canonicalize p.
Proof. unfold predicate_canonicalize. simpl. f_equal. apply canon_idemp, member_canonicalize_idemp. Qed.

Lemma phrase_canonicalize_idemp g : phrase_canonicalize (phrase_canonicalize g) = phrase_canonicalize g.
Proof.
  unfold phrase_canonicalize. simpl. f_equal. apply canon_idemp. intros a. simpl. by rewrite sort_dedup_idemp.
Qed.

Lemma canonicalize_idemp ex : canonicalize (canonicalize ex) = canonicalize ex.
Proof.
  unfold canonicalize. simpl. f_equal; try apply sort_dedup_idemp.
  - apply canon_idemp, predicate_canonicalize_idemp.
  - apply canon_idemp, sort_dedup_idemp.
  - apply canon_idemp, phrase_canonicalize_idemp.
  - apply canon_idemp, phrase_canonicalize_idemp.
Qed.

(** No part of the query is empty. *)
Record solid (ex : Extracted) : Prop := {
  so_predicates : Forall predicate_ok (anyof_predicates ex);
  so_conjunctions : Forall (λ c, c ≠ []) (forbidden_conjunctions ex);
  so_required : Forall phrase_usable (required_phrases ex);
  so_forbidden : Forall phrase_usable (forbidden_phrases ex);
}.

(** C33. Canonicalization does not change what a query means.  For a query without
    empty parts (every any-of, member, requirement and forbidden conjunction has
    an element; every phrase has positions, arcs that go forward, and a usable
    arc): on every title the flat predicate has the same verdict, the required
    phrases occur and some forbidden phrase occurs exactly as before, whatever
    unsorted arcs or alternatives, repeated or useless arcs the phrases had; the
    phrases are left sorted as the searches need them.  Where the phrases were
    canonical already, as extraction leaves them, the matcher's verdict is the same,
    budget fail-open included.  It is idempotent. *)
Theorem canonicalize_preserves ex :
  solid ex →
  (∀ pos neg, matches_flat_features (canonicalize ex) pos neg = matches_flat_features ex pos neg) ∧
  (∀ tp title, Forall (λ g, phrase_occurs g tp title) (required_phrases (canonicalize ex)) ↔
     Forall (λ g, phrase_occurs g tp title) (required_phrases ex)) ∧
  (∀ tp title, Exists (λ g, phrase_occurs g tp title) (forbidden_phrases (canonicalize ex)) ↔
     Exists (λ g, phrase_occurs g tp title) (forbidden_phrases ex)) ∧
  Forall query_sorted (required_phrases (canonicalize ex) ++ forbidden_phrases (canonicalize ex)) ∧
  (Forall phrase_canonical (required_phrases ex ++ forbidden_phrases ex) →
   ∀ pos neg pos_positions pos_arcs complete neg_positions neg_arcs,
     matches_positioned (canonicalize ex) pos neg pos_positions pos_arcs complete neg_positions neg_arcs =
       matches_positioned ex pos neg pos_positions pos_arcs complete neg_positions neg_arcs) ∧
  canonicalize (canonicalize ex) = canonicalize ex.
Proof.
  intros [Hp Hc Hr Hf]. split_and!.
  - intros pos neg. by apply flat_matches_canonical.
  - intros tp title. by apply canonicalize_phrases_occur; [|intros; by apply phrase_canonicalize_occurs].
  - intros tp title. by apply canonicalize_phrases_occur; [|intros; by apply phrase_canonicalize_occurs].
  - apply Forall_app. split; apply Forall_forall; intros g (_ & g0 & -> & _)%elem_of_canon; apply phrase_canonicalize_sorted.
  - intros [Hcr Hcf]%Forall_app pos neg pp pa pc np na. by apply matches_positioned_canonicalize.
  - apply canonicalize_idemp.
Qed.

Definition demo_extracted : Extracted :=
  mkExtracted [3; 1] [9] [[5; 4]] 2 2 [mkAnyOfPredicate [mkAnyOfMember [[6]; [2]]]] [[8; 7]]
    [mkPhraseGraph 1 [mkPhraseArc 0 1 [1]]] [].

Lemma demo_extracted_wf : extracted_wf demo_extracted.
Proof. repeat (constructor; try done). Qed.

(** Its phrase has its arcs out of order, one twice, and one beyond its end. *)
Definition demo_raw : Extracted :=
  mkExtracted [3; 1] [9] [[5; 4]] 2 2 [mkAnyOfPredicate [mkAnyOfMember [[6]; [2]]]] [[8; 7]]
    [mkPhraseGraph 2 [mkPhraseArc 1 2 [4; 3]; mkPhraseArc 0 1 [1]; mkPhraseArc 0 5 [7]; mkPhraseArc 0 1 [1; 1]]] [].

Lemma demo_raw_solid : solid demo_raw.
Proof.
  split; [apply demo_extracted_wf|apply demo_extracted_wf| |constructor]. constructor; [|done].
  split; [done|by repeat constructor|]. by apply Exists_cons_hd.
Qed.

Lemma canonicalize_preserves_witness :
  canonicalize demo_raw ≠ demo_raw ∧ canonicalize (canonicalize demo_raw) = canonicalize demo_raw ∧
  ∀ title, Forall (λ g, phrase_occurs g 2 title) (required_phrases (canonicalize demo_raw)) ↔
    Forall (λ g, phrase_occurs g 2 title) (required_phrases demo_raw).
Proof.
  destruct (canonicalize_preserves demo_raw demo_raw_solid) as (_ & Hr & _ & _ & _ & Hi). split; [by vm_compute|]. split; [exact Hi|exact (Hr 2)].
Defined.

(** ** Expansion only widens *)

(** A learned group contains the feature it replaces. *)
Definition equiv_reflexive (equiv : EquivMap) : Prop := ∀ f g, equiv !! f = Some g → f ∈ g.
(** Groups are the classes of an equivalence. *)
Definition equiv_closed (equiv : EquivMap) : Prop :=
  ∀ f g, equiv !! f = Some g → f ∈ g ∧ ∀ m, m ∈ g → equiv !! m = Some g.

Lemma elem_of_widen equiv g x :
  x ∈ widen equiv g ↔ ∃ m, m ∈ g ∧ x ∈ match equiv !! m with Some grp => grp | None => [m] end.
Proof. unfold widen. rewrite elem_of_sort_dedup, list_elem_of_bind. naive_solver. Qed.

Lemma widen_subseteq equiv g : equiv_reflexive equiv → g ⊆ widen equiv g.
Proof.
  intros Hr x Hx. apply elem_of_widen. exists x. split; [done|].
  destruct (equiv !! x) eqn:E; [by apply Hr|by left].
Qed.

Lemma widen_idemp equiv g : equiv_closed equiv → widen equiv (widen equiv g) = widen equiv g.
Proof.
  intros Hc. apply sort_dedup_ext. intros x. rewrite list_elem_of_bind. setoid_rewrite elem_of_widen.
  rewrite list_elem_of_bind. split.
  - intros (y & Hx & m & Hm & Hy). exists m. split; [|done]. destruct (equiv !! m) as [grp|] eqn:E.
    + destruct (Hc _ _ E) as [_ Hall]. by rewrite (Hall y Hy) in Hx.
    + apply list_elem_of_singleton in Hy as ->. by rewrite E in Hx.
  - intros (m & Hx & Hm). exists m. split; [done|]. exists m. split; [done|].
    destruct (equiv !! m) eqn:E; [by apply (Hc _ _ E)|by left].
Qed.

Lemma existsb_subseteq {A} (q : A → bool) (l k : list A) : l ⊆ k → existsb q l = true → existsb q k = true.
Proof. rewrite !existsb_elem. intros Hlk (x & Hx & Hq). exists x. split; [by apply Hlk|done]. Qed.

Lemma widen_nonempty equiv g : equiv_reflexive equiv → g ≠ [] → widen equiv g ≠ [].
Proof.
  intros Hr Hg E. destruct g as [|x g]; [done|].
  assert (x ∈ widen equiv (x :: g)) as Hx by (apply widen_subseteq; [done|by left]).
  rewrite E in Hx. by apply not_elem_of_nil in Hx.
Qed.

Lemma split_required_spec equiv req groups added still :
  ∃ added', split_required equiv req groups added still =
    (groups ++ omap (λ f, equiv !! f) req, added', still ++ filter (λ f, equiv !! f = None) req).
Proof.
  revert groups added still. induction req as [|f req IH]; intros groups added still; simpl.
  { exists added. by rewrite !app_nil_r. }
  destruct (equiv !! f) as [g|] eqn:E.
  - destruct (IH (groups ++ [g]) (sat_add 32 added 1) still) as (a & ->). exists a.
    rewrite filter_cons_False by by rewrite E. by rewrite <-app_assoc.
  - destruct (IH groups added (still ++ [f])) as (a & ->). exists a.
    rewrite filter_cons_True by done. by rewrite <-app_assoc.
Qed.

(** The query before its final canonicalization. *)
Definition expanded_query (equiv : EquivMap) (ex : Extracted) : Extracted :=
  let '(anyof_, added, still) := split_required equiv (required ex) (anyof ex) 0 [] in
  mkExtracted still (forbidden ex) (widen equiv <$> anyof_)
    (sat_add 32 (semantic_anyof_groups ex) added) (sat_add 32 (semantic_anyof_terms ex) added)
    (widen_predicate equiv <$> anyof_predicates ex) (forbidden_conjunctions ex)
    (widen_phrase equiv <$> required_phrases ex) (forbidden_phrases ex).

Lemma expand_equivalences_alt equiv ex :
  expand_equivalences equiv ex =
    if decide (equiv = ∅) then canonicalize ex else canonicalize (expanded_query equiv ex).
Proof. unfold expand_equivalences, expanded_query. case_decide; [done|]. by destruct (split_required _ _ _ _ _) as [[??]?]. Qed.

Lemma widen_phrase_canonical equiv g :
  equiv_reflexive equiv → phrase_canonical g →
  phrase_canonical (widen_phrase equiv g) ∧ graph_widens g (widen_phrase equiv g).
Proof.
  intros Hr [Hp Ha Hs Hf]. split; [split|split]; simpl; try done.
  - by destruct (arcs g).
  - clear Ha Hf. unfold spans_sorted in *. induction Hs as [|a l Hs IH Hfa]; simpl; constructor; [done|].
    apply Forall_fmap. eapply Forall_impl; [exact Hfa|]. done.
  - apply Forall_fmap. eapply Forall_impl; [exact Hf|]. intros a (H1 & H2 & H3 & _). simpl.
    split_and!; [done|done|by apply widen_nonempty|apply sort_dedup_sorted].
  - clear -Hr. induction (arcs g) as [|a l IH]; simpl; constructor; [|done].
    split_and!; [done|done|by apply widen_subseteq].
Qed.

Lemma expanded_query_wf equiv ex : equiv_reflexive equiv → extracted_wf ex → extracted_wf (expanded_query equiv ex).
Proof.
  intros Hr [Hp Hc Hrp Hfp]. unfold expanded_query.
  destruct (split_required_spec equiv (required ex) (anyof ex) 0 []) as (a & ->). split; simpl; try done.
  - apply Forall_fmap. eapply Forall_impl; [exact Hp|]. intros p [Hne Hm]. split; simpl.
    + by destruct (members p).
    + apply Forall_fmap. eapply Forall_impl; [exact Hm|]. intros m [Hrn Hrr]. split; simpl.
      * by destruct (requirements m).
      * apply Forall_fmap. eapply Forall_impl; [exact Hrr|]. intros r Hne'. by apply widen_nonempty.
  - apply Forall_fmap. eapply Forall_impl; [exact Hrp|]. intros g Hg. by apply widen_phrase_canonical.
Qed.

Lemma member_widen_matches equiv in_pos m :
  equiv_reflexive equiv → member_matches in_pos m = true → member_matches in_pos (widen_member equiv m) = true.
Proof.
  intros Hr. unfold member_matches. rewrite !forallb_elem. intros Hm r (r' & -> & Hin)%list_elem_of_fmap.
  eapply existsb_subseteq; [by apply widen_subseteq|]. by apply Hm.
Qed.

Lemma predicate_widen_matches equiv in_pos p :
  equiv_reflexive equiv → predicate_matches in_pos p = true → predicate_matches in_pos (widen_predicate equiv p) = true.
Proof.
  intros Hr. unfold predicate_matches. rewrite !existsb_elem. intros (m & Hin & Hm).
  exists (widen_member equiv m). split; [by apply list_elem_of_fmap_2|]. by apply member_widen_matches.
Qed.

Lemma expanded_flat_matches equiv in_pos in_neg ex :
  equiv_reflexive equiv → flat_matches in_pos in_neg ex = true →
  flat_matches in_pos in_neg (expanded_query equiv ex) = true.
Proof.
  intros Hr. unfold flat_matches, expanded_query.
  destruct (split_required_spec equiv (required ex) (anyof ex) 0 []) as (a & ->). simpl.
  rewrite !andb_true_iff, !forallb_elem. intros [[[[Hreq ->] Hany] Hpred] ->]. split_and!; try done.
  - intros f [_ Hf]%list_elem_of_filter. by apply Hreq.
  - intros g (g' & -> & [Hg|Hg]%elem_of_app)%list_elem_of_fmap.
    + eapply existsb_subseteq; [by apply widen_subseteq|]. by apply Hany.
    + apply list_elem_of_omap in Hg as (f & Hf & Ef). apply existsb_elem. exists f. split; [|by apply Hreq].
      apply widen_subseteq; [done|]. by apply Hr.
  - intros p (p' & -> & Hp)%list_elem_of_fmap. apply predicate_widen_matches; auto.
Qed.

Section pointwise.
Context {A B : Type}.

Lemma forallb_fmap (p : B → bool) (f : A → B) l : forallb p (f <$> l) = forallb (λ x, p (f x)) l.
Proof. induction l as [|x l IH]; simpl; [done|]. by rewrite <-IH. Qed.

Lemma existsb_fmap (p : B → bool) (f : A → B) l : existsb p (f <$> l) = existsb (λ x, p (f x)) l.
Proof. induction l as [|x l IH]; simpl; [done|]. by rewrite <-IH. Qed.

Lemma forallb_ext (p q : A → bool) l : (∀ x, p x = q x) → forallb p l = forallb q l.
Proof. intros Hpq. induction l as [|x l IH]; simpl; [done|]. by rewrite IH, Hpq. Qed.

Lemma existsb_ext (p q : A → bool) l : (∀ x, p x = q x) → existsb p l = existsb q l.
Proof. intros Hpq. induction l as [|x l IH]; simpl; [done|]. by rewrite IH, Hpq. Qed.

End pointwise.

Lemma flat_matches_ext in_pos in_pos' in_neg ex :
  (∀ f, in_pos f = in_pos' f) → flat_matches in_pos in_neg ex = flat_matches in_pos' in_neg ex.
Proof.
  intros He. unfold flat_matches. rewrite (forallb_ext in_pos in_pos' (required ex) He). do 2 f_equal; [f_equal|].
  - apply forallb_ext. intros g. by apply existsb_ext.
  - apply forallb_ext. intros p. apply existsb_ext. intros m. apply forallb_ext. intros r. by apply existsb_ext.
Qed.

(** The features that stand for [f]. *)
Definition equiv_class (equiv : EquivMap) (f : N) : list N := default [f] (equiv !! f).

Lemma existsb_widen equiv in_pos g : existsb in_pos (widen equiv g) = existsb (λ f, existsb in_pos (equiv_class equiv f)) g.
Proof.
  apply eq_true_iff_eq. rewrite !existsb_elem. setoid_rewrite elem_of_widen. setoid_rewrite existsb_elem. unfold equiv_class. split.
  - intros (x & (m & Hm & Hx) & Hp). exists m. split; [done|]. exists x. split; [|done]. by destruct (equiv !! m).
  - intros (m & Hm & x & Hx & Hp). exists x. split; [|done]. exists m. split; [done|]. by destruct (equiv !! m).
Qed.

Lemma existsb_class equiv in_pos f grp :
  equiv_closed equiv → equiv !! f = Some grp → existsb (λ f, existsb in_pos (equiv_class equiv f)) grp = existsb in_pos (equiv_class equiv f).
Proof.
  intros Hc Ef. destruct (Hc _ _ Ef) as [Hin Hall]. unfold equiv_class at 2. rewrite Ef. simpl. apply eq_true_iff_eq. rewrite !existsb_elem. split.
  - intros (m & Hm & Hp). unfold equiv_class in Hp. rewrite (Hall m Hm) in Hp. by apply existsb_elem in Hp.
  - intros (x & Hx & Hp). exists f. split; [done|]. unfold equiv_class. rewrite Ef. apply existsb_elem. by exists x.
Qed.

(** With the classes of an equivalence, the expanded query asks for a member of the
    class wherever the query asks for a feature. *)
Lemma expanded_flat_exact equiv in_pos in_neg ex :
  equiv_closed equiv →
  flat_matches in_pos in_neg (expanded_query equiv ex) = flat_matches (λ f, existsb in_pos (equiv_class equiv f)) in_neg ex.
Proof.
  intros Hc. unfold flat_matches, expanded_query. destruct (split_required_spec equiv (required ex) (anyof ex) 0 []) as (a & ->). simpl.
  assert (∀ p, predicate_matches in_pos (widen_predicate equiv p) = predicate_matches (λ f, existsb in_pos (equiv_class equiv f)) p) as Hp.
  { intros p. unfold predicate_matches, widen_predicate. simpl. rewrite existsb_fmap. apply existsb_ext. intros m. unfold member_matches, widen_member. simpl.
    rewrite forallb_fmap. apply forallb_ext. intros r. apply existsb_widen. }
  assert (forallb in_pos (filter (λ f, equiv !! f = None) (required ex)) && forallb (existsb in_pos) (widen equiv <$> omap (λ f, equiv !! f) (required ex)) =
    forallb (λ f, existsb in_pos (equiv_class equiv f)) (required ex)) as Hr.
  { induction (required ex) as [|f req IH]; [done|]. cbn [forallb]. rewrite <-IH. destruct (equiv !! f) as [grp|] eqn:Ef.
    - rewrite (filter_cons_False _ f) by congruence. assert (omap (λ f, equiv !! f) (f :: req) = grp :: omap (λ f, equiv !! f) req) as -> by (cbn; by rewrite Ef).
      rewrite fmap_cons. cbn [forallb]. rewrite existsb_widen, (existsb_class equiv in_pos f grp Hc Ef). btauto.
    - rewrite (filter_cons_True _ f) by done. assert (omap (λ f, equiv !! f) (f :: req) = omap (λ f, equiv !! f) req) as -> by (cbn; by rewrite Ef).
      unfold equiv_class at 1. rewrite Ef. cbn [default existsb forallb]. btauto. }
  rewrite fmap_app, forallb_app, !forallb_fmap, <-Hr, forallb_fmap. rewrite (forallb_ext _ _ (anyof_predicates ex) Hp).
  rewrite (forallb_ext (λ g, existsb in_pos (widen equiv g)) _ (anyof ex) (existsb_widen equiv in_pos)). btauto.
Qed.

(** Expanding learned equivalences never loses a match. For any equivalence
    map whose groups contain their own features, and any title with sorted
    position graphs, a title the query matches (a phrase that failed open on
    its budget included) is still matched by the expanded query. *)
Theorem expand_equivalences_widens equiv ex pos neg pos_positions pos_arcs complete neg_positions neg_arcs :
  equiv_reflexive equiv → extracted_wf ex → title_sorted pos_arcs → title_sorted neg_arcs →
  matches_positioned ex pos neg pos_positions pos_arcs complete neg_positions neg_arcs = true →
  matches_positioned (expand_equivalences equiv ex) pos neg pos_positions pos_arcs complete
    neg_positions neg_arcs = true.
Proof.
  intros Hr Hwf Hpa Hna Hm. rewrite expand_equivalences_alt.
  case_decide; [by rewrite matches_positioned_canonicalize|].
  rewrite matches_positioned_canonicalize by by apply expanded_query_wf. revert Hm.
  unfold matches_positioned, matches_flat_features. rewrite !andb_true_iff. intros [[Hflat Hreq] Hforb].
  split_and!; [by apply expanded_flat_matches| |].
  - rewrite forallb_elem in Hreq |- *. intros g' Hg'. unfold expanded_query in Hg'.
    destruct (split_required _ _ _ _ _) as [[??]?]. simpl in Hg'.
    apply list_elem_of_fmap in Hg' as (g & -> & Hg). specialize (Hreq g Hg).
    apply bool_decide_eq_true in Hreq. apply bool_decide_eq_true. intros Hv. apply Hreq.
    assert (phrase_canonical g) as Hgc by (by eapply Forall_forall; [apply Hwf|]).
    destruct (widen_phrase_canonical equiv g Hr Hgc) as [Hgc' Hw].
    unfold phrase_verdict in *.
    destruct (phrase_graph_matches_bounded (widen_phrase equiv g) pos_positions pos_arcs complete) as [v|] eqn:E; [|done].
    simpl in Hv. subst v. apply bounded_widen with (query := g) in E; [|by apply phrase_canonical_sorted..|done|done].
    by rewrite E.
  - unfold expanded_query. destruct (split_required _ _ _ _ _) as [[??]?]. exact Hforb.
Qed.

Definition demo_equiv : EquivMap := {[1 := [1; 30]; 30 := [1; 30]]}.

Lemma demo_equiv_closed : equiv_closed demo_equiv.
Proof.
  assert (∀ f g, demo_equiv !! f = Some g → (f = 1 ∨ f = 30) ∧ g = [1; 30]) as H.
  { unfold demo_equiv. intros f g [[<- <-]|[_ [<- <-]%lookup_singleton_Some]]%lookup_insert_Some; auto. }
  intros f g [Hf ->]%H. split; [destruct Hf as [-> | ->]; by repeat constructor|].
  intros m Hm. rewrite !elem_of_cons in Hm. destruct Hm as [-> |[-> |?%not_elem_of_nil]]; done.
Qed.

Lemma expand_equivalences_widens_witness :
  matches_positioned (expand_equivalences demo_equiv demo_extracted) [1; 2; 3; 4; 6] []
    1 [mkPositionArc 1 0 1] true 0 [] = true.
Proof.
  apply (expand_equivalences_widens demo_equiv demo_extracted).
  - intros f g Hf. by apply demo_equiv_closed.
  - apply demo_extracted_wf.
  - repeat constructor.
  - constructor.
  - vm_compute. reflexivity.
Defined.

(** ** Expansion is idempotent *)

Lemma split_required_none equiv req groups added still :
  (∀ f, f ∈ req → equiv !! f = None) →
  split_required equiv req groups added still = (groups, added, still ++ req).
Proof.
  revert still. induction req as [|f req IH]; intros still Hn; simpl; [by rewrite app_nil_r|].
  rewrite Hn by by left. rewrite IH by (intros g Hg; apply Hn; by right). by rewrite <-app_assoc.
Qed.

Lemma sort_dedup_widen equiv g : sort_dedup (widen equiv g) = widen equiv g.
Proof. apply sort_dedup_idemp. Qed.

Lemma widen_predicate_canon equiv p :
  equiv_closed equiv →
  widen_predicate equiv (predicate_canonicalize (widen_predicate equiv p)) = predicate_canonicalize (widen_predicate equiv p).
Proof.
  intros Hc. unfold widen_predicate at 1, predicate_canonicalize. simpl. f_equal.
  apply list_fmap_ident. intros m (_ & m' & -> & Hm)%elem_of_canon.
  apply list_elem_of_fmap in Hm as (m0 & -> & _).
  unfold widen_member at 1, member_canonicalize. simpl. f_equal.
  apply list_fmap_ident. intros r (_ & r' & -> & Hr)%elem_of_canon.
  apply list_elem_of_fmap in Hr as (r0 & -> & _). by rewrite sort_dedup_widen, widen_idemp.
Qed.

Lemma widen_phrase_canon equiv g :
  equiv_closed equiv →
  widen_phrase equiv (phrase_canonicalize (widen_phrase equiv g)) = phrase_canonicalize (widen_phrase equiv g).
Proof.
  intros Hc. unfold widen_phrase at 1, phrase_canonicalize. simpl. f_equal.
  apply list_fmap_ident. intros a (_ & a' & -> & Ha)%elem_of_canon.
  apply list_elem_of_fmap in Ha as (a0 & -> & _). simpl. by rewrite sort_dedup_widen, widen_idemp.
Qed.

(** A query without equivalent required features and with closed groups is
    left alone by the expansion loops. *)
Lemma expanded_query_fixed equiv ex :
  (∀ f, f ∈ required ex → equiv !! f = None) →
  (∀ g, g ∈ anyof ex → widen equiv g = g) →
  (∀ p, p ∈ anyof_predicates ex → widen_predicate equiv p = p) →
  (∀ g, g ∈ required_phrases ex → widen_phrase equiv g = g) →
  sat_add 32 (semantic_anyof_groups ex) 0 = semantic_anyof_groups ex →
  sat_add 32 (semantic_anyof_terms ex) 0 = semantic_anyof_terms ex →
  expanded_query equiv ex = ex.
Proof.
  intros Hr Ha Hp Hg Hs Ht. unfold expanded_query. rewrite split_required_none by done. simpl.
  rewrite !list_fmap_ident, Hs, Ht by done. by destruct ex.
Qed.

Lemma sat_add_fixed a b : sat_add 32 (sat_add 32 a b) 0 = sat_add 32 a b.
Proof. unfold sat_add. lia. Qed.

(** Expansion is idempotent on the classes of an equivalence. *)
Theorem expand_equivalences_idempotent equiv ex :
  equiv_closed equiv →
  expand_equivalences equiv (expand_equivalences equiv ex) = expand_equivalences equiv ex.
Proof.
  intros Hc. rewrite !expand_equivalences_alt. case_decide; [apply canonicalize_idemp|].
  rewrite (expanded_query_fixed equiv (canonicalize _)); [apply canonicalize_idemp|..].
  all: unfold expanded_query;
    destruct (split_required_spec equiv (required ex) (anyof ex) 0 []) as (a & ->); simpl.
  - intros f. rewrite elem_of_sort_dedup. by intros [? _]%list_elem_of_filter.
  - intros g. rewrite elem_of_sort_dedup. intros (g' & -> & _)%list_elem_of_fmap. by apply widen_idemp.
  - intros p (_ & p' & -> & Hp)%elem_of_canon. apply list_elem_of_fmap in Hp as (p0 & -> & _).
    by apply widen_predicate_canon.
  - intros g (_ & g' & -> & Hg)%elem_of_canon. apply list_elem_of_fmap in Hg as (g0 & -> & _).
    by apply widen_phrase_canon.
  - apply sat_add_fixed.
  - apply sat_add_fixed.
Qed.

Lemma expand_equivalences_idempotent_witness :
  expand_equivalences demo_equiv (expand_equivalences demo_equiv demo_extracted) =
    expand_equivalences demo_equiv demo_extracted.
Proof. apply (expand_equivalences_idempotent demo_equiv demo_extracted), demo_equiv_closed. Defined.

(** ** The overflow guard is exact *)

(** The words the guard counts for a query's compound program: a three-word
    header, the groups, the conjunctions and the phrases. *)
Definition sum_N {A} (f : A → N) (l : list A) : N := foldr (λ x n, f x + n) 0 l.

Definition member_words (m : AnyOfMember) : N := 1 + sum_N (λ r, 1 + nlen r) (requirements m).
Definition predicate_words (p : AnyOfPredicate) : N := 1 + sum_N member_words (members p).
Definition phrase_words (g : PhraseGraph) : N := 2 + sum_N (λ a, 3 + nlen (alternatives a)) (arcs g).

Definition program_words (ex : Extracted) : N :=
  3 + sum_N predicate_words (anyof_predicates ex) + sum_N (λ c, 1 + nlen c) (forbidden_conjunctions ex) +
  (if nonempty (required_phrases ex) || nonempty (forbidden_phrases ex)
   then 2 + sum_N phrase_words (required_phrases ex) + sum_N phrase_words (forbidden_phrases ex) else 0).

(** Every 16-bit count fits its field, and the guard's word count fits 32 bits. *)
Definition columns_fit (ex : Extracted) : Prop :=
  nlen (required ex) ≤ U16_MAX ∧ nlen (forbidden ex) ≤ U16_MAX ∧ nlen (anyof ex) ≤ U16_MAX ∧
  Forall (λ g, nlen g ≤ U16_MAX) (anyof ex) ∧ program_words ex ≤ U32_MAX.

(** A counting step that adds [k] words. *)
Definition counts (m : N → N + N) (k : N) : Prop :=
  ∀ words, (∀ w, m words = inr w → w = words + k) ∧ (words + k ≤ U32_MAX → m words = inr (words + k)).

Lemma counts_add k : counts (λ w, add_words w k) k.
Proof.
  intros words. unfold add_words, checked_add. change (umax 64) with 18446744073709551615. unfold U32_MAX.
  destruct (N.leb_spec (words + k) 18446744073709551615); split; intros; simplify_eq; try done; lia.
Qed.

Lemma counts_check {A} (l : list A) m k : nlen l ≤ k → counts m k → counts (λ w, let? _ := check_len U32_MAX l in m w) k.
Proof.
  intros Hl Hm words. destruct (Hm words) as [H1 H2]. unfold check_len, return_if.
  destruct (N.ltb_spec U32_MAX (nlen l)); simpl; split; intros; try done; auto; lia.
Qed.

Lemma counts_seq m1 m2 k1 k2 : counts m1 k1 → counts m2 k2 → counts (λ w, let? w := m1 w in m2 w) (k1 + k2).
Proof.
  intros H1 H2 words. destruct (H1 words) as [H1a H1b]. split.
  - intros w. destruct (m1 words) as [|w1] eqn:E; simpl; [done|]. intros Hw. apply H2 in Hw.
    rewrite (H1a w1 eq_refl) in Hw. lia.
  - intros Hk. rewrite H1b by lia. simpl. rewrite (proj2 (H2 (words + k1))) by lia. f_equal. lia.
Qed.

Lemma counts_fold {A} (f : N → A → N + N) (k : A → N) l :
  (∀ x, counts (λ w, f w x) (k x)) → counts (λ w, try_foldl f w l) (sum_N k l).
Proof.
  intros Hf. induction l as [|x l IH]; intros words; simpl.
  - split; [intros w [= <-]; lia|]. intros _. f_equal. lia.
  - apply (counts_seq (λ w, f w x) (λ w, try_foldl f w l)); [apply Hf|apply IH].
Qed.

Lemma nlen_le_sum {A} (k : A → N) l : (∀ x, 1 ≤ k x) → nlen l ≤ sum_N k l.
Proof.
  intros Hk. unfold nlen. induction l as [|x l IH]; simpl; [lia|]. specialize (Hk x). lia.
Qed.

Lemma counts_member m : counts (λ w, count_member w m) (member_words m).
Proof.
  apply counts_check; [apply N.le_trans with (sum_N (λ r, 1 + nlen r) (requirements m)); [apply nlen_le_sum; lia|unfold member_words; lia]|].
  apply counts_seq; [apply counts_add|]. apply counts_fold. intros r.
  apply counts_check; [lia|apply counts_add].
Qed.

Lemma counts_predicate p : counts (λ w, count_predicate w p) (predicate_words p).
Proof.
  apply counts_check; [apply N.le_trans with (sum_N member_words (members p)); [apply nlen_le_sum; unfold member_words; lia|unfold predicate_words; lia]|].
  apply counts_seq; [apply counts_add|]. apply counts_fold, counts_member.
Qed.

Lemma counts_phrases gs : counts (λ w, count_phrases w gs) (sum_N phrase_words gs).
Proof.
  apply counts_check; [apply nlen_le_sum; unfold phrase_words; lia|]. apply counts_fold. intros g.
  apply counts_check; [apply N.le_trans with (sum_N (λ a, 3 + nlen (alternatives a)) (arcs g)); [apply nlen_le_sum; lia|unfold phrase_words; lia]|].
  apply counts_seq; [apply counts_add|]. apply counts_fold. intros a.
  apply counts_check; [lia|apply counts_add].
Qed.

Lemma check_len_iff {A} ceiling (l : list A) : check_len ceiling l = inr tt ↔ nlen l ≤ ceiling.
Proof. unfold check_len, return_if. destruct (N.ltb_spec ceiling (nlen l)); split; try done; lia. Qed.

Lemma try_bind_assoc {E A B C} (m : E + A) (k : A → E + B) (k' : B → E + C) :
  try_bind (try_bind m k) k' = try_bind m (λ a, try_bind (k a) k').
Proof. by destruct m. Qed.

Lemma try_bind_inr {E A B} (m : E + A) (k : A → E + B) b :
  try_bind m k = inr b ↔ ∃ a, m = inr a ∧ k a = inr b.
Proof. destruct m; simpl; naive_solver. Qed.

Lemma check_groups_iff (l : list (list N)) :
  try_foldl (λ _ g, check_len U16_MAX g) tt l = inr tt ↔ Forall (λ g, nlen g ≤ U16_MAX) l.
Proof.
  induction l as [|g l IH]; simpl; [by split; [constructor|]|].
  rewrite try_bind_inr, Forall_cons, <-IH, <-check_len_iff. split; [by intros ([] & ? & ?)|]. intros []. by exists tt.
Qed.

(** The word count of the compound program, phrases included. *)
Definition count_program (ex : Extracted) (w : N) : N + N :=
  let? words := try_foldl count_predicate w (anyof_predicates ex) in
  let? _ := check_len U32_MAX (forbidden_conjunctions ex) in
  let? words := try_foldl (λ words c, let? _ := check_len U32_MAX c in add_words words (1 + nlen c))
                  words (forbidden_conjunctions ex) in
  if nonempty (required_phrases ex) || nonempty (forbidden_phrases ex) then
    let? words := add_words words 2 in
    let? words := count_phrases words (required_phrases ex) in
    count_phrases words (forbidden_phrases ex)
  else inr words.

Lemma counts_program ex : counts (count_program ex) (program_words ex - 3).
Proof.
  replace (program_words ex - 3) with
    (sum_N predicate_words (anyof_predicates ex) + (sum_N (λ c, 1 + nlen c) (forbidden_conjunctions ex) +
     (if nonempty (required_phrases ex) || nonempty (forbidden_phrases ex)
      then 2 + (sum_N phrase_words (required_phrases ex) + sum_N phrase_words (forbidden_phrases ex)) else 0)))
    by (unfold program_words; destruct (_ || _); lia).
  apply counts_seq; [apply counts_fold, counts_predicate|].
  apply counts_check.
  { pose proof (nlen_le_sum (λ c : list N, 1 + nlen c) (forbidden_conjunctions ex) ltac:(intros; simpl; lia)). lia. }
  apply counts_seq; [apply counts_fold; intros c; apply counts_check; [lia|apply counts_add]|].
  destruct (_ || _).
  - apply counts_seq; [apply counts_add|]. apply counts_seq; apply counts_phrases.
  - intros words. split; [intros w [= <-]; lia|]. intros _. f_equal. lia.
Qed.

Lemma column_overflow_iff ex : column_overflow ex = None ↔ columns_fit ex.
Proof.
  assert (column_overflow_body ex =
    let? _ := check_len U16_MAX (required ex) in
    let? _ := check_len U16_MAX (forbidden ex) in
    let? _ := check_len U16_MAX (anyof ex) in
    let? _ := try_foldl (λ _ g, check_len U16_MAX g) tt (anyof ex) in
    let? _ := check_len U32_MAX (anyof_predicates ex) in
    let? words := count_program ex 3 in return_if (U32_MAX <? words) words) as Eb.
  { unfold column_overflow_body, count_program.
    repeat match goal with |- try_bind ?m _ = try_bind ?m _ => destruct m; cbn [try_bind]; [done|] end.
    rewrite try_bind_assoc. destruct (try_foldl count_predicate 3 (anyof_predicates ex)); cbn [try_bind]; [done|].
    rewrite try_bind_assoc. destruct (check_len U32_MAX (forbidden_conjunctions ex)); cbn [try_bind]; [done|].
    by rewrite try_bind_assoc. }
  assert (column_overflow ex = None ↔ column_overflow_body ex = inr tt) as ->.
  { unfold column_overflow. destruct (column_overflow_body ex) as [|[]]; naive_solver. }
  rewrite Eb. unfold columns_fit.
  destruct (counts_program ex 3) as [Hc1 Hc2]. revert Hc1 Hc2. generalize (count_program ex 3).
  intros cp Hc1 Hc2. rewrite <-!check_len_iff, <-check_groups_iff. repeat setoid_rewrite try_bind_inr.
  assert (3 ≤ program_words ex) as H3 by (unfold program_words; lia).
  split.
  - intros ([] & H1 & [] & H2 & [] & H4 & [] & H5 & [] & _ & w & Hw & Hr).
    split_and!; try done. apply Hc1 in Hw as ->. unfold return_if in Hr.
    destruct (N.ltb_spec U32_MAX (3 + (program_words ex - 3))); [done|lia].
  - intros (H1 & H2 & H4 & H5 & H6). exists tt. split; [done|]. exists tt. split; [done|]. exists tt. split; [done|].
    exists tt. split; [done|]. exists tt. split.
    + apply check_len_iff. etrans; [apply (nlen_le_sum predicate_words); unfold predicate_words; lia|].
      unfold program_words in H6. lia.
    + eexists. split; [apply Hc2; lia|]. unfold return_if.
      destruct (N.ltb_spec U32_MAX (3 + (program_words ex - 3))); [lia|done].
Qed.

(** The overflow guard is exact about what it counts: it passes a query if and
    only if every 16-bit column count fits and the counted words of the compound
    program ([program_words]) are at most [u32::MAX]; none of its own sums
    overflows. *)
Theorem column_overflow_exact ex : column_overflow ex = None ↔ columns_fit ex.
Proof. apply column_overflow_iff. Qed.
