(* ===== verification/Plan.v ===== *)
(** * Anchor selection ([engine/src/compile/plan.rs])

    The signature cover of a query: which feature groups it is stored under,
    in which lane, and its cost class; and the groups a title probes each lane
    with ([segment/seg/matching.rs], [match_collect]). The cover is lossless:
    a matching title probes a group of the cover. *)

From S2P Require Import Prelude Util Dictionary Phrase Compile.

Definition DEFAULT_HOT_ANCHOR_THETA : N := 1024.

(** [compile/extract.rs]: the labels of a phrase graph. *)
Definition phrase_proxy (g : PhraseGraph) : list N := sort_dedup (arcs g ≫= alternatives).

Definition worst_freq (d : Dict) (group : list N) : N :=
  default (umax 32) (iter_max (freq d <$> group)).

Definition singletons (l : list N) : list (list N) := (λ f, [f]) <$> l.

Definition phrase_proxy_plan (ex : Extracted) (d : Dict) : option AnchorPlan :=
  best ← min_by_key (worst_freq d) (List.filter nonempty (phrase_proxy <$> required_phrases ex));
  Some (mkAnchorPlan (singletons best) [] [] ClassB false).

Definition anyof_cover (ex : Extracted) (d : Dict) (theta : N) : option AnchorPlan :=
  best ← min_by_key (worst_freq d) (List.filter (λ g, negb (existsb (is_hot d) g)) (anyof ex));
  let worst := default 0 (iter_max (freq d <$> best)) in
  Some
    (if negb (theta =? 0) && (theta <=? worst)
     then mkAnchorPlan [] [] (singletons best) ClassH false
     else mkAnchorPlan (singletons best) [] [] ClassB ((theta =? 0) && (DEFAULT_HOT_ANCHOR_THETA <=? worst))).

Definition uses_required_phrase_proxy (ex : Extracted) (d : Dict) : bool :=
  nonempty (required_phrases ex) &&
  match required ex with
  | [] => true
  | [r] => is_hot d r
  | _ => false
  end.

Definition universal_plan : AnchorPlan := mkAnchorPlan [] [[]] [] ClassD false.

Definition ordered_pair (a b : N) : list N := if a <? b then [a; b] else [b; a].

Definition anchor_plan (ex : Extracted) (d : Dict) (theta : N) : AnchorPlan :=
  match sort_by_key (freq d) (required ex) with
  | [] =>
      if negb (nonempty (anyof ex)) && negb (nonempty (required_phrases ex)) then universal_plan
      else if nonempty (required_phrases ex) then default universal_plan (phrase_proxy_plan ex d)
      else
        match anyof_cover ex d theta with
        | Some plan => plan
        | None =>
            match min_by_key (worst_freq d) (anyof ex) with
            | Some best => mkAnchorPlan [] (singletons best) [] ClassC false
            | None => universal_plan
            end
        end
  | r1 :: rest =>
      if is_hot d r1 then
        match rest with
        | r2 :: _ => mkAnchorPlan [ordered_pair r1 r2] [] [] ClassB false
        | [] =>
            match phrase_proxy_plan ex d with
            | Some plan => plan
            | None =>
                match anyof_cover ex d theta with
                | Some plan => plan
                | None => mkAnchorPlan [] [[r1]] [] ClassC false
                end
            end
        end
      else if negb (theta =? 0) && (theta <=? freq d r1) then mkAnchorPlan [] [] [[r1]] ClassH false
      else mkAnchorPlan [[r1]] [] [] ClassA ((theta =? 0) && (DEFAULT_HOT_ANCHOR_THETA <=? freq d r1))
  end.

Definition build_signatures (ex : Extracted) (d : Dict) (theta : N) : SigPlan :=
  let plan := anchor_plan ex d theta in
  mkSigPlan (sig_key <$> main_anchors plan) (sig_key <$> broad_anchors plan) (sig_key <$> hot_anchors plan)
    (ap_class plan) (ap_would_be_hot plan).

(** ** The groups a title probes

    The loops of [match_collect]: the main lane with every candidate label and
    with every pair of a masked feature and another feature, the hot and the
    broad lane with every feature, the broad lane once with the empty group. *)

Definition pair_groups (d : Dict) (feats : list N) : list (list N) :=
  h ← feats;
  if is_hot d h then
    (o ← feats; if negb (o =? h) then [ordered_pair h o] else [])
  else [].

Definition main_groups (d : Dict) (probe feats : list N) : list (list N) :=
  singletons probe ++ pair_groups d feats.
Definition hot_groups (feats : list N) : list (list N) := singletons feats.
Definition broad_groups (feats : list N) : list (list N) := singletons feats ++ [[]].

(** ** Losslessness *)

Lemma ordered_pair_comm a b : a ≠ b → ordered_pair a b = ordered_pair b a.
Proof. intros Hab. unfold ordered_pair. destruct (N.ltb_spec a b), (N.ltb_spec b a); try done; lia. Qed.

Lemma elem_of_pair_groups d feats h o :
  h ∈ feats → o ∈ feats → is_hot d h = true → o ≠ h → ordered_pair h o ∈ pair_groups d feats.
Proof.
  intros Hh Ho Hhot Hne. unfold pair_groups. apply list_elem_of_bind. exists h. split; [|done].
  rewrite Hhot. apply list_elem_of_bind. exists o. split; [|done].
  rewrite (proj2 (N.eqb_neq o h) Hne). by left.
Qed.

Lemma elem_of_singletons f l : [f] ∈ singletons l ↔ f ∈ l.
Proof. unfold singletons. rewrite list_elem_of_fmap. naive_solver. Qed.

(** A phrase that occurs shares a label with the title. *)
Lemma phrase_occurs_label g tp title :
  phrase_occurs g tp title → ∃ a, a ∈ title ∧ pa_feature a ∈ phrase_proxy g.
Proof.
  intros (Hp & _ & start & stop & _ & Hr). inversion Hr as [E|qn tn qa ta _ Hqa _ Hta _ Hf E]; [congruence|].
  exists ta. split; [done|]. unfold phrase_proxy. apply elem_of_sort_dedup, list_elem_of_bind. eauto.
Qed.

(** What a matching title gives the cover: the required features, a member of
    every any-of group, and a label of every required phrase, as a candidate
    label. *)
Record covered (ex : Extracted) (probe feats : list N) : Prop := {
  cov_sub : feats ⊆ probe;
  cov_required f : f ∈ required ex → f ∈ feats;
  cov_anyof g : g ∈ anyof ex → ∃ f, f ∈ g ∧ f ∈ feats;
  cov_phrase g : g ∈ required_phrases ex → ∃ f, f ∈ phrase_proxy g ∧ f ∈ probe;
}.

Lemma matches_covered ex probe pos neg tp title :
  pos ⊆ probe → (∀ a, a ∈ title → pa_feature a ∈ probe) →
  matches_flat_features ex pos neg = true →
  (∀ g, g ∈ required_phrases ex → phrase_occurs g tp title) →
  covered ex probe pos.
Proof.
  intros Hsub Hlab Hm Hph. unfold matches_flat_features, flat_matches in Hm.
  rewrite !andb_true_iff, !forallb_elem in Hm. destruct Hm as [[[[Hreq _] Hany] _] _]. split.
  - done.
  - intros f Hf. by apply bsearch_mem_elem, Hreq.
  - intros g Hg. specialize (Hany g Hg). apply existsb_elem in Hany as (f & Hf & Hin).
    exists f. split; [done|]. by apply bsearch_mem_elem.
  - intros g Hg. destruct (phrase_occurs_label g tp title (Hph g Hg)) as (a & Ha & Hf). eauto.
Qed.

(** A group of the plan is probed in the lane of its class. *)
Definition plan_hit (plan : AnchorPlan) (d : Dict) (probe feats : list N) : Prop :=
  if is_opt_in (ap_class plan)
  then ∃ g, g ∈ broad_anchors plan ∧ g ∈ broad_groups feats
  else (∃ g, g ∈ main_anchors plan ∧ g ∈ main_groups d probe feats) ∨
       (∃ g, g ∈ hot_anchors plan ∧ g ∈ hot_groups feats).

Lemma main_hit f d probe feats main cls wbh :
  is_opt_in cls = false → [f] ∈ main → f ∈ probe → plan_hit (mkAnchorPlan main [] [] cls wbh) d probe feats.
Proof.
  intros Hc Hm Hf. unfold plan_hit. simpl. rewrite Hc. left. exists [f]. split; [done|].
  apply elem_of_app. left. by apply elem_of_singletons.
Qed.

Lemma phrase_proxy_plan_hit ex d probe feats plan :
  covered ex probe feats → phrase_proxy_plan ex d = Some plan → plan_hit plan d probe feats.
Proof.
  intros Hcov. unfold phrase_proxy_plan. destruct (min_by_key _ _) as [best|] eqn:E; [|done].
  intros [= <-]. apply min_by_key_elem, elem_of_list_filter_bool in E as [_ E].
  apply list_elem_of_fmap in E as (g & -> & Hg). destruct (cov_phrase _ _ _ Hcov g Hg) as (f & Hf & Hp).
  apply (main_hit f); [done|by apply elem_of_singletons|done].
Qed.

Lemma anyof_cover_hit ex d theta probe feats plan :
  covered ex probe feats → anyof_cover ex d theta = Some plan → plan_hit plan d probe feats.
Proof.
  intros Hcov. unfold anyof_cover. destruct (min_by_key _ _) as [best|] eqn:E; [|done].
  simpl. intros [= <-]. apply min_by_key_elem, elem_of_list_filter_bool in E as [_ Hg].
  destruct (cov_anyof _ _ _ Hcov best Hg) as (f & Hf & Hp). case_match.
  - unfold plan_hit. simpl. right. exists [f]. split; by apply elem_of_singletons.
  - apply (main_hit f); [done|by apply elem_of_singletons|by apply (cov_sub _ _ _ Hcov)].
Qed.

Lemma anchor_plan_hit ex d theta probe feats :
  NoDup (required ex) → covered ex probe feats → plan_hit (anchor_plan ex d theta) d probe feats.
Proof.
  intros Hnd Hcov. unfold anchor_plan.
  assert (plan_hit universal_plan d probe feats) as Huniv.
  { exists []. split; [by left|]. apply elem_of_app. right. by left. }
  pose proof (sort_by_key_perm (freq d) (required ex)) as Hperm.
  destruct (sort_by_key (freq d) (required ex)) as [|r1 rest].
  - case_match; [done|]. case_match.
    { destruct (phrase_proxy_plan ex d) eqn:E; [by eapply phrase_proxy_plan_hit|done]. }
    destruct (anyof_cover ex d theta) eqn:E; [by eapply anyof_cover_hit|].
    destruct (min_by_key (worst_freq d) (anyof ex)) as [best|] eqn:Eb; [|done].
    apply min_by_key_elem in Eb. destruct (cov_anyof _ _ _ Hcov best Eb) as (f & Hf & Hp).
    exists [f]. split; [by apply elem_of_singletons|]. apply elem_of_app. left. by apply elem_of_singletons.
  - assert (r1 ∈ feats) as Hr1 by (apply (cov_required _ _ _ Hcov); rewrite <-Hperm; by left).
    destruct (is_hot d r1) eqn:Hhot.
    + destruct rest as [|r2 rest].
      * destruct (phrase_proxy_plan ex d) eqn:Ep; [by eapply phrase_proxy_plan_hit|].
        destruct (anyof_cover ex d theta) eqn:E; [by eapply anyof_cover_hit|].
        exists [r1]. split; [by left|]. apply elem_of_app. left. by apply elem_of_singletons.
      * left. exists (ordered_pair r1 r2). split; [by left|]. apply elem_of_app. right.
        assert (r2 ∈ feats) by (apply (cov_required _ _ _ Hcov); rewrite <-Hperm; by right; left).
        apply elem_of_pair_groups; try done. rewrite <-Hperm in Hnd.
        apply NoDup_cons in Hnd as [Hn _]. intros ->. apply Hn. by left.
    + case_match.
      * right. exists [r1]. split; [by left|]. by apply elem_of_singletons.
      * apply (main_hit r1); [done|by left|by apply (cov_sub _ _ _ Hcov)].
Qed.

(** A signature of the plan is among those the title probes in its lane. *)
Definition sig_hit (sp : SigPlan) (d : Dict) (probe feats : list N) : Prop :=
  if is_opt_in (sp_class sp)
  then ∃ s, s ∈ broad_sigs sp ∧ s ∈ sig_key <$> broad_groups feats
  else (∃ s, s ∈ main_sigs sp ∧ s ∈ sig_key <$> main_groups d probe feats) ∨
       (∃ s, s ∈ hot_sigs sp ∧ s ∈ sig_key <$> hot_groups feats).

Lemma build_signatures_hit ex d theta probe feats :
  plan_hit (anchor_plan ex d theta) d probe feats → sig_hit (build_signatures ex d theta) d probe feats.
Proof.
  unfold plan_hit, sig_hit, build_signatures. simpl.
  assert (∀ l k : list (list N), (∃ g, g ∈ l ∧ g ∈ k) → ∃ s, s ∈ sig_key <$> l ∧ s ∈ sig_key <$> k) as Hmap.
  { intros l k (g & Hl & Hk). exists (sig_key g). split; by apply list_elem_of_fmap_2. }
  case_match; [apply Hmap|]. intros [?|?]; [left|right]; by apply Hmap.
Qed.

(** Pinning moves the opt-in anchors of class C to the main lane, which
    probes every group the broad lane probes but the empty one. *)
Lemma pin_visible_hit ex d theta probe feats :
  feats ⊆ probe → plan_hit (anchor_plan ex d theta) d probe feats →
  (ap_class (anchor_plan ex d theta) = ClassC → [] ∉ broad_anchors (anchor_plan ex d theta)) →
  sig_hit (pin_visible (build_signatures ex d theta)) d probe feats.
Proof.
  intros Hsub Hhit Hne. unfold pin_visible. case_decide as Hc; [|by apply build_signatures_hit].
  simpl in Hc. unfold plan_hit in Hhit. rewrite Hc in Hhit. simpl in Hhit. destruct Hhit as (g & Hg & Hp).
  unfold sig_hit. simpl. left. exists (sig_key g). split.
  - apply elem_of_app. right. by apply list_elem_of_fmap_2.
  - apply list_elem_of_fmap_2. unfold broad_groups in Hp.
    apply elem_of_app in Hp as [Hp| ->%list_elem_of_singleton]; [|by apply Hne in Hc].
    apply elem_of_app. left. unfold singletons in *. apply list_elem_of_fmap in Hp as (f & -> & Hf).
    apply elem_of_singletons. by apply Hsub.
Qed.

Lemma singletons_no_nil l : [] ∉ singletons l.
Proof. unfold singletons. rewrite list_elem_of_fmap. by intros (? & ? & _). Qed.

(** The plan always is one of these shapes: the anchors are in one lane, the
    lane of the class. *)
Definition one_lane (p : AnchorPlan) : Prop :=
  match ap_class p with
  | ClassA | ClassB => broad_anchors p = [] ∧ hot_anchors p = []
  | ClassC => main_anchors p = [] ∧ hot_anchors p = [] ∧ [] ∉ broad_anchors p
  | ClassD => main_anchors p = [] ∧ hot_anchors p = [] ∧ broad_anchors p = [[]]
  | ClassH => main_anchors p = [] ∧ broad_anchors p = []
  end.

Lemma phrase_proxy_plan_lane ex d plan : phrase_proxy_plan ex d = Some plan → one_lane plan.
Proof. unfold phrase_proxy_plan. destruct (min_by_key _ _); [|done]. by intros [= <-]. Qed.

Lemma anyof_cover_lane ex d theta plan : anyof_cover ex d theta = Some plan → one_lane plan.
Proof.
  unfold anyof_cover. destruct (min_by_key _ _); [|done]. simpl. intros [= <-]. by case_match.
Qed.

Lemma anchor_plan_lane ex d theta : one_lane (anchor_plan ex d theta).
Proof.
  unfold anchor_plan. repeat case_match; try done; eauto using phrase_proxy_plan_lane, anyof_cover_lane.
  - destruct (phrase_proxy_plan ex d) eqn:E; [by eapply phrase_proxy_plan_lane|done].
  - split_and!; try done. apply singletons_no_nil.
  - split_and!; try done. simpl. by intros [=]%list_elem_of_singleton.
Qed.

(** C11. The cover is lossless. If a title matches the query (flat predicates, and
    every required phrase occurring in its graph), and its candidate labels
    include its features and the labels of its graph, then a signature of the
    query's plan is among the signatures the title probes, in the lane of the
    plan's class; and after pinning, in an always-probed lane unless the query
    has no positive anchor at all. *)
Theorem signature_cover_lossless ex d theta probe pos neg tp title :
  NoDup (required ex) → pos ⊆ probe → (∀ a, a ∈ title → pa_feature a ∈ probe) →
  matches_flat_features ex pos neg = true →
  (∀ g, g ∈ required_phrases ex → phrase_occurs g tp title) →
  sig_hit (build_signatures ex d theta) d probe pos ∧
  sig_hit (pin_visible (build_signatures ex d theta)) d probe pos ∧
  (is_opt_in (sp_class (pin_visible (build_signatures ex d theta))) = true →
   sp_class (build_signatures ex d theta) = ClassD).
Proof.
  intros Hnd Hsub Hlab Hm Hph.
  assert (plan_hit (anchor_plan ex d theta) d probe pos) as Hhit.
  { apply anchor_plan_hit; [done|]. by eapply matches_covered. }
  split; [by apply build_signatures_hit|]. split.
  - apply pin_visible_hit; [done..|]. intros Hc.
    pose proof (anchor_plan_lane ex d theta) as Hl. unfold one_lane in Hl. rewrite Hc in Hl. tauto.
  - unfold pin_visible. case_decide; [done|]. simpl in *. by destruct (ap_class _).
Qed.

Lemma signature_cover_lossless_witness :
  let ex := mkExtracted [3] [] [[4; 5]] 1 1 [] [] [] [] in
  sig_hit (build_signatures ex mask_demo 0) mask_demo [3; 4] [3; 4] ∧
  sig_hit (pin_visible (build_signatures ex mask_demo 0)) mask_demo [3; 4] [3; 4] ∧
  (is_opt_in (sp_class (pin_visible (build_signatures ex mask_demo 0))) = true →
   sp_class (build_signatures ex mask_demo 0) = ClassD).
Proof.
  intros ex. apply (signature_cover_lossless ex mask_demo 0 [3; 4] [3; 4] [] 0 []).
  - repeat constructor. by apply not_elem_of_nil.
  - done.
  - by intros a ?%not_elem_of_nil.
  - vm_compute. reflexivity.
  - by intros g ?%not_elem_of_nil.
Defined.

(** ** The visibility decision *)

Lemma min_by_key_is_none {A} (k k' : A → N) (l : list A) :
  min_by_key k l = None ↔ min_by_key k' l = None.
Proof. by rewrite !min_by_key_None. Qed.

Definition same_mask (d d' : Dict) : Prop := ∀ f, mask_bit d f = mask_bit d' f.

Lemma same_mask_hot d d' f : same_mask d d' → is_hot d f = is_hot d' f.
Proof. intros Hm. unfold is_hot. by rewrite Hm. Qed.

Definition opt_in_of (o : option AnchorPlan) : option bool := (λ p, is_opt_in (ap_class p)) <$> o.

Lemma phrase_proxy_plan_opt_in ex d d' : opt_in_of (phrase_proxy_plan ex d) = opt_in_of (phrase_proxy_plan ex d').
Proof.
  unfold phrase_proxy_plan. pose proof (min_by_key_is_none (worst_freq d) (worst_freq d')
    (List.filter nonempty (phrase_proxy <$> required_phrases ex))) as Hn.
  destruct (min_by_key (worst_freq d) _), (min_by_key (worst_freq d') _); naive_solver.
Qed.

Lemma anyof_cover_opt_in ex d d' theta theta' :
  same_mask d d' → opt_in_of (anyof_cover ex d theta) = opt_in_of (anyof_cover ex d' theta').
Proof.
  intros Hm. unfold anyof_cover.
  assert (List.filter (λ g, negb (existsb (is_hot d) g)) (anyof ex) =
    List.filter (λ g, negb (existsb (is_hot d') g)) (anyof ex)) as ->.
  { apply filter_ext. intros g. f_equal. apply existsb_mem_ext; [done|]. intros f _. by apply same_mask_hot. }
  pose proof (min_by_key_is_none (worst_freq d) (worst_freq d')
    (List.filter (λ g, negb (existsb (is_hot d') g)) (anyof ex))) as Hn.
  destruct (min_by_key (worst_freq d) _), (min_by_key (worst_freq d') _); simpl; try naive_solver.
  by repeat case_match.
Qed.

Lemma sort_by_key_shape (k k' : N → N) l :
  match sort_by_key k l, sort_by_key k' l with
  | [], [] => True
  | [a], [b] => a = b
  | _ :: _ :: _, _ :: _ :: _ => True
  | _, _ => False
  end.
Proof.
  assert (sort_by_key k l ≡ₚ sort_by_key k' l) as H1 by (etrans; [|symmetry]; apply sort_by_key_perm).
  destruct (sort_by_key k l) as [|a [|b s]], (sort_by_key k' l) as [|a' [|b' s']]; try done;
    apply Permutation_length in H1 as Hl; simpl in Hl; try lia.
  by apply Permutation_singleton_inj in H1.
Qed.

(** Whether a query is default-visible depends on the frozen mask alone:
    neither the hot-anchor threshold nor the live frequencies can move a query
    between the always-probed lanes and the opt-in lane. *)
Theorem plan_visibility_invariant ex d d' theta theta' :
  same_mask d d' →
  is_opt_in (ap_class (anchor_plan ex d theta)) = is_opt_in (ap_class (anchor_plan ex d' theta')).
Proof.
  intros Hm. unfold anchor_plan.
  pose proof (sort_by_key_shape (freq d) (freq d') (required ex)) as Hshape.
  pose proof (phrase_proxy_plan_opt_in ex d d') as Hp. pose proof (anyof_cover_opt_in ex d d' theta theta' Hm) as Ha.
  pose proof (min_by_key_is_none (worst_freq d) (worst_freq d') (anyof ex)) as Hn.
  destruct (sort_by_key (freq d) (required ex)) as [|r1 [|r2 rest]],
    (sort_by_key (freq d') (required ex)) as [|r1' [|r2' rest']]; try done.
  - case_match; [done|]. case_match.
    { destruct (phrase_proxy_plan ex d), (phrase_proxy_plan ex d'); simpl in *; congruence. }
    destruct (anyof_cover ex d theta), (anyof_cover ex d' theta'); simpl in *; try congruence.
    destruct (min_by_key (worst_freq d) _), (min_by_key (worst_freq d') _); naive_solver.
  - subst r1'. rewrite (same_mask_hot d d') by done. case_match; [|by repeat case_match].
    destruct (phrase_proxy_plan ex d), (phrase_proxy_plan ex d'); simpl in *; try congruence.
    destruct (anyof_cover ex d theta), (anyof_cover ex d' theta'); simpl in *; congruence.
  - by repeat case_match.
Qed.

Lemma plan_visibility_invariant_witness :
  let ex := mkExtracted [] [] [[4; 5]] 1 1 [] [] [] [] in
  is_opt_in (ap_class (anchor_plan ex mask_demo 0)) = is_opt_in (ap_class (anchor_plan ex mask_demo 5)).
Proof. intros ex. apply (plan_visibility_invariant ex mask_demo mask_demo 0 5). done. Defined.

(** A query is stored in exactly one lane, the lane of its class; the classes
    split into the always-probed ones (A, B in main, H in hot) and the opt-in
    ones (C, D in broad), class D under the universal signature alone; and the
    forbidden side of the query never influences the plan. *)
Theorem anchor_plan_one_lane ex ex' d theta :
  one_lane (anchor_plan ex d theta) ∧
  (required ex' = required ex → anyof ex' = anyof ex → required_phrases ex' = required_phrases ex →
   anchor_plan ex' d theta = anchor_plan ex d theta).
Proof.
  split; [apply anchor_plan_lane|]. intros E1 E2 E3.
  unfold anchor_plan, phrase_proxy_plan, anyof_cover. by rewrite E1, E2, E3.
Qed.
