(* ===== verification/Extract.v ===== *)
(** * Extraction ([engine/src/compile/extract.rs]) and full compilation ([compile/plan.rs])

    From the parsed query to its integer form. [extract] interns vocabulary
    and counts query frequencies; [extract_readonly] resolves against a frozen
    dictionary. The two source functions differ only in how a text becomes
    feature ids, so both are instances of one loop over a [Compiler]. *)

From S2P Require Import Prelude Util Text Dsl Dictionary Phrase Analyze Compile Plan.
From Stdlib Require Import Btauto.

(** How a text is compiled: [compile_features] and [compile_phrase], or their
    read-only twins. *)
Record Compiler := {
  c_features : rstring → Dict → list N * Dict;
  c_phrase : rstring → Dict → option (PhraseGraph * Dict);
}.

Definition interning `{Analyzer} : Compiler := {|
  c_features := compile_features;
  c_phrase := compile_phrase;
|}.

Definition readonly `{Analyzer} : Compiler := {|
  c_features text d := (compile_features_readonly text d, d);
  c_phrase text d := g ← compile_phrase_readonly text d; Some (g, d);
|}.

(** The local variables of the extraction loop. *)
Record Acc := mkAcc {
  a_required : list N;
  a_forbidden : list N;
  a_anyof : list (list N);
  a_groups : N;
  a_terms : N;
  a_preds : list AnyOfPredicate;
  a_conjs : list (list N);
  a_rphrases : list PhraseGraph;
  a_fphrases : list PhraseGraph;
  a_words : list rstring;
}.

Definition acc_new : Acc := mkAcc [] [] [] 0 0 [] [] [] [] [].

Section extract.
Context (c : Compiler).

(** [flush_positive_run] and its read-only twin. *)
Definition flush_positive_run (acc : Acc) (d : Dict) : Acc * Dict :=
  match a_words acc with
  | [] => (acc, d)
  | words =>
      let '(fs, d) := c_features c (join [SPACE] words) d in
      (mkAcc (a_required acc ++ fs) (a_forbidden acc) (a_anyof acc) (a_groups acc) (a_terms acc)
         (a_preds acc) (a_conjs acc) (a_rphrases acc) (a_fphrases acc) [], d)
  end.

Definition push_forbidden_term (features : list N) (acc : Acc) : Acc :=
  match sort_dedup features with
  | [] => acc
  | [f] => mkAcc (a_required acc) (a_forbidden acc ++ [f]) (a_anyof acc) (a_groups acc) (a_terms acc)
             (a_preds acc) (a_conjs acc) (a_rphrases acc) (a_fphrases acc) (a_words acc)
  | fs => mkAcc (a_required acc) (a_forbidden acc) (a_anyof acc) (a_groups acc) (a_terms acc)
            (a_preds acc) (a_conjs acc ++ [fs]) (a_rphrases acc) (a_fphrases acc) (a_words acc)
  end.

(** The member loop of a negated any-of. *)
Fixpoint forbidden_members (ms : list rstring) (acc : Acc) (d : Dict) : Acc * Dict :=
  match ms with
  | [] => (acc, d)
  | m :: ms' =>
      let '(fs, d) := c_features c m d in
      forbidden_members ms' (push_forbidden_term fs acc) d
  end.

(** The member loop of a positive any-of. *)
Fixpoint semantic_members (ms : list rstring) (d : Dict) : list AnyOfMember * Dict :=
  match ms with
  | [] => ([], d)
  | m :: ms' =>
      let '(fs, d) := c_features c m d in
      let '(out, d) := semantic_members ms' d in
      (match member_from_features fs with Some member => member :: out | None => out end, d)
  end.

(** The retrieval proxy of a member: its rarest feature. *)
Definition member_proxy (d : Dict) (m : AnyOfMember) : option N :=
  min_by_key (freq d) (omap head (requirements m)).

Definition push_anyof (members : list AnyOfMember) (acc : Acc) (d : Dict) : Acc :=
  match members with
  | [] => acc
  | [m] => mkAcc (a_required acc ++ mjoin (requirements m)) (a_forbidden acc) (a_anyof acc) (a_groups acc)
             (a_terms acc) (a_preds acc) (a_conjs acc) (a_rphrases acc) (a_fphrases acc) (a_words acc)
  | _ =>
      let proxies := sort_dedup (omap (member_proxy d) members) in
      mkAcc (a_required acc) (a_forbidden acc)
        (if nonempty proxies then a_anyof acc ++ [proxies] else a_anyof acc)
        (sat_add 32 (a_groups acc) 1)
        (sat_add 32 (a_terms acc) (default 0 (iter_min ((λ m, try_u32 (length (requirements m))) <$> members))))
        (if existsb (λ m, (1 <? length (requirements m))%nat) members
         then a_preds acc ++ [mkAnyOfPredicate members] else a_preds acc)
        (a_conjs acc) (a_rphrases acc) (a_fphrases acc) (a_words acc)
  end.

Definition push_phrase (neg : bool) (g : PhraseGraph) (acc : Acc) : Acc :=
  if nonempty (arcs g) then
    if neg
    then mkAcc (a_required acc) (a_forbidden acc) (a_anyof acc) (a_groups acc) (a_terms acc) (a_preds acc)
           (a_conjs acc) (a_rphrases acc) (a_fphrases acc ++ [g]) (a_words acc)
    else mkAcc (a_required acc) (a_forbidden acc) (a_anyof acc) (a_groups acc) (a_terms acc) (a_preds acc)
           (a_conjs acc) (a_rphrases acc ++ [g]) (a_fphrases acc) (a_words acc)
  else acc.

Definition push_word (w : rstring) (acc : Acc) : Acc :=
  mkAcc (a_required acc) (a_forbidden acc) (a_anyof acc) (a_groups acc) (a_terms acc) (a_preds acc)
    (a_conjs acc) (a_rphrases acc) (a_fphrases acc) (a_words acc ++ [w]).

(** The body of [for clause in &ast.clauses]. *)
Definition extract_clause (cl : Clause) (acc : Acc) (d : Dict) : option (Acc * Dict) :=
  match atom cl, negated cl with
  | Term w, false => Some (push_word w acc, d)
  | at_, neg =>
      let '(acc, d) := flush_positive_run acc d in
      match at_ with
      | Term w => let '(fs, d) := c_features c w d in Some (push_forbidden_term fs acc, d)
      | Phrase w => '(g, d) ← c_phrase c w d; Some (push_phrase neg g acc, d)
      | AnyOf ms =>
          if neg then Some (forbidden_members ms acc d)
          else
            let '(members, d) := semantic_members ms d in
            Some (push_anyof (sort_dedup members) acc d, d)
      end
  end.

Fixpoint extract_clauses (cls : list Clause) (acc : Acc) (d : Dict) : option (Acc * Dict) :=
  match cls with
  | [] => Some (flush_positive_run acc d)
  | cl :: cls' => '(acc, d) ← extract_clause cl acc d; extract_clauses cls' acc d
  end.

End extract.

(** The query before equivalence expansion. *)
Definition acc_extracted (acc : Acc) : Extracted :=
  mkExtracted (sort_dedup (a_required acc)) (sort_dedup (a_forbidden acc)) (a_anyof acc) (a_groups acc)
    (a_terms acc) (a_preds acc) (a_conjs acc) (a_rphrases acc) (a_fphrases acc).

Definition frequency_features (ex : Extracted) : list N :=
  sort_dedup (required ex ++ mjoin (anyof ex) ++ (required_phrases ex ≫= phrase_proxy)).

Fixpoint bump_freqs (fs : list N) (d : Dict) : option Dict :=
  match fs with
  | [] => Some d
  | f :: fs' => d ← bump_freq f d; bump_freqs fs' d
  end.

Definition extract `{Analyzer} (ast : Ast) (d : Dict) : option (Extracted * Dict) :=
  '(acc, d) ← extract_clauses interning ast acc_new d;
  let ex := acc_extracted acc in
  d ← bump_freqs (frequency_features ex) d;
  Some (expand_equivalences (equivalences d) ex, d).

Definition extract_readonly `{Analyzer} (ast : Ast) (d : Dict) : option Extracted :=
  '(acc, d) ← extract_clauses readonly ast acc_new d;
  Some (expand_equivalences (equivalences d) (acc_extracted acc)).

(** [compile_one]. The order of equal frequencies in the mask freeze is [idx];
    the outer option is fuel or panic, the sum the parse error. *)
Definition compile_one `{Analyzer} (idx : Dict → list N) (text : rstring) (logical_id version : N)
  (d : Dict) (theta : N) : option (ParseError + CompiledQuery * Dict) :=
  r ← parse text;
  match r with
  | inl e => Some (inl e)
  | inr ast =>
      '(ex, d) ← extract ast d;
      d ← (if finalized d then Some d else finalize_mask (idx d) d);
      let plan := build_signatures ex d theta in
      Some (inr (mkCompiledQuery logical_id version ex (main_sigs plan) (broad_sigs plan) (hot_sigs plan)
                   (sp_class plan), d))
  end.

Definition compile_one_readonly `{Analyzer} (text : rstring) (logical_id : N) (d : Dict) (theta : N) :
  option (ParseError + CompiledQuery) :=
  r ← parse text;
  match r with
  | inl e => Some (inl e)
  | inr ast =>
      ex ← extract_readonly ast d;
      let plan := build_signatures ex d theta in
      Some (inr (mkCompiledQuery logical_id 0 ex (main_sigs plan) (broad_sigs plan) (hot_sigs plan)
                   (sp_class plan)))
  end.

Lemma member_from_features_None fs : member_from_features fs = None ↔ fs = [].
Proof.
  unfold member_from_features. rewrite <-(sort_dedup_nil fs).
  destruct (nonempty (sort_dedup fs)) eqn:E; [apply nonempty_true in E|apply nonempty_false in E]; naive_solver.
Qed.

(** ** The meaning of a query

    Over the features a text compiles to ([feats]) and two membership tests:
    a run of positive words requires all features of the joined run, a negated
    word or group member rejects when the whole of it is present, an any-of
    needs one member with all its features (members without features do not
    count, and a group of such members is vacuous). *)

Section meaning.
Context (feats : rstring → list N) (in_pos in_neg : N → bool).

Definition run_ok (ws : list rstring) : bool :=
  match ws with [] => true | _ => forallb in_pos (feats (join [SPACE] ws)) end.

Definition whole (test : N → bool) (w : rstring) : bool := nonempty (feats w) && forallb test (feats w).

Definition clause_ok (cl : Clause) : bool :=
  match atom cl, negated cl with
  | Term w, true => negb (whole in_neg w)
  | AnyOf ms, true => negb (existsb (whole in_neg) ms)
  | AnyOf ms, false => negb (existsb (λ m, nonempty (feats m)) ms) || existsb (whole in_pos) ms
  | _, _ => true
  end.

(** The flat part of the conjunction of the clauses; [ws] is the open run. *)
Fixpoint flat_meaning (ws : list rstring) (cls : list Clause) : bool :=
  match cls with
  | [] => run_ok ws
  | cl :: cls' =>
      match atom cl, negated cl with
      | Term w, false => flat_meaning (ws ++ [w]) cls'
      | _, _ => run_ok ws && clause_ok cl && flat_meaning [] cls'
      end
  end.

(** ** What the accumulators stand for *)

Definition acc_flat (acc : Acc) : bool :=
  forallb in_pos (a_required acc) && negb (existsb in_neg (a_forbidden acc)) &&
  forallb (existsb in_pos) (a_anyof acc) && forallb (predicate_matches in_pos) (a_preds acc) &&
  negb (existsb (forallb in_neg) (a_conjs acc)).

Lemma acc_flat_extracted acc : flat_matches in_pos in_neg (acc_extracted acc) = acc_flat acc.
Proof. unfold flat_matches, acc_flat. simpl. by rewrite forallb_sort_dedup, existsb_sort_dedup. Qed.

Lemma forallb_snoc {A} (f : A → bool) l x : forallb f (l ++ [x]) = forallb f l && f x.
Proof. rewrite forallb_app. simpl. by rewrite andb_true_r. Qed.

Lemma existsb_snoc {A} (f : A → bool) l x : existsb f (l ++ [x]) = existsb f l || f x.
Proof. rewrite existsb_app. simpl. by rewrite orb_false_r. Qed.

Lemma push_forbidden_term_flat fs acc :
  acc_flat (push_forbidden_term fs acc) = acc_flat acc && negb (nonempty fs && forallb in_neg fs).
Proof.
  assert (nonempty fs = nonempty (sort_dedup fs)) as ->.
  { apply eq_true_iff_eq. by rewrite !nonempty_true, sort_dedup_nil. }
  rewrite <-(forallb_sort_dedup in_neg fs). unfold push_forbidden_term, acc_flat.
  destruct (sort_dedup fs) as [|f [|g k]]; simpl; [by rewrite andb_true_r| |].
  - rewrite existsb_snoc. change (nonempty [f]) with true. btauto.
  - rewrite existsb_snoc. change (nonempty (f :: g :: k)) with true. cbn [forallb]. btauto.
Qed.

(** The members extraction builds: one singleton requirement per feature. *)
Definition plain_member (m : AnyOfMember) : Prop :=
  ∃ fs, fs ≠ [] ∧ requirements m = singletons fs.

Lemma member_from_features_plain fs m :
  member_from_features fs = Some m →
  plain_member m ∧ member_matches in_pos m = forallb in_pos fs.
Proof.
  unfold member_from_features. destruct (nonempty (sort_dedup fs)) eqn:E; [|done]. intros [= <-].
  apply nonempty_true in E. split; [by exists (sort_dedup fs)|].
  unfold member_matches. simpl. rewrite <-(forallb_sort_dedup in_pos fs).
  induction (sort_dedup fs) as [|f l IH]; simpl; [done|]. rewrite orb_false_r.
  destruct l; simpl in *; [by rewrite andb_true_r|]. by rewrite IH.
Qed.

Lemma singletons_heads fs : omap head (singletons fs) = fs.
Proof. induction fs as [|f fs IH]; simpl; [done|]. f_equal. exact IH. Qed.

Lemma singletons_join fs : mjoin (singletons fs) = fs.
Proof. induction fs as [|f fs IH]; simpl; [done|]. f_equal. exact IH. Qed.

Lemma plain_member_matches m fs :
  requirements m = singletons fs → member_matches in_pos m = forallb in_pos fs.
Proof.
  unfold member_matches. intros ->. induction fs as [|f fs IH]; simpl; [done|]. by rewrite orb_false_r, IH.
Qed.

Lemma plain_member_proxy d m :
  plain_member m → ∃ f, member_proxy d m = Some f ∧ f ∈ mjoin (requirements m) ∧
    (length (requirements m) = 1%nat → requirements m = [[f]]).
Proof.
  intros (fs & Hne & E). unfold member_proxy. rewrite E, singletons_heads, singletons_join.
  destruct (min_by_key (freq d) fs) as [f|] eqn:Ef; [|by apply min_by_key_None in Ef].
  apply min_by_key_elem in Ef. exists f. split_and!; [done|done|]. intros Hl. unfold singletons in Hl |- *.
  rewrite length_fmap in Hl. destruct fs as [|g [|]]; simpl in *; try lia. by apply list_elem_of_singleton in Ef as ->.
Qed.

Lemma push_anyof_flat members acc d :
  Forall plain_member members →
  acc_flat (push_anyof members acc d) =
    acc_flat acc && (negb (nonempty members) || existsb (member_matches in_pos) members).
Proof.
  intros Hpl. unfold push_anyof. destruct members as [|m0 [|m2 ms]].
  - simpl. by rewrite andb_true_r.
  - apply Forall_inv in Hpl as (fs & _ & E). unfold acc_flat. simpl.
    rewrite forallb_app, E, singletons_join, (plain_member_matches m0 fs E). btauto.
  - remember (m0 :: m2 :: ms) as members eqn:Em.
    assert (nonempty members = true) as -> by by subst. cbn [negb orb].
    set (proxies := sort_dedup (omap (member_proxy d) members)). rewrite Forall_forall in Hpl.
    assert (∀ f, f ∈ proxies ↔ ∃ m, m ∈ members ∧ member_proxy d m = Some f) as Hprox.
    { intros f. unfold proxies. by rewrite elem_of_sort_dedup, list_elem_of_omap. }
    assert (existsb (member_matches in_pos) members = true → existsb in_pos proxies = true) as Hnec.
    { rewrite !existsb_elem. intros (m & Hm & Hmm). destruct (Hpl m Hm) as (fs & Hne & E).
      destruct (plain_member_proxy d m (Hpl m Hm)) as (f & Hf & Hin & _). exists f. rewrite Hprox. split; [eauto|].
      rewrite (plain_member_matches m fs E), forallb_elem in Hmm. apply Hmm. by rewrite E, singletons_join in Hin. }
    assert (nonempty proxies = true) as ->.
    { apply nonempty_true. destruct (plain_member_proxy d m0) as (f & Hf & _); [apply Hpl; subst; by left|].
      intros E0. assert (f ∈ proxies) as Hin by (apply Hprox; exists m0; split; [subst; by left|done]).
      rewrite E0 in Hin. by apply not_elem_of_nil in Hin. }
    clear Em m0 m2 ms. destruct (existsb (λ m, (1 <? length (requirements m))%nat) members) eqn:Ecomp.
    + unfold acc_flat. cbn [a_required a_forbidden a_anyof a_preds a_conjs]. rewrite !forallb_snoc.
      change (predicate_matches in_pos (mkAnyOfPredicate members)) with (existsb (member_matches in_pos) members).
      destruct (existsb (member_matches in_pos) members); rewrite ?Hnec by done; btauto.
    + assert (existsb in_pos proxies = existsb (member_matches in_pos) members) as Hsuf.
      { apply eq_true_iff_eq. split; [|done]. rewrite !existsb_elem. intros (f & (m & Hm & Hf)%Hprox & Hp).
        exists m. split; [done|]. destruct (Hpl m Hm) as (fs & Hne & E).
        destruct (plain_member_proxy d m (Hpl m Hm)) as (f' & Hf' & _ & Hone). simplify_eq.
        unfold member_matches. rewrite Hone; [by simpl; rewrite Hp|].
        assert ((1 <? length (requirements m))%nat = false) as Hl%Nat.ltb_ge.
        { destruct (1 <? length (requirements m))%nat eqn:El; [|done]. rewrite <-Ecomp. symmetry.
          apply existsb_elem. eauto. }
        rewrite E in Hl |- *. unfold singletons in *. rewrite length_fmap in *. destruct fs; simpl in *; [done|lia]. }
      rewrite <-Hsuf. unfold acc_flat. simpl. rewrite forallb_snoc. btauto.
Qed.

End meaning.

(** ** Invariants of extraction, for both compilers *)

(** What a compiler guarantees, for quoted texts that satisfy [ok]: it
    terminates, only grows the dictionary, and the ids it returns satisfy [P],
    a property growth preserves. *)
Record compiler_ok (c : Compiler) (ok : rstring → Prop) (P : Dict → N → Prop) : Prop := {
  cp_mono d d' f : dict_ext d d' → P d f → P d' f;
  cp_features_len text d : (length (names d) ≤ length (names (c_features c text d).2))%nat;
  cp_features text d : dict_wf d → dict_room (c_features c text d).2 →
    dict_wf (c_features c text d).2 ∧ dict_ext d (c_features c text d).2 ∧
    Forall (P (c_features c text d).2) (c_features c text d).1;
  cp_phrase text d : ok text →
    ∃ g d', c_phrase c text d = Some (g, d') ∧ (length (names d) ≤ length (names d'))%nat ∧
      (dict_wf d → dict_room d' → dict_wf d' ∧ dict_ext d d' ∧ (arcs g = [] ∨ graph_ok g) ∧ Forall (P d') (phrase_proxy g));
}.

(** The accumulators are well formed: what the final query needs. *)
Record acc_ok (P : Dict → N → Prop) (d : Dict) (acc : Acc) : Prop := {
  ok_required : Forall (P d) (a_required acc);
  ok_anyof : Forall (λ g, g ≠ [] ∧ Forall (P d) g) (a_anyof acc);
  ok_preds : Forall predicate_ok (a_preds acc);
  ok_conjs : Forall (λ c, (2 ≤ length c)%nat ∧ StronglySorted rlt c) (a_conjs acc);
  ok_rphrases : Forall (λ g, graph_ok g ∧ Forall (P d) (phrase_proxy g)) (a_rphrases acc);
  ok_fphrases : Forall graph_ok (a_fphrases acc);
}.

(** The quoted text of a clause satisfies [ok]. *)
Definition quoted_ok (ok : rstring → Prop) (cl : Clause) : Prop :=
  match atom cl with Phrase w => ok w | _ => True end.

Section invariants.
Context (c : Compiler) (ok : rstring → Prop) (P : Dict → N → Prop) (Hc : compiler_ok c ok P).

Lemma acc_ok_mono d d' acc : dict_ext d d' → acc_ok P d acc → acc_ok P d' acc.
Proof.
  intros Hext [H1 H2 H3 H4 H5 H6].
  assert (∀ l, Forall (P d) l → Forall (P d') l) as Hl.
  { intros l H. eapply Forall_impl; [exact H|]. intros f. by apply (cp_mono _ _ _ Hc). }
  split; try done; [by apply Hl| |].
  - eapply Forall_impl; [exact H2|]. intros g [? ?]. auto.
  - eapply Forall_impl; [exact H5|]. intros g [? ?]. auto.
Qed.

Lemma push_word_ok w d acc : acc_ok P d acc → acc_ok P d (push_word w acc).
Proof. by intros []. Qed.

Lemma push_forbidden_term_ok fs d acc : acc_ok P d acc → acc_ok P d (push_forbidden_term fs acc).
Proof.
  intros [H1 H2 H3 H4 H5 H6]. unfold push_forbidden_term. pose proof (sort_dedup_sorted fs) as Hs. destruct (sort_dedup fs) as [|f [|g k]]; [done| |].
  - done.
  - split; try done. simpl. apply Forall_app_2; [done|]. constructor; [|done]. split; [simpl; lia|done].
Qed.

Lemma push_phrase_ok neg g d acc :
  acc_ok P d acc → (arcs g = [] ∨ graph_ok g) → Forall (P d) (phrase_proxy g) →
  acc_ok P d (push_phrase neg g acc).
Proof.
  intros [H1 H2 H3 H4 H5 H6] Hg Hp. unfold push_phrase. destruct (nonempty (arcs g)) eqn:E; [|done].
  apply nonempty_true in E. destruct Hg as [|Hg]; [done|].
  destruct neg; split; try done; simpl; (apply Forall_app_2; [done|]); by constructor.
Qed.

Lemma push_anyof_ok members d acc :
  acc_ok P d acc → Forall plain_member members →
  Forall (λ m, Forall (P d) (mjoin (requirements m))) members →
  acc_ok P d (push_anyof members acc d).
Proof.
  intros [H1 H2 H3 H4 H5 H6] Hpl HP. unfold push_anyof. destruct members as [|m0 [|m2 ms]]; [done| |].
  - split; try done. simpl. apply Forall_app_2; [done|]. by apply Forall_inv in HP.
  - remember (m0 :: m2 :: ms) as members eqn:Em. rewrite Forall_forall in Hpl. rewrite Forall_forall in HP.
    split; try done; simpl.
    + destruct (nonempty _) eqn:E; [|done]. apply nonempty_true in E. apply Forall_app_2; [done|].
      constructor; [|done]. split; [done|]. apply Forall_forall. intros f Hf.
      rewrite elem_of_sort_dedup in Hf. apply list_elem_of_omap in Hf as (m & Hm & Hprox).
      destruct (plain_member_proxy d m (Hpl m Hm)) as (f' & Hf' & Hin & _). simplify_eq.
      specialize (HP m Hm). rewrite Forall_forall in HP. auto.
    + destruct (existsb _ members); [|done]. apply Forall_app_2; [done|]. constructor; [|done].
      split; simpl; [by subst|]. apply Forall_forall. intros m Hm. destruct (Hpl m Hm) as (fs & Hne & E).
      unfold member_ok. rewrite E. unfold singletons. split; [by destruct fs|]. apply Forall_fmap. by apply Forall_true.
Qed.

(** A step of the loop: it grows the dictionary, and with room keeps all well. *)
Definition step_ok (d : Dict) (acc : Acc) (r : Acc * Dict) : Prop :=
  (length (names d) ≤ length (names r.2))%nat ∧
  (dict_wf d → acc_ok P d acc → dict_room r.2 → dict_wf r.2 ∧ dict_ext d r.2 ∧ acc_ok P r.2 r.1).

Lemma room_mid d d' : (length (names d) ≤ length (names d'))%nat → dict_room d' → dict_room d.
Proof. unfold dict_room. lia. Qed.

Lemma step_ok_trans d1 acc1 r2 r3 : step_ok d1 acc1 r2 → step_ok r2.2 r2.1 r3 → step_ok d1 acc1 r3.
Proof.
  intros [L1 S1] [L2 S2]. split; [lia|]. intros Hwf Hacc Hr.
  destruct S1 as (W & E & A); [done|done|by eapply room_mid|].
  destruct S2 as (W' & E' & A'); [done..|]. split_and!; [done|by etrans|done].
Qed.

Lemma flush_ok acc d : step_ok d acc (flush_positive_run c acc d).
Proof.
  unfold flush_positive_run. destruct (a_words acc) as [|w ws]; [split; [done|]; intros; by split_and!|].
  set (text := join [SPACE] (w :: ws)).
  pose proof (cp_features_len _ _ _ Hc text d) as Hl. pose proof (cp_features _ _ _ Hc text d) as Hf.
  destruct (c_features c text d) as [fs d']. simpl in *. split; [done|]. intros Hwf Hacc Hr.
  destruct (Hf Hwf Hr) as (W & E & F). split_and!; [done|done|].
  destruct (acc_ok_mono d d' acc E Hacc). split; try done. simpl. by apply Forall_app_2.
Qed.

Lemma forbidden_term_step w acc d :
  step_ok d acc (let '(fs, d') := c_features c w d in (push_forbidden_term fs acc, d')).
Proof.
  pose proof (cp_features_len _ _ _ Hc w d) as Hl. pose proof (cp_features _ _ _ Hc w d) as Hf.
  destruct (c_features c w d) as [fs d']. simpl in *. split; [done|]. intros Hwf Hacc Hr.
  destruct (Hf Hwf Hr) as (W & E & _). split_and!; [done|done|].
  by eapply push_forbidden_term_ok, acc_ok_mono.
Qed.

Lemma forbidden_members_ok ms acc d : step_ok d acc (forbidden_members c ms acc d).
Proof.
  revert acc d. induction ms as [|m ms IH]; intros acc d; simpl; [split; [done|]; intros; by split_and!|].
  pose proof (forbidden_term_step m acc d) as Hs. destruct (c_features c m d) as [fs d'].
  by eapply step_ok_trans; [exact Hs|].
Qed.

Lemma semantic_members_ok ms d :
  let '(out, d') := semantic_members c ms d in
  (length (names d) ≤ length (names d'))%nat ∧ Forall plain_member out ∧
  (dict_wf d → dict_room d' → dict_wf d' ∧ dict_ext d d' ∧ Forall (λ m, Forall (P d') (mjoin (requirements m))) out).
Proof.
  revert d. induction ms as [|m ms IH]; intros d; simpl; [split_and!; [done|constructor|]; by intros; split_and!|].
  pose proof (cp_features_len _ _ _ Hc m d) as Hl. pose proof (cp_features _ _ _ Hc m d) as Hf.
  destruct (c_features c m d) as [fs d1]. specialize (IH d1).
  destruct (semantic_members c ms d1) as [out d2]. destruct IH as (Hl2 & Hpl & Hrest). simpl in *.
  split_and!; [lia| |].
  - destruct (member_from_features fs) as [mem|] eqn:E; [|done]. constructor; [|done].
    by apply (member_from_features_plain (λ _, true)) in E as [? _].
  - intros Hwf Hr. destruct Hf as (W & E & F); [done|by eapply room_mid|].
    destruct Hrest as (W' & E' & F'); [done|done|]. split_and!; [done|by etrans|].
    destruct (member_from_features fs) as [mem|] eqn:Em; [|done]. constructor; [|done].
    unfold member_from_features in Em. destruct (nonempty _); [|done]. simplify_eq. simpl.
    fold (singletons (sort_dedup fs)). rewrite singletons_join. apply Forall_forall. intros f Hin.
    rewrite elem_of_sort_dedup in Hin. rewrite Forall_forall in F. apply (cp_mono _ _ _ Hc d1 d2); auto.
Qed.

Lemma extract_clause_ok cl acc d : quoted_ok ok cl → ∃ r, extract_clause c cl acc d = Some r ∧ step_ok d acc r.
Proof.
  intros Hq. unfold quoted_ok in Hq.
  assert (∀ r, step_ok (flush_positive_run c acc d).2 (flush_positive_run c acc d).1 r → step_ok d acc r) as Hfl.
  { intros r Hr. eapply step_ok_trans; [apply flush_ok|exact Hr]. }
  unfold extract_clause. destruct (atom cl) as [w|w|ms], (negated cl);
    try (destruct (flush_positive_run c acc d) as [acc1 d1]; simpl in Hfl).
  - pose proof (forbidden_term_step w acc1 d1). destruct (c_features c w d1). eauto.
  - eexists. split; [done|]. split; [done|]. intros. simpl. split_and!; [done|reflexivity|by apply push_word_ok].
  - destruct (cp_phrase _ _ _ Hc w d1 Hq) as (g & d2 & -> & Hl & Hg). eexists. split; [done|]. apply Hfl. split; [done|].
    simpl. intros Hwf Hacc Hr. destruct (Hg Hwf Hr) as (W & E & A & F). split_and!; [done|done|].
    apply push_phrase_ok; [by eapply acc_ok_mono|done|done].
  - destruct (cp_phrase _ _ _ Hc w d1 Hq) as (g & d2 & -> & Hl & Hg). eexists. split; [done|]. apply Hfl. split; [done|].
    simpl. intros Hwf Hacc Hr. destruct (Hg Hwf Hr) as (W & E & A & F). split_and!; [done|done|].
    apply push_phrase_ok; [by eapply acc_ok_mono|done|done].
  - eexists. split; [done|]. apply Hfl, forbidden_members_ok.
  - pose proof (semantic_members_ok ms d1) as Hs. destruct (semantic_members c ms d1) as [members d2].
    destruct Hs as (Hl & Hpl & Hs). eexists. split; [done|]. apply Hfl. split; [done|]. simpl. intros Hwf Hacc Hr.
    destruct (Hs Hwf Hr) as (W & E & F). split_and!; [done|done|].
    apply push_anyof_ok; [by eapply acc_ok_mono| |].
    + apply Forall_forall. intros m Hm. rewrite elem_of_sort_dedup in Hm. rewrite Forall_forall in Hpl. auto.
    + apply Forall_forall. intros m Hm. rewrite elem_of_sort_dedup in Hm. rewrite Forall_forall in F. auto.
Qed.

Lemma extract_clauses_ok cls acc d : Forall (quoted_ok ok) cls → ∃ r, extract_clauses c cls acc d = Some r ∧ step_ok d acc r.
Proof.
  intros Hq. revert acc d. induction Hq as [|cl cls Hcl Hq IH]; intros acc d; simpl.
  { eexists. split; [done|]. apply flush_ok. }
  destruct (extract_clause_ok cl acc d Hcl) as ([acc1 d1] & -> & Hs). simpl.
  destruct (IH acc1 d1) as (r & -> & Hr). eexists. split; [done|]. by eapply step_ok_trans.
Qed.

End invariants.

Lemma acc_new_ok P d : acc_ok P d acc_new.
Proof. split; constructor. Qed.

Lemma acc_ok_wf P d acc : acc_ok P d acc → extracted_wf (acc_extracted acc).
Proof.
  intros [_ _ H3 H4 H5 H6]. split; [done| | |]; simpl.
  - eapply Forall_impl; [exact H4|]. by intros [] [? _]; [simpl in *; lia|].
  - eapply Forall_impl; [exact H5|]. by intros g [[? _] _].
  - eapply Forall_impl; [exact H6|]. by intros g [? _].
Qed.

(** ** What a stored program relies on *)

(** No empty part, forbidden conjunctions of at least two features, and phrases with
    a complete path. *)
Record storable (ex : Extracted) : Prop := {
  st_groups : Forall predicate_ok (anyof_predicates ex);
  st_conjunctions : Forall (λ c, (2 ≤ length c)%nat) (forbidden_conjunctions ex);
  st_graphs : Forall graph_ok (required_phrases ex ++ forbidden_phrases ex);
}.

Lemma predicate_canonicalize_kept p : predicate_ok p → predicate_ok (predicate_canonicalize p).
Proof.
  intros Hp. split; [by apply nonempty_true, (predicate_canonicalize_ok (λ _, true))|]. apply Forall_forall. intros m (Hne%nonempty_true & m0 & -> & _)%elem_of_canon.
  split; [done|]. apply Forall_forall. by intros r (?%nonempty_true & _)%elem_of_canon.
Qed.

Lemma canonicalize_phrases_kept gs : Forall graph_ok gs → Forall graph_ok (canonicalize_phrases gs).
Proof.
  intros Hg. rewrite Forall_forall in Hg |- *. intros g Hin. apply Hg, canonical_phrases_subset; [|done]. apply Forall_forall. intros g0 Hin0. apply Hg, Hin0.
Qed.

Lemma canonicalize_storable ex :
  Forall predicate_ok (anyof_predicates ex) → Forall (λ c, (2 ≤ length c)%nat ∧ StronglySorted rlt c) (forbidden_conjunctions ex) →
  Forall graph_ok (required_phrases ex) → Forall graph_ok (forbidden_phrases ex) → storable (canonicalize ex).
Proof.
  intros Hp Hc Hr Hf. rewrite Forall_forall in Hp. rewrite Forall_forall in Hc. split; simpl.
  - apply Forall_forall. intros p (_ & p0 & -> & Hin)%elem_of_canon. by apply predicate_canonicalize_kept, Hp.
  - apply Forall_forall. intros c (_ & c0 & -> & Hin)%elem_of_canon. destruct (Hc c0 Hin) as [Hl Hs]. by rewrite sort_dedup_id.
  - apply Forall_app. split; by apply canonicalize_phrases_kept.
Qed.

Lemma widen_phrase_ok equiv g : equiv_reflexive equiv → graph_ok g → graph_ok (widen_phrase equiv g).
Proof.
  intros Hr [Hc Hp]. split; [by apply widen_phrase_canonical|]. simpl. induction Hp as [|a Ha _ IH]; [constructor|].
  set (a' := mkPhraseArc (ph_start a) (ph_end a) (widen equiv (alternatives a))). apply (path_arc _ a'); [|done].
  by apply (list_elem_of_fmap_2 (λ a, mkPhraseArc (ph_start a) (ph_end a) (widen equiv (alternatives a)))).
Qed.

Lemma expanded_storable P d acc equiv :
  equiv_reflexive equiv → acc_ok P d acc → storable (expand_equivalences equiv (acc_extracted acc)).
Proof.
  intros Hr Hacc. pose proof (acc_ok_wf _ _ _ Hacc) as Hwf. destruct Hacc as [_ _ Hp Hc Hrp Hfp]. rewrite expand_equivalences_alt.
  assert (Forall graph_ok (a_rphrases acc)) as Hrp' by (eapply Forall_impl; [exact Hrp|]; by intros g [? _]).
  case_decide; [by apply canonicalize_storable|]. apply canonicalize_storable.
  - apply (expanded_query_wf equiv _ Hr Hwf).
  - unfold expanded_query. by destruct (split_required _ _ _ _ _) as [[??]?].
  - unfold expanded_query. destruct (split_required _ _ _ _ _) as [[??]?]. apply Forall_fmap. eapply Forall_impl; [exact Hrp'|]. intros g. by apply widen_phrase_ok.
  - unfold expanded_query. by destruct (split_required _ _ _ _ _) as [[??]?].
Qed.

Section compilers.
Context `{AnalyzerLaws}.

Lemma intern_all_len l d : (length (names d) ≤ length (names (intern_all l d).2))%nat.
Proof.
  revert d. induction l as [|[name k] l IH]; intros d; simpl; [done|].
  pose proof (res_len _ _ resolve_intern_ok name k d) as Hl. unfold resolve_intern in Hl.
  destruct (intern name k d) as [id d1]. specialize (IH d1).
  destruct (intern_all l d1) as [ids d2]. simpl in *. lia.
Qed.

Lemma intern_all_spec l d :
  dict_wf d → dict_room (intern_all l d).2 →
  dict_wf (intern_all l d).2 ∧ dict_ext d (intern_all l d).2 ∧
  Forall (interned (intern_all l d).2) (intern_all l d).1.
Proof.
  revert d. induction l as [|[name k] l IH]; intros d Hwf Hr; simpl in *; [by split_and!|].
  pose proof (intern_ext name k d Hwf) as Hi.
  pose proof (res_len _ _ resolve_intern_ok name k d) as Hl. unfold resolve_intern in Hl.
  destruct (intern name k d) as [id d1]. pose proof (intern_all_len l d1) as Hl1. specialize (IH d1).
  destruct (intern_all l d1) as [ids d2]. simpl in *.
  destruct Hi as (W & E & F); [eapply room_mid; [|exact Hr]; lia|].
  destruct IH as (W' & E' & F'); [done..|]. split_and!; [done|by etrans|].
  constructor; [by eapply interned_ext|done].
Qed.

Lemma phrase_labels (P : N → Prop) pos out :
  Forall (λ a, P (pa_feature a)) out → Forall P (phrase_proxy (phrase_graph pos out)).
Proof.
  intros Hk. apply Forall_forall. intros f Hf. unfold phrase_proxy in Hf.
  rewrite elem_of_sort_dedup, list_elem_of_bind in Hf. destruct Hf as (q & Hf & Hq).
  destruct (phrase_graph_spec pos out) as (He & _ & _). rewrite Forall_forall in Hk.
  apply (Hk (mkPositionArc f (ph_start q) (ph_end q))), He. by exists q.
Qed.

Lemma interning_ok : compiler_ok interning short_text interned.
Proof.
  split.
  - intros d d' f. apply interned_ext.
  - intros text d. simpl. unfold compile_features. pose proof (intern_all_len (emit Query false text) d) as Hl.
    by destruct (intern_all _ d).
  - intros text d Hwf. simpl. unfold compile_features.
    pose proof (intern_all_spec (emit Query false text) d Hwf) as Hs. destruct (intern_all _ d) as [ids d1].
    simpl in *. intros Hr. destruct (Hs Hr) as (W & E & F). split_and!; [done|done|].
    apply Forall_forall. intros f Hf. rewrite elem_of_sort_dedup in Hf. rewrite Forall_forall in F. auto.
  - intros text d Hshort. simpl. unfold compile_phrase.
    destruct (analyze_spec resolve_intern _ Query false text d resolve_intern_ok Hshort) as (pos & out & d' & -> & Hl & Hs).
    simpl. eexists _, d'. split; [done|]. split; [done|]. intros Hwf Hr.
    destruct (Hs Hwf Hr) as (Ha & W & E & K & _). split_and!; [done|done|by eapply analysis_phrase|].
    by apply phrase_labels.
Qed.

Lemma analyze_readonly_dict text d pos out d' :
  analyze_position_arcs resolve_readonly Query false text d = Some (pos, out, d') → d' = d.
Proof.
  unfold analyze_position_arcs. rewrite resolve_arcs_readonly.
  destruct (coverage_delta _ _ _) as [delta|]; simpl; [|done].
  destruct (fill_holes _ _ _ _ _ _ _ _) as [[o d1]|] eqn:Ef; simpl; [|done]. intros [= <- <- <-].
  by apply fill_holes_readonly in Ef.
Qed.

Lemma readonly_ok : compiler_ok readonly short_text (λ _ _, True).
Proof.
  split; try done.
  - intros text d Hwf Hr. simpl. split_and!; [done|reflexivity|by apply Forall_true].
  - intros text d Hshort. simpl. unfold compile_phrase_readonly.
    destruct (analyze_spec resolve_readonly _ Query false text d resolve_readonly_ok Hshort) as (pos & out & d' & E & Hl & Hs).
    rewrite E. apply analyze_readonly_dict in E as ->. simpl. eexists _, d. split; [done|]. split; [done|]. intros Hwf Hr.
    destruct (Hs Hwf Hr) as (Ha & _ & _ & _ & _). split_and!; [done|reflexivity|by eapply analysis_phrase|by apply Forall_true].
Qed.

(** ** Counting query frequencies *)

Lemma bump_freq_spec f d :
  dict_wf d → interned d f →
  ∃ d', bump_freq f d = Some d' ∧ dict_wf d' ∧ names d' = names d ∧ finalized d' = finalized d ∧ equivs d' = equivs d ∧
    (∀ g, mask_bit d' g = mask_bit d g) ∧
    (∀ g, freq d' g = if decide (g = f) then sat_add 32 (freq d f) 1 else freq d g).
Proof.
  intros Hwf Hf. unfold bump_freq. pose proof (wf_freqs d Hwf) as Hl.
  destruct (lookup_lt_is_Some_2 (freqs d) (usize f)) as [x Hx]; [unfold interned in Hf; lia|].
  rewrite Hx. simpl. eexists. split; [done|]. split_and!; try done.
  - destruct Hwf. split; simpl; try done. by rewrite length_insert.
  - intros g. unfold freq. simpl. case_decide as Hg.
    + subst. rewrite list_lookup_insert_eq by (unfold interned in Hf; lia). by rewrite Hx.
    + rewrite list_lookup_insert_ne; [done|]. intros ?%N2Nat.inj. congruence.
Qed.

Lemma bump_freqs_spec fs d :
  dict_wf d → Forall (interned d) fs → NoDup fs →
  ∃ d', bump_freqs fs d = Some d' ∧ dict_wf d' ∧ names d' = names d ∧ finalized d' = finalized d ∧ equivs d' = equivs d ∧
    (∀ g, mask_bit d' g = mask_bit d g) ∧
    (∀ g, freq d' g = if decide (g ∈ fs) then sat_add 32 (freq d g) 1 else freq d g).
Proof.
  revert d. induction fs as [|f fs IH]; intros d Hwf Hin Hnd; simpl; [by exists d|].
  apply Forall_cons in Hin as [Hf Hin]. apply NoDup_cons in Hnd as [Hnf Hnd].
  destruct (bump_freq_spec f d Hwf Hf) as (d1 & -> & Hwf1 & Hn1 & Hz1 & Heq1 & Hm1 & Hf1). simpl.
  destruct (IH d1) as (d2 & -> & Hwf2 & Hn2 & Hz2 & Heq2 & Hm2 & Hf2); [done| |done|].
  { unfold interned. by rewrite Hn1. }
  exists d2. split; [done|]. split; [done|]. split_and!; [congruence|congruence|congruence| |].
  - intros g. by rewrite Hm2.
  - intros g. rewrite Hf2, !Hf1. destruct (decide (g = f)) as [->|Hne].
    + rewrite decide_False by done. rewrite decide_True by by left. done.
    + destruct (decide (g ∈ fs)); [rewrite decide_True by by right|rewrite decide_False by (rewrite elem_of_cons; tauto)]; done.
Qed.

(** Compiling a query: what the loop collects, and the dictionary it leaves. *)
Lemma extract_ok ast d :
  dict_wf d → Forall (quoted_ok short_text) ast → (∀ acc d1, extract_clauses interning ast acc_new d = Some (acc, d1) → dict_room d1) →
  ∃ acc d1 d', extract_clauses interning ast acc_new d = Some (acc, d1) ∧
    extract ast d = Some (expand_equivalences (equivalences d) (acc_extracted acc), d') ∧
    acc_ok interned d1 acc ∧ dict_ext d d1 ∧ dict_wf d' ∧ names d' = names d1 ∧ finalized d' = finalized d ∧ equivs d' = equivs d ∧
    (∀ f, mask_bit d' f = mask_bit d f) ∧
    (∀ f, freq d' f = if decide (f ∈ frequency_features (acc_extracted acc)) then sat_add 32 (freq d f) 1 else freq d f).
Proof.
  intros Hwf Hq Hroom. unfold extract.
  destruct (extract_clauses_ok interning short_text interned interning_ok ast acc_new d Hq) as ([acc d1] & E & _ & Hs).
  specialize (Hroom acc d1 E). destruct (Hs Hwf (acc_new_ok _ _) Hroom) as (Hwf1 & Hext & Hacc). simpl in *.
  rewrite E. simpl. set (ex0 := acc_extracted acc).
  destruct (bump_freqs_spec (frequency_features ex0) d1) as (d2 & Eb & Hwf2 & Hn & Hz & Heq & Hm & Hf); [done| | |].
  { apply Forall_forall. intros f Hf. unfold frequency_features in Hf. rewrite elem_of_sort_dedup in Hf.
    destruct Hacc as [H1 H2 _ _ H5 _]. rewrite Forall_forall in H1. rewrite Forall_forall in H2. rewrite Forall_forall in H5.
    rewrite !elem_of_app, list_elem_of_join, list_elem_of_bind in Hf. simpl in Hf.
    destruct Hf as [Hf|[(g & Hf & Hg)|(g & Hf & Hg)]].
    - rewrite elem_of_sort_dedup in Hf. auto.
    - destruct (H2 g Hg) as [_ HP]. rewrite Forall_forall in HP. auto.
    - destruct (H5 g Hg) as [_ HP]. rewrite Forall_forall in HP. auto. }
  { apply strictly_sorted_NoDup, sort_dedup_sorted. }
  rewrite Eb. simpl. assert (equivs d2 = equivs d) as Heq' by by rewrite Heq, (ext_equivs _ _ Hext).
  exists acc, d1, d2. split; [done|]. split.
  { unfold equivalences. by rewrite Heq'. }
  split_and!; [done|done|done|done|by rewrite Hz, (ext_finalized _ _ Hext)|done| |].
  - intros f. by rewrite Hm, (ext_mask _ _ Hext).
  - intros f. rewrite Hf, (ext_freq _ _ Hext). done.
Qed.

Lemma expanded_canonical equiv ex : canonicalize (expand_equivalences equiv ex) = expand_equivalences equiv ex.
Proof. rewrite expand_equivalences_alt. case_decide; apply canonicalize_idemp. Qed.

Lemma canonical_required ex : canonicalize ex = ex → NoDup (required ex).
Proof. intros <-. apply strictly_sorted_NoDup, sort_dedup_sorted. Qed.

(** Pass A: extraction never panics while the dictionary has room for dense
    ids, keeps the dictionary's invariant, counts each distinct positive
    retrieval feature of the literal query exactly once, leaves mask bits
    alone, and produces a well-formed canonical query with distinct required
    features. *)
Theorem extract_total ast d :
  dict_wf d → Forall (quoted_ok short_text) ast → (∀ acc d1, extract_clauses interning ast acc_new d = Some (acc, d1) → dict_room d1) →
  ∃ ex0 ex d', extract ast d = Some (ex, d') ∧ ex = expand_equivalences (equivalences d) ex0 ∧
    dict_wf d' ∧ extracted_wf ex0 ∧ NoDup (required ex) ∧ canonicalize ex = ex ∧
    (∀ f, mask_bit d' f = mask_bit d f) ∧
    (∀ f, freq d' f = if decide (f ∈ frequency_features ex0) then sat_add 32 (freq d f) 1 else freq d f).
Proof.
  intros Hwf Hq Hroom. destruct (extract_ok ast d Hwf Hq Hroom) as (acc & d1 & d' & _ & E & Hacc & _ & Hwf' & _ & _ & _ & Hm & Hf).
  pose proof (expanded_canonical (equivalences d) (acc_extracted acc)) as Hc.
  exists (acc_extracted acc), (expand_equivalences (equivalences d) (acc_extracted acc)), d'.
  split_and!; [done|done|done|by eapply acc_ok_wf|by apply canonical_required|done|done|done].
Qed.

(** ** Extraction means what the query says *)

Section readonly_meaning.
Context (d : Dict) (in_pos in_neg : N → bool).

Abbreviation feats := (λ w, compile_features_readonly w d) (only parsing).
Abbreviation flat := (acc_flat in_pos in_neg) (only parsing).

Lemma flush_readonly_flat acc :
  ∃ acc', flush_positive_run readonly acc d = (acc', d) ∧ a_words acc' = [] ∧
    flat acc' = flat acc && run_ok feats in_pos (a_words acc) ∧
    a_rphrases acc' = a_rphrases acc ∧ a_fphrases acc' = a_fphrases acc.
Proof.
  unfold flush_positive_run, run_ok. destruct (a_words acc) as [|w ws] eqn:E.
  - exists acc. split_and!; try done. by rewrite andb_true_r.
  - eexists. split; [done|]. split; [done|]. split; [|done].
    unfold acc_flat. cbn [a_required a_forbidden a_anyof a_preds a_conjs]. rewrite forallb_app. btauto.
Qed.

Lemma forbidden_term_frame fs acc :
  a_words (push_forbidden_term fs acc) = a_words acc ∧
  a_rphrases (push_forbidden_term fs acc) = a_rphrases acc ∧ a_fphrases (push_forbidden_term fs acc) = a_fphrases acc.
Proof. unfold push_forbidden_term. by destruct (sort_dedup fs) as [|? []]. Qed.

Lemma forbidden_members_flat ms acc :
  ∃ acc', forbidden_members readonly ms acc d = (acc', d) ∧ a_words acc' = a_words acc ∧
    flat acc' = flat acc && negb (existsb (whole feats in_neg) ms) ∧
    a_rphrases acc' = a_rphrases acc ∧ a_fphrases acc' = a_fphrases acc.
Proof.
  revert acc. induction ms as [|m ms IH]; intros acc; simpl.
  { exists acc. split_and!; try done. by rewrite andb_true_r. }
  destruct (IH (push_forbidden_term (compile_features_readonly m d) acc)) as (acc' & -> & Hw & Hf & Hr & Hp).
  destruct (forbidden_term_frame (compile_features_readonly m d) acc) as (F1 & F2 & F3).
  exists acc'. split_and!; [done|congruence| |congruence|congruence].
  rewrite Hf, push_forbidden_term_flat. unfold whole at 2. btauto.
Qed.

Lemma semantic_members_readonly ms :
  semantic_members readonly ms d = (omap (λ m, member_from_features (compile_features_readonly m d)) ms, d).
Proof.
  induction ms as [|m ms IH]; simpl; [done|]. rewrite IH. by destruct (member_from_features _).
Qed.

Lemma anyof_readonly_flat ms acc :
  let members := sort_dedup (omap (λ m, member_from_features (compile_features_readonly m d)) ms) in
  flat (push_anyof members acc d) =
    flat acc && (negb (existsb (λ m, nonempty (compile_features_readonly m d)) ms) || existsb (whole feats in_pos) ms).
Proof.
  set (l := omap _ ms). cbv zeta.
  assert (∀ m, m ∈ l ↔ ∃ w, w ∈ ms ∧ member_from_features (compile_features_readonly w d) = Some m) as Hl.
  { intros m. unfold l. by rewrite list_elem_of_omap. }
  rewrite push_anyof_flat.
  - f_equal. f_equal.
    + f_equal. apply eq_true_iff_eq. rewrite nonempty_true, sort_dedup_nil, existsb_elem. split.
      * intros Hne. destruct l as [|m l'] eqn:El; [done|]. destruct (proj1 (Hl m)) as (w & Hw & Hm); [by left|].
        exists w. split; [done|]. apply nonempty_true. intros E0.
        apply (proj2 (member_from_features_None _)) in E0. congruence.
      * intros (w & Hw & Hn%nonempty_true) E0.
        destruct (member_from_features (compile_features_readonly w d)) as [m|] eqn:Em.
        { assert (m ∈ l) as Hin by (apply Hl; eauto). rewrite E0 in Hin. by apply not_elem_of_nil in Hin. }
        by apply member_from_features_None in Em.
    + rewrite existsb_sort_dedup. apply eq_true_iff_eq. rewrite !existsb_elem. setoid_rewrite Hl. unfold whole. split.
      * intros (m & (w & Hw & Hm) & Hmm). exists w. split; [done|].
        apply (member_from_features_plain in_pos) in Hm as Hm'. destruct Hm' as [_ Hm']. rewrite <-Hm', Hmm, andb_true_r.
        apply nonempty_true. intros E0. apply (proj2 (member_from_features_None _)) in E0. congruence.
      * intros (w & Hw & [Hn%nonempty_true Hall]%andb_true_iff).
        destruct (member_from_features (compile_features_readonly w d)) as [m|] eqn:Em; [|by apply member_from_features_None in Em].
        exists m. split; [eauto|]. apply (member_from_features_plain in_pos) in Em as [_ ->]. done.
  - apply Forall_forall. intros m Hm. rewrite elem_of_sort_dedup in Hm. apply Hl in Hm as (w & _ & Hm).
    by apply (member_from_features_plain in_pos) in Hm as [? _].
Qed.

Lemma push_anyof_frame members acc :
  a_words (push_anyof members acc d) = a_words acc ∧
  a_rphrases (push_anyof members acc d) = a_rphrases acc ∧ a_fphrases (push_anyof members acc d) = a_fphrases acc.
Proof. unfold push_anyof. by destruct members as [|? []]. Qed.

(** The phrase graphs of a clause list, by polarity. *)
Definition clause_graphs (neg : bool) (cls : list Clause) : list PhraseGraph :=
  cl ← cls;
  match atom cl with
  | Phrase w =>
      if Bool.eqb (negated cl) neg then
        match compile_phrase_readonly w d with
        | Some g => if nonempty (arcs g) then [g] else []
        | None => []
        end
      else []
  | _ => []
  end.

Lemma push_phrase_frame neg g acc :
  a_words (push_phrase neg g acc) = a_words acc ∧ flat (push_phrase neg g acc) = flat acc ∧
  a_rphrases (push_phrase neg g acc) =
    a_rphrases acc ++ (if Bool.eqb neg false then if nonempty (arcs g) then [g] else [] else []) ∧
  a_fphrases (push_phrase neg g acc) =
    a_fphrases acc ++ (if Bool.eqb neg true then if nonempty (arcs g) then [g] else [] else []).
Proof. unfold push_phrase. destruct (nonempty (arcs g)), neg; simpl; by rewrite ?app_nil_r. Qed.

Lemma phrase_clause_meaning neg w cls acc1 acc' d' :
  (∀ acc, extract_clauses readonly cls acc d = Some (acc', d') →
    d' = d ∧ flat acc' = flat acc && flat_meaning feats in_pos in_neg (a_words acc) cls ∧
    a_rphrases acc' = a_rphrases acc ++ clause_graphs false cls ∧
    a_fphrases acc' = a_fphrases acc ++ clause_graphs true cls) →
  a_words acc1 = [] →
  ('(acc, d1) ← ('(g, d1) ← c_phrase readonly w d; Some (push_phrase neg g acc1, d1));
   extract_clauses readonly cls acc d1) = Some (acc', d') →
  d' = d ∧ flat acc' = flat acc1 && flat_meaning feats in_pos in_neg [] cls ∧
  a_rphrases acc' = a_rphrases acc1 ++ clause_graphs false (mkClause neg (Phrase w) :: cls) ∧
  a_fphrases acc' = a_fphrases acc1 ++ clause_graphs true (mkClause neg (Phrase w) :: cls).
Proof.
  intros IH Hw E. cbn [c_phrase readonly] in E. unfold clause_graphs. cbn [mbind list_bind atom negated].
  destruct (compile_phrase_readonly w d) as [g|] eqn:Eg; [|done]. cbn [mbind option_bind] in E.
  apply IH in E as (-> & Hfl & E1 & E2).
  destruct (push_phrase_frame neg g acc1) as (F1 & F2 & F3 & F4).
  rewrite F1, F2, Hw in Hfl. rewrite F3, <-app_assoc in E1. rewrite F4, <-app_assoc in E2.
  by split_and!.
Qed.

Lemma extract_clauses_meaning cls acc acc' d' :
  extract_clauses readonly cls acc d = Some (acc', d') →
  d' = d ∧ flat acc' = flat acc && flat_meaning feats in_pos in_neg (a_words acc) cls ∧
  a_rphrases acc' = a_rphrases acc ++ clause_graphs false cls ∧
  a_fphrases acc' = a_fphrases acc ++ clause_graphs true cls.
Proof.
  revert acc. induction cls as [|[neg at_] cls IH]; intros acc; cbn [extract_clauses flat_meaning].
  { destruct (flush_readonly_flat acc) as (acc1 & -> & _ & Hf & Hr & Hp). intros [= <- <-].
    split_and!; [done|done|by rewrite app_nil_r|by rewrite app_nil_r]. }
  unfold extract_clause. destruct (flush_readonly_flat acc) as (acc1 & Efl & Hw & Hf & Hr & Hp).
  unfold clause_ok. cbn [atom negated].
  destruct at_ as [w|w|ms], neg; rewrite ?Efl.
  - cbn [c_features readonly mbind option_bind]. intros E. apply IH in E as (-> & Hfl & E1 & E2).
    destruct (forbidden_term_frame (compile_features_readonly w d) acc1) as (F1 & F2 & F3).
    rewrite F1, Hw in Hfl. rewrite F2, Hr in E1. rewrite F3, Hp in E2.
    split_and!; [done| |done|done]. rewrite Hfl, push_forbidden_term_flat, Hf. unfold whole. btauto.
  - cbn [mbind option_bind]. intros E. apply IH in E as (-> & Hfl & E1 & E2). by split_and!.
  - intros E. apply (phrase_clause_meaning true w cls acc1) in E as (-> & Hfl & E1 & E2); [|done|done].
    rewrite Hf in Hfl. rewrite Hr in E1. rewrite Hp in E2. split_and!; [done| |done|done]. rewrite Hfl. btauto.
  - intros E. apply (phrase_clause_meaning false w cls acc1) in E as (-> & Hfl & E1 & E2); [|done|done].
    rewrite Hf in Hfl. rewrite Hr in E1. rewrite Hp in E2. split_and!; [done| |done|done]. rewrite Hfl. btauto.
  - destruct (forbidden_members_flat ms acc1) as (acc2 & -> & F1 & F2 & F3 & F4). cbn [mbind option_bind].
    intros E. apply IH in E as (-> & Hfl & E1 & E2). rewrite F1, Hw, F2, Hf in Hfl.
    rewrite F3, Hr in E1. rewrite F4, Hp in E2. split_and!; [done| |done|done]. rewrite Hfl. btauto.
  - rewrite semantic_members_readonly. cbn [mbind option_bind]. intros E. apply IH in E as (-> & Hfl & E1 & E2).
    set (members := sort_dedup _) in *. destruct (push_anyof_frame members acc1) as (F1 & F2 & F3).
    rewrite F1, Hw in Hfl. rewrite F2, Hr in E1. rewrite F3, Hp in E2.
    split_and!; [done| |done|done]. rewrite Hfl. unfold members. rewrite anyof_readonly_flat, Hf. btauto.
Qed.

End readonly_meaning.

(** What a query says of a title: its flat meaning, its quoted clauses found, its
    negated quoted clauses not found (a search that gives up finds and does not
    exclude). *)
Definition query_says (ast : Ast) (d : Dict) (pos neg : list N) (pos_positions : N) (pos_arcs : list PositionArc)
  (complete : bool) (neg_positions : N) (neg_arcs : list PositionArc) : bool :=
  flat_meaning (λ w, compile_features_readonly w d) (λ f, bsearch_mem f pos) (λ f, bsearch_mem f neg) [] ast &&
  forallb (λ g, bool_decide (phrase_verdict g pos_positions pos_arcs complete ≠ Some false)) (clause_graphs d false ast) &&
  negb (existsb (λ g, bool_decide (phrase_verdict g neg_positions neg_arcs true = Some true)) (clause_graphs d true ast)).

(** The phrases of an expanded query are the widened phrases of the query. *)
Lemma expanded_phrases equiv ex :
  equiv_reflexive equiv → extracted_wf ex →
  (∀ g, g ∈ required_phrases (expand_equivalences equiv ex) ↔ ∃ g0, g0 ∈ required_phrases ex ∧ g = widen_phrase equiv g0) ∧
  (∀ g, g ∈ forbidden_phrases (expand_equivalences equiv ex) ↔ g ∈ forbidden_phrases ex).
Proof.
  intros Hr Hwf. pose proof (expanded_query_wf equiv ex Hr Hwf) as Hwf'. assert (∀ gs g, Forall phrase_canonical gs → g ∈ canonicalize_phrases gs ↔ g ∈ gs) as Hc.
  { intros gs g Hg. split; [by apply canonical_phrases_subset|]. intros Hin. apply elem_of_canon. rewrite Forall_forall in Hg.
    split; [by apply phrase_nonempty_canonical, Hg|]. exists g. by rewrite phrase_canonicalize_id by auto. }
  rewrite expand_equivalences_alt. case_decide as He; simpl.
  - split; intros g; rewrite Hc by apply Hwf; [|done]. assert (∀ g0, g0 ∈ required_phrases ex → widen_phrase equiv g0 = g0) as Hw.
    { intros g0 Hin. subst equiv. destruct Hwf as [_ _ Hrp _]. rewrite Forall_forall in Hrp. destruct (Hrp g0 Hin) as [_ _ _ Ha]. rewrite Forall_forall in Ha.
      destruct g0 as [p as0]. unfold widen_phrase. simpl. f_equal. rewrite <-(list_fmap_id as0) at 2. apply list_fmap_ext. intros i a Hi.
      destruct (Ha a) as (_ & _ & _ & Hs); [by eapply list_elem_of_lookup_2|]. destruct a as [s e al]. simpl in *. f_equal. unfold widen.
      rewrite (sort_dedup_ext _ al); [by apply sort_dedup_id|]. intros x. rewrite list_elem_of_bind. setoid_rewrite lookup_empty. setoid_rewrite list_elem_of_singleton. naive_solver. }
    split; [intros Hin; exists g; by rewrite Hw|]. intros (g0 & Hin & ->). by rewrite Hw.
  - split; intros g; rewrite Hc by apply Hwf'; unfold expanded_query; destruct (split_required _ _ _ _ _) as [[??]?]; simpl; [|done].
    rewrite list_elem_of_fmap. naive_solver.
Qed.

(** C32. Extraction against a frozen dictionary compiles a query to its meaning.
    For a parsed query with quoted texts of fewer than 2^32 tokens and a
    well-formed dictionary of fewer than 2^31 names, whose equivalence groups
    contain their own feature, it succeeds; the result is canonical, and its phrases are the compiled quoted clauses with their
    alternatives widened to the equivalent features, the negated ones unchanged.
    Without equivalences it accepts exactly the titles the query describes, quoted
    clauses included; with them it accepts at least those (on titles with sorted
    position graphs); and when the groups are the classes of an equivalence its flat part
    accepts exactly the titles with an equivalent feature wherever the query asks
    for a feature. *)
Theorem extract_readonly_meaning ast d :
  dict_wf d → dict_room d → equiv_reflexive (equivalences d) → Forall (quoted_ok short_text) ast →
  ∃ ex, extract_readonly ast d = Some ex ∧ canonicalize ex = ex ∧
    (∀ g, g ∈ required_phrases ex ↔ ∃ g0, g0 ∈ clause_graphs d false ast ∧ g = widen_phrase (equivalences d) g0) ∧
    (∀ g, g ∈ forbidden_phrases ex ↔ g ∈ clause_graphs d true ast) ∧
    (equivalences d = ∅ → ∀ pos neg pp pa pc np na,
       matches_positioned ex pos neg pp pa pc np na = query_says ast d pos neg pp pa pc np na) ∧
    (∀ pos neg pp pa pc np na, title_sorted pa → title_sorted na →
       query_says ast d pos neg pp pa pc np na = true → matches_positioned ex pos neg pp pa pc np na = true) ∧
    (equiv_closed (equivalences d) → ∀ pos neg, matches_flat_features ex pos neg =
       flat_meaning (λ w, compile_features_readonly w d)
         (λ f, existsb (λ g, bsearch_mem g pos) (equiv_class (equivalences d) f)) (λ f, bsearch_mem f neg) [] ast).
Proof.
  intros Hwf Hroom Hrefl Hq. unfold extract_readonly.
  destruct (extract_clauses_ok readonly _ _ readonly_ok ast acc_new d Hq) as ([acc d1] & E & _ & Hs).
  destruct (extract_clauses_meaning d (λ _, true) (λ _, true) ast acc_new acc d1 E) as (-> & _ & Hrp & Hfp).
  destruct (Hs Hwf (acc_new_ok _ _) Hroom) as (_ & _ & Hacc). simpl in Hacc. rewrite E. simpl.
  set (ex0 := acc_extracted acc). pose proof (acc_ok_wf _ _ _ Hacc) as Hwf0. fold ex0 in Hwf0.
  assert (∀ ip ig, flat_matches ip ig ex0 = flat_meaning (λ w, compile_features_readonly w d) ip ig [] ast) as Hflat.
  { intros ip ig. unfold ex0. rewrite acc_flat_extracted. by destruct (extract_clauses_meaning d ip ig ast acc_new acc d E) as (_ & -> & _). }
  change (required_phrases ex0 = clause_graphs d false ast) in Hrp. change (forbidden_phrases ex0 = clause_graphs d true ast) in Hfp.
  assert (∀ pos neg pp pa pc np na, matches_positioned ex0 pos neg pp pa pc np na = query_says ast d pos neg pp pa pc np na) as Hsays.
  { intros. unfold matches_positioned, matches_flat_features, query_says. by rewrite Hflat, Hrp, Hfp. }
  destruct (expanded_phrases (equivalences d) ex0 Hrefl Hwf0) as [Hpr Hpf]. rewrite Hrp in Hpr. rewrite Hfp in Hpf.
  eexists. split; [done|]. split; [apply expanded_canonical|]. split; [done|]. split; [done|]. split_and!.
  - intros He pos neg pp pa pc np na. rewrite <-Hsays, expand_equivalences_alt, decide_True by done. by apply matches_positioned_canonicalize.
  - intros pos neg pp pa pc np na Hpa Hna. rewrite <-Hsays. by apply expand_equivalences_widens.
  - intros Hc pos neg. rewrite <-Hflat, expand_equivalences_alt. unfold matches_flat_features. case_decide as He.
    + rewrite flat_matches_canonicalize by done. rewrite He. apply flat_matches_ext. intros f. unfold equiv_class. rewrite lookup_empty. simpl. by rewrite orb_false_r.
    + rewrite flat_matches_canonicalize by by apply expanded_query_wf. by apply expanded_flat_exact.
Qed.

(** A query compiled from [ast]: against a frozen dictionary, or by one that has room
    for the names it adds. *)
Record compiled_from (ast : Ast) (d : Dict) (ex : Extracted) : Prop := {
  cf_dict : dict_wf d;
  cf_equivs : equiv_reflexive (equivalences d);
  cf_quoted : Forall (quoted_ok short_text) ast;
  cf_query : dict_room d ∧ extract_readonly ast d = Some ex ∨
    (∀ acc d1, extract_clauses interning ast acc_new d = Some (acc, d1) → dict_room d1) ∧ ∃ d', extract ast d = Some (ex, d');
}.

Lemma compiled_storable ast d ex : compiled_from ast d ex → storable ex.
Proof.
  intros [Hwf Hr Hq [[Hroom E]|(Hroom & d' & E)]].
  - destruct (extract_clauses_ok readonly _ _ readonly_ok ast acc_new d Hq) as ([acc d1] & Ea & _ & Hs). unfold extract_readonly in E. rewrite Ea in E. simpl in E.
    destruct (extract_clauses_meaning d (λ _, true) (λ _, true) ast acc_new acc d1 Ea) as (-> & _). destruct (Hs Hwf (acc_new_ok _ _) Hroom) as (_ & _ & Hacc). injection E as <-. by eapply expanded_storable.
  - destruct (extract_ok ast d Hwf Hq Hroom) as (acc & d1 & d2 & _ & E' & Hacc & _). rewrite E in E'. injection E' as -> ->. by eapply expanded_storable.
Qed.

End compilers.

Definition demo_query_ast : Ast :=
  [mkClause false (Term (str "acme")); mkClause false (AnyOf [str "red"; str "dark blue"]); mkClause true (Term (str "used"))].

(** With a quoted clause and a negated term of two words. *)
Definition demo_compound_ast : Ast :=
  [mkClause false (Phrase (str "red hot deal")); mkClause false (AnyOf [str "red"; str "dark blue"]); mkClause true (Term (str "open box"))].

Lemma extract_total_witness :
  ∃ ex0 ex d', extract demo_query_ast dict_new = Some (ex, d') ∧ ex = expand_equivalences (equivalences dict_new) ex0 ∧
    dict_wf d' ∧ extracted_wf ex0 ∧ NoDup (required ex) ∧ canonicalize ex = ex ∧
    (∀ f, mask_bit d' f = mask_bit dict_new f) ∧
    (∀ f, freq d' f = if decide (f ∈ frequency_features ex0) then sat_add 32 (freq dict_new f) 1 else freq dict_new f).
Proof.
  apply (extract_total demo_query_ast dict_new); [apply dict_new_wf|by repeat constructor|].
  intros acc d1 E.
  assert ((λ r, length (names r.2)) <$> extract_clauses interning demo_query_ast acc_new dict_new = Some 5%nat) as Hn
    by (vm_compute; reflexivity).
  rewrite E in Hn. injection Hn as Hn. unfold dict_room. rewrite Hn. reflexivity.
Defined.

Lemma extract_readonly_meaning_witness :
  ∃ ex, extract_readonly demo_query_ast dict_new = Some ex ∧ canonicalize ex = ex ∧
    (∀ g, g ∈ required_phrases ex ↔ ∃ g0, g0 ∈ clause_graphs dict_new false demo_query_ast ∧ g = widen_phrase (equivalences dict_new) g0) ∧
    (∀ pos neg pp pa pc np na, matches_positioned ex pos neg pp pa pc np na = query_says demo_query_ast dict_new pos neg pp pa pc np na).
Proof.
  destruct (extract_readonly_meaning demo_query_ast dict_new) as (ex & E & Hc & Hr & _ & He & _); [apply dict_new_wf|done|by intros f g Hf|by repeat constructor|].
  exists ex. split; [exact E|]. split; [exact Hc|]. split; [exact Hr|]. exact (He eq_refl).
Defined.
