(* ===== verification/View.v ===== *)
(** * Title views and tag filters ([engine/src/exact.rs])

    What exact verification reads of a title ([TitleView]) and the compiled tag
    filter of a request ([TagPredicate]): an AND over keys of an OR over the
    key's accepted values, tested by binary search on sorted slices. *)

From S2P Require Import Prelude Phrase.

Record PositionGraph := mkPositionGraph {
  pg_positions : N;
  pg_arcs : list PositionArc;
  pg_complete : bool;
}.

(** [phrase_scratch] is a [RefCell] of work buffers that every search clears
    before it uses them; what verification observes of the cell is only whether
    it is already borrowed. *)
Record TitleView := mkTitleView {
  probe : list N;
  pos_mask : N;
  pos : list N;
  neg_mask : N;
  neg : list N;
  pos_graph : option PositionGraph;
  neg_graph : option PositionGraph;
  phrase_scratch : option bool;
}.

Definition view_single (mask : N) (feats : list N) : TitleView :=
  mkTitleView feats mask feats mask feats None None None.

Definition view_dual (pmask : N) (p : list N) (nmask : N) (n : list N) : TitleView :=
  mkTitleView p pmask p nmask n None None None.

Definition view_dual_positioned (pr : list N) (pmask : N) (p : list N) (p_positions : N)
  (p_arcs : list PositionArc) (p_complete : bool) (nmask : N) (n : list N) (n_positions : N)
  (n_arcs : list PositionArc) (scratch : bool) : TitleView :=
  mkTitleView pr pmask p nmask n (Some (mkPositionGraph p_positions p_arcs p_complete))
    (Some (mkPositionGraph n_positions n_arcs true)) (Some scratch).

(** ** Tag filters *)

Record TagPredicate := mkTagPredicate { groups : list (list N) }.

Definition tag_empty : TagPredicate := mkTagPredicate [].
Definition tag_new (gs : list (list N)) : TagPredicate := mkTagPredicate (sort_dedup <$> gs).
Definition tag_is_empty (p : TagPredicate) : bool := bool_decide (groups p = []).

Definition sorted_intersects (a b : list N) : bool :=
  let '(small, large) := if (length a <=? length b)%nat then (a, b) else (b, a) in
  existsb (λ x, bsearch_mem x large) small.

Definition tag_matches (p : TagPredicate) (qtags : list N) : bool :=
  forallb (λ group, sorted_intersects qtags group) (groups p).

Definition query_passes_tags (i : nat) (p : TagPredicate) (tag_off tag_len tag_blob : list N) : option bool :=
  qtags ← match tag_off !! i, tag_len !! i with
          | Some o, Some l => slice tag_blob (usize o) (usize l)
          | _, _ => Some []
          end;
  Some (forallb (λ group, sorted_intersects qtags group) (groups p)).

(** ** What the filter means *)

Definition tag_wf (p : TagPredicate) : Prop := Forall (StronglySorted rle) (groups p).

(** The query carries, for every key of the request, one of its values. *)
Definition tags_accept (p : TagPredicate) (qtags : list N) : Prop :=
  ∀ g, g ∈ groups p → ∃ t, t ∈ g ∧ t ∈ qtags.

Lemma tag_new_wf gs : tag_wf (tag_new gs).
Proof.
  unfold tag_wf, tag_new. simpl. rewrite Forall_fmap. apply Forall_true. intros g. simpl.
  apply strictly_sorted_sorted, sort_dedup_sorted.
Qed.

Lemma sorted_intersects_common a b : sorted_intersects a b = true → ∃ t, t ∈ b ∧ t ∈ a.
Proof.
  unfold sorted_intersects. destruct (_ <=? _)%nat; rewrite existsb_elem; intros (x & Hx & Hb%bsearch_mem_elem); eauto.
Qed.

Lemma sorted_intersects_spec a b :
  StronglySorted rle a → StronglySorted rle b → sorted_intersects a b = true ↔ ∃ t, t ∈ b ∧ t ∈ a.
Proof.
  intros Ha Hb. unfold sorted_intersects. destruct (_ <=? _)%nat; rewrite existsb_elem;
    split; intros (t & H1 & H2); exists t; rewrite bsearch_mem_spec in * by done; done.
Qed.

Lemma tag_matches_spec p qtags :
  tag_wf p → StronglySorted rle qtags → tag_matches p qtags = true ↔ tags_accept p qtags.
Proof.
  unfold tag_wf, tag_matches, tags_accept. rewrite Forall_forall, forallb_elem. intros Hp Hq.
  split; intros H g Hg; apply (sorted_intersects_spec qtags g); auto.
Qed.

(** The stored columns hold exactly what the row was pushed with. *)
Lemma query_passes_tags_spec i p tag_off tag_len tag_blob o l qtags :
  tag_off !! i = Some o → tag_len !! i = Some l → slice tag_blob (usize o) (usize l) = Some qtags →
  query_passes_tags i p tag_off tag_len tag_blob = Some (tag_matches p qtags).
Proof. unfold query_passes_tags. intros -> -> ->. done. Qed.

Lemma tag_matches_empty p qtags : tag_is_empty p = true → tag_matches p qtags = true.
Proof. unfold tag_is_empty, tag_matches. intros ->%bool_decide_eq_true. done. Qed.

(** Request tags are compiled by [tag_new]: a value may be listed in any order
    and more than once, and a key with no resolvable value accepts nothing. *)
Lemma tag_new_accept gs qtags :
  tags_accept (tag_new gs) qtags ↔ ∀ g, g ∈ gs → ∃ t, t ∈ g ∧ t ∈ qtags.
Proof.
  unfold tags_accept, tag_new. simpl. split.
  - intros H g Hg. destruct (H (sort_dedup g)) as (t & Ht & Hq); [by apply list_elem_of_fmap_2|].
    exists t. by rewrite elem_of_sort_dedup in Ht.
  - intros H g' (g & -> & Hg)%list_elem_of_fmap. destruct (H g Hg) as (t & Ht & Hq).
    exists t. by rewrite elem_of_sort_dedup.
Qed.
