(* ===== verification/Predicate.v ===== *)
(** * Compound predicate programs ([engine/src/exact/predicate.rs])

    A query whose exact test does not fit the flat columns (compound any-of
    members, negated conjunctions, quoted phrases) carries a [u32] program.
    This file models its encoder, its validator, the scalar evaluator
    [verify_predicate] with the bounded graph search on encoded words, the
    Boolean part used by canonical-body dedup, and the ranking term counts.

    [Program] is the abstract syntax of the format.  The validator accepts
    exactly the printed well-formed programs; on every printed program the
    evaluators compute the meaning of the program and never panic. *)

From stdpp Require Import strings.
From S2P Require Import Prelude Cursor Text Dsl Phrase Dictionary Analyze Compile Extract View.

Definition FEATURE_PROGRAM_VERSION : N := 1.
Definition PHRASE_PROGRAM_VERSION : N := 2.
Definition RANK_FEATURE_PROGRAM_VERSION : N := 3.
Definition RANK_PHRASE_PROGRAM_VERSION : N := 4.

(** The two [matches!] tests on the version word. *)
Definition has_rank_words (version : N) : bool :=
  (version =? RANK_FEATURE_PROGRAM_VERSION) || (version =? RANK_PHRASE_PROGRAM_VERSION).
Definition has_phrase_words (version : N) : bool :=
  (version =? PHRASE_PROGRAM_VERSION) || (version =? RANK_PHRASE_PROGRAM_VERSION).

(** ** Encoding *)

Definition compound_extra_terms (predicate : AnyOfPredicate) : N :=
  sat_sub (default 0 (iter_min ((λ member, try_u32 (length (requirements member))) <$> members predicate))) 1.

Definition encode_phrases (phrases : list PhraseGraph) (blob : list N) : list N :=
  let blob := blob ++ [as_u32 (length phrases)] in
  foldl (λ blob phrase,
    let blob := blob ++ [positions phrase; as_u32 (length (arcs phrase))] in
    foldl (λ blob arc,
      (blob ++ [ph_start arc; ph_end arc; as_u32 (length (alternatives arc))]) ++ alternatives arc)
      blob (arcs phrase)) blob phrases.

(** The ranking totals the encoder stores. *)
Definition encode_anyof_groups (ex : Extracted) : N :=
  N.max (N.max (semantic_anyof_groups ex) (try_u32 (length (anyof ex))))
    (try_u32 (length (anyof_predicates ex))).
Definition encode_anyof_terms (ex : Extracted) : N :=
  let reconstructed :=
    foldl (λ terms predicate, sat_add 32 terms (compound_extra_terms predicate))
      (encode_anyof_groups ex) (anyof_predicates ex) in
  N.max (N.max (semantic_anyof_terms ex) reconstructed) (encode_anyof_groups ex).

(** The predicate's offset and length, and the grown blob. *)
Definition encode_predicate (ex : Extracted) (blob : list N) : (N * N) * list N :=
  let proxy_anyof_groups := try_u32 (length (anyof ex)) in
  let groups_ := encode_anyof_groups ex in
  let terms := encode_anyof_terms ex in
  if negb (nonempty (anyof_predicates ex)) && negb (nonempty (forbidden_conjunctions ex)) &&
     negb (nonempty (required_phrases ex)) && negb (nonempty (forbidden_phrases ex)) &&
     (groups_ =? proxy_anyof_groups) && (terms =? proxy_anyof_groups)
  then ((as_u32 (length blob), 0), blob)
  else
    let offset := as_u32 (length blob) in
    let version :=
      if negb (nonempty (required_phrases ex)) && negb (nonempty (forbidden_phrases ex))
      then RANK_FEATURE_PROGRAM_VERSION else RANK_PHRASE_PROGRAM_VERSION in
    let blob := blob ++ [version; groups_; terms; as_u32 (length (anyof_predicates ex))] in
    let blob :=
      foldl (λ blob predicate,
        let blob := blob ++ [as_u32 (length (members predicate))] in
        foldl (λ blob member,
          let blob := blob ++ [as_u32 (length (requirements member))] in
          foldl (λ blob alts, (blob ++ [as_u32 (length alts)]) ++ alts) blob (requirements member))
          blob (members predicate)) blob (anyof_predicates ex) in
    let blob := blob ++ [as_u32 (length (forbidden_conjunctions ex))] in
    let blob :=
      foldl (λ blob conjunction, (blob ++ [as_u32 (length conjunction)]) ++ conjunction)
        blob (forbidden_conjunctions ex) in
    let blob :=
      if version =? RANK_PHRASE_PROGRAM_VERSION
      then encode_phrases (forbidden_phrases ex) (encode_phrases (required_phrases ex) blob)
      else blob in
    ((offset, wrap32 (as_u32 (length blob) + 2 ^ 32 - offset)), blob).

Definition predicate_has_phrases (words : list N) : bool :=
  match words with [] => false | version :: _ => has_phrase_words version end.

(** [&words[3..]] panics when fewer than three words are left. *)
Definition predicate_boolean_program (words : list N) : option (N * list N) :=
  match words with
  | [] => Some (0, [])
  | version :: _ =>
      tail ← (if has_rank_words version then if decide (3 ≤ length words)%nat then Some (drop 3 words) else None
              else Some (drop 1 words));
      let boolean_version :=
        if version =? RANK_FEATURE_PROGRAM_VERSION then FEATURE_PROGRAM_VERSION
        else if version =? RANK_PHRASE_PROGRAM_VERSION then PHRASE_PROGRAM_VERSION
        else version in
      let empty :=
        if boolean_version =? FEATURE_PROGRAM_VERSION then bool_decide (tail = [0; 0])
        else if boolean_version =? PHRASE_PROGRAM_VERSION then bool_decide (tail = [0; 0; 0; 0])
        else false in
      Some (if empty then (0, []) else (boolean_version, tail))
  end.

(** ** Skipping and taking a graph *)

Definition skip_graph {R} (words : list N) : Cursor R unit :=
  let! _ := advance 1 in
  let! arc_count := next_word words in
  repeat_n arc_count (λ _,
    let! _ := advance 2 in
    let! alts := next_word words in
    advance (usize alts)) tt.

Definition take_graph {R} (words : list N) : Cursor R (list N) :=
  let! start := get_at in
  let! _ := skip_graph words in
  let! stop := get_at in
  or_panic (slice words start (stop - start)).

(** ** Ranking term counts *)

Definition count_group (words : list N) (compound_extra : N) : Cursor (N * N * N) N :=
  let! member_count := next_word words in
  let! shortest_member := repeat_n member_count (λ shortest_member,
    let! requirement_count := next_word words in
    let! _ := repeat_n requirement_count (λ _,
      let! alternative_count := next_word words in advance (usize alternative_count)) tt in
    cur_ret (N.min shortest_member requirement_count)) (umax 32) in
  cur_ret (sat_add 32 compound_extra (sat_sub shortest_member 1)).

(** [for _ in 0..count { total = total.saturating_add(words[at]); skip_graph(words, &mut at) }] *)
Definition count_graphs (words : list N) (total : N) : Cursor (N * N * N) N :=
  let! phrase_count := next_word words in
  repeat_n phrase_count (λ total,
    let! at_ := get_at in
    let! positions := or_panic (words !! at_) in
    let! _ := skip_graph words in
    cur_ret (sat_add 32 total positions)) total.

Definition predicate_rank_term_counts_body (words : list N) (proxy_anyof_groups : N) :
  Cursor (N * N * N) (N * N * N) :=
  let! version := next_word words in
  let! semantic_anyof :=
    (if has_rank_words version then
       let! groups_ := next_word words in
       let! terms := next_word words in
       cur_ret (Some (groups_, terms))
     else cur_ret None) in
  let! positive_group_count := next_word words in
  let! compound_extra := repeat_n positive_group_count (count_group words) 0 in
  let! negative_conjunction_count := next_word words in
  let! negative_terms := repeat_n negative_conjunction_count (λ negative_terms,
    let! feature_count := next_word words in
    let! _ := advance (usize feature_count) in
    cur_ret (sat_add 32 negative_terms feature_count)) 0 in
  let! phrase_terms :=
    (if has_phrase_words version then
       let! phrase_positive_terms := count_graphs words 0 in
       let! negative_terms := count_graphs words negative_terms in
       cur_ret (phrase_positive_terms, negative_terms)
     else cur_ret (0, negative_terms)) in
  let '(phrase_positive_terms, negative_terms) := phrase_terms in
  let '(semantic_groups, semantic_terms) :=
    match semantic_anyof with
    | Some p => p
    | None =>
        let groups_ := N.max proxy_anyof_groups (N.min positive_group_count (umax 32)) in
        (groups_, sat_add 32 groups_ compound_extra)
    end in
  cur_ret (sat_add 32 semantic_terms phrase_positive_terms, negative_terms, semantic_groups).

Definition predicate_rank_term_counts (words : list N) (proxy_anyof_groups : N) : option (N * N * N) :=
  if nonempty words then run_cursor (predicate_rank_term_counts_body words proxy_anyof_groups) 0
  else Some (proxy_anyof_groups, 0, proxy_anyof_groups).

(** ** Validation *)

(** The [&'static str] of an [Err]. *)
Abbreviation Message := string.

Definition read_word (words : list N) : Cursor Message N := λ at_,
  match words !! at_ with
  | Some value => inr (S at_, value)
  | None => inl (Some "compound predicate truncated")
  end.

Definition take_words (words : list N) (count : N) : Cursor Message unit := λ at_,
  match checked_add 64 (N.of_nat at_) count with
  | None => inl (Some "compound predicate length overflow")
  | Some end_ =>
      if N.of_nat (length words) <? end_ then inl (Some "compound predicate feature run truncated")
      else inr (usize end_, tt)
  end.

(** [words.windows(2).any(|pair| pair[0] >= pair[1])]. *)
Fixpoint any_descent (l : list N) : bool :=
  match l with
  | x :: ((y :: _) as l') => (y <=? x) || any_descent l'
  | _ => false
  end.

(** One arc: the previous span and the set of reachable positions. *)
Definition validate_arc (words : list N) (graph_positions : N) (st : option (N * N) * gset N) :
  Cursor Message (option (N * N) * gset N) :=
  let '(previous, reachable) := st in
  let! start := read_word words in
  let! end_ := read_word words in
  let! alternative_count := read_word words in
  let! _ := return_when ((end_ <=? start) || (graph_positions <? end_))
              "quoted predicate arc is outside its token graph" in
  let! _ := return_when (match previous with
                         | Some old => bool_decide (rle (start, end_) old)
                         | None => false
                         end) "quoted predicate arcs are not canonical" in
  let previous := Some (start, end_) in
  let! _ := return_when (alternative_count =? 0) "quoted predicate arc has no labels" in
  let! alternatives_start := get_at in
  let! _ := take_words words alternative_count in
  let! at_ := get_at in
  let! labels := or_panic (slice words alternatives_start (at_ - alternatives_start)) in
  let! _ := return_when (any_descent labels) "quoted predicate labels are not canonical" in
  cur_ret (previous, if bool_decide (start ∈ reachable) then {[end_]} ∪ reachable else reachable).

Definition validate_phrase (words : list N) : Cursor Message unit :=
  let! graph_positions := read_word words in
  let! arc_count := read_word words in
  let! _ := return_when ((graph_positions =? 0) || (arc_count =? 0))
              "quoted predicate has an empty token graph" in
  let! st := repeat_n arc_count (validate_arc words graph_positions) (None, {[0]}) in
  return_when (negb (bool_decide (graph_positions ∈ st.2))) "quoted predicate has no complete analyzer path".

Definition validate_phrases (words : list N) : Cursor Message N :=
  let! phrase_count := read_word words in
  let! _ := repeat_n phrase_count (λ _, validate_phrase words) tt in
  cur_ret phrase_count.

Definition validate_requirement (words : list N) : Cursor Message unit :=
  let! alternative_count := read_word words in
  let! _ := return_when (alternative_count =? 0) "compound requirement has no alternatives" in
  take_words words alternative_count.

Definition validate_member (words : list N) (shortest_member : N) : Cursor Message N :=
  let! requirement_count := read_word words in
  let! _ := return_when (requirement_count =? 0) "compound member has no requirements" in
  let shortest_member := N.min shortest_member requirement_count in
  let! _ := repeat_n requirement_count (λ _, validate_requirement words) tt in
  cur_ret shortest_member.

Definition validate_group (words : list N) (minimum_compound_extra : N) : Cursor Message N :=
  let! member_count := read_word words in
  let! _ := return_when (member_count =? 0) "compound positive group has no members" in
  let! shortest_member := repeat_n member_count (validate_member words) (umax 32) in
  cur_ret (sat_add 32 minimum_compound_extra (sat_sub shortest_member 1)).

Definition validate_conjunction (words : list N) : Cursor Message unit :=
  let! feature_count := read_word words in
  let! _ := return_when (feature_count <? 2) "compound negative member must contain multiple features" in
  take_words words feature_count.

(** [semantic_anyof.is_some_and(|(groups, terms)| ..)]. *)
Definition is_some_and {A} (o : option A) (p : A → bool) : bool :=
  match o with Some a => p a | None => false end.

(** Everything up to the check for trailing words. *)
Definition validate_sections (words : list N) : Cursor Message unit :=
  let! version := read_word words in
  let! _ := return_when (negb (existsb (N.eqb version)
      [FEATURE_PROGRAM_VERSION; PHRASE_PROGRAM_VERSION; RANK_FEATURE_PROGRAM_VERSION;
       RANK_PHRASE_PROGRAM_VERSION])) "unsupported compound predicate version" in
  let! semantic_anyof :=
    (if has_rank_words version then
       let! groups_ := read_word words in
       let! terms := read_word words in
       cur_ret (Some (groups_, terms))
     else cur_ret None) in
  let! positive_count := read_word words in
  let! _ := return_when (is_some_and semantic_anyof (λ p, p.1 <? positive_count))
              "semantic any-of count is smaller than compound group count" in
  let! _ := return_when (is_some_and semantic_anyof (λ p, p.2 <? p.1))
              "semantic any-of term count is smaller than group count" in
  let! minimum_compound_extra := repeat_n positive_count (validate_group words) 0 in
  let! _ := return_when (is_some_and semantic_anyof (λ p, p.2 <? sat_add 32 p.1 minimum_compound_extra))
              "semantic any-of term count omits compound requirements" in
  let! negative_count := read_word words in
  let! _ := repeat_n negative_count (λ _, validate_conjunction words) tt in
  if has_phrase_words version then
    let! required := validate_phrases words in
    let! forbidden := validate_phrases words in
    return_when ((required =? 0) && (forbidden =? 0)) "phrase predicate program has no quoted graphs"
  else cur_ret tt.

Definition validate_predicate_body (words : list N) : Cursor Message unit :=
  let! _ := validate_sections words in
  let! at_ := get_at in
  return_when (negb (at_ =? length words)%nat) "compound predicate has trailing words".

(** [Ok(())] is [inr tt], [Err(msg)] is [inl (Some msg)], a panic is [inl None]. *)
Definition validate_predicate (words : list N) : option Message + unit :=
  if nonempty words then
    match validate_predicate_body words 0%nat with inl e => inl e | inr _ => inr tt end
  else inr tt.

(** ** The bounded search on an encoded graph *)

(** [for _ in 0..query_arc_count]: the outer option is a panic, the inner one
    the complexity fail-open. *)
Fixpoint graph_arc_loop (n : nat) (query : list N) (query_at : nat) (query_node : N)
  (tarcs : list PositionArc) (sr : Search) : option (option Search) :=
  match n with
  | O => Some (Some sr)
  | S n' =>
      match spend_phrase_graph_work (sw_work sr) with
      | None => Some None
      | Some w =>
          let sr := mkSearch w (sw_stack sr) (sw_seen sr) in
          start ← query !! query_at;
          end_ ← query !! S query_at;
          alternative_count ← query !! S (S query_at);
          alts ← slice query (3 + query_at) (usize alternative_count);
          let query_at := (3 + query_at + usize alternative_count)%nat in
          if start <? query_node then graph_arc_loop n' query query_at query_node tarcs sr
          else if query_node <? start then Some (Some sr)
          else
            match title_arc_loop alts end_ tarcs sr with
            | None => Some None
            | Some sr => graph_arc_loop n' query query_at query_node tarcs sr
            end
      end
  end.

Fixpoint graph_loop (fuel : nat) (query : list N) (title : list PositionArc) (sr : Search) :
  option (option bool) :=
  match fuel with
  | O => None
  | S fuel' =>
      match sw_stack sr with
      | [] => Some (Some false)
      | (query_node, title_node) :: stack' =>
          query_positions ← query !! 0%nat;
          if query_node =? query_positions then Some (Some true)
          else
            query_arc_count ← query !! 1%nat;
            r ← graph_arc_loop (usize query_arc_count) query 2 query_node (title_run title title_node)
                  (mkSearch (sw_work sr) stack' (sw_seen sr));
            match r with
            | None => Some None
            | Some sr' => graph_loop fuel' query title sr'
            end
      end
  end.

Definition graph_matches (query : list N) (title : PositionGraph) : option (option bool) :=
  if negb (pg_complete title) then Some None
  else
    _ ← query !! 0%nat;
    if PHRASE_GRAPH_MAX_STATES <? pg_positions title then Some None
    else graph_loop bounded_fuel query (pg_arcs title) (initial_search (pg_positions title)).

(** ** Scalar evaluation *)

Definition verify_requirement (words pos : list N) (member_hit : bool) : Cursor bool bool :=
  let! alternative_count := next_word words in
  let! alts := next_words words alternative_count in
  cur_ret (if member_hit && negb (existsb (λ f, bsearch_mem f pos) alts) then false else member_hit).

Definition verify_member (words pos : list N) (group_hit : bool) : Cursor bool bool :=
  let! requirement_count := next_word words in
  let! member_hit := repeat_n requirement_count (verify_requirement words pos) true in
  cur_ret (group_hit || member_hit).

Definition verify_group (words pos : list N) : Cursor bool unit :=
  let! member_count := next_word words in
  let! group_hit := repeat_n member_count (verify_member words pos) false in
  return_when (negb group_hit) false.

Definition verify_conjunction (words neg : list N) : Cursor bool unit :=
  let! feature_count := next_word words in
  let! features := next_words words feature_count in
  return_when (forallb (λ f, bsearch_mem f neg) features) false.

(** One quoted graph against a title graph: the verdict that returns [false]. *)
Definition verify_graph (words : list N) (title : PositionGraph) (reject : bool) : Cursor bool unit :=
  let! graph := take_graph words in
  let! verdict := or_panic (graph_matches graph title) in
  return_when (bool_decide (verdict = Some reject)) false.

Definition verify_phrases (words : list N) (view : TitleView) : Cursor bool unit :=
  let! required_count := next_word words in
  let! required_start := get_at in
  let! _ := repeat_n required_count (λ _, skip_graph words) tt in
  let! forbidden_count := next_word words in
  let! forbidden_start := get_at in
  match pos_graph view, neg_graph view, phrase_scratch view with
  | Some pg, Some ng, Some borrowed =>
      let! _ := return_when borrowed true in
      let! _ := set_at required_start in
      let! _ := repeat_n required_count (λ _, verify_graph words pg false) tt in
      let! _ := set_at forbidden_start in
      repeat_n forbidden_count (λ _, verify_graph words ng true) tt
  | _, _, _ => cur_return true
  end.

Definition verify_predicate_body (words : list N) (view : TitleView) : Cursor bool bool :=
  let! version := next_word words in
  let! _ := (if has_rank_words version then advance 2 else cur_ret tt) in
  let! positive_count := next_word words in
  let! _ := repeat_n positive_count (λ _, verify_group words (pos view)) tt in
  let! negative_count := next_word words in
  let! _ := repeat_n negative_count (λ _, verify_conjunction words (neg view)) tt in
  let! _ := (if has_phrase_words version then verify_phrases words view else cur_ret tt) in
  cur_ret true.

Definition verify_predicate (words : list N) (view : TitleView) : option bool :=
  if nonempty words then run_cursor (verify_predicate_body words view) 0%nat else Some true.

(** ** The abstract syntax of programs *)

Record Program := mkProgram {
  p_rank : option (N * N);
  p_groups : list AnyOfPredicate;
  p_conjunctions : list (list N);
  p_phrases : option (list PhraseGraph * list PhraseGraph);
}.

Definition program_version (p : Program) : N :=
  match p_rank p, p_phrases p with
  | None, None => FEATURE_PROGRAM_VERSION
  | None, Some _ => PHRASE_PROGRAM_VERSION
  | Some _, None => RANK_FEATURE_PROGRAM_VERSION
  | Some _, Some _ => RANK_PHRASE_PROGRAM_VERSION
  end.

(** A count followed by the items. *)
Definition counted {A} (enc : A → list N) (l : list A) : list N := nlen l :: (l ≫= enc).

Definition enc_run (l : list N) : list N := nlen l :: l.
Definition enc_member (m : AnyOfMember) : list N := counted enc_run (requirements m).
Definition enc_group (p : AnyOfPredicate) : list N := counted enc_member (members p).
Definition enc_arc (a : PhraseArc) : list N := ph_start a :: ph_end a :: enc_run (alternatives a).
Definition enc_graph (g : PhraseGraph) : list N := positions g :: counted enc_arc (arcs g).
Definition enc_rank (r : option (N * N)) : list N := match r with Some (a, b) => [a; b] | None => [] end.
Definition enc_phrases (ps : option (list PhraseGraph * list PhraseGraph)) : list N :=
  match ps with Some (req, forb) => counted enc_graph req ++ counted enc_graph forb | None => [] end.

Definition enc_boolean (p : Program) : list N :=
  counted enc_group (p_groups p) ++ counted enc_run (p_conjunctions p) ++ enc_phrases (p_phrases p).
Definition print_program (p : Program) : list N :=
  program_version p :: enc_rank (p_rank p) ++ enc_boolean p.

(** The verdict of a graph predicate, with the fail-open of a title whose
    analysis was cut short or of a search over budget. *)
Definition graph_verdict (g : PhraseGraph) (title : PositionGraph) : option bool :=
  phrase_verdict g (pg_positions title) (pg_arcs title) (pg_complete title).

(** The positioned part of a view; without it, or with the scratch cell already
    borrowed, phrase tests fail open. *)
Definition view_graphs (view : TitleView) : option (PositionGraph * PositionGraph) :=
  match pos_graph view, neg_graph view, phrase_scratch view with
  | Some pg, Some ng, Some false => Some (pg, ng)
  | _, _, _ => None
  end.

Definition phrases_hold (req forb : list PhraseGraph) (view : TitleView) : bool :=
  match view_graphs view with
  | Some (pg, ng) =>
      forallb (λ g, bool_decide (graph_verdict g pg ≠ Some false)) req &&
      forallb (λ g, bool_decide (graph_verdict g ng ≠ Some true)) forb
  | None => true
  end.

Definition flat_holds (in_pos in_neg : N → bool) (p : Program) : bool :=
  forallb (predicate_matches in_pos) (p_groups p) &&
  forallb (λ c, negb (forallb in_neg c)) (p_conjunctions p).

Definition program_holds (p : Program) (view : TitleView) : bool :=
  flat_holds (λ f, bsearch_mem f (pos view)) (λ f, bsearch_mem f (neg view)) p &&
  match p_phrases p with Some (req, forb) => phrases_hold req forb view | None => true end.

(** The quoted graphs are non-empty, so that the word search and the search
    on graphs agree. *)
Definition phrases_of (p : Program) : list PhraseGraph :=
  match p_phrases p with Some (req, forb) => req ++ forb | None => [] end.
Definition graph_nonempty (g : PhraseGraph) : Prop := positions g ≠ 0 ∧ arcs g ≠ [].

(** ** Evaluating on printed programs *)

Lemma try_foldl_pure {E A B} (f : A → B → A) (l : list B) a :
  try_foldl (E:=E) (λ a b, inr (f a b)) a l = inr (foldl f a l).
Proof. revert a. induction l as [|x l IH]; intros a; [done|]. apply IH. Qed.

Lemma try_foldl_all {E B} (e : E) (p : B → bool) (l : list B) :
  try_foldl (λ _ b, return_if (negb (p b)) e) tt l = if forallb p l then inr tt else inl e.
Proof.
  induction l as [|x l IH]; [done|]. cbn [try_foldl forallb].
  by destruct (p x).
Qed.

Lemma foldl_andb {B} (p : B → bool) (l : list B) b : foldl (λ b x, b && p x) b l = b && forallb p l.
Proof. revert b. induction l as [|x l IH]; intros b; simpl; [by destruct b|]. rewrite IH. by destruct b, (p x). Qed.

Lemma foldl_orb {B} (p : B → bool) (l : list B) b : foldl (λ b x, b || p x) b l = b || existsb p l.
Proof. revert b. induction l as [|x l IH]; intros b; simpl; [by destruct b|]. rewrite IH. by destruct b, (p x). Qed.

Lemma foldl_unit {B} (l : list B) : foldl (λ (s : unit) (_ : B), s) tt l = tt.
Proof. by induction l. Qed.

(** The common shape of a loop: a count, then that many items. *)
Lemma counted_eval {R St A X} words (enc : X → list N) (body : St → Cursor R St)
  (step : St → X → option R + St) (xs : list X) s (k : N → St → Cursor R A) at_ :
  (∀ x s at_, x ∈ xs → occurs words at_ (enc x) →
     body s at_ = let? s' := step s x in inr ((at_ + length (enc x))%nat, s')) →
  occurs words at_ (counted enc xs) →
  (let! n := next_word words in let! s' := repeat_n n body s in k n s') at_ =
    let? s' := try_foldl step s xs in k (nlen xs) s' (at_ + length (counted enc xs))%nat.
Proof.
  intros Hb [Hn Ho]%occurs_cons. unfold cur_bind. rewrite (next_word_occurs _ _ _ Hn).
  unfold nlen. rewrite (repeat_eval words enc body step xs s _ Hb Ho).
  destruct (try_foldl step s xs) as [|s']; [done|]. cbn [try_bind]. f_equal. unfold counted. simpl. lia.
Qed.

Lemma counted_pure {R St A X} words (enc : X → list N) (body : St → Cursor R St)
  (f : St → X → St) (xs : list X) s (k : N → St → Cursor R A) at_ :
  (∀ x s at_, x ∈ xs → occurs words at_ (enc x) → body s at_ = inr ((at_ + length (enc x))%nat, f s x)) →
  occurs words at_ (counted enc xs) →
  (let! n := next_word words in let! s' := repeat_n n body s in k n s') at_ =
    k (nlen xs) (foldl f s xs) (at_ + length (counted enc xs))%nat.
Proof.
  intros Hb Ho. rewrite (counted_eval words enc body (λ s x, inr (f s x)) xs s k at_ Hb Ho).
  by rewrite try_foldl_pure.
Qed.

(** A run: a count, then that many words. *)
Lemma run_eval {R A} words (l : list N) (k : list N → Cursor R A) at_ :
  occurs words at_ (enc_run l) →
  (let! n := next_word words in let! s := next_words words n in k s) at_ = k l (at_ + length (enc_run l))%nat.
Proof.
  intros [Hn Ho]%occurs_cons. unfold cur_bind. rewrite (next_word_occurs _ _ _ Hn).
  unfold nlen. rewrite next_words_occurs by done. f_equal. simpl. lia.
Qed.

Section verify_eval.
Context (words : list N).

Lemma verify_requirement_eval pos r hit at_ :
  occurs words at_ (enc_run r) →
  verify_requirement words pos hit at_ =
    inr ((at_ + length (enc_run r))%nat, hit && existsb (λ f, bsearch_mem f pos) r).
Proof.
  intros Ho. unfold verify_requirement. rewrite (run_eval words r) by done. unfold cur_ret.
  do 2 f_equal. by destruct hit, (existsb _ r).
Qed.

Lemma verify_member_eval pos m hit at_ :
  occurs words at_ (enc_member m) →
  verify_member words pos hit at_ =
    inr ((at_ + length (enc_member m))%nat, hit || member_matches (λ f, bsearch_mem f pos) m).
Proof.
  intros Ho. unfold verify_member.
  rewrite (counted_pure words enc_run _ (λ hit r, hit && existsb (λ f, bsearch_mem f pos) r) (requirements m)).
  - by rewrite foldl_andb.
  - intros r s a _. apply verify_requirement_eval.
  - done.
Qed.

Lemma verify_group_eval pos p at_ :
  occurs words at_ (enc_group p) →
  verify_group words pos at_ =
    let? _ := return_if (negb (predicate_matches (λ f, bsearch_mem f pos) p)) (Some false) in
    inr ((at_ + length (enc_group p))%nat, tt).
Proof.
  intros Ho. unfold verify_group.
  rewrite (counted_pure words enc_member _ (λ hit m, hit || member_matches (λ f, bsearch_mem f pos) m) (members p)).
  - rewrite foldl_orb. unfold predicate_matches. simpl. by destruct (existsb _ (members p)).
  - intros m s a _. apply verify_member_eval.
  - done.
Qed.

Lemma verify_conjunction_eval neg c at_ :
  occurs words at_ (enc_run c) →
  verify_conjunction words neg at_ =
    let? _ := return_if (negb (negb (forallb (λ f, bsearch_mem f neg) c))) (Some false) in
    inr ((at_ + length (enc_run c))%nat, tt).
Proof.
  intros Ho. unfold verify_conjunction. rewrite (run_eval words c) by done.
  by destruct (forallb _ c).
Qed.

(** *** Graphs *)

Lemma skip_arc_eval {R} a at_ :
  occurs words at_ (enc_arc a) →
  (let! _ := advance (R:=R) 2 in let! alts := next_word words in advance (usize alts)) at_ =
    inr ((at_ + length (enc_arc a))%nat, tt).
Proof.
  intros (_ & (_ & (Hn & _)%occurs_cons)%occurs_cons)%occurs_cons. unfold cur_bind, advance.
  replace (at_ + 2)%nat with (S (S at_)) by lia. rewrite (next_word_occurs _ _ _ Hn).
  unfold nlen. rewrite Nat2N.id. unfold enc_arc, enc_run. simpl. do 2 f_equal. lia.
Qed.

Lemma skip_graph_eval {R} g at_ :
  occurs words at_ (enc_graph g) → skip_graph (R:=R) words at_ = inr ((at_ + length (enc_graph g))%nat, tt).
Proof.
  intros [_ Ho]%occurs_cons. unfold skip_graph. unfold cur_bind at 1, advance at 1.
  replace (at_ + 1)%nat with (S at_) by lia.
  pose proof (counted_pure (R:=R) words enc_arc
    (λ _, let! _ := advance 2 in let! alts := next_word words in advance (usize alts))
    (λ s _, s) (arcs g) tt (λ _, cur_ret) (S at_)) as H.
  rewrite foldl_unit in H. unfold cur_ret in H at 2.
  replace (at_ + length (enc_graph g))%nat with (S at_ + length (counted enc_arc (arcs g)))%nat
    by (unfold enc_graph; simpl; lia).
  rewrite <-H; [|intros x [] a _; apply skip_arc_eval|done]. unfold cur_bind.
  destruct (next_word words (S at_)) as [|[a1 n]]; [done|].
  by destruct (repeat_n n _ tt a1) as [|[a2 []]].
Qed.

Lemma take_graph_eval {R} g at_ :
  occurs words at_ (enc_graph g) →
  take_graph (R:=R) words at_ = inr ((at_ + length (enc_graph g))%nat, enc_graph g).
Proof.
  intros Ho. unfold take_graph, cur_bind, get_at. rewrite (skip_graph_eval g) by done.
  replace (at_ + length (enc_graph g) - at_)%nat with (length (enc_graph g)) by lia.
  unfold occurs in Ho. by rewrite Ho.
Qed.

End verify_eval.

Lemma graph_arc_loop_eval query qn tarcs qarcs query_at sr :
  occurs query query_at (qarcs ≫= enc_arc) →
  graph_arc_loop (length qarcs) query query_at qn tarcs sr = Some (query_arc_loop qn tarcs qarcs sr).
Proof.
  revert query_at sr. induction qarcs as [|a qarcs IH]; intros query_at sr Ho; [done|].
  rewrite bind_cons in Ho. apply occurs_app in Ho as [Ha Ho].
  apply occurs_cons in Ha as [Hs Ha]. apply occurs_cons in Ha as [He Ha].
  apply occurs_cons in Ha as [Hn Ha]. cbn [graph_arc_loop length query_arc_loop].
  destruct (spend_phrase_graph_work _) as [w|]; [|done]. rewrite Hs, He, Hn. simpl mbind.
  unfold nlen. rewrite Nat2N.id. unfold occurs in Ha.
  replace (3 + query_at)%nat with (S (S (S query_at))) by lia. rewrite Ha. simpl mbind.
  replace (query_at + length (enc_arc a))%nat with (S (S (S query_at)) + length (alternatives a))%nat in Ho
    by (unfold enc_arc, enc_run; simpl; lia).
  destruct (_ <? qn); [by apply IH|]. destruct (qn <? _); [done|].
  destruct (title_arc_loop _ _ _ _) as [sr'|]; [|done]. by apply IH.
Qed.

Lemma graph_loop_eval fuel g title sr :
  graph_loop fuel (enc_graph g) title sr = bounded_loop fuel g title sr.
Proof.
  revert sr. induction fuel as [|fuel IH]; intros sr; [done|]. cbn [graph_loop bounded_loop].
  destruct (sw_stack sr) as [|[qn tn] stack]; [done|].
  change (enc_graph g !! 0%nat) with (Some (positions g)).
  change (enc_graph g !! 1%nat) with (Some (nlen (arcs g))). simpl mbind.
  destruct (qn =? positions g); [done|]. unfold nlen. rewrite Nat2N.id.
  rewrite (graph_arc_loop_eval _ _ _ (arcs g)).
  - simpl mbind. by destruct (query_arc_loop _ _ _ _).
  - pose proof (occurs_whole (enc_graph g)) as Ho.
    apply occurs_cons in Ho as [_ Ho]. by apply occurs_cons in Ho as [_ Ho].
Qed.

(** The search on encoded words is the search on the graph. *)
Lemma graph_matches_eval g title :
  graph_nonempty g → graph_matches (enc_graph g) title = Some (graph_verdict g title).
Proof.
  intros [Hp Ha]. unfold graph_verdict, phrase_verdict.
  destruct (bounded_total g (pg_positions title) (pg_arcs title) (pg_complete title)) as [r Hr].
  rewrite Hr. simpl. rewrite <-Hr. unfold graph_matches, phrase_graph_matches_bounded.
  destruct (pg_complete title); [|done]. simpl negb. cbn iota.
  change (enc_graph g !! 0%nat) with (Some (positions g)). simpl mbind.
  rewrite (proj2 (N.eqb_neq _ _) Hp), bool_decide_eq_false_2 by done. simpl orb. cbn iota.
  destruct (_ <? pg_positions title); [done|]. apply graph_loop_eval.
Qed.

Section verify_program.
Context (words : list N) (view : TitleView).

Lemma verify_graph_eval g title reject at_ :
  graph_nonempty g → occurs words at_ (enc_graph g) →
  verify_graph words title reject at_ =
    let? _ := return_if (negb (bool_decide (graph_verdict g title ≠ Some reject))) (Some false) in
    inr ((at_ + length (enc_graph g))%nat, tt).
Proof.
  intros Hg Ho. unfold verify_graph. unfold cur_bind. rewrite (take_graph_eval words g) by done.
  rewrite graph_matches_eval by done. simpl. unfold return_when, return_if.
  by destruct (decide (graph_verdict g title = Some reject)) as [E|E];
    [rewrite (bool_decide_eq_true_2 _ E), bool_decide_eq_false_2 by naive_solver
    |rewrite (bool_decide_eq_false_2 _ E), bool_decide_eq_true_2 by done].
Qed.

(** A list of graphs, all tested against one title graph. *)
Lemma verify_graphs_eval gs title reject at_ :
  Forall graph_nonempty gs → occurs words at_ (gs ≫= enc_graph) →
  repeat_n (nlen gs) (λ _, verify_graph words title reject) tt at_ =
    if forallb (λ g, bool_decide (graph_verdict g title ≠ Some reject)) gs
    then inr ((at_ + length (gs ≫= enc_graph))%nat, tt) else inl (Some false).
Proof.
  intros Hgs Ho. rewrite Forall_forall in Hgs. unfold nlen.
  rewrite (repeat_eval words enc_graph _
    (λ _ g, return_if (negb (bool_decide (graph_verdict g title ≠ Some reject))) (Some false)) gs tt at_).
  - rewrite try_foldl_all. by destruct (forallb _ gs).
  - intros g [] a Hg Hog. rewrite (verify_graph_eval g) by auto. by destruct (return_if _ _) as [|[]].
  - done.
Qed.

Lemma skip_graphs_eval {R} gs at_ :
  occurs words at_ (gs ≫= enc_graph) →
  repeat_n (R:=R) (nlen gs) (λ _, skip_graph words) tt at_ = inr ((at_ + length (gs ≫= enc_graph))%nat, tt).
Proof.
  intros Ho. unfold nlen. rewrite (repeat_eval words enc_graph _ (λ _ _, inr tt) gs tt at_).
  - by rewrite (try_foldl_pure (λ _ _, tt)); destruct (foldl _ _ _).
  - intros g [] a _ Hg. by rewrite (skip_graph_eval words g).
  - done.
Qed.

Lemma verify_phrases_eval req forb at_ :
  Forall graph_nonempty req → Forall graph_nonempty forb →
  occurs words at_ (counted enc_graph req ++ counted enc_graph forb) →
  verify_phrases words view at_ =
    match view_graphs view with
    | None => inl (Some true)
    | Some _ =>
        if phrases_hold req forb view
        then inr ((at_ + length (counted enc_graph req ++ counted enc_graph forb))%nat, tt)
        else inl (Some false)
    end.
Proof.
  intros Hreq Hforb [Ho1 Ho2]%occurs_app.
  pose proof Ho1 as [Hn1 Hr1]%occurs_cons. pose proof Ho2 as [Hn2 Hr2]%occurs_cons.
  unfold verify_phrases, cur_bind, get_at. rewrite (next_word_occurs _ _ _ Hn1).
  rewrite skip_graphs_eval by done.
  replace (at_ + length (counted enc_graph req))%nat with (S at_ + length (req ≫= enc_graph))%nat in *
    by (unfold counted; simpl; lia).
  rewrite (next_word_occurs _ _ _ Hn2). unfold view_graphs, phrases_hold, view_graphs.
  destruct (pos_graph view) as [pg|], (neg_graph view) as [ng|], (phrase_scratch view) as [[]|];
    try done. unfold return_when, cur_ret, set_at. rewrite verify_graphs_eval by done.
  destruct (forallb _ req); [|done]. rewrite verify_graphs_eval by done. simpl andb.
  destruct (forallb _ forb); [|done]. do 2 f_equal. rewrite length_app. unfold counted. simpl. lia.
Qed.

End verify_program.

Section counted_all.
Context {R A X : Type} (words : list N) (enc : X → list N) (body : Cursor R unit) (p : X → bool) (r : R).

(** A loop that returns [r] at the first item failing [p]. *)
Lemma counted_all (xs : list X) (k : unit → Cursor R A) at_ :
  (∀ x at_, x ∈ xs → occurs words at_ (enc x) →
     body at_ = let? _ := return_if (negb (p x)) (Some r) in inr ((at_ + length (enc x))%nat, tt)) →
  occurs words at_ (counted enc xs) →
  (let! n := next_word words in let! s' := repeat_n n (λ _, body) tt in k s') at_ =
    if forallb p xs then k tt (at_ + length (counted enc xs))%nat else inl (Some r).
Proof.
  intros Hb Ho.
  rewrite (counted_eval words enc (λ _, body) (λ _ x, return_if (negb (p x)) (Some r)) xs tt (λ _, k) at_).
  - rewrite try_foldl_all. by destruct (forallb p xs).
  - intros x [] a Hx Hox. rewrite (Hb x a Hx Hox). by destruct (return_if _ _) as [|[]].
  - done.
Qed.

End counted_all.

Lemma has_rank_words_version p : has_rank_words (program_version p) = bool_decide (is_Some (p_rank p)).
Proof. unfold program_version. by destruct (p_rank p), (p_phrases p). Qed.

Lemma has_phrase_words_version p : has_phrase_words (program_version p) = bool_decide (is_Some (p_phrases p)).
Proof. unfold program_version. by destruct (p_rank p), (p_phrases p). Qed.

(** Where the parts of a printed program stand. *)
Lemma print_program_parts p :
  let words := print_program p in
  let at1 := S (length (enc_rank (p_rank p))) in
  let at2 := (at1 + length (counted enc_group (p_groups p)))%nat in
  let at3 := (at2 + length (counted enc_run (p_conjunctions p)))%nat in
  words !! 0%nat = Some (program_version p) ∧ occurs words 1 (enc_rank (p_rank p)) ∧
  occurs words at1 (counted enc_group (p_groups p)) ∧ occurs words at2 (counted enc_run (p_conjunctions p)) ∧
  occurs words at3 (enc_phrases (p_phrases p)) ∧ (at3 + length (enc_phrases (p_phrases p)))%nat = length words.
Proof.
  intros words at1 at2 at3. assert (occurs words 0 (program_version p :: enc_rank (p_rank p) ++ enc_boolean p)) as H by apply occurs_whole.
  apply occurs_cons in H as [H0 H]. unfold enc_boolean in H.
  apply occurs_app in H as [H1 H]. apply occurs_app in H as [H2 H]. apply occurs_app in H as [H3 H4].
  split_and!; [done..|]. unfold at3, at2, at1, words, print_program, enc_boolean. cbn [length].
  rewrite !length_app. lia.
Qed.

Lemma verify_program_eval p view :
  Forall graph_nonempty (phrases_of p) →
  verify_predicate (print_program p) view = Some (program_holds p view).
Proof.
  intros Hg. destruct (print_program_parts p) as (Hv & _ & H1 & H2 & H3 & _).
  unfold verify_predicate. change (nonempty (print_program p)) with true. cbn iota.
  set (words := print_program p) in *. unfold run_cursor, verify_predicate_body.
  unfold cur_bind at 1. rewrite (next_word_occurs _ _ _ Hv). rewrite has_rank_words_version.
  unfold cur_bind at 1.
  replace ((if bool_decide (is_Some (p_rank p)) then advance 2 else cur_ret tt) 1%nat)
    with (@inr (option bool) _ (S (length (enc_rank (p_rank p))), tt)) by by destruct (p_rank p) as [[]|].
  rewrite (counted_all words enc_group _ (predicate_matches (λ f, bsearch_mem f (pos view))) false (p_groups p));
    [|intros; by apply verify_group_eval|done].
  unfold program_holds, flat_holds. destruct (forallb _ (p_groups p)); [|done].
  rewrite (counted_all words enc_run _ (λ c, negb (forallb (λ f, bsearch_mem f (neg view)) c)) false (p_conjunctions p));
    [|intros; by apply verify_conjunction_eval|done].
  destruct (forallb _ (p_conjunctions p)); [|done]. rewrite has_phrase_words_version.
  unfold phrases_of in Hg. destruct (p_phrases p) as [[req forb]|]; [|done].
  apply Forall_app in Hg as [Hr Hf]. rewrite bool_decide_eq_true_2 by by eexists.
  unfold cur_bind. rewrite (verify_phrases_eval words view req forb) by done. simpl andb.
  unfold phrases_hold. destruct (view_graphs view) as [[pg ng]|]; [|done]. by destruct (_ && _).
Qed.

(** ** What the validator accepts *)

Definition shortest_member (p : AnyOfPredicate) : N :=
  foldl (λ s m, N.min s (nlen (requirements m))) (umax 32) (members p).
Definition compound_extra (ps : list AnyOfPredicate) : N :=
  foldl (λ extra p, sat_add 32 extra (sat_sub (shortest_member p) 1)) 0 ps.

Definition rank_ok (rank : option (N * N)) (ps : list AnyOfPredicate) : Prop :=
  match rank with
  | Some (groups_, terms) => nlen ps ≤ groups_ ∧ groups_ ≤ terms ∧ sat_add 32 groups_ (compound_extra ps) ≤ terms
  | None => True
  end.

Definition phrases_ok (ps : option (list PhraseGraph * list PhraseGraph)) : Prop :=
  match ps with
  | Some (req, forb) => req ++ forb ≠ [] ∧ Forall graph_ok req ∧ Forall graph_ok forb
  | None => True
  end.

Record program_ok (p : Program) : Prop := {
  ok_groups : Forall predicate_ok (p_groups p);
  ok_conjunctions : Forall (λ c, (2 ≤ length c)%nat) (p_conjunctions p);
  ok_rank : rank_ok (p_rank p) (p_groups p);
  ok_phrases : phrases_ok (p_phrases p);
}.

(** Items read one after the other are the encoding of a list. *)
Fixpoint fold_opt {St X} (step : St → X → option St) (s : St) (xs : list X) : option St :=
  match xs with [] => Some s | x :: xs' => s ← step s x; fold_opt step s xs' end.

Lemma items_list {St X} (enc : X → list N) (step : St → X → option St) n s l s' :
  items (λ s l s', ∃ x, l = enc x ∧ step s x = Some s') n s l s' ↔
  ∃ xs, length xs = n ∧ l = xs ≫= enc ∧ fold_opt step s xs = Some s'.
Proof.
  split.
  - induction 1 as [s|n s1 l1 s2 l2 s3 (x & -> & Hx) _ (xs & <- & -> & Hxs)]; [by exists []|].
    exists (x :: xs). simpl. by rewrite Hx.
  - intros (xs & <- & -> & Hf). revert s Hf. induction xs as [|x xs IH]; intros s Hf; simpl in Hf.
    { injection Hf as <-. constructor. }
    destruct (step s x) as [s1|] eqn:E; [|done]. rewrite bind_cons. econstructor; [eauto|by apply IH].
Qed.

(** Steps that check the item on its own, then update the state. *)
Definition check_step {St X} (ok : X → Prop) `{∀ x, Decision (ok x)} (f : St → X → St) (s : St) (x : X) :
  option St := if decide (ok x) then Some (f s x) else None.

Lemma fold_check {St X} (ok : X → Prop) `{∀ x, Decision (ok x)} (f : St → X → St) s xs s' :
  fold_opt (check_step ok f) s xs = Some s' ↔ Forall ok xs ∧ s' = foldl f s xs.
Proof.
  revert s. induction xs as [|x xs IH]; intros s; simpl; [naive_solver|].
  rewrite Forall_cons. destruct (check_step ok f s x) as [s1|] eqn:E; unfold check_step in E; case_decide; simplify_eq;
    simpl; [rewrite IH|]; naive_solver.
Qed.

#[export] Instance nil_dec {A} (l : list A) : Decision (l = []).
Proof. destruct l; [by left|by right]. Defined.
#[export] Instance member_ok_dec m : Decision (member_ok m).
Proof. unfold member_ok. apply _. Defined.
#[export] Instance predicate_ok_dec p : Decision (predicate_ok p).
Proof. unfold predicate_ok. apply _. Defined.

(** An arc is past the previous one in span order. *)
Definition after (previous : option (N * N)) (a : PhraseArc) : Prop :=
  match previous with Some old => rlt old (ph_span a) | None => True end.
#[export] Instance after_dec previous a : Decision (after previous a).
Proof. destruct previous; simpl; apply _. Defined.

(** One arc after [previous], with the positions reached so far. *)
Definition arc_step (graph_positions : N) (st : option (N * N) * gset N) (a : PhraseArc) :
  option (option (N * N) * gset N) :=
  if decide ((ph_start a < ph_end a ∧ ph_end a ≤ graph_positions ∧ alternatives a ≠ [] ∧
              any_descent (alternatives a) = false) ∧
             after st.1 a)
  then Some (Some (ph_span a), if bool_decide (ph_start a ∈ st.2) then {[ph_end a]} ∪ st.2 else st.2)
  else None.

Lemma check_step_Some {St X} (ok : X → Prop) `{∀ x, Decision (ok x)} (f : St → X → St) s x s' :
  check_step ok f s x = Some s' ↔ ok x ∧ s' = f s x.
Proof. unfold check_step. case_decide; naive_solver. Qed.

Lemma nlen_zero {A} (l : list A) : (nlen l =? 0) = false ↔ l ≠ [].
Proof. unfold nlen. rewrite N.eqb_neq. destruct l; simpl; [done|]. split; [done|lia]. Qed.

Section validate_reads.
Context (words : list N).
Hypothesis Hwords : nlen words ≤ umax 64.

Lemma reads_read_word : reads words (read_word words) (λ l w, l = [w]).
Proof.
  intros at_ Hat at' w. rewrite <-(reads_word (R:=Message) words at_ Hat at' w).
  unfold read_word, next_word. destruct (words !! at_); [done|]. done.
Qed.

Lemma reads_take_words n : reads words (take_words words n) (λ l _, nlen l = n).
Proof.
  intros at_ Hat at' []. unfold take_words, checked_add. unfold nlen in *. split.
  - destruct (_ <=? _) eqn:E1; [|done]. destruct (_ <? _) eqn:E2; [done|].
    intros [= <-]. apply N.ltb_ge in E2. exists (take (usize n) (drop at_ words)).
    assert (length (take (usize n) (drop at_ words)) = usize n) as Hl by (rewrite length_take, length_drop; lia).
    unfold occurs, slice. rewrite Hl, decide_True by lia. split_and!; [done|lia|lia].
  - intros (l & Ho%occurs_end & -> & <-).
    rewrite (proj2 (N.leb_le _ _)) by lia. rewrite (proj2 (N.ltb_ge _ _)) by lia. do 2 f_equal. lia.
Qed.

(** A counted loop accepts the encodings of the lists the step accepts. *)
Lemma reads_counted {St X A} (enc : X → list N) (step : St → X → option St) (body : St → Cursor Message St)
  n (s : St) (k : St → Cursor Message A) (Q : St → list N → A → Prop) :
  (∀ s, reads words (body s) (λ l s', ∃ x, l = enc x ∧ step s x = Some s')) →
  (∀ s', reads words (k s') (Q s')) →
  reads words (let! s' := repeat_n n body s in k s')
    (λ l a, ∃ xs s' l', nlen xs = n ∧ l = (xs ≫= enc) ++ l' ∧ fold_opt step s xs = Some s' ∧ Q s' l' a).
Proof.
  clear Hwords. intros Hb Hk. eapply reads_iff; [|apply reads_bind; [exact (reads_repeat words n body _ s Hb)|exact Hk]].
  intros l a. unfold nlen. split.
  - intros (l1 & l2 & s' & -> & (xs & Hn & -> & Hf)%items_list & HQ). exists xs, s', l2.
    split_and!; [lia|done..].
  - intros (xs & s' & l' & <- & -> & Hf & HQ). exists (xs ≫= enc), l', s'.
    rewrite items_list. split_and!; [done| |done]. exists xs. split_and!; [lia|done..].
Qed.

(** The same for the other readers, each in front of a continuation. *)
Lemma reads_word_then {A} (k : N → Cursor Message A) (Q : N → list N → A → Prop) :
  (∀ w, reads words (k w) (Q w)) →
  reads words (let! w := read_word words in k w) (λ l a, ∃ w l', l = w :: l' ∧ Q w l' a).
Proof.
  intros Hk. eapply reads_iff; [|apply reads_bind; [exact reads_read_word|exact Hk]].
  intros l a. split; [intros (? & l2 & w & -> & -> & HQ); by exists w, l2|].
  intros (w & l' & -> & HQ). by exists [w], l', w.
Qed.

Lemma reads_guard_then {A} (cond : bool) (r : Message) (k : unit → Cursor Message A) (Q : list N → A → Prop) :
  reads words (k tt) Q →
  reads words (let! x := return_when cond r in k x) (λ l a, cond = false ∧ Q l a).
Proof.
  intros Hk. eapply reads_iff; [|apply reads_bind with (Q := λ _, Q); [apply reads_return_when|by intros []]].
  intros l a. split; [intros (? & l2 & [] & -> & [-> ->] & HQ); done|].
  intros [-> HQ]. by exists [], l, tt.
Qed.

(** [take_words], then a look at the words it passed over. *)
Lemma reads_labels_then {A} n (k : list N → Cursor Message A) (Q : list N → list N → A → Prop) :
  (∀ s, reads words (k s) (Q s)) →
  reads words (let! start := get_at in let! _ := take_words words n in let! stop := get_at in
               let! s := or_panic (slice words start (stop - start)) in k s)
    (λ l a, ∃ s l', nlen s = n ∧ l = s ++ l' ∧ Q s l' a).
Proof.
  intros Hk at_ Hat at' a. unfold cur_bind, get_at.
  pose proof (reads_take_words n at_ Hat) as Ht.
  destruct (take_words words n at_) as [e|[at1 []]] eqn:E.
  - split; [done|]. intros (l & Ho & -> & s & l' & Hs & -> & HQ). apply occurs_app in Ho as [Ho1 Ho2].
    assert (@inl _ (nat * ()) e = inr ((at_ + length s)%nat, ())) as [=]. apply Ht. eauto.
  - destruct (proj1 (Ht at1 ()) eq_refl) as (s & Ho & -> & Hn).
    replace (at_ + length s - at_)%nat with (length s) by lia. rewrite Ho. simpl.
    rewrite (Hk s _ (occurs_end _ _ _ Ho) at' a). split.
    + intros (l & Hl & -> & HQ). exists (s ++ l). rewrite occurs_app, length_app.
      split_and!; [done|done|lia|eauto].
    + intros (l & Hl & -> & s' & l' & Hn' & -> & HQ). apply occurs_app in Hl as [H1 H2].
      assert (length s' = length s) as El by (unfold nlen in *; lia).
      assert (s' = s) as -> by (unfold occurs in *; rewrite El in H1; congruence).
      exists l'. rewrite length_app. split_and!; [done|lia|done].
Qed.

Lemma reads_requirement (u : unit) :
  reads words (validate_requirement words)
    (λ l s', ∃ r, l = enc_run r ∧ check_step (λ r, r ≠ []) (λ s _, s) u r = Some s').
Proof.
  eapply reads_iff; [|apply reads_word_then; intros w; apply reads_guard_then, reads_take_words].
  intros l []. setoid_rewrite check_step_Some. destruct u. split.
  - intros (w & r & -> & Hw & <-). exists r. by rewrite <-nlen_zero.
  - intros (r & -> & Hr & _). exists (nlen r), r. by rewrite nlen_zero.
Qed.

Lemma reads_member s :
  reads words (validate_member words s)
    (λ l s', ∃ m, l = enc_member m ∧ check_step member_ok (λ s m, N.min s (nlen (requirements m))) s m = Some s').
Proof.
  eapply reads_iff; [|apply reads_word_then; intros w; apply reads_guard_then;
    eapply reads_counted; [apply reads_requirement|intros s1; apply reads_ret]].
  intros l a. setoid_rewrite check_step_Some. setoid_rewrite fold_check. split.
  - intros (w & l' & -> & Hw & rs & [] & l2 & <- & -> & [Hrs _] & -> & ->).
    exists (mkAnyOfMember rs). rewrite app_nil_r. rewrite nlen_zero in Hw. done.
  - intros ([rs] & -> & [Hne Hrs] & ->). simpl in *. exists (nlen rs), (rs ≫= enc_run).
    rewrite nlen_zero. split_and!; [done..|]. exists rs, tt, []. rewrite app_nil_r, foldl_unit. done.
Qed.

Lemma reads_group e :
  reads words (validate_group words e)
    (λ l e', ∃ p, l = enc_group p ∧
       check_step predicate_ok (λ e p, sat_add 32 e (sat_sub (shortest_member p) 1)) e p = Some e').
Proof.
  eapply reads_iff; [|apply reads_word_then; intros w; apply reads_guard_then;
    eapply reads_counted; [apply reads_member|intros s'; apply reads_ret]].
  intros l a. setoid_rewrite check_step_Some. setoid_rewrite fold_check. split.
  - intros (w & l' & -> & Hw & ms & s' & l2 & <- & -> & [Hms ->] & -> & ->).
    exists (mkAnyOfPredicate ms). rewrite app_nil_r. rewrite nlen_zero in Hw. done.
  - intros ([ms] & -> & [Hne Hms] & ->). simpl in *. exists (nlen ms), (ms ≫= enc_member).
    rewrite nlen_zero. split_and!; [done..|]. eexists ms, _, []. rewrite app_nil_r. done.
Qed.

Lemma reads_conjunction (u : unit) :
  reads words (validate_conjunction words)
    (λ l s', ∃ c, l = enc_run c ∧ check_step (λ c, (2 ≤ length c)%nat) (λ s _, s) u c = Some s').
Proof.
  eapply reads_iff; [|apply reads_word_then; intros w; apply reads_guard_then, reads_take_words].
  intros l []. setoid_rewrite check_step_Some. destruct u. unfold enc_run, nlen.
  setoid_rewrite N.ltb_ge. split.
  - intros (w & c & -> & Hw & <-). exists c. split_and!; [done|lia|done].
  - intros (c & -> & Hc & _). exists (N.of_nat (length c)), c. split_and!; [done|lia|done].
Qed.

(** *** Reading graphs *)

Lemma reads_arc graph_positions st :
  reads words (validate_arc words graph_positions st)
    (λ l st', ∃ a, l = enc_arc a ∧ arc_step graph_positions st a = Some st').
Proof.
  destruct st as [previous reachable].
  eapply reads_iff; [|apply reads_word_then; intros start; apply reads_word_then; intros end_;
    apply reads_word_then; intros n; apply reads_guard_then, reads_guard_then, reads_guard_then, reads_labels_then;
    intros labels; apply reads_guard_then, reads_ret].
  intros l st'. unfold arc_step. cbn [fst snd]. split.
  - intros (start & l1 & -> & end_ & l2 & -> & n & l3 & -> & Hb & Hc & Hz & labels & l4 & Hn & -> & Hd & -> & ->).
    exists (mkPhraseArc start end_ labels). rewrite app_nil_r. unfold enc_arc, enc_run. cbn [ph_start ph_end alternatives].
    rewrite Hn. split; [done|]. apply orb_false_iff in Hb as [Hb1%N.leb_gt Hb2%N.ltb_ge].
    subst n. rewrite nlen_zero in Hz. rewrite decide_True; [done|]. split; [done|].
    destruct previous as [old|]; [|done]. apply bool_decide_eq_false in Hc.
    rewrite rle_not_rlt in Hc. by apply dec_stable.
  - intros ([start end_ labels] & -> & Hs). cbn [ph_start ph_end alternatives] in *.
    case_decide as Hok; [|done]. injection Hs as <-. destruct Hok as ((H1 & H2 & H3 & H4) & H5).
    eexists start, _. split; [done|]. eexists end_, _. split; [done|]. eexists (nlen labels), _.
    split; [done|]. rewrite orb_false_iff, N.leb_gt, N.ltb_ge, nlen_zero. split_and!; [done..| |done|].
    + destruct previous as [old|]; [|done]. apply bool_decide_eq_false. rewrite rle_not_rlt. tauto.
    + exists labels, []. rewrite app_nil_r. done.
Qed.

End validate_reads.

Lemma rlt_N (x y : N) : rlt x y ↔ x < y.
Proof. unfold rlt, rcmp, N_ord. apply N.compare_lt_iff. Qed.

Lemma any_descent_sorted l : any_descent l = false ↔ StronglySorted rlt l.
Proof.
  split.
  - intros Hd. apply Sorted_StronglySorted; [intros x y z; rewrite !rlt_N; lia|]. induction l as [|x [|y l] IH]; [constructor|by repeat constructor|].
    cbn [any_descent] in Hd. apply orb_false_iff in Hd as [Hxy%N.leb_gt Hd].
    constructor; [by apply IH|]. constructor. by apply rlt_N.
  - intros Hs. induction l as [|x [|y l] IH]; [done..|].
    apply StronglySorted_inv in Hs as [Hs Hx].
    change (any_descent (x :: y :: l)) with ((y <=? x) || any_descent (y :: l)). rewrite IH by done.
    apply Forall_cons in Hx as [Hxy%rlt_N _]. by rewrite (proj2 (N.leb_gt _ _)).
Qed.

(** The positions the single pass over the arcs marks. *)
Definition reach_fold (R : gset N) (l : list PhraseArc) : gset N :=
  foldl (λ R a, if bool_decide (ph_start a ∈ R) then {[ph_end a]} ∪ R else R) R l.

Definition arc_fine (graph_positions : N) (a : PhraseArc) : Prop :=
  ph_start a < ph_end a ∧ ph_end a ≤ graph_positions ∧ alternatives a ≠ [] ∧ StronglySorted rlt (alternatives a).

Lemma arc_step_Some gp st a st' :
  arc_step gp st a = Some st' ↔
  arc_fine gp a ∧ after st.1 a ∧ st' = (Some (ph_span a), reach_fold st.2 [a]).
Proof.
  unfold arc_step, arc_fine. simpl. rewrite <-any_descent_sorted. case_decide; naive_solver.
Qed.

Lemma arc_fold_spec gp st l st' :
  fold_opt (arc_step gp) st l = Some st' →
  Forall (arc_fine gp) l ∧ spans_sorted l ∧ Forall (after st.1) l ∧ st'.2 = reach_fold st.2 l.
Proof.
  revert st. induction l as [|a l IH]; intros st; cbn [fold_opt].
  { intros [= <-]. split; [constructor|]. split; [constructor|]. by split; [constructor|]. }
  destruct (arc_step gp st a) as [st1|] eqn:E; simpl mbind; [|done].
  intros (Hf & Hs & Ha & Hr)%IH. apply arc_step_Some in E as (H1 & H2 & ->). cbn [fst snd] in *.
  split_and!; [by constructor| |constructor; [done|]|done].
  - by constructor.
  - eapply Forall_impl; [exact Ha|]. intros b Hb. simpl in Hb. destruct st.1 as [old|]; [|done].
    simpl in *. by etrans.
Qed.

Lemma arc_fold_total gp st l :
  Forall (arc_fine gp) l → spans_sorted l → Forall (after st.1) l →
  ∃ st', fold_opt (arc_step gp) st l = Some st'.
Proof.
  revert st. induction l as [|a l IH]; intros st Hf Hs Ha; cbn [fold_opt]; [by eexists|].
  apply Forall_cons in Hf as [Hf1 Hf]. apply Forall_cons in Ha as [Ha1 Ha].
  apply StronglySorted_inv in Hs as [Hs Hb].
  rewrite (proj2 (arc_step_Some gp st a _)) by eauto. simpl mbind. by apply IH.
Qed.

Lemma reach_fold_mono R l : R ⊆ reach_fold R l.
Proof.
  revert R. induction l as [|a l IH]; intros R; [done|].
  etrans; [|apply (IH (if bool_decide (ph_start a ∈ R) then {[ph_end a]} ∪ R else R))]. case_bool_decide; set_solver.
Qed.

Lemma reach_fold_sound (all l : list PhraseArc) (R : gset N) n :
  (∀ a, a ∈ l → a ∈ all) → (∀ m, m ∈ R → graph_path all m) → n ∈ reach_fold R l → graph_path all n.
Proof.
  revert R. induction l as [|a l IH]; intros R Hl HR Hn; [by apply HR|].
  eapply IH; [intros b Hb; apply Hl; by right| |exact Hn].
  intros m. case_bool_decide as Ha; [|apply HR]. intros [->%elem_of_singleton|Hm]%elem_of_union; [|by apply HR].
  apply path_arc; [apply Hl; by left|by apply HR].
Qed.

(** Arcs that start later only reach further positions. *)
Lemma reach_fold_late R l s n :
  Forall (λ b, s ≤ ph_start b ∧ ph_start b < ph_end b) l → n ∈ reach_fold R l → n ≤ s → n ∈ R.
Proof.
  revert R. induction l as [|b l IH]; intros R Hl Hn Hs; [done|].
  apply Forall_cons in Hl as [Hb Hl]. apply (IH _ Hl) in Hn; [|done].
  case_bool_decide; [|done]. apply elem_of_union in Hn as [->%elem_of_singleton|]; [lia|done].
Qed.

Lemma reach_fold_path gp l n :
  Forall (arc_fine gp) l → spans_sorted l → n ∈ reach_fold {[0]} l ↔ graph_path l n.
Proof.
  intros Hf Hs. split.
  { apply reach_fold_sound; [done|]. intros m ->%elem_of_singleton. constructor. }
  induction 1 as [|a Ha _ IH]; [apply (reach_fold_mono {[0]} l); set_solver|].
  apply list_elem_of_split in Ha as (l1 & l2 & ->). unfold reach_fold in *.
  rewrite foldl_app in *. cbn [foldl] in *. set (R := foldl _ {[0]} l1) in *.
  assert (ph_start a ∈ R) as Hin.
  { apply Forall_app in Hf as [_ [Hfa Hf]%Forall_cons]. apply spans_sorted_starts in Hs.
    apply StronglySorted_app_1_r in Hs. apply StronglySorted_inv in Hs as [_ Hs].
    eapply (reach_fold_late R (a :: l2) (ph_start a)); [|exact IH|lia].
    constructor; [split; [lia|apply Hfa]|]. rewrite Forall_forall in *. intros b Hb.
    split; [by apply Hs|apply (Hf b Hb)]. }
  rewrite bool_decide_eq_true_2 by done. apply reach_fold_mono. set_solver.
Qed.

(** The single pass decides canonical form and the complete analyzer path. *)
Lemma graph_ok_fold g :
  graph_ok g ↔ positions g ≠ 0 ∧ arcs g ≠ [] ∧
    ∃ st, fold_opt (arc_step (positions g)) (None, {[0]}) (arcs g) = Some st ∧ positions g ∈ st.2.
Proof.
  split.
  - intros [[Hp Ha Hs Hf] Hpath]. split_and!; [done..|].
    destruct (arc_fold_total (positions g) (None, {[0]}) (arcs g)) as [st Hst];
      [done..|by apply Forall_true|]. exists st. split; [done|].
    apply arc_fold_spec in Hst as (_ & _ & _ & ->). by eapply reach_fold_path.
  - intros (Hp & Ha & st & (Hf & Hs & _ & Hr)%arc_fold_spec & Hin). split; [by split|].
    rewrite Hr in Hin. by eapply reach_fold_path.
Qed.

#[export] Instance graph_ok_dec g : Decision (graph_ok g).
Proof.
  destruct (decide (positions g ≠ 0 ∧ arcs g ≠ [])) as [[Hp Ha]|Hn];
    [|right; intros (? & ? & _)%graph_ok_fold; naive_solver].
  destruct (fold_opt (arc_step (positions g)) (None, {[0]}) (arcs g)) as [st|] eqn:E.
  - destruct (decide (positions g ∈ st.2)) as [Hin|Hin]; [left|right]; rewrite graph_ok_fold; naive_solver.
  - right. rewrite graph_ok_fold. naive_solver.
Defined.

Section validate_accepts.
Context (words : list N).
Hypothesis Hwords : nlen words ≤ umax 64.

Lemma reads_phrase :
  reads words (validate_phrase words) (λ l _, ∃ g, l = enc_graph g ∧ graph_ok g).
Proof using Hwords.
  eapply reads_iff; [|apply reads_word_then; intros p; apply reads_word_then; intros n;
    apply reads_guard_then; eapply reads_counted; [intros st; by apply reads_arc|intros st; apply reads_return_when]].
  intros l []. setoid_rewrite graph_ok_fold. split.
  - intros (p & l1 & -> & n & l2 & -> & Hz & xs & st & l3 & <- & -> & Hf & -> & Hr).
    apply orb_false_iff in Hz as [Hp%N.eqb_neq Hz]. rewrite nlen_zero in Hz.
    exists (mkPhraseGraph p xs). rewrite app_nil_r. cbn [positions arcs]. split_and!; [done..|].
    exists st. apply negb_false_iff, bool_decide_eq_true in Hr. done.
  - intros ([p xs] & -> & Hp & Ha & st & Hf & Hr). cbn [positions arcs] in *.
    eexists p, _. split; [done|]. eexists (nlen xs), _. split; [done|].
    rewrite orb_false_iff, N.eqb_neq, nlen_zero. split; [done|]. exists xs, st, [].
    rewrite app_nil_r, bool_decide_eq_true_2 by done. done.
Qed.

Lemma reads_phrase_step (u : unit) :
  reads words (validate_phrase words)
    (λ l s', ∃ g, l = enc_graph g ∧ check_step graph_ok (λ s _, s) u g = Some s').
Proof using Hwords.
  eapply reads_iff; [|apply reads_phrase]. intros l []. setoid_rewrite check_step_Some. destruct u. naive_solver.
Qed.

Lemma reads_phrases :
  reads words (validate_phrases words)
    (λ l n, ∃ gs, l = counted enc_graph gs ∧ Forall graph_ok gs ∧ n = nlen gs).
Proof using Hwords.
  eapply reads_iff; [|apply reads_word_then; intros n; eapply reads_counted;
    [apply reads_phrase_step|intros s'; apply reads_ret]].
  intros l a. setoid_rewrite fold_check. split.
  - intros (n & l1 & -> & gs & s' & l2 & <- & -> & [Hgs _] & -> & ->). exists gs. by rewrite app_nil_r.
  - intros (gs & -> & Hgs & ->). exists (nlen gs), (gs ≫= enc_graph). split; [done|].
    exists gs, tt, []. by rewrite app_nil_r, foldl_unit.
Qed.

Lemma reads_rank version :
  reads words
    (if has_rank_words version then
       let! groups_ := read_word words in let! terms := read_word words in cur_ret (Some (groups_, terms))
     else cur_ret None)
    (λ l r, l = enc_rank r ∧ bool_decide (is_Some r) = has_rank_words version).
Proof using Type.
  destruct (has_rank_words version).
  - eapply reads_iff; [|apply reads_word_then; intros g; apply reads_word_then; intros t; apply reads_ret].
    intros l r. split.
    + intros (g & l1 & -> & t & l2 & -> & -> & ->). done.
    + intros [-> Hr%bool_decide_eq_true]. destruct r as [[g t]|]; [|by destruct Hr].
      eexists g, _. split; [done|]. by eexists t, _.
  - eapply reads_iff; [|apply reads_ret]. intros l r. split; [by intros [-> ->]|].
    intros [-> Hr%bool_decide_eq_false]. destruct r; [|done]. by destruct Hr.
Qed.

Lemma reads_phrase_section version :
  reads words
    (if has_phrase_words version then
       let! required := validate_phrases words in
       let! forbidden := validate_phrases words in
       return_when ((required =? 0) && (forbidden =? 0)) "phrase predicate program has no quoted graphs"
     else cur_ret tt)
    (λ l _, ∃ ps, l = enc_phrases ps ∧ phrases_ok ps ∧ bool_decide (is_Some ps) = has_phrase_words version).
Proof using Hwords.
  destruct (has_phrase_words version).
  - eapply reads_iff; [|apply reads_bind; [apply reads_phrases|intros n; apply reads_bind;
      [apply reads_phrases|intros m; apply reads_return_when]]].
    intros l []. split.
    + intros (? & ? & ? & -> & (req & -> & Hreq & ->) & ? & ? & ? & -> & (forb & -> & Hforb & ->) & -> & Hz).
      exists (Some (req, forb)). simpl. rewrite app_nil_r. split_and!; [done| |done..].
      by destruct req, forb.
    + intros ([[req forb]|] & -> & Hok & Hs%bool_decide_eq_true); [|by destruct Hs].
      destruct Hok as (Hne & Hreq & Hforb).
      eexists _, _, _. split; [done|]. split; [by exists req|]. eexists _, [], _. rewrite app_nil_r.
      split; [done|]. split; [by exists forb|]. split; [done|]. by destruct req, forb.
  - eapply reads_iff; [|apply reads_ret]. intros l []. split; [intros [-> _]; by exists None|].
    intros (ps & -> & _ & Hs%bool_decide_eq_false). destruct ps; [|done]. by destruct Hs.
Qed.

Lemma program_version_iff version rank ps :
  existsb (N.eqb version) [FEATURE_PROGRAM_VERSION; PHRASE_PROGRAM_VERSION; RANK_FEATURE_PROGRAM_VERSION;
       RANK_PHRASE_PROGRAM_VERSION] = true ∧
  bool_decide (is_Some rank) = has_rank_words version ∧ bool_decide (is_Some ps) = has_phrase_words version ↔
  ∀ gs cs, program_version (mkProgram rank gs cs ps) = version.
Proof using Type.
  split.
  - intros (Hv & Hr & Hp) gs cs. apply existsb_elem in Hv as (v & Hv & <-%N.eqb_eq).
    rewrite !elem_of_cons in Hv. destruct Hv as [->|[->|[->|[->|Hv]]]];
      [by destruct rank, ps..|by apply not_elem_of_nil in Hv].
  - intros Hv. specialize (Hv [] []). subst version. by destruct rank, ps.
Qed.

(** The guards on the semantic any-of totals. *)
Lemma rank_guards rank (ps : list AnyOfPredicate) extra :
  extra = compound_extra ps →
  (is_some_and rank (λ p, p.1 <? nlen ps) = false ∧ is_some_and rank (λ p, p.2 <? p.1) = false ∧
   is_some_and rank (λ p, p.2 <? sat_add 32 p.1 extra) = false) ↔ rank_ok rank ps.
Proof using Type. clear Hwords. intros ->. destruct rank as [[g t]|]; simpl; [|done]. rewrite !N.ltb_ge. lia. Qed.

Lemma reads_sections :
  reads words (validate_sections words) (λ l _, ∃ p, program_ok p ∧ l = print_program p).
Proof using Hwords.
  eapply reads_iff; [|apply reads_word_then; intros version; apply reads_guard_then;
    apply reads_bind; [apply reads_rank|intros rank; apply reads_word_then; intros n; apply reads_guard_then,
    reads_guard_then; eapply reads_counted; [by apply reads_group|intros extra; apply reads_guard_then;
    apply reads_word_then; intros m; eapply reads_counted; [by apply reads_conjunction|intros u;
    apply reads_phrase_section]]]].
  intros l []. setoid_rewrite fold_check. split.
  - intros (version & l1 & -> & Hv & l2 & l3 & rank & -> & [-> Hr] & n & l4 & -> & Hg1 & Hg2 & gs & extra & l5 &
      <- & -> & [Hgs Hextra] & Hg3 & m & l6 & -> & cs & u & l7 & <- & -> & [Hcs _] & ps & -> & Hps & Hp).
    apply negb_false_iff in Hv. exists (mkProgram rank gs cs ps). split.
    + split; [done|done| |done]. by apply (rank_guards rank gs extra Hextra).
    + unfold print_program, enc_boolean, counted. simpl.
      rewrite (proj1 (program_version_iff version rank ps)) by done. done.
  - intros ([rank gs cs ps] & [Hgs Hcs Hr Hps] & ->). cbn [p_groups p_conjunctions p_rank p_phrases] in *.
    destruct (proj2 (program_version_iff (program_version (mkProgram rank gs cs ps)) rank ps)) as (Hv & Hrk & Hp); [done|].
    apply (rank_guards rank gs _ eq_refl) in Hr as (Hg1 & Hg2 & Hg3).
    unfold print_program, enc_boolean, counted. cbn [p_groups p_conjunctions p_rank p_phrases].
    eexists _, _. split; [done|]. rewrite Hv. split; [done|]. eexists _, _, rank. split; [done|]. split; [done|].
    eexists (nlen gs), _. split; [done|]. split; [done|]. split; [done|].
    eexists gs, _, _. split; [done|]. split; [done|]. split; [done|]. split; [done|].
    eexists (nlen cs), _. split; [done|]. eexists cs, tt, _. split; [done|]. split; [done|].
    rewrite foldl_unit. split; [done|]. by exists ps.
Qed.

End validate_accepts.

(** ** The validator never panics *)

Lemma safe_read_word words : safe words (read_word words).
Proof.
  intros at_ Hat. unfold read_word. destruct (words !! at_) eqn:E; [|done].
  by apply lookup_lt_Some in E.
Qed.

Lemma safe_take_words words n : safe words (take_words words n).
Proof.
  intros at_ Hat. unfold take_words. destruct (checked_add _ _ _) as [e|]; [|done].
  destruct (_ <? e) eqn:E; [done|]. apply N.ltb_ge in E. lia.
Qed.

Lemma safe_labels words n {A} (k : list N → Cursor Message A) :
  (∀ s, safe words (k s)) →
  safe words (let! start := get_at in let! _ := take_words words n in let! stop := get_at in
              let! s := or_panic (slice words start (stop - start)) in k s).
Proof.
  intros Hk at_ Hat. unfold cur_bind, get_at. pose proof (safe_take_words words n at_ Hat) as Ht.
  destruct (take_words words n at_) as [|[at1 []]] eqn:E; [done|]. unfold take_words in E.
  unfold checked_add in E. destruct (_ <=? _); [|done]. destruct (_ <? _); [done|]. injection E as <-.
  unfold slice. rewrite decide_True by lia. simpl. by apply Hk.
Qed.

#[export] Hint Resolve safe_read_word safe_take_words safe_labels : cursor.

Lemma safe_validate_arc words gp st : safe words (validate_arc words gp st).
Proof. destruct st. unfold validate_arc. auto 20 with cursor. Qed.

#[export] Hint Resolve safe_validate_arc : cursor.

Lemma safe_validate_phrases words : safe words (validate_phrases words).
Proof. unfold validate_phrases, validate_phrase. auto 20 with cursor. Qed.

Lemma safe_validate_sections words : safe words (validate_sections words).
Proof.
  pose proof (safe_validate_phrases words).
  unfold validate_sections, validate_group, validate_member, validate_requirement, validate_conjunction.
  apply safe_bind; [auto with cursor|]. intros version.
  destruct (has_rank_words version), (has_phrase_words version); auto 30 with cursor.
Qed.

Lemma validate_predicate_safe words : validate_predicate words ≠ inl None.
Proof.
  unfold validate_predicate. destruct (nonempty words); [|done].
  pose proof (safe_validate_sections words 0%nat ltac:(lia)) as Hs. unfold validate_predicate_body, cur_bind, get_at.
  destruct (validate_sections words 0%nat) as [[]|[at1 []]]; [done..|].
  by destruct (negb _).
Qed.

Lemma validate_predicate_accepts words :
  nlen words ≤ umax 64 →
  validate_predicate words = inr tt ↔ words = [] ∨ ∃ p, program_ok p ∧ words = print_program p.
Proof.
  intros Hw. unfold validate_predicate. destruct words as [|w0 words0] eqn:Ew; [by split; [left|]|].
  rewrite <-Ew in *. replace (nonempty words) with true by by subst. cbn iota.
  assert (∀ o, validate_predicate_body words 0%nat = o →
    (match o with inl e => inl e | inr _ => inr tt end = @inr (option Message) _ tt ↔
     ∃ p, program_ok p ∧ words = print_program p)) as H.
  { intros o <-. unfold validate_predicate_body, cur_bind, get_at.
    pose proof (reads_sections words Hw 0%nat ltac:(lia)) as Hs. split.
    - destruct (validate_sections words 0%nat) as [|[at1 []]]; [done|].
      destruct (proj1 (Hs at1 ()) eq_refl) as (l & Ho & -> & p & Hp & ->).
      destruct (_ =? length words)%nat eqn:El; [|done]. intros _. exists p. split; [done|].
      apply Nat.eqb_eq in El. unfold occurs, slice in Ho. rewrite Nat.add_0_l in El. rewrite El in Ho.
      rewrite decide_True, drop_0, firstn_all in Ho by lia. congruence.
    - intros (p & Hp & Hwp). assert (validate_sections words 0%nat = inr (length words, tt)) as ->; [|by rewrite Nat.eqb_refl].
      apply Hs. exists words. split_and!; [apply occurs_whole|done|by exists p]. }
  rewrite (H _ eq_refl). split; [by right|]. intros [?|?]; [by subst|done].
Qed.

(** ** The encoder prints the program of a query *)

Definition program_of (ex : Extracted) : Program :=
  mkProgram (Some (encode_anyof_groups ex, encode_anyof_terms ex)) (anyof_predicates ex) (forbidden_conjunctions ex)
    (if nonempty (required_phrases ex) || nonempty (forbidden_phrases ex)
     then Some (required_phrases ex, forbidden_phrases ex) else None).

(** No program is stored: there is nothing compound, and the ranking totals are
    those of the flat groups. *)
Definition predicate_trivial (ex : Extracted) : bool :=
  negb (nonempty (anyof_predicates ex)) && negb (nonempty (forbidden_conjunctions ex)) &&
  negb (nonempty (required_phrases ex)) && negb (nonempty (forbidden_phrases ex)) &&
  (encode_anyof_groups ex =? try_u32 (length (anyof ex))) &&
  (encode_anyof_terms ex =? try_u32 (length (anyof ex))).

Lemma foldl_extend {A} (f : list N → A → list N) (enc : A → list N) (l : list A) blob :
  (∀ x blob, x ∈ l → f blob x = blob ++ enc x) → foldl f blob l = blob ++ (l ≫= enc).
Proof.
  revert blob. induction l as [|x l IH]; intros blob Hf; simpl; [by rewrite app_nil_r|].
  rewrite Hf by by left. rewrite IH by (intros; apply Hf; by right). by rewrite <-app_assoc.
Qed.

Lemma nlen_bind {A} (enc : A → list N) (k : A → N) (l : list A) :
  (∀ x, nlen (enc x) = k x) → nlen (l ≫= enc) = sum_N k l.
Proof.
  intros Hk. unfold nlen in *. induction l as [|x l IH]; [done|]. rewrite bind_cons, length_app. simpl. rewrite <-Hk. lia.
Qed.

Lemma elem_le_sum {A} (k : A → N) (l : list A) x : x ∈ l → k x ≤ sum_N k l.
Proof. induction 1; simpl; lia. Qed.

Lemma nlen_enc_member m : nlen (enc_member m) = member_words m.
Proof.
  unfold member_words. rewrite <-(nlen_bind enc_run) by (intros x; unfold nlen, enc_run; simpl; lia).
  unfold enc_member, counted, nlen. simpl. lia.
Qed.

Lemma nlen_enc_group p : nlen (enc_group p) = predicate_words p.
Proof.
  unfold predicate_words. rewrite <-(nlen_bind enc_member) by apply nlen_enc_member.
  unfold enc_group, counted, nlen. simpl. lia.
Qed.

Lemma nlen_enc_graph g : nlen (enc_graph g) = phrase_words g.
Proof.
  unfold phrase_words. rewrite <-(nlen_bind enc_arc) by (intros x; unfold nlen, enc_arc, enc_run; simpl; lia).
  unfold enc_graph, counted, nlen. simpl. lia.
Qed.

(** The encoder writes two words more than the overflow guard counts: the
    ranking totals of the program header. *)
Lemma print_program_words ex : nlen (print_program (program_of ex)) = program_words ex + 2.
Proof.
  unfold program_words. rewrite <-(nlen_bind enc_group) by apply nlen_enc_group.
  rewrite <-(nlen_bind enc_run) by (intros x; unfold nlen, enc_run; simpl; lia).
  rewrite <-!(nlen_bind enc_graph) by apply nlen_enc_graph.
  unfold print_program, enc_boolean, program_of, counted. cbn [p_rank p_groups p_conjunctions p_phrases enc_rank].
  destruct (_ || _); unfold enc_phrases, counted, nlen; cbn [length app]; repeat (rewrite length_app || cbn [length]); lia.
Qed.

(** A length that fits is stored as it is. *)
Lemma as_u32_len {A} (l : list A) : nlen l ≤ U32_MAX → as_u32 (length l) = nlen l.
Proof. unfold nlen, U32_MAX. intros. apply as_u32_small. change (2 ^ 32) with 4294967296. lia. Qed.

(** A count and items, each of positive size, within the ceiling. *)
Lemma encode_counted {A} (f : list N → A → list N) (enc : A → list N) (k : A → N) (l : list A) blob :
  (∀ x, 1 ≤ k x) → (∀ x blob, k x ≤ U32_MAX → f blob x = blob ++ enc x) → sum_N k l ≤ U32_MAX →
  foldl f (blob ++ [as_u32 (length l)]) l = blob ++ counted enc l.
Proof.
  intros Hk Hf Hs. rewrite (foldl_extend f enc), as_u32_len.
  - unfold counted. by rewrite <-app_assoc.
  - etrans; [by apply (nlen_le_sum k)|done].
  - intros x b Hx. apply Hf. etrans; [by apply elem_le_sum|done].
Qed.

Lemma encode_run blob (l : list N) : 1 + nlen l ≤ U32_MAX → (blob ++ [as_u32 (length l)]) ++ l = blob ++ enc_run l.
Proof. intros Hl. rewrite as_u32_len by lia. by rewrite <-app_assoc. Qed.

Lemma encode_groups (ps : list AnyOfPredicate) blob :
  sum_N predicate_words ps ≤ U32_MAX →
  foldl (λ blob predicate,
    foldl (λ blob member,
      foldl (λ blob alts, (blob ++ [as_u32 (length alts)]) ++ alts)
        (blob ++ [as_u32 (length (requirements member))]) (requirements member))
      (blob ++ [as_u32 (length (members predicate))]) (members predicate)) (blob ++ [as_u32 (length ps)]) ps
  = blob ++ counted enc_group ps.
Proof.
  apply encode_counted; [intros p; unfold predicate_words; lia|]. intros p b Hp. unfold predicate_words in Hp.
  apply (encode_counted _ _ member_words); [intros m; unfold member_words; lia| |lia]. intros m b' Hm.
  unfold member_words in Hm. apply (encode_counted _ _ (λ r, 1 + nlen r)); [intros r; lia| |lia].
  intros r b'' Hr. by apply encode_run.
Qed.

Lemma encode_phrases_spec gs blob :
  sum_N phrase_words gs ≤ U32_MAX → encode_phrases gs blob = blob ++ counted enc_graph gs.
Proof.
  apply encode_counted; [intros g; unfold phrase_words; lia|]. intros g b Hg. unfold phrase_words in Hg.
  replace (b ++ [positions g; as_u32 (length (arcs g))]) with ((b ++ [positions g]) ++ [as_u32 (length (arcs g))])
    by by rewrite <-app_assoc.
  rewrite (encode_counted _ enc_arc (λ a, 3 + nlen (alternatives a))); [by rewrite <-app_assoc|intros; lia| |lia].
  intros a b' Ha. unfold enc_arc. rewrite as_u32_len by lia. unfold enc_run. by rewrite <-app_assoc.
Qed.

(** [blob.len() as u32 - offset] is the appended length modulo [2^32]. *)
Lemma wrap_len_diff (n m : nat) : wrap32 (as_u32 (n + m) + 2 ^ 32 - as_u32 n) = as_u32 m.
Proof.
  unfold as_u32, wrap. rewrite Nat2N.inj_add. set (x := N.of_nat n). set (y := N.of_nat m). change (2 ^ 32) with 4294967296.
  pose (M := 4294967296). fold M. pose proof (N.Div0.div_mod x M). pose proof (N.mod_lt x M ltac:(done)).
  pose proof (N.Div0.div_mod (x + y) M). pose proof (N.mod_lt (x + y) M ltac:(done)).
  symmetry. rewrite <-(N.Div0.mod_add y (x / M + 1) M), <-(N.Div0.mod_add ((x + y) mod M + M - x mod M) ((x + y) / M) M).
  f_equal. unfold M in *. clear M. clearbody x y. revert H H0 H1 H2.
  generalize (x / 4294967296) (x mod 4294967296) ((x + y) / 4294967296) ((x + y) mod 4294967296). intros. lia.
Qed.

(** The words appended, and the row's offset and length columns. *)
Lemma encode_predicate_spec ex blob :
  program_words ex ≤ U32_MAX →
  encode_predicate ex blob =
    if predicate_trivial ex then ((as_u32 (length blob), 0), blob)
    else ((as_u32 (length blob), as_u32 (length (print_program (program_of ex)))), blob ++ print_program (program_of ex)).
Proof.
  intros Hw. unfold encode_predicate. fold (predicate_trivial ex). destruct (predicate_trivial ex); [done|].
  unfold program_words in Hw. cbv zeta. rewrite <-negb_orb.
  set (version := if negb _ then _ else _).
  set (hdr := [version; encode_anyof_groups ex; encode_anyof_terms ex; _]).
  replace (blob ++ hdr) with ((blob ++ [version; encode_anyof_groups ex; encode_anyof_terms ex]) ++
    [as_u32 (length (anyof_predicates ex))]) by (unfold hdr; by rewrite <-app_assoc).
  rewrite encode_groups by lia.
  rewrite (encode_counted _ enc_run (λ c, 1 + nlen c)); [|intros; lia|intros; by apply encode_run|lia].
  set (b := if version =? _ then _ else _).
  assert (b = blob ++ print_program (program_of ex)) as ->.
  { unfold b, version, print_program, program_of, program_version, enc_boolean. clear b hdr version.
    destruct (_ || _); cbn [negb p_rank p_phrases p_groups p_conjunctions enc_rank enc_phrases].
    - rewrite (N.eqb_refl RANK_PHRASE_PROGRAM_VERSION), !encode_phrases_spec by lia. by rewrite <-!app_assoc.
    - change (RANK_FEATURE_PROGRAM_VERSION =? RANK_PHRASE_PROGRAM_VERSION) with false. cbn iota.
      by rewrite app_nil_r, <-!app_assoc. }
  f_equal. f_equal. rewrite length_app. apply wrap_len_diff.
Qed.

(** ** Programs are uniquely decodable *)

Definition prefix_free {A} (enc : A → list N) : Prop :=
  ∀ x y r s, enc x ++ r = enc y ++ s → x = y ∧ r = s.

Lemma enc_run_free : prefix_free enc_run.
Proof.
  intros x y r s [= Hl%Nat2N.inj H]. by apply app_inj_1 in H.
Qed.

Lemma counted_free {A} (enc : A → list N) : prefix_free enc → prefix_free (counted enc).
Proof.
  intros Hf x y r s [= Hl%Nat2N.inj H]. revert y Hl H.
  induction x as [|a x IH]; intros [|b y] Hl H; simpl in Hl; try lia; [done|].
  rewrite !bind_cons, <-!app_assoc in H. apply Hf in H as [-> H]. apply IH in H as [-> ->]; [done|lia].
Qed.

Lemma enc_member_free : prefix_free enc_member.
Proof. intros [x] [y] r s H. apply (counted_free _ enc_run_free) in H as [H ->]. simpl in H. by subst. Qed.

Lemma enc_group_free : prefix_free enc_group.
Proof. intros [x] [y] r s H. apply (counted_free _ enc_member_free) in H as [H ->]. simpl in H. by subst. Qed.

Lemma enc_arc_free : prefix_free enc_arc.
Proof.
  intros [x1 x2 x3] [y1 y2 y3] r s H. pose proof (f_equal (drop 2) H) as Hd.
  apply (enc_run_free x3 y3 r s) in Hd as [-> ->]. by injection H as -> ->.
Qed.

Lemma enc_graph_free : prefix_free enc_graph.
Proof.
  intros [x1 x2] [y1 y2] r s H. pose proof (f_equal (drop 1) H) as Hd.
  apply (counted_free _ enc_arc_free x2 y2 r s) in Hd as [-> ->]. by injection H as ->.
Qed.

(** The Boolean body determines the program up to its ranking words, given
    whether phrases are present. *)
Lemma enc_boolean_inj p q :
  is_Some (p_phrases p) ↔ is_Some (p_phrases q) → enc_boolean p = enc_boolean q →
  p_groups p = p_groups q ∧ p_conjunctions p = p_conjunctions q ∧ p_phrases p = p_phrases q.
Proof.
  intros Hs H. unfold enc_boolean in H. apply (counted_free _ enc_group_free) in H as [-> H].
  apply (counted_free _ enc_run_free) in H as [-> H]. split_and!; [done..|].
  destruct (p_phrases p) as [[r1 f1]|], (p_phrases q) as [[r2 f2]|]; simpl in H.
  - apply (counted_free _ enc_graph_free) in H as [-> H].
    rewrite <-(app_nil_r (counted enc_graph f1)), <-(app_nil_r (counted enc_graph f2)) in H.
    by apply (counted_free _ enc_graph_free) in H as [-> _].
  - destruct (proj1 Hs) as [? [=]]; eauto.
  - destruct (proj2 Hs) as [? [=]]; eauto.
  - done.
Qed.

(** Nothing to test: no group, no conjunction, no phrase. *)
Definition program_vacuous (p : Program) : Prop :=
  p_groups p = [] ∧ p_conjunctions p = [] ∧ phrases_of p = [].

Lemma enc_boolean_vacuous p :
  program_vacuous p ↔
  enc_boolean p = match p_phrases p with None => [0; 0] | Some _ => [0; 0; 0; 0] end.
Proof.
  pose (q := mkProgram None [] [] (match p_phrases p with None => None | Some _ => Some ([], []) end)).
  assert (enc_boolean q = match p_phrases p with None => [0; 0] | Some _ => [0; 0; 0; 0] end) as <-
    by (unfold q; by destruct (p_phrases p)).
  unfold program_vacuous, phrases_of. split.
  - intros (Hg & Hc & Hp). unfold enc_boolean, q. rewrite Hg, Hc. simpl.
    destruct (p_phrases p) as [[r f]|]; [|done]. by apply app_nil in Hp as [-> ->].
  - intros (-> & -> & Hp)%enc_boolean_inj; [|unfold q; simpl; destruct (p_phrases p); simpl; naive_solver].
    split_and!; [done..|]. unfold q in Hp. simpl in Hp. destruct (p_phrases p) as [[r f]|]; [|done]. by simplify_eq.
Qed.

(** The Boolean part a printed program is stored under. *)
Lemma boolean_program_print p :
  predicate_boolean_program (print_program p) =
    Some (if decide (enc_boolean p = match p_phrases p with None => [0; 0] | Some _ => [0; 0; 0; 0] end)
          then (0, [])
          else (match p_phrases p with None => FEATURE_PROGRAM_VERSION | Some _ => PHRASE_PROGRAM_VERSION end,
                enc_boolean p)).
Proof.
  unfold predicate_boolean_program, print_program. rewrite has_rank_words_version.
  unfold program_version. destruct (p_rank p) as [[g t]|], (p_phrases p) as [ps|];
    cbn [enc_rank app length]; try (rewrite decide_True by lia); simpl; rewrite ?drop_0;
    destruct (decide (enc_boolean p = _)) as [E|E]; rewrite ?(bool_decide_eq_true_2 _ E), ?(bool_decide_eq_false_2 _ E); done.
Qed.

Lemma program_vacuous_holds p view : program_vacuous p → program_holds p view = true.
Proof.
  unfold program_vacuous, phrases_of, program_holds, flat_holds. intros (-> & -> & Hp). simpl.
  destruct (p_phrases p) as [[r f]|]; [|done]. apply app_nil in Hp as [-> ->].
  unfold phrases_hold. by destruct (view_graphs view) as [[]|].
Qed.

(** The Boolean part determines the groups, the conjunctions and the phrases. *)
Definition phrase_lists (p : Program) : list PhraseGraph * list PhraseGraph := default ([], []) (p_phrases p).

Lemma program_vacuous_parts p :
  program_vacuous p → p_groups p = [] ∧ p_conjunctions p = [] ∧ phrase_lists p = ([], []).
Proof.
  unfold program_vacuous, phrases_of, phrase_lists. intros (-> & -> & Hp). split_and!; [done..|].
  destruct (p_phrases p) as [[r f]|]; [|done]. by apply app_nil in Hp as [-> ->].
Qed.

Lemma boolean_program_parts p q :
  predicate_boolean_program (print_program p) = predicate_boolean_program (print_program q) →
  p_groups p = p_groups q ∧ p_conjunctions p = p_conjunctions q ∧ phrase_lists p = phrase_lists q.
Proof.
  rewrite !boolean_program_print. intros [= H].
  destruct (decide (enc_boolean p = _)) as [Ep|Ep], (decide (enc_boolean q = _)) as [Eq|Eq].
  - apply enc_boolean_vacuous, program_vacuous_parts in Ep as (-> & -> & ->), Eq as (-> & -> & ->). done.
  - by destruct (p_phrases q).
  - by destruct (p_phrases p).
  - assert (p_phrases p = None ↔ p_phrases q = None) as Hs by (destruct (p_phrases p), (p_phrases q); naive_solver).
    apply (f_equal snd) in H. simpl in H. apply enc_boolean_inj in H as (Hg & Hc & Hp);
      [|rewrite <-!not_eq_None_Some; tauto].
    unfold phrase_lists. by rewrite Hp.
Qed.

Lemma program_holds_parts p view :
  program_holds p view =
  flat_holds (λ f, bsearch_mem f (pos view)) (λ f, bsearch_mem f (neg view)) p &&
  phrases_hold (phrase_lists p).1 (phrase_lists p).2 view.
Proof.
  unfold program_holds, phrase_lists. destruct (p_phrases p) as [[r f]|]; [done|]. simpl. f_equal.
  unfold phrases_hold. by destruct (view_graphs view) as [[]|].
Qed.

Lemma boolean_program_holds p q view :
  predicate_boolean_program (print_program p) = predicate_boolean_program (print_program q) →
  program_holds p view = program_holds q view.
Proof.
  intros (Hg & Hc & Hp)%boolean_program_parts. rewrite !program_holds_parts. unfold flat_holds. by rewrite Hg, Hc, Hp.
Qed.

(** ** Ranking counts of a program *)

Definition total_positions (gs : list PhraseGraph) (total : N) : N :=
  foldl (λ total g, sat_add 32 total (positions g)) total gs.

Definition rank_counts (p : Program) (proxy_anyof_groups : N) : N * N * N :=
  let negative := foldl (λ n c, sat_add 32 n (nlen c)) 0 (p_conjunctions p) in
  let '(phrase_positive, negative) :=
    match p_phrases p with
    | Some (req, forb) => (total_positions req 0, total_positions forb negative)
    | None => (0, negative)
    end in
  let '(groups_, terms) :=
    match p_rank p with
    | Some r => r
    | None =>
        let groups_ := N.max proxy_anyof_groups (N.min (nlen (p_groups p)) (umax 32)) in
        (groups_, sat_add 32 groups_ (compound_extra (p_groups p)))
    end in
  (sat_add 32 terms phrase_positive, negative, groups_).

Section count_eval.
Context (words : list N).

Lemma skip_run_eval {R A} (l : list N) (k : N → unit → Cursor R A) at_ :
  occurs words at_ (enc_run l) →
  (let! n := next_word words in let! x := advance (usize n) in k n x) at_ =
    k (nlen l) tt (at_ + length (enc_run l))%nat.
Proof.
  intros [Hn _]%occurs_cons. unfold cur_bind. rewrite (next_word_occurs _ _ _ Hn). unfold advance.
  f_equal. unfold nlen. rewrite Nat2N.id. simpl. lia.
Qed.

Lemma count_group_eval p extra at_ :
  occurs words at_ (enc_group p) →
  count_group words extra at_ =
    inr ((at_ + length (enc_group p))%nat, sat_add 32 extra (sat_sub (shortest_member p) 1)).
Proof.
  intros Ho. unfold count_group.
  rewrite (counted_pure words enc_member _ (λ s m, N.min s (nlen (requirements m))) (members p)); [done| |done].
  intros m s a _ Hm.
  rewrite (counted_pure words enc_run _ (λ s _, s) (requirements m)); [done| |done].
  intros r [] b _ Hr. pose proof (skip_run_eval r (λ _, cur_ret (R:=N * N * N)) b Hr) as H.
  unfold cur_bind in *. by destruct (next_word words b) as [|[]].
Qed.

Lemma count_graphs_eval gs total at_ :
  occurs words at_ (counted enc_graph gs) →
  count_graphs words total at_ = inr ((at_ + length (counted enc_graph gs))%nat, total_positions gs total).
Proof.
  intros Ho. unfold count_graphs.
  pose proof (counted_pure words enc_graph (λ total,
    let! at_ := get_at in let! positions := or_panic (words !! at_) in
    let! _ := skip_graph words in cur_ret (sat_add 32 total positions))
    (λ total g, sat_add 32 total (positions g)) gs total (λ _, cur_ret (R:=N * N * N)) at_) as H.
  etrans; [|apply H; [intros g t a _ Hg|done]].
  - unfold cur_bind. destruct (next_word words at_) as [|[a n]]; [done|]. by destruct (repeat_n _ _ _ _) as [|[]].
  - pose proof Hg as [Hp _]%occurs_cons. unfold cur_bind, get_at. rewrite Hp. simpl.
    by rewrite (skip_graph_eval words g).
Qed.

Lemma count_conjunction_eval c n at_ :
  occurs words at_ (enc_run c) →
  (let! feature_count := next_word words in
   let! _ := advance (R:=N * N * N) (usize feature_count) in cur_ret (sat_add 32 n feature_count)) at_ =
  inr ((at_ + length (enc_run c))%nat, sat_add 32 n (nlen c)).
Proof. intros Ho. by rewrite (skip_run_eval c (λ feature_count _, cur_ret (sat_add 32 n feature_count))). Qed.

End count_eval.

Lemma read_rank_eval {R} p :
  (if has_rank_words (program_version p) then
     let! groups_ := next_word (R:=R) (print_program p) in
     let! terms := next_word (print_program p) in cur_ret (Some (groups_, terms))
   else cur_ret None) 1%nat = inr (S (length (enc_rank (p_rank p))), p_rank p).
Proof.
  destruct (print_program_parts p) as (_ & Hr & _). rewrite has_rank_words_version.
  destruct (p_rank p) as [[g t]|]; [|done]. rewrite bool_decide_eq_true_2 by by eexists.
  apply occurs_cons in Hr as [Hg [Ht _]%occurs_cons]. unfold cur_bind.
  rewrite (next_word_occurs _ _ _ Hg). by rewrite (next_word_occurs _ _ _ Ht).
Qed.

(** The ranking walk computes the counts of the program it is given. *)
Lemma rank_term_counts_eval p proxy :
  predicate_rank_term_counts (print_program p) proxy = Some (rank_counts p proxy).
Proof.
  destruct (print_program_parts p) as (Hv & Hr & H1 & H2 & H3 & _).
  unfold predicate_rank_term_counts. change (nonempty (print_program p)) with true. cbn iota.
  set (words := print_program p) in *. unfold run_cursor, predicate_rank_term_counts_body.
  unfold cur_bind at 1. rewrite (next_word_occurs _ _ _ Hv), has_phrase_words_version.
  unfold cur_bind at 1. rewrite read_rank_eval.
  rewrite (counted_pure words enc_group _ (λ e q, sat_add 32 e (sat_sub (shortest_member q) 1)) (p_groups p));
    [|intros; by apply count_group_eval|done].
  rewrite (counted_pure words enc_run _ (λ n c, sat_add 32 n (nlen c)) (p_conjunctions p));
    [|intros; by apply count_conjunction_eval|done].
  unfold rank_counts. fold (compound_extra (p_groups p)). unfold cur_bind at 1.
  destruct (p_phrases p) as [[req forb]|]; [|by destruct (p_rank p) as [[]|]].
  rewrite bool_decide_eq_true_2 by by eexists. apply occurs_app in H3 as [H3 H4].
  unfold cur_bind. rewrite (count_graphs_eval words req) by done. rewrite (count_graphs_eval words forb) by done.
  by destruct (p_rank p) as [[]|].
Qed.

(** ** The programs a query is stored as *)

(** What the compound program of a query tests, over the query itself. *)
Definition compound_holds (ex : Extracted) (view : TitleView) : bool :=
  forallb (predicate_matches (λ f, bsearch_mem f (pos view))) (anyof_predicates ex) &&
  forallb (λ c, negb (forallb (λ f, bsearch_mem f (neg view)) c)) (forbidden_conjunctions ex) &&
  phrases_hold (required_phrases ex) (forbidden_phrases ex) view.

Lemma phrases_hold_nil view : phrases_hold [] [] view = true.
Proof. unfold phrases_hold. by destruct (view_graphs view) as [[]|]. Qed.

Lemma program_of_holds ex view : program_holds (program_of ex) view = compound_holds ex view.
Proof.
  unfold program_holds, compound_holds, program_of, flat_holds. cbn [p_groups p_conjunctions p_phrases].
  destruct (_ || _) eqn:E; [done|]. apply orb_false_iff in E as [->%nonempty_false ->%nonempty_false].
  by rewrite phrases_hold_nil.
Qed.

Lemma predicate_trivial_holds ex view : predicate_trivial ex = true → compound_holds ex view = true.
Proof.
  unfold predicate_trivial, compound_holds. rewrite !andb_true_iff, !negb_true_iff, !nonempty_false.
  intros (((((-> & ->) & ->) & ->) & _) & _). rewrite phrases_hold_nil. done.
Qed.

Definition query_graphs (ex : Extracted) : list PhraseGraph := required_phrases ex ++ forbidden_phrases ex.

Lemma program_of_phrases ex : Forall graph_nonempty (query_graphs ex) → Forall graph_nonempty (phrases_of (program_of ex)).
Proof. unfold phrases_of, program_of. simpl. by destruct (_ || _). Qed.

Lemma sat_add_assoc (a b c : N) : sat_add 32 (sat_add 32 a b) c = sat_add 32 a (sat_add 32 b c).
Proof. unfold sat_add. change (umax 32) with 4294967295. lia. Qed.

Lemma foldl_sat {A} (f : A → N) (l : list A) a b :
  foldl (λ n x, sat_add 32 n (f x)) (sat_add 32 a b) l = sat_add 32 a (foldl (λ n x, sat_add 32 n (f x)) b l).
Proof. revert b. induction l as [|x l IH]; intros b; simpl; [done|]. by rewrite sat_add_assoc, IH. Qed.

Lemma foldr_min_le (M : N) l : foldr N.min M l ≤ M.
Proof. induction l as [|x l IH]; simpl; lia. Qed.

Lemma foldr_min_capped {A} (f : A → N) (M x : N) (l : list A) :
  foldr N.min (N.min x M) ((λ y, N.min (f y) M) <$> l) = N.min x (foldr N.min M (f <$> l)).
Proof.
  induction l as [|y l IH]; [done|]. rewrite !fmap_cons. cbn [foldr]. rewrite IH.
  pose proof (foldr_min_le M (f <$> l)). lia.
Qed.

Lemma foldr_min_acc (M a : N) l : foldr N.min (N.min M a) l = N.min a (foldr N.min M l).
Proof. induction l as [|x l IH]; cbn [foldr]; lia. Qed.

Lemma shortest_member_foldr p : shortest_member p = foldr N.min (umax 32) ((λ m, nlen (requirements m)) <$> members p).
Proof.
  unfold shortest_member. generalize (umax 32). induction (members p) as [|m ms IH]; intros M; [done|].
  rewrite fmap_cons. cbn [foldl foldr]. rewrite IH. apply foldr_min_acc.
Qed.

Lemma compound_extra_terms_spec p : predicate_ok p → compound_extra_terms p = sat_sub (shortest_member p) 1.
Proof.
  intros [Hne _]. rewrite shortest_member_foldr. unfold compound_extra_terms, try_u32.
  destruct (members p) as [|m ms]; [done|]. f_equal. simpl. unfold nlen.
  by rewrite (foldr_min_capped (λ m, N.of_nat (length (requirements m)))).
Qed.

Lemma encode_rank_ok ex :
  Forall predicate_ok (anyof_predicates ex) → nlen (anyof_predicates ex) ≤ U32_MAX →
  rank_ok (Some (encode_anyof_groups ex, encode_anyof_terms ex)) (anyof_predicates ex).
Proof.
  intros Hok Hl. simpl. set (g := encode_anyof_groups ex).
  assert (nlen (anyof_predicates ex) ≤ g) as Hg.
  { unfold g, encode_anyof_groups, try_u32, nlen in *. unfold U32_MAX in Hl. change (umax 32) with 4294967295. lia. }
  unfold encode_anyof_terms. fold g. split_and!; [done|lia|].
  assert (foldl (λ terms q, sat_add 32 terms (compound_extra_terms q)) g (anyof_predicates ex) =
          foldl (λ terms q, sat_add 32 terms (sat_sub (shortest_member q) 1)) g (anyof_predicates ex)) as ->.
  { revert Hok. clearbody g. clear. revert g. induction (anyof_predicates ex) as [|q l IH]; intros g Hok; [done|].
    apply Forall_cons in Hok as [Hq Hok]. simpl. by rewrite compound_extra_terms_spec, IH. }
  unfold compound_extra. rewrite <-foldl_sat. destruct (anyof_predicates ex) as [|q l]; simpl.
  - unfold sat_add. lia.
  - rewrite sat_add_assoc. replace (sat_add 32 0 (sat_sub (shortest_member q) 1)) with (sat_sub (shortest_member q) 1); [lia|].
    unfold sat_add, sat_sub. rewrite shortest_member_foldr.
    pose proof (foldr_min_le (umax 32) ((λ m, nlen (requirements m)) <$> members q)). lia.
Qed.

Lemma program_of_ok ex : storable ex → nlen (anyof_predicates ex) ≤ U32_MAX → program_ok (program_of ex).
Proof.
  intros [Hg Hc Hp] Hl. unfold program_of. split; cbn [p_groups p_conjunctions p_rank p_phrases]; [done|done| |].
  - by apply encode_rank_ok.
  - destruct (nonempty (required_phrases ex)) eqn:E1, (nonempty (forbidden_phrases ex)) eqn:E2; simpl; try done;
      (split; [|by apply Forall_app]); intros [H1 H2]%app_nil; by rewrite H1, H2 in *.
Qed.

Lemma graph_ok_nonempty g : graph_ok g → graph_nonempty g.
Proof. by intros [[] _]. Qed.

Lemma program_ok_nonempty p : program_ok p → Forall graph_nonempty (phrases_of p).
Proof.
  intros [_ _ _ Hp]. unfold phrases_of. destruct (p_phrases p) as [[req forb]|]; [|done].
  destruct Hp as (_ & Hr & Hf). apply Forall_app. split; (eapply Forall_impl; [eassumption|apply graph_ok_nonempty]).
Qed.

(** The stored row: where the encoder put the program, and that the blob only
    grew. *)
Lemma encode_predicate_stored ex blob :
  nlen blob + program_words ex + 2 ≤ U32_MAX →
  let r := encode_predicate ex blob in
  let words := if predicate_trivial ex then [] else print_program (program_of ex) in
  slice r.2 (usize r.1.1) (usize r.1.2) = Some words ∧ r.2 = blob ++ words ∧
  (r.1.2 = 0 ↔ predicate_trivial ex = true) ∧ r.1.1 ≤ U32_MAX ∧ r.1.2 ≤ U32_MAX.
Proof.
  intros Hb. cbv zeta. rewrite encode_predicate_spec by lia. rewrite as_u32_len by lia.
  destruct (predicate_trivial ex); cbn [fst snd].
  - rewrite app_nil_r. unfold slice, nlen. rewrite Nat2N.id, decide_True, take_0 by (simpl; lia).
    split_and!; [done..|unfold nlen in *; lia|done].
  - pose proof (print_program_words ex) as Hw. rewrite as_u32_len by lia.
    unfold nlen in *. rewrite !Nat2N.id, slice_suffix.
    split_and!; [done..|split; [|done]|lia|lia]. intros Hz. lia.
Qed.

(** C14. A predicate program on disk is validated before anything reads it.  The
    validator never panics; it accepts exactly the empty program and the
    printed form of a well-formed program: every count matches its items, no
    group, member, requirement or graph is empty, negated conjunctions have at
    least two features, the ranking totals cover the groups, quoted graphs are
    canonical with a complete analyzer path, and nothing trails. *)
Theorem validate_predicate_exact words :
  nlen words ≤ umax 64 →
  validate_predicate words ≠ inl None ∧
  (validate_predicate words = inr tt ↔ words = [] ∨ ∃ p, program_ok p ∧ words = print_program p).
Proof. intros Hw. split; [apply validate_predicate_safe|by apply validate_predicate_accepts]. Qed.

Definition demo_program : Program :=
  mkProgram (Some (1, 2))
    [mkAnyOfPredicate [mkAnyOfMember [[5]; [6; 7]]]] [[2; 3]] (Some ([demo_query], [])).
Definition demo_words : list N := print_program demo_program.

Lemma validate_predicate_exact_witness :
  nlen demo_words ≤ umax 64 ∧ ∃ p, program_ok p ∧ demo_words = print_program p.
Proof.
  assert (nlen demo_words ≤ umax 64) as Hw by done. split; [done|].
  destruct (validate_predicate_exact demo_words Hw) as [_ [H _]].
  destruct H as [|H]; [by vm_compute|done|done].
Defined.

(** C15. A validated program is safe to evaluate: on every title view the scalar
    evaluator returns (no index is out of range, every graph search ends), and
    so do the ranking walk and the Boolean projection used by body dedup. *)
Theorem validated_program_safe words :
  nlen words ≤ umax 64 → validate_predicate words = inr tt →
  (∀ view, ∃ b, verify_predicate words view = Some b) ∧
  (∀ proxy, ∃ counts, predicate_rank_term_counts words proxy = Some counts) ∧
  (∃ bp, predicate_boolean_program words = Some bp).
Proof.
  intros Hw Hv. apply (validate_predicate_accepts words Hw) in Hv as [->|(p & Hp & ->)].
  - split_and!; [intros view; by exists true|intros proxy; by eexists|by eexists].
  - split_and!.
    + intros view. eexists. apply verify_program_eval. by apply program_ok_nonempty.
    + intros proxy. eexists. apply rank_term_counts_eval.
    + eexists. apply boolean_program_print.
Qed.

Lemma validated_program_safe_witness :
  nlen demo_words ≤ umax 64 ∧ validate_predicate demo_words = inr tt ∧
  ∃ b, verify_predicate demo_words (view_single 0 [2; 5; 6]) = Some b.
Proof.
  assert (nlen demo_words ≤ umax 64) as Hw by done.
  assert (validate_predicate demo_words = inr tt) as Hv by by vm_compute.
  split_and!; [done..|]. apply (proj1 (validated_program_safe demo_words Hw Hv)).
Defined.

Lemma encode_storable ex blob :
  storable ex → nlen blob + program_words ex + 2 ≤ U32_MAX →
  let r := encode_predicate ex blob in
  ∃ words, slice r.2 (usize r.1.1) (usize r.1.2) = Some words ∧ r.2 = blob ++ words ∧
    (r.1.2 = 0 ↔ predicate_trivial ex = true) ∧
    validate_predicate words = inr tt ∧
    (∀ view, verify_predicate words view = Some (compound_holds ex view)).
Proof.
  intros Hs Hb r. destruct (encode_predicate_stored ex blob Hb) as (Hslice & Hr & Hz & _).
  eexists. split; [exact Hslice|]. split; [done|]. split; [done|].
  assert (nlen (anyof_predicates ex) ≤ U32_MAX) as Hl.
  { etrans; [apply (nlen_le_sum predicate_words); unfold predicate_words; lia|]. unfold program_words in Hb. lia. }
  pose proof (program_of_ok ex Hs Hl) as Hok. destruct (predicate_trivial ex) eqn:Et.
  - split; [done|]. intros view. by rewrite predicate_trivial_holds.
  - split.
    + apply validate_predicate_accepts; [|right; eauto]. rewrite print_program_words.
      change (umax 64) with 18446744073709551615. unfold U32_MAX in Hb. lia.
    + intros view. rewrite verify_program_eval by by apply program_ok_nonempty. by rewrite program_of_holds.
Qed.

(** C13. Storing a compiled query's compound predicate.  For every query that
    extraction compiles, interning or read-only, from a parsed text (quoted texts of
    fewer than 2^32 tokens, a well-formed dictionary whose equivalence groups contain
    their own feature, fewer than 2^31 names in it with those of the query) and while the blob with the new program stays below 2^32
    words: the offset and length written for the row select a program that the
    validator accepts and whose evaluation on any title view is the compound part
    of the query; rows already stored are untouched.  A zero length is written
    exactly when there is nothing to test and nothing to record for ranking. *)
Theorem encode_predicate_correct `{AnalyzerLaws} ast d ex blob :
  compiled_from ast d ex → nlen blob + program_words ex + 2 ≤ U32_MAX →
  let r := encode_predicate ex blob in
  ∃ words, slice r.2 (usize r.1.1) (usize r.1.2) = Some words ∧ r.2 = blob ++ words ∧
    (r.1.2 = 0 ↔ predicate_trivial ex = true) ∧
    validate_predicate words = inr tt ∧
    (∀ view, verify_predicate words view = Some (compound_holds ex view)).
Proof. intros Hc. by eapply encode_storable, compiled_storable. Qed.

Definition demo_compiled : Extracted := default extracted_default (fst <$> extract demo_compound_ast dict_new).

Lemma demo_compiled_from : compiled_from demo_compound_ast dict_new demo_compiled.
Proof.
  split; [apply dict_new_wf|by intros f g Hf|by repeat constructor|]. right. split.
  - intros acc d1 E.
    assert ((λ r, length (names r.2)) <$> extract_clauses interning demo_compound_ast acc_new dict_new = Some 7%nat) as Hn
      by (vm_compute; reflexivity).
    rewrite E in Hn. injection Hn as Hn. unfold dict_room. rewrite Hn. reflexivity.
  - assert (bool_decide (is_Some (extract demo_compound_ast dict_new)) = true) as Hs by (vm_compute; reflexivity).
    apply bool_decide_eq_true in Hs as [[ex d'] E]. exists d'. unfold demo_compiled. by rewrite E.
Qed.

Lemma encode_predicate_correct_witness :
  let r := encode_predicate demo_compiled [42] in
  ∃ words, slice r.2 (usize r.1.1) (usize r.1.2) = Some words ∧ r.1 = (1, 29) ∧
    ∀ view, verify_predicate words view = Some (compound_holds demo_compiled view).
Proof.
  destruct (encode_predicate_correct demo_compound_ast dict_new demo_compiled [42] demo_compiled_from ltac:(by vm_compute)) as (words & H & _ & _ & _ & Hv).
  exists words. split_and!; [done|by vm_compute|done].
Defined.

(** C40. The overflow guard at the ingest front door undercounts: it counts a
    three-word header, while the encoder always writes five (version, two
    ranking totals, two counts).  A query the guard passes can therefore be
    stored with a truncated length: here a program of [2^32 + 1] words whose
    length column says one word. *)
Theorem column_overflow_undercounts :
  ∃ ex, column_overflow ex = None ∧
    nlen (encode_predicate ex []).2 = 2 ^ 32 + 1 ∧ (encode_predicate ex []).1 = (0, 1).
Proof.
  assert (∃ n, N.of_nat n = 4294967291) as [n Hn] by (exists (usize 4294967291); apply N2Nat.id).
  pose (ex := mkExtracted [] [] [] 0 0 [] [replicate n 0] [] []).
  assert (program_words ex = U32_MAX) as Hw.
  { unfold program_words, ex. cbn [anyof_predicates forbidden_conjunctions required_phrases forbidden_phrases sum_N foldr].
    unfold nlen. rewrite length_replicate, Hn. done. }
  exists ex. split; [|].
  - apply column_overflow_iff. unfold columns_fit. rewrite Hw. split_and!; try done.
  - rewrite encode_predicate_spec by (rewrite Hw; done). change (predicate_trivial ex) with false. cbn iota.
    pose proof (print_program_words ex) as Hp. rewrite Hw in Hp. rewrite app_nil_l. cbn [fst snd].
    rewrite Hp. split; [done|]. unfold as_u32. unfold nlen in Hp. by rewrite Hp.
Qed.
