(* ===== verification/Ownership.v ===== *)
(** * Distributed emission ownership ([engine/src/ownership.rs])

    Where a stored query lives in a cluster ([QueryPlacement]), which shard
    positions a request visits ([OwnershipContext]), and which one of them may
    emit the query ([owner], and the emission policies of the matchers built on
    it). *)

From S2P Require Import Prelude Compile.

Definition STANDALONE : N := 0.
Definition INITIAL : N := 1.
Definition generation_next (g : N) : option N := checked_add 64 g 1.

Inductive PlacementMode := Standalone | Selective | ReplicatedAlwaysVisible | ReplicatedBroad.

#[export] Instance PlacementMode_eq_dec : EqDecision PlacementMode.
Proof. solve_decision. Defined.

Inductive OwnershipError :=
  | UnknownMode (value : N)
  | InvalidStandalone
  | MissingGeneration
  | EmptyShardSpace
  | EmptySelectivePlacement
  | PositionsNotStrictlySorted
  | RouteNotStrictlySorted
  | UnexpectedReplicatedPositions
  | PositionOutOfRange (position num_shards : N)
  | LocalPositionMissing (position : N)
  | BroadEvaluatorNotRouted (position : N)
  | EmptyRoute
  | PlacementDecisionMismatch
  | GenerationMismatch (expected actual : N)
  | ShardCountMismatch (expected actual : N).

Definition is_replicated (m : PlacementMode) : bool :=
  match m with ReplicatedAlwaysVisible | ReplicatedBroad => true | _ => false end.

(** [mode as u8] and [from_byte]. *)
Definition mode_byte (m : PlacementMode) : N :=
  match m with Standalone => 0 | Selective => 1 | ReplicatedAlwaysVisible => 2 | ReplicatedBroad => 3 end.
Definition mode_from_byte (value : N) : OwnershipError + PlacementMode :=
  if value =? 0 then inr Standalone
  else if value =? 1 then inr Selective
  else if value =? 2 then inr ReplicatedAlwaysVisible
  else if value =? 3 then inr ReplicatedBroad
  else inl (UnknownMode value).

Record QueryPlacement := mkQueryPlacement {
  pl_generation : N;
  pl_num_shards : N;
  pl_mode : PlacementMode;
  pl_positions : list N;
}.

Definition placement_standalone : QueryPlacement := mkQueryPlacement STANDALONE 0 Standalone [].

(** A strictly sorted position list inside the shard space, with the error of
    the caller for an unsorted one. *)
Definition check_positions (num_shards : N) (unsorted : OwnershipError) (l : list N) :
  OwnershipError + option N :=
  try_foldl (λ previous position,
    let? _ := return_if (num_shards <=? position) (PositionOutOfRange position num_shards) in
    let? _ := return_if (match previous with Some p => position <=? p | None => false end) unsorted in
    inr (Some position)) None l.

Definition placement_validate (p : QueryPlacement) : OwnershipError + unit :=
  match pl_mode p with
  | Standalone =>
      return_if (negb (pl_generation p =? STANDALONE) || negb (pl_num_shards p =? 0) || nonempty (pl_positions p))
        InvalidStandalone
  | _ =>
      let? _ := return_if (pl_generation p =? STANDALONE) MissingGeneration in
      let? _ := return_if (pl_num_shards p =? 0) EmptyShardSpace in
      match pl_mode p with
      | Selective =>
          let? _ := return_if (negb (nonempty (pl_positions p))) EmptySelectivePlacement in
          let? _ := check_positions (pl_num_shards p) PositionsNotStrictlySorted (pl_positions p) in
          inr tt
      | ReplicatedAlwaysVisible | ReplicatedBroad =>
          return_if (nonempty (pl_positions p)) UnexpectedReplicatedPositions
      | Standalone => inl InvalidStandalone
      end
  end.

Definition placement_checked (p : QueryPlacement) : OwnershipError + QueryPlacement :=
  let? _ := placement_validate p in inr p.

Definition placement_selective (generation num_shards : N) (ps : list N) : OwnershipError + QueryPlacement :=
  placement_checked (mkQueryPlacement generation num_shards Selective (sort_dedup ps)).

Definition placement_replicated (generation num_shards : N) (mode : PlacementMode) : OwnershipError + QueryPlacement :=
  placement_checked (mkQueryPlacement generation num_shards mode []).

Definition placement_from_raw (generation num_shards mode : N) (ps : list N) : OwnershipError + QueryPlacement :=
  let? mode := mode_from_byte mode in
  placement_checked (mkQueryPlacement generation num_shards mode ps).

Definition validate_for_shard (p : QueryPlacement) (position generation num_shards : N) : OwnershipError + unit :=
  let? _ := placement_validate p in
  let? _ := return_if (negb (pl_generation p =? generation)) (GenerationMismatch generation (pl_generation p)) in
  let? _ := return_if (negb (pl_num_shards p =? num_shards)) (ShardCountMismatch num_shards (pl_num_shards p)) in
  let? _ := return_if (num_shards <=? position) (PositionOutOfRange position num_shards) in
  return_if (bool_decide (pl_mode p = Selective) && negb (bsearch_mem position (pl_positions p)))
    (LocalPositionMissing position).

(** [QueryPlacementRef::matches]. *)
Definition placement_matches (r p : QueryPlacement) : bool :=
  (pl_generation r =? pl_generation p) && (pl_num_shards r =? pl_num_shards p) &&
  bool_decide (pl_mode r = pl_mode p) && bool_decide (pl_positions r = pl_positions p).

Record OwnershipContext := mkOwnershipContext {
  oc_generation : N;
  oc_num_shards : N;
  routed_positions : list N;
  broad_evaluator : option N;
}.

Definition context_validate (c : OwnershipContext) : OwnershipError + unit :=
  let? _ := return_if (oc_generation c =? STANDALONE) MissingGeneration in
  let? _ := return_if (oc_num_shards c =? 0) EmptyShardSpace in
  let? _ := return_if (negb (nonempty (routed_positions c))) EmptyRoute in
  let? _ := check_positions (oc_num_shards c) RouteNotStrictlySorted (routed_positions c) in
  match broad_evaluator c with
  | Some position =>
      return_if (negb (bsearch_mem position (routed_positions c))) (BroadEvaluatorNotRouted position)
  | None => inr tt
  end.

Definition context_new (generation num_shards : N) (routed : list N) (broad : option N) :
  OwnershipError + OwnershipContext :=
  let c := mkOwnershipContext generation num_shards routed broad in
  let? _ := context_validate c in inr c.

Definition require_routed (c : OwnershipContext) (current_position : N) : OwnershipError + unit :=
  return_if ((oc_num_shards c <=? current_position) || negb (bsearch_mem current_position (routed_positions c)))
    (LocalPositionMissing current_position).

(** The two-pointer intersection of [owner]: [p] and [r] walk the two sorted
    lists; each turn advances one of them. *)
Fixpoint owner_loop (fuel : nat) (ps rs : list N) (p r : nat) : option (option N) :=
  match fuel with
  | O => None
  | S fuel' =>
      match ps !! p, rs !! r with
      | Some x, Some y =>
          match rcmp x y with
          | Lt => owner_loop fuel' ps rs (S p) r
          | Gt => owner_loop fuel' ps rs p (S r)
          | Eq => Some (Some x)
          end
      | _, _ => Some None
      end
  end.

Definition owner_fuel (ps rs : list N) : nat := S (length ps + length rs).

(** The outer option is fuel; by [owner_total] it is never exhausted. *)
Definition owner (c : OwnershipContext) (p : QueryPlacement) : option (option N) :=
  if negb (pl_generation p =? oc_generation c) || negb (pl_num_shards p =? oc_num_shards c) then Some None
  else
    match pl_mode p with
    | Standalone => Some None
    | Selective =>
        owner_loop (owner_fuel (pl_positions p) (routed_positions c)) (pl_positions p) (routed_positions c) 0 0
    | ReplicatedAlwaysVisible => Some (head (routed_positions c))
    | ReplicatedBroad => Some (broad_evaluator c)
    end.

(** ** Emission policies *)

Class EmissionPolicy (P : Type) := should_emit : P → QueryPlacement → option bool.

Inductive EmitAll := mkEmitAll.
#[export] Instance EmitAll_policy : EmissionPolicy EmitAll := λ _ _, Some true.

Record UniqueOwner := mkUniqueOwner { uo_context : OwnershipContext; uo_position : N }.
#[export] Instance UniqueOwner_policy : EmissionPolicy UniqueOwner := λ u p,
  o ← owner (uo_context u) p; Some (bool_decide (o = Some (uo_position u))).

(** The batch twin: one policy per title of the batch. *)
Class BatchEmissionPolicy (P : Type) (T : Type) `{EmissionPolicy T} := title_policy : P → nat → option T.

Definition batch_should_emit {P T} `{BatchEmissionPolicy P T} (p : P) (title : nat) (pl : QueryPlacement) :
  option bool := t ← title_policy p title; should_emit t pl.

#[export] Instance EmitAll_batch : BatchEmissionPolicy EmitAll EmitAll := λ p _, Some p.

Record PerTitleUniqueOwner := mkPerTitleUniqueOwner { po_contexts : list OwnershipContext; po_position : N }.
#[export] Instance PerTitleUniqueOwner_batch : BatchEmissionPolicy PerTitleUniqueOwner UniqueOwner := λ p title,
  c ← po_contexts p !! title; Some (mkUniqueOwner c (po_position p)).

(** ** Valid metadata *)

(** Strictly increasing positions of the shard space. *)
Definition positions_ok (num_shards : N) (l : list N) : Prop :=
  StronglySorted rlt l ∧ Forall (λ x, x < num_shards) l.

Definition placement_valid (p : QueryPlacement) : Prop :=
  match pl_mode p with
  | Standalone => p = placement_standalone
  | Selective => pl_generation p ≠ 0 ∧ pl_num_shards p ≠ 0 ∧ pl_positions p ≠ [] ∧
      positions_ok (pl_num_shards p) (pl_positions p)
  | ReplicatedAlwaysVisible | ReplicatedBroad =>
      pl_generation p ≠ 0 ∧ pl_num_shards p ≠ 0 ∧ pl_positions p = []
  end.

Definition context_valid (c : OwnershipContext) : Prop :=
  oc_generation c ≠ 0 ∧ oc_num_shards c ≠ 0 ∧ routed_positions c ≠ [] ∧
  positions_ok (oc_num_shards c) (routed_positions c) ∧
  (∀ b, broad_evaluator c = Some b → b ∈ routed_positions c).

(** The positions whose shard stores the row. *)
Definition stored_at (p : QueryPlacement) (position : N) : Prop :=
  match pl_mode p with
  | Standalone => False
  | Selective => position ∈ pl_positions p
  | ReplicatedAlwaysVisible | ReplicatedBroad => position < pl_num_shards p
  end.

Lemma return_if_ok {E} cond (e : E) : return_if cond e = inr tt ↔ cond = false.
Proof. by destruct cond. Qed.

Lemma check_positions_from num_shards unsorted l previous :
  (∃ r, try_foldl (λ previous position,
    let? _ := return_if (num_shards <=? position) (PositionOutOfRange position num_shards) in
    let? _ := return_if (match previous with Some p => position <=? p | None => false end) unsorted in
    inr (Some position)) previous l = inr r) ↔
  positions_ok num_shards l ∧ (∀ p, previous = Some p → Forall (λ x, p < x) l).
Proof.
  unfold positions_ok. revert previous. induction l as [|x l IH]; intros previous; cbn [try_foldl].
  { split; [|by eexists]. intros _. split_and!; [constructor|done|]. intros. constructor. }
  unfold return_if. rewrite Forall_cons. destruct (N.leb_spec num_shards x) as [Hx|Hx]; cbn [try_bind].
  { split; [by intros [? [=]]|]. intros ((_ & ? & _) & _). lia. }
  destruct (match previous with Some p => x <=? p | None => false end) eqn:Hp; cbn [try_bind].
  { split; [by intros [? [=]]|]. intros (_ & Hl). destruct previous as [p|]; [|done].
    apply N.leb_le in Hp. specialize (Hl p eq_refl). apply Forall_cons in Hl as [? _]. lia. }
  rewrite (IH (Some x)). split.
  - intros ((Hs & Hf) & Hl). specialize (Hl x eq_refl).
    split_and!; [constructor; [done|]|done|done|].
    + eapply Forall_impl; [exact Hl|]. intros y. unfold rlt, rcmp, N_ord. by rewrite N.compare_lt_iff.
    + intros p ->. apply N.leb_gt in Hp. constructor; [done|]. eapply Forall_impl; [exact Hl|]. intros y Hy. simpl in Hy. lia.
  - intros ((Hs & _ & Hf) & _). apply StronglySorted_inv in Hs as [Hs Hx']. split; [done|].
    intros p [= <-]. eapply Forall_impl; [exact Hx'|]. intros y. unfold rlt, rcmp, N_ord. by rewrite N.compare_lt_iff.
Qed.

Lemma check_positions_ok num_shards unsorted l :
  (∃ r, check_positions num_shards unsorted l = inr r) ↔ positions_ok num_shards l.
Proof. unfold check_positions. rewrite check_positions_from. naive_solver. Qed.

Lemma placement_validate_ok p : placement_validate p = inr tt ↔ placement_valid p.
Proof.
  unfold placement_validate, placement_valid, STANDALONE. destruct p as [g n m ps]. cbn [pl_mode pl_generation pl_num_shards pl_positions].
  unfold placement_standalone, STANDALONE. destruct m.
  { rewrite return_if_ok, !orb_false_iff, !negb_false_iff, !N.eqb_eq, nonempty_false. naive_solver. }
  all: destruct (N.eqb_spec g 0); cbn [return_if try_bind]; [naive_solver|].
  all: destruct (N.eqb_spec n 0); cbn [return_if try_bind]; [naive_solver|].
  2-3: rewrite return_if_ok, nonempty_false; naive_solver.
  rewrite <-(nonempty_true ps), <-(check_positions_ok n PositionsNotStrictlySorted).
  destruct (nonempty ps); cbn [return_if negb try_bind]; [|naive_solver].
  destruct (check_positions _ _ _) as [e|r]; cbn [try_bind]; naive_solver.
Qed.

Lemma positions_ok_sorted n l : positions_ok n l → StronglySorted rle l.
Proof. intros [H _]. by apply strictly_sorted_sorted. Qed.

Lemma context_validate_ok c : context_validate c = inr tt ↔ context_valid c.
Proof.
  unfold context_validate, context_valid, STANDALONE.
  destruct (N.eqb_spec (oc_generation c) 0); cbn [return_if try_bind]; [naive_solver|].
  destruct (N.eqb_spec (oc_num_shards c) 0); cbn [return_if try_bind]; [naive_solver|].
  rewrite <-(nonempty_true (routed_positions c)). destruct (nonempty (routed_positions c)); cbn [return_if negb try_bind]; [|naive_solver].
  pose proof (check_positions_ok (oc_num_shards c) RouteNotStrictlySorted (routed_positions c)) as Hc.
  destruct (check_positions _ _ _) as [e|r]; cbn [try_bind].
  { split; [done|]. intros (_ & _ & _ & H & _). by apply Hc in H as [? [=]]. }
  assert (positions_ok (oc_num_shards c) (routed_positions c)) as Hok by (apply Hc; by eexists).
  destruct (broad_evaluator c) as [b|]; [|naive_solver].
  rewrite return_if_ok, negb_false_iff, bsearch_mem_spec by by eapply positions_ok_sorted. naive_solver.
Qed.

(** ** The two-pointer walk *)

Lemma owner_loop_spec ps rs fuel p r :
  StronglySorted rlt ps → StronglySorted rlt rs → ((length ps - p) + (length rs - r) < fuel)%nat →
  ∃ o, owner_loop fuel ps rs p r = Some o ∧
    match o with
    | Some x => x ∈ drop p ps ∧ x ∈ drop r rs ∧ ∀ y, y ∈ drop p ps → y ∈ drop r rs → x ≤ y
    | None => ∀ y, y ∈ drop p ps → y ∉ drop r rs
    end.
Proof.
  intros Hps Hrs. revert p r. induction fuel as [|fuel IH]; intros p r Hf; [lia|]. cbn [owner_loop].
  destruct (ps !! p) as [x|] eqn:Ep.
  2: { exists None. split; [done|]. apply lookup_ge_None in Ep. rewrite drop_ge by done. intros y ?%not_elem_of_nil. done. }
  destruct (rs !! r) as [y|] eqn:Er.
  2: { exists None. split; [done|]. apply lookup_ge_None in Er. intros z _. rewrite (drop_ge rs) by done. apply not_elem_of_nil. }
  pose proof (lookup_lt_Some _ _ _ Ep). pose proof (lookup_lt_Some _ _ _ Er).
  assert (∀ z, z ∈ drop (S p) ps → x < z) as Hx.
  { intros z Hz. rewrite <-(take_drop p ps), (drop_S _ _ _ Ep) in Hps. apply StronglySorted_app_1_r, StronglySorted_inv in Hps as [_ Hps].
    rewrite Forall_forall in Hps. specialize (Hps z Hz). unfold rlt, rcmp, N_ord in Hps. by rewrite N.compare_lt_iff in Hps. }
  assert (∀ z, z ∈ drop (S r) rs → y < z) as Hy.
  { intros z Hz. rewrite <-(take_drop r rs), (drop_S _ _ _ Er) in Hrs. apply StronglySorted_app_1_r, StronglySorted_inv in Hrs as [_ Hrs].
    rewrite Forall_forall in Hrs. specialize (Hrs z Hz). unfold rlt, rcmp, N_ord in Hrs. by rewrite N.compare_lt_iff in Hrs. }
  rewrite (drop_S _ _ _ Ep), (drop_S _ _ _ Er). unfold rcmp, N_ord. destruct (N.compare_spec x y) as [->|Hxy|Hxy].
  - exists (Some y). split; [done|]. split_and!; [by left|by left|]. intros z [->|Hz]%elem_of_cons _; [lia|].
    apply Hx in Hz. lia.
  - destruct (IH (S p) r ltac:(lia)) as (o & -> & Ho). exists o. split; [done|]. rewrite (drop_S _ _ _ Er) in Ho.
    assert (x ∉ y :: drop (S r) rs) as Hn by (intros [->|Hz%Hy]%elem_of_cons; lia).
    destruct o as [z|].
    + destruct Ho as (H1 & H2 & H3). split_and!; [by right|done|]. intros w [->|Hw]%elem_of_cons ?; [done|auto].
    + intros w [->|Hw]%elem_of_cons; [done|auto].
  - destruct (IH p (S r) ltac:(lia)) as (o & -> & Ho). exists o. split; [done|]. rewrite (drop_S _ _ _ Ep) in Ho.
    assert (y ∉ x :: drop (S p) ps) as Hn by (intros [->|Hz%Hx]%elem_of_cons; lia).
    destruct o as [z|].
    + destruct Ho as (H1 & H2 & H3). split_and!; [done|by right|]. intros w ? [->|Hw]%elem_of_cons; [done|auto].
    + intros w Hw [->|Hw']%elem_of_cons; [done|]. by apply (Ho w).
Qed.

(** What [owner] computes for valid metadata of one generation. *)
Lemma owner_spec c p :
  context_valid c → placement_valid p →
  ∃ o, owner c p = Some o ∧
    (∀ x, o = Some x → x ∈ routed_positions c ∧ stored_at p x ∧
       pl_generation p = oc_generation c ∧ pl_num_shards p = oc_num_shards c) ∧
    (pl_generation p = oc_generation c → pl_num_shards p = oc_num_shards c →
     (pl_mode p = ReplicatedBroad → is_Some (broad_evaluator c)) →
     (∃ x, x ∈ routed_positions c ∧ stored_at p x) → is_Some o).
Proof.
  intros (_ & _ & Hne & [Hrs Hrf] & Hb) Hp. unfold owner.
  destruct (N.eqb_spec (pl_generation p) (oc_generation c)) as [Eg|Eg]; simpl;
    [|exists None; split_and!; [done|done|naive_solver]].
  destruct (N.eqb_spec (pl_num_shards p) (oc_num_shards c)) as [En|En]; simpl;
    [|exists None; split_and!; [done|done|naive_solver]].
  unfold placement_valid, stored_at in *. rewrite Forall_forall in Hrf. destruct (pl_mode p).
  - exists None. naive_solver.
  - destruct Hp as (_ & _ & _ & Hps & _).
    destruct (owner_loop_spec (pl_positions p) (routed_positions c) (owner_fuel (pl_positions p) (routed_positions c)) 0 0)
      as (o & Ho & Hspec); [done..|unfold owner_fuel; lia|]. rewrite !drop_0 in Hspec. exists o. split; [done|].
    destruct o as [x|]; [|naive_solver]. destruct Hspec as (? & ? & _). split; [|by eexists]. by intros ? [= <-].
  - destruct (routed_positions c) as [|r rs] eqn:Er; [done|]. exists (Some r). split_and!; [done| |by eexists].
    intros ? [= <-]. split_and!; [by left| |done..]. rewrite En. apply Hrf. by left.
  - exists (broad_evaluator c). split_and!; [done| |naive_solver]. intros x Hx.
    split_and!; [by apply Hb| |done..]. rewrite En. by apply Hrf, Hb.
Qed.

(** The walk ends on any two lists: each turn moves one of the pointers. *)
Lemma owner_total c p : is_Some (owner c p).
Proof.
  unfold owner. destruct (_ || _); [by eexists|]. destruct (pl_mode p); try by eexists.
  unfold owner_fuel. generalize (pl_positions p) (routed_positions c). intros ps rs.
  assert (∀ fuel p r, ((length ps - p) + (length rs - r) < fuel)%nat → is_Some (owner_loop fuel ps rs p r)) as H;
    [|apply H; lia].
  induction fuel as [|fuel IH]; intros i r Hf; [lia|]. cbn [owner_loop].
  destruct (ps !! i) as [x|] eqn:Ep; [|by eexists]. destruct (rs !! r) as [y|] eqn:Er; [|by eexists].
  pose proof (lookup_lt_Some _ _ _ Ep). pose proof (lookup_lt_Some _ _ _ Er).
  destruct (rcmp x y); [by eexists|apply IH; lia..].
Qed.

Lemma mode_from_byte_byte m : mode_from_byte (mode_byte m) = inr m.
Proof. by destruct m. Qed.

(** The shard positions that emit a row under a request. *)
Definition emits (c : OwnershipContext) (p : QueryPlacement) (position : N) : Prop :=
  should_emit (mkUniqueOwner c position) p = Some true.

(** C16. A cluster read emits a stored row exactly once.  For validated placement
    and routing metadata, at most one shard position emits the row, it is a
    routed position that stores the row, and if any routed position stores it
    (and a broad row has an evaluator) some position does emit it.  Rows of
    another placement generation or shard space are never emitted. *)
Theorem unique_owner_emission c p :
  context_validate c = inr tt → placement_validate p = inr tt →
  (∀ a b, emits c p a → emits c p b → a = b) ∧
  (∀ a, emits c p a → a ∈ routed_positions c ∧ stored_at p a ∧
     pl_generation p = oc_generation c ∧ pl_num_shards p = oc_num_shards c) ∧
  (pl_generation p = oc_generation c → pl_num_shards p = oc_num_shards c →
   (pl_mode p = ReplicatedBroad → is_Some (broad_evaluator c)) →
   (∃ x, x ∈ routed_positions c ∧ stored_at p x) → ∃ a, emits c p a).
Proof.
  intros Hc%context_validate_ok Hp%placement_validate_ok.
  destruct (owner_spec c p Hc Hp) as (o & Ho & H1 & H2).
  assert (∀ a, emits c p a ↔ o = Some a) as He.
  { intros a. unfold emits, should_emit, UniqueOwner_policy. simpl. rewrite Ho. simpl.
    destruct (decide (o = Some a)) as [E|E]; [rewrite bool_decide_eq_true_2|rewrite bool_decide_eq_false_2]; naive_solver. }
  setoid_rewrite He. split_and!; [congruence|done|].
  intros Hg Hn Hb Hx. destruct (H2 Hg Hn Hb Hx) as [a ->]. by exists a.
Qed.

Definition demo_context : OwnershipContext := mkOwnershipContext 7 16 [1; 5; 9; 12] (Some 12).
Definition demo_placement : QueryPlacement := mkQueryPlacement 7 16 Selective [2; 5; 9].

Lemma unique_owner_emission_witness :
  context_validate demo_context = inr tt ∧ placement_validate demo_placement = inr tt ∧
  emits demo_context demo_placement 5 ∧ ∃ a, emits demo_context demo_placement a.
Proof.
  assert (context_validate demo_context = inr tt) as Hc by by vm_compute.
  assert (placement_validate demo_placement = inr tt) as Hp by by vm_compute.
  split_and!; [done..|by vm_compute|].
  destruct (unique_owner_emission demo_context demo_placement Hc Hp) as (_ & _ & H). apply H; [done..|].
  exists 5. split; [by vm_compute; set_solver|]. unfold stored_at. simpl. set_solver.
Defined.

(** Placement metadata that is persisted or sent and decoded again: the decoder
    accepts exactly the valid placements and returns them unchanged; unsorted,
    duplicate or out-of-range positions, positions on replicated rows and
    unknown modes are refused rather than repaired. *)
Theorem placement_from_raw_exact generation num_shards mode ps p :
  placement_from_raw generation num_shards mode ps = inr p ↔
  placement_valid p ∧ generation = pl_generation p ∧ num_shards = pl_num_shards p ∧
  mode = mode_byte (pl_mode p) ∧ ps = pl_positions p.
Proof.
  unfold placement_from_raw, placement_checked. split.
  - intros (m & Hm & (u & Hv & [= <-])%try_bind_inr)%try_bind_inr. destruct u.
    apply placement_validate_ok in Hv. split_and!; [done..| |done]. simpl.
    unfold mode_from_byte in Hm. repeat case_match; simplify_eq; by apply N.eqb_eq.
  - intros (Hv & -> & -> & -> & ->). rewrite mode_from_byte_byte. cbn [try_bind].
    destruct p as [g n m l]. cbn [pl_generation pl_num_shards pl_mode pl_positions].
    by rewrite (proj2 (placement_validate_ok _) Hv).
Qed.
