(* ===== verification/Tags.v ===== *)
(** * Query tags ([engine/src/tagdict.rs], [engine/src/segment/ingest.rs],
      [engine/src/segment/snapshot/scalar.rs])

    A query carries [(key, value)] metadata tags, interned to dense ids in a space
    of their own. A request filters by them: a list of keys with the values each
    accepts, compiled to ids, where a value that was never interned gets a
    synthetic id by hashing.

    The theorems: interning is injective and stable, and a request filter,
    compiled against any later state of the dictionary, accepts an interned tag
    set exactly when for each key one of the accepted values is among the query's
    tags. *)

From S2P Require Import Prelude Util Text Dictionary Clean View.

Definition TAG_SEP : N := 1.
Definition SYNTHETIC_TAG_BASE : N := 0x80000000.

Definition is_synthetic_tag (id : N) : bool := SYNTHETIC_TAG_BASE <=? id.

Definition canonical (key value : rstring) : rstring := key ++ TAG_SEP :: value.

Definition synthetic_tag_id (key value : rstring) : N :=
  let h := fnv1a64 (as_bytes (canonical key value)) in
  let folded := wrap32 (N.lxor h (N.shiftr h 32)) in
  N.lor SYNTHETIC_TAG_BASE (N.land folded (SYNTHETIC_TAG_BASE - 1)).

(** [str::parse::<i64>]: an optional sign, then digits; a step out of range fails. *)
Definition in_i64 (z : Z) : bool := (- 2 ^ 63 <=? z)%Z && (z <? 2 ^ 63)%Z.

Definition parse_i64_step (neg : bool) (acc : option Z) (c : char) : option Z :=
  n ← acc;
  v ← digit_value c;
  let t := (n * 10)%Z in
  if in_i64 t then
    let r := if neg then (t - Z.of_N v)%Z else (t + Z.of_N v)%Z in
    if in_i64 r then Some r else None
  else None.

Definition parse_i64 (s : rstring) : option Z :=
  match s with
  | [] => None
  | c :: s' =>
      let '(neg, digits) := if c =? 45 then (true, s') else if c =? 43 then (false, s') else (false, s) in
      match digits with [] => None | _ => foldl (parse_i64_step neg) (Some 0%Z) digits end
  end.

Record TagDict := mkTagDict {
  td_map : gmap rstring N;
  td_keys : list rstring;
  td_priority_values : list (option Z);
  td_finalized : bool;
}.

Definition tag_dict_new : TagDict := mkTagDict ∅ [] [] false.

Definition PRIORITY : rstring := str "priority".

Definition tag_intern (key value : rstring) (td : TagDict) : N * TagDict :=
  let c := canonical key value in
  match td_map td !! c with
  | Some id => (id, td)
  | None =>
      let id := as_u32 (length (td_keys td)) in
      (id, mkTagDict (<[c := id]> (td_map td)) (td_keys td ++ [c])
             (td_priority_values td ++ [if bool_decide (key = PRIORITY) then Some (default 0%Z (parse_i64 value)) else None])
             (td_finalized td))
  end.

Definition tag_get (td : TagDict) (key value : rstring) : option N := td_map td !! canonical key value.

Definition tag_get_or_synthetic (td : TagDict) (key value : rstring) : N :=
  match td_map td !! canonical key value with Some id => id | None => synthetic_tag_id key value end.

(** [str::split_once] *)
Fixpoint split_once (sep : char) (s : rstring) : option (rstring * rstring) :=
  match s with
  | [] => None
  | c :: s' => if c =? sep then Some ([], s') else '(a, b) ← split_once sep s'; Some (c :: a, b)
  end.

Definition tag_key_value (td : TagDict) (id : N) : option (rstring * rstring) :=
  c ← td_keys td !! usize id; split_once TAG_SEP c.

Definition legacy_priority (td : TagDict) (id : N) : option Z := mjoin (td_priority_values td !! usize id).

Fixpoint legacy_priority_for_tags (td : TagDict) (tags : list N) : Z :=
  match tags with
  | [] => 0%Z
  | id :: tags' => match legacy_priority td id with Some p => p | None => legacy_priority_for_tags td tags' end
  end.

Definition tag_mark_finalized (td : TagDict) : TagDict :=
  mkTagDict (td_map td) (td_keys td) (td_priority_values td) true.

Definition tag_fingerprint_bytes (td : TagDict) : list N :=
  le32 (as_u32 (length (td_keys td))) ++
  mjoin ((λ c, le32 (as_u32 (str_len c)) ++ as_bytes c) <$> td_keys td) ++ [if td_finalized td then 1 else 0].

Definition tag_fingerprint (td : TagDict) : N := fnv1a64 (tag_fingerprint_bytes td).

(** ** The engine's use of the dictionary *)

(** [tags.iter().map(|(k, v)| td.intern(k, v))] *)
Fixpoint intern_each (tags : list (rstring * rstring)) (td : TagDict) : list N * TagDict :=
  match tags with
  | [] => ([], td)
  | (k, v) :: tags' =>
      let '(id, td) := tag_intern k v td in
      let '(ids, td) := intern_each tags' td in
      (id :: ids, td)
  end.

Definition intern_tags (tags : list (rstring * rstring)) (td : TagDict) : list N * TagDict :=
  match tags with
  | [] => ([], td)
  | _ => let '(ids, td) := intern_each tags td in (sort_dedup ids, td)
  end.

Definition resolve_tags_readonly (td : TagDict) (tags : list (rstring * rstring)) : list N :=
  match tags with
  | [] => []
  | _ => sort_dedup ((λ kv : rstring * rstring, tag_get_or_synthetic td kv.1 kv.2) <$> tags)
  end.

Definition compile_tag_predicate (td : TagDict) (request : list (rstring * list rstring)) : TagPredicate :=
  tag_new ((λ kv : rstring * list rstring, tag_get_or_synthetic td kv.1 <$> kv.2) <$> request).

Definition legacy_rank_values (td : TagDict) (tag_ids : list N) : Z := legacy_priority_for_tags td tag_ids.

(** [filter(key == "priority").filter_map(parse)]: exactly one parseable value wins. *)
Definition cluster_rank_values (td : TagDict) (raw : list (rstring * rstring)) (tag_ids : list N) : Z :=
  match omap (λ kv : rstring * rstring, if bool_decide (kv.1 = PRIORITY) then parse_i64 kv.2 else None) raw with
  | [p] => p
  | _ => legacy_rank_values td tag_ids
  end.

(** ** The invariant *)

Record tag_dict_wf (td : TagDict) : Prop := {
  tw_priority : length (td_priority_values td) = length (td_keys td);
  tw_map c id : td_map td !! c = Some id ↔ td_keys td !! usize id = Some c;
  tw_room : N.of_nat (length (td_keys td)) ≤ SYNTHETIC_TAG_BASE;
}.

Definition tag_room (td : TagDict) (n : nat) : Prop := N.of_nat (length (td_keys td) + n) ≤ SYNTHETIC_TAG_BASE.

(** The dictionary has only grown. *)
Definition tag_extends (td td' : TagDict) : Prop := td_map td ⊆ td_map td'.

#[export] Instance tag_extends_preorder : PreOrder tag_extends.
Proof. split; unfold tag_extends; [by intros td|by intros a b c; etrans]. Qed.

Lemma tag_dict_new_wf : tag_dict_wf tag_dict_new.
Proof. split; [done| |done]. intros c id. by split. Qed.

Lemma tag_id_dense td c id : tag_dict_wf td → td_map td !! c = Some id → id < SYNTHETIC_TAG_BASE.
Proof. intros [_ Hm Hr] Hc%Hm%lookup_lt_Some. lia. Qed.

Lemma tag_map_inj td c c' id : tag_dict_wf td → td_map td !! c = Some id → td_map td !! c' = Some id → c = c'.
Proof. intros [_ Hm _] H1%Hm H2%Hm. congruence. Qed.

Lemma tag_intern_spec key value td :
  tag_dict_wf td → tag_room td 1 →
  let '(id, td') := tag_intern key value td in
  tag_dict_wf td' ∧ tag_extends td td' ∧ td_map td' !! canonical key value = Some id ∧
  (length (td_keys td') ≤ S (length (td_keys td)))%nat.
Proof.
  intros Hw Hroom. unfold tag_intern. destruct (td_map td !! canonical key value) as [id|] eqn:E; [split_and!; [done|reflexivity|done|lia]|].
  unfold tag_room in Hroom. rewrite as_u32_small by (unfold SYNTHETIC_TAG_BASE in *; lia).
  split_and!; simpl; [|by apply insert_subseteq|apply lookup_insert_eq|rewrite length_app; simpl; lia].
  destruct Hw as [Hp Hm Hr]. assert (canonical key value ∉ td_keys td) as Hfresh.
  { intros (i & Hi)%list_elem_of_lookup. rewrite <-(Nat2N.id i) in Hi. apply Hm in Hi. congruence. }
  split; simpl; [rewrite !length_app; simpl; lia| |rewrite length_app; simpl; lia].
  intros c id. destruct (decide (c = canonical key value)) as [->|Hne].
  - rewrite lookup_insert_eq. split; [intros [= <-]; rewrite Nat2N.id; by apply list_lookup_middle|].
    intros Hi. apply lookup_app_Some in Hi as [Hi|[Hge Hi]]; [by apply list_elem_of_lookup_2 in Hi|].
    destruct (usize id - length (td_keys td))%nat eqn:E'; simpl in Hi; [|done]. f_equal. lia.
  - rewrite lookup_insert_ne by done. rewrite Hm. split; [apply lookup_app_l_Some|].
    intros Hi. apply lookup_app_Some in Hi as [Hi|[Hge Hi]]; [done|].
    destruct (usize id - length (td_keys td))%nat; simpl in Hi; by simplify_eq.
Qed.

Lemma intern_each_spec tags td :
  tag_dict_wf td → tag_room td (length tags) →
  let '(ids, td') := intern_each tags td in
  tag_dict_wf td' ∧ tag_extends td td' ∧ (length (td_keys td') ≤ length (td_keys td) + length tags)%nat ∧
  Forall2 (λ kv id, td_map td' !! canonical kv.1 kv.2 = Some id) tags ids.
Proof.
  revert td. induction tags as [|[k v] tags IH]; intros td Hw Hroom; simpl; [split_and!; [done..|lia|constructor]|].
  pose proof (tag_intern_spec k v td Hw) as Hi. destruct (tag_intern k v td) as [id td1].
  destruct Hi as (Hw1 & He1 & Hid & Hl1); [unfold tag_room in *; simpl in *; lia|].
  specialize (IH td1 Hw1). destruct (intern_each tags td1) as [ids td2].
  destruct IH as (Hw2 & He2 & Hl2 & Hall); [unfold tag_room in *; simpl in *; lia|].
  split_and!; [done|by etrans|lia|]. constructor; [|done]. simpl. by eapply lookup_weaken.
Qed.

(** The ids of an interned tag set: exactly the ids of its tags. *)
Lemma intern_tags_spec tags td :
  tag_dict_wf td → tag_room td (length tags) →
  let '(ids, td') := intern_tags tags td in
  tag_dict_wf td' ∧ tag_extends td td' ∧ StronglySorted rlt ids ∧ (length ids ≤ length tags)%nat ∧
  (length (td_keys td') ≤ length (td_keys td) + length tags)%nat ∧
  ∀ id, id ∈ ids ↔ ∃ kv, kv ∈ tags ∧ td_map td' !! canonical kv.1 kv.2 = Some id.
Proof.
  intros Hw Hroom. unfold intern_tags. destruct tags as [|kv tags].
  { split_and!; [done..|constructor|done|simpl; lia|]. intros id. split; [by intros ?%not_elem_of_nil|]. by intros (? & ?%not_elem_of_nil & _). }
  set (all := kv :: tags) in *. pose proof (intern_each_spec all td Hw Hroom) as Hs. destruct (intern_each all td) as [ids td'].
  destruct Hs as (Hw' & He & Hl & Hall). split_and!; [done|done|apply sort_dedup_sorted| |done|].
  - rewrite (Forall2_length _ _ _ Hall). apply length_sort_dedup.
  - intros id. rewrite elem_of_sort_dedup. split.
    + intros [i Hi]%list_elem_of_lookup_1. destruct (Forall2_lookup_r _ _ _ _ _ Hall Hi) as (kv' & Hkv & E).
      exists kv'. split; [by eapply list_elem_of_lookup_2|done].
    + intros (kv' & [i Hi]%list_elem_of_lookup_1 & E). destruct (Forall2_lookup_l _ _ _ _ _ Hall Hi) as (id' & Hid & E').
      rewrite E in E'. injection E' as ->. by eapply list_elem_of_lookup_2.
Qed.

(** ** Filters *)

(** The raw meaning of a request filter. *)
Definition raw_accepts (request : list (rstring * list rstring)) (tags : list (rstring * rstring)) : Prop :=
  ∀ key values, (key, values) ∈ request → ∃ v, v ∈ values ∧ (key, v) ∈ tags.

(** A key without the separator, so that the canonical string determines the pair. *)
Definition plain_key (key : rstring) : Prop := TAG_SEP ∉ key.

Lemma canonical_inj k v k' v' : plain_key k → plain_key k' → canonical k v = canonical k' v' → k = k' ∧ v = v'.
Proof.
  unfold canonical, plain_key. revert k'. induction k as [|c k IH]; intros [|c' k'] Hk Hk' E; simpl in *.
  - by simplify_eq.
  - injection E as E _. destruct Hk'. rewrite <-E. by left.
  - injection E as E _. destruct Hk. rewrite E. by left.
  - injection E as -> E. destruct (IH k') as [-> ->]; [set_solver..|done|done].
Qed.

Lemma synthetic_tag_high key value : SYNTHETIC_TAG_BASE ≤ synthetic_tag_id key value.
Proof. exact (proj1 (synthetic_id_range (canonical key value))). Qed.

(** An interned tag's id is what a later request resolves the tag to, and no
    request value other than that tag resolves to it. *)
Lemma resolve_interned td td' key value kv id :
  tag_dict_wf td' → tag_extends td td' → td_map td !! canonical kv.1 kv.2 = Some id →
  tag_get_or_synthetic td' key value = id ↔ canonical key value = canonical kv.1 kv.2.
Proof.
  intros Hw He Hid. apply (lookup_weaken _ _ _ _ Hid) in He. unfold tag_get_or_synthetic. split.
  - destruct (td_map td' !! canonical key value) as [id'|] eqn:E; [intros ->; by eapply tag_map_inj|].
    intros <-. apply (tag_id_dense _ _ _ Hw) in He. pose proof (synthetic_tag_high key value). lia.
  - intros ->. by rewrite He.
Qed.

(** The ids a tag dictionary gives to tags. *)
Definition tags_stored (td : TagDict) (tags : list (rstring * rstring)) (ids : list N) : Prop :=
  StronglySorted rlt ids ∧ (∀ kv, kv ∈ tags → is_Some (td_map td !! canonical kv.1 kv.2)) ∧
  ∀ id, id ∈ ids ↔ ∃ kv, kv ∈ tags ∧ td_map td !! canonical kv.1 kv.2 = Some id.

Lemma tags_stored_mono td td' tags ids : tag_extends td td' → tags_stored td tags ids → tags_stored td' tags ids.
Proof.
  intros Hext (Hs & Hin & Hids). split; [done|]. split.
  - intros kv Hkv. destruct (Hin kv Hkv) as [id Hid]. exists id. by eapply lookup_weaken.
  - intros id. rewrite Hids. split; intros (kv & Hkv & E); exists kv; (split; [done|]); [by eapply lookup_weaken|].
    destruct (Hin kv Hkv) as [id' Hid']. assert (td_map td' !! canonical kv.1 kv.2 = Some id') by by eapply lookup_weaken. congruence.
Qed.

Lemma intern_tags_stored tags td :
  tag_dict_wf td → tag_room td (length tags) →
  tag_dict_wf (intern_tags tags td).2 ∧ tag_extends td (intern_tags tags td).2 ∧ tags_stored (intern_tags tags td).2 tags (intern_tags tags td).1 ∧
  (length (intern_tags tags td).1 ≤ length tags)%nat.
Proof.
  intros Hw Hr. pose proof (intern_tags_spec tags td Hw Hr) as Hs. pose proof (intern_each_spec tags td Hw Hr) as Hs'.
  unfold intern_tags in *. destruct tags as [|kv tags].
  { simpl. split_and!; [done|done| |done]. split; [constructor|]. split; [by intros kv ?%not_elem_of_nil|].
    intros id. split; [by intros ?%not_elem_of_nil|]. by intros (? & ?%not_elem_of_nil & _). }
  destruct (intern_each (kv :: tags) td) as [ids td']. destruct Hs as (Hw' & He & Hsort & Hl & _ & Hids). destruct Hs' as (_ & _ & _ & Hall).
  cbn [fst snd]. split_and!; [done|done| |done]. split_and!; [done| |done].
  intros kv' [i Hi]%list_elem_of_lookup_1. destruct (Forall2_lookup_l _ _ _ _ _ Hall Hi) as (id & _ & E). by exists id.
Qed.

(** A filter compiled against the dictionary accepts what it says. *)
Lemma stored_filter td tags ids request :
  tag_dict_wf td → tags_stored td tags ids → Forall (λ kv, plain_key kv.1) tags → Forall (λ kv, plain_key kv.1) request →
  tag_matches (compile_tag_predicate td request) ids = true ↔ raw_accepts request tags.
Proof.
  intros Hw (Hsort & Hin & Hids) Hkeys Hreq. rewrite Forall_forall in Hkeys. rewrite Forall_forall in Hreq. unfold compile_tag_predicate.
  rewrite tag_matches_spec by (apply tag_new_wf || by apply strictly_sorted_sorted). rewrite tag_new_accept. unfold raw_accepts. split.
  - intros Ha key values Hkv. destruct (Ha (tag_get_or_synthetic td key <$> values)) as (t & (v & -> & Hv)%list_elem_of_fmap & (kv & Hkv' & Hid)%Hids).
    { apply list_elem_of_fmap. by exists (key, values). }
    exists v. split; [done|]. assert (canonical key v = canonical kv.1 kv.2) as Ec by exact (proj1 (resolve_interned td td key v kv _ Hw (reflexivity _) Hid) eq_refl).
    apply canonical_inj in Ec as [-> ->]; [by destruct kv|by apply (Hreq (key, values))|by apply Hkeys].
  - intros Ha g ([key values] & -> & Hkv)%list_elem_of_fmap. destruct (Ha key values Hkv) as (v & Hv & Hkv'). simpl.
    destruct (Hin _ Hkv') as [id Hid]. exists id. split; [|apply Hids; by exists (key, v)]. apply list_elem_of_fmap. exists v. split; [|done].
    symmetry. by apply (resolve_interned td td key v (key, v) id).
Qed.

(** C22. A tag filter means what it says.  A query's tags are interned when it is
    stored; a request filter is compiled later, against the dictionary as it has
    grown since.  For tag keys without the separator byte the compiled filter
    accepts the stored ids exactly when for every key of the request one of its
    values is among the query's tags: a filter never loses a query it should
    pass, and an unknown value, hashed to a synthetic id, never lets one through. *)
Theorem tag_filter_exact td tags ids td1 td2 request :
  tag_dict_wf td → tag_room td (length tags) → intern_tags tags td = (ids, td1) →
  tag_dict_wf td2 → tag_extends td1 td2 →
  Forall (λ kv, plain_key kv.1) tags → Forall (λ kv, plain_key kv.1) request →
  tag_matches (compile_tag_predicate td2 request) ids = true ↔ raw_accepts request tags.
Proof.
  intros Hw Hroom E Hw2 He2 Hkeys Hreq. destruct (intern_tags_stored tags td Hw Hroom) as (_ & _ & Hst & _). rewrite E in Hst.
  apply stored_filter; [done| |done|done]. by eapply tags_stored_mono.
Qed.

(** Two tags whose keys differ can share a synthetic id: the hash keeps 31
    bits, so the keys [k17070] and [k93228] with the value [a] collide. *)
Theorem synthetic_tag_collision :
  str "k17070" ≠ str "k93228" ∧ synthetic_tag_id (str "k17070") (str "a") = synthetic_tag_id (str "k93228") (str "a").
Proof. split; [discriminate|]. by vm_compute. Qed.

Definition demo_tags : list (rstring * rstring) := [(str "category", str "lens"); (str "status", str "active")].
Definition demo_tag_dict : TagDict := (intern_tags demo_tags tag_dict_new).2.

Lemma tag_filter_exact_witness :
  tag_matches (compile_tag_predicate demo_tag_dict [(str "status", [str "active"; str "paused"])]) (intern_tags demo_tags tag_dict_new).1 = true ↔
    raw_accepts [(str "status", [str "active"; str "paused"])] demo_tags.
Proof.
  apply (tag_filter_exact tag_dict_new demo_tags (intern_tags demo_tags tag_dict_new).1 demo_tag_dict demo_tag_dict).
  - apply tag_dict_new_wf.
  - by vm_compute.
  - by vm_compute.
  - pose proof (intern_tags_spec demo_tags tag_dict_new tag_dict_new_wf ltac:(by vm_compute)) as Hs.
    destruct (intern_tags demo_tags tag_dict_new) as [ids td] eqn:E. unfold demo_tag_dict. rewrite E. apply Hs.
  - done.
  - apply (bool_decide_unpack _). by vm_compute.
  - apply (bool_decide_unpack _). by vm_compute.
Defined.
