(* ===== verification/Store.v ===== *)
(** * The exact store ([engine/src/exact/store.rs] and its submodules)

    The struct-of-arrays store of compiled queries: fixed-width columns indexed
    by the segment-local query id, and variable-length columns cut out of flat
    blobs by offset and length.  Building ([push..], [push_raw..], [copy_entry]),
    scalar verification, canonical-body comparison, pure-anchor tests and the
    inputs of re-anchoring.

    A [Row] is what one id means.  [store_holds st rows] relates a store to its
    rows; every builder appends one row and keeps the others, and every reader
    is a function of the row it reads. *)

From S2P Require Import Prelude Util Dictionary Phrase Compile View Predicate Ownership.

Record ExactStore := mkExactStore {
  req_mask : list N;
  forb_mask : list N;
  req_off : list N;
  req_len : list N;
  req_blob : list N;
  forb_off : list N;
  forb_len : list N;
  forb_blob : list N;
  q_group_start : list N;
  q_group_count : list N;
  group_off : list N;
  group_len : list N;
  anyof_blob : list N;
  predicate_off : list N;
  predicate_len : list N;
  predicate_blob : list N;
  has_phrase_predicates : bool;
  tag_off : list N;
  tag_len : list N;
  tag_blob : list N;
  priority : list Z;
  placement_generation : list N;
  placement_num_shards : list N;
  placement_mode : list N;
  placement_off : list N;
  placement_len : list N;
  placement_blob : list N;
  source_generation : list N;
  xs_version : list N;
  xs_logical : list N;
}.

Definition store_new : ExactStore :=
  mkExactStore [] [] [] [] [] [] [] [] [] [] [] [] [] [] [] [] false [] [] [] [] [] [] [] [] [] [] [] [] [].

Definition store_len (st : ExactStore) : nat := length (req_mask st).

(** [1u64 << b]: the shift amount is taken modulo the width. *)
Definition bit64 (b : N) : N := N.shiftl 1 (b mod 64).

(** The loop over the required (or forbidden) features: masked features go to
    the mask word, the others to the tail. *)
Definition split_mask (dict : Dict) (features : list N) (blob : list N) : N * list N * N :=
  foldl (λ '(mask, blob, len) f,
    let b := mask_bit dict f in
    if b =? NO_MASK_BIT then (mask, blob ++ [f], wrap16 (len + 1))
    else (N.lor mask (bit64 b), blob, len)) (0, blob, 0) features.

(** The loop over the any-of groups. *)
Definition push_groups (groups_ : list (list N)) (goff glen blob : list N) : list N * list N * list N :=
  foldl (λ '(goff, glen, blob) group,
    (goff ++ [as_u32 (length blob)], glen ++ [as_u16 (length group)], blob ++ group)) (goff, glen, blob) groups_.

(** The identity columns: version, logical id, priority, placement, source
    generation. *)
Definition push_placement (p : QueryPlacement) (st : ExactStore) : ExactStore :=
  mkExactStore (req_mask st) (forb_mask st) (req_off st) (req_len st) (req_blob st) (forb_off st) (forb_len st)
    (forb_blob st) (q_group_start st) (q_group_count st) (group_off st) (group_len st) (anyof_blob st)
    (predicate_off st) (predicate_len st) (predicate_blob st) (has_phrase_predicates st)
    (tag_off st) (tag_len st) (tag_blob st) (priority st)
    (placement_generation st ++ [pl_generation p]) (placement_num_shards st ++ [pl_num_shards p])
    (placement_mode st ++ [mode_byte (pl_mode p)])
    (placement_off st ++ [as_u32 (length (placement_blob st))])
    (placement_len st ++ [as_u32 (length (pl_positions p))])
    (placement_blob st ++ pl_positions p)
    (source_generation st) (xs_version st) (xs_logical st).

(** [push_ranked_with_placement_and_source_generation]: the id and the store. *)
Definition push_ranked (ex : Extracted) (tags : list N) (dict : Dict) (version logical : N) (rank : Z)
  (placement : QueryPlacement) (source : N) (st : ExactStore) : N * ExactStore :=
  let id := as_u32 (length (req_mask st)) in
  let r_off := as_u32 (length (req_blob st)) in
  let '(rmask, rblob, r_len) := split_mask dict (required ex) (req_blob st) in
  let f_off := as_u32 (length (forb_blob st)) in
  let '(fmask, fblob, f_len) := split_mask dict (forbidden ex) (forb_blob st) in
  let g_start := as_u32 (length (group_off st)) in
  let g_count := as_u16 (length (anyof ex)) in
  let '(goff, glen, gblob) := push_groups (anyof ex) (group_off st) (group_len st) (anyof_blob st) in
  let '((p_off, p_len), pblob) := encode_predicate ex (predicate_blob st) in
  let has_phrases := has_phrase_predicates st || (nonempty (required_phrases ex) || nonempty (forbidden_phrases ex)) in
  let st := mkExactStore (req_mask st ++ [rmask]) (forb_mask st ++ [fmask])
    (req_off st ++ [r_off]) (req_len st ++ [r_len]) rblob (forb_off st ++ [f_off]) (forb_len st ++ [f_len]) fblob
    (q_group_start st ++ [g_start]) (q_group_count st ++ [g_count]) goff glen gblob
    (predicate_off st ++ [p_off]) (predicate_len st ++ [p_len]) pblob has_phrases
    (tag_off st ++ [as_u32 (length (tag_blob st))]) (tag_len st ++ [as_u16 (length tags)]) (tag_blob st ++ tags)
    (priority st ++ [rank])
    (placement_generation st) (placement_num_shards st) (placement_mode st)
    (placement_off st) (placement_len st) (placement_blob st)
    (source_generation st) (xs_version st ++ [version]) (xs_logical st ++ [logical]) in
  let st := push_placement placement st in
  (id, mkExactStore (req_mask st) (forb_mask st) (req_off st) (req_len st) (req_blob st) (forb_off st) (forb_len st)
    (forb_blob st) (q_group_start st) (q_group_count st) (group_off st) (group_len st) (anyof_blob st)
    (predicate_off st) (predicate_len st) (predicate_blob st) (has_phrase_predicates st)
    (tag_off st) (tag_len st) (tag_blob st) (priority st) (placement_generation st) (placement_num_shards st)
    (placement_mode st) (placement_off st) (placement_len st) (placement_blob st)
    (source_generation st ++ [source]) (xs_version st) (xs_logical st)).

(** [push] and the narrower entry points. *)
Definition store_push (ex : Extracted) (tags : list N) (dict : Dict) (version logical : N) (st : ExactStore) :
  N * ExactStore := push_ranked ex tags dict version logical 0%Z placement_standalone 0 st.

(** ** Reading *)

(** One entry of a variable-length column. *)
Definition col_read {A} (off len : list N) (blob : list A) (i : nat) : option (list A) :=
  o ← off !! i; l ← len !! i; slice blob (usize o) (usize l).

(** [for gi in gs..gs + gc]: the groups of a row. *)
Fixpoint read_groups (goff glen blob : list N) (gi n : nat) : option (list (list N)) :=
  match n with
  | O => Some []
  | S n' => g ← col_read goff glen blob gi; rest ← read_groups goff glen blob (S gi) n'; Some (g :: rest)
  end.

(** The same loop returning at the first group without a hit. *)
Fixpoint groups_hit (hit : N → bool) (goff glen blob : list N) (gi n : nat) : option bool :=
  match n with
  | O => Some true
  | S n' =>
      g ← col_read goff glen blob gi;
      if existsb hit g then groups_hit hit goff glen blob (S gi) n' else Some false
  end.

Definition verify (st : ExactStore) (id : N) (view : TitleView) (pred : TagPredicate) : option bool :=
  let i := usize id in
  rm ← req_mask st !! i;
  if negb (N.land rm (pos_mask view) =? rm) then Some false else
  fm ← forb_mask st !! i;
  if negb (N.land fm (neg_mask view) =? 0) then Some false else
  req ← col_read (req_off st) (req_len st) (req_blob st) i;
  if negb (forallb (λ f, bsearch_mem f (pos view)) req) then Some false else
  forb ← col_read (forb_off st) (forb_len st) (forb_blob st) i;
  if existsb (λ f, bsearch_mem f (neg view)) forb then Some false else
  gs ← q_group_start st !! i;
  gc ← q_group_count st !! i;
  hit ← groups_hit (λ f, bsearch_mem f (pos view)) (group_off st) (group_len st) (anyof_blob st) (usize gs) (usize gc);
  if negb hit then Some false else
  po ← predicate_off st !! i;
  pl ← predicate_len st !! i;
  ok ← (if pl =? 0 then Some true
        else words ← slice (predicate_blob st) (usize po) (usize pl); verify_predicate words view);
  if negb ok then Some false else
  if tag_is_empty pred then Some true
  else query_passes_tags i pred (tag_off st) (tag_len st) (tag_blob st).

Definition row_has_phrase_predicates (st : ExactStore) (id : N) : option bool :=
  words ← col_read (predicate_off st) (predicate_len st) (predicate_blob st) (usize id);
  Some (predicate_has_phrases words).

Definition tags_of (st : ExactStore) (id : N) : option (list N) :=
  col_read (tag_off st) (tag_len st) (tag_blob st) (usize id).

(** [placement]: any mode byte but 1, 2, 3 reads as standalone. *)
Definition placement_of (st : ExactStore) (id : N) : option QueryPlacement :=
  let i := usize id in
  ps ← col_read (placement_off st) (placement_len st) (placement_blob st) i;
  g ← placement_generation st !! i;
  n ← placement_num_shards st !! i;
  m ← placement_mode st !! i;
  Some (mkQueryPlacement g n
    (if m =? 1 then Selective else if m =? 2 then ReplicatedAlwaysVisible
     else if m =? 3 then ReplicatedBroad else Standalone) ps).

(** ** Ranking features *)

Record RankQueryFeatures := mkRankQueryFeatures {
  positive_terms : N;
  negative_terms : N;
  any_of_groups : N;
  tag_count : N;
}.

(** [u64::count_ones]. *)
Fixpoint pos_ones (p : positive) : N :=
  match p with xH => 1 | xO p => pos_ones p | xI p => 1 + pos_ones p end.
Definition count_ones (n : N) : N := match n with N0 => 0 | Npos p => pos_ones p end.

Definition rank_query_features (st : ExactStore) (id : N) : option RankQueryFeatures :=
  let i := usize id in
  words ← col_read (predicate_off st) (predicate_len st) (predicate_blob st) i;
  proxy ← q_group_count st !! i;
  c ← predicate_rank_term_counts words proxy;
  let '(predicate_positive, predicate_negative, semantic_groups) := c in
  rm ← req_mask st !! i;
  rl ← req_len st !! i;
  fm ← forb_mask st !! i;
  fl ← forb_len st !! i;
  tl ← tag_len st !! i;
  Some (mkRankQueryFeatures (sat_add 32 (sat_add 32 (count_ones rm) rl) predicate_positive)
    (sat_add 32 (sat_add 32 (count_ones fm) fl) predicate_negative) semantic_groups tl).

(** ** Pure anchors and canonical bodies ([store/semantics.rs]) *)

(** [u64::is_power_of_two]. *)
Definition is_power_of_two (n : N) : bool := count_ones n =? 1.

Definition is_pure_anchor (st : ExactStore) (local : N) : option bool :=
  let i := usize local in
  rl ← req_len st !! i;
  if negb (rl =? 0) then Some false else
  fm ← forb_mask st !! i;
  if negb (fm =? 0) then Some false else
  fl ← forb_len st !! i;
  if negb (fl =? 0) then Some false else
  gc ← q_group_count st !! i;
  if negb (gc =? 0) then Some false else
  pl ← predicate_len st !! i;
  if negb (pl =? 0) then Some false else
  rm ← req_mask st !! i;
  Some (is_power_of_two rm).

Definition pure_tail_anchor (st : ExactStore) (local anchor : N) : option bool :=
  let i := usize local in
  rm ← req_mask st !! i;
  if negb (rm =? 0) then Some false else
  rl ← req_len st !! i;
  if negb (rl =? 1) then Some false else
  fm ← forb_mask st !! i;
  if negb (fm =? 0) then Some false else
  fl ← forb_len st !! i;
  if negb (fl =? 0) then Some false else
  gc ← q_group_count st !! i;
  if negb (gc =? 0) then Some false else
  pl ← predicate_len st !! i;
  if negb (pl =? 0) then Some false else
  ro ← req_off st !! i;
  f ← req_blob st !! usize ro;
  Some (f =? anchor).

Definition canonical_groups (st : ExactStore) (i : nat) : option (list (list N)) :=
  gs ← q_group_start st !! i;
  gc ← q_group_count st !! i;
  groups_ ← read_groups (group_off st) (group_len st) (anyof_blob st) (usize gs) (usize gc);
  Some (sort_unstable (sort_unstable <$> groups_)).

Definition boolean_of (st : ExactStore) (i : nat) : option (N * list N) :=
  words ← col_read (predicate_off st) (predicate_len st) (predicate_blob st) i;
  predicate_boolean_program words.

Definition sorted_col (off len blob : list N) (i : nat) : option (list N) :=
  s ← col_read off len blob i; Some (sort_unstable s).

Definition bodies_equal (st : ExactStore) (a b : N) : option bool :=
  let ia := usize a in let ib := usize b in
  rma ← req_mask st !! ia; rmb ← req_mask st !! ib;
  if negb (rma =? rmb) then Some false else
  fma ← forb_mask st !! ia; fmb ← forb_mask st !! ib;
  if negb (fma =? fmb) then Some false else
  rla ← req_len st !! ia; rlb ← req_len st !! ib;
  if negb (rla =? rlb) then Some false else
  fla ← forb_len st !! ia; flb ← forb_len st !! ib;
  if negb (fla =? flb) then Some false else
  gca ← q_group_count st !! ia; gcb ← q_group_count st !! ib;
  if negb (gca =? gcb) then Some false else
  ra ← sorted_col (req_off st) (req_len st) (req_blob st) ia;
  rb ← sorted_col (req_off st) (req_len st) (req_blob st) ib;
  if negb (bool_decide (ra = rb)) then Some false else
  fa ← sorted_col (forb_off st) (forb_len st) (forb_blob st) ia;
  fb ← sorted_col (forb_off st) (forb_len st) (forb_blob st) ib;
  if negb (bool_decide (fa = fb)) then Some false else
  ga ← canonical_groups st ia;
  gb ← canonical_groups st ib;
  if negb (bool_decide (ga = gb)) then Some false else
  pa ← boolean_of st ia;
  pb ← boolean_of st ib;
  Some (bool_decide (pa = pb)).

(** [h = (h ^ b).wrapping_mul(0x0000_0100_0000_01B3)] over the eight bytes. *)
Definition body_mix (h v : N) : N :=
  foldl (λ h b, wrap64 (N.lxor h b * 1099511628211)) h (le64 v).

Definition body_signature (st : ExactStore) (local : N) : option N :=
  let i := usize local in
  let h := fnv1a64 [98; 111; 100; 121] in
  rm ← req_mask st !! i;
  let h := body_mix h rm in
  fm ← forb_mask st !! i;
  let h := body_mix h fm in
  req ← sorted_col (req_off st) (req_len st) (req_blob st) i;
  let h := foldl body_mix (body_mix h 161) req in
  forb ← sorted_col (forb_off st) (forb_len st) (forb_blob st) i;
  let h := foldl body_mix (body_mix h 162) forb in
  groups_ ← canonical_groups st i;
  let h := foldl (λ h g, foldl body_mix (body_mix h 164) g) (body_mix h 163) groups_ in
  let h := body_mix h 165 in
  p ← boolean_of st i;
  Some (foldl body_mix (body_mix h p.1) p.2).

(** ** Copying and rebuilding rows *)

(** [push_raw_placed_with_source_generation_and_predicate], the groups already
    read from the source columns. *)
Definition push_row (rmask fmask : N) (req_tail forb_tail : list N) (groups_ : list (list N)) (words tags : list N)
  (version logical : N) (prio : Z) (placement : QueryPlacement) (source : N) (st : ExactStore) : N * ExactStore :=
  let id := as_u32 (length (req_mask st)) in
  let '(goff, glen, gblob) := push_groups groups_ (group_off st) (group_len st) (anyof_blob st) in
  let st' := mkExactStore (req_mask st ++ [rmask]) (forb_mask st ++ [fmask])
    (req_off st ++ [as_u32 (length (req_blob st))]) (req_len st ++ [as_u16 (length req_tail)]) (req_blob st ++ req_tail)
    (forb_off st ++ [as_u32 (length (forb_blob st))]) (forb_len st ++ [as_u16 (length forb_tail)]) (forb_blob st ++ forb_tail)
    (q_group_start st ++ [as_u32 (length (group_off st))]) (q_group_count st ++ [as_u16 (length groups_)]) goff glen gblob
    (predicate_off st ++ [as_u32 (length (predicate_blob st))]) (predicate_len st ++ [as_u32 (length words)])
    (predicate_blob st ++ words) (has_phrase_predicates st || predicate_has_phrases words)
    (tag_off st ++ [as_u32 (length (tag_blob st))]) (tag_len st ++ [as_u16 (length tags)]) (tag_blob st ++ tags)
    (priority st ++ [prio]) (placement_generation st) (placement_num_shards st) (placement_mode st)
    (placement_off st) (placement_len st) (placement_blob st)
    (source_generation st ++ [source]) (xs_version st ++ [version]) (xs_logical st ++ [logical]) in
  (id, push_placement placement st').

Definition push_raw (rmask fmask : N) (req_tail forb_tail : list N) (gs gc : nat) (goff glen gblob : list N)
  (words tags : list N) (version logical : N) (prio : Z) (placement : QueryPlacement) (source : N) (st : ExactStore) :
  option (N * ExactStore) :=
  groups_ ← read_groups goff glen gblob gs gc;
  Some (push_row rmask fmask req_tail forb_tail groups_ words tags version logical prio placement source st).

Definition copy_entry (src : ExactStore) (id : N) (dest : ExactStore) : option (N * ExactStore) :=
  let i := usize id in
  rm ← req_mask src !! i;
  fm ← forb_mask src !! i;
  req ← col_read (req_off src) (req_len src) (req_blob src) i;
  forb ← col_read (forb_off src) (forb_len src) (forb_blob src) i;
  gs ← q_group_start src !! i;
  gc ← q_group_count src !! i;
  groups_ ← read_groups (group_off src) (group_len src) (anyof_blob src) (usize gs) (usize gc);
  words ← col_read (predicate_off src) (predicate_len src) (predicate_blob src) i;
  tags ← col_read (tag_off src) (tag_len src) (tag_blob src) i;
  ver ← xs_version src !! i;
  log ← xs_logical src !! i;
  prio ← priority src !! i;
  pl ← placement_of src id;
  sg ← source_generation src !! i;
  Some (push_row rm fm req forb groups_ words tags ver log prio pl sg dest).

(** [u64::trailing_zeros]. *)
Fixpoint pos_trailing_zeros (p : positive) : N :=
  match p with xO p => 1 + pos_trailing_zeros p | _ => 0 end.
Definition trailing_zeros (n : N) : N := match n with N0 => 64 | Npos p => pos_trailing_zeros p end.

(** [while bits != 0 { b = bits.trailing_zeros(); ..; bits &= bits - 1 }]. *)
Fixpoint unmask (fuel : nat) (bits : N) (inverse : list (option N)) : option (list N) :=
  match fuel with
  | O => None
  | S fuel' =>
      if bits =? 0 then Some []
      else
        o ← inverse !! usize (trailing_zeros bits);
        rest ← unmask fuel' (N.land bits (bits - 1)) inverse;
        Some (match o with Some f => f :: rest | None => rest end)
  end.

(** A word has at most 64 set bits, each turn clears one. *)
Definition unmask_fuel : nat := 65.

Definition anchoring_inputs (st : ExactStore) (id : N) (inverse : list (option N)) : option (list N * list (list N)) :=
  let i := usize id in
  rm ← req_mask st !! i;
  masked ← unmask unmask_fuel rm inverse;
  tail ← col_read (req_off st) (req_len st) (req_blob st) i;
  gs ← q_group_start st !! i;
  gc ← q_group_count st !! i;
  groups_ ← read_groups (group_off st) (group_len st) (anyof_blob st) (usize gs) (usize gc);
  Some (masked ++ tail, groups_).

(** ** Rows *)

Record Row := mkRow {
  r_rmask : N;
  r_fmask : N;
  r_req : list N;
  r_forb : list N;
  r_groups : list (list N);
  r_words : list N;
  r_tags : list N;
  r_version : N;
  r_logical : N;
  r_priority : Z;
  r_placement : QueryPlacement;
  r_source : N;
}.

(** The entries of a variable-length column. *)
Definition column {A} (rows : list (list A)) (off len : list N) (blob : list A) : Prop :=
  length off = length rows ∧ length len = length rows ∧ ∀ i r, rows !! i = Some r → col_read off len blob i = Some r.

Record store_holds (st : ExactStore) (rows : list Row) : Prop := {
  h_rmask : req_mask st = r_rmask <$> rows;
  h_fmask : forb_mask st = r_fmask <$> rows;
  h_req : column (r_req <$> rows) (req_off st) (req_len st) (req_blob st);
  h_forb : column (r_forb <$> rows) (forb_off st) (forb_len st) (forb_blob st);
  h_table : column (rows ≫= r_groups) (group_off st) (group_len st) (anyof_blob st);
  h_groups : column (r_groups <$> rows) (q_group_start st) (q_group_count st) (rows ≫= r_groups);
  h_words : column (r_words <$> rows) (predicate_off st) (predicate_len st) (predicate_blob st);
  h_phrases : has_phrase_predicates st = existsb (λ r, predicate_has_phrases (r_words r)) rows;
  h_tags : column (r_tags <$> rows) (tag_off st) (tag_len st) (tag_blob st);
  h_priority : priority st = r_priority <$> rows;
  h_generation : placement_generation st = (λ r, pl_generation (r_placement r)) <$> rows;
  h_shards : placement_num_shards st = (λ r, pl_num_shards (r_placement r)) <$> rows;
  h_mode : placement_mode st = (λ r, mode_byte (pl_mode (r_placement r))) <$> rows;
  h_positions : column ((λ r, pl_positions (r_placement r)) <$> rows)
    (placement_off st) (placement_len st) (placement_blob st);
  h_source : source_generation st = r_source <$> rows;
  h_version : xs_version st = r_version <$> rows;
  h_logical : xs_logical st = r_logical <$> rows;
}.

(** The counts of a row fit the widths they are stored at. *)
Record row_fits (r : Row) : Prop := {
  rf_req : nlen (r_req r) ≤ U16_MAX;
  rf_forb : nlen (r_forb r) ≤ U16_MAX;
  rf_groups : nlen (r_groups r) ≤ U16_MAX;
  rf_group : Forall (λ g, nlen g ≤ U16_MAX) (r_groups r);
  rf_words : nlen (r_words r) ≤ U32_MAX;
  rf_tags : nlen (r_tags r) ≤ U16_MAX;
  rf_positions : nlen (pl_positions (r_placement r)) ≤ U32_MAX;
}.

(** The blobs have room for 32-bit offsets after the row is appended. *)
Record store_room (st : ExactStore) (r : Row) : Prop := {
  rm_req : nlen (req_blob st) ≤ U32_MAX;
  rm_forb : nlen (forb_blob st) ≤ U32_MAX;
  rm_table : nlen (group_off st) ≤ U32_MAX;
  rm_anyof : nlen (anyof_blob st) + sum_N nlen (r_groups r) ≤ U32_MAX;
  rm_words : nlen (predicate_blob st) + nlen (r_words r) ≤ U32_MAX;
  rm_tags : nlen (tag_blob st) ≤ U32_MAX;
  rm_positions : nlen (placement_blob st) ≤ U32_MAX;
}.

Lemma as_u16_len {A} (l : list A) : nlen l ≤ U16_MAX → as_u16 (length l) = nlen l.
Proof. unfold nlen, U16_MAX. intros. apply as_u16_small. change (2 ^ 16) with 65536. lia. Qed.

Lemma column_nil {A} : column (A:=A) [] [] [] [].
Proof. split_and!; [done..|]. intros i r. by rewrite lookup_nil. Qed.

(** Appending one entry. *)
Lemma column_push {A} (rows : list (list A)) off len blob r :
  column rows off len blob → nlen blob ≤ U32_MAX →
  column (rows ++ [r]) (off ++ [as_u32 (length blob)]) (len ++ [nlen r]) (blob ++ r).
Proof.
  intros (Ho & Hl & Hr) Hb. split_and!; [rewrite !length_app; simpl; lia..|]. intros i x Hx.
  unfold col_read in *. apply lookup_app_Some in Hx as [Hx|[Hge Hx]].
  - specialize (Hr i x Hx). pose proof (lookup_lt_Some _ _ _ Hx).
    rewrite !lookup_app_l by lia. destruct (off !! i); [|done]. destruct (len !! i); [|done].
    simpl in *. by apply slice_app_grow.
  - apply list_lookup_singleton_Some in Hx as [Hi ->].
    rewrite !lookup_app_r by lia. replace (i - length off)%nat with 0%nat by lia.
    replace (i - length len)%nat with 0%nat by lia. simpl.
    rewrite as_u32_len by done. unfold nlen. rewrite !Nat2N.id. apply slice_suffix.
Qed.

Lemma column_lookup {A} (rows : list (list A)) off len blob i r :
  column rows off len blob → rows !! i = Some r → col_read off len blob i = Some r.
Proof. intros (_ & _ & H). apply H. Qed.

Lemma column_len {A} (rows : list (list A)) off len blob i r :
  column rows off len blob → rows !! i = Some r → len !! i = Some (nlen r).
Proof.
  intros (_ & _ & H) Hr. specialize (H i r Hr). unfold col_read in H.
  destruct (off !! i) as [o|]; [|done]. destruct (len !! i) as [l|]; [|done]. simpl in H.
  apply slice_length in H. unfold nlen. rewrite H, N2Nat.id. done.
Qed.

Lemma push_groups_column groups_ table goff glen blob :
  column table goff glen blob → nlen blob + sum_N nlen groups_ ≤ U32_MAX →
  Forall (λ g, nlen g ≤ U16_MAX) groups_ →
  let '(goff', glen', blob') := push_groups groups_ goff glen blob in
  column (table ++ groups_) goff' glen' blob'.
Proof.
  unfold push_groups. revert table goff glen blob. induction groups_ as [|g gs IH]; intros table goff glen blob Hc Hb Hf;
    [by rewrite app_nil_r|]. apply Forall_cons in Hf as [Hg Hf]. cbn [foldl]. simpl in Hb.
  rewrite as_u16_len by done. rewrite (cons_middle g table gs), app_assoc. apply IH; [|unfold nlen in *; rewrite length_app; lia|done].
  apply column_push; [done|]. lia.
Qed.

Lemma read_groups_column table goff glen blob gi n gs :
  column table goff glen blob → slice table gi n = Some gs → read_groups goff glen blob gi n = Some gs.
Proof.
  intros Hc. revert gi gs. induction n as [|n IH]; intros gi gs Hs; cbn [read_groups].
  { unfold slice in Hs. case_decide; [|done]. by injection Hs as <-. }
  unfold slice in Hs. case_decide as Hle; [|done]. injection Hs as <-.
  destruct (lookup_lt_is_Some_2 table gi) as [g Hg]; [lia|].
  rewrite (column_lookup _ _ _ _ _ _ Hc Hg). simpl mbind.
  rewrite (IH (S gi) (take n (drop (S gi) table))).
  - simpl. by rewrite (drop_S _ _ _ Hg).
  - unfold slice. rewrite decide_True by lia. done.
Qed.

Lemma groups_hit_read hit goff glen blob gi n gs :
  read_groups goff glen blob gi n = Some gs → groups_hit hit goff glen blob gi n = Some (forallb (existsb hit) gs).
Proof.
  revert gi gs. induction n as [|n IH]; intros gi gs; cbn [read_groups groups_hit]; [by intros [= <-]|].
  destruct (col_read goff glen blob gi) as [g|]; simpl mbind; [|done].
  destruct (read_groups goff glen blob (S gi) n) as [rest|] eqn:E; simpl mbind; [|done]. intros [= <-].
  cbn [forallb]. destruct (existsb hit g); [|done]. by apply IH.
Qed.

(** Appending a row. *)
Lemma push_row_holds st rows r :
  store_holds st rows → row_fits r → store_room st r →
  let res := push_row (r_rmask r) (r_fmask r) (r_req r) (r_forb r) (r_groups r) (r_words r) (r_tags r)
               (r_version r) (r_logical r) (r_priority r) (r_placement r) (r_source r) st in
  store_holds res.2 (rows ++ [r]) ∧ res.1 = as_u32 (length rows).
Proof.
  intros [] [] []. unfold push_row.
  pose proof (push_groups_column (r_groups r) _ _ _ _ h_table0 rm_anyof0 rf_group0) as Hg.
  destruct (push_groups _ _ _ _) as [[goff glen] gblob]. cbv zeta. cbn [fst snd].
  rewrite h_rmask0, length_fmap. split; [|done].
  assert (length (group_off st) = length (rows ≫= r_groups)) as Hlen by by destruct h_table0.
  split; unfold push_placement; cbn [req_mask forb_mask req_off req_len req_blob forb_off forb_len forb_blob q_group_start
    q_group_count group_off group_len anyof_blob predicate_off predicate_len predicate_blob has_phrase_predicates
    tag_off tag_len tag_blob priority placement_generation placement_num_shards placement_mode placement_off
    placement_len placement_blob source_generation xs_version xs_logical]; rewrite ?fmap_app, ?bind_app;
    cbn [fmap list_fmap]; try (by f_equal); try (rewrite as_u16_len by done; by apply column_push);
    try (rewrite (as_u32_len (r_words r)) by done; apply column_push; [done|lia]).
  - by rewrite bind_singleton.
  - rewrite as_u16_len by done. rewrite Hlen, bind_singleton. apply column_push; [done|]. unfold nlen in *. lia.
  - rewrite existsb_app. cbn [existsb]. by rewrite orb_false_r, h_phrases0.
  - rewrite (as_u32_len (pl_positions (r_placement r))) by done. by apply column_push.
Qed.

Lemma store_new_holds : store_holds store_new [].
Proof. split; try done; apply column_nil. Qed.

(** *** Sizes

    How much of each column a row takes; a store built by pushes has no slack. *)
Inductive Blob := BRows | BReq | BForb | BTable | BAnyof | BWords | BTags | BPositions.

Definition row_size (b : Blob) (r : Row) : N :=
  match b with
  | BRows => 1
  | BReq => nlen (r_req r)
  | BForb => nlen (r_forb r)
  | BTable => nlen (r_groups r)
  | BAnyof => sum_N nlen (r_groups r)
  | BWords => nlen (r_words r)
  | BTags => nlen (r_tags r)
  | BPositions => nlen (pl_positions (r_placement r))
  end.

Definition store_size (b : Blob) (st : ExactStore) : N :=
  match b with
  | BRows => nlen (req_mask st)
  | BReq => nlen (req_blob st)
  | BForb => nlen (forb_blob st)
  | BTable => nlen (group_off st)
  | BAnyof => nlen (anyof_blob st)
  | BWords => nlen (predicate_blob st)
  | BTags => nlen (tag_blob st)
  | BPositions => nlen (placement_blob st)
  end.

Definition store_packed (st : ExactStore) (rows : list Row) : Prop := ∀ b, store_size b st = sum_N (row_size b) rows.

Lemma sum_N_app {A} (f : A → N) l k : sum_N f (l ++ k) = sum_N f l + sum_N f k.
Proof. induction l as [|x l IH]; simpl; [done|]. rewrite IH. lia. Qed.

Lemma push_groups_sizes groups_ goff glen blob :
  let '(goff', _, blob') := push_groups groups_ goff glen blob in
  nlen goff' = nlen goff + nlen groups_ ∧ nlen blob' = nlen blob + sum_N nlen groups_.
Proof.
  unfold push_groups. revert goff glen blob. induction groups_ as [|g gs IH]; intros goff glen blob.
  { unfold nlen. simpl. lia. }
  cbn [foldl]. specialize (IH (goff ++ [as_u32 (length blob)]) (glen ++ [as_u16 (length g)]) (blob ++ g)).
  destruct (foldl _ _ gs) as [[goff' glen'] blob']. unfold nlen in *. rewrite !length_app in IH. simpl in *. lia.
Qed.

Lemma push_row_packed st rows r :
  store_packed st rows →
  store_packed (push_row (r_rmask r) (r_fmask r) (r_req r) (r_forb r) (r_groups r) (r_words r) (r_tags r)
    (r_version r) (r_logical r) (r_priority r) (r_placement r) (r_source r) st).2 (rows ++ [r]).
Proof.
  intros Hp b. specialize (Hp b). rewrite sum_N_app. unfold push_row.
  pose proof (push_groups_sizes (r_groups r) (group_off st) (group_len st) (anyof_blob st)) as Hg.
  destruct (push_groups _ _ _ _) as [[goff glen] gblob]. destruct b; simpl in *; unfold nlen in *; rewrite ?length_app; simpl; lia.
Qed.

Lemma packed_room st rows r :
  store_packed st rows → (∀ b, sum_N (row_size b) (rows ++ [r]) ≤ U32_MAX) → store_room st r.
Proof.
  intros Hp Hs. assert (∀ b, store_size b st + row_size b r ≤ U32_MAX) as Hb.
  { intros b. specialize (Hs b). rewrite sum_N_app in Hs. rewrite Hp. simpl in Hs. lia. }
  pose proof (Hb BReq). pose proof (Hb BForb). pose proof (Hb BTable). pose proof (Hb BAnyof). pose proof (Hb BWords).
  pose proof (Hb BTags). pose proof (Hb BPositions). split; simpl in *; lia.
Qed.

(** ** The row of a compiled query *)

Definition mask_of (dict : Dict) (features : list N) : N :=
  foldl (λ mask f, if mask_bit dict f =? NO_MASK_BIT then mask else N.lor mask (bit64 (mask_bit dict f))) 0 features.
Definition tail_of (dict : Dict) (features : list N) : list N :=
  List.filter (λ f, mask_bit dict f =? NO_MASK_BIT) features.

Definition stored_words (ex : Extracted) : list N :=
  if predicate_trivial ex then [] else print_program (program_of ex).

Definition row_of (ex : Extracted) (tags : list N) (dict : Dict) (version logical : N) (rank : Z)
  (placement : QueryPlacement) (source : N) : Row :=
  mkRow (mask_of dict (required ex)) (mask_of dict (forbidden ex)) (tail_of dict (required ex))
    (tail_of dict (forbidden ex)) (anyof ex) (stored_words ex) tags version logical rank placement source.

Lemma split_mask_from dict fs mask blob len :
  foldl (λ '(mask, blob, len) f,
    let b := mask_bit dict f in
    if b =? NO_MASK_BIT then (mask, blob ++ [f], wrap16 (len + 1))
    else (N.lor mask (bit64 b), blob, len)) (mask, blob, wrap16 len) fs =
  (foldl (λ mask f, if mask_bit dict f =? NO_MASK_BIT then mask else N.lor mask (bit64 (mask_bit dict f))) mask fs,
   blob ++ tail_of dict fs, wrap16 (len + nlen (tail_of dict fs))).
Proof.
  revert mask blob len. unfold nlen, tail_of. induction fs as [|f fs IH]; intros mask blob len.
  { simpl. by rewrite app_nil_r, N.add_0_r. }
  cbn [foldl List.filter]. cbv zeta. destruct (mask_bit dict f =? NO_MASK_BIT) eqn:E.
  - replace (wrap16 (wrap16 len + 1)) with (wrap16 (len + 1)) by (unfold wrap; by rewrite N.Div0.add_mod_idemp_l).
    rewrite IH, <-app_assoc. cbn [app length]. f_equal. f_equal. lia.
  - by rewrite IH.
Qed.

Lemma split_mask_spec dict fs blob :
  split_mask dict fs blob = (mask_of dict fs, blob ++ tail_of dict fs, as_u16 (length (tail_of dict fs))).
Proof. unfold split_mask. change (0, blob, 0) with (0, blob, wrap16 0). by rewrite split_mask_from. Qed.

Lemma tail_of_length dict fs : nlen (tail_of dict fs) ≤ nlen fs.
Proof. unfold nlen, tail_of. induction fs as [|f fs IH]; simpl; [done|]. case_match; simpl; lia. Qed.

Lemma stored_words_phrases ex :
  predicate_has_phrases (stored_words ex) = nonempty (required_phrases ex) || nonempty (forbidden_phrases ex).
Proof.
  unfold stored_words. destruct (predicate_trivial ex) eqn:Et.
  - unfold predicate_trivial in Et. rewrite !andb_true_iff, !negb_true_iff in Et.
    destruct Et as (((((_ & _) & ->) & ->) & _) & _). done.
  - unfold print_program, predicate_has_phrases. rewrite has_phrase_words_version. unfold program_of. simpl.
    by destruct (_ || _).
Qed.

Lemma stored_words_length ex : nlen (stored_words ex) ≤ program_words ex + 2.
Proof. unfold stored_words. destruct (predicate_trivial ex); [unfold nlen; simpl; lia|]. by rewrite print_program_words. Qed.

(** Pushing a query appends its row. *)
Lemma push_ranked_row ex tags dict version logical rank placement source st :
  let r := row_of ex tags dict version logical rank placement source in
  nlen (predicate_blob st) + program_words ex + 2 ≤ U32_MAX →
  push_ranked ex tags dict version logical rank placement source st =
  push_row (r_rmask r) (r_fmask r) (r_req r) (r_forb r) (r_groups r) (r_words r) (r_tags r)
    (r_version r) (r_logical r) (r_priority r) (r_placement r) (r_source r) st.
Proof.
  intros r Hw. unfold push_ranked, push_row, r, row_of. cbn [r_rmask r_fmask r_req r_forb r_groups r_words r_tags
    r_version r_logical r_priority r_placement r_source]. rewrite !split_mask_spec.
  destruct (push_groups _ _ _ _) as [[goff glen] gblob]. rewrite encode_predicate_spec by lia.
  rewrite <-stored_words_phrases. unfold stored_words.
  pose proof (print_program_words ex). unfold nlen in *.
  destruct (predicate_trivial ex); [|done]. rewrite app_nil_r. done.
Qed.

(** What has to fit for a push: the guard of [column_overflow], the header words
    it does not count, the tag and placement counts, and the blobs' offsets. *)
Record push_fits (ex : Extracted) (tags : list N) (placement : QueryPlacement) (st : ExactStore) : Prop := {
  pf_columns : columns_fit ex;
  pf_tags : nlen tags ≤ U16_MAX;
  pf_positions : nlen (pl_positions placement) ≤ U32_MAX;
  pf_req : nlen (req_blob st) ≤ U32_MAX;
  pf_forb : nlen (forb_blob st) ≤ U32_MAX;
  pf_table : nlen (group_off st) ≤ U32_MAX;
  pf_anyof : nlen (anyof_blob st) + sum_N nlen (anyof ex) ≤ U32_MAX;
  pf_words : nlen (predicate_blob st) + program_words ex + 2 ≤ U32_MAX;
  pf_tag_blob : nlen (tag_blob st) ≤ U32_MAX;
  pf_placement_blob : nlen (placement_blob st) ≤ U32_MAX;
}.

Lemma push_fits_row ex tags dict version logical rank placement source st :
  push_fits ex tags placement st →
  let r := row_of ex tags dict version logical rank placement source in row_fits r ∧ store_room st r.
Proof.
  intros [(Hr & Hf & Hg & Hgs & Hp)]. pose proof (stored_words_length ex). pose proof (tail_of_length dict (required ex)).
  pose proof (tail_of_length dict (forbidden ex)). split; split; simpl; try done; lia.
Qed.

Lemma push_ranked_holds ex tags dict version logical rank placement source st rows :
  store_holds st rows → push_fits ex tags placement st →
  let res := push_ranked ex tags dict version logical rank placement source st in
  let r := row_of ex tags dict version logical rank placement source in
  store_holds res.2 (rows ++ [r]) ∧ res.1 = as_u32 (length rows) ∧
  (store_packed st rows → store_packed res.2 (rows ++ [r])).
Proof.
  intros Hst Hfit. cbv zeta. destruct (push_fits_row ex tags dict version logical rank placement source st Hfit) as [Hrf Hrm].
  rewrite push_ranked_row by apply Hfit.
  destruct (push_row_holds st rows _ Hst Hrf Hrm) as [? ?]. split_and!; [done..|apply push_row_packed].
Qed.

(** ** Readers are functions of the row *)

Definition row_verify (r : Row) (view : TitleView) (pred : TagPredicate) : option bool :=
  if negb (N.land (r_rmask r) (pos_mask view) =? r_rmask r) then Some false else
  if negb (N.land (r_fmask r) (neg_mask view) =? 0) then Some false else
  if negb (forallb (λ f, bsearch_mem f (pos view)) (r_req r)) then Some false else
  if existsb (λ f, bsearch_mem f (neg view)) (r_forb r) then Some false else
  if negb (forallb (existsb (λ f, bsearch_mem f (pos view))) (r_groups r)) then Some false else
  ok ← verify_predicate (r_words r) view;
  if negb ok then Some false else
  Some (tag_matches pred (r_tags r)).

Section rows.
Context (st : ExactStore) (rows : list Row) (r : Row) (id : N).
Hypothesis Hst : store_holds st rows.
Hypothesis Hr : rows !! usize id = Some r.

Lemma row_col {A} (f : Row → list A) off len blob :
  column (f <$> rows) off len blob → col_read off len blob (usize id) = Some (f r) ∧ len !! usize id = Some (nlen (f r)).
Proof using Hr.
  intros Hc. assert ((f <$> rows) !! usize id = Some (f r)) as Hf by by rewrite list_lookup_fmap, Hr.
  split; [by eapply column_lookup|by eapply column_len].
Qed.

Lemma row_fixed {A} (f : Row → A) (l : list A) : l = f <$> rows → l !! usize id = Some (f r).
Proof using Hr. intros ->. by rewrite list_lookup_fmap, Hr. Qed.

Lemma row_group_range :
  ∃ gs, q_group_start st !! usize id = Some gs ∧ q_group_count st !! usize id = Some (nlen (r_groups r)) ∧
    read_groups (group_off st) (group_len st) (anyof_blob st) (usize gs) (usize (nlen (r_groups r))) = Some (r_groups r).
Proof using Hst Hr.
  destruct (row_col r_groups _ _ _ (h_groups _ _ Hst)) as [Hc Hl]. unfold col_read in Hc.
  destruct (q_group_start st !! usize id) as [gs|]; [|done]. exists gs. split; [done|]. split; [done|].
  rewrite Hl in Hc. simpl in Hc. eapply read_groups_column; [apply (h_table _ _ Hst)|done].
Qed.

Lemma row_words_col :
  ∃ po, predicate_off st !! usize id = Some po ∧ predicate_len st !! usize id = Some (nlen (r_words r)) ∧
    slice (predicate_blob st) (usize po) (usize (nlen (r_words r))) = Some (r_words r).
Proof using Hst Hr.
  destruct (row_col r_words _ _ _ (h_words _ _ Hst)) as [Hc Hl]. unfold col_read in Hc.
  destruct (predicate_off st !! usize id) as [po|]; [|done]. rewrite Hl in Hc. eauto.
Qed.

(** Scalar verification is the verification of the row. *)
Lemma verify_row view pred : verify st id view pred = row_verify r view pred.
Proof using Hst Hr.
  unfold verify, row_verify. rewrite (row_fixed r_rmask _ (h_rmask _ _ Hst)). simpl mbind.
  case_match; [done|]. rewrite (row_fixed r_fmask _ (h_fmask _ _ Hst)). simpl mbind. case_match; [done|].
  rewrite (proj1 (row_col r_req _ _ _ (h_req _ _ Hst))). simpl mbind. case_match; [done|].
  rewrite (proj1 (row_col r_forb _ _ _ (h_forb _ _ Hst))). simpl mbind. case_match; [done|].
  destruct row_group_range as (gs & -> & -> & Hg). simpl mbind. rewrite (groups_hit_read _ _ _ _ _ _ _ Hg). simpl mbind.
  case_match; [done|]. destruct row_words_col as (po & -> & -> & Hw). simpl mbind.
  destruct (row_col r_tags _ _ _ (h_tags _ _ Hst)) as [Ht Htl]. unfold col_read in Ht.
  destruct (tag_off st !! usize id) as [o|] eqn:Eo; [|done]. rewrite Htl in Ht. simpl in Ht.
  assert ((if tag_is_empty pred then Some true else query_passes_tags (usize id) pred (tag_off st) (tag_len st) (tag_blob st))
    = Some (tag_matches pred (r_tags r))) as ->.
  { destruct (tag_is_empty pred) eqn:Ep; [by rewrite tag_matches_empty|].
    by erewrite query_passes_tags_spec. }
  destruct (nlen (r_words r) =? 0) eqn:Ez; [|by rewrite Hw].
  destruct (r_words r); done.
Qed.
End rows.

(** ** Mask words *)

Lemma bit64_testbit b i : b < 64 → N.testbit (bit64 b) i = (b =? i).
Proof.
  intros Hb. unfold bit64. rewrite N.mod_small by done. rewrite N.shiftl_1_l. apply N.pow2_bits_eqb.
Qed.

Lemma mask_of_testbit dict fs i :
  dict_wf dict → N.testbit (mask_of dict fs) i = existsb (λ f, is_hot dict f && (mask_bit dict f =? i)) fs.
Proof.
  intros Hwf. unfold mask_of.
  assert (∀ m, N.testbit (foldl (λ mask f, if mask_bit dict f =? NO_MASK_BIT then mask
      else N.lor mask (bit64 (mask_bit dict f))) m fs) i =
    N.testbit m i || existsb (λ f, is_hot dict f && (mask_bit dict f =? i)) fs) as H; [|by rewrite H, N.bits_0].
  induction fs as [|f fs IH]; intros m; cbn [foldl existsb]; [by rewrite orb_false_r|].
  rewrite IH. unfold is_hot. destruct (mask_bit dict f =? NO_MASK_BIT) eqn:E; [done|]. simpl negb. simpl andb.
  rewrite N.lor_spec, bit64_testbit, orb_assoc; [done|].
  pose proof (mask_bit_range dict f Hwf). apply N.eqb_neq in E. unfold NO_MASK_BIT in *. lia.
Qed.

Lemma mask_of_member dict fs f :
  dict_wf dict → is_hot dict f = true → N.testbit (mask_of dict fs) (mask_bit dict f) = true ↔ f ∈ fs.
Proof.
  intros Hwf Hf. rewrite mask_of_testbit, existsb_elem by done. split.
  - intros (g & Hg & [Hh E%N.eqb_eq]%andb_true_iff). unfold is_hot in Hh. apply negb_true_iff, N.eqb_neq in Hh.
    by rewrite <-(mask_bit_inj dict g f Hwf E Hh).
  - intros Hin. exists f. by rewrite Hf, N.eqb_refl.
Qed.

(** A row is masked under the dictionary of its compilation, a title under the
    current one. *)
Section masks.
Context (dict d' : Dict) (Hwf : dict_wf dict) (Hwf' : dict_wf d') (Hle : mask_le dict d').

Lemma mask_of_member_le fs f :
  is_hot dict f = true → N.testbit (mask_of d' fs) (mask_bit dict f) = true ↔ f ∈ fs.
Proof using Hwf' Hle. intros Hh. rewrite <- Hle by done. apply mask_of_member; [done|by eapply mask_le_hot]. Qed.

(** The required-mask gate: every masked feature is present. *)
Lemma mask_gate_required a b :
  N.land (mask_of dict a) (mask_of d' b) = mask_of dict a ↔ ∀ f, f ∈ a → is_hot dict f = true → f ∈ b.
Proof using Hwf Hwf' Hle.
  split.
  - intros E f Hf Hh. apply (mask_of_member_le b f Hh). apply (mask_of_member dict a f Hwf Hh) in Hf.
    rewrite <-E, N.land_spec, andb_true_iff in Hf. tauto.
  - intros H. apply N.bits_inj. intros i. rewrite N.land_spec.
    destruct (N.testbit (mask_of dict a) i) eqn:E; [|done]. simpl. rewrite mask_of_testbit, existsb_elem in E by done.
    destruct E as (f & Hf & [Hh <-%N.eqb_eq]%andb_true_iff). apply mask_of_member_le; auto.
Qed.

(** The forbidden-mask gate: no masked feature is present. *)
Lemma mask_gate_forbidden a b :
  N.land (mask_of dict a) (mask_of d' b) = 0 ↔ ∀ f, f ∈ a → is_hot dict f = true → f ∉ b.
Proof using Hwf Hwf' Hle.
  split.
  - intros E f Hf Hh Hb. apply (mask_of_member dict a f Hwf Hh) in Hf. apply (mask_of_member_le b f Hh) in Hb.
    pose proof (N.land_spec (mask_of dict a) (mask_of d' b) (mask_bit dict f)) as Hl.
    by rewrite E, N.bits_0, Hf, Hb in Hl.
  - intros H. apply N.bits_inj. intros i. rewrite N.land_spec, N.bits_0. apply andb_false_iff.
    destruct (N.testbit (mask_of dict a) i) eqn:E; [right|by left]. apply not_true_iff_false. intros E'.
    rewrite mask_of_testbit, existsb_elem in E by done. destruct E as (f & Hf & [Hh <-%N.eqb_eq]%andb_true_iff).
    by apply (H f Hf Hh), mask_of_member_le.
Qed.
End masks.

Lemma elem_of_tail_of dict fs f : f ∈ tail_of dict fs ↔ f ∈ fs ∧ is_hot dict f = false.
Proof.
  unfold tail_of, is_hot. rewrite elem_of_list_filter_bool, negb_false_iff. tauto.
Qed.

(** ** Verification of a stored query *)

(** The view of one title under a dictionary: sorted features, and the mask
    words of those features. *)
Record view_ok (dict : Dict) (view : TitleView) : Prop := {
  vo_pos : StronglySorted rle (pos view);
  vo_neg : StronglySorted rle (neg view);
  vo_pos_mask : pos_mask view = mask_of dict (pos view);
  vo_neg_mask : neg_mask view = mask_of dict (neg view);
}.

(** The query matches the view: the flat clauses and the compound program. *)
Definition query_matches (ex : Extracted) (view : TitleView) : bool :=
  forallb (λ f, bsearch_mem f (pos view)) (required ex) &&
  negb (existsb (λ f, bsearch_mem f (neg view)) (forbidden ex)) &&
  forallb (existsb (λ f, bsearch_mem f (pos view))) (anyof ex) &&
  compound_holds ex view.

Lemma verify_predicate_stored ex view :
  Forall graph_nonempty (query_graphs ex) → verify_predicate (stored_words ex) view = Some (compound_holds ex view).
Proof.
  intros Hg. unfold stored_words. destruct (predicate_trivial ex) eqn:Et.
  - by rewrite predicate_trivial_holds.
  - rewrite verify_program_eval by by apply program_of_phrases. by rewrite program_of_holds.
Qed.

Lemma required_split dict d' fs view :
  dict_wf dict → dict_wf d' → mask_le dict d' → view_ok d' view →
  (N.land (mask_of dict fs) (pos_mask view) =? mask_of dict fs) && forallb (λ f, bsearch_mem f (pos view)) (tail_of dict fs) =
  forallb (λ f, bsearch_mem f (pos view)) fs.
Proof.
  intros Hwf Hwf' Hle [Hp _ Hm _]. rewrite Hm. apply eq_true_iff_eq. rewrite andb_true_iff, N.eqb_eq, mask_gate_required, !forallb_elem by done.
  setoid_rewrite elem_of_tail_of. setoid_rewrite bsearch_mem_spec; [|done..]. split.
  - intros [H1 H2] f Hf. destruct (is_hot dict f) eqn:E; auto.
  - naive_solver.
Qed.

Lemma forbidden_split dict d' fs view :
  dict_wf dict → dict_wf d' → mask_le dict d' → view_ok d' view →
  (N.land (mask_of dict fs) (neg_mask view) =? 0) && negb (existsb (λ f, bsearch_mem f (neg view)) (tail_of dict fs)) =
  negb (existsb (λ f, bsearch_mem f (neg view)) fs).
Proof.
  intros Hwf Hwf' Hle [_ Hn _ Hm]. rewrite Hm. apply eq_true_iff_eq.
  rewrite andb_true_iff, !negb_true_iff, N.eqb_eq, mask_gate_forbidden, <-!not_true_iff_false, !existsb_elem by done.
  setoid_rewrite elem_of_tail_of. setoid_rewrite bsearch_mem_spec; [|done..]. split.
  - intros [H1 H2] (f & Hf & Hin). destruct (is_hot dict f) eqn:E; [by apply (H1 f Hf E)|naive_solver].
  - intros H. split; naive_solver.
Qed.

(** The masks, the tails, the groups, the program and the tags of a stored row
    decide together what the query means. *)
Lemma row_verify_query ex tags dict d' version logical rank placement source view pred :
  dict_wf dict → dict_wf d' → mask_le dict d' → view_ok d' view → Forall graph_nonempty (query_graphs ex) →
  row_verify (row_of ex tags dict version logical rank placement source) view pred =
    Some (query_matches ex view && tag_matches pred tags).
Proof.
  intros Hwf Hwf' Hle Hv Hg. unfold row_verify, row_of. cbn [r_rmask r_fmask r_req r_forb r_groups r_words r_tags].
  rewrite verify_predicate_stored by done. simpl mbind. unfold query_matches.
  rewrite <-(required_split dict d' (required ex) view), <-(forbidden_split dict d' (forbidden ex) view) by done.
  generalize (tag_matches pred tags) (compound_holds ex view).
  repeat match goal with
  | |- context [?x =? ?y] => destruct (x =? y)
  | |- context [forallb ?f ?l] => destruct (forallb f l)
  | |- context [existsb ?f ?l] => destruct (existsb f l)
  end; by intros [] [].
Qed.

(** *** The direct semantics *)

(** A positioned view agrees with the direct positioned semantics; a view
    without graphs agrees with the flat semantics on a query without phrases. *)
Lemma query_matches_positioned ex view pg ng :
  view_graphs view = Some (pg, ng) → pg_complete ng = true →
  query_matches ex view = matches_positioned ex (pos view) (neg view) (pg_positions pg) (pg_arcs pg) (pg_complete pg)
    (pg_positions ng) (pg_arcs ng).
Proof.
  intros Hg Hc. unfold query_matches, matches_positioned, matches_flat_features, flat_matches, compound_holds, phrases_hold, graph_verdict.
  rewrite Hg, Hc.
  assert (forallb (λ c, negb (forallb (λ f, bsearch_mem f (neg view)) c)) (forbidden_conjunctions ex) =
    negb (existsb (forallb (λ f, bsearch_mem f (neg view))) (forbidden_conjunctions ex))) as ->.
  { induction (forbidden_conjunctions ex) as [|c l IH]; [done|]. simpl. by rewrite IH, negb_orb. }
  assert (∀ P : PhraseGraph → option bool, forallb (λ g, bool_decide (P g ≠ Some true)) (forbidden_phrases ex) =
    negb (existsb (λ g, bool_decide (P g = Some true)) (forbidden_phrases ex))) as ->.
  { intros P. induction (forbidden_phrases ex) as [|c l IH]; [done|]. simpl. rewrite IH, negb_orb. f_equal.
    destruct (decide (P c = Some true)) as [E|E]; [rewrite bool_decide_eq_false_2, (bool_decide_eq_true_2 _ E)
      |rewrite bool_decide_eq_true_2, (bool_decide_eq_false_2 _ E)]; naive_solver. }
  by rewrite !andb_assoc.
Qed.

Lemma query_matches_flat ex view :
  required_phrases ex = [] → forbidden_phrases ex = [] →
  query_matches ex view = matches_flat_features ex (pos view) (neg view).
Proof.
  intros Hr Hf. unfold query_matches, matches_flat_features, flat_matches, compound_holds.
  rewrite Hr, Hf, phrases_hold_nil, andb_true_r.
  assert (forallb (λ c, negb (forallb (λ f, bsearch_mem f (neg view)) c)) (forbidden_conjunctions ex) =
    negb (existsb (forallb (λ f, bsearch_mem f (neg view))) (forbidden_conjunctions ex))) as ->.
  { induction (forbidden_conjunctions ex) as [|c l IH]; [done|]. simpl. by rewrite IH, negb_orb. }
  by rewrite !andb_assoc.
Qed.

(** ** The other readers *)

Section row_readers.
Context (st : ExactStore) (rows : list Row) (r : Row) (id : N).
Hypothesis Hst : store_holds st rows.
Hypothesis Hr : rows !! usize id = Some r.

Lemma canonical_groups_row : canonical_groups st (usize id) = Some (sort_unstable (sort_unstable <$> r_groups r)).
Proof using Hst Hr.
  unfold canonical_groups. destruct (row_group_range st rows r id Hst Hr) as (gs & -> & -> & Hg). simpl mbind.
  rewrite Hg. done.
Qed.

Lemma boolean_of_row : boolean_of st (usize id) = predicate_boolean_program (r_words r).
Proof using Hst Hr.
  unfold boolean_of. by rewrite (proj1 (row_col rows r id Hr r_words _ _ _ (h_words _ _ Hst))).
Qed.

Lemma sorted_req_row : sorted_col (req_off st) (req_len st) (req_blob st) (usize id) = Some (sort_unstable (r_req r)).
Proof using Hst Hr.
  unfold sorted_col. by rewrite (proj1 (row_col rows r id Hr r_req _ _ _ (h_req _ _ Hst))).
Qed.

Lemma sorted_forb_row : sorted_col (forb_off st) (forb_len st) (forb_blob st) (usize id) = Some (sort_unstable (r_forb r)).
Proof using Hst Hr.
  unfold sorted_col. by rewrite (proj1 (row_col rows r id Hr r_forb _ _ _ (h_forb _ _ Hst))).
Qed.

Lemma placement_of_row : placement_of st id = Some (r_placement r).
Proof using Hst Hr.
  unfold placement_of. rewrite (proj1 (row_col rows r id Hr (λ r, pl_positions (r_placement r)) _ _ _ (h_positions _ _ Hst))).
  simpl mbind. rewrite (row_fixed rows r id Hr _ _ (h_generation _ _ Hst)), (row_fixed rows r id Hr _ _ (h_shards _ _ Hst)),
    (row_fixed rows r id Hr _ _ (h_mode _ _ Hst)). simpl mbind. destruct (r_placement r) as [g n [] ps]; done.
Qed.

Lemma tags_of_row : tags_of st id = Some (r_tags r).
Proof using Hst Hr. apply (row_col rows r id Hr r_tags _ _ _ (h_tags _ _ Hst)). Qed.

Definition no_other_clause (r : Row) : bool :=
  (r_fmask r =? 0) && negb (nonempty (r_forb r)) && negb (nonempty (r_groups r)) && negb (nonempty (r_words r)).

Lemma nlen_eqb_zero {A} (l : list A) : (nlen l =? 0) = negb (nonempty l).
Proof using Type. by destruct l. Qed.

(** The masked pure anchor. *)
Lemma is_pure_anchor_row :
  is_pure_anchor st id = Some (negb (nonempty (r_req r)) && no_other_clause r && is_power_of_two (r_rmask r)).
Proof using Hst Hr.
  unfold is_pure_anchor, no_other_clause. rewrite (proj2 (row_col rows r id Hr r_req _ _ _ (h_req _ _ Hst))),
    (proj2 (row_col rows r id Hr r_forb _ _ _ (h_forb _ _ Hst))),
    (proj2 (row_col rows r id Hr r_groups _ _ _ (h_groups _ _ Hst))),
    (proj2 (row_col rows r id Hr r_words _ _ _ (h_words _ _ Hst))),
    (row_fixed rows r id Hr r_fmask _ (h_fmask _ _ Hst)), (row_fixed rows r id Hr r_rmask _ (h_rmask _ _ Hst)).
  cbn [mbind option_bind]. rewrite !nlen_eqb_zero.
  by destruct (nonempty (r_req r)), (r_fmask r =? 0), (nonempty (r_forb r)), (nonempty (r_groups r)), (nonempty (r_words r)).
Qed.

(** The tail-stored pure anchor. *)
Lemma pure_tail_anchor_row anchor :
  pure_tail_anchor st id anchor = Some ((r_rmask r =? 0) && no_other_clause r && bool_decide (r_req r = [anchor])).
Proof using Hst Hr.
  unfold pure_tail_anchor, no_other_clause. destruct (row_col rows r id Hr r_req _ _ _ (h_req _ _ Hst)) as [Hc Hl].
  rewrite Hl, (proj2 (row_col rows r id Hr r_forb _ _ _ (h_forb _ _ Hst))),
    (proj2 (row_col rows r id Hr r_groups _ _ _ (h_groups _ _ Hst))),
    (proj2 (row_col rows r id Hr r_words _ _ _ (h_words _ _ Hst))),
    (row_fixed rows r id Hr r_fmask _ (h_fmask _ _ Hst)), (row_fixed rows r id Hr r_rmask _ (h_rmask _ _ Hst)).
  cbn [mbind option_bind]. rewrite !nlen_eqb_zero.
  unfold col_read in Hc. destruct (req_off st !! usize id) as [ro|]; [|done]. rewrite Hl in Hc. cbn [mbind option_bind] in *.
  destruct (r_rmask r =? 0); cbn [negb andb]; [|done].
  destruct (N.eqb_spec (nlen (r_req r)) 1) as [E|E]; cbn [negb].
  2: { rewrite (bool_decide_eq_false_2 (r_req r = [anchor])), andb_false_r; [done|]. intros Ea. apply E. by rewrite Ea. }
  destruct (r_fmask r =? 0), (nonempty (r_forb r)), (nonempty (r_groups r)), (nonempty (r_words r)); cbn [negb andb]; try done.
  unfold nlen in E. destruct (r_req r) as [|f [|g l]]; simpl in E; try lia.
  unfold slice in Hc. case_decide; [|done]. injection Hc as Hc.
  replace (req_blob st !! usize ro) with (Some f).
  2: { rewrite <-(Nat.add_0_r (usize ro)), <-lookup_drop. destruct (drop (usize ro) (req_blob st)); naive_solver. }
  cbn [mbind option_bind].
  destruct (N.eqb_spec f anchor); [rewrite bool_decide_eq_true_2|rewrite bool_decide_eq_false_2]; naive_solver.
Qed.

(** Copying a row to another store. *)
Lemma copy_entry_row dest rows' :
  store_holds dest rows' → row_fits r → store_room dest r →
  ∃ dest', copy_entry st id dest = Some (as_u32 (length rows'), dest') ∧ store_holds dest' (rows' ++ [r]) ∧
    (store_packed dest rows' → store_packed dest' (rows' ++ [r])).
Proof using Hst Hr.
  intros Hd Hf Hm. unfold copy_entry.
  rewrite (row_fixed rows r id Hr r_rmask _ (h_rmask _ _ Hst)), (row_fixed rows r id Hr r_fmask _ (h_fmask _ _ Hst)),
    (proj1 (row_col rows r id Hr r_req _ _ _ (h_req _ _ Hst))), (proj1 (row_col rows r id Hr r_forb _ _ _ (h_forb _ _ Hst))).
  destruct (row_group_range st rows r id Hst Hr) as (gs & -> & -> & Hg). simpl mbind. rewrite Hg. simpl mbind.
  rewrite (proj1 (row_col rows r id Hr r_words _ _ _ (h_words _ _ Hst))), (proj1 (row_col rows r id Hr r_tags _ _ _ (h_tags _ _ Hst))),
    (row_fixed rows r id Hr r_version _ (h_version _ _ Hst)), (row_fixed rows r id Hr r_logical _ (h_logical _ _ Hst)),
    (row_fixed rows r id Hr r_priority _ (h_priority _ _ Hst)), placement_of_row,
    (row_fixed rows r id Hr r_source _ (h_source _ _ Hst)). simpl mbind.
  destruct (push_row_holds dest rows' r Hd Hf Hm) as [H1 H2]. pose proof (push_row_packed dest rows' r) as Hp.
  destruct (push_row _ _ _ _ _ _ _ _ _ _ _ _ _) as [i d'] eqn:E. cbn [fst snd] in *. subst i. eauto.
Qed.

End row_readers.

Lemma guard_some (c : bool) (o : option bool) : (if negb c then Some false else o) = Some true ↔ c = true ∧ o = Some true.
Proof. destruct c; naive_solver. Qed.

(** The comparison as a function of the two rows. *)
Definition row_bodies_equal (ra rb : Row) : option bool :=
  if negb (r_rmask ra =? r_rmask rb) then Some false else
  if negb (r_fmask ra =? r_fmask rb) then Some false else
  if negb (nlen (r_req ra) =? nlen (r_req rb)) then Some false else
  if negb (nlen (r_forb ra) =? nlen (r_forb rb)) then Some false else
  if negb (nlen (r_groups ra) =? nlen (r_groups rb)) then Some false else
  if negb (bool_decide (sort_unstable (r_req ra) = sort_unstable (r_req rb))) then Some false else
  if negb (bool_decide (sort_unstable (r_forb ra) = sort_unstable (r_forb rb))) then Some false else
  if negb (bool_decide (sort_unstable (sort_unstable <$> r_groups ra) = sort_unstable (sort_unstable <$> r_groups rb)))
  then Some false else
  pa ← predicate_boolean_program (r_words ra);
  pb ← predicate_boolean_program (r_words rb);
  Some (bool_decide (pa = pb)).

Lemma bodies_equal_eval st rows ra rb a b :
  store_holds st rows → rows !! usize a = Some ra → rows !! usize b = Some rb →
  bodies_equal st a b = row_bodies_equal ra rb.
Proof.
  intros Hst Ha Hb. unfold bodies_equal, row_bodies_equal.
  rewrite (row_fixed rows ra a Ha r_rmask _ (h_rmask _ _ Hst)), (row_fixed rows rb b Hb r_rmask _ (h_rmask _ _ Hst)),
    (row_fixed rows ra a Ha r_fmask _ (h_fmask _ _ Hst)), (row_fixed rows rb b Hb r_fmask _ (h_fmask _ _ Hst)),
    (sorted_req_row st rows ra a Hst Ha), (sorted_req_row st rows rb b Hst Hb),
    (sorted_forb_row st rows ra a Hst Ha), (sorted_forb_row st rows rb b Hst Hb),
    (canonical_groups_row st rows ra a Hst Ha), (canonical_groups_row st rows rb b Hst Hb),
    (boolean_of_row st rows ra a Hst Ha), (boolean_of_row st rows rb b Hst Hb),
    (proj2 (row_col rows ra a Ha r_req _ _ _ (h_req _ _ Hst))), (proj2 (row_col rows rb b Hb r_req _ _ _ (h_req _ _ Hst))),
    (proj2 (row_col rows ra a Ha r_forb _ _ _ (h_forb _ _ Hst))), (proj2 (row_col rows rb b Hb r_forb _ _ _ (h_forb _ _ Hst))),
    (proj2 (row_col rows ra a Ha r_groups _ _ _ (h_groups _ _ Hst))), (proj2 (row_col rows rb b Hb r_groups _ _ _ (h_groups _ _ Hst))).
  done.
Qed.

(** Rows with one canonical body. *)
Record same_body (a b : Row) : Prop := {
  sb_rmask : r_rmask a = r_rmask b;
  sb_fmask : r_fmask a = r_fmask b;
  sb_req : sort_unstable (r_req a) = sort_unstable (r_req b);
  sb_forb : sort_unstable (r_forb a) = sort_unstable (r_forb b);
  sb_groups : sort_unstable (sort_unstable <$> r_groups a) = sort_unstable (sort_unstable <$> r_groups b);
  sb_program : predicate_boolean_program (r_words a) = predicate_boolean_program (r_words b);
}.

#[export] Instance same_body_equivalence : Equivalence same_body.
Proof.
  split.
  - by intros a.
  - intros a b []. by split.
  - intros a b c [] []. split; congruence.
Qed.

Lemma bodies_equal_rows ra rb : row_bodies_equal ra rb = Some true → same_body ra rb.
Proof.
  unfold row_bodies_equal. rewrite !guard_some, !bool_decide_eq_true, !N.eqb_eq.
  intros (? & ? & _ & _ & _ & ? & ? & ? & Hp). split; [done..|].
  destruct (predicate_boolean_program (r_words ra)) as [pa|], (predicate_boolean_program (r_words rb)) as [pb|];
    cbn [mbind option_bind] in Hp; try done. injection Hp as Hp%bool_decide_eq_true. by rewrite Hp.
Qed.

(** ** Equal bodies mean the same *)

Definition words_ok (w : list N) : Prop :=
  w = [] ∨ ∃ p, Forall graph_nonempty (phrases_of p) ∧ w = print_program p.

Lemma stored_words_ok ex : Forall graph_nonempty (query_graphs ex) → words_ok (stored_words ex).
Proof.
  intros Hg. unfold stored_words, words_ok. destruct (predicate_trivial ex); [by left|right].
  exists (program_of ex). split; [by apply program_of_phrases|done].
Qed.

Lemma boolean_program_empty p : predicate_boolean_program (print_program p) = Some (0, []) → program_vacuous p.
Proof.
  rewrite boolean_program_print. intros [= H]. apply enc_boolean_vacuous.
  destruct (decide _) as [E|E]; [done|]. by destruct (p_phrases p).
Qed.

Lemma verify_predicate_boolean w1 w2 view :
  words_ok w1 → words_ok w2 → predicate_boolean_program w1 = predicate_boolean_program w2 →
  verify_predicate w1 view = verify_predicate w2 view.
Proof.
  intros [->|(p & Hp & ->)] [->|(q & Hq & ->)] E; [done| | |].
  - symmetry in E. apply boolean_program_empty in E. by rewrite verify_program_eval, program_vacuous_holds.
  - apply boolean_program_empty in E. by rewrite verify_program_eval, program_vacuous_holds.
  - rewrite !verify_program_eval by done. f_equal. by apply boolean_program_holds.
Qed.

(** The required phrases of a query, as its stored program has them. *)
Lemma stored_words_required ex ex' :
  predicate_boolean_program (stored_words ex) = predicate_boolean_program (stored_words ex') →
  required_phrases ex = required_phrases ex'.
Proof.
  assert (∀ e, predicate_trivial e = true → required_phrases e = []) as Htriv.
  { intros e. unfold predicate_trivial. rewrite !andb_true_iff. intros [[[[_ H] _] _] _].
    destruct (required_phrases e); [done|discriminate H]. }
  assert (∀ e, (phrase_lists (program_of e)).1 = required_phrases e) as Hof.
  { intros e. unfold phrase_lists, program_of. cbn [p_phrases].
    destruct (required_phrases e), (forbidden_phrases e); done. }
  assert (∀ e, predicate_boolean_program (print_program (program_of e)) = Some (0, []) → required_phrases e = []) as Hvac.
  { intros e He%boolean_program_empty%program_vacuous_parts. rewrite <-Hof. by destruct He as (_ & _ & ->). }
  unfold stored_words. destruct (predicate_trivial ex) eqn:E, (predicate_trivial ex') eqn:E'; intros H.
  - by rewrite !Htriv.
  - rewrite (Htriv ex) by done. symmetry. by apply Hvac.
  - rewrite (Htriv ex') by done. by apply Hvac.
  - apply boolean_program_parts in H as (_ & _ & H). by rewrite <-!Hof, H.
Qed.

Lemma sort_unstable_eq_mem {A} `{RustOrdLaws A} (l k : list A) x :
  sort_unstable l = sort_unstable k → x ∈ l ↔ x ∈ k.
Proof. intros E. by rewrite <-(elem_of_sort_unstable x l), <-(elem_of_sort_unstable x k), E. Qed.

Lemma groups_sorted_eq (h : N → bool) (ga gb : list (list N)) :
  sort_unstable (sort_unstable <$> ga) = sort_unstable (sort_unstable <$> gb) →
  forallb (existsb h) ga = forallb (existsb h) gb.
Proof.
  intros E. assert (∀ l, forallb (existsb h) l = forallb (existsb h) (sort_unstable <$> l)) as Hs.
  { intros l. induction l as [|g l IH]; [done|]. rewrite fmap_cons. cbn [forallb]. rewrite IH. f_equal.
    apply existsb_mem_ext; [|done]. intros x. by rewrite elem_of_sort_unstable. }
  rewrite (Hs ga), (Hs gb). apply forallb_mem_ext; [|done]. intros x. by apply sort_unstable_eq_mem.
Qed.

Lemma row_verify_body ra rb view :
  words_ok (r_words ra) → words_ok (r_words rb) → same_body ra rb →
  row_verify ra view tag_empty = row_verify rb view tag_empty.
Proof.
  intros Ha Hb [E1 E2 E3 E4 E5 E6]. unfold row_verify. rewrite E1, E2, (verify_predicate_boolean _ _ view Ha Hb E6).
  rewrite (groups_sorted_eq _ _ _ E5).
  rewrite (forallb_mem_ext _ (λ f, bsearch_mem f (pos view)) (r_req ra) (r_req rb)) by
    (done || intros; by apply sort_unstable_eq_mem).
  rewrite (existsb_mem_ext _ (λ f, bsearch_mem f (neg view)) (r_forb ra) (r_forb rb)) by
    (done || intros; by apply sort_unstable_eq_mem).
  done.
Qed.

(** Neither comparing bodies nor hashing one panics. *)
Lemma words_ok_boolean w : words_ok w → ∃ bp, predicate_boolean_program w = Some bp.
Proof. intros [->|(p & _ & ->)]; [by eexists|]. eexists. apply boolean_program_print. Qed.

Lemma bodies_equal_total ra rb :
  words_ok (r_words ra) → words_ok (r_words rb) → ∃ e, row_bodies_equal ra rb = Some e.
Proof.
  intros [pa Hpa]%words_ok_boolean [pb Hpb]%words_ok_boolean. unfold row_bodies_equal. rewrite Hpa, Hpb.
  cbn [mbind option_bind]. repeat case_match; by eexists.
Qed.

Lemma body_signature_total st rows r id :
  store_holds st rows → rows !! usize id = Some r → words_ok (r_words r) → ∃ h, body_signature st id = Some h.
Proof.
  intros Hst Hr [p Hp]%words_ok_boolean. unfold body_signature.
  rewrite (row_fixed rows r id Hr r_rmask _ (h_rmask _ _ Hst)), (row_fixed rows r id Hr r_fmask _ (h_fmask _ _ Hst)),
    (sorted_req_row st rows r id Hst Hr), (sorted_forb_row st rows r id Hst Hr),
    (canonical_groups_row st rows r id Hst Hr), (boolean_of_row st rows r id Hst Hr), Hp.
  cbn [mbind option_bind]. by eexists.
Qed.

Lemma row_has_phrases_row st rows r id :
  store_holds st rows → rows !! usize id = Some r →
  row_has_phrase_predicates st id = Some (predicate_has_phrases (r_words r)).
Proof.
  intros Hst Hr. unfold row_has_phrase_predicates.
  by rewrite (proj1 (row_col rows r id Hr r_words _ _ _ (h_words _ _ Hst))).
Qed.

(** ** Un-masking *)

Lemma land_double a b : N.land (2 * a) (2 * b + 1) = 2 * N.land a b.
Proof.
  apply N.bits_inj. intros i. rewrite N.land_spec. destruct i as [|i] using N.peano_ind.
  - by rewrite !N.testbit_even_0.
  - by rewrite !N.testbit_even_succ', N.testbit_odd_succ', N.land_spec.
Qed.

(** [bits & (bits - 1)] clears the lowest set bit. *)
Lemma clear_lowest p i :
  N.testbit (N.land (N.pos p) (N.pos p - 1)) i = N.testbit (N.pos p) i && negb (i =? pos_trailing_zeros p).
Proof.
  revert i. induction p as [p IH|p IH|]; intros i.
  - change (N.pos p~1) with (2 * N.pos p + 1). replace (2 * N.pos p + 1 - 1) with (2 * N.pos p) by lia.
    rewrite N.land_comm, land_double, N.land_diag. cbn [pos_trailing_zeros].
    destruct i as [|i] using N.peano_ind; [by rewrite N.testbit_even_0, andb_false_r|].
    rewrite N.testbit_even_succ', N.testbit_odd_succ'. rewrite (proj2 (N.eqb_neq _ _)) by lia. by rewrite andb_true_r.
  - change (N.pos p~0) with (2 * N.pos p). replace (2 * N.pos p - 1) with (2 * (N.pos p - 1) + 1) by lia.
    rewrite land_double. cbn [pos_trailing_zeros].
    destruct i as [|i] using N.peano_ind; [by rewrite !N.testbit_even_0|].
    rewrite !N.testbit_even_succ', IH. f_equal. f_equal.
    destruct (N.eqb_spec i (pos_trailing_zeros p)), (N.eqb_spec (N.succ i) (1 + pos_trailing_zeros p)); lia.
  - simpl. by destruct i.
Qed.

Lemma trailing_zeros_set p : N.testbit (N.pos p) (pos_trailing_zeros p) = true.
Proof.
  induction p as [p IH|p IH|]; cbn [pos_trailing_zeros]; [done| |done].
  change (N.pos p~0) with (2 * N.pos p).
  replace (1 + pos_trailing_zeros p) with (N.succ (pos_trailing_zeros p)) by lia. by rewrite N.testbit_even_succ'.
Qed.

Lemma trailing_zeros_least p i : N.testbit (N.pos p) i = true → pos_trailing_zeros p ≤ i.
Proof.
  revert i. induction p as [p IH|p IH|]; intros i Hi; cbn [pos_trailing_zeros]; [lia| |lia].
  change (N.pos p~0) with (2 * N.pos p) in Hi. destruct i as [|i] using N.peano_ind; [by rewrite N.testbit_even_0 in Hi|].
  rewrite N.testbit_even_succ' in Hi. apply IH in Hi. lia.
Qed.

Lemma unmask_S fuel bits inverse :
  unmask (S fuel) bits inverse =
    if bits =? 0 then Some []
    else
      o ← inverse !! usize (trailing_zeros bits);
      rest ← unmask fuel (N.land bits (bits - 1)) inverse;
      Some (match o with Some f => f :: rest | None => rest end).
Proof. done. Qed.

Lemma unmask_spec inverse n : ∀ k bits,
  length inverse = 64%nat → (k + n = 64)%nat → (∀ i, N.testbit bits i = true → N.of_nat k ≤ i < 64) →
  ∃ l, unmask (S n) bits inverse = Some l ∧
    (∀ f, f ∈ l ↔ ∃ b, N.testbit bits b = true ∧ inverse !! usize b = Some (Some f)) ∧
    ((∀ b b' f, inverse !! usize b = Some (Some f) → inverse !! usize b' = Some (Some f) → b = b') → NoDup l).
Proof.
  induction n as [|n IH]; intros k bits Hl Hk Hb; rewrite unmask_S.
  - assert (bits = 0) as ->.
    { apply N.bits_inj. intros i. rewrite N.bits_0. apply not_true_iff_false. intros Hi%Hb. lia. }
    exists []. split_and!; [done| |constructor]. intros f. setoid_rewrite N.bits_0. set_solver.
  - destruct bits as [|p].
    { exists []. split_and!; [done| |constructor]. intros f. setoid_rewrite N.bits_0. set_solver. }
    cbn [N.eqb]. cbn iota. set (t := pos_trailing_zeros p).
    pose proof (trailing_zeros_set p) as Ht. pose proof (Hb _ Ht) as Htk.
    destruct (lookup_lt_is_Some_2 inverse (usize t)) as [o Ho]; [unfold t; lia|].
    change (trailing_zeros (N.pos p)) with t. rewrite Ho. cbn [mbind option_bind].
    destruct (IH (S k) (N.land (N.pos p) (N.pos p - 1)) Hl ltac:(lia)) as (l & Hu & Hm & Hnd).
    { intros i. rewrite clear_lowest, andb_true_iff, negb_true_iff, N.eqb_neq. intros [Hi Hne].
      pose proof (Hb i Hi). pose proof (trailing_zeros_least p i Hi). lia. }
    rewrite Hu. cbn [mbind option_bind]. setoid_rewrite clear_lowest in Hm. setoid_rewrite andb_true_iff in Hm.
    setoid_rewrite negb_true_iff in Hm. setoid_rewrite N.eqb_neq in Hm.
    eexists. split; [done|]. destruct o as [f0|]; split.
    + intros f. rewrite elem_of_cons, Hm. split; [intros [->|(b & ? & ?)]; naive_solver|].
      intros (b & H1 & H2). destruct (decide (b = t)) as [->|]; [left; congruence|naive_solver].
    + intros Hi. constructor; [|by apply Hnd]. rewrite Hm. intros (b & [_ Hbt] & Hb'). apply Hbt. by eapply Hi.
    + intros f. rewrite Hm. split; [naive_solver|]. intros (b & H1 & H2).
      destruct (decide (b = t)) as [->|]; [congruence|naive_solver].
    + done.
Qed.

Lemma unmask_fuel_eq : unmask_fuel = 65%nat.
Proof. done. Qed.

#[global] Opaque unmask_fuel unmask.

Lemma bind_step {A B} (o : option A) (a : A) (f : A → option B) (r : option B) :
  o = Some a → f a = r → (o ≫= f) = r.
Proof. by intros -> <-. Qed.

Lemma anchoring_inputs_reads st rows r id inverse masked :
  store_holds st rows → rows !! usize id = Some r →
  unmask unmask_fuel (r_rmask r) inverse = Some masked →
  anchoring_inputs st id inverse = Some (masked ++ r_req r, r_groups r).
Proof.
  intros Hst Hr Hu. destruct (row_group_range st rows r id Hst Hr) as (gs & Hs & Hc & Hg).
  unfold anchoring_inputs.
  eapply bind_step; [exact (row_fixed rows r id Hr r_rmask _ (h_rmask _ _ Hst))|].
  eapply bind_step; [exact Hu|].
  eapply bind_step; [exact (proj1 (row_col rows r id Hr r_req _ _ _ (h_req _ _ Hst)))|].
  eapply bind_step; [exact Hs|]. eapply bind_step; [exact Hc|]. by eapply bind_step; [exact Hg|].
Qed.

(** The required features of a stored query, recovered from the mask word and
    the tail. *)
Lemma anchoring_inputs_row st rows id ex tags dict d' version logical rank placement source inverse :
  store_holds st rows →
  rows !! usize id = Some (row_of ex tags dict version logical rank placement source) →
  dict_wf dict → dict_wf d' → mask_le dict d' → N.of_nat (length (names d')) ≤ 2 ^ 32 → NoDup (required ex) →
  mask_inverse d' = Some inverse →
  ∃ req, anchoring_inputs st id inverse = Some (req, anyof ex) ∧ req ≡ₚ required ex.
Proof.
  intros Hst Hr Hwf Hwf' Hle Hsz Hnd Hinv. destruct (mask_inverse_spec d' Hwf' Hsz) as (inv & Hi & Hl & Hs).
  rewrite Hinv in Hi. injection Hi as <-.
  destruct (unmask_spec inverse 64 0 (mask_of dict (required ex))) as (l & Hu & Hm & Hn); [done|lia| |].
  { intros i. rewrite mask_of_testbit, existsb_elem by done. intros (f & _ & [Hh <-%N.eqb_eq]%andb_true_iff).
    pose proof (mask_bit_range dict f Hwf). unfold is_hot in Hh. apply negb_true_iff, N.eqb_neq in Hh. unfold NO_MASK_BIT in *. lia. }
  assert (∀ f, f ∈ l ↔ f ∈ required ex ∧ is_hot dict f = true) as Hl'.
  { intros f. rewrite Hm. setoid_rewrite mask_of_testbit; [|done]. setoid_rewrite existsb_elem.
    setoid_rewrite andb_true_iff. setoid_rewrite N.eqb_eq. split.
    - intros (b & (g & Hg & Hh & Eg) & Hb).
      assert (b < 64) as Hb64 by (apply lookup_lt_Some in Hb; lia).
      apply (Hs b f Hb64) in Hb. pose proof (mask_le_hot _ _ _ Hle Hh) as Hh'. unfold is_hot in Hh'.
      apply negb_true_iff, N.eqb_neq in Hh'. pose proof (Hle g Hh). rewrite (mask_bit_inj d' f g Hwf'); [done|congruence..].
    - intros [Hf Hh]. exists (mask_bit dict f). split; [by exists f|]. apply Hs; [|by apply Hle].
      pose proof (mask_bit_range dict f Hwf). unfold is_hot in Hh. apply negb_true_iff, N.eqb_neq in Hh. unfold NO_MASK_BIT in *. lia. }
  rewrite <-unmask_fuel_eq in Hu. exists (l ++ tail_of dict (required ex)). split.
  - by apply (anchoring_inputs_reads st rows _ id _ _ Hst Hr).
  - apply NoDup_Permutation; [|done|].
    + apply NoDup_app. split_and!; [|intros f [_ Hh]%Hl' [_ Hc]%elem_of_tail_of; congruence|].
      * apply Hn. intros b b' f H1 H2. assert (b < 64 ∧ b' < 64) as [] by (apply lookup_lt_Some in H1, H2; lia).
        apply Hs in H1, H2; [congruence|done..].
      * unfold tail_of. by apply NoDup_ListNoDup, List.NoDup_filter, NoDup_ListNoDup.
    + intros f. rewrite elem_of_app, Hl', elem_of_tail_of. clear; destruct (is_hot dict f); intuition congruence.
Qed.

(** ** What the store promises *)

Lemma lookup_push {A} (rows : list A) r : (rows ++ [r]) !! usize (N.of_nat (length rows)) = Some r.
Proof. rewrite Nat2N.id. by apply list_lookup_middle. Qed.

(** C12. Ingesting a compiled query into a well-formed store, one whose columns fit their widths (16-bit
    lengths of the lists, 32-bit offsets into every blob after the push, at most
    2^32 - 1 rows before it) and whose phrase graphs are not empty: the id returned
    by the push is the next one, and verifying it against any title view of the
    same or a later dictionary (one that assigned more mask bits) gives exactly the
    query's meaning and the request's tag filter, without a panic.  Rows pushed
    before verify as they did. *)
Theorem push_then_verify ex tags dict version logical rank placement source st rows :
  store_holds st rows → push_fits ex tags placement st → nlen rows ≤ U32_MAX →
  dict_wf dict → Forall graph_nonempty (query_graphs ex) →
  let '(id, st') := push_ranked ex tags dict version logical rank placement source st in
  id = nlen rows ∧
  store_holds st' (rows ++ [row_of ex tags dict version logical rank placement source]) ∧
  (∀ d' view pred, dict_wf d' → mask_le dict d' → view_ok d' view →
     verify st' id view pred = Some (query_matches ex view && tag_matches pred tags)) ∧
  (∀ j view pred, j < nlen rows → verify st' j view pred = verify st j view pred).
Proof.
  intros Hst Hfit Hn Hwf Hg.
  destruct (push_ranked_holds ex tags dict version logical rank placement source st rows Hst Hfit) as (Hst' & Hid & _).
  destruct (push_ranked _ _ _ _ _ _ _ _ _) as [id st']. cbn [fst snd] in *.
  rewrite as_u32_len in Hid by done. subst id. split_and!; [done|done| |].
  - intros d' view pred Hwf' Hle Hv. rewrite (verify_row st' _ _ _ Hst' (lookup_push rows _)).
    by apply (row_verify_query _ _ dict d').
  - intros j view pred Hj. unfold nlen in Hj. destruct (lookup_lt_is_Some_2 rows (usize j)) as [r Hr]; [lia|].
    rewrite (verify_row st rows r j Hst Hr). apply (verify_row st' _ r j Hst'). by apply lookup_app_l_Some.
Qed.

Lemma demo_fits : push_fits demo_extracted [3; 8] placement_standalone store_new.
Proof.
  split; try (by vm_compute). repeat split; try (by vm_compute). repeat constructor. by vm_compute.
Qed.

Lemma push_then_verify_witness :
  let '(id, st') := push_ranked demo_extracted [3; 8] mask_demo 1 77 0%Z placement_standalone 9 store_new in
  id = 0 ∧ ∀ view pred, view_ok mask_demo view →
    verify st' id view pred = Some (query_matches demo_extracted view && tag_matches pred [3; 8]).
Proof.
  pose proof (push_then_verify demo_extracted [3; 8] mask_demo 1 77 0%Z placement_standalone 9 store_new []
    store_new_holds demo_fits ltac:(done) mask_demo_wf ltac:(apply (bool_decide_unpack _); by vm_compute)) as H.
  destruct (push_ranked _ _ _ _ _ _ _ _ _) as [id st']. destruct H as (H1 & _ & H2 & _). split; [done|].
  intros view pred. apply (H2 mask_demo view pred mask_demo_wf (mask_le_refl _)).
Defined.

(** Canonical-body sharing: two stored rows whose bodies compare equal give the
    same verdict on every title view, whatever their tags, versions and ranking
    words; sharing one verification between them loses and invents nothing. *)
Theorem bodies_equal_sound st rows a b ra rb view :
  store_holds st rows → rows !! usize a = Some ra → rows !! usize b = Some rb →
  words_ok (r_words ra) → words_ok (r_words rb) →
  bodies_equal st a b = Some true →
  verify st a view tag_empty = verify st b view tag_empty.
Proof.
  intros Hst Ha Hb Hwa Hwb Heq. rewrite (verify_row st rows ra a Hst Ha), (verify_row st rows rb b Hst Hb).
  rewrite (bodies_equal_eval st rows ra rb a b Hst Ha Hb) in Heq. by apply row_verify_body; [..|apply bodies_equal_rows].
Qed.

(** Two queries with one body: other tags, version and ranking totals. *)
Definition demo_twin : Extracted :=
  mkExtracted [3; 1] [9] [[5; 4]] 7 9 [mkAnyOfPredicate [mkAnyOfMember [[6]; [2]]]] [[8; 7]]
    [mkPhraseGraph 1 [mkPhraseArc 0 1 [1]]] [].
Definition demo_store1 : ExactStore :=
  (push_ranked demo_extracted [3; 8] mask_demo 1 77 0%Z placement_standalone 9 store_new).2.
Definition demo_store : ExactStore :=
  (push_ranked demo_twin [4] mask_demo 2 78 5%Z placement_standalone 9 demo_store1).2.
Definition demo_rows : list Row :=
  [row_of demo_extracted [3; 8] mask_demo 1 77 0%Z placement_standalone 9;
   row_of demo_twin [4] mask_demo 2 78 5%Z placement_standalone 9].

Lemma demo_store_holds : store_holds demo_store demo_rows.
Proof.
  destruct (push_ranked_holds demo_extracted [3; 8] mask_demo 1 77 0%Z placement_standalone 9 store_new []
    store_new_holds demo_fits) as [H1 _].
  apply (push_ranked_holds demo_twin [4] mask_demo 2 78 5%Z placement_standalone 9 demo_store1 _ H1).
  split; try (by vm_compute). repeat split; try (by vm_compute). repeat constructor. by vm_compute.
Qed.

Lemma demo_words_ok : words_ok (stored_words demo_extracted) ∧ words_ok (stored_words demo_twin).
Proof. split; apply stored_words_ok; apply (bool_decide_unpack _); by vm_compute. Qed.

Lemma bodies_equal_sound_witness :
  bodies_equal demo_store 0 1 = Some true ∧
  ∀ view, verify demo_store 0 view tag_empty = verify demo_store 1 view tag_empty.
Proof.
  assert (bodies_equal demo_store 0 1 = Some true) as E by by vm_compute. split; [done|]. intros view.
  apply (bodies_equal_sound demo_store demo_rows 0 1 _ _ view demo_store_holds eq_refl eq_refl
    (proj1 demo_words_ok) (proj2 demo_words_ok) E).
Defined.

(** Compaction copies rows: the copy of an entry is appended to the destination
    under the next id, verifies there on every view and filter as it did in the
    source, and keeps its identity columns. *)
Theorem copy_entry_faithful src rows r id dest rows' :
  store_holds src rows → rows !! usize id = Some r →
  store_holds dest rows' → row_fits r → store_room dest r → nlen rows' ≤ U32_MAX →
  ∃ dest', copy_entry src id dest = Some (nlen rows', dest') ∧ store_holds dest' (rows' ++ [r]) ∧
    (∀ view pred, verify dest' (nlen rows') view pred = verify src id view pred) ∧
    tags_of dest' (nlen rows') = tags_of src id ∧ placement_of dest' (nlen rows') = placement_of src id.
Proof.
  intros Hs Hr Hd Hf Hm Hn. destruct (copy_entry_row src rows r id Hs Hr dest rows' Hd Hf Hm) as (dest' & Hc & Hd' & _).
  rewrite as_u32_len in Hc by done. exists dest'. pose proof (lookup_push rows' r) as Hl.
  fold (nlen rows') in Hl. split_and!; [done..| | |].
  - intros view pred. by rewrite (verify_row src rows r id Hs Hr), (verify_row dest' _ r _ Hd' Hl).
  - by rewrite (tags_of_row src rows r id Hs Hr), (tags_of_row dest' _ r _ Hd' Hl).
  - by rewrite (placement_of_row src rows r id Hs Hr), (placement_of_row dest' _ r _ Hd' Hl).
Qed.

Lemma copy_entry_faithful_witness :
  ∃ dest', copy_entry demo_store 1 store_new = Some (0, dest') ∧
    ∀ view pred, verify dest' 0 view pred = verify demo_store 1 view pred.
Proof.
  destruct (copy_entry_faithful demo_store demo_rows _ 1 store_new [] demo_store_holds eq_refl store_new_holds)
    as (dest' & H1 & _ & H2 & _).
  - split; try (by vm_compute). repeat constructor; by vm_compute.
  - split; by vm_compute.
  - by vm_compute.
  - exists dest'. done.
Defined.

(** Re-anchoring at compaction reads the anchor-relevant part of a stored query
    back from the columns: the required features (masked ones through the
    inverse mask of the current dictionary, which may have more bits than the
    one the query was compiled under) up to order, and the any-of groups
    exactly. *)
Theorem anchoring_inputs_exact st rows id ex tags dict d' version logical rank placement source inverse :
  store_holds st rows →
  rows !! usize id = Some (row_of ex tags dict version logical rank placement source) →
  dict_wf dict → dict_wf d' → mask_le dict d' → N.of_nat (length (names d')) ≤ 2 ^ 32 → NoDup (required ex) →
  mask_inverse d' = Some inverse →
  ∃ req, anchoring_inputs st id inverse = Some (req, anyof ex) ∧ req ≡ₚ required ex.
Proof. apply anchoring_inputs_row. Qed.

Lemma anchoring_inputs_exact_witness :
  ∃ inverse req, mask_inverse mask_demo = Some inverse ∧
    anchoring_inputs demo_store 0 inverse = Some (req, anyof demo_extracted) ∧ req ≡ₚ required demo_extracted.
Proof.
  destruct (mask_inverse mask_demo) as [inverse|] eqn:E; [|by vm_compute in E].
  destruct (anchoring_inputs_exact demo_store demo_rows 0 demo_extracted [3; 8] mask_demo mask_demo 1 77 0%Z placement_standalone 9 inverse
    demo_store_holds eq_refl mask_demo_wf mask_demo_wf (mask_le_refl _)) as (req & H1 & H2); [by vm_compute| |done|by exists inverse, req].
  apply (bool_decide_unpack _). by vm_compute.
Defined.

Lemma pos_ones_pos p : 1 ≤ pos_ones p.
Proof. induction p; simpl; lia. Qed.

Lemma power_of_two_spec n : is_power_of_two n = true → ∃ b, n = 2 ^ b.
Proof.
  unfold is_power_of_two. destruct n as [|p]; [done|]. intros E%N.eqb_eq. cbn [count_ones] in E.
  induction p as [p IH|p IH|]; cbn [pos_ones] in E.
  - pose proof (pos_ones_pos p). lia.
  - destruct (IH E) as [b Hb]. exists (N.succ b). rewrite N.pow_succ_r', <- Hb. lia.
  - by exists 0.
Qed.

Lemma land_pow2_eqb b m : (N.land (2 ^ b) m =? 2 ^ b) = N.testbit m b.
Proof.
  destruct (N.testbit m b) eqn:E.
  - apply N.eqb_eq, N.bits_inj. intros n. rewrite N.land_spec, N.pow2_bits_eqb.
    destruct (N.eqb_spec b n) as [<-|]; by rewrite ?E.
  - apply N.eqb_neq. intros H. apply (f_equal (λ x, N.testbit x b)) in H.
    by rewrite N.land_spec, N.pow2_bits_true, E in H.
Qed.

(** With no other clause, the required part alone decides. *)
Lemma no_other_clause_verify r view :
  no_other_clause r = true →
  row_verify r view tag_empty =
  Some ((N.land (r_rmask r) (pos_mask view) =? r_rmask r) && forallb (λ f, bsearch_mem f (pos view)) (r_req r)).
Proof.
  unfold no_other_clause, row_verify. intros [[[Hm Hf]%andb_true_iff Hg]%andb_true_iff Hw]%andb_true_iff.
  apply N.eqb_eq in Hm. rewrite Hm. destruct (r_forb r), (r_groups r), (r_words r); try done.
  by destruct (_ =? r_rmask r), (forallb _ _).
Qed.

(** The skip-verify shortcuts: a row reported as a pure masked anchor matches
    exactly the titles whose mask has the anchor's bit, and a row reported as the
    pure tail anchor [f] exactly the titles that contain [f]; nothing else of the
    row can reject. *)
Theorem pure_anchor_skip_verify st rows id r :
  store_holds st rows → rows !! usize id = Some r →
  (is_pure_anchor st id = Some true →
   ∃ b, r_rmask r = 2 ^ b ∧ ∀ view, verify st id view tag_empty = Some (N.testbit (pos_mask view) b)) ∧
  (∀ f, pure_tail_anchor st id f = Some true →
   ∀ view, verify st id view tag_empty = Some (bsearch_mem f (pos view))).
Proof.
  intros Hst Hr. rewrite (is_pure_anchor_row st rows r id Hst Hr). split.
  - intros [= [[Hq Ho]%andb_true_iff Hp]%andb_true_iff]. destruct (power_of_two_spec _ Hp) as [b Hb]. exists b.
    split; [done|]. intros view. rewrite (verify_row st rows r id Hst Hr). rewrite no_other_clause_verify, Hb, land_pow2_eqb by done.
    destruct (r_req r); [by rewrite andb_true_r|done].
  - intros f. rewrite (pure_tail_anchor_row st rows r id Hst Hr). intros [= [[Hm Ho]%andb_true_iff Hq%bool_decide_eq_true]%andb_true_iff] view.
    rewrite (verify_row st rows r id Hst Hr). rewrite no_other_clause_verify by done. apply N.eqb_eq in Hm.
    rewrite Hm, Hq. simpl. by rewrite andb_true_r.
Qed.

Lemma pure_anchor_skip_verify_witness :
  let r := row_of (mkExtracted [1] [] [] 0 0 [] [] [] []) [] dict_new 1 77 0%Z placement_standalone 0 in
  let st := (push_ranked (mkExtracted [1] [] [] 0 0 [] [] [] []) [] dict_new 1 77 0%Z placement_standalone 0 store_new).2 in
  pure_tail_anchor st 0 1 = Some true ∧ ∀ view, verify st 0 view tag_empty = Some (bsearch_mem 1 (pos view)).
Proof.
  intros r st. assert (pure_tail_anchor st 0 1 = Some true) as E by by vm_compute. split; [done|].
  refine (proj2 (pure_anchor_skip_verify st [r] 0 r _ eq_refl) 1 E).
  apply (push_ranked_holds _ [] dict_new 1 77 0%Z placement_standalone 0 store_new [] store_new_holds).
  split; try (by vm_compute).
Defined.
