(* ===== verification/Collect.v ===== *)
(** * Collectors, totals and deadlines
    ([engine/src/collect.rs], [engine/src/collect/top_k.rs],
    [engine/src/result.rs], [engine/src/segment/match_types.rs])

    The matcher reports what it finds to a collector through the trait
    [MatchSink]; [MatchCollector] adds the life cycle around one matching pass.
    The traits are classes here and the collectors their instances: all ids,
    the bounded top K, the count, and the diagnostic candidate probe.  The
    cooperative deadline ([DeadlinePoll]) samples a clock every 256 work units.

    The theorems say what the collectors retain: [AllCollector] the set of
    emitted ids, the top-K collector exactly the K best distinct emitted ids
    beyond the pagination boundary in rank order, and the totals are exact up to
    their threshold and a lower bound above it. *)

From S2P Require Import Prelude.

(** ** The rank order *)

#[export] Instance Z_ord : RustOrd Z := Z.compare.
#[export] Instance Z_ord_laws : RustOrdLaws Z.
Proof.
  split; unfold rcmp, Z_ord; intros.
  - apply Z.compare_eq_iff.
  - apply Z.compare_antisym.
  - rewrite Z.compare_lt_iff in *. lia.
Qed.

(** Score descending, then logical id ascending. *)
Definition ranked_order (a b : Z * N) : comparison :=
  match rcmp b.1 a.1 with Eq => rcmp a.2 b.2 | c => c end.

Definition ranked_beats (a b : Z * N) : bool := bool_decide (ranked_order a b = Lt).

(** ** Totals *)

Inductive TotalHitsRelation := TotalEq | TotalGte.

#[export] Instance TotalHitsRelation_eq_dec : EqDecision TotalHitsRelation.
Proof. solve_decision. Defined.

Record TotalHits := mkTotalHits { th_value : N; th_relation : TotalHitsRelation }.

Definition total_exact (value : N) : TotalHits := mkTotalHits value TotalEq.
Definition total_lower_bound (value : N) : TotalHits := mkTotalHits value TotalGte.

(** [u64::try_from(len).unwrap_or(u64::MAX)]. *)
Definition try_u64 (n : nat) : N := N.min (N.of_nat n) (umax 64).

Record CollectionSummary := mkCollectionSummary {
  retained : N;
  total_hits : TotalHits;
  logical_emissions : N;
  duplicate_emissions : option N;
}.

Definition exact_duplicates (emissions : N) (total : TotalHits) : option N :=
  if bool_decide (th_relation total = TotalEq) then Some (sat_sub emissions (th_value total)) else None.

(** ** The traits

    A poll-aware callback receives the caller's poll as a function on the
    caller's state [P]. *)

Class MatchSink (C : Type) := {
  OBSERVE_CANDIDATES : bool;
  on_match : N → C → C;
  on_candidate : N → C → C;
  should_stop : C → C * bool;
  on_match_at : N → N → C → C;
  on_match_at_with_poll {P : Type} : (P → P * bool) → N → N → P * C → P * C;
  begin_source : nat → C → C;
}.

Class MatchCollector (C : Type) `{MatchSink C} := {
  reset : C → C;
  finish : C → C * CollectionSummary;
  abort : C → C;
}.

(** The trait's default methods, for a collector that only says what a match
    does. *)
Definition plain_sink {C} (f : N → C → C) : MatchSink C := {|
  OBSERVE_CANDIDATES := false;
  on_match := f;
  on_candidate _ c := c;
  should_stop c := (c, false);
  on_match_at logical _ c := f logical c;
  on_match_at_with_poll P _ logical _ '(p, c) := (p, f logical c);
  begin_source _ c := c;
|}.

(** ** The collectors of unranked matching *)

Record AllCollector := mkAllCollector { all_out : list N; all_emissions : N }.

Definition all_on_match (logical : N) (c : AllCollector) : AllCollector :=
  mkAllCollector (all_out c ++ [logical]) (sat_add 64 (all_emissions c) 1).

#[export] Instance AllCollector_sink : MatchSink AllCollector := plain_sink all_on_match.

Definition all_reset (c : AllCollector) : AllCollector := mkAllCollector [] 0.

Definition all_finish (c : AllCollector) : AllCollector * CollectionSummary :=
  let out := sort_dedup (all_out c) in
  let unique := try_u64 (length out) in
  (mkAllCollector out (all_emissions c),
   mkCollectionSummary (N.of_nat (length out)) (total_exact unique) (all_emissions c)
     (Some (sat_sub (all_emissions c) unique))).

#[export] Instance AllCollector_collector : MatchCollector AllCollector := {|
  reset := all_reset; finish := all_finish; abort := all_reset;
|}.

(** [VecSink]: the same emission rule without a life cycle of its own. *)
Record VecSink := mkVecSink { vec_out : list N; vec_emissions : N }.

Definition vec_on_match (logical : N) (c : VecSink) : VecSink :=
  mkVecSink (vec_out c ++ [logical]) (sat_add 64 (vec_emissions c) 1).

#[export] Instance VecSink_sink : MatchSink VecSink := plain_sink vec_on_match.

(** The diagnostic probe for one candidate id. *)
Record CandidateHitCollector := mkCandidateHit { hit_target : N; hit_found : bool }.

Definition candidate_hit_new (target : N) : CandidateHitCollector := mkCandidateHit target false.

Definition hit_on_candidate (logical : N) (c : CandidateHitCollector) : CandidateHitCollector :=
  mkCandidateHit (hit_target c) (hit_found c || (logical =? hit_target c)).

#[export] Instance CandidateHit_sink : MatchSink CandidateHitCollector := {|
  OBSERVE_CANDIDATES := true;
  on_match _ c := c;
  on_candidate := hit_on_candidate;
  should_stop c := (c, hit_found c);
  on_match_at _ _ c := c;
  on_match_at_with_poll P _ _ _ pc := pc;
  begin_source _ c := c;
|}.

Definition hit_reset (c : CandidateHitCollector) : CandidateHitCollector := mkCandidateHit (hit_target c) false.

Definition hit_finish (c : CandidateHitCollector) : CandidateHitCollector * CollectionSummary :=
  let retained := if hit_found c then 1 else 0 in
  (c, mkCollectionSummary retained (total_exact retained) 0 (Some 0)).

#[export] Instance CandidateHit_collector : MatchCollector CandidateHitCollector := {|
  reset := hit_reset; finish := hit_finish; abort := hit_reset;
|}.

(** ** Bounded totals *)

Record TotalTracker := mkTotalTracker { tt_threshold : nat; tt_seen : gset N; tt_exceeded : bool }.

Definition tracker_new (threshold : nat) : TotalTracker := mkTotalTracker threshold ∅ false.
Definition tracker_reset (t : TotalTracker) : TotalTracker := mkTotalTracker (tt_threshold t) ∅ false.

Definition tracker_observe (logical : N) (t : TotalTracker) : TotalTracker :=
  if tt_exceeded t || bool_decide (logical ∈ tt_seen t) then t else
  let seen := {[logical]} ∪ tt_seen t in
  mkTotalTracker (tt_threshold t) seen (tt_exceeded t || (tt_threshold t <? size seen)%nat).

Definition tracker_total (t : TotalTracker) : TotalHits :=
  if tt_exceeded t then total_lower_bound (try_u64 (tt_threshold t))
  else total_exact (try_u64 (size (tt_seen t))).

Record CountCollector := mkCountCollector { count_totals : TotalTracker; count_emissions : N }.

Definition count_new (threshold : nat) : CountCollector := mkCountCollector (tracker_new threshold) 0.

Definition count_on_match (logical : N) (c : CountCollector) : CountCollector :=
  mkCountCollector (tracker_observe logical (count_totals c)) (sat_add 64 (count_emissions c) 1).

#[export] Instance CountCollector_sink : MatchSink CountCollector := plain_sink count_on_match.

Definition count_reset (c : CountCollector) : CountCollector :=
  mkCountCollector (tracker_reset (count_totals c)) 0.

Definition count_finish (c : CountCollector) : CountCollector * CollectionSummary :=
  let total := tracker_total (count_totals c) in
  (c, mkCollectionSummary 0 total (count_emissions c) (exact_duplicates (count_emissions c) total)).

#[export] Instance CountCollector_collector : MatchCollector CountCollector := {|
  reset := count_reset; finish := count_finish; abort := count_reset;
|}.

(** ** The bounded top K *)

Record HeapHit := mkHeapHit { hh_logical : N; hh_score : Z }.

#[export] Instance HeapHit_eq_dec : EqDecision HeapHit.
Proof. solve_decision. Defined.

Definition hit_key (h : HeapHit) : Z * N := (hh_score h, hh_logical h).

#[export] Instance HeapHit_ord : RustOrd HeapHit := λ a b, ranked_order (hit_key a) (hit_key b).

Definition better (candidate worst : HeapHit) : bool := ranked_beats (hit_key candidate) (hit_key worst).

(** [BinaryHeap]: a multiset whose [peek] is a greatest element and whose [pop]
    removes it. *)
Definition heap_peek (heap : list HeapHit) : option HeapHit :=
  match heap with
  | [] => None
  | h :: heap' => Some (foldl (λ m x, if decide (rle m x) then x else m) h heap')
  end.

Fixpoint remove_first {A} `{EqDecision A} (x : A) (l : list A) : list A :=
  match l with
  | [] => []
  | y :: l' => if decide (y = x) then l' else y :: remove_first x l'
  end.

Definition heap_pop (heap : list HeapHit) : option (HeapHit * list HeapHit) :=
  (λ m, (m, remove_first m heap)) <$> heap_peek heap.

(** A scorer may poll the caller, and returns nothing only when told to stop. *)
Class TopKScorer (F : Type) :=
  score : ∀ P : Type, F → nat → N → (P → P * bool) → P → P * option Z.
Arguments score {F _ P}.

Record PlainScorer := mkPlainScorer { plain_score : nat → N → Z }.
#[export] Instance PlainScorer_scorer : TopKScorer PlainScorer :=
  λ P f title logical _ p, (p, Some (plain_score f title logical)).

Record TopKState := mkTopKState {
  tk_k : nat;
  tk_after : option (Z * N);
  tk_heap : list HeapHit;
  tk_heap_ids : gset N;
  tk_winners : list (N * Z);
  tk_totals : TotalTracker;
  tk_emissions : N;
  tk_evaluations : N;
  tk_heap_replacements : N;
}.

Definition topk_new (k total_threshold : nat) (after : option (Z * N)) : TopKState :=
  mkTopKState k after [] ∅ [] (tracker_new total_threshold) 0 0 0.

(** The heap part of [observe], for a hit the scorer returned. *)
Definition topk_retain (hit : HeapHit) (s : TopKState) : TopKState :=
  if match tk_after s with Some after => negb (ranked_beats after (hit_key hit)) | None => false end then s else
  if (length (tk_heap s) <? tk_k s)%nat then
    mkTopKState (tk_k s) (tk_after s) (hit :: tk_heap s) ({[hh_logical hit]} ∪ tk_heap_ids s) (tk_winners s)
      (tk_totals s) (tk_emissions s) (tk_evaluations s) (tk_heap_replacements s)
  else
    match heap_pop (tk_heap s) with
    | Some (worst, heap) =>
        if better hit worst then
          mkTopKState (tk_k s) (tk_after s) (hit :: heap)
            ({[hh_logical hit]} ∪ tk_heap_ids s ∖ {[hh_logical worst]}) (tk_winners s) (tk_totals s)
            (tk_emissions s) (tk_evaluations s) (sat_add 64 (tk_heap_replacements s) 1)
        else s
    | None => s
    end.

Definition topk_observe {F} `{TopKScorer F} {P} (scorer : F) (title : nat) (logical : N) (poll : P → P * bool)
  (ps : P * TopKState) : P * TopKState :=
  let '(p, s) := ps in
  let totals := tracker_observe logical (tk_totals s) in
  let emissions := sat_add 64 (tk_emissions s) 1 in
  if (tk_k s =? 0)%nat || bool_decide (logical ∈ tk_heap_ids s) then
    (p, mkTopKState (tk_k s) (tk_after s) (tk_heap s) (tk_heap_ids s) (tk_winners s) totals emissions
          (tk_evaluations s) (tk_heap_replacements s))
  else
    let s1 := mkTopKState (tk_k s) (tk_after s) (tk_heap s) (tk_heap_ids s) (tk_winners s) totals emissions
                (sat_add 64 (tk_evaluations s) 1) (tk_heap_replacements s) in
    let '(p, result) := score scorer title logical poll p in
    match result with
    | None => (p, s1)
    | Some v => (p, topk_retain (mkHeapHit logical v) s1)
    end.

Definition topk_reset (s : TopKState) : TopKState :=
  mkTopKState (tk_k s) (tk_after s) [] ∅ [] (tracker_reset (tk_totals s)) 0 0 0.

Definition topk_finish (s : TopKState) : TopKState * CollectionSummary :=
  let winners := (λ h, (hh_logical h, hh_score h)) <$> sort_unstable (tk_heap s) in
  let total := tracker_total (tk_totals s) in
  (mkTopKState (tk_k s) (tk_after s) [] ∅ winners (tk_totals s) (tk_emissions s) (tk_evaluations s)
     (tk_heap_replacements s),
   mkCollectionSummary (N.of_nat (length winners)) total (tk_emissions s) (exact_duplicates (tk_emissions s) total)).

Record TopKCollector (F : Type) := mkTopKCollector { tkc_state : TopKState; tkc_scorer : F }.
Arguments mkTopKCollector {F}.
Arguments tkc_state {F}.
Arguments tkc_scorer {F}.

Definition tkc_observe {F} `{TopKScorer F} {P} (poll : P → P * bool) (logical : N) (pc : P * TopKCollector F) :
  P * TopKCollector F :=
  let '(p, c) := pc in
  let '(p, s) := topk_observe (tkc_scorer c) 0 logical poll (p, tkc_state c) in
  (p, mkTopKCollector s (tkc_scorer c)).

Definition tkc_on_match {F} `{TopKScorer F} (logical : N) (c : TopKCollector F) : TopKCollector F :=
  (tkc_observe (λ u, (u, false)) logical (tt, c)).2.

#[export] Instance TopKCollector_sink {F} `{TopKScorer F} : MatchSink (TopKCollector F) := {|
  OBSERVE_CANDIDATES := false;
  on_match := tkc_on_match;
  on_candidate _ c := c;
  should_stop c := (c, false);
  on_match_at logical _ c := tkc_on_match logical c;
  on_match_at_with_poll P poll logical _ pc := tkc_observe poll logical pc;
  begin_source _ c := c;
|}.

Definition tkc_reset {F} (c : TopKCollector F) : TopKCollector F :=
  mkTopKCollector (topk_reset (tkc_state c)) (tkc_scorer c).

Definition tkc_finish {F} (c : TopKCollector F) : TopKCollector F * CollectionSummary :=
  let '(s, summary) := topk_finish (tkc_state c) in (mkTopKCollector s (tkc_scorer c), summary).

#[export] Instance TopKCollector_collector {F} `{TopKScorer F} : MatchCollector (TopKCollector F) := {|
  reset := tkc_reset; finish := tkc_finish; abort := tkc_reset;
|}.

(** ** Deadlines

    Checking the deadline reads the clock, so it may change the deadline's
    state; [true] is [Err]. *)

Class DeadlineCheck (D : Type) := {
  ARMED : bool;
  check : D → D * bool;
}.

Record NoDeadline := mkNoDeadline {}.
#[export] Instance NoDeadline_check : DeadlineCheck NoDeadline := {| ARMED := false; check d := (d, false) |}.

(** [DeadlineAt]: the instant, and the readings the clock will give. *)
Record DeadlineAt := mkDeadlineAt { dl_at : N; dl_clock : nat → N; dl_reads : nat }.

Definition deadline_at_check (d : DeadlineAt) : DeadlineAt * bool :=
  (mkDeadlineAt (dl_at d) (dl_clock d) (S (dl_reads d)), dl_at d <=? dl_clock d (dl_reads d)).

#[export] Instance DeadlineAt_check : DeadlineCheck DeadlineAt := {| ARMED := true; check := deadline_at_check |}.

Definition DEADLINE_WORK_INTERVAL : N := 256.

Record DeadlinePoll (D : Type) := mkDeadlinePoll { dp_deadline : D; dp_remaining : N }.
Arguments mkDeadlinePoll {D}.
Arguments dp_deadline {D}.
Arguments dp_remaining {D}.

Section deadline.
Context {D : Type} `{DeadlineCheck D}.

Definition deadline_new (d : D) : DeadlinePoll D := mkDeadlinePoll d DEADLINE_WORK_INTERVAL.

Definition check_now (p : DeadlinePoll D) : DeadlinePoll D * bool :=
  if ARMED then
    let '(d, expired) := check (dp_deadline p) in (mkDeadlinePoll d DEADLINE_WORK_INTERVAL, expired)
  else (p, false).

Definition check_work (p : DeadlinePoll D) : DeadlinePoll D * bool :=
  if ARMED then
    let remaining := wrap16 (dp_remaining p + 2 ^ 16 - 1) in
    if remaining =? 0 then
      let '(d, expired) := check (dp_deadline p) in (mkDeadlinePoll d DEADLINE_WORK_INTERVAL, expired)
    else (mkDeadlinePoll (dp_deadline p) remaining, false)
  else (p, false).

End deadline.

(** [collect_match_at]: delivering one match, lending the collector the poll;
    once the deadline has expired the poll answers [true] without reading the
    clock again. *)
Definition poll_once {D} `{DeadlineCheck D} (p : DeadlinePoll D * bool) : DeadlinePoll D * bool * bool :=
  let '(dl, cancelled) := p in
  if cancelled then (dl, cancelled, true)
  else let '(dl, expired) := check_work dl in (dl, expired, expired).

Definition collect_match_at {C D} `{MatchSink C} `{DeadlineCheck D} (logical local : N)
  (c : C) (dl : DeadlinePoll D) : C * DeadlinePoll D * bool :=
  let '((dl, cancelled), c) := on_match_at_with_poll poll_once logical local ((dl, false), c) in
  (c, dl, cancelled).

(** ** The rank order is total *)

#[export] Instance HeapHit_ord_laws : RustOrdLaws HeapHit.
Proof.
  assert (∀ a s b t, rcmp (mkHeapHit a s) (mkHeapHit b t) = match rcmp t s with Eq => rcmp a b | c => c end) as Hc
    by done.
  split.
  - intros [a s] [b t]. rewrite Hc. destruct (rcmp t s) eqn:E.
    + apply rcmp_eq_iff in E as ->. rewrite rcmp_eq_iff. split; congruence.
    + split; [done|]. intros [= -> ->]. by rewrite rcmp_refl in E.
    + split; [done|]. intros [= -> ->]. by rewrite rcmp_refl in E.
  - intros [a s] [b t]. rewrite !Hc, (rcmp_opp t s). destruct (rcmp t s); simpl; [apply rcmp_opp|done|done].
  - intros [a s] [b t] [c u]. rewrite !Hc. destruct (rcmp t s) eqn:E1; [|intros _|done].
    + apply rcmp_eq_iff in E1 as ->. destruct (rcmp u s); [apply rcmp_lt_trans|done|done].
    + destruct (rcmp u t) eqn:E2; [intros _|intros _|done].
      * apply rcmp_eq_iff in E2 as ->. by rewrite E1.
      * by rewrite (rcmp_lt_trans u t s).
Qed.

Lemma better_spec a b : better a b = true ↔ rlt a b.
Proof. unfold better, ranked_beats. apply bool_decide_eq_true. Qed.

Lemma heap_peek_spec heap m :
  heap_peek heap = Some m → m ∈ heap ∧ ∀ h, h ∈ heap → rle h m.
Proof.
  destruct heap as [|h heap]; [done|]. cbn [heap_peek]. intros [= <-]. revert h.
  induction heap as [|x heap IH]; intros h; cbn [foldl].
  { split; [by left|]. intros ? ->%list_elem_of_singleton. apply rle_refl. }
  case_decide as E.
  - destruct (IH x) as [Hin Hle]. split; [by right|]. intros y [->|Hy]%elem_of_cons; [|by apply Hle].
    trans x; [done|]. apply Hle. by left.
  - destruct (IH h) as [Hin Hle]. split; [apply elem_of_cons in Hin as [->|]; [by left|by do 2 right]|].
    intros y [->|[->|Hy]%elem_of_cons]%elem_of_cons; [apply Hle; by left| |apply Hle; by right].
    trans h; [|apply Hle; by left]. destruct (rle_total h x); done.
Qed.

Lemma remove_first_perm {A} `{EqDecision A} (x : A) l : x ∈ l → l ≡ₚ x :: remove_first x l.
Proof.
  induction l as [|y l IH]; [by intros ?%not_elem_of_nil|]. intros Hx. simpl. case_decide as E; [by subst|].
  apply elem_of_cons in Hx as [->|Hx]; [done|]. rewrite (IH Hx) at 1. apply Permutation_swap.
Qed.

Lemma heap_pop_spec heap worst rest :
  heap_pop heap = Some (worst, rest) → heap ≡ₚ worst :: rest ∧ ∀ h, h ∈ heap → rle h worst.
Proof.
  unfold heap_pop. destruct (heap_peek heap) as [m|] eqn:E; [|done]. intros [= -> <-].
  apply heap_peek_spec in E as [Hin Hle]. split; [by apply remove_first_perm|done].
Qed.

(** ** What the totals mean *)

Lemma tracker_fold ids t :
  tt_exceeded t = false → (size (tt_seen t) ≤ tt_threshold t)%nat →
  let t' := foldl (λ t id, tracker_observe id t) t ids in
  tt_threshold t' = tt_threshold t ∧
  let all := list_to_set ids ∪ tt_seen t in
  if decide (size all ≤ tt_threshold t)%nat then tt_exceeded t' = false ∧ tt_seen t' = all
  else tt_exceeded t' = true.
Proof.
  assert (Hstuck : ∀ ids t, tt_exceeded t = true → foldl (λ t id, tracker_observe id t) t ids = t).
  { clear. intros ids. induction ids as [|id ids IH]; intros t Ht; [done|]. cbn [foldl].
    unfold tracker_observe at 2. rewrite Ht. cbn [orb]. by apply IH. }
  revert t. induction ids as [|id ids IH]; intros t He Hs; cbn [foldl list_to_set].
  { split; [done|]. assert (∅ ∪ tt_seen t = tt_seen t) as -> by set_solver. by rewrite decide_True by done. }
  destruct (decide (id ∈ tt_seen t)) as [Hid|Hid].
  { assert (tracker_observe id t = t) as -> by (unfold tracker_observe; by rewrite bool_decide_true, orb_true_r).
    assert ({[id]} ∪ list_to_set ids ∪ tt_seen t = list_to_set ids ∪ tt_seen t) as -> by set_solver.
    by apply IH. }
  assert ({[id]} ∪ list_to_set ids ∪ tt_seen t = list_to_set ids ∪ ({[id]} ∪ tt_seen t)) as -> by set_solver.
  assert (tracker_observe id t = mkTotalTracker (tt_threshold t) ({[id]} ∪ tt_seen t)
    (tt_threshold t <? size ({[id]} ∪ tt_seen t))%nat) as ->
    by (unfold tracker_observe; by rewrite bool_decide_false, He).
  destruct (Nat.ltb_spec (tt_threshold t) (size ({[id]} ∪ tt_seen t))) as [Hlt|Hge].
  - rewrite Hstuck by done. cbn [tt_threshold tt_exceeded]. split; [done|].
    assert (size ({[id]} ∪ tt_seen t) ≤ size (list_to_set ids ∪ ({[id]} ∪ tt_seen t)))%nat
      by (apply subseteq_size; set_solver).
    by rewrite decide_False by lia.
  - destruct (IH (mkTotalTracker (tt_threshold t) ({[id]} ∪ tt_seen t) false)) as [IH1 IH2]; done.
Qed.

(** The total a tracker reports for a pass over [ids]: exact while the distinct
    ids fit the threshold, else the threshold as a lower bound. *)
Definition totals_of (threshold : nat) (ids : list N) : TotalHits :=
  let n := size (list_to_set ids : gset N) in
  if decide (n ≤ threshold)%nat then total_exact (try_u64 n) else total_lower_bound (try_u64 threshold).

Lemma tracker_total_spec ids threshold :
  tracker_total (foldl (λ t id, tracker_observe id t) (tracker_new threshold) ids) = totals_of threshold ids.
Proof.
  destruct (tracker_fold ids (tracker_new threshold)) as [H1 H2]; [done|apply Nat.le_0_l|].
  cbn [tt_threshold tt_seen tracker_new] in H1, H2. rewrite union_empty_r_L in H2.
  unfold tracker_total, totals_of. case_decide; [destruct H2 as [-> ->]|rewrite H2, H1]; done.
Qed.

(** ** The top K is exact *)

(** The distinct emitted ids with their scores, the pagination boundary
    applied. *)
Definition after_ok (after : option (Z * N)) (h : HeapHit) : Prop :=
  match after with Some a => ranked_beats a (hit_key h) = true | None => True end.
#[export] Instance after_ok_dec after h : Decision (after_ok after h).
Proof. unfold after_ok. destruct after; apply _. Defined.

Definition candidates (f : N → Z) (after : option (Z * N)) (ids : gset N) : list HeapHit :=
  filter (after_ok after) ((λ id, mkHeapHit id (f id)) <$> elements ids).

Lemma elem_of_candidates f after ids h :
  h ∈ candidates f after ids ↔ after_ok after h ∧ hh_logical h ∈ ids ∧ hh_score h = f (hh_logical h).
Proof.
  unfold candidates. rewrite list_elem_of_filter, list_elem_of_fmap. split.
  - intros (? & id & -> & Hid%elem_of_elements). done.
  - destruct h as [id s]. simpl. intros (? & Hid & ->). split; [done|]. exists id. by rewrite elem_of_elements.
Qed.

Lemma candidates_insert f after id ids :
  id ∉ ids → candidates f after ({[id]} ∪ ids) ≡ₚ filter (after_ok after) [mkHeapHit id (f id)] ++ candidates f after ids.
Proof.
  intros Hid. unfold candidates. rewrite elements_union_singleton by done. by rewrite fmap_cons, <- filter_app.
Qed.

(** The heap holds a best part of the candidates. *)
Record topk_inv (f : N → Z) (ids : gset N) (s : TopKState) : Prop := {
  ti_ids : ∀ id, id ∈ tk_heap_ids s ↔ id ∈ hh_logical <$> tk_heap s;
  ti_split : ∃ rest, candidates f (tk_after s) ids ≡ₚ tk_heap s ++ rest ∧
    (∀ h r, h ∈ tk_heap s → r ∈ rest → rlt h r) ∧ (rest = [] ∨ length (tk_heap s) = tk_k s) ∧
    (length (tk_heap s) ≤ tk_k s)%nat;
}.

Lemma topk_retain_after hit s : ¬ after_ok (tk_after s) hit → topk_retain hit s = s.
Proof.
  unfold topk_retain, after_ok. destruct (tk_after s) as [a|]; [|done]. by intros ->%not_true_is_false.
Qed.

(** A candidate that is already known but not in the heap is beaten. *)
Lemma topk_retain_known f ids s h :
  topk_inv f ids s → h ∈ candidates f (tk_after s) ids → h ∉ tk_heap s → tk_k s ≠ 0%nat → topk_retain h s = s.
Proof.
  intros [_ (rest & Hp & Hlt & Hfull & Hk)] Hin Hnot Hk0. rewrite Hp in Hin.
  apply elem_of_app in Hin as [?|Hrest]; [done|]. destruct Hfull as [->|Hfull]; [by apply not_elem_of_nil in Hrest|].
  unfold topk_retain. case_match; [done|]. rewrite (proj2 (Nat.ltb_ge _ _)) by lia.
  destruct (heap_pop (tk_heap s)) as [[worst heap]|] eqn:E; [|done]. apply heap_pop_spec in E as [Hperm _].
  assert (worst ∈ tk_heap s) as Hw by (rewrite Hperm; by left).
  destruct (better h worst) eqn:Eb; [|done]. apply better_spec in Eb.
  destruct (rlt_irrefl h). by trans worst; [|apply Hlt].
Qed.

Lemma candidates_ids_nodup f after ids : NoDup (hh_logical <$> candidates f after ids).
Proof.
  unfold candidates. eapply sublist_NoDup; [apply (NoDup_elements ids)|].
  replace (elements ids) with (hh_logical <$> ((λ id, mkHeapHit id (f id)) <$> elements ids)) at 2
    by (rewrite <- list_fmap_compose; apply list_fmap_id).
  apply fmap_sublist, sublist_filter.
Qed.

(** Replacing the worst of a full heap. *)
Lemma topk_replace f ids s h worst heap rest :
  topk_inv f ids s → candidates f (tk_after s) ids ≡ₚ tk_heap s ++ rest →
  (∀ a r, a ∈ tk_heap s → r ∈ rest → rlt a r) → tk_heap s ≡ₚ worst :: heap →
  (∀ a, a ∈ tk_heap s → rle a worst) → rlt h worst →
  ({[hh_logical h]} ∪ tk_heap_ids s ∖ {[hh_logical worst]} : gset N) ≡ list_to_set (hh_logical <$> h :: heap) ∧
  ∀ a r, a ∈ h :: heap → r ∈ worst :: rest → rlt a r.
Proof.
  intros [Hids _] Hp Hlt Hperm Hmax Hh.
  pose proof (candidates_ids_nodup f (tk_after s) ids) as Hnd. rewrite Hp, fmap_app in Hnd.
  apply NoDup_app in Hnd as [Hnd _]. rewrite Hperm in Hnd. apply NoDup_cons in Hnd as [Hnd _].
  assert (worst ∈ tk_heap s) as Hw by (rewrite Hperm; by left). split.
  - intros x. rewrite elem_of_union, elem_of_difference, !elem_of_singleton, elem_of_list_to_set, fmap_cons, elem_of_cons.
    rewrite Hids, Hperm, fmap_cons, elem_of_cons. destruct (decide (x = hh_logical worst)) as [->|]; naive_solver.
  - intros x r [->|Hx]%elem_of_cons [->|Hr]%elem_of_cons; [done|by trans worst; [|apply Hlt]| |].
    + assert (x ∈ tk_heap s) as Hxs by (rewrite Hperm; by right).
      apply Hmax, rle_lt_or_eq in Hxs as [?| ->]; [done|]. destruct Hnd. by apply list_elem_of_fmap_2.
    + apply Hlt; [rewrite Hperm; by right|done].
Qed.

Lemma topk_retain_new f ids s id :
  topk_inv f ids s → id ∉ ids → tk_k s ≠ 0%nat →
  topk_inv f ({[id]} ∪ ids) (topk_retain (mkHeapHit id (f id)) s).
Proof.
  set (h := mkHeapHit id (f id)). intros Hinv Hid Hk0. pose proof Hinv as [Hids (rest & Hp & Hlt & Hfull & Hk)].
  pose proof (candidates_insert f (tk_after s) id ids Hid) as Hc. fold h in Hc.
  destruct (decide (after_ok (tk_after s) h)) as [Ha|Ha].
  2:{ rewrite topk_retain_after by done. rewrite filter_cons_False in Hc by done. split; [done|]. exists rest.
      by rewrite Hc. }
  rewrite filter_cons_True, filter_nil in Hc by done. cbn [app] in Hc.
  unfold topk_retain. replace (match tk_after s with Some after => negb (ranked_beats after (hit_key h)) | None => false end)
    with false by (unfold after_ok in Ha; destruct (tk_after s); [by rewrite Ha|done]).
  destruct (Nat.ltb_spec (length (tk_heap s)) (tk_k s)) as [Hlen|Hlen].
  { destruct Hfull as [->|]; [|lia]. split; cbn [tk_heap tk_heap_ids tk_after tk_k hh_logical].
    - intros x. rewrite fmap_cons, elem_of_cons, <- Hids, elem_of_union, elem_of_singleton. done.
    - exists []. split_and!; [by rewrite Hc, Hp|by intros ? ? _ ?%not_elem_of_nil|by left|simpl; lia]. }
  destruct (heap_pop (tk_heap s)) as [[worst heap]|] eqn:E.
  2:{ destruct (tk_heap s); [simpl in Hlen; lia|done]. }
  apply heap_pop_spec in E as [Hperm Hmax]. pose proof (Permutation_length Hperm) as Hpl. simpl in Hpl.
  destruct (better h worst) eqn:Eb.
  - apply better_spec in Eb. destruct (topk_replace f ids s h worst heap rest) as [Hset Hord]; [done..|].
    split; cbn [tk_heap tk_heap_ids tk_after tk_k hh_logical].
    + intros x. by rewrite (Hset x), elem_of_list_to_set.
    + exists (worst :: rest). split_and!; [|done|right; simpl; lia|simpl; lia].
      rewrite Hc, Hp, Hperm. cbn [app]. by rewrite <- Permutation_middle.
  - split; [done|]. exists (h :: rest). split_and!; [by rewrite Hc, Hp, Permutation_middle| |right; lia|done].
    intros x r Hx [->|Hr]%elem_of_cons; [|by apply Hlt].
    assert (rle x h) as Hle.
    { trans worst; [by apply Hmax|]. apply rle_not_rlt. rewrite <- better_spec. by rewrite Eb. }
    apply rle_lt_or_eq in Hle as [?| ->]; [done|].
    assert (h ∈ candidates f (tk_after s) ids) as Hin by (rewrite Hp; apply elem_of_app; by left).
    by apply elem_of_candidates in Hin as (_ & Hin & _).
Qed.

(** One emission. *)
Definition plain_observe (f : N → Z) (id : N) (s : TopKState) : TopKState :=
  (topk_observe (mkPlainScorer (λ _, f)) 0 id (λ u, (u, false)) (tt, s)).2.

Lemma topk_observe_inv f ids s id :
  topk_inv f ids s → topk_inv f ({[id]} ∪ ids) (plain_observe f id s).
Proof.
  intros Hinv. unfold plain_observe, topk_observe.
  set (s1 := mkTopKState (tk_k s) _ _ _ _ _ _ (sat_add 64 (tk_evaluations s) 1) _).
  set (s0 := mkTopKState (tk_k s) _ _ _ _ _ _ (tk_evaluations s) _).
  assert (topk_inv f ids s1) as Hinv1 by (destruct Hinv; by split).
  pose proof Hinv as [Hids (rest & Hp & Hlt & Hfull & Hk)].
  destruct (Nat.eqb_spec (tk_k s) 0) as [E|E]; cbn [orb].
  { cbn [snd]. split; [done|]. cbn [tk_heap tk_after tk_k s0].
    assert (tk_heap s = []) as -> by (apply nil_length_inv; lia).
    exists (candidates f (tk_after s) ({[id]} ∪ ids)). split_and!; [done|by intros ? ? ?%not_elem_of_nil|by right|simpl; lia]. }
  destruct (decide (id ∈ ids)) as [Hid|Hid].
  - assert (({[id]} ∪ ids : gset N) = ids) as -> by set_solver.
    case_bool_decide as Hh; [destruct Hinv; by split|]. cbn [score PlainScorer_scorer plain_score snd].
    destruct (decide (after_ok (tk_after s) (mkHeapHit id (f id)))) as [Ha|Ha]; [|by rewrite topk_retain_after].
    rewrite (topk_retain_known f ids); [done|done| | |done].
    + by apply elem_of_candidates.
    + intros Hin. apply Hh, Hids. by apply (list_elem_of_fmap_2 hh_logical) in Hin.
  - rewrite bool_decide_false; [|].
    + cbn [score PlainScorer_scorer plain_score snd]. by apply topk_retain_new.
    + intros Hin%Hids. apply list_elem_of_fmap in Hin as (h & -> & Hh).
      assert (h ∈ candidates f (tk_after s) ids) as Hc by (rewrite Hp; apply elem_of_app; by left).
      by apply elem_of_candidates in Hc as (_ & ? & _).
Qed.

Lemma sort_unstable_split {A} `{RustOrdLaws A} (l heap rest : list A) :
  l ≡ₚ heap ++ rest → (∀ a r, a ∈ heap → r ∈ rest → rlt a r) →
  sort_unstable l = sort_unstable heap ++ sort_unstable rest.
Proof.
  intros Hp Hlt. apply (StronglySorted_unique rle).
  - apply sort_unstable_sorted.
  - apply StronglySorted_app_2; [|apply sort_unstable_sorted..].
    intros a r Ha Hr. apply rlt_rle, Hlt; by rewrite elem_of_sort_unstable in *.
  - by rewrite !sort_unstable_perm.
Qed.

Lemma topk_inv_winners f ids s :
  topk_inv f ids s → sort_unstable (tk_heap s) = take (tk_k s) (sort_unstable (candidates f (tk_after s) ids)).
Proof.
  intros [_ (rest & Hp & Hlt & Hfull & Hk)]. rewrite (sort_unstable_split _ _ _ Hp Hlt).
  assert (length (sort_unstable (tk_heap s)) = length (tk_heap s)) as Hl by by rewrite sort_unstable_perm.
  destruct Hfull as [->|Hf].
  - rewrite app_nil_r, take_ge; [done|lia].
  - by rewrite take_app_length' by lia.
Qed.

Lemma plain_observe_frame f id s :
  tk_k (plain_observe f id s) = tk_k s ∧ tk_after (plain_observe f id s) = tk_after s ∧
  tk_totals (plain_observe f id s) = tracker_observe id (tk_totals s) ∧
  tk_emissions (plain_observe f id s) = sat_add 64 (tk_emissions s) 1.
Proof.
  unfold plain_observe, topk_observe. case_match; [done|].
  cbn [score PlainScorer_scorer snd]. unfold topk_retain. cbn [tk_after tk_k tk_heap].
  repeat case_match; done.
Qed.

Lemma sat_add_iter n e : sat_add 64 (N.min n (umax 64)) e = N.min (n + e) (umax 64).
Proof. unfold sat_add. lia. Qed.

Lemma topk_fold f k threshold after ids :
  let s := foldl (λ s id, plain_observe f id s) (topk_new k threshold after) ids in
  topk_inv f (list_to_set ids) s ∧ tk_k s = k ∧ tk_after s = after ∧
  tk_totals s = foldl (λ t id, tracker_observe id t) (tracker_new threshold) ids ∧
  tk_emissions s = N.min (N.of_nat (length ids)) (umax 64).
Proof.
  induction ids as [|id ids IH] using rev_ind.
  { cbn. split_and!; try done. split; [intros id; cbn; set_solver|]. exists [].
    split_and!; [done|by intros ? ? ?%not_elem_of_nil|by left|cbn; lia]. }
  cbv zeta in *. rewrite !foldl_snoc. set (s := foldl _ (topk_new _ _ _) ids) in *. destruct IH as (Hi & Hk & Ha & Ht & He).
  destruct (plain_observe_frame f id s) as (-> & -> & -> & ->). rewrite Ht, Hk, Ha, He, sat_add_iter. split_and!; [|done..|].
  - replace (list_to_set (ids ++ [id]) : gset N) with ({[id]} ∪ list_to_set ids : gset N) by set_solver.
    by apply topk_observe_inv.
  - rewrite length_app. simpl. f_equal. lia.
Qed.

Lemma tkc_fold f ids s :
  foldl (λ c id, on_match id c) (mkTopKCollector s (mkPlainScorer (λ _, f))) ids =
  mkTopKCollector (foldl (λ s id, plain_observe f id s) s ids) (mkPlainScorer (λ _, f)).
Proof.
  revert s. induction ids as [|id ids IH]; intros s; [done|]. cbn [foldl]. rewrite <- IH. f_equal.
  unfold on_match, TopKCollector_sink, tkc_on_match, tkc_observe, plain_observe. by destruct (topk_observe _ _ _ _ _).
Qed.

(** C29. The bounded collector is exact: whatever ids a matching pass emits, in any
    order and any number of times, the winners are the first K of the distinct
    emitted ids beyond the pagination boundary in rank order; the total is the
    number of distinct ids, or the threshold as a lower bound; and every
    emission is counted. *)
Theorem topk_collector_exact f k threshold after ids :
  let c := foldl (λ c id, on_match id c) (mkTopKCollector (topk_new k threshold after) (mkPlainScorer (λ _, f))) ids in
  let '(c', summary) := finish c in
  tk_winners (tkc_state c') =
    (λ h, (hh_logical h, hh_score h)) <$> take k (sort_unstable (candidates f after (list_to_set ids))) ∧
  retained summary = N.of_nat (length (tk_winners (tkc_state c'))) ∧
  total_hits summary = totals_of threshold ids ∧
  logical_emissions summary = N.min (N.of_nat (length ids)) (umax 64).
Proof.
  cbv zeta. rewrite tkc_fold. destruct (topk_fold f k threshold after ids) as (Hi & Hk & Ha & Ht & He).
  set (s := foldl _ _ ids) in *. unfold finish, TopKCollector_collector, tkc_finish, topk_finish.
  cbn [tkc_state tk_winners retained total_hits logical_emissions].
  rewrite (topk_inv_winners f (list_to_set ids) s Hi), Hk, Ha, Ht, He, tracker_total_spec. done.
Qed.

(** The unranked collector reports the set of emitted ids, in ascending order
    and without duplicates. *)
Lemma all_fold ids c :
  foldl (λ c id, on_match id c) c ids =
  mkAllCollector (all_out c ++ ids) (N.min (all_emissions c + N.of_nat (length ids)) (umax 64)) ∨ umax 64 < all_emissions c.
Proof.
  revert c. induction ids as [|id ids IH]; intros c; cbn [foldl].
  { destruct c as [o e]. simpl. destruct (N.leb_spec e (umax 64)); [left|by right].
    rewrite app_nil_r. f_equal. lia. }
  destruct (N.leb_spec (all_emissions c) (umax 64)) as [Hle|]; [left|by right].
  destruct (IH (on_match id c)) as [->|Hlt].
  - unfold on_match, AllCollector_sink, plain_sink, all_on_match. cbn [all_out all_emissions length].
    rewrite <- app_assoc. f_equal. unfold sat_add. lia.
  - unfold on_match, AllCollector_sink, plain_sink, all_on_match, sat_add in Hlt. cbn [all_emissions] in Hlt. lia.
Qed.

(** ** Deadlines are noticed within one work interval *)

(** [n] units of work under an armed poll, stopping at the first expiry. *)
Fixpoint run_work (n : nat) (p : DeadlinePoll DeadlineAt) : DeadlinePoll DeadlineAt * bool :=
  match n with
  | O => (p, false)
  | S n => let '(p, expired) := run_work n p in if expired then (p, true) else check_work p
  end.

Lemma div_mod_succ n k :
  k ≠ 0%nat →
  (n mod k = k - 1 ∧ S n mod k = 0 ∧ S n / k = S (n / k))%nat ∨
  (n mod k < k - 1 ∧ S n mod k = S (n mod k) ∧ S n / k = n / k)%nat.
Proof.
  intros Hk. pose proof (Nat.div_mod n k Hk). pose proof (Nat.mod_upper_bound n k Hk).
  destruct (decide (n mod k = k - 1)%nat) as [E|E]; [left|right].
  - replace (S n) with ((S (n / k)) * k)%nat by lia. by rewrite Nat.Div0.mod_mul, Nat.div_mul.
  - replace (S n) with (S (n mod k) + (n / k) * k)%nat at 1 2 by lia.
    rewrite Nat.Div0.mod_add, Nat.div_add, (Nat.mod_small (S _)), (Nat.div_small (S _)) by lia. lia.
Qed.

Lemma check_work_step (q : DeadlinePoll DeadlineAt) b :
  (b < 256)%nat → dp_remaining q = 256 - N.of_nat b →
  check_work q =
  if (b =? 255)%nat then (mkDeadlinePoll (deadline_at_check (dp_deadline q)).1 256, (deadline_at_check (dp_deadline q)).2)
  else (mkDeadlinePoll (dp_deadline q) (256 - N.of_nat (S b)), false).
Proof.
  intros Hb Hr. unfold check_work, ARMED, check, DeadlineAt_check. rewrite Hr.
  assert (wrap16 (256 - N.of_nat b + 2 ^ 16 - 1) = 255 - N.of_nat b) as ->.
  { unfold wrap. replace (256 - N.of_nat b + 2 ^ 16 - 1) with (255 - N.of_nat b + 1 * 2 ^ 16) by lia.
    rewrite N.Div0.mod_add, N.mod_small; lia. }
  destruct (N.eqb_spec (255 - N.of_nat b) 0), (Nat.eqb_spec b 255); try lia; [by destruct (deadline_at_check _)|].
  do 2 f_equal. lia.
Qed.

Lemma run_work_spec d n :
  let '(p, expired) := run_work n (deadline_new d) in
  if expired then ∃ j, (j < n / 256)%nat ∧ dl_at d ≤ dl_clock d (dl_reads d + j)
  else p = mkDeadlinePoll (mkDeadlineAt (dl_at d) (dl_clock d) (dl_reads d + n / 256)) (256 - N.of_nat (n mod 256)) ∧
    ∀ j, (j < n / 256)%nat → dl_clock d (dl_reads d + j) < dl_at d.
Proof.
  induction n as [|n IH]; cbn [run_work].
  { rewrite Nat.div_small by lia. split; [|lia]. destruct d. unfold deadline_new. by rewrite Nat.add_0_r. }
  pose proof (Nat.mod_upper_bound n 256 ltac:(done)) as Hb.
  destruct (run_work n (deadline_new d)) as [q [|]].
  { destruct IH as (j & Hj & Hc). exists j. split; [|done]. destruct (div_mod_succ n 256) as [(_ & _ & ->)|(_ & _ & ->)]; [done|lia..]. }
  destruct IH as [-> IH]. rewrite (check_work_step _ (n mod 256)) by done. cbn [dp_deadline].
  destruct (div_mod_succ n 256) as [(H1 & -> & ->)|(H1 & -> & ->)]; [done| |].
  - rewrite (proj2 (Nat.eqb_eq _ _)) by lia. unfold deadline_at_check. cbn [fst snd dl_at dl_clock dl_reads].
    destruct (N.leb_spec (dl_at d) (dl_clock d (dl_reads d + n / 256))) as [Hle|Hlt].
    + exists (n / 256)%nat. split; [lia|done].
    + split; [by rewrite Nat.add_succ_r|]. intros j Hj. destruct (decide (j = n / 256)%nat) as [->|]; [done|]. apply IH. lia.
  - rewrite (proj2 (Nat.eqb_neq _ _)) by lia. done.
Qed.

(** The sampler of the cooperative deadline: [n] units of work read the clock
    exactly [n / 256] times, and run to the end if and only if every one of those
    readings is before the deadline.  So once the clock has passed the deadline,
    the match is cancelled within the next 256 units. *)
Theorem deadline_sampling d n :
  let '(p, expired) := run_work n (deadline_new d) in
  (expired = false ↔ ∀ j, (j < n / 256)%nat → dl_clock d (dl_reads d + j) < dl_at d) ∧
  (expired = false → dl_reads (dp_deadline p) = (dl_reads d + n / 256)%nat).
Proof.
  pose proof (run_work_spec d n) as Hs. destruct (run_work n (deadline_new d)) as [p [|]].
  - split; [|done]. split; [done|]. intros Hall. destruct Hs as (j & Hj & Hc). specialize (Hall j Hj). lia.
  - destruct Hs as [-> Hs]. done.
Qed.
