(* ===== verification/Segment.v ===== *)
(** * Segments ([engine/src/segment.rs], [engine/src/segment/seg.rs],
    [engine/src/segment/seg/write.rs], [engine/src/segment/seg/parts.rs],
    [engine/src/segment/tag_summary.rs])

    One slice of the index: the exact store, three candidate indexes (main,
    broad, hot), classes, liveness, the reverse index of logical ids, the groups
    of rows with one body, and, once sealed, the anchor filter and the tag
    summary.

    [seg_ok d seg s] relates a segment to its abstract contents [s]: the compiled
    queries with their rows, and the insertions each index has seen.  Its main
    clause is the cover: whenever a query matches a title, a signature the title
    probes in the query's lane posts the leader of the query's body group.
    Every operation that changes a segment keeps it. *)

From S2P Require Import Prelude Util Filter Dictionary Index Phrase Compile Plan View Predicate Ownership Store.

(** ** Tag summaries *)

Record TagSummary := mkTagSummary { ts_ids : list N }.

Definition tag_summary_build (tag_blob : list N) : TagSummary :=
  mkTagSummary (sort_unstable (elements (list_to_set tag_blob : gset N))).

Definition summary_may_match (s : TagSummary) (p : TagPredicate) : bool :=
  forallb (λ group, sorted_intersects (ts_ids s) group) (groups p).

(** ** Data *)

Definition CURRENT_COMPILER_SEMANTICS_VERSION : N := 8.

Record CompileKnobs := mkCompileKnobs {
  accept_class_d : bool;
  hot_anchor_threshold : N;
  dedup_bodies : bool;
  keep_visible : bool;
}.

Record AddedCompiled := mkAddedCompiled {
  ac_local : N;
  ac_class : CostClass;
  ac_would_be_hot : bool;
  ac_body_hash : N;
  ac_is_duplicate : bool;
}.

Record ProbeLanes := mkProbeLanes { include_broad : bool; include_hot : bool }.

Inductive ProbeLane := Main | Broad | Hot.

#[export] Instance ProbeLane_eq_dec : EqDecision ProbeLane.
Proof. solve_decision. Defined.

Record Segment (B : Type) := mkSegment {
  sg_main : CandidateIndex B;
  sg_broad : CandidateIndex B;
  sg_hot : CandidateIndex B;
  sg_exact : ExactStore;
  sg_class : list CostClass;
  sg_alive : list bool;
  sg_alive_counter : N;
  sg_live_phrases : N;
  sg_filter : option SegmentFilter;
  sg_tag_summary : option TagSummary;
  sg_vocab_epoch : N;
  sg_compiler_version : N;
  sg_logical_index : gmap N (list N);
  sg_dup_of : list N;
  sg_dup_members : gmap N (list N);
  sg_body_index : gmap N (list N);
}.
Arguments mkSegment {B}.
Arguments sg_main {B}.
Arguments sg_broad {B}.
Arguments sg_hot {B}.
Arguments sg_exact {B}.
Arguments sg_class {B}.
Arguments sg_alive {B}.
Arguments sg_alive_counter {B}.
Arguments sg_live_phrases {B}.
Arguments sg_filter {B}.
Arguments sg_tag_summary {B}.
Arguments sg_vocab_epoch {B}.
Arguments sg_compiler_version {B}.
Arguments sg_logical_index {B}.
Arguments sg_dup_of {B}.
Arguments sg_dup_members {B}.
Arguments sg_body_index {B}.

(** [map.entry(k).or_default().push(v)]. *)
Definition entry_push (k v : N) (m : gmap N (list N)) : gmap N (list N) := <[k := default [] (m !! k) ++ [v]]> m.

(** [iter().find(p)] where the test may panic. *)
Fixpoint try_find {A} (p : A → option bool) (l : list A) : option (option A) :=
  match l with
  | [] => Some None
  | x :: l' => b ← p x; if b : bool then Some (Some x) else try_find p l'
  end.

(** [iter().filter(p).count()]. *)
Definition count_if {A} (p : A → bool) (l : list A) : N := N.of_nat (length (filter (λ x, p x = true) l)).

Definition rejects_class_d (class : CostClass) (ex : Extracted) (accept : bool) : bool :=
  bool_decide (class = ClassD) && (negb accept || negb (has_negative_predicate ex)).

Section segment.
Context {B : Type} `{Roaring B}.
Implicit Types seg : Segment B.

Definition segment_new : Segment B :=
  mkSegment index_new index_new index_new store_new [] [] 0 0 None None 0 CURRENT_COMPILER_SEMANTICS_VERSION
    ∅ [] ∅ ∅.

Definition has_dup_groups seg : bool := negb (bool_decide (sg_dup_members seg = ∅)).
Definition members_of seg (leader : N) : list N := default [] (sg_dup_members seg !! leader).
Definition dup_leader_of seg (local : N) : N := default local (sg_dup_of seg !! usize local).
Definition seg_len seg : nat := store_len (sg_exact seg).
Definition has_hot_entries seg : bool := (0 <? num_signatures (sg_hot seg))%nat.
Definition seg_has_phrases seg : bool := negb (sg_live_phrases seg =? 0).
Definition seg_is_alive seg (local : N) : bool := default false (sg_alive seg !! usize local).
Definition locals_for_logical seg (logical : N) : list N := default [] (sg_logical_index seg !! logical).
Definition seg_class_of seg (local : N) : option CostClass := sg_class seg !! usize local.
Definition tag_summary_may_match seg (p : TagPredicate) : bool :=
  match sg_tag_summary seg with None => true | Some s => summary_may_match s p end.

(** Sealing. *)
Definition seg_build_filter seg : option (Segment B) :=
  let keys := index_keys (sg_main seg) ++ index_keys (sg_broad seg) ++ index_keys (sg_hot seg) in
  f ← filter_build keys;
  Some (mkSegment (sg_main seg) (sg_broad seg) (sg_hot seg) (sg_exact seg) (sg_class seg) (sg_alive seg)
    (sg_alive_counter seg) (sg_live_phrases seg) (Some f) (Some (tag_summary_build (tag_blob (sg_exact seg))))
    (sg_vocab_epoch seg) (sg_compiler_version seg) (sg_logical_index seg) (sg_dup_of seg) (sg_dup_members seg) ∅).

(** ** Appending a row

    The statements every append shares: a new row in the store, its place in a
    body group, its postings, and its identity. *)

Definition with_exact (st : ExactStore) seg : Segment B :=
  mkSegment (sg_main seg) (sg_broad seg) (sg_hot seg) st (sg_class seg) (sg_alive seg) (sg_alive_counter seg)
    (sg_live_phrases seg) (sg_filter seg) (sg_tag_summary seg) (sg_vocab_epoch seg) (sg_compiler_version seg)
    (sg_logical_index seg) (sg_dup_of seg) (sg_dup_members seg) (sg_body_index seg).

(** A duplicate joins the group of [leader], and takes its class. *)
Definition join_group (leader local : N) (class : CostClass) seg : Segment B :=
  mkSegment (sg_main seg) (sg_broad seg) (sg_hot seg) (sg_exact seg) (sg_class seg ++ [class]) (sg_alive seg)
    (sg_alive_counter seg) (sg_live_phrases seg) (sg_filter seg) (sg_tag_summary seg) (sg_vocab_epoch seg)
    (sg_compiler_version seg) (sg_logical_index seg) (sg_dup_of seg ++ [leader])
    (entry_push leader local (sg_dup_members seg)) (sg_body_index seg).

Definition insert_keys (keys : list N) (local : N) (ix : CandidateIndex B) : CandidateIndex B :=
  foldl (λ ix s, index_insert s local ix) ix keys.

(** A leader posts its signatures, and is found again by its body hash while
    the segment is being built with sharing on. *)
Definition lead_group (local : N) (body : option N) (mains broads hots : list N) (class : CostClass) seg : Segment B :=
  mkSegment (insert_keys mains local (sg_main seg)) (insert_keys broads local (sg_broad seg))
    (insert_keys hots local (sg_hot seg)) (sg_exact seg) (sg_class seg ++ [class]) (sg_alive seg)
    (sg_alive_counter seg) (sg_live_phrases seg) (sg_filter seg) (sg_tag_summary seg) (sg_vocab_epoch seg)
    (sg_compiler_version seg) (sg_logical_index seg) (sg_dup_of seg ++ [local]) (sg_dup_members seg)
    (match body with Some h => entry_push h local (sg_body_index seg) | None => sg_body_index seg end).

(** Liveness, the phrase capability count and the reverse index. *)
Definition push_identity (local logical : N) seg : option (Segment B) :=
  phrases ← row_has_phrase_predicates (sg_exact seg) local;
  Some (mkSegment (sg_main seg) (sg_broad seg) (sg_hot seg) (sg_exact seg) (sg_class seg) (sg_alive seg ++ [true])
    (wrap64 (sg_alive_counter seg + 1))
    (if phrases : bool then wrap64 (sg_live_phrases seg + 1) else sg_live_phrases seg)
    (sg_filter seg) (sg_tag_summary seg) (sg_vocab_epoch seg) (sg_compiler_version seg)
    (entry_push logical local (sg_logical_index seg)) (sg_dup_of seg) (sg_dup_members seg) (sg_body_index seg)).

(** A leader with this body that [ok] admits. *)
Definition find_leader (ok : N → CostClass → option bool) (leaders : list N) (local : N) seg : option (option N) :=
  try_find (λ l,
    c ← sg_class seg !! usize l;
    admitted ← ok l c;
    if admitted : bool then bodies_equal (sg_exact seg) l local else Some false) leaders.

Definition body_leader (ok : N → CostClass → option bool) (body_hash local : N) seg : option (option N) :=
  match sg_body_index seg !! body_hash with
  | Some leaders => find_leader ok leaders local seg
  | None => Some None
  end.

(** A leader on the same side of the opt-in boundary. *)
Definition same_side (opt_in : bool) (_ : N) (c : CostClass) : option bool := Some (bool_decide (is_opt_in c = opt_in)).

(** [add_compiled_ranked_placed_with_source_generation]. *)
Definition add_compiled (ex : Extracted) (tags : list N) (dict : Dict) (logical version : N) (rank : Z)
  (placement : QueryPlacement) (source : N) (knobs : CompileKnobs) seg : option (option AddedCompiled * Segment B) :=
  let plan := build_signatures ex dict (hot_anchor_threshold knobs) in
  let plan := if keep_visible knobs || bool_decide (pl_mode placement = ReplicatedAlwaysVisible)
              then pin_visible plan else plan in
  if rejects_class_d (sp_class plan) ex (accept_class_d knobs) then Some (None, seg) else
  let '(local, st) := push_ranked ex tags dict version logical rank placement source (sg_exact seg) in
  let seg := with_exact st seg in
  body_hash ← body_signature st local;
  leader ← (if dedup_bodies knobs then body_leader (same_side (is_opt_in (sp_class plan))) body_hash local seg else Some None);
  seg ← match leader with
        | Some leader => class ← sg_class seg !! usize leader; Some (join_group leader local class seg)
        | None =>
            Some (lead_group local (if dedup_bodies knobs then Some body_hash else None)
                    (main_sigs plan) (broad_sigs plan) (hot_sigs plan) (sp_class plan) seg)
        end;
  seg ← push_identity local logical seg;
  class ← sg_class seg !! usize local;
  Some (Some (mkAddedCompiled local class (sp_would_be_hot plan) body_hash (bool_decide (is_Some leader))), seg).

(** ** Deleting *)

Definition tombstone (local : N) seg : option (Segment B) :=
  match (sg_alive seg !! usize local : option bool) with
  | None => Some seg
  | Some slot =>
      phrases ← (if slot then row_has_phrase_predicates (sg_exact seg) local else Some false);
      Some (mkSegment (sg_main seg) (sg_broad seg) (sg_hot seg) (sg_exact seg) (sg_class seg)
        (<[usize local := false]> (sg_alive seg))
        (if slot then wrap64 (sg_alive_counter seg + 2 ^ 64 - 1) else sg_alive_counter seg)
        (if phrases : bool then wrap64 (sg_live_phrases seg + 2 ^ 64 - 1) else sg_live_phrases seg)
        (sg_filter seg) (sg_tag_summary seg) (sg_vocab_epoch seg) (sg_compiler_version seg)
        (sg_logical_index seg) (sg_dup_of seg) (sg_dup_members seg) (sg_body_index seg))
  end.

(** ** Rebuilding from columns

    [for (i, &is_alive) in alive.iter().enumerate()]: the reverse index of the
    live rows, and how many of them have phrases. *)
Definition index_logical (st : ExactStore) (alive : list bool) : option (gmap N (list N)) :=
  foldl (λ acc '(i, is_alive),
    m ← acc;
    if is_alive : bool then logical ← xs_logical st !! i; Some (entry_push logical (as_u32 i) m) else Some m)
    (Some ∅) (imap (λ i a, (i, a)) alive).

Definition count_phrases_alive (st : ExactStore) (alive : list bool) : option N :=
  foldl (λ acc '(i, is_alive),
    n ← acc;
    if is_alive : bool then p ← row_has_phrase_predicates st (as_u32 i); Some (if p : bool then n + 1 else n) else Some n)
    (Some 0) (imap (λ i a, (i, a)) alive).

Definition from_parts (main broad hot : CandidateIndex B) (exact : ExactStore) (class : list CostClass) (alive : list bool) :
  option (Segment B) :=
  if negb (length alive =? store_len exact)%nat then None else
  if negb (length class =? store_len exact)%nat then None else
  phrases ← (if has_phrase_predicates exact then count_phrases_alive exact alive else Some 0);
  logical ← index_logical exact alive;
  seg_build_filter (mkSegment main broad hot exact class alive (count_if id alive) phrases None None 0
    CURRENT_COMPILER_SEMANTICS_VERSION logical (as_u32 <$> seq 0 (length alive)) ∅ ∅).

End segment.

(** ** What a title probes and what a query needs *)

Definition lane_of (c : CostClass) : ProbeLane :=
  match c with ClassA | ClassB => Main | ClassH => Hot | ClassC | ClassD => Broad end.

Definition probe_keys (d : Dict) (view : TitleView) (lane : ProbeLane) : list N :=
  sig_key <$> match lane with
              | Main => main_groups d (probe view) (pos view)
              | Hot => hot_groups (pos view)
              | Broad => broad_groups (pos view)
              end.

(** A title view as the matcher builds it: its candidate labels include its
    features and the labels of its position graph. *)
Record title_ok (d : Dict) (view : TitleView) : Prop := {
  to_view : view_ok d view;
  to_probe : pos view ⊆ probe view;
  to_labels pg a : pos_graph view = Some pg → a ∈ pg_arcs pg → pa_feature a ∈ probe view;
}.

(** Every required phrase of the query occurs in the title.  (The verifier also
    accepts when a phrase search exceeds its budget; such a title need not be
    retrieved.) *)
Definition phrases_found (ex : Extracted) (view : TitleView) : Prop :=
  ∀ g, g ∈ required_phrases ex →
    ∃ pg, pos_graph view = Some pg ∧ phrase_occurs g (pg_positions pg) (pg_arcs pg).

Definition cover (d : Dict) (ex : Extracted) (lane : ProbeLane) (keys : list N) : Prop :=
  ∀ d' view, dict_wf d' → mask_le d d' → title_ok d' view → query_matches ex view = true → phrases_found ex view →
    ∃ key, key ∈ probe_keys d' view lane ∧ key ∈ keys.

Lemma cover_mono d d' ex lane keys : mask_le d d' → cover d ex lane keys → cover d' ex lane keys.
Proof. intros Hle Hc d'' view Hwf Hle'. apply Hc; [done|]. by trans d'. Qed.

Lemma cover_sub d ex lane keys keys' : keys ⊆ keys' → cover d ex lane keys → cover d ex lane keys'.
Proof. intros Hs Hc d' view Hwf Hle Ht Hm Hp. destruct (Hc d' view Hwf Hle Ht Hm Hp) as (key & ? & ?). eauto. Qed.

Lemma query_matches_covered d ex view :
  title_ok d view → query_matches ex view = true → phrases_found ex view → covered ex (probe view) (pos view).
Proof.
  intros [_ Hsub Hlab] Hm Hph. unfold query_matches in Hm. rewrite !andb_true_iff, !forallb_elem in Hm.
  destruct Hm as [[[Hreq _] Hany] _]. split.
  - done.
  - intros f Hf. by apply bsearch_mem_elem, Hreq.
  - intros g Hg. specialize (Hany g Hg). apply existsb_elem in Hany as (f & Hf & Hin).
    exists f. split; [done|]. by apply bsearch_mem_elem.
  - intros g Hg. destruct (Hph g Hg) as (pg & Hpg & Ho).
    destruct (phrase_occurs_label g _ _ Ho) as (a & Ha & Hf). eauto.
Qed.

Lemma pair_groups_mono d d' feats : mask_le d d' → pair_groups d feats ⊆ pair_groups d' feats.
Proof.
  intros Hle g. unfold pair_groups. rewrite !list_elem_of_bind. intros (h & Hg & Hh). exists h. split; [|done].
  destruct (is_hot d h) eqn:E; [by rewrite (mask_le_hot d d')|by apply not_elem_of_nil in Hg].
Qed.

Lemma main_groups_mono d d' probe feats : mask_le d d' → main_groups d probe feats ⊆ main_groups d' probe feats.
Proof.
  intros Hle g. unfold main_groups. rewrite !elem_of_app. intros [?|?]; [by left|right].
  by eapply pair_groups_mono.
Qed.

(** The signatures of a plan by lane; all of them are in the lane of its class. *)
Definition lane_sigs (sp : SigPlan) (lane : ProbeLane) : list N :=
  match lane with Main => main_sigs sp | Broad => broad_sigs sp | Hot => hot_sigs sp end.

Definition sigs_one_lane (sp : SigPlan) : Prop :=
  ∀ lane, lane ≠ lane_of (sp_class sp) → lane_sigs sp lane = [].

Lemma build_signatures_lane ex d theta : sigs_one_lane (build_signatures ex d theta).
Proof.
  intros lane. pose proof (anchor_plan_lane ex d theta) as Hl. unfold one_lane in Hl. simpl.
  destruct (ap_class _) eqn:E, lane; simpl; rewrite ?E; try done; intros _; destruct_and?;
    match goal with H : ?l = [] |- sig_key <$> ?l = [] => by rewrite H end.
Qed.

Lemma pin_visible_lane sp : sigs_one_lane sp → sigs_one_lane (pin_visible sp).
Proof.
  unfold pin_visible. case_decide as E; [|done]. intros Hl lane. specialize (Hl lane). rewrite E in Hl.
  destruct lane; simpl in *; intros ?; try done. by apply Hl.
Qed.

Lemma sig_hit_lane sp d d' view :
  mask_le d d' → sigs_one_lane sp → sig_hit sp d (probe view) (pos view) →
  ∃ key, key ∈ probe_keys d' view (lane_of (sp_class sp)) ∧ key ∈ lane_sigs sp (lane_of (sp_class sp)).
Proof.
  intros Hle Hl Hh. unfold sig_hit, probe_keys in *. pose proof (Hl Main) as Hm. pose proof (Hl Hot) as Ht.
  assert (∀ s, s ∈ sig_key <$> main_groups d (probe view) (pos view) →
    s ∈ sig_key <$> main_groups d' (probe view) (pos view)) as Hmono.
  { intros s (g & -> & Hg)%list_elem_of_fmap. apply list_elem_of_fmap_2. by eapply main_groups_mono. }
  destruct (sp_class sp); simpl in *; try (naive_solver; fail);
    (destruct Hh as [(s & Hs & Hp)|(s & Hs & Hp)]; [|]); try (rewrite Hm in Hs by done); try (rewrite Ht in Hs by done);
    try (by apply not_elem_of_nil in Hs); eauto.
Qed.

(** The plan of a query covers it, also when pinned. *)
Lemma build_signatures_cover ex d theta (pin : bool) :
  NoDup (required ex) →
  let sp := if pin then pin_visible (build_signatures ex d theta) else build_signatures ex d theta in
  sigs_one_lane sp ∧ cover d ex (lane_of (sp_class sp)) (lane_sigs sp (lane_of (sp_class sp))).
Proof.
  intros Hnd sp. assert (sigs_one_lane sp) as Hl.
  { subst sp. destruct pin; [apply pin_visible_lane|]; apply build_signatures_lane. }
  split; [done|]. intros d' view _ Hle Ht Hm Hph. apply (sig_hit_lane _ d); [done..|].
  pose proof (anchor_plan_hit ex d theta _ _ Hnd (query_matches_covered d' ex view Ht Hm Hph)) as Hh.
  subst sp. destruct pin; [|by apply build_signatures_hit].
  apply pin_visible_hit; [by apply (to_probe _ _ Ht)|done|]. intros Hc.
  pose proof (anchor_plan_lane ex d theta) as Ho. unfold one_lane in Ho. rewrite Hc in Ho. tauto.
Qed.

(** ** Stored queries *)

(** [r] is the row of the query [ex], compiled under a dictionary whose mask the
    current one extends. *)
Definition stored_as (d : Dict) (ex : Extracted) (r : Row) : Prop :=
  ∃ d0, dict_wf d0 ∧ mask_le d0 d ∧ Forall graph_nonempty (query_graphs ex) ∧ NoDup (required ex) ∧
    r = row_of ex (r_tags r) d0 (r_version r) (r_logical r) (r_priority r) (r_placement r) (r_source r).

Lemma stored_as_mono d d' ex r : mask_le d d' → stored_as d ex r → stored_as d' ex r.
Proof. intros Hle (d0 & ? & ? & ? & ? & ?). exists d0. split_and!; try done. by trans d. Qed.

Lemma stored_as_verify d ex r view pred :
  dict_wf d → stored_as d ex r → view_ok d view →
  row_verify r view pred = Some (query_matches ex view && tag_matches pred (r_tags r)).
Proof. intros Hwf (d0 & Hwf0 & Hle & Hg & _ & ->) Hv. by apply (row_verify_query _ _ d0 d). Qed.

Lemma stored_as_words d ex r : stored_as d ex r → r_words r = stored_words ex ∧ words_ok (r_words r).
Proof. intros (d0 & _ & _ & Hg & _ & ->). split; [done|]. by apply stored_words_ok. Qed.

(** Queries with one body match the same titles, and have the same required
    phrases. *)
Lemma same_body_matches d ex ex' a b view :
  dict_wf d → stored_as d ex a → stored_as d ex' b → same_body a b → view_ok d view →
  query_matches ex view = query_matches ex' view ∧ (phrases_found ex view ↔ phrases_found ex' view).
Proof.
  intros Hwf Ha Hb Hs Hv. pose proof (sb_program _ _ Hs) as E6.
  destruct (stored_as_words _ _ _ Ha) as [Hwa Ha'], (stored_as_words _ _ _ Hb) as [Hwb Hb'].
  pose proof (row_verify_body a b view Ha' Hb' Hs) as Hr.
  rewrite (stored_as_verify d ex a), (stored_as_verify d ex' b) in Hr by done.
  rewrite Hwa, Hwb in E6. apply stored_words_required in E6. unfold phrases_found. rewrite E6.
  split; [|done]. injection Hr as Hr. rewrite !andb_true_r in Hr. done.
Qed.

(** ** The invariant *)

Record SegSpec := mkSegSpec {
  sp_exs : list Extracted;
  sp_rows : list Row;
  sp_posts : ProbeLane → list (N * N);
}.

Definition lane_index {B} (seg : Segment B) (lane : ProbeLane) : CandidateIndex B :=
  match lane with Main => sg_main seg | Broad => sg_broad seg | Hot => sg_hot seg end.

(** The keys a local id is posted under. *)
Definition keys_of (posts : list (N * N)) (l : N) : list N := (filter (λ e, e.2 = l) posts).*1.

Section invariant.
Context {B : Type} `{RoaringLaws B}.
Implicit Types seg : Segment B.

(** The rows are the compiled queries. *)
Record rows_ok (d : Dict) (st : ExactStore) (exs : list Extracted) (rows : list Row) : Prop := {
  k_store : store_holds st rows;
  k_packed : store_packed st rows;
  k_fits : Forall row_fits rows;
  k_exs : Forall2 (stored_as d) exs rows;
  k_len : nlen rows ≤ U32_MAX;
}.

(** Liveness, the reverse index and the counters. *)
Record identity_ok (alive : list bool) (counter phrases : N) (logical : gmap N (list N)) (rows : list Row) : Prop := {
  k_alive : length alive = length rows;
  k_logical l r : rows !! usize l = Some r → alive !! usize l = Some true → l ∈ default [] (logical !! r_logical r);
  k_logical_row lg l : l ∈ default [] (logical !! lg) → ∃ r, rows !! usize l = Some r ∧ r_logical r = lg;
  k_logical_nodup lg : NoDup (default [] (logical !! lg));
  k_counter : counter = count_if id alive;
  k_phrases : phrases = count_if (λ p, p.1 && predicate_has_phrases (r_words p.2)) (zip alive rows);
}.

(** Body groups, classes and postings. *)
Record groups_ok (d : Dict) (ixs : ProbeLane → CandidateIndex B) (class : list CostClass) (dup_of : list N)
  (members bodies : gmap N (list N)) (posts : ProbeLane → list (N * N)) (exs : list Extracted) (rows : list Row) : Prop := {
  k_class : length class = length rows;
  k_dup : length dup_of = length rows;
  k_index lane : index_holds (ixs lane) (posts lane);
  (** only leaders are posted, in the lane of their class *)
  k_posted lane key l : (key, l) ∈ posts lane → dup_of !! usize l = Some l ∧ lane_of <$> class !! usize l = Some lane;
  k_cover l ex c : exs !! usize l = Some ex → dup_of !! usize l = Some l → class !! usize l = Some c →
    cover d ex (lane_of c) (keys_of (posts (lane_of c)) l);
  (** a duplicate has a leader with its body, in its class *)
  k_leader m L a : dup_of !! usize m = Some L → rows !! usize m = Some a →
    dup_of !! usize L = Some L ∧ class !! usize m = class !! usize L ∧
    ∃ b, rows !! usize L = Some b ∧ same_body a b;
  k_members L m : m ∈ default [] (members !! L) ↔ dup_of !! usize m = Some L ∧ m ≠ L;
  k_members_nodup L : NoDup (default [] (members !! L));
  k_body h L : L ∈ default [] (bodies !! h) → dup_of !! usize L = Some L;
}.

(** The filter and the tag summary of a sealed segment reject nothing that is
    there. *)
Record seal_ok (f : option SegmentFilter) (t : option TagSummary) (posts : ProbeLane → list (N * N)) (rows : list Row) : Prop := {
  k_filter flt : f = Some flt →
    filter_wf flt ∧ ∀ lane key l, (key, l) ∈ posts lane → may_contain flt key = Some true;
  k_summary s : t = Some s →
    StronglySorted rle (ts_ids s) ∧ ∀ r x, r ∈ rows → x ∈ r_tags r → x ∈ ts_ids s;
}.

Record seg_ok (d : Dict) seg (s : SegSpec) : Prop := {
  k_rows : rows_ok d (sg_exact seg) (sp_exs s) (sp_rows s);
  k_identity : identity_ok (sg_alive seg) (sg_alive_counter seg) (sg_live_phrases seg) (sg_logical_index seg) (sp_rows s);
  k_groups : groups_ok d (lane_index seg) (sg_class seg) (sg_dup_of seg) (sg_dup_members seg) (sg_body_index seg)
    (sp_posts s) (sp_exs s) (sp_rows s);
  k_seal : seal_ok (sg_filter seg) (sg_tag_summary seg) (sp_posts s) (sp_rows s);
}.

Lemma seg_ok_mono d d' seg s : mask_le d d' → seg_ok d seg s → seg_ok d' seg s.
Proof.
  intros Hle [[] ? [] ?]. split; [split; try done|done|split; try done|done].
  - eapply Forall2_impl; [done|]. intros ex r. by apply stored_as_mono.
  - intros l ex c H1 H2 H3. eapply cover_mono; [done|]. eauto.
Qed.

Lemma segment_new_ok d : seg_ok d segment_new (mkSegSpec [] [] (λ _, [])).
Proof.
  split; simpl.
  - split; [apply store_new_holds|by intros []|constructor|constructor|done].
  - split; try done; intros *; rewrite ?lookup_nil, ?lookup_empty; simpl; try done.
    + by intros ?%not_elem_of_nil.
    + constructor.
  - split; try done.
    + intros []; apply index_holds_new.
    + by intros lane key l ?%not_elem_of_nil.
    + intros l m. rewrite lookup_empty, lookup_nil. simpl. split; [by intros ?%not_elem_of_nil|by intros [? _]].
    + intros l. rewrite lookup_empty. constructor.
    + intros h l. rewrite lookup_empty. by intros ?%not_elem_of_nil.
  - by split.
Qed.

(** ** Appending keeps the invariant *)

Lemma elem_of_entry_push k v (m : gmap N (list N)) k' x :
  x ∈ default [] (entry_push k v m !! k') ↔ x ∈ default [] (m !! k') ∨ (k' = k ∧ x = v).
Proof using Type.
  unfold entry_push. destruct (decide (k' = k)) as [->|Hne].
  - rewrite lookup_insert_eq. simpl. rewrite elem_of_app, list_elem_of_singleton. naive_solver.
  - rewrite lookup_insert_ne by done. naive_solver.
Qed.

Lemma entry_push_nodup k v (m : gmap N (list N)) k' :
  NoDup (default [] (m !! k')) → v ∉ default [] (m !! k) → NoDup (default [] (entry_push k v m !! k')).
Proof using Type.
  intros Hnd Hv. unfold entry_push. destruct (decide (k' = k)) as [->|Hne].
  - rewrite lookup_insert_eq. simpl. apply NoDup_app. split_and!; [done| |apply NoDup_singleton].
    by intros x Hx ->%list_elem_of_singleton.
  - by rewrite lookup_insert_ne.
Qed.

Lemma lookup_snoc_usize {A} (l : list A) x n y :
  (l ++ [x]) !! usize n = Some y ↔ l !! usize n = Some y ∨ (n = nlen l ∧ x = y).
Proof using Type.
  rewrite lookup_snoc_Some. unfold nlen. split.
  - intros [[_ ?]|[? ->]]; [by left|right; split; [lia|done]].
  - intros [Hl|[-> ->]]; [left; split; [by apply lookup_lt_Some in Hl|done]|right; split; [lia|done]].
Qed.

Lemma lookup_nlen {A} (l : list A) : l !! usize (nlen l) = None.
Proof using Type. apply lookup_ge_None. unfold nlen. lia. Qed.

Lemma count_if_app {A} (p : A → bool) l k : count_if p (l ++ k) = count_if p l + count_if p k.
Proof using Type. unfold count_if. rewrite filter_app, length_app. lia. Qed.

Lemma count_if_singleton {A} (p : A → bool) x : count_if p [x] = if p x then 1 else 0.
Proof using Type. unfold count_if. rewrite filter_cons. by destruct (p x). Qed.

Lemma count_if_le {A} (p : A → bool) l : count_if p l ≤ nlen l.
Proof using Type. unfold count_if, nlen. pose proof (length_filter (λ x, p x = true) l). lia. Qed.

Lemma identity_push alive counter phrases logical rows r :
  identity_ok alive counter phrases logical rows → nlen rows ≤ U32_MAX →
  identity_ok (alive ++ [true]) (wrap64 (counter + 1))
    (if predicate_has_phrases (r_words r) then wrap64 (phrases + 1) else phrases)
    (entry_push (r_logical r) (nlen rows) logical) (rows ++ [r]).
Proof using Type.
  intros [Ha Hl Hr Hn Hc Hp] Hlen. assert (nlen alive = nlen rows) as Hal by (unfold nlen; by rewrite Ha).
  pose proof (count_if_le id alive) as Hc'.
  pose proof (count_if_le (λ p, p.1 && predicate_has_phrases (r_words p.2)) (zip alive rows)) as Hp'.
  assert (nlen (zip alive rows) ≤ U32_MAX) by (unfold nlen in *; rewrite length_zip; lia). unfold U32_MAX in *.
  split.
  - rewrite !length_app. simpl. lia.
  - intros l r' Hr' Hal'. apply elem_of_entry_push. apply lookup_snoc_usize in Hr' as [Hr'|[-> ->]]; [|by right].
    left. eapply Hl; [done|]. apply lookup_snoc_usize in Hal' as [?|[-> _]]; [done|].
    by rewrite Hal, lookup_nlen in Hr'.
  - intros lg l [Hin|[-> ->]]%elem_of_entry_push.
    + destruct (Hr lg l Hin) as (r' & Hr' & ?). exists r'. split; [|done]. apply lookup_snoc_usize. by left.
    + exists r. split; [|done]. apply lookup_snoc_usize. by right.
  - intros lg. apply entry_push_nodup; [done|]. intros (r' & Hr' & _)%Hr. by rewrite lookup_nlen in Hr'.
  - rewrite count_if_app, count_if_singleton, <-Hc. apply wrap_small. unfold fits. simpl. lia.
  - rewrite zip_with_app, count_if_app by done. simpl zip_with. rewrite count_if_singleton, <-Hp. simpl.
    destruct (predicate_has_phrases (r_words r)); [|lia]. apply wrap_small. unfold fits. lia.
Qed.

Lemma keys_of_app posts posts' l : keys_of (posts ++ posts') l = keys_of posts l ++ keys_of posts' l.
Proof using Type. unfold keys_of. by rewrite filter_app, fmap_app. Qed.

Lemma elem_of_keys_of posts l k : k ∈ keys_of posts l ↔ (k, l) ∈ posts.
Proof using Type.
  unfold keys_of. rewrite list_elem_of_fmap. split.
  - intros ([a b] & -> & [Hb Hin]%list_elem_of_filter). simpl in *. by subst.
  - intros Hin. exists (k, l). split; [done|]. by apply list_elem_of_filter.
Qed.

Section append.
Context (d : Dict) (ixs : ProbeLane → CandidateIndex B) (class : list CostClass) (dup_of : list N)
  (members bodies : gmap N (list N)) (posts : ProbeLane → list (N * N)) (exs : list Extracted) (rows : list Row).
Hypothesis Hok : groups_ok d ixs class dup_of members bodies posts exs rows.
Hypothesis Hexs : length exs = length rows.
Let n := nlen rows.

Lemma nlen_class : nlen class = n ∧ nlen dup_of = n ∧ nlen exs = n.
Proof using Hok Hexs. unfold n, nlen. destruct Hok. repeat split; congruence. Qed.

(** A duplicate joins a group. *)
Lemma groups_join ex r L c b :
  dup_of !! usize L = Some L → class !! usize L = Some c → rows !! usize L = Some b → same_body r b →
  groups_ok d ixs (class ++ [c]) (dup_of ++ [L]) (entry_push L n members) bodies posts (exs ++ [ex]) (rows ++ [r]).
Proof using Hok Hexs.
  intros HL Hc Hb Hs. destruct nlen_class as (Hnc & Hnd & Hne). destruct Hok as [Kc Kd Ki Kp Kv Kl Km Kn Kb].
  assert (L ≠ n) as HLn. { intros ->. unfold n in Hb. by rewrite lookup_nlen in Hb. }
  assert (∀ l x, dup_of !! usize l = Some x → (dup_of ++ [L]) !! usize l = Some x) as Hdup.
  { intros l x Hx. apply lookup_snoc_usize. by left. }
  assert (∀ l x, class !! usize l = Some x → (class ++ [c]) !! usize l = Some x) as Hcl.
  { intros l x Hx. apply lookup_snoc_usize. by left. }
  split.
  - rewrite !length_app. simpl. lia.
  - rewrite !length_app. simpl. lia.
  - done.
  - intros lane key l Hin. destruct (Kp lane key l Hin) as [H1 H2]. split; [by apply Hdup|].
    destruct (class !! usize l) as [c'|] eqn:E; [|done]. by rewrite (Hcl _ _ E).
  - intros l ex' c' He Hd Hc'. apply lookup_snoc_usize in He as [He|[-> ->]].
    + apply lookup_snoc_usize in Hd as [Hd|[-> ->]]; [|rewrite Hnd in HLn; done].
      apply lookup_snoc_usize in Hc' as [Hc'|[-> _]]; [by eapply Kv|]. by rewrite Hnc, <-Hne, lookup_nlen in He.
    + apply lookup_snoc_usize in Hd as [Hd|[_ ->]]; [by rewrite Hne, <-Hnd, lookup_nlen in Hd|by rewrite Hne in HLn].
  - intros m L' a Hm Ha. apply lookup_snoc_usize in Ha as [Ha|[-> ->]].
    + apply lookup_snoc_usize in Hm as [Hm|[-> _]]; [|by rewrite Hnd in Ha; unfold n in Ha; rewrite lookup_nlen in Ha].
      destruct (Kl m L' a Hm Ha) as (H1 & H2 & b' & H3 & H4). split_and!; [by apply Hdup| |].
      * assert (is_Some (class !! usize m)) as [x Hx].
        { apply lookup_lt_is_Some. rewrite Kc. by apply lookup_lt_Some in Ha. }
        rewrite (Hcl _ _ Hx). rewrite H2 in Hx. by rewrite (Hcl _ _ Hx).
      * exists b'. split; [|done]. apply lookup_snoc_usize. by left.
    + apply lookup_snoc_usize in Hm as [Hm|[_ <-]]; [fold n in Hm; by rewrite <-Hnd, lookup_nlen in Hm|].
      split_and!; [by apply Hdup| |exists b; split; [apply lookup_snoc_usize; by left|done]].
      rewrite (Hcl _ _ Hc). apply lookup_snoc_usize. right. by rewrite Hnc.
  - intros L' m. rewrite elem_of_entry_push, Km, lookup_snoc_usize, Hnd.
    split; [intros [[? ?]|[-> ->]]; [naive_solver|split; [by right|done]]|].
    intros [[?|[-> ->]] ?]; [left; done|by right].
  - intros L'. apply entry_push_nodup; [done|]. rewrite Km. intros [Hx _]. by rewrite <-Hnd, lookup_nlen in Hx.
  - intros h L' Hin. by eapply Hdup, Kb.
Qed.

Definition lead_posts (ks : ProbeLane → list N) (lane : ProbeLane) : list (N * N) :=
  posts lane ++ ((λ k, (k, n)) <$> ks lane).

Lemma insert_keys_all keys l (ix : CandidateIndex B) : insert_keys keys l ix = insert_all ((λ k, (k, l)) <$> keys) ix.
Proof using Type. revert ix. induction keys as [|k keys IH]; intros ix; [done|]. simpl. by rewrite <-IH. Qed.

Lemma lead_index ks lane : n ≤ U32_MAX → index_holds (insert_keys (ks lane) n (ixs lane)) (lead_posts ks lane).
Proof using All.
  intros Hn. destruct nlen_class as (Hnc & Hnd & Hne). destruct Hok as [Kc Kd Ki Kp Kv Kl Km Kn Kb].
  rewrite insert_keys_all. apply insert_all_holds; [apply Ki|].
  assert (∀ x, x ≤ n → fits 32 x) as Hf by (unfold fits, U32_MAX in *; intros; lia).
  rewrite fmap_app, Forall_app. split; apply Forall_fmap, Forall_forall.
  - intros [k l] Hin. apply Hf. destruct (Kp _ _ _ Hin) as [Hx%lookup_lt_Some _]. unfold n, nlen in *. simpl. lia.
  - intros e (k & -> & _)%list_elem_of_fmap. by apply Hf.
Qed.

(** A new leader. *)
Lemma groups_lead ex r c body ks :
  n ≤ U32_MAX → (∀ lane, lane ≠ lane_of c → ks lane = []) → cover d ex (lane_of c) (ks (lane_of c)) →
  groups_ok d (λ lane, insert_keys (ks lane) n (ixs lane)) (class ++ [c]) (dup_of ++ [n]) members
    (match body with Some h => entry_push h n bodies | None => bodies end) (lead_posts ks) (exs ++ [ex]) (rows ++ [r]).
Proof using All.
  intros Hn Hks Hcov. destruct nlen_class as (Hnc & Hnd & Hne). pose proof (lead_index ks) as Hix.
  destruct Hok as [Kc Kd Ki Kp Kv Kl Km Kn Kb].
  assert (∀ l x, dup_of !! usize l = Some x → (dup_of ++ [n]) !! usize l = Some x) as Hdup.
  { intros l x Hx. apply lookup_snoc_usize. by left. }
  assert (∀ l x, class !! usize l = Some x → (class ++ [c]) !! usize l = Some x) as Hcl.
  { intros l x Hx. apply lookup_snoc_usize. by left. }
  assert ((dup_of ++ [n]) !! usize n = Some n) as Hself by (apply lookup_snoc_usize; right; by rewrite Hnd).
  assert (∀ m L, dup_of !! usize m = Some L → L ≠ n ∧ m ≠ n) as Hold.
  { intros m L Hm. assert (is_Some (rows !! usize m)) as [a Ha].
    { apply lookup_lt_is_Some. rewrite <-Kd. by apply lookup_lt_Some in Hm. }
    destruct (Kl m L a Hm Ha) as (_ & _ & b & Hb & _). unfold n. split; intros ->; [rewrite lookup_nlen in Hb|rewrite lookup_nlen in Ha]; done. }
  split.
  - rewrite !length_app. simpl. lia.
  - rewrite !length_app. simpl. lia.
  - intros lane. by apply Hix.
  - intros lane key l [Hin|Hin]%elem_of_app.
    + destruct (Kp lane key l Hin) as [H1 H2]. split; [by apply Hdup|].
      destruct (class !! usize l) as [c'|] eqn:E; [|done]. by rewrite (Hcl _ _ E).
    + apply list_elem_of_fmap in Hin as (k & [= -> ->] & Hk). split; [done|].
      assert ((class ++ [c]) !! usize n = Some c) as -> by (apply lookup_snoc_usize; right; by rewrite Hnc).
      simpl. f_equal. destruct (decide (lane = lane_of c)) as [|Hl]; [done|]. rewrite (Hks _ Hl) in Hk. by apply not_elem_of_nil in Hk.
  - intros l ex' c' He Hd Hc'. apply lookup_snoc_usize in He as [He|[-> ->]].
    + assert (l ≠ n) as Hln by (intros ->; by rewrite <-Hne, lookup_nlen in He).
      apply lookup_snoc_usize in Hd as [Hd|[-> _]]; [|by rewrite Hnd in Hln].
      apply lookup_snoc_usize in Hc' as [Hc'|[-> _]]; [|by rewrite Hnc in Hln].
      eapply cover_sub; [|by apply (Kv l)]. intros key Hin. unfold lead_posts. rewrite keys_of_app. apply elem_of_app. by left.
    + rewrite Hne in *. apply lookup_snoc_usize in Hc' as [Hc'|[_ <-]]; [by rewrite <-Hnc, lookup_nlen in Hc'|].
      eapply cover_sub; [|exact Hcov]. intros key Hin.
      apply elem_of_keys_of, elem_of_app. right. apply list_elem_of_fmap. eauto.
  - intros m L a Hm Ha. apply lookup_snoc_usize in Hm as [Hm|[-> <-]].
    + destruct (Hold _ _ Hm) as [_ Hmn]. apply lookup_snoc_usize in Ha as [Ha|[-> _]]; [|done].
      destruct (Kl m L a Hm Ha) as (H1 & H2 & b & H3 & H4). split_and!; [by apply Hdup| |].
      * assert (is_Some (class !! usize m)) as [x Hx].
        { apply lookup_lt_is_Some. rewrite Kc. by apply lookup_lt_Some in Ha. }
        rewrite (Hcl _ _ Hx). rewrite H2 in Hx. by rewrite (Hcl _ _ Hx).
      * exists b. split; [|done]. apply lookup_snoc_usize. by left.
    + rewrite Hnd in *. split_and!; [done..|]. by exists a.
  - intros L m. rewrite Km, lookup_snoc_usize, Hnd. split; [naive_solver|]. intros [[?|[-> <-]] ?]; done.
  - done.
  - intros h L Hin. destruct body as [h'|]; [|by eapply Hdup, Kb].
    apply elem_of_entry_push in Hin as [Hin|[_ ->]]; [by eapply Hdup, Kb|done].
Qed.
End append.

(** ** The operations keep the invariant *)

Lemma try_find_total {A} (p : A → option bool) l :
  (∀ x, x ∈ l → ∃ b, p x = Some b) →
  ∃ r, try_find p l = Some r ∧ match r with Some x => x ∈ l ∧ p x = Some true | None => ∀ x, x ∈ l → p x = Some false end.
Proof using Type.
  induction l as [|x l IH]; intros Hp; simpl.
  { exists None. split; [done|]. by intros x ?%not_elem_of_nil. }
  destruct (Hp x) as [b Hb]; [by left|]. rewrite Hb. simpl. destruct b.
  - exists (Some x). split; [done|]. split; [by left|done].
  - destruct IH as ([y|] & -> & Hr); [intros y Hy; apply Hp; by right| |].
    + exists (Some y). split; [done|]. destruct Hr. split; [by right|done].
    + exists None. split; [done|]. intros y [->|Hy]%elem_of_cons; auto.
Qed.

Lemma lookup_app_old {A} (l k : list A) i x : l !! i = Some x → (l ++ k) !! i = Some x.
Proof using Type. intros Hl. by apply lookup_app_l_Some. Qed.

(** Looking for a leader among the rows of one body hash. *)
Lemma find_leader_spec d seg (st : ExactStore) exs rows ex r leaders ok :
  rows_ok d st (exs ++ [ex]) (rows ++ [r]) → length (sg_class seg) = length rows → length exs = length rows →
  (∀ L c, L ∈ leaders → is_Some (rows !! usize L) ∧ is_Some (ok L c)) →
  ∃ res, find_leader ok leaders (nlen rows) (with_exact st seg) = Some res ∧
    match res with
    | Some L => L ∈ leaders ∧ ∃ c b, sg_class seg !! usize L = Some c ∧ ok L c = Some true ∧ rows !! usize L = Some b ∧ same_body r b
    | None => True
    end.
Proof using Type.
  intros [Hst _ _ Hexs _] Hc Hl Hin.
  assert ((rows ++ [r]) !! usize (nlen rows) = Some r) as Hr by apply lookup_push.
  assert (∀ i b, rows !! usize i = Some b → words_ok (r_words b)) as Hold.
  { intros i b Hb. destruct (Forall2_lookup_r _ _ _ _ _ Hexs (lookup_app_old _ [r] _ _ Hb)) as (e & _ & He).
    by apply stored_as_words in He as [_ ?]. }
  assert (words_ok (r_words r)) as Hw.
  { destruct (Forall2_lookup_r _ _ _ _ _ Hexs Hr) as (e & _ & He). by apply stored_as_words in He as [_ ?]. }
  unfold find_leader. cbn [sg_class sg_exact with_exact].
  edestruct (try_find_total (λ l, c ← sg_class seg !! usize l; admitted ← ok l c;
    if admitted : bool then bodies_equal st l (nlen rows) else Some false) leaders) as (res & -> & Hres).
  { intros L HL. destruct (Hin L ClassA HL) as [[b Hb] _]. assert (is_Some (sg_class seg !! usize L)) as [c ->].
    { apply lookup_lt_is_Some. rewrite Hc. by apply lookup_lt_Some in Hb. }
    simpl. destruct (proj2 (Hin L c HL)) as [[] ->]; [|by eexists]. simpl.
    rewrite (bodies_equal_eval st _ b r _ _ Hst (lookup_app_old _ _ _ _ Hb) Hr). apply bodies_equal_total; eauto. }
  exists res. split; [done|]. destruct res as [L|]; [|done]. destruct Hres as [HL Heq]. split; [done|].
  destruct (proj1 (Hin L ClassA HL)) as [b Hb]. destruct (sg_class seg !! usize L) as [c|]; [|done]. simpl in Heq.
  exists c, b. destruct (ok L c) as [[]|]; [|done..]. split_and!; try done. simpl in Heq.
  rewrite (bodies_equal_eval st _ b r _ _ Hst (lookup_app_old _ _ _ _ Hb) Hr) in Heq. symmetry. by apply bodies_equal_rows.
Qed.

Definition unsealed seg : Prop := sg_filter seg = None ∧ sg_tag_summary seg = None.

(** Appending a row, as a leader or as a member: the segment holds one more
    query, alive, under the next local id. *)
Definition appended d seg seg' (s : SegSpec) (ex : Extracted) (r : Row) (c : CostClass) (posts : ProbeLane → list (N * N)) : Prop :=
  unsealed seg' ∧ sg_alive seg' = sg_alive seg ++ [true] ∧ sg_class seg' = sg_class seg ++ [c] ∧
  seg_ok d seg' (mkSegSpec (sp_exs s ++ [ex]) (sp_rows s ++ [r]) posts).

Lemma push_identity_ok d seg s exs ex r posts :
  rows_ok d (sg_exact seg) (exs ++ [ex]) (sp_rows s ++ [r]) →
  identity_ok (sg_alive seg) (sg_alive_counter seg) (sg_live_phrases seg) (sg_logical_index seg) (sp_rows s) →
  groups_ok d (lane_index seg) (sg_class seg) (sg_dup_of seg) (sg_dup_members seg) (sg_body_index seg)
    posts (exs ++ [ex]) (sp_rows s ++ [r]) →
  unsealed seg →
  ∃ seg', push_identity (nlen (sp_rows s)) (r_logical r) seg = Some seg' ∧
    unsealed seg' ∧ sg_alive seg' = sg_alive seg ++ [true] ∧ sg_class seg' = sg_class seg ∧
    sg_dup_of seg' = sg_dup_of seg ∧
    seg_ok d seg' (mkSegSpec (exs ++ [ex]) (sp_rows s ++ [r]) posts).
Proof using Type.
  intros Hrows Hid Hg [Hf Ht]. unfold push_identity.
  assert (nlen (sp_rows s) ≤ U32_MAX) as Hlen.
  { pose proof (k_len _ _ _ _ Hrows) as Hn. unfold nlen in *. rewrite length_app in Hn. lia. }
  rewrite (row_has_phrases_row (sg_exact seg) (sp_rows s ++ [r]) r _ (k_store _ _ _ _ Hrows)) by apply lookup_push.
  simpl. eexists. split; [done|]. split_and!; try done. split; simpl; try done.
  - by apply identity_push.
  - split; simpl; congruence.
Qed.

Lemma join_group_ok d seg s ex r st L c b :
  seg_ok d seg s → unsealed seg → rows_ok d st (sp_exs s ++ [ex]) (sp_rows s ++ [r]) →
  sg_dup_of seg !! usize L = Some L → sg_class seg !! usize L = Some c → sp_rows s !! usize L = Some b → same_body r b →
  ∃ seg', push_identity (nlen (sp_rows s)) (r_logical r)
      (join_group L (nlen (sp_rows s)) c (with_exact st seg)) = Some seg' ∧ appended d seg seg' s ex r c (sp_posts s).
Proof using Type.
  intros [Hr Hi Hg _] Hu Hrows HL Hc Hb Hs.
  pose proof (groups_join _ _ _ _ _ _ _ _ _ Hg (Forall2_length _ _ _ (k_exs _ _ _ _ Hr)) ex r L c b HL Hc Hb Hs) as Hg'.
  destruct (push_identity_ok d (join_group L (nlen (sp_rows s)) c (with_exact st seg)) s (sp_exs s) ex r (sp_posts s))
    as (seg' & -> & Hu' & Ha & Hc' & _ & Hok); [done..|]. by exists seg'.
Qed.

Lemma lead_group_ok d seg s ex r st c body mains broads hots :
  seg_ok d seg s → unsealed seg → rows_ok d st (sp_exs s ++ [ex]) (sp_rows s ++ [r]) →
  let ks lane := match lane with Main => mains | Broad => broads | Hot => hots end in
  (∀ lane, lane ≠ lane_of c → ks lane = []) → cover d ex (lane_of c) (ks (lane_of c)) →
  ∃ seg', push_identity (nlen (sp_rows s)) (r_logical r)
      (lead_group (nlen (sp_rows s)) body mains broads hots c (with_exact st seg)) = Some seg' ∧
    appended d seg seg' s ex r c (lead_posts (sp_posts s) (sp_rows s) ks).
Proof using All.
  intros [Hr Hi Hg _] Hu Hrows ks Hks Hcov.
  pose proof (groups_lead _ _ _ _ _ _ _ _ _ Hg (Forall2_length _ _ _ (k_exs _ _ _ _ Hr)) ex r c body ks
    (k_len _ _ _ _ Hr) Hks Hcov) as Hg'.
  destruct (push_identity_ok d (lead_group (nlen (sp_rows s)) body mains broads hots c (with_exact st seg)) s (sp_exs s) ex r
    (lead_posts (sp_posts s) (sp_rows s) ks)) as (seg' & -> & Hu' & Ha & Hc' & _ & Hok); [done|done| |done|].
  - destruct Hg'. split; try done. intros lane. specialize (k_index0 lane). by destruct lane.
  - by exists seg'.
Qed.

Lemma appended_class d seg seg' s ex r c posts :
  seg_ok d seg s → appended d seg seg' s ex r c posts → sg_class seg' !! usize (nlen (sp_rows s)) = Some c.
Proof using Type.
  intros [_ _ Hgr _] (_ & _ & -> & _). apply lookup_snoc_usize. right. unfold nlen.
  by rewrite (k_class _ _ _ _ _ _ _ _ _ Hgr).
Qed.

Lemma body_leader_spec d seg s st ex r ok h :
  seg_ok d seg s → rows_ok d st (sp_exs s ++ [ex]) (sp_rows s ++ [r]) →
  (∀ L c, (usize L < length (sp_rows s))%nat → is_Some (ok L c)) →
  ∃ res, body_leader ok h (nlen (sp_rows s)) (with_exact st seg) = Some res ∧
    match res with
    | Some L => sg_dup_of seg !! usize L = Some L ∧ ∃ c b, sg_class seg !! usize L = Some c ∧
        ok L c = Some true ∧ sp_rows s !! usize L = Some b ∧ same_body r b
    | None => True
    end.
Proof using Type.
  intros [Hrows _ Hgr _] Hrows' Hok. unfold body_leader. cbn [sg_body_index with_exact].
  destruct (sg_body_index seg !! h) as [leaders|] eqn:E; [|by exists None].
  assert (∀ L, L ∈ leaders → sg_dup_of seg !! usize L = Some L) as Hld.
  { intros L HL. apply (k_body _ _ _ _ _ _ _ _ _ Hgr h). by rewrite E. }
  edestruct (find_leader_spec d seg st (sp_exs s) (sp_rows s) ex r leaders ok) as (res & -> & Hres);
    [done|apply Hgr|apply (Forall2_length _ _ _ (k_exs _ _ _ _ Hrows))| |].
  { intros L c HL. apply Hld, lookup_lt_Some in HL. rewrite (k_dup _ _ _ _ _ _ _ _ _ Hgr) in HL.
    split; [by apply lookup_lt_is_Some|by apply Hok]. }
  exists res. split; [done|]. destruct res as [L|]; [|done]. destruct Hres as (HL & c & b & ? & Hop & ? & ?).
  split; [by apply Hld|]. by exists c, b.
Qed.

(** The plan a row is added with. *)
Definition plan_of (ex : Extracted) (dict : Dict) (placement : QueryPlacement) (knobs : CompileKnobs) : SigPlan :=
  let plan := build_signatures ex dict (hot_anchor_threshold knobs) in
  if keep_visible knobs || bool_decide (pl_mode placement = ReplicatedAlwaysVisible) then pin_visible plan else plan.

Lemma add_compiled_ok d ex tags logical version rank placement source knobs seg s :
  seg_ok d seg s → unsealed seg → dict_wf d → push_fits ex tags placement (sg_exact seg) →
  nlen (sp_rows s) < U32_MAX → Forall graph_nonempty (query_graphs ex) → NoDup (required ex) →
  let r := row_of ex tags d version logical rank placement source in
  if rejects_class_d (sp_class (plan_of ex d placement knobs)) ex (accept_class_d knobs)
  then add_compiled ex tags d logical version rank placement source knobs seg = Some (None, seg)
  else ∃ a seg', add_compiled ex tags d logical version rank placement source knobs seg = Some (Some a, seg') ∧
    ac_local a = nlen (sp_rows s) ∧
    is_opt_in (ac_class a) = is_opt_in (sp_class (plan_of ex d placement knobs)) ∧
    ∃ posts, appended d seg seg' s ex r (ac_class a) posts.
Proof using All.
  intros Hok Hu Hwf Hfit Hlen Hg Hnd r. unfold add_compiled.
  change (if keep_visible knobs || bool_decide (pl_mode placement = ReplicatedAlwaysVisible)
    then pin_visible (build_signatures ex d (hot_anchor_threshold knobs))
    else build_signatures ex d (hot_anchor_threshold knobs)) with (plan_of ex d placement knobs).
  pose proof (build_signatures_cover ex d (hot_anchor_threshold knobs)
    (keep_visible knobs || bool_decide (pl_mode placement = ReplicatedAlwaysVisible)) Hnd) as Hcov.
  cbv zeta in Hcov. fold (plan_of ex d placement knobs) in Hcov. set (plan := plan_of ex d placement knobs) in *.
  destruct (rejects_class_d _ _ _); [done|]. pose proof Hok as [Hrows Hi Hgr _].
  pose proof (push_ranked_holds ex tags d version logical rank placement source (sg_exact seg) (sp_rows s)
    (k_store _ _ _ _ Hrows) Hfit) as Hpush. cbv zeta in Hpush.
  destruct (push_ranked _ _ _ _ _ _ _ _ _) as [local st]. cbn [fst snd] in Hpush. destruct Hpush as (Hst & -> & Hpk).
  rewrite as_u32_len by (unfold nlen in *; lia). fold (nlen (sp_rows s)).
  assert (rows_ok d st (sp_exs s ++ [ex]) (sp_rows s ++ [r])) as Hrows'.
  { split; [done|apply Hpk, Hrows| | |unfold nlen in *; rewrite length_app; simpl; lia].
    { apply Forall_app. split; [apply (k_fits _ _ _ _ Hrows)|]. constructor; [|done]. by eapply push_fits_row. }
    apply Forall2_app; [apply (k_exs _ _ _ _ Hrows)|]. constructor; [|done]. by exists d. }
  destruct (body_signature_total st (sp_rows s ++ [r]) r (nlen (sp_rows s))) as [h ->]; [done|apply lookup_push| |].
  { by apply stored_words_ok. }
  cbn [mbind option_bind].
  assert (∃ res, (if dedup_bodies knobs then body_leader (same_side (is_opt_in (sp_class plan))) h (nlen (sp_rows s)) (with_exact st seg)
      else Some None) = Some res ∧
    match res with
    | Some L => sg_dup_of seg !! usize L = Some L ∧ ∃ c b, sg_class seg !! usize L = Some c ∧
        is_opt_in c = is_opt_in (sp_class plan) ∧ sp_rows s !! usize L = Some b ∧ same_body r b
    | None => True
    end) as (res & -> & Hres).
  { destruct (dedup_bodies knobs); [|by exists None].
    destruct (body_leader_spec d seg s st ex r (same_side (is_opt_in (sp_class plan))) h) as (res & -> & Hres); [done..|].
    exists res. split; [done|]. destruct res as [L|]; [|done]. destruct Hres as (? & c & b & ? & Hs & ?). split; [done|].
    exists c, b. unfold same_side in Hs. injection Hs as ?%bool_decide_eq_true. done. }
  cbn [mbind option_bind]. destruct res as [L|].
  - destruct Hres as (HL & c & b & Hc & Hop & Hb & Hs). cbn [sg_class with_exact]. rewrite Hc. cbn [mbind option_bind].
    destruct (join_group_ok d seg s ex r st L c b) as (seg' & Hp & Happ); [done..|]. cbn [r_logical r row_of] in Hp.
    rewrite Hp. cbn [mbind option_bind]. rewrite (appended_class _ _ _ _ _ _ _ _ Hok Happ).
    cbn [mbind option_bind]. eexists _, seg'. split_and!; eauto.
  - destruct Hcov as [Hlane Hcov].
    destruct (lead_group_ok d seg s ex r st (sp_class plan) (if dedup_bodies knobs then Some h else None)
      (main_sigs plan) (broad_sigs plan) (hot_sigs plan)) as (seg' & Hp & Happ); [done..| | |].
    { intros lane Hl. specialize (Hlane lane Hl). by destruct lane. }
    { by destruct (lane_of (sp_class plan)). }
    cbn [r_logical r row_of] in Hp. cbn [mbind option_bind]. rewrite Hp. cbn [mbind option_bind].
    rewrite (appended_class _ _ _ _ _ _ _ _ Hok Happ). cbn [mbind option_bind]. eexists _, seg'. split_and!; eauto.
Qed.

(** *** Deleting *)

Lemma count_if_insert {A} (p : A → bool) l i x y :
  l !! i = Some x → count_if p (<[i := y]> l) + (if p x then 1 else 0) = count_if p l + (if p y then 1 else 0).
Proof using Type.
  intros Hl. rewrite insert_take_drop by by apply lookup_lt_Some in Hl.
  rewrite <-(take_drop_middle l i x Hl) at 3. rewrite !count_if_app.
  change (y :: drop (S i) l) with ([y] ++ drop (S i) l). change (x :: drop (S i) l) with ([x] ++ drop (S i) l).
  rewrite !count_if_app, !count_if_singleton. lia.
Qed.

Lemma wrap64_pred n : 1 ≤ n → fits 64 n → wrap64 (n + 2 ^ 64 - 1) = n - 1.
Proof using Type.
  intros Hn Hf. unfold wrap, fits in *. replace (n + 2 ^ 64 - 1) with (n - 1 + 1 * 2 ^ 64) by lia.
  rewrite N.Div0.mod_add. apply N.mod_small. lia.
Qed.

Lemma identity_kill alive counter phrases logical rows l (slot : bool) r :
  identity_ok alive counter phrases logical rows → nlen rows ≤ U32_MAX →
  alive !! usize l = Some slot → rows !! usize l = Some r →
  identity_ok (<[usize l := false]> alive) (if slot then wrap64 (counter + 2 ^ 64 - 1) else counter)
    (if slot && predicate_has_phrases (r_words r) then wrap64 (phrases + 2 ^ 64 - 1) else phrases) logical rows.
Proof using Type.
  intros [Ka Kl Kr Kn Kc Kp] Hlen Ea Hrow. unfold U32_MAX, umax in Hlen.
  pose proof (count_if_insert id _ _ _ false Ea : count_if id (<[usize l := false]> alive) + (if slot then 1 else 0) =
    count_if id alive + 0) as Hc.
  assert (zip alive rows !! usize l = Some (slot, r)) as Hz by (rewrite lookup_zip_with, Ea; simpl; by rewrite Hrow).
  pose proof (count_if_insert (λ p, p.1 && predicate_has_phrases (r_words p.2)) _ _ _ (false, r) Hz) as Hp.
  assert (zip (<[usize l:=false]> alive) rows = <[usize l:=(false, r)]> (zip alive rows)) as Hzi.
  { rewrite <-(list_insert_id rows _ _ Hrow) at 1. by rewrite (insert_zip_with pair). }
  pose proof (count_if_le id alive) as Hle1.
  pose proof (count_if_le (λ p, p.1 && predicate_has_phrases (r_words p.2)) (zip alive rows)) as Hle2.
  assert (nlen (zip alive rows) = nlen rows ∧ nlen alive = nlen rows) as [Hz1 Hz2]
    by (unfold nlen; rewrite length_zip, Ka; lia).
  cbn [fst snd andb] in Hp. split; try done.
  - by rewrite length_insert.
  - intros l' r' Hr' Ha'. destruct (decide (usize l' = usize l)) as [E|E].
    + rewrite E, list_lookup_insert_eq in Ha' by by apply lookup_lt_Some in Ea. done.
    + rewrite list_lookup_insert_ne in Ha' by done. eauto.
  - destruct slot; [|lia]. rewrite Kc, wrap64_pred; [lia..|unfold fits; lia].
  - rewrite Hzi. destruct (slot && predicate_has_phrases (r_words r)); [|lia]. rewrite Kp, wrap64_pred; [lia..|unfold fits; lia].
Qed.

Lemma tombstone_ok d seg s l :
  seg_ok d seg s →
  ∃ seg', tombstone l seg = Some seg' ∧ seg_ok d seg' s ∧ sg_alive seg' = <[usize l := false]> (sg_alive seg) ∧
    sg_class seg' = sg_class seg ∧ (unsealed seg → unsealed seg').
Proof using Type.
  intros Hok. pose proof Hok as [Hr Hi Hg Hs]. unfold tombstone.
  destruct (sg_alive seg !! usize l) as [slot|] eqn:Ea.
  2:{ exists seg. split_and!; try done. by rewrite list_insert_ge by by apply lookup_ge_None. }
  assert (is_Some (sp_rows s !! usize l)) as [r Hrow].
  { apply lookup_lt_is_Some. rewrite <-(k_alive _ _ _ _ _ Hi). by apply lookup_lt_Some in Ea. }
  pose proof (identity_kill _ _ _ _ _ l slot r Hi (k_len _ _ _ _ Hr) Ea Hrow) as Hi'.
  rewrite (row_has_phrases_row _ _ r _ (k_store _ _ _ _ Hr) Hrow).
  destruct slot; simpl; eexists; (split; [done|]); (split_and!; try done); by split.
Qed.

(** *** Sealing *)

Lemma tags_in_blob st rows r x : store_holds st rows → r ∈ rows → x ∈ r_tags r → x ∈ tag_blob st.
Proof using Type.
  intros Hst [i Hi]%list_elem_of_lookup Hx. destruct (h_tags _ _ Hst) as (_ & _ & Hc).
  specialize (Hc i (r_tags r)). rewrite list_lookup_fmap, Hi in Hc. specialize (Hc eq_refl).
  unfold col_read in Hc. destruct (tag_off st !! i) as [o|]; [|done]. destruct (tag_len st !! i) as [n|]; [|done].
  simpl in Hc. unfold slice in Hc. case_decide; [|done]. injection Hc as Hc. rewrite <-Hc in Hx.
  rewrite <-(take_drop (usize o) (tag_blob st)), <-(take_drop (usize n) (drop _ _)), !elem_of_app. auto.
Qed.

Lemma summary_ids tags : StronglySorted rle (ts_ids (tag_summary_build tags)) ∧ ∀ x, x ∈ ts_ids (tag_summary_build tags) ↔ x ∈ tags.
Proof using Type.
  split; [apply sort_unstable_sorted|]. intros x. simpl. by rewrite elem_of_sort_unstable, elem_of_elements, elem_of_list_to_set.
Qed.

Lemma seg_build_filter_ok d seg s :
  seg_ok d seg s →
  ∃ seg', seg_build_filter seg = Some seg' ∧ seg_ok d seg' s ∧ sg_alive seg' = sg_alive seg ∧ sg_class seg' = sg_class seg.
Proof using All.
  intros [Hr Hi Hg _]. unfold seg_build_filter.
  destruct (filter_build_spec (index_keys (sg_main seg) ++ index_keys (sg_broad seg) ++ index_keys (sg_hot seg)))
    as (f & -> & Hwf & Hall). simpl. eexists. split; [done|]. split_and!; try done. split; simpl; try done.
  - destruct Hg. split; try done. intros h L. rewrite lookup_empty. by intros ?%not_elem_of_nil.
  - split.
    + intros flt [= <-]. split; [done|]. intros lane key l Hin. apply Hall.
      assert (key ∈ index_keys (lane_index seg lane)) as Hk.
      { eapply index_holds_keys; [apply (k_index _ _ _ _ _ _ _ _ _ Hg)|]. intros E.
        apply elem_of_inserted in Hin. rewrite E in Hin. by apply not_elem_of_nil in Hin. }
      rewrite !elem_of_app. destruct lane; auto.
    + intros t [= <-]. destruct (summary_ids (tag_blob (sg_exact seg))) as [Hs Hx]. split; [done|].
      intros r x Hin Htag. apply Hx. by eapply tags_in_blob; [apply (k_store _ _ _ _ Hr)|..].
Qed.

(** *** Rebuilding *)

Lemma index_logical_spec st rows alive :
  store_holds st rows → (length alive ≤ length rows)%nat → nlen rows ≤ U32_MAX →
  ∃ m, index_logical st alive = Some m ∧ (∀ lg, NoDup (default [] (m !! lg))) ∧
    ∀ l lg, l ∈ default [] (m !! lg) ↔
      alive !! usize l = Some true ∧ ∃ r, rows !! usize l = Some r ∧ r_logical r = lg.
Proof using Type.
  intros Hst. unfold index_logical. induction alive as [|a alive IH] using rev_ind; intros Hlen Hn.
  { exists ∅. split; [done|]. split; [intros lg; rewrite lookup_empty; constructor|].
    intros l lg. rewrite lookup_empty, lookup_nil. split; [by intros ?%not_elem_of_nil|by intros [? _]]. }
  rewrite length_app in Hlen. simpl in Hlen. destruct IH as (m & Hm & Hnd & Hin); [lia|done|].
  rewrite imap_app, foldl_app, Hm. simpl. rewrite Nat.add_0_r. fold (nlen alive) in *.
  assert (∀ l, (alive ++ [a]) !! usize l = Some true ↔ alive !! usize l = Some true ∨ (l = nlen alive ∧ a = true)) as Hl.
  { intros l. apply lookup_snoc_usize. }
  destruct a.
  2:{ exists m. split; [done|]. split; [done|]. intros l lg. rewrite Hin, Hl. naive_solver. }
  assert (is_Some (rows !! length alive)) as [r Hr] by (apply lookup_lt_is_Some; lia).
  rewrite (h_logical _ _ Hst), list_lookup_fmap, Hr. simpl. eexists. split; [done|].
  rewrite as_u32_len by (unfold nlen in *; lia). fold (nlen alive). split.
  - intros lg. apply entry_push_nodup; [done|]. intros [Ha _]%Hin. by rewrite lookup_nlen in Ha.
  - assert (usize (nlen alive) = length alive) as Hu by (unfold nlen; lia).
    intros l lg. rewrite elem_of_entry_push, Hin, Hl. split.
    + intros [[? ?]|[-> ->]]; [by eauto|]. split; [by right|]. exists r. by rewrite Hu.
    + intros [[?|[-> _]] (r' & Hr' & <-)]; [by eauto|]. right. rewrite Hu in Hr'. by simplify_eq.
Qed.

Lemma zip_snoc_take {A C} (l : list A) (k : list C) x y :
  k !! length l = Some y → zip (l ++ [x]) k = zip l k ++ [(x, y)].
Proof using Type.
  revert k. induction l as [|z l IH]; intros [|w k] Hk; simpl in *; try done.
  - injection Hk as ->. by destruct k.
  - by rewrite IH.
Qed.

Lemma count_phrases_alive_spec st rows alive :
  store_holds st rows → (length alive ≤ length rows)%nat → nlen rows ≤ U32_MAX →
  count_phrases_alive st alive = Some (count_if (λ p, p.1 && predicate_has_phrases (r_words p.2)) (zip alive rows)).
Proof using Type.
  intros Hst. unfold count_phrases_alive. induction alive as [|a alive IH] using rev_ind; intros Hlen Hn; [done|].
  rewrite length_app in Hlen. simpl in Hlen. rewrite imap_app, foldl_app, IH by (done || lia). simpl. rewrite Nat.add_0_r.
  assert (is_Some (rows !! length alive)) as [r Hr] by (apply lookup_lt_is_Some; lia).
  rewrite (zip_snoc_take _ _ _ r) by done. rewrite count_if_app, count_if_singleton. simpl.
  destruct a; simpl; [|by rewrite N.add_0_r]. rewrite (row_has_phrases_row _ _ r _ Hst).
  - simpl. by destruct (predicate_has_phrases (r_words r)); rewrite ?N.add_0_r.
  - rewrite as_u32_len by (unfold nlen in *; lia). unfold nlen. by rewrite Nat2N.id.
Qed.

Lemma count_phrases_none alive rows :
  existsb (λ r, predicate_has_phrases (r_words r)) rows = false →
  count_if (λ p, p.1 && predicate_has_phrases (r_words p.2)) (zip alive rows) = 0.
Proof using Type.
  intros He. unfold count_if. destruct (filter _ _) as [|[a r] l] eqn:E; [done|].
  assert ((a, r) ∈ filter (λ p, p.1 && predicate_has_phrases (r_words p.2) = true) (zip alive rows)) as Hin by (rewrite E; by left).
  apply list_elem_of_filter in Hin as [[_ Hp]%andb_true_iff Hin]. apply elem_of_zip_r in Hin.
  apply not_true_iff_false in He. destruct He. apply existsb_elem. eauto.
Qed.

(** A segment rebuilt from columns whose postings are expanded: every row leads
    itself. *)
Lemma from_parts_ok d main broad hot exact class alive s :
  rows_ok d exact (sp_exs s) (sp_rows s) → length alive = length (sp_rows s) → length class = length (sp_rows s) →
  let ixs lane := match lane with Main => main | Broad => broad | Hot => hot end in
  (∀ lane, index_holds (ixs lane) (sp_posts s lane)) →
  (∀ lane key l, (key, l) ∈ sp_posts s lane → lane_of <$> class !! usize l = Some lane) →
  (∀ l ex c, sp_exs s !! usize l = Some ex → class !! usize l = Some c →
     cover d ex (lane_of c) (keys_of (sp_posts s (lane_of c)) l)) →
  ∃ seg, from_parts main broad hot exact class alive = Some seg ∧ seg_ok d seg s ∧
    sg_alive seg = alive ∧ sg_class seg = class.
Proof using All.
  intros Hr Ha Hc ixs Hix Hpost Hcov. unfold from_parts. pose proof (k_store _ _ _ _ Hr) as Hst. pose proof (k_len _ _ _ _ Hr) as Hn.
  assert (store_len exact = length (sp_rows s)) as ->.
  { unfold store_len. rewrite (h_rmask _ _ Hst). by rewrite length_fmap. }
  rewrite (proj2 (Nat.eqb_eq _ _) Ha), (proj2 (Nat.eqb_eq _ _) Hc). cbn [negb].
  assert ((if has_phrase_predicates exact then count_phrases_alive exact alive else Some 0) =
    Some (count_if (λ p, p.1 && predicate_has_phrases (r_words p.2)) (zip alive (sp_rows s)))) as ->.
  { rewrite (h_phrases _ _ Hst). destruct (existsb _ _) eqn:E; [apply count_phrases_alive_spec; (done || lia)|].
    by rewrite count_phrases_none. }
  destruct (index_logical_spec exact (sp_rows s) alive Hst) as (m & -> & Hnd & Hin); [lia|done|]. simpl mbind.
  assert (∀ l L, (as_u32 <$> seq 0 (length alive)) !! usize l = Some L ↔ L = l ∧ is_Some (sp_rows s !! usize l)) as Hdup.
  { intros l L. rewrite list_lookup_fmap, lookup_lt_is_Some, <-Ha, fmap_Some. split.
    - intros (x & [-> Hx]%lookup_seq & ->). rewrite as_u32_small by (unfold nlen, U32_MAX, umax in Hn; lia). split; lia.
    - intros [-> Hx]. exists (usize l). split; [by apply lookup_seq|]. rewrite as_u32_small by (unfold nlen, U32_MAX, umax in Hn; lia). lia. }
  edestruct (seg_build_filter_ok d (mkSegment main broad hot exact class alive (count_if id alive)
    (count_if (λ p, p.1 && predicate_has_phrases (r_words p.2)) (zip alive (sp_rows s))) None None 0
    CURRENT_COMPILER_SEMANTICS_VERSION m (as_u32 <$> seq 0 (length alive)) ∅ ∅) s) as (seg & -> & Hok & ? & ?); [|by eauto].
  split; simpl; [done|split; try done|split; try done|by split].
  - intros l r H1 H2. apply Hin. eauto.
  - intros lg l [_ Hx]%Hin. done.
  - by rewrite length_fmap, length_seq.
  - intros lane key l Hp. split; [|by eapply Hpost]. apply Hdup. split; [done|]. apply lookup_lt_is_Some. rewrite <-Hc.
    specialize (Hpost lane key l Hp). destruct (class !! usize l) eqn:E; [by apply lookup_lt_Some in E|done].
  - intros l ex c H1 _ H3. eauto.
  - intros x L a [-> _]%Hdup Hrow. split_and!; [apply Hdup; eauto|done|by exists a].
  - intros L x. rewrite lookup_empty, Hdup. split; [by intros ?%not_elem_of_nil|intros [[-> _] ?]; done].
  - intros L. rewrite lookup_empty. constructor.
  - intros h L. rewrite lookup_empty. by intros ?%not_elem_of_nil.
Qed.
End invariant.
