(* ===== verification/SegMatch.v ===== *)
(** * Matching a title against a segment
    ([engine/src/segment/seg/matching.rs], [engine/src/segment/match_types.rs])

    [match_collect] probes the signatures of a title lane by lane, gated by the
    anchor filter; [probe] walks one posting, skips candidates it has already
    stamped with the epoch, verifies the others and delivers the live ones the
    request's tags and the emission policy let through, the members of a body
    group through their leader.

    The state of a run is the stamp array, the collector, the statistics and the
    deadline; a step continues, stops (the collector asked to) or is cancelled
    (the deadline expired).  [None] is a panic.

    The theorem: for the collectors that never stop and without a deadline, a run
    emits every live visible row once if and only if its query matches the title
    and its tags pass. *)

From S2P Require Import Prelude Util Filter Dictionary Index Phrase Compile Plan View Predicate Ownership Store Collect Segment.

(** ** Statistics

    The fields of [MatchStats]; a value is the function from field to counter. *)

Inductive Counter :=
  | unique_candidates | postings_scanned | broad_postings_scanned | main_candidates | broad_candidates | matches
  | stat_logical_emissions | stat_duplicate_emissions | probes_attempted | probes_skipped | tag_segments_skipped
  | broad_queries_evaluated | broad_anchors_scanned | broad_batches | broad_prefilter_skipped
  | hot_postings_scanned | hot_candidates | hot_queries_evaluated | hot_anchors_scanned | hot_batches
  | hot_prefilter_skipped.

#[export] Instance Counter_eq_dec : EqDecision Counter.
Proof. solve_decision. Defined.

Definition counter_width (c : Counter) : N :=
  match c with stat_logical_emissions | stat_duplicate_emissions => 64 | _ => 32 end.

Definition MatchStats := Counter → N.
Definition stats_default : MatchStats := λ _, 0.

(** [stats.field += n]. *)
Definition bump (c : Counter) (n : N) (s : MatchStats) : MatchStats :=
  λ c', if decide (c' = c) then wrap (counter_width c) (s c + n) else s c'.

Definition set_counter (c : Counter) (n : N) (s : MatchStats) : MatchStats :=
  λ c', if decide (c' = c) then n else s c'.

(** [MatchStats::merge]: field-wise. *)
Definition stats_merge (a b : MatchStats) : MatchStats := λ c, wrap (counter_width c) (a c + b c).

Definition record_cross_source_duplicates (emissions unique : nat) (s : MatchStats) : MatchStats :=
  set_counter stat_duplicate_emissions
    (sat_add 64 (s stat_duplicate_emissions) (try_u64 (emissions - unique))) s.

(** The lane's own counter, if it has one. *)
Definition lane_postings (lane : ProbeLane) (n : N) (s : MatchStats) : MatchStats :=
  match lane with Broad => bump broad_postings_scanned n s | Hot => bump hot_postings_scanned n s | Main => s end.

Definition lane_candidates (lane : ProbeLane) : Counter :=
  match lane with Broad => broad_candidates | Hot => hot_candidates | Main => main_candidates end.

(** ** The run *)

Record Run (C D : Type) := mkRun {
  run_seen : list N;
  run_coll : C;
  run_stats : MatchStats;
  run_deadline : DeadlinePoll D;
}.
Arguments mkRun {C D}.
Arguments run_seen {C D}.
Arguments run_coll {C D}.
Arguments run_stats {C D}.
Arguments run_deadline {C D}.

Inductive Flow := Go | Stop | Cancel.

Definition Step (C D : Type) := Run C D → option (Run C D * Flow).

Definition go {C D} : Step C D := λ st, Some (st, Go).
Definition halt {C D} (f : Flow) : Step C D := λ st, Some (st, f).

Definition andThen {C D} (m k : Step C D) : Step C D :=
  λ st, match m st with Some (st', Go) => k st' | r => r end.

Declare Scope run_scope.
Delimit Scope run_scope with run.
Notation "m ;;; k" := (andThen m k) (at level 100, right associativity) : run_scope.
#[global] Open Scope run_scope.

(** Reading a value; an index out of range panics. *)
Definition reading {A C D} (o : option A) (k : A → Step C D) : Step C D := λ st, a ← o; k a st.

Fixpoint each {A C D} (f : A → Step C D) (l : list A) : Step C D :=
  match l with [] => go | x :: l' => f x ;;; each f l' end.

Section run.
Context {C D : Type} `{MatchSink C} `{DeadlineCheck D}.

Definition counting (f : MatchStats → MatchStats) : Step C D :=
  λ st, Some (mkRun (run_seen st) (run_coll st) (f (run_stats st)) (run_deadline st), Go).

(** [if collector.should_stop() { return .. }]. *)
Definition unless_stopped : Step C D := λ st,
  let '(c, stop) := should_stop (run_coll st) in
  Some (mkRun (run_seen st) c (run_stats st) (run_deadline st), if stop : bool then Stop else Go).

(** [deadline.check_work()?]. *)
Definition work_unit : Step C D := λ st,
  let '(dl, expired) := check_work (run_deadline st) in
  Some (mkRun (run_seen st) (run_coll st) (run_stats st) dl, if expired : bool then Cancel else Go).

(** [collector.on_candidate(logical); if collector.should_stop() { .. }]. *)
Definition observe (logical : N) : Step C D :=
  (λ st, Some (mkRun (run_seen st) (on_candidate logical (run_coll st)) (run_stats st) (run_deadline st), Go)) ;;;
  unless_stopped.

(** [collect_match_at(..)], then [collector.should_stop()]. *)
Definition deliver (logical local : N) : Step C D :=
  (λ st,
    let '(c, dl, cancelled) := collect_match_at logical local (run_coll st) (run_deadline st) in
    Some (mkRun (run_seen st) c (run_stats st) dl, if cancelled : bool then Cancel else Go)) ;;;
  unless_stopped.

(** [if seen[local] == epoch { return true; } seen[local] = epoch; ..]. *)
Definition unless_seen (epoch local : N) (k : Step C D) : Step C D := λ st,
  stamp ← run_seen st !! usize local;
  if stamp =? epoch then Some (st, Go)
  else k (mkRun (<[usize local := epoch]> (run_seen st)) (run_coll st) (run_stats st) (run_deadline st)).

Section probing.
Context {B P : Type} `{Roaring B} `{EmissionPolicy P}.
Variable seg : Segment B.
Variable view : TitleView.
Variable dict : Dict.
Variable epoch : N.
Variable lanes : ProbeLanes.
Variable pred : TagPredicate.
Variable emission : P.

(** The placement gate comes last, and only on a match. *)
Definition emits_row (local : N) : option bool :=
  placement ← placement_of (sg_exact seg) local; should_emit emission placement.

Definition deliver_row (local : N) : Step C D :=
  reading (xs_logical (sg_exact seg) !! usize local) (λ logical, deliver logical local).

(** A candidate of a segment without body groups. *)
Definition visit_row (local : N) : Step C D :=
  reading (sg_alive seg !! usize local) (λ alive,
  if negb alive then go else
  (if OBSERVE_CANDIDATES then reading (xs_logical (sg_exact seg) !! usize local) observe else go) ;;;
  reading (matched ← verify (sg_exact seg) local view pred; if matched : bool then emits_row local else Some false) (λ emit,
  if emit : bool then deliver_row local else unless_stopped)).

(** A live row of a group, once the body has matched. *)
Definition member_emits (local : N) : option bool :=
  alive ← sg_alive seg !! usize local;
  if negb alive then Some false else
  tags ← tags_of (sg_exact seg) local;
  if negb (tag_matches pred tags) then Some false else emits_row local.

Definition emit_member (local : N) : Step C D :=
  reading (member_emits local) (λ emit,
  if emit : bool then deliver_row local else go).

Definition observe_member (local : N) : Step C D :=
  reading (sg_alive seg !! usize local) (λ alive,
  if alive : bool then reading (xs_logical (sg_exact seg) !! usize local) observe else go).

(** A candidate of a segment with body groups: the leader's body decides for
    the group. *)
Definition visit_group (local : N) : Step C D :=
  let members := members_of seg local in
  reading (if bool_decide (members = []) then sg_alive seg !! usize local else Some true) (λ possible,
  if negb possible then go else
  (if OBSERVE_CANDIDATES then
     observe_member local ;;; each (λ m, unless_stopped ;;; work_unit ;;; observe_member m) members
   else go) ;;;
  reading (verify (sg_exact seg) local view tag_empty) (λ matched,
  if negb matched then go else
  emit_member local ;;; each (λ m, unless_stopped ;;; work_unit ;;; emit_member m) members)).

Definition visit (lane : ProbeLane) (local : N) : Step C D :=
  unless_stopped ;;;
  work_unit ;;;
  unless_seen epoch local
    (counting (bump unique_candidates 1) ;;;
     counting (bump (lane_candidates lane) 1) ;;;
     (if has_dup_groups seg then visit_group local else visit_row local)).

(** The closure handed to [for_each_while]: it stops the walk unless the step
    continues, and remembers a cancellation. *)
Definition visit_closure (lane : ProbeLane) (s : option (Run C D * bool)) (local : N) : option (Run C D * bool) * bool :=
  match s with
  | None => (None, false)
  | Some (st, _) =>
      match visit lane local st with
      | None => (None, false)
      | Some (st', Go) => (Some (st', false), true)
      | Some (st', Stop) => (Some (st', false), false)
      | Some (st', Cancel) => (Some (st', true), false)
      end
  end.

Definition probe_index (key : N) (lane : ProbeLane) : Step C D := λ st,
  match index_get (lane_index seg lane) key with
  | None => Some (st, Go)
  | Some posting =>
      let n := as_u32 (posting_len posting) in
      let st := mkRun (run_seen st) (run_coll st) (lane_postings lane n (bump postings_scanned n (run_stats st))) (run_deadline st) in
      res ← for_each_while (visit_closure lane) (Some (st, false)) posting;
      r ← res;
      let '(st', cancelled) := r in
      Some (st', if cancelled : bool then Cancel else Go)
  end.

(** One signature probe: skipped when the anchor filter rules the key out. *)
Definition gated_probe (key : N) (lane : ProbeLane) : Step C D :=
  counting (bump probes_attempted 1) ;;;
  reading (match sg_filter seg with Some f => may_contain f key | None => Some true end) (λ maybe,
  if maybe : bool then probe_index key lane else counting (bump probes_skipped 1)).

Definition probe_single (lane : ProbeLane) (f : N) : Step C D :=
  unless_stopped ;;; work_unit ;;; gated_probe (sig_key [f]) lane.

(** The pairs of a masked feature with every other feature. *)
Definition probe_pairs (h : N) : Step C D :=
  unless_stopped ;;;
  work_unit ;;;
  if is_hot dict h then
    each (λ o,
      unless_stopped ;;;
      work_unit ;;;
      if o =? h then go else gated_probe (sig_key (if h <? o then [h; o] else [o; h])) Main) (pos view)
  else go.

Definition probe_lanes : Step C D :=
  unless_stopped ;;;
  each (probe_single Main) (probe view) ;;;
  each probe_pairs (pos view) ;;;
  (if include_hot lanes && has_hot_entries seg then each (probe_single Hot) (pos view) else go) ;;;
  (if include_broad lanes then
     each (probe_single Broad) (pos view) ;;;
     unless_stopped ;;;
     work_unit ;;;
     gated_probe universal_sig Broad
   else go).

(** [Ok] with the run, or [Err] when the deadline expired. *)
Definition match_collect (st : Run C D) : option (Run C D * bool) :=
  r ← probe_lanes st;
  let '(st', flow) := r in
  Some (st', match flow with Cancel => true | _ => false end).

End probing.
End run.

(** [match_into]: the unlimited collection of logical ids. *)
Definition match_into {B} `{Roaring B} (seg : Segment B) (view : TitleView) (dict : Dict) (epoch : N) (seen out : list N)
  (lanes : ProbeLanes) (pred : TagPredicate) (stats : MatchStats) : option (list N * list N * MatchStats) :=
  r ← match_collect seg view dict epoch lanes pred mkEmitAll
        (mkRun seen (mkVecSink out 0) stats (deadline_new mkNoDeadline));
  let '(st, _) := r in
  Some (run_seen st, vec_out (run_coll st), run_stats st).

(** ** Collectors that never stop *)

Class QuietSink (C : Type) `{MatchSink C} := {
  quiet_observe : OBSERVE_CANDIDATES = false;
  quiet_stop c : should_stop c = (c, false);
  quiet_match {P} (poll : P → P * bool) logical local p c :
    poll p = (p, false) → on_match_at_with_poll poll logical local (p, c) = (p, on_match logical c);
}.

#[export] Instance VecSink_quiet : QuietSink VecSink.
Proof. by split. Qed.
#[export] Instance AllCollector_quiet : QuietSink AllCollector.
Proof. by split. Qed.
#[export] Instance CountCollector_quiet : QuietSink CountCollector.
Proof. by split. Qed.

#[export] Instance TopKCollector_quiet : QuietSink (TopKCollector PlainScorer).
Proof.
  split; [done..|]. intros P poll logical local p [s f] Hp. simpl. unfold tkc_on_match, tkc_observe, topk_observe. simpl.
  by destruct (_ || _).
Qed.

Create HintDb run.

Section emission.
Context {C D : Type} `{QuietSink C} `{DeadlineCheck D}.
Hypothesis Hunarmed : ARMED (D:=D) = false.
Context {B P : Type} `{RoaringLaws B} `{EmissionPolicy P}.
Context (seg : Segment B) (s : SegSpec) (view : TitleView) (d : Dict) (epoch : N) (pred : TagPredicate) (emission : P).
Hypothesis Hseg : seg_ok d seg s.
Hypothesis Hwf : dict_wf d.
Hypothesis Hview : view_ok d view.
Hypothesis Hpolicy : ∀ l r, sp_rows s !! l = Some r → is_Some (should_emit emission (r_placement r)).

(** The row is live, its query matches, its tags pass and the policy emits it. *)
Definition row_emits (l : N) : bool :=
  match sp_exs s !! usize l, sp_rows s !! usize l, sg_alive seg !! usize l with
  | Some ex, Some r, Some alive =>
      alive && query_matches ex view && tag_matches pred (r_tags r) && default false (should_emit emission (r_placement r))
  | _, _, _ => false
  end.

Definition group_emits (l : N) : list N := filter (λ m, row_emits m = true) (l :: members_of seg l).

Definition logical_of (l : N) : N := default 0 (r_logical <$> sp_rows s !! usize l).

Definition emit_all (ls : list N) (c : C) : C := foldl (λ c l, on_match (logical_of l) c) c ls.

(** A step without stamping that delivers exactly [ls]. *)
Definition delivers (m : Step C D) (ls : list N) : Prop :=
  ∀ st, ∃ stats, m st = Some (mkRun (run_seen st) (emit_all ls (run_coll st)) stats (run_deadline st), Go).

Lemma delivers_go : delivers go [].
Proof using Type. intros st. exists (run_stats st). by destruct st. Qed.

Lemma delivers_then m k ls ls' : delivers m ls → delivers k ls' → delivers (m ;;; k) (ls ++ ls').
Proof using Type.
  intros Hm Hk st. destruct (Hm st) as [s1 E1]. unfold andThen. rewrite E1.
  destruct (Hk (mkRun (run_seen st) (emit_all ls (run_coll st)) s1 (run_deadline st))) as [s2 E2]. exists s2. rewrite E2.
  unfold emit_all. by rewrite foldl_app.
Qed.

Lemma delivers_unless_stopped : delivers unless_stopped [].
Proof using All. intros st. exists (run_stats st). unfold unless_stopped. by rewrite quiet_stop. Qed.

Lemma delivers_work_unit : delivers work_unit [].
Proof using All. intros st. exists (run_stats st). unfold work_unit, check_work. by rewrite Hunarmed. Qed.

Lemma delivers_counting f : delivers (counting f) [].
Proof using Type. intros st. by eexists. Qed.

Lemma delivers_reading {A} (o : option A) a k ls : o = Some a → delivers (k a) ls → delivers (reading o k) ls.
Proof using Type. intros -> Hk st. apply Hk. Qed.

Lemma delivers_each {A} (f : A → Step C D) (em : A → list N) l :
  (∀ x, x ∈ l → delivers (f x) (em x)) → delivers (each f l) (l ≫= em).
Proof using Type.
  induction l as [|x l IH]; intros Hf; simpl; [apply delivers_go|].
  apply delivers_then; [apply Hf; by left|]. apply IH. intros y Hy. apply Hf. by right.
Qed.

Lemma delivers_deliver logical local :
  logical_of local = logical → delivers (deliver logical local) [local].
Proof using All.
  intros Hl. unfold deliver. apply (delivers_then _ _ [local] []); [|apply delivers_unless_stopped].
  intros st. exists (run_stats st). unfold collect_match_at. rewrite quiet_match.
  - simpl. by rewrite Hl.
  - unfold poll_once, check_work. by rewrite Hunarmed.
Qed.

Lemma row_lookup l r :
  sp_rows s !! usize l = Some r →
  ∃ ex alive, sp_exs s !! usize l = Some ex ∧ stored_as d ex r ∧ sg_alive seg !! usize l = Some alive.
Proof using Hseg.
  intros Hr. destruct Hseg as [[_ _ _ Hexs _] [Ha _ _ _ _ _] _ _].
  destruct (Forall2_lookup_r _ _ _ _ _ Hexs Hr) as (ex & He & Hs).
  assert (is_Some (sg_alive seg !! usize l)) as [a Hal].
  { apply lookup_lt_is_Some. rewrite Ha. by apply lookup_lt_Some in Hr. }
  by exists ex, a.
Qed.

Lemma logical_lookup l r :
  sp_rows s !! usize l = Some r → xs_logical (sg_exact seg) !! usize l = Some (logical_of l).
Proof using Hseg.
  intros Hr. rewrite (h_logical _ _ (k_store _ _ _ _ (k_rows _ _ _ Hseg))), list_lookup_fmap.
  unfold logical_of. by rewrite Hr.
Qed.

Lemma emits_row_eval l r :
  sp_rows s !! usize l = Some r → emits_row seg emission l = Some (default false (should_emit emission (r_placement r))).
Proof using Hseg Hpolicy.
  intros Hr. unfold emits_row. rewrite (placement_of_row _ _ r l (k_store _ _ _ _ (k_rows _ _ _ Hseg)) Hr). simpl.
  by destruct (Hpolicy _ _ Hr) as [b ->].
Qed.

Lemma delivers_row l r : sp_rows s !! usize l = Some r → delivers (deliver_row seg l) [l].
Proof using All. intros Hr. eapply delivers_reading; [by eapply logical_lookup|]. by apply delivers_deliver. Qed.

Lemma delivers_if (b : bool) m l : delivers m [l] → delivers (if b then m else go) (if b then [l] else []).
Proof using Type. destruct b; [done|]. intros _. apply delivers_go. Qed.

(** Without groups: the row itself. *)
Lemma delivers_visit_row l r :
  sp_rows s !! usize l = Some r → delivers (visit_row seg view pred emission l) (if row_emits l then [l] else []).
Proof using All.
  intros Hr. destruct (row_lookup l r Hr) as (ex & alive & He & Hs & Ha).
  unfold row_emits. rewrite He, Hr, Ha. eapply delivers_reading; [done|]. destruct alive; simpl; [|apply delivers_go].
  rewrite quiet_observe. apply (delivers_then _ _ []); [apply delivers_go|].
  eapply delivers_reading.
  { rewrite (verify_row _ _ r l (k_store _ _ _ _ (k_rows _ _ _ Hseg)) Hr), (stored_as_verify d ex) by done. simpl.
    rewrite (emits_row_eval l r Hr).
    instantiate (1 := query_matches ex view && tag_matches pred (r_tags r) && default false (should_emit emission (r_placement r))).
    by destruct (_ && _). }
  case_match; [by eapply delivers_row|apply delivers_unless_stopped].
Qed.

Lemma group_emits_bind l : group_emits l = (l :: members_of seg l) ≫= λ m, if row_emits m then [m] else [].
Proof using Type.
  unfold group_emits. induction (l :: members_of seg l) as [|x k IH]; [done|]. rewrite filter_cons, IH. simpl.
  by destruct (row_emits x).
Qed.

Lemma group_emits_nil l : (∀ m, m ∈ l :: members_of seg l → row_emits m = false) → group_emits l = [].
Proof using Type.
  intros Hno. unfold group_emits. induction (l :: members_of seg l) as [|x k IH]; [done|].
  rewrite filter_cons. rewrite (Hno x) by by left. apply IH. intros m Hm. apply Hno. by right.
Qed.

(** The rows of a group, all with the leader's verdict. *)
Lemma group_member l r m :
  sp_rows s !! usize l = Some r → sg_dup_of seg !! usize l = Some l → m ∈ l :: members_of seg l →
  ∃ r' ex ex', sp_rows s !! usize m = Some r' ∧ sp_exs s !! usize m = Some ex' ∧ sp_exs s !! usize l = Some ex ∧
    stored_as d ex r ∧ stored_as d ex' r' ∧ query_matches ex' view = query_matches ex view.
Proof using Hseg Hwf Hview.
  intros Hr Hl Hm. destruct (row_lookup l r Hr) as (ex & _ & He & Hs & _). pose proof (k_groups _ _ _ Hseg) as Hg.
  apply elem_of_cons in Hm as [->|Hm]; [by exists r, ex, ex|].
  apply (k_members _ _ _ _ _ _ _ _ _ Hg) in Hm as [Hd Hne].
  assert (is_Some (sp_rows s !! usize m)) as [r' Hr'].
  { apply lookup_lt_is_Some. rewrite <-(k_dup _ _ _ _ _ _ _ _ _ Hg). by apply lookup_lt_Some in Hd. }
  destruct (k_leader _ _ _ _ _ _ _ _ _ Hg m l r' Hd Hr') as (_ & _ & b & Hb & Hsame). simplify_eq.
  destruct (row_lookup m r' Hr') as (ex' & _ & He' & Hs' & _).
  exists r', ex, ex'. split_and!; try done.
  by destruct (same_body_matches d ex' ex r' r view Hwf Hs' Hs Hsame Hview) as [? _].
Qed.

Lemma delivers_emit_member m r' ex' :
  sp_rows s !! usize m = Some r' → sp_exs s !! usize m = Some ex' → query_matches ex' view = true →
  delivers (emit_member seg pred emission m) (if row_emits m then [m] else []).
Proof using All.
  intros Hr He Hq. destruct (row_lookup m r' Hr) as (ex & alive & He' & _ & Ha). simplify_eq.
  assert (member_emits seg pred emission m = Some (row_emits m)) as Hm.
  { unfold member_emits, row_emits. rewrite He, Hr, Ha, Hq. simpl. destruct alive; [|done]. simpl.
    rewrite (tags_of_row _ _ r' m (k_store _ _ _ _ (k_rows _ _ _ Hseg)) Hr). simpl.
    destruct (tag_matches pred (r_tags r')); [|done]. simpl. by apply emits_row_eval. }
  eapply delivers_reading; [done|]. apply delivers_if. by eapply delivers_row.
Qed.

Lemma delivers_visit_group l r :
  sp_rows s !! usize l = Some r → sg_dup_of seg !! usize l = Some l →
  delivers (visit_group seg view pred emission l) (group_emits l).
Proof using All.
  intros Hr Hl. destruct (row_lookup l r Hr) as (ex & alive & He & Hs & Ha). unfold visit_group.
  assert (∃ b, (if bool_decide (members_of seg l = []) then sg_alive seg !! usize l else Some true) = Some b ∧
    (b = false → group_emits l = [])) as (b & Hb & Hdead).
  { case_bool_decide as Hm; [|by exists true]. rewrite Ha. exists alive. split; [done|]. intros ->.
    apply group_emits_nil. rewrite Hm. intros m ->%list_elem_of_singleton. unfold row_emits. by rewrite He, Hr, Ha. }
  eapply delivers_reading; [exact Hb|]. destruct b; cbn [negb]; [|rewrite Hdead by done; apply delivers_go].
  rewrite quiet_observe. apply (delivers_then _ _ [] (group_emits l)); [apply delivers_go|].
  eapply delivers_reading.
  { rewrite (verify_row _ _ r l (k_store _ _ _ _ (k_rows _ _ _ Hseg)) Hr), (stored_as_verify d ex) by done.
    rewrite andb_true_r. done. }
  destruct (query_matches ex view) eqn:Hq; cbn [negb].
  - rewrite group_emits_bind. cbn [mbind list_bind]. apply delivers_then.
    + by eapply delivers_emit_member.
    + apply delivers_each. intros m Hm. apply (delivers_then _ _ [] _ delivers_unless_stopped).
      apply (delivers_then _ _ [] _ delivers_work_unit).
      destruct (group_member l r m Hr Hl) as (r' & e & ex' & Er & Ee & El & _ & _ & Em); [by right|].
      simplify_eq. eapply delivers_emit_member; [done..|]. by rewrite Em.
  - rewrite group_emits_nil; [apply delivers_go|]. intros m Hm.
    destruct (group_member l r m Hr Hl Hm) as (r' & e & ex' & Er & Ee & El & _ & _ & Em). simplify_eq.
    unfold row_emits. rewrite Er, Ee, Em, Hq. destruct (sg_alive seg !! usize m) as [a|]; [|done]. by rewrite andb_false_r.
Qed.

Lemma delivers_visit_body l r :
  sp_rows s !! usize l = Some r → sg_dup_of seg !! usize l = Some l →
  delivers (if has_dup_groups seg then visit_group seg view pred emission l else visit_row seg view pred emission l) (group_emits l).
Proof using All.
  intros Hr Hl. destruct (has_dup_groups seg) eqn:E; [by eapply delivers_visit_group|].
  assert (members_of seg l = []) as Hm.
  { unfold members_of. unfold has_dup_groups in E. apply negb_false_iff, bool_decide_eq_true in E. by rewrite E, lookup_empty. }
  rewrite group_emits_bind, Hm. simpl. rewrite app_nil_r. by eapply delivers_visit_row.
Qed.

(** *** Stamps

    A step that visits the leaders [vs] delivers the groups of those not yet
    stamped, once each, and stamps them. *)
Definition stamped (st : Run C D) (l : N) : Prop := run_seen st !! usize l = Some epoch.

#[local] Instance stamped_dec st l : Decision (stamped st l).
Proof using Type. unfold stamped. apply _. Defined.

Definition visits (m : Step C D) (vs : list N) : Prop :=
  ∀ st, (length (sp_rows s) ≤ length (run_seen st))%nat →
    ∃ st' new, m st = Some (st', Go) ∧ length (run_seen st') = length (run_seen st) ∧ run_deadline st' = run_deadline st ∧
      run_coll st' = emit_all (new ≫= group_emits) (run_coll st) ∧
      NoDup new ∧ (∀ l, l ∈ new ↔ l ∈ vs ∧ ¬ stamped st l) ∧ (∀ l, stamped st' l ↔ stamped st l ∨ l ∈ vs).

Lemma visits_ext m vs vs' : (∀ l, l ∈ vs ↔ l ∈ vs') → visits m vs → visits m vs'.
Proof using Type.
  intros Hvs Hm st Hl. destruct (Hm st Hl) as (st' & new & ? & ? & ? & ? & ? & Hn & Hs). exists st', new.
  split_and!; try done; intros l; [by rewrite Hn, Hvs|by rewrite Hs, Hvs].
Qed.

Lemma visits_delivers m : delivers m [] → visits m [].
Proof using Type.
  intros Hm st Hl. destruct (Hm st) as [stats E]. eexists _, []. split; [exact E|]. simpl. split_and!; try done.
  - constructor.
  - intros l. split; [by intros ?%not_elem_of_nil|by intros [?%not_elem_of_nil _]].
  - intros l. unfold stamped. simpl. split; [by left|by intros [?|?%not_elem_of_nil]].
Qed.

Lemma visits_then m k vs vs' : visits m vs → visits k vs' → visits (m ;;; k) (vs ++ vs').
Proof using Type.
  intros Hm Hk st Hl. destruct (Hm st Hl) as (st1 & n1 & E1 & L1 & D1 & C1 & N1 & I1 & S1).
  destruct (Hk st1) as (st2 & n2 & E2 & L2 & D2 & C2 & N2 & I2 & S2); [lia|].
  exists st2, (n1 ++ n2). unfold andThen. rewrite E1, E2. split_and!; try congruence.
  - rewrite C2, C1, bind_app. unfold emit_all. by rewrite foldl_app.
  - apply NoDup_app. split_and!; try done. intros l [Hv _]%I1 [_ Hn]%I2. apply Hn, S1. by right.
  - intros l. rewrite elem_of_app, I1, I2, S1, elem_of_app. destruct (decide (stamped st l)), (decide (l ∈ vs)); tauto.
  - intros l. rewrite S2, S1, elem_of_app. tauto.
Qed.

Lemma visits_each {A} (f : A → Step C D) (vs : A → list N) l :
  (∀ x, x ∈ l → visits (f x) (vs x)) → visits (each f l) (l ≫= vs).
Proof using Type.
  induction l as [|x l IH]; intros Hf; simpl; [by apply visits_delivers, delivers_go|].
  apply visits_then; [apply Hf; by left|]. apply IH. intros y Hy. apply Hf. by right.
Qed.

Lemma visits_unless_seen l r k :
  sp_rows s !! usize l = Some r → delivers k (group_emits l) → visits (unless_seen epoch l k) [l].
Proof using Type.
  intros Hr Hk st Hlen. unfold unless_seen.
  assert (is_Some (run_seen st !! usize l)) as [stamp Hst].
  { apply lookup_lt_is_Some. apply lookup_lt_Some in Hr. lia. }
  rewrite Hst. simpl. destruct (N.eqb_spec stamp epoch) as [->|Hne].
  - exists st, []. split_and!; try done.
    + constructor.
    + intros x. split; [by intros ?%not_elem_of_nil|]. by intros [->%list_elem_of_singleton ?].
    + intros x. split; [by left|]. by intros [?| ->%list_elem_of_singleton].
  - destruct (Hk (mkRun (<[usize l:=epoch]> (run_seen st)) (run_coll st) (run_stats st) (run_deadline st))) as [stats ->].
    eexists _, [l]. split; [done|]. simpl. rewrite app_nil_r, length_insert. split_and!; try done.
    + apply NoDup_singleton.
    + intros x. rewrite list_elem_of_singleton. split; [|tauto]. intros ->. split; [done|]. unfold stamped. rewrite Hst. congruence.
    + intros x. unfold stamped. simpl. rewrite list_elem_of_singleton.
      destruct (decide (x = l)) as [->|Hx]; [|].
      * rewrite list_lookup_insert_eq by by apply lookup_lt_Some in Hst. tauto.
      * rewrite list_lookup_insert_ne by lia. tauto.
Qed.

Lemma visits_quiet m k vs : delivers m [] → visits k vs → visits (m ;;; k) vs.
Proof using Type. intros Hm Hk. apply (visits_then m k [] vs); [by apply visits_delivers|done]. Qed.

Lemma delivers_quiet m k ls : delivers m [] → delivers k ls → delivers (m ;;; k) ls.
Proof using Type. apply (delivers_then m k [] ls). Qed.

#[local] Hint Resolve delivers_go delivers_unless_stopped delivers_work_unit delivers_counting : run.

(** Skips the bookkeeping steps in front of a visit or a delivery. *)
#[local] Ltac skip_quiet :=
  repeat match goal with
         | |- visits (andThen _ _) _ => apply visits_quiet; [solve [eauto with run]|]
         | |- delivers (andThen _ _) _ => apply delivers_quiet; [solve [eauto with run]|]
         end.

Lemma visits_visit lane l r :
  sp_rows s !! usize l = Some r → sg_dup_of seg !! usize l = Some l →
  visits (visit seg view epoch pred emission lane l) [l].
Proof using All.
  intros Hr Hl. unfold visit. skip_quiet. eapply visits_unless_seen; [done|]. skip_quiet.
  by eapply delivers_visit_body.
Qed.

(** The closure walks a posting as the plain loop does. *)
Lemma visit_closure_each lane ids st st' :
  each (visit seg view epoch pred emission lane) ids st = Some (st', Go) →
  iter_while (visit_closure seg view epoch pred emission lane) (Some (st, false)) ids = Some (st', false).
Proof using Type.
  revert st. induction ids as [|l ids IH]; intros st; simpl; [by intros [= <-]|].
  unfold andThen at 1. destruct (visit _ _ _ _ _ lane l st) as [[st1 []]|]; try done. apply IH.
Qed.

Lemma posted_leader lane key l :
  (key, l) ∈ sp_posts s lane → sg_dup_of seg !! usize l = Some l ∧ ∃ r, sp_rows s !! usize l = Some r.
Proof using Hseg.
  intros Hp. pose proof (k_groups _ _ _ Hseg) as Hg.
  destruct (k_posted _ _ _ _ _ _ _ _ _ Hg _ _ _ Hp) as [Hd _]. split; [done|].
  apply lookup_lt_is_Some. rewrite <-(k_dup _ _ _ _ _ _ _ _ _ Hg). by apply lookup_lt_Some in Hd.
Qed.

Lemma visits_probe_index key lane :
  visits (probe_index seg view epoch pred emission key lane) (inserted key (sp_posts s lane)).
Proof using All.
  intros st Hlen. unfold probe_index.
  pose proof (index_get_holds _ _ key (k_index _ _ _ _ _ _ _ _ _ (k_groups _ _ _ Hseg) lane)) as Hix.
  destruct (index_get (lane_index seg lane) key) as [p|].
  2:{ rewrite Hix. by apply (visits_delivers go delivers_go). }
  destruct Hix as (ids & Hwalk & _ & Hids & _). rewrite Hwalk. simpl mbind.
  set (st0 := mkRun (run_seen st) _ _ _).
  destruct (visits_each (visit seg view epoch pred emission lane) (λ l, [l]) ids) with (st := st0)
    as (st' & new & E & Hl & Hd & Hc & Hn & Hi & Hs).
  { intros l Hin. apply Hids, elem_of_inserted, posted_leader in Hin as [Hld [r Hr]]. by eapply visits_visit. }
  { done. }
  rewrite (visit_closure_each _ _ _ _ E). simpl. exists st', new. split_and!; try done.
  - intros l. rewrite Hi, list_elem_of_bind. setoid_rewrite list_elem_of_singleton. rewrite <-Hids.
    unfold stamped. simpl. naive_solver.
  - intros l. rewrite Hs, list_elem_of_bind. setoid_rewrite list_elem_of_singleton. rewrite <-Hids.
    unfold stamped. simpl. naive_solver.
Qed.

(** The anchor filter only skips keys without postings. *)
Lemma visits_gated_probe key lane :
  visits (gated_probe seg view epoch pred emission key lane) (inserted key (sp_posts s lane)).
Proof using All.
  unfold gated_probe. skip_quiet.
  assert (∃ b, match sg_filter seg with Some f => may_contain f key | None => Some true end = Some b ∧
    (b = false → inserted key (sp_posts s lane) = [])) as (b & Hb & Hskip).
  { destruct (sg_filter seg) as [f|] eqn:E; [|by exists true].
    destruct (k_filter _ _ _ _ (k_seal _ _ _ Hseg) f E) as [Hf Hin].
    destruct (may_contain_total f key Hf) as [b Hb]. exists b. split; [done|]. intros ->.
    destruct (inserted key (sp_posts s lane)) as [|l ls] eqn:Ei; [done|].
    assert (l ∈ inserted key (sp_posts s lane)) as Hl by (rewrite Ei; by left).
    apply elem_of_inserted, Hin in Hl. congruence. }
  intros st Hlen. unfold reading. rewrite Hb. simpl mbind. destruct b.
  - by apply visits_probe_index.
  - rewrite Hskip by done. by apply (visits_delivers _ (delivers_counting _)).
Qed.

(** *** The lanes of a request *)

Definition reach (lane : ProbeLane) : list N := probe_keys d view lane ≫= λ key, inserted key (sp_posts s lane).

Definition lane_on (lanes : ProbeLanes) (lane : ProbeLane) : bool :=
  match lane with Main => true | Hot => include_hot lanes | Broad => include_broad lanes end.

Lemma visits_probe_single lane f :
  visits (probe_single seg view epoch pred emission lane f) (inserted (sig_key [f]) (sp_posts s lane)).
Proof using All.
  unfold probe_single. skip_quiet. apply visits_gated_probe.
Qed.

Lemma elem_of_probed (gs : list (list N)) lane l :
  l ∈ (sig_key <$> gs) ≫= (λ key, inserted key (sp_posts s lane)) ↔
  ∃ g, g ∈ gs ∧ l ∈ inserted (sig_key g) (sp_posts s lane).
Proof using Type.
  rewrite list_elem_of_bind. setoid_rewrite list_elem_of_fmap. naive_solver.
Qed.

Lemma visits_singles lane l :
  visits (each (probe_single seg view epoch pred emission lane) l)
    ((sig_key <$> singletons l) ≫= λ key, inserted key (sp_posts s lane)).
Proof using All.
  eapply visits_ext; [|apply (visits_each _ (λ f, inserted (sig_key [f]) (sp_posts s lane)))].
  - intros x. rewrite elem_of_probed, list_elem_of_bind. unfold singletons. setoid_rewrite list_elem_of_fmap. naive_solver.
  - intros f _. apply visits_probe_single.
Qed.

Lemma visits_pairs :
  visits (each (probe_pairs seg view d epoch pred emission) (pos view))
    ((sig_key <$> pair_groups d (pos view)) ≫= λ key, inserted key (sp_posts s Main)).
Proof using All.
  pose (pairs h := if is_hot d h then pos view ≫= (λ o, if o =? h then [] else inserted (sig_key (ordered_pair h o)) (sp_posts s Main))
    else []).
  eapply visits_ext; [|apply (visits_each _ pairs)].
  - intros x. rewrite elem_of_probed, list_elem_of_bind. unfold pair_groups. split.
    + intros (h & Hx & Hh). unfold pairs in Hx. destruct (is_hot d h) eqn:E; [|by apply not_elem_of_nil in Hx].
      apply list_elem_of_bind in Hx as (o & Hx & Ho). destruct (N.eqb_spec o h) as [|Hne]; [by apply not_elem_of_nil in Hx|].
      exists (ordered_pair h o). split; [|done]. by apply elem_of_pair_groups.
    + intros (g & Hg & Hx). apply list_elem_of_bind in Hg as (h & Hg & Hh). exists h. split; [|done]. unfold pairs.
      destruct (is_hot d h); [|by apply not_elem_of_nil in Hg]. apply list_elem_of_bind in Hg as (o & Hg & Ho).
      apply list_elem_of_bind. exists o. split; [|done]. destruct (o =? h); simpl in Hg; [by apply not_elem_of_nil in Hg|].
      by apply list_elem_of_singleton in Hg as ->.
  - intros h _. unfold probe_pairs. skip_quiet. unfold pairs. destruct (is_hot d h); [|apply (visits_delivers _ delivers_go)]. apply visits_each.
    intros o _. skip_quiet. destruct (o =? h); [apply (visits_delivers _ delivers_go)|]. apply visits_gated_probe.
Qed.

Lemma no_hot_entries : has_hot_entries seg = false → reach Hot = [].
Proof using Hseg.
  intros E. unfold has_hot_entries, num_signatures in E. apply Nat.ltb_ge in E.
  assert (index_map (sg_hot seg) = ∅) as Hm by (apply map_size_empty_inv; lia).
  pose proof (k_index _ _ _ _ _ _ _ _ _ (k_groups _ _ _ Hseg) Hot) as Hix. unfold reach.
  apply elem_of_nil_inv. intros l (key & Hl & _)%list_elem_of_bind.
  specialize (Hix key). simpl in Hix. rewrite Hm, lookup_empty in Hix. rewrite Hix in Hl. by apply not_elem_of_nil in Hl.
Qed.

Lemma visits_probe_lanes lanes :
  visits (probe_lanes seg view d epoch lanes pred emission)
    (reach Main ++ (if include_hot lanes then reach Hot else []) ++ (if include_broad lanes then reach Broad else [])).
Proof using All.
  unfold probe_lanes. skip_quiet.
  replace (reach Main) with (((sig_key <$> singletons (probe view)) ≫= λ key, inserted key (sp_posts s Main)) ++
    ((sig_key <$> pair_groups d (pos view)) ≫= λ key, inserted key (sp_posts s Main)))
    by (unfold reach, probe_keys, main_groups; by rewrite fmap_app, bind_app).
  rewrite <-app_assoc. apply visits_then; [apply visits_singles|]. apply visits_then; [apply visits_pairs|].
  apply visits_then.
  - destruct (include_hot lanes); simpl; [|apply (visits_delivers _ delivers_go)].
    destruct (has_hot_entries seg) eqn:E; [apply visits_singles|]. rewrite no_hot_entries by done.
    apply (visits_delivers _ delivers_go).
  - destruct (include_broad lanes); [|apply (visits_delivers _ delivers_go)].
    unfold reach, probe_keys, broad_groups. rewrite fmap_app, bind_app. apply visits_then; [apply visits_singles|].
    skip_quiet. simpl. rewrite app_nil_r. apply visits_gated_probe.
Qed.
(** *** What a request emits *)

(** The rows a request asks for: emitted rows of its lanes. *)
Definition wanted (lanes : ProbeLanes) (l : N) : Prop :=
  row_emits l = true ∧ ∃ c, sg_class seg !! usize l = Some c ∧ lane_on lanes (lane_of c) = true.

(** The rows that must not be missed: their required phrases do occur. *)
Definition certain (l : N) : Prop := ∃ ex, sp_exs s !! usize l = Some ex ∧ phrases_found ex view.

Definition reached (lanes : ProbeLanes) : list N :=
  reach Main ++ (if include_hot lanes then reach Hot else []) ++ (if include_broad lanes then reach Broad else []).

Lemma elem_of_reached lanes l : l ∈ reached lanes ↔ ∃ lane, lane_on lanes lane = true ∧ l ∈ reach lane.
Proof using Type.
  unfold reached. rewrite !elem_of_app. split.
  - intros [?|[?|?]]; [by exists Main| |]; [exists Hot|exists Broad]; simpl;
      [destruct (include_hot lanes)|destruct (include_broad lanes)]; try done; by match goal with E : _ ∈ [] |- _ => apply not_elem_of_nil in E end.
  - intros ([] & Hon & Hl); simpl in Hon; rewrite ?Hon; tauto.
Qed.

Lemma reached_leader lanes l :
  l ∈ reached lanes →
  sg_dup_of seg !! usize l = Some l ∧ ∃ c, sg_class seg !! usize l = Some c ∧ lane_on lanes (lane_of c) = true.
Proof using Hseg.
  intros (lane & Hon & (key & Hl & _)%list_elem_of_bind)%elem_of_reached. apply elem_of_inserted in Hl.
  destruct (k_posted _ _ _ _ _ _ _ _ _ (k_groups _ _ _ Hseg) _ _ _ Hl) as [Hd Hc]. split; [done|].
  destruct (sg_class seg !! usize l) as [c|]; [|done]. injection Hc as <-. by exists c.
Qed.

Lemma elem_of_group l m :
  sg_dup_of seg !! usize l = Some l → m ∈ group_emits l ↔ row_emits m = true ∧ sg_dup_of seg !! usize m = Some l.
Proof using Hseg.
  intros Hl. unfold group_emits. rewrite list_elem_of_filter, elem_of_cons. unfold members_of.
  rewrite (k_members _ _ _ _ _ _ _ _ _ (k_groups _ _ _ Hseg)). destruct (decide (m = l)) as [->|]; naive_solver.
Qed.

Lemma group_nodup l : sg_dup_of seg !! usize l = Some l → NoDup (group_emits l).
Proof using Hseg.
  intros Hl. unfold group_emits, members_of. apply NoDup_filter, NoDup_cons.
  rewrite (k_members _ _ _ _ _ _ _ _ _ (k_groups _ _ _ Hseg)). split; [by intros [_ ?]|].
  apply (k_members_nodup _ _ _ _ _ _ _ _ _ (k_groups _ _ _ Hseg)).
Qed.

Lemma groups_nodup ls :
  NoDup ls → (∀ l, l ∈ ls → sg_dup_of seg !! usize l = Some l) → NoDup (ls ≫= group_emits).
Proof using Hseg.
  induction 1 as [|l ls Hn Hnd IH]; intros Hl; cbn [mbind list_bind]; [constructor|].
  apply NoDup_app. split_and!; [apply group_nodup, Hl; by left| |apply IH; intros; apply Hl; by right].
  intros m [_ Hm]%elem_of_group (l' & Hm' & Hl')%list_elem_of_bind; [|apply Hl; by left].
  apply elem_of_group in Hm' as [_ Hm']; [|apply Hl; by right]. congruence.
Qed.

(** A wanted row's group is reached. *)
Lemma wanted_reached lanes m :
  title_ok d view → wanted lanes m → certain m →
  ∃ l, l ∈ reached lanes ∧ sg_dup_of seg !! usize m = Some l.
Proof using Hseg Hwf Hview.
  intros Ht [Hm (c & Hc & Hon)] (ex & He & Hph). pose proof (k_groups _ _ _ Hseg) as Hg. unfold row_emits in Hm.
  rewrite He in Hm. destruct (sp_rows s !! usize m) as [a|] eqn:Hr; [|done].
  destruct (sg_alive seg !! usize m) as [alive|]; [|done]. rewrite !andb_true_iff in Hm. destruct Hm as [[[_ Hq] _] _].
  assert (is_Some (sg_dup_of seg !! usize m)) as [L HL].
  { apply lookup_lt_is_Some. rewrite (k_dup _ _ _ _ _ _ _ _ _ Hg). by apply lookup_lt_Some in Hr. }
  exists L. split; [|done]. destruct (k_leader _ _ _ _ _ _ _ _ _ Hg m L a HL Hr) as (HLL & Hcl & b & Hb & Hsame).
  destruct (row_lookup m a Hr) as (? & _ & ? & Hs & _), (row_lookup L b Hb) as (ex' & _ & He' & Hs' & _). simplify_eq.
  destruct (same_body_matches d ex ex' a b view Hwf Hs Hs' Hsame Hview) as [Em Ep]. rewrite Hcl in Hc.
  destruct (k_cover _ _ _ _ _ _ _ _ _ Hg L ex' c He' HLL Hc d view) as (key & Hk & Hin);
    [done|done|done|by rewrite <-Em|by apply Ep|].
  apply elem_of_reached. exists (lane_of c). split; [done|]. apply list_elem_of_bind. exists key. split; [|done].
  by apply elem_of_inserted, elem_of_keys_of.
Qed.

Lemma match_collect_spec lanes st :
  title_ok d view → (length (sp_rows s) ≤ length (run_seen st))%nat → epoch ∉ run_seen st →
  ∃ st' em, match_collect seg view d epoch lanes pred emission st = Some (st', false) ∧
    length (run_seen st') = length (run_seen st) ∧ run_coll st' = emit_all em (run_coll st) ∧ NoDup em ∧
    (∀ l, l ∈ em → wanted lanes l) ∧ (∀ l, wanted lanes l → certain l → l ∈ em).
Proof using All.
  intros Ht Hlen Hfresh. unfold match_collect.
  destruct (visits_probe_lanes lanes st Hlen) as (st' & new & -> & Hl' & _ & Hc & Hnd & Hnew & _). simpl.
  assert (∀ l, l ∈ new ↔ l ∈ reached lanes) as Hre.
  { intros l. rewrite Hnew. split; [by intros [? _]|]. intros Hl. split; [done|]. intros Hs.
    apply Hfresh. by eapply list_elem_of_lookup_2. }
  assert (∀ l, l ∈ new → sg_dup_of seg !! usize l = Some l) as Hld.
  { intros l Hl%Hre. by apply reached_leader in Hl as [? _]. }
  exists st', (new ≫= group_emits). split_and!; try done; [by apply groups_nodup| |].
  - intros m (l & Hm & Hl)%list_elem_of_bind. apply elem_of_group in Hm as [He Hm]; [|by apply Hld]. split; [done|].
    apply Hre, reached_leader in Hl as (_ & c & Hcl & Hon). exists c. split; [|done].
    unfold row_emits in He. destruct (sp_exs s !! usize m); [|done]. destruct (sp_rows s !! usize m) as [a|] eqn:Hr; [|done].
    by destruct (k_leader _ _ _ _ _ _ _ _ _ (k_groups _ _ _ Hseg) m l a Hm Hr) as (_ & -> & _).
  - intros m Hw Hce. destruct (wanted_reached lanes m Ht Hw Hce) as (l & Hl & Hm). destruct Hw as [He _].
    apply list_elem_of_bind. exists l. split; [|by apply Hre]. apply elem_of_group; [|done]. by apply Hld, Hre.
Qed.

End emission.
