(* ===== verification/Lifecycle.v ===== *)
(** * The life of a segment

    What a segment means to its clients: a list of stored queries with a liveness
    bit and a visibility bit.  [built d seg abs] follows a segment through its
    operations ([Segment::new], [add_compiled], [tombstone], [build_filter], and
    the dictionary growing meanwhile) next to that list; the simulation lemma says
    the list is what the segment holds, and the refinement theorem that matching
    the segment answers from the list. *)

From S2P Require Import Prelude Util Filter Dictionary Index Phrase Compile Plan View Predicate Ownership Store Collect Segment SegMatch.

(** ** The abstract segment *)

Record StoredQuery := mkStored {
  sq_query : Extracted;
  sq_tags : list N;
  sq_logical : N;
  sq_placement : QueryPlacement;
  sq_opt_in : bool;
  sq_live : bool;
}.

Definition kill (q : StoredQuery) : StoredQuery :=
  mkStored (sq_query q) (sq_tags q) (sq_logical q) (sq_placement q) (sq_opt_in q) false.

Definition selected {P} `{EmissionPolicy P} (view : TitleView) (include_broad : bool) (pred : TagPredicate) (emission : P)
  (q : StoredQuery) : bool :=
  sq_live q && (include_broad || negb (sq_opt_in q)) && query_matches (sq_query q) view &&
  tag_matches pred (sq_tags q) && default false (should_emit emission (sq_placement q)).

(** The logical ids a request is to return. *)
Definition answer {P} `{EmissionPolicy P} (view : TitleView) (include_broad : bool) (pred : TagPredicate) (emission : P)
  (abs : list StoredQuery) : list N :=
  sq_logical <$> filter (λ q, selected view include_broad pred emission q = true) abs.

(** No verification is left undecided: the required phrases of the live queries
    occur in the title wherever the verifier accepts. *)
Definition decided (view : TitleView) (abs : list StoredQuery) : Prop :=
  ∀ q, q ∈ abs → sq_live q = true → query_matches (sq_query q) view = true → phrases_found (sq_query q) view.

Section life.
Context {B : Type} `{RoaringLaws B}.
Implicit Types (seg : Segment B) (abs : list StoredQuery).

Definition stored_row (q : StoredQuery) (r : Row) : Prop :=
  r_tags r = sq_tags q ∧ r_logical r = sq_logical q ∧ r_placement r = sq_placement q.

Record represents (d : Dict) seg abs (s : SegSpec) : Prop := {
  rp_ok : seg_ok d seg s;
  rp_queries : sp_exs s = sq_query <$> abs;
  rp_rows : Forall2 stored_row abs (sp_rows s);
  rp_alive : sg_alive seg = sq_live <$> abs;
  rp_class : is_opt_in <$> sg_class seg = sq_opt_in <$> abs;
}.

(** ** Operations *)

Inductive built : Dict → Segment B → list StoredQuery → Prop :=
  | built_new d : dict_wf d → built d segment_new []
  | built_grow d d' seg abs : built d seg abs → dict_wf d' → mask_le d d' → built d' seg abs
  | built_add d seg abs ex tags logical version rank placement source knobs a seg' :
      built d seg abs → unsealed seg → push_fits ex tags placement (sg_exact seg) → nlen abs < U32_MAX →
      Forall graph_nonempty (query_graphs ex) → NoDup (required ex) →
      add_compiled ex tags d logical version rank placement source knobs seg = Some (Some a, seg') →
      built d seg' (abs ++ [mkStored ex tags logical placement (is_opt_in (sp_class (plan_of ex d placement knobs))) true])
  | built_tombstone d seg abs l seg' :
      built d seg abs → tombstone l seg = Some seg' → built d seg' (alter kill (usize l) abs)
  | built_seal d seg abs seg' :
      built d seg abs → seg_build_filter seg = Some seg' → built d seg' abs.

Lemma represents_len d seg abs s : represents d seg abs s → length (sp_rows s) = length abs.
Proof using Type. intros [_ _ Hr _ _]. symmetry. by eapply Forall2_length. Qed.

(** A stored query as it is appended, live, on one side of the opt-in boundary. *)
Definition carried (opt_in : bool) (q : StoredQuery) : StoredQuery :=
  mkStored (sq_query q) (sq_tags q) (sq_logical q) (sq_placement q) opt_in true.

Lemma represents_appended d seg seg' abs s q r c posts :
  represents d seg abs s → stored_row q r → appended d seg seg' s (sq_query q) r c posts →
  unsealed seg' ∧
  represents d seg' (abs ++ [carried (is_opt_in c) q]) (mkSegSpec (sp_exs s ++ [sq_query q]) (sp_rows s ++ [r]) posts).
Proof using Type.
  intros [Hok Hq Hr Ha Hc] Hrow (Hu & Hal & Hcl & Hok'). split; [done|]. split; [done|..]; simpl.
  - by rewrite fmap_app, Hq.
  - apply Forall2_app; [done|]. by repeat constructor; destruct Hrow as (? & ? & ?).
  - by rewrite Hal, Ha, fmap_app.
  - by rewrite Hcl, !fmap_app, Hc.
Qed.

Lemma represents_add d seg abs s ex tags logical version rank placement source knobs a seg' :
  represents d seg abs s → dict_wf d → unsealed seg → push_fits ex tags placement (sg_exact seg) → nlen abs < U32_MAX →
  Forall graph_nonempty (query_graphs ex) → NoDup (required ex) →
  add_compiled ex tags d logical version rank placement source knobs seg = Some (Some a, seg') →
  unsealed seg' ∧ ∃ s', represents d seg'
    (abs ++ [mkStored ex tags logical placement (is_opt_in (sp_class (plan_of ex d placement knobs))) true]) s'.
Proof using All.
  intros Hrep Hwf Hu Hfit Hlen Hg Hnd E. pose proof (represents_len _ _ _ _ Hrep) as Hl. pose proof (rp_ok _ _ _ _ Hrep) as Hok.
  assert (nlen (sp_rows s) < U32_MAX) as Hlen' by (unfold nlen in *; by rewrite Hl).
  pose proof (add_compiled_ok d ex tags logical version rank placement source knobs seg s Hok Hu Hwf Hfit Hlen' Hg Hnd) as Hadd.
  cbv zeta in Hadd. destruct (rejects_class_d _ _ _); [congruence|].
  destruct Hadd as (a' & seg1 & E' & _ & Hopt & posts & Happ). simplify_eq.
  destruct (represents_appended d seg seg' abs s (mkStored ex tags logical placement true true)
    (row_of ex tags d version logical rank placement source) (ac_class a) posts Hrep) as (Hu' & Hrep'); [done..|].
  split; [done|]. eexists. unfold carried in Hrep'. simpl in Hrep'. by rewrite Hopt in Hrep'.
Qed.

Lemma fmap_kill {A} (f : StoredQuery → A) l abs : (∀ q, f (kill q) = f q) → f <$> alter kill l abs = f <$> abs.
Proof using Type.
  intros Hf. revert l. induction abs as [|q abs IH]; intros [|l]; simpl; [done..| |]; f_equal; [apply Hf|apply IH].
Qed.

Lemma fmap_kill_live l abs : sq_live <$> alter kill l abs = <[l := false]> (sq_live <$> abs).
Proof using Type. revert l. induction abs as [|q abs IH]; intros [|l]; [done..|]. simpl. f_equal. apply IH. Qed.

Lemma represents_seal d seg abs s :
  represents d seg abs s → ∃ seg', seg_build_filter seg = Some seg' ∧ represents d seg' abs s.
Proof using All.
  intros [Hok Hq Hr Ha Hc]. destruct (seg_build_filter_ok d seg s Hok) as (seg' & E & Hok' & Ha' & Hc').
  exists seg'. split; [done|]. split; try done; congruence.
Qed.

Lemma represents_kill d seg seg' abs s l :
  represents d seg abs s → seg_ok d seg' s → sg_alive seg' = <[usize l := false]> (sg_alive seg) → sg_class seg' = sg_class seg →
  represents d seg' (alter kill (usize l) abs) s.
Proof using Type.
  intros [_ Hq Hr Ha Hc] Hok Ha' Hc'. split; [done|by rewrite fmap_kill| |by rewrite Ha', Ha, fmap_kill_live|by rewrite Hc', Hc, fmap_kill].
  rewrite <-(list_fmap_id (sp_rows s)). apply Forall2_fmap_r. clear -Hr. revert Hr. generalize (usize l) (sp_rows s).
  induction abs as [|q abs IH]; intros [|n] rows; inversion 1; subst; constructor; try done. by apply IH.
Qed.

(** Every history leaves a segment that holds the list. *)
Lemma built_represents d seg abs : built d seg abs → dict_wf d ∧ ∃ s, represents d seg abs s.
Proof using All.
  induction 1 as [d Hwf|d d' seg abs _ [_ [s IH]] Hwf Hle|d seg abs ex tags logical version rank placement source knobs a seg' _ [Hwf [s IH]]|
    d seg abs l seg' _ [Hwf [s IH]] E|d seg abs seg' _ [Hwf [s IH]] E]; (split; [done|]).
  - exists (mkSegSpec [] [] (λ _, [])). split; try done. apply segment_new_ok.
  - destruct IH. exists s. split; try done. by eapply seg_ok_mono.
  - eapply represents_add; [exact IH|done..].
  - destruct (tombstone_ok d seg s l (rp_ok _ _ _ _ IH)) as (seg1 & E1 & Hok1 & Ha1 & Hc1 & _). simplify_eq.
    exists s. by eapply represents_kill.
  - destruct (represents_seal _ _ _ _ IH) as (seg1 & E1 & IH1). simplify_eq. by exists s.
Qed.

(** ** Matching answers from the list *)

Lemma represents_lookup d seg abs s l q :
  represents d seg abs s → abs !! usize l = Some q →
  ∃ r c, sp_exs s !! usize l = Some (sq_query q) ∧ sp_rows s !! usize l = Some r ∧ stored_row q r ∧
    sg_alive seg !! usize l = Some (sq_live q) ∧ sg_class seg !! usize l = Some c ∧ is_opt_in c = sq_opt_in q.
Proof using Type.
  intros [_ Hq Hr Ha Hc] El. destruct (Forall2_lookup_l _ _ _ _ _ Hr El) as (r & Er & Hrow).
  assert ((is_opt_in <$> sg_class seg) !! usize l = Some (sq_opt_in q)) as Hcl by by rewrite Hc, list_lookup_fmap, El.
  rewrite list_lookup_fmap in Hcl. destruct (sg_class seg !! usize l) as [c|] eqn:Ec; [|done].
  exists r, c. rewrite Hq, Ha, !list_lookup_fmap, El. simpl in *. split_and!; try done. by injection Hcl.
Qed.

Section request.
Context {P : Type} `{EmissionPolicy P}.
Context (d : Dict) (view : TitleView) (ib : bool) (pred : TagPredicate) (emission : P).

Lemma wanted_selected seg abs s l q :
  represents d seg abs s → abs !! usize l = Some q →
  wanted seg s view pred emission (mkProbeLanes ib true) l ↔ selected view ib pred emission q = true.
Proof using Type.
  intros Hrep El. destruct (represents_lookup _ _ _ _ _ _ Hrep El) as (r & c & He & Hr & (Ht & _ & Hp) & Ha & Hc & Ho).
  unfold wanted, row_emits, selected. rewrite He, Hr, Ha, Ht, Hp, <-Ho, !andb_true_iff. split.
  - intros [Hm (c' & Hc' & Hon)]. simplify_eq. split_and!; try tauto. destruct c, ib; try done.
  - intros [[[[? Hv] ?] ?] ?]. split; [tauto|]. exists c. split; [done|]. destruct c, ib; try done.
Qed.

Lemma filter_seq {A B'} (f : A → B') (p : A → bool) (l : list A) (g : N → B') (w : N → Prop) `{∀ n, Decision (w n)} :
  (∀ n x, l !! usize n = Some x → g n = f x ∧ (w n ↔ p x = true)) →
  g <$> filter w (N.of_nat <$> seq 0 (length l)) = f <$> filter (λ x, p x = true) l.
Proof using Type.
  induction l as [|x l IH] using rev_ind; intros Hl; [done|].
  rewrite length_app, Nat.add_1_r, seq_S, fmap_app, !filter_app, !fmap_app, IH.
  - f_equal. simpl. destruct (Hl (N.of_nat (length l)) x) as [E W]; [apply lookup_snoc_usize; by right|].
    rewrite !filter_cons. destruct (decide (w _)), (decide (p x = true)); simpl; try tauto. by rewrite E.
  - intros n y Hn. apply Hl. apply lookup_snoc_usize. by left.
Qed.

(** The rows of a list as local ids. *)
Definition locals (abs : list StoredQuery) : list N := N.of_nat <$> seq 0 (length abs).

Definition pick (abs : list StoredQuery) (l : N) : bool :=
  match abs !! usize l with Some q => selected view ib pred emission q | None => false end.

Lemma answer_locals seg abs s :
  represents d seg abs s →
  answer view ib pred emission abs = logical_of s <$> filter (λ l, pick abs l = true) (locals abs).
Proof using Type.
  intros Hrep. symmetry. apply filter_seq. intros n q El. unfold pick. rewrite El. split; [|done].
  destruct (represents_lookup _ _ _ _ _ _ Hrep El) as (r & c & _ & Hr & (_ & Hlg & _) & _).
  unfold logical_of. by rewrite Hr.
Qed.

Context {C D : Type} `{QuietSink C} `{DeadlineCheck D}.

Lemma represents_match seg abs s (epoch : N) (st : Run C D) :
  dict_wf d → represents d seg abs s → title_ok d view → ARMED (D:=D) = false →
  (∀ q, q ∈ abs → is_Some (should_emit emission (sq_placement q))) →
  (length abs ≤ length (run_seen st))%nat → epoch ∉ run_seen st →
  ∃ st' ids, match_collect seg view d epoch (mkProbeLanes ib true) pred emission st = Some (st', false) ∧
    length (run_seen st') = length (run_seen st) ∧
    run_coll st' = foldl (λ c lg, on_match lg c) (run_coll st) ids ∧
    ids ⊆+ answer view ib pred emission abs ∧
    (decided view abs → ids ≡ₚ answer view ib pred emission abs).
Proof using All.
  intros Hwf Hrep Ht Harm Hpol Hlen Hep.
  pose proof (represents_len _ _ _ _ Hrep) as Hl. pose proof (rp_ok _ _ _ _ Hrep) as Hok.
  assert (∀ l q, abs !! usize l = Some q → wanted seg s view pred emission (mkProbeLanes ib true) l ↔ pick abs l = true) as Hw.
  { intros l q El. unfold pick. rewrite El. by eapply wanted_selected. }
  assert (∀ l, wanted seg s view pred emission (mkProbeLanes ib true) l → ∃ q, abs !! usize l = Some q) as Hin.
  { intros l [He _]. unfold row_emits in He. destruct (sp_exs s !! usize l) as [ex|]; [|done].
    destruct (sp_rows s !! usize l) as [r|] eqn:Hr; [|done]. apply lookup_lt_is_Some. rewrite <-Hl. by apply lookup_lt_Some in Hr. }
  destruct (match_collect_spec Harm seg s view d epoch pred emission Hok Hwf (to_view _ _ Ht)) with (lanes := mkProbeLanes ib true) (st := st)
    as (st' & em & E & Hl' & Hc & Hnd & Hsub & Hall); [|done|lia|done|].
  { intros l r Hr. destruct (Forall2_lookup_r _ _ _ _ _ (rp_rows _ _ _ _ Hrep) Hr) as (q & El & _ & _ & ->).
    apply Hpol. by eapply list_elem_of_lookup_2. }
  assert (∀ l q, abs !! usize l = Some q → l ∈ locals abs) as Hloc.
  { intros l q El. apply lookup_lt_Some in El. unfold locals. apply list_elem_of_fmap. exists (usize l).
    split; [lia|]. apply elem_of_seq. lia. }
  assert (∀ l, l ∈ em → l ∈ filter (λ l, pick abs l = true) (locals abs)) as Hsub'.
  { intros l Hm%Hsub. destruct (Hin l Hm) as [q El]. apply list_elem_of_filter. split; [by eapply Hw|]. by eapply Hloc. }
  exists st', (logical_of s <$> em). rewrite (answer_locals _ _ _ Hrep). split_and!; try done.
  - rewrite Hc. unfold emit_all. by rewrite foldl_fmap.
  - by apply fmap_submseteq, NoDup_submseteq.
  - intros Hdec. apply fmap_Permutation, NoDup_Permutation; [done| |].
    + apply NoDup_filter, NoDup_fmap_2; [apply _|]. apply NoDup_seq.
    + intros l. split; [apply Hsub'|]. intros [Hp _]%list_elem_of_filter. unfold pick in Hp.
      destruct (abs !! usize l) as [q|] eqn:El; [|done].
      destruct (represents_lookup _ _ _ _ _ _ Hrep El) as (r & c & He & _). apply Hall; [by eapply wanted_selected|].
      exists (sq_query q). split; [done|]. unfold selected in Hp. rewrite !andb_true_iff in Hp. apply Hdec; [by eapply list_elem_of_lookup_2|tauto..].
Qed.

End request.

End life.

Section promises.
Context {B : Type} `{RoaringLaws B}.
Implicit Types (seg : Segment B) (abs : list StoredQuery).

Lemma vec_fold ids c :
  vec_out (foldl (λ c lg, on_match lg c) c ids) = vec_out c ++ ids.
Proof using Type.
  revert c. induction ids as [|lg ids IH]; intros c; cbn [foldl]; [by rewrite app_nil_r|]. rewrite IH. simpl.
  by rewrite <-app_assoc.
Qed.

(** C3. Matching a segment refines its specification.  However a segment was built
    (any interleaving of additions, with or without body sharing, deletions,
    sealing and growth of the dictionary), matching a title appends to the output
    only ids of live, visible stored queries that match it and pass the tag
    filter, each stored query at most once; and it appends all of them, in some
    order, unless the verifier gave up on a phrase search (accepting it without
    deciding).  No run panics. *)
Theorem segment_match_refines d seg abs view ib pred epoch seen out stats :
  built d seg abs → title_ok d view → (length abs ≤ length seen)%nat → epoch ∉ seen →
  ∃ seen' ids stats', match_into seg view d epoch seen out (mkProbeLanes ib true) pred stats = Some (seen', out ++ ids, stats') ∧
    length seen' = length seen ∧
    ids ⊆+ answer view ib pred mkEmitAll abs ∧
    (decided view abs → ids ≡ₚ answer view ib pred mkEmitAll abs).
Proof using All.
  intros Hb Ht Hlen Hep. unfold match_into. destruct (built_represents _ _ _ Hb) as [Hwf [s Hrep]].
  destruct (represents_match d view ib pred mkEmitAll seg abs s epoch (mkRun seen (mkVecSink out 0) stats (deadline_new mkNoDeadline)))
    as (st & ids & -> & Hl & Hc & Hsub & Hall); [done..|].
  exists (run_seen st), ids, (run_stats st). simpl. rewrite Hc, vec_fold. done.
Qed.

Lemma count_if_fmap {A A'} (f : A → A') p l : count_if p (f <$> l) = count_if (λ x, p (f x)) l.
Proof using Type.
  unfold count_if. f_equal. induction l as [|x l IH]; [done|]. rewrite fmap_cons, !filter_cons.
  destruct (decide _); simpl; by rewrite IH.
Qed.

Lemma live_phrases_abs d seg abs s :
  represents d seg abs s →
  count_if (λ p, p.1 && predicate_has_phrases (r_words p.2)) (zip (sg_alive seg) (sp_rows s)) =
    count_if (λ q, sq_live q && predicate_has_phrases (stored_words (sq_query q))) abs.
Proof using Type.
  intros [[[_ _ _ Hex _] _ _ _] Hq _ Ha _]. rewrite Ha. rewrite Hq in Hex. clear -Hex. revert Hex. generalize (sp_rows s).
  unfold count_if. induction abs as [|q abs IH]; intros rows; inversion 1 as [|? r ? rows' Hs Hrest]; subst; [done|].
  rewrite !fmap_cons. simpl zip_with. rewrite !filter_cons. simpl. rewrite (proj1 (stored_as_words _ _ _ Hs)).
  destruct (decide _); simpl; [rewrite !Nat2N.inj_succ|]; by rewrite IH.
Qed.

(** C28. The bookkeeping of a segment is exact after any history: the length is the
    number of stored queries, the live counter the number of live ones, the
    phrase counter the number of live ones with phrase requirements, and the
    reverse index lists, without repetition, every live copy of a logical id and
    nothing that does not carry it. *)
Theorem segment_bookkeeping d seg abs :
  built d seg abs →
  seg_len seg = length abs ∧
  sg_alive_counter seg = count_if sq_live abs ∧
  sg_live_phrases seg = count_if (λ q, sq_live q && predicate_has_phrases (stored_words (sq_query q))) abs ∧
  (∀ l q, abs !! usize l = Some q → sq_live q = true → l ∈ locals_for_logical seg (sq_logical q)) ∧
  (∀ lg l, l ∈ locals_for_logical seg lg → ∃ q, abs !! usize l = Some q ∧ sq_logical q = lg) ∧
  (∀ lg, NoDup (locals_for_logical seg lg)).
Proof using All.
  intros Hb. destruct (built_represents _ _ _ Hb) as [_ [s Hrep]].
  pose proof (rp_ok _ _ _ _ Hrep) as [[Hst _ _ _ _] [_ Hlg Hrow Hnd Hcnt Hph] _ _]. split_and!.
  - unfold seg_len, store_len. rewrite (h_rmask _ _ Hst), length_fmap. by eapply represents_len.
  - rewrite Hcnt, (rp_alive _ _ _ _ Hrep). apply (count_if_fmap sq_live id).
  - rewrite Hph. by eapply live_phrases_abs.
  - intros l q El Hlive. destruct (represents_lookup _ _ _ _ _ _ Hrep El) as (r & c & _ & Hr & (_ & <- & _) & Ha & _).
    eapply Hlg; [done|]. by rewrite Ha, Hlive.
  - intros lg l (r & Hr & <-)%Hrow. destruct (Forall2_lookup_r _ _ _ _ _ (rp_rows _ _ _ _ Hrep) Hr) as (q & El & _ & -> & _).
    by exists q.
  - apply Hnd.
Qed.

(** The tag summary of a sealed segment skips it only when no stored query
    passes the filter. *)
Lemma represents_tag_skip {P} `{EmissionPolicy P} d seg abs s view ib pred (emission : P) :
  represents d seg abs s → tag_wf pred → tag_summary_may_match seg pred = false → answer view ib pred emission abs = [].
Proof using All.
  intros Hrep Hpred Hskip.
  pose proof (rp_ok _ _ _ _ Hrep) as [_ _ _ [_ Hsum]]. unfold tag_summary_may_match in Hskip.
  destruct (sg_tag_summary seg) as [t|]; [|done]. destruct (Hsum t eq_refl) as [Hsort Hin].
  unfold answer. apply elem_of_nil_inv. intros lg (q & -> & [Hsel [l El]%list_elem_of_lookup_1]%list_elem_of_filter)%list_elem_of_fmap.
  unfold selected in Hsel. rewrite !andb_true_iff in Hsel. destruct Hsel as [[_ Htag] _].
  destruct (Forall2_lookup_l _ _ _ _ _ (rp_rows _ _ _ _ Hrep) El) as (r & Hr & Ht & _).
  apply not_true_iff_false in Hskip. apply Hskip. unfold summary_may_match, tag_matches in *.
  rewrite forallb_elem in *. intros g Hg. apply sorted_intersects_spec; [done|by eapply Forall_forall in Hpred|].
  destruct (sorted_intersects_common _ _ (Htag g Hg)) as (x & Hx & Hx'). exists x. split; [done|].
  eapply Hin; [by eapply list_elem_of_lookup_2|]. by rewrite Ht.
Qed.

End promises.

(** ** A history

    Two queries with one body, stored with sharing on; the first is deleted, then
    the segment is sealed. *)

Definition demo_knobs : CompileKnobs := mkCompileKnobs false 0 true false.
Definition demo_add ex tags logical (seg : Segment (list N)) : option (option AddedCompiled * Segment (list N)) :=
  add_compiled ex tags mask_demo logical 1 0%Z placement_standalone 9 demo_knobs seg.
Definition demo_seg1 : Segment (list N) := default segment_new (snd <$> demo_add demo_extracted [3; 8] 77 segment_new).
Definition demo_seg2 : Segment (list N) := default segment_new (snd <$> demo_add demo_twin [4] 78 demo_seg1).
Definition demo_seg3 : Segment (list N) := default segment_new (tombstone 0 demo_seg2).
Definition demo_seg : Segment (list N) := default segment_new (seg_build_filter demo_seg3).
Definition demo_abs : list StoredQuery :=
  [mkStored demo_extracted [3; 8] 77 placement_standalone false false;
   mkStored demo_twin [4] 78 placement_standalone false true].

Lemma demo_added ex tags logical seg abs c a seg' :
  built mask_demo seg abs → unsealed seg → push_fits ex tags placement_standalone (sg_exact seg) → nlen abs < U32_MAX →
  bool_decide (Forall graph_nonempty (query_graphs ex) ∧ NoDup (required ex)) = true →
  is_opt_in (sp_class (plan_of ex mask_demo placement_standalone demo_knobs)) = c →
  demo_add ex tags logical seg = Some (Some a, seg') →
  built mask_demo seg' (abs ++ [mkStored ex tags logical placement_standalone c true]).
Proof. intros ? ? ? ? [? ?]%bool_decide_eq_true <- ?. by eapply built_add. Qed.

Lemma demo_built : built mask_demo demo_seg demo_abs.
Proof.
  apply built_seal with demo_seg3; [|by vm_compute].
  change demo_abs with (alter kill (usize 0) (([] ++ [mkStored demo_extracted [3; 8] 77 placement_standalone false true]) ++
    [mkStored demo_twin [4] 78 placement_standalone false true])).
  apply built_tombstone with demo_seg2; [|by vm_compute]. eapply demo_added with (seg := demo_seg1).
  - eapply demo_added with (seg := segment_new); [apply built_new, mask_demo_wf|done|apply demo_fits|..]; by vm_compute.
  - done.
  - split; try (by vm_compute). repeat split; try (by vm_compute). repeat constructor. by vm_compute.
  - by vm_compute.
  - by vm_compute.
  - by vm_compute.
  - by vm_compute.
Qed.

Definition demo_view : TitleView :=
  mkTitleView [1; 2; 3; 4; 6] (mask_of mask_demo [1; 2; 3; 4; 6]) [1; 2; 3; 4; 6] (mask_of mask_demo []) []
    (Some (mkPositionGraph 1 [mkPositionArc 1 0 1] true)) (Some (mkPositionGraph 0 [] true)) (Some false).

Lemma demo_view_ok : title_ok mask_demo demo_view.
Proof.
  split; [split; try done| done |].
  - apply (bool_decide_unpack _); by vm_compute.
  - constructor.
  - intros pg a [= <-] ->%list_elem_of_singleton. by left.
Qed.

Lemma demo_decided : decided demo_view demo_abs.
Proof.
  assert (phrase_occurs (mkPhraseGraph 1 [mkPhraseArc 0 1 [1]]) 1 [mkPositionArc 1 0 1]) as Ho.
  { split_and!; [done..|]. exists 0, 1. split; [done|].
    apply (reaches_step _ _ _ 0 0 (mkPhraseArc 0 1 [1]) (mkPositionArc 1 0 1)); try done; [constructor|by left..]. }
  intros q Hq _ _ g Hg. exists (mkPositionGraph 1 [mkPositionArc 1 0 1] true). split; [done|].
  apply elem_of_cons in Hq as [->| ->%list_elem_of_singleton]; by apply list_elem_of_singleton in Hg as ->.
Qed.

Lemma segment_match_refines_witness :
  ∃ seen' ids stats',
    match_into demo_seg demo_view mask_demo 1 [0; 0] [5] (mkProbeLanes false true) tag_empty stats_default =
      Some (seen', [5] ++ ids, stats') ∧ ids ≡ₚ [78].
Proof.
  destruct (segment_match_refines mask_demo demo_seg demo_abs demo_view false tag_empty 1 [0; 0] [5] stats_default
    demo_built demo_view_ok ltac:(done) ltac:(apply (bool_decide_unpack _); by vm_compute))
    as (seen' & ids & stats' & E & _ & _ & Hall).
  exists seen', ids, stats'. split; [done|]. rewrite (Hall demo_decided). by vm_compute.
Defined.

Lemma segment_bookkeeping_witness :
  sg_alive_counter demo_seg = 1 ∧ locals_for_logical demo_seg 78 = [1].
Proof.
  pose proof (segment_bookkeeping mask_demo demo_seg demo_abs demo_built) as (_ & E & _ & _ & _ & _).
  split; [rewrite E; by vm_compute|by vm_compute].
Defined.
