(* ===== verification/Merge.v ===== *)
(** * Compaction ([engine/src/segment/merge.rs])

    Merging segments into a fresh one: the mechanical copy ([compact_from]), its
    variant for sources with body groups, and the re-anchoring merge that plans
    every cover again under the current dictionary and moves rows between the
    main lane and the hot tier.  The theorems: a merge holds exactly the live
    queries of its sources, a mechanical merge with the visibility they had, and
    a re-anchoring merge never makes a visible query opt-in. *)

From S2P Require Import Prelude Util Filter Dictionary Index Phrase Compile Plan View Predicate Ownership Store Collect Segment SegMatch Lifecycle.

Record ReanchorStats := mkReanchorStats { reanchored : nat; hot_promoted : nat; hot_demoted : nat }.

Definition refuses_visibility_move (old plan : CostClass) : bool :=
  let hides := negb (is_opt_in old) && is_opt_in plan in
  let c_to_hot := bool_decide (old = ClassC) && bool_decide (plan = ClassH) in
  hides || c_to_hot.

Definition opt_in_after_reanchor (old : CostClass) (replanned : option CostClass) : bool :=
  match replanned with
  | Some plan => if refuses_visibility_move old plan then is_opt_in old else is_opt_in plan
  | None => is_opt_in old
  end.

Definition is_main_class (c : CostClass) : bool := match c with ClassA | ClassB => true | _ => false end.

(** [iter().min()]. *)
Definition min_of (l : list N) : option N :=
  match l with [] => None | x :: l' => Some (foldl N.min x l') end.

Section merge.
Context {B : Type} `{Roaring B}.
Implicit Types (seg src dest : Segment B) (ix : CandidateIndex B).

(** ** Walking an index

    [index.for_each_posting(|key, posting| posting.for_each(|id| ..))], with a
    closure that may panic. *)
Definition walk_postings {S} (f : S → N → N → option S) (s : S) ix : option S :=
  foldl (λ acc e, s ← acc; r ← for_each (λ o id, s ← o; f s e.1 id) (Some s) e.2; r) (Some s) (map_to_list (index_map ix)).

(** The keys of each local id. *)
Definition invert_index (n : nat) ix : option (list (list N)) :=
  walk_postings (λ v key id, ks ← v !! usize id; Some (<[usize id := ks ++ [key]]> v)) (replicate n []) ix.

Definition remap_postings (remap : list N) ix (to : CandidateIndex B) : option (CandidateIndex B) :=
  walk_postings (λ to key old,
    new ← remap !! usize old;
    Some (if new =? U32_MAX then to else index_insert key new to)) to ix.

(** ** The statements the merges share *)

(** [copy_entry] into the destination, and the logical id of the copy. *)
Definition copy_row src (old : nat) dest : option (N * N * Segment B) :=
  c ← copy_entry (sg_exact src) (as_u32 old) (sg_exact dest);
  let '(new_id, st) := c in
  logical ← xs_logical st !! usize new_id;
  Some (new_id, logical, with_exact st dest).

Definition with_indexes (main broad hot : CandidateIndex B) seg : Segment B :=
  mkSegment main broad hot (sg_exact seg) (sg_class seg) (sg_alive seg) (sg_alive_counter seg)
    (sg_live_phrases seg) (sg_filter seg) (sg_tag_summary seg) (sg_vocab_epoch seg) (sg_compiler_version seg)
    (sg_logical_index seg) (sg_dup_of seg) (sg_dup_members seg) (sg_body_index seg).

Definition with_versions (epoch version : N) seg : Segment B :=
  mkSegment (sg_main seg) (sg_broad seg) (sg_hot seg) (sg_exact seg) (sg_class seg) (sg_alive seg) (sg_alive_counter seg)
    (sg_live_phrases seg) (sg_filter seg) (sg_tag_summary seg) epoch version
    (sg_logical_index seg) (sg_dup_of seg) (sg_dup_members seg) (sg_body_index seg).

(** The merged segment is sealed, and as old as its oldest source. *)
Definition finish_merge (sources : list (Segment B)) dest : option (Segment B) :=
  dest ← seg_build_filter dest;
  Some (with_versions (default 0 (min_of (sg_vocab_epoch <$> sources)))
    (default CURRENT_COMPILER_SEMANTICS_VERSION (min_of (sg_compiler_version <$> sources))) dest).

(** [for (old, &is_alive) in src.alive.iter().enumerate()]. *)
Definition each_entry {S} (f : S → nat → bool → option S) (s : S) src : option S :=
  foldl (λ acc e, s ← acc; f s e.1 e.2) (Some s) (imap (λ i a, (i, a)) (sg_alive src)).

(** ** The mechanical merge *)

Definition compact_entry src (acc : Segment B * list N) (old : nat) (is_alive : bool) : option (Segment B * list N) :=
  let '(dest, remap) := acc in
  if negb is_alive then Some (dest, remap) else
  c ← copy_row src old dest;
  let '(new_id, logical, dest) := c in
  class ← sg_class src !! old;
  dest ← push_identity new_id logical (lead_group new_id None [] [] [] class dest);
  _ ← remap !! old;
  Some (dest, <[old := new_id]> remap).

Definition compact_source (acc : option (Segment B)) src : option (Segment B) :=
  dest ← acc;
  r ← each_entry (compact_entry src) (dest, replicate (seg_len src) U32_MAX) src;
  let '(dest, remap) := r in
  main ← remap_postings remap (sg_main src) (sg_main dest);
  broad ← remap_postings remap (sg_broad src) (sg_broad dest);
  hot ← remap_postings remap (sg_hot src) (sg_hot dest);
  Some (with_indexes main broad hot dest).

(** ** Sources with body groups *)

(** The keys of every local id, lane by lane. *)
Definition invert_lanes src : option (list (list N) * list (list N) * list (list N)) :=
  main ← invert_index (seg_len src) (sg_main src);
  broad ← invert_index (seg_len src) (sg_broad src);
  hot ← invert_index (seg_len src) (sg_hot src);
  Some (main, broad, hot).

(** The keys of an entry's source leader. *)
Definition leader_keys src (olds : list (list N) * list (list N) * list (list N)) (old : nat) :
  option (list N * list N * list N) :=
  let '(old_main, old_broad, old_hot) := olds in
  let src_leader := usize (dup_leader_of src (as_u32 old)) in
  m ← old_main !! src_leader;
  b ← old_broad !! src_leader;
  h ← old_hot !! src_leader;
  Some (m, b, h).

Definition grouped_entry src olds dest (old : nat) (is_alive : bool) : option (Segment B) :=
  if negb is_alive then Some dest else
  c ← copy_row src old dest;
  let '(new_id, logical, dest) := c in
  body_hash ← body_signature (sg_exact dest) new_id;
  class ← sg_class src !! old;
  joined ← body_leader (same_side (is_opt_in class)) body_hash new_id dest;
  dest ← match joined with
         | Some leader => c ← sg_class dest !! usize leader; Some (join_group leader new_id c dest)
         | None =>
             ks ← leader_keys src olds old;
             let '(m, b, h) := ks in
             Some (lead_group new_id (Some body_hash) m b h class dest)
         end;
  push_identity new_id logical dest.

Definition grouped_source (acc : option (Segment B)) src : option (Segment B) :=
  dest ← acc;
  olds ← invert_lanes src;
  each_entry (grouped_entry src olds) dest src.

Definition compact_from_grouped (sources : list (Segment B)) : option (Segment B) :=
  dest ← foldl grouped_source (Some segment_new) sources;
  finish_merge sources dest.

Definition compact_from (sources : list (Segment B)) : option (Segment B) :=
  if existsb has_dup_groups sources then compact_from_grouped sources else
  dest ← foldl compact_source (Some segment_new) sources;
  finish_merge sources dest.

(** ** The re-anchoring merge *)

Record Reanchor := mkReanchor {
  ra_dest : Segment B;
  ra_stats : ReanchorStats;
  ra_moves : nat;
  ra_replanned : list (option CostClass);
}.

Section reanchor.
Variables (dict : Dict) (theta : N) (max_moves : nat) (inverse : list (option N)).

(** A member moves with its leader; a main/hot crossing is counted. *)
Definition adopt_stats (old adopted : CostClass) (s : ReanchorStats) : ReanchorStats :=
  if is_main_class old && bool_decide (adopted = ClassH)
  then mkReanchorStats (reanchored s) (S (hot_promoted s)) (hot_demoted s)
  else if bool_decide (old = ClassH) && is_main_class adopted
  then mkReanchorStats (reanchored s) (hot_promoted s) (S (hot_demoted s))
  else s.

(** What the columns keep of a query for planning. *)
Definition anchoring_query (required : list N) (anyof : list (list N)) : Extracted :=
  mkExtracted required [] anyof 0 0 [] [] [] [].

Definition cover_freq (anchors : list (list N)) : N := foldr N.max 0 (freq dict <$> concat anchors).

Definition demotes (old plan : CostClass) : bool := bool_decide (old = ClassH) && is_main_class plan.
Definition promotes (old plan : CostClass) : bool := is_main_class old && bool_decide (plan = ClassH).

Definition move_allowed (old : CostClass) (plan : AnchorPlan) (moves : nat) : bool :=
  let demote_margin_ok := if demotes old (ap_class plan)
                          then (theta =? 0) || (cover_freq (main_anchors plan) <=? theta / 2) else true in
  negb (promotes old (ap_class plan) || demotes old (ap_class plan)) || (demote_margin_ok && (moves <? max_moves)%nat).

Definition lane_tagged (main broad hot : list N) : list (N * N) :=
  sort_unstable (((λ k, (0, k)) <$> main) ++ ((λ k, (1, k)) <$> broad) ++ ((λ k, (2, k)) <$> hot)).

Definition count_moved (now prev : list N * list N * list N) (s : ReanchorStats) : ReanchorStats :=
  let '(m, b, h) := now in
  let '(pm, pb, ph) := prev in
  if bool_decide (lane_tagged m b h = lane_tagged pm pb ph) then s
  else mkReanchorStats (S (reanchored s)) (hot_promoted s) (hot_demoted s).

(** The cover and class of a new leader, and the move it took. *)
Definition choose_cover (old : CostClass) (prev : list N * list N * list N) (plan : AnchorPlan) (stats : ReanchorStats) (moves : nat) :
  list N * list N * list N * CostClass * ReanchorStats * nat :=
  if refuses_visibility_move old (ap_class plan) || negb (move_allowed old plan moves)
  then (prev, old, stats, moves)
  else
    let now := (sig_key <$> main_anchors plan, sig_key <$> broad_anchors plan, sig_key <$> hot_anchors plan) in
    if promotes old (ap_class plan)
    then (now, ap_class plan, mkReanchorStats (reanchored stats) (S (hot_promoted stats)) (hot_demoted stats), S moves)
    else if demotes old (ap_class plan)
    then (now, ap_class plan, mkReanchorStats (reanchored stats) (hot_promoted stats) (S (hot_demoted stats)), S moves)
    else (now, ap_class plan, stats, moves).

Definition lead_with (new_id logical body_hash : N) (ks : list N * list N * list N) (class : CostClass) dest : option (Segment B) :=
  let '(m, b, h) := ks in
  push_identity new_id logical (lead_group new_id (Some body_hash) m b h class dest).

Definition lands_with (replanned : list (option CostClass)) (old : CostClass) (l : N) (c : CostClass) : option bool :=
  p ← replanned !! usize l;
  Some (bool_decide (is_opt_in c = opt_in_after_reanchor old p)).

Definition reanchor_entry src olds (st : Reanchor) (old : nat) (is_alive : bool) : option Reanchor :=
  if negb is_alive then Some st else
  c ← copy_row src old (ra_dest st);
  let '(new_id, logical, dest) := c in
  old_class ← sg_class src !! old;
  body_hash ← body_signature (sg_exact dest) new_id;
  joined ← body_leader (lands_with (ra_replanned st) old_class) body_hash new_id dest;
  match joined with
  | Some leader =>
      adopted ← sg_class dest !! usize leader;
      dest ← push_identity new_id logical (join_group leader new_id adopted dest);
      Some (mkReanchor dest (adopt_stats old_class adopted (ra_stats st)) (ra_moves st) (ra_replanned st ++ [None]))
  | None =>
      prev ← leader_keys src olds old;
      phrases ← row_has_phrase_predicates (sg_exact dest) new_id;
      if phrases : bool then
        dest ← lead_with new_id logical body_hash prev old_class dest;
        Some (mkReanchor dest (ra_stats st) (ra_moves st) (ra_replanned st ++ [None]))
      else
        inputs ← anchoring_inputs (sg_exact dest) new_id inverse;
        let '(required, anyof) := inputs in
        let plan := anchor_plan (anchoring_query required anyof) dict theta in
        let '(ks, class, stats, moves) := choose_cover old_class prev plan (ra_stats st) (ra_moves st) in
        dest ← lead_with new_id logical body_hash ks class dest;
        Some (mkReanchor dest (count_moved ks prev stats) moves (ra_replanned st ++ [Some (ap_class plan)]))
  end.

Definition reanchor_source (acc : option Reanchor) src : option Reanchor :=
  st ← acc;
  olds ← invert_lanes src;
  each_entry (reanchor_entry src olds) st src.

End reanchor.

Definition compact_from_reanchored (sources : list (Segment B)) (dict : Dict) (theta : N) (max_moves : nat) :
  option (Segment B * ReanchorStats) :=
  inverse ← mask_inverse dict;
  st ← foldl (reanchor_source dict theta max_moves inverse) (Some (mkReanchor segment_new (mkReanchorStats 0 0 0) 0 [])) sources;
  dest ← finish_merge sources (ra_dest st);
  Some (dest, ra_stats st).

End merge.

(** ** Walks *)

Section walks.
Context {B : Type} `{RoaringLaws B}.
Implicit Types ix : CandidateIndex B.

(** A walk is a loop over the postings, each once or more. *)
Lemma walk_postings_spec ix posts :
  index_holds ix posts →
  ∃ flat, (∀ k l, (k, l) ∈ flat ↔ (k, l) ∈ posts) ∧
    ∀ S (f : S → N → N → option S) s, walk_postings f s ix = foldM (λ s e, f s e.1 e.2) s flat.
Proof using All.
  intros Hix. assert (∀ m, (∀ k p, (k, p) ∈ m → index_map ix !! k = Some p) →
    ∃ flat, (∀ k l, (k, l) ∈ flat ↔ k ∈ m.*1 ∧ (k, l) ∈ posts) ∧
      ∀ S (f : S → N → N → option S) s,
        foldl (λ acc e, s ← acc; r ← for_each (λ o id, s ← o; f s e.1 id) (Some s) e.2; r) (Some s) m =
          foldM (λ s e, f s e.1 e.2) s flat) as Hm.
  { induction m as [|[k p] m IH] using rev_ind; intros Hin.
    { exists []. split; [|done]. intros k l. simpl. split; [by intros ?%not_elem_of_nil|by intros [?%not_elem_of_nil _]]. }
    destruct IH as (flat & Hf & Hw). { intros k' p' Hk. apply Hin, elem_of_app. by left. }
    assert (index_map ix !! k = Some p) as Hp by (apply Hin, elem_of_app; right; by left).
    specialize (Hix k). rewrite Hp in Hix. destruct Hix as (l & Hl & Hmem & _).
    exists (flat ++ ((λ id, (k, id)) <$> l)). split.
    - intros k' l'. rewrite elem_of_app, Hf, fmap_app, elem_of_app. simpl. rewrite list_elem_of_singleton.
      assert (∀ x, x ∈ l ↔ (k, x) ∈ posts) as Hx by (intros x; by rewrite Hmem, elem_of_inserted).
      split; [intros [?|(x & [= -> ->] & ?%Hx)%list_elem_of_fmap]; tauto|].
      intros [[?| ->] Hin']; [by left|right]. apply list_elem_of_fmap. exists l'. split; [done|]. by apply Hx.
    - intros S f s. rewrite foldl_app, Hw, foldM_app. simpl. destruct (foldM _ s flat) as [s'|]; [|done]. simpl.
      rewrite (for_each_holds _ _ _ _ Hl). simpl. unfold foldM. by rewrite foldl_fmap. }
  destruct (Hm (map_to_list (index_map ix))) as (flat & Hf & Hw); [by intros k p ?%elem_of_map_to_list|].
  exists flat. split; [|intros; apply Hw]. intros k l. rewrite Hf. split; [tauto|]. intros Hin. split; [|done].
  apply (index_holds_keys ix posts k Hix). intros E. apply elem_of_inserted in Hin. rewrite E in Hin. by apply not_elem_of_nil in Hin.
Qed.

Lemma invert_index_spec ix posts n :
  index_holds ix posts → (∀ k l, (k, l) ∈ posts → (usize l < n)%nat) →
  ∃ v, invert_index n ix = Some v ∧ length v = n ∧
    ∀ l ks, v !! usize l = Some ks → ∀ k, k ∈ ks ↔ (k, l) ∈ posts.
Proof using All.
  intros Hix Hlt. destruct (walk_postings_spec ix posts Hix) as (flat & Hf & Hw). unfold invert_index. rewrite Hw.
  destruct (foldM_invariant (λ v e, ks ← v !! usize e.2; Some (<[usize e.2 := ks ++ [e.1]]> v))
    (λ done v, length v = n ∧ ∀ l ks, v !! usize l = Some ks → ∀ k, k ∈ ks ↔ (k, l) ∈ done) flat (replicate n []))
    as (v & -> & Hv & Hks).
  - rewrite length_replicate. split; [done|]. intros l ks [-> _]%lookup_replicate k. split; by intros ?%not_elem_of_nil.
  - intros done v [k l] Hp [Hv Hks]. simpl. assert ((k, l) ∈ flat) as Hin.
    { eapply elem_of_prefix; [|exact Hp]. apply elem_of_app. right. by left. }
    apply Hf, Hlt in Hin. rewrite <-Hv in Hin. apply lookup_lt_is_Some in Hin as [ks E]. rewrite E. simpl.
    eexists. split; [done|]. rewrite length_insert. split; [done|]. intros l' ks' E' k'.
    rewrite elem_of_app, list_elem_of_singleton. destruct (decide (l' = l)) as [->|Hne].
    + rewrite list_lookup_insert_eq in E' by by apply lookup_lt_Some in E. injection E' as <-.
      rewrite elem_of_app, list_elem_of_singleton, (Hks _ _ E). naive_solver.
    + rewrite list_lookup_insert_ne in E' by lia. rewrite (Hks _ _ E'). naive_solver.
  - exists v. split_and!; try done. intros l ks E k. by rewrite (Hks l ks E), Hf.
Qed.

End walks.

(** ** What a source gives *)

Section sources.
Context {B : Type} `{RoaringLaws B}.
Implicit Types (seg src dest : Segment B) (ix : CandidateIndex B).

Lemma each_entry_invariant {S} (f : S → nat → bool → option S) src s (I : nat → S → Prop) :
  I O s → (∀ k s a, sg_alive src !! k = Some a → I k s → ∃ s', f s k a = Some s' ∧ I (Datatypes.S k) s') →
  ∃ s', each_entry f s src = Some s' ∧ I (length (sg_alive src)) s'.
Proof using Type.
  intros Hinit Hstep. unfold each_entry. set (l := imap _ _).
  destruct (foldM_invariant (λ s e, f s e.1 e.2) (λ done s, I (length done) s) l s) as (s' & E & HI); [done| |].
  - intros done s1 [i a] Hp HI.
    assert (l !! length done = Some (i, a)) as Hl.
    { eapply prefix_lookup_Some; [|exact Hp]. by rewrite lookup_app_r, Nat.sub_diag. }
    unfold l in Hl. rewrite list_lookup_imap in Hl. destruct (sg_alive src !! length done) as [a'|] eqn:Ea; [|done].
    injection Hl as <- ->. destruct (Hstep _ s1 a Ea HI) as (s2 & E & HI2). exists s2.
    rewrite length_app, Nat.add_1_r. done.
  - exists s'. split; [exact E|]. unfold l in HI. by rewrite length_imap in HI.
Qed.

(** The query of a body is covered wherever its twin is. *)
Lemma cover_same_body d ex ex' a b lane keys :
  stored_as d ex a → stored_as d ex' b → same_body a b → cover d ex' lane keys → cover d ex lane keys.
Proof using Type.
  intros Ha Hb Hs Hc d' view Hwf Hle Ht Hm Hp.
  destruct (same_body_matches d' ex ex' a b view Hwf) as [Em Ep];
    [by eapply stored_as_mono|by eapply stored_as_mono|done|apply Ht|].
  apply (Hc d' view); try done; [by rewrite <-Em|by apply Ep].
Qed.

Definition lanes_of (ks : list N * list N * list N) (lane : ProbeLane) : list N :=
  match lane with Main => ks.1.1 | Broad => ks.1.2 | Hot => ks.2 end.

(** Keys that lead a row of class [c]. *)
Definition leads (d : Dict) (ex : Extracted) (c : CostClass) (ks : list N * list N * list N) : Prop :=
  (∀ lane, lane ≠ lane_of c → lanes_of ks lane = []) ∧ cover d ex (lane_of c) (lanes_of ks (lane_of c)).

Section source.
Context (d : Dict) (src : Segment B) (abs : list StoredQuery) (s : SegSpec).
Hypothesis Hsrc : represents d src abs s.

Lemma source_len : seg_len src = length (sp_rows s) ∧ length (sg_alive src) = length (sp_rows s) ∧ length abs = length (sp_rows s).
Proof using Hsrc.
  pose proof (represents_len _ _ _ _ Hsrc). destruct Hsrc as [[[Hst _ _ _ _] [Ha _ _ _ _ _] _ _] _ _ _ _].
  unfold seg_len, store_len. rewrite (h_rmask _ _ Hst), length_fmap. done.
Qed.

Lemma source_posted lane k l : (k, l) ∈ sp_posts s lane → (usize l < seg_len src)%nat.
Proof using Hsrc.
  intros Hp. pose proof (k_groups _ _ _ (rp_ok _ _ _ _ Hsrc)) as Hg.
  destruct (k_posted _ _ _ _ _ _ _ _ _ Hg _ _ _ Hp) as [Hd%lookup_lt_Some _].
  rewrite (k_dup _ _ _ _ _ _ _ _ _ Hg) in Hd. by rewrite (proj1 source_len).
Qed.

Definition inverted (olds : list (list N) * list (list N) * list (list N)) : Prop :=
  ∀ lane, let v := match lane with Main => olds.1.1 | Broad => olds.1.2 | Hot => olds.2 end in
    length v = seg_len src ∧ ∀ l ks, v !! usize l = Some ks → ∀ k, k ∈ ks ↔ (k, l) ∈ sp_posts s lane.

Lemma invert_lanes_spec : ∃ olds, invert_lanes src = Some olds ∧ inverted olds.
Proof using All.
  pose proof (k_index _ _ _ _ _ _ _ _ _ (k_groups _ _ _ (rp_ok _ _ _ _ Hsrc))) as Hix. unfold invert_lanes.
  destruct (invert_index_spec (sg_main src) (sp_posts s Main) (seg_len src)) as (vm & -> & Hm); [apply (Hix Main)|apply source_posted|].
  destruct (invert_index_spec (sg_broad src) (sp_posts s Broad) (seg_len src)) as (vb & -> & Hb); [apply (Hix Broad)|apply source_posted|].
  destruct (invert_index_spec (sg_hot src) (sp_posts s Hot) (seg_len src)) as (vh & -> & Hh); [apply (Hix Hot)|apply source_posted|].
  simpl. eexists. split; [done|]. by intros [].
Qed.

(** A row of the source, by its index. *)
Lemma source_row old q :
  abs !! old = Some q →
  ∃ r c, sp_exs s !! old = Some (sq_query q) ∧ sp_rows s !! old = Some r ∧ stored_row q r ∧ stored_as d (sq_query q) r ∧
    sg_class src !! old = Some c ∧ is_opt_in c = sq_opt_in q ∧ as_u32 old = N.of_nat old ∧ (old < length (sp_rows s))%nat ∧
    row_fits r.
Proof using Hsrc.
  intros Hq. rewrite <-(Nat2N.id old) in Hq. destruct (represents_lookup _ _ _ _ _ _ Hsrc Hq) as (r & c & He & Hr & Hrow & _ & Hc & Ho).
  rewrite Nat2N.id in *. pose proof (k_rows _ _ _ (rp_ok _ _ _ _ Hsrc)) as [_ _ Hf Hexs Hlen].
  pose proof (lookup_lt_Some _ _ _ Hr) as Hlt. exists r, c. split_and!; try done.
  - destruct (Forall2_lookup_r _ _ _ _ _ Hexs Hr) as (e & He' & ?). by simplify_eq.
  - apply as_u32_small. unfold nlen, U32_MAX in Hlen. change (2 ^ 32) with 4294967296. lia.
  - by eapply Forall_lookup_1 in Hf.
Qed.

(** The keys of its source leader lead a copy of the row. *)
Lemma leader_keys_spec olds old q :
  inverted olds → abs !! old = Some q →
  ∃ ks c L, leader_keys src olds old = Some ks ∧ sg_class src !! old = Some c ∧ leads d (sq_query q) c ks ∧
    sg_dup_of src !! old = Some L ∧ ∀ lane k, k ∈ lanes_of ks lane ↔ (k, L) ∈ sp_posts s lane.
Proof using All.
  intros Hinv Hq. destruct (source_row old q Hq) as (r & c & He & Hr & _ & Hs & Hc & _ & Hold & Hlt & _).
  pose proof (k_groups _ _ _ (rp_ok _ _ _ _ Hsrc)) as Hg. destruct olds as [[vm vb] vh].
  assert (is_Some (sg_dup_of src !! old)) as [L HL].
  { apply lookup_lt_is_Some. by rewrite (k_dup _ _ _ _ _ _ _ _ _ Hg). }
  rewrite <-(Nat2N.id old) in HL, Hr, Hc.
  destruct (k_leader _ _ _ _ _ _ _ _ _ Hg _ L r HL Hr) as (HLL & Hcl & b & Hb & Hsame). rewrite Hc in Hcl.
  assert (usize L < seg_len src)%nat as HLt by (rewrite (proj1 source_len); by apply lookup_lt_Some in Hb).
  unfold leader_keys, dup_leader_of. rewrite Hold, HL. simpl default.
  assert (∀ lane, let v := match lane with Main => vm | Broad => vb | Hot => vh end in
    ∃ ks, v !! usize L = Some ks ∧ ∀ k, k ∈ ks ↔ (k, L) ∈ sp_posts s lane) as Hks.
  { intros lane. destruct (Hinv lane) as [Hl Hk]. simpl in *. destruct (lookup_lt_is_Some_2 _ _ (eq_ind_r (λ n, usize L < n)%nat HLt Hl)) as [ks E].
    exists ks. split; [done|]. by apply Hk. }
  destruct (Hks Main) as (m & Em & Hm), (Hks Broad) as (bb & Eb & Hbb), (Hks Hot) as (h & Eh & Hh). simpl in *.
  rewrite Em, Eb, Eh. exists (m, bb, h), c, L. rewrite Nat2N.id in Hc, HL.
  assert (∀ lane k, k ∈ lanes_of (m, bb, h) lane ↔ (k, L) ∈ sp_posts s lane) as Hall by by intros [].
  split_and!; try done. split.
  - intros lane Hl. apply elem_of_nil_inv. intros k Hk%Hall. apply (k_posted _ _ _ _ _ _ _ _ _ Hg) in Hk as [_ Hk].
    rewrite <-Hcl in Hk. simpl in Hk. by injection Hk as <-.
  - pose proof (k_exs _ _ _ _ (k_rows _ _ _ (rp_ok _ _ _ _ Hsrc))) as Hexs.
    destruct (Forall2_lookup_r _ _ _ _ _ Hexs Hb) as (ex' & He' & Hs').
    eapply cover_same_body; [exact Hs|exact Hs'|done|].
    eapply cover_sub; [|by eapply (k_cover _ _ _ _ _ _ _ _ _ Hg L ex' c)]. intros k Hk%elem_of_keys_of. by apply Hall.
Qed.

End source.

(** ** Copying one row *)

(** The destination so far: the queries [acc], in at most [budget] of each column. *)
Definition holding (d : Dict) (budget : Blob → N) (acc : list StoredQuery) dest : Prop :=
  unsealed dest ∧ ∃ s, represents d dest acc s ∧ ∀ b, sum_N (row_size b) (sp_rows s) ≤ budget b.

Definition plus_row (budget : Blob → N) (r : Row) : Blob → N := λ b, budget b + row_size b r.

Lemma rows_len rows : sum_N (row_size BRows) rows = nlen rows.
Proof using Type. unfold nlen. induction rows as [|r rows IH]; [done|]. simpl in *. rewrite IH. lia. Qed.

(** A copied row, before it is placed in a group. *)
Lemma copy_row_spec d src abs s old q r dest acc s' :
  represents d src abs s → abs !! old = Some q → sp_rows s !! old = Some r →
  represents d dest acc s' → (∀ b, sum_N (row_size b) (sp_rows s') + row_size b r ≤ U32_MAX) →
  ∃ st, copy_row src old dest = Some (nlen (sp_rows s'), r_logical r, with_exact st dest) ∧
    rows_ok d st (sp_exs s' ++ [sq_query q]) (sp_rows s' ++ [r]).
Proof using Type.
  intros Hsrc Hq Hr Hdest Hroom. destruct (source_row d src abs s Hsrc old q Hq) as (r' & c & _ & Hr' & _ & Hs & _ & _ & Hold & _ & Hf).
  simplify_eq. pose proof (k_rows _ _ _ (rp_ok _ _ _ _ Hsrc)) as [Hst _ _ _ _].
  pose proof (k_rows _ _ _ (rp_ok _ _ _ _ Hdest)) as [Hst' Hpk Hfits Hexs Hlen].
  assert (∀ b, sum_N (row_size b) (sp_rows s' ++ [r]) ≤ U32_MAX) as Hroom'.
  { intros b. rewrite sum_N_app. simpl. specialize (Hroom b). lia. }
  rewrite <-(Nat2N.id old) in Hr. unfold copy_row. rewrite Hold.
  destruct (copy_entry_row _ _ r _ Hst Hr (sg_exact dest) (sp_rows s') Hst' Hf (packed_room _ _ _ Hpk Hroom')) as (st & -> & Hst1 & Hpk1).
  rewrite as_u32_len by done. cbn [mbind option_bind]. rewrite (h_logical _ _ Hst1), fmap_app.
  rewrite lookup_app_r, length_fmap by (rewrite length_fmap; unfold nlen; lia).
  replace (usize (nlen (sp_rows s')) - length (sp_rows s'))%nat with O by (unfold nlen; lia). simpl.
  exists st. split; [done|]. split; [done|by apply Hpk1| |by apply Forall2_app; [|constructor]|].
  - apply Forall_app. split; [done|]. by constructor.
  - rewrite <-rows_len. apply Hroom'.
Qed.

(** The body hash of the copy. *)
Lemma copied_body d st exs rows ex r :
  rows_ok d st (exs ++ [ex]) (rows ++ [r]) → length exs = length rows → ∃ h, body_signature st (nlen rows) = Some h.
Proof using Type.
  intros [Hst _ _ Hexs _] Hl. eapply body_signature_total; [done|apply lookup_push|].
  apply Forall2_app_inv in Hexs as [_ Hr]; [|done]. inversion Hr as [|? ? ? ? Hs _]; subst. by apply stored_as_words in Hs as [_ ?].
Qed.

Lemma holding_join d budget acc dest s q r st L c b :
  unsealed dest → represents d dest acc s → (∀ b, sum_N (row_size b) (sp_rows s) ≤ budget b) → stored_row q r →
  rows_ok d st (sp_exs s ++ [sq_query q]) (sp_rows s ++ [r]) →
  sg_dup_of dest !! usize L = Some L → sg_class dest !! usize L = Some c → sp_rows s !! usize L = Some b → same_body r b →
  ∃ dest', push_identity (nlen (sp_rows s)) (r_logical r) (join_group L (nlen (sp_rows s)) c (with_exact st dest)) = Some dest' ∧
    holding d (plus_row budget r) (acc ++ [carried (is_opt_in c) q]) dest'.
Proof using Type.
  intros Hu Hrep Hb Hrow Hrows HL Hc HLb Hs.
  destruct (join_group_ok d dest s (sq_query q) r st L c b) as (dest' & E & Happ); [apply Hrep|done..|].
  exists dest'. split; [done|]. destruct (represents_appended _ _ _ _ _ _ _ _ _ Hrep Hrow Happ) as (Hu' & Hrep').
  split; [done|]. eexists. split; [exact Hrep'|]. intros b'. simpl. rewrite sum_N_app. unfold plus_row. specialize (Hb b'). simpl. lia.
Qed.

Lemma holding_lead d budget acc dest s q r st c body ks :
  unsealed dest → represents d dest acc s → (∀ b, sum_N (row_size b) (sp_rows s) ≤ budget b) → stored_row q r →
  rows_ok d st (sp_exs s ++ [sq_query q]) (sp_rows s ++ [r]) → leads d (sq_query q) c ks →
  ∃ dest', push_identity (nlen (sp_rows s)) (r_logical r)
      (lead_group (nlen (sp_rows s)) body ks.1.1 ks.1.2 ks.2 c (with_exact st dest)) = Some dest' ∧
    holding d (plus_row budget r) (acc ++ [carried (is_opt_in c) q]) dest'.
Proof using All.
  intros Hu Hrep Hb Hrow Hrows [Hlane Hcov].
  destruct (lead_group_ok d dest s (sq_query q) r st c body ks.1.1 ks.1.2 ks.2) as (dest' & E & Happ);
    [apply Hrep|done|done| | |].
  { intros lane Hl. specialize (Hlane lane Hl). by destruct lane. }
  { by destruct (lane_of c). }
  exists dest'. split; [done|]. destruct (represents_appended _ _ _ _ _ _ _ _ _ Hrep Hrow Happ) as (Hu' & Hrep').
  split; [done|]. eexists. split; [exact Hrep'|]. intros b'. simpl. rewrite sum_N_app. unfold plus_row. specialize (Hb b'). simpl. lia.
Qed.

(** ** Merging sources with body groups *)

Lemma grouped_entry_spec d src abs s olds old q r dest acc budget :
  represents d src abs s → inverted src s olds → abs !! old = Some q → sp_rows s !! old = Some r → sq_live q = true →
  holding d budget acc dest → (∀ b, plus_row budget r b ≤ U32_MAX) →
  ∃ dest', grouped_entry src olds dest old true = Some dest' ∧ holding d (plus_row budget r) (acc ++ [q]) dest'.
Proof using All.
  intros Hsrc Hinv Hq Hr Hlive (Hu & s' & Hrep & Hb) Hroom.
  assert (carried (sq_opt_in q) q = q) as Hcar by (destruct q; simpl in *; by subst).
  destruct (source_row d src abs s Hsrc old q Hq) as (r' & c & _ & Hr' & Hrow & _ & Hc & Hop & _). simplify_eq.
  destruct (copy_row_spec d src abs s old q r dest acc s') as (st & Ec & Hrows); [done..| |].
  { intros b. specialize (Hroom b). specialize (Hb b). unfold plus_row in Hroom. lia. }
  pose proof (k_exs _ _ _ _ (k_rows _ _ _ (rp_ok _ _ _ _ Hrep))) as Hexs.
  destruct (copied_body d st _ _ _ _ Hrows (Forall2_length _ _ _ Hexs)) as [h Eh].
  unfold grouped_entry. cbn [negb]. rewrite Ec. cbn [mbind option_bind sg_exact with_exact]. rewrite Eh. cbn [mbind option_bind].
  rewrite Hc. cbn [mbind option_bind].
  destruct (body_leader_spec d dest s' st (sq_query q) r (same_side (is_opt_in c)) h) as (res & -> & Hres); [apply Hrep|done|done|].
  cbn [mbind option_bind]. destruct res as [L|].
  - destruct Hres as (HL & cL & b & HcL & Hs & HbL & Hsame). cbn [sg_class with_exact]. rewrite HcL. cbn [mbind option_bind].
    unfold same_side in Hs. injection Hs as Hs%bool_decide_eq_true.
    destruct (holding_join d budget acc dest s' q r st L cL b) as (dest' & E & Hh); [done..|]. exists dest'. split; [done|].
    by rewrite Hs, Hop, Hcar in Hh.
  - destruct (leader_keys_spec d src abs s Hsrc olds old q Hinv Hq) as (ks & c' & L & -> & Hc' & Hlead & _). simplify_eq.
    cbn [mbind option_bind]. destruct ks as [[m bb] hh].
    destruct (holding_lead d budget acc dest s' q r st c (Some h) (m, bb, hh)) as (dest' & E & Hh); [done..|].
    exists dest'. split; [exact E|]. by rewrite Hop, Hcar in Hh.
Qed.

(** Live queries of a list. *)
Definition live_of (abs : list StoredQuery) : list StoredQuery := filter (λ q, sq_live q = true) abs.

Definition plus_source (budget : Blob → N) src : Blob → N := λ b, budget b + store_size b (sg_exact src).

(** A loop over the entries of one source, for any invariant of the queries
    merged so far and the room they take. *)
Lemma each_source {S} d src abs s (f : S → nat → bool → option S) (I : nat → (Blob → N) → list StoredQuery → S → Prop) budget acc st :
  represents d src abs s →
  (∀ k bud bud' acc st, (∀ b, bud b ≤ bud' b) → I k bud acc st → I k bud' acc st) →
  (∀ st k bud acc, I k bud acc st → f st k false = Some st ∧ I (Datatypes.S k) bud acc st) →
  (∀ st k q r bud acc, abs !! k = Some q → sp_rows s !! k = Some r → sq_live q = true → I k bud acc st →
     (∀ b, plus_row bud r b ≤ U32_MAX) → ∃ st', f st k true = Some st' ∧ I (Datatypes.S k) (plus_row bud r) (acc ++ [q]) st') →
  I O budget acc st → (∀ b, plus_source budget src b ≤ U32_MAX) →
  ∃ st', each_entry f st src = Some st' ∧ I (length abs) (plus_source budget src) (acc ++ live_of abs) st'.
Proof using Type.
  intros Hsrc Hmono Hdead Hlive Hinit Hroom. destruct (source_len d src abs s Hsrc) as (_ & Hal & Habs).
  pose proof (k_packed _ _ _ _ (k_rows _ _ _ (rp_ok _ _ _ _ Hsrc))) as Hpk.
  assert (∀ k b, sum_N (row_size b) (take k (sp_rows s)) ≤ store_size b (sg_exact src)) as Htake.
  { intros k b. rewrite Hpk. rewrite <-(take_drop k (sp_rows s)) at 2. rewrite sum_N_app. lia. }
  destruct (each_entry_invariant f src st
    (λ k, I k (λ b, budget b + sum_N (row_size b) (take k (sp_rows s))) (acc ++ live_of (take k abs)))) as (st' & E & HI).
  - simpl. rewrite app_nil_r. eapply Hmono; [|exact Hinit]. intros b. simpl. lia.
  - intros k st1 a Ha HI. pose proof (lookup_lt_Some _ _ _ Ha) as Hk. rewrite Hal in Hk.
    destruct (lookup_lt_is_Some_2 _ _ Hk) as [r Hr]. rewrite <-Habs in Hk. destruct (lookup_lt_is_Some_2 _ _ Hk) as [q Hq].
    assert (a = sq_live q) as -> by (rewrite (rp_alive _ _ _ _ Hsrc), list_lookup_fmap, Hq in Ha; by injection Ha).
    rewrite (take_S_r _ _ _ Hq). unfold live_of in *. rewrite filter_app, filter_cons.
    destruct (sq_live q) eqn:El; simpl.
    + destruct (Hlive st1 k q r _ _ Hq Hr El HI) as (st2 & E & HI2).
      { intros b. unfold plus_row. specialize (Htake (Datatypes.S k) b). rewrite (take_S_r _ _ _ Hr), sum_N_app in Htake.
        specialize (Hroom b). unfold plus_source in Hroom. simpl in Htake. lia. }
      exists st2. split; [done|]. rewrite app_assoc. eapply Hmono; [|exact HI2]. intros b. unfold plus_row.
      rewrite (take_S_r _ _ _ Hr), sum_N_app. simpl. lia.
    + destruct (Hdead _ _ _ _ HI) as [E HI2]. exists st1. split; [done|]. rewrite app_nil_r. eapply Hmono; [|exact HI2]. intros b. simpl.
      rewrite (take_S_r _ _ _ Hr), sum_N_app. simpl. lia.
  - exists st'. split; [done|]. rewrite Hal, <-Habs in HI. rewrite !firstn_all2 in HI by lia.
    eapply Hmono; [|exact HI]. intros b. unfold plus_source. rewrite Hpk. simpl. lia.
Qed.

Lemma holding_mono d bud bud' acc dest : (∀ b, bud b ≤ bud' b) → holding d bud acc dest → holding d bud' acc dest.
Proof using Type. intros Hle (Hu & s & Hr & Hb). split; [done|]. exists s. split; [done|]. intros b. etrans; [apply Hb|apply Hle]. Qed.

Lemma grouped_source_spec d src abs s dest acc budget :
  represents d src abs s → holding d budget acc dest → (∀ b, plus_source budget src b ≤ U32_MAX) →
  ∃ dest', grouped_source (Some dest) src = Some dest' ∧ holding d (plus_source budget src) (acc ++ live_of abs) dest'.
Proof using All.
  intros Hsrc Hh Hroom. unfold grouped_source. destruct (invert_lanes_spec d src abs s Hsrc) as (olds & -> & Hinv).
  cbn [mbind option_bind].
  apply (each_source d src abs s (grouped_entry src olds) (λ _, holding d)); try done; [intros _; apply holding_mono|].
  intros *. by eapply grouped_entry_spec.
Qed.

(** ** The mechanical merge

    The copies are placed first and the postings follow, so a destination is
    compared with its shadow: the segment in which every copy was placed with
    its keys at once. *)

Lemma groups_posts_ext d ixs ixs' class dup_of members bodies posts posts' exs rows :
  groups_ok d ixs class dup_of members bodies posts exs rows →
  (∀ lane, index_holds (B:=B) (ixs' lane) (posts' lane)) →
  (∀ lane k l, (k, l) ∈ posts' lane ↔ (k, l) ∈ posts lane) →
  groups_ok d ixs' class dup_of members bodies posts' exs rows.
Proof using Type.
  intros [Hc Hd _ Hp Hv Hl Hm Hn Hb] Hix Hext. split; try done.
  - intros lane key l Hin%Hext. eauto.
  - intros l ex c He Hdl Hcl. eapply cover_sub; [|by eapply Hv]. intros k Hk%elem_of_keys_of. by apply elem_of_keys_of, Hext.
Qed.

Lemma posts_fit d seg s lane : seg_ok d seg s → Forall (fits 32) (sp_posts s lane).*2.
Proof using Type.
  intros Hok. apply Forall_fmap, Forall_forall. intros [k l] Hin. destruct Hok as [[_ _ _ _ Hlen] _ Hg _].
  destruct (k_posted _ _ _ _ _ _ _ _ _ Hg _ _ _ Hin) as [Hd%lookup_lt_Some _]. rewrite (k_dup _ _ _ _ _ _ _ _ _ Hg) in Hd.
  unfold fits, nlen, U32_MAX in *. simpl. lia.
Qed.

Lemma remap_postings_spec remap ix posts to posts0 :
  index_holds ix posts → index_holds to posts0 → Forall (fits 32) posts0.*2 →
  (∀ k l, (k, l) ∈ posts → ∃ id, remap !! usize l = Some id ∧ fits 32 id) →
  ∃ to' mapped, remap_postings remap ix to = Some to' ∧ index_holds (B:=B) to' (posts0 ++ mapped) ∧
    ∀ k l, (k, l) ∈ mapped ↔ ∃ old, remap !! usize old = Some l ∧ l ≠ U32_MAX ∧ (k, old) ∈ posts.
Proof using All.
  intros Hix Hto Hfit Hre. destruct (walk_postings_spec ix posts Hix) as (flat & Hf & Hw). unfold remap_postings. rewrite Hw.
  destruct (foldM_invariant (λ to e, new ← remap !! usize e.2; Some (if new =? U32_MAX then to else index_insert e.1 new to))
    (λ done to, ∃ mapped, index_holds to (posts0 ++ mapped) ∧ Forall (fits 32) (posts0 ++ mapped).*2 ∧
       ∀ k l, (k, l) ∈ mapped ↔ ∃ old, remap !! usize old = Some l ∧ l ≠ U32_MAX ∧ (k, old) ∈ done) flat to)
    as (to' & E & mapped & Hm & _ & Hin).
  - exists []. rewrite app_nil_r. split_and!; [done..|]. intros k l. split; [by intros ?%not_elem_of_nil|].
    by intros (? & _ & _ & ?%not_elem_of_nil).
  - intros done to1 [k l] Hp (mapped & Hm & Hft & Hin). simpl. assert ((k, l) ∈ flat) as Hkl.
    { eapply elem_of_prefix; [|exact Hp]. apply elem_of_app. right. by left. }
    apply Hf in Hkl as (id & Hid & Hidf)%Hre. rewrite Hid. simpl. destruct (N.eqb_spec id U32_MAX) as [->|Hne].
    + eexists. split; [done|]. exists mapped. split_and!; [done..|]. intros k' l'. rewrite Hin. setoid_rewrite elem_of_app.
      setoid_rewrite list_elem_of_singleton. naive_solver.
    + eexists. split; [done|]. exists (mapped ++ [(k, id)]). rewrite app_assoc. assert (Forall (fits 32) ((posts0 ++ mapped) ++ [(k, id)]).*2) as Hft'.
      { rewrite fmap_app. apply Forall_app. split; [done|]. by repeat constructor. }
      split_and!; [by apply index_insert_holds|done|]. intros k' l'. rewrite elem_of_app, Hin, list_elem_of_singleton.
      setoid_rewrite elem_of_app. setoid_rewrite list_elem_of_singleton. naive_solver.
  - exists to', mapped. split_and!; try done. intros k l. rewrite Hin. setoid_rewrite Hf. done.
Qed.

Section mechanical.
Context (d : Dict) (src : Segment B) (abs : list StoredQuery) (s : SegSpec) (dest0 : Segment B) (s0 : SegSpec).
Hypothesis Hsrc : represents d src abs s.
Hypothesis Hflat : has_dup_groups src = false.

Lemma ungrouped_leader l L : sg_dup_of src !! usize l = Some L → L = l.
Proof using Hsrc Hflat.
  intros Hl. destruct (decide (l = L)) as [|Hne]; [done|]. pose proof (k_groups _ _ _ (rp_ok _ _ _ _ Hsrc)) as Hg.
  assert (l ∈ default [] (sg_dup_members src !! L)) as Hm by by apply (k_members _ _ _ _ _ _ _ _ _ Hg).
  unfold has_dup_groups in Hflat. apply negb_false_iff, bool_decide_eq_true in Hflat. rewrite Hflat, lookup_empty in Hm.
  by apply not_elem_of_nil in Hm.
Qed.

(** After [k] entries: the shadow [v], and what the remap says of its postings. *)
Record shadowed (k : nat) (bud : Blob → N) (acc : list StoredQuery) (st : Segment B * list N) (v : Segment B) (sv : SegSpec) : Prop := {
  sh_unsealed : unsealed v;
  sh_rep : represents d v acc sv;
  sh_room b : sum_N (row_size b) (sp_rows sv) ≤ bud b;
  sh_dest : st.1 = with_indexes (sg_main dest0) (sg_broad dest0) (sg_hot dest0) v;
  sh_len : length st.2 = seg_len src;
  sh_next old id : st.2 !! old = Some id → id = U32_MAX ∨ ((old < k)%nat ∧ id < nlen (sp_rows sv));
  sh_posts lane key l : (key, l) ∈ sp_posts sv lane ↔
    (key, l) ∈ sp_posts s0 lane ∨ ∃ old, st.2 !! usize old = Some l ∧ l ≠ U32_MAX ∧ (key, old) ∈ sp_posts s lane;
}.

Lemma push_identity_with_indexes main broad hot n lg v :
  push_identity n lg (with_indexes main broad hot v) = with_indexes main broad hot <$> push_identity (B:=B) n lg v.
Proof using Type. unfold push_identity. simpl. by destruct (row_has_phrase_predicates (sg_exact v) n). Qed.

Lemma compact_entry_spec k q r bud acc st v sv :
  abs !! k = Some q → sp_rows s !! k = Some r → sq_live q = true → shadowed k bud acc st v sv →
  (∀ b, plus_row bud r b ≤ U32_MAX) →
  ∃ st' v' sv', compact_entry src st k true = Some st' ∧ shadowed (S k) (plus_row bud r) (acc ++ [q]) st' v' sv'.
Proof using All.
  intros Hq Hr Hlive [Hu Hrep Hb Hdest Hlen Hnext Hposts] Hroom. destruct st as [dest remap]. simpl in *.
  assert (carried (sq_opt_in q) q = q) as Hcar by (destruct q; simpl in *; by subst).
  destruct (source_row d src abs s Hsrc k q Hq) as (r' & c & _ & Hr' & Hrow & _ & Hc & Hop & _ & Hk & _). simplify_eq.
  destruct (copy_row_spec d src abs s k q r v acc sv) as (x & Ec & Hrows); [done..| |].
  { intros b. specialize (Hroom b). specialize (Hb b). unfold plus_row in Hroom. lia. }
  assert (copy_row src k (with_indexes (sg_main dest0) (sg_broad dest0) (sg_hot dest0) v) =
    Some (nlen (sp_rows sv), r_logical r, with_exact x (with_indexes (sg_main dest0) (sg_broad dest0) (sg_hot dest0) v))) as Ec'.
  { unfold copy_row in *. cbn [sg_exact with_indexes].
    destruct (copy_entry _ _ _) as [[new y]|]; [|done]. cbn [mbind option_bind] in *.
    destruct (xs_logical y !! usize new); [|done]. cbn [mbind option_bind] in *. by injection Ec as -> -> ->. }
  destruct (invert_lanes_spec d src abs s Hsrc) as (olds & _ & Hinv).
  destruct (leader_keys_spec d src abs s Hsrc olds k q Hinv Hq) as (ks & c' & L & _ & Hc' & [Hlane Hcov] & HL & Hks). simplify_eq.
  rewrite <-(Nat2N.id k) in HL. apply ungrouped_leader in HL. subst L.
  destruct (lead_group_ok d v sv (sq_query q) r x c None ks.1.1 ks.1.2 ks.2) as (v' & E & Happ); [apply Hrep|done|done| | |].
  { intros lane Hl. specialize (Hlane lane Hl). by destruct lane. }
  { by destruct (lane_of c). }
  destruct (represents_appended _ _ _ _ _ _ _ _ _ Hrep Hrow Happ) as [Hu' Hrep']. rewrite Hop, Hcar in Hrep'.
  assert (nlen (sp_rows sv) < U32_MAX) as Hn.
  { specialize (Hroom BRows). specialize (Hb BRows). unfold plus_row in Hroom. rewrite rows_len in Hb. simpl in Hroom. lia. }
  unfold compact_entry. cbn [negb]. rewrite Ec'. cbn [mbind option_bind]. rewrite Hc. cbn [mbind option_bind].
  change (lead_group (nlen (sp_rows sv)) None [] [] [] c (with_exact x (with_indexes (sg_main dest0) (sg_broad dest0) (sg_hot dest0) v)))
    with (with_indexes (sg_main dest0) (sg_broad dest0) (sg_hot dest0)
      (lead_group (nlen (sp_rows sv)) None ks.1.1 ks.1.2 ks.2 c (with_exact x v))).
  rewrite push_identity_with_indexes, E. cbn [fmap option_fmap option_map mbind option_bind].
  assert (is_Some (remap !! k)) as [old0 Hold].
  { apply lookup_lt_is_Some. rewrite Hlen, (proj1 (source_len d src abs s Hsrc)). done. }
  rewrite Hold. cbn [mbind option_bind]. eexists _, v', _. split; [done|]. split; [done|exact Hrep'|..]; simpl.
  - intros b. rewrite sum_N_app. unfold plus_row. specialize (Hb b). simpl. lia.
  - done.
  - by rewrite length_insert.
  - intros old id Hid. unfold nlen in *. rewrite length_app. simpl. destruct (decide (old = k)) as [->|Hne].
    + rewrite list_lookup_insert_eq in Hid by by apply lookup_lt_Some in Hold. injection Hid as <-. right. lia.
    + rewrite list_lookup_insert_ne in Hid by done. apply Hnext in Hid as [->|?]; [by left|right; lia].
  - intros lane key l. unfold lead_posts. rewrite elem_of_app, Hposts.
    assert ((key, l) ∈ (λ k0, (k0, nlen (sp_rows sv))) <$> (match lane with Main => ks.1.1 | Broad => ks.1.2 | Hot => ks.2 end) ↔
      l = nlen (sp_rows sv) ∧ (key, N.of_nat k) ∈ sp_posts s lane) as ->.
    { rewrite list_elem_of_fmap. specialize (Hks lane). unfold lanes_of in Hks. setoid_rewrite Hks. naive_solver. }
    split.
    + intros [[?|(old & Ho & Hl & Hin)]|[-> Hin]]; [by left|right; exists old|right; exists (N.of_nat k)].
      * split; [|done]. rewrite list_lookup_insert_ne; [done|]. intros Ek. apply Hnext in Ho as [?|[? _]]; [done|lia].
      * rewrite Nat2N.id, list_lookup_insert_eq by by apply lookup_lt_Some in Hold. split_and!; [done|lia|done].
    + intros [?|(old & Ho & Hl & Hin)]; [by left; left|]. destruct (decide (usize old = k)) as [E'|Hne].
      * rewrite E', list_lookup_insert_eq in Ho by by apply lookup_lt_Some in Hold. injection Ho as <-. right.
        split; [done|]. by rewrite <-E', N2Nat.id.
      * rewrite list_lookup_insert_ne in Ho by done. left. right. by exists old.
Qed.

Lemma compact_source_spec acc budget :
  unsealed dest0 → represents d dest0 acc s0 → (∀ b, sum_N (row_size b) (sp_rows s0) ≤ budget b) →
  (∀ b, plus_source budget src b ≤ U32_MAX) →
  ∃ dest', compact_source (Some dest0) src = Some dest' ∧ holding d (plus_source budget src) (acc ++ live_of abs) dest'.
Proof using All.
  intros Hu Hrep Hb Hroom. unfold compact_source. cbn [mbind option_bind].
  destruct (each_source d src abs s (compact_entry src) (λ k bud acc st, ∃ v sv, shadowed k bud acc st v sv) budget acc
    (dest0, replicate (seg_len src) U32_MAX)) as (st & -> & v & sv & Hsh); try done.
  - intros k bud bud' acc' st Hle (v & sv & []). exists v, sv. split; try done. intros b. etrans; [apply sh_room0|apply Hle].
  - intros [dest remap] k bud acc' (v & sv & []). split; [done|]. exists v, sv. split; try done.
    intros old id Hid. apply sh_next0 in Hid as [?|?]; [by left|right; lia].
  - intros st k q r bud acc' Hq Hr Hlive (v & sv & Hsh) Hrm.
    destruct (compact_entry_spec k q r bud acc' st v sv Hq Hr Hlive Hsh Hrm) as (st' & v' & sv' & E & Hsh'). eauto.
  - exists dest0, s0. split; simpl; try done.
    + by destruct dest0.
    + by rewrite length_replicate.
    + intros old id [-> _]%lookup_replicate. by left.
    + intros lane key l. split; [by left|]. intros [?|(old & [-> _]%lookup_replicate & ? & _)]; done.
  - destruct Hsh as [Hu' Hrep' Hb' Hdest Hlen Hnext Hposts]. destruct st as [dest remap]. simpl in *. subst dest.
    pose proof (k_index _ _ _ _ _ _ _ _ _ (k_groups _ _ _ (rp_ok _ _ _ _ Hsrc))) as Hix.
    pose proof (k_index _ _ _ _ _ _ _ _ _ (k_groups _ _ _ (rp_ok _ _ _ _ Hrep))) as Hix0.
    pose proof (k_len _ _ _ _ (k_rows _ _ _ (rp_ok _ _ _ _ Hrep'))) as Hlen'.
    assert (∀ lane, ∃ to mapped, remap_postings remap (lane_index src lane) (lane_index dest0 lane) = Some to ∧
      index_holds to (sp_posts s0 lane ++ mapped) ∧
      ∀ k l, (k, l) ∈ mapped ↔ ∃ old, remap !! usize old = Some l ∧ l ≠ U32_MAX ∧ (k, old) ∈ sp_posts s lane) as Hre.
    { intros lane. apply remap_postings_spec; [done..|by eapply posts_fit, Hrep|]. intros k l Hin.
      apply (source_posted d src abs s Hsrc) in Hin. rewrite <-Hlen in Hin. apply lookup_lt_is_Some in Hin as [id Hid].
      exists id. split; [done|]. apply Hnext in Hid as [->|[_ ?]]; unfold fits, U32_MAX in *; simpl; lia. }
    destruct (Hre Main) as (m & mm & Em & Hm & Hmm), (Hre Broad) as (b & mb & Eb & Hbb & Hmb), (Hre Hot) as (h & mh & Eh & Hh & Hmh).
    cbn [lane_index sg_main sg_broad sg_hot with_indexes mbind option_bind] in *. rewrite Em, Eb, Eh. cbn [mbind option_bind]. eexists. split; [done|]. split; [done|].
    exists (mkSegSpec (sp_exs sv) (sp_rows sv) (λ lane, sp_posts s0 lane ++ match lane with Main => mm | Broad => mb | Hot => mh end)).
    split; [|done]. destruct Hrep' as [[Hr1 Hi1 Hg1 _] Hq1 Hrw1 Ha1 Hc1]. split; try done. split; try done.
    + eapply groups_posts_ext; [exact Hg1|by intros []|]. intros lane k l. cbn [sp_posts]. rewrite elem_of_app, Hposts. destruct lane; by rewrite ?Hmm, ?Hmb, ?Hmh.
    + destruct Hu' as [Hf Ht]. split; cbn [sg_filter sg_tag_summary with_indexes]; by rewrite ?Hf, ?Ht.
Qed.

End mechanical.

(** ** The re-anchoring merge *)

Section reanchoring.
Context (d : Dict) (theta : N) (max_moves : nat) (inverse : list (option N)).
Hypothesis Hwf : dict_wf d.
Hypothesis Hsize : N.of_nat (length (names d)) ≤ 2 ^ 32.
Hypothesis Hinverse : mask_inverse d = Some inverse.

Lemma reanchor_keeps_visible old p : opt_in_after_reanchor old p = true → is_opt_in old = true.
Proof using Type. by destruct old, p as [[]|]. Qed.

Lemma unrefused_keeps_visible old p : refuses_visibility_move old p = false → is_opt_in p = true → is_opt_in old = true.
Proof using Type. by destruct old, p. Qed.

(** Planning from what the columns keep covers the query. *)
Lemma replan_leads ex req :
  NoDup (required ex) → required_phrases ex = [] → req ≡ₚ required ex →
  let plan := anchor_plan (anchoring_query req (anyof ex)) d theta in
  leads d ex (ap_class plan) (sig_key <$> main_anchors plan, sig_key <$> broad_anchors plan, sig_key <$> hot_anchors plan).
Proof using Type.
  intros Hnd Hph Hp plan.
  destruct (build_signatures_cover (anchoring_query req (anyof ex)) d theta false) as [Hl Hc]; [by rewrite <-Hp in Hnd|].
  cbv zeta in *. split.
  - intros lane Hne. specialize (Hl lane Hne). by destruct lane.
  - intros d' view Hwf' Hle Ht Hm _. destruct (Hc d' view Hwf' Hle Ht) as (key & Hk & Hin).
    + unfold query_matches in *. rewrite !andb_true_iff, !forallb_elem in *. destruct Hm as [[[Hr _] Ha] _]. split_and!; try done.
      * intros f Hf. apply Hr. simpl in Hf. by rewrite Hp in Hf.
      * unfold compound_holds. simpl. apply phrases_hold_nil.
    + by intros g ?%not_elem_of_nil.
    + exists key. split; [done|]. fold plan in Hin |- *. by destruct (lane_of _).
Qed.

Lemma choose_cover_leads ex old prev plan stats moves :
  leads d ex old prev →
  leads d ex (ap_class plan) (sig_key <$> main_anchors plan, sig_key <$> broad_anchors plan, sig_key <$> hot_anchors plan) →
  let '(ks, class, _, _) := choose_cover d theta max_moves old prev plan stats moves in
  leads d ex class ks ∧ (is_opt_in class = true → is_opt_in old = true).
Proof using Type.
  intros Hold Hnew. unfold choose_cover. destruct (refuses_visibility_move old (ap_class plan)) eqn:E; [done|].
  simpl. destruct (move_allowed _ _ _ _ _ _); [|done]. cbn [negb].
  pose proof (unrefused_keeps_visible old (ap_class plan) E). by repeat case_match; simplify_eq.
Qed.

(** A query after the merge: the same, live, and visible if it was. *)
Definition moved (q q' : StoredQuery) : Prop :=
  q' = carried (sq_opt_in q') q ∧ (sq_opt_in q' = true → sq_opt_in q = true).

Definition reanchoring_to (bud : Blob → N) (acc : list StoredQuery) (st : Reanchor) : Prop :=
  ∃ acc', Forall2 moved acc acc' ∧ holding d bud acc' (ra_dest st) ∧ length (ra_replanned st) = length acc'.

Lemma reanchor_entry_spec src abs s olds old q r bud acc (st : Reanchor) :
  represents d src abs s → inverted src s olds → abs !! old = Some q → sp_rows s !! old = Some r → sq_live q = true →
  reanchoring_to bud acc st → (∀ b, plus_row bud r b ≤ U32_MAX) →
  ∃ st', reanchor_entry d theta max_moves inverse src olds st old true = Some st' ∧
    reanchoring_to (plus_row bud r) (acc ++ [q]) st'.
Proof using All.
  intros Hsrc Hinv Hq Hr Hlive (acc' & Hmv & (Hu & s' & Hrep & Hb) & Hlen) Hroom.
  destruct (source_row d src abs s Hsrc old q Hq) as (r' & c & _ & Hr' & Hrow & Hst & Hc & Hop & _). simplify_eq.
  destruct (copy_row_spec d src abs s old q r (ra_dest st) acc' s') as (x & Ec & Hrows); [done..| |].
  { intros b. specialize (Hroom b). specialize (Hb b). unfold plus_row in Hroom. lia. }
  pose proof (k_exs _ _ _ _ (k_rows _ _ _ (rp_ok _ _ _ _ Hrep))) as Hexs. pose proof (represents_len _ _ _ _ Hrep) as Hn.
  destruct (copied_body d x _ _ _ _ Hrows (Forall2_length _ _ _ Hexs)) as [h Eh].
  assert (∀ b dest stats moves p, holding d (plus_row bud r) (acc' ++ [carried b q]) dest → (b = true → sq_opt_in q = true) →
    reanchoring_to (plus_row bud r) (acc ++ [q]) (mkReanchor dest stats moves (ra_replanned st ++ [p]))) as Hdone.
  { intros b dest stats moves p Hh Hvis. exists (acc' ++ [carried b q]). split_and!; [|done|simpl; by rewrite !length_app, Hlen].
    apply Forall2_app; [done|]. by repeat constructor. }
  unfold reanchor_entry. cbn [negb]. rewrite Ec. cbn [mbind option_bind sg_exact with_exact]. rewrite Hc. cbn [mbind option_bind].
  rewrite Eh. cbn [mbind option_bind].
  destruct (body_leader_spec d (ra_dest st) s' x (sq_query q) r (lands_with (ra_replanned st) c) h) as (res & -> & Hres); [apply Hrep|done| |].
  { intros L c' HL. unfold lands_with. rewrite Hn, <-Hlen in HL. apply lookup_lt_is_Some in HL as [p ->]. by eexists. }
  cbn [mbind option_bind]. destruct res as [L|].
  - destruct Hres as (HL & cL & b & HcL & Hs & HbL & Hsame). cbn [sg_class with_exact]. rewrite HcL. cbn [mbind option_bind].
    destruct (holding_join d bud acc' (ra_dest st) s' q r x L cL b) as (dest' & E & Hh); [done..|].
    rewrite E. cbn [mbind option_bind]. eexists. split; [done|]. eapply Hdone; [exact Hh|]. intros Hv.
    unfold lands_with in Hs. destruct (ra_replanned st !! usize L) as [p|]; [|done]. injection Hs as Hs%bool_decide_eq_true.
    rewrite <-Hop. apply (reanchor_keeps_visible c p). congruence.
  - destruct (leader_keys_spec d src abs s Hsrc olds old q Hinv Hq) as (prev & c' & L & -> & Hc' & Hlead & _). simplify_eq.
    cbn [mbind option_bind].
    assert ((sp_rows s' ++ [r]) !! usize (nlen (sp_rows s')) = Some r) as Hlast by apply lookup_push.
    rewrite (row_has_phrases_row x _ r _ (k_store _ _ _ _ Hrows) Hlast). cbn [mbind option_bind].
    assert (∀ ks cl, leads d (sq_query q) cl ks → ∃ dest', lead_with (nlen (sp_rows s')) (r_logical r) h ks cl (with_exact x (ra_dest st)) = Some dest' ∧
      holding d (plus_row bud r) (acc' ++ [carried (is_opt_in cl) q]) dest') as Hlw.
    { intros [[m bb] hh] cl Hl. by apply (holding_lead d bud acc' (ra_dest st) s' q r x cl (Some h) (m, bb, hh)). }
    destruct (predicate_has_phrases (r_words r)) eqn:Eph.
    + destruct (Hlw prev c Hlead) as (dest' & -> & Hh). cbn [mbind option_bind]. eexists. split; [done|].
      eapply Hdone; [exact Hh|]. by rewrite Hop.
    + destruct Hst as (d0 & Hwf0 & Hle & _ & Hnd & Erow).
      assert (required_phrases (sq_query q) = []) as Hnop.
      { rewrite Erow in Eph. simpl in Eph. rewrite stored_words_phrases in Eph. apply orb_false_iff in Eph as [Eph _]. by destruct (required_phrases _). }
      rewrite Erow in Hlast at 2.
      destruct (anchoring_inputs_row x _ _ _ _ d0 d _ _ _ _ _ inverse (k_store _ _ _ _ Hrows) Hlast) as (req & -> & Hreq); [done..|].
      cbn [mbind option_bind].
      pose proof (choose_cover_leads (sq_query q) c prev _ (ra_stats st) (ra_moves st) Hlead (replan_leads (sq_query q) req Hnd Hnop Hreq)) as Hch.
      cbv zeta in Hch. destruct (choose_cover _ _ _ _ _ _ _ _) as [[[ks cl] stats] moves]. destruct Hch as [Hl Hv].
      destruct (Hlw ks cl Hl) as (dest' & -> & Hh). cbn [mbind option_bind]. eexists. split; [done|].
      eapply Hdone; [exact Hh|]. by rewrite <-Hop.
Qed.

Lemma reanchor_source_spec src abs s bud acc (st : Reanchor) :
  represents d src abs s → reanchoring_to bud acc st → (∀ b, plus_source bud src b ≤ U32_MAX) →
  ∃ st', reanchor_source d theta max_moves inverse (Some st) src = Some st' ∧
    reanchoring_to (plus_source bud src) (acc ++ live_of abs) st'.
Proof using All.
  intros Hsrc Hr Hroom. unfold reanchor_source. destruct (invert_lanes_spec d src abs s Hsrc) as (olds & E & Hinv).
  cbn [mbind option_bind]. rewrite E. cbn [mbind option_bind].
  apply (each_source d src abs s (reanchor_entry d theta max_moves inverse src olds) (λ _, reanchoring_to)); try done.
  - intros _ bud' bud'' acc' st' Hle (acc'' & ? & Hh & ?). exists acc''. split_and!; try done. by eapply holding_mono.
  - intros *. by eapply reanchor_entry_spec.
Qed.

End reanchoring.

(** ** All sources *)

(** The columns of the sources together stay within their widths. *)
Definition merge_room (sources : list (Segment B)) : Prop := ∀ b, sum_N (λ src, store_size b (sg_exact src)) sources ≤ U32_MAX.

Definition holds (d : Dict) seg (abs : list StoredQuery) : Prop := ∃ s, represents d seg abs s.

Lemma fold_sources {S} d (f : option S → Segment B → option S) (ok : Segment B → Prop) (I : (Blob → N) → list StoredQuery → S → Prop)
  sources abss bud acc st :
  (∀ st src abs bud acc, holds d src abs → ok src → I bud acc st → (∀ b, plus_source bud src b ≤ U32_MAX) →
     ∃ st', f (Some st) src = Some st' ∧ I (plus_source bud src) (acc ++ live_of abs) st') →
  Forall2 (holds d) sources abss → Forall ok sources → I bud acc st →
  (∀ b, bud b + sum_N (λ src, store_size b (sg_exact src)) sources ≤ U32_MAX) →
  ∃ st' bud', foldl f (Some st) sources = Some st' ∧ I bud' (acc ++ mjoin (live_of <$> abss)) st'.
Proof using Type.
  intros Hstep Hs Hok. revert bud acc st Hok. induction Hs as [|src abs sources abss Hsrc Hs IH]; intros bud acc st Hok HI Hroom; simpl.
  { rewrite app_nil_r. eauto. }
  apply Forall_cons in Hok as [Hok Hoks]. destruct (Hstep st src abs bud acc Hsrc Hok HI) as (st1 & -> & HI1).
  { intros b. unfold plus_source. specialize (Hroom b). simpl in Hroom. lia. }
  rewrite app_assoc. eapply IH; [done|exact HI1|]. intros b. unfold plus_source. specialize (Hroom b). simpl in Hroom. lia.
Qed.

Lemma holding_new d : holding d (λ _, 0) [] segment_new.
Proof using Type.
  split; [done|]. exists (mkSegSpec [] [] (λ _, [])). split; [|done]. split; try done. apply segment_new_ok.
Qed.

Lemma finish_merge_holds d bud acc dest sources :
  holding d bud acc dest → ∃ dest', finish_merge sources dest = Some dest' ∧ holds d dest' acc.
Proof using All.
  intros (_ & s & Hrep & _). unfold finish_merge. destruct (represents_seal _ _ _ _ Hrep) as (dest' & -> & [[] ? ? ? ?]).
  eexists. split; [done|]. by exists s.
Qed.

Lemma compact_from_holds d sources abss :
  Forall2 (holds d) sources abss → merge_room sources →
  ∃ dest, compact_from sources = Some dest ∧ holds d dest (mjoin (live_of <$> abss)).
Proof using All.
  intros Hs Hroom. unfold compact_from, compact_from_grouped.
  destruct (existsb has_dup_groups sources) eqn:E.
  - destruct (fold_sources d grouped_source (λ _, True) (holding d) sources abss (λ _, 0) [] segment_new)
      as (dest & bud & -> & Hh); [|done|by apply Forall_true|apply holding_new|done|].
    { intros dest src abs bud acc [s Hsrc] _. by eapply grouped_source_spec. }
    by eapply finish_merge_holds.
  - destruct (fold_sources d compact_source (λ src, has_dup_groups src = false) (holding d) sources abss (λ _, 0) [] segment_new)
      as (dest & bud & -> & Hh); [|done| |apply holding_new|done|].
    { intros dest src abs bud acc [s Hsrc] Hok (Hu & s0 & Hr & Hb). by eapply (compact_source_spec d src abs s dest s0). }
    { apply Forall_forall. intros src Hsrc. destruct (has_dup_groups src) eqn:E'; [|done].
      apply not_true_iff_false in E. exfalso. apply E, existsb_elem. eauto. }
    by eapply finish_merge_holds.
Qed.

Lemma reanchored_holds d sources abss theta max_moves :
  dict_wf d → N.of_nat (length (names d)) ≤ 2 ^ 32 → Forall2 (holds d) sources abss → merge_room sources →
  ∃ dest stats abs', compact_from_reanchored sources d theta max_moves = Some (dest, stats) ∧
    Forall2 moved (mjoin (live_of <$> abss)) abs' ∧ holds d dest abs'.
Proof using All.
  intros Hwf Hsize Hs Hroom. unfold compact_from_reanchored. destruct (mask_inverse_spec d Hwf Hsize) as (inverse & E & _). rewrite E.
  cbn [mbind option_bind].
  destruct (fold_sources d (reanchor_source d theta max_moves inverse) (λ _, True) (reanchoring_to d) sources abss (λ _, 0) []
    (mkReanchor segment_new (mkReanchorStats 0 0 0) 0 [])) as (st & bud & -> & acc' & Hmv & Hh & _); [|done|by apply Forall_true| |done|].
  { intros st src abs bud acc [s Hsrc] _. by eapply reanchor_source_spec. }
  { exists []. split_and!; [constructor|apply holding_new|done]. }
  cbn [mbind option_bind]. destruct (finish_merge_holds d bud acc' (ra_dest st) sources Hh) as (dest & -> & Hd).
  cbn [mbind option_bind]. by exists dest, (ra_stats st), acc'.
Qed.

(** ** What merging preserves *)

Section answers.
Context {P : Type} `{EmissionPolicy P}.
Context (view : TitleView) (pred : TagPredicate) (emission : P).

Lemma answer_app ib l k : answer view ib pred emission (l ++ k) = answer view ib pred emission l ++ answer view ib pred emission k.
Proof using Type. unfold answer. by rewrite filter_app, fmap_app. Qed.

Lemma answer_live ib abs : answer view ib pred emission (live_of abs) = answer view ib pred emission abs.
Proof using Type.
  unfold answer, live_of. induction abs as [|q abs IH]; [done|]. rewrite !filter_cons.
  destruct (decide (sq_live q = true)) as [El|El].
  - rewrite filter_cons. destruct (decide _); rewrite ?fmap_cons; by rewrite IH.
  - rewrite (decide_False (P := selected view ib pred emission q = true)); [done|].
    unfold selected. rewrite !andb_true_iff. tauto.
Qed.

Lemma answer_lives ib abss : answer view ib pred emission (mjoin (live_of <$> abss)) = answer view ib pred emission (mjoin abss).
Proof using Type.
  induction abss as [|abs abss IH]; [done|]. rewrite fmap_cons. change (mjoin (?x :: ?l)) with (x ++ mjoin l).
  by rewrite !answer_app, answer_live, IH.
Qed.

Lemma answer_wider ib abs : answer view ib pred emission abs `sublist_of` answer view true pred emission abs.
Proof using Type.
  unfold answer. induction abs as [|q abs IH]; [done|]. rewrite !filter_cons.
  destruct (decide (selected view ib pred emission q = true)) as [Es|Es].
  - rewrite decide_True; [by constructor|]. unfold selected in *. rewrite !andb_true_iff in *. tauto.
  - destruct (decide _); simpl; [by constructor|done].
Qed.

Lemma selected_moved ib q q' :
  moved q q' → sq_live q = true →
  selected view true pred emission q' = selected view true pred emission q ∧
  (selected view ib pred emission q = true → selected view ib pred emission q' = true).
Proof using Type.
  intros [-> Hv] El. unfold selected. simpl. rewrite El. split; [done|].
  rewrite !andb_true_iff. intros [[[[_ Ho] ?] ?] ?]. split_and!; try done.
  destruct ib; [done|]. simpl in *. destruct (sq_opt_in q'); [|done]. by rewrite Hv in Ho.
Qed.

Lemma answer_moved abs abs' :
  Forall2 moved abs abs' → Forall (λ q, sq_live q = true) abs →
  answer view true pred emission abs' = answer view true pred emission abs ∧
  answer view false pred emission abs `sublist_of` answer view false pred emission abs'.
Proof using Type.
  unfold answer. induction 1 as [|q q' abs abs' Hm Hs IH]; intros Hl; [done|]. apply Forall_cons in Hl as [Hq Hl].
  destruct (IH Hl) as [IH1 IH2]. destruct (selected_moved false q q' Hm Hq) as [E1 E2]. rewrite !filter_cons, E1.
  assert (sq_logical q' = sq_logical q) as El by by destruct Hm as [-> _].
  split; [destruct (decide _); rewrite ?fmap_cons; by rewrite ?El, IH1|].
  destruct (decide (selected view false pred emission q = true)) as [Es|Es].
  - rewrite decide_True by auto. simpl. rewrite El. by constructor.
  - destruct (decide _); simpl; [by constructor|done].
Qed.

End answers.

Lemma lives_live abss : Forall (λ q, sq_live q = true) (mjoin (live_of <$> abss)).
Proof using Type.
  apply Forall_forall. intros q (l & Hq & (abs & -> & _)%list_elem_of_fmap)%list_elem_of_join. by apply list_elem_of_filter in Hq as [? _].
Qed.

Lemma lives_sub abss : mjoin (live_of <$> abss) `sublist_of` mjoin abss.
Proof using Type.
  induction abss as [|abs abss IH]; [done|]. rewrite fmap_cons. change (mjoin (?x :: ?l)) with (x ++ mjoin l).
  apply sublist_app; [apply sublist_filter|done].
Qed.

Lemma holds_match_into d seg abs view ib pred epoch seen out stats :
  dict_wf d → holds d seg abs → title_ok d view → (length abs ≤ length seen)%nat → epoch ∉ seen →
  ∃ seen' ids stats', match_into seg view d epoch seen out (mkProbeLanes ib true) pred stats = Some (seen', out ++ ids, stats') ∧
    ids ⊆+ answer view ib pred mkEmitAll abs ∧ (decided view abs → ids ≡ₚ answer view ib pred mkEmitAll abs).
Proof using All.
  intros Hwf [s Hrep] Ht Hlen Hep. unfold match_into.
  destruct (represents_match d view ib pred mkEmitAll seg abs s epoch (mkRun seen (mkVecSink out 0) stats (deadline_new mkNoDeadline)))
    as (st & ids & -> & _ & Hc & Hsub & Hall); [done..|].
  exists (run_seen st), ids, (run_stats st). simpl. rewrite Hc, vec_fold. done.
Qed.

Lemma built_holds d seg abs : built d seg abs → holds d seg abs.
Proof using All. intros [_ [s Hs]]%built_represents. by exists s. Qed.

(** C5. Compaction preserves answers.  Merging segments, each built by any history,
    into a fresh one never panics, and matching a title against the merged
    segment returns what matching the sources would: only live, visible,
    matching queries, each stored copy once, and all of them unless the verifier
    gave up on a phrase search.  Holds for the mechanical merge and for the merge
    of sources with shared bodies, whose groups are formed again across sources. *)
Theorem compaction_preserves_answers d sources abss :
  dict_wf d → Forall2 (built d) sources abss → merge_room sources →
  ∃ dest, compact_from sources = Some dest ∧
    ∀ view ib pred epoch seen out stats, title_ok d view → (length (mjoin abss) ≤ length seen)%nat → epoch ∉ seen →
      ∃ seen' ids stats', match_into dest view d epoch seen out (mkProbeLanes ib true) pred stats = Some (seen', out ++ ids, stats') ∧
        ids ⊆+ answer view ib pred mkEmitAll (mjoin abss) ∧
        (decided view (mjoin abss) → ids ≡ₚ answer view ib pred mkEmitAll (mjoin abss)).
Proof using All.
  intros Hwf Hb Hroom. destruct (compact_from_holds d sources abss) as (dest & E & Hh); [|done|].
  { eapply Forall2_impl; [exact Hb|]. apply built_holds. }
  exists dest. split; [done|]. intros view ib pred epoch seen out stats Ht Hlen Hep. pose proof (lives_sub abss) as Hsub.
  destruct (holds_match_into d dest _ view ib pred epoch seen out stats Hwf Hh Ht) as (seen' & ids & stats' & E' & Hin & Hall); [|done|].
  { apply sublist_length in Hsub. lia. }
  rewrite answer_lives in Hin, Hall. exists seen', ids, stats'. split_and!; try done. intros Hd. apply Hall.
  intros q Hq. apply Hd. by eapply elem_of_sublist.
Qed.

(** C6. The re-anchoring merge, which plans every cover again under the current
    frequencies and moves rows between the main lane and the hot tier, loses no
    match.  When the sources (segments with any history under the dictionary)
    together fit the 32-bit columns of one segment it returns, and a match of a
    title view on the result, with a scratch of enough rows and an epoch not yet
    used, returns only live queries of the sources that match.  Where no search for a required phrase of a
    matching query gives up (runs out of its step budget), a default request
    returns every match it returned before (and may return more, when a broad
    query gains a selective anchor), and a request that includes the broad lane
    returns exactly the same ones. *)
Theorem reanchoring_keeps_visible d sources abss theta max_moves :
  dict_wf d → N.of_nat (length (names d)) ≤ 2 ^ 32 → Forall2 (built d) sources abss → merge_room sources →
  ∃ dest rstats, compact_from_reanchored sources d theta max_moves = Some (dest, rstats) ∧
    ∀ view ib pred epoch seen out stats, title_ok d view → (length (mjoin abss) ≤ length seen)%nat → epoch ∉ seen →
      ∃ seen' ids stats', match_into dest view d epoch seen out (mkProbeLanes ib true) pred stats = Some (seen', out ++ ids, stats') ∧
        ids ⊆+ answer view true pred mkEmitAll (mjoin abss) ∧
        (decided view (mjoin abss) →
           answer view ib pred mkEmitAll (mjoin abss) ⊆+ ids ∧
           (ib = true → ids ≡ₚ answer view ib pred mkEmitAll (mjoin abss))).
Proof using All.
  intros Hwf Hsize Hb Hroom. destruct (reanchored_holds d sources abss theta max_moves Hwf Hsize) as (dest & rstats & abs' & E & Hmv & Hh); [|done|].
  { eapply Forall2_impl; [exact Hb|]. apply built_holds. }
  exists dest, rstats. split; [done|]. intros view ib pred epoch seen out stats Ht Hlen Hep. pose proof (lives_sub abss) as Hsub.
  destruct (answer_moved view pred mkEmitAll _ _ Hmv (lives_live abss)) as [Ht' Hf'].
  destruct (holds_match_into d dest abs' view ib pred epoch seen out stats Hwf Hh Ht) as (seen' & ids & stats' & E' & Hin & Hall); [|done|].
  { apply sublist_length in Hsub. apply Forall2_length in Hmv. lia. }
  exists seen', ids, stats'. rewrite <-(answer_lives view pred mkEmitAll true abss), <-(answer_lives view pred mkEmitAll ib abss), <-Ht'. split_and!; [done| |].
  - rewrite Hin. apply sublist_submseteq, answer_wider.
  - intros Hd. rewrite Hall.
    + split; [|intros ->; by rewrite Ht']. destruct ib; [by rewrite Ht'|]. by apply sublist_submseteq.
    + intros q' (i & Hi)%list_elem_of_lookup. destruct (Forall2_lookup_r _ _ _ _ _ Hmv Hi) as (q & Hq & [-> _]).
      assert (q ∈ mjoin (live_of <$> abss)) as Hin' by by eapply list_elem_of_lookup_2. intros _. apply (Hd q); [by eapply elem_of_sublist|].
      pose proof (lives_live abss) as Hlive. rewrite Forall_forall in Hlive. by apply Hlive.
Qed.

End sources.

Lemma demo_room : merge_room [demo_seg; demo_seg].
Proof. intros []; by vm_compute. Qed.

Lemma compaction_preserves_answers_witness :
  ∃ dest seen' ids stats', compact_from [demo_seg; demo_seg] = Some dest ∧
    match_into dest demo_view mask_demo 1 [0; 0; 0; 0] [] (mkProbeLanes false true) tag_empty stats_default =
      Some (seen', ids, stats') ∧ ids ≡ₚ [78; 78].
Proof.
  destruct (compaction_preserves_answers mask_demo [demo_seg; demo_seg] [demo_abs; demo_abs] mask_demo_wf
    ltac:(repeat constructor; apply demo_built) demo_room) as (dest & E & Hm).
  destruct (Hm demo_view false tag_empty 1 [0; 0; 0; 0] [] stats_default demo_view_ok ltac:(done)
    ltac:(apply (bool_decide_unpack _); by vm_compute)) as (seen' & ids & stats' & E' & _ & Hall).
  exists dest, seen', ids, stats'. split; [exact E|]. split; [exact E'|]. rewrite Hall; [by vm_compute|].
  intros q Hq. apply demo_decided. apply list_elem_of_join in Hq as (l & Hq & Hl).
  by apply elem_of_cons in Hl as [->| ->%list_elem_of_singleton].
Defined.

Lemma reanchoring_keeps_visible_witness :
  ∃ dest rstats seen' ids stats', compact_from_reanchored [demo_seg; demo_seg] mask_demo 0 10 = Some (dest, rstats) ∧
    match_into dest demo_view mask_demo 1 [0; 0; 0; 0] [] (mkProbeLanes false true) tag_empty stats_default =
      Some (seen', ids, stats') ∧ [78; 78] ⊆+ ids.
Proof.
  destruct (reanchoring_keeps_visible mask_demo [demo_seg; demo_seg] [demo_abs; demo_abs] 0 10 mask_demo_wf ltac:(done)
    ltac:(repeat constructor; apply demo_built) demo_room) as (dest & rstats & E & Hm).
  destruct (Hm demo_view false tag_empty 1 [0; 0; 0; 0] [] stats_default demo_view_ok ltac:(done)
    ltac:(apply (bool_decide_unpack _); by vm_compute)) as (seen' & ids & stats' & E' & _ & Hall).
  exists dest, rstats, seen', ids, stats'. split; [exact E|]. split; [exact E'|].
  replace [78; 78] with (answer demo_view false tag_empty mkEmitAll (mjoin [demo_abs; demo_abs])) by by vm_compute. apply Hall.
  intros q Hq. apply demo_decided. apply list_elem_of_join in Hq as (l & Hq & Hl).
  by apply elem_of_cons in Hl as [->| ->%list_elem_of_singleton].
Defined.
