(* ===== verification/Titles.v ===== *)
(** * The views of a title ([engine/src/normalize/core/features.rs], [core/phrase.rs],
      [engine/src/segment/snapshot/view.rs])

    What the matcher makes of a title's text: the canonical view negation
    reads, the positive view retrieval and required clauses read, and the
    position graphs quoted clauses read. *)

From S2P Require Import Prelude Text Dictionary Clean Automaton AliasWords Phrase Analyze Normalize Fingerprint Builder.
From S2P Require Import Compile Plan Extract View Predicate Ownership Store Collect Segment SegMatch Lifecycle.
From S2P Require Import Index Util.

(** The names a title's tokens have as plain terms, markers apart. *)
Definition raw_terms (toks : list rstring) : list rstring :=
  (λ tok, TERM ++ tok) <$> List.filter (λ tok, negb (is_marker tok)) toks.

Section views.
Context {A : Type} `{Daachorse A} (norm : Normalizer A) (d : Dict).

Abbreviation resolve := (get_or_synthetic d) (only parsing).

(** [Normalizer::match_features] *)
Definition title_features (text : rstring) : option (list N) :=
  out ← norm_emit norm Title false text; Some (sort_dedup (resolve <$> out.*1)).

(** The names the closure [add] notes for the alias forms. *)
Definition note_names (names : list rstring) : list N :=
  match alias_words norm with Some _ => name_hash <$> names | None => [] end.

(** [(neg, pos)] with the alias scratch. *)
Definition match_features_dual (text : rstring) (alias : AliasScratch) : option (list N * list N * AliasScratch) :=
  canonical ← norm_emit norm Title false text;
  let neg := sort_dedup (resolve <$> canonical.*1) in
  match has_multiword_aliases norm, phrase_overlap norm with
  | true, Some ov =>
      additive ← norm_emit norm Title true text;
      let lc := clean_with (punct norm) text in
      let raw := raw_terms (split_whitespace lc) in
      entities ← collect_into ov lc;
      let pos := neg ++ (resolve <$> additive.*1 ++ raw ++ entities) in
      let alias := set_names (note_names (canonical.*1 ++ additive.*1 ++ raw ++ entities)) alias in
      match alias_words norm with
      | Some words =>
          '(alias, pos, _) ← complete_into words d alias pos;
          Some (neg, sort_dedup pos, alias)
      | None => Some (neg, sort_dedup pos, alias)
      end
  | _, _ => Some (neg, neg, set_names (note_names canonical.*1) alias)
  end.

(** The plain term of every token at its position. *)
Definition raw_arcs (toks : list rstring) : list PositionArc :=
  mjoin (imap (λ i tok, if is_marker tok then []
                        else [mkPositionArc (resolve (TERM ++ tok)) (position_index i) (position_index (S i))]) toks).

Record PhraseViews := mkPhraseViews {
  pv_neg : list N;
  pv_pos : list N;
  pv_probe : list N;
  pv_neg_arcs : list PositionArc;
  pv_pos_arcs : list PositionArc;
  pv_positions : N;
  pv_complete : bool;
}.

Definition match_phrase_views (text : rstring) (alias : AliasScratch) : option (PhraseViews * AliasScratch) :=
  '(neg, pos, alias) ← match_features_dual text alias;
  '(positions, neg_arcs, _) ← @analyze_position_arcs (normalizer_analyzer norm) resolve_readonly Title false text d;
  '(_, pos_arcs, _) ← @analyze_position_arcs (normalizer_analyzer norm) resolve_readonly Title true text d;
  let lc := clean_with (punct norm) text in
  let tokens := tokenize lc in
  overlaps ← match phrase_overlap norm with
             | Some ov => collect_positioned_into ov lc tokens d
             | None => Some []
             end;
  let pos_arcs := sort_dedup (pos_arcs ++ neg_arcs ++ raw_arcs (tok_at lc <$> tokens) ++ overlaps) in
  let probe := sort_dedup (pos ++ (pa_feature <$> pos_arcs)) in
  Some (mkPhraseViews neg pos probe neg_arcs pos_arcs positions true, alias).

(** ** The view a match verifies against *)

Definition title_mask (feats : list N) : N :=
  foldl (λ m f, if mask_bit d f =? NO_MASK_BIT then m else N.lor m (bit64 (mask_bit d f))) 0 feats.

(** The middle of [match_title_collect]: normalize the title, then build the
    view. The phrase work buffers are not borrowed yet. *)
Definition title_view_of (positioned : bool) (title : rstring) (alias : AliasScratch) : option (TitleView * AliasScratch) :=
  if positioned then
    '(v, alias) ← match_phrase_views title alias;
    Some (view_dual_positioned (pv_probe v) (title_mask (pv_pos v)) (pv_pos v) (pv_positions v) (pv_pos_arcs v) (pv_complete v)
            (title_mask (pv_neg v)) (pv_neg v) (pv_positions v) (pv_neg_arcs v) false, alias)
  else if has_multiword_aliases norm then
    '(neg, pos, alias) ← match_features_dual title alias;
    Some (view_dual (title_mask pos) pos (title_mask neg) neg, alias)
  else
    neg ← title_features title;
    Some (view_single (title_mask neg) neg, alias).

End views.

(** ** What the views hold *)

Section view_lemmas.
Context {A : Type} `{DaachorseLaws A} (norm : Normalizer A) (ps : list rstring) (Hn : norm_wf norm ps).
Context (d : Dict) (Haw : ∀ aw, alias_words norm = Some aw → alias_words_wf aw) (Hd : names_partition d).

Abbreviation lc_of text := (clean_with (punct norm) text) (only parsing).

Lemma norm_emit_default sd force text :
  norm_emit norm sd force text = Some (@emit (normalizer_analyzer norm) sd force text).
Proof using H0 Hn. simpl. by destruct (norm_emit_total norm ps sd force text Hn) as [l ->]. Qed.

(** The entity of a phrase that stands in the text, overlapping or not. *)
Definition entity_in (lc name : rstring) : Prop :=
  ∃ m entry, phrase_at ps lc m ∧ phrase_entries norm !! m_value m = Some entry ∧ name = pe_feature entry.

Lemma collect_into_spec ov lc :
  phrase_overlap norm = Some ov → ∃ l, collect_into ov lc = Some l ∧ ∀ name, name ∈ l ↔ entity_in lc name.
Proof using H0 Hn.
  intros Hov. pose proof (nw_overlap _ _ Hn) as Ho. rewrite Hov in Ho. destruct Ho as (Hb & _ & He & _).
  assert (∀ m entry, phrase_entries norm !! m_value m = Some entry → ov_entries ov !! m_value m = Some (pe_feature entry, pe_kind entry)) as Hent.
  { intros m entry E. by rewrite He, list_lookup_fmap, E. }
  assert (∀ m, phrase_at ps lc m → is_Some (phrase_entries norm !! m_value m)) as Hlook.
  { intros m (_ & p & Hp & _). apply lookup_lt_is_Some_2. rewrite (nw_entries _ _ Hn). by eapply lookup_lt_Some. }
  unfold collect_into. set (f := λ m, e ← ov_entries ov !! m_value m; Some e.1).
  destruct (mapM_is_Some_2 f (aligned_matches ov lc)) as [l Hl].
  { apply Forall_forall. intros m Hm. apply (aligned_matches_spec ps) in Hm; [|done]. destruct (Hlook m Hm) as [entry E].
    unfold compose, f. rewrite (Hent _ _ E). by eexists. }
  exists l. split; [done|]. apply mapM_Some in Hl. intros name. split.
  - intros Hin. apply list_elem_of_lookup in Hin as [k Hk]. destruct (Forall2_lookup_r _ _ _ _ _ Hl Hk) as (m & Hm & Hf).
    apply list_elem_of_lookup_2, (aligned_matches_spec ps) in Hm; [|done]. destruct (Hlook m Hm) as [entry E].
    unfold f in Hf. rewrite (Hent _ _ E) in Hf. simplify_eq/=. by exists m, entry.
  - intros (m & entry & Hm & E & ->). apply (aligned_matches_spec ps ov lc m Hb) in Hm. apply list_elem_of_lookup in Hm as [k Hk].
    destruct (Forall2_lookup_l _ _ _ _ _ Hl Hk) as (name & Hnm & Hf). unfold f in Hf. rewrite (Hent _ _ E) in Hf. simplify_eq/=.
    by eapply list_elem_of_lookup_2.
Qed.

Lemma aliases_overlap : has_multiword_aliases norm = true → is_Some (phrase_overlap norm).
Proof using H0 Hn.
  rewrite (nw_aliases _ _ Hn). intros (e & He & _)%existsb_elem. pose proof (nw_overlap _ _ Hn) as Ho.
  destruct (phrase_overlap norm); [by eexists|]. pose proof (nw_entries _ _ Hn) as Hl. rewrite Ho in Hl.
  apply list_elem_of_lookup_1 in He as [k Hk%lookup_lt_Some]. simpl in Hl. lia.
Qed.

(** The names of the positive view before the alias forms are completed. *)
Definition title_word (text name : rstring) : Prop :=
  name ∈ (@emit (normalizer_analyzer norm) Title true text).*1 ∨ name ∈ raw_terms (split_whitespace (lc_of text)) ∨
  entity_in (lc_of text) name.

(** The features the completion adds. *)
Definition completed_by (text : rstring) (f : N) : Prop :=
  ∃ aw form, alias_words norm = Some aw ∧ form ∈ forms aw ∧ f = get_or_synthetic d (f_entity form) ∧
    carries (in_view aw d (λ h, ∃ g name, title_word text name ∧ (g = name_hash name) ∧
      (h = g ∨ ∃ class, equivalent_names d g = Some class ∧ h ∈ class))) form.

Lemma dual_aliased text alias :
  has_multiword_aliases norm = true → is_clear alias = true →
  ∃ neg pos alias', match_features_dual norm d text alias = Some (neg, pos, alias') ∧ is_clear alias' = true ∧
    neg = @match_features (normalizer_analyzer norm) text d ∧ StronglySorted rlt pos ∧
    ∀ f, f ∈ pos ↔ (∃ name, title_word text name ∧ f = get_or_synthetic d name) ∨ completed_by text f.
Proof using All.
  intros Hm Hclear. unfold match_features_dual. rewrite !norm_emit_default. cbn [mbind option_bind].
  set (canonical := (@emit (normalizer_analyzer norm) Title false text).*1).
  set (additive := (@emit (normalizer_analyzer norm) Title true text).*1).
  rewrite Hm. destruct (aliases_overlap Hm) as [ov Eov]. rewrite Eov.
  destruct (collect_into_spec ov (lc_of text) Eov) as (ents & -> & Hents). cbn [mbind option_bind].
  set (raw := raw_terms _). set (all := canonical ++ additive ++ raw ++ ents).
  assert (∀ name, name ∈ all ↔ title_word text name) as Hall.
  { intros name. unfold all, title_word. fold additive raw. rewrite !elem_of_app, Hents. split; [|tauto].
    intros [Hc|?]; [left; by eapply (emit_forced norm ps Hn Title)|tauto]. }
  set (neg := sort_dedup _). assert (neg = @match_features (normalizer_analyzer norm) text d) as Hneg by done.
  set (pos0 := neg ++ _). assert (∀ f, f ∈ pos0 ↔ ∃ name, title_word text name ∧ f = get_or_synthetic d name) as Hpos0.
  { intros f. unfold pos0, neg. rewrite elem_of_app, elem_of_sort_dedup, !list_elem_of_fmap. split.
    - intros [(name & -> & Hin)|(name & -> & Hin)]; exists name; (split; [|done]); apply Hall; unfold all; apply elem_of_app; [by left|by right].
    - intros (name & Hin%Hall & ->). unfold all in Hin. apply elem_of_app in Hin as [Hin|Hin]; [left|right]; by exists name. }
  destruct (alias_words norm) as [aw|] eqn:Eaw; cbn [mbind option_bind].
  - unfold note_names. rewrite Eaw.
    destruct (complete_into_least aw d (set_names (name_hash <$> all) alias) pos0 (Haw aw eq_refl) Hd) as (sc & new & k & -> & Hsc & Hnew); [done|].
    cbn [mbind option_bind]. eexists _, _, _. split; [done|]. split_and!; [done|done|apply sort_dedup_sorted|].
    intros f. rewrite elem_of_sort_dedup, elem_of_app, Hpos0, Hnew. f_equiv. cbn [as_names set_names].
    assert (∀ h, title_name d (name_hash <$> all) h ↔ ∃ g name, title_word text name ∧ (g = name_hash name) ∧
      (h = g ∨ ∃ class, equivalent_names d g = Some class ∧ h ∈ class)) as Htn.
    { intros h. unfold title_name. setoid_rewrite list_elem_of_fmap. setoid_rewrite Hall. naive_solver. }
    split.
    + intros (form & Hf & Hc & ->). exists aw, form. split_and!; [done..|]. eapply carries_ext; [|exact Hc].
      intros n. apply in_view_ext. intros m. by rewrite Htn.
    + intros (aw' & form & E & Hf & -> & Hc). rewrite Eaw in E. injection E as <-. exists form. split_and!; [done| |done]. eapply carries_ext; [|exact Hc].
      intros n. apply in_view_ext. intros m. by rewrite Htn.
  - eexists _, _, _. split; [done|]. split_and!; [done|done|apply sort_dedup_sorted|]. intros f.
    rewrite elem_of_sort_dedup, Hpos0. split; [by left|]. intros [?|(aw & form & E & _)]; [done|congruence].
Qed.

Lemma set_names_clear ns alias : is_clear (set_names ns alias) = is_clear alias.
Proof. done. Qed.

Lemma match_features_elem text f :
  f ∈ @match_features (normalizer_analyzer norm) text d ↔
  ∃ name, name ∈ (@emit (normalizer_analyzer norm) Title false text).*1 ∧ f = get_or_synthetic d name.
Proof. unfold match_features. rewrite elem_of_sort_dedup, list_elem_of_fmap. naive_solver. Qed.

Lemma dual_plain text alias :
  has_multiword_aliases norm = false →
  ∃ ns, match_features_dual norm d text alias =
    Some (@match_features (normalizer_analyzer norm) text d, @match_features (normalizer_analyzer norm) text d, set_names ns alias).
Proof using H0 Hn.
  intros Hm. unfold match_features_dual, match_features. cbn [emit normalizer_analyzer].
  destruct (norm_emit_total norm ps Title false text Hn) as [l ->]. rewrite Hm. cbn [mbind option_bind default].
  by eexists.
Qed.

(** The two flat views of a title: the canonical one, and a positive one that
    contains it and whatever the title's text compiles to as a query. *)
Lemma dual_spec text alias :
  is_clear alias = true →
  ∃ neg pos alias', match_features_dual norm d text alias = Some (neg, pos, alias') ∧ is_clear alias' = true ∧
    neg = @match_features (normalizer_analyzer norm) text d ∧ StronglySorted rlt pos ∧ neg ⊆ pos ∧
    (has_multiword_aliases norm = false → pos = neg) ∧
    @compile_features_readonly (normalizer_analyzer norm) text d ⊆ pos.
Proof using All.
  intros Hclear. destruct (has_multiword_aliases norm) eqn:Hm.
  - destruct (dual_aliased text alias Hm Hclear) as (neg & pos & alias' & E & Hc & Hneg & Hs & Hpos).
    assert (∀ sd force name, name ∈ (@emit (normalizer_analyzer norm) sd force text).*1 → get_or_synthetic d name ∈ pos) as Hin.
    { intros sd force name Hname. apply Hpos. left. exists name. split; [left; by eapply emit_forced|done]. }
    exists neg, pos, alias'. split_and!; [done|done|done|done| |done|].
    + rewrite Hneg. intros f (name & Hname & ->)%match_features_elem. by eapply Hin.
    + intros f. unfold compile_features_readonly. rewrite elem_of_sort_dedup. intros (name & -> & Hname)%list_elem_of_fmap. by eapply Hin.
  - destruct (dual_plain text alias Hm) as (ns & ->). eexists _, _, _. split; [reflexivity|].
    split; [exact Hclear|]. split; [reflexivity|]. split; [apply sort_dedup_sorted|]. split; [exact (λ x Hx, Hx)|]. split; [intros _; reflexivity|].
    intros f. unfold compile_features_readonly. rewrite elem_of_sort_dedup, list_elem_of_fmap, match_features_elem.
    intros (name & -> & Hname). exists name. split; [|done]. exact (proj1 (emit_sides norm ps Hn false text name Hm) Hname).
Qed.

Lemma collect_positioned_total ov lc tokens :
  phrase_overlap norm = Some ov → is_Some (collect_positioned_into ov lc tokens d).
Proof using H0 Hn.
  intros Hov. pose proof (nw_overlap _ _ Hn) as Ho. rewrite Hov in Ho. destruct Ho as (Hb & _ & He & Ht).
  unfold collect_positioned_into. destruct (mapM_is_Some_2 (positioned_arc ov tokens d) (aligned_matches ov lc)) as [l ->]; [|by eexists].
  apply Forall_forall. intros m Hm. apply (aligned_matches_spec ps) in Hm as [_ (p & Hp & _)]; [|done].
  unfold compose, positioned_arc. destruct (binary_search_by _ _) as [start|]; [|by eexists].
  rewrite He, list_lookup_fmap. destruct (lookup_lt_is_Some_2 (phrase_entries norm) (m_value m)) as [entry ->];
    [rewrite (nw_entries _ _ Hn); by eapply lookup_lt_Some|]. simpl. rewrite Ht, list_lookup_fmap, Hp. by eexists.
Qed.

Lemma match_phrase_views_spec text alias :
  is_clear alias = true → @short_text (normalizer_analyzer norm) text →
  ∃ v alias' neg pos, match_phrase_views norm d text alias = Some (v, alias') ∧
    match_features_dual norm d text alias = Some (neg, pos, alias') ∧ pv_neg v = neg ∧ pv_pos v = pos ∧
    pos ⊆ pv_probe v ∧ (pa_feature <$> pv_pos_arcs v) ⊆ pv_probe v ∧ pv_neg_arcs v ⊆ pv_pos_arcs v ∧
    pv_positions v = position_index (length (norm_tokens norm text)).
Proof using All.
  intros Hclear Hshort. unfold match_phrase_views. pose proof (normalizer_laws norm ps Hn) as Hlaws.
  destruct (dual_spec text alias Hclear) as (neg & pos & alias' & E & _). rewrite E. cbn [mbind option_bind].
  destruct (@analyze_spec (normalizer_analyzer norm) Hlaws resolve_readonly _ Title false text d resolve_readonly_ok Hshort)
    as (p1 & arcs1 & d1 & E1 & _). rewrite E1. cbn [mbind option_bind].
  destruct (@analyze_spec (normalizer_analyzer norm) Hlaws resolve_readonly _ Title true text d resolve_readonly_ok Hshort)
    as (p2 & arcs2 & d2 & -> & _). cbn [mbind option_bind].
  assert (∃ overlaps, match phrase_overlap norm with
    | Some ov => collect_positioned_into ov (lc_of text) (tokenize (lc_of text)) d | None => Some [] end = Some overlaps) as [overlaps ->].
  { destruct (phrase_overlap norm) as [ov|] eqn:Eov; [|by eexists]. destruct (collect_positioned_total ov (lc_of text) (tokenize (lc_of text)) Eov) as [l ->]. by eexists. }
  cbn [mbind option_bind]. eexists _, _, neg, pos. split; [done|]. split_and!; simpl; [done|done|done| | | |].
  - intros f Hf. rewrite elem_of_sort_dedup, elem_of_app. by left.
  - intros f Hf. rewrite elem_of_sort_dedup, elem_of_app. by right.
  - intros a Ha. rewrite elem_of_sort_dedup, !elem_of_app. tauto.
  - unfold analyze_position_arcs in E1. destruct (resolve_arcs _ _ _) as [o dd]. destruct (coverage_delta _ _ _); [|done]. simpl in E1.
    destruct (fill_holes _ _ _ _ _ _ _ _) as [[? ?]|]; simpl in E1; [|done]. injection E1 as <- _ _. done.
Qed.

Lemma title_view_of_spec positioned text alias :
  is_clear alias = true → @short_text (normalizer_analyzer norm) text →
  ∃ view alias', title_view_of norm d positioned text alias = Some (view, alias') ∧ is_clear alias' = true ∧
    title_ok d view ∧ neg view = @match_features (normalizer_analyzer norm) text d ∧ neg view ⊆ pos view ∧
    @compile_features_readonly (normalizer_analyzer norm) text d ⊆ pos view ∧
    (positioned = true → is_Some (pos_graph view) ∧ is_Some (neg_graph view)).
Proof using All.
  intros Hclear Hshort. unfold title_view_of.
  destruct (dual_spec text alias Hclear) as (neg & pos & alias' & E & Hc & Hneg & Hs & Hsub & Hplain & Hcomp).
  assert (StronglySorted rlt neg) as Hsn by (rewrite Hneg; apply sort_dedup_sorted).
  destruct positioned; [|destruct (has_multiword_aliases norm) eqn:Hm].
  - destruct (match_phrase_views_spec text alias Hclear Hshort) as (v & alias'' & neg' & pos' & -> & E' & <- & <- & Hp & Hl & _).
    rewrite E in E'. injection E' as -> -> ->. cbn [mbind option_bind]. eexists _, _. split; [done|]. split; [done|].
    split; [|by split_and!; [done..|intros _; split; eexists]]. split; simpl; [|done|].
    + split; simpl; [by apply strictly_sorted_sorted..|done|done].
    + intros pg a [= <-] Ha. apply Hl. by apply list_elem_of_fmap_2.
  - rewrite E. cbn [mbind option_bind]. eexists _, _. split; [done|]. split; [done|].
    split; [|by split_and!]. split; simpl; [|done|done]. split; simpl; [by apply strictly_sorted_sorted..|done|done].
  - unfold title_features. assert (∃ out, norm_emit norm Title false text = Some out ∧ sort_dedup (get_or_synthetic d <$> out.*1) = neg) as (out & -> & En).
    { rewrite Hneg. unfold match_features. cbn [emit normalizer_analyzer].
      destruct (norm_emit_total norm ps Title false text Hn) as [l ->]. by exists l. }
    cbn [mbind option_bind]. rewrite En. specialize (Hplain eq_refl) as ->. eexists _, _. split; [done|]. split; [done|].
    split; [|by split_and!]. split; simpl; [|done|done]. split; simpl; [by apply strictly_sorted_sorted..|done|done].
Qed.

(** A view with positions has the features of the one without. *)
Lemma title_views_agree text alias view alias1 view' alias2 :
  is_clear alias = true → @short_text (normalizer_analyzer norm) text →
  title_view_of norm d false text alias = Some (view, alias1) → title_view_of norm d true text alias = Some (view', alias2) →
  pos view = pos view' ∧ neg view = neg view'.
Proof using All.
  intros Hclear Hshort. unfold title_view_of. destruct (match_phrase_views_spec text alias Hclear Hshort) as (v & alias'' & neg' & pos' & -> & E' & <- & <- & _).
  destruct (dual_spec text alias Hclear) as (neg & pos & alias' & E & Hc & Hneg & Hs & Hsub & Hplain & Hcomp).
  rewrite E in E'. injection E' as Ep En Ea. cbn [mbind option_bind]. intros E1 [= <- _]. cbn. destruct (has_multiword_aliases norm).
  - rewrite E in E1. cbn [mbind option_bind] in E1. injection E1 as <- _. cbn. split; congruence.
  - unfold title_features in E1. assert (∃ out, norm_emit norm Title false text = Some out ∧ sort_dedup (get_or_synthetic d <$> out.*1) = neg) as (out & Eo & Enn).
    { rewrite Hneg. unfold match_features. cbn [emit normalizer_analyzer]. destruct (norm_emit_total norm ps Title false text Hn) as [l ->]. by exists l. }
    rewrite Eo in E1. cbn [mbind option_bind] in E1. rewrite Enn in E1. injection E1 as <- _. cbn. specialize (Hplain eq_refl). split; congruence.
Qed.

(** C20. The view a title is matched against is built and well formed. For any
    normalizer and alias index with their invariants, any dictionary whose classes
    of equivalent names are a partition (each name is in its class, and all names
    of a class have that class), any title of fewer than 2^32 tokens and a scratch
    that starts clear, whether or not some stored query asks for positions: no
    step panics, the scratch comes back clear, the feature lists are sorted with
    the masks that belong to them, every positive feature and every label of the
    position graph is among the labels that are probed, the features negation
    reads are the canonical ones and are among the positive ones, and a query
    whose text is the title's own compiles to features the title has. *)
Theorem title_views_sound positioned text alias :
  is_clear alias = true → @short_text (normalizer_analyzer norm) text →
  ∃ view alias', title_view_of norm d positioned text alias = Some (view, alias') ∧ is_clear alias' = true ∧
    title_ok d view ∧ neg view = @match_features (normalizer_analyzer norm) text d ∧ neg view ⊆ pos view ∧
    @compile_features_readonly (normalizer_analyzer norm) text d ⊆ pos view ∧
    (positioned = true → is_Some (pos_graph view) ∧ is_Some (neg_graph view)).
Proof using All. apply title_view_of_spec. Qed.

End view_lemmas.

(** ** Alias forms are found in titles *)

Section alias_recall.
Context {A : Type} `{DaachorseLaws A}.

(** The registered forms are few, and few pieces each. *)
Definition vocabulary_small (b : NormalizerBuilder) (norm : Normalizer A) : Prop :=
  ∀ b', register_alias_phrases b = Some b' →
    N.of_nat (length (phrase_patterns b')) ≤ 2 ^ 32 ∧ forms_small (bare norm) (alias_patterns (phrase_patterns b') (b_entries b')).

Lemma alias_patterns_elem (ps : list rstring) es i p e :
  ps !! i = Some p → es !! i = Some e → pe_mode e = Alias → (p, pe_feature e) ∈ alias_patterns ps es.
Proof.
  intros Hp He Hm. unfold alias_patterns. apply list_elem_of_fmap. exists (p, e). split; [done|]. apply elem_of_list_filter_bool.
  split; [by rewrite bool_decide_true|]. apply list_elem_of_lookup. exists i. rewrite lookup_zip_with, Hp. simpl. by rewrite He.
Qed.

Lemma length_alias_patterns (ps : list rstring) es : (length (alias_patterns ps es) ≤ length ps)%nat.
Proof.
  unfold alias_patterns. rewrite length_fmap. etrans; [apply List.filter_length_le|]. rewrite length_zip_with. lia.
Qed.

Lemma specs_small b (norm : Normalizer A) b' specs :
  register_alias_phrases b = Some b' → vocabulary_small b norm →
  mapM (λ x, form_spec (bare norm) x.1 x.2) (alias_patterns (phrase_patterns b') (b_entries b')) = Some specs →
  Forall (λ spec, N.of_nat (length (fs_units spec)) ≤ 2 ^ 32) specs ∧ N.of_nat (length specs) ≤ 2 ^ 32.
Proof using Type.
  intros Hreg Hsmall Hspecs%mapM_Some. destruct (Hsmall b' Hreg) as [Hlen Hsm]. split.
  - apply Forall_forall. intros s' Hs'. apply list_elem_of_lookup in Hs' as [k Hk].
    destruct (Forall2_lookup_r _ _ _ _ _ Hspecs Hk) as (pe & Hpe & E). eapply Hsm; [by eapply list_elem_of_lookup_2|done].
  - apply Forall2_length in Hspecs. pose proof (length_alias_patterns (phrase_patterns b') (b_entries b')). lia.
Qed.

(** The alias index of a built normalizer is well formed. *)
Lemma build_alias_wf b (norm : Normalizer A) aw :
  builder_wf b → build b = Some (inr norm) → vocabulary_small b norm → alias_words norm = Some aw → alias_words_wf aw.
Proof using All.
  intros Hw Hb Hsmall Haw. destruct (build_inv b norm Hw Hb) as (b' & specs & Hreg & _ & _ & _ & Hspecs & Hnew).
  destruct (specs_small b norm b' specs Hreg Hsmall Hspecs) as [Hall _].
  destruct (alias_words_new_wf specs Hall) as (r & E & Hsome & _). rewrite Hnew in E. injection E as <-. by apply Hsome.
Qed.

(** The index of a built normalizer, when some form of it can be numbered. *)
Lemma build_alias_index b (norm : Normalizer A) b' specs spec form :
  register_alias_phrases b = Some b' → vocabulary_small b norm →
  mapM (λ x, form_spec (bare norm) x.1 x.2) (alias_patterns (phrase_patterns b') (b_entries b')) = Some specs →
  alias_words_new specs = Some (alias_words norm) → spec ∈ specs → form_of_spec spec = Some form →
  ∃ aw, alias_words norm = Some aw ∧ alias_words_wf aw ∧ form ∈ forms aw.
Proof using Type.
  intros Hreg Hsmall Hspecs Hnew Hin Hform. destruct (specs_small b norm b' specs Hreg Hsmall Hspecs) as [Hall Hlen].
  destruct (alias_words_new_wf specs Hall) as (r & E & Hsome & Hnone). rewrite Hnew in E. injection E as <-.
  assert (form ∈ omap form_of_spec specs) as Hf by (apply list_elem_of_omap; eauto).
  destruct (alias_words norm) as [aw|].
  - destruct (Hsome aw eq_refl) as [Hwf Hfs]. exists aw. rewrite Hfs. by split_and!.
  - destruct (Hnone eq_refl) as [E|E]; [rewrite E in Hf; by apply not_elem_of_nil in Hf|lia].
Qed.

(** C21. A title is found by an alias form whose words it has. For a vocabulary that
    was built from a well-formed builder whose punctuation table splits at or folds
    every white space other than the blank (as the default table does), whose
    phrases are words joined by single blanks, and whose alias forms are within the
    32-bit sizes of the index; a dictionary whose classes of equivalent names are a
    partition; and a scratch that starts clear: take any registered alias form of
    at least two and fewer than 2^32 tokens, none of them a marker, and any title
    that has each token of the form somewhere (in any order, apart, or as parts of
    other phrases).  The form, compiled as a query, is the one entity feature
    registered for it, and that feature is in the positive view the title is
    matched with. *)
Theorem alias_form_recalled b (norm : Normalizer A) form d title alias :
  builder_wf b → tame (b_punct b) → Forall phrase_pattern (phrase_patterns b) → build b = Some (inr norm) →
  vocabulary_small b norm → names_partition d → is_clear alias = true →
  form ∈ alias_forms b → (2 ≤ length (text_tokens (b_punct b) form))%nat →
  N.of_nat (length (text_tokens (b_punct b) form)) < 2 ^ 32 →
  text_tokens (b_punct b) form ⊆ text_tokens (b_punct b) title →
  Forall (λ tok, is_marker tok = false) (text_tokens (b_punct b) form) →
  ∃ f neg pos alias', @compile_features_readonly (normalizer_analyzer norm) form d = [f] ∧
    match_features_dual norm d title alias = Some (neg, pos, alias') ∧ f ∈ pos.
Proof using All.
  intros Hw Ht Hpat Hb Hsmall Hd Hclear Hform Hlen Hshort Hsub Hmark.
  destruct (build_inv b norm Hw Hb) as (b' & specs & Hreg & Hn & Hent & Hpunct & Hspecs & Hnew).
  destruct (alias_form_features b norm form d Hw Ht Hpat Hb Hform Hlen) as (b1 & i & entry & Hreg' & _ & Hi & He & Hm & Hf).
  rewrite Hreg in Hreg'. injection Hreg' as <-.
  set (ws := text_tokens (b_punct b) form) in *.
  assert (Forall word ws) as Hws by (unfold ws; destruct (clean_with_joined (b_punct b) form) as (_ & _ & _ & _ & ->); apply words_word).
  destruct (form_carried (bare norm) (phrase_patterns b') ws (pe_feature entry)) as (spec & fm & Hspec & Hfm & Hentity & Hcar);
    [by apply with_alias_words_wf|by intros E; rewrite E in Hlen; simpl in Hlen; lia|done|done|].
  rewrite Hent in He. pose proof (alias_patterns_elem _ _ i _ _ Hi He Hm) as Hin.
  assert (spec ∈ specs) as Hs.
  { apply list_elem_of_lookup in Hin as [k Hk]. pose proof (proj1 (mapM_Some _ _ _) Hspecs) as Hsp.
    destruct (Forall2_lookup_l _ _ _ _ _ Hsp Hk) as (s' & Hs' & E). cbn [fst snd] in E. rewrite Hspec in E. injection E as <-.
    by eapply list_elem_of_lookup_2. }
  destruct (build_alias_index b norm b' specs spec fm Hreg Hsmall Hspecs Hnew Hs Hfm) as (aw & Haw & Hawf & Hfin).
  assert (has_multiword_aliases norm = true) as Hmulti.
  { rewrite (nw_aliases _ _ Hn), Hent. apply existsb_elem. exists entry. split; [by eapply list_elem_of_lookup_2|by rewrite bool_decide_true]. }
  destruct (dual_aliased norm (phrase_patterns b') Hn d ltac:(intros aw' E; congruence) Hd title alias Hmulti Hclear)
    as (neg & pos & alias' & E & _ & _ & _ & Hpos).
  exists (get_or_synthetic d (pe_feature entry)), neg, pos, alias'. split; [done|]. split; [done|]. apply Hpos. right.
  exists aw, fm. split_and!; [done|done|by rewrite Hentity|]. apply Hcar. intros w Hww V HV _. apply HV.
  exists (name_hash (TERM ++ w)), (TERM ++ w). split; [|split; [done|by left]]. right. left. unfold raw_terms.
  apply list_elem_of_fmap_2. apply elem_of_list_filter_bool. rewrite Forall_forall in Hmark. rewrite Hmark by done. split; [done|].
  rewrite Hpunct. change (w ∈ alias_form_tokens (b_punct b) title). rewrite alias_form_tokens_words by done. by apply Hsub.
Qed.

End alias_recall.

(** ** The demonstration vocabulary *)

Definition clear_scratch : AliasScratch := mkAliasScratch [] ∅ [] ∅ ∅ ∅ [] [] ∅ ∅.
Definition demo_title : rstring := str "city guide: york pads, new wireless mouse".

Lemma demo_vocabulary_small : vocabulary_small demo_builder demo_norm.
Proof.
  intros b' Hreg. assert (b' = default demo_builder (register_alias_phrases demo_builder)) as -> by by rewrite Hreg.
  split; [by vm_compute|]. intros [p entity] spec Hin Hspec. cbn [fst snd] in Hspec.
  assert (forallb (λ pe, match form_spec (bare demo_norm) pe.1 pe.2 with Some spec => N.of_nat (length (fs_units spec)) <=? 2 ^ 32 | None => true end)
    (alias_patterns (phrase_patterns (default demo_builder (register_alias_phrases demo_builder)))
      (b_entries (default demo_builder (register_alias_phrases demo_builder)))) = true) as Hall by by vm_compute.
  rewrite forallb_elem in Hall. specialize (Hall _ Hin). cbn [fst snd] in Hall. rewrite Hspec in Hall. by apply N.leb_le.
Qed.

Lemma names_partition_new : names_partition dict_new.
Proof. intros n class E. vm_compute in E. done. Qed.

Lemma demo_title_short : @short_text (normalizer_analyzer demo_norm) demo_title.
Proof. apply N.leb_le. by vm_compute. Qed.

Lemma title_views_sound_witness :
  ∃ view alias', title_view_of demo_norm dict_new true demo_title clear_scratch = Some (view, alias') ∧ title_ok dict_new view.
Proof.
  destruct (title_views_sound demo_norm demo_patterns demo_norm_wf dict_new
    (λ aw, build_alias_wf demo_builder demo_norm aw demo_builder_wf demo_build demo_vocabulary_small) names_partition_new
    true demo_title clear_scratch eq_refl
    demo_title_short) as (view & alias' & E & _ & Hok & _).
  exists view, alias'. exact (conj E Hok).
Defined.

Lemma alias_form_recalled_witness :
  ∃ f neg pos alias', @compile_features_readonly (normalizer_analyzer demo_norm) (str "New York, City") dict_new = [f] ∧
    match_features_dual demo_norm dict_new demo_title clear_scratch = Some (neg, pos, alias') ∧ f ∈ pos ∧ f ∉ neg.
Proof.
  destruct (alias_form_recalled demo_builder demo_norm (str "New York, City") dict_new demo_title clear_scratch) as (f & neg & pos & alias' & Hf & E & Hin).
  - exact demo_builder_wf.
  - exact tame_default.
  - assert (phrase_patterns demo_builder = take 1 demo_patterns) as -> by by vm_compute. apply Forall_take, demo_patterns_ok.
  - exact demo_build.
  - exact demo_vocabulary_small.
  - exact names_partition_new.
  - done.
  - apply (bool_decide_unpack _). by vm_compute.
  - apply (bool_decide_unpack _). by vm_compute.
  - by vm_compute.
  - apply (bool_decide_unpack _). by vm_compute.
  - apply (bool_decide_unpack _). by vm_compute.
  - exists f, neg, pos, alias'. split; [exact Hf|]. split; [exact E|]. split; [exact Hin|].
    clear Hin. vm_compute in Hf, E. simplify_eq. apply (bool_decide_unpack _). by vm_compute.
Defined.
