(* ===== verification/Snapshot.v ===== *)
(** * Matching a title against a snapshot ([engine/src/segment/snapshot/view.rs])

    A snapshot is an ordered list of base segments and a memtable, with the
    dictionary and the normalizer they were compiled under.  [match_title_collect]
    sizes one stamp buffer per segment, advances the epoch (and clears the stamps
    when it wraps), builds the view of the title, probes the segments and the
    memtable through one collector, and finishes or aborts the collection.

    The theorems: a match returns exactly the ids of the live visible queries of
    all the segments that match the title, sorted and without repetition, and
    leaves the scratch ready for any later match, also when the epoch wraps and
    also when the deadline cancelled it. *)

From S2P Require Import Prelude Util Text Dictionary Index Phrase Analyze Clean Automaton AliasWords Normalize Builder.
From S2P Require Import Compile View Ownership Store Collect Segment SegMatch Lifecycle Merge Titles.

(** ** The scratch

    [lc], the feature buffers and the phrase buffers are overwritten by every
    match before they are read; what one match hands to the next is the alias
    scratch, the stamps and the epoch. *)

Record MatchScratch := mkMatchScratch {
  ms_alias : AliasScratch;
  ms_seen : list (list N);
  ms_epoch : N;
}.

Definition scratch_new : MatchScratch := mkMatchScratch (mkAliasScratch [] ∅ [] ∅ ∅ ∅ [] [] ∅ ∅) [] 0.

(** [if buf.len() < len { buf.resize(len, 0); }] *)
Definition grow (len : nat) (buf : list N) : list N :=
  if (length buf <? len)%nat then buf ++ replicate (len - length buf) 0 else buf.

(** [for (buf, seg) in self.seen.iter_mut().zip(segments)] *)
Fixpoint grow_zip (lens : list nat) (seen : list (list N)) : list (list N) :=
  match lens, seen with
  | len :: lens', buf :: seen' => grow len buf :: grow_zip lens' seen'
  | _, _ => seen
  end.

Definition ensure (lens : list nat) (memtable_len : nat) (seen : list (list N)) : option (list (list N)) :=
  let n := S (length lens) in
  let seen := if (length seen <? n)%nat then seen ++ replicate (n - length seen) [] else seen in
  let seen := grow_zip lens seen in
  mbuf ← seen !! length lens;
  Some (<[length lens := grow memtable_len mbuf]> seen).

(** The next epoch; when it wraps to zero all the stamps are cleared. *)
Definition next_epoch (seen : list (list N)) (epoch : N) : list (list N) * N :=
  let epoch := wrap32 (epoch + 1) in
  if epoch =? 0 then ((λ buf : list N, replicate (length buf) 0) <$> seen, 1) else (seen, epoch).

Record MatchView (A B : Type) := mkMatchView {
  mv_norm : Normalizer A;
  mv_dict : Dict;
  mv_segments : list (Segment B);
  mv_memtable : Segment B;
  mv_has_phrases : bool;
  mv_tag_skipping : bool;
  mv_pred : TagPredicate;
}.
Arguments mkMatchView {A B}.
Arguments mv_norm {A B}.
Arguments mv_dict {A B}.
Arguments mv_segments {A B}.
Arguments mv_memtable {A B}.
Arguments mv_has_phrases {A B}.
Arguments mv_tag_skipping {A B}.
Arguments mv_pred {A B}.

(** The state of a match over all the sources: as a run, with a stamp buffer per
    source. *)
Record Pass (C D : Type) := mkPass {
  ps_seen : list (list N);
  ps_coll : C;
  ps_stats : MatchStats;
  ps_deadline : DeadlinePoll D;
}.
Arguments mkPass {C D}.
Arguments ps_seen {C D}.
Arguments ps_coll {C D}.
Arguments ps_stats {C D}.
Arguments ps_deadline {C D}.

Section matching.
Context {A B C D P : Type} `{Daachorse A} `{Roaring B} `{MatchCollector C} `{DeadlineCheck D} `{EmissionPolicy P}.
Variable mv : MatchView A B.
Variable include_broad : bool.
Variable emission : P.

Section sources.
Variable view : TitleView.
Variable epoch : N.

(** [collector.begin_source(i); base.match_collect(..)] *)
Definition probe_source (i : nat) (seg : Segment B) (ps : Pass C D) : option (Pass C D * bool) :=
  buf ← ps_seen ps !! i;
  r ← match_collect seg view (mv_dict mv) epoch (mkProbeLanes include_broad true) (mv_pred mv) emission
        (mkRun buf (begin_source i (ps_coll ps)) (ps_stats ps) (ps_deadline ps));
  let '(st, cancelled) := r in
  Some (mkPass (<[i := run_seen st]> (ps_seen ps)) (run_coll st) (run_stats st) (run_deadline st), cancelled).

Definition pass_check (ps : Pass C D) : Pass C D * bool :=
  let '(dl, expired) := check_now (ps_deadline ps) in (mkPass (ps_seen ps) (ps_coll ps) (ps_stats ps) dl, expired).

Definition pass_stop (ps : Pass C D) : Pass C D * bool :=
  let '(c, stop) := should_stop (ps_coll ps) in (mkPass (ps_seen ps) c (ps_stats ps) (ps_deadline ps), stop).

Definition skips_tags : bool := mv_tag_skipping mv && negb (tag_is_empty (mv_pred mv)).

(** The loop over the base segments; [true] when the deadline expired. *)
Fixpoint probe_bases (i : nat) (segs : list (Segment B)) (ps : Pass C D) : option (Pass C D * bool) :=
  match segs with
  | [] => Some (ps, false)
  | base :: segs' =>
      let '(ps, expired) := pass_check ps in
      if expired then Some (ps, true)
      else if skips_tags && negb (tag_summary_may_match base (mv_pred mv)) then
        probe_bases (S i) segs' (mkPass (ps_seen ps) (ps_coll ps) (bump tag_segments_skipped 1 (ps_stats ps)) (ps_deadline ps))
      else
        r ← probe_source i base ps;
        let '(ps, cancelled) := r in
        if cancelled : bool then Some (ps, true)
        else
          let '(ps, stop) := pass_stop ps in
          if stop then Some (ps, false) else probe_bases (S i) segs' ps
  end.

(** The memtable, unless the match was cancelled or the collector has enough. *)
Definition probe_memtable (ps : Pass C D) : option (Pass C D * bool) :=
  let '(ps, stop) := pass_stop ps in
  if stop then Some (ps, false)
  else
    let '(ps, expired) := pass_check ps in
    if expired then Some (ps, true) else probe_source (length (mv_segments mv)) (mv_memtable mv) ps.

Definition probe_sources (ps : Pass C D) : option (Pass C D * bool) :=
  r ← probe_bases 0 (mv_segments mv) ps;
  let '(ps, cancelled) := r in
  if cancelled : bool then Some (ps, true) else probe_memtable ps.

End sources.

(** The statistics after the collector has finished. *)
Definition finish_stats (summary : CollectionSummary) (stats : MatchStats) : MatchStats :=
  let stats := set_counter stat_logical_emissions (sat_add 64 (stats stat_logical_emissions) (logical_emissions summary)) stats in
  let stats := set_counter stat_duplicate_emissions
    (sat_add 64 (stats stat_duplicate_emissions) (default 0 (duplicate_emissions summary))) stats in
  set_counter matches (wrap32 (retained summary)) stats.

(** [Ok] with the statistics, or [None] inside for [Err(cancelled)]. *)
Definition match_title_collect (title : rstring) (s : MatchScratch) (c : C) (dl : D) :
  option (MatchScratch * C * option MatchStats) :=
  seen ← ensure (seg_len <$> mv_segments mv) (seg_len (mv_memtable mv)) (ms_seen s);
  let '(seen, epoch) := next_epoch seen (ms_epoch s) in
  let '(c, stop) := should_stop (reset c) in
  if stop : bool then Some (mkMatchScratch (ms_alias s) seen epoch, c, Some stats_default)
  else
    let '(dl, expired) := check_now (deadline_new dl) in
    if expired then Some (mkMatchScratch (ms_alias s) seen epoch, c, None)
    else
      v ← title_view_of (mv_norm mv) (mv_dict mv) (mv_has_phrases mv) title (ms_alias s);
      let '(view, alias) := v in
      r ← probe_sources view epoch (mkPass seen c stats_default dl);
      let '(ps, cancelled) := r in
      let s := mkMatchScratch alias (ps_seen ps) epoch in
      if cancelled : bool then Some (s, abort (ps_coll ps), None)
      else
        let '(c, summary) := finish (ps_coll ps) in
        Some (s, c, Some (finish_stats summary (ps_stats ps))).

End matching.

(** [match_title_with_policy]: all the ids, through [AllCollector]. *)
Definition match_title_with_policy {A B D P} `{Daachorse A} `{Roaring B} `{DeadlineCheck D} `{EmissionPolicy P}
  (mv : MatchView A B) (title : rstring) (s : MatchScratch) (out : list N) (include_broad : bool) (dl : D) (emission : P) :
  option (MatchScratch * list N * option MatchStats) :=
  r ← match_title_collect mv include_broad emission title s (mkAllCollector out 0) dl;
  let '(s, c, stats) := r in
  Some (s, all_out c, stats).

Definition match_title {A B D} `{Daachorse A} `{Roaring B} `{DeadlineCheck D}
  (mv : MatchView A B) (title : rstring) (s : MatchScratch) (out : list N) (include_broad : bool) (dl : D) :
  option (MatchScratch * list N * option MatchStats) :=
  match_title_with_policy mv title s out include_broad dl mkEmitAll.

(** [candidate_hit]: whether the traversal reaches a stored copy of an id. *)
Definition candidate_hit {A B D} `{Daachorse A} `{Roaring B} `{DeadlineCheck D}
  (mv : MatchView A B) (title : rstring) (logical_id : N) (s : MatchScratch) (include_broad : bool) (dl : D) :
  option (MatchScratch * option bool) :=
  r ← match_title_collect mv include_broad mkEmitAll title s (candidate_hit_new logical_id) dl;
  let '(s, c, stats) := r in
  Some (s, match stats with Some _ => Some (hit_found c) | None => None end).

(** ** Stamps

    A step leaves every stamp as it was or sets it to the epoch. *)

Create HintDb stamps.

Section stamps.
Context {C D : Type} `{MatchSink C} `{DeadlineCheck D} (epoch : N).

Definition stamped_only (seen seen' : list N) : Prop :=
  length seen' = length seen ∧ ∀ i v, seen' !! i = Some v → v = epoch ∨ seen !! i = Some v.

#[local] Instance stamped_only_preorder : PreOrder stamped_only.
Proof.
  split; [by split; [|right]|]. intros a b c [H1 H2] [K1 K2]. split; [congruence|].
  intros i v Hi. destruct (K2 i v Hi); [by left|auto].
Qed.

Definition stamps (m : Step C D) : Prop :=
  ∀ st st' f, m st = Some (st', f) → stamped_only (run_seen st) (run_seen st').

Lemma stamps_same (m : Step C D) : (∀ st st' f, m st = Some (st', f) → run_seen st' = run_seen st) → stamps m.
Proof. intros Hm st st' f E. by rewrite (Hm _ _ _ E). Qed.

Lemma stamps_go : stamps go.
Proof. apply stamps_same. by intros st st' f [= <- _]. Qed.

Lemma stamps_then m k : stamps m → stamps k → stamps (m ;;; k).
Proof.
  intros Hm Hk st st' f. unfold andThen. destruct (m st) as [[st1 []]|] eqn:E; [|intros [= <- _]..|done]; [|by eapply Hm..].
  intros Ek. etrans; [by eapply Hm|by eapply Hk].
Qed.

Lemma stamps_reading {X} (o : option X) k : (∀ x, stamps (k x)) → stamps (reading o k).
Proof. intros Hk st st' f. unfold reading. destruct o; simpl; [apply Hk|done]. Qed.

Lemma stamps_each {X} (f : X → Step C D) l : (∀ x, stamps (f x)) → stamps (each f l).
Proof. intros Hf. induction l as [|x l IH]; simpl; [apply stamps_go|by apply stamps_then]. Qed.

Lemma stamps_if (b : bool) m k : stamps m → stamps k → stamps (if b then m else k).
Proof. by destruct b. Qed.

Lemma stamps_counting f : stamps (counting f).
Proof. apply stamps_same. by intros st st' f' [= <- _]. Qed.

Lemma stamps_unless_stopped : stamps unless_stopped.
Proof. apply stamps_same. intros st st' f. unfold unless_stopped. destruct (should_stop _) as [c stop]. by intros [= <- _]. Qed.

Lemma stamps_work_unit : stamps work_unit.
Proof. apply stamps_same. intros st st' f. unfold work_unit. destruct (check_work _) as [dl e]. by intros [= <- _]. Qed.

Lemma stamps_observe logical : stamps (observe logical).
Proof. unfold observe. apply stamps_then; [|apply stamps_unless_stopped]. apply stamps_same. by intros st st' f [= <- _]. Qed.

Lemma stamps_deliver logical local : stamps (deliver logical local).
Proof.
  unfold deliver. apply stamps_then; [|apply stamps_unless_stopped]. apply stamps_same. intros st st' f.
  destruct (collect_match_at _ _ _ _) as [[c dl] e]. by intros [= <- _].
Qed.

Lemma stamps_unless_seen local k : stamps k → stamps (unless_seen epoch local k).
Proof.
  intros Hk st st' f. unfold unless_seen. destruct (run_seen st !! usize local) as [x|] eqn:E; simpl; [|done].
  destruct (x =? epoch); [by intros [= <- _]|]. intros Ek. etrans; [|by eapply Hk]. simpl. split; [by rewrite length_insert|].
  intros i v. destruct (decide (i = usize local)) as [->|Hne]; [|rewrite list_lookup_insert_ne by done; by right].
  rewrite list_lookup_insert_eq by (by eapply lookup_lt_Some). left. congruence.
Qed.

End stamps.

#[export] Hint Resolve stamps_go stamps_then stamps_reading stamps_each stamps_if stamps_counting stamps_unless_stopped
  stamps_work_unit stamps_observe stamps_deliver stamps_unless_seen : stamps.

Ltac stamps_step :=
  repeat match goal with
         | |- stamps _ (_ ;;; _) => apply stamps_then
         | |- stamps _ (reading _ _) => apply stamps_reading; intros
         | |- stamps _ (each _ _) => apply stamps_each; intros
         | |- stamps _ (if _ then _ else _) => apply stamps_if
         | |- stamps _ (unless_seen _ _ _) => apply stamps_unless_seen
         end; auto with stamps.

Section stamps_probing.
Context {B C D P : Type} `{Roaring B} `{MatchSink C} `{DeadlineCheck D} `{EmissionPolicy P}.
Context (seg : Segment B) (view : TitleView) (d : Dict) (epoch : N) (lanes : ProbeLanes) (pred : TagPredicate) (emission : P).

Lemma stamps_visit lane local : stamps (C:=C) (D:=D) epoch (visit seg view epoch pred emission lane local).
Proof. unfold visit, visit_group, visit_row, emit_member, observe_member, deliver_row. cbv zeta. stamps_step. Qed.

Lemma stamps_walk lane ids (st : Run C D) :
  ∀ r, iter_while (visit_closure seg view epoch pred emission lane) (Some (st, false)) ids = Some r →
    stamped_only epoch (run_seen st) (run_seen r.1).
Proof.
  revert st. induction ids as [|l ids IH]; intros st r; simpl; [intros [= <-]; by split; [|right]|].
  destruct (visit _ _ _ _ _ lane l st) as [[st1 f]|] eqn:E; [|done]. pose proof (stamps_visit lane l _ _ _ E) as Hs.
  destruct f; [|by intros [= <-]..]. intros Hr. destruct (IH _ _ Hr) as [K1 K2], Hs as [H1' H2']. split; [congruence|].
  intros i v Hi. destruct (K2 i v Hi); [by left|auto].
Qed.

Lemma stamps_probe_index key lane : stamps (C:=C) (D:=D) epoch (probe_index seg view epoch pred emission key lane).
Proof.
  intros st st' f. unfold probe_index. destruct (index_get _ _) as [p|]; [|intros [= <- _]; by split; [|right]].
  set (st0 := mkRun _ _ _ _). intros E.
  assert (∃ ids, for_each_while (visit_closure seg view epoch pred emission lane) (Some (st0, false)) p =
    Some (iter_while (visit_closure seg view epoch pred emission lane) (Some (st0, false)) ids)) as [ids Eids].
  { destruct p as [ids len|v|bm]; simpl in *; [|by eexists..]. destruct (slice ids 0 (usize len)) as [ids'|]; [by eexists|done]. }
  rewrite Eids in E. simpl in E. destruct (iter_while _ _ _) as [[st1 c]|] eqn:Ei; simpl in E; [|done]. injection E as <- _.
  apply (stamps_walk lane ids st0 _ Ei).
Qed.

Lemma stamps_match_collect (st st' : Run C D) c :
  match_collect seg view d epoch lanes pred emission st = Some (st', c) → stamped_only epoch (run_seen st) (run_seen st').
Proof.
  unfold match_collect. destruct (probe_lanes _ _ _ _ _ _ _ _) as [[st1 f]|] eqn:E; simpl; [|done]. intros [= <- _].
  assert (stamps epoch (C:=C) (D:=D) (probe_lanes seg view d epoch lanes pred emission)) as Hs; [|by eapply Hs].
  unfold probe_lanes, probe_single, probe_pairs, gated_probe. stamps_step; apply stamps_probe_index.
Qed.

End stamps_probing.

(** ** The scratch between matches *)

Definition stamps_below (e : N) (seen : list (list N)) : Prop := Forall (Forall (λ v, v ≤ e)) seen.

Record scratch_ok (s : MatchScratch) : Prop := {
  so_epoch : ms_epoch s < 2 ^ 32;
  so_seen : stamps_below (ms_epoch s) (ms_seen s);
  so_alias : is_clear (ms_alias s) = true;
}.

Lemma scratch_new_ok : scratch_ok scratch_new.
Proof. by split; [|constructor|]. Qed.

Lemma stamps_below_mono e e' seen : e ≤ e' → stamps_below e seen → stamps_below e' seen.
Proof. intros Hle Hs. eapply Forall_impl; [exact Hs|]. intros buf Hb. eapply Forall_impl; [exact Hb|]. simpl. lia. Qed.

Lemma grow_below e len buf : Forall (λ v, v ≤ e) buf → Forall (λ v, v ≤ e) (grow len buf) ∧ (len ≤ length (grow len buf))%nat.
Proof.
  intros Hb. unfold grow. destruct (Nat.ltb_spec (length buf) len); [|done]. rewrite length_app, length_replicate. split; [|lia].
  apply Forall_app. split; [done|]. apply Forall_replicate. lia.
Qed.

Lemma grow_zip_spec e lens seen :
  stamps_below e seen → (length lens ≤ length seen)%nat →
  stamps_below e (grow_zip lens seen) ∧ length (grow_zip lens seen) = length seen ∧
  ∀ i len, lens !! i = Some len → ∃ buf, grow_zip lens seen !! i = Some buf ∧ (len ≤ length buf)%nat.
Proof.
  revert seen. induction lens as [|len lens IH]; intros [|buf seen] Hs Hlen; simpl in *; try lia; [by split_and!..|].
  inversion Hs as [|? ? Hb Hs']; subst. destruct (IH seen Hs') as (H1 & H2 & H3); [lia|]. destruct (grow_below e len buf Hb) as [G1 G2].
  split_and!; [by constructor|lia|]. intros [|i] len' Hi; simpl in *; [|eauto]. simplify_eq. eauto.
Qed.

Lemma ensure_spec e lens m seen :
  stamps_below e seen →
  ∃ seen', ensure lens m seen = Some seen' ∧ stamps_below e seen' ∧
    ∀ i len, (lens ++ [m]) !! i = Some len → ∃ buf, seen' !! i = Some buf ∧ (len ≤ length buf)%nat.
Proof.
  intros Hs. unfold ensure. set (n := S (length lens)).
  set (seen1 := if (_ <? _)%nat then _ else _). assert (stamps_below e seen1 ∧ (n ≤ length seen1)%nat) as [Hs1 Hl1].
  { unfold seen1. destruct (Nat.ltb_spec (length seen) n); [|done]. rewrite length_app, length_replicate. split; [|lia].
    apply Forall_app. split; [done|]. by apply Forall_replicate. }
  destruct (grow_zip_spec e lens seen1 Hs1) as (H1 & H2 & H3); [lia|].
  destruct (lookup_lt_is_Some_2 (grow_zip lens seen1) (length lens)) as [mbuf Hm]; [lia|]. rewrite Hm. simpl.
  destruct (grow_below e m mbuf) as [G1 G2]; [exact (Forall_lookup_1 _ _ _ _ H1 Hm)|].
  eexists. split; [done|]. split; [by apply Forall_insert|]. intros i len Hi. apply lookup_app_Some in Hi as [Hi|[Hge Hi]].
  - rewrite list_lookup_insert_ne by (apply lookup_lt_Some in Hi; lia). by apply H3.
  - assert (i = length lens) as -> by (apply lookup_lt_Some in Hi; simpl in Hi; lia). rewrite Nat.sub_diag in Hi. simplify_eq/=.
    rewrite list_lookup_insert_eq by (by eapply lookup_lt_Some). eauto.
Qed.

(** The new epoch is on no stamp. *)
Lemma next_epoch_spec seen e seen' e' :
  e < 2 ^ 32 → stamps_below e seen → next_epoch seen e = (seen', e') →
  e' < 2 ^ 32 ∧ stamps_below e' seen' ∧ Forall (λ buf : list N, e' ∉ buf) seen' ∧ length <$> seen' = length <$> seen.
Proof.
  intros He Hs. unfold next_epoch. destruct (N.eqb_spec (wrap32 (e + 1)) 0) as [E|E]; intros [= <- <-].
  - split_and!; [done|..].
    + apply Forall_fmap, Forall_true. intros buf. simpl. apply Forall_replicate. lia.
    + apply Forall_fmap, Forall_true. intros buf. simpl. by intros [? _]%elem_of_replicate.
    + rewrite <-list_fmap_compose. apply list_fmap_ext. intros i buf _. simpl. by rewrite length_replicate.
  - assert (wrap32 (e + 1) = e + 1) as ->.
    { unfold wrap32, wrap in *. destruct (decide (e + 1 = 2 ^ 32)) as [E'|]; [rewrite E' in E; by vm_compute in E|]. apply N.mod_small. lia. }
    split_and!; [|by eapply stamps_below_mono; [|done]; lia| |done].
    + unfold wrap32, wrap in E. destruct (decide (e + 1 = 2 ^ 32)) as [E'|]; [rewrite E' in E; by vm_compute in E|lia].
    + eapply Forall_impl; [exact Hs|]. intros buf Hb Hin. rewrite Forall_forall in Hb. specialize (Hb _ Hin). simpl in Hb. lia.
Qed.

Lemma stamped_below e seen seen' :
  stamped_only e seen seen' → Forall (λ v, v ≤ e) seen → Forall (λ v, v ≤ e) seen'.
Proof.
  intros [_ Hs] Hb. apply Forall_lookup. intros i v Hi. destruct (Hs i v Hi) as [->|Hi']; [done|]. exact (Forall_lookup_1 _ _ _ _ Hb Hi').
Qed.

Section scratch.
Context {A B C D P : Type} `{Daachorse A} `{Roaring B} `{MatchCollector C} `{DeadlineCheck D} `{EmissionPolicy P}.
Context (mv : MatchView A B) (ib : bool) (emission : P).

Lemma probe_source_stamps view e i seg (ps ps' : Pass C D) c :
  probe_source mv ib emission view e i seg ps = Some (ps', c) → stamps_below e (ps_seen ps) → stamps_below e (ps_seen ps').
Proof.
  unfold probe_source. destruct (ps_seen ps !! i) as [buf|] eqn:Eb; simpl; [|done].
  destruct (match_collect _ _ _ _ _ _ _ _) as [[st c']|] eqn:E; simpl; [|done]. intros [= <- _] Hs. simpl.
  apply Forall_insert; [done|]. eapply stamped_below; [by eapply stamps_match_collect in E|]. simpl. exact (Forall_lookup_1 _ _ _ _ Hs Eb).
Qed.

Lemma pass_check_seen (ps ps' : Pass C D) b : pass_check ps = (ps', b) → ps_seen ps' = ps_seen ps.
Proof. unfold pass_check. destruct (check_now _). by intros [= <- _]. Qed.

Lemma pass_stop_seen (ps ps' : Pass C D) b : pass_stop ps = (ps', b) → ps_seen ps' = ps_seen ps.
Proof. unfold pass_stop. destruct (should_stop _). by intros [= <- _]. Qed.

Lemma probe_bases_stamps view e segs i (ps ps' : Pass C D) c :
  probe_bases mv ib emission view e i segs ps = Some (ps', c) → stamps_below e (ps_seen ps) → stamps_below e (ps_seen ps').
Proof.
  revert i ps. induction segs as [|base segs IH]; intros i ps; simpl; [by intros [= <- _]|].
  destruct (pass_check ps) as [ps1 expired] eqn:E1. rewrite <-(pass_check_seen _ _ _ E1).
  destruct expired; [by intros [= <- _]|]. destruct (_ && _); [intros E Hs; by apply (IH _ _ E)|].
  destruct (probe_source _ _ _ _ _ _ _ _) as [[ps2 c2]|] eqn:E2; simpl; [|done].
  destruct c2; [intros [= <- _]; by eapply probe_source_stamps|]. destruct (pass_stop ps2) as [ps3 stop] eqn:E3.
  destruct stop; [intros [= <- _] Hs|intros E Hs; apply (IH _ _ E)]; rewrite (pass_stop_seen _ _ _ E3); by eapply probe_source_stamps.
Qed.

Lemma probe_sources_stamps view e (ps ps' : Pass C D) c :
  probe_sources mv ib emission view e ps = Some (ps', c) → stamps_below e (ps_seen ps) → stamps_below e (ps_seen ps').
Proof.
  unfold probe_sources. destruct (probe_bases _ _ _ _ _ _ _ _) as [[ps1 c1]|] eqn:E1; simpl; [|done]. intros E Hs.
  apply (probe_bases_stamps _ _ _ _ _ _ _ E1) in Hs. destruct c1; [by simplify_eq|]. unfold probe_memtable in E.
  destruct (pass_stop ps1) as [ps2 stop] eqn:E2. rewrite <-(pass_stop_seen _ _ _ E2) in Hs. destruct stop; [by simplify_eq|].
  destruct (pass_check ps2) as [ps3 expired] eqn:E3. rewrite <-(pass_check_seen _ _ _ E3) in Hs. destruct expired; [by simplify_eq|].
  by eapply probe_source_stamps.
Qed.

End scratch.

(** ** What a match returns *)

(** Collectors that take the sources as one stream. *)
Class OneStream (C : Type) `{MatchSink C} := one_stream i c : begin_source i c = c.
#[export] Instance AllCollector_stream : OneStream AllCollector.
Proof. done. Qed.
#[export] Instance CountCollector_stream : OneStream CountCollector.
Proof. done. Qed.

Section exact.
Context {A B C D P : Type} `{DaachorseLaws A} `{RoaringLaws B} `{MatchCollector C} `{!QuietSink C} `{!OneStream C} `{DeadlineCheck D} `{EmissionPolicy P}.
Context (mv : MatchView A B) (ib : bool) (emission : P) (view : TitleView) (epoch : N).
Context (Hwf : dict_wf (mv_dict mv)) (Htag : tag_wf (mv_pred mv)) (Hview : title_ok (mv_dict mv) view) (Harm : ARMED (D:=D) = false).

Abbreviation answers abs := (answer view ib (mv_pred mv) emission abs).

(** The policy can be asked about every stored placement. *)
Definition emits_all (abs : list StoredQuery) : Prop := ∀ q, q ∈ abs → is_Some (should_emit emission (sq_placement q)).

(** The pass delivers the ids to the collector, and only stamps. *)
Definition delivered (ps ps' : Pass C D) (abs : list StoredQuery) : Prop :=
  ∃ ids, ps_coll ps' = foldl (λ c lg, on_match lg c) (ps_coll ps) ids ∧
    ids ⊆+ answers abs ∧ (decided view abs → ids ≡ₚ answers abs).

Definition fresh_for (i : nat) (abs : list StoredQuery) (ps : Pass C D) : Prop :=
  ∃ buf, ps_seen ps !! i = Some buf ∧ (length abs ≤ length buf)%nat ∧ epoch ∉ buf.

Lemma probe_source_spec i seg abs (ps : Pass C D) :
  holds (mv_dict mv) seg abs → emits_all abs → fresh_for i abs ps →
  ∃ ps', probe_source mv ib emission view epoch i seg ps = Some (ps', false) ∧ delivered ps ps' abs ∧
    ∀ j, j ≠ i → ps_seen ps' !! j = ps_seen ps !! j.
Proof using All.
  intros [s Hrep] Hem (buf & Hb & Hlen & Hep). unfold probe_source. rewrite Hb. simpl. rewrite one_stream.
  destruct (represents_match (mv_dict mv) view ib (mv_pred mv) emission seg abs s epoch (mkRun buf (ps_coll ps) (ps_stats ps) (ps_deadline ps)))
    as (st & ids & -> & _ & Hc & Hsub & Hall); [done..|]. simpl. eexists. split; [done|]. split; [by exists ids|].
  intros j Hj. simpl. by apply list_lookup_insert_ne.
Qed.

Lemma pass_check_unarmed (ps : Pass C D) : pass_check ps = (ps, false).
Proof using Harm. unfold pass_check, check_now. rewrite Harm. by destruct ps. Qed.

Lemma pass_stop_quiet (ps : Pass C D) : pass_stop ps = (ps, false).
Proof using QuietSink0. unfold pass_stop. rewrite quiet_stop. by destruct ps. Qed.

Lemma delivered_then ps1 ps2 ps3 a b : delivered ps1 ps2 a → delivered ps2 ps3 b → delivered ps1 ps3 (a ++ b).
Proof using Type.
  intros (l & Hl & Hs & Hp) (k & Hk & Hs' & Hp'). exists (l ++ k). rewrite foldl_app, <-Hl, Hk. split; [done|].
  rewrite answer_app. split; [by apply submseteq_app|]. intros Hd.
  rewrite Hp, Hp'; [done|..]; intros q Hq; apply Hd, elem_of_app; tauto.
Qed.

Lemma probe_bases_spec segs abss i (ps : Pass C D) :
  Forall2 (holds (mv_dict mv)) segs abss → Forall emits_all abss →
  (∀ j abs, abss !! j = Some abs → fresh_for (i + j) abs ps) →
  ∃ ps', probe_bases mv ib emission view epoch i segs ps = Some (ps', false) ∧ delivered ps ps' (mjoin abss) ∧
    ∀ j, (i + length segs ≤ j)%nat → ps_seen ps' !! j = ps_seen ps !! j.
Proof using All.
  intros Hh. revert i ps. induction Hh as [|seg abs segs abss Hseg Hsegs IH]; intros i ps Hem Hfresh; simpl.
  { exists ps. split; [done|]. split; [by exists []|done]. }
  inversion Hem as [|? ? He Hes]; subst. rewrite pass_check_unarmed.
  destruct (skips_tags mv && _) eqn:Hskip.
  - apply andb_true_iff in Hskip as [_ Hskip%negb_true_iff]. destruct Hseg as [s Hrep].
    destruct (IH (S i) (mkPass (ps_seen ps) (ps_coll ps) (bump tag_segments_skipped 1 (ps_stats ps)) (ps_deadline ps)) Hes)
      as (ps' & -> & Hdel & Hsame).
    { intros j a Hj. replace (S i + j)%nat with (i + S j)%nat by lia. by apply (Hfresh (S j)). }
    exists ps'. split; [done|]. split; [|intros j Hj; apply Hsame; lia].
    apply (delivered_then _ (mkPass (ps_seen ps) (ps_coll ps) (bump tag_segments_skipped 1 (ps_stats ps)) (ps_deadline ps))); [|done].
    exists []. rewrite (represents_tag_skip _ _ _ _ view ib (mv_pred mv) emission Hrep Htag Hskip). done.
  - destruct (probe_source_spec i seg abs ps Hseg He) as (ps1 & -> & Hdel & Hsame).
    { specialize (Hfresh 0%nat abs eq_refl). by rewrite Nat.add_0_r in Hfresh. }
    simpl. rewrite pass_stop_quiet.
    destruct (IH (S i) ps1 Hes) as (ps' & -> & Hdel' & Hsame').
    { intros j a Hj. destruct (Hfresh (S j) a Hj) as (buf & Hb & Hrest). exists buf. split; [|done].
      rewrite Hsame by lia. by replace (S i + j)%nat with (i + S j)%nat by lia. }
    exists ps'. split; [done|]. split; [by eapply delivered_then|]. intros j Hj. rewrite Hsame' by lia. apply Hsame. lia.
Qed.

Lemma probe_sources_spec abss absm (ps : Pass C D) :
  Forall2 (holds (mv_dict mv)) (mv_segments mv) abss → holds (mv_dict mv) (mv_memtable mv) absm →
  Forall emits_all (abss ++ [absm]) → (∀ j abs, (abss ++ [absm]) !! j = Some abs → fresh_for j abs ps) →
  ∃ ps', probe_sources mv ib emission view epoch ps = Some (ps', false) ∧ delivered ps ps' (mjoin abss ++ absm).
Proof using All.
  intros Hh Hm [Hem [Hemm _]%Forall_cons]%Forall_app Hfresh. unfold probe_sources.
  destruct (probe_bases_spec (mv_segments mv) abss 0 ps Hh Hem) as (ps1 & -> & Hdel & Hsame).
  { intros j abs Hj. apply Hfresh. by apply lookup_app_l_Some. }
  simpl. unfold probe_memtable. rewrite pass_stop_quiet, pass_check_unarmed.
  destruct (probe_source_spec (length (mv_segments mv)) (mv_memtable mv) absm ps1 Hm Hemm) as (ps2 & -> & Hdel' & _).
  { pose proof (Forall2_length _ _ _ Hh) as Hl. rewrite Hl. destruct (Hfresh (length abss) absm) as (buf & Hb & Hrest).
    { by apply list_lookup_middle. }
    exists buf. split; [|done]. rewrite Hsame by lia. done. }
  exists ps2. split; [done|]. by eapply delivered_then.
Qed.

End exact.

(** ** The snapshot *)

(** A snapshot whose parts hold the given stored queries: [all_of] lists them, the
    base segments first. *)
Record snapshot_ok {A B} `{Daachorse A} `{Roaring B} (mv : MatchView A B) (abss : list (list StoredQuery)) (absm : list StoredQuery) : Prop := {
  sn_dict : dict_wf (mv_dict mv);
  sn_names : names_partition (mv_dict mv);
  sn_norm : ∃ ps, norm_wf (mv_norm mv) ps;
  sn_alias aw : alias_words (mv_norm mv) = Some aw → alias_words_wf aw;
  sn_segments : Forall2 (holds (mv_dict mv)) (mv_segments mv) abss;
  sn_memtable : holds (mv_dict mv) (mv_memtable mv) absm;
  sn_pred : tag_wf (mv_pred mv);
}.

Definition all_of (abss : list (list StoredQuery)) (absm : list StoredQuery) : list StoredQuery := mjoin abss ++ absm.

Section snapshot.
Context {A B P : Type} `{DaachorseLaws A} `{RoaringLaws B} `{EmissionPolicy P}.
Context (mv : MatchView A B) (abss : list (list StoredQuery)) (absm : list StoredQuery) (Hmv : snapshot_ok mv abss absm).

Lemma holds_seg_len d seg abs : holds d seg abs → seg_len seg = length abs.
Proof using Type.
  intros [s Hrep]. destruct (source_len _ _ _ _ Hrep) as (-> & _ & ->). done.
Qed.

Lemma holds_seg_lens d segs abss' : Forall2 (holds d) segs abss' → seg_len <$> segs = length <$> abss'.
Proof using Type. induction 1 as [|seg abs segs abss' Hs _ IH]; [done|]. rewrite !fmap_cons, IH. by rewrite (holds_seg_len _ _ _ Hs). Qed.

Lemma snapshot_lens : (seg_len <$> mv_segments mv) ++ [seg_len (mv_memtable mv)] = length <$> (abss ++ [absm]).
Proof using All.
  rewrite fmap_app, (holds_seg_lens _ _ _ (sn_segments _ _ _ Hmv)). simpl. by rewrite (holds_seg_len _ _ _ (sn_memtable _ _ _ Hmv)).
Qed.

Lemma match_title_collect_spec {C D} `{MatchCollector C} `{!QuietSink C} `{!OneStream C} `{DeadlineCheck D}
  (ib : bool) (emission : P) title s (c : C) (dl : D) :
  ARMED (D:=D) = false → scratch_ok s → @short_text (normalizer_analyzer (mv_norm mv)) title →
  emits_all emission (all_of abss absm) →
  ∃ s' view alias ids stats,
    match_title_collect mv ib emission title s c dl =
      Some (s', (finish (foldl (λ c lg, on_match lg c) (reset c) ids)).1,
            Some (finish_stats (finish (foldl (λ c lg, on_match lg c) (reset c) ids)).2 stats)) ∧
    scratch_ok s' ∧ title_view_of (mv_norm mv) (mv_dict mv) (mv_has_phrases mv) title (ms_alias s) = Some (view, alias) ∧
    ids ⊆+ answer view ib (mv_pred mv) emission (all_of abss absm) ∧
    (decided view (all_of abss absm) → ids ≡ₚ answer view ib (mv_pred mv) emission (all_of abss absm)).
Proof using All.
  intros Harm [He Hseen Hclear] Hshort Hem. destruct (sn_norm _ _ _ Hmv) as [ps Hn]. unfold match_title_collect.
  destruct (ensure_spec (ms_epoch s) (seg_len <$> mv_segments mv) (seg_len (mv_memtable mv)) (ms_seen s) Hseen) as (seen & -> & Hs & Hl).
  cbn [mbind option_bind]. destruct (next_epoch seen (ms_epoch s)) as [seen' e'] eqn:En.
  destruct (next_epoch_spec _ _ _ _ He Hs En) as (He' & Hs' & Hf & Hlen). rewrite quiet_stop.
  assert (check_now (deadline_new dl) = (deadline_new dl, false)) as -> by (unfold check_now; by rewrite Harm).
  destruct (title_view_of_spec (mv_norm mv) ps Hn (mv_dict mv) (sn_alias _ _ _ Hmv) (sn_names _ _ _ Hmv) (mv_has_phrases mv) title (ms_alias s) Hclear Hshort)
    as (view & alias & Ev & Hclear' & Hok & _). rewrite Ev. cbn [mbind option_bind].
  destruct (probe_sources_spec mv ib emission view e' (sn_dict _ _ _ Hmv) (sn_pred _ _ _ Hmv) Hok Harm abss absm
    (mkPass seen' (reset c) stats_default (deadline_new dl)) (sn_segments _ _ _ Hmv) (sn_memtable _ _ _ Hmv)) as (ps' & Ep & ids & Hc & Hsub & Hall).
  { apply Forall_forall. intros abs Ha q Hq. apply Hem. unfold all_of. apply elem_of_app in Ha as [Ha| ->%list_elem_of_singleton].
    - apply elem_of_app. left. apply list_elem_of_join. eauto.
    - apply elem_of_app. by right. }
  { intros j abs Hj. destruct (Hl j (length abs)) as (buf & Hb & Hle); [by rewrite snapshot_lens, list_lookup_fmap, Hj|].
    destruct (lookup_lt_is_Some_2 seen' j) as [buf' Hb'].
    { apply lookup_lt_Some in Hb. rewrite <-(length_fmap (length (A:=N)) seen'), Hlen, length_fmap. done. }
    exists buf'. simpl. split; [done|]. split; [|exact (Forall_lookup_1 _ _ _ _ Hf Hb')].
    assert ((length <$> seen') !! j = (length <$> seen) !! j) as E by by rewrite Hlen.
    rewrite !list_lookup_fmap, Hb, Hb' in E. simpl in E. injection E as ->. done. }
  rewrite Ep. cbn [mbind option_bind]. simpl in Hc. rewrite Hc. destruct (finish _) as [c' summary] eqn:Efin.
  eexists _, view, alias, ids, _. split; [rewrite Efin; reflexivity|]. split; [|done]. split; simpl; [done| |done].
  by eapply probe_sources_stamps in Ep.
Qed.

Lemma all_out_fold ids c : all_out (foldl (λ c lg, on_match lg c) c ids) = all_out c ++ ids.
Proof using Type.
  revert c. induction ids as [|lg ids IH]; intros c; cbn [foldl]; [by rewrite app_nil_r|]. rewrite IH. simpl. by rewrite <-app_assoc.
Qed.

Lemma match_title_spec (ib : bool) (emission : P) title s out :
  scratch_ok s → @short_text (normalizer_analyzer (mv_norm mv)) title → emits_all emission (all_of abss absm) →
  ∃ s' view alias ids stats,
    match_title_with_policy mv title s out ib mkNoDeadline emission = Some (s', ids, Some stats) ∧ scratch_ok s' ∧
    title_view_of (mv_norm mv) (mv_dict mv) (mv_has_phrases mv) title (ms_alias s) = Some (view, alias) ∧
    StronglySorted rlt ids ∧ stats matches = wrap32 (N.of_nat (length ids)) ∧
    ids ⊆ answer view ib (mv_pred mv) emission (all_of abss absm) ∧
    (decided view (all_of abss absm) → ids = sort_dedup (answer view ib (mv_pred mv) emission (all_of abss absm))).
Proof using All.
  intros Hs Hshort Hem.
  destruct (match_title_collect_spec (D:=NoDeadline) ib emission title s (mkAllCollector out 0) mkNoDeadline ltac:(done) Hs Hshort Hem)
    as (s' & view & alias & ids & stats & E & Hs' & Ev & Hsub & Hall).
  unfold match_title_with_policy. rewrite E. cbn [mbind option_bind finish AllCollector_collector all_finish fst snd all_out reset].
  rewrite all_out_fold. cbn [all_out all_reset app]. eexists s', view, alias, (sort_dedup ids), _. split; [reflexivity|]. split; [done|]. split; [exact Ev|].
  split; [apply sort_dedup_sorted|]. split; [done|]. split.
  - intros x. rewrite elem_of_sort_dedup. intros Hx. by eapply elem_of_submseteq.
  - intros Hd. apply sort_dedup_ext. intros x. by rewrite (Hall Hd).
Qed.

(** C4. Matching a snapshot returns exactly the matching queries.  For a snapshot
    of any number of base segments and a memtable, any earlier use of the
    scratch (the epoch may wrap, the buffers may have served other snapshots)
    and any title of fewer than 2^32 tokens: the match does not panic, the
    scratch is ready for the next one, and the ids returned are strictly
    increasing, each the id of some live, visible query stored in some segment
    that matches the title and passes the tag filter and the emission policy;
    they are all of those, unless the verifier gave up on a phrase search.
    Skipping a segment by its tag summary never changes the result. *)
Theorem snapshot_match_exact (ib : bool) (emission : P) title s out :
  scratch_ok s → @short_text (normalizer_analyzer (mv_norm mv)) title → emits_all emission (all_of abss absm) →
  ∃ s' view alias ids stats,
    match_title_with_policy mv title s out ib mkNoDeadline emission = Some (s', ids, Some stats) ∧ scratch_ok s' ∧
    title_view_of (mv_norm mv) (mv_dict mv) (mv_has_phrases mv) title (ms_alias s) = Some (view, alias) ∧
    StronglySorted rlt ids ∧ stats matches = wrap32 (N.of_nat (length ids)) ∧
    ids ⊆ answer view ib (mv_pred mv) emission (all_of abss absm) ∧
    (decided view (all_of abss absm) → ids = sort_dedup (answer view ib (mv_pred mv) emission (all_of abss absm))).
Proof using All. apply match_title_spec. Qed.

(** A cancelled match is empty, and every match leaves its scratch usable.
    Whatever the deadline does and whatever the collector is, the scratch after a
    match satisfies its invariant again (no stamp is above the epoch, the alias
    scratch is clear), whether the match finished, stopped early or was
    cancelled at any probe; and a cancelled match returns no id, not a part of
    the union. *)
Theorem cancelled_match_clean {D} `{DeadlineCheck D} (ib : bool) (emission : P) title s out (dl : D) s' out' res :
  scratch_ok s → @short_text (normalizer_analyzer (mv_norm mv)) title →
  match_title_with_policy mv title s out ib dl emission = Some (s', out', res) →
  scratch_ok s' ∧ (res = None → out' = []).
Proof using All.
  intros [He Hseen Hclear] Hshort. destruct (sn_norm _ _ _ Hmv) as [ps Hn]. unfold match_title_with_policy, match_title_collect.
  destruct (ensure_spec (ms_epoch s) (seg_len <$> mv_segments mv) (seg_len (mv_memtable mv)) (ms_seen s) Hseen) as (seen & -> & Hs & _).
  cbn [mbind option_bind]. destruct (next_epoch seen (ms_epoch s)) as [seen' e'] eqn:En.
  destruct (next_epoch_spec _ _ _ _ He Hs En) as (He' & Hs' & _ & _). cbn [should_stop AllCollector_sink plain_sink reset AllCollector_collector].
  destruct (check_now _) as [dl' []]; cbn [mbind option_bind]; [intros [= <- <- <-]; by split; [split|]|].
  destruct (title_view_of_spec (mv_norm mv) ps Hn (mv_dict mv) (sn_alias _ _ _ Hmv) (sn_names _ _ _ Hmv) (mv_has_phrases mv) title (ms_alias s) Hclear Hshort)
    as (view & alias & -> & Hclear' & _ & _). cbn [mbind option_bind].
  destruct (probe_sources _ _ _ _ _ _) as [[ps' c]|] eqn:Ep; cbn [mbind option_bind]; [|done].
  apply probe_sources_stamps in Ep; [|done].
  destruct c; [intros [= <- <- <-]; by split; [split|]|]. intros E. injection E as <- _ <-. by split; [split|].
Qed.

End snapshot.

(** ** A snapshot

    The sealed demonstration segment and a memtable with one query for "acme". *)

Definition demo_acme : Extracted := mkExtracted [0] [] [] 1 1 [] [] [] [].
Definition demo_memtable : Segment (list N) := default segment_new (snd <$> demo_add demo_acme [7] 80 segment_new).
Definition demo_absm : list StoredQuery := [mkStored demo_acme [7] 80 placement_standalone false true].
Definition demo_mv : MatchView (list rstring) (list N) :=
  mkMatchView demo_norm mask_demo [demo_seg] demo_memtable true true tag_empty.

Lemma demo_memtable_built : built mask_demo demo_memtable demo_absm.
Proof.
  eapply (demo_added demo_acme [7] 80 segment_new []); [apply built_new, mask_demo_wf|done| |by vm_compute..].
  split; by vm_compute.
Qed.

Lemma demo_mv_ok : snapshot_ok demo_mv [demo_abs] demo_absm.
Proof.
  split.
  - exact mask_demo_wf.
  - intros n class E. vm_compute in E. done.
  - exists demo_patterns. exact demo_norm_wf.
  - intros aw. exact (build_alias_wf demo_builder demo_norm aw demo_builder_wf demo_build demo_vocabulary_small).
  - repeat constructor. apply built_holds, demo_built.
  - apply built_holds, demo_memtable_built.
  - constructor.
Qed.

Lemma demo_acme_short : @short_text (normalizer_analyzer demo_norm) (str "acme").
Proof. apply N.leb_le. by vm_compute. Qed.

Lemma snapshot_match_exact_witness :
  ∃ s' stats, match_title_with_policy demo_mv (str "acme") scratch_new [5] false mkNoDeadline mkEmitAll = Some (s', [80], Some stats) ∧
    scratch_ok s'.
Proof.
  destruct (snapshot_match_exact demo_mv [demo_abs] demo_absm demo_mv_ok false mkEmitAll (str "acme") scratch_new [5]
    scratch_new_ok demo_acme_short ltac:(intros q _; by eexists)) as (s' & view & alias & ids & stats & E & Hs & _).
  assert ((λ r, r.1.2) <$> match_title_with_policy demo_mv (str "acme") scratch_new [5] false mkNoDeadline mkEmitAll = Some [80]) as K
    by by vm_compute.
  rewrite E in K. injection K as ->. exists s', stats. exact (conj E Hs).
Defined.

Lemma cancelled_match_clean_witness :
  ∃ s', match_title_with_policy demo_mv (str "acme") scratch_new [5] false (mkDeadlineAt 2 N.of_nat 0) mkEmitAll = Some (s', [], None) ∧
    scratch_ok s'.
Proof.
  assert ((λ r, bool_decide (r.2 = None)) <$> match_title_with_policy demo_mv (str "acme") scratch_new [5] false (mkDeadlineAt 2 N.of_nat 0) mkEmitAll
    = Some true) as K by by vm_compute.
  destruct (match_title_with_policy demo_mv (str "acme") scratch_new [5] false (mkDeadlineAt 2 N.of_nat 0) mkEmitAll)
    as [[[s' out'] res]|] eqn:E; [|done].
  destruct (cancelled_match_clean demo_mv [demo_abs] demo_absm demo_mv_ok false mkEmitAll (str "acme") scratch_new [5] (mkDeadlineAt 2 N.of_nat 0)
    s' out' res scratch_new_ok demo_acme_short E) as [Hs Hout].
  injection K as K%bool_decide_eq_true. simpl in K. subst res. rewrite (Hout eq_refl). exists s'. exact (conj eq_refl Hs).
Defined.
