(* ===== verification/Meaning.v ===== *)
(** * What a compiled query means

    A query is compiled once, against a dictionary that grows with it, and matched
    later against titles read under a larger dictionary.  The compiled query means
    what its text says under the later one: interning a text gives the ids that
    looking its names up gives from then on. *)

From Stdlib Require Import Btauto.
From S2P Require Import Prelude Util Text Dsl Dictionary Index Phrase Analyze Compile Extract.
From S2P Require Import View Predicate Ownership Tags Store.

(** ** Names keep their ids *)

Lemma later_id D d name id :
  dict_wf d → dict_wf D → names d `prefix_of` names D → name_map d !! name = Some id → get_or_synthetic D name = id.
Proof.
  intros Hwf HwfD [k Hk] Hid. apply (wf_map _ Hwf) in Hid. unfold get_or_synthetic.
  assert (name_map D !! name = Some id) as ->; [|done]. apply (wf_map _ HwfD). rewrite Hk. by apply lookup_app_l_Some.
Qed.

Lemma intern_id name k d : name_map (intern name k d).2 !! name = Some (intern name k d).1.
Proof. unfold intern. destruct (name_map d !! name) eqn:E; simpl; [done|]. by rewrite lookup_insert_eq. Qed.

(** What the text of a query says of a title, under the dictionary [d]. *)
Definition query_holds `{Analyzer} (d : Dict) (ast : Ast) (view : TitleView) : bool :=
  flat_meaning (λ w, compile_features_readonly w d) (λ f, bsearch_mem f (pos view)) (λ f, bsearch_mem f (neg view)) [] ast &&
  phrases_hold (clause_graphs d false ast) (clause_graphs d true ast) view.

Section meaning.
Context `{AnalyzerLaws} (D : Dict) (HD : dict_wf D) (HDroom : dict_room D).

(** The dictionary has become [D]. *)
#[local] Abbreviation before d := (names d `prefix_of` names D).

Lemma before_room d : before d → dict_room d.
Proof using HDroom. intros Hp%prefix_length. unfold dict_room in *. lia. Qed.

Lemma before_ext d d' : dict_ext d d' → before d' → before d.
Proof. intros [[k ->] _ _ _ _] Hp. etrans; [|exact Hp]. by exists k. Qed.

Lemma intern_later name k d : dict_wf d → before (intern name k d).2 → dict_wf (intern name k d).2 ∧ before d ∧ get_or_synthetic D name = (intern name k d).1.
Proof using HD HDroom.
  intros Hwf Hp. pose proof (before_room _ Hp) as Hr. pose proof (res_len _ _ resolve_intern_ok name k d) as Hl. unfold resolve_intern in Hl.
  destruct (intern_ext name k d Hwf) as (W & E & _); [unfold dict_room in *; lia|]. split_and!; [done|by eapply before_ext|].
  eapply (later_id D _ name); [exact W|done|done|apply intern_id].
Qed.

Lemma intern_all_later l d :
  dict_wf d → before (intern_all l d).2 → (intern_all l d).1 = get_or_synthetic D <$> l.*1 ∧ dict_wf (intern_all l d).2 ∧ dict_ext d (intern_all l d).2.
Proof using HD HDroom.
  intros Hwf Hp. pose proof (intern_all_spec l d Hwf (before_room _ Hp)) as (W & E & _). split_and!; [|done|done]. clear W E.
  revert d Hwf Hp. induction l as [|[name k] l IH]; intros d Hwf Hp; simpl in *; [done|].
  pose proof (intern_later name k d Hwf) as Hi. pose proof (intern_ext name k d Hwf) as He. pose proof (res_len _ _ resolve_intern_ok name k d) as Hl.
  unfold resolve_intern in Hl. destruct (intern name k d) as [id d1]. pose proof (intern_all_len l d1) as Hl1. specialize (IH d1).
  pose proof (intern_all_spec l d1) as Hs. destruct (intern_all l d1) as [ids d2]. simpl in *. pose proof (before_room _ Hp) as Hr.
  destruct He as (W & _ & _); [unfold dict_room in *; lia|]. destruct (Hs W Hr) as (_ & E2 & _).
  destruct Hi as (_ & _ & ->); [by eapply before_ext|]. by rewrite IH.
Qed.

Lemma features_later text d :
  dict_wf d → before (compile_features text d).2 → compile_features_readonly text D = (compile_features text d).1 ∧
    dict_wf (compile_features text d).2 ∧ dict_ext d (compile_features text d).2.
Proof using HD HDroom.
  intros Hwf. unfold compile_features, compile_features_readonly. pose proof (intern_all_later (emit Query false text) d Hwf) as Hi.
  destruct (intern_all _ d) as [ids d1]. simpl in *. intros Hp. destruct (Hi Hp) as (-> & W & E). done.
Qed.

(** ** Phrases *)

Lemma arcs_later emitted d :
  dict_wf d → before (resolve_arcs resolve_intern emitted d).2 → resolve_arcs resolve_readonly emitted D = ((resolve_arcs resolve_intern emitted d).1, D).
Proof using HD HDroom.
  revert d. induction emitted as [|[[[name k] s] e] l IH]; intros d Hwf Hp; simpl in *; [done|]. unfold resolve_intern in *.
  pose proof (intern_later name k d Hwf) as Hi. pose proof (intern_ext name k d Hwf) as He. pose proof (res_len _ _ resolve_intern_ok name k d) as Hl.
  unfold resolve_intern in Hl. destruct (intern name k d) as [id d1]. pose proof (resolve_arcs_len _ _ resolve_intern_ok l d1) as Hl1. specialize (IH d1).
  pose proof (resolve_arcs_spec _ _ resolve_intern_ok l d1) as Hs. unfold resolve_intern in *. destruct (resolve_arcs intern l d1) as [out d2]. simpl in *. pose proof (before_room _ Hp) as Hr.
  destruct He as (W & _ & _); [unfold dict_room in *; lia|]. destruct (Hs W Hr) as (_ & E2 & _).
  destruct Hi as (_ & _ & ->); [by eapply before_ext|]. by rewrite IH.
Qed.

Lemma holes_ext n i cov delta toks out d out' d' :
  fill_holes resolve_intern n i cov delta toks out d = Some (out', d') → dict_wf d → dict_room d' → dict_wf d' ∧ dict_ext d d'.
Proof.
  revert i cov out d. induction n as [|n IH]; intros i cov out d; simpl; [by intros [= <- <-]|].
  destruct (delta !! i); simpl; [|done]. case_match; [apply IH|]. destruct (toks !! i) as [tok|]; simpl; [|done]. unfold resolve_intern at 1.
  intros E Hwf Hr. pose proof (intern_ext (str "term:" ++ tok) Generic d Hwf) as He. pose proof (res_len _ _ resolve_intern_ok (str "term:" ++ tok) Generic d) as Hl.
  unfold resolve_intern in Hl. destruct (intern _ _ _) as [f d1]. pose proof (fill_holes_len _ _ resolve_intern_ok _ _ _ _ _ _ _ _ _ E) as Hl1. simpl in *.
  destruct He as (W & E1 & _); [unfold dict_room in *; lia|]. destruct (IH _ _ _ _ E W Hr) as [W2 E2]. split; [done|by etrans].
Qed.

Lemma holes_later n i cov delta toks out d out' d' :
  fill_holes resolve_intern n i cov delta toks out d = Some (out', d') → dict_wf d → before d' →
  fill_holes resolve_readonly n i cov delta toks out D = Some (out', D).
Proof using HD HDroom.
  revert i cov out d. induction n as [|n IH]; intros i cov out d; simpl; [by intros [= <- <-]|].
  destruct (delta !! i); simpl; [|done]. case_match; [apply IH|]. destruct (toks !! i) as [tok|]; simpl; [|done]. unfold resolve_intern at 1.
  intros E Hwf Hp. pose proof (intern_later (str "term:" ++ tok) Generic d Hwf) as Hi. pose proof (intern_ext (str "term:" ++ tok) Generic d Hwf) as He.
  pose proof (res_len _ _ resolve_intern_ok (str "term:" ++ tok) Generic d) as Hl. unfold resolve_intern in Hl. destruct (intern _ _ _) as [f d1]. simpl in *.
  pose proof (fill_holes_len _ _ resolve_intern_ok _ _ _ _ _ _ _ _ _ E) as Hl1. pose proof (before_room _ Hp) as Hr.
  destruct He as (W & E1 & _); [unfold dict_room in *; lia|]. destruct (holes_ext _ _ _ _ _ _ _ _ _ E W Hr) as [_ E2].
  destruct Hi as (_ & _ & ->); [by eapply before_ext|]. by eapply IH.
Qed.

Lemma phrase_later text d g d' :
  compile_phrase text d = Some (g, d') → dict_wf d → before d' → compile_phrase_readonly text D = Some g.
Proof using HD HDroom.
  unfold compile_phrase, compile_phrase_readonly, analyze_position_arcs. intros E Hwf Hp.
  pose proof (arcs_later (emit_positioned Query false text) d Hwf) as Ha. pose proof (resolve_arcs_spec _ _ resolve_intern_ok (emit_positioned Query false text) d Hwf) as Hs.
  destruct (resolve_arcs resolve_intern _ d) as [out d1]. simpl in *. destruct (coverage_delta _ out _) as [delta|] eqn:Ed; [|done]. simpl in *.
  destruct (fill_holes resolve_intern _ _ _ _ _ _ _) as [[out' d2]|] eqn:Ef; [|done]. simpl in E. injection E as <- <-.
  pose proof (fill_holes_len _ _ resolve_intern_ok _ _ _ _ _ _ _ _ _ Ef) as Hl. pose proof (before_room _ Hp) as Hr.
  destruct Hs as (W & _ & _); [unfold dict_room in *; lia|]. destruct (holes_ext _ _ _ _ _ _ _ _ _ Ef W Hr) as [_ E2].
  rewrite Ha by by eapply before_ext. cbn. rewrite Ed. cbn. by rewrite (holes_later _ _ _ _ _ _ _ _ _ Ef W Hp).
Qed.

(** ** Extraction *)

(** Accumulators that stand for the same query; the proxies of an any-of may
    differ, since they depend on the frequencies. *)
Record alike (acc acc' : Acc) : Prop := {
  al_words : a_words acc' = a_words acc;
  al_required : a_rphrases acc' = a_rphrases acc;
  al_forbidden : a_fphrases acc' = a_fphrases acc;
  al_flat in_pos in_neg : acc_flat in_pos in_neg acc' = acc_flat in_pos in_neg acc;
}.

Lemma push_forbidden_alike fs acc acc' : alike acc acc' → alike (push_forbidden_term fs acc) (push_forbidden_term fs acc').
Proof.
  intros []. destruct (forbidden_term_frame fs acc) as (F1 & F2 & F3), (forbidden_term_frame fs acc') as (F1' & F2' & F3').
  split; [congruence..|]. intros ip ig. by rewrite !push_forbidden_term_flat, al_flat0.
Qed.

Lemma push_phrase_alike neg g acc acc' : alike acc acc' → alike (push_phrase neg g acc) (push_phrase neg g acc').
Proof.
  intros []. destruct (push_phrase_frame (λ _, true) (λ _, true) neg g acc) as (F1 & _ & F3 & F4), (push_phrase_frame (λ _, true) (λ _, true) neg g acc') as (F1' & _ & F3' & F4').
  split; [congruence..|]. intros ip ig. destruct (push_phrase_frame ip ig neg g acc) as (_ & -> & _), (push_phrase_frame ip ig neg g acc') as (_ & -> & _). done.
Qed.

Lemma push_anyof_alike members acc acc' d d' : Forall plain_member members → alike acc acc' → alike (push_anyof members acc d) (push_anyof members acc' d').
Proof.
  intros Hpl []. destruct (push_anyof_frame d members acc) as (F1 & F2 & F3), (push_anyof_frame d' members acc') as (F1' & F2' & F3').
  split; [congruence..|]. intros ip ig. by rewrite !push_anyof_flat, al_flat0.
Qed.

Lemma flush_alike acc acc' d :
  alike acc acc' → dict_wf d → before (flush_positive_run interning acc d).2 →
  ∃ acc1, flush_positive_run readonly acc' D = (acc1, D) ∧ alike (flush_positive_run interning acc d).1 acc1.
Proof using HD HDroom.
  intros Ha Hwf. pose proof Ha as []. unfold flush_positive_run. rewrite al_words0. destruct (a_words acc) as [|w ws] eqn:Ew; [by exists acc'|].
  cbn [c_features interning readonly]. pose proof (features_later (join [SPACE] (w :: ws)) d Hwf) as Hf.
  destruct (compile_features _ d) as [fs d1]. simpl in *. intros Hp. destruct (Hf Hp) as (-> & _). eexists. split; [done|]. split; [done..|].
  intros ip ig. specialize (al_flat0 ip ig). unfold acc_flat in *. cbn [a_required a_forbidden a_anyof a_preds a_conjs]. rewrite !forallb_app.
  transitivity (forallb ip (a_required acc') && negb (existsb ig (a_forbidden acc')) && forallb (existsb ip) (a_anyof acc') &&
    forallb (predicate_matches ip) (a_preds acc') && negb (existsb (forallb ig) (a_conjs acc')) && forallb ip fs); [btauto|]. rewrite al_flat0. btauto.
Qed.

Lemma forbidden_members_alike ms acc acc' d :
  alike acc acc' → acc_ok interned d acc → dict_wf d → before (forbidden_members interning ms acc d).2 →
  ∃ acc1, forbidden_members readonly ms acc' D = (acc1, D) ∧ alike (forbidden_members interning ms acc d).1 acc1.
Proof using All.
  revert acc acc' d. induction ms as [|m ms IH]; intros acc acc' d Ha Hacc Hwf; simpl; [by exists acc'|]. intros Hp.
  pose proof (features_later m d Hwf) as Hf. pose proof (forbidden_term_step _ _ _ interning_ok m acc d) as [_ Hstep]. cbn [c_features interning] in *.
  destruct (compile_features m d) as [fs d1]. simpl in *. pose proof (before_room _ Hp) as Hr.
  destruct (forbidden_members_ok _ _ _ interning_ok ms (push_forbidden_term fs acc) d1) as [Hl Hs]. destruct (Hstep Hwf Hacc) as (W & E & A); [unfold dict_room in *; lia|].
  destruct (Hs W A Hr) as (_ & E2 & _). destruct (Hf (before_ext _ _ E2 Hp)) as (-> & _). apply IH; [by apply push_forbidden_alike|done..].
Qed.

Lemma semantic_members_later ms d :
  dict_wf d → before (semantic_members interning ms d).2 →
  (semantic_members interning ms d).1 = omap (λ m, member_from_features (compile_features_readonly m D)) ms.
Proof using All.
  revert d. induction ms as [|m ms IH]; intros d Hwf; simpl; [done|]. pose proof (features_later m d Hwf) as Hf.
  pose proof (cp_features _ _ _ interning_ok m d Hwf) as Hc. cbn [c_features interning] in *. destruct (compile_features m d) as [fs d1]. simpl in *.
  pose proof (semantic_members_ok _ _ _ interning_ok ms d1) as Hs. specialize (IH d1). destruct (semantic_members interning ms d1) as [out d2]. simpl in *. intros Hp.
  pose proof (before_room _ Hp) as Hr. destruct Hs as (Hl & _ & Hs). destruct Hc as (W & _); [unfold dict_room in *; lia|]. destruct (Hs W Hr) as (_ & E2 & _).
  destruct (Hf (before_ext _ _ E2 Hp)) as (-> & _). rewrite (IH W Hp). by destruct (member_from_features fs).
Qed.

(** The pending words are flushed before the clause. *)
Lemma after_flush acc acc' d accf df d1 :
  flush_positive_run interning acc d = (accf, df) → alike acc acc' → acc_ok interned d acc → dict_wf d → before d1 →
  (length (names df) ≤ length (names d1))%nat → (dict_wf df → dict_room d1 → dict_ext df d1) →
  dict_wf df ∧ acc_ok interned df accf ∧ ∃ accf', flush_positive_run readonly acc' D = (accf', D) ∧ alike accf accf'.
Proof using All.
  intros E Ha Hacc Hwf Hp Hl Hext. pose proof (before_room _ Hp) as Hr. pose proof (flush_ok _ _ _ interning_ok acc d) as [_ Hstep].
  pose proof (flush_alike acc acc' d Ha Hwf) as Hfl. rewrite E in *. simpl in *. destruct (Hstep Hwf Hacc) as (W & _ & A); [unfold dict_room in *; lia|].
  split_and!; [done|done|]. eapply Hfl, before_ext; [by apply Hext|done].
Qed.

Lemma extract_clause_alike cl acc acc' d acc1 d1 :
  extract_clause interning cl acc d = Some (acc1, d1) → quoted_ok short_text cl → alike acc acc' → acc_ok interned d acc → dict_wf d → before d1 →
  ∃ acc2, extract_clause readonly cl acc' D = Some (acc2, D) ∧ alike acc1 acc2.
Proof using All.
  intros E Hq Ha Hacc Hwf Hp. unfold extract_clause in *. unfold quoted_ok in Hq. pose proof (before_room _ Hp) as Hr.
  destruct (flush_positive_run interning acc d) as [accf df] eqn:Ef. pose proof (λ d1, after_flush acc acc' d accf df d1 Ef Ha Hacc Hwf) as Hfl.
  assert (∀ neg w, short_text w → ('(g, d2) ← c_phrase interning w df; Some (push_phrase neg g accf, d2)) = Some (acc1, d1) →
    ∃ acc2, (let '(acc0, d0) := flush_positive_run readonly acc' D in '(g, d2) ← c_phrase readonly w d0; Some (push_phrase neg g acc0, d2)) = Some (acc2, D) ∧ alike acc1 acc2) as Hphr.
  { intros neg w Hw Ew. destruct (cp_phrase _ _ _ interning_ok w df Hw) as (g & d2 & Eg & Hl & Hs). rewrite Eg in Ew. injection Ew as <- <-.
    destruct (Hfl _ Hp Hl) as (W & _ & accf' & -> & Ha'); [intros; by apply Hs|]. cbn [c_phrase readonly interning] in *. rewrite (phrase_later _ _ _ _ Eg W Hp).
    eexists. split; [done|]. by apply push_phrase_alike. }
  destruct (atom cl) as [w|w|ms], (negated cl).
  - pose proof (features_later w df) as Hf. pose proof (cp_features_len _ _ _ interning_ok w df) as Hl. pose proof (cp_features _ _ _ interning_ok w df) as Hc.
    cbn [c_features interning readonly] in *. destruct (compile_features w df) as [fs d2]. simpl in *. injection E as <- <-.
    destruct (Hfl _ Hp Hl) as (W & _ & accf' & -> & Ha'); [intros; by apply Hc|]. destruct (Hf W Hp) as (-> & _). eexists. split; [done|]. by apply push_forbidden_alike.
  - injection E as <- <-. eexists. split; [done|]. destruct Ha. split; try done. cbn. by rewrite al_words0.
  - by apply Hphr.
  - by apply Hphr.
  - injection E as E. pose proof (forbidden_members_ok _ _ _ interning_ok ms accf df) as [Hl Hs]. rewrite E in *. simpl in *.
    assert (acc_ok interned df accf) as A.
    { pose proof (flush_ok _ _ _ interning_ok acc d) as [_ Hstep]. rewrite Ef in Hstep. apply Hstep; [done|done|unfold dict_room in *; cbn in *; lia]. }
    destruct (Hfl _ Hp Hl) as (W & _ & accf' & -> & Ha'); [intros; by apply Hs|]. pose proof (forbidden_members_alike ms accf accf' df Ha' A W) as Hm. rewrite E in Hm.
    destruct (Hm Hp) as (acc2 & -> & Ha2). by exists acc2.
  - pose proof (semantic_members_ok _ _ _ interning_ok ms df) as Hs. pose proof (semantic_members_later ms df) as Hm.
    destruct (semantic_members interning ms df) as [members d2]. simpl in *. injection E as <- <-. destruct Hs as (Hl & Hpl & Hs).
    destruct (Hfl _ Hp Hl) as (W & _ & accf' & -> & Ha'); [intros; by apply Hs|]. rewrite semantic_members_readonly, <-(Hm W Hp).
    eexists. split; [done|]. apply push_anyof_alike; [|done]. apply Forall_forall. intros m Hin. rewrite elem_of_sort_dedup in Hin. rewrite Forall_forall in Hpl. auto.
Qed.

Lemma extract_clauses_alike cls acc acc' d acc1 d1 :
  extract_clauses interning cls acc d = Some (acc1, d1) → Forall (quoted_ok short_text) cls → alike acc acc' → acc_ok interned d acc → dict_wf d → before d1 →
  ∃ acc2, extract_clauses readonly cls acc' D = Some (acc2, D) ∧ alike acc1 acc2.
Proof using All.
  intros E Hq. revert acc acc' d E. induction Hq as [|cl cls Hcl Hq IH]; intros acc acc' d E Ha Hacc Hwf Hp; cbn [extract_clauses] in *.
  { pose proof (flush_alike acc acc' d Ha Hwf) as Hf. injection E as E. rewrite E in Hf. destruct (Hf Hp) as (acc2 & -> & Ha2). by exists acc2. }
  destruct (extract_clause_ok _ _ _ interning_ok cl acc d Hcl) as ([accm dm] & Em & [_ Hs]). rewrite Em in E. cbn in E.
  destruct (extract_clauses_ok _ _ _ interning_ok cls accm dm Hq) as ([acc0 d0] & E0 & [Hl Hs0]). pose proof E as E'. rewrite E0 in E'. injection E' as -> ->. simpl in *.
  pose proof (before_room _ Hp) as Hr. destruct (Hs Hwf Hacc) as (W & _ & A); [unfold dict_room in *; lia|]. destruct (Hs0 W A Hr) as (_ & E2 & _).
  destruct (extract_clause_alike _ _ _ _ _ _ Em Hcl Ha Hacc Hwf (before_ext _ _ E2 Hp)) as (accm' & -> & Ham). cbn. by eapply IH.
Qed.

(** ** The meaning of a query under the later dictionary *)

(** A compiled query tests the flat part and the phrases. *)
Lemma query_flat_and_phrases ex view :
  query_matches ex view = flat_matches (λ f, bsearch_mem f (pos view)) (λ f, bsearch_mem f (neg view)) ex &&
    phrases_hold (required_phrases ex) (forbidden_phrases ex) view.
Proof.
  unfold query_matches, compound_holds, flat_matches. assert (∀ l, forallb (λ c, negb (forallb (λ f, bsearch_mem f (neg view)) c)) l =
    negb (existsb (forallb (λ f, bsearch_mem f (neg view))) l)) as E by (induction l as [|c l IH]; simpl; [done|]; rewrite IH; btauto). rewrite E. btauto.
Qed.

Lemma phrases_hold_canonical req forb view :
  Forall phrase_canonical req → Forall phrase_canonical forb →
  phrases_hold (canonicalize_phrases req) (canonicalize_phrases forb) view = phrases_hold req forb view.
Proof. intros Hr Hf. unfold phrases_hold. destruct (view_graphs view) as [[pg ng]|]; [|done]. by rewrite !canonicalize_phrases_forallb. Qed.

Lemma extract_holds ast d ex d' :
  dict_wf d → Forall (quoted_ok short_text) ast → (∀ acc d1, extract_clauses interning ast acc_new d = Some (acc, d1) → dict_room d1) →
  equivalences d = ∅ → extract ast d = Some (ex, d') → before d' →
  (∀ view, query_matches ex view = query_holds D ast view) ∧ required_phrases ex ⊆ clause_graphs D false ast.
Proof using All.
  intros Hwf Hq Hroom Heq E Hp. destruct (extract_ok ast d Hwf Hq Hroom) as (acc & d1 & d2 & E1 & E2 & Hacc & _ & _ & Hn & _).
  rewrite E in E2. injection E2 as -> ->. rewrite Heq, expand_equivalences_alt, decide_True by done. pose proof (acc_ok_wf _ _ _ Hacc) as Hwfx.
  destruct (extract_clauses_alike ast acc_new acc_new d acc d1 E1 Hq) as (acc2 & E3 & [_ Er Ef Hfl]); [done|apply acc_new_ok|done|by rewrite <-Hn|].
  split.
  2:{ destruct (extract_clauses_meaning D (λ _, true) (λ _, true) ast acc_new acc2 D E3) as (_ & _ & Hr & _). cbn in Hr. rewrite <-Hr, Er. cbn.
      apply canonical_phrases_subset, Hwfx. }
  intros view. set (ip := λ f, bsearch_mem f (pos view)). set (ig := λ f, bsearch_mem f (neg view)).
  destruct (extract_clauses_meaning D ip ig ast acc_new acc2 D E3) as (_ & Hm & Hr & Hf). cbn in Hr, Hf.
  rewrite query_flat_and_phrases, flat_matches_canonicalize, acc_flat_extracted by done. cbn [required_phrases forbidden_phrases canonicalize acc_extracted].
  rewrite phrases_hold_canonical by apply Hwfx. unfold query_holds. fold ip ig. rewrite <-Hr, <-Hf, Er, Ef, <-Hfl, Hm. done.
Qed.

End meaning.
