(* ===== verification/Recompile.v ===== *)
(** * Compiling a query again

    Recovery compiles the text of a logged query again, under another dictionary
    than the one it was accepted under.  The ids and the anchors differ; what must
    not differ is whether the query is accepted.  The gate rejects a query without
    positive anchors (class D), so it depends on which parts of the compiled query
    are empty.  These are computed here from the syntax alone. *)

From Stdlib Require Import Btauto.
From S2P Require Import Prelude Util Text Dsl Dictionary Index Phrase Clean Analyze Compile Plan Extract.
From S2P Require Import View Predicate Ownership Tags Store Segment Meaning.

(** ** The parts of a query that are not empty *)

Record Shape := mkShape {
  sh_positive : bool;
  sh_negative : bool;
  sh_required_phrase : bool;
  sh_forbidden_phrase : bool;
  sh_words : list rstring;
}.

Definition shape (acc : Acc) : Shape :=
  mkShape (nonempty (a_required acc) || nonempty (a_anyof acc)) (nonempty (a_forbidden acc) || nonempty (a_conjs acc))
    (nonempty (a_rphrases acc)) (nonempty (a_fphrases acc)) (a_words acc).

Section shape.
Context `{Analyzer}.

(** A text with features; a quoted text with tokens. *)
Definition featured (w : rstring) : bool := nonempty (emit Query false w).
Definition has_tokens (w : rstring) : bool := negb (position_index (length (tokens w)) =? 0).

Definition shape_flush (sh : Shape) : Shape :=
  match sh_words sh with
  | [] => sh
  | words => mkShape (sh_positive sh || featured (join [SPACE] words)) (sh_negative sh) (sh_required_phrase sh) (sh_forbidden_phrase sh) []
  end.

Definition shape_clause (cl : Clause) (sh : Shape) : Shape :=
  match atom cl, negated cl with
  | Term w, false => mkShape (sh_positive sh) (sh_negative sh) (sh_required_phrase sh) (sh_forbidden_phrase sh) (sh_words sh ++ [w])
  | at_, neg =>
      let sh := shape_flush sh in
      let '(mkShape p n r f ws) := sh in
      match at_, neg with
      | Term w, _ => mkShape p (n || featured w) r f ws
      | Phrase w, false => mkShape p n (r || has_tokens w) f ws
      | Phrase w, true => mkShape p n r (f || has_tokens w) ws
      | AnyOf ms, false => mkShape (p || existsb featured ms) n r f ws
      | AnyOf ms, true => mkShape p (n || existsb featured ms) r f ws
      end
  end.

Definition shape_clauses (cls : list Clause) (sh : Shape) : Shape := shape_flush (foldl (λ sh cl, shape_clause cl sh) sh cls).

Definition query_shape (ast : Ast) : Shape := shape_clauses ast (shape acc_new).

(** The query has no positive part; it has a negative part. *)
Definition universal (ast : Ast) : bool := negb (sh_positive (query_shape ast)) && negb (sh_required_phrase (query_shape ast)).
Definition negative (ast : Ast) : bool := sh_negative (query_shape ast) || sh_forbidden_phrase (query_shape ast).

(** The gate's decision, by the syntax. *)
Definition refused (ast : Ast) (accept : bool) : bool := universal ast && (negb accept || negb (negative ast)).

End shape.

Lemma nonempty_app {A} (l k : list A) : nonempty (l ++ k) = nonempty l || nonempty k.
Proof. by destruct l, k. Qed.

Lemma nonempty_nil {A} : nonempty ([] : list A) = false.
Proof. done. Qed.

Lemma nonempty_cons {A} (x : A) l : nonempty (x :: l) = true.
Proof. done. Qed.

Lemma nonempty_existsb {A} (l : list A) : nonempty l = existsb (λ _, true) l.
Proof. by destruct l. Qed.

Lemma nonempty_sort_dedup `{RustOrdLaws A} `{!EqDecision A} (l : list A) : nonempty (sort_dedup l) = nonempty l.
Proof. apply eq_true_iff_eq. by rewrite !nonempty_true, sort_dedup_nil. Qed.

Ltac fields :=
  cbn [sh_positive sh_negative sh_required_phrase sh_forbidden_phrase sh_words
       a_required a_forbidden a_anyof a_groups a_terms a_preds a_conjs a_rphrases a_fphrases a_words];
  rewrite ?nonempty_app; rewrite ?nonempty_nil; rewrite ?nonempty_cons.

Section recompile.
Context `{AnalyzerLaws}.

(** ** Extraction has the shape of the syntax *)

Lemma intern_all_length l d : length (intern_all l d).1 = length l.
Proof.
  revert d. induction l as [|[name k] l IH]; intros d; simpl; [done|]. destruct (intern name k d) as [id d1].
  specialize (IH d1). destruct (intern_all l d1). simpl in *. by rewrite IH.
Qed.

Lemma features_nonempty w d : nonempty (c_features interning w d).1 = featured w.
Proof.
  simpl. unfold compile_features, featured. pose proof (intern_all_length (emit Query false w) d) as Hl.
  destruct (intern_all _ d) as [ids d1]. simpl in *. rewrite nonempty_sort_dedup. by destruct ids, (emit Query false w).
Qed.

Lemma flush_shape acc d : shape (flush_positive_run interning acc d).1 = shape_flush (shape acc).
Proof.
  unfold flush_positive_run, shape_flush. destruct (a_words acc) as [|w ws] eqn:E; cbn [sh_words shape]; rewrite E; [done|].
  pose proof (features_nonempty (join [SPACE] (w :: ws)) d) as Hf. destruct (c_features _ _ _) as [fs d']. simpl fst in *.
  unfold shape. fields. rewrite ?nonempty_app, Hf. f_equal. btauto.
Qed.

Lemma forbidden_term_shape fs acc :
  shape (push_forbidden_term fs acc) =
    mkShape (sh_positive (shape acc)) (sh_negative (shape acc) || nonempty fs) (sh_required_phrase (shape acc))
      (sh_forbidden_phrase (shape acc)) (sh_words (shape acc)).
Proof.
  rewrite <-(nonempty_sort_dedup fs). unfold push_forbidden_term. destruct (sort_dedup fs) as [|f [|g l]]; unfold shape; fields; f_equal; btauto.
Qed.

Lemma forbidden_members_shape ms acc d :
  shape (forbidden_members interning ms acc d).1 =
    mkShape (sh_positive (shape acc)) (sh_negative (shape acc) || existsb featured ms) (sh_required_phrase (shape acc))
      (sh_forbidden_phrase (shape acc)) (sh_words (shape acc)).
Proof.
  revert acc d. induction ms as [|m ms IH]; intros acc d; cbn [forbidden_members existsb].
  { by rewrite orb_false_r. }
  pose proof (features_nonempty m d) as Hf. destruct (c_features _ _ _) as [fs d']. simpl fst in Hf.
  rewrite IH, forbidden_term_shape, Hf. fields. f_equal. btauto.
Qed.

Lemma semantic_members_shape ms d : nonempty (semantic_members interning ms d).1 = existsb featured ms.
Proof.
  revert d. induction ms as [|m ms IH]; intros d; cbn [semantic_members existsb]; [done|].
  pose proof (features_nonempty m d) as Hf. destruct (c_features _ _ _) as [fs d1]. simpl fst in Hf. specialize (IH d1).
  destruct (semantic_members _ ms d1) as [out d2]. simpl in *. rewrite <-Hf.
  destruct (member_from_features fs) eqn:E.
  - destruct fs; [|done]. by rewrite (proj2 (member_from_features_None [])) in E.
  - apply member_from_features_None in E as ->. done.
Qed.

Lemma anyof_shape members acc d :
  Forall plain_member members →
  shape (push_anyof members acc d) =
    mkShape (sh_positive (shape acc) || nonempty members) (sh_negative (shape acc)) (sh_required_phrase (shape acc))
      (sh_forbidden_phrase (shape acc)) (sh_words (shape acc)).
Proof.
  intros Hpl. unfold push_anyof. destruct members as [|m [|m' ms]].
  - by rewrite nonempty_nil, orb_false_r.
  - apply Forall_inv in Hpl as (fs & Hne & E). unfold shape. fields. rewrite ?nonempty_app, E, singletons_join.
    destruct fs; [done|]. f_equal. fields. btauto.
  - destruct (plain_member_proxy d m) as (f & Hf & _); [by apply Forall_inv in Hpl|].
    assert (nonempty (sort_dedup (omap (member_proxy d) (m :: m' :: ms))) = true) as Hp.
    { rewrite nonempty_sort_dedup. cbn [omap list_omap]. by rewrite Hf. }
    rewrite Hp. unfold shape. fields. f_equal. btauto.
Qed.

Lemma phrase_shape neg g acc :
  shape (push_phrase neg g acc) =
    mkShape (sh_positive (shape acc)) (sh_negative (shape acc)) (sh_required_phrase (shape acc) || (negb neg && nonempty (arcs g)))
      (sh_forbidden_phrase (shape acc) || (neg && nonempty (arcs g))) (sh_words (shape acc)).
Proof.
  unfold push_phrase, shape. destruct (nonempty (arcs g)), neg; fields; f_equal; btauto.
Qed.

Lemma compiled_phrase_arcs w d g d' :
  short_text w → dict_wf d → dict_room d' → c_phrase interning w d = Some (g, d') → nonempty (arcs g) = has_tokens w.
Proof.
  intros Hs Hwf Hr. simpl. unfold compile_phrase, has_tokens.
  destruct (analyze_spec resolve_intern _ Query false w d resolve_intern_ok Hs) as (pos & out & d1 & -> & _ & Ha).
  intros [= <- ->]. destruct (Ha Hwf Hr) as ([-> _ Hsp Hcov] & _).
  destruct (phrase_graph_spec (position_index (length (tokens w))) out) as (_ & _ & Hcanon).
  destruct (N.eqb_spec (position_index (length (tokens w))) 0) as [E|E]; simpl negb.
  - destruct out as [|a out]; [done|]. apply Forall_inv in Hsp. lia.
  - apply nonempty_true. apply Hcanon; [done| |done]. intros ->. destruct (Hcov O) as (a & Ha' & _); [lia|].
    by apply not_elem_of_nil in Ha'.
Qed.

Lemma extract_clause_shape cl acc d r :
  quoted_ok short_text cl → dict_wf d → acc_ok interned d acc → dict_room r.2 →
  extract_clause interning cl acc d = Some r → shape r.1 = shape_clause cl (shape acc).
Proof.
  intros Hq Hwf Hacc Hr. unfold quoted_ok in Hq. unfold extract_clause, shape_clause.
  pose proof (flush_shape acc d) as Hf. destruct (flush_ok interning short_text interned interning_ok acc d) as [_ Hfl].
  assert (∀ d1, (length (names d1) ≤ length (names r.2))%nat → dict_room d1) as Hmid by (intros d1 Hl; by eapply room_mid).
  destruct (atom cl) as [w|w|ms], (negated cl);
    try (destruct (flush_positive_run interning acc d) as [acc1 d1]; cbn [fst snd] in Hf, Hfl; rewrite <-Hf).
  - pose proof (features_nonempty w d1) as Hn. destruct (c_features _ w d1) as [fs d2]. cbn [fst] in Hn.
    intros [= <-]. cbn [fst]. rewrite forbidden_term_shape, Hn. by destruct (shape acc1).
  - intros [= <-]. done.
  - destruct (cp_phrase _ _ _ interning_ok w d1 Hq) as (g & d2 & E & Hl & _). rewrite E. intros [= <-]. cbn [fst snd] in *.
    destruct (Hfl Hwf Hacc (Hmid _ Hl)) as (Hwf1 & _). rewrite phrase_shape, (compiled_phrase_arcs w d1 g d2 Hq Hwf1 Hr E).
    cbn [negb andb]. rewrite orb_false_r. by destruct (shape acc1).
  - destruct (cp_phrase _ _ _ interning_ok w d1 Hq) as (g & d2 & E & Hl & _). rewrite E. intros [= <-]. cbn [fst snd] in *.
    destruct (Hfl Hwf Hacc (Hmid _ Hl)) as (Hwf1 & _). rewrite phrase_shape, (compiled_phrase_arcs w d1 g d2 Hq Hwf1 Hr E).
    cbn [negb andb]. rewrite orb_false_r. by destruct (shape acc1).
  - intros [= <-]. rewrite forbidden_members_shape. by destruct (shape acc1).
  - pose proof (semantic_members_shape ms d1) as Hn. pose proof (semantic_members_ok interning short_text interned interning_ok ms d1) as Hpl.
    destruct (semantic_members _ ms d1) as [members d2]. cbn [fst] in Hn. destruct Hpl as (_ & Hpl & _).
    intros [= <-]. cbn [fst]. rewrite anyof_shape, nonempty_sort_dedup, Hn; [by destruct (shape acc1)|].
    apply Forall_forall. intros m Hm. rewrite elem_of_sort_dedup in Hm. rewrite Forall_forall in Hpl. auto.
Qed.

Lemma extract_clauses_shape cls acc d r :
  Forall (quoted_ok short_text) cls → dict_wf d → acc_ok interned d acc → dict_room r.2 →
  extract_clauses interning cls acc d = Some r → shape r.1 = shape_clauses cls (shape acc).
Proof.
  intros Hq. unfold shape_clauses. revert acc d. induction Hq as [|cl cls Hcl Hq IH]; intros acc d Hwf Hacc Hr; cbn [extract_clauses foldl].
  { intros [= <-]. apply flush_shape. }
  destruct (extract_clause_ok interning short_text interned interning_ok cl acc d Hcl) as ([acc1 d1] & E & Hs).
  destruct (extract_clauses_ok interning short_text interned interning_ok cls acc1 d1 Hq) as (r' & E' & Hs').
  rewrite E. cbn [mbind option_bind]. intros Er. assert (r' = r) as -> by congruence. clear E'.
  assert (dict_room d1) as Hr1 by (eapply room_mid; [apply Hs'|exact Hr]).
  destruct Hs as [_ Hs]. destruct (Hs Hwf Hacc Hr1) as (Hwf1 & _ & Hacc1). cbn [fst snd] in *.
  rewrite <-(extract_clause_shape cl acc d (acc1, d1)) by done. cbn [fst]. by eapply IH.
Qed.

(** ** The gate decides by the syntax *)

Lemma canonical_proxy g : phrase_canonical g → nonempty (phrase_proxy g) = true.
Proof.
  intros [_ Hne _ Ha]. unfold phrase_proxy. rewrite nonempty_sort_dedup. destruct (arcs g) as [|[s e al] l]; [done|].
  apply Forall_inv in Ha as (_ & _ & Hal & _). simpl in *. by destruct al.
Qed.

Lemma phrase_proxy_plan_class ex d plan : phrase_proxy_plan ex d = Some plan → ap_class plan = ClassB.
Proof. unfold phrase_proxy_plan. destruct (min_by_key _ _); [|done]. by intros [= <-]. Qed.

Lemma anyof_cover_class ex d theta plan : anyof_cover ex d theta = Some plan → ap_class plan ≠ ClassD.
Proof. unfold anyof_cover. destruct (min_by_key _ _); [|done]. simpl. intros [= <-]. by case_match. Qed.

Lemma class_d_universal ex d theta :
  Forall phrase_canonical (required_phrases ex) →
  bool_decide (ap_class (anchor_plan ex d theta) = ClassD) =
    negb (nonempty (required ex) || nonempty (anyof ex)) && negb (nonempty (required_phrases ex)).
Proof.
  intros Hg. unfold anchor_plan. pose proof (sort_by_key_perm (freq d) (required ex)) as Hp.
  destruct (sort_by_key (freq d) (required ex)) as [|r1 rest].
  - assert (required ex = []) as -> by by apply Permutation_nil_l in Hp.
    change (nonempty (@nil N)) with false. simpl orb.
    destruct (required_phrases ex) as [|g gs] eqn:Eg.
    + rewrite nonempty_nil, !andb_true_r. destruct (anyof ex) as [|a l] eqn:Ea; [done|]. rewrite nonempty_cons. simpl negb. cbv iota.
      destruct (anyof_cover ex d theta) eqn:Ec; [apply bool_decide_false; by eapply anyof_cover_class|].
      destruct (min_by_key _ _) eqn:Em; [done|]. by apply min_by_key_None in Em.
    + rewrite nonempty_cons. simpl negb. rewrite !andb_false_r. apply bool_decide_false.
      destruct (phrase_proxy_plan ex d) as [plan|] eqn:E; [apply phrase_proxy_plan_class in E; simpl; congruence|].
      unfold phrase_proxy_plan in E. destruct (min_by_key _ _) eqn:Em; [done|]. apply min_by_key_None in Em. rewrite Eg in Em.
      apply Forall_inv, canonical_proxy in Hg. cbn in Em. by rewrite Hg in Em.
  - assert (nonempty (required ex) = true) as ->.
    { apply nonempty_true. intros E. rewrite E in Hp. by apply Permutation_nil_r in Hp. }
    simpl negb. simpl andb. apply bool_decide_false.
    destruct (is_hot d r1); [|by case_match]. destruct rest; [|done].
    destruct (phrase_proxy_plan ex d) as [plan|] eqn:E; [apply phrase_proxy_plan_class in E; congruence|].
    destruct (anyof_cover ex d theta) eqn:Ec; [by eapply anyof_cover_class|done].
Qed.

Lemma canonical_graphs gs : Forall graph_nonempty (canonicalize_phrases gs).
Proof.
  apply Forall_forall. intros g Hg. unfold canonicalize_phrases in Hg. rewrite elem_of_sort_dedup in Hg.
  apply list_elem_of_In, List.filter_In in Hg as [_ Hg]. unfold phrase_nonempty in Hg.
  apply andb_true_iff in Hg as [Hp%negb_true_iff%N.eqb_neq Ha%nonempty_true]. by split.
Qed.

Lemma canonical_phrases_canonical gs : Forall phrase_canonical gs → Forall phrase_canonical (canonicalize_phrases gs).
Proof.
  intros Hg. apply Forall_forall. intros g Hin. unfold canonicalize_phrases in Hin. rewrite elem_of_sort_dedup in Hin.
  apply list_elem_of_In, List.filter_In in Hin as [Hin%list_elem_of_In _]. apply list_elem_of_fmap in Hin as (g' & -> & Hin).
  rewrite Forall_forall in Hg. rewrite phrase_canonicalize_id by auto. auto.
Qed.

Lemma canonical_shape P d acc :
  acc_ok P d acc → let ex := canonicalize (acc_extracted acc) in
  nonempty (required ex) || nonempty (anyof ex) = sh_positive (shape acc) ∧
  nonempty (required_phrases ex) = sh_required_phrase (shape acc) ∧
  has_negative_predicate ex = sh_negative (shape acc) || sh_forbidden_phrase (shape acc).
Proof.
  intros [_ _ _ Hc Hr Hf]. cbv zeta. unfold has_negative_predicate. simpl.
  rewrite !nonempty_sort_dedup, !(nonempty_existsb (canonicalize_phrases _)), !canonicalize_phrases_existsb, <-!nonempty_existsb.
  - split_and!; [done|done|]. f_equal. f_equal. destruct (a_conjs acc) as [|c cs]; [done|].
    apply Forall_inv in Hc as [Hc _]. cbn. assert (nonempty (sort_dedup c) = true) as ->; [|done].
    rewrite nonempty_sort_dedup. by destruct c; [simpl in Hc; lia|].
  - eapply Forall_impl; [exact Hf|]. by intros g [? _].
  - eapply Forall_impl; [exact Hr|]. by intros g [[? _] _].
Qed.

(** ** What compiling a query promises *)

Record compiles (ast : Ast) (d : Dict) (ex : Extracted) (d' : Dict) : Prop := {
  cm_run : extract ast d = Some (ex, d');
  cm_wf : dict_wf d';
  cm_names : names d `prefix_of` names d';
  cm_room : dict_room d';
  cm_mask f : mask_bit d' f = mask_bit d f;
  cm_finalized : finalized d' = finalized d;
  cm_equivs : equivs d' = equivs d;
  cm_required : NoDup (required ex);
  cm_graphs : Forall graph_nonempty (query_graphs ex);
  cm_holds D : dict_wf D → dict_room D → names d' `prefix_of` names D →
    (∀ view, query_matches ex view = query_holds D ast view) ∧ required_phrases ex ⊆ clause_graphs D false ast;
  cm_gate d0 theta accept : rejects_class_d (ap_class (anchor_plan ex d0 theta)) ex accept = refused ast accept;
}.

(** The dictionary has room for the features of the query. *)
Definition compile_room (ast : Ast) (d : Dict) : Prop :=
  ∀ acc d1, extract_clauses interning ast acc_new d = Some (acc, d1) → dict_room d1.

Lemma compiles_total ast d :
  dict_wf d → equivs d = no_equivalences → Forall (quoted_ok short_text) ast → compile_room ast d → ∃ ex d', compiles ast d ex d'.
Proof.
  intros Hwf Heq Hq Hroom. destruct (extract_ok ast d Hwf Hq Hroom) as (acc & d1 & d' & E1 & E & Hacc & Hext & Hwf' & Hn & Hz & He & Hm & _).
  assert (equivalences d = ∅) as Hnone by (unfold equivalences; by rewrite Heq).
  rewrite Hnone, expand_equivalences_alt, decide_True in E by done. pose proof (Hroom _ _ E1) as Hr1.
  exists (canonicalize (acc_extracted acc)), d'. destruct (canonical_shape _ _ _ Hacc) as (Hp & Hr & Hneg).
  pose proof (extract_clauses_shape ast acc_new d (acc, d1) Hq Hwf (acc_new_ok _ _) Hr1 E1) as Hs. cbn [fst] in Hs.
  split; try done.
  - rewrite Hn. destruct (ext_names _ _ Hext) as [k ->]. by exists k.
  - unfold dict_room in *. by rewrite Hn.
  - apply canonical_required, canonicalize_idemp.
  - unfold query_graphs. apply Forall_app. split; apply canonical_graphs.
  - intros D HD HDr Hpre. by eapply (extract_holds D HD HDr ast d).
  - intros d0 theta accept. unfold rejects_class_d, refused, universal, negative, query_shape. rewrite class_d_universal.
    + rewrite Hp, Hr, Hneg, Hs. done.
    + apply canonical_phrases_canonical. eapply Forall_impl; [exact (ok_rphrases _ _ _ Hacc)|]. by intros g [[? _] _].
Qed.

(** A query compiled at some time under a dictionary that has only grown since. *)
Definition compiled_under (d : Dict) (ast : Ast) (ex : Extracted) : Prop :=
  ∃ d0 d1, compiles ast d0 ex d1 ∧ names d1 `prefix_of` names d.

Lemma compiled_under_mono d d' ast ex : names d `prefix_of` names d' → compiled_under d ast ex → compiled_under d' ast ex.
Proof. intros Hp (d0 & d1 & Hc & Hp'). exists d0, d1. split; [done|]. by etrans. Qed.

End recompile.
