(* ===== verification/Engine.v ===== *)
(** * The engine and its durable state ([engine/src/segment.rs], [segment/persistence.rs])

    The [Engine] struct, the data directory beside it, and the durability layer:
    sealing a segment to disk, staging and committing the source sidecar, the
    manifest commit with its rollback, the checkpoint and the reset of the
    write-ahead log.  An operation takes [&mut self] and the disk, so it is a
    function on a [World]: the engine, the disk and the outcomes the coming disk
    steps will have.  An empty list of outcomes means that every step succeeds; the
    theorems hold for every list.

    A mapped segment is represented by the segment its file was written from; the
    layout of segment and manifest files is not modelled.  The engine has no
    vocabulary beside its normalizer ([Engine::with_config], [Engine::open]).
    Events to an observer are not modelled. *)

From stdpp Require Import strings pretty.
From Stdlib Require Import Floats.SpecFloat.
From S2P Require Import Prelude Util Text Utf8 Dsl Dictionary FramedLog Wal SourceFile SourceCodec Sources Index Phrase Automaton Normalize.
From S2P Require Import Compile Plan View Ownership Tags Store Segment Merge.

(** ** State *)

(** [f64]: IEEE 754 binary64. *)
Definition f64 : Type := spec_float.

Record EngineConfig := mkEngineConfig {
  max_segments : nat;
  holes_ratio_threshold : f64;
  memtable_flush_threshold : nat;
  auto_compact_on_flush : bool;
  auto_compact_on_ingest : bool;
  compaction_reanchor : bool;
  data_dir : bool;
  retain_source : bool;
  parse_limits : ParseLimits;
  max_tags : nat;
  compaction_fixed_cost : f64;
  tag_segment_skipping : bool;
  config_hot_anchor_threshold : N;
  hot_migration_max_moves : nat;
  config_dedup_bodies : bool;
  config_accept_class_d : bool;
}.

Definition compile_knobs (c : EngineConfig) : CompileKnobs :=
  mkCompileKnobs (config_accept_class_d c) (config_hot_anchor_threshold c) (config_dedup_bodies c) false.

(** [CompileKnobs { accept_class_d, ..self.config.compile_knobs() }] *)
Definition knobs_accepting (accept : bool) (c : EngineConfig) : CompileKnobs :=
  mkCompileKnobs accept (config_hot_anchor_threshold c) (config_dedup_bodies c) false.

(** A sealed segment, in memory or mapped from the file of this number. *)
Inductive BaseSegment (B : Type) := Memory (seg : Segment B) | Mmap (file : N) (seg : Segment B).
Arguments Memory {B}.
Arguments Mmap {B}.

Inductive ManifestOnDisk := Synced | RenamedNotSynced.
Inductive SourceCommitState := Ready | IncompleteRecovery.

#[export] Instance ManifestOnDisk_eq_dec : EqDecision ManifestOnDisk.
Proof. solve_decision. Defined.
#[export] Instance SourceCommitState_eq_dec : EqDecision SourceCommitState.
Proof. solve_decision. Defined.

(** The process-lifetime counters; [dup_sketch] is the set of its one bits. *)
Record EngineStats := mkEngineStats {
  rejected_parse : N;
  rejected_class_d : N;
  would_be_hot : N;
  bodies_total : N;
  dup_joined : N;
  dup_sketch : gset N;
}.

(** A segment generation is an identity ([Arc::ptr_eq]): a number never given
    twice, taken from [en_next_token].  The source sidecar [sources.dat] is number
    0, [sources_g<n>.dat] is number [n].  The content version of the source store
    is a number that every write access and every new store changes. *)
Record Engine (A B : Type) := mkEngine {
  en_config : EngineConfig;
  en_norm : Normalizer A;
  en_dict : Dict;
  en_tag_dict : TagDict;
  en_segments : list (BaseSegment B);
  en_generations : list N;
  en_committed_generations : list N;
  en_memtable : Segment B;
  en_live_phrase_segments : nat;
  en_stats : EngineStats;
  en_wal : option Wal;
  en_next_seg_id : N;
  en_next_source_generation : N;
  en_wal_healthy : bool;
  en_persistence_healthy : bool;
  en_query_store : SourceStore;
  en_store_version : N;
  en_source_file : N;
  en_source_commit_state : SourceCommitState;
  en_selected_version : option N;
  en_vocab_epoch : N;
  en_committed_watermark : N;
  en_sealed_through : option N;
  en_manifest_on_disk : ManifestOnDisk;
  en_owns_manifest : bool;
  en_next_token : N;
}.
Arguments mkEngine {A B}.
Arguments en_config {A B}.
Arguments en_norm {A B}.
Arguments en_dict {A B}.
Arguments en_tag_dict {A B}.
Arguments en_segments {A B}.
Arguments en_generations {A B}.
Arguments en_committed_generations {A B}.
Arguments en_memtable {A B}.
Arguments en_live_phrase_segments {A B}.
Arguments en_stats {A B}.
Arguments en_wal {A B}.
Arguments en_next_seg_id {A B}.
Arguments en_next_source_generation {A B}.
Arguments en_wal_healthy {A B}.
Arguments en_persistence_healthy {A B}.
Arguments en_query_store {A B}.
Arguments en_store_version {A B}.
Arguments en_source_file {A B}.
Arguments en_source_commit_state {A B}.
Arguments en_selected_version {A B}.
Arguments en_vocab_epoch {A B}.
Arguments en_committed_watermark {A B}.
Arguments en_sealed_through {A B}.
Arguments en_manifest_on_disk {A B}.
Arguments en_owns_manifest {A B}.
Arguments en_next_token {A B}.

(** Assigning a field of the engine. *)
Ltac assign e field v :=
  let t := eval cbv beta in (mkEngine (en_config e) (en_norm e) (en_dict e) (en_tag_dict e) (en_segments e) (en_generations e)
    (en_committed_generations e) (en_memtable e) (en_live_phrase_segments e) (en_stats e) (en_wal e) (en_next_seg_id e)
    (en_next_source_generation e) (en_wal_healthy e) (en_persistence_healthy e) (en_query_store e) (en_store_version e)
    (en_source_file e) (en_source_commit_state e) (en_selected_version e) (en_vocab_epoch e) (en_committed_watermark e)
    (en_sealed_through e) (en_manifest_on_disk e) (en_owns_manifest e) (en_next_token e)) in
  let t := eval pattern field in t in
  match t with ?F _ => let r := eval cbv beta in (F v) in exact r end.

Section assign.
Context {A B : Type}.
Implicit Types e : Engine A B.

Definition with_dict (v : Dict) e : Engine A B := ltac:(assign e (en_dict e) v).
Definition with_tag_dict (v : TagDict) e : Engine A B := ltac:(assign e (en_tag_dict e) v).
Definition with_segments (v : list (BaseSegment B)) e : Engine A B := ltac:(assign e (en_segments e) v).
Definition with_generations (v : list N) e : Engine A B := ltac:(assign e (en_generations e) v).
Definition with_committed_generations (v : list N) e : Engine A B := ltac:(assign e (en_committed_generations e) v).
Definition with_memtable (v : Segment B) e : Engine A B := ltac:(assign e (en_memtable e) v).
Definition with_live_phrase_segments (v : nat) e : Engine A B := ltac:(assign e (en_live_phrase_segments e) v).
Definition with_stats (v : EngineStats) e : Engine A B := ltac:(assign e (en_stats e) v).
Definition with_wal (v : option Wal) e : Engine A B := ltac:(assign e (en_wal e) v).
Definition with_next_seg_id (v : N) e : Engine A B := ltac:(assign e (en_next_seg_id e) v).
Definition with_next_source_generation (v : N) e : Engine A B := ltac:(assign e (en_next_source_generation e) v).
Definition with_wal_healthy (v : bool) e : Engine A B := ltac:(assign e (en_wal_healthy e) v).
Definition with_persistence_healthy (v : bool) e : Engine A B := ltac:(assign e (en_persistence_healthy e) v).
Definition with_query_store (v : SourceStore) e : Engine A B := ltac:(assign e (en_query_store e) v).
Definition with_store_version (v : N) e : Engine A B := ltac:(assign e (en_store_version e) v).
Definition with_source_file (v : N) e : Engine A B := ltac:(assign e (en_source_file e) v).
Definition with_source_commit_state (v : SourceCommitState) e : Engine A B := ltac:(assign e (en_source_commit_state e) v).
Definition with_selected_version (v : option N) e : Engine A B := ltac:(assign e (en_selected_version e) v).
Definition with_committed_watermark (v : N) e : Engine A B := ltac:(assign e (en_committed_watermark e) v).
Definition with_sealed_through (v : option N) e : Engine A B := ltac:(assign e (en_sealed_through e) v).
Definition with_manifest_on_disk (v : ManifestOnDisk) e : Engine A B := ltac:(assign e (en_manifest_on_disk e) v).
Definition with_next_token (v : N) e : Engine A B := ltac:(assign e (en_next_token e) v).

End assign.

(** ** The disk

    [manifest.bin] as the fields a reopen reads.  [unsynced] is the manifest that a
    power loss may bring back while the rename of the current one is not known to
    be synced.  A segment file is the segment without its process-local epoch; a
    source sidecar is its bytes. *)

Record Manifest := mkManifest {
  mf_segment_files : list N;
  mf_segment_tombstones : list (N * list N);
  mf_next_seg_id : N;
  mf_dict : Dict;
  mf_tag_dict : TagDict;
  mf_rejected_parse : N;
  mf_rejected_class_d : N;
  mf_watermark : N;
  mf_source_file : N;
  mf_sealed_through : option N;
}.

Record Disk (B : Type) := mkDisk {
  dk_manifest : option Manifest;
  dk_unsynced : option (option Manifest);
  dk_segments : gmap N (Segment B);
  dk_sources : gmap N (list N);
}.
Arguments mkDisk {B}.
Arguments dk_manifest {B}.
Arguments dk_unsynced {B}.
Arguments dk_segments {B}.
Arguments dk_sources {B}.

(** The outcome of a disk step.  What a failed step left behind depends on the
    step and on the number. *)
Inductive StepOutcome := Fine | Fault (n : nat).

Record World (A B : Type) := mkWorld {
  wo_engine : Engine A B;
  wo_disk : Disk B;
  wo_faults : list StepOutcome;
}.
Arguments mkWorld {A B}.
Arguments wo_engine {A B}.
Arguments wo_disk {A B}.
Arguments wo_faults {A B}.

(** ** Operations on the world

    [None] is a panic. *)

Definition Eng (A B X : Type) : Type := World A B → option (X * World A B).

Section monad.
Context {A B : Type}.

Definition eng_ret {X} (x : X) : Eng A B X := λ w, Some (x, w).

Definition eng_bind {X Y} (m : Eng A B X) (k : X → Eng A B Y) : Eng A B Y :=
  λ w, match m w with Some (x, w') => k x w' | None => None end.

(** [self]. *)
Definition this : Eng A B (Engine A B) := λ w, Some (wo_engine w, w).

Definition assigning (f : Engine A B → Engine A B) : Eng A B unit :=
  λ w, Some (tt, mkWorld (f (wo_engine w)) (wo_disk w) (wo_faults w)).

Definition on_disk (f : Disk B → Disk B) : Eng A B unit :=
  λ w, Some (tt, mkWorld (wo_engine w) (f (wo_disk w)) (wo_faults w)).

Definition the_disk : Eng A B (Disk B) := λ w, Some (wo_disk w, w).

(** The next disk step. *)
Definition disk_step : Eng A B StepOutcome :=
  λ w, match wo_faults w with
       | [] => Some (Fine, w)
       | f :: rest => Some (f, mkWorld (wo_engine w) (wo_disk w) rest)
       end.

(** A computation that may panic. *)
Definition reckon {X} (o : option X) : Eng A B X := λ w, match o with Some x => Some (x, w) | None => None end.

(** [for x in l]. *)
Fixpoint run_each {X} (l : list X) (f : X → Eng A B unit) : Eng A B unit :=
  match l with
  | [] => eng_ret tt
  | x :: l' => eng_bind (f x) (λ _, run_each l' f)
  end.

End monad.

Declare Scope eng_scope.
Delimit Scope eng_scope with eng.
Notation "'let&' x := m 'in' k" := (eng_bind m (λ x, k)) 
  (at level 10, x pattern, m at level 100, k at level 200, format "'let&'  x  :=  m  'in' '//' k") : eng_scope.
Notation "m ;& k" := (eng_bind m (λ _ : unit, k)) (at level 199, k at level 200, right associativity) : eng_scope.
#[global] Open Scope eng_scope.

(** ** Base segments ([segment/base.rs]) *)

Section base.
Context {B : Type} `{Roaring B}.
Implicit Types b : BaseSegment B.

Definition base_seg b : Segment B := match b with Memory seg => seg | Mmap _ seg => seg end.
Definition base_file b : option N := match b with Memory _ => None | Mmap file _ => Some file end.

Definition base_tombstone (local : N) b : option (BaseSegment B) :=
  match b with Memory seg => Memory <$> tombstone local seg | Mmap file seg => Mmap file <$> tombstone local seg end.

(** [alive_count() as usize]. *)
Definition base_is_clean b : bool := sg_alive_counter (base_seg b) =? N.of_nat (seg_len (base_seg b)).

Definition with_epoch (epoch : N) (seg : Segment B) : Segment B :=
  mkSegment (sg_main seg) (sg_broad seg) (sg_hot seg) (sg_exact seg) (sg_class seg) (sg_alive seg) (sg_alive_counter seg)
    (sg_live_phrases seg) (sg_filter seg) (sg_tag_summary seg) epoch (sg_compiler_version seg) (sg_logical_index seg)
    (sg_dup_of seg) (sg_dup_members seg) (sg_body_index seg).

(** The dead rows of a mapped segment. *)
Definition dead_overlay (seg : Segment B) : list N :=
  N.of_nat <$> List.filter (λ i, bool_decide (sg_alive seg !! i = Some false)) (seq 0 (length (sg_alive seg))).

(** [self.segments\[lo..hi\]] and [splice(lo..hi, new)]. *)
Definition range {X} (lo hi : nat) (l : list X) : list X := take (hi - lo) (drop lo l).
Definition splice {X} (lo hi : nat) (new : list X) (l : list X) : list X := take lo l ++ new ++ drop hi l.

Definition seg_is_empty (seg : Segment B) : bool := (seg_len seg =? 0)%nat.

End base.

(** [format!("seg_{:06}.seg", id)]. *)
Definition segment_name (id : N) : rstring :=
  let digits := pretty id in
  str "seg_" ++ replicate (6 - String.length digits) 48 ++ str digits ++ str ".seg".

Section persistence.
Context {A B : Type} `{Daachorse A} `{Roaring B}.
Implicit Types (e : Engine A B) (seg : Segment B) (b : BaseSegment B).

(** ** Capabilities and telemetry *)

(** [refresh_phrase_capability]. *)
Definition phrase_segments e : nat :=
  ((if seg_has_phrases (en_memtable e) then 1 else 0) +
   length (List.filter (λ b, seg_has_phrases (base_seg b)) (en_segments e)))%nat.

Definition refresh_phrase_capability : Eng A B unit := assigning (λ e, with_live_phrase_segments (phrase_segments e) e).

Definition DUP_SKETCH_BITS : N := 2 ^ 22.

Definition record_added (added : AddedCompiled) (s : EngineStats) : EngineStats :=
  mkEngineStats (rejected_parse s) (rejected_class_d s)
    (wrap64 (would_be_hot s + (if ac_would_be_hot added then 1 else 0)))
    (wrap64 (bodies_total s + 1))
    (wrap64 (dup_joined s + (if ac_is_duplicate added then 1 else 0)))
    ({[N.land (ac_body_hash added) (DUP_SKETCH_BITS - 1)]} ∪ dup_sketch s).

Definition record_compiled (added : AddedCompiled) : Eng A B unit :=
  assigning (λ e, with_stats (record_added added (en_stats e)) e).

Definition count_rejected_parse : Eng A B unit :=
  assigning (λ e, with_stats (let s := en_stats e in
    mkEngineStats (wrap64 (rejected_parse s + 1)) (rejected_class_d s) (would_be_hot s) (bodies_total s) (dup_joined s) (dup_sketch s)) e).
Definition count_rejected_class_d : Eng A B unit :=
  assigning (λ e, with_stats (let s := en_stats e in
    mkEngineStats (rejected_parse s) (wrap64 (rejected_class_d s + 1)) (would_be_hot s) (bodies_total s) (dup_joined s) (dup_sketch s)) e).

(** [fresh_segment_generation()]. *)
Definition fresh_segment_generation : Eng A B N :=
  let& e := this in
  assigning (with_next_token (en_next_token e + 1)) ;&
  eng_ret (en_next_token e).

(** A write access to the source store. *)
Definition writing_store (f : SourceStore → SourceStore) : Eng A B unit :=
  assigning (λ e, with_query_store (f (en_query_store e)) (with_store_version (en_store_version e + 1) e)).

(** A store that replaces the current one. *)
Definition replacing_store (s : SourceStore) : Eng A B unit := writing_store (λ _, s).

Definition unhealthy : Eng A B unit := assigning (with_persistence_healthy false).

(** ** What is known about the manifest ([persistence/published.rs]) *)

Definition manifest_awaits_sync e : bool := bool_decide (en_manifest_on_disk e = RenamedNotSynced).

(** ** Segment files *)

Definition next_segment_filename : Eng A B N :=
  let& e := this in
  assigning (with_next_seg_id (wrap64 (en_next_seg_id e + 1))) ;&
  eng_ret (en_next_seg_id e).

Definition put_segment (file : N) seg (d : Disk B) : Disk B :=
  mkDisk (dk_manifest d) (dk_unsynced d) (<[file := with_epoch 0 seg]> (dk_segments d)) (dk_sources d).
Definition drop_segment (file : N) (d : Disk B) : Disk B :=
  mkDisk (dk_manifest d) (dk_unsynced d) (delete file (dk_segments d)) (dk_sources d).

(** [write_segment]: a failed write may have left the file. *)
Definition write_segment (file : N) seg : Eng A B bool :=
  let& out := disk_step in
  match out with
  | Fine => on_disk (put_segment file seg) ;& eng_ret true
  | Fault 0 => eng_ret false
  | Fault (S _) => on_disk (put_segment file seg) ;& eng_ret false
  end.

(** [MmapSegment::open]. *)
Definition open_segment (file : N) : Eng A B (option (Segment B)) :=
  let& out := disk_step in
  let& d := the_disk in
  eng_ret (match out with Fine => dk_segments d !! file | Fault _ => None end).

(** [best_effort_remove_segment]. *)
Definition best_effort_remove_segment (file : N) : Eng A B unit :=
  let& e := this in
  if manifest_awaits_sync e then eng_ret tt else
  let& out := disk_step in
  match out with Fine => on_disk (drop_segment file) | Fault _ => eng_ret tt end.

(** [make_base_segment]: the base segment and whether the seal is durable. *)
Definition make_base_segment seg : Eng A B (BaseSegment B * bool) :=
  let& e := this in
  if manifest_awaits_sync e then eng_ret (Memory seg, false) else
  if negb (data_dir (en_config e)) then eng_ret (Memory seg, true) else
  let& file := next_segment_filename in
  let& written := write_segment file seg in
  if written : bool then
    let& mapped := open_segment file in
    match mapped with
    | Some mapped => eng_ret (Mmap file (with_epoch (sg_vocab_epoch seg) mapped), true)
    | None => unhealthy ;& eng_ret (Memory seg, false)
    end
  else unhealthy ;& eng_ret (Memory seg, false).

Definition push_segment b : Eng A B unit :=
  let& token := fresh_segment_generation in
  assigning (λ e, with_generations (en_generations e ++ [token]) (with_segments (en_segments e ++ [b]) e)).

Definition pop_segment : Eng A B unit :=
  assigning (λ e, with_generations (removelast (en_generations e)) (with_segments (removelast (en_segments e)) e)).

Definition seal_and_push seg : Eng A B bool :=
  let& (base, persisted) := make_base_segment seg in
  push_segment base ;&
  refresh_phrase_capability ;&
  eng_ret persisted.

(** [build_durable_base]: [None] is an error. *)
Definition build_durable_base seg : Eng A B (option (BaseSegment B * option N)) :=
  let& e := this in
  if negb (data_dir (en_config e)) then eng_ret (Some (Memory seg, None)) else
  if manifest_awaits_sync e then eng_ret None else
  let& file := next_segment_filename in
  let& written := write_segment file seg in
  if negb written then unhealthy ;& eng_ret None else
  let& mapped := open_segment file in
  match mapped with
  | Some mapped => eng_ret (Some (Mmap file (with_epoch (sg_vocab_epoch seg) mapped), Some file))
  | None => unhealthy ;& best_effort_remove_segment file ;& eng_ret None
  end.

(** [cleanup_segment_files], of an engine whose replaced files are left to the
    owner's sweep unless it owns its manifest. *)
Definition cleanup_segment_files (files : list N) : Eng A B unit :=
  let& e := this in
  if en_owns_manifest e then run_each files best_effort_remove_segment else eng_ret tt.

(** ** Segments served from memory ([persistence/fallback.rs]) *)

Definition base_segments_are_committed e : bool := bool_decide (en_generations e = en_committed_generations e).

Fixpoint persist_fallbacks (indices : list nat) : Eng A B bool :=
  match indices with
  | [] => eng_ret true
  | i :: indices' =>
      let& e := this in
      match en_segments e !! i with
      | Some (Memory seg) =>
          let& file := next_segment_filename in
          let& written := write_segment file seg in
          let& mapped := if written : bool then open_segment file else eng_ret None in
          match mapped with
          | Some mapped =>
              assigning (λ e, with_segments (<[i := Mmap file (with_epoch (sg_vocab_epoch seg) mapped)]> (en_segments e)) e) ;&
              persist_fallbacks indices'
          | None => best_effort_remove_segment file ;& unhealthy ;& eng_ret false
          end
      | _ => persist_fallbacks indices'
      end
  end.

Definition persist_fallback_segments : Eng A B bool :=
  let& e := this in
  if negb (data_dir (en_config e)) then eng_ret true else persist_fallbacks (seq 0 (length (en_segments e))).

(** ** The manifest *)

Definition stale e seg : bool := sg_vocab_epoch seg <? en_vocab_epoch e.

Definition has_stale_segments e : bool :=
  existsb (λ b, stale e (base_seg b)) (en_segments e) || (stale e (en_memtable e) && negb (seg_is_empty (en_memtable e))).

Definition wal_last_seq e : N := match en_wal e with Some w => last_seq w | None => 0 end.

Definition manifest_of e (source_file watermark : N) : Manifest :=
  mkManifest (omap base_file (en_segments e))
    (omap (λ b, match b with
                | Mmap file seg => if nonempty (dead_overlay seg) then Some (file, dead_overlay seg) else None
                | Memory _ => None
                end) (en_segments e))
    (en_next_seg_id e) (en_dict e) (en_tag_dict e) (rejected_parse (en_stats e)) (rejected_class_d (en_stats e))
    watermark source_file (en_sealed_through e).

Definition NOTHING_UNTIL_A_RESTART : string :=
  "a manifest was renamed into place and could not be synced, so it is not known which manifest a power loss leaves; the node is read-only until a restart".

(** Renaming the manifest into place; a failed step left the old manifest, or the
    new one not synced. *)
Definition publish_manifest (m : Manifest) : Eng A B bool :=
  let& out := disk_step in
  match out with
  | Fine => on_disk (λ d, mkDisk (Some m) None (dk_segments d) (dk_sources d)) ;& eng_ret true
  | Fault 0 => unhealthy ;& eng_ret false
  | Fault (S _) =>
      on_disk (λ d, mkDisk (Some m) (Some (dk_manifest d)) (dk_segments d) (dk_sources d)) ;&
      assigning (λ e, with_manifest_on_disk RenamedNotSynced
        (with_wal (close_until_reopen NOTHING_UNTIL_A_RESTART <$> en_wal e) e)) ;&
      unhealthy ;&
      eng_ret false
  end.

Definition mapped_generations e : list N :=
  omap (λ p, match p.1 with Mmap _ _ => Some p.2 | Memory _ => None end) (zip (en_segments e) (en_generations e)).

Definition write_manifest_capturing (source_file watermark : N) : Eng A B bool :=
  let& e := this in
  if negb (en_owns_manifest e) then eng_ret true else
  if manifest_awaits_sync e then eng_ret false else
  if data_dir (en_config e) && has_stale_segments e then eng_ret false else
  let& persisted := persist_fallback_segments in
  if negb persisted then eng_ret false else
  let& e := this in
  let& published :=
    if data_dir (en_config e) then
      let& published := publish_manifest (manifest_of e source_file watermark) in
      (if published : bool then assigning (with_committed_watermark watermark) else eng_ret tt) ;&
      eng_ret published
    else eng_ret true in
  if negb published then eng_ret false else
  assigning (λ e, with_committed_generations (mapped_generations e) e) ;&
  eng_ret true.

Definition save_manifest_selecting_source (source_file : N) : Eng A B bool :=
  let& e := this in
  write_manifest_capturing source_file (wal_last_seq e).

Definition save_manifest_if_persistent : Eng A B bool :=
  let& e := this in
  save_manifest_selecting_source (en_source_file e).

(** ** The source sidecar ([persistence/sources.rs]) *)

Definition put_source (file : N) (bytes : list N) (d : Disk B) : Disk B :=
  mkDisk (dk_manifest d) (dk_unsynced d) (dk_segments d) (<[file := bytes]> (dk_sources d)).
Definition drop_source (file : N) (d : Disk B) : Disk B :=
  mkDisk (dk_manifest d) (dk_unsynced d) (dk_segments d) (delete file (dk_sources d)).

(** Writing a sidecar: a failed write may have left the file. *)
Definition write_source_file (file : N) (bytes : list N) : Eng A B bool :=
  let& out := disk_step in
  match out with
  | Fine => on_disk (put_source file bytes) ;& eng_ret true
  | Fault 0 => eng_ret false
  | Fault (S _) => on_disk (put_source file bytes) ;& eng_ret false
  end.

Definition best_effort_remove_source (file : N) : Eng A B unit :=
  let& e := this in
  if manifest_awaits_sync e then eng_ret tt else
  let& out := disk_step in
  match out with Fine => on_disk (drop_source file) | Fault _ => eng_ret tt end.

Definition store_is_lazy (s : SourceStore) : bool := match s with Lazy _ _ => true | Resident _ => false end.

(** [SourceStore::open] of a file on disk. *)
Definition open_source_file (file : N) (retain : bool) : Eng A B (option SourceStore) :=
  let& out := disk_step in
  let& d := the_disk in
  eng_ret (match out, store_open (dk_sources d !! file) retain with
           | Fine, inr r => Some r.2
           | _, _ => None
           end).

(** [stage_query_sources]: [None] is an error, [Some None] that there is nothing to
    stage. *)
Definition stage_query_sources (updates : list (N * StoredSource)) : Eng A B (option (option N)) :=
  let& e := this in
  if negb (en_owns_manifest e) then eng_ret (Some None) else
  if negb (data_dir (en_config e)) then eng_ret (Some None) else
  if manifest_awaits_sync e then eng_ret None else
  if bool_decide (en_source_commit_state e = IncompleteRecovery) then unhealthy ;& eng_ret None else
  match checked_add 64 (en_source_file e) 1, write_to_with_updates (en_query_store e) updates with
  | Some name, inr bytes =>
      let& written := write_source_file name bytes in
      if written : bool then eng_ret (Some (Some name)) else unhealthy ;& eng_ret None
  | _, _ => unhealthy ;& eng_ret None
  end.

Definition discard_staged_sources (staged : option N) : Eng A B unit :=
  match staged with Some name => best_effort_remove_source name | None => eng_ret tt end.

Definition activate_staged_sources (name : N) : Eng A B unit :=
  let& e := this in
  let old_name := en_source_file e in
  assigning (with_source_file name) ;&
  let& may_remove_old :=
    if store_is_lazy (en_query_store e) then
      let& opened := open_source_file name false in
      match opened with
      | Some store => replacing_store store ;& eng_ret true
      | None => assigning (with_source_commit_state IncompleteRecovery) ;& unhealthy ;& eng_ret false
      end
    else eng_ret true in
  if may_remove_old && negb (old_name =? name) && data_dir (en_config e) then best_effort_remove_source old_name else eng_ret tt.

Definition selected_sources_are_current e : bool := bool_decide (en_selected_version e = Some (en_store_version e)).

Definition mark_selected_sources_current : Eng A B unit :=
  assigning (λ e, with_selected_version
    (if bool_decide (en_source_commit_state e = Ready) then Some (en_store_version e) else None) e).

(** ** The joint commit *)

Definition commit_staged_sources_and_manifest (staged : option N) : Eng A B bool :=
  let& e := this in
  let& saved := save_manifest_selecting_source (default (en_source_file e) staged) in
  if negb saved then discard_staged_sources staged ;& eng_ret false else
  match staged with
  | Some name => activate_staged_sources name ;& mark_selected_sources_current ;& eng_ret true
  | None => eng_ret true
  end.

Definition commit_sources_and_manifest : Eng A B bool :=
  let& e := this in
  if selected_sources_are_current e then commit_staged_sources_and_manifest None else
  let& staged := stage_query_sources [] in
  match staged with None => eng_ret false | Some staged => commit_staged_sources_and_manifest staged end.

Definition commit_manifest_with_current_sources : Eng A B bool :=
  let& e := this in
  if en_owns_manifest e then commit_sources_and_manifest else save_manifest_if_persistent.

Definition save_query_sources_in_place : Eng A B unit :=
  let& e := this in
  if negb (data_dir (en_config e)) then eng_ret tt else
  match write_to (en_query_store e) with
  | inl _ => unhealthy
  | inr bytes =>
      let& written := write_source_file (en_source_file e) bytes in
      if negb written then unhealthy else
      if store_is_lazy (en_query_store e) then
        let& opened := open_source_file (en_source_file e) false in
        match opened with Some store => replacing_store store | None => unhealthy end
      else eng_ret tt
  end.

Definition save_query_sources : Eng A B unit :=
  let& e := this in
  if en_owns_manifest e then let& _ := commit_sources_and_manifest in eng_ret tt else save_query_sources_in_place.

(** ** The log *)

Definition write_outcome (out : StepOutcome) : WriteOutcome := match out with Fine => Written | Fault n => Failed n end.

Definition reset_outcome (out : StepOutcome) : ResetOutcome :=
  match out with Fine => ResetDone | Fault 0 => ResetNotStarted | Fault 1 => ResetInterrupted false | Fault _ => ResetInterrupted true end.

(** An append to the log, if there is one: the error, or nothing. *)
Definition append_wal (op : WalOp) : Eng A B (option LogError) :=
  let& e := this in
  match en_wal e with
  | None => eng_ret None
  | Some w =>
      let& out := disk_step in
      let '(w', r) := wal_append w op (write_outcome out) in
      assigning (with_wal (Some w')) ;&
      eng_ret (match r with inl err => Some err | inr _ => None end)
  end.

(** The same with [wal_healthy] lowered by an error. *)
Definition log_mutation (op : WalOp) : Eng A B (option LogError) :=
  let& err := append_wal op in
  match err with
  | Some err => assigning (with_wal_healthy false) ;& eng_ret (Some err)
  | None => eng_ret None
  end.

Definition checkpoint_wal : Eng A B unit :=
  let& e := this in
  let& _ := append_wal (AppendFlushCheckpoint (segment_name (wrap64 (en_next_seg_id e + 2 ^ 64 - 1)))) in
  eng_ret tt.

Definition reset_wal_if_safe : Eng A B unit :=
  let& e := this in
  match en_wal e with
  | None => eng_ret tt
  | Some w => let& out := disk_step in assigning (with_wal (Some (wal_reset w (reset_outcome out)).1))
  end.

(** ** Sealing the memtable ([persistence/sealed.rs], [persistence/seal.rs]) *)

(** [take_memtable]: the rows and what [sealed_through] was. *)
Definition take_memtable : Eng A B (Segment B * option N) :=
  let& e := this in
  assigning (λ e, with_sealed_through (Some (wal_last_seq e)) (with_memtable (with_epoch (en_vocab_epoch e) segment_new) e)) ;&
  eng_ret (en_memtable e, en_sealed_through e).

Definition put_memtable_back (taken : Segment B * option N) : Eng A B unit :=
  assigning (λ e, with_sealed_through taken.2 (with_memtable taken.1 e)).

(** [seal_before_first_mask]: whether it succeeded. *)
Definition seal_before_first_mask : Eng A B bool :=
  let& e := this in
  if finalized (en_dict e) || bool_decide (en_wal e = None) || negb (en_owns_manifest e) then eng_ret true else
  if seg_is_empty (en_memtable e) then
    if base_segments_are_committed e then eng_ret true else
    let& committed := commit_sources_and_manifest in
    if negb committed then eng_ret false else
    checkpoint_wal ;& reset_wal_if_safe ;& eng_ret true
  else
    let& sealed := reckon (seg_build_filter (en_memtable e)) in
    let& built := build_durable_base sealed in
    match built with
    | None => eng_ret false
    | Some (base, path) =>
        let& taken := take_memtable in
        push_segment base ;&
        refresh_phrase_capability ;&
        let& committed := commit_sources_and_manifest in
        if negb committed then
          pop_segment ;&
          put_memtable_back taken ;&
          refresh_phrase_capability ;&
          (match path with Some file => best_effort_remove_segment file | None => eng_ret tt end) ;&
          eng_ret false
        else
          checkpoint_wal ;& reset_wal_if_safe ;& eng_ret true
    end.

(** ** Committing a new base segment *)

Record IngestReport := mkIngestReport { ingested : N; report_rejected_parse : N; report_rejected_class_d : N }.

Definition apply_sources (updates : list (N * StoredSource)) : Eng A B unit :=
  run_each updates (λ u, writing_store (insert_stored u.1 u.2)).

(** [commit_base_segment]: whether the batch was committed. *)
Definition commit_base_segment seg (pending_sources : list (N * StoredSource)) : Eng A B bool :=
  let& built := build_durable_base seg in
  match built with
  | None => eng_ret false
  | Some (base, path) =>
      let remove_orphan := match path with Some file => best_effort_remove_segment file | None => eng_ret tt end in
      let& staged := stage_query_sources pending_sources in
      match staged with
      | None => remove_orphan ;& eng_ret false
      | Some staged_sources =>
          push_segment base ;&
          refresh_phrase_capability ;&
          let& e := this in
          let staged_a_sidecar := bool_decide (is_Some staged_sources) in
          let staged_publishes_lazy := staged_a_sidecar && store_is_lazy (en_query_store e) in
          let& committed := commit_staged_sources_and_manifest staged_sources in
          if negb committed then
            pop_segment ;&
            refresh_phrase_capability ;&
            remove_orphan ;&
            eng_ret false
          else
            (if staged_publishes_lazy then eng_ret tt else apply_sources pending_sources) ;&
            (if staged_a_sidecar then mark_selected_sources_current else eng_ret tt) ;&
            eng_ret true
      end
  end.

End persistence.
