(* ===== verification/Compaction.v ===== *)
(** * Flush and compaction ([engine/src/segment/compaction.rs])

    Sealing the memtable into a base segment, choosing which neighbouring base
    segments to merge, and the merge that is built durably before anything is
    destroyed and rolled back when its commit fails. *)

From Stdlib Require Import Floats.SpecFloat.
From S2P Require Import Prelude Util Text Dictionary Wal Sources Index Phrase Automaton Normalize Compile Plan View Ownership Tags Store Segment Merge.
From S2P Require Import Engine.

(** ** Scores

    [f64] arithmetic: 53 bits of precision, exponents below 1024, rounding to
    nearest, ties to even. *)

Definition f64_of_usize (n : nat) : f64 := binary_normalize 53 1024 (Z.of_nat n) 0 false.
Definition f64_add : f64 → f64 → f64 := SFadd 53 1024.
Definition f64_sub : f64 → f64 → f64 := SFsub 53 1024.
Definition f64_mul : f64 → f64 → f64 := SFmul 53 1024.
Definition f64_div : f64 → f64 → f64 := SFdiv 53 1024.
Definition f64_lt : f64 → f64 → bool := SFltb.

Definition f64_MAX : f64 := S754_finite false 9007199254740991 971.
(** [1.9], the nearest [f64]. *)
Definition ONE_POINT_NINE : f64 := S754_finite false 8556839292003942 (-52).

(** The best score so far with its range. *)
Record BestRange := mkBestRange { best_score : f64; best_lo : nat; best_hi : nat }.

Section policy.
Context {B : Type} `{Roaring B}.

(** [holes_ratio] ([segment/seg/parts.rs]). *)
Definition holes_ratio (seg : Segment B) : f64 :=
  if (seg_len seg =? 0)%nat then f64_of_usize 0
  else f64_sub (f64_of_usize 1) (f64_div (f64_of_usize (usize (sg_alive_counter seg))) (f64_of_usize (seg_len seg))).

Definition merge_score (fixed_cost sum : f64) (lo hi : nat) : f64 :=
  let count := f64_of_usize (hi - lo) in
  f64_div (f64_add sum (f64_mul fixed_cost count)) (f64_sub count ONE_POINT_NINE).

(** The inner loop: the running sum of the sizes and the best range. *)
Definition try_range (fixed_cost : f64) (sizes : list f64) (lo : nat) (st : f64 * BestRange) (hi : nat) : option (f64 * BestRange) :=
  let '(sum, best) := st in
  size ← sizes !! (hi - 1)%nat;
  let sum := f64_add sum size in
  let score := merge_score fixed_cost sum lo hi in
  Some (sum, if f64_lt score (best_score best) then mkBestRange score lo hi else best).

Definition try_ranges_from (fixed_cost : f64) (sizes : list f64) (best : BestRange) (lo : nat) : option BestRange :=
  sum ← sizes !! lo;
  st ← foldM (try_range fixed_cost sizes lo) (sum, best) (seq (lo + 2) (length sizes - (lo + 1)));
  Some st.2.

Definition pick_merge_range (fixed_cost : f64) (segments : list (Segment B)) : option (nat * nat) :=
  let sizes := (λ seg, f64_of_usize (seg_len seg)) <$> segments in
  best ← foldM (try_ranges_from fixed_cost sizes) (mkBestRange f64_MAX 0 (length segments)) (seq 0 (length segments));
  Some (best_lo best, best_hi best).

End policy.

Record CompactionReport := mkCompactionReport {
  segments_merged : nat;
  entries_before : nat;
  entries_after : nat;
  tombstones_reclaimed : nat;
  report_reanchored : ReanchorStats;
}.

Section compaction.
Context {A B : Type} `{Daachorse A} `{Roaring B}.
Implicit Types (e : Engine A B) (seg : Segment B) (b : BaseSegment B).

Definition engine_pick e : option (nat * nat) :=
  pick_merge_range (compaction_fixed_cost (en_config e)) (base_seg <$> en_segments e).

(** The merge of a range, mechanical or re-anchoring. *)
Definition merge_segments e (sources : list (Segment B)) : option (Segment B * ReanchorStats) :=
  if compaction_reanchor (en_config e) then
    compact_from_reanchored sources (en_dict e) (config_hot_anchor_threshold (en_config e)) (hot_migration_max_moves (en_config e))
  else merged ← compact_from sources; Some (merged, mkReanchorStats 0 0 0).

Definition do_compact_range (lo hi : nat) : Eng A B (option CompactionReport) :=
  let& e := this in
  if (hi <=? lo + 1)%nat || (length (en_segments e) <? hi)%nat then eng_ret None else
  let old := range lo hi (en_segments e) in
  let old_generations := range lo hi (en_generations e) in
  let before := sum_list_with (λ b, seg_len (base_seg b)) old in
  let& (merged, reanchored) := reckon (merge_segments e (base_seg <$> old)) in
  let after := seg_len merged in
  let& built := build_durable_base merged in
  match built with
  | None => eng_ret None
  | Some (merged_base, merged_path) =>
      let& token := fresh_segment_generation in
      assigning (λ e, with_generations (splice lo hi [token] (en_generations e))
        (with_segments (splice lo hi [merged_base] (en_segments e)) e)) ;&
      let& committed := commit_manifest_with_current_sources in
      if negb committed then
        assigning (λ e, with_generations (splice lo (S lo) old_generations (en_generations e))
          (with_segments (splice lo (S lo) old (en_segments e)) e)) ;&
        (match merged_path with Some file => best_effort_remove_segment file | None => eng_ret tt end) ;&
        eng_ret None
      else
        cleanup_segment_files (omap base_file old) ;&
        eng_ret (Some (mkCompactionReport (hi - lo) before after (before - after) reanchored))
  end.

Definition compact_range (lo hi : nat) : Eng A B (option CompactionReport) := do_compact_range lo hi.

Definition compact_all : Eng A B (option CompactionReport) :=
  let& e := this in
  do_compact_range 0 (length (en_segments e)).

Definition compact (max_segs : nat) : Eng A B (option CompactionReport) :=
  let& e := this in
  if (length (en_segments e) <=? max_segs)%nat then eng_ret None else
  let& (lo, hi) := reckon (engine_pick e) in
  compact_range lo hi.

Definition maybe_compact : Eng A B (option CompactionReport) :=
  let& e := this in
  if f64_lt (holes_ratio_threshold (en_config e)) (f64_of_usize 1) &&
     existsb (λ b, f64_lt (holes_ratio_threshold (en_config e)) (holes_ratio (base_seg b))) (en_segments e)
  then let& (lo, hi) := reckon (engine_pick e) in do_compact_range lo hi
  else if (max_segments (en_config e) <? length (en_segments e))%nat
  then let& (lo, hi) := reckon (engine_pick e) in do_compact_range lo hi
  else eng_ret None.

Definition flush : Eng A B unit :=
  let& e := this in
  if seg_is_empty (en_memtable e) then
    if en_owns_manifest e && negb (base_segments_are_committed e) then
      let& committed := commit_sources_and_manifest in
      if committed : bool then checkpoint_wal ;& reset_wal_if_safe else eng_ret tt
    else eng_ret tt
  else
    let& taken := take_memtable in
    let& sealed := reckon (seg_build_filter taken.1) in
    let& persisted := seal_and_push sealed in
    let& committed :=
      if persisted : bool then
        if en_owns_manifest e then commit_sources_and_manifest
        else
          save_query_sources ;&
          let& e := this in
          if en_persistence_healthy e then save_manifest_if_persistent else eng_ret false
      else eng_ret false in
    (if committed : bool then checkpoint_wal ;& reset_wal_if_safe else eng_ret tt) ;&
    if auto_compact_on_flush (en_config e) then let& _ := maybe_compact in eng_ret tt else eng_ret tt.

Definition flush_and_persist_sources_for_checkpoint : Eng A B unit :=
  let& e := this in
  flush ;&
  if seg_is_empty (en_memtable e) then save_query_sources else eng_ret tt.

Definition maybe_flush : Eng A B unit :=
  let& e := this in
  if (memtable_flush_threshold (en_config e) <=? seg_len (en_memtable e))%nat then flush else eng_ret tt.

(** ** Re-sealing the segments with deletions *)

(** The loop: what is kept or rewritten, with its generations, and the retired
    files. *)
Fixpoint reseal_loop (olds : list (BaseSegment B)) (index : nat) (old_generations : list N)
  (segs : list (BaseSegment B)) (gens files : list N) : Eng A B (list (BaseSegment B) * list N * list N) :=
  match olds with
  | [] => eng_ret (segs, gens, files)
  | b :: olds' =>
      let& generation := match old_generations !! index with Some g => eng_ret g | None => fresh_segment_generation end in
      if base_is_clean b then reseal_loop olds' (S index) old_generations (segs ++ [b]) (gens ++ [generation]) files else
      let retired := match base_file b with Some file => [file] | None => [] end in
      let& clean := reckon (compact_from [base_seg b]) in
      if seg_is_empty clean then reseal_loop olds' (S index) old_generations segs gens (files ++ retired) else
      let& built := build_durable_base clean in
      match built with
      | Some (base, _) =>
          let& fresh := fresh_segment_generation in
          reseal_loop olds' (S index) old_generations (segs ++ [base]) (gens ++ [fresh]) (files ++ retired)
      | None => reseal_loop olds' (S index) old_generations (segs ++ [b]) (gens ++ [generation]) files
      end
  end.

Definition reseal_tombstoned_segments : Eng A B unit :=
  let& e := this in
  if forallb base_is_clean (en_segments e) then eng_ret tt else
  let& (segs_gens, old_files) := reseal_loop (en_segments e) 0 (en_generations e) [] [] [] in
  assigning (λ e, with_generations segs_gens.2 (with_segments segs_gens.1 e)) ;&
  refresh_phrase_capability ;&
  let& committed := commit_manifest_with_current_sources in
  if committed : bool then cleanup_segment_files old_files
  else
    assigning (λ e', with_generations (en_generations e) (with_segments (en_segments e) e')) ;&
    refresh_phrase_capability.

End compaction.
