(* ===== verification/Ingest.v ===== *)
(** * The write path ([engine/src/segment/ingest.rs], [segment/ingest/*.rs])

    Live inserts, upserts and deletes: validated and compiled first, then logged,
    then applied to the memtable, the segments and the source store.  Batches
    compiled straight into a base segment.  The write path of a cluster shard,
    which resolves against a frozen dictionary. *)

From S2P Require Import Prelude Util Text Utf8 Dsl Dictionary FramedLog Wal SourceFile Sources Index Phrase Automaton Normalize Compile Extract Plan.
From S2P Require Import View Ownership Tags Store Segment Merge Engine Compaction.

Inductive WriteError := WriteParse (err : ParseError) | WriteWal (err : LogError).

Record StoredRow := mkStoredRow { sr_local : N; sr_class : CostClass }.

Inductive InsertOutcome := Inserted (stored : StoredRow) | InsertRejectedClassD.

Inductive UpsertOutcome := Created (stored : StoredRow) | Updated (stored : StoredRow) (replaced : nat) | UpsertRejectedClassD.

(** ** Checks before the log *)

Definition check_tag_limit (c : EngineConfig) (tags : list (rstring * rstring)) : option ParseError :=
  if (max_tags c <? length tags)%nat then Some (mkParseError TooManyTags 0) else None.

Definition check_wal_fields {A B} (e : Engine A B) (text : rstring) (tags : list (rstring * rstring)) : option ParseError :=
  match en_wal e with
  | None => None
  | Some _ =>
      if umax 32 <? N.of_nat (str_len text) then Some (mkParseError QueryTooLong 0)
      else if umax 16 <? N.of_nat (length tags) then Some (mkParseError TooManyTags 0)
      else if existsb (λ kv, (umax 16 <? N.of_nat (str_len kv.1)) || (umax 16 <? N.of_nat (str_len kv.2))) tags
      then Some (mkParseError TagFieldTooLong 0) else None
  end.

Definition check_column_limit (ex : Extracted) : option ParseError :=
  match column_overflow ex with Some _ => Some (mkParseError CompiledColumnTooLarge 0) | None => None end.

Section ingest.
Context {A B : Type} `{Daachorse A} `{Roaring B}.
Implicit Types (e : Engine A B) (seg : Segment B) (b : BaseSegment B).

(** ** Source generations *)

Definition allocate_source_generation : Eng A B N :=
  let& e := this in
  let generation := N.max (en_next_source_generation e) 1 in
  assigning (with_next_source_generation (N.max (wrap64 (generation + 1)) 1)) ;&
  eng_ret generation.

Definition replay_source_generation (source_generation : option N) : Eng A B N :=
  match source_generation with
  | Some g =>
      if g =? 0 then eng_ret 0 else
      let& e := this in
      (if en_next_source_generation e <=? g then assigning (with_next_source_generation (N.max (wrap64 (g + 1)) 1)) else eng_ret tt) ;&
      eng_ret g
  | None => eng_ret 0
  end.

(** ** Compiling *)

(** [extract] against the engine's own dictionary. *)
Definition extract_into (ast : Ast) : Eng A B Extracted :=
  let& e := this in
  let& (ex, dict) := reckon (@extract (normalizer_analyzer (en_norm e)) ast (en_dict e)) in
  assigning (with_dict dict) ;&
  eng_ret ex.

Definition intern_tags_into (tags : list (rstring * rstring)) : Eng A B (list N) :=
  let& e := this in
  let '(ids, td) := intern_tags tags (en_tag_dict e) in
  assigning (with_tag_dict td) ;&
  eng_ret ids.

(** [Arc::make_mut(&mut self.memtable).add_compiled…]. *)
Definition add_to_memtable (ex : Extracted) (tag_ids : list N) (logical version : N) (rank : Z) (placement : QueryPlacement)
  (source : N) (knobs : CompileKnobs) : Eng A B (option AddedCompiled) :=
  let& e := this in
  let& (added, seg) := reckon (add_compiled ex tag_ids (en_dict e) logical version rank placement source knobs (en_memtable e)) in
  assigning (with_memtable seg) ;&
  eng_ret added.

(** [query_store.insert_document_with_generation]. *)
Definition publish_source (logical : N) (text : rstring) (version source : N) (tags : list (rstring * rstring)) : Eng A B unit :=
  writing_store (insert_document_with_generation logical text version source tags).

Definition stored_row_of (added : AddedCompiled) : StoredRow := mkStoredRow (ac_local added) (ac_class added).

(** The validation and the class gate shared by insert and upsert: the compiled
    query with its class, a rejection, or a parse error. *)
Definition admit_query (text : rstring) (tags : list (rstring * rstring)) : Eng A B (ParseError + option (Extracted * CostClass)) :=
  let& e := this in
  let& parsed := reckon (parse_with_limits text (parse_limits (en_config e))) in
  match parsed with
  | inl err => eng_ret (inl err)
  | inr ast =>
      match check_tag_limit (en_config e) tags, check_wal_fields e text tags with
      | Some err, _ => eng_ret (inl err)
      | None, Some err => eng_ret (inl err)
      | None, None =>
          let& ex := extract_into ast in
          match check_column_limit ex with
          | Some err => eng_ret (inl err)
          | None =>
              let& e := this in
              let class := ap_class (anchor_plan ex (en_dict e) (config_hot_anchor_threshold (en_config e))) in
              if rejects_class_d class ex (config_accept_class_d (en_config e)) then
                count_rejected_class_d ;& eng_ret (inr None)
              else eng_ret (inr (Some (ex, class)))
          end
      end
  end.

Definition wal_put (logical version : N) (text : rstring) (tags : list (rstring * rstring)) (rank : option Z) (source : N)
  (class : CostClass) : WalPut :=
  mkWalPut 0 logical version text tags rank (Some source) (bool_decide (class = ClassD)).

(** ** Live inserts ([ingest/live.rs]) *)

Definition try_insert_live_ranked (text : rstring) (logical version : N) (tags : list (rstring * rstring)) (rank : option Z) :
  Eng A B (WriteError + InsertOutcome) :=
  let& admitted := admit_query text tags in
  match admitted with
  | inl err => eng_ret (inl (WriteParse err))
  | inr None => eng_ret (inr InsertRejectedClassD)
  | inr (Some (ex, class)) =>
      let& source := allocate_source_generation in
      let& failed := log_mutation (AppendInsert (wal_put logical version text tags rank source class)) in
      match failed with
      | Some err => eng_ret (inl (WriteWal err))
      | None =>
          let& tag_ids := intern_tags_into tags in
          let& e := this in
          let& added := add_to_memtable ex tag_ids logical version (default (legacy_rank_values (en_tag_dict e) tag_ids) rank)
                          placement_standalone source (knobs_accepting true (en_config e)) in
          match added with
          | Some added =>
              record_compiled added ;&
              refresh_phrase_capability ;&
              publish_source logical text version source tags ;&
              maybe_flush ;&
              eng_ret (inr (Inserted (stored_row_of added)))
          | None => count_rejected_class_d ;& eng_ret (inr InsertRejectedClassD)
          end
      end
  end.

(** [insert_live_with_tags]. *)
Definition insert_live_with_tags (text : rstring) (logical version : N) (tags : list (rstring * rstring)) : Eng A B (option N) :=
  let& r := try_insert_live_ranked text logical version tags None in
  match r with
  | inr (Inserted stored) => eng_ret (Some (sr_local stored))
  | inr InsertRejectedClassD => eng_ret None
  | inl (WriteParse _) => count_rejected_parse ;& eng_ret None
  | inl (WriteWal _) => eng_ret None
  end.

(** ** Copies of a logical id *)

(** The live rows of [logical] in a segment, by the reverse index. *)
Definition live_locals seg (logical : N) : list N := List.filter (seg_is_alive seg) (locals_for_logical seg logical).

(** The live copies in the base segments ([Some] index) and in the memtable
    ([usize::MAX] in the source, here [None]). *)
Definition segment_copies e (logical : N) : list (option nat * N) :=
  mjoin (imap (λ i b, (λ local, (Some i, local)) <$> live_locals (base_seg b) logical) (en_segments e)).

Definition memtable_copies e (logical : N) : list (option nat * N) :=
  (λ local, (None, local)) <$> live_locals (en_memtable e) logical.

(** [tombstone] in the segment of this index; no segment has a larger index. *)
Definition tombstone_segment (index : nat) (local : N) : Eng A B unit :=
  let& e := this in
  match en_segments e !! index with
  | Some b => let& b := reckon (base_tombstone local b) in assigning (with_segments (<[index := b]> (en_segments e)))
  | None => eng_ret tt
  end.

Definition tombstone_memtable (local : N) : Eng A B unit :=
  let& e := this in
  let& seg := reckon (tombstone local (en_memtable e)) in
  assigning (with_memtable seg).

Definition tombstone_copy (copy : option nat * N) : Eng A B unit :=
  match copy with
  | (None, local) => tombstone_memtable local
  | (Some index, local) => tombstone_segment index local
  end.

(** ** Upserts *)

Definition apply_upsert (ex : Extracted) (text : rstring) (logical version : N) (tags : list (rstring * rstring)) (rank : option Z)
  (source : N) (tombstone_in_segments accept : bool) : Eng A B UpsertOutcome :=
  let& e := this in
  let prior := (if tombstone_in_segments then segment_copies e logical else []) ++ memtable_copies e logical in
  let& tag_ids := intern_tags_into tags in
  let& e := this in
  let& added := add_to_memtable ex tag_ids logical version (default (legacy_rank_values (en_tag_dict e) tag_ids) rank)
                  placement_standalone source (knobs_accepting accept (en_config e)) in
  match added with
  | None => eng_ret UpsertRejectedClassD
  | Some added =>
      record_compiled added ;&
      run_each prior tombstone_copy ;&
      refresh_phrase_capability ;&
      publish_source logical text version source tags ;&
      eng_ret (match prior with
               | [] => Created (stored_row_of added)
               | _ => Updated (stored_row_of added) (length prior)
               end)
  end.

Definition try_upsert_live_ranked (text : rstring) (logical version : N) (tags : list (rstring * rstring)) (rank : option Z) :
  Eng A B (WriteError + UpsertOutcome) :=
  let& admitted := admit_query text tags in
  match admitted with
  | inl err => eng_ret (inl (WriteParse err))
  | inr None => eng_ret (inr UpsertRejectedClassD)
  | inr (Some (ex, class)) =>
      let& source := allocate_source_generation in
      let& failed := log_mutation (AppendUpsert (wal_put logical version text tags rank source class)) in
      match failed with
      | Some err => eng_ret (inl (WriteWal err))
      | None =>
          let& outcome := apply_upsert ex text logical version tags rank source true true in
          (match outcome with UpsertRejectedClassD => eng_ret tt | _ => maybe_flush end) ;&
          eng_ret (inr outcome)
      end
  end.

(** ** Deletes ([ingest/delete.rs]) *)

(** [tombstone]: [None] is success. *)
Definition tombstone_local (local : N) : Eng A B (option LogError) :=
  let& e := this in
  if bool_decide (is_Some (en_wal e)) && en_owns_manifest e && negb (base_segments_are_committed e) then
    eng_ret (Some (InvalidInput "an earlier flush is not committed, so a memtable position is not a replay-safe address; delete by logical id instead"))
  else
    let& failed := log_mutation (AppendTombstone (umax 32) local) in
    match failed with
    | Some err => eng_ret (Some err)
    | None => tombstone_memtable local ;& refresh_phrase_capability ;& eng_ret None
    end.

Record SegmentAddress := mkSegmentAddress {
  sa_generation : N;
  sa_segment : nat;
  sa_local : N;
  sa_logical : N;
}.

Inductive TombstoneError :=
  | SegmentNotFound (segment : nat)
  | LocalNotFound (segment : nat) (local : N)
  | AlreadyDeleted (segment : nat) (local : N)
  | StaleAddress (segment : nat) (local : N)
  | SegmentIndexOverflow (segment : nat)
  | TombstoneWal (err : LogError).

Definition position_of (g : N) (l : list N) : option nat := fst <$> list_find (λ g', g' = g) l.

(** [segment_address]; [None] is a panic (a row without a logical id). *)
Definition segment_address e (seg_idx : nat) (local logical : N) : option (TombstoneError + SegmentAddress) :=
  match en_segments e !! seg_idx with
  | None => Some (inl (SegmentNotFound seg_idx))
  | Some b =>
      let seg := base_seg b in
      if (seg_len seg <=? usize local)%nat then Some (inl (LocalNotFound seg_idx local))
      else if negb (seg_is_alive seg local) then Some (inl (AlreadyDeleted seg_idx local))
      else
        row_logical ← xs_logical (sg_exact seg) !! usize local;
        if negb (row_logical =? logical) then Some (inl (StaleAddress seg_idx local))
        else
          match en_generations e !! seg_idx with
          | None => Some (inl (StaleAddress seg_idx local))
          | Some generation =>
              if en_owns_manifest e && data_dir (en_config e) && negb (existsb (N.eqb generation) (en_committed_generations e))
              then Some (inl (StaleAddress seg_idx local))
              else Some (inr (mkSegmentAddress generation seg_idx local logical))
          end
  end.

(** [tombstone_in], up to the log: the index in the vector and the one to log. *)
Definition resolve_address e (a : SegmentAddress) : option (TombstoneError + (nat * nat)) :=
  let stale := Some (inl (StaleAddress (sa_segment a) (sa_local a))) in
  match position_of (sa_generation a) (en_generations e) with
  | None => stale
  | Some seg_idx =>
      match en_segments e !! seg_idx with
      | None => stale
      | Some b =>
          let seg := base_seg b in
          if (seg_len seg <=? usize (sa_local a))%nat then stale
          else
            row_logical ← xs_logical (sg_exact seg) !! usize (sa_local a);
            if negb (row_logical =? sa_logical a) then stale
            else if negb (seg_is_alive seg (sa_local a)) then Some (inl (AlreadyDeleted seg_idx (sa_local a)))
            else
              let replay_seg_idx :=
                if en_owns_manifest e && data_dir (en_config e) then position_of (sa_generation a) (en_committed_generations e)
                else Some seg_idx in
              match replay_seg_idx with
              | None => stale
              | Some replay_seg_idx =>
                  if umax 32 <? N.of_nat replay_seg_idx then Some (inl (SegmentIndexOverflow replay_seg_idx))
                  else Some (inr (seg_idx, replay_seg_idx))
              end
      end
  end.

Definition tombstone_in (a : SegmentAddress) : Eng A B (option TombstoneError) :=
  let& e := this in
  let& resolved := reckon (resolve_address e a) in
  match resolved with
  | inl err => eng_ret (Some err)
  | inr (seg_idx, replay_seg_idx) =>
      let& failed := log_mutation (AppendTombstone (N.of_nat replay_seg_idx) (sa_local a)) in
      match failed with
      | Some err => eng_ret (Some (TombstoneWal err))
      | None => tombstone_segment seg_idx (sa_local a) ;& refresh_phrase_capability ;& eng_ret None
      end
  end.

Definition has_live_segment_copy e (logical : N) : bool := existsb (λ b, nonempty (live_locals (base_seg b) logical)) (en_segments e).

Definition source_removed (logical : N) : Eng A B unit := writing_store (source_remove logical).

(** [apply_delete_by_logical]: how many rows were tombstoned. *)
Definition apply_delete_by_logical (logical : N) (tombstone_in_segments : bool) : Eng A B nat :=
  let& e := this in
  let copies := (if tombstone_in_segments then segment_copies e logical else []) ++ memtable_copies e logical in
  run_each copies tombstone_copy ;&
  (if nonempty copies then
     let& e := this in
     (if tombstone_in_segments || negb (has_live_segment_copy e logical) then source_removed logical else eng_ret tt) ;&
     refresh_phrase_capability
   else eng_ret tt) ;&
  eng_ret (length copies).

Definition delete_by_logical_id (logical : N) : Eng A B (LogError + nat) :=
  let& failed := log_mutation (AppendDeleteLogical logical) in
  match failed with
  | Some err => eng_ret (inl err)
  | None => let& count := apply_delete_by_logical logical true in eng_ret (inr count)
  end.

(** ** Replaying ([ingest/extracted.rs], [ingest/live.rs], [ingest/delete.rs]) *)

Definition source_generation_at seg (local : N) : option N := source_generation (sg_exact seg) !! usize local.

Definition retire_replayed_copies (logical : N) (kept : option N) : Eng A B nat :=
  let& e := this in
  let replaced := List.filter (λ local, bool_decide (source_generation_at (en_memtable e) local ≠ kept)) (live_locals (en_memtable e) logical) in
  run_each replaced tombstone_memtable ;&
  (if nonempty replaced then
     let& e := this in
     (if negb (nonempty (live_locals (en_memtable e) logical)) && negb (has_live_segment_copy e logical)
      then source_removed logical else eng_ret tt) ;&
     refresh_phrase_capability
   else eng_ret tt) ;&
  eng_ret (length replaced).

Definition replay_insert (p : WalPut) : Eng A B unit :=
  let& parsed := reckon (parse_for_recovery (wp_text p)) in
  match parsed with
  | inl _ => eng_ret tt
  | inr ast =>
      let& tag_ids := intern_tags_into (wp_tags p) in
      let& e := this in
      let rank := default (legacy_rank_values (en_tag_dict e) tag_ids) (wp_priority p) in
      let& ex := extract_into ast in
      let& source := replay_source_generation (wp_source_generation p) in
      let& added := add_to_memtable ex tag_ids (wp_logical p) (wp_version p) rank placement_standalone source
                      (knobs_accepting (wp_class_d_accepted p) (en_config e)) in
      match added with
      | Some added =>
          record_compiled added ;&
          refresh_phrase_capability ;&
          publish_source (wp_logical p) (wp_text p) (wp_version p) source (wp_tags p)
      | None => eng_ret tt
      end
  end.

Definition replay_upsert (p : WalPut) (tombstone_in_segments : bool) : Eng A B unit :=
  let& parsed := reckon (parse_for_recovery (wp_text p)) in
  match parsed with
  | inl _ => eng_ret tt
  | inr ast =>
      let& ex := extract_into ast in
      let& source := replay_source_generation (wp_source_generation p) in
      let& _ := apply_upsert ex (wp_text p) (wp_logical p) (wp_version p) (wp_tags p) (wp_priority p) source
                  tombstone_in_segments (wp_class_d_accepted p) in
      eng_ret tt
  end.

Definition replay_tombstone (seg_idx local : N) : Eng A B unit :=
  (if seg_idx =? umax 32 then tombstone_memtable local else tombstone_segment (usize seg_idx) local) ;&
  refresh_phrase_capability.

(** ** The write path of a cluster shard ([ingest/extracted.rs], [ingest/replace.rs]) *)

Definition insert_extracted_with_placement (ex : Extracted) (logical version : N) (text : rstring) (tags : list (rstring * rstring))
  (placement : QueryPlacement) : Eng A B (option N) :=
  let& e := this in
  let tag_ids := resolve_tags_readonly (en_tag_dict e) tags in
  let rank := cluster_rank_values (en_tag_dict e) tags tag_ids in
  let& source := allocate_source_generation in
  let& added := add_to_memtable ex tag_ids logical version rank placement source (compile_knobs (en_config e)) in
  match added with
  | Some added =>
      record_compiled added ;&
      refresh_phrase_capability ;&
      publish_source logical text version source tags ;&
      eng_ret (Some (ac_local added))
  | None => count_rejected_class_d ;& eng_ret None
  end.

Definition live_copies e (logical : N) : list (option nat * N) := segment_copies e logical ++ memtable_copies e logical.

Inductive HeldPlacement := HeldAbsent | HeldSame | HeldDifferent.

Definition copy_placement e (copy : option nat * N) : option QueryPlacement :=
  match copy with
  | (None, local) => placement_of (sg_exact (en_memtable e)) local
  | (Some index, local) => b ← en_segments e !! index; placement_of (sg_exact (base_seg b)) local
  end.

(** [all] stops at the first copy with another placement. *)
Fixpoint all_placed e (placement : QueryPlacement) (copies : list (option nat * N)) : option bool :=
  match copies with
  | [] => Some true
  | c :: copies' => p ← copy_placement e c; if placement_matches p placement then all_placed e placement copies' else Some false
  end.

Definition held_placement e (logical : N) (placement : QueryPlacement) : option HeldPlacement :=
  match live_copies e logical with
  | [] => Some HeldAbsent
  | copies => same ← all_placed e placement copies; Some (if same : bool then HeldSame else HeldDifferent)
  end.

Inductive ReplaceOutcome := Replaced (removed : nat) | ReplaceInserted | ReplaceRejected.

Definition replace_extracted_with_placement (ex : Extracted) (logical version : N) (text : rstring) (tags : list (rstring * rstring))
  (placement : QueryPlacement) : Eng A B ReplaceOutcome :=
  let& e := this in
  let prior := live_copies e logical in
  let& inserted := insert_extracted_with_placement ex logical version text tags placement in
  match inserted with
  | None => eng_ret ReplaceRejected
  | Some _ =>
      run_each prior tombstone_copy ;&
      match prior with
      | [] => eng_ret ReplaceInserted
      | _ => refresh_phrase_capability ;& eng_ret (Replaced (length prior))
      end
  end.

(** ** Batches ([ingest/bulk.rs], [ingest.rs]) *)

Inductive IngestItemStatus := Ingested (class : CostClass) | ItemRejectedParse (err : ParseError) | ItemRejectedClassD.

Definition add_ingested (r : IngestReport) : IngestReport :=
  mkIngestReport (ingested r + 1) (report_rejected_parse r) (report_rejected_class_d r).
Definition add_rejected_parse (r : IngestReport) : IngestReport :=
  mkIngestReport (ingested r) (report_rejected_parse r + 1) (report_rejected_class_d r).
Definition add_rejected_class_d (r : IngestReport) : IngestReport :=
  mkIngestReport (ingested r) (report_rejected_parse r) (report_rejected_class_d r + 1).

(** What pass A leaves: the compiled queries with their index, id and text, a
    provisional status per query, and the report so far. *)
Record PassA := mkPassA {
  pa_extracted : list (nat * N * Extracted * rstring);
  pa_status : list IngestItemStatus;
  pa_report : IngestReport;
}.

(** Pass A: parse and extract every query. *)
Fixpoint extract_batch (idx : nat) (pa : PassA) (queries : list (N * rstring)) : Eng A B PassA :=
  match queries with
  | [] => eng_ret pa
  | (logical, text) :: queries' =>
      let& e := this in
      let& parsed := reckon (parse_with_limits text (parse_limits (en_config e))) in
      match parsed with
      | inr ast =>
          let& ex := extract_into ast in
          extract_batch (S idx) (mkPassA (pa_extracted pa ++ [(idx, logical, ex, text)]) (pa_status pa ++ [Ingested ClassA]) (pa_report pa)) queries'
      | inl err =>
          count_rejected_parse ;&
          extract_batch (S idx) (mkPassA (pa_extracted pa) (pa_status pa ++ [ItemRejectedParse err]) (add_rejected_parse (pa_report pa))) queries'
      end
  end.

(** [dict.finalize_mask()], which assigns once; [order] is the order it sorts the
    ids of equal frequency in. *)
Definition finalize_dict (order : Dict → list N) : Eng A B unit :=
  let& e := this in
  let& d := reckon (finalize_mask (order (en_dict e)) (en_dict e)) in
  assigning (with_dict d).

Definition tags_at (tags : list (list (rstring * rstring))) (idx : nat) : list (rstring * rstring) := default [] (tags !! idx).

(** The tag ids of every compiled query, [None] for one over the limit. *)
Fixpoint intern_batch (tags : list (list (rstring * rstring))) (extracted : list (nat * N * Extracted * rstring)) :
  Eng A B (list (option (list N))) :=
  match extracted with
  | [] => eng_ret []
  | (idx, _, _, _) :: extracted' =>
      let& e := this in
      let qtags := tags_at tags idx in
      let& ids := match check_tag_limit (en_config e) qtags with
                  | Some _ => eng_ret None
                  | None => let& ids := intern_tags_into qtags in eng_ret (Some ids)
                  end in
      let& rest := intern_batch tags extracted' in
      eng_ret (ids :: rest)
  end.

(** Pass B's state: the segment, the documents of the accepted queries, the status
    per query and the report. *)
Record Batch := mkBatch {
  bt_seg : Segment B;
  bt_accepted : list (N * StoredSource);
  bt_status : list IngestItemStatus;
  bt_report : IngestReport;
}.

Definition batch_item (tags : list (list (rstring * rstring))) (ranks : list (option Z)) (bt : Batch)
  (item : nat * N * Extracted * rstring) (tag_ids : option (list N)) : Eng A B Batch :=
  let '(idx, logical, ex, text) := item in
  let rejecting err :=
    count_rejected_parse ;&
    eng_ret (mkBatch (bt_seg bt) (bt_accepted bt) (<[idx := ItemRejectedParse err]> (bt_status bt)) (add_rejected_parse (bt_report bt))) in
  match tag_ids with
  | None => rejecting (mkParseError TooManyTags 0)
  | Some tag_ids =>
      match check_column_limit ex with
      | Some err => rejecting err
      | None =>
          let& e := this in
          let rank := default (legacy_rank_values (en_tag_dict e) tag_ids) (mjoin (ranks !! idx)) in
          let& source := allocate_source_generation in
          let& (added, seg) := reckon (add_compiled ex tag_ids (en_dict e) logical 1 rank placement_standalone source
                                 (compile_knobs (en_config e)) (bt_seg bt)) in
          match added with
          | None =>
              count_rejected_class_d ;&
              eng_ret (mkBatch seg (bt_accepted bt) (<[idx := ItemRejectedClassD]> (bt_status bt)) (add_rejected_class_d (bt_report bt)))
          | Some added =>
              record_compiled added ;&
              eng_ret (mkBatch seg (bt_accepted bt ++ [(logical, source_with_generation text 1 source (tags_at tags idx) true)])
                (<[idx := Ingested (ac_class added)]> (bt_status bt)) (add_ingested (bt_report bt)))
          end
      end
  end.

Fixpoint batch_items (tags : list (list (rstring * rstring))) (ranks : list (option Z)) (bt : Batch)
  (items : list ((nat * N * Extracted * rstring) * option (list N))) : Eng A B Batch :=
  match items with
  | [] => eng_ret bt
  | (item, tag_ids) :: items' => let& bt := batch_item tags ranks bt item tag_ids in batch_items tags ranks bt items'
  end.

(** The body shared by the two batch operations: the batch compiled into a sealed
    segment and committed; [None] is a failed seal or commit. *)
Definition ingest_batch (order : Dict → list N) (queries : list (N * rstring)) (tags : list (list (rstring * rstring)))
  (ranks : list (option Z)) : Eng A B (option (IngestReport * list IngestItemStatus)) :=
  let& sealed := seal_before_first_mask in
  if negb sealed then eng_ret None else
  let& pa := extract_batch 0 (mkPassA [] [] (mkIngestReport 0 0 0)) queries in
  finalize_dict order ;&
  let& tag_ids := intern_batch tags (pa_extracted pa) in
  let& e := this in
  let& bt := batch_items tags ranks (mkBatch (with_epoch (en_vocab_epoch e) segment_new) [] (pa_status pa) (pa_report pa))
               (zip (pa_extracted pa) tag_ids) in
  let& seg := reckon (seg_build_filter (bt_seg bt)) in
  let& committed := commit_base_segment seg (bt_accepted bt) in
  eng_ret (if committed : bool then Some (bt_report bt, bt_status bt) else None).

(** [try_build_from_queries_with_tags]. *)
Definition try_build_from_queries_with_tags (order : Dict → list N) (queries : list (N * rstring))
  (tags : list (list (rstring * rstring))) : Eng A B (option IngestReport) :=
  let& r := ingest_batch order queries tags [] in
  eng_ret (fst <$> r).

(** [try_bulk_ingest_detailed_with_tags_and_ranks]. *)
Definition try_bulk_ingest_detailed_with_tags_and_ranks (order : Dict → list N) (queries : list (N * rstring))
  (tags : list (list (rstring * rstring))) (ranks : list (option Z)) : Eng A B (option (IngestReport * list IngestItemStatus)) :=
  let& r := ingest_batch order queries tags ranks in
  match r with
  | None => eng_ret None
  | Some r =>
      let& e := this in
      (if auto_compact_on_ingest (en_config e) then let& _ := maybe_compact in eng_ret tt else eng_ret tt) ;&
      eng_ret (Some r)
  end.

End ingest.
