(* ===== verification/Open.v ===== *)
(** * Opening an engine ([engine/src/segment/lifecycle/construct.rs], [lifecycle/recovery.rs], [lifecycle/recovery/open.rs])

    A new engine, and the engine that a data directory recovers to: the manifest,
    its segments with their deletions, the source sidecar, and the tail of the
    write-ahead log replayed over them.

    The open has an engine to fill in from the start.  Not modelled: the check of
    the recorded feature model, the rebuild of segments written by older versions,
    and the acceptance of a lost log (which is refused here, as by default). *)

From S2P Require Import Prelude Util Text Utf8 Dsl Dictionary FramedLog Wal SourceFile Sources Index Phrase Automaton Normalize Compile Extract Plan.
From S2P Require Import View Ownership Tags Store Segment Merge Engine Compaction Ingest.

Inductive OpenError :=
  | OpenManifest
  | OpenUnsupportedSegment
  | OpenLostLog
  | OpenLog (err : LogError)
  | OpenGenerationsExhausted.

Section recovery.
Context {A B : Type} `{Daachorse A} `{Roaring B}.
Implicit Types (e : Engine A B) (seg : Segment B).

Definition stats_new : EngineStats := mkEngineStats 0 0 0 0 0 ∅.

(** [with_shared], the log given; [with_config] shares empty dictionaries. *)
Definition with_shared (norm : Normalizer A) (dict : Dict) (tag_dict : TagDict) (config : EngineConfig) (wal : option Wal) : Engine A B :=
  mkEngine config norm dict tag_dict [] [] [] segment_new 0 stats_new wal 1 1 true true (store_empty (retain_source config)) 0 0 Ready
    None 0 0 (Some 0) Synced true 0.

Definition with_config (norm : Normalizer A) (config : EngineConfig) (wal : option Wal) : Engine A B :=
  with_shared norm dict_new tag_dict_new config wal.

(** [has_materialized_source_generation]. *)
Definition holds_generation (logical source : N) seg : bool :=
  existsb (λ local, bool_decide (source_generation_at seg local = Some source)) (locals_for_logical seg logical).

Definition has_materialized_source_generation e (logical : N) (source : option N) : bool :=
  match source with
  | Some g => if g =? 0 then false else holds_generation logical g (en_memtable e) || existsb (λ b, holds_generation logical g (base_seg b)) (en_segments e)
  | None => false
  end.

(** ** Replaying the log *)

Definition captured e (watermark : N) (p : WalPut) : bool :=
  bool_decide (en_sealed_through e = None) && (wp_seq p <=? watermark) &&
  has_materialized_source_generation e (wp_logical p) (wp_source_generation p).

Definition is_sealed (sealed_through : option N) (entry : WalEntry) : bool :=
  match sealed_through with Some sealed => entry_seq entry <=? sealed | None => false end.

(** The body of the loop; [sealed_through] is read before the loop. *)
Definition replay_entry (sealed_through : option N) (watermark : N) (entry : WalEntry) : Eng A B unit :=
  if is_sealed sealed_through entry then eng_ret tt else
  match entry with
  | WalInsert p =>
      let& e := this in
      if captured e watermark p then eng_ret tt else replay_insert p
  | WalTombstone seq seg_idx local =>
      if (seg_idx =? umax 32) || (watermark <? seq) then replay_tombstone seg_idx local else eng_ret tt
  | WalDeleteByLogical seq logical => let& _ := apply_delete_by_logical logical (watermark <? seq) in eng_ret tt
  | WalUpsert p =>
      let& e := this in
      if captured e watermark p then let& _ := retire_replayed_copies (wp_logical p) (wp_source_generation p) in eng_ret tt
      else replay_upsert p (watermark <? wp_seq p)
  | WalFlushCheckpoint _ _ => eng_ret tt
  end.

Definition replay_entries (sealed_through : option N) (watermark : N) (entries : list WalEntry) : Eng A B unit :=
  run_each entries (replay_entry sealed_through watermark).

(** [take_repaired_tail_bytes]: only the event depends on the count. *)
Definition take_repaired_tail_bytes (w : Wal) : Wal := mkWal (wal_file w) (next_seq w) (size_bytes w) (pending_entries w) 0.

Definition replay_wal_tail (wal : Wal) (watermark : N) : Eng A B (option OpenError) :=
  let& recovered := reckon (recover (la_file (wal_file wal))) in
  match recovered with
  | inl err => eng_ret (Some (OpenLog err))
  | inr recovery =>
      assigning (λ e, with_wal (take_repaired_tail_bytes <$> en_wal e) e) ;&
      let& e := this in
      replay_entries (en_sealed_through e) watermark (wr_entries recovery) ;&
      eng_ret None
  end.

(** ** Reopening *)

(** A segment with the rows of the manifest's bitmap dead. *)
Definition restore_tombstones (m : Manifest) (file : N) seg : option (Segment B) :=
  match list_find (λ p, p.1 = file) (mf_segment_tombstones m) with
  | Some (_, (_, dead)) => foldM (λ seg local, tombstone local seg) seg dead
  | None => Some seg
  end.

(** The segments that open, and how many were skipped. *)
Fixpoint open_segments (m : Manifest) (files : list N) (segs : list (BaseSegment B)) (skipped : nat) :
  Eng A B (OpenError + (list (BaseSegment B) * nat)) :=
  match files with
  | [] => eng_ret (inr (segs, skipped))
  | file :: files' =>
      let& out := disk_step in
      let& d := the_disk in
      match out, dk_segments d !! file with
      | Fault (S _), _ => eng_ret (inl OpenUnsupportedSegment)
      | Fine, Some seg => let& seg := reckon (restore_tombstones m file seg) in open_segments m files' (segs ++ [Mmap file seg]) skipped
      | _, _ => open_segments m files' segs (S skipped)
      end
  end.

(** The selected sidecar; [None] when it cannot be loaded. *)
Definition load_sources (m : Manifest) (retain : bool) : Eng A B (option SourceStore) :=
  let& out := disk_step in
  let& d := the_disk in
  let data := dk_sources d !! mf_source_file m in
  match out with
  | Fault _ => eng_ret None
  | Fine =>
      if negb (mf_source_file m =? 0) && bool_decide (data = None) then eng_ret None else
      match store_open data retain with
      | inl _ => eng_ret None
      | inr (data', s) =>
          (match data' with Some bytes => on_disk (put_source (mf_source_file m) bytes) | None => eng_ret tt end) ;&
          eng_ret (Some s)
      end
  end.

Definition seed_next_source_generation (segments : list (BaseSegment B)) (store : SourceStore) : option N :=
  let exact_max := max_of ((λ b, max_of (source_generation (sg_exact (base_seg b)))) <$> segments) in
  checked_add 64 (N.max exact_max (max_source_generation store)) 1.

Fixpoint fresh_segment_generations (count : nat) : Eng A B (list N) :=
  match count with
  | O => eng_ret []
  | S count' =>
      let& g := fresh_segment_generation in
      let& gs := fresh_segment_generations count' in
      eng_ret (g :: gs)
  end.

(** The recovered engine, before the log is replayed. *)
Definition recovered_engine e (m : Manifest) (segments : list (BaseSegment B)) (generations : list N) (skipped : nat) (wal : Wal)
  (store : option SourceStore) (next_source : N) : Engine A B :=
  let whole := bool_decide (skipped = O) && bool_decide (is_Some store) in
  mkEngine (en_config e) (en_norm e) (mf_dict m) (mf_tag_dict m) segments generations
    (if bool_decide (skipped = O) then generations else []) segment_new
    (length (List.filter (λ b, seg_has_phrases (base_seg b)) segments))
    (mkEngineStats (mf_rejected_parse m) (mf_rejected_class_d m) 0 0 0 ∅)
    (Some wal) (mf_next_seg_id m) next_source true whole (default (store_empty (retain_source (en_config e))) store) (en_store_version e + 1)
    (mf_source_file m) (if whole then Ready else IncompleteRecovery) None 0 (mf_watermark m) (mf_sealed_through m) Synced true (en_next_token e).

(** [read_manifest_publishing_again]: the manifest is published again before
    anything is built on it. *)
Definition publish_again (m : Manifest) : Eng A B bool :=
  let& out := disk_step in
  match out with
  | Fine => on_disk (λ d, mkDisk (Some m) None (dk_segments d) (dk_sources d)) ;& eng_ret true
  | Fault _ => eng_ret false
  end.

(** The state of the manifest; its log and watermark are left to replay. *)
Definition open_manifest (m : Manifest) (wal_bytes : option (list N)) : Eng A B (OpenError + (Wal * N)) :=
  let& published := publish_again m in
  if negb published then eng_ret (inl OpenManifest) else
  let& opened := open_segments m (mf_segment_files m) [] 0 in
  match opened with
  | inl err => eng_ret (inl err)
  | inr (segments, skipped) =>
      match wal_bytes with
      | None => eng_ret (inl OpenLostLog)
      | Some bytes =>
          let& wal := reckon (wal_open (Some bytes)) in
          match wal with
          | inl err => eng_ret (inl (OpenLog err))
          | inr wal =>
              let wal := ensure_seq_after wal (N.max (mf_watermark m) (default 0 (mf_sealed_through m))) in
              let& e := this in
              let& store := load_sources m (retain_source (en_config e)) in
              match seed_next_source_generation segments (default (store_empty (retain_source (en_config e))) store) with
              | None => eng_ret (inl OpenGenerationsExhausted)
              | Some next_source =>
                  let& generations := fresh_segment_generations (length segments) in
                  assigning (λ e, recovered_engine e m segments generations skipped wal store next_source) ;&
                  mark_selected_sources_current ;&
                  eng_ret (inr (wal, mf_watermark m))
              end
          end
      end
  end.

(** [open_inner] up to the replay: of the engine under construction, over the bytes
    of the log. *)
Definition open_committed (wal_bytes : option (list N)) : Eng A B (OpenError + (Wal * N)) :=
  let& d := the_disk in
  match dk_manifest d with
  | Some m => open_manifest m wal_bytes
  | None =>
      let& wal := reckon (wal_open wal_bytes) in
      match wal with
      | inl err => eng_ret (inl (OpenLog err))
      | inr wal => assigning (with_wal (Some wal)) ;& eng_ret (inr (wal, 0))
      end
  end.

Definition open_engine (wal_bytes : option (list N)) : Eng A B (option OpenError) :=
  let& r := open_committed wal_bytes in
  match r with
  | inl err => eng_ret (Some err)
  | inr (wal, watermark) => replay_wal_tail wal watermark
  end.

(** [Engine::open] of a data directory. *)
Definition open (norm : Normalizer A) (config : EngineConfig) (d : Disk B) (wal_bytes : option (list N)) (faults : list StepOutcome) :
  option (option OpenError * World A B) :=
  open_engine wal_bytes (mkWorld (with_config norm config None) d faults).

End recovery.
