(* ===== verification/EngineLogic.v ===== *)
(** * Reasoning about engine operations

    [wp m Q w]: from the world [w] the operation [m] does not panic, and its result
    and the world it leaves satisfy [Q].  The rules follow the operations of the
    engine monad.  [inert m] says that [m] changes nothing that bears on the stored
    documents: statistics, health flags, the source store and its sidecar may
    change; dictionaries, segments, memtable, log and manifest do not. *)

From S2P Require Import Prelude Util Text Dictionary Wal SourceFile SourceCodec Sources Index Phrase Automaton Normalize Compile Plan Ownership Tags Store.
From S2P Require Import Segment Engine.

Section wp.
Context {A B : Type}.
Implicit Types w : World A B.

Definition wp {X} (m : Eng A B X) (Q : X → World A B → Prop) w : Prop :=
  match m w with Some (x, w') => Q x w' | None => False end.

Lemma wp_mono {X} (m : Eng A B X) (Q Q' : X → World A B → Prop) w :
  wp m Q w → (∀ x w', Q x w' → Q' x w') → wp m Q' w.
Proof. unfold wp. destruct (m w) as [[x w']|]; auto. Qed.

Lemma wp_ret {X} (x : X) (Q : X → World A B → Prop) w : Q x w → wp (eng_ret x) Q w.
Proof. done. Qed.

Lemma wp_bind {X Y} (m : Eng A B X) (k : X → Eng A B Y) Q w :
  wp m (λ x w', wp (k x) Q w') w → wp (eng_bind m k) Q w.
Proof. unfold wp, eng_bind. by destruct (m w) as [[x w']|]. Qed.

Lemma wp_bind_inv {X Y} (m : Eng A B X) (k : X → Eng A B Y) Q w :
  wp (eng_bind m k) Q w → wp m (λ x w', wp (k x) Q w') w.
Proof. unfold wp, eng_bind. by destruct (m w) as [[x w']|]. Qed.

Lemma wp_assoc {X Y Z} (m : Eng A B X) (k : X → Eng A B Y) (r : Y → Eng A B Z) Q w :
  wp (eng_bind (eng_bind m k) r) Q w → wp (eng_bind m (λ x, eng_bind (k x) r)) Q w.
Proof. unfold wp, eng_bind. by destruct (m w) as [[x w']|]. Qed.

Lemma wp_this (Q : Engine A B → World A B → Prop) w : Q (wo_engine w) w → wp this Q w.
Proof. done. Qed.

Lemma wp_the_disk (Q : Disk B → World A B → Prop) w : Q (wo_disk w) w → wp the_disk Q w.
Proof. done. Qed.

Lemma wp_assigning f (Q : unit → World A B → Prop) w :
  Q tt (mkWorld (f (wo_engine w)) (wo_disk w) (wo_faults w)) → wp (assigning f) Q w.
Proof. done. Qed.

Lemma wp_on_disk f (Q : unit → World A B → Prop) w :
  Q tt (mkWorld (wo_engine w) (f (wo_disk w)) (wo_faults w)) → wp (on_disk f) Q w.
Proof. done. Qed.

Lemma wp_disk_step (Q : StepOutcome → World A B → Prop) w :
  (∀ out faults, Q out (mkWorld (wo_engine w) (wo_disk w) faults)) → wp disk_step Q w.
Proof.
  intros HQ. unfold wp, disk_step. destruct w as [e k [|f rest]]; simpl in *; [|apply HQ]. exact (HQ Fine []).
Qed.

Lemma wp_reckon {X} (o : option X) (Q : X → World A B → Prop) w x : o = Some x → Q x w → wp (reckon o) Q w.
Proof. intros -> HQ. exact HQ. Qed.

(** The rule of a specification with its frame: what holds after [m] is all that
    the rest may use. *)
Lemma wp_step {X Y} (m : Eng A B X) (k : X → Eng A B Y) P Q w :
  wp m P w → (∀ x w', P x w' → wp (k x) Q w') → wp (eng_bind m k) Q w.
Proof. intros Hm Hk. apply wp_bind. by eapply wp_mono. Qed.

(** Three steps of which the first and the last result are used, as one. *)
Lemma wp_three {X Y Z V} (m1 : Eng A B X) (m2 : X → Eng A B Y) (m3 : X → Y → Eng A B Z) (k : X → Z → Eng A B V) Q w :
  wp (let& x := m1 in let& y := m2 x in let& z := m3 x y in eng_ret (x, z)) (λ r, wp (k r.1 r.2) Q) w →
  wp (let& x := m1 in let& y := m2 x in let& z := m3 x y in k x z) Q w.
Proof.
  unfold wp, eng_bind, eng_ret. destruct (m1 w) as [[x w1]|]; [|done]. destruct (m2 x w1) as [[y w2]|]; [|done].
  by destruct (m3 x y w2) as [[z w3]|].
Qed.

Lemma wp_run_each {X} (l : list X) (f : X → Eng A B unit) (I : list X → World A B → Prop) Q w :
  I [] w → (∀ done x w, done ++ [x] `prefix_of` l → I done w → wp (f x) (λ _, I (done ++ [x])) w) →
  (∀ w', I l w' → Q tt w') → wp (run_each l f) Q w.
Proof.
  intros H0 Hstep HQ. assert (∀ rest done w, done ++ rest = l → I done w → wp (run_each rest f) (λ _, I l) w) as Hall.
  { induction rest as [|x rest IH]; intros done w1 <- HI; simpl; [apply wp_ret; by rewrite app_nil_r|].
    eapply wp_step; [apply (Hstep done x w1); [|done]|].
    - exists rest. by rewrite <-app_assoc.
    - intros [] w2 HI2. apply (IH (done ++ [x])); [by rewrite <-app_assoc|done]. }
  eapply wp_mono; [by apply (Hall l [] w)|]. intros []. apply HQ.
Qed.

(** What an operation that returned did. *)
Lemma wp_run {X} (m : Eng A B X) Q w x w' : m w = Some (x, w') → wp m Q w → Q x w'.
Proof. unfold wp. by intros ->. Qed.

Lemma wp_total {X} (m : Eng A B X) Q w : wp m Q w → ∃ x w', m w = Some (x, w') ∧ Q x w'.
Proof. unfold wp. destruct (m w) as [[x w']|]; [|done]. eauto. Qed.

(** ** Steps that leave the documents alone *)

Record same_core (e e' : Engine A B) : Prop := {
  sc_config : en_config e' = en_config e;
  sc_norm : en_norm e' = en_norm e;
  sc_dict : en_dict e' = en_dict e;
  sc_tag_dict : en_tag_dict e' = en_tag_dict e;
  sc_segments : en_segments e' = en_segments e;
  sc_generations : en_generations e' = en_generations e;
  sc_committed : en_committed_generations e' = en_committed_generations e;
  sc_memtable : en_memtable e' = en_memtable e;
  sc_phrases : en_live_phrase_segments e' = en_live_phrase_segments e;
  sc_wal : en_wal e' = en_wal e;
  sc_next_seg_id : en_next_seg_id e' = en_next_seg_id e;
  sc_next_source : en_next_source_generation e' = en_next_source_generation e;
  sc_epoch : en_vocab_epoch e' = en_vocab_epoch e;
  sc_sealed : en_sealed_through e' = en_sealed_through e;
  sc_manifest : en_manifest_on_disk e' = en_manifest_on_disk e;
  sc_owns : en_owns_manifest e' = en_owns_manifest e;
  sc_token : en_next_token e' = en_next_token e;
}.

#[export] Instance same_core_preorder : PreOrder same_core.
Proof. split; [by intros e|]. intros e1 e2 e3 [] []. split; congruence. Qed.

Record calm w w' : Prop := {
  cl_core : same_core (wo_engine w) (wo_engine w');
  cl_manifest : dk_manifest (wo_disk w') = dk_manifest (wo_disk w);
  cl_segments : dk_segments (wo_disk w') = dk_segments (wo_disk w);
}.

#[export] Instance calm_preorder : PreOrder calm.
Proof. split; [by intros w|]. intros w1 w2 w3 [] []. split; [by etrans|congruence..]. Qed.

Definition inert {X} (m : Eng A B X) : Prop := ∀ w, wp m (λ _, calm w) w.

Lemma wp_inert {X Y} (m : Eng A B X) (k : X → Eng A B Y) Q w :
  inert m → (∀ x w', calm w w' → wp (k x) Q w') → wp (eng_bind m k) Q w.
Proof. intros Hm. by apply wp_step. Qed.

Lemma inert_ret {X} (x : X) : inert (eng_ret x).
Proof. by intros w. Qed.

Lemma inert_bind {X Y} (m : Eng A B X) (k : X → Eng A B Y) : inert m → (∀ x, inert (k x)) → inert (eng_bind m k).
Proof. intros Hm Hk w. eapply wp_step; [apply Hm|]. intros x w' Hc. eapply wp_mono; [apply Hk|]. intros y w'' Hc'. by transitivity w'. Qed.

Lemma inert_this : inert this.
Proof. by intros w. Qed.

Lemma inert_the_disk : inert the_disk.
Proof. by intros w. Qed.

Lemma inert_assigning f : (∀ e, same_core e (f e)) → inert (assigning f).
Proof. intros Hf w. by split. Qed.

Lemma inert_on_disk f : (∀ k, dk_manifest (f k) = dk_manifest k ∧ dk_segments (f k) = dk_segments k) → inert (on_disk f).
Proof. intros Hf w. destruct (Hf (wo_disk w)). by split. Qed.

Lemma inert_disk_step : inert disk_step.
Proof. intros w. by apply wp_disk_step. Qed.

Lemma inert_run_each {X} (l : list X) (f : X → Eng A B unit) : (∀ x, inert (f x)) → inert (run_each l f).
Proof. intros Hf. induction l as [|x l IH]; simpl; [apply inert_ret|]. by apply inert_bind. Qed.

End wp.

(** Replaces the fields of the later engine by those of the earlier one. *)
Ltac core Hs :=
  rewrite ?(sc_config _ _ Hs), ?(sc_norm _ _ Hs), ?(sc_dict _ _ Hs), ?(sc_tag_dict _ _ Hs), ?(sc_segments _ _ Hs), ?(sc_generations _ _ Hs),
    ?(sc_committed _ _ Hs), ?(sc_memtable _ _ Hs), ?(sc_phrases _ _ Hs), ?(sc_wal _ _ Hs), ?(sc_next_seg_id _ _ Hs), ?(sc_next_source _ _ Hs), ?(sc_epoch _ _ Hs),
    ?(sc_sealed _ _ Hs), ?(sc_manifest _ _ Hs), ?(sc_owns _ _ Hs), ?(sc_token _ _ Hs).

(** The rules that need no invention. *)
Ltac wp_go1 :=
  lazymatch goal with
  | |- wp (eng_bind _ _) _ _ => apply wp_bind
  | |- wp this _ _ => apply wp_this
  | |- wp the_disk _ _ => apply wp_the_disk
  | |- wp (assigning _) _ _ => apply wp_assigning
  | |- wp (on_disk _) _ _ => apply wp_on_disk
  | |- wp (eng_ret _) _ _ => apply wp_ret
  | |- wp disk_step _ _ => apply wp_disk_step; intros [|[|?]] ?
  end;
  cbn [wo_engine wo_disk wo_faults].
Ltac wp_go := repeat wp_go1.

Create HintDb inert.
#[export] Hint Resolve inert_ret inert_this inert_the_disk inert_disk_step : inert.
#[export] Hint Extern 1 (inert (eng_bind _ _)) => apply inert_bind; [|intros ?] : inert.
#[export] Hint Extern 1 (inert (assigning _)) => (apply inert_assigning; by intros []) : inert.
#[export] Hint Extern 1 (inert (on_disk _)) => (apply inert_on_disk; by intros []) : inert.
#[export] Hint Extern 1 (inert (run_each _ _)) => apply inert_run_each; intros ? : inert.
#[export] Hint Extern 2 (inert (if ?b then _ else _)) => destruct b : inert.
#[export] Hint Extern 2 (inert (match ?x with _ => _ end)) => destruct x : inert.

Section inert.
Context {A B : Type} `{Daachorse A} `{Roaring B}.
Implicit Types (w : World A B) (e : Engine A B).

(** ** The phrase capability *)

(** No segment has a live phrase when the engine believes so. *)
Definition capable e : Prop := en_live_phrase_segments e = O → phrase_segments e = O.

Definition refreshed w : World A B :=
  mkWorld (with_live_phrase_segments (phrase_segments (wo_engine w)) (wo_engine w)) (wo_disk w) (wo_faults w).

Lemma wp_refresh Q w : Q tt (refreshed w) → wp refresh_phrase_capability Q w.
Proof. done. Qed.

Lemma capable_refreshed w : capable (wo_engine (refreshed w)).
Proof. intros E. exact E. Qed.

Lemma capable_same e e' :
  en_live_phrase_segments e' = en_live_phrase_segments e → base_seg <$> en_segments e' = base_seg <$> en_segments e → en_memtable e' = en_memtable e →
  capable e → capable e'.
Proof.
  unfold capable, phrase_segments. intros -> E ->. assert (∀ segs : list (BaseSegment B),
    length (List.filter (λ b, seg_has_phrases (base_seg b)) segs) = length (List.filter seg_has_phrases (base_seg <$> segs))) as Hl; [|by rewrite !Hl, E].
  intros segs. induction segs as [|b segs IH]; [done|]. simpl. destruct (seg_has_phrases (base_seg b)); simpl; by rewrite IH.
Qed.

Lemma capable_core e e' : same_core e e' → capable e → capable e'.
Proof. intros Hs. apply capable_same; by core Hs. Qed.

Lemma phrase_segments_none e :
  phrase_segments e = O ↔ seg_has_phrases (en_memtable e) = false ∧ Forall (λ b, seg_has_phrases (base_seg b) = false) (en_segments e).
Proof.
  unfold phrase_segments. assert (∀ segs : list (BaseSegment B),
    length (List.filter (λ b, seg_has_phrases (base_seg b)) segs) = O ↔ Forall (λ b, seg_has_phrases (base_seg b) = false) segs) as Hl.
  { induction segs as [|b segs IH]; [done|]. simpl. rewrite Forall_cons. destruct (seg_has_phrases (base_seg b)); simpl; naive_solver. }
  rewrite <-Hl. destruct (seg_has_phrases (en_memtable e)); naive_solver lia.
Qed.

(** ** Inert operations *)

Lemma record_compiled_inert added : inert (record_compiled (A:=A) (B:=B) added).
Proof. unfold record_compiled. auto with inert. Qed.

Lemma count_rejected_parse_inert : inert (count_rejected_parse (A:=A) (B:=B)).
Proof. unfold count_rejected_parse. auto with inert. Qed.

Lemma count_rejected_class_d_inert : inert (count_rejected_class_d (A:=A) (B:=B)).
Proof. unfold count_rejected_class_d. auto with inert. Qed.

Lemma writing_store_inert f : inert (writing_store (A:=A) (B:=B) f).
Proof. unfold writing_store. auto with inert. Qed.

Lemma unhealthy_inert : inert (unhealthy (A:=A) (B:=B)).
Proof. unfold unhealthy. auto with inert. Qed.

Lemma mark_selected_inert : inert (mark_selected_sources_current (A:=A) (B:=B)).
Proof. unfold mark_selected_sources_current. auto with inert. Qed.

Lemma stage_query_sources_inert updates : inert (stage_query_sources (A:=A) (B:=B) updates).
Proof. pose proof unhealthy_inert. unfold stage_query_sources, write_source_file. auto 20 with inert. Qed.

Lemma best_effort_remove_source_inert file : inert (best_effort_remove_source (A:=A) (B:=B) file).
Proof. unfold best_effort_remove_source. auto 20 with inert. Qed.

Lemma discard_inert staged : inert (discard_staged_sources (A:=A) (B:=B) staged).
Proof. pose proof best_effort_remove_source_inert. unfold discard_staged_sources. auto with inert. Qed.

Lemma activate_inert name : inert (activate_staged_sources (A:=A) (B:=B) name).
Proof.
  pose proof best_effort_remove_source_inert. pose proof writing_store_inert. pose proof unhealthy_inert.
  unfold activate_staged_sources, open_source_file, replacing_store. auto 30 with inert.
Qed.

Lemma apply_sources_inert updates : inert (apply_sources (A:=A) (B:=B) updates).
Proof. pose proof writing_store_inert. unfold apply_sources. auto with inert. Qed.

End inert.

#[export] Hint Resolve record_compiled_inert count_rejected_parse_inert count_rejected_class_d_inert writing_store_inert
  unhealthy_inert mark_selected_inert stage_query_sources_inert best_effort_remove_source_inert discard_inert activate_inert
  apply_sources_inert : inert.
