(* ===== verification/Documents.v ===== *)
(** * The documents of a segment

    What a segment holds, as its users put it in: the logical id, the text and the
    tags of every stored query and whether it is live.  A row of the segment
    carries the compiled query; [row_ok] says that it was compiled from the text,
    under a dictionary that has only grown since, and that its tag ids are those of
    the tags.  The lemmas follow the documents through the operations of a segment. *)

From S2P Require Import Prelude Util Text Dsl Dictionary Index Phrase Analyze Compile Plan Extract View Predicate Ownership Tags Store.
From S2P Require Import Segment Lifecycle Merge Snapshot Recompile Engine Compaction Ingest.

Record Doc := mkDoc {
  doc_logical : N;
  doc_text : rstring;
  doc_tags : list (rstring * rstring);
  doc_live : bool;
}.

Definition kill_doc (x : Doc) : Doc := mkDoc (doc_logical x) (doc_text x) (doc_tags x) false.

(** Deleting by logical id and by position. *)
Definition kill_logical (logical : N) (docs : list Doc) : list Doc :=
  (λ x, if doc_logical x =? logical then kill_doc x else x) <$> docs.
Definition kill_at (local : N) (docs : list Doc) : list Doc := alter kill_doc (usize local) docs.

Definition live_docs (docs : list Doc) : list Doc := filter (λ x, doc_live x = true) docs.

Lemma live_docs_app l k : live_docs (l ++ k) = live_docs l ++ live_docs k.
Proof. apply filter_app. Qed.

Lemma live_docs_idemp l : live_docs (live_docs l) = live_docs l.
Proof.
  unfold live_docs. induction l as [|x l IH]; [done|]. rewrite !filter_cons. case_decide; [|done]. rewrite filter_cons, decide_True by done. by rewrite IH.
Qed.

Lemma live_docs_join docss : live_docs (mjoin (live_docs <$> docss)) = live_docs (mjoin docss).
Proof. induction docss as [|docs docss IH]; [done|]. rewrite fmap_cons. simpl. by rewrite !live_docs_app, live_docs_idemp, IH. Qed.

(** The same documents, some of them deleted since. *)
Definition later (x y : Doc) : Prop := y = x ∨ y = kill_doc x.

(** The dictionaries of two states of an engine. *)
Record grown (d d' : Dict) (td td' : TagDict) : Prop := {
  gr_wf : dict_wf d';
  gr_names : names d `prefix_of` names d';
  gr_mask : mask_le d d';
  gr_tags : tag_extends td td';
}.

Lemma grown_refl d td : dict_wf d → grown d d td td.
Proof. done. Qed.

Lemma grown_trans d1 d2 d3 td1 td2 td3 : grown d1 d2 td1 td2 → grown d2 d3 td2 td3 → grown d1 d3 td1 td3.
Proof. intros [? ? ? ?] [? ? ? ?]. split; [done|by etrans..]. Qed.

(** Deleting every position of a list. *)
Definition kill_all (locals : list N) (docs : list Doc) : list Doc := foldl (λ docs l, kill_at l docs) docs locals.

Lemma kill_all_lookup locals docs i :
  kill_all locals docs !! i = (λ x, if decide (N.of_nat i ∈ locals) then kill_doc x else x) <$> docs !! i.
Proof.
  revert docs. induction locals as [|l locals IH]; intros docs.
  - simpl. by destruct (docs !! i).
  - change (kill_all (l :: locals) docs) with (kill_all locals (kill_at l docs)). rewrite IH. unfold kill_at. destruct (decide (usize l = i)) as [<-|Hne].
    + rewrite list_lookup_alter_eq. destruct (docs !! usize l); [|done]. simpl. f_equal.
      rewrite N2Nat.id. rewrite (decide_True (P := l ∈ l :: locals)) by by left. by destruct (decide (l ∈ locals)).
    + rewrite list_lookup_alter_ne by done. destruct (docs !! i); [|done]. simpl. f_equal.
      assert (N.of_nat i ≠ l) by lia. destruct (decide (N.of_nat i ∈ locals)), (decide (N.of_nat i ∈ l :: locals)); set_solver.
Qed.

Lemma kill_doc_dead x : doc_live x = false → kill_doc x = x.
Proof. destruct x. simpl. by intros ->. Qed.

Lemma kill_all_logical locals logical docs :
  (∀ l, l ∈ locals ↔ ∃ x, docs !! usize l = Some x ∧ doc_live x = true ∧ doc_logical x = logical) →
  kill_all locals docs = kill_logical logical docs.
Proof.
  intros Hl. apply list_eq. intros i. rewrite kill_all_lookup. unfold kill_logical. rewrite list_lookup_fmap.
  destruct (docs !! i) as [x|] eqn:Hx; [|done]. simpl. f_equal. specialize (Hl (N.of_nat i)). rewrite Nat2N.id, Hx in Hl.
  destruct (N.eqb_spec (doc_logical x) logical) as [E|E].
  - destruct (doc_live x) eqn:Elive; [by rewrite decide_True by naive_solver|].
    rewrite kill_doc_dead by done. by case_decide.
  - rewrite decide_False by naive_solver. done.
Qed.

Lemma later_kill_all (dead : list N) docs0 docs :
  Forall2 later docs0 docs →
  (∀ l, l ∈ dead ↔ ∃ x, docs !! usize l = Some x ∧ doc_live x = false) → kill_all dead docs0 = docs.
Proof.
  intros Hlat Hl. apply list_eq. intros i. rewrite kill_all_lookup. specialize (Hl (N.of_nat i)). rewrite Nat2N.id in Hl.
  destruct (docs0 !! i) as [x|] eqn:Hx; simpl.
  - destruct (Forall2_lookup_l _ _ _ _ _ Hlat Hx) as (y & Hy & Hxy). rewrite Hy in *. f_equal. case_decide as Hd.
    + apply Hl in Hd as (y' & [= <-] & Hdead). destruct Hxy as [->| ->]; [by apply kill_doc_dead|done].
    + destruct Hxy as [->| ->]; [done|]. destruct Hd. apply Hl. eauto.
  - apply lookup_ge_None in Hx. rewrite (Forall2_length _ _ _ Hlat) in Hx. by apply lookup_ge_None in Hx as ->.
Qed.

Lemma later_refl docs : Forall2 later docs docs.
Proof. induction docs; constructor; [by left|done]. Qed.

Lemma later_trans docs1 docs2 docs3 : Forall2 later docs1 docs2 → Forall2 later docs2 docs3 → Forall2 later docs1 docs3.
Proof.
  intros H12. revert docs3. induction H12 as [|x y docs1 docs2 Hxy _ IH]; inversion 1 as [|? z ? docs3' Hyz]; subst; constructor; [|by apply IH].
  unfold later in *. destruct Hxy as [->| ->], Hyz as [->| ->]; auto.
Qed.

Lemma later_kill_at local docs : Forall2 later docs (kill_at local docs).
Proof.
  unfold kill_at. generalize (usize local). induction docs as [|x docs IH]; intros [|n]; simpl; constructor; try done;
    [by right|apply later_refl|by left|apply IH].
Qed.

Lemma later_kill_logical logical docs : Forall2 later docs (kill_logical logical docs).
Proof. induction docs as [|x docs IH]; constructor; [|done]. unfold later. case_match; auto. Qed.

Section documents.
Context `{Analyzer} {B : Type} `{RoaringLaws B}.
Implicit Types (seg : Segment B) (d : Dict) (td : TagDict).

Record row_ok (d : Dict) (td : TagDict) (x : Doc) (q : StoredQuery) : Prop := {
  ro_logical : sq_logical q = doc_logical x;
  ro_live : sq_live q = doc_live x;
  ro_placement : sq_placement q = placement_standalone;
  ro_tags : tags_stored td (doc_tags x) (sq_tags q);
  ro_query : ∃ ast, parse_for_recovery (doc_text x) = Some (inr ast) ∧ compiled_under d ast (sq_query q);
}.

Definition seg_docs (d : Dict) (td : TagDict) seg (docs : list Doc) : Prop :=
  ∃ abs, holds d seg abs ∧ Forall2 (row_ok d td) docs abs.

Lemma row_ok_mono d d' td td' x q : grown d d' td td' → row_ok d td x q → row_ok d' td' x q.
Proof.
  intros [_ Hn _ Ht] [? ? ? Htags (ast & ? & ?)]. split; [done..|by eapply tags_stored_mono|].
  exists ast. split; [done|]. by eapply compiled_under_mono.
Qed.

Lemma seg_docs_mono d d' td td' seg docs : grown d d' td td' → seg_docs d td seg docs → seg_docs d' td' seg docs.
Proof.
  intros Hg (abs & [s [Hok ? ? ? ?]] & Hrows). exists abs. split.
  - exists s. split; try done. eapply seg_ok_mono; [apply Hg|exact Hok].
  - eapply Forall2_impl; [exact Hrows|]. intros x q. by apply row_ok_mono.
Qed.

Lemma seg_docs_new d td : seg_docs d td segment_new [].
Proof. exists []. split; [|done]. destruct (holding_new d) as (_ & s & Hs & _). by exists s. Qed.

Lemma seg_docs_epoch d td epoch seg docs : seg_docs d td seg docs → seg_docs d td (with_epoch epoch seg) docs.
Proof. intros (abs & [s [[] ? ? ? ?]] & Hrows). exists abs. split; [|done]. by exists s. Qed.

Lemma seg_docs_len d td seg docs : seg_docs d td seg docs → seg_len seg = length docs.
Proof. intros (abs & Hh & Hrows). rewrite (holds_seg_len _ _ _ Hh). symmetry. by eapply Forall2_length. Qed.

Lemma seg_docs_empty d td seg docs : seg_docs d td seg docs → seg_is_empty seg = true ↔ docs = [].
Proof.
  intros Hs. unfold seg_is_empty. rewrite (seg_docs_len _ _ _ _ Hs), Nat.eqb_eq. destruct docs; by split.
Qed.

(** ** Sealing and deleting *)

Lemma seg_docs_seal d td seg docs :
  seg_docs d td seg docs → ∃ seg', seg_build_filter seg = Some seg' ∧ seg_docs d td seg' docs.
Proof.
  intros (abs & [s Hs] & Hrows). destruct (represents_seal _ _ _ _ Hs) as (seg' & E & Hs'). exists seg'. split; [done|].
  exists abs. split; [by exists s|done].
Qed.

Lemma row_ok_kill d td x q : row_ok d td x q → row_ok d td (kill_doc x) (kill q).
Proof. intros []. by split. Qed.

Lemma seg_docs_tombstone d td seg docs local :
  seg_docs d td seg docs →
  ∃ seg', tombstone local seg = Some seg' ∧ seg_docs d td seg' (kill_at local docs) ∧ (unsealed seg → unsealed seg').
Proof.
  intros (abs & [s Hs] & Hrows). pose proof Hs as [Hok Hq Hr Ha Hc].
  destruct (tombstone_ok d seg s local Hok) as (seg' & E & Hok' & Ha' & Hc' & Hu). exists seg'. split; [done|]. split; [|done].
  exists (alter kill (usize local) abs). split.
  - exists s. by eapply represents_kill.
  - unfold kill_at. clear -Hrows. revert abs Hrows. generalize (usize local). intros n. revert n.
    induction docs as [|x docs IH]; intros n abs; inversion 1; subst; [by destruct n|].
    destruct n; constructor; try done; [by apply row_ok_kill|by apply IH].
Qed.

(** ** Adding *)

(** The segment can take one more row of this query. *)
Definition store_room seg (ex : Extracted) (ids : list N) : Prop :=
  push_fits ex ids placement_standalone (sg_exact seg) ∧ N.of_nat (seg_len seg) < U32_MAX.

Lemma plan_class ex d knobs :
  keep_visible knobs = false →
  sp_class (plan_of ex d placement_standalone knobs) = ap_class (anchor_plan ex d (hot_anchor_threshold knobs)).
Proof. intros Hk. unfold plan_of. by rewrite Hk. Qed.

Lemma seg_docs_add d td seg docs x ast ex ids version rank source knobs :
  seg_docs d td seg docs → dict_wf d → unsealed seg → store_room seg ex ids → keep_visible knobs = false →
  parse_for_recovery (doc_text x) = Some (inr ast) → compiled_under d ast ex → tags_stored td (doc_tags x) ids → doc_live x = true →
  let r := add_compiled ex ids d (doc_logical x) version rank placement_standalone source knobs seg in
  if refused ast (accept_class_d knobs) then r = Some (None, seg)
  else ∃ a seg', r = Some (Some a, seg') ∧ unsealed seg' ∧ seg_docs d td seg' (docs ++ [x]) ∧ ac_local a = N.of_nat (length docs).
Proof.
  intros Hseg Hwf Hu [Hfit Hlen] Hk Hparse Hcomp Htags Hlive. cbv zeta.
  pose proof (seg_docs_len _ _ _ _ Hseg) as Hl. destruct Hseg as (abs & [s Hs] & Hrows).
  pose proof Hcomp as (d0 & d1 & Hc & _). pose proof (represents_len _ _ _ _ Hs) as Hn. pose proof (Forall2_length _ _ _ Hrows) as Hn'.
  assert (nlen abs < U32_MAX ∧ nlen (sp_rows s) < U32_MAX) as [Hlen1 Hlen2] by (unfold nlen; rewrite Hl in Hlen; split; lia).
  pose proof (add_compiled_ok d ex ids (doc_logical x) version rank placement_standalone source knobs seg s (rp_ok _ _ _ _ Hs) Hu Hwf Hfit
    Hlen2 (cm_graphs _ _ _ _ Hc) (cm_required _ _ _ _ Hc)) as Hadd. cbv zeta in Hadd.
  rewrite plan_class, (cm_gate _ _ _ _ Hc) in Hadd by done. destruct (refused ast (accept_class_d knobs)); [done|].
  destruct Hadd as (a & seg' & E & Ha & _). exists a, seg'. split; [done|].
  destruct (represents_add d seg abs s ex ids (doc_logical x) version rank placement_standalone source knobs a seg') as (Hu' & s' & Hs');
    [done..|apply Hc|apply Hc|done|].
  split; [done|]. split; [|rewrite Ha; unfold nlen; lia].
  eexists. split; [by exists s'|]. apply Forall2_app; [done|]. constructor; [|done]. split; try done. by exists ast.
Qed.

(** ** The copies of a logical id *)

Lemma seg_docs_lookup d td seg docs local :
  seg_docs d td seg docs → sg_alive seg !! usize local = doc_live <$> docs !! usize local.
Proof.
  intros (abs & [s Hs] & Hrows). rewrite (rp_alive _ _ _ _ Hs), list_lookup_fmap.
  destruct (docs !! usize local) as [x|] eqn:E.
  - destruct (Forall2_lookup_l _ _ _ _ _ Hrows E) as (q & -> & Hq). simpl. by rewrite (ro_live _ _ _ _ Hq).
  - apply lookup_ge_None in E. rewrite (Forall2_length _ _ _ Hrows) in E. by apply lookup_ge_None in E as ->.
Qed.

Lemma live_locals_spec d td seg docs logical :
  seg_docs d td seg docs →
  NoDup (live_locals seg logical) ∧
  ∀ l, l ∈ live_locals seg logical ↔ ∃ x, docs !! usize l = Some x ∧ doc_live x = true ∧ doc_logical x = logical.
Proof.
  intros Hseg. assert (∀ l, sg_alive seg !! usize l = doc_live <$> docs !! usize l) as Ha by (intros l; by eapply seg_docs_lookup).
  destruct Hseg as (abs & [s Hs] & Hrows). pose proof (k_identity _ _ _ (rp_ok _ _ _ _ Hs)) as [_ Hlg Hrow Hnd _ _].
  unfold live_locals, locals_for_logical. split; [by apply NoDup_ListNoDup, List.NoDup_filter, NoDup_ListNoDup|]. intros l.
  rewrite elem_of_list_filter_bool. unfold seg_is_alive. rewrite Ha.
  assert (∀ x r, docs !! usize l = Some x → sp_rows s !! usize l = Some r → r_logical r = doc_logical x) as Hsame.
  { intros x r Hx Hr. destruct (Forall2_lookup_l _ _ _ _ _ Hrows Hx) as (q & Hq & [<- _ _ _ _]).
    destruct (Forall2_lookup_l _ _ _ _ _ (rp_rows _ _ _ _ Hs) Hq) as (r' & Hr' & _ & <- & _). congruence. }
  split.
  - intros [Hl (r & Hr & <-)%Hrow]. destruct (docs !! usize l) as [x|] eqn:Hx; [|done]. exists x. split_and!; [done|done|].
    symmetry. by apply Hsame.
  - intros (x & Hx & Hl & <-). rewrite Hx. split; [done|]. destruct (Forall2_lookup_l _ _ _ _ _ Hrows Hx) as (q & Hq & Hrq).
    destruct (Forall2_lookup_l _ _ _ _ _ (rp_rows _ _ _ _ Hs) Hq) as (r & Hr & _). rewrite <-(Hsame x r) by done.
    eapply Hlg; [done|]. by rewrite Ha, Hx, <-Hl.
Qed.

Lemma seg_docs_logical d td seg docs :
  seg_docs d td seg docs → xs_logical (sg_exact seg) = doc_logical <$> docs.
Proof.
  intros (abs & [s Hs] & Hrows). pose proof (rp_ok _ _ _ _ Hs) as [Hr _ _ _]. rewrite (h_logical _ _ (k_store _ _ _ _ Hr)).
  pose proof (rp_rows _ _ _ _ Hs) as Hq. clear -Hrows Hq. revert Hq. generalize (sp_rows s). induction Hrows as [|x q docs abs Hxq _ IH]; intros rows Hq; inversion Hq as [|? r ? rows' Hqr]; subst; [done|].
  rewrite !fmap_cons, (IH rows') by done. f_equal. destruct Hqr as (_ & E & _). destruct Hxq. congruence.
Qed.

Lemma foldM_tombstones d td locals seg docs :
  seg_docs d td seg docs →
  ∃ seg', foldM (λ seg local, tombstone local seg) seg locals = Some seg' ∧ seg_docs d td seg' (kill_all locals docs).
Proof.
  revert seg docs. induction locals as [|l locals IH]; intros seg docs Hs; [by exists seg|].
  destruct (seg_docs_tombstone d td seg docs l Hs) as (seg1 & E & Hs1 & _). destruct (IH seg1 _ Hs1) as (seg' & E' & Hs').
  exists seg'. split; [|done]. by rewrite foldM_cons, E.
Qed.

Lemma dead_overlay_spec d td seg docs :
  seg_docs d td seg docs → ∀ l, l ∈ dead_overlay seg ↔ ∃ x, docs !! usize l = Some x ∧ doc_live x = false.
Proof.
  intros Hs l. unfold dead_overlay. rewrite list_elem_of_fmap. setoid_rewrite elem_of_list_filter_bool. setoid_rewrite bool_decide_eq_true.
  setoid_rewrite elem_of_seq. pose proof (seg_docs_lookup d td seg docs l Hs) as Ha. split.
  - intros (i & -> & Hi & _). rewrite Nat2N.id, Hi in *. destruct (docs !! i) as [x|]; [|done]. exists x. naive_solver.
  - intros (x & Hx & Hl). rewrite Hx in Ha. simpl in Ha. exists (usize l). split_and!; [lia|by rewrite Ha, Hl|lia|].
    by apply lookup_lt_Some in Ha.
Qed.

(** ** Merging *)

Lemma live_rows d td docs abs : Forall2 (row_ok d td) docs abs → Forall2 (row_ok d td) (live_docs docs) (live_of abs).
Proof.
  unfold live_docs, live_of. induction 1 as [|x q docs abs Hxq _ IH]; [constructor|]. rewrite !filter_cons.
  pose proof (ro_live _ _ _ _ Hxq) as Hl. do 2 case_decide; try congruence. by constructor.
Qed.

Lemma seg_docs_abs d td segs docss :
  Forall2 (seg_docs d td) segs docss →
  ∃ abss, Forall2 (holds d) segs abss ∧ Forall2 (row_ok d td) (mjoin (live_docs <$> docss)) (mjoin (live_of <$> abss)).
Proof.
  induction 1 as [|seg docs segs docss (abs & Hh & Hrows) _ (abss & Hhs & Hrs)]; [by exists []|].
  exists (abs :: abss). split; [by constructor|]. rewrite !fmap_cons. simpl. apply Forall2_app; [by apply live_rows|done].
Qed.

Lemma moved_row d td x q q' : row_ok d td x q → moved q q' → sq_live q = true → row_ok d td x q'.
Proof. intros [? Hl ? ? ?] [-> _] Hq. split; try done. simpl. congruence. Qed.

Lemma seg_docs_compact d td segs docss :
  Forall2 (seg_docs d td) segs docss → merge_room segs →
  ∃ dest, compact_from segs = Some dest ∧ seg_docs d td dest (mjoin (live_docs <$> docss)).
Proof.
  intros Hs Hroom. destruct (seg_docs_abs _ _ _ _ Hs) as (abss & Hh & Hrows).
  destruct (compact_from_holds d segs abss Hh Hroom) as (dest & E & Hd). exists dest. split; [done|]. by eexists.
Qed.

Lemma seg_docs_reanchored d td segs docss theta max_moves :
  dict_wf d → dict_room d → Forall2 (seg_docs d td) segs docss → merge_room segs →
  ∃ dest stats, compact_from_reanchored segs d theta max_moves = Some (dest, stats) ∧ seg_docs d td dest (mjoin (live_docs <$> docss)).
Proof.
  intros Hwf Hroom' Hs Hroom. destruct (seg_docs_abs _ _ _ _ Hs) as (abss & Hh & Hrows).
  assert (N.of_nat (length (names d)) ≤ 2 ^ 32) as Hlen.
  { unfold dict_room, SYNTHETIC_BASE in Hroom'. change (2 ^ 32) with 4294967296. lia. }
  destruct (reanchored_holds d segs abss theta max_moves Hwf Hlen Hh Hroom) as (dest & stats & abs' & E & Hmv & Hd).
  exists dest, stats. split; [done|]. exists abs'. split; [done|]. pose proof (lives_live abss) as Hlive.
  clear -Hrows Hmv Hlive. revert abs' Hmv. induction Hrows as [|x q docs abs Hxq _ IH]; inversion 1; subst; constructor.
  - apply Forall_cons in Hlive as [? _]. by eapply moved_row.
  - apply Forall_cons in Hlive as [_ ?]. by apply IH.
Qed.

(** ** Phrases *)

Definition phrased (q : StoredQuery) : bool := sq_live q && predicate_has_phrases (stored_words (sq_query q)).

Lemma no_phrases_holds d seg abs : holds d seg abs → seg_has_phrases seg = false ↔ Forall (λ q, phrased q = false) abs.
Proof.
  intros [s Hs]. pose proof (k_phrases _ _ _ _ _ (k_identity _ _ _ (rp_ok _ _ _ _ Hs))) as Hp. unfold seg_has_phrases. rewrite Hp, (live_phrases_abs _ _ _ _ Hs).
  rewrite negb_false_iff, N.eqb_eq. unfold count_if. clear. induction abs as [|q abs IH]; [done|]. rewrite filter_cons, Forall_cons. unfold phrased at 1.
  case_decide as E; [|rewrite IH; destruct (_ && _); naive_solver]. rewrite E. simpl. split; [lia|]. by intros [[=] _].
Qed.

(** Merging segments without live phrases gives one without. *)
Lemma no_phrases_live segs abss d :
  Forall2 (holds d) segs abss → Forall (λ seg, seg_has_phrases seg = false) segs → Forall (λ q, phrased q = false) (mjoin (live_of <$> abss)).
Proof.
  induction 1 as [|seg abs segs abss Hh _ IH]; [constructor|]. intros [Hq Hqs]%Forall_cons. rewrite fmap_cons. apply Forall_app. split; [|by apply IH].
  apply (no_phrases_holds _ _ _ Hh) in Hq. rewrite Forall_forall in *. intros q [_ ?]%list_elem_of_filter. by apply Hq.
Qed.

Lemma no_phrases_compact d td segs docss dest :
  Forall2 (seg_docs d td) segs docss → merge_room segs → Forall (λ seg, seg_has_phrases seg = false) segs →
  compact_from segs = Some dest → seg_has_phrases dest = false.
Proof.
  intros Hs Hroom Hq E. destruct (seg_docs_abs _ _ _ _ Hs) as (abss & Hh & _). destruct (compact_from_holds d segs abss Hh Hroom) as (dest' & E' & Hd).
  rewrite E in E'. injection E' as <-. apply (no_phrases_holds _ _ _ Hd). by eapply no_phrases_live.
Qed.

Lemma no_phrases_reanchored d td segs docss theta max_moves dest stats :
  dict_wf d → dict_room d → Forall2 (seg_docs d td) segs docss → merge_room segs → Forall (λ seg, seg_has_phrases seg = false) segs →
  compact_from_reanchored segs d theta max_moves = Some (dest, stats) → seg_has_phrases dest = false.
Proof.
  intros Hwf Hroom' Hs Hroom Hq E. destruct (seg_docs_abs _ _ _ _ Hs) as (abss & Hh & _).
  assert (N.of_nat (length (names d)) ≤ 2 ^ 32) as Hlen.
  { unfold dict_room, SYNTHETIC_BASE in Hroom'. change (2 ^ 32) with 4294967296. lia. }
  destruct (reanchored_holds d segs abss theta max_moves Hwf Hlen Hh Hroom) as (dest' & stats' & abs' & E' & Hmv & Hd). rewrite E in E'. injection E' as <- <-.
  apply (no_phrases_holds _ _ _ Hd). pose proof (no_phrases_live _ _ _ Hh Hq) as Hn. pose proof (lives_live abss) as Hlive. clear -Hn Hmv Hlive.
  induction Hmv as [|q q' l l' [-> _] _ IH]; [constructor|]. apply Forall_cons in Hn as [Hn ?], Hlive as [Hl ?]. constructor; [|by apply IH].
  unfold phrased in *. cbn in *. by rewrite Hl in Hn.
Qed.

End documents.
