(* ===== verification/Durable.v ===== *)
(** * The durability layer keeps the documents

    An engine that owns a data directory, its disk, and the documents they hold.
    [engine_ok] relates the engine to its documents, segment by segment;
    [files_ok] says that a mapped segment can be read again from its file, where
    deletions made since it was written are missing; [disk_ok] describes the
    documents that the manifest names.  The lemmas go through the persistence
    layer up to the joint commit of sources and manifest, with every outcome of
    the disk steps. *)

From S2P Require Import Prelude Util Text Dsl Dictionary FramedLog Wal Sources Index Phrase Automaton Normalize Analyze Compile Plan Extract View Predicate.
From S2P Require Import Ownership Tags Store Segment Lifecycle Merge Recompile Engine Compaction Ingest Open EngineLogic Documents.

Lemma Forall2_impl_l {X Y} (P Q : X → Y → Prop) (R : X → Prop) l k :
  Forall R l → Forall2 P l k → (∀ x y, R x → P x y → Q x y) → Forall2 Q l k.
Proof. intros HR HP HQ. revert HR. induction HP; intros HR; constructor; apply Forall_cons in HR as [? ?]; auto. Qed.

Lemma Forall2_insert_left {X Y} (P : X → Y → Prop) l k i x y : Forall2 P l k → k !! i = Some y → P x y → Forall2 P (<[i := x]> l) k.
Proof. intros HP Hy Hx. rewrite <-(list_insert_id k i y Hy). by apply Forall2_insert. Qed.

(** The documents of an engine: of each base segment and of the memtable. *)
Record State := mkState {
  st_segments : list (list Doc);
  st_memtable : list Doc;
}.

(** The dead rows that a manifest records for a file. *)
Definition dead_of (m : Manifest) (file : N) : list N :=
  match list_find (λ p, p.1 = file) (mf_segment_tombstones m) with Some (_, (_, dead)) => dead | None => [] end.

Section durable.
Context {A B : Type} `{DaachorseLaws A} `{RoaringLaws B} (norm : Normalizer A).
Implicit Types (w : World A B) (e : Engine A B) (k : Disk B) (b : BaseSegment B) (st : State).

#[local] Instance norm_analyzer : Analyzer := normalizer_analyzer norm.

(** A dictionary without equivalences; before the mask is frozen it has no bits. *)
Record dict_ok (d : Dict) : Prop := {
  do_wf : dict_wf d;
  do_room : dict_room d;
  do_equivs : equivs d = no_equivalences;
  do_cold : finalized d = false → ∀ f, is_hot d f = false;
}.

Record engine_ok e st : Prop := {
  eo_norm : en_norm e = norm;
  eo_dict : dict_ok (en_dict e);
  eo_tags : tag_dict_wf (en_tag_dict e);
  eo_segments : Forall2 (λ b, seg_docs (en_dict e) (en_tag_dict e) (base_seg b)) (en_segments e) (st_segments st);
  eo_memtable : seg_docs (en_dict e) (en_tag_dict e) (en_memtable e) (st_memtable st);
  eo_unsealed : unsealed (en_memtable e);
  eo_generations : length (en_generations e) = length (en_segments e);
  eo_distinct : NoDup (en_generations e);
  eo_tokens : Forall (λ g, g < en_next_token e) (en_generations e);
  eo_source : fits 64 (en_next_source_generation e);
}.

(** The file holds the documents, some of them deleted since it was written. *)
Definition stored (d : Dict) (td : TagDict) k (file : N) (docs : list Doc) : Prop :=
  ∃ seg0 docs0, dk_segments k !! file = Some seg0 ∧ seg_docs d td seg0 docs0 ∧ Forall2 later docs0 docs.

Record files_ok e k (docss : list (list Doc)) : Prop := {
  fo_stored : Forall2 (λ b docs, ∀ file, base_file b = Some file →
    file < en_next_seg_id e ∧ stored (en_dict e) (en_tag_dict e) k file docs) (en_segments e) docss;
  fo_distinct : NoDup (omap base_file (en_segments e));
}.

(** The documents of a file of the manifest, its recorded deletions applied. *)
Definition named (m : Manifest) k (file : N) (docs : list Doc) : Prop :=
  ∃ seg0 docs0, dk_segments k !! file = Some seg0 ∧ seg_docs (mf_dict m) (mf_tag_dict m) seg0 docs0 ∧ docs = kill_all (dead_of m file) docs0.

Record manifest_ok (m : Manifest) k (docss : list (list Doc)) : Prop := {
  mo_dict : dict_ok (mf_dict m);
  mo_tags : tag_dict_wf (mf_tag_dict m);
  mo_named : Forall2 (named m k) (mf_segment_files m) docss;
  mo_below : Forall (λ file, file < mf_next_seg_id m) (mf_segment_files m);
  mo_distinct : NoDup (mf_segment_files m);
  mo_sealed : is_Some (mf_sealed_through m);
}.

Definition disk_ok k (next : N) (docss : list (list Doc)) : Prop :=
  match dk_manifest k with Some m => manifest_ok m k docss ∧ mf_next_seg_id m ≤ next | None => docss = [] end.

(** What the manifest says, an engine without one starting from nothing. *)
Definition manifest_files k : list N := match dk_manifest k with Some m => mf_segment_files m | None => [] end.
Definition manifest_watermark k : N := match dk_manifest k with Some m => mf_watermark m | None => 0 end.
Definition manifest_sealed k : N := match dk_manifest k with Some m => default 0 (mf_sealed_through m) | None => 0 end.

(** The documents of the engine and of its disk. *)
Record holds_docs w st (docss : list (list Doc)) : Prop := {
  hd_dir : data_dir (en_config (wo_engine w)) = true;
  hd_owns : en_owns_manifest (wo_engine w) = true;
  hd_sealed : is_Some (en_sealed_through (wo_engine w));
  hd_engine : engine_ok (wo_engine w) st;
  hd_files : files_ok (wo_engine w) (wo_disk w) (st_segments st);
  hd_disk : disk_ok (wo_disk w) (en_next_seg_id (wo_engine w)) docss;
}.

(** File numbers do not run out during an operation. *)
Definition id_room w (n : nat) : Prop := en_next_seg_id (wo_engine w) + N.of_nat n < 2 ^ 64.

(** ** Frames *)

(** Only files from number [next] on changed. *)
Definition files_frame (next : N) k k' : Prop :=
  dk_manifest k' = dk_manifest k ∧ ∀ file, file < next → dk_segments k' !! file = dk_segments k !! file.

Lemma files_frame_refl next k : files_frame next k k.
Proof. done. Qed.

Lemma files_frame_trans next next' k1 k2 k3 :
  next ≤ next' → files_frame next k1 k2 → files_frame next' k2 k3 → files_frame next k1 k3.
Proof. intros Hle [M1 F1] [M2 F2]. split; [congruence|]. intros file Hf. rewrite F2, F1 by lia. done. Qed.

Lemma stored_mono d d' td td' k file docs : grown d d' td td' → stored d td k file docs → stored d' td' k file docs.
Proof. intros Hg (seg0 & docs0 & E & Hs & Hl). exists seg0, docs0. split_and!; [done|by eapply seg_docs_mono|done]. Qed.

Lemma stored_later d td k file docs docs' : Forall2 later docs docs' → stored d td k file docs → stored d td k file docs'.
Proof. intros Hl (seg0 & docs0 & E & Hs & Hl0). exists seg0, docs0. split_and!; [done|done|by eapply later_trans]. Qed.

Lemma stored_frame d td k k' file docs :
  dk_segments k' !! file = dk_segments k !! file → stored d td k file docs → stored d td k' file docs.
Proof. intros E (seg0 & docs0 & E0 & ?). exists seg0, docs0. by rewrite E. Qed.

Lemma disk_ok_frame k k' next next' docss :
  files_frame next k k' → next ≤ next' → disk_ok k next docss → disk_ok k' next' docss.
Proof.
  intros [M F] Hle. unfold disk_ok. rewrite M. destruct (dk_manifest k) as [m|]; [|done]. intros [[] Hm]. split; [|lia]. split; try done.
  eapply Forall2_impl_l; [exact mo_below0|exact mo_named0|]. intros file docs Hf (seg0 & docs0 & E & ?). simpl in Hf.
  exists seg0, docs0. rewrite F by lia. done.
Qed.

Lemma files_ok_frame e e' k k' docss :
  en_segments e' = en_segments e → en_dict e' = en_dict e → en_tag_dict e' = en_tag_dict e → en_next_seg_id e ≤ en_next_seg_id e' →
  files_frame (en_next_seg_id e) k k' → files_ok e k docss → files_ok e' k' docss.
Proof.
  intros Es Ed Et Hle [_ F] [Hs Hd]. split; rewrite Es; [|done]. rewrite Ed, Et. eapply Forall2_impl; [exact Hs|].
  intros b docs Hb file Hf. destruct (Hb file Hf) as [Hlt Hst]. split; [lia|]. eapply stored_frame; [|exact Hst]. by apply F.
Qed.

Lemma engine_ok_core e e' st : same_core e e' → engine_ok e st → engine_ok e' st.
Proof. intros Hs []. split; by core Hs. Qed.

Lemma calm_frame w w' next : calm w w' → files_frame next (wo_disk w) (wo_disk w').
Proof. intros [_ M S]. split; [done|]. intros. by rewrite S. Qed.

Lemma holds_docs_calm w w' st docss : calm w w' → holds_docs w st docss → holds_docs w' st docss.
Proof.
  intros Hc [Hdir Hown Hsl He Hf Hd]. pose proof (cl_core _ _ Hc) as Hs. split; try by core Hs.
  - by eapply engine_ok_core.
  - eapply files_ok_frame; [..|exact Hf]; try apply Hs; [by core Hs|by apply calm_frame].
  - core Hs. eapply disk_ok_frame; [by apply calm_frame|done|exact Hd].
Qed.

Lemma holds_docs_refreshed w st docss : holds_docs w st docss → holds_docs (refreshed w) st docss.
Proof. intros [Hdir Hown Hsl [] [] Hd]. by split. Qed.

(** ** Writing a segment file *)

(** Up to [n] file numbers were taken, and files of these numbers written. *)
Definition grew (n : nat) w w' : Prop :=
  ∃ next, en_next_seg_id (wo_engine w) ≤ next ≤ en_next_seg_id (wo_engine w) + N.of_nat n ∧
    same_core (with_next_seg_id next (wo_engine w)) (wo_engine w') ∧
    files_frame (en_next_seg_id (wo_engine w)) (wo_disk w) (wo_disk w').

Lemma grew_calm n w w' : calm w w' → grew n w w'.
Proof.
  intros Hc. exists (en_next_seg_id (wo_engine w)). split; [lia|]. split; [|by apply calm_frame].
  destruct (cl_core _ _ Hc). by split.
Qed.

Lemma grew_trans n m w1 w2 w3 : grew n w1 w2 → grew m w2 w3 → grew (n + m) w1 w3.
Proof.
  intros (n1 & L1 & S1 & F1) (n2 & L2 & S2 & F2). pose proof (sc_next_seg_id _ _ S1) as E. cbn in E. exists n2. split; [lia|]. split.
  - destruct S1, S2. cbn in *. split; cbn; congruence.
  - eapply files_frame_trans; [|exact F1|exact F2]. lia.
Qed.

Lemma grew_next n w w' : grew n w w' →
  en_next_seg_id (wo_engine w) ≤ en_next_seg_id (wo_engine w') ≤ en_next_seg_id (wo_engine w) + N.of_nat n.
Proof. intros (next & L & S & _). pose proof (sc_next_seg_id _ _ S) as E. cbn in E. lia. Qed.

Lemma id_room_grew n m w w' : id_room w (n + m) → grew n w w' → id_room w' m.
Proof. unfold id_room. intros Hr Hg%grew_next. lia. Qed.

Lemma holds_docs_grew n w w' st docss : grew n w w' → holds_docs w st docss → holds_docs w' st docss.
Proof.
  intros (next & L & S & F) [Hdir Hown Hsl He Hf Hd]. pose proof (sc_next_seg_id _ _ S) as E. cbn in E. split; try by core S.
  - eapply (engine_ok_core (with_next_seg_id next (wo_engine w))); [done|]. destruct He. by split.
  - eapply files_ok_frame; [..|exact Hf]; try apply S; [lia|done].
  - eapply disk_ok_frame; [exact F|lia|exact Hd].
Qed.

(** A base segment over [seg] whose file, if it has one, is new and holds [docs]. *)
Definition sealed_as w w' (seg : Segment B) (docs : list Doc) b : Prop :=
  base_seg b = seg ∧ ∀ file, base_file b = Some file →
    en_next_seg_id (wo_engine w) ≤ file < en_next_seg_id (wo_engine w') ∧
    stored (en_dict (wo_engine w)) (en_tag_dict (wo_engine w)) (wo_disk w') file docs.

Lemma with_epoch_back (seg : Segment B) : with_epoch (sg_vocab_epoch seg) (with_epoch 0 seg) = seg.
Proof. by destruct seg. Qed.

Lemma wrap64_next n : n + 1 < 2 ^ 64 → wrap64 (n + 1) = n + 1.
Proof. intros Hn. unfold wrap. by apply N.mod_small. Qed.

(** At most the file of this number changed. *)
Definition touched (file : N) w w' : Prop :=
  same_core (wo_engine w) (wo_engine w') ∧ dk_manifest (wo_disk w') = dk_manifest (wo_disk w) ∧
  ∀ file', file' ≠ file → dk_segments (wo_disk w') !! file' = dk_segments (wo_disk w) !! file'.

Lemma touched_calm file w w' : calm w w' → touched file w w'.
Proof. intros [Hs Hm Hf]. split_and!; [done|done|]. intros. by rewrite Hf. Qed.

Lemma grew_touched n file w1 w2 w3 : grew n w1 w2 → en_next_seg_id (wo_engine w1) ≤ file → touched file w2 w3 → grew n w1 w3.
Proof.
  intros (next & L & S & M & F) Hle (S' & M' & F'). exists next. split; [done|]. split; [by etrans|].
  split; [congruence|]. intros file' Hf. rewrite F', F by lia. done.
Qed.

Lemma next_segment_filename_spec w :
  id_room w 1 →
  wp next_segment_filename (λ file w', file = en_next_seg_id (wo_engine w) ∧ en_next_seg_id (wo_engine w') = file + 1 ∧ grew 1 w w' ∧
    dk_segments (wo_disk w') = dk_segments (wo_disk w)) w.
Proof.
  intros Hr. unfold next_segment_filename. wp_go. cbn. rewrite wrap64_next by done. split_and!; [done|done| |done].
  exists (en_next_seg_id (wo_engine w) + 1). split; [lia|]. by split.
Qed.

Lemma write_segment_spec w file (seg : Segment B) :
  wp (write_segment file seg) (λ ok w', touched file w w' ∧ (ok = true → dk_segments (wo_disk w') !! file = Some (with_epoch 0 seg))) w.
Proof.
  unfold write_segment. wp_go; (split; [split_and!|]); try done; cbn; try (intros; by rewrite lookup_insert_ne).
  intros _. apply lookup_insert_eq.
Qed.

Lemma open_segment_spec w file :
  wp (open_segment file) (λ r w', calm w w' ∧ ∀ seg, r = Some seg → dk_segments (wo_disk w) !! file = Some seg) w.
Proof. unfold open_segment. wp_go; by split. Qed.

Lemma best_effort_remove_segment_spec w file :
  wp (best_effort_remove_segment file)
    (λ _ w', touched file w w' ∧ (en_manifest_on_disk (wo_engine w) = RenamedNotSynced → calm w w')) w.
Proof.
  unfold best_effort_remove_segment. wp_go. destruct (manifest_awaits_sync _) eqn:E; wp_go; (split; [split_and!; try done; cbn|]); try done.
  - intros. by rewrite lookup_delete_ne.
  - intros Hn. apply bool_decide_eq_false in E. done.
Qed.

Lemma stored_written d td k file seg docs :
  seg_docs d td seg docs → dk_segments k !! file = Some (with_epoch 0 seg) → stored d td k file docs.
Proof. intros Hs E. exists (with_epoch 0 seg), docs. split; [done|]. split; [by apply seg_docs_epoch|apply later_refl]. Qed.

(** The file was written and mapped: what the callers of the two steps get. *)
Lemma mapped_sealed_as w w1 w2 seg docs file mapped :
  seg_docs (en_dict (wo_engine w)) (en_tag_dict (wo_engine w)) seg docs →
  grew 1 w w2 → en_next_seg_id (wo_engine w) = file → en_next_seg_id (wo_engine w2) = file + 1 →
  dk_segments (wo_disk w1) !! file = Some (with_epoch 0 seg) → dk_segments (wo_disk w1) !! file = Some mapped →
  dk_segments (wo_disk w2) = dk_segments (wo_disk w1) →
  sealed_as w w2 seg docs (Mmap file (with_epoch (sg_vocab_epoch seg) mapped)).
Proof.
  intros Hs Hg En En2 Ew Eo Ed. assert (mapped = with_epoch 0 seg) as -> by congruence. rewrite with_epoch_back.
  split; [done|]. intros file' [= <-]. split; [lia|]. eapply stored_written; [done|]. by rewrite Ed.
Qed.

Lemma make_base_segment_spec w seg docs :
  data_dir (en_config (wo_engine w)) = true → id_room w 1 →
  seg_docs (en_dict (wo_engine w)) (en_tag_dict (wo_engine w)) seg docs →
  wp (make_base_segment seg) (λ r w', grew 1 w w' ∧ sealed_as w w' seg docs r.1) w.
Proof.
  intros Hdir Hroom Hseg. unfold make_base_segment. wp_go. destruct (manifest_awaits_sync _).
  { wp_go. split; [by apply grew_calm|by split]. }
  rewrite Hdir. cbn [negb]. eapply wp_step; [by apply next_segment_filename_spec|]. intros file w1 (-> & En & Hg & _). cbn beta.
  eapply wp_step; [apply write_segment_spec|]. intros ok w2 (Ht & Hok). cbn beta.
  assert (grew 1 w w2) as Hg2 by (eapply grew_touched; [exact Hg| |exact Ht]; lia).
  assert (∀ w', calm w2 w' → grew 1 w w') as Hc by (intros w' Hc; by eapply (grew_touched _ (en_next_seg_id (wo_engine w))), touched_calm).
  assert (∀ w', calm w2 w' → grew 1 w w' ∧ sealed_as w w' seg docs (Memory seg)) as Hmem by (intros w' Hc'; split; [by apply Hc|by split]).
  destruct ok; [|apply wp_inert; [auto with inert|]; intros [] w3 Hc3; wp_go; by apply Hmem].
  eapply wp_step; [apply open_segment_spec|]. intros mapped w3 (Hc3 & Hm). cbn beta.
  destruct mapped as [mapped|].
  - wp_go. split; [by apply Hc|]. eapply (mapped_sealed_as w w2 w3); try done; [by apply Hc| |by apply Hok|by apply Hm|apply Hc3].
    rewrite (sc_next_seg_id _ _ (cl_core _ _ Hc3)). destruct Ht as (S & _). by rewrite (sc_next_seg_id _ _ S).
  - apply wp_inert; [auto with inert|]. intros [] w4 Hc4. wp_go. apply Hmem. by etrans.
Qed.

Lemma build_durable_base_spec w seg docs :
  data_dir (en_config (wo_engine w)) = true → id_room w 1 →
  seg_docs (en_dict (wo_engine w)) (en_tag_dict (wo_engine w)) seg docs →
  wp (build_durable_base seg) (λ r w', grew 1 w w' ∧
    match r with Some (b, path) => sealed_as w w' seg docs b ∧ base_file b = path | None => True end) w.
Proof.
  intros Hdir Hroom Hseg. unfold build_durable_base. wp_go. rewrite Hdir. cbn [negb]. destruct (manifest_awaits_sync _).
  { wp_go. split; [by apply grew_calm|done]. }
  eapply wp_step; [by apply next_segment_filename_spec|]. intros file w1 (-> & En & Hg & _). cbn beta.
  eapply wp_step; [apply write_segment_spec|]. intros ok w2 (Ht & Hok). cbn beta.
  assert (grew 1 w w2) as Hg2 by (eapply grew_touched; [exact Hg| |exact Ht]; lia).
  assert (∀ w' w'', calm w2 w' → touched (en_next_seg_id (wo_engine w)) w' w'' → grew 1 w w'') as Hc.
  { intros w' w'' Hc Ht'. eapply (grew_touched _ (en_next_seg_id (wo_engine w))); [|done|exact Ht'].
    by eapply (grew_touched _ (en_next_seg_id (wo_engine w))), touched_calm. }
  destruct ok; cbn [negb].
  2:{ apply wp_inert; [auto with inert|]. intros [] w3 Hc3. wp_go. split; [|done]. eapply Hc; [exact Hc3|]. by apply touched_calm. }
  eapply wp_step; [apply open_segment_spec|]. intros mapped w3 (Hc3 & Hm). cbn beta. destruct mapped as [mapped|].
  - wp_go. assert (grew 1 w w3) as Hg3 by (eapply Hc; [exact Hc3|by apply touched_calm]). split; [done|]. split; [|done].
    eapply (mapped_sealed_as w w2 w3); try done; [|by apply Hok|by apply Hm|apply Hc3].
    rewrite (sc_next_seg_id _ _ (cl_core _ _ Hc3)). destruct Ht as (S & _). by rewrite (sc_next_seg_id _ _ S).
  - apply wp_inert; [auto with inert|]. intros [] w4 Hc4. eapply wp_step; [apply best_effort_remove_segment_spec|].
    intros [] w5 [Ht5 _]. wp_go. split; [|done]. eapply Hc; [|exact Ht5]. by etrans.
Qed.

(** A file that neither the engine nor the manifest names may go. *)
Lemma holds_docs_touched file w w' st docss :
  touched file w w' → file ∉ omap base_file (en_segments (wo_engine w)) → file ∉ manifest_files (wo_disk w) →
  holds_docs w st docss → holds_docs w' st docss.
Proof.
  intros (S & M & F) He Hm [Hdir Hown Hsl Heng Hf Hd]. split; try by core S.
  - by eapply engine_ok_core.
  - destruct Hf as [Hst Hnd]. split; core S; [|done]. apply Forall2_same_length_lookup. split; [by eapply Forall2_length|].
    intros i b docs Hb Hdocs file' Hfile'. destruct (Forall2_lookup_lr _ _ _ _ _ _ Hst Hb Hdocs file' Hfile') as [Hlt Hs].
    split; [done|]. eapply stored_frame; [|exact Hs]. apply F. intros ->. apply He, list_elem_of_omap. exists b.
    split; [by eapply list_elem_of_lookup_2|done].
  - unfold disk_ok, manifest_files in *. rewrite M. destruct (dk_manifest (wo_disk w)) as [m|]; [|done]. destruct Hd as [[] Hn]. split; [|by core S].
    split; try done. apply Forall2_same_length_lookup. split; [by eapply Forall2_length|]. intros i file' docs Hi Hdocs.
    destruct (Forall2_lookup_lr _ _ _ _ _ _ mo_named0 Hi Hdocs) as (seg0 & docs0 & E & ?). exists seg0, docs0. rewrite F; [done|].
    intros ->. by apply Hm, (list_elem_of_lookup_2 _ i).
Qed.

(** ** Segments served from memory *)

(** The same segments, some of them given a file of a number from [next] on. *)
Definition backed (next : N) b b' : Prop := b' = b ∨ ∃ seg file, b = Memory seg ∧ b' = Mmap file seg ∧ next ≤ file.

Lemma backed_refl next l : Forall2 (backed next) l l.
Proof. induction l as [|b l IH]; [constructor|]. constructor; [by left|done]. Qed.

Lemma backed_insert next l i seg file : l !! i = Some (Memory seg) → next ≤ file → Forall2 (backed next) l (<[i := Mmap file seg]> l).
Proof.
  intros Hi Hn. rewrite <-(list_insert_id l i _ Hi) at 1. apply Forall2_insert; [apply backed_refl|]. right. by exists seg, file.
Qed.

Lemma backed_trans next next' l1 l2 l3 :
  next ≤ next' → Forall2 (backed next) l1 l2 → Forall2 (backed next') l2 l3 → Forall2 (backed next) l1 l3.
Proof.
  intros Hn H12. revert l3. induction H12 as [|x y l1 l2 Hxy _ IH]; inversion 1 as [|? z ? l3' Hyz]; subst; constructor; [|by apply IH].
  destruct Hyz as [->|(seg & file & -> & -> & Hf)]; [done|]. right. destruct Hxy as [<-|(? & ? & _ & [=] & _)]. exists seg, file. split_and!; [done..|lia].
Qed.

Lemma backed_seg next b b' : backed next b b' → base_seg b' = base_seg b.
Proof. intros [->|(? & ? & -> & -> & _)]; done. Qed.

Lemma backed_file next b b' : backed next b b' → is_Some (base_file b) → b' = b.
Proof. by intros [->|(? & ? & -> & -> & _)] [? [=]]. Qed.

(** A commit's steps up to the manifest: files may have been added. *)
Record persisted (n : nat) w w' : Prop := {
  ps_config : en_config (wo_engine w') = en_config (wo_engine w);
  ps_norm : en_norm (wo_engine w') = en_norm (wo_engine w);
  ps_dict : en_dict (wo_engine w') = en_dict (wo_engine w);
  ps_tag_dict : en_tag_dict (wo_engine w') = en_tag_dict (wo_engine w);
  ps_segments : Forall2 (backed (en_next_seg_id (wo_engine w))) (en_segments (wo_engine w)) (en_segments (wo_engine w'));
  ps_generations : en_generations (wo_engine w') = en_generations (wo_engine w);
  ps_memtable : en_memtable (wo_engine w') = en_memtable (wo_engine w);
  ps_phrases : en_live_phrase_segments (wo_engine w') = en_live_phrase_segments (wo_engine w);
  ps_next_source : en_next_source_generation (wo_engine w') = en_next_source_generation (wo_engine w);
  ps_epoch : en_vocab_epoch (wo_engine w') = en_vocab_epoch (wo_engine w);
  ps_sealed : en_sealed_through (wo_engine w') = en_sealed_through (wo_engine w);
  ps_owns : en_owns_manifest (wo_engine w') = en_owns_manifest (wo_engine w);
  ps_token : en_next_token (wo_engine w') = en_next_token (wo_engine w);
  ps_next : en_next_seg_id (wo_engine w) ≤ en_next_seg_id (wo_engine w') ≤ en_next_seg_id (wo_engine w) + N.of_nat n;
  ps_files file : file < en_next_seg_id (wo_engine w) → dk_segments (wo_disk w') !! file = dk_segments (wo_disk w) !! file;
}.

Lemma capable_persisted n w w' : persisted n w w' → capable (wo_engine w) → capable (wo_engine w').
Proof.
  intros Hp. apply capable_same; [apply Hp| |apply Hp]. pose proof (ps_segments _ _ _ Hp) as Hs.
  induction Hs as [|b b' bs bs' Hb _ IH]; [done|]. by rewrite !fmap_cons, IH, (backed_seg _ _ _ Hb).
Qed.

(** [persisted] between two engines that differ in fields it leaves open. *)
Ltac persist := (split; cbn; try done; [apply backed_refl|lia]).

Lemma persisted_core n w w' : calm w w' → persisted n w w'.
Proof. intros [[] _ Hk]. split; try done; [rewrite sc_segments; apply backed_refl|lia|]. intros. by rewrite Hk. Qed.

Lemma persisted_trans n m w1 w2 w3 : persisted n w1 w2 → persisted m w2 w3 → persisted (n + m) w1 w3.
Proof.
  intros [] []. split; try congruence; [eapply backed_trans; [|done..]; lia|lia|]. intros. rewrite ps_files1, ps_files0 by lia. done.
Qed.

Lemma persisted_le n m w w' : persisted n w w' → (n ≤ m)%nat → persisted m w w'.
Proof. intros [] Hle. split; try done. lia. Qed.

(** The other fields of the core: neither the log nor the manifest moved. *)
Record settled w w' : Prop := {
  se_committed : en_committed_generations (wo_engine w') = en_committed_generations (wo_engine w);
  se_wal : en_wal (wo_engine w') = en_wal (wo_engine w);
  se_on_disk : en_manifest_on_disk (wo_engine w') = en_manifest_on_disk (wo_engine w);
  se_manifest : dk_manifest (wo_disk w') = dk_manifest (wo_disk w);
}.

#[export] Instance settled_preorder : PreOrder settled.
Proof. split; [by intros w|]. intros w1 w2 w3 [] []. split; congruence. Qed.

Lemma settled_calm w w' : calm w w' → settled w w'.
Proof. intros [[] ? ?]. by split. Qed.

Lemma files_below e k docss : files_ok e k docss → Forall (λ file, file < en_next_seg_id e) (omap base_file (en_segments e)).
Proof.
  intros [Hs _]. apply Forall_forall. intros file (b & Hb & Hf)%list_elem_of_omap.
  apply list_elem_of_lookup_1 in Hb as [i Hi]. destruct (Forall2_lookup_l _ _ _ _ _ Hs Hi) as (docs & _ & Hd). by apply Hd.
Qed.

Lemma omap_insert_file segs i b file (seg : Segment B) :
  segs !! i = Some b → base_file b = None →
  omap base_file (<[i := Mmap file seg]> segs) ≡ₚ file :: omap base_file segs.
Proof.
  intros Hi Hb. rewrite insert_take_drop by by apply lookup_lt_Some in Hi. rewrite <-(take_drop_middle segs i b Hi) at 3.
  rewrite !omap_app. cbn. rewrite Hb. symmetry. apply Permutation_middle.
Qed.

(** The segment at [i] is now mapped. *)
Lemma holds_docs_mapped w st docss i (seg : Segment B) docs file :
  holds_docs w st docss → en_segments (wo_engine w) !! i = Some (Memory seg) → st_segments st !! i = Some docs →
  file < en_next_seg_id (wo_engine w) → file ∉ omap base_file (en_segments (wo_engine w)) →
  stored (en_dict (wo_engine w)) (en_tag_dict (wo_engine w)) (wo_disk w) file docs →
  holds_docs (mkWorld (with_segments (<[i := Mmap file seg]> (en_segments (wo_engine w))) (wo_engine w)) (wo_disk w) (wo_faults w)) st docss.
Proof.
  intros [Hdir Hown Hsl He Hf Hd] Hi Hdocs Hlt Hnew Hst. split; try done.
  - destruct He. split; try done; cbn; [|by rewrite length_insert].
    destruct (Forall2_lookup_l _ _ _ _ _ eo_segments0 Hi) as (docs' & ? & Hs). simplify_eq. by eapply Forall2_insert_left.
  - destruct Hf as [Hs Hnd]. split; cbn.
    + eapply Forall2_insert_left; [exact Hs|exact Hdocs|]. by intros file' [= <-].
    + rewrite omap_insert_file by done. by constructor.
Qed.

(** Writing the segment at [i] and mapping it, as far as the file goes. *)
Lemma fallback_file_spec w st docss i (seg : Segment B) :
  holds_docs w st docss → id_room w 1 → en_segments (wo_engine w) !! i = Some (Memory seg) →
  wp (let& file := next_segment_filename in
      let& written := write_segment file seg in
      let& mapped := if written : bool then open_segment file else eng_ret None in
      eng_ret (file, mapped))
    (λ r w', grew 1 w w' ∧ en_next_seg_id (wo_engine w) ≤ r.1 < en_next_seg_id (wo_engine w') ∧
       ∀ mapped, r.2 = Some mapped →
         with_epoch (sg_vocab_epoch seg) mapped = seg ∧ ∃ docs, st_segments st !! i = Some docs ∧
         stored (en_dict (wo_engine w)) (en_tag_dict (wo_engine w)) (wo_disk w') r.1 docs) w.
Proof.
  intros Hh Hroom Hi. eapply wp_step; [by apply next_segment_filename_spec|]. intros file w1 (-> & En & Hg & _). cbn beta.
  eapply wp_step; [apply write_segment_spec|]. intros ok w2 (Ht & Hok). cbn beta.
  assert (grew 1 w w2) as Hg2 by (eapply grew_touched; [exact Hg| |exact Ht]; lia).
  assert (en_next_seg_id (wo_engine w2) = en_next_seg_id (wo_engine w) + 1) as En2.
  { destruct Ht as (S & _). by rewrite (sc_next_seg_id _ _ S). }
  destruct ok; [|wp_go; cbn [fst snd]; split_and!; [done|lia|lia|done]].
  eapply wp_step; [apply open_segment_spec|]. intros mapped w3 (Hc3 & Hm). wp_go. cbn [fst snd].
  pose proof (sc_next_seg_id _ _ (cl_core _ _ Hc3)) as En3. split; [by eapply (grew_touched _ (en_next_seg_id (wo_engine w))), touched_calm|].
  split; [lia|]. intros mapped' ->. specialize (Hm _ eq_refl). rewrite (Hok eq_refl) in Hm. injection Hm as <-. split; [apply with_epoch_back|].
  destruct (Forall2_lookup_l _ _ _ _ _ (eo_segments _ _ (hd_engine _ _ _ Hh)) Hi) as (docs & Hdocs & Hseg). exists docs. split; [done|].
  eapply stored_written; [exact Hseg|]. rewrite (cl_segments _ _ Hc3). by apply Hok.
Qed.

Lemma persisted_grew n w w' : grew n w w' → persisted n w w'.
Proof.
  intros (next & L & S & F). destruct S. split; try done; [rewrite sc_segments; apply backed_refl|cbn in *; lia|]. intros. by apply F.
Qed.

Lemma settled_grew n w w' : grew n w w' → settled w w'.
Proof. intros (next & L & S & M & _). destruct S. by split. Qed.

Lemma settled_touched file w w' : touched file w w' → settled w w'.
Proof. intros (S & M & _). destruct S. by split. Qed.

Lemma persist_fallbacks_spec idx w st docss :
  holds_docs w st docss → id_room w (length idx) →
  wp (persist_fallbacks idx) (λ ok w', holds_docs w' st docss ∧ persisted (length idx) w w' ∧ settled w w' ∧
    (ok = true → ∀ i b, i ∈ idx → en_segments (wo_engine w') !! i = Some b → is_Some (base_file b))) w.
Proof.
  revert w. induction idx as [|i idx IH]; intros w Hh Hroom; cbn [persist_fallbacks].
  { wp_go. split_and!; [done|by apply persisted_core|done|]. by intros _ i b ?%not_elem_of_nil. }
  change (length (i :: idx)) with (1 + length idx)%nat in *.
  assert (∀ w1 n, holds_docs w1 st docss → id_room w1 (length idx) → persisted n w w1 → (n ≤ 1)%nat → settled w w1 →
    (∀ b, en_segments (wo_engine w1) !! i = Some b → is_Some (base_file b)) →
    wp (persist_fallbacks idx) (λ ok w', holds_docs w' st docss ∧ persisted (1 + length idx) w w' ∧ settled w w' ∧
      (ok = true → ∀ j b, j ∈ i :: idx → en_segments (wo_engine w') !! j = Some b → is_Some (base_file b))) w1) as Hrest.
  { intros w1 n Hh1 Hr1 Hp1 Hn Hs1 Hi. eapply wp_mono; [by apply IH|]. intros ok w' (Hh' & Hp & Hs & Hall).
    split_and!; [done| |by etrans|].
    - eapply persisted_le; [exact (persisted_trans _ _ _ _ _ Hp1 Hp)|lia].
    - intros Hok j b [->|Hj]%elem_of_cons Hb; [|by eapply Hall].
      destruct (Forall2_lookup_r _ _ _ _ _ (ps_segments _ _ _ Hp) Hb) as (b1 & Hb1 & E%backed_file); [|by apply Hi].
      subst. by apply Hi. }
  wp_go. destruct (en_segments (wo_engine w) !! i) as [[seg|file seg]|] eqn:Hi.
  2:{ apply (Hrest w O); [done| |by apply persisted_core|lia|done|]; [unfold id_room in *; lia|]. intros b E. simplify_eq. by eexists. }
  2:{ apply (Hrest w O); [done| |by apply persisted_core|lia|done|]; [unfold id_room in *; lia|]. intros b E. simplify_eq. }
  assert (id_room w 1) as Hr1 by (unfold id_room in *; lia).
  apply wp_three. eapply wp_mono; [by eapply fallback_file_spec|]. intros [file mapped] w1 (Hg & Hfile & Hmap). cbn [fst snd] in *.
  assert (id_room w1 (length idx)) as Hr' by by eapply id_room_grew. pose proof (holds_docs_grew _ _ _ _ _ Hg Hh) as Hh1.
  pose proof (persisted_grew _ _ _ Hg) as Hp1. pose proof (settled_grew _ _ _ Hg) as Hs1. destruct mapped as [mapped|].
  - destruct (Hmap _ eq_refl) as (-> & docs & Hdocs & Hst). destruct Hg as (next & Hn & S & F).
    pose proof (sc_segments _ _ S) as Es. pose proof (sc_dict _ _ S) as Ed. pose proof (sc_tag_dict _ _ S) as Et. cbn in Es, Ed, Et.
    wp_go. apply (Hrest _ 1%nat); [| |destruct Hp1; split; cbn; try done; rewrite Es; apply backed_insert; [done|lia]|lia|by destruct Hs1|].
    + eapply holds_docs_mapped; [exact Hh1|by rewrite Es|exact Hdocs|lia| |by rewrite Ed, Et].
      rewrite Es. intros Hin. pose proof (files_below _ _ _ (hd_files _ _ _ Hh)) as Hb. rewrite Forall_forall in Hb.
      apply Hb in Hin. lia.
    + done.
    + cbn. rewrite Es. intros b. rewrite list_lookup_insert_eq by by apply lookup_lt_Some in Hi. intros [= <-]. by eexists.
  - eapply wp_step; [apply best_effort_remove_segment_spec|]. intros [] w2 [Ht2 _]. apply wp_inert; [auto with inert|]. intros [] w3 Hc3. wp_go.
    assert (grew 1 w w3) as Hg3.
    { eapply (grew_touched _ file), touched_calm; [|lia|exact Hc3]. eapply (grew_touched _ file); [exact Hg|lia|exact Ht2]. }
    split_and!; [by eapply holds_docs_grew|eapply persisted_le; [by apply persisted_grew|lia]|by eapply settled_grew|done].
Qed.

(** ** The manifest of an engine *)

Lemma file_unique (segs : list (BaseSegment B)) b1 b2 file :
  NoDup (omap base_file segs) → b1 ∈ segs → b2 ∈ segs → base_file b1 = Some file → base_file b2 = Some file → b1 = b2.
Proof.
  induction segs as [|b segs IH]; intros Hnd H1' H2' E1 E2; [by apply not_elem_of_nil in H1'|].
  apply elem_of_cons in H1'. apply elem_of_cons in H2'. cbn in Hnd.
  assert (∀ b', base_file b = Some file → base_file b' = Some file → b' ∈ segs → False) as Hno.
  { intros b' E E' Hin. rewrite E in Hnd. apply NoDup_cons in Hnd as [Hnd _]. apply Hnd. apply list_elem_of_omap. eauto. }
  destruct H1' as [->|H1'], H2' as [->|H2']; [done|by exfalso; eauto|by exfalso; eauto|].
  apply IH; try done. destruct (base_file b); [by apply NoDup_cons in Hnd as [_ ?]|done].
Qed.

Lemma dead_of_manifest e source watermark file (seg : Segment B) :
  NoDup (omap base_file (en_segments e)) → Mmap file seg ∈ en_segments e →
  dead_of (manifest_of e source watermark) file = dead_overlay seg.
Proof.
  intros Hnd Hin. unfold dead_of. cbn [manifest_of mf_segment_tombstones]. destruct (list_find _ _) as [[i [file' dead]]|] eqn:E.
  - apply list_find_Some in E as (Hi & Ef & _). cbn in Ef. subst file'. apply list_elem_of_lookup_2, list_elem_of_omap in Hi as (b & Hb & Eb).
    destruct b as [|file' seg']; [done|]. destruct (nonempty (dead_overlay seg')); [|done]. injection Eb as -> <-.
    pose proof (file_unique _ _ _ file Hnd Hin Hb eq_refl eq_refl) as [= ->]. done.
  - apply list_find_None in E. destruct (dead_overlay seg) as [|l dead] eqn:Ed; [done|]. exfalso.
    rewrite Forall_forall in E. apply (E (file, l :: dead)); [|done]. apply list_elem_of_omap. exists (Mmap file seg). by rewrite Ed.
Qed.

Lemma named_omap m k segs docss :
  Forall2 (λ b docs, ∃ file, base_file b = Some file ∧ named m k file docs) segs docss → Forall2 (named m k) (omap base_file segs) docss.
Proof. induction 1 as [|b docs segs docss (file & E & Hn) _ IH]; [constructor|]. cbn. rewrite E. by constructor. Qed.

Lemma manifest_of_ok w st docss source watermark :
  holds_docs w st docss → Forall (λ b, is_Some (base_file b)) (en_segments (wo_engine w)) →
  manifest_ok (manifest_of (wo_engine w) source watermark) (wo_disk w) (st_segments st).
Proof.
  intros [_ _ Hsl He Hf _] Hall. pose proof Hf as [Hst Hnd]. split; cbn [manifest_of mf_dict mf_tag_dict mf_segment_files mf_next_seg_id mf_sealed_through];
    [apply He|apply He| |by eapply files_below|done|done].
  apply named_omap. apply Forall2_same_length_lookup. split; [by eapply Forall2_length|]. intros i b docs Hb Hdocs.
  rewrite Forall_forall in Hall. destruct (Hall b) as [file Efile]; [by eapply list_elem_of_lookup_2|].
  destruct (Forall2_lookup_lr _ _ _ _ _ _ Hst Hb Hdocs file Efile) as (_ & seg0 & docs0 & E0 & Hs0 & Hlat).
  pose proof (Forall2_lookup_lr _ _ _ _ _ _ (eo_segments _ _ He) Hb Hdocs) as Hseg. cbn beta in Hseg.
  exists file. split; [done|]. exists seg0, docs0. split_and!; [done|done|]. destruct b as [|file' seg]; [done|]. injection Efile as ->. symmetry.
  rewrite (dead_of_manifest _ _ _ file seg) by (done || by eapply list_elem_of_lookup_2).
  apply later_kill_all; [done|]. by eapply dead_overlay_spec.
Qed.

(** ** The commit *)

(** The manifest on disk is the engine's own. *)
Definition recorded w (watermark : N) : Prop :=
  Forall (λ b, is_Some (base_file b)) (en_segments (wo_engine w)) ∧
  ∃ m, dk_manifest (wo_disk w) = Some m ∧ mf_segment_files m = omap base_file (en_segments (wo_engine w)) ∧
    mf_watermark m = watermark ∧ mf_sealed_through m = en_sealed_through (wo_engine w).

Lemma recorded_calm w w' watermark : calm w w' → recorded w watermark → recorded w' watermark.
Proof. intros [Hs Hm _] [Hall (m & Em & ?)]. split; core Hs; [done|]. exists m. rewrite Hm. by core Hs. Qed.

(** What a commit does: it succeeds, or leaves the manifest as it was, or cannot
    tell whether the manifest it renamed will survive, and closes the log. *)
Inductive outcome (n : nat) w w' st (docss : list (list Doc)) (watermark : N) : bool → Prop :=
  | committed : persisted n w w' → en_wal (wo_engine w') = en_wal (wo_engine w) →
      en_manifest_on_disk (wo_engine w) = Synced → en_manifest_on_disk (wo_engine w') = Synced →
      en_committed_generations (wo_engine w') = en_generations (wo_engine w) →
      recorded w' watermark → holds_docs w' st (st_segments st) → outcome n w w' st docss watermark true
  | kept : persisted n w w' → settled w w' → holds_docs w' st docss → outcome n w w' st docss watermark false
  | frozen : persisted n w w' → en_wal (wo_engine w') = close_until_reopen NOTHING_UNTIL_A_RESTART <$> en_wal (wo_engine w) →
      en_manifest_on_disk (wo_engine w) = Synced → en_manifest_on_disk (wo_engine w') = RenamedNotSynced →
      recorded w' watermark → holds_docs w' st (st_segments st) → outcome n w w' st docss watermark false.

Lemma engine_ok_persisted n w w' st :
  persisted n w w' → en_segments (wo_engine w') = en_segments (wo_engine w) → engine_ok (wo_engine w) st → engine_ok (wo_engine w') st.
Proof.
  intros [] Es []. split; rewrite ?ps_norm0, ?ps_dict0, ?ps_tag_dict0, ?Es, ?ps_memtable0, ?ps_generations0, ?ps_token0, ?ps_next_source0; done.
Qed.

Lemma manifest_ok_disk m k k' docss : dk_segments k' = dk_segments k → manifest_ok m k docss → manifest_ok m k' docss.
Proof.
  intros E []. split; try done. eapply Forall2_impl; [exact mo_named0|]. intros file docs (seg0 & docs0 & ?). exists seg0, docs0. by rewrite E.
Qed.

Lemma holds_docs_published w w' st docss source watermark :
  holds_docs w st docss → Forall (λ b, is_Some (base_file b)) (en_segments (wo_engine w)) → persisted 0 w w' →
  en_segments (wo_engine w') = en_segments (wo_engine w) → dk_segments (wo_disk w') = dk_segments (wo_disk w) →
  dk_manifest (wo_disk w') = Some (manifest_of (wo_engine w) source watermark) →
  recorded w' watermark ∧ holds_docs w' st (st_segments st).
Proof.
  intros Hh Hall Hp Es Ek Em. split.
  { split; [by rewrite Es|]. eexists. split; [exact Em|]. rewrite Es, (ps_sealed _ _ _ Hp). done. }
  pose proof (manifest_of_ok _ _ _ source watermark Hh Hall) as Hm. destruct Hh as [Hdir Hown Hsl He Hf Hd].
  pose proof (ps_next _ _ _ Hp) as Hn. split.
  - by rewrite (ps_config _ _ _ Hp).
  - by rewrite (ps_owns _ _ _ Hp).
  - by rewrite (ps_sealed _ _ _ Hp).
  - by eapply engine_ok_persisted.
  - destruct Hf as [Hst Hnd]. split; rewrite Es; [|done]. rewrite (ps_dict _ _ _ Hp), (ps_tag_dict _ _ _ Hp). eapply Forall2_impl; [exact Hst|].
    intros b docs Hb file Hf. destruct (Hb file Hf) as [Hlt Hs]. split; [lia|]. eapply stored_frame; [|exact Hs]. by rewrite Ek.
  - unfold disk_ok. rewrite Em. split; [by eapply manifest_ok_disk|]. cbn. lia.
Qed.

Lemma mapped_generations_all e :
  Forall (λ b, is_Some (base_file b)) (en_segments e) → length (en_generations e) = length (en_segments e) →
  mapped_generations e = en_generations e.
Proof.
  unfold mapped_generations. generalize (en_generations e). induction (en_segments e) as [|b segs IH]; intros [|g gens] Hall Hl; try done.
  apply Forall_cons in Hall as [[file Hb] Hall]. destruct b; [done|]. cbn in *. f_equal. apply IH; [done|lia].
Qed.

Lemma fallbacks_all_mapped w w' :
  persisted (length (seq 0 (length (en_segments (wo_engine w))))) w w' →
  (∀ i b, i ∈ seq 0 (length (en_segments (wo_engine w))) → en_segments (wo_engine w') !! i = Some b → is_Some (base_file b)) →
  Forall (λ b, is_Some (base_file b)) (en_segments (wo_engine w')).
Proof.
  intros Hp Hall. apply Forall_forall. intros b [i Hi]%list_elem_of_lookup_1. apply (Hall i); [|done]. apply elem_of_seq.
  apply lookup_lt_Some in Hi. rewrite <-(Forall2_length _ _ _ (ps_segments _ _ _ Hp)) in Hi. lia.
Qed.

Lemma write_manifest_capturing_spec w st docss source watermark :
  holds_docs w st docss → id_room w (length (en_segments (wo_engine w))) →
  wp (write_manifest_capturing source watermark)
    (λ ok w', outcome (length (en_segments (wo_engine w))) w w' st docss watermark ok) w.
Proof.
  intros Hh Hroom. unfold write_manifest_capturing, persist_fallback_segments. wp_go. rewrite (hd_owns _ _ _ Hh). cbn [negb].
  assert (outcome (length (en_segments (wo_engine w))) w w st docss watermark false) as Hkept by (apply kept; [by apply persisted_core|done|done]).
  destruct (manifest_awaits_sync _) eqn:Eaw; [by wp_go|].
  assert (en_manifest_on_disk (wo_engine w) = Synced) as Esync.
  { unfold manifest_awaits_sync in Eaw. apply bool_decide_eq_false in Eaw. by destruct (en_manifest_on_disk (wo_engine w)). }
  destruct (_ && _); [by wp_go|]. wp_go. rewrite (hd_dir _ _ _ Hh). cbn [negb].
  eapply wp_mono; [apply (persist_fallbacks_spec _ _ _ _ Hh); by rewrite length_seq|]. intros ok w1 (Hh1 & Hp1 & Hs1 & Hall).
  destruct ok; cbn [negb]; [|rewrite length_seq in Hp1; wp_go; by apply kept].
  pose proof (fallbacks_all_mapped _ _ Hp1 (Hall eq_refl)) as Hmap. rewrite length_seq in Hp1.
  assert (∀ w2, persisted 0 w1 w2 → persisted (length (en_segments (wo_engine w))) w w2) as Hp.
  { intros w2 Hp2. pose proof (persisted_trans _ _ _ _ _ Hp1 Hp2) as Hp. by rewrite Nat.add_0_r in Hp. }
  wp_go. rewrite (ps_config _ _ _ Hp1), (hd_dir _ _ _ Hh). unfold publish_manifest. wp_go; cbn [negb]; wp_go.
  - destruct (holds_docs_published w1 (mkWorld (with_committed_generations (mapped_generations (wo_engine w1)) (with_committed_watermark watermark (wo_engine w1)))
      (mkDisk (Some (manifest_of (wo_engine w1) source watermark)) None (dk_segments (wo_disk w1)) (dk_sources (wo_disk w1))) faults) st docss source watermark)
      as [Hr Hh2]; [done|done|persist|done..|].
    apply committed; [apply Hp; persist|apply Hs1|done|by cbn; rewrite (se_on_disk _ _ Hs1)| |done|done].
    transitivity (mapped_generations (wo_engine w1)); [done|]. rewrite mapped_generations_all; [apply Hp1|done|apply (hd_engine _ _ _ Hh1)].
  - apply kept; [apply Hp; persist|destruct Hs1; by split|].
    eapply holds_docs_calm; [|exact Hh1]. by split.
  - eapply wp_inert; [auto with inert|]. intros [] w2 Hc. wp_go. cbn [negb]. wp_go.
    match type of Hc with calm ?w1' _ => destruct (holds_docs_published w1 w1' st docss source watermark) as [Hr Hh2]; [done|done|persist|done..|] end.
    apply frozen; [apply Hp| |done| | |by eapply holds_docs_calm].
    + destruct Hc as [[] _ Hk]. cbn in *. split; try done; [rewrite sc_segments; apply backed_refl|lia|]. intros. by rewrite Hk.
    + rewrite (sc_wal _ _ (cl_core _ _ Hc)). cbn. by rewrite (se_wal _ _ Hs1).
    + by rewrite (sc_manifest _ _ (cl_core _ _ Hc)).
    + by eapply recorded_calm.
Qed.

Lemma persisted_calm n w w1 w2 : persisted n w w1 → calm w1 w2 → persisted n w w2.
Proof.
  intros Hp Hc. pose proof (persisted_trans n 0 w w1 w2 Hp) as Ht. rewrite Nat.add_0_r in Ht. apply Ht, persisted_core, Hc.
Qed.

Lemma outcome_calm n w w1 w2 st docss watermark ok : outcome n w w1 st docss watermark ok → calm w1 w2 → outcome n w w2 st docss watermark ok.
Proof.
  intros Ho Hc. pose proof (cl_core _ _ Hc) as Hs. destruct Ho.
  - apply committed; core Hs; [by eapply persisted_calm|done..|by eapply recorded_calm|by eapply holds_docs_calm].
  - apply kept; [by eapply persisted_calm|etrans; [done|by apply settled_calm]|by eapply holds_docs_calm].
  - apply frozen; core Hs; [by eapply persisted_calm|done|done|done|by eapply recorded_calm|by eapply holds_docs_calm].
Qed.

Lemma calm_outcome n w w1 w2 st docss watermark ok : calm w w1 → outcome n w1 w2 st docss watermark ok → outcome n w w2 st docss watermark ok.
Proof.
  intros Hc Ho. pose proof (cl_core _ _ Hc) as Hs. assert (∀ w', persisted n w1 w' → persisted n w w') as Hp.
  { intros w' Hp. apply (persisted_trans 0 n w w1 w'); [apply persisted_core, Hc|done]. }
  destruct Ho as [? Hw Hd ? Hg ? ?|? Hse ?|? Hw Hd ? ? ?]; [apply committed|apply kept|apply frozen]; auto.
  - by rewrite Hw, (sc_wal _ _ Hs).
  - by rewrite <-(sc_manifest _ _ Hs).
  - by rewrite Hg, (sc_generations _ _ Hs).
  - etrans; [by apply settled_calm|done].
  - by rewrite Hw, (sc_wal _ _ Hs).
  - by rewrite <-(sc_manifest _ _ Hs).
Qed.

Lemma commit_staged_spec w st docss staged :
  holds_docs w st docss → id_room w (length (en_segments (wo_engine w))) →
  wp (commit_staged_sources_and_manifest staged)
    (λ ok w', outcome (length (en_segments (wo_engine w))) w w' st docss (wal_last_seq (wo_engine w)) ok) w.
Proof.
  intros Hh Hroom. unfold commit_staged_sources_and_manifest, save_manifest_selecting_source. wp_go.
  eapply wp_mono; [by apply write_manifest_capturing_spec|]. intros ok w1 Ho. cbn beta. destruct ok; cbn [negb].
  - destruct staged as [name|]; [|by wp_go]. apply wp_inert; [auto with inert|]. intros [] w2 Hc2. apply wp_inert; [auto with inert|].
    intros [] w3 Hc3. wp_go. eapply outcome_calm; [exact Ho|by etrans].
  - apply wp_inert; [auto with inert|]. intros [] w2 Hc2. wp_go. by eapply outcome_calm.
Qed.

Lemma commit_sources_and_manifest_spec w st docss :
  holds_docs w st docss → id_room w (length (en_segments (wo_engine w))) →
  wp commit_sources_and_manifest
    (λ ok w', outcome (length (en_segments (wo_engine w))) w w' st docss (wal_last_seq (wo_engine w)) ok) w.
Proof.
  intros Hh Hroom. unfold commit_sources_and_manifest. wp_go. destruct (selected_sources_are_current _); [by apply commit_staged_spec|].
  apply wp_inert; [auto with inert|]. intros staged w1 Hc. pose proof (cl_core _ _ Hc) as Hs. destruct staged as [staged|].
  - eapply wp_mono; [apply (commit_staged_spec w1 st docss); [by eapply holds_docs_calm|unfold id_room in *; by core Hs]|].
    intros ok w2 Ho. eapply calm_outcome; [exact Hc|]. unfold wal_last_seq in *. by rewrite <-(sc_segments _ _ Hs), <-(sc_wal _ _ Hs).
  - wp_go. apply kept; [by apply persisted_core|by apply settled_calm|by eapply holds_docs_calm].
Qed.

Lemma commit_current_spec w st docss :
  holds_docs w st docss → id_room w (length (en_segments (wo_engine w))) →
  wp commit_manifest_with_current_sources
    (λ ok w', outcome (length (en_segments (wo_engine w))) w w' st docss (wal_last_seq (wo_engine w)) ok) w.
Proof.
  intros Hh Hroom. unfold commit_manifest_with_current_sources. wp_go. rewrite (hd_owns _ _ _ Hh). by apply commit_sources_and_manifest_spec.
Qed.

End durable.
