(* ===== verification/Replay.v ===== *)
(** * What a restart would serve

    The documents that a log means: the effect of each entry on the memtable and
    on the base segments, and the state that replaying a log over the segments of
    a manifest leaves.  [linked] ties the documents an engine serves to the
    documents its disk would bring back. *)

From S2P Require Import Prelude Util Text Dsl Dictionary FramedLog Wal Sources Index Phrase Automaton Normalize Analyze Compile Plan Extract.
From S2P Require Import Ownership Tags Store Segment Recompile Engine Compaction Ingest Open EngineLogic Documents Durable.

Definition all_docs (st : State) : list Doc := mjoin (st_segments st) ++ st_memtable st.

(** ** The effect of an entry *)

Definition doc_of (p : WalPut) : Doc := mkDoc (wp_logical p) (wp_text p) (wp_tags p) true.

Definition mem_effect (entry : WalEntry) (mem : list Doc) : list Doc :=
  match entry with
  | WalInsert p => mem ++ [doc_of p]
  | WalUpsert p => kill_logical (wp_logical p) mem ++ [doc_of p]
  | WalTombstone _ seg_idx local => if seg_idx =? umax 32 then kill_at local mem else mem
  | WalDeleteByLogical _ logical => kill_logical logical mem
  | WalFlushCheckpoint _ _ => mem
  end.

Definition seg_effect (entry : WalEntry) (docss : list (list Doc)) : list (list Doc) :=
  match entry with
  | WalUpsert p => kill_logical (wp_logical p) <$> docss
  | WalTombstone _ seg_idx local => if seg_idx =? umax 32 then docss else alter (kill_at local) (usize seg_idx) docss
  | WalDeleteByLogical _ logical => kill_logical logical <$> docss
  | _ => docss
  end.

(** An entry up to [sealed] is in a segment; one up to [watermark] has its effect
    on the segments already. *)
Definition replay_step (sealed watermark : N) (st : State) (entry : WalEntry) : State :=
  if entry_seq entry <=? sealed then st
  else mkState (if watermark <? entry_seq entry then seg_effect entry (st_segments st) else st_segments st) (mem_effect entry (st_memtable st)).

Definition replayed (sealed watermark : N) (docss : list (list Doc)) (entries : list WalEntry) : State :=
  foldl (replay_step sealed watermark) (mkState docss []) entries.

(** The memtable's part does not depend on the segments. *)
Definition replayed_mem (sealed : N) (entries : list WalEntry) : list Doc := st_memtable (replayed sealed 0 [] entries).

Lemma replayed_mem_eq sealed watermark docss entries : st_memtable (replayed sealed watermark docss entries) = replayed_mem sealed entries.
Proof.
  unfold replayed_mem, replayed. assert (∀ st st', st_memtable st = st_memtable st' →
    st_memtable (foldl (replay_step sealed watermark) st entries) = st_memtable (foldl (replay_step sealed 0) st' entries)) as Hall; [|by apply Hall].
  induction entries as [|x entries IH]; intros st st' E; simpl; [done|]. apply IH. unfold replay_step. destruct (_ <=? _); [done|]. simpl. by rewrite E.
Qed.

Lemma replayed_snoc sealed watermark docss entries x :
  replayed sealed watermark docss (entries ++ [x]) = replay_step sealed watermark (replayed sealed watermark docss entries) x.
Proof. unfold replayed. by rewrite foldl_app. Qed.

Lemma replayed_none sealed watermark docss entries :
  Forall (λ x, entry_seq x ≤ sealed) entries → replayed sealed watermark docss entries = mkState docss [].
Proof.
  unfold replayed. induction 1 as [|x entries Hx _ IH]; simpl; [done|]. unfold replay_step at 2. by rewrite (proj2 (N.leb_le _ _)).
Qed.

Lemma replayed_segments_same sealed watermark docss entries :
  Forall (λ x, entry_seq x ≤ watermark) entries → st_segments (replayed sealed watermark docss entries) = docss.
Proof.
  intros Hall. unfold replayed. generalize ([] : list Doc). induction Hall as [|x entries Hx _ IH]; intros mem; simpl; [done|].
  unfold replay_step at 2. destruct (_ <=? _); [done|]. cbn [st_segments st_memtable]. rewrite (proj2 (N.ltb_ge _ _)) by done. apply IH.
Qed.

Lemma after_checkpoint_elem x log : x ∈ after_checkpoint log → x ∈ log.
Proof.
  induction log as [|y log IH]; simpl; [done|]. destruct (existsb _ log); [intros Hx; right; by apply IH|].
  destruct (is_checkpoint y); [by right|done].
Qed.

Lemma kill_logical_app logical l k : kill_logical logical (l ++ k) = kill_logical logical l ++ kill_logical logical k.
Proof. apply fmap_app. Qed.

Lemma kill_logical_join logical docss : mjoin (kill_logical logical <$> docss) = kill_logical logical (mjoin docss).
Proof. induction docss as [|docs docss IH]; [done|]. rewrite fmap_cons. simpl. by rewrite IH, kill_logical_app. Qed.

Section linked.
Context {A B : Type} `{DaachorseLaws A} `{RoaringLaws B} (norm : Normalizer A).
Implicit Types (w : World A B) (e : Engine A B) (k : Disk B) (st : State).

#[local] Instance norm_analyzer_replay : Analyzer := normalizer_analyzer norm.
#[local] Abbreviation holds_docs := (holds_docs norm).

Definition sealed_of e : N := default 0 (en_sealed_through e).

(** What the disk and the log bring back. *)
Definition recovered k (docss : list (list Doc)) (log : list WalEntry) : State :=
  replayed (manifest_sealed k) (manifest_watermark k) docss (after_checkpoint log).

(** A logged query compiles again, and the gate accepts it. *)
Definition put_accepted (p : WalPut) : Prop :=
  ∃ ast, parse_for_recovery (wp_text p) = Some (inr ast) ∧ Forall (quoted_ok short_text) ast ∧ refused ast (wp_class_d_accepted p) = false.

Definition entry_accepted (x : WalEntry) : Prop := match x with WalInsert p | WalUpsert p => put_accepted p | _ => True end.

Record log_ok w (log : list WalEntry) (cut : option (WalEntry * nat)) : Prop := {
  lo_wal : ∃ wl, en_wal (wo_engine w) = Some wl ∧ wal_ok wl log cut ∧ sealed_of (wo_engine w) < next_seq wl ∧
    manifest_sealed (wo_disk w) < next_seq wl ∧ manifest_watermark (wo_disk w) < next_seq wl;
  lo_entries : Forall entry_accepted log;
  lo_cut x reached : cut = Some (x, reached) → entry_accepted x;
}.

(** The first [n] segments are those of the manifest, with the log replayed over
    them; the others and the memtable are the rest of the log; and the memtable is
    the log since the last seal. *)
Record linked (n : nat) w st docss log (cut : option (WalEntry * nat)) : Prop := {
  lk_generations : en_committed_generations (wo_engine w) = take n (en_generations (wo_engine w));
  lk_segments : take n (st_segments st) = st_segments (recovered (wo_disk w) docss log);
  lk_tail : mjoin (drop n (st_segments st)) ++ st_memtable st = st_memtable (recovered (wo_disk w) docss log);
  lk_memtable : st_memtable st = replayed_mem (sealed_of (wo_engine w)) (after_checkpoint log);
  lk_checkpoint x reached : cut = Some (x, reached) → is_checkpoint x = true →
    st_memtable st = [] ∧ drop n (st_segments st) = [] ∧ take n (st_segments st) = docss;
}.

(** The manifest was renamed and not synced: nothing changes until a restart. *)
Definition closed e : Prop :=
  en_manifest_on_disk e = RenamedNotSynced ∧ ∀ wl, en_wal e = Some wl → is_Some (la_refusal (wal_file wl)).

Definition live st : list Doc := live_docs (all_docs st).

(** A restart serves what is served now and, after a commit that may or may not
    have been kept, the documents [doubt] of a batch. *)
Definition in_step w st docss log cut (doubt : list Doc) : Prop :=
  closed (wo_engine w) ∧ live (recovered (wo_disk w) docss log) ≡ₚ live st ++ doubt ∧
    (∀ x reached, cut = Some (x, reached) → is_checkpoint x = true → live (mkState docss []) ≡ₚ live st ++ doubt) ∨
  en_manifest_on_disk (wo_engine w) = Synced ∧ doubt = [] ∧ ∃ n, linked n w st docss log cut.

Record consistent w st docss log cut (doubt : list Doc) : Prop := {
  iv_docs : holds_docs w st docss;
  iv_log : log_ok w log cut;
  iv_step : in_step w st docss log cut doubt;
}.

(** The invariant of an engine between two operations. *)
Record inv w st docss log cut (doubt : list Doc) : Prop := {
  iv_consistent :> consistent w st docss log cut doubt;
  iv_phrases : capable (wo_engine w);
}.

(** While commits go through, a restart brings back exactly what is served. *)
Lemma linked_recovered n w st docss log cut : linked n w st docss log cut → all_docs (recovered (wo_disk w) docss log) = all_docs st.
Proof.
  intros [_ Hs Ht _ _]. unfold all_docs. rewrite <-Hs, <-Ht, app_assoc, <-join_app, take_drop. done.
Qed.

Lemma below_last wl log cut : wal_ok wl log cut → Forall (λ x, entry_seq x ≤ last_seq wl) (after_checkpoint log).
Proof.
  intros Hw. apply Forall_forall. intros x Hx%after_checkpoint_elem. pose proof (wo_below _ _ _ Hw) as Hb.
  rewrite Forall_forall in Hb. specialize (Hb x Hx). simpl in Hb. unfold last_seq. lia.
Qed.

(** A commit through the last entry links all segments. *)
Lemma recovered_recorded w wl st log cut :
  en_wal (wo_engine w) = Some wl → wal_ok wl log cut → recorded w (last_seq wl) → is_Some (en_sealed_through (wo_engine w)) →
  st_memtable st = replayed_mem (sealed_of (wo_engine w)) (after_checkpoint log) →
  recovered (wo_disk w) (st_segments st) log = st.
Proof.
  intros Ew Hw (_ & m & Em & _ & Hwm & Hsl) [s Es] Hmem. unfold recovered, manifest_sealed, manifest_watermark. rewrite Em, Hwm, Hsl.
  set (st' := replayed _ _ _ _). destruct st as [segs mem]. assert (st_segments st' = segs) as E1.
  { apply replayed_segments_same. by eapply below_last. }
  assert (st_memtable st' = mem) as E2.
  { unfold st'. rewrite replayed_mem_eq. symmetry. exact Hmem. }
  destruct st'. simpl in *. congruence.
Qed.

(** ** Commits and the log *)

Lemma wal_last_seq_some e wl : en_wal e = Some wl → wal_last_seq e = last_seq wl.
Proof. unfold wal_last_seq. by intros ->. Qed.

Lemma last_below wl log cut : wal_ok wl log cut → last_seq wl < next_seq wl.
Proof. intros Hw. pose proof (wo_next _ _ _ Hw). unfold last_seq. lia. Qed.

Lemma closed_wal_ok why wl log cut : wal_ok wl log cut → wal_ok (close_until_reopen why wl) log cut.
Proof.
  intros Hw. pose proof (wo_next _ _ _ Hw) as Hn. apply (wal_ok_touched wl); [done|lia|done|left; apply disable_refuses].
Qed.

Lemma recorded_bounds w watermark :
  recorded w watermark → is_Some (en_sealed_through (wo_engine w)) →
  manifest_watermark (wo_disk w) = watermark ∧ manifest_sealed (wo_disk w) = sealed_of (wo_engine w).
Proof. intros (_ & m & Em & _ & Hwm & Hsl) [s Es]. unfold manifest_watermark, manifest_sealed, sealed_of. by rewrite Em, Hwm, Hsl. Qed.

Lemma outcome_log n w w' st docss log cut ok :
  log_ok w log cut → outcome norm n w w' st docss (wal_last_seq (wo_engine w)) ok → log_ok w' log cut.
Proof.
  intros [(wl & Ew & Hw & Hse & Hms & Hmw) He Hc] Ho. split; [|done..]. rewrite (wal_last_seq_some _ _ Ew) in Ho. pose proof (last_below _ _ _ Hw) as Hl.
  destruct Ho as [Hp Ew' _ _ _ Hr Hh|Hp [_ Ew' _ Em] Hh|Hp Ew' _ _ Hr Hh].
  - exists wl. destruct (recorded_bounds _ _ Hr (hd_sealed _ _ _ _ Hh)) as [-> ->]. unfold sealed_of in *. rewrite (ps_sealed _ _ _ Hp).
    split_and!; [congruence|done..].
  - exists wl. unfold manifest_sealed, manifest_watermark, sealed_of in *. rewrite (ps_sealed _ _ _ Hp), Em. split_and!; [congruence|done..].
  - exists (close_until_reopen NOTHING_UNTIL_A_RESTART wl). destruct (recorded_bounds _ _ Hr (hd_sealed _ _ _ _ Hh)) as [-> ->].
    unfold sealed_of in *. rewrite (ps_sealed _ _ _ Hp), Ew', Ew. split_and!; [done|by apply closed_wal_ok|done..].
Qed.

(** The memtable as the log has it since the last seal. *)
Definition mem_linked w st log (cut : option (WalEntry * nat)) : Prop :=
  st_memtable st = replayed_mem (sealed_of (wo_engine w)) (after_checkpoint log) ∧
  ∀ x reached, cut = Some (x, reached) → is_checkpoint x = true → st_memtable st = [].

Lemma linked_mem n w st docss log cut : linked n w st docss log cut → mem_linked w st log cut.
Proof. intros [_ _ _ Hm Hc]. split; [done|]. intros x reached E Hx. by destruct (Hc x reached E Hx). Qed.

(** A commit that went through. *)
Lemma commit_done n w w' st docss log cut :
  log_ok w log cut → mem_linked w st log cut → outcome norm n w w' st docss (wal_last_seq (wo_engine w)) true →
  en_manifest_on_disk (wo_engine w') = Synced ∧ en_committed_generations (wo_engine w') = en_generations (wo_engine w') ∧
  linked (length (st_segments st)) w' st (st_segments st) log cut.
Proof.
  intros Hlog [Hmem Hck] Ho. pose proof (outcome_log _ _ _ _ _ _ _ _ Hlog Ho) as [(wl' & Ew' & Hw' & _) _ _].
  destruct Hlog as [(wl & Ew & Hw & _) _ _]. rewrite (wal_last_seq_some _ _ Ew) in Ho.
  inversion Ho as [Hp Ewl _ Hs Hg Hr Hh| |]; subst. rewrite (ps_generations _ _ _ Hp). split_and!; [done|done|].
  assert (en_wal (wo_engine w') = Some wl) as E by congruence. assert (sealed_of (wo_engine w') = sealed_of (wo_engine w)) as Es.
  { unfold sealed_of. by rewrite (ps_sealed _ _ _ Hp). }
  assert (recovered (wo_disk w') (st_segments st) log = st) as Hrec.
  { eapply recovered_recorded; [exact E|exact Hw|exact Hr|apply Hh|by rewrite Es]. }
  assert (length (en_generations (wo_engine w)) = length (st_segments st)) as Hl.
  { destruct (hd_engine _ _ _ _ Hh). by rewrite <-(ps_generations _ _ _ Hp), eo_generations, (Forall2_length _ _ _ eo_segments). }
  split; rewrite ?Hrec.
  - by rewrite Hg, (ps_generations _ _ _ Hp), firstn_all2 by lia.
  - by rewrite firstn_all.
  - by rewrite drop_all.
  - by rewrite Es.
  - intros x reached Ec Hx. split; [by eapply Hck|]. by rewrite drop_all, firstn_all.
Qed.

(** A commit that failed: nothing moved, or the manifest is renamed and the log closed. *)
Lemma commit_failed n w w' st docss log cut :
  log_ok w log cut → mem_linked w st log cut → outcome norm n w w' st docss (wal_last_seq (wo_engine w)) false →
  settled w w' ∧ holds_docs w' st docss ∨
  closed (wo_engine w') ∧ holds_docs w' st (st_segments st) ∧ recovered (wo_disk w') (st_segments st) log = st.
Proof.
  intros Hlog [Hmem Hck] Ho. pose proof (outcome_log _ _ _ _ _ _ _ _ Hlog Ho) as [(wl' & Ew' & Hw' & _) _ _].
  destruct Hlog as [(wl & Ew & Hw & _) _ _]. rewrite (wal_last_seq_some _ _ Ew) in Ho.
  inversion Ho as [|Hp Hs Hh|Hp Ewl _ Hs Hr Hh]; subst; [by left|right]. rewrite Ew in Ewl. cbn in Ewl. assert (sealed_of (wo_engine w') = sealed_of (wo_engine w)) as Es.
  { unfold sealed_of. by rewrite (ps_sealed _ _ _ Hp). }
  split_and!; [split; [done|]|done|].
  - intros wl1 E. rewrite Ewl in E. injection E as <-. apply disable_refuses.
  - eapply recovered_recorded; [exact Ewl|by apply closed_wal_ok|exact Hr|apply Hh|by rewrite Es].
Qed.

End linked.
