(* ===== verification/Layout.v ===== *)
(** * Rearranging the base segments

    A slot is a base segment with its generation and its documents.  An engine's
    segments are replaced slot by slot: appended, merged, rewritten, and put back
    when the commit fails.  Every operation that rearranges them goes through
    [holds_docs_layout]. *)

From S2P Require Import Prelude Util Text Dsl Dictionary FramedLog Wal Sources Index Phrase Automaton Normalize Analyze Compile Plan Extract.
From S2P Require Import Ownership Tags Store Segment Merge Recompile Engine Compaction Ingest Open EngineLogic Documents Durable Replay.

Record Slot (B : Type) := mkSlot { sl_base : BaseSegment B; sl_generation : N; sl_docs : list Doc }.
Arguments mkSlot {B}.
Arguments sl_base {B}.
Arguments sl_generation {B}.
Arguments sl_docs {B}.

Section layout.
Context {A B : Type} `{DaachorseLaws A} `{RoaringLaws B} (norm : Normalizer A).
Implicit Types (w : World A B) (e : Engine A B) (k : Disk B) (b : BaseSegment B) (st : State) (slots : list (Slot B)).

#[local] Instance norm_analyzer_layout : Analyzer := normalizer_analyzer norm.
#[local] Abbreviation holds_docs := (holds_docs norm).
#[local] Abbreviation inv := (inv norm).
#[local] Abbreviation consistent := (consistent norm).

Definition slot_file (s : Slot B) : option N := base_file (sl_base s).

Record slot_ok w (s : Slot B) : Prop := {
  so_docs : seg_docs (en_dict (wo_engine w)) (en_tag_dict (wo_engine w)) (base_seg (sl_base s)) (sl_docs s);
  so_token : sl_generation s < en_next_token (wo_engine w);
  so_file file : slot_file s = Some file →
    file < en_next_seg_id (wo_engine w) ∧ stored norm (en_dict (wo_engine w)) (en_tag_dict (wo_engine w)) (wo_disk w) file (sl_docs s);
}.

Record slots_ok w slots : Prop := {
  ss_each : Forall (slot_ok w) slots;
  ss_generations : NoDup (sl_generation <$> slots);
  ss_files : NoDup (omap slot_file slots);
}.

(** The engine's segments are these slots. *)
Record laid w slots (docss : list (list Doc)) : Prop := {
  la_segments : en_segments (wo_engine w) = sl_base <$> slots;
  la_generations : en_generations (wo_engine w) = sl_generation <$> slots;
  la_docs : docss = sl_docs <$> slots;
}.

Definition relaid slots w : World A B :=
  mkWorld (with_generations (sl_generation <$> slots) (with_segments (sl_base <$> slots) (wo_engine w))) (wo_disk w) (wo_faults w).

Lemma omap_slot_file slots : omap slot_file slots = omap base_file (sl_base <$> slots).
Proof. induction slots as [|s slots IH]; [done|]. cbn. unfold slot_file at 1. by rewrite IH. Qed.

Lemma slots_of w st docss : holds_docs w st docss → ∃ slots, laid w slots (st_segments st) ∧ slots_ok w slots.
Proof.
  intros [_ _ _ [] [Hst Hnd] _].
  assert (∀ segs gens dss, length gens = length segs → length segs = length dss →
    ∃ slots : list (Slot B), sl_base <$> slots = segs ∧ sl_generation <$> slots = gens ∧ sl_docs <$> slots = dss) as Hzip.
  { induction segs as [|b segs IH]; intros [|g gens] [|ds dss] E1 E2; try done; [by exists []|].
    destruct (IH gens dss) as (slots & <- & <- & <-); [by injection E1|by injection E2|]. by exists (mkSlot b g ds :: slots). }
  destruct (Hzip (en_segments (wo_engine w)) (en_generations (wo_engine w)) (st_segments st)) as (slots & E1 & E2 & E3);
    [done|by eapply Forall2_length|]. exists slots. split; [by split|].
  split; [|by rewrite E2|by rewrite omap_slot_file, E1]. apply Forall_lookup. intros i s Hs.
  assert (en_segments (wo_engine w) !! i = Some (sl_base s) ∧ st_segments st !! i = Some (sl_docs s) ∧
    en_generations (wo_engine w) !! i = Some (sl_generation s)) as (Hb & Hd & Hg) by (by rewrite <-E1, <-E2, <-E3, !list_lookup_fmap, Hs).
  split; [by apply (Forall2_lookup_lr _ _ _ _ _ _ eo_segments Hb Hd)|by apply (Forall_lookup_1 _ _ _ _ eo_tokens Hg)|].
  by apply (Forall2_lookup_lr _ _ _ _ _ _ Hst Hb Hd).
Qed.

Lemma holds_docs_layout w st docss slots :
  holds_docs w st docss → slots_ok w slots → holds_docs (relaid slots w) (mkState (sl_docs <$> slots) (st_memtable st)) docss.
Proof.
  intros [Hdir Hown Hsl [] _ Hd] [Heach Hg Hf]. split; try done.
  - split; try done; cbn.
    + apply Forall2_fmap, Forall_Forall2_diag. eapply Forall_impl; [exact Heach|]. by intros s [].
    + by rewrite !length_fmap.
    + apply Forall_fmap. eapply Forall_impl; [exact Heach|]. by intros s [].
  - split; cbn; [|by rewrite <-omap_slot_file]. apply Forall2_fmap, Forall_Forall2_diag. eapply Forall_impl; [exact Heach|]. by intros s [].
Qed.

Lemma slots_ok_sublist w slots slots' : slots' `sublist_of` slots → slots_ok w slots → slots_ok w slots'.
Proof.
  intros Hs [Heach Hg Hf]. split.
  - rewrite Forall_forall in *. intros s Hin. apply Heach. by eapply elem_of_sublist.
  - eapply sublist_NoDup; [exact Hg|]. by apply fmap_sublist.
  - eapply sublist_NoDup; [exact Hf|]. clear -Hs. induction Hs as [|s l1 l2 _ IH|s l1 l2 _ IH]; cbn; [done|..]; destruct (slot_file s); try done; by constructor.
Qed.

(** Nothing that slots rely on was lost. *)
Record frame w w' : Prop := {
  fr_dict : en_dict (wo_engine w') = en_dict (wo_engine w);
  fr_tags : en_tag_dict (wo_engine w') = en_tag_dict (wo_engine w);
  fr_token : en_next_token (wo_engine w) ≤ en_next_token (wo_engine w');
  fr_next : en_next_seg_id (wo_engine w) ≤ en_next_seg_id (wo_engine w');
  fr_files file : file < en_next_seg_id (wo_engine w) → dk_segments (wo_disk w') !! file = dk_segments (wo_disk w) !! file;
}.

#[export] Instance frame_preorder : PreOrder frame.
Proof.
  split; [intros w; split; [done|done|lia|lia|done]|]. intros w1 w2 w3 [] []. split; [congruence|congruence|lia|lia|].
  intros file Hf. rewrite fr_files1, fr_files0 by lia. done.
Qed.

Lemma frame_calm w w' : calm w w' → frame w w'.
Proof. intros [[] _ Hk]. split; [done|done|lia|lia|]. intros. by rewrite Hk. Qed.

Lemma frame_grew n w w' : grew n w w' → frame w w'.
Proof. intros (next & Hl & [] & _ & F). cbn in *. split; [done|done|lia|lia|done]. Qed.

Lemma frame_persisted n w w' : persisted n w w' → frame w w'.
Proof. intros []. split; [done|done|lia|lia|done]. Qed.

Lemma slots_ok_frame w w' slots : frame w w' → slots_ok w slots → slots_ok w' slots.
Proof.
  intros [Ed Et Htok Hnext Hfile] [Heach Hg Hf]. split; [|done..]. eapply Forall_impl; [exact Heach|]. intros s [Hdocs Ht Hs].
  split; rewrite ?Ed, ?Et; [done|lia|]. intros file E. destruct (Hs file E) as [Hlt Hst]. split; [lia|]. eapply stored_frame; [|exact Hst].
  by apply Hfile.
Qed.

(** New slots beside old ones. *)
Lemma slots_ok_app w slots1 slots2 :
  slots_ok w slots1 → slots_ok w slots2 → (∀ g, g ∈ sl_generation <$> slots1 → g ∉ sl_generation <$> slots2) →
  (∀ file, file ∈ omap slot_file slots1 → file ∉ omap slot_file slots2) → slots_ok w (slots1 ++ slots2).
Proof.
  intros [E1 G1 F1] [E2 G2 F2] Hg Hf. split; [by apply Forall_app| |]; rewrite ?fmap_app, ?omap_app; by apply NoDup_app.
Qed.

Lemma slots_ok_swap w slots1 slots2 slots3 : slots_ok w (slots1 ++ slots2 ++ slots3) ↔ slots_ok w (slots2 ++ slots1 ++ slots3).
Proof.
  assert (slots1 ++ slots2 ++ slots3 ≡ₚ slots2 ++ slots1 ++ slots3) as Hp by (rewrite !app_assoc; apply Permutation_app_tail, Permutation_app_comm).
  assert (∀ l1 l2, l1 ≡ₚ l2 → slots_ok w l1 → slots_ok w l2) as Hall.
  { intros l1 l2 Hl [Ho Hg Hf]. split; [by rewrite <-Hl|by rewrite <-Hl|by rewrite <-Hl]. }
  split; apply Hall; [done|by symmetry].
Qed.

(** ** After a commit *)

(** The same slot, perhaps with a file of a number from [next] on. *)
Record same_slot (next : N) (s s' : Slot B) : Prop := {
  sm_generation : sl_generation s' = sl_generation s;
  sm_docs : sl_docs s' = sl_docs s;
  sm_base : backed next (sl_base s) (sl_base s');
}.

Lemma same_slots_generations next slots slots' : Forall2 (same_slot next) slots slots' → sl_generation <$> slots' = sl_generation <$> slots.
Proof. induction 1 as [|s s' slots slots' [E _ _] _ IH]; [done|]. by rewrite !fmap_cons, IH, E. Qed.

Lemma same_slots_docs next slots slots' : Forall2 (same_slot next) slots slots' → sl_docs <$> slots' = sl_docs <$> slots.
Proof. induction 1 as [|s s' slots slots' [_ E _] _ IH]; [done|]. by rewrite !fmap_cons, IH, E. Qed.

Definition slot_seg (s : Slot B) : Segment B := base_seg (sl_base s).

Lemma same_slots_segs next slots slots' : Forall2 (same_slot next) slots slots' → slot_seg <$> slots' = slot_seg <$> slots.
Proof. induction 1 as [|s s' slots slots' [_ _ Hb] _ IH]; [done|]. rewrite !fmap_cons, IH. unfold slot_seg at 1 3. by rewrite (backed_seg _ _ _ Hb). Qed.

Lemma same_slots_files next slots slots' file :
  Forall2 (same_slot next) slots slots' → file ∈ omap slot_file slots' → file ∈ omap slot_file slots ∨ next ≤ file.
Proof.
  intros Hs Hin. apply list_elem_of_omap in Hin as (s' & Hin & E). apply list_elem_of_lookup_1 in Hin as [i Hi].
  destruct (Forall2_lookup_r _ _ _ _ _ Hs Hi) as (s & Hi' & [_ _ Hb]). destruct Hb as [Eb|(seg & file' & _ & Eb & Hle)].
  - left. apply list_elem_of_omap. exists s. split; [by eapply list_elem_of_lookup_2|]. unfold slot_file in *. by rewrite <-Eb.
  - right. unfold slot_file in E. rewrite Eb in E. by injection E as <-.
Qed.

Lemma slots_persisted n w w' slots st docss :
  laid w slots (st_segments st) → persisted n w w' → holds_docs w' st docss →
  ∃ slots', laid w' slots' (st_segments st) ∧ slots_ok w' slots' ∧ Forall2 (same_slot (en_next_seg_id (wo_engine w))) slots slots'.
Proof.
  intros [Es Eg Ed] Hp Hh. destruct (slots_of _ _ _ Hh) as (slots' & Hl & Hok). exists slots'. split_and!; [done|done|].
  destruct Hl as [Es' Eg' Ed']. pose proof (ps_segments _ _ _ Hp) as Hb. rewrite Es, Es' in Hb.
  pose proof (ps_generations _ _ _ Hp) as Hg. rewrite Eg, Eg' in Hg. rewrite Ed in Ed'. clear -Hb Hg Ed'. revert slots' Hb Hg Ed'.
  induction slots as [|s slots IH]; intros [|s' slots'] Hb Hg Hd; [constructor|done|done|]. rewrite !fmap_cons in *.
  apply Forall2_cons in Hb as [? ?]. injection Hg as ??. injection Hd as ??. constructor; [by split|]. by apply IH.
Qed.

(** Putting the slots [old] back in the place of [new]. *)
Lemma slots_restored w0 w before old new after slots' :
  slots_ok w0 (before ++ old ++ after) → frame w0 w → slots_ok w slots' →
  Forall2 (same_slot (en_next_seg_id (wo_engine w0))) (before ++ new ++ after) slots' →
  ∃ before' new' after', slots' = before' ++ new' ++ after' ∧
    Forall2 (same_slot (en_next_seg_id (wo_engine w0))) before before' ∧ Forall2 (same_slot (en_next_seg_id (wo_engine w0))) new new' ∧
    Forall2 (same_slot (en_next_seg_id (wo_engine w0))) after after' ∧ slots_ok w (before' ++ old ++ after').
Proof.
  intros Hold Hf Hok Hs. apply Forall2_app_inv_l in Hs as (before' & l & Hb & Hl & ->). apply Forall2_app_inv_l in Hl as (new' & after' & Hn & Ha & ->).
  exists before', new', after'. split_and!; [done..|]. apply slots_ok_swap.
  assert (slots_ok w old) as Hok0.
  { eapply slots_ok_frame; [exact Hf|]. eapply slots_ok_sublist; [|exact Hold]. apply sublist_inserts_l, sublist_inserts_r. done. }
  assert (slots_ok w (before' ++ after')) as Hok1.
  { eapply slots_ok_sublist; [|exact Hok]. apply sublist_app; [done|]. by apply sublist_inserts_l. }
  assert (Forall2 (same_slot (en_next_seg_id (wo_engine w0))) (before ++ after) (before' ++ after')) as Hsame by by apply Forall2_app.
  apply slots_ok_swap in Hold. apply slots_ok_app; [done|done| |].
  - intros g Hg. rewrite (same_slots_generations _ _ _ Hsame). destruct Hold as [_ Hnd _]. rewrite fmap_app in Hnd.
    apply NoDup_app in Hnd as (_ & Hnd & _). by apply Hnd.
  - intros file Hfile Hfile'. destruct (same_slots_files _ _ _ _ Hsame Hfile') as [Hin|Hge].
    + destruct Hold as [_ _ Hnd]. rewrite omap_app in Hnd. apply NoDup_app in Hnd as (_ & Hnd & _). by apply (Hnd file).
    + destruct Hold as [Heach _ _]. apply Forall_app in Heach as [Heach _]. apply list_elem_of_omap in Hfile as (s & Hin & E).
      rewrite Forall_forall in Heach. destruct (so_file _ _ (Heach s Hin) file E) as [Hlt _]. lia.
Qed.

(** ** The invariant *)

(** Neither the log nor the manifest moved. *)
Record same_log w w' : Prop := {
  sl_wal : en_wal (wo_engine w') = en_wal (wo_engine w);
  sl_sealed : en_sealed_through (wo_engine w') = en_sealed_through (wo_engine w);
  sl_on_disk : en_manifest_on_disk (wo_engine w') = en_manifest_on_disk (wo_engine w);
  sl_committed : en_committed_generations (wo_engine w') = en_committed_generations (wo_engine w);
  sl_manifest : dk_manifest (wo_disk w') = dk_manifest (wo_disk w);
}.

#[export] Instance same_log_preorder : PreOrder same_log.
Proof. split; [by intros w|]. intros w1 w2 w3 [] []. split; congruence. Qed.

Lemma same_log_calm w w' : calm w w' → same_log w w'.
Proof. intros [[] ? _]. by split. Qed.

Lemma same_log_refreshed w : same_log w (refreshed w).
Proof. by split. Qed.

Lemma same_log_grew n w w' : grew n w w' → same_log w w'.
Proof. intros (next & _ & [] & ? & _). by split. Qed.

Lemma same_log_touched file w w' : touched file w w' → same_log w w'.
Proof. intros ([] & ? & _). by split. Qed.

Lemma same_log_settled n w w' : persisted n w w' → settled w w' → same_log w w'.
Proof. intros [] []. by split. Qed.

Lemma log_ok_same w w' log cut : same_log w w' → log_ok norm w log cut → log_ok norm w' log cut.
Proof.
  intros [E1 E2 _ _ E5] [(wl & Ew & Hw & Hb) He Hc]. split; [|done..]. exists wl. unfold sealed_of, manifest_sealed, manifest_watermark in *.
  rewrite E1, E2, E5. done.
Qed.

Lemma recovered_same w w' docss log : same_log w w' → recovered (wo_disk w') docss log = recovered (wo_disk w) docss log.
Proof. intros [_ _ _ _ E]. unfold recovered, manifest_sealed, manifest_watermark. by rewrite E. Qed.

Lemma linked_same n w w' st docss log cut :
  same_log w w' → en_generations (wo_engine w') = en_generations (wo_engine w) → linked n w st docss log cut → linked n w' st docss log cut.
Proof.
  intros Hs Eg []. pose proof (recovered_same _ _ docss log Hs) as Er. destruct Hs. unfold sealed_of in *.
  split; unfold sealed_of; rewrite ?Er, ?Eg, ?sl_sealed0, ?sl_committed0; done.
Qed.

Lemma closed_same w w' : same_log w w' → closed (wo_engine w) → closed (wo_engine w').
Proof. intros [E1 _ E3 _ _] [Hc Hw]. split; rewrite ?E1, ?E3; done. Qed.

Lemma in_step_same w w' st docss log cut doubt :
  same_log w w' → en_generations (wo_engine w') = en_generations (wo_engine w) → in_step w st docss log cut doubt → in_step w' st docss log cut doubt.
Proof.
  intros Hs Eg [(Hc & Hl & Hk)|(Hsync & Hd & n & Hl)].
  - left. rewrite (recovered_same _ _ _ _ Hs). split_and!; [by eapply closed_same|done|done].
  - right. rewrite (sl_on_disk _ _ Hs). split_and!; [done|done|]. exists n. by eapply linked_same.
Qed.

Lemma consistent_same w w' st docss log cut doubt :
  same_log w w' → en_generations (wo_engine w') = en_generations (wo_engine w) → holds_docs w' st docss →
  consistent w st docss log cut doubt → consistent w' st docss log cut doubt.
Proof. intros Hs Eg Hh [_ Hlog Hstep]. split; [done|by eapply log_ok_same|by eapply in_step_same]. Qed.

Lemma inv_same w w' st docss log cut doubt :
  same_log w w' → en_generations (wo_engine w') = en_generations (wo_engine w) → holds_docs w' st docss →
  (capable (wo_engine w) → capable (wo_engine w')) → inv w st docss log cut doubt → inv w' st docss log cut doubt.
Proof. intros Hs Eg Hh Hc [Hk Hp]. split; [by eapply consistent_same|auto]. Qed.

Lemma inv_calm w w' st docss log cut doubt : calm w w' → inv w st docss log cut doubt → inv w' st docss log cut doubt.
Proof.
  intros Hc Hi. eapply inv_same; [by apply same_log_calm|apply (cl_core _ _ Hc)|eapply holds_docs_calm; [exact Hc|apply Hi]|apply capable_core, Hc|exact Hi].
Qed.

Lemma inv_grew n w w' st docss log cut doubt : grew n w w' → inv w st docss log cut doubt → inv w' st docss log cut doubt.
Proof.
  intros Hg Hi. eapply inv_same; [by eapply same_log_grew| |eapply holds_docs_grew; [exact Hg|apply Hi]| |exact Hi].
  - destruct Hg as (next & _ & [] & _). done.
  - destruct Hg as (next & _ & Hs & _). exact (capable_core _ _ Hs).
Qed.

Lemma inv_touched file w w' st docss log cut doubt :
  touched file w w' → file ∉ omap base_file (en_segments (wo_engine w)) → file ∉ manifest_files (wo_disk w) →
  inv w st docss log cut doubt → inv w' st docss log cut doubt.
Proof.
  intros Ht H1' H2' Hi. eapply inv_same; [by eapply same_log_touched| |eapply holds_docs_touched; [exact Ht|done|done|apply Hi]|apply capable_core, Ht|exact Hi].
  by destruct Ht as ([] & _).
Qed.

Lemma synced_mem w st docss log cut doubt :
  in_step w st docss log cut doubt → en_manifest_on_disk (wo_engine w) = Synced → doubt = [] ∧ mem_linked w st log cut.
Proof. intros [([Hc _] & _)|(_ & Hd & n & Hl)] Hs; [congruence|]. split; [done|by eapply linked_mem]. Qed.

(** ** The result of a commit *)

Inductive commit_result (n : nat) w w' st docss log cut : bool → Prop :=
  | commit_ok : persisted n w w' → en_manifest_on_disk (wo_engine w) = Synced →
      en_committed_generations (wo_engine w') = en_generations (wo_engine w') →
      manifest_files (wo_disk w') = omap base_file (en_segments (wo_engine w')) →
      en_manifest_on_disk (wo_engine w') = Synced → en_wal (wo_engine w') = en_wal (wo_engine w) →
      linked (length (st_segments st)) w' st (st_segments st) log cut →
      consistent w' st (st_segments st) log cut [] → commit_result n w w' st docss log cut true
  | commit_kept : persisted n w w' → same_log w w' → holds_docs w' st docss → commit_result n w w' st docss log cut false
  | commit_frozen : persisted n w w' → en_manifest_on_disk (wo_engine w) = Synced → closed (wo_engine w') → log_ok norm w' log cut →
      holds_docs w' st (st_segments st) → recovered (wo_disk w') (st_segments st) log = st → commit_result n w w' st docss log cut false.

Lemma outcome_result n w w' st docss log cut ok :
  log_ok norm w log cut → (en_manifest_on_disk (wo_engine w) = Synced → mem_linked w st log cut) →
  outcome norm n w w' st docss (wal_last_seq (wo_engine w)) ok → commit_result n w w' st docss log cut ok.
Proof.
  intros Hlog Hmem Ho. pose proof (outcome_log _ _ _ _ _ _ _ _ _ Hlog Ho) as Hlog'. destruct ok.
  - assert (en_manifest_on_disk (wo_engine w) = Synced) as Hsync by by inversion Ho.
    destruct (commit_done _ _ _ _ _ _ _ _ Hlog (Hmem Hsync) Ho) as (Hs & Hc & Hl). inversion Ho as [Hp Ew _ _ _ Hr Hh| |]; subst.
    apply commit_ok; try done.
    + destruct Hr as (_ & m & Em & Ef & _). unfold manifest_files. by rewrite Em.
    + split; [done|done|]. right. split_and!; [done|done|by eexists].
  - destruct (en_manifest_on_disk (wo_engine w)) eqn:Eon.
    + destruct (commit_failed _ _ _ _ _ _ _ _ Hlog (Hmem eq_refl) Ho) as [[Hs Hh]|(Hc & Hh & Hr)].
      * assert (persisted n w w') as Hp by by inversion Ho. apply commit_kept; [done|by eapply same_log_settled|done].
      * apply commit_frozen; [by inversion Ho|done..].
    + inversion Ho as [|Hp Hs Hh|]; subst; [|congruence]. apply commit_kept; [done|by eapply same_log_settled|done].
Qed.

(** ** Taking a rearrangement back *)

Lemma same_slots_le next next' slots slots' : next' ≤ next → Forall2 (same_slot next) slots slots' → Forall2 (same_slot next') slots slots'.
Proof.
  intros Hle Hs. eapply Forall2_impl; [exact Hs|]. intros s s' [? ? Hb]. split; [done|done|].
  destruct Hb as [?|(seg & file & ? & ? & ?)]; [by left|right]. exists seg, file. split_and!; [done..|lia].
Qed.

Lemma slot_files_below w slots file : slots_ok w slots → file ∈ omap slot_file slots → file < en_next_seg_id (wo_engine w).
Proof.
  intros [Heach _ _] (s & Hin & E)%list_elem_of_omap. rewrite Forall_forall in Heach. by destruct (so_file _ _ (Heach s Hin) file E).
Qed.

Lemma manifest_files_below w st docss file : holds_docs w st docss → file ∈ manifest_files (wo_disk w) → file < en_next_seg_id (wo_engine w).
Proof.
  intros [_ _ _ _ _ Hd]. unfold disk_ok, manifest_files in *. destruct (dk_manifest _) as [m|]; [|by intros ?%not_elem_of_nil].
  destruct Hd as [[] Hn]. intros Hin. rewrite Forall_forall in mo_below. specialize (mo_below file Hin). cbn in *. lia.
Qed.

(** Files of the slots that were replaced are named by no slot. *)
Lemma replaced_files_gone w0 next before old new after slots' file :
  slots_ok w0 (before ++ old ++ after) → en_next_seg_id (wo_engine w0) ≤ next → Forall2 (same_slot next) (before ++ new ++ after) slots' →
  (∀ file, file ∈ omap slot_file new → en_next_seg_id (wo_engine w0) ≤ file) →
  file ∈ omap slot_file old → file ∉ omap slot_file slots'.
Proof.
  intros Hok Hle Hs Hnew Hin Hin'. apply slots_ok_swap in Hok.
  assert (file < en_next_seg_id (wo_engine w0)) as Hlt.
  { eapply slot_files_below; [exact Hok|]. rewrite omap_app. apply elem_of_app. by left. }
  destruct (same_slots_files _ _ _ _ Hs Hin') as [Hf|Hge]; [|lia]. rewrite !omap_app, !elem_of_app in Hf.
  destruct Hok as [_ _ Hnd]. rewrite omap_app in Hnd. apply NoDup_app in Hnd as (_ & Hnd & _). specialize (Hnd file Hin).
  rewrite omap_app, elem_of_app in Hnd. destruct Hf as [Hf|[Hf|Hf]]; [tauto| |tauto]. specialize (Hnew file Hf). lia.
Qed.

Lemma in_step_frozen w st st' docss log cut doubt w' :
  in_step w st docss log cut doubt → en_manifest_on_disk (wo_engine w) = Synced → closed (wo_engine w') → st_memtable st' = st_memtable st →
  recovered (wo_disk w') (st_segments st') log = st' → ∀ extra, live st' ≡ₚ live st ++ extra → in_step w' st (st_segments st') log cut extra.
Proof.
  intros Hstep Hs Hc Hm Hr extra Hl. left. split_and!; [done|by rewrite Hr|]. intros x reached Ec Hx.
  destruct (synced_mem _ _ _ _ _ _ Hstep Hs) as (_ & _ & Hck). rewrite <-Hl. destruct st' as [segs mem]. cbn in *. by rewrite Hm, (Hck _ _ Ec Hx).
Qed.

(** The slots after a commit that failed, with [old] back in the place of [new]. *)
Record put_back n w0 w1 w2 before old new after st1 before' new' after' : Prop := {
  pb_laid : laid w2 (before' ++ new' ++ after') (st_segments st1);
  pb_before : length before' = length before;
  pb_new : length new' = length new;
  pb_after : length after' = length after;
  pb_ok : slots_ok w2 (before' ++ old ++ after');
  pb_docs : sl_docs <$> before' ++ old ++ after' = sl_docs <$> before ++ old ++ after;
  pb_generations : sl_generation <$> before' ++ old ++ after' = sl_generation <$> before ++ old ++ after;
  pb_segs : slot_seg <$> before' ++ old ++ after' = slot_seg <$> before ++ old ++ after;
  pb_persisted : persisted n w1 w2;
  pb_gone file : file ∈ omap slot_file new → en_next_seg_id (wo_engine w0) ≤ file → file ∉ omap slot_file (before' ++ old ++ after');
}.

Lemma put_back_failed w0 w1 w2 n st1 docss log cut before old new after :
  slots_ok w0 (before ++ old ++ after) → laid w1 (before ++ new ++ after) (st_segments st1) → slots_ok w1 (before ++ new ++ after) → frame w0 w1 →
  commit_result n w1 w2 st1 docss log cut false → ∃ before' new' after', put_back n w0 w1 w2 before old new after st1 before' new' after'.
Proof.
  intros Hok0 Hl1 Hok1 Hfr Hres. pose proof (fr_next _ _ Hfr) as Hle.
  assert (persisted n w1 w2 ∧ ∃ docss', holds_docs w2 st1 docss') as (Hp & docss2 & Hh2) by (inversion Hres; subst; eauto).
  destruct (slots_persisted _ _ _ _ _ _ Hl1 Hp Hh2) as (slots' & Hl2 & Hok2 & Hsame).
  pose proof (same_slots_le _ _ _ _ Hle Hsame) as Hsame0. assert (frame w0 w2) as Hfr2 by (etrans; [exact Hfr|by eapply frame_persisted]).
  destruct (slots_restored _ _ _ _ _ _ _ Hok0 Hfr2 Hok2 Hsame0) as (before' & new' & after' & -> & Hb & Hn & Ha & Hok).
  exists before', new', after'. split; [done|symmetry; by eapply Forall2_length..|done| | | |done|].
  - by rewrite !fmap_app, (same_slots_docs _ _ _ Hb), (same_slots_docs _ _ _ Ha).
  - by rewrite !fmap_app, (same_slots_generations _ _ _ Hb), (same_slots_generations _ _ _ Ha).
  - by rewrite !fmap_app, (same_slots_segs _ _ _ Hb), (same_slots_segs _ _ _ Ha).
  - intros file Hin Hnew Hin'. rewrite !omap_app, !elem_of_app in Hin'. assert (file ∈ omap slot_file old ∨ file ∈ omap slot_file (before' ++ after')) as Hor.
    { rewrite omap_app, elem_of_app. tauto. }
    destruct Hor as [Hin2|Hin2].
    + assert (file < en_next_seg_id (wo_engine w0)); [|lia].
      eapply slot_files_below; [exact Hok0|]. rewrite !omap_app, !elem_of_app. tauto.
    + revert Hin2. eapply (replaced_files_gone w1 _ before new []); [exact Hok1|done| |by intros ? ?%not_elem_of_nil|exact Hin].
      apply Forall2_app_inv in Hsame as [Hs1 Hs2]; [|by eapply Forall2_length].
      apply Forall2_app_inv in Hs2 as [_ Hs3]; [|by eapply Forall2_length]. by apply Forall2_app.
Qed.

Lemma rolled_back w0 w1 w2 n st0 st1 docss log cut doubt before old new after extra :
  consistent w0 st0 docss log cut doubt → laid w0 (before ++ old ++ after) (st_segments st0) → slots_ok w0 (before ++ old ++ after) →
  laid w1 (before ++ new ++ after) (st_segments st1) → slots_ok w1 (before ++ new ++ after) → frame w0 w1 → same_log w0 w1 →
  st_memtable st1 = st_memtable st0 → live st1 ≡ₚ live st0 ++ extra → commit_result n w1 w2 st1 docss log cut false →
  ∃ before' new' after' docss' doubt', put_back n w0 w1 w2 before old new after st1 before' new' after' ∧
    consistent (relaid (before' ++ old ++ after') w2) st0 docss' log cut doubt' ∧ (doubt' = doubt ∨ doubt = [] ∧ doubt' = extra) ∧
    ∀ file, file ∈ omap slot_file new → en_next_seg_id (wo_engine w0) ≤ file → en_manifest_on_disk (wo_engine w2) = RenamedNotSynced ∨
      (file ∉ omap slot_file (before' ++ old ++ after')) ∧ (file ∉ manifest_files (wo_disk w2)).
Proof.
  intros Hi Hl0 Hok0 Hl1 Hok1 Hfr Hsl Hmem Hlive Hres.
  destruct (put_back_failed _ _ _ _ _ _ _ _ _ old _ _ Hok0 Hl1 Hok1 Hfr Hres) as (before' & new' & after' & Hpb). pose proof Hpb as [_ _ _ _ Hok Ed Eg _ Hp Hgone].
  assert (mkState (sl_docs <$> before' ++ old ++ after') (st_memtable st1) = st0) as Est.
  { destruct st0 as [segs mem]. cbn in *. rewrite Hmem, Ed. f_equal. symmetry. apply (la_docs _ _ _ Hl0). }
  assert (en_generations (wo_engine (relaid (before' ++ old ++ after') w2)) = en_generations (wo_engine w0)) as Egen.
  { cbn. by rewrite (la_generations _ _ _ Hl0), Eg. }
  assert (same_log w2 (relaid (before' ++ old ++ after') w2)) as Hsl3 by done.
  exists before', new', after'. inversion Hres as [|_ Hs2 Hh2'|_ Hsync Hc Hlog Hh2' Hrec].
  - exists docss, doubt. pose proof (holds_docs_layout _ _ _ _ Hh2' Hok) as Hh4. rewrite Est in Hh4. split_and!; [done| |by left|].
    + eapply consistent_same; [|exact Egen|exact Hh4|exact Hi]. etrans; [exact Hsl|]. by etrans.
    + intros file Hin Hnew. right. split; [by apply Hgone|]. intros Hm.
      assert (manifest_files (wo_disk w2) = manifest_files (wo_disk w0)) as Em.
      { unfold manifest_files. by rewrite (sl_manifest _ _ Hs2), (sl_manifest _ _ Hsl). }
      rewrite Em in Hm. pose proof (manifest_files_below _ _ _ _ (iv_docs _ _ _ _ _ _ _ Hi) Hm). lia.
  - exists (st_segments st1), extra. rewrite (sl_on_disk _ _ Hsl) in Hsync. pose proof (holds_docs_layout _ _ _ _ Hh2' Hok) as Hh4. rewrite Est in Hh4.
    split_and!; [done| | |].
    + split; [done|by eapply log_ok_same|]. eapply in_step_frozen; [apply Hi|done|by eapply closed_same|done|done|done].
    + right. split; [|done]. destruct (synced_mem _ _ _ _ _ _ (iv_step _ _ _ _ _ _ _ Hi) Hsync) as [-> _]. done.
    + intros file _ _. left. apply Hc.
Qed.

(** The capability with the slots as they were. *)
Lemma capable_restored w0 w2 slots slots' dss :
  laid w0 slots dss → slot_seg <$> slots' = slot_seg <$> slots → en_live_phrase_segments (wo_engine w2) = en_live_phrase_segments (wo_engine w0) →
  en_memtable (wo_engine w2) = en_memtable (wo_engine w0) → capable (wo_engine w0) → capable (wo_engine (relaid slots' w2)).
Proof.
  intros [Es _ _] Hseg Hf Hm. apply capable_same; [done| |done]. cbn. rewrite Es, <-!list_fmap_compose. exact Hseg.
Qed.

(** ** A new slot *)

(** A generation was given out. *)
Definition tokened w : World A B := mkWorld (with_next_token (en_next_token (wo_engine w) + 1) (wo_engine w)) (wo_disk w) (wo_faults w).

Lemma frame_tokened w : frame w (tokened w).
Proof. split; cbn; [done|done|lia|done|done]. Qed.

Lemma holds_docs_tokened w st docss : holds_docs w st docss → holds_docs (tokened w) st docss.
Proof.
  intros [Hdir Hown Hsl [] [] Hd]. split; try done; split; try done. cbn. eapply Forall_impl; [exact eo_tokens|]. cbn. intros. lia.
Qed.

(** A base segment newly made, with the next generation. *)
Definition new_slot w b (docs : list Doc) : Slot B := mkSlot b (en_next_token (wo_engine w)) docs.

Lemma new_slot_ok n w w1 seg docs b :
  grew n w w1 → sealed_as norm w w1 seg docs b → seg_docs (en_dict (wo_engine w)) (en_tag_dict (wo_engine w)) seg docs →
  slots_ok (tokened w1) [new_slot w1 b docs].
Proof.
  intros Hg [Eb Hf] Hs. destruct (frame_grew _ _ _ Hg) as [Ed Et _ _ _]. split.
  - constructor; [|done]. split; cbn; rewrite ?Ed, ?Et; [by rewrite Eb|lia|]. intros file E. destruct (Hf file E) as [[_ Hlt] Hst]. done.
  - apply NoDup_singleton.
  - cbn. destruct (slot_file _); [apply NoDup_singleton|constructor].
Qed.

Lemma new_slot_file n w w1 seg docs b file :
  grew n w w1 → sealed_as norm w w1 seg docs b → file ∈ omap slot_file [new_slot w1 b docs] → en_next_seg_id (wo_engine w) ≤ file.
Proof.
  intros Hg [_ Hf]. cbn. unfold slot_file at 1. cbn. destruct (base_file b) as [file'|] eqn:E; [|by intros ?%not_elem_of_nil].
  intros ->%list_elem_of_singleton. by apply Hf.
Qed.

(** The slots with [old] replaced by a new slot. *)
Lemma slots_ok_placed n w w1 before old after seg docs b :
  slots_ok w (before ++ old ++ after) → grew n w w1 → sealed_as norm w w1 seg docs b →
  seg_docs (en_dict (wo_engine w)) (en_tag_dict (wo_engine w)) seg docs →
  slots_ok (tokened w1) (before ++ [new_slot w1 b docs] ++ after).
Proof.
  intros Hok Hg Hsl Hs. assert (slots_ok w (before ++ after)) as Hok'.
  { eapply slots_ok_sublist; [|exact Hok]. apply sublist_app; [done|]. by apply sublist_inserts_l. }
  apply slots_ok_swap, slots_ok_app.
  - by eapply new_slot_ok.
  - eapply slots_ok_frame; [|exact Hok']. etrans; [by eapply frame_grew|apply frame_tokened].
  - intros g ->%list_elem_of_singleton (s & E & Hin)%list_elem_of_fmap. destruct Hok' as [Heach _ _]. rewrite Forall_forall in Heach.
    pose proof (so_token _ _ (Heach s Hin)) as Ht. cbn in E. destruct Hg as (next & _ & [] & _). cbn in *. rewrite E in *. lia.
  - intros file Hin Hin'. pose proof (new_slot_file _ _ _ _ _ _ _ Hg Hsl Hin). pose proof (slot_files_below _ _ _ Hok' Hin'). lia.
Qed.

(** What holds once the new slot is in its place. *)
Record placed w w2 st st2 docss log cut before (new : list (Slot B)) after : Prop := {
  pl_holds : holds_docs w2 st2 docss;
  pl_laid : laid w2 (before ++ new ++ after) (st_segments st2);
  pl_ok : slots_ok w2 (before ++ new ++ after);
  pl_frame : frame w w2;
  pl_log : same_log w w2;
  pl_log_ok : log_ok norm w2 log cut;
  pl_memtable : st_memtable st2 = st_memtable st;
  pl_linked : en_manifest_on_disk (wo_engine w2) = Synced → mem_linked w2 st2 log cut;
}.

Lemma place_slots w w1 st docss log cut doubt before new after :
  consistent w st docss log cut doubt → holds_docs w1 st docss → frame w w1 → same_log w w1 → slots_ok w1 (before ++ new ++ after) →
  placed w (relaid (before ++ new ++ after) w1) st (mkState (sl_docs <$> before ++ new ++ after) (st_memtable st)) docss log cut before new after.
Proof.
  intros Hi Hh1 Hfr Hsl Hok. assert (same_log w (relaid (before ++ new ++ after) w1)) as Hsl2 by (etrans; [exact Hsl|done]). split.
  - by apply holds_docs_layout.
  - done.
  - destruct Hok as [Heach ? ?]. split; [|done..]. eapply Forall_impl; [exact Heach|]. intros s []. by split.
  - etrans; [exact Hfr|]. by destruct Hfr; split.
  - done.
  - eapply log_ok_same; [exact Hsl2|apply Hi].
  - done.
  - intros Hs. rewrite (sl_on_disk _ _ Hsl2) in Hs. destruct (synced_mem _ _ _ _ _ _ (iv_step _ _ _ _ _ _ _ Hi) Hs) as [_ [Hm Hc]].
    split; [|done]. cbn. unfold sealed_of in *. by rewrite (sl_sealed _ _ Hsl).
Qed.

Lemma place_new_slot w w1 n st docss log cut doubt before old after seg docs b :
  consistent w st docss log cut doubt → slots_ok w (before ++ old ++ after) → grew n w w1 → sealed_as norm w w1 seg docs b →
  seg_docs (en_dict (wo_engine w)) (en_tag_dict (wo_engine w)) seg docs →
  placed w (relaid (before ++ [new_slot w1 b docs] ++ after) (tokened w1)) st
    (mkState (sl_docs <$> before ++ [new_slot w1 b docs] ++ after) (st_memtable st)) docss log cut before [new_slot w1 b docs] after.
Proof.
  intros Hi Hok Hg Hsl Hs. apply (place_slots w (tokened w1) st docss log cut doubt); [done| | | |by eapply slots_ok_placed].
  - eapply holds_docs_tokened, holds_docs_grew; [exact Hg|apply Hi].
  - etrans; [by eapply frame_grew|apply frame_tokened].
  - etrans; [by eapply same_log_grew|done].
Qed.

Lemma consistent_refreshed w st docss log cut doubt : consistent w st docss log cut doubt → inv (refreshed w) st docss log cut doubt.
Proof.
  intros Hk. split; [|apply capable_refreshed]. eapply consistent_same; [apply same_log_refreshed|done|apply holds_docs_refreshed, Hk|done].
Qed.

Lemma placed_refreshed w w1 st st2 docss log cut before new after :
  placed w w1 st st2 docss log cut before new after → placed w (refreshed w1) st st2 docss log cut before new after.
Proof.
  intros []. pose proof (same_log_refreshed w1) as Hl. assert (frame w1 (refreshed w1)) as Hf by by split. split.
  - by apply holds_docs_refreshed.
  - by destruct pl_laid0.
  - by eapply slots_ok_frame.
  - by etrans.
  - by etrans.
  - by eapply log_ok_same.
  - done.
  - intros Hsync. by destruct (pl_linked0 Hsync) as [Hm Hck].
Qed.

End layout.
