(* ===== verification/Housekeeping.v ===== *)
(** * Flush, compaction and re-sealing keep the documents

    Whatever the disk does, the operations that only move documents (a flush, a
    merge of neighbouring segments, a rewrite without the deleted rows) leave the
    engine serving the same live documents, and a restart would serve them too. *)

From S2P Require Import Prelude Util Text Utf8 Dsl Dictionary FramedLog Wal Sources Index Phrase Automaton Normalize Analyze Compile Plan Extract.
From S2P Require Import Ownership Tags Store Segment Merge Recompile Engine Compaction Ingest Open EngineLogic Documents Durable Replay Layout.

Lemma str_ok s : rstring_ok (str s).
Proof. induction s as [|c s IH]; [constructor|]. constructor; [|done]. by destruct c as [[] [] [] [] [] [] [] []]. Qed.

Lemma segment_name_ok id : rstring_ok (segment_name id).
Proof.
  unfold segment_name, rstring_ok. rewrite !Forall_app. split_and!; try apply str_ok. apply Forall_replicate. done.
Qed.

Section log.
Context {A B : Type} `{DaachorseLaws A} `{RoaringLaws B} (norm : Normalizer A).
Implicit Types (w : World A B) (st : State).

#[local] Instance norm_analyzer_housekeeping : Analyzer := normalizer_analyzer norm.

Definition op_accepted (op : WalOp) : Prop := match op with AppendInsert p | AppendUpsert p => put_accepted norm p | _ => True end.

Lemma op_entry_accepted op seq : op_accepted op → entry_accepted norm (entry_of op seq).
Proof. by destruct op. Qed.

(** A refused append leaves nothing in the file. *)
Lemma wal_append_refused wl op io wl' err cut :
  is_Some (la_refusal (wal_file wl)) → wal_append wl op io = (wl', inl err) → cut_by wl op io err cut = cut.
Proof.
  intros [why Hr]. unfold wal_append. destruct (zero_generation op); [intros [= <- <-]; by destruct io|].
  destruct (checked_add 64 (next_seq wl) 1); [|intros [= <- <-]; by destruct io].
  destruct (encode_entry _) as [e|body] eqn:Eb.
  { intros [= <- <-]. by destruct (encode_entry_error _ _ Eb) as [what ->]. }
  cbn [wal_file]. unfold append_at, healthy. rewrite Hr. by intros [= <- <-].
Qed.

Lemma wal_append_next wl op io wl' r : wal_append wl op io = (wl', r) → next_seq wl ≤ next_seq wl' ∧ (is_Some (la_refusal (wal_file wl)) → is_Some (la_refusal (wal_file wl'))).
Proof.
  unfold wal_append. destruct (zero_generation op); [intros [= <- _]; split; [lia|done]|].
  destruct (checked_add 64 (next_seq wl) 1) as [next|] eqn:En; [|intros [= <- _]; split; [lia|done]].
  assert (next_seq wl ≤ next) as Hn by (unfold checked_add in En; destruct (_ <=? _); [injection En as <-; lia|done]).
  destruct (encode_entry _) as [e|body]; [intros [= <- _]; split; [done|done]|]. cbn [wal_file].
  unfold append_at, healthy. destruct (la_refusal (wal_file wl)) as [why|] eqn:Er; [intros [= <- _]; cbn; rewrite Er; by split|].
  destruct (write_frame body); [intros [= <- _]; split; [done|by intros [? [=]]]|].
  destruct io; intros [= <- _]; (split; [done|by intros [? [=]]]).
Qed.

(** The world after an append: the log handle is another one. *)
Definition logged w (wl' : Wal) w' : Prop := wo_engine w' = with_wal (Some wl') (wo_engine w) ∧ wo_disk w' = wo_disk w.

Lemma append_wal_spec w wl op log cut :
  log_ok norm w log cut → en_wal (wo_engine w) = Some wl → op_ok op → op_accepted op →
  wp (append_wal op) (λ err w', ∃ wl', logged w wl' w' ∧
    match err with
    | None => log_ok norm w' (log ++ [entry_of op (next_seq wl)]) None ∧ cut = None ∧ la_refusal (wal_file wl) = None ∧
        sealed_of (wo_engine w) < next_seq wl ∧ manifest_sealed (wo_disk w) < next_seq wl ∧ manifest_watermark (wo_disk w) < next_seq wl
    | Some _ => ∃ cut', log_ok norm w' log cut' ∧ (is_Some (la_refusal (wal_file wl)) → is_Some (la_refusal (wal_file wl'))) ∧
        (cut' = cut ∨ la_refusal (wal_file wl) = None ∧ ∃ reached, cut' = Some (entry_of op (next_seq wl), reached))
    end) w.
Proof.
  intros [(wl0 & E0 & Hw & Hse & Hms & Hmw) Hent Hcut] Ew Hop Hacc. rewrite Ew in E0. injection E0 as <-. unfold append_wal.
  apply wp_bind, wp_this. rewrite Ew. apply wp_bind, wp_disk_step. intros out faults.
  destruct (wal_append wl op (write_outcome out)) as [wl' r] eqn:Ea. wp_go. exists wl'. split; [done|].
  pose proof (wal_append_preserves _ _ _ _ _ _ _ Hw Hop Ea) as Hp. destruct (wal_append_next _ _ _ _ _ Ea) as [Hnext Hkeep].
  assert (∀ log' cut', wal_ok wl' log' cut' → Forall (entry_accepted norm) log' → (∀ x reached, cut' = Some (x, reached) → entry_accepted norm x) →
    log_ok norm (mkWorld (with_wal (Some wl') (wo_engine w)) (wo_disk w) faults) log' cut') as Hlog.
  { intros log' cut' Hw' He' Hc'. split; [|done..]. exists wl'. unfold sealed_of in *. cbn. split_and!; [done|done|lia..]. }
  destruct r as [err|seq].
  - exists (cut_by wl op (write_outcome out) err cut). assert (cut_by wl op (write_outcome out) err cut = cut ∨
      la_refusal (wal_file wl) = None ∧ ∃ reached, cut_by wl op (write_outcome out) err cut = Some (entry_of op (next_seq wl), reached)) as Hor.
    { destruct (la_refusal (wal_file wl)) as [why|] eqn:Er.
      - left. eapply wal_append_refused; [by rewrite Er|exact Ea].
      - destruct err, out; cbn; auto. right. split; [done|]. eauto. }
    split_and!; [|done|done]. apply Hlog; [done|done|]. intros x reached E. destruct Hor as [Ec|(_ & reached' & Ec)]; rewrite E in Ec; [by eapply Hcut|].
    injection Ec as -> _. by apply op_entry_accepted.
  - destruct Hp as (Hw' & -> & _ & -> & Hr). split_and!; try done.
    + apply Hlog; [done| |done]. apply Forall_app. split; [done|]. constructor; [by apply op_entry_accepted|done].
    + destruct (la_refusal (wal_file wl)) eqn:Er; [|done]. destruct Hkeep as [? E]; [done|]. by rewrite Hr in E.
Qed.

Lemma logged_trans w1 w2 w3 wl2 wl3 : logged w1 wl2 w2 → logged w2 wl3 w3 → logged w1 wl3 w3.
Proof. intros [E1 D1] [E2 D2]. split; [by rewrite E2, E1|congruence]. Qed.

Lemma holds_docs_logged w wl w' st docss : logged w wl w' → holds_docs norm w st docss → holds_docs norm w' st docss.
Proof. intros [E D] [Hdir Hown Hsl [] [] Hd]. split; rewrite ?D, ?E; try done; split; by rewrite ?E. Qed.

Lemma linked_logged n w wl w' st docss log cut : logged w wl w' → linked n w st docss log cut → linked n w' st docss log cut.
Proof. intros [E D] []. split; rewrite ?D, ?E; done. Qed.

(** No write beyond those that had failed before has failed. *)
Definition calmer (cut cut' : option (WalEntry * nat)) : Prop := ∀ x reached, cut' = Some (x, reached) → is_checkpoint x = false → cut' = cut.

Lemma calmer_refl cut : calmer cut cut.
Proof. done. Qed.

Lemma calmer_trans cut1 cut2 cut3 : calmer cut1 cut2 → calmer cut2 cut3 → calmer cut1 cut3.
Proof. intros H12 H23 x reached E Hx. pose proof (H23 x reached E Hx) as E'. rewrite E' in *. by eapply H12. Qed.

Lemma capable_logged w wl w' : logged w wl w' → capable (wo_engine w) → capable (wo_engine w').
Proof. by intros [-> _]. Qed.

(** ** Emptying the log after a commit *)

Record emptied w st (docss : list (list Doc)) : Prop := {
  em_synced : en_manifest_on_disk (wo_engine w) = Synced;
  em_committed : en_committed_generations (wo_engine w) = en_generations (wo_engine w);
  em_memtable : st_memtable st = [];
  em_docs : docss = st_segments st;
}.

Lemma emptied_logged w wl w' st docss : logged w wl w' → emptied w st docss → emptied w' st docss.
Proof. intros [E D] []. split; by rewrite ?E. Qed.

Lemma generations_length w st docss : holds_docs norm w st docss → length (en_generations (wo_engine w)) = length (st_segments st).
Proof. intros Hh. destruct (hd_engine _ _ _ _ Hh). by rewrite eo_generations, (Forall2_length _ _ _ eo_segments). Qed.

Lemma linked_emptied w st docss log cut :
  holds_docs norm w st docss → emptied w st docss → after_checkpoint log = [] → linked (length (st_segments st)) w st docss log cut.
Proof.
  intros Hh [Hs Hc Hm ->] Hlog. pose proof (generations_length _ _ _ Hh) as Hl.
  assert (recovered (wo_disk w) (st_segments st) log = st) as Hrec.
  { unfold recovered. rewrite Hlog. destruct st. cbn in *. by subst. }
  split; rewrite ?Hrec, ?Hlog, ?drop_all, ?firstn_all; try done. by rewrite Hc, firstn_all2 by lia.
Qed.

Lemma linked_cut n w st docss log cut cut' :
  linked n w st docss log cut →
  (∀ x reached, cut' = Some (x, reached) → is_checkpoint x = true → st_memtable st = [] ∧ drop n (st_segments st) = [] ∧ take n (st_segments st) = docss) →
  linked n w st docss log cut'.
Proof. intros [] Hc. by split. Qed.

Lemma consistent_linked n w st docss log cut :
  holds_docs norm w st docss → log_ok norm w log cut → en_manifest_on_disk (wo_engine w) = Synced → linked n w st docss log cut →
  consistent norm w st docss log cut [].
Proof. intros Hh Hlog Hs Hl. split; [done|done|]. right. split_and!; [done|done|by exists n]. Qed.

Lemma emptied_cut w st docss (cut : option (WalEntry * nat)) :
  emptied w st docss → ∀ x reached, cut = Some (x, reached) → is_checkpoint x = true →
  st_memtable st = [] ∧ drop (length (st_segments st)) (st_segments st) = [] ∧ take (length (st_segments st)) (st_segments st) = docss.
Proof. intros [_ _ Hm ->] x reached _ _. by rewrite drop_all, firstn_all. Qed.

Lemma log_ok_replaced w wl wl' w' log cut log' cut' :
  log_ok norm w log cut → en_wal (wo_engine w) = Some wl → logged w wl' w' → wal_ok wl' log' cut' → next_seq wl' = next_seq wl →
  log' ⊆ log → (cut' = None ∨ cut' = cut) → log_ok norm w' log' cut'.
Proof.
  intros [(wl0 & E0 & Hw & Hb) He Hc] Ew [E D] Hw' Hn Hsub Hor. split.
  - exists wl'. rewrite E, D, Hn. unfold sealed_of in *. cbn. assert (wl0 = wl) as -> by congruence. done.
  - rewrite Forall_forall in *. auto.
  - intros x reached Ex. destruct Hor as [->| ->]; [done|]. by eapply Hc.
Qed.

Lemma wal_reset_spec wl log cut io wl' r :
  wal_ok wl log cut → wal_reset wl io = (wl', r) →
  next_seq wl' = next_seq wl ∧ (wal_ok wl' [] None ∨ wal_ok wl' log cut).
Proof.
  intros Hw. pose proof (wo_next _ _ _ Hw) as Hn. destruct io as [| |renamed]; intros [= <- _]; (split; [done|]).
  - left. split; [done|done|constructor|done|by exists [], []|done].
  - by right.
  - destruct renamed.
    + left. split; [done|done|constructor|done|by exists [], []|done].
    + right. apply (wal_ok_touched wl); [done|lia|done|left; apply disable_refuses].
Qed.

Lemma reset_wal_spec w st docss log cut :
  holds_docs norm w st docss → log_ok norm w log cut → emptied w st docss → linked (length (st_segments st)) w st docss log cut →
  wp reset_wal_if_safe (λ _ w', ∃ wl' log' cut', logged w wl' w' ∧ consistent norm w' st docss log' cut' [] ∧ calmer cut cut') w.
Proof.
  intros Hh Hlog Hem Hl. destruct (lo_wal _ _ _ _ Hlog) as (wl & Ew & Hw & _). unfold reset_wal_if_safe. apply wp_bind, wp_this. rewrite Ew.
  apply wp_bind, wp_disk_step. intros out faults. apply wp_assigning. cbn [wo_engine wo_disk wo_faults].
  destruct (wal_reset wl (reset_outcome out)) as [wl' r] eqn:Er. cbn [fst]. destruct (wal_reset_spec _ _ _ _ _ _ Hw Er) as [Hn Hor].
  set (w' := mkWorld _ _ _). assert (logged w wl' w') as Hlg by done.
  assert (∀ log' cut', wal_ok wl' log' cut' → log' ⊆ log → cut' = None ∨ cut' = cut → after_checkpoint log' = [] ∨ log' = log ∧ cut' = cut →
    consistent norm w' st docss log' cut' []) as Hinv.
  { intros log' cut' Hw' Hsub Hc Ha. eapply (consistent_linked (length (st_segments st)));
      [by eapply holds_docs_logged|by eapply log_ok_replaced|by apply (em_synced _ _ _ (emptied_logged _ _ _ _ _ Hlg Hem))|].
    destruct Ha as [Ha|[-> ->]]; [|by eapply linked_logged].
    apply linked_emptied; [by eapply holds_docs_logged|by eapply emptied_logged|done]. }
  destruct Hor as [Hw'|Hw'].
  - exists wl', [], None. split_and!; [done| |done]. apply Hinv; [done|set_solver|by left|by left].
  - exists wl', log, cut. split_and!; [done| |done]. apply Hinv; [done|set_solver|by right|by right].
Qed.

Lemma checkpoint_spec w st docss log cut :
  holds_docs norm w st docss → log_ok norm w log cut → emptied w st docss → linked (length (st_segments st)) w st docss log cut →
  wp (checkpoint_wal ;& reset_wal_if_safe) (λ _ w', ∃ wl' log' cut', logged w wl' w' ∧ consistent norm w' st docss log' cut' [] ∧ calmer cut cut') w.
Proof.
  intros Hh Hlog Hem Hl. destruct (lo_wal _ _ _ _ Hlog) as (wl & Ew & _). unfold checkpoint_wal. do 2 apply wp_bind. apply wp_this. apply wp_bind.
  eapply wp_mono; [apply (append_wal_spec _ _ _ _ _ Hlog Ew); [apply segment_name_ok|done]|]. intros err w1 (wl1 & Hlg & Hres). apply wp_ret.
  assert (∀ log1 cut1, log_ok norm w1 log1 cut1 → linked (length (st_segments st)) w1 st docss log1 cut1 → calmer cut cut1 →
    wp reset_wal_if_safe (λ _ w', ∃ wl' log' cut', logged w wl' w' ∧ consistent norm w' st docss log' cut' [] ∧ calmer cut cut') w1) as Hreset.
  { intros log1 cut1 Hlog1 Hl1 Hc1. eapply wp_mono; [apply (reset_wal_spec w1 st docss log1 cut1); [by eapply holds_docs_logged|done|by eapply emptied_logged|done]|].
    intros _ w2 (wl2 & log2 & cut2 & Hlg2 & Hi & Hc2). exists wl2, log2, cut2. split_and!; [by eapply logged_trans|done|by eapply calmer_trans]. }
  destruct err as [err|].
  - destruct Hres as (cut' & Hlog' & _ & Hor). apply (Hreset log cut'); [done| |].
    + eapply linked_cut; [by eapply linked_logged|]. by eapply emptied_cut.
    + intros x reached E Hx. destruct Hor as [->|(_ & reached' & E')]; [done|]. rewrite E in E'. injection E' as -> _. done.
  - destruct Hres as (Hlog' & -> & _). eapply Hreset; [exact Hlog'| |done].
    apply linked_emptied; [by eapply holds_docs_logged|by eapply emptied_logged|]. by rewrite after_checkpoint_snoc.
Qed.

End log.

Lemma merge_room_sublist {B} (segs segs' : list (Segment B)) : segs' `sublist_of` segs → merge_room segs → merge_room segs'.
Proof.
  intros Hs Hr b. specialize (Hr b). assert (sum_N (λ src, store_size b (sg_exact src)) segs' ≤ sum_N (λ src, store_size b (sg_exact src)) segs); [|lia].
  clear Hr. induction Hs; simpl; lia.
Qed.

Lemma splice_app {X} lo hi (l1 l2 l3 new : list X) :
  lo = length l1 → hi = (lo + length l2)%nat → splice lo hi new (l1 ++ l2 ++ l3) = l1 ++ new ++ l3.
Proof.
  intros -> ->. unfold splice. rewrite take_app_length, (drop_app_add' _ _ _ _ eq_refl), drop_app_length. done.
Qed.

Lemma range_app {X} lo hi (l1 l2 l3 : list X) : lo = length l1 → hi = (lo + length l2)%nat → range lo hi (l1 ++ l2 ++ l3) = l2.
Proof. intros -> ->. unfold range. rewrite drop_app_length, Nat.add_comm, Nat.add_sub. apply take_app_length. Qed.

Lemma split_range {X} (l : list X) lo hi : (lo ≤ hi ≤ length l)%nat →
  ∃ l1 l2 l3, l = l1 ++ l2 ++ l3 ∧ length l1 = lo ∧ length l2 = (hi - lo)%nat.
Proof.
  intros Hle. exists (take lo l), (take (hi - lo) (drop lo l)), (drop (hi - lo) (drop lo l)). rewrite !take_drop. split_and!; [done|..].
  - rewrite length_take. lia.
  - rewrite length_take, length_drop. lia.
Qed.

Section housekeeping.
Context {A B : Type} `{DaachorseLaws A} `{RoaringLaws B} (norm : Normalizer A).
Implicit Types (w : World A B) (st : State) (b : BaseSegment B).

#[local] Instance norm_analyzer_moving : Analyzer := normalizer_analyzer norm.
#[local] Abbreviation holds_docs := (holds_docs norm).
#[local] Abbreviation inv := (inv norm).
#[local] Abbreviation consistent := (consistent norm).

(** The segments fit into one, and file numbers do not run out. *)
Record capacity (n : nat) w : Prop := {
  cp_merge : merge_room (base_seg <$> en_segments (wo_engine w));
  cp_ids : id_room w n;
}.

Lemma merge_segments_spec w st docss segs dss :
  holds_docs w st docss → Forall2 (seg_docs (en_dict (wo_engine w)) (en_tag_dict (wo_engine w))) segs dss → merge_room segs →
  ∃ merged stats, merge_segments (wo_engine w) segs = Some (merged, stats) ∧
    seg_docs (en_dict (wo_engine w)) (en_tag_dict (wo_engine w)) merged (mjoin (live_docs <$> dss)) ∧
    (Forall (λ seg, seg_has_phrases seg = false) segs → seg_has_phrases merged = false).
Proof.
  intros Hh Hs Hroom. unfold merge_segments. destruct (eo_dict _ _ _ (hd_engine _ _ _ _ Hh)) as [Hwf Hr _ _].
  destruct (compaction_reanchor _).
  - destruct (seg_docs_reanchored _ _ _ _ (config_hot_anchor_threshold (en_config (wo_engine w))) (hot_migration_max_moves (en_config (wo_engine w))) Hwf Hr Hs Hroom)
      as (merged & stats & E & Hm). exists merged, stats. split_and!; [done|done|]. intros Hq. by eapply no_phrases_reanchored.
  - destruct (seg_docs_compact _ _ _ _ Hs Hroom) as (merged & E & Hm). exists merged, (mkReanchorStats 0 0 0). rewrite E. split_and!; [done|done|].
    intros Hq. by eapply no_phrases_compact.
Qed.

(** Removing files that nothing names. *)
Lemma remove_files_spec files w st docss log cut doubt :
  inv w st docss log cut doubt →
  Forall (λ file, (file ∉ omap base_file (en_segments (wo_engine w))) ∧ (file ∉ manifest_files (wo_disk w))) files →
  wp (run_each files best_effort_remove_segment) (λ _ w', inv w' st docss log cut doubt) w.
Proof.
  intros Hi Hf. eapply (wp_run_each _ _ (λ _ w', inv w' st docss log cut doubt ∧ en_segments (wo_engine w') = en_segments (wo_engine w) ∧
    manifest_files (wo_disk w') = manifest_files (wo_disk w))); [done| |by intros w' (? & _)].
  intros done file w1 [rest Hin] (Hi1 & Es & Em). eapply wp_mono; [apply best_effort_remove_segment_spec|]. intros _ w2 [Ht _].
  rewrite Forall_forall in Hf. destruct (Hf file) as [H1' H2']; [rewrite Hin; set_solver|]. split_and!.
  - eapply inv_touched; [exact Ht|by rewrite Es|by rewrite Em|done].
  - destruct Ht as ([] & _). congruence.
  - destruct Ht as (_ & M & _). unfold manifest_files in *. by rewrite M.
Qed.

Lemma remove_path_spec w st docss log cut doubt path :
  inv w st docss log cut doubt →
  (∀ file, path = Some file → en_manifest_on_disk (wo_engine w) = RenamedNotSynced ∨
     (file ∉ omap base_file (en_segments (wo_engine w))) ∧ (file ∉ manifest_files (wo_disk w))) →
  wp (match path with Some file => best_effort_remove_segment file | None => eng_ret tt end)
    (λ _ w', inv w' st docss log cut doubt ∧ same_core (wo_engine w) (wo_engine w')) w.
Proof.
  intros Hi Hp. destruct path as [file|]; [|done]. eapply wp_mono; [apply best_effort_remove_segment_spec|]. intros _ w' [Ht Hc]. split; [|apply Ht].
  destruct (Hp file eq_refl) as [Hn|[? ?]]; [eapply inv_calm; [by apply Hc|done]|by eapply inv_touched].
Qed.

(** A rearrangement is committed, or taken back. *)
Lemma live_merged before old after mem :
  live (mkState ((sl_docs <$> before) ++ [mjoin (live_docs <$> (sl_docs <$> old))] ++ (sl_docs (B:=B) <$> after)) mem) =
  live (mkState (sl_docs <$> before ++ old ++ after) mem).
Proof.
  unfold live, all_docs. cbn [st_segments st_memtable]. rewrite !fmap_app, !join_app, !live_docs_app. cbn [mjoin list_join app].
  by rewrite app_nil_r, live_docs_join.
Qed.

Lemma relaid_splice w before old new after dss lo hi :
  laid w (before ++ old ++ after) dss → lo = length before → hi = (lo + length old)%nat →
  mkWorld (with_generations (splice lo hi (sl_generation <$> new) (en_generations (wo_engine w)))
    (with_segments (splice lo hi (sl_base <$> new) (en_segments (wo_engine w))) (wo_engine w))) (wo_disk w) (wo_faults w) =
  relaid (before ++ new ++ after) w.
Proof.
  intros [Es Eg _] Hlo Hhi. unfold relaid. rewrite Es, Eg, !fmap_app, !splice_app by (by rewrite ?length_fmap). done.
Qed.

Lemma cleanup_spec files w st docss log cut doubt :
  inv w st docss log cut doubt →
  (∀ file, file ∈ files → (file ∉ omap base_file (en_segments (wo_engine w))) ∧ (file ∉ manifest_files (wo_disk w))) →
  wp (cleanup_segment_files files) (λ _ w', inv w' st docss log cut doubt) w.
Proof.
  intros Hi Hf. unfold cleanup_segment_files. wp_go. rewrite (hd_owns _ _ _ _ (iv_docs _ _ _ _ _ _ _ Hi)). apply remove_files_spec; [done|].
  apply Forall_forall. intros file Hin. by apply Hf.
Qed.

(** After a commit nothing names the files of the slots it replaced. *)
Lemma committed_files_gone n w w2 w3 st st2 docss log cut before old new after file :
  slots_ok norm w (before ++ old ++ after) → placed norm w w2 st st2 docss log cut before new after →
  (∀ file, file ∈ omap slot_file new → en_next_seg_id (wo_engine w) ≤ file) → commit_result norm n w2 w3 st2 docss log cut true →
  file ∈ omap slot_file old → (file ∉ omap base_file (en_segments (wo_engine w3))) ∧ (file ∉ manifest_files (wo_disk w3)).
Proof.
  intros Hok Hpl Hnew Hres Hin. inversion Hres as [Hp _ _ Em _ _ _ Hi| |]; subst.
  destruct (slots_persisted _ _ _ _ _ _ _ (pl_laid _ _ _ _ _ _ _ _ _ _ _ Hpl) Hp (iv_docs _ _ _ _ _ _ _ Hi)) as (slots' & Hl & _ & Hsame).
  rewrite Em, (la_segments _ _ _ Hl), <-omap_slot_file. split; (eapply replaced_files_gone; [exact Hok| |exact Hsame|exact Hnew|exact Hin]);
    apply (pl_frame _ _ _ _ _ _ _ _ _ _ _ Hpl).
Qed.

(** The commit of a merge, with its cleanup or its rollback. *)
Lemma commit_merge_spec {X} (r : X) w w2 st st2 docss log cut doubt before old new after path :
  inv w st docss log cut doubt → laid w (before ++ old ++ after) (st_segments st) → slots_ok norm w (before ++ old ++ after) →
  placed norm w w2 st st2 docss log cut before [new] after → live st2 = live st → slot_file new = path →
  (∀ file, file ∈ omap slot_file [new] → en_next_seg_id (wo_engine w) ≤ file) → id_room w2 (length (en_segments (wo_engine w2))) →
  capable (wo_engine w2) → en_live_phrase_segments (wo_engine w2) = en_live_phrase_segments (wo_engine w) →
  en_memtable (wo_engine w2) = en_memtable (wo_engine w) →
  wp (let& ok := commit_manifest_with_current_sources in
      if negb ok then
        assigning (λ e, with_generations (splice (length before) (S (length before)) (sl_generation <$> old) (en_generations e))
          (with_segments (splice (length before) (S (length before)) (sl_base <$> old) (en_segments e)) e)) ;&
        (match path with Some file => best_effort_remove_segment file | None => eng_ret tt end) ;&
        eng_ret None
      else cleanup_segment_files (omap base_file (sl_base <$> old)) ;& eng_ret (Some r))
    (λ _ w', ∃ st' docss', inv w' st' docss' log cut doubt ∧ live st' = live st ∧ st_memtable st' = st_memtable st) w2.
Proof.
  intros Hi Hl Hok Hpl Hlive Epath Hnew Hids Hcap Hflag Hmt. pose proof Hpl as [Hh2 Hl2 Hok2 Hfr Hsl Hlog2 Hmem Hlk].
  eapply wp_step; [by eapply commit_current_spec|]. intros ok w3 Ho. apply (outcome_result _ _ _ _ _ _ log cut) in Ho; [|done..].
  destruct ok; cbn [negb].
  - inversion Ho as [Hp Hsync _ _ _ _ _ Hi3| |]; subst. rewrite (sl_on_disk _ _ Hsl) in Hsync.
    destruct (synced_mem _ _ _ _ _ _ (iv_step _ _ _ _ _ _ _ Hi) Hsync) as [-> _].
    eapply wp_step; [eapply cleanup_spec; [split; [exact Hi3|by eapply capable_persisted]|]|].
    + rewrite <-omap_slot_file. intros file. by eapply committed_files_gone.
    + intros [] w4 Hi4. wp_go. by exists st2, (st_segments st2).
  - destruct (rolled_back norm w w2 w3 (length (en_segments (wo_engine w2))) st st2 docss log cut doubt before old [new] after [] Hi Hl Hok Hl2 Hok2 Hfr Hsl Hmem) as
      (before' & new' & after' & docss' & doubt' & [Hl3 Hb Hn _ _ _ _ Hseg Hp _] & Hi3 & Hd & Hf); [by rewrite app_nil_r, Hlive|exact Ho|].
    assert (capable (wo_engine (relaid (before' ++ old ++ after') w3))) as Hcap3.
    { eapply capable_restored; [exact Hl|exact Hseg|by rewrite (ps_phrases _ _ _ Hp)|by rewrite (ps_memtable _ _ _ Hp)|apply Hi]. }
    assert (doubt' = doubt) as -> by (destruct Hd as [->|[-> ->]]; done).
    wp_go. rewrite (relaid_splice w3 before' new' old after' _ _ _ Hl3 (eq_sym Hb)) by (rewrite Hn; simpl; lia).
    eapply wp_mono; [apply remove_path_spec; [split; [exact Hi3|done]|]|].
    + intros file E. rewrite E in Epath. cbn. rewrite <-omap_slot_file. assert (file ∈ omap slot_file [new]) by (cbn; rewrite Epath; set_solver). apply Hf; [done|by apply Hnew].
    + intros [] w4 [Hi4 _]. wp_go. by exists st, docss'.
Qed.

Lemma do_compact_range_spec lo hi w st docss log cut doubt :
  inv w st docss log cut doubt → capacity (2 + length (en_segments (wo_engine w))) w →
  wp (do_compact_range lo hi) (λ _ w', ∃ st' docss', inv w' st' docss' log cut doubt ∧ live st' = live st ∧ st_memtable st' = st_memtable st) w.
Proof.
  intros Hi [Hmerge Hids]. pose proof (iv_docs _ _ _ _ _ _ _ Hi) as Hh. unfold do_compact_range. wp_go.
  destruct (_ || _) eqn:Eg; [wp_go; by exists st, docss|]. apply orb_false_iff in Eg as [Hlo%Nat.leb_gt Hhi%Nat.ltb_ge].
  destruct (slots_of _ _ _ _ Hh) as (slots & Hl & Hok). pose proof Hl as [Es Egen Edocs].
  assert (length slots = length (en_segments (wo_engine w))) as Hlen by by rewrite Es, length_fmap.
  destruct (split_range slots lo hi) as (before & old & after & -> & Elo & Eold); [lia|].
  assert (hi = lo + length old)%nat as Ehi by lia.
  assert (range lo hi (en_segments (wo_engine w)) = sl_base <$> old) as -> by (rewrite Es, !fmap_app; apply range_app; by rewrite length_fmap).
  assert (range lo hi (en_generations (wo_engine w)) = sl_generation <$> old) as -> by (rewrite Egen, !fmap_app; apply range_app; by rewrite length_fmap).
  destruct (merge_segments_spec w st docss (base_seg <$> (sl_base <$> old)) (sl_docs <$> old)) as (merged & stats & -> & Hmg & Hquiet).
  { done. }
  { rewrite <-list_fmap_compose. apply Forall2_fmap, Forall_Forall2_diag. destruct Hok as [Heach _ _]. rewrite !Forall_app in Heach.
    eapply Forall_impl; [apply Heach|]. by intros s []. }
  { eapply merge_room_sublist; [|exact Hmerge]. apply fmap_sublist. rewrite Es. apply fmap_sublist. by apply sublist_inserts_l, sublist_inserts_r. }
  apply wp_bind. eapply wp_reckon; [done|]. cbv beta iota.
  eapply wp_step; [eapply build_durable_base_spec; [apply Hh|unfold id_room in *; lia|exact Hmg]|].
  intros built w1 [Hg Hb]. destruct built as [[b path]|]; [|wp_go; exists st, docss; split; [by eapply inv_grew|done]].
  destruct Hb as [Hsl Epath]. unfold fresh_segment_generation. wp_go.
  pose proof (place_new_slot _ _ _ _ _ _ _ _ _ _ _ _ _ _ _ Hi Hok Hg Hsl Hmg) as Hpl.
  assert (laid (tokened w1) (before ++ old ++ after) (st_segments st)) as Hl1.
  { destruct Hg as (next & _ & [] & _). split; [rewrite <-Es; done|rewrite <-Egen; done|done]. }
  pose proof (relaid_splice _ _ _ [new_slot w1 b (mjoin (live_docs <$> (sl_docs <$> old)))] _ _ _ _ Hl1 (eq_sym Elo) Ehi) as Ew.
  cbn in Ew. cbn. rewrite Ew. clear Ew. subst lo.
  apply wp_bind_inv.
  eapply (commit_merge_spec _ w _ st _ docss log cut doubt before old (new_slot w1 b (mjoin (live_docs <$> (sl_docs <$> old)))) after path);
    [done|done|done|exact Hpl| |done|by intros file; eapply new_slot_file| | | |].
  - transitivity (live (mkState (sl_docs <$> before ++ old ++ after) (st_memtable st))); [|rewrite <-Edocs; by destruct st].
    by rewrite <-(live_merged before old after), !fmap_app.
  - pose proof (grew_next _ _ _ Hg) as Hn. unfold id_room in *. cbn. rewrite length_fmap. rewrite !length_app in *. cbn in *. lia.
  - destruct Hg as (next & _ & [] & _). cbn in *. intros Hf. cbn in Hf. rewrite sc_phrases in Hf. apply (iv_phrases _ _ _ _ _ _ _ Hi), phrase_segments_none in Hf as [Hm Hq].
    apply phrase_segments_none. cbn. rewrite sc_memtable. split; [done|]. rewrite Es, !fmap_app, !Forall_app in Hq. destruct Hq as (Hq1 & Hq2 & Hq3).
    rewrite fmap_app. apply Forall_app. split; [done|]. rewrite fmap_cons. constructor; [|done]. cbn. destruct Hsl as [-> _]. apply Hquiet. by apply Forall_fmap.
  - by destruct Hg as (next & _ & [] & _).
  - by destruct Hg as (next & _ & [] & _).
Qed.

(** ** The policies *)

Lemma try_range_total cost sizes lo sm best hi :
  (1 ≤ hi ≤ length sizes)%nat → is_Some (try_range cost sizes lo (sm, best) hi).
Proof. intros Hle. unfold try_range. destruct (lookup_lt_is_Some_2 sizes (hi - 1)) as [size ->]; [lia|]. by eexists. Qed.

Lemma foldM_total {X Y} (f : X → Y → option X) l x : (∀ x y, y ∈ l → is_Some (f x y)) → is_Some (foldM f x l).
Proof.
  revert x. induction l as [|y l IH]; intros x Hf; [by eexists|]. rewrite foldM_cons. destruct (Hf x y) as [x' ->]; [by left|].
  apply IH. intros x'' y' Hy. apply Hf. by right.
Qed.

Lemma pick_merge_range_total cost (segs : list (Segment B)) : is_Some (pick_merge_range cost segs).
Proof.
  unfold pick_merge_range. set (sizes := _ <$> segs). assert (length segs = length sizes) as El by (unfold sizes; by rewrite length_fmap). rewrite El.
  edestruct (foldM_total (try_ranges_from cost sizes) (seq 0 (length sizes))) as [best ->]; [|by eexists].
  intros best lo Hlo%elem_of_seq. unfold try_ranges_from. destruct (lookup_lt_is_Some_2 sizes lo) as [size ->]; [lia|]. cbn [mbind option_bind].
  edestruct (foldM_total (try_range cost sizes lo) (seq (lo + 2) (length sizes - (lo + 1)))) as [r ->]; [|by eexists].
  intros [sm best'] hi Hhi%elem_of_seq. apply try_range_total. lia.
Qed.

Lemma maybe_compact_spec w st docss log cut doubt :
  inv w st docss log cut doubt → capacity (2 + length (en_segments (wo_engine w))) w →
  wp maybe_compact (λ _ w', ∃ st' docss', inv w' st' docss' log cut doubt ∧ live st' = live st ∧ st_memtable st' = st_memtable st) w.
Proof.
  intros Hi Hcap. unfold maybe_compact, engine_pick. wp_go.
  destruct (pick_merge_range_total (compaction_fixed_cost (en_config (wo_engine w))) (base_seg <$> en_segments (wo_engine w))) as [[lo hi] ->].
  destruct (_ && _); [by eapply do_compact_range_spec|]. destruct (_ <? _)%nat; [by eapply do_compact_range_spec|]. wp_go. by exists st, docss.
Qed.

Lemma compact_spec max_segs w st docss log cut doubt :
  inv w st docss log cut doubt → capacity (2 + length (en_segments (wo_engine w))) w →
  wp (compact max_segs) (λ _ w', ∃ st' docss', inv w' st' docss' log cut doubt ∧ live st' = live st ∧ st_memtable st' = st_memtable st) w.
Proof.
  intros Hi Hcap. unfold compact, engine_pick, compact_range. wp_go. destruct (_ <=? _)%nat; [wp_go; by exists st, docss|].
  destruct (pick_merge_range_total (compaction_fixed_cost (en_config (wo_engine w))) (base_seg <$> en_segments (wo_engine w))) as [[lo hi] ->].
  by eapply do_compact_range_spec.
Qed.

(** ** Flush *)

Lemma linked_bound n w st docss log cut :
  holds_docs w st docss → linked n w st docss log cut → ∃ n', (n' ≤ length (st_segments st))%nat ∧ linked n' w st docss log cut.
Proof.
  intros Hh Hl. pose proof (generations_length _ _ _ _ Hh) as Hlen. destruct (decide (n ≤ length (st_segments st))%nat); [by exists n|].
  exists (length (st_segments st)). split; [done|]. destruct Hl as [Hg Hs Ht Hm Hc]. rewrite firstn_all2 in Hg by lia. rewrite firstn_all2 in Hs by lia.
  rewrite skipn_all2 in Ht by lia. split; rewrite ?firstn_all, ?drop_all; try done.
  - by rewrite firstn_all2 by lia.
  - intros x reached E Hx. destruct (Hc x reached E Hx) as (? & _ & Ht'). rewrite firstn_all2 in Ht' by lia. done.
Qed.

(** A commit of the segments as they are. *)
Lemma commit_plain n w w' st docss log cut doubt ok :
  inv w st docss log cut doubt → commit_result norm n w w' st docss log cut ok →
  base_seg <$> en_segments (wo_engine w') = base_seg <$> en_segments (wo_engine w) ∧
  en_next_seg_id (wo_engine w') ≤ en_next_seg_id (wo_engine w) + N.of_nat n ∧
  ∃ docss', inv w' st docss' log cut doubt ∧
    (ok = true → doubt = [] ∧ docss' = st_segments st ∧ linked (length (st_segments st)) w' st docss' log cut ∧
       en_manifest_on_disk (wo_engine w') = Synced ∧ en_committed_generations (wo_engine w') = en_generations (wo_engine w')).
Proof.
  intros Hi Hr. assert (persisted n w w') as Hp by by inversion Hr. split_and!.
  - pose proof (ps_segments _ _ _ Hp) as Hb. clear -Hb. induction Hb as [|b b' l l' Hb _ IH]; [done|]. by rewrite !fmap_cons, IH, (backed_seg _ _ _ Hb).
  - apply Hp.
  - inversion Hr as [_ Hsync Hc _ Hs' _ Hl Hi'|_ Hsl Hh|_ Hsync Hc Hlog Hh Hrec].
    + destruct (synced_mem _ _ _ _ _ _ (iv_step _ _ _ _ _ _ _ Hi) Hsync) as [-> _]. exists (st_segments st). split; [|done]. split; [done|]. eapply capable_persisted; [exact Hp|apply Hi].
    + exists docss. split; [|done]. eapply inv_same; [exact Hsl|apply Hp|done|by eapply capable_persisted|exact Hi].
    + destruct (synced_mem _ _ _ _ _ _ (iv_step _ _ _ _ _ _ _ Hi) Hsync) as [-> _]. exists (st_segments st). split; [|done].
      split; [|eapply capable_persisted; [exact Hp|apply Hi]]. split; [done|done|]. eapply in_step_frozen; [apply Hi|done|done|done|done|by rewrite app_nil_r].
Qed.

(** The memtable is taken: its documents are in hand. *)
Lemma take_memtable_spec w st docss log cut :
  holds_docs w st docss → log_ok norm w log cut →
  wp take_memtable (λ taken w', taken = (en_memtable (wo_engine w), en_sealed_through (wo_engine w)) ∧
    holds_docs w' (mkState (st_segments st) []) docss ∧ log_ok norm w' log cut ∧
    en_sealed_through (wo_engine w') = Some (wal_last_seq (wo_engine w)) ∧
    ∃ seg, wo_engine w' = with_sealed_through (Some (wal_last_seq (wo_engine w))) (with_memtable seg (wo_engine w)) ∧ wo_disk w' = wo_disk w) w.
Proof.
  intros [Hdir Hown Hsl [] [] Hd] [(wl & Ew & Hw & Hs & Hb) He Hc]. unfold take_memtable. wp_go. split_and!; [done| | |done|by eexists].
  - split; try done. split; try done. cbn. apply seg_docs_epoch, seg_docs_new.
  - split; [|done..]. exists wl. split_and!; [done|done| |apply Hb|apply Hb]. unfold sealed_of. cbn. rewrite (wal_last_seq_some _ _ Ew). by eapply last_below.
Qed.

(** Pushing the documents of the memtable as a segment keeps step with the log. *)
Lemma in_step_flushed w w' st docss log cut doubt g wl :
  in_step w st docss log cut doubt → holds_docs w st docss → log_ok norm w log cut → st_memtable st ≠ [] → en_wal (wo_engine w) = Some wl →
  en_wal (wo_engine w') = Some wl → en_manifest_on_disk (wo_engine w') = en_manifest_on_disk (wo_engine w) →
  en_committed_generations (wo_engine w') = en_committed_generations (wo_engine w) → dk_manifest (wo_disk w') = dk_manifest (wo_disk w) →
  en_sealed_through (wo_engine w') = Some (last_seq wl) → en_generations (wo_engine w') = en_generations (wo_engine w) ++ [g] →
  in_step w' (mkState (st_segments st ++ [st_memtable st]) []) docss log cut doubt.
Proof.
  intros Hstep Hh Hlog Hne Ew Ew' Eon Ec Em Es Eg.
  assert (all_docs (mkState (st_segments st ++ [st_memtable st]) []) = all_docs st) as Eall.
  { unfold all_docs. cbn. by rewrite join_app, app_nil_r; cbn; rewrite app_nil_r. }
  assert (∀ docss, recovered (wo_disk w') docss log = recovered (wo_disk w) docss log) as Er.
  { intros ds. unfold recovered, manifest_sealed, manifest_watermark. by rewrite Em. }
  destruct Hstep as [([Hc1 Hc2] & Hl & Hk)|(Hsync & -> & n & Hlk)].
  - left. unfold live in *. rewrite Eall, Er. split_and!; [|done|done]. split; [by rewrite Eon|]. intros wl' E. rewrite Ew' in E. injection E as <-. by apply Hc2.
  - right. split_and!; [by rewrite Eon|done|]. destruct (linked_bound _ _ _ _ _ _ Hh Hlk) as (n' & Hn & [Hg Hs Ht Hm Hck]). exists n'.
    pose proof (generations_length _ _ _ _ Hh) as Hlen.
    split; cbn [st_segments st_memtable]; rewrite ?Er, ?Eg, ?Ec.
    + by rewrite take_app_le by lia.
    + by rewrite take_app_le by lia.
    + rewrite drop_app_le, join_app, <-Ht by lia. cbn. by rewrite !app_nil_r.
    + unfold sealed_of. rewrite Es. cbn. unfold replayed_mem. rewrite replayed_none; [done|].
      destruct Hlog as [(wl0 & E0 & Hw & _) _ _]. rewrite Ew in E0. injection E0 as <-. by eapply below_last.
    + intros x reached E Hx. by destruct (Hck x reached E Hx).
Qed.

(** [b] was appended to the segments. *)
Record pushed w w' st docss b (docs : list Doc) : Prop := {
  pu_holds : holds_docs w' (mkState (st_segments st ++ [docs]) (st_memtable st)) docss;
  pu_generations : ∃ g, en_generations (wo_engine w') = en_generations (wo_engine w) ++ [g];
  pu_segments : en_segments (wo_engine w') = en_segments (wo_engine w) ++ [b];
  pu_log : same_log w w';
  pu_next : en_next_seg_id (wo_engine w') ≤ en_next_seg_id (wo_engine w) + 1;
}.

Lemma pushed_refreshed w w1 st docss b docs : pushed w w1 st docss b docs → pushed w (refreshed w1) st docss b docs.
Proof. intros []. split; cbn; [by apply holds_docs_refreshed|done|done| |done]. etrans; [done|apply same_log_refreshed]. Qed.

Lemma push_segment_spec w w1 st docss b seg docs :
  holds_docs w st docss → grew 1 w w1 → sealed_as norm w w1 seg docs b →
  seg_docs (en_dict (wo_engine w)) (en_tag_dict (wo_engine w)) seg docs →
  wp (push_segment b) (λ _ w', pushed w w' st docss b docs) w1.
Proof.
  intros Hh Hg Hsl Hs. destruct (slots_of _ _ _ _ Hh) as (slots & [Es Eg Ed] & Hok).
  pose proof (slots_ok_placed norm 1 w w1 slots [] [] seg docs b) as Hok'. rewrite app_nil_r in Hok'. specialize (Hok' Hok Hg Hsl Hs).
  pose proof (holds_docs_layout _ _ _ _ _ (holds_docs_tokened _ _ _ _ (holds_docs_grew _ _ _ _ _ _ Hg Hh)) Hok') as Hh2.
  pose proof (grew_next _ _ _ Hg) as Hn. pose proof (same_log_grew _ _ _ Hg) as Hlog. destruct Hg as (next & _ & [] & _). cbn in *.
  unfold push_segment, fresh_segment_generation. wp_go.
  assert (mkWorld (with_generations (en_generations (wo_engine w1) ++ [en_next_token (wo_engine w1)]) (with_segments (en_segments (wo_engine w1) ++ [b])
    (with_next_token (en_next_token (wo_engine w1) + 1) (wo_engine w1)))) (wo_disk w1) (wo_faults w1) = relaid (slots ++ [new_slot w1 b docs]) (tokened w1)) as Ew.
  { unfold relaid. cbn. by rewrite !fmap_app, sc_segments, sc_generations, <-Es, <-Eg. }
  cbn in Ew. cbn. rewrite Ew. split; cbn.
  - rewrite fmap_app, <-Ed in Hh2. done.
  - rewrite fmap_app, <-Eg. by eexists.
  - by rewrite fmap_app, <-Es.
  - etrans; [exact Hlog|done].
  - lia.
Qed.

Lemma seal_and_push_spec w st docss seg docs :
  holds_docs w st docss → id_room w 1 → seg_docs (en_dict (wo_engine w)) (en_tag_dict (wo_engine w)) seg docs →
  wp (seal_and_push seg) (λ _ w', ∃ b, base_seg b = seg ∧ pushed w w' st docss b docs ∧ capable (wo_engine w')) w.
Proof.
  intros Hh Hr Hs. unfold seal_and_push. eapply wp_step; [eapply make_base_segment_spec; [apply Hh|done|exact Hs]|].
  intros [b ok] w1 [Hg Hsl]. eapply wp_step; [by eapply push_segment_spec|]. intros [] w2 Hp. apply wp_bind, wp_refresh.
  wp_go. exists b. split_and!; [apply Hsl|by apply pushed_refreshed|apply capable_refreshed].
Qed.

(** ** Operations that keep the documents *)

(** The engine serves the live documents [l]. *)
Definition serving w (l doubt : list Doc) cut : Prop := ∃ st docss log, inv w st docss log cut doubt ∧ live st = l.

Record flush_room w : Prop := {
  fm_merge : merge_room ((base_seg <$> en_segments (wo_engine w)) ++ [en_memtable (wo_engine w)]);
  fm_ids : id_room w (2 * length (en_segments (wo_engine w)) + 6);
}.

Lemma merge_room_exact (segs segs' : list (Segment B)) : sg_exact <$> segs' = sg_exact <$> segs → merge_room segs → merge_room segs'.
Proof.
  intros E Hr b. specialize (Hr b). assert (sum_N (λ src, store_size b (sg_exact src)) segs' = sum_N (λ src, store_size b (sg_exact src)) segs) as ->; [|done].
  clear Hr. revert segs' E. induction segs as [|x segs IH]; intros [|x' segs'] E; try done. rewrite !fmap_cons in E. injection E as E1 E2. simpl. by rewrite E1, (IH segs').
Qed.

(** The commit after a flush, with what follows it. *)
Lemma commit_and_empty_spec w st docss log cut doubt :
  inv w st docss log cut doubt → st_memtable st = [] → id_room w (length (en_segments (wo_engine w))) →
  wp (let& ok := commit_sources_and_manifest in if ok : bool then checkpoint_wal ;& reset_wal_if_safe else eng_ret tt)
    (λ _ w', ∃ docss' log' cut', inv w' st docss' log' cut' doubt ∧ calmer cut cut' ∧
      base_seg <$> en_segments (wo_engine w') = base_seg <$> en_segments (wo_engine w) ∧
      en_next_seg_id (wo_engine w') ≤ en_next_seg_id (wo_engine w) + N.of_nat (length (en_segments (wo_engine w)))) w.
Proof.
  intros Hi Hmem Hr. pose proof (iv_docs _ _ _ _ _ _ _ Hi) as Hh. eapply wp_step; [by eapply commit_sources_and_manifest_spec|]. intros ok w1 Ho.
  apply (outcome_result _ _ _ _ _ _ log cut) in Ho; [|apply Hi|intros Hs; by eapply synced_mem in Hs as [_ ?]; [|apply Hi]].
  destruct (commit_plain _ _ _ _ _ _ _ _ _ Hi Ho) as (Eb & Hn & docss1 & Hi1 & Hok). destruct ok.
  - destruct (Hok eq_refl) as (-> & -> & Hl & Hsync & Hc). eapply wp_mono; [eapply checkpoint_spec; [apply Hi1|apply Hi1|by split|exact Hl]|].
    intros _ w2 (wl & log2 & cut2 & Hlg & Hi2 & Hcalm). exists (st_segments st), log2, cut2. split; [split; [done|]|by destruct Hlg as [-> _]].
    eapply capable_logged; [exact Hlg|apply Hi1].
  - wp_go. exists docss1, log, cut. done.
Qed.

Lemma seal_exact (seg seg' : Segment B) : seg_build_filter seg = Some seg' → sg_exact seg' = sg_exact seg.
Proof. unfold seg_build_filter. by intros (f & _ & [= <-])%bind_Some. Qed.

Lemma compact_after_spec w st docss log cut doubt l (auto : bool) :
  inv w st docss log cut doubt → live st = l → capacity (2 + length (en_segments (wo_engine w))) w →
  wp (if auto then let& _ := maybe_compact in eng_ret tt else eng_ret tt) (λ _ w', serving w' l doubt cut) w.
Proof.
  intros Hi <- Hcap. destruct auto; [|wp_go; by exists st, docss, log]. eapply wp_step; [by eapply maybe_compact_spec|].
  intros _ w' (st' & docss' & Hi' & Hl & _). wp_go. by exists st', docss', log.
Qed.

(** The memtable sealed and pushed: the commit and what follows it. *)
Lemma flush_pushed_spec w st docss log cut doubt persisted (owns auto : bool) :
  inv w st docss log cut doubt → st_memtable st = [] → merge_room (base_seg <$> en_segments (wo_engine w)) →
  id_room w (2 * length (en_segments (wo_engine w)) + 2) → owns = true →
  wp (let& ok :=
        if persisted : bool then
          if owns then commit_sources_and_manifest
          else save_query_sources ;& let& e := this in if en_persistence_healthy e then save_manifest_if_persistent else eng_ret false
        else eng_ret false in
      (if ok : bool then checkpoint_wal ;& reset_wal_if_safe else eng_ret tt) ;&
      if auto then let& _ := maybe_compact in eng_ret tt else eng_ret tt)
    (λ _ w', ∃ cut', serving w' (live st) doubt cut' ∧ calmer cut cut') w.
Proof.
  intros Hi Hmem Hroom Hids ->. apply wp_assoc. destruct persisted.
  - eapply wp_step; [eapply commit_and_empty_spec; [exact Hi|done|unfold id_room in *; lia]|].
    intros [] w1 (docss1 & log1 & cut1 & Hi1 & Hc & Eb & Hn). eapply wp_mono; [eapply compact_after_spec; [exact Hi1|done|]|].
    + assert (length (en_segments (wo_engine w1)) = length (en_segments (wo_engine w))) as El by (rewrite <-!(length_fmap base_seg); by rewrite Eb).
      split; [by rewrite Eb|]. unfold id_room in *. lia.
    + intros [] w2 Hs. by exists cut1.
  - wp_go. eapply wp_mono; [eapply compact_after_spec; [exact Hi|done|]|].
    + split; [done|]. unfold id_room in *. lia.
    + intros [] w2 Hs. by exists cut.
Qed.

Lemma live_flushed st : live (mkState (st_segments st ++ [st_memtable st]) []) = live st.
Proof. unfold live, all_docs. cbn. by rewrite join_app, app_nil_r; cbn; rewrite app_nil_r. Qed.

Lemma flush_spec w st docss log cut doubt :
  inv w st docss log cut doubt → flush_room w →
  wp flush (λ _ w', ∃ cut', serving w' (live st) doubt cut' ∧ calmer cut cut') w.
Proof.
  intros Hi [Hmerge Hids]. pose proof (iv_docs _ _ _ _ _ _ _ Hi) as Hh. pose proof (hd_engine _ _ _ _ Hh) as He. unfold flush. wp_go.
  pose proof (seg_docs_empty _ _ _ _ (eo_memtable _ _ _ He)) as Hempty. destruct (seg_is_empty (en_memtable (wo_engine w))).
  { destruct (_ && _); [|wp_go; exists cut; split; [by exists st, docss, log|done]].
    eapply wp_mono; [eapply commit_and_empty_spec; [exact Hi|by apply Hempty|unfold id_room in *; lia]|].
    intros _ w1 (docss1 & log1 & cut1 & Hi1 & Hc & _). exists cut1. split; [by exists st, docss1, log1|done]. }
  assert (st_memtable st ≠ []) as Hne by (intros E; by apply Hempty in E).
  eapply wp_step; [eapply take_memtable_spec; [exact Hh|apply Hi]|].
  intros taken [e1 k1 faults1] (-> & Hh1 & Hlog1 & _ & seg & Ew1 & Ed1). cbn in Ew1, Ed1. subst e1 k1. cbn [fst].
  destruct (seg_docs_seal _ _ _ _ (eo_memtable _ _ _ He)) as (sealed & Eseal & Hsealed). rewrite Eseal. apply wp_bind. eapply wp_reckon; [done|].
  eapply wp_step; [eapply seal_and_push_spec; [exact Hh1|unfold id_room in *; cbn; lia|exact Hsealed]|].
  intros persisted w2 (b & Eb & [Hh2 [g Eg] Es Hlog Hn] & Hcap2). cbn in Hh2, Eg, Es, Hn.
  destruct (lo_wal _ _ _ _ (iv_log _ _ _ _ _ _ _ Hi)) as (wl & Ewl & _). rewrite (wal_last_seq_some _ _ Ewl) in *.
  assert (inv w2 (mkState (st_segments st ++ [st_memtable st]) []) docss log cut doubt) as Hi2.
  { split; [|done]. split; [done|by eapply log_ok_same|]. destruct Hlog. cbn in *.
    eapply (in_step_flushed w); [apply Hi|done|apply Hi|done|exact Ewl|congruence|done|done|done|done|exact Eg]. }
  assert (length (en_segments (wo_engine w2)) = S (length (en_segments (wo_engine w)))) as El by (rewrite Es, length_app; cbn; lia).
  eapply wp_mono; [eapply flush_pushed_spec; [exact Hi2|done| | |apply Hh]|].
  - eapply merge_room_exact; [|exact Hmerge]. rewrite Es, !fmap_app. cbn. by rewrite Eb, (seal_exact _ _ Eseal).
  - unfold id_room in *. lia.
  - intros [] w3 (cut' & Hs & Hc). exists cut'. split; [|done]. by rewrite live_flushed in Hs.
Qed.

(** ** Rewriting the segments with deletions *)

(** The loop has gone from [w0] to [w]: [out] are the slots it has put out, [rest]
    those it has still to visit, [files] the files it has replaced. *)
Record resealing w0 w st docss (out rest : list (Slot B)) (files : list N) : Prop := {
  rs_frame : frame w0 w;
  rs_log : same_log w0 w;
  rs_next : en_next_seg_id (wo_engine w) + N.of_nat (length rest) ≤ en_next_seg_id (wo_engine w0) + N.of_nat (length (en_segments (wo_engine w0)));
  rs_length : (length out + length rest ≤ length (en_segments (wo_engine w0)))%nat;
  rs_same : en_segments (wo_engine w) = en_segments (wo_engine w0) ∧ en_generations (wo_engine w) = en_generations (wo_engine w0);
  rs_holds : holds_docs w st docss;
  rs_ok : slots_ok norm w (out ++ rest);
  rs_live : live_docs (mjoin (sl_docs <$> out ++ rest)) = live_docs (mjoin (st_segments st));
  rs_old file : file ∈ omap slot_file rest → file < en_next_seg_id (wo_engine w0);
  rs_files : Forall (λ file, file < en_next_seg_id (wo_engine w0) ∧ (file ∉ omap slot_file (out ++ rest))) files;
}.

Definition retired (s : Slot B) : list N := match slot_file s with Some file => [file] | None => [] end.

Lemma retired_file s file : file ∈ retired s → slot_file s = Some file.
Proof. unfold retired. destruct (slot_file s); [by intros ->%list_elem_of_singleton|by intros ?%not_elem_of_nil]. Qed.

(** One turn of the loop: the slot [s] is replaced by the slots [new]. *)
Lemma resealing_step w0 w w1 st docss out s rest files new extra :
  resealing w0 w st docss out (s :: rest) files → frame w w1 → same_log w w1 → en_next_seg_id (wo_engine w1) ≤ en_next_seg_id (wo_engine w) + 1 →
  en_segments (wo_engine w1) = en_segments (wo_engine w) → en_generations (wo_engine w1) = en_generations (wo_engine w) → holds_docs w1 st docss →
  slots_ok norm w1 (out ++ new ++ rest) → (length new ≤ 1)%nat → live_docs (mjoin (sl_docs <$> new)) = live_docs (sl_docs s) →
  extra = [] ∧ new = [s] ∨ extra = retired s ∧ (∀ file, file ∈ omap slot_file new → en_next_seg_id (wo_engine w) ≤ file) →
  resealing w0 w1 st docss (out ++ new) rest (files ++ extra).
Proof.
  intros [Hfr Hlog Hn Hlen [Es Eg] Hh Hok Hl Hold Hf] Hfr1 Hlog1 Hn1 Es1 Eg1 Hh1 Hok1 Hone Hl1 Hor. pose proof (fr_next _ _ Hfr) as Hle. split.
  - by etrans.
  - by etrans.
  - cbn [length] in Hn. lia.
  - rewrite length_app. cbn [length] in Hlen. lia.
  - split; congruence.
  - done.
  - by rewrite <-app_assoc.
  - rewrite <-Hl, <-app_assoc, !fmap_app, !join_app, !live_docs_app, Hl1. cbn. by rewrite live_docs_app.
  - intros file Hin. apply Hold. cbn. destruct (slot_file s); [by right|done].
  - rewrite <-app_assoc, Forall_app. destruct Hor as [[-> ->]|[-> Hnew]]; [by split|].
    assert (∀ file, file < en_next_seg_id (wo_engine w0) → (file ∉ omap slot_file (out ++ rest)) → file ∉ omap slot_file (out ++ new ++ rest)) as Hnot.
    { intros file Hlt Hno. rewrite !omap_app, !elem_of_app in *. intros [?|[Hin|?]]; [tauto| |tauto]. specialize (Hnew file Hin). lia. }
    assert (slots_ok norm w ([s] ++ out ++ rest)) as Hok2 by by apply slots_ok_swap.
    split; (apply (Forall_impl (λ file, file < en_next_seg_id (wo_engine w0) ∧ (file ∉ omap slot_file (out ++ rest))));
      [|intros file [Hlt Hno]; split; [exact Hlt|by apply Hnot]]).
    + eapply Forall_impl; [exact Hf|]. intros file [Hlt Hno]. split; [done|]. rewrite !omap_app, !elem_of_app in *. cbn in Hno.
      destruct (slot_file s); [rewrite elem_of_cons in Hno|]; tauto.
    + apply Forall_forall. intros file Hin%retired_file. split.
      * apply Hold. cbn. rewrite Hin. by left.
      * destruct Hok2 as [_ _ Hnd]. rewrite omap_app in Hnd. apply NoDup_app in Hnd as (_ & Hnd & _). apply Hnd. cbn. rewrite Hin. by left.
Qed.

Lemma reseal_loop_spec rest w0 w st docss out files index gens :
  resealing w0 w st docss out rest files → drop index gens = sl_generation <$> rest → merge_room (base_seg <$> (sl_base <$> rest)) →
  id_room w0 (length (en_segments (wo_engine w0))) →
  wp (reseal_loop (sl_base <$> rest) index gens (sl_base <$> out) (sl_generation <$> out) files)
    (λ r w', ∃ out' files', r = (sl_base <$> out', sl_generation <$> out', files') ∧ resealing w0 w' st docss out' [] files') w.
Proof.
  intros Hrs Hgen Hroom Hids. revert w out files index Hrs Hgen Hroom. induction rest as [|s rest IH]; intros w out files index Hrs Hgen Hroom.
  { cbn. wp_go. by exists out, files. }
  assert (gens !! index = Some (sl_generation s) ∧ drop (S index) gens = sl_generation <$> rest) as [Eg Hgen'].
  { rewrite fmap_cons in Hgen. split; [|by rewrite <-Nat.add_1_r, <-drop_drop, Hgen].
    rewrite <-(take_drop index gens), Hgen. rewrite lookup_app_r; rewrite length_take; [|lia].
    assert (index < length gens)%nat by (apply (f_equal length) in Hgen; rewrite length_drop in Hgen; cbn in Hgen; lia).
    rewrite Nat.min_l by lia. by rewrite Nat.sub_diag. }
  assert (merge_room (base_seg <$> (sl_base <$> rest)) ∧ merge_room [base_seg (sl_base s)]) as [Hroom' Hroom1].
  { split; (eapply merge_room_sublist; [|exact Hroom]); cbn; [by apply sublist_cons|]. apply sublist_skip, sublist_nil_l. }
  pose proof (rs_ok _ _ _ _ _ _ _ Hrs) as Hok. assert (slot_ok norm w s) as Hs.
  { destruct Hok as [Heach _ _]. apply Forall_app in Heach as [_ Heach]. by apply Forall_inv in Heach. }
  assert (∀ w1, grew 1 w w1 → resealing w0 w1 st docss (out ++ [s]) rest files) as Hkeep.
  { intros w1 Hg. rewrite <-(app_nil_r files). pose proof (grew_next _ _ _ Hg) as Hn.
    eapply (resealing_step _ w); [exact Hrs|by eapply frame_grew|by eapply same_log_grew|lia| | |eapply holds_docs_grew; [exact Hg|apply Hrs]| |done|cbn; by rewrite app_nil_r|by left].
    - by destruct Hg as (? & _ & [] & _).
    - by destruct Hg as (? & _ & [] & _).
    - eapply slots_ok_frame; [by eapply frame_grew|exact Hok]. }
  rewrite fmap_cons. cbn [reseal_loop]. rewrite Eg. wp_go. destruct (base_is_clean (sl_base s)).
  { specialize (IH w (out ++ [s]) files (S index)). rewrite !fmap_app in IH. apply IH; [|done|done]. apply Hkeep, grew_calm. done. }
  destruct (seg_docs_compact (en_dict (wo_engine w)) (en_tag_dict (wo_engine w)) [base_seg (sl_base s)] [sl_docs s]) as (clean & Ec & Hclean);
    [constructor; [apply Hs|done]|done|]. rewrite Ec. apply wp_bind. eapply wp_reckon; [done|]. cbn in Hclean. rewrite app_nil_r in Hclean.
  change (match base_file (sl_base s) with Some file => [file] | None => [] end) with (retired s).
  destruct (seg_is_empty clean) eqn:Ee.
  { apply (seg_docs_empty _ _ _ _ Hclean) in Ee. specialize (IH w out (files ++ retired s) (S index)). apply IH; [|done|done].
    rewrite <-(app_nil_r out). eapply (resealing_step _ w); [exact Hrs|done|done|lia|done|done|apply Hrs| |cbn; lia|cbn; by rewrite Ee|right; split; [done|by intros ? ?%not_elem_of_nil]].
    eapply slots_ok_sublist; [|exact Hok]. apply sublist_app; [done|]. by apply sublist_cons. }
  assert (id_room w 1) as Hr1 by (pose proof (rs_next _ _ _ _ _ _ _ Hrs); unfold id_room in *; cbn in *; lia).
  eapply wp_step; [eapply build_durable_base_spec; [apply (rs_holds _ _ _ _ _ _ _ Hrs)|done|exact Hclean]|].
  intros [[b path]|] w1 [Hg Hb].
  - destruct Hb as [Hsl _]. unfold fresh_segment_generation. wp_go.
    specialize (IH (tokened w1) (out ++ [new_slot w1 b (live_docs (sl_docs s))]) (files ++ retired s) (S index)). rewrite !fmap_app in IH. apply IH; [|done|done].
    pose proof (grew_next _ _ _ Hg) as Hn.
    eapply (resealing_step _ w); [exact Hrs|etrans; [by eapply frame_grew|apply frame_tokened]|etrans; [by eapply same_log_grew|done]|cbn; lia
      |by destruct Hg as (? & _ & [] & _)|by destruct Hg as (? & _ & [] & _)|eapply holds_docs_tokened, holds_docs_grew; [exact Hg|apply Hrs]
      |by eapply (slots_ok_placed norm 1 w w1 out [s])|done|cbn; by rewrite app_nil_r, live_docs_idemp|right; split; [done|by intros file; eapply new_slot_file]].
  - specialize (IH w1 (out ++ [s]) files (S index)). rewrite !fmap_app in IH. apply IH; [by apply Hkeep|done|done].
Qed.

Lemma resealed_files_gone n w0 w1 w3 w4 st st2 docss log cut out files file :
  resealing w0 w1 st docss out [] files → placed norm w0 w3 st st2 docss log cut [] out [] →
  commit_result norm n w3 w4 st2 docss log cut true → file ∈ files →
  (file ∉ omap base_file (en_segments (wo_engine w4))) ∧ (file ∉ manifest_files (wo_disk w4)).
Proof.
  intros Hrs Hpl Hres Hin. inversion Hres as [Hp _ _ Em _ _ _ Hi| |].
  destruct (slots_persisted _ _ _ _ _ _ _ (pl_laid _ _ _ _ _ _ _ _ _ _ _ Hpl) Hp (iv_docs _ _ _ _ _ _ _ Hi)) as (slots' & Hl & _ & Hsame).
  pose proof (rs_files _ _ _ _ _ _ _ Hrs) as Hf. rewrite Forall_forall in Hf. destruct (Hf file Hin) as [Hlt Hno].
  rewrite Em, (la_segments _ _ _ Hl), <-omap_slot_file. assert (file ∉ omap slot_file slots') as Hgone; [|done].
  intros Hin'. destruct (same_slots_files _ _ _ _ Hsame Hin') as [?|?]; [done|]. pose proof (fr_next _ _ (pl_frame _ _ _ _ _ _ _ _ _ _ _ Hpl)). lia.
Qed.

Lemma resealing_start w st docss slots :
  holds_docs w st docss → laid w slots (st_segments st) → slots_ok norm w slots → resealing w w st docss [] slots [].
Proof.
  intros Hh [Es Eg Ed] Hok. split; try done.
  - rewrite Es, length_fmap. lia.
  - rewrite Es, length_fmap. cbn. lia.
  - cbn. by rewrite Ed.
  - intros file. by eapply slot_files_below.
Qed.

Lemma reseal_spec w st docss log cut doubt :
  inv w st docss log cut doubt → capacity (2 * length (en_segments (wo_engine w))) w →
  wp reseal_tombstoned_segments (λ _ w', serving w' (live st) doubt cut) w.
Proof.
  intros Hi [Hmerge Hids]. pose proof (iv_docs _ _ _ _ _ _ _ Hi) as Hh. unfold reseal_tombstoned_segments. wp_go.
  destruct (forallb _ _); [wp_go; by exists st, docss, log|]. destruct (slots_of _ _ _ _ Hh) as (slots & Hl & Hok). pose proof Hl as [Es Eg Ed].
  pose proof (reseal_loop_spec slots w w st docss [] [] 0 (en_generations (wo_engine w)) (resealing_start _ _ _ _ Hh Hl Hok)) as Hloop.
  rewrite <-Es, <-Eg in Hloop. specialize (Hloop eq_refl Hmerge). eapply wp_step; [apply Hloop; unfold id_room in *; lia|].
  intros r w1 (out & files & -> & Hrs). cbn [fst snd]. apply wp_bind, wp_assigning. apply wp_bind, wp_refresh.
  set (w3 := refreshed _). assert (capable (wo_engine w3)) as Hcap by apply capable_refreshed. assert (placed norm w w3 st (mkState (sl_docs <$> [] ++ out ++ []) (st_memtable st)) docss log cut [] out []) as Hpl.
  { apply placed_refreshed. pose proof (place_slots norm w w1 st docss log cut doubt [] out []) as Hpl.
    assert (relaid ([] ++ out ++ []) w1 = relaid out w1) as E by (cbn; by rewrite app_nil_r). rewrite E in Hpl. apply Hpl; [apply Hi|apply Hrs..]. }
  pose proof Hpl as [Hh3 Hl3 Hok3 Hfr3 Hsl3 Hlog3 Hmem3 Hlk3].
  assert (live (mkState (sl_docs <$> [] ++ out ++ []) (st_memtable st)) = live st) as Hlive.
  { pose proof (rs_live _ _ _ _ _ _ _ Hrs) as E. unfold live, all_docs. cbn [st_segments st_memtable app]. by rewrite !live_docs_app, E. }
  eapply wp_step; [eapply commit_current_spec; [exact Hh3|]|].
  { pose proof (rs_next _ _ _ _ _ _ _ Hrs) as Hn. assert (en_next_seg_id (wo_engine w3) = en_next_seg_id (wo_engine w1)) as En by done.
    pose proof (rs_length _ _ _ _ _ _ _ Hrs) as Hlen. unfold id_room in *. rewrite En, (la_segments _ _ _ Hl3), length_fmap, app_nil_r. cbn [app length] in *. lia. }
  intros ok w4 Ho. apply (outcome_result _ _ _ _ _ _ log cut) in Ho; [|done..]. destruct ok.
  - inversion Ho as [Hp Hsync _ _ _ _ _ Hi4| |]. rewrite (sl_on_disk _ _ Hsl3) in Hsync.
    destruct (synced_mem _ _ _ _ _ _ (iv_step _ _ _ _ _ _ _ Hi) Hsync) as [-> _].
    eapply wp_mono; [eapply cleanup_spec; [split; [exact Hi4|by eapply capable_persisted]|intros file; by eapply resealed_files_gone]|]. intros [] w5 Hi5. rewrite <-Hlive. by eexists _, _, _.
  - rewrite <-(app_nil_r slots) in Hl, Hok.
    destruct (rolled_back norm w w3 w4 _ st _ docss log cut doubt [] slots out [] [] Hi Hl Hok Hl3 Hok3 Hfr3 Hsl3 Hmem3 ltac:(by rewrite Hlive, app_nil_r) Ho) as
      (before' & new' & after' & docss' & doubt' & [Hl4 Hb Hn Ha _ _ _ _ _ _] & Hi4 & Hd & _).
    apply nil_length_inv in Hb as ->. apply nil_length_inv in Ha as ->. cbn in Hi4. rewrite app_nil_r in Hi4. unfold relaid in Hi4. rewrite <-Es, <-Eg in Hi4.
    assert (doubt' = doubt) as -> by (destruct Hd as [->|[-> ->]]; done).
    apply wp_bind, wp_assigning. apply wp_refresh. exists st, docss', log. split; [by apply consistent_refreshed|done].
Qed.

End housekeeping.
