(* ===== verification/Writes.v ===== *)
(** * Live writes and deletes

    An acknowledged insert, upsert or delete has its effect on the live documents,
    and a restart would serve that effect too; a write that is rejected or fails
    leaves the documents alone.  The disk may fail at any step. *)

From S2P Require Import Prelude Util Text Utf8 Dsl Dictionary FramedLog Wal Sources Index Phrase Automaton Normalize Analyze Compile Plan Extract.
From S2P Require Import View Ownership Tags Store Segment Merge Recompile Engine Compaction Ingest Open EngineLogic Documents Durable Replay Layout Housekeeping.

(** ** Entries of the log *)

(** Where the entry falls when [n] segments are committed. *)
Definition falls (n : nat) (docss : list (list Doc)) (x : WalEntry) : Prop :=
  match x with
  | WalTombstone _ seg_idx _ => if seg_idx =? umax 32 then drop n docss = [] else (usize seg_idx < n)%nat
  | WalFlushCheckpoint _ _ => False
  | _ => True
  end.

Lemma take_alter_lt {X} (f : X → X) l n i : (i < n)%nat → take n (alter f i l) = alter f i (take n l).
Proof.
  revert n i. induction l as [|x l IH]; intros [|n] [|i] Hi; try lia; try done. cbn. f_equal. apply IH. lia.
Qed.

Lemma falls_take n docss x : falls n docss x → take n (seg_effect x docss) = seg_effect x (take n docss).
Proof.
  destruct x as [p|seq i local|seq logical|p|]; simpl; try done; intros Hf; rewrite ?fmap_take; try done.
  destruct (_ =? _); [done|]. by rewrite take_alter_lt.
Qed.

Lemma falls_tail n docss mem x :
  falls n docss x → mjoin (drop n (seg_effect x docss)) ++ mem_effect x mem = mem_effect x (mjoin (drop n docss) ++ mem).
Proof.
  destruct x as [p|seq i local|seq logical|p|]; simpl; intros Hf; rewrite <-?fmap_drop, ?kill_logical_join, ?kill_logical_app, <-?app_assoc; try done.
  destruct (_ =? _); [by rewrite Hf|]. by rewrite drop_alter, decide_False by lia.
Qed.

Section writes.
Context {A B : Type} `{DaachorseLaws A} `{RoaringLaws B} (norm : Normalizer A) (patterns : list rstring) (Hnorm : norm_wf norm patterns).
Implicit Types (w : World A B) (st : State) (b : BaseSegment B).

#[local] Instance norm_analyzer_writes : Analyzer := normalizer_analyzer norm.
#[local] Instance norm_laws_writes : AnalyzerLaws := normalizer_laws norm patterns Hnorm.
#[local] Abbreviation holds_docs := (holds_docs norm).
#[local] Abbreviation inv := (inv norm).
#[local] Abbreviation consistent := (consistent norm).
#[local] Abbreviation serving := (serving norm).

(** The entry has its effect on the documents served and on those a restart would
    serve. *)
Lemma linked_appended n w w' st st' docss log x :
  linked n w st docss log None → en_sealed_through (wo_engine w') = en_sealed_through (wo_engine w) →
  en_committed_generations (wo_engine w') = en_committed_generations (wo_engine w) →
  en_generations (wo_engine w') = en_generations (wo_engine w) → dk_manifest (wo_disk w') = dk_manifest (wo_disk w) →
  sealed_of (wo_engine w) < entry_seq x → manifest_sealed (wo_disk w) < entry_seq x → manifest_watermark (wo_disk w) < entry_seq x →
  falls n (st_segments st) x → st_segments st' = seg_effect x (st_segments st) → st_memtable st' = mem_effect x (st_memtable st) →
  linked n w' st' docss (log ++ [x]) None.
Proof.
  intros [Hg Hs Ht Hm _] Es Ec Eg Em Hx1 Hx2 Hx3 Hf E1 E2.
  assert (is_checkpoint x = false) as Hck by by destruct x.
  assert (recovered (wo_disk w') docss (log ++ [x]) = replay_step (manifest_sealed (wo_disk w)) (manifest_watermark (wo_disk w)) (recovered (wo_disk w) docss log) x) as Er.
  { unfold recovered. rewrite after_checkpoint_snoc, Hck, replayed_snoc. unfold manifest_sealed, manifest_watermark. by rewrite Em. }
  unfold replay_step in Er. rewrite (proj2 (N.leb_gt _ _)), (proj2 (N.ltb_lt _ _)) in Er by done.
  split; rewrite ?Er, ?Eg, ?Ec, ?E1, ?E2; cbn [st_segments st_memtable]; try done.
  - by rewrite falls_take, Hs.
  - by rewrite falls_tail, Ht.
  - rewrite after_checkpoint_snoc, Hck. unfold sealed_of in *. rewrite Es, Hm. unfold replayed_mem. rewrite replayed_snoc.
    unfold replay_step. by rewrite (proj2 (N.leb_gt _ _)).
Qed.

(** ** What a write leaves *)

(** The failed write is in the log, perhaps with all its bytes. *)
Definition cut_short (P : WalEntry → Prop) (cut cut' : option (WalEntry * nat)) : Prop :=
  cut' = cut ∨ ∃ x reached, cut' = Some (x, reached) ∧ P x.

Lemma cut_short_mono (P Q : WalEntry → Prop) cut cut' : (∀ x, P x → Q x) → cut_short P cut cut' → cut_short Q cut cut'.
Proof. intros HPQ [?|(x & reached & ? & ?)]; [by left|right]. exists x, reached. auto. Qed.

Lemma in_step_refused w wl wl' w' st docss log cut cut' doubt entry :
  in_step w st docss log cut doubt → en_wal (wo_engine w) = Some wl → logged w wl' w' →
  (is_Some (la_refusal (wal_file wl)) → is_Some (la_refusal (wal_file wl'))) → is_checkpoint entry = false →
  (cut' = cut ∨ la_refusal (wal_file wl) = None ∧ ∃ reached, cut' = Some (entry, reached)) → in_step w' st docss log cut' doubt.
Proof.
  intros Hstep Ew [Ee Ed] Href Hck Hor. destruct Hstep as [([Hc Hcl] & Hl & Hk)|(Hsync & -> & n & Hlk)].
  - destruct Hor as [->|(Hno & _)]; [|destruct (Hcl wl Ew) as [? E]; by rewrite Hno in E].
    left. rewrite Ed. split_and!; [split; rewrite Ee; cbn; [done|]|done|done]. intros wl1 [= <-]. by apply Href, Hcl.
  - right. rewrite Ee. split_and!; [done|done|]. exists n. apply (linked_logged _ w wl' w') in Hlk; [|done].
    destruct Hor as [->|(_ & reached & ->)]; [done|]. eapply linked_cut; [exact Hlk|]. intros x r [= <- _] Hx. congruence.
Qed.

(** ** Compiling *)

Lemma dict_ok_compiled ast d ex d' : dict_ok d → compiles ast d ex d' → dict_ok d'.
Proof.
  intros [] []. split; [done|done|congruence|]. intros Hf f. rewrite cm_finalized in Hf. specialize (do_cold Hf f). unfold is_hot in *. by rewrite cm_mask.
Qed.

Lemma grown_compiled ast d ex d' td : compiles ast d ex d' → grown d d' td td.
Proof. intros []. split; [done|done| |done]. intros f _. apply cm_mask. Qed.

(** The dictionaries have grown. *)
Definition widened (d : Dict) (td : TagDict) w : World A B :=
  mkWorld (with_tag_dict td (with_dict d (wo_engine w))) (wo_disk w) (wo_faults w).

Lemma holds_docs_grown w st docss d td :
  holds_docs w st docss → grown (en_dict (wo_engine w)) d (en_tag_dict (wo_engine w)) td → dict_ok d → tag_dict_wf td →
  holds_docs (widened d td w) st docss.
Proof.
  intros [Hdir Hown Hsl [] [] Hd] Hg Hdict Htd. split; try done; split; try done.
  - eapply Forall2_impl; [exact eo_segments|]. cbn. intros b docs. by apply seg_docs_mono.
  - by eapply seg_docs_mono.
  - eapply Forall2_impl; [exact fo_stored|]. intros b docs Hb file E. destruct (Hb file E) as [? Hst]. split; [done|]. by eapply stored_mono.
Qed.

Lemma inv_grown w st docss log cut doubt d td :
  inv w st docss log cut doubt → grown (en_dict (wo_engine w)) d (en_tag_dict (wo_engine w)) td → dict_ok d → tag_dict_wf td →
  inv (widened d td w) st docss log cut doubt.
Proof. intros Hi Hg Hd Ht. eapply (inv_same _ w); [done|done| |done|exact Hi]. apply holds_docs_grown; [apply Hi|done..]. Qed.

Lemma extract_into_spec w st docss ast :
  holds_docs w st docss → Forall (quoted_ok short_text) ast → compile_room ast (en_dict (wo_engine w)) →
  wp (extract_into ast) (λ ex w', ∃ d', compiles ast (en_dict (wo_engine w)) ex d' ∧
    w' = mkWorld (with_dict d' (wo_engine w)) (wo_disk w) (wo_faults w)) w.
Proof.
  intros Hh Hq Hr. destruct (hd_engine _ _ _ _ Hh). destruct eo_dict as [Hwf _ Heq _]. destruct (compiles_total ast (en_dict (wo_engine w)) Hwf Heq Hq Hr) as (ex & d' & Hc).
  unfold extract_into. wp_go. rewrite eo_norm. pose proof (cm_run _ _ _ _ Hc) as E. unfold norm_analyzer_writes in E. rewrite E. by exists d'.
Qed.

(** What the engine must have room for to compile and store a query. *)
Record put_room (e : Engine A B) (text : rstring) (tags : list (rstring * rstring)) : Prop := {
  pr_tags : tag_room (en_tag_dict e) (length tags);
  pr_query ast : parse_for_recovery text = Some (inr ast) →
    Forall (quoted_ok short_text) ast ∧ compile_room ast (en_dict e) ∧
    ∀ ex d', extract ast (en_dict e) = Some (ex, d') → store_room (en_memtable e) ex (intern_tags tags (en_tag_dict e)).1;
}.

(** The parse limits of the engine are within those of recovery. *)
Definition limits_ok (e : Engine A B) : Prop := limits_le (parse_limits (en_config e)) RECOVERY_PARSE_LIMITS.

(** The validation: an error or a rejection leaves the documents alone. *)
Lemma admit_query_spec w st docss log cut doubt text tags :
  inv w st docss log cut doubt → limits_ok (wo_engine w) → put_room (wo_engine w) text tags →
  wp (admit_query text tags) (λ r w', inv w' st docss log cut doubt ∧
    match r with
    | inr (Some (ex, class)) => ∃ ast d', parse_for_recovery text = Some (inr ast) ∧ compiles ast (en_dict (wo_engine w)) ex d' ∧
        Forall (quoted_ok short_text) ast ∧ w' = mkWorld (with_dict d' (wo_engine w)) (wo_disk w) (wo_faults w) ∧
        refused ast true = false ∧ refused ast (bool_decide (class = ClassD)) = false
    | _ => True
    end) w.
Proof.
  intros Hi Hlim [_ Hroom]. pose proof (iv_docs _ _ _ _ _ _ _ Hi) as Hh. unfold admit_query. wp_go.
  destruct (parse_limits_total text (parse_limits (en_config (wo_engine w)))) as [parsed Ep]. rewrite Ep. eapply wp_reckon; [done|].
  destruct parsed as [err|ast]; [by wp_go|]. destruct (check_tag_limit _ _); [by wp_go|]. destruct (check_wal_fields _ _ _); [by wp_go|].
  apply (parse_limits_mono _ _ _ _ Hlim) in Ep. destruct (Hroom ast Ep) as (Hq & Hc & _).
  eapply wp_step; [by eapply extract_into_spec|]. intros ex w1 (d' & Hcomp & ->).
  assert (inv (mkWorld (with_dict d' (wo_engine w)) (wo_disk w) (wo_faults w)) st docss log cut doubt) as Hi1.
  { destruct (eo_dict _ _ _ (hd_engine _ _ _ _ Hh)) as []. apply (inv_grown w st docss log cut doubt d' (en_tag_dict (wo_engine w))); [done|by eapply grown_compiled|by eapply dict_ok_compiled|apply Hh]. }
  destruct (check_column_limit ex); [by wp_go|]. wp_go.
  pose proof (cm_gate _ _ _ _ Hcomp d' (config_hot_anchor_threshold (en_config (wo_engine w)))) as Hgate. cbn.
  destruct (rejects_class_d _ ex (config_accept_class_d _)) eqn:Er.
  { eapply wp_inert; [auto with inert|]. intros [] w2 Hcalm. wp_go. split; [by eapply inv_calm|done]. }
  wp_go. split; [done|]. exists ast, d'. split_and!; [done..| |]; rewrite <-Hgate; unfold rejects_class_d in *;
    destruct (bool_decide (_ = ClassD)); destruct (config_accept_class_d _), (has_negative_predicate ex); cbn in *; done.
Qed.

(** ** Adding a document to the memtable *)

Lemma holds_docs_memtable w st docss seg docs :
  holds_docs w st docss → seg_docs (en_dict (wo_engine w)) (en_tag_dict (wo_engine w)) seg docs → unsealed seg →
  holds_docs (mkWorld (with_memtable seg (wo_engine w)) (wo_disk w) (wo_faults w)) (mkState (st_segments st) docs) docss.
Proof. intros [Hdir Hown Hsl [] [] Hd] Hs Hu. split; try done; split; done. Qed.

(** The rows of the engine changed, and nothing else that bears on the documents. *)
Record rows_changed w w' : Prop := {
  rc_log : same_log w w';
  rc_generations : en_generations (wo_engine w') = en_generations (wo_engine w);
  rc_config : en_config (wo_engine w') = en_config (wo_engine w);
  rc_next : en_next_seg_id (wo_engine w') = en_next_seg_id (wo_engine w);
  rc_exact : sg_exact <$> (base_seg <$> en_segments (wo_engine w')) = sg_exact <$> (base_seg <$> en_segments (wo_engine w));
}.

#[export] Instance rows_changed_preorder : PreOrder rows_changed.
Proof. split; [by intros w|]. intros w1 w2 w3 [] []. split; [by etrans|congruence..]. Qed.

Lemma rows_changed_calm w w' : calm w w' → rows_changed w w'.
Proof. intros Hc. pose proof (same_log_calm _ _ Hc) as Hl. destruct Hc as [[] _ _]. split; [done..|]. by rewrite sc_segments. Qed.

Lemma rows_changed_refreshed w : rows_changed w (refreshed w).
Proof. split; [apply same_log_refreshed|done..]. Qed.

Lemma rows_changed_length w w' : rows_changed w w' → length (en_segments (wo_engine w')) = length (en_segments (wo_engine w)).
Proof. intros Hr. rewrite <-!(length_fmap base_seg), <-!(length_fmap sg_exact). f_equal. apply Hr. Qed.

Lemma add_to_memtable_spec w st docss x ast ex ids version rank source knobs :
  holds_docs w st docss → parse_for_recovery (doc_text x) = Some (inr ast) → compiled_under (en_dict (wo_engine w)) ast ex →
  tags_stored (en_tag_dict (wo_engine w)) (doc_tags x) ids → store_room (en_memtable (wo_engine w)) ex ids → doc_live x = true →
  keep_visible knobs = false → refused ast (accept_class_d knobs) = false →
  wp (add_to_memtable ex ids (doc_logical x) version rank placement_standalone source knobs)
    (λ r w', ∃ a seg, r = Some a ∧ w' = mkWorld (with_memtable seg (wo_engine w)) (wo_disk w) (wo_faults w) ∧
       holds_docs w' (mkState (st_segments st) (st_memtable st ++ [x])) docss ∧
       add_compiled ex ids (en_dict (wo_engine w)) (doc_logical x) version rank placement_standalone source knobs (en_memtable (wo_engine w)) = Some (Some a, seg)) w.
Proof.
  intros Hh Hp Hc Ht Hr Hl Hk Hre. pose proof (hd_engine _ _ _ _ Hh) as []. unfold add_to_memtable. wp_go.
  pose proof (seg_docs_add (en_dict (wo_engine w)) (en_tag_dict (wo_engine w)) (en_memtable (wo_engine w)) (st_memtable st) x ast ex ids version rank source knobs)
    as Hadd. cbv zeta in Hadd. rewrite Hre in Hadd. destruct Hadd as (a & seg & E & Hu & Hs & _); [done|apply eo_dict|done..|].
  rewrite E. eapply wp_reckon; [done|]. wp_go. exists a, seg. split_and!; [done|done| |done]. by apply holds_docs_memtable.
Qed.

Lemma intern_tags_into_spec w st docss tags :
  holds_docs w st docss → tag_room (en_tag_dict (wo_engine w)) (length tags) →
  wp (intern_tags_into tags) (λ ids w', ids = (intern_tags tags (en_tag_dict (wo_engine w))).1 ∧
    w' = widened (en_dict (wo_engine w)) (intern_tags tags (en_tag_dict (wo_engine w))).2 w ∧
    holds_docs w' st docss ∧ tags_stored (en_tag_dict (wo_engine w')) tags ids) w.
Proof.
  intros Hh Hr. pose proof (hd_engine _ _ _ _ Hh) as []. destruct (intern_tags_stored tags _ eo_tags Hr) as (Hwf & Hext & Hst & _).
  unfold intern_tags_into. wp_go. destruct (intern_tags tags (en_tag_dict (wo_engine w))) as [ids td]. wp_go. cbn in *.
  split_and!; [done|by destruct w as [[] ? ?]| |done].
  assert (mkWorld (with_tag_dict td (wo_engine w)) (wo_disk w) (wo_faults w) = widened (en_dict (wo_engine w)) td w) as -> by by destruct w as [[] ? ?].
  apply holds_docs_grown; [done| |done|done]. split; [apply eo_dict|done|done|done].
Qed.

(** ** Logging *)

(** The entry [x] has been logged and not yet applied. *)
Record appended w w' st docss log (x : WalEntry) : Prop := {
  ad_linked : ∃ n, linked n w st docss log None;
  ad_synced : en_manifest_on_disk (wo_engine w) = Synced;
  ad_sealed : sealed_of (wo_engine w) < entry_seq x;
  ad_manifest_sealed : manifest_sealed (wo_disk w) < entry_seq x;
  ad_watermark : manifest_watermark (wo_disk w) < entry_seq x;
  ad_log : log_ok norm w' (log ++ [x]) None;
  ad_holds : holds_docs w' st docss;
  ad_logged : ∃ wl, logged w wl w';
}.

Lemma appended_inv w w1 w2 st st2 docss log x :
  appended w w1 st docss log x → rows_changed w1 w2 → holds_docs w2 st2 docss →
  st_segments st2 = seg_effect x (st_segments st) → st_memtable st2 = mem_effect x (st_memtable st) →
  (∀ n, linked n w st docss log None → falls n (st_segments st) x) → capable (wo_engine w2) → inv w2 st2 docss (log ++ [x]) None [].
Proof.
  intros [[n Hl] Hs H1' H2' H3' Hlog _ [wl [Ee Ed]]] [Hsl Hg _ _ _] Hh E1 E2 Hf Hc. split; [|done]. split; [done|by eapply log_ok_same|]. right.
  rewrite (sl_on_disk _ _ Hsl), Ee. split_and!; [done|done|]. exists n.
  eapply (linked_appended _ w); [exact Hl|..|by apply Hf|done|done]; try done; rewrite ?(sl_sealed _ _ Hsl), ?(sl_committed _ _ Hsl), ?Hg, ?(sl_manifest _ _ Hsl), ?Ee, ?Ed; done.
Qed.

Lemma log_mutation_spec w st docss log cut doubt op :
  inv w st docss log cut doubt → op_ok op → op_accepted norm op → (∀ seq, is_checkpoint (entry_of op seq) = false) →
  wp (log_mutation op) (λ err w',
    match err with
    | None => cut = None ∧ doubt = [] ∧ ∃ seq, appended w w' st docss log (entry_of op seq)
    | Some _ => ∃ cut', inv w' st docss log cut' doubt ∧ cut_short (λ x, ∃ seq, x = entry_of op seq) cut cut'
    end) w.
Proof.
  intros [[Hh Hlog Hstep] Hcap] Hop Hacc Hck. destruct (lo_wal _ _ _ _ Hlog) as (wl & Ew & _). unfold log_mutation.
  eapply wp_step; [by eapply append_wal_spec|]. intros err w1 (wl1 & Hlg & Hres). destruct err as [err|].
  - destruct Hres as (cut' & Hlog' & Href & Hor). wp_go. exists cut'. split.
    + eapply (inv_calm _ w1); [by split|]. split; [|by eapply capable_logged]. split; [by eapply holds_docs_logged|done|]. eapply in_step_refused; [exact Hstep|done|done|done|by apply (Hck (next_seq wl))|done].
    + destruct Hor as [->|(_ & reached & ->)]; [by left|right]. eexists _, _. split; [done|by eexists].
  - destruct Hres as (Hlog' & -> & Hno & Hb1 & Hb2 & Hb3). wp_go. split; [done|]. destruct Hstep as [([Hc Hcl] & _)|(Hsync & -> & Hn)].
    + destruct (Hcl wl Ew) as [? E]. by rewrite Hno in E.
    + split; [done|]. exists (next_seq wl). split; rewrite ?entry_of_seq; try done; [by eapply holds_docs_logged|by exists wl1].
Qed.

Lemma allocate_spec w st docss :
  holds_docs w st docss →
  wp allocate_source_generation (λ g w', g = N.max (en_next_source_generation (wo_engine w)) 1 ∧ fits 64 g ∧ g ≠ 0 ∧ holds_docs w' st docss ∧
    ∃ next, wo_engine w' = with_next_source_generation next (wo_engine w) ∧ wo_disk w' = wo_disk w) w.
Proof.
  intros [Hdir Hown Hsl [] [] Hd]. unfold allocate_source_generation. wp_go.
  assert (fits 64 (N.max (en_next_source_generation (wo_engine w)) 1)) as Hf.
  { unfold fits in *. change (2 ^ 64) with 18446744073709551616 in *. lia. }
  split_and!; [done|done|lia| |by eexists]. split; try done; split; try done. cbn. unfold fits in *. unfold wrap.
  assert (((N.max (en_next_source_generation (wo_engine w)) 1 + 1) mod 2 ^ 64) < 2 ^ 64) by by apply N.mod_lt.
  change (2 ^ 64) with 18446744073709551616 in *. lia.
Qed.

(** The arguments are of the types of the interface: [u64], [u32], [str], [i64]. *)
Record request_ok (text : rstring) (logical version : N) (tags : list (rstring * rstring)) (rank : option Z) : Prop := {
  rq_logical : fits 64 logical;
  rq_version : fits 32 version;
  rq_text : rstring_ok text;
  rq_tags : Forall (λ kv : rstring * rstring, rstring_ok kv.1 ∧ rstring_ok kv.2) tags;
  rq_rank z : rank = Some z → (- 2 ^ 63 ≤ z < 2 ^ 63)%Z;
}.

Lemma wal_put_ok text logical version tags rank source class :
  request_ok text logical version tags rank → fits 64 source → put_ok (wal_put logical version text tags rank source class).
Proof. intros [] Hs. split_and!; try done. by intros g [= <-]. Qed.

(** ** Inserts *)

(** What a write leaves: its effect, or the documents as they were. *)
Definition write_result w (ok : bool) (P : WalEntry → Prop) (l l' doubt : list Doc) cut : Prop :=
  if ok then cut = None ∧ doubt = [] ∧ ∃ cut', serving w l' [] cut' ∧ calmer None cut'
  else ∃ cut', serving w l doubt cut' ∧ cut_short P cut cut'.

Lemma maybe_flush_spec w st docss log cut doubt :
  inv w st docss log cut doubt → flush_room w → wp maybe_flush (λ _ w', ∃ cut', serving w' (live st) doubt cut' ∧ calmer cut cut') w.
Proof.
  intros Hi Hr. unfold maybe_flush. wp_go. destruct (_ <=? _)%nat; [by eapply flush_spec|]. wp_go. exists cut. split; [by exists st, docss, log|done].
Qed.

(** Room for the query, and for the flush that storing it may start. *)
Record write_room w text logical version tags rank : Prop := {
  wr_put : put_room (wo_engine w) text tags;
  wr_merge ast ex d' a seg : parse_for_recovery text = Some (inr ast) → extract ast (en_dict (wo_engine w)) = Some (ex, d') →
    add_compiled ex (intern_tags tags (en_tag_dict (wo_engine w))).1 d' logical version
      (default (legacy_rank_values (intern_tags tags (en_tag_dict (wo_engine w))).2 (intern_tags tags (en_tag_dict (wo_engine w))).1) rank)
      placement_standalone (N.max (en_next_source_generation (wo_engine w)) 1) (knobs_accepting true (en_config (wo_engine w)))
      (en_memtable (wo_engine w)) = Some (a, seg) →
    merge_room ((base_seg <$> en_segments (wo_engine w)) ++ [seg]);
  wr_ids : id_room w (2 * length (en_segments (wo_engine w)) + 6);
}.

Lemma live_put segs mem x : doc_live x = true → live (mkState segs (mem ++ [x])) = live (mkState segs mem) ++ [x].
Proof.
  intros Hx. unfold live, all_docs. cbn. rewrite app_assoc, live_docs_app. f_equal. unfold live_docs. by rewrite filter_cons, decide_True by done.
Qed.

(** Storing a compiled query: its tags and its row. *)
Lemma store_doc_spec {X} w st docss x ast ex version rank source accept (k : option AddedCompiled → Eng A B X) Q :
  holds_docs w st docss → parse_for_recovery (doc_text x) = Some (inr ast) → compiled_under (en_dict (wo_engine w)) ast ex →
  tag_room (en_tag_dict (wo_engine w)) (length (doc_tags x)) →
  store_room (en_memtable (wo_engine w)) ex (intern_tags (doc_tags x) (en_tag_dict (wo_engine w))).1 → doc_live x = true → refused ast accept = false →
  (∀ a w', rows_changed w w' → holds_docs w' (mkState (st_segments st) (st_memtable st ++ [x])) docss → en_segments (wo_engine w') = en_segments (wo_engine w) →
     add_compiled ex (intern_tags (doc_tags x) (en_tag_dict (wo_engine w))).1 (en_dict (wo_engine w)) (doc_logical x) version
       (default (legacy_rank_values (intern_tags (doc_tags x) (en_tag_dict (wo_engine w))).2 (intern_tags (doc_tags x) (en_tag_dict (wo_engine w))).1) rank)
       placement_standalone source (knobs_accepting accept (en_config (wo_engine w))) (en_memtable (wo_engine w)) = Some (Some a, en_memtable (wo_engine w')) →
     wp (k (Some a)) Q w') →
  wp (let& ids := intern_tags_into (doc_tags x) in
      let& e := this in
      let& added := add_to_memtable ex ids (doc_logical x) version (default (legacy_rank_values (en_tag_dict e) ids) rank)
                      placement_standalone source (knobs_accepting accept (en_config e)) in
      k added) Q w.
Proof.
  intros Hh Hp Hc Ht Hr Hl Href Hk. eapply wp_step; [by eapply intern_tags_into_spec|]. intros ids w1 (-> & -> & Hh1 & Hst). wp_go.
  eapply wp_mono; [eapply add_to_memtable_spec; [exact Hh1|exact Hp|exact Hc|exact Hst|exact Hr|done|done|done]|].
  intros added w2 (a & seg & -> & -> & Hh2 & Eadd). by apply Hk.
Qed.

(** Validation, a source generation and the log entry of an insert or an upsert. *)
Definition put_entry (upsert : bool) (p : WalPut) : WalEntry := if upsert then WalUpsert p else WalInsert p.
Definition append_of (upsert : bool) (p : WalPut) : WalOp := if upsert then AppendUpsert p else AppendInsert p.

Definition put_of (upsert : bool) (x : Doc) (entry : WalEntry) : Prop := ∃ p, entry = put_entry upsert p ∧ doc_of p = x.

Lemma put_logged_spec {X} (upsert : bool) (invalid : ParseError → X) (rejected : X) (failed : LogError → X) (k : Extracted → N → Eng A B X) Q
  w st docss log cut doubt text logical version tags rank :
  inv w st docss log cut doubt → limits_ok (wo_engine w) → request_ok text logical version tags rank → put_room (wo_engine w) text tags →
  (∀ x w' cut', x = rejected ∨ (∃ err, x = invalid err) ∨ (∃ err, x = failed err) → serving w' (live st) doubt cut' →
     cut_short (put_of upsert (mkDoc logical text tags true)) cut cut' → Q x w') →
  (∀ ast ex d' w2 w3 entry next wl, cut = None → doubt = [] → parse_for_recovery text = Some (inr ast) →
     compiles ast (en_dict (wo_engine w)) ex d' → refused ast true = false → put_of upsert (mkDoc logical text tags true) entry →
     wo_engine w3 = with_wal (Some wl) (with_next_source_generation next (with_dict d' (wo_engine w))) → wo_disk w3 = wo_disk w →
     appended w2 w3 st docss log entry → wp (k ex (N.max (en_next_source_generation (wo_engine w)) 1)) Q w3) →
  wp (let& admitted := admit_query text tags in
      match admitted with
      | inl err => eng_ret (invalid err)
      | inr None => eng_ret rejected
      | inr (Some (ex, class)) =>
          let& source := allocate_source_generation in
          let& err := log_mutation (append_of upsert (wal_put logical version text tags rank source class)) in
          match err with Some err => eng_ret (failed err) | None => k ex source end
      end) Q w.
Proof.
  intros Hi Hlim Hrq Hput Hbad Hgood. eapply wp_step; [by eapply admit_query_spec|].
  intros r w1 [Hi1 Hr]. assert (serving w1 (live st) doubt cut) as Hs1 by by exists st, docss, log.
  destruct r as [err|[[ex class]|]]; [wp_go; apply (Hbad _ _ cut); [eauto|done|by left]| |wp_go; apply (Hbad _ _ cut); [eauto|done|by left]].
  destruct Hr as (ast & d' & Hp & Hc & Hq & -> & Href1 & Href2).
  eapply wp_step; [eapply allocate_spec; apply Hi1|]. intros source [e2 k2 f2] (-> & Hfit & Hnz & Hh2 & next & E2 & D2). cbn in E2, D2. subst e2 k2.
  assert (inv (mkWorld (with_next_source_generation next (with_dict d' (wo_engine w))) (wo_disk w) f2) st docss log cut doubt) as Hi2.
  { eapply inv_same; [| |exact Hh2| |exact Hi1]; done. }
  assert (∀ seq, put_of upsert (mkDoc logical text tags true)
    (entry_of (append_of upsert (wal_put logical version text tags rank (N.max (en_next_source_generation (wo_engine w)) 1) class)) seq)) as Hof.
  { intros seq. destruct upsert; by eexists. }
  eapply wp_step; [eapply log_mutation_spec; [exact Hi2|..]|].
  { destruct upsert; by apply wal_put_ok. }
  { destruct upsert; by exists ast. }
  { by destruct upsert. }
  intros err w3 Hlog. destruct err as [err|].
  - destruct Hlog as (cut' & Hi3 & Hcut). wp_go. apply (Hbad _ _ cut'); [eauto|by exists st, docss, log|]. eapply cut_short_mono; [|exact Hcut]. intros x [seq ->]. apply Hof.
  - destruct Hlog as (-> & -> & seq & Had). destruct (ad_logged _ _ _ _ _ _ Had) as [wl [E3 D3]].
    by eapply (Hgood ast ex d' _ w3 _ next wl eq_refl eq_refl Hp Hc Href1 (Hof seq)).
Qed.

Lemma insert_spec w st docss log cut doubt text logical version tags rank :
  inv w st docss log cut doubt → limits_ok (wo_engine w) → request_ok text logical version tags rank → write_room w text logical version tags rank →
  wp (try_insert_live_ranked text logical version tags rank)
    (λ r w', write_result w' (match r with inr (Inserted _) => true | _ => false end) (put_of false (mkDoc logical text tags true))
       (live st) (live st ++ [mkDoc logical text tags true]) doubt cut) w.
Proof.
  intros Hi Hlim Hrq [Hput Hmerge Hids]. unfold try_insert_live_ranked. eapply (put_logged_spec false); [done..| |].
  { intros r w1 cut' Hr Hs Hcut. destruct Hr as [->|[[err ->]|[err ->]]]; by exists cut'. }
  intros ast ex d' w2 [e3 k3 f3] entry next wl -> -> Hp Hc Href Hof E3 D3 Had. cbn in E3, D3. subst e3 k3.
  destruct Hput as [Htags Hquery]. destruct (Hquery ast Hp) as (_ & _ & Hstore).
  apply (store_doc_spec _ st docss (mkDoc logical text tags true) ast); [apply Had|done|by exists (en_dict (wo_engine w)), d'|done|eapply Hstore, Hc|done|done|].
  intros a w5 Hrows Hh5 Es5 Eadd. cbn in Eadd. specialize (Hmerge _ _ _ _ _ Hp (cm_run _ _ _ _ Hc) Eadd). cbn in Es5.
  eapply wp_inert; [auto with inert|]. intros [] w6 Hc6. apply wp_bind, wp_refresh.
  eapply wp_inert; [apply writing_store_inert|]. intros [] w8 Hc8. pose proof (capable_core _ _ (cl_core _ _ Hc8) (capable_refreshed w6)) as Hcap8.
  assert (holds_docs w8 (mkState (st_segments st) (st_memtable st ++ [mkDoc logical text tags true])) docss) as Hh8.
  { eapply holds_docs_calm; [exact Hc8|]. apply holds_docs_refreshed. by eapply holds_docs_calm. }
  assert (rows_changed w5 w8) as Hr8.
  { etrans; [by apply rows_changed_calm|]. etrans; [apply rows_changed_refreshed|by apply rows_changed_calm]. }
  pose proof (cl_core _ _ Hc6) as Hcore6. pose proof (cl_core _ _ Hc8) as Hcore8. cbn in Hcore8.
  assert (inv w8 (mkState (st_segments st) (st_memtable st ++ [mkDoc logical text tags true])) docss (log ++ [entry]) None []) as Hi8.
  { destruct Hof as (p & -> & Ep). eapply appended_inv; [exact Had|by etrans|done|done|cbn; by rewrite Ep|done|done]. }
  eapply wp_step; [eapply maybe_flush_spec; [exact Hi8|]|].
  - split; core Hcore8; cbn; core Hcore6; [by rewrite Es5|]. unfold id_room. core Hcore8. cbn. core Hcore6. rewrite (rc_next _ _ Hrows), (rows_changed_length _ _ Hrows). done.
  - intros [] w9 (cut' & Hs & Hcl). wp_go. split_and!; [done|done|]. exists cut'. split; [|done]. destruct st. by rewrite live_put in Hs.
Qed.

(** ** Deleting copies *)

(** The effect of a tombstone on the documents. *)
Definition kill_copy st (c : option nat * N) : State :=
  match c.1 with
  | None => mkState (st_segments st) (kill_at c.2 (st_memtable st))
  | Some i => mkState (alter (kill_at c.2) i (st_segments st)) (st_memtable st)
  end.

Lemma tombstone_exact local (seg seg' : Segment B) : tombstone local seg = Some seg' → sg_exact seg' = sg_exact seg.
Proof. unfold tombstone. destruct (sg_alive seg !! usize local); [|by intros [= <-]]. by intros (phrases & _ & [= <-])%bind_Some. Qed.

Lemma base_tombstone_spec d td b docs local :
  seg_docs d td (base_seg b) docs →
  ∃ b', base_tombstone local b = Some b' ∧ seg_docs d td (base_seg b') (kill_at local docs) ∧ base_file b' = base_file b ∧
    sg_exact (base_seg b') = sg_exact (base_seg b).
Proof.
  intros Hs. destruct (seg_docs_tombstone _ _ _ _ local Hs) as (seg' & E & Hs' & _). pose proof (tombstone_exact _ _ _ E) as Ex.
  destruct b as [seg|file seg]; cbn in *; rewrite E; eexists; done.
Qed.

Lemma alter_insert_id {X} (f : X → X) (l : list X) i x : l !! i = Some x → alter f i l = <[i := f x]> l.
Proof.
  intros Hx. apply list_eq. intros j. destruct (decide (i = j)) as [<-|Hne].
  - rewrite list_lookup_alter_eq, Hx, list_lookup_insert_eq; [done|by apply lookup_lt_Some in Hx].
  - by rewrite list_lookup_alter_ne, list_lookup_insert_ne.
Qed.

Lemma alter_none {X} (f : X → X) (l : list X) i : l !! i = None → alter f i l = l.
Proof. revert i. induction l as [|x l IH]; intros [|i] Hi; try done. cbn. f_equal. by apply IH. Qed.

(** The same rows, some of them deleted. *)
Record rows_deleted w w' : Prop := {
  rd_rows : rows_changed w w';
  rd_memtable : sg_exact (en_memtable (wo_engine w')) = sg_exact (en_memtable (wo_engine w));
}.

#[export] Instance rows_deleted_preorder : PreOrder rows_deleted.
Proof. split; [by intros w|]. intros w1 w2 w3 [] []. split; [by etrans|congruence]. Qed.

Lemma rows_deleted_calm w w' : calm w w' → rows_deleted w w'.
Proof. intros Hc. split; [by apply rows_changed_calm|]. by rewrite (sc_memtable _ _ (cl_core _ _ Hc)). Qed.

Lemma tombstone_segment_spec i local w st docss :
  holds_docs w st docss → wp (tombstone_segment i local) (λ _ w', holds_docs w' (kill_copy st (Some i, local)) docss ∧ rows_deleted w w') w.
Proof.
  intros [Hdir Hown Hsl [] [Hst Hnd] Hd]. unfold tombstone_segment, kill_copy. wp_go. cbn [fst snd].
  destruct (en_segments (wo_engine w) !! i) as [b|] eqn:Hb.
  - destruct (Forall2_lookup_l _ _ _ _ _ eo_segments Hb) as (docs & Hdocs & Hs). cbn beta in Hs.
    destruct (base_tombstone_spec _ _ _ _ local Hs) as (b' & E & Hs' & Ef & Ex). rewrite E. wp_go. eapply wp_reckon; [done|]. wp_go.
    rewrite (alter_insert_id _ _ _ _ Hdocs). split.
    + split; try done; split; try done; cbn.
      * by apply Forall2_insert.
      * by rewrite length_insert.
      * apply Forall2_insert; [done|]. intros file. rewrite Ef. intros E'. destruct (Forall2_lookup_lr _ _ _ _ _ _ Hst Hb Hdocs file E') as [? Hfile].
        split; [done|]. eapply stored_later; [apply later_kill_at|exact Hfile].
      * assert (omap base_file (<[i:=b']> (en_segments (wo_engine w))) = omap base_file (en_segments (wo_engine w))) as ->; [|done].
        rewrite insert_take_drop by by apply lookup_lt_Some in Hb. rewrite <-(take_drop_middle _ _ _ Hb) at 3. rewrite !omap_app. cbn. by rewrite Ef.
    + split; [split|]; try done. cbn. rewrite !list_fmap_insert, Ex. rewrite list_insert_id; [done|]. by rewrite !list_lookup_fmap, Hb.
  - wp_go. assert (st_segments st !! i = None) as Hn.
    { apply lookup_ge_None in Hb. apply lookup_ge_None. by rewrite <-(Forall2_length _ _ _ eo_segments). }
    rewrite alter_none by done. split; [|done]. destruct st. done.
Qed.

Lemma tombstone_memtable_spec local w st docss :
  holds_docs w st docss → wp (tombstone_memtable local) (λ _ w', holds_docs w' (kill_copy st (None, local)) docss ∧ rows_deleted w w') w.
Proof.
  intros Hh. pose proof (hd_engine _ _ _ _ Hh) as []. unfold tombstone_memtable. wp_go.
  destruct (seg_docs_tombstone _ _ _ _ local eo_memtable) as (seg & E & Hs & Hu). rewrite E. eapply wp_reckon; [done|]. wp_go.
  split; [apply holds_docs_memtable; [done|done|by apply Hu]|]. split; [by split|]. cbn. by eapply tombstone_exact.
Qed.

Lemma tombstone_copies_spec copies w st docss :
  holds_docs w st docss → wp (run_each copies tombstone_copy) (λ _ w', holds_docs w' (foldl kill_copy st copies) docss ∧ rows_deleted w w') w.
Proof.
  intros Hh. eapply (wp_run_each _ _ (λ done w', holds_docs w' (foldl kill_copy st done) docss ∧ rows_deleted w w')); [done| |done].
  intros done c w1 _ [Hh1 Hr1]. rewrite foldl_app. cbn.
  assert (wp (tombstone_copy c) (λ _ w', holds_docs w' (kill_copy (foldl kill_copy st done) c) docss ∧ rows_deleted w1 w') w1) as Hone.
  { destruct c as [[i|] local]; [by apply tombstone_segment_spec|by apply tombstone_memtable_spec]. }
  eapply wp_mono; [exact Hone|]. intros _ w2 [Hh2 Hr2]. split; [done|by etrans].
Qed.

Lemma kill_in_segment i locals docss mem :
  foldl kill_copy (mkState docss mem) ((λ l, (Some i, l)) <$> locals) = mkState (alter (kill_all locals) i docss) mem.
Proof.
  revert docss. induction locals as [|l locals IH]; intros docss; cbn.
  - f_equal. apply list_eq. intros j. destruct (decide (i = j)) as [<-|Hne]; [rewrite list_lookup_alter_eq; by destruct (docss !! i)|by rewrite list_lookup_alter_ne].
  - change (list_fmap _ _ ?f locals) with (f <$> locals). rewrite IH. f_equal. unfold kill_copy. cbn.
    apply list_eq. intros j. destruct (decide (i = j)) as [<-|Hne]; [|by rewrite !list_lookup_alter_ne].
    rewrite !list_lookup_alter_eq. by destruct (docss !! i).
Qed.

Lemma kill_in_memtable locals docss mem :
  foldl kill_copy (mkState docss mem) ((λ l, (None, l)) <$> locals) = mkState docss (kill_all locals mem).
Proof. revert mem. induction locals as [|l locals IH]; intros mem; [done|]. rewrite fmap_cons. cbn [foldl]. unfold kill_copy at 2. cbn. by rewrite IH. Qed.

Lemma kill_all_app locals docs extra :
  (∀ l, l ∈ locals → (usize l < length docs)%nat) → kill_all locals (docs ++ extra) = kill_all locals docs ++ extra.
Proof.
  intros Hl. assert (length (kill_all locals docs) = length docs) as Elen.
  { unfold kill_all. clear Hl. revert docs. induction locals as [|l locals IH]; intros docs; [done|]. cbn. rewrite IH. apply length_alter. }
  apply list_eq. intros i. rewrite kill_all_lookup. destruct (decide (i < length docs)%nat).
  - rewrite !lookup_app_l by lia. by rewrite kill_all_lookup.
  - rewrite !lookup_app_r by lia. rewrite Elen. destruct (extra !! _); [|done]. cbn. rewrite decide_False; [done|]. intros Hin%Hl. lia.
Qed.

Lemma kill_segment_copies d td logical segs docss :
  Forall2 (λ b, seg_docs d td (base_seg b)) segs docss → ∀ before mem,
  foldl kill_copy (mkState (before ++ docss) mem)
    (mjoin (imap (λ i b, (λ local, (Some (length before + i)%nat, local)) <$> live_locals (base_seg b) logical) segs)) =
  mkState (before ++ (kill_logical logical <$> docss)) mem.
Proof.
  induction 1 as [|b docs segs docss Hb _ IH]; intros before mem; [done|]. rewrite imap_cons. cbn [mjoin list_join]. rewrite foldl_app, kill_in_segment.
  destruct (live_locals_spec _ _ _ _ logical Hb) as [_ Hl].
  assert (alter (kill_all (live_locals (base_seg b) logical)) (length before + 0)%nat (before ++ docs :: docss) =
    (before ++ [kill_logical logical docs]) ++ docss) as ->.
  { rewrite alter_app_r, <-app_assoc. cbn. by rewrite (kill_all_logical _ _ _ Hl). }
  specialize (IH (before ++ [kill_logical logical docs]) mem). rewrite length_app in IH. cbn in IH.
  rewrite fmap_cons, (cons_middle _ before (kill_logical logical <$> docss)), app_assoc, <-IH. f_equal. f_equal. apply imap_ext. intros i b' _. cbn.
  by replace (length before + S i)%nat with (length before + 1 + i)%nat by lia.
Qed.

(** Deleting every copy of a logical id that the engine had. *)
Lemma copies_killed e st logical extra :
  engine_ok norm e st →
  foldl kill_copy (mkState (st_segments st) (st_memtable st ++ extra)) (segment_copies e logical ++ memtable_copies e logical) =
  mkState (kill_logical logical <$> st_segments st) (kill_logical logical (st_memtable st) ++ extra) ∧
  foldl kill_copy (mkState (st_segments st) (st_memtable st ++ extra)) (memtable_copies e logical) =
  mkState (st_segments st) (kill_logical logical (st_memtable st) ++ extra).
Proof.
  intros []. assert (∀ docss, foldl kill_copy (mkState docss (st_memtable st ++ extra)) (memtable_copies e logical) =
    mkState docss (kill_logical logical (st_memtable st) ++ extra)) as Hmem.
  { intros docss. unfold memtable_copies. rewrite kill_in_memtable. destruct (live_locals_spec _ _ _ _ logical eo_memtable) as [_ Hl].
    rewrite kill_all_app, (kill_all_logical _ _ _ Hl); [done|]. intros l (x & Hx & _)%Hl. by eapply lookup_lt_Some. }
  split; [|apply Hmem]. rewrite foldl_app. pose proof (kill_segment_copies _ _ logical _ _ eo_segments [] (st_memtable st ++ extra)) as Hs.
  cbn in Hs. unfold segment_copies. etransitivity; [|apply Hmem]. f_equal. exact Hs.
Qed.

(** ** Upserts *)

(** The documents without those of a logical id. *)
Definition without (logical : N) (l : list Doc) : list Doc := filter (λ x, doc_logical x ≠ logical) l.

Lemma live_kill_logical logical docs : live_docs (kill_logical logical docs) = without logical (live_docs docs).
Proof.
  unfold live_docs, without. induction docs as [|x docs IH]; [done|]. unfold kill_logical in *. rewrite fmap_cons, !filter_cons, IH.
  destruct (N.eqb_spec (doc_logical x) logical) as [E|E]; cbn.
  - rewrite decide_False by done. case_decide; [|done]. by rewrite filter_cons, decide_False by (intros Hn; by apply Hn).
  - case_decide; [|done]. by rewrite filter_cons, decide_True.
Qed.

Lemma live_killed logical st : live (mkState (kill_logical logical <$> st_segments st) (kill_logical logical (st_memtable st))) = without logical (live st).
Proof. unfold live, all_docs. cbn. by rewrite kill_logical_join, <-kill_logical_app, live_kill_logical. Qed.

Lemma apply_upsert_spec w st docss x ast ex version rank source in_segments accept :
  holds_docs w st docss → parse_for_recovery (doc_text x) = Some (inr ast) → compiled_under (en_dict (wo_engine w)) ast ex →
  tag_room (en_tag_dict (wo_engine w)) (length (doc_tags x)) →
  store_room (en_memtable (wo_engine w)) ex (intern_tags (doc_tags x) (en_tag_dict (wo_engine w))).1 → doc_live x = true → refused ast accept = false →
  wp (apply_upsert ex (doc_text x) (doc_logical x) version (doc_tags x) rank source in_segments accept) (λ r w', r ≠ UpsertRejectedClassD ∧
    holds_docs w' (mkState (if in_segments then kill_logical (doc_logical x) <$> st_segments st else st_segments st)
      (kill_logical (doc_logical x) (st_memtable st) ++ [x])) docss ∧ rows_changed w w' ∧ capable (wo_engine w') ∧
    ∃ a seg, sg_exact (en_memtable (wo_engine w')) = sg_exact seg ∧
      add_compiled ex (intern_tags (doc_tags x) (en_tag_dict (wo_engine w))).1 (en_dict (wo_engine w)) (doc_logical x) version
        (default (legacy_rank_values (intern_tags (doc_tags x) (en_tag_dict (wo_engine w))).2 (intern_tags (doc_tags x) (en_tag_dict (wo_engine w))).1) rank)
        placement_standalone source (knobs_accepting accept (en_config (wo_engine w))) (en_memtable (wo_engine w)) = Some (Some a, seg)) w.
Proof.
  intros Hh Hp Hc Ht Hr Hl Href. unfold apply_upsert. apply wp_bind, wp_this. cbv zeta.
  eapply (store_doc_spec w st docss x ast); [done..|]. intros a w1 Hrows Hh1 _ Eadd.
  eapply wp_inert; [auto with inert|]. intros [] w2 Hc2. eapply wp_step; [eapply tombstone_copies_spec; by eapply holds_docs_calm|].
  intros [] w3 [Hh3 [Hr3 Em3]]. apply wp_bind, wp_refresh. eapply wp_inert; [apply writing_store_inert|]. intros [] w5 Hc5. wp_go.
  pose proof (cl_core _ _ Hc5) as Hcore. split_and!.
  - by repeat case_match.
  - eapply holds_docs_calm; [exact Hc5|]. apply holds_docs_refreshed. destruct (copies_killed (wo_engine w) st (doc_logical x) [x] (hd_engine _ _ _ _ Hh)) as [E1 E2].
    destruct in_segments; [by rewrite E1 in Hh3|]. cbn [app] in Hh3. by rewrite E2 in Hh3.
  - etrans; [exact Hrows|]. etrans; [by apply rows_changed_calm|]. etrans; [exact Hr3|].
    etrans; [apply rows_changed_refreshed|by apply rows_changed_calm].
  - exact (capable_core _ _ Hcore (capable_refreshed w3)).
  - exists a, (en_memtable (wo_engine w1)). split; [|done]. rewrite (sc_memtable _ _ Hcore). cbn. rewrite Em3. by rewrite (sc_memtable _ _ (cl_core _ _ Hc2)).
Qed.

Lemma upsert_spec w st docss log cut doubt text logical version tags rank :
  inv w st docss log cut doubt → limits_ok (wo_engine w) → request_ok text logical version tags rank → write_room w text logical version tags rank →
  wp (try_upsert_live_ranked text logical version tags rank)
    (λ r w', write_result w' (match r with inr (Created _ | Updated _ _) => true | _ => false end) (put_of true (mkDoc logical text tags true))
       (live st) (without logical (live st) ++ [mkDoc logical text tags true]) doubt cut) w.
Proof.
  intros Hi Hlim Hrq [Hput Hmerge Hids]. unfold try_upsert_live_ranked. eapply (put_logged_spec true); [done..| |].
  { intros r w1 cut' Hr Hs Hcut. destruct Hr as [->|[[err ->]|[err ->]]]; by exists cut'. }
  intros ast ex d' w2 [e3 k3 f3] entry next wl -> -> Hp Hc Href Hof E3 D3 Had. cbn in E3, D3. subst e3 k3.
  destruct Hput as [Htags Hquery]. destruct (Hquery ast Hp) as (_ & _ & Hstore). eapply wp_step.
  { apply (apply_upsert_spec _ st docss (mkDoc logical text tags true) ast); [apply Had|done|by exists (en_dict (wo_engine w)), d'|done|eapply Hstore, Hc|done|done]. }
  intros out w5 (Hout & Hh5 & Hrows & Hcap5 & a & seg & Em & Eadd). cbn in Eadd. specialize (Hmerge _ _ _ _ _ Hp (cm_run _ _ _ _ Hc) Eadd). cbn in Hh5.
  assert (inv w5 (mkState (kill_logical logical <$> st_segments st) (kill_logical logical (st_memtable st) ++ [mkDoc logical text tags true])) docss (log ++ [entry]) None []) as Hi5.
  { destruct Hof as (p & -> & Ep). pose proof (f_equal doc_logical Ep) as El. cbn in El. eapply appended_inv; [exact Had|exact Hrows|done|cbn; by rewrite El|cbn; by rewrite El, Ep|done|done]. }
  assert (wp maybe_flush (λ _ w', ∃ cut', serving w' (without logical (live st) ++ [mkDoc logical text tags true]) [] cut' ∧ calmer None cut') w5) as Hflush.
  { rewrite <-live_killed, <-live_put by done. eapply maybe_flush_spec; [exact Hi5|]. split.
    - eapply merge_room_exact; [|exact Hmerge]. rewrite !fmap_app, (rc_exact _ _ Hrows). cbn. by rewrite Em.
    - unfold id_room. by rewrite (rc_next _ _ Hrows), (rows_changed_length _ _ Hrows). }
  destruct out; [..|done]; (eapply wp_step; [exact Hflush|]; intros [] w6 (cut' & Hs & Hcl); wp_go; by split_and!; eauto).
Qed.

(** ** Deletes *)

Lemma apply_delete_spec w st docss logical in_segments :
  holds_docs w st docss →
  wp (apply_delete_by_logical logical in_segments) (λ _ w',
    holds_docs w' (mkState (if in_segments then kill_logical logical <$> st_segments st else st_segments st) (kill_logical logical (st_memtable st))) docss ∧
    rows_changed w w' ∧ (capable (wo_engine w) → capable (wo_engine w'))) w.
Proof.
  intros Hh. unfold apply_delete_by_logical. apply wp_bind, wp_this. cbv zeta. set (copies := _ ++ _).
  pose proof (tombstone_copies_spec copies w st docss Hh) as Hcopies. assert (copies = [] → ∀ w', run_each copies tombstone_copy w = Some (tt, w') → w' = w) as Hnone.
  { by intros -> w' [= <-]. }
  destruct (wp_total _ _ _ Hcopies) as ([] & w1 & E & Hh1 & Hr1 & _). specialize (λ Hc, Hnone Hc w1 E). apply wp_bind. unfold wp at 1. rewrite E.
  eapply (wp_step _ _ (λ _ w2, holds_docs w2 (foldl kill_copy st copies) docss ∧ rows_changed w1 w2 ∧ (capable (wo_engine w) → capable (wo_engine w2)))).
  { destruct copies as [|c copies']; cbn [nonempty]; [wp_go; rewrite (Hnone eq_refl) in *; done|]. apply wp_bind, wp_this. eapply wp_inert; [unfold source_removed; auto 10 with inert|].
    intros [] w2 Hc2. apply wp_refresh. split_and!; [by apply holds_docs_refreshed; eapply holds_docs_calm| |intros _; apply capable_refreshed].
    etrans; [by apply rows_changed_calm|apply rows_changed_refreshed]. }
  intros [] w2 (Hh2 & Hr2 & Hc2). wp_go. split_and!; [|by etrans|done]. clear Hh1. rename Hh2 into Hh1. subst copies.
  destruct (copies_killed (wo_engine w) st logical [] (hd_engine _ _ _ _ Hh)) as [E1 E2]. rewrite !app_nil_r in E1, E2. destruct st as [segs mem]. cbn in *.
  destruct in_segments; cbn [app] in Hh1; [by rewrite E1 in Hh1|by rewrite E2 in Hh1].
Qed.

Lemma delete_spec w st docss log cut doubt logical :
  inv w st docss log cut doubt → fits 64 logical →
  wp (delete_by_logical_id logical) (λ r w', write_result w' (match r with inr _ => true | inl _ => false end)
    (λ x, ∃ seq, x = WalDeleteByLogical seq logical) (live st) (without logical (live st)) doubt cut) w.
Proof.
  intros Hi Hf. unfold delete_by_logical_id. eapply wp_step; [by eapply log_mutation_spec|]. intros [err|] w1 Hlog.
  - destruct Hlog as (cut' & Hi1 & Hcut). wp_go. exists cut'. split; [by exists st, docss, log|done].
  - destruct Hlog as (-> & -> & seq & Had). eapply wp_step; [eapply apply_delete_spec, Had|]. intros count w2 (Hh2 & Hr2 & Hcap2). wp_go. split_and!; [done..|].
    exists None. split; [|done]. rewrite <-live_killed. eexists _, _, _. split; [|done]. eapply appended_inv; [exact Had|exact Hr2|done..|].
    destruct (ad_logged _ _ _ _ _ _ Had) as [wl Hlg]. eapply Hcap2, capable_logged; [exact Hlg|apply Hi].
Qed.

(** One live document less, or none. *)
Definition removed_one (P : Doc → Prop) (l l' : list Doc) : Prop := ∃ l1 x l2, l = l1 ++ x :: l2 ∧ P x ∧ l' = l1 ++ l2.

Lemma live_kill_at local docs :
  match docs !! usize local with
  | Some x => if doc_live x then ∃ l1 l2, live_docs docs = l1 ++ x :: l2 ∧ live_docs (kill_at local docs) = l1 ++ l2
              else live_docs (kill_at local docs) = live_docs docs
  | None => live_docs (kill_at local docs) = live_docs docs
  end.
Proof.
  unfold kill_at. destruct (docs !! usize local) as [x|] eqn:Hx; [|by rewrite alter_none].
  rewrite (alter_insert_id _ _ _ _ Hx). destruct (doc_live x) eqn:Hl; [|by rewrite kill_doc_dead, list_insert_id].
  rewrite insert_take_drop by by apply lookup_lt_Some in Hx. exists (live_docs (take (usize local) docs)), (live_docs (drop (S (usize local)) docs)).
  rewrite <-(take_drop_middle docs _ _ Hx) at 1. rewrite !live_docs_app. unfold live_docs. rewrite !filter_cons. cbn. by rewrite Hl.
Qed.

Lemma removed_one_app P l l' before after : removed_one P l l' → removed_one P (before ++ l ++ after) (before ++ l' ++ after).
Proof.
  intros (l1 & x & l2 & -> & Hx & ->). exists (before ++ l1), x, (l2 ++ after). rewrite <-!app_assoc. done.
Qed.

Lemma tombstone_local_spec w st docss log cut doubt local :
  inv w st docss log cut doubt → fits 32 local →
  wp (tombstone_local local) (λ r w', ∃ l', (l' = live st ∨ removed_one (λ _, True) (live st) l') ∧
    write_result w' (match r with None => true | Some _ => false end) (λ x, ∃ seq, x = WalTombstone seq (umax 32) local) (live st) l' doubt cut) w.
Proof.
  intros Hi Hf. pose proof (iv_docs _ _ _ _ _ _ _ Hi) as Hh. destruct (lo_wal _ _ _ _ (iv_log _ _ _ _ _ _ _ Hi)) as (wl & Ew & _). unfold tombstone_local. wp_go.
  rewrite Ew, (hd_owns _ _ _ _ Hh). cbn [andb]. rewrite bool_decide_true by by eexists. cbn [andb]. destruct (base_segments_are_committed _) eqn:Ec; cbn [negb].
  2:{ wp_go. exists (live st). split; [by left|]. exists cut. split; [by exists st, docss, log|by left]. }
  apply bool_decide_eq_true in Ec. eapply wp_step; [by eapply log_mutation_spec|]. intros [err|] w1 Hlog.
  { destruct Hlog as (cut' & Hi1 & Hcut). wp_go. exists (live st). split; [by left|]. exists cut'. split; [by exists st, docss, log|done]. }
  destruct Hlog as (-> & -> & seq & Had). eapply wp_step; [eapply tombstone_memtable_spec, Had|]. intros [] w2 [Hh2 [Hr2 _]].
  apply wp_bind, wp_refresh. wp_go. exists (live (kill_copy st (None, local))). split.
  - unfold live, all_docs. cbn. rewrite !live_docs_app. pose proof (live_kill_at local (st_memtable st)) as Hk.
    destruct (st_memtable st !! usize local) as [x|]; [|left; by rewrite Hk]. destruct (doc_live x); [|left; by rewrite Hk].
    right. destruct Hk as (l1 & l2 & E1 & E2). rewrite E1, E2. exists (live_docs (mjoin (st_segments st)) ++ l1), x, l2. by rewrite <-!app_assoc.
  - split_and!; [done..|]. exists None. split; [|done]. eexists _, _, _. split; [|done].
    eapply appended_inv; [exact Had|etrans; [exact Hr2|apply rows_changed_refreshed]|by apply holds_docs_refreshed|done|done| |apply capable_refreshed].
    intros n Hl. cbn. pose proof (lk_generations _ _ _ _ _ _ Hl) as Eg. pose proof (generations_length _ _ _ _ Hh) as Hlen.
    rewrite <-Ec in Eg. apply (f_equal length) in Eg. rewrite length_take in Eg. apply skipn_all2. lia.
Qed.

Lemma position_of_Some g l i : position_of g l = Some i → l !! i = Some g.
Proof. unfold position_of. intros ([j g'] & E & ->)%fmap_Some. by apply list_find_Some in E as (Hj & -> & _). Qed.

Lemma position_of_take g l n i j : NoDup l → position_of g l = Some i → position_of g (take n l) = Some j → i = j ∧ (j < n)%nat.
Proof.
  intros Hnd Hi%position_of_Some Hj%position_of_Some. assert (j < n)%nat as Hlt.
  { apply lookup_lt_Some in Hj. rewrite length_take in Hj. lia. }
  rewrite lookup_take in Hj. destruct (decide (j < n)%nat); [|done]. split; [by eapply NoDup_lookup|done].
Qed.

(** The address names a live row of a segment that the manifest has. *)
Lemma resolve_address_spec w st docss a :
  holds_docs w st docss → ∃ r, resolve_address (wo_engine w) a = Some r ∧ ∀ i j, r = inr (i, j) →
    position_of (sa_generation a) (en_generations (wo_engine w)) = Some i ∧
    position_of (sa_generation a) (en_committed_generations (wo_engine w)) = Some j ∧ N.of_nat j ≤ umax 32 ∧
    ∃ docs x, st_segments st !! i = Some docs ∧ docs !! usize (sa_local a) = Some x ∧ doc_live x = true ∧ doc_logical x = sa_logical a.
Proof.
  intros [Hdir Hown _ [] _ _]. unfold resolve_address. rewrite Hown, Hdir. cbn [andb].
  destruct (position_of _ (en_generations _)) as [i|] eqn:Ei; [|by eexists]. destruct (en_segments (wo_engine w) !! i) as [b|] eqn:Hb; [|by eexists].
  destruct (Forall2_lookup_l _ _ _ _ _ eo_segments Hb) as (docs & Hdocs & Hs). cbn beta in Hs. rewrite (seg_docs_len _ _ _ _ Hs).
  destruct (Nat.leb_spec (length docs) (usize (sa_local a))) as [|Hlt]; [by eexists|]. rewrite (seg_docs_logical _ _ _ _ Hs), list_lookup_fmap.
  destruct (lookup_lt_is_Some_2 docs (usize (sa_local a)) Hlt) as [x Hx]. rewrite Hx. cbn [mbind option_bind fmap option_fmap option_map].
  destruct (N.eqb_spec (doc_logical x) (sa_logical a)) as [El|]; [|by eexists]. cbn [negb]. unfold seg_is_alive. rewrite (seg_docs_lookup _ _ _ _ _ Hs), Hx. cbn.
  destruct (doc_live x) eqn:Elive; [|by eexists]. cbn. destruct (position_of _ (en_committed_generations _)) as [j|] eqn:Ej; [|by eexists].
  destruct (N.ltb_spec (umax 32) (N.of_nat j)) as [|Hle]; [by eexists|]. eexists. split; [done|]. intros i' j' [= -> ->]. split_and!; [done..|]. by exists docs, x.
Qed.

Lemma live_kill_row st i docs x local :
  st_segments st !! i = Some docs → docs !! usize local = Some x → doc_live x = true →
  removed_one (λ y, y = x) (live st) (live (kill_copy st (Some i, local))).
Proof.
  intros Hi Hx Hl. unfold live, all_docs, kill_copy. cbn. rewrite (alter_insert_id _ _ _ _ Hi), insert_take_drop by by apply lookup_lt_Some in Hi.
  rewrite <-(take_drop_middle _ _ _ Hi) at 1. rewrite !join_app. cbn. rewrite <-!app_assoc, !live_docs_app. pose proof (live_kill_at local docs) as Hk. rewrite Hx, Hl in Hk.
  destruct Hk as (l1 & l2 & E1 & E2). rewrite E1, E2. apply removed_one_app. by exists l1, x, l2.
Qed.

Lemma tombstone_in_spec w st docss log cut doubt a :
  inv w st docss log cut doubt → fits 32 (sa_local a) → N.of_nat (length (en_segments (wo_engine w))) ≤ umax 32 →
  wp (tombstone_in a) (λ r w', ∃ l', (r = None → removed_one (λ x, doc_logical x = sa_logical a) (live st) l') ∧
    write_result w' (match r with None => true | Some _ => false end) (λ x, ∃ seq idx, x = WalTombstone seq idx (sa_local a)) (live st) l' doubt cut) w.
Proof.
  intros Hi Hf Hlen. pose proof (iv_docs _ _ _ _ _ _ _ Hi) as Hh. pose proof (hd_engine _ _ _ _ Hh) as He. unfold tombstone_in. wp_go.
  destruct (resolve_address_spec w st docss a Hh) as (r & E & Hr). rewrite E. eapply wp_reckon; [done|].
  assert (∀ (e : TombstoneError) w' cut', serving w' (live st) doubt cut' → cut_short (λ x, ∃ seq idx, x = WalTombstone seq idx (sa_local a)) cut cut' →
    ∃ l', (Some e = None → removed_one (λ x, doc_logical x = sa_logical a) (live st) l') ∧
      write_result w' false (λ x, ∃ seq idx, x = WalTombstone seq idx (sa_local a)) (live st) l' doubt cut) as Hbad.
  { intros e w' cut' Hs Hc. exists []. split; [done|]. by exists cut'. }
  destruct r as [err|[i j]]; [wp_go; apply (Hbad err _ cut); [by exists st, docss, log|by left]|].
  destruct (Hr i j eq_refl) as (Ei & Ej & Hj & docs & x & Hdocs & Hx & Hlive & Hlog). clear Hr.
  assert (i < length (en_segments (wo_engine w)))%nat as Hlt.
  { rewrite (Forall2_length _ _ _ (eo_segments _ _ _ He)). by apply lookup_lt_Some in Hdocs. }
  eapply wp_step; [eapply log_mutation_spec; [exact Hi|split; [unfold fits; change (umax 32) with 4294967295 in Hj; change (2 ^ 32) with 4294967296; lia|done]|done|done]|].
  intros [err|] w1 Hres.
  { destruct Hres as (cut' & Hi1 & Hcut). wp_go. apply (Hbad (TombstoneWal err) _ cut'); [by exists st, docss, log|]. eapply cut_short_mono; [|exact Hcut].
    intros y [seq ->]. cbn. eauto. }
  destruct Hres as (-> & -> & seq & Had). eapply wp_step; [eapply tombstone_segment_spec, Had|]. intros [] w2 [Hh2 [Hr2 _]].
  apply wp_bind, wp_refresh. wp_go. destruct (ad_linked _ _ _ _ _ _ Had) as [n Hl].
  rewrite (lk_generations _ _ _ _ _ _ Hl) in Ej. destruct (position_of_take _ _ _ _ _ (eo_distinct _ _ _ He) Ei Ej) as [-> _].
  assert ((N.of_nat j =? umax 32) = false) as Ene by (apply N.eqb_neq; lia).
  exists (live (kill_copy st (Some j, sa_local a))). split.
  { intros _. destruct (live_kill_row st j docs x _ Hdocs Hx Hlive) as (l1 & y & l2 & E1 & -> & E2). by exists l1, x, l2. }
  split_and!; [done..|]. exists None. split; [|done]. eexists _, _, _. split; [|done].
  eapply appended_inv; [exact Had|etrans; [exact Hr2|apply rows_changed_refreshed]|by apply holds_docs_refreshed|cbn; by rewrite Ene, Nat2N.id|cbn; by rewrite Ene| |apply capable_refreshed].
  intros n' Hl'. cbn. rewrite Ene, Nat2N.id. rewrite <-(lk_generations _ _ _ _ _ _ Hl), (lk_generations _ _ _ _ _ _ Hl') in Ej.
  by destruct (position_of_take _ _ _ _ _ (eo_distinct _ _ _ He) Ei Ej).
Qed.

End writes.
