(* ===== verification/Batches.v ===== *)
(** * Batches

    Bulk ingest: the memtable is sealed before the hot mask is first frozen, the
    queries are compiled under the grown dictionary, and the segment of the batch
    is committed as a whole or taken back. *)

From S2P Require Import Prelude Util Text Utf8 Dsl Dictionary FramedLog Wal Sources Index Phrase Automaton Normalize Analyze Compile Plan Extract.
From S2P Require Import View Ownership Tags Store Segment Merge Recompile Engine Compaction Ingest Open EngineLogic Documents Durable Replay Layout Housekeeping Writes.

Section batches.
Context {A B : Type} `{DaachorseLaws A} `{RoaringLaws B} (norm : Normalizer A) (patterns : list rstring) (Hnorm : norm_wf norm patterns).
Implicit Types (w : World A B) (st : State) (b : BaseSegment B).

#[local] Instance norm_analyzer_batches : Analyzer := normalizer_analyzer norm.
#[local] Instance norm_laws_batches : AnalyzerLaws := normalizer_laws norm patterns Hnorm.
#[local] Abbreviation holds_docs := (holds_docs norm).
#[local] Abbreviation inv := (inv norm).
#[local] Abbreviation consistent := (consistent norm).

(** ** Sealing before the first mask *)

(** The memtable is taken out. *)
Definition taken w : World A B :=
  mkWorld (with_sealed_through (Some (wal_last_seq (wo_engine w))) (with_memtable (with_epoch (en_vocab_epoch (wo_engine w)) segment_new) (wo_engine w)))
    (wo_disk w) (wo_faults w).

Lemma taken_holds w st docss log cut :
  holds_docs w st docss → log_ok norm w log cut → holds_docs (taken w) (mkState (st_segments st) []) docss ∧ log_ok norm (taken w) log cut.
Proof. intros Hh Hlog. destruct (take_memtable_spec norm w st docss log cut Hh Hlog) as (_ & H1' & H2' & _). done. Qed.

(** The memtable [mem] is put back with what was sealed before it was taken. *)
Definition untaken (mem : Segment B) (sealed : option N) w : World A B :=
  mkWorld (with_sealed_through sealed (with_memtable mem (wo_engine w))) (wo_disk w) (wo_faults w).

Lemma untaken_holds w st docss mem docs sealed :
  holds_docs w st docss → seg_docs (en_dict (wo_engine w)) (en_tag_dict (wo_engine w)) mem docs → unsealed mem → is_Some sealed →
  holds_docs (untaken mem sealed w) (mkState (st_segments st) docs) docss.
Proof. intros [Hdir Hown Hsl [] [] Hd] Hs Hu Hse. split; try done; split; done. Qed.

(** A pushed segment is taken off again when its commit failed. *)
Lemma popped_world n w w1 w2 slots new st1 slots' new' after' :
  put_back norm n w w1 w2 slots [] [new] [] st1 slots' new' after' →
  mkWorld (with_generations (removelast (en_generations (wo_engine w2))) (with_segments (removelast (en_segments (wo_engine w2))) (wo_engine w2)))
    (wo_disk w2) (wo_faults w2) = relaid (slots' ++ [] ++ after') w2.
Proof.
  intros [Hl _ Hn Ha _ _ _ _ _ _]. apply nil_length_inv in Ha as ->. cbn in Hn. destruct new' as [|new' [|? ?]]; [done| |done]. rewrite !app_nil_r in *.
  destruct Hl as [Es Eg _]. unfold relaid. rewrite Es, Eg, !fmap_app. cbn [fmap list_fmap]. by rewrite !removelast_last.
Qed.

Lemma popped w w1 w2 n st1 docss log cut slots new :
  slots_ok norm w slots → laid w1 (slots ++ [new]) (st_segments st1) → slots_ok norm w1 (slots ++ [new]) → frame w w1 →
  commit_result norm n w1 w2 st1 docss log cut false →
  ∃ slots' new', put_back norm n w w1 w2 slots [] [new] [] st1 slots' [new'] [] ∧
    slots_ok norm w2 slots' ∧ sl_docs <$> slots' = sl_docs <$> slots ∧ sl_generation <$> slots' = sl_generation <$> slots ∧
    slot_seg <$> slots' = slot_seg <$> slots ∧
    mkWorld (with_generations (removelast (en_generations (wo_engine w2))) (with_segments (removelast (en_segments (wo_engine w2))) (wo_engine w2)))
      (wo_disk w2) (wo_faults w2) = relaid slots' w2.
Proof.
  intros Hok Hl1 Hok1 Hfr Hres. destruct (put_back_failed norm w w1 w2 n st1 docss log cut slots [] [new] []) as (slots' & new' & after' & Hpb);
    [by rewrite app_nil_r|done..|]. pose proof (popped_world _ _ _ _ _ _ _ _ _ _ Hpb) as Ew. pose proof Hpb as [_ _ Hn Ha Hok' Hd Hg Hs _ _].
  apply nil_length_inv in Ha as ->. cbn in Hn. destruct new' as [|new' [|? ?]]; [done| |done]. rewrite !app_nil_r in *. exists slots', new'. by split_and!.
Qed.

Lemma seal_taken_back w w1 w2 n st docss log cut doubt slots new :
  let mem := en_memtable (wo_engine w) in let sealed := en_sealed_through (wo_engine w) in
  let st1 := mkState (st_segments st ++ [st_memtable st]) [] in
  consistent w st docss log cut doubt → laid w slots (st_segments st) → slots_ok norm w slots →
  laid w1 (slots ++ [new]) (st_segments st1) → slots_ok norm w1 (slots ++ [new]) → frame w w1 → same_log w (untaken mem sealed w1) →
  en_sealed_through (wo_engine w1) = Some (wal_last_seq (wo_engine w)) →
  commit_result norm n w1 w2 st1 docss log cut false →
  ∃ slots' docss', slot_seg <$> slots' = slot_seg <$> slots ∧ consistent (untaken mem sealed (relaid slots' w2)) st docss' log cut doubt ∧ persisted n w1 w2 ∧
    mkWorld (with_generations (removelast (en_generations (wo_engine w2))) (with_segments (removelast (en_segments (wo_engine w2))) (wo_engine w2)))
      (wo_disk w2) (wo_faults w2) = relaid slots' w2 ∧
    ∀ file, slot_file new = Some file → en_next_seg_id (wo_engine w) ≤ file → en_manifest_on_disk (wo_engine w2) = RenamedNotSynced ∨
      (file ∉ omap slot_file slots') ∧ (file ∉ manifest_files (wo_disk w2)).
Proof.
  intros mem sealed st1 Hi Hl Hok Hl1 Hok1 Hfr Hsl Hse Hres.
  destruct (popped _ _ _ _ _ _ _ _ _ _ Hok Hl1 Hok1 Hfr Hres) as (slots' & new' & Hpb & Hok' & Ed & Eg & Es & Ew).
  pose proof (pb_persisted _ _ _ _ _ _ _ _ _ _ _ _ _ Hpb) as Hp. pose proof (iv_docs _ _ _ _ _ _ _ Hi) as Hh.
  assert (∀ docss', holds_docs w2 st1 docss' → holds_docs (untaken mem sealed (relaid slots' w2)) st docss') as Hback.
  { intros docss' Hh2. pose proof (holds_docs_layout norm _ _ _ _ Hh2 Hok') as Hh3. destruct st as [segs docs]. pose proof (la_docs _ _ _ Hl) as El. cbn in El. rewrite El, <-Ed.
    destruct (hd_engine _ _ _ _ Hh). pose proof (frame_persisted _ _ _ Hp) as Hfr2. destruct Hfr, Hfr2.
    apply (untaken_holds (relaid slots' w2) (mkState (sl_docs <$> slots') []) docss' mem docs sealed Hh3); [|done|apply Hh].
    cbn. by rewrite fr_dict0, fr_tags0, fr_dict, fr_tags. }
  exists slots'. assert (∀ file, slot_file new = Some file → en_next_seg_id (wo_engine w) ≤ file → file ∉ omap slot_file slots') as Hgone.
  { intros file Ef Hle. pose proof (pb_gone _ _ _ _ _ _ _ _ _ _ _ _ _ Hpb file) as Hg. rewrite !app_nil_r in Hg. apply Hg; [|done]. cbn. rewrite Ef. set_solver. }
  assert (en_generations (wo_engine (untaken mem sealed (relaid slots' w2))) = en_generations (wo_engine w)) as Egen by (cbn; by rewrite Eg, (la_generations _ _ _ Hl)).
  inversion Hres as [|_ Hs2 Hh2|_ Hsync Hc Hlog Hh2 Hrec].
  - exists docss. split_and!; [done| |done|done|].
    + eapply consistent_same; [|exact Egen|by apply Hback|exact Hi]. etrans; [exact Hsl|]. destruct Hs2. by split.
    + intros file Ef Hle. right. split; [by apply Hgone|]. intros Hm. assert (manifest_files (wo_disk w2) = manifest_files (wo_disk w)) as Em.
      { unfold manifest_files. rewrite (sl_manifest _ _ Hs2). pose proof (sl_manifest _ _ Hsl) as Em. cbn in Em. by rewrite Em. }
      rewrite Em in Hm. pose proof (manifest_files_below _ _ _ _ _ Hh Hm). lia.
  - exists (st_segments st1). split_and!; [done| |done|done|intros file _ _; left; apply Hc].
    assert (en_manifest_on_disk (wo_engine w) = Synced) as Hsync0 by (pose proof (sl_on_disk _ _ Hsl) as Eo; cbn in Eo; congruence).
    destruct (synced_mem _ _ _ _ _ _ (iv_step _ _ _ _ _ _ _ Hi) Hsync0) as [-> _]. split; [by apply Hback| |].
    + destruct Hlog as [(wl & Ewl & Hwl & Hb1 & Hb2) He Hcut]. split; [|done..]. exists wl. split_and!; [done|done| |apply Hb2..].
      destruct (lo_wal _ _ _ _ (iv_log _ _ _ _ _ _ _ Hi)) as (wl0 & Ewl0 & Hw0 & Hb0 & _). unfold sealed_of in *. rewrite (ps_sealed _ _ _ Hp), Hse in Hb1.
      rewrite (wal_last_seq_some _ _ Ewl0) in Hb1. unfold last_seq in Hb1. cbn in *. fold sealed in Hb0. lia.
    + left. pose proof (live_flushed st) as El. fold st1 in El. split_and!; [exact Hc| |].
      * change (wo_disk (untaken mem sealed (relaid slots' w2))) with (wo_disk w2). by rewrite Hrec, app_nil_r, El.
      * intros x reached _ _. by rewrite app_nil_r, <-El.
Qed.

(** The memtable pushed as a segment, before the commit. *)
Definition sealing w1 slots b (docs : list Doc) : World A B := refreshed (taken (relaid (slots ++ [new_slot w1 b docs]) (tokened w1))).

Lemma sealing_spec w w1 st docss log cut doubt slots seg b :
  consistent w st docss log cut doubt → laid w slots (st_segments st) → slots_ok norm w slots → grew 1 w w1 → sealed_as norm w w1 seg (st_memtable st) b →
  seg_docs (en_dict (wo_engine w)) (en_tag_dict (wo_engine w)) seg (st_memtable st) →
  let w2 := sealing w1 slots b (st_memtable st) in let st1 := mkState (st_segments st ++ [st_memtable st]) [] in
  holds_docs w2 st1 docss ∧ log_ok norm w2 log cut ∧ laid w2 (slots ++ [new_slot w1 b (st_memtable st)]) (st_segments st1) ∧
  slots_ok norm w2 (slots ++ [new_slot w1 b (st_memtable st)]) ∧ frame w w2 ∧
  same_log w (untaken (en_memtable (wo_engine w)) (en_sealed_through (wo_engine w)) w2) ∧
  en_sealed_through (wo_engine w2) = Some (wal_last_seq (wo_engine w)) ∧ mem_linked w2 st1 log cut.
Proof.
  intros Hi Hl Hok Hg Hsl Hs w2 st1. pose proof (place_new_slot norm w w1 1 st docss log cut doubt slots [] [] seg (st_memtable st) b Hi) as Hpl.
  rewrite !app_nil_r in Hpl. specialize (Hpl Hok Hg Hsl Hs). destruct Hpl as [Hh2 Hl2 Hok2 Hfr Hlog Hlogok _ _]. rewrite !app_nil_r in *. cbn [app] in *.
  assert (st_segments st1 = sl_docs <$> slots ++ [new_slot w1 b (st_memtable st)]) as Est by (cbn; by rewrite fmap_app, (la_docs _ _ _ Hl)).
  destruct (taken_holds _ _ _ _ _ Hh2 Hlogok) as [Hh3 Hlog3]. assert (en_wal (wo_engine w1) = en_wal (wo_engine w)) as Ew by (apply (same_log_grew _ _ _ Hg)).
  assert (wal_last_seq (wo_engine w1) = wal_last_seq (wo_engine w)) as Els by (unfold wal_last_seq; by rewrite Ew).
  split_and!.
  - apply holds_docs_refreshed. cbn [st_segments] in Hh3. rewrite <-Est in Hh3. exact Hh3.
  - eapply log_ok_same; [apply same_log_refreshed|exact Hlog3].
  - rewrite Est. by destruct Hl2.
  - eapply slots_ok_frame; [|exact Hok2]. by split.
  - etrans; [exact Hfr|]. by split.
  - etrans; [exact Hlog|]. destruct (same_log_grew _ _ _ Hg). by split.
  - cbn. by rewrite <-Els.
  - split; [|done]. unfold sealed_of. change (en_sealed_through (wo_engine w2)) with (Some (wal_last_seq (wo_engine w1))). rewrite Els. cbn.
    destruct (lo_wal _ _ _ _ (iv_log _ _ _ _ _ _ _ Hi)) as (wl & Ewl & Hw & _). rewrite (wal_last_seq_some _ _ Ewl).
    unfold replayed_mem. rewrite replayed_none; [done|]. by eapply below_last.
Qed.

(** What sealing leaves of the room of the engine. *)
Record little_grown w w' : Prop := {
  lg_config : en_config (wo_engine w') = en_config (wo_engine w);
  lg_next : en_next_seg_id (wo_engine w') ≤ en_next_seg_id (wo_engine w) + N.of_nat (length (en_segments (wo_engine w)) + 2);
  lg_segments : (length (en_segments (wo_engine w')) ≤ S (length (en_segments (wo_engine w))))%nat;
}.

(** A commit through which the log was emptied. *)
Lemma commit_checkpoint_spec n w w' st docss log cut :
  commit_result norm n w w' st docss log cut true → st_memtable st = [] → capable (wo_engine w) →
  wp (checkpoint_wal ;& reset_wal_if_safe ;& eng_ret true) (λ ok w'', ok = true ∧ ∃ wl log' cut', logged w' wl w'' ∧
    inv w'' st (st_segments st) log' cut' [] ∧ calmer cut cut') w'.
Proof.
  intros Hres Hmem Hcap. inversion Hres as [Hp Hsync Ec _ Es _ Hl Hi| |]; subst.
  apply (wp_assoc checkpoint_wal (λ _, reset_wal_if_safe) (λ _, eng_ret true)). eapply wp_step; [eapply checkpoint_spec; [apply Hi|apply Hi|by split|exact Hl]|].
  intros [] w2 (wl & log' & cut' & Hlg & Hi2 & Hc). wp_go. split; [done|]. exists wl, log', cut'. split_and!; [done| |done]. split; [done|].
  eapply capable_logged; [exact Hlg|by eapply capable_persisted].
Qed.

(** The branch that seals a memtable with rows. *)
Lemma seal_memtable_spec w st docss log cut doubt sealed :
  inv w st docss log cut doubt → id_room w (length (en_segments (wo_engine w)) + 2) →
  seg_docs (en_dict (wo_engine w)) (en_tag_dict (wo_engine w)) sealed (st_memtable st) →
  wp (let& built := build_durable_base sealed in
      match built with
      | None => eng_ret false
      | Some (base, path) =>
          let& taken := take_memtable in
          push_segment base ;&
          refresh_phrase_capability ;&
          let& ok := commit_sources_and_manifest in
          if negb ok then
            pop_segment ;&
            put_memtable_back taken ;&
            refresh_phrase_capability ;&
            (match path with Some file => best_effort_remove_segment file | None => eng_ret tt end) ;&
            eng_ret false
          else checkpoint_wal ;& reset_wal_if_safe ;& eng_ret true
      end) (λ _ w', little_grown w w' ∧ ∃ st' docss' log' cut', inv w' st' docss' log' cut' doubt ∧ live st' = live st ∧ calmer cut cut') w.
Proof.
  intros Hi Hr Hs. pose proof (iv_docs _ _ _ _ _ _ _ Hi) as Hh. destruct (slots_of _ _ _ _ Hh) as (slots & Hl & Hok).
  eapply wp_step; [eapply build_durable_base_spec; [apply Hh|unfold id_room in *; lia|exact Hs]|]. intros built w1 [Hg Hb].
  pose proof (grew_next _ _ _ Hg) as Hn1. assert (en_segments (wo_engine w1) = en_segments (wo_engine w) ∧ en_generations (wo_engine w1) = en_generations (wo_engine w) ∧
    en_config (wo_engine w1) = en_config (wo_engine w) ∧ en_memtable (wo_engine w1) = en_memtable (wo_engine w) ∧
    en_sealed_through (wo_engine w1) = en_sealed_through (wo_engine w)) as (Es1 & Eg1 & Ec1 & Em1 & Ese1) by by destruct Hg as (next & _ & [] & _).
  destruct built as [[b path]|].
  2:{ wp_go. split; [split; [done|lia|rewrite Es1; lia]|]. exists st, docss, log, cut. split; [by eapply inv_grew|done]. }
  destruct Hb as [Hsl Epath]. destruct (sealing_spec w w1 st docss log cut doubt slots sealed b Hi Hl Hok Hg Hsl Hs) as (Hh2 & Hlog2 & Hl2 & Hok2 & Hfr & Hsl2 & Hse & Hml).
  unfold take_memtable, push_segment, fresh_segment_generation. wp_go. apply wp_refresh.
  match goal with |- wp _ _ ?w2 => assert (w2 = sealing w1 slots b (st_memtable st)) as -> end.
  { unfold sealing, refreshed, taken, relaid, tokened. cbn. rewrite !fmap_app. cbn. by rewrite <-(la_segments _ _ _ Hl), <-(la_generations _ _ _ Hl), Es1, Eg1. }
  set (w2 := sealing w1 slots b (st_memtable st)) in *. set (st1 := mkState (st_segments st ++ [st_memtable st]) []) in *.
  assert (length slots = length (en_segments (wo_engine w))) as Hlen by by rewrite (la_segments _ _ _ Hl), length_fmap.
  assert (length (en_segments (wo_engine w2)) = S (length (en_segments (wo_engine w)))) as Hlen2.
  { rewrite (la_segments _ _ _ Hl2), length_fmap, length_app, Hlen. cbn. lia. }
  assert (en_next_seg_id (wo_engine w2) = en_next_seg_id (wo_engine w1)) as En2 by done.
  eapply wp_step; [eapply commit_sources_and_manifest_spec; [exact Hh2|unfold id_room in *; lia]|]. intros ok w3 Ho. cbn beta.
  apply (outcome_result _ _ _ _ _ _ log cut) in Ho; [|done..]. assert (persisted (length (en_segments (wo_engine w2))) w2 w3) as Hp by by inversion Ho.
  pose proof (ps_next _ _ _ Hp) as Hn3. assert (length (en_segments (wo_engine w3)) = length (en_segments (wo_engine w2))) as Hlen3.
  { symmetry. eapply Forall2_length, Hp. }
  assert (en_config (wo_engine w3) = en_config (wo_engine w)) as Ec3 by (rewrite (ps_config _ _ _ Hp); exact Ec1). destruct ok; cbn [negb].
  - eapply wp_mono; [eapply commit_checkpoint_spec; [exact Ho|done|apply capable_refreshed]|].
    intros ok w4 (-> & wl & log' & cut' & [E4 _] & Hi4 & Hc). inversion Ho as [_ Hsync _ _ _ _ _ _| |]. assert (en_manifest_on_disk (wo_engine w) = Synced) as Hsync0.
    { pose proof (sl_on_disk _ _ Hsl2) as Eo. cbn in Eo. cbn in Hsync. congruence. }
    destruct (synced_mem _ _ _ _ _ _ (iv_step _ _ _ _ _ _ _ Hi) Hsync0) as [-> _]. split; [split; rewrite E4; cbn; [done|lia|lia]|].
    exists st1, (st_segments st1), log', cut'. split_and!; [done|apply live_flushed|done].
  - destruct (seal_taken_back w w2 w3 _ st docss log cut doubt slots _ Hi Hl Hok Hl2 Hok2 Hfr Hsl2 Hse Ho) as (slots' & docss' & Eseg & Hi3 & _ & Ew & Hgone).
    unfold pop_segment, put_memtable_back. apply wp_bind, wp_assigning. cbn beta. rewrite Ew. apply wp_bind, wp_assigning. cbn beta. rewrite Em1, Ese1. cbn [fst snd].
    apply wp_bind, wp_refresh. eapply wp_step; [apply remove_path_spec; [apply consistent_refreshed, Hi3|]|].
    + intros file ->. destruct Hsl as [_ Hf]. destruct (Hgone file) as [Hg'|[Hg1 Hg2]]; [done|by destruct (Hf file Epath); lia|by left|right].
      cbn. by rewrite <-omap_slot_file.
    + intros [] w4 [Hi4 Hs4]. wp_go. split; [|by exists st, docss', log, cut]. apply (f_equal length) in Eseg. rewrite !length_fmap in Eseg.
      split; core Hs4; cbn; [done|lia|]. rewrite length_fmap. lia.
Qed.

Lemma seal_first_spec w st docss log cut doubt :
  inv w st docss log cut doubt → id_room w (length (en_segments (wo_engine w)) + 2) →
  wp seal_before_first_mask (λ ok w', little_grown w w' ∧ ∃ st' docss' log' cut', inv w' st' docss' log' cut' doubt ∧ live st' = live st ∧ calmer cut cut') w.
Proof.
  intros Hi Hr. pose proof (iv_docs _ _ _ _ _ _ _ Hi) as Hh. pose proof (hd_engine _ _ _ _ Hh) as He. unfold seal_before_first_mask. wp_go.
  assert (little_grown w w ∧ ∃ st' docss' log' cut', inv w st' docss' log' cut' doubt ∧ live st' = live st ∧ calmer cut cut') as Hsame.
  { split; [split; [done|lia|lia]|]. by exists st, docss, log, cut. }
  destruct (_ || _); [by wp_go|]. pose proof (seg_docs_empty _ _ _ _ (eo_memtable _ _ _ He)) as Hempty. destruct (seg_is_empty _).
  { destruct (base_segments_are_committed _); [by wp_go|]. eapply wp_step; [eapply commit_sources_and_manifest_spec; [exact Hh|unfold id_room in *; lia]|]. intros ok w1 Ho.
    apply (outcome_result _ _ _ _ _ _ log cut) in Ho; [|apply Hi|intros Hs; by eapply synced_mem in Hs as [_ ?]; [|apply Hi]].
    destruct (commit_plain _ _ _ _ _ _ _ _ _ _ Hi Ho) as (Eb & Hn & docss1 & Hi1 & Hok).
    assert (little_grown w w1) as Hlg.
    { assert (persisted (length (en_segments (wo_engine w))) w w1) as Hp by by inversion Ho.
      split; [apply Hp|lia|]. rewrite <-!(length_fmap base_seg), Eb. lia. }
    destruct ok; cbn [negb]; [|wp_go; split; [done|]; by exists st, docss1, log, cut].
    destruct (Hok eq_refl) as (-> & _). eapply wp_mono; [eapply commit_checkpoint_spec; [exact Ho|by apply Hempty|apply Hi]|].
    intros ok w2 (-> & wl & log' & cut' & [E2 _] & Hi2 & Hc). split; [|by exists st, (st_segments st), log', cut'].
    destruct Hlg. by split; rewrite ?E2. }
  destruct (seg_docs_seal _ _ _ _ (eo_memtable _ _ _ He)) as (sealed & -> & Hs). apply wp_bind. eapply wp_reckon; [done|]. by eapply seal_memtable_spec.
Qed.

(** ** Compiling the queries *)

(** Only dictionaries and counters changed, and the dictionaries grew. *)
Record widens w w' : Prop := {
  wd_config : en_config (wo_engine w') = en_config (wo_engine w);
  wd_segments : en_segments (wo_engine w') = en_segments (wo_engine w);
  wd_next : en_next_seg_id (wo_engine w') = en_next_seg_id (wo_engine w);
  wd_grown : grown (en_dict (wo_engine w)) (en_dict (wo_engine w')) (en_tag_dict (wo_engine w)) (en_tag_dict (wo_engine w'));
}.

Lemma widens_trans w1 w2 w3 : widens w1 w2 → widens w2 w3 → widens w1 w3.
Proof. intros [] []. split; [congruence..|by eapply grown_trans]. Qed.

Lemma widens_calm w w' : dict_wf (en_dict (wo_engine w)) → calm w w' → widens w w'.
Proof. intros Hwf [[] _ _]. split; [done..|]. rewrite sc_dict, sc_tag_dict. by apply grown_refl. Qed.

Lemma inv_dict_wf w st docss log cut doubt : inv w st docss log cut doubt → dict_wf (en_dict (wo_engine w)).
Proof. intros Hi. apply (eo_dict _ _ _ (hd_engine _ _ _ _ (iv_docs _ _ _ _ _ _ _ Hi))). Qed.

(** The queries of a batch with their compiled forms, [None] for one that does not
    parse. *)
Fixpoint extracted_of (idx : nat) (queries : list (N * rstring)) (exs : list (option Extracted)) : list (nat * N * Extracted * rstring) :=
  match queries, exs with
  | (logical, text) :: queries', ex :: exs' =>
      match ex with Some ex => [(idx, logical, ex, text)] | None => [] end ++ extracted_of (S idx) queries' exs'
  | _, _ => []
  end.

(** A compiled form of the query, and the provisional status of its position. *)
Definition form_ok (d : Dict) (query : N * rstring) (ex : option Extracted) : Prop :=
  match ex with Some ex => ∃ ast, parse_for_recovery query.2 = Some (inr ast) ∧ compiled_under d ast ex | None => True end.

Definition status_ok (ex : option Extracted) (status : IngestItemStatus) : Prop :=
  match ex with Some _ => True | None => ∃ err, status = ItemRejectedParse err end.

(** Room for the features of every query, as the batch reaches it. *)
Fixpoint extract_room (queries : list (N * rstring)) w : Prop :=
  match queries with
  | [] => True
  | query :: queries' =>
      (∀ ast, parse_for_recovery query.2 = Some (inr ast) → Forall (quoted_ok short_text) ast ∧ compile_room ast (en_dict (wo_engine w))) ∧
      ∀ idx pa pa' w', extract_batch idx pa [query] w = Some (pa', w') → extract_room queries' w'
  end.

Lemma form_ok_mono d d' query ex : names d `prefix_of` names d' → form_ok d query ex → form_ok d' query ex.
Proof. intros Hp. destruct ex as [ex|]; [|done]. intros (ast & E & Hc). exists ast. split; [done|]. by eapply compiled_under_mono. Qed.

Lemma extract_batch_spec queries idx pa w st docss log cut doubt :
  inv w st docss log cut doubt → limits_ok (wo_engine w) → extract_room queries w →
  wp (extract_batch idx pa queries) (λ pa' w', inv w' st docss log cut doubt ∧ widens w w' ∧
    ∃ exs statuses, pa_extracted pa' = pa_extracted pa ++ extracted_of idx queries exs ∧ pa_status pa' = pa_status pa ++ statuses ∧
      Forall2 (form_ok (en_dict (wo_engine w'))) queries exs ∧ Forall2 status_ok exs statuses) w.
Proof.
  revert idx pa w. induction queries as [|[logical text] queries IH]; intros idx pa w Hi Hlim Hroom; cbn [extract_batch].
  { wp_go. split_and!; [done|apply widens_calm; [by eapply inv_dict_wf|done]|]. exists [], []. by rewrite !app_nil_r. }
  pose proof (iv_docs _ _ _ _ _ _ _ Hi) as Hh. destruct Hroom as [Hquery Hrest]. cbn [extract_batch] in Hrest. wp_go.
  destruct (parse_limits_total text (parse_limits (en_config (wo_engine w)))) as [parsed Ep]. rewrite Ep. eapply wp_reckon; [done|].
  destruct parsed as [err|ast].
  - unfold count_rejected_parse. apply wp_bind, wp_assigning. set (w1 := mkWorld _ _ _). assert (calm w w1) as Hc by by split.
    eapply wp_mono; [apply (IH (S idx) _ w1); [by eapply inv_calm|done|]|].
    { eapply (Hrest idx pa). unfold eng_bind, this, reckon. rewrite Ep. reflexivity. }
    intros pa' w' (Hi' & Hw & exs & statuses & E1 & E2 & Hforms & Hst). split_and!; [done|eapply widens_trans; [apply widens_calm; [by eapply inv_dict_wf|exact Hc]|done]|].
    exists (None :: exs), (ItemRejectedParse err :: statuses). rewrite E1, E2. cbn. split_and!; [done|by rewrite <-app_assoc|by constructor|]. constructor; [by exists err|done].
  - apply (parse_limits_mono _ _ _ _ Hlim) in Ep as Er. destruct (Hquery ast Er) as [Hq Hcr].
    destruct (wp_total _ _ _ (extract_into_spec _ _ Hnorm _ _ _ _ Hh Hq Hcr)) as (ex & w1 & Erun & d' & Hcomp & Ew1).
    apply wp_bind. unfold wp at 1. rewrite Erun. pose proof (eo_dict _ _ _ (hd_engine _ _ _ _ Hh)) as Hd.
    assert (grown (en_dict (wo_engine w)) d' (en_tag_dict (wo_engine w)) (en_tag_dict (wo_engine w))) as Hgr by by eapply grown_compiled.
    assert (inv w1 st docss log cut doubt) as Hi1.
    { rewrite Ew1. apply (inv_grown _ w st docss log cut doubt d' (en_tag_dict (wo_engine w))); [done|done|by eapply dict_ok_compiled|apply Hh]. }
    assert (widens w w1) as Hw1 by (rewrite Ew1; by split).
    eapply wp_mono; [apply (IH (S idx) _ w1 Hi1)|].
    { by rewrite Ew1. }
    { eapply (Hrest idx pa). unfold eng_bind, this, reckon. rewrite Ep, Erun. reflexivity. }
    intros pa' w' (Hi' & Hw & exs & statuses & E1 & E2 & Hforms & Hst). split_and!; [done|by eapply widens_trans|].
    exists (Some ex :: exs), (Ingested ClassA :: statuses). rewrite E1, E2. cbn. split_and!; [by rewrite <-app_assoc..| |by constructor]. constructor; [|done].
    exists ast. split; [done|]. exists (en_dict (wo_engine w)), d'. split; [done|]. rewrite Ew1 in Hw. apply (gr_names _ _ _ _ (wd_grown _ _ Hw)).
Qed.

Lemma finalize_dict_spec order w st docss log cut doubt :
  (∀ d, dict_wf d → mask_order d (order d)) → inv w st docss log cut doubt →
  wp (finalize_dict order) (λ _ w', inv w' st docss log cut doubt ∧ widens w w') w.
Proof.
  intros Horder Hi. pose proof (iv_docs _ _ _ _ _ _ _ Hi) as Hh. pose proof (eo_dict _ _ _ (hd_engine _ _ _ _ Hh)) as Hd. pose proof Hd as [Hwf Hr Heq Hcold].
  unfold finalize_dict. wp_go. assert (∃ d', finalize_mask (order (en_dict (wo_engine w))) (en_dict (wo_engine w)) = Some d' ∧ dict_ok d' ∧
    grown (en_dict (wo_engine w)) d' (en_tag_dict (wo_engine w)) (en_tag_dict (wo_engine w))) as (d' & E & Hd' & Hg).
  { destruct (finalized (en_dict (wo_engine w))) eqn:Ef.
    - exists (en_dict (wo_engine w)). unfold finalize_mask. rewrite Ef. split_and!; [done|exact Hd|by apply grown_refl].
    - destruct (finalize_mask_bits (en_dict (wo_engine w)) (order (en_dict (wo_engine w))) Hwf Ef (Horder _ Hwf)) as (d' & E & _ & Hn & Hrest).
      pose proof (finalize_mask_wf _ _ _ Hwf (Horder _ Hwf) E) as Hwf'. unfold finalize_mask in E. rewrite Ef in E. apply bind_Some in E as (mb & Eb & [= <-]).
      eexists. split; [unfold finalize_mask; rewrite Ef, Eb; reflexivity|]. split; [by split|]. split; [done|done| |done].
      intros f Hf. by rewrite Hcold in Hf. }
  eapply wp_reckon; [exact E|]. wp_go. split; [|by split].
  apply (inv_grown _ w st docss log cut doubt d' (en_tag_dict (wo_engine w))); [done|done|done|apply Hh].
Qed.

(** ** The tags of the batch *)

Fixpoint tags_room (tags : list (list (rstring * rstring))) (items : list (nat * N * Extracted * rstring)) w : Prop :=
  match items with
  | [] => True
  | (idx, logical, ex, text) :: items' =>
      tag_room (en_tag_dict (wo_engine w)) (length (tags_at tags idx)) ∧
      ∀ ids w', intern_batch tags [(idx, logical, ex, text)] w = Some (ids, w') → tags_room tags items' w'
  end.

(** The ids that go with a compiled query. *)
Definition ids_ok (td : TagDict) (tags : list (list (rstring * rstring))) (item : nat * N * Extracted * rstring) (ids : option (list N)) : Prop :=
  match ids with Some ids => tags_stored td (tags_at tags item.1.1.1) ids | None => True end.

Lemma intern_batch_spec tags items w st docss log cut doubt :
  inv w st docss log cut doubt → tags_room tags items w →
  wp (intern_batch tags items) (λ ids w', inv w' st docss log cut doubt ∧ widens w w' ∧ en_dict (wo_engine w') = en_dict (wo_engine w) ∧
    Forall2 (ids_ok (en_tag_dict (wo_engine w')) tags) items ids) w.
Proof.
  revert w. induction items as [|[[[idx logical] ex] text] items IH]; intros w Hi Hroom; cbn [intern_batch].
  { wp_go. split_and!; [done|apply widens_calm; [by eapply inv_dict_wf|done]|done|constructor]. }
  pose proof (iv_docs _ _ _ _ _ _ _ Hi) as Hh. destruct Hroom as [Htags Hrest]. cbn [intern_batch] in Hrest. wp_go.
  destruct (check_tag_limit _ _) eqn:Ec.
  - wp_go. eapply wp_mono; [apply (IH w Hi)|].
    { eapply (Hrest [None]). unfold eng_bind, this. rewrite Ec. reflexivity. }
    intros ids w' (Hi' & Hw & Ed & Hids). wp_go. split_and!; [done..|]. by constructor.
  - destruct (wp_total _ _ _ (intern_tags_into_spec _ _ _ _ _ Hh Htags)) as (ids1 & w1 & Erun & Eids & Ew1 & Hh1 & Hst).
    pose proof (hd_engine _ _ _ _ Hh) as []. destruct (intern_tags_stored (tags_at tags idx) _ eo_tags Htags) as (Hwf & Hext & _).
    assert (grown (en_dict (wo_engine w)) (en_dict (wo_engine w)) (en_tag_dict (wo_engine w)) (intern_tags (tags_at tags idx) (en_tag_dict (wo_engine w))).2) as Hgr by by split; [apply eo_dict|..].
    assert (inv w1 st docss log cut doubt) as Hi1 by (rewrite Ew1; by apply inv_grown).
    assert (widens w w1) as Hw1 by (rewrite Ew1; by split).
    apply wp_bind. unfold wp at 1. rewrite Erun. wp_go.
    eapply wp_mono; [apply (IH w1 Hi1)|].
    { eapply (Hrest [Some ids1]). unfold eng_bind, this. rewrite Ec, Erun. reflexivity. }
    intros ids w' (Hi' & Hw & Ed & Hids). wp_go. split_and!; [done|by eapply widens_trans|by rewrite Ed, Ew1|]. constructor; [|done].
    eapply tags_stored_mono; [apply (gr_tags _ _ _ _ (wd_grown _ _ Hw))|done].
Qed.

(** ** The rows of the batch *)

(** The document of a query that was ingested. *)
Definition batch_doc (tags : list (list (rstring * rstring))) (idx : nat) (query : N * rstring) (status : IngestItemStatus) : list Doc :=
  match status with Ingested _ => [mkDoc query.1 query.2 (tags_at tags idx) true] | _ => [] end.

Fixpoint batch_docs (tags : list (list (rstring * rstring))) (idx : nat) (queries : list (N * rstring)) (statuses : list IngestItemStatus) : list Doc :=
  match queries, statuses with
  | query :: queries', status :: statuses' => batch_doc tags idx query status ++ batch_docs tags (S idx) queries' statuses'
  | _, _ => []
  end.

(** Nothing changed but counters. *)
Record idle w w' : Prop := {
  id_config : en_config (wo_engine w') = en_config (wo_engine w);
  id_segments : en_segments (wo_engine w') = en_segments (wo_engine w);
  id_next : en_next_seg_id (wo_engine w') = en_next_seg_id (wo_engine w);
  id_dict : en_dict (wo_engine w') = en_dict (wo_engine w);
  id_tags : en_tag_dict (wo_engine w') = en_tag_dict (wo_engine w);
}.

#[local] Instance idle_preorder : PreOrder idle.
Proof. split; [by intros w|]. intros w1 w2 w3 [] []. split; congruence. Qed.

Lemma idle_calm w w' : calm w w' → idle w w'.
Proof. intros [[] _ _]. by split. Qed.

(** Room in the segment for every row, as the batch reaches it. *)
Fixpoint items_room (tags : list (list (rstring * rstring))) (ranks : list (option Z)) (bt : Batch (B:=B))
  (items : list ((nat * N * Extracted * rstring) * option (list N))) w : Prop :=
  match items with
  | [] => True
  | (item, ids) :: items' =>
      (∀ ids', ids = Some ids' → check_column_limit item.1.2 = None → store_room (bt_seg bt) item.1.2 ids') ∧
      ∀ bt' w', batch_item tags ranks bt item ids w = Some (bt', w') → items_room tags ranks bt' items' w'
  end.

Lemma batch_item_spec tags ranks bt idx logical ex text ids docs w st docss log cut doubt :
  inv w st docss log cut doubt → seg_docs (en_dict (wo_engine w)) (en_tag_dict (wo_engine w)) (bt_seg bt) docs → unsealed (bt_seg bt) →
  form_ok (en_dict (wo_engine w)) (logical, text) (Some ex) → ids_ok (en_tag_dict (wo_engine w)) tags (idx, logical, ex, text) ids →
  (∀ ids', ids = Some ids' → check_column_limit ex = None → store_room (bt_seg bt) ex ids') →
  wp (batch_item tags ranks bt (idx, logical, ex, text) ids) (λ bt' w', inv w' st docss log cut doubt ∧ idle w w' ∧ unsealed (bt_seg bt') ∧
    ∃ status, bt_status bt' = <[idx := status]> (bt_status bt) ∧
      seg_docs (en_dict (wo_engine w)) (en_tag_dict (wo_engine w)) (bt_seg bt') (docs ++ batch_doc tags idx (logical, text) status)) w.
Proof.
  intros Hi Hs Hu (ast & Hp & Hc) Hids Hroom. pose proof (iv_docs _ _ _ _ _ _ _ Hi) as Hh. unfold batch_item. cbv beta iota zeta.
  assert (∀ m (r : Batch), inert m → unsealed (bt_seg r) → (∃ status, bt_status r = <[idx := status]> (bt_status bt) ∧
      seg_docs (en_dict (wo_engine w)) (en_tag_dict (wo_engine w)) (bt_seg r) (docs ++ batch_doc tags idx (logical, text) status)) →
    ∀ w1, inv w1 st docss log cut doubt → idle w w1 →
    wp (m ;& eng_ret r) (λ bt' w', inv w' st docss log cut doubt ∧ idle w w' ∧ unsealed (bt_seg bt') ∧
    ∃ status, bt_status bt' = <[idx := status]> (bt_status bt) ∧
      seg_docs (en_dict (wo_engine w)) (en_tag_dict (wo_engine w)) (bt_seg bt') (docs ++ batch_doc tags idx (logical, text) status)) w1) as Hend.
  { intros m r Hm Hur Hr w1 Hi1 Hid. apply wp_inert; [done|]. intros [] w2 Hc2. wp_go. split_and!; [by eapply inv_calm|etrans; [done|by apply idle_calm]|done|done]. }
  assert (∀ err rep, wp (count_rejected_parse ;& eng_ret (mkBatch (bt_seg bt) (bt_accepted bt) (<[idx := ItemRejectedParse err]> (bt_status bt)) rep)) 
    (λ bt' w', inv w' st docss log cut doubt ∧ idle w w' ∧ unsealed (bt_seg bt') ∧
    ∃ status, bt_status bt' = <[idx := status]> (bt_status bt) ∧
      seg_docs (en_dict (wo_engine w)) (en_tag_dict (wo_engine w)) (bt_seg bt') (docs ++ batch_doc tags idx (logical, text) status)) w) as Hrej.
  { intros err rep. apply Hend; [auto with inert|done| |done|done]. exists (ItemRejectedParse err). cbn. by rewrite app_nil_r. }
  destruct ids as [ids|]; [|apply Hrej]. destruct (check_column_limit ex) eqn:Ecol; [apply Hrej|].
  apply wp_bind, wp_this. eapply wp_step; [eapply allocate_spec; exact Hh|]. intros source w1 (-> & _ & _ & Hh1 & next & E1 & D1).
  assert (inv w1 st docss log cut doubt) as Hi1.
  { eapply inv_same; [..|exact Hh1| |exact Hi]; rewrite ?E1; [split; by rewrite ?E1, ?D1|done|done]. }
  assert (idle w w1) as Hid by by split; rewrite E1.
  pose proof (seg_docs_add (en_dict (wo_engine w)) (en_tag_dict (wo_engine w)) (bt_seg bt) docs (mkDoc logical text (tags_at tags idx) true) ast ex ids 1
    (default (legacy_rank_values (en_tag_dict (wo_engine w)) ids) (mjoin (ranks !! idx))) (N.max (en_next_source_generation (wo_engine w)) 1)
    (compile_knobs (en_config (wo_engine w)))) as Hadd. cbv zeta in Hadd.
  assert (dict_wf (en_dict (wo_engine w))) as Hwf by by eapply inv_dict_wf.
  specialize (Hadd Hs Hwf Hu (Hroom ids eq_refl eq_refl) eq_refl Hp Hc Hids eq_refl). cbn [doc_logical] in Hadd. destruct (refused _ _).
  - apply wp_bind. eapply wp_reckon; [exact Hadd|]. apply Hend; [auto with inert|done| |done|done]. exists ItemRejectedClassD. cbn. by rewrite app_nil_r.
  - destruct Hadd as (a & seg & E & Hu' & Hs' & _). apply wp_bind. eapply wp_reckon; [exact E|]. apply Hend; [auto with inert|done| |done|done].
    by exists (Ingested (ac_class a)).
Qed.

Lemma batch_items_spec tags ranks queries idx exs ids bt docs before statuses w st docss log cut doubt :
  inv w st docss log cut doubt → seg_docs (en_dict (wo_engine w)) (en_tag_dict (wo_engine w)) (bt_seg bt) docs → unsealed (bt_seg bt) →
  Forall2 (form_ok (en_dict (wo_engine w))) queries exs → Forall2 status_ok exs statuses → bt_status bt = before ++ statuses → length before = idx →
  Forall2 (ids_ok (en_tag_dict (wo_engine w)) tags) (extracted_of idx queries exs) ids → items_room tags ranks bt (zip (extracted_of idx queries exs) ids) w →
  wp (batch_items tags ranks bt (zip (extracted_of idx queries exs) ids)) (λ bt' w', inv w' st docss log cut doubt ∧ idle w w' ∧
    ∃ statuses', bt_status bt' = before ++ statuses' ∧ length statuses' = length queries ∧
      seg_docs (en_dict (wo_engine w)) (en_tag_dict (wo_engine w)) (bt_seg bt') (docs ++ batch_docs tags idx queries statuses')) w.
Proof.
  revert idx exs ids bt docs before statuses w. induction queries as [|[logical text] queries IH];
    intros idx exs ids bt docs before statuses w Hi Hs Hu Hf Hst Eb Hlen Hids Hroom.
  { apply Forall2_nil_inv_l in Hf as ->. apply Forall2_nil_inv_l in Hst as ->. cbn [extracted_of batch_docs]. wp_go. split_and!; [done|done|]. exists [].
    by rewrite (app_nil_r docs), Eb. }
  apply Forall2_cons_inv_l in Hf as (ex & exs' & Hex & Hf & ->). apply Forall2_cons_inv_l in Hst as (status & statuses' & Hstat & Hst & ->).
  destruct ex as [ex|]; cbn [extracted_of app] in *.
  - apply Forall2_cons_inv_l in Hids as (id & ids' & Hid & Hids & ->). cbn [zip zip_with batch_items items_room] in *. destruct Hroom as [Hr1 Hr2].
    destruct (wp_total _ _ _ (batch_item_spec tags ranks bt idx logical ex text id docs w st docss log cut doubt Hi Hs Hu Hex Hid Hr1))
      as (bt1 & w1 & Erun & Hi1 & Hidle & Hu1 & status1 & Est1 & Hs1). apply wp_bind. unfold wp at 1. rewrite Erun.
    rewrite Eb, <-Hlen, insert_app_r_alt, Nat.sub_diag in Est1 by done. cbn in Est1.
    eapply wp_mono; [apply (IH (S idx) exs' ids' bt1 (docs ++ batch_doc tags idx (logical, text) status1) (before ++ [status1]) statuses' w1)|].
    all: rewrite ?(id_dict _ _ Hidle), ?(id_tags _ _ Hidle); try done. { by rewrite <-app_assoc. } { rewrite length_app. cbn. lia. } { by apply Hr2. }
    intros bt' w' (Hi' & Hid' & sts & E & El & Hs'). split_and!; [done|by etrans|]. exists (status1 :: sts).
    rewrite E, <-!app_assoc in *. cbn. split_and!; [done|lia|done].
  - destruct Hstat as [err ->]. eapply wp_mono; [eapply (IH (S idx) exs' ids bt docs (before ++ [_]) statuses' w); try done; [by rewrite <-app_assoc|rewrite length_app; cbn; lia]|].
    intros bt' w' (Hi' & Hid' & sts & E & El & Hs'). split_and!; [done|done|]. exists (ItemRejectedParse err :: sts). rewrite E, <-!app_assoc. cbn. split_and!; [done|lia|done].
Qed.

(** ** The commit of the batch *)

(** The segment of the batch pushed, before the commit. *)
Definition pushing w1 slots b (docs : list Doc) : World A B := refreshed (relaid (slots ++ [new_slot w1 b docs]) (tokened w1)).

Lemma pushing_spec w w1 st docss log cut doubt slots seg docs b :
  consistent w st docss log cut doubt → laid w slots (st_segments st) → slots_ok norm w slots → grew 1 w w1 → sealed_as norm w w1 seg docs b →
  seg_docs (en_dict (wo_engine w)) (en_tag_dict (wo_engine w)) seg docs →
  placed norm w (pushing w1 slots b docs) st (mkState (st_segments st ++ [docs]) (st_memtable st)) docss log cut slots [new_slot w1 b docs] [].
Proof.
  intros Hi Hl Hok Hg Hsl Hs. pose proof (place_new_slot norm w w1 1 st docss log cut doubt slots [] [] seg docs b Hi) as Hpl.
  rewrite !app_nil_r in Hpl. specialize (Hpl Hok Hg Hsl Hs). rewrite fmap_app, <-(la_docs _ _ _ Hl) in Hpl. by apply placed_refreshed.
Qed.

Lemma live_batch segs mem docs : live (mkState (segs ++ [docs]) mem) ≡ₚ live (mkState segs mem) ++ live_docs docs.
Proof. unfold live, all_docs. cbn. rewrite join_app. cbn. rewrite app_nil_r, !live_docs_app. solve_Permutation. Qed.

Lemma commit_base_segment_spec w st docss log cut doubt seg docs accepted :
  inv w st docss log cut doubt → id_room w (length (en_segments (wo_engine w)) + 2) →
  seg_docs (en_dict (wo_engine w)) (en_tag_dict (wo_engine w)) seg docs →
  wp (commit_base_segment seg accepted) (λ ok w', 
    if ok : bool then doubt = [] ∧ inv w' (mkState (st_segments st ++ [docs]) (st_memtable st)) (st_segments st ++ [docs]) log cut []
    else ∃ docss' doubt', inv w' st docss' log cut doubt' ∧ (doubt' = doubt ∨ doubt = [] ∧ doubt' = live_docs docs)) w.
Proof.
  intros Hi Hr Hs. pose proof (iv_docs _ _ _ _ _ _ _ Hi) as Hh. destruct (slots_of _ _ _ _ Hh) as (slots & Hl & Hok). unfold commit_base_segment.
  eapply wp_step; [eapply build_durable_base_spec; [apply Hh|unfold id_room in *; lia|exact Hs]|]. intros built w1 [Hg Hb].
  pose proof (grew_next _ _ _ Hg) as Hn1. destruct built as [[b path]|]; [|wp_go; exists docss, doubt; split; [by eapply inv_grew|by left]].
  destruct Hb as [Hsl Epath]. cbv zeta. eapply wp_inert; [auto with inert|]. intros staged w2 Hc. 
  assert (grew 1 w w2) as Hg2 by (eapply (grew_trans 1 0); [exact Hg|by apply grew_calm]).
  assert (sealed_as norm w w2 seg docs b) as Hsl2.
  { destruct Hsl as [? Hf]. split; [done|]. intros file E. destruct (Hf file E). rewrite (sc_next_seg_id _ _ (cl_core _ _ Hc)). split; [done|].
    eapply stored_frame; [|done]. by rewrite (cl_segments _ _ Hc). }
  assert (inv w2 st docss log cut doubt) as Hi2 by by eapply inv_grew.
  destruct staged as [staged|].
  2:{ eapply wp_step; [apply remove_path_spec; [exact Hi2|]|intros [] w3 [Hi3 _]; wp_go; exists docss, doubt; split; [done|by left]].
      intros file ->. right. destruct (proj2 Hsl file Epath) as [Hf _]. destruct Hg2 as (next & _ & Hcore & Hm & _). split; intros Hin.
      - rewrite (sc_segments _ _ Hcore) in Hin. cbn in Hin. pose proof (files_below _ _ _ _ (hd_files _ _ _ _ Hh)) as Hb. rewrite Forall_forall in Hb. specialize (Hb _ Hin). cbn in Hb. lia.
      - unfold manifest_files in Hin. rewrite Hm in Hin. pose proof (manifest_files_below _ _ _ _ _ Hh Hin). lia. }
  pose proof (pushing_spec _ _ _ _ _ _ _ _ _ _ _ Hi Hl Hok Hg2 Hsl2 Hs) as Hpl. unfold push_segment, fresh_segment_generation. wp_go. apply wp_refresh.
  match goal with |- wp _ _ ?w3 => assert (w3 = pushing w2 slots b docs) as -> end.
  { unfold pushing, refreshed, relaid, tokened. cbn. rewrite !fmap_app. cbn. destruct Hg2 as (next & _ & [] & _). cbn in *.
    by rewrite <-(la_segments _ _ _ Hl), <-(la_generations _ _ _ Hl), sc_segments, sc_generations. }
  set (w3 := pushing w2 slots b docs) in *. set (st1 := mkState (st_segments st ++ [docs]) (st_memtable st)) in *.
  assert (length (en_segments (wo_engine w3)) = S (length (en_segments (wo_engine w)))) as Hlen.
  { pose proof (pl_laid _ _ _ _ _ _ _ _ _ _ _ Hpl) as [-> _ _]. rewrite (la_segments _ _ _ Hl), !length_fmap, !length_app. cbn. lia. }
  assert (en_next_seg_id (wo_engine w3) ≤ en_next_seg_id (wo_engine w) + 1) as Hn3 by (pose proof (grew_next _ _ _ Hg2); cbn; lia).
  apply wp_bind, wp_this. eapply wp_step; [eapply commit_staged_spec; [apply Hpl|unfold id_room in *; lia]|]. intros ok w4 Ho.
  apply (outcome_result _ _ _ _ _ _ log cut) in Ho; [|apply Hpl|apply Hpl]. destruct ok; cbn [negb].
  - inversion Ho as [Hp Hsync _ _ _ _ _ Hi4| |]. rewrite (sl_on_disk _ _ (pl_log _ _ _ _ _ _ _ _ _ _ _ Hpl)) in Hsync.
    destruct (synced_mem _ _ _ _ _ _ (iv_step _ _ _ _ _ _ _ Hi) Hsync) as [-> _].
    assert (inv w4 st1 (st_segments st1) log cut []) as Hi4' by (split; [done|eapply capable_persisted; [exact Hp|apply capable_refreshed]]).
    apply wp_inert; [destruct (_ && _); auto with inert|]. intros [] w5 Hc5. apply wp_inert; [destruct (bool_decide _); auto with inert|]. intros [] w6 Hc6. wp_go.
    split; [done|]. eapply inv_calm; [|exact Hi4']. by etrans.
  - destruct (rolled_back norm w w3 w4 (length (en_segments (wo_engine w3))) st st1 docss log cut doubt slots [] [new_slot w2 b docs] [] (live_docs docs)) as (slots' & new' & after' & docss' & doubt' & Hpb & Hk & Hd & Hgone);
      [apply Hi|by rewrite app_nil_r|by rewrite app_nil_r|apply Hpl|apply Hpl|apply Hpl|apply Hpl|done|destruct st; apply live_batch|done|].
    unfold pop_segment. apply wp_bind, wp_assigning. cbn beta. rewrite (popped_world _ _ _ _ _ _ _ _ _ _ Hpb). apply wp_bind, wp_refresh.
    eapply wp_step; [apply remove_path_spec; [apply consistent_refreshed, Hk|]|intros [] w5 [Hi5 _]; wp_go; by exists docss', doubt'].
    intros file ->. destruct (Hgone file) as [?|[? ?]]; [rewrite omap_slot_file; cbn; rewrite Epath; by left|destruct (proj2 Hsl file Epath); lia|by left|right].
    cbn. by rewrite <-omap_slot_file.
Qed.

(** ** Bulk ingest *)

Lemma live_batch_docs tags idx queries statuses : live_docs (batch_docs tags idx queries statuses) = batch_docs tags idx queries statuses.
Proof.
  revert idx statuses. induction queries as [|query queries IH]; intros idx [|status statuses]; try done. cbn [batch_docs]. rewrite live_docs_app, IH. by destruct status.
Qed.

#[local] Abbreviation batch_start queries := (extract_batch (A:=A) (B:=B) 0 (mkPassA [] [] (mkIngestReport 0 0 0)) queries).

(** Room for the features, the tags and the rows of the batch, and for the merge
    that may follow it. *)
Record batch_room (order : Dict → list N) (queries : list (N * rstring)) (tags : list (list (rstring * rstring))) (ranks : list (option Z)) w : Prop := {
  br_ids : id_room w (2 * length (en_segments (wo_engine w)) + 6);
  br_extract w1 : seal_before_first_mask w = Some (true, w1) → extract_room queries w1;
  br_tags w1 pa w2 w3 : seal_before_first_mask w = Some (true, w1) → batch_start queries w1 = Some (pa, w2) → finalize_dict order w2 = Some (tt, w3) →
    tags_room tags (pa_extracted pa) w3;
  br_items w1 pa w2 w3 ids w4 : seal_before_first_mask w = Some (true, w1) → batch_start queries w1 = Some (pa, w2) → finalize_dict order w2 = Some (tt, w3) →
    intern_batch tags (pa_extracted pa) w3 = Some (ids, w4) →
    items_room tags ranks (mkBatch (with_epoch (en_vocab_epoch (wo_engine w4)) segment_new) [] (pa_status pa) (pa_report pa)) (zip (pa_extracted pa) ids) w4;
  br_merge r w1 : ingest_batch order queries tags ranks w = Some (Some r, w1) → capacity (2 + length (en_segments (wo_engine w1))) w1;
}.

(** What a batch leaves, with the statuses of its queries when it was committed. *)
Definition batch_result w (queries : list (N * rstring)) (tags : list (list (rstring * rstring))) (reply : option (list IngestItemStatus)) (l doubt : list Doc) cut : Prop :=
  ∃ l' doubt' cut', serving norm w l' doubt' cut' ∧ calmer cut cut' ∧
    match reply with
    | Some statuses => doubt = [] ∧ doubt' = [] ∧ length statuses = length queries ∧ l' ≡ₚ l ++ batch_docs tags 0 queries statuses
    | None => l' = l ∧ (doubt' = doubt ∨ doubt = [] ∧ ∃ statuses, length statuses = length queries ∧ doubt' = batch_docs tags 0 queries statuses)
    end.

Lemma ingest_batch_spec order queries tags ranks w st docss log cut doubt :
  (∀ d, dict_wf d → mask_order d (order d)) → inv w st docss log cut doubt → limits_ok (wo_engine w) → batch_room order queries tags ranks w →
  wp (ingest_batch order queries tags ranks) (λ r w', batch_result w' queries tags (snd <$> r) (live st) doubt cut) w.
Proof.
  intros Horder Hi Hlim Hroom. pose proof (br_ids _ _ _ _ _ Hroom) as Hids. unfold ingest_batch.
  destruct (wp_total _ _ _ (seal_first_spec w st docss log cut doubt Hi ltac:(unfold id_room in *; lia))) as (sealed & w1 & E1 & Hg & st1 & docss1 & log1 & cut1 & Hi1 & Hlive & Hcalm).
  apply wp_bind. unfold wp at 1. rewrite E1. destruct sealed; cbn [negb].
  2:{ wp_go. exists (live st), doubt, cut1. split_and!; [by exists st1, docss1, log1|done|by split; [|left]]. }
  assert (limits_ok (wo_engine w1)) as Hlim1 by (unfold limits_ok in *; by rewrite (lg_config _ _ Hg)).
  destruct (wp_total _ _ _ (extract_batch_spec queries 0 (mkPassA [] [] (mkIngestReport 0 0 0)) w1 _ _ _ _ _ Hi1 Hlim1 (br_extract _ _ _ _ _ Hroom _ E1)))
    as (pa & w2 & E2 & Hi2 & Hw2 & exs & statuses & Eex & Est & Hforms & Hst). cbn in Eex, Est.
  apply wp_bind. unfold wp at 1. rewrite E2.
  destruct (wp_total _ _ _ (finalize_dict_spec order w2 _ _ _ _ _ Horder Hi2)) as ([] & w3 & E3 & Hi3 & Hw3). apply wp_bind. unfold wp at 1. rewrite E3.
  destruct (wp_total _ _ _ (intern_batch_spec tags _ w3 _ _ _ _ _ Hi3 (br_tags _ _ _ _ _ Hroom _ _ _ _ E1 E2 E3))) as (ids & w4 & E4 & Hi4 & Hw4 & Ed4 & Hids4).
  apply wp_bind. unfold wp at 1. rewrite E4. apply wp_bind, wp_this. pose proof (br_items _ _ _ _ _ Hroom _ _ _ _ _ _ E1 E2 E3 E4) as Hitems.
  rewrite Eex in *. eapply wp_step.
  { eapply (batch_items_spec tags ranks queries 0 exs ids _ [] [] statuses w4); [exact Hi4|cbn; apply seg_docs_epoch, seg_docs_new|done| |exact Hst|exact Est|done|exact Hids4|exact Hitems].
    eapply Forall2_impl; [exact Hforms|]. intros query ex. apply form_ok_mono. rewrite Ed4. apply (gr_names _ _ _ _ (wd_grown _ _ Hw3)). }
  intros bt w5 (Hi5 & Hid & sts & Est5 & Hlen & Hs5). cbn in Est5, Hs5. rewrite <-(id_dict _ _ Hid), <-(id_tags _ _ Hid) in Hs5.
  destruct (seg_docs_seal _ _ _ _ Hs5) as (seg & Eseal & Hs6). rewrite Eseal. apply wp_bind. eapply wp_reckon; [done|].
  eapply wp_step; [eapply (commit_base_segment_spec w5); [exact Hi5| |exact Hs6]|].
  { destruct Hg as [_ Hn Hl], Hw2, Hw3, Hw4, Hid. unfold id_room in *. rewrite id_next0, wd_next2, wd_next1, wd_next0, id_segments0, wd_segments2, wd_segments1, wd_segments0. lia. }
  intros ok w6 Hr. wp_go. destruct ok.
  - destruct Hr as [-> Hi6]. eexists _, [], cut1. split_and!; [by eexists _, _, _|done|]. cbn [fmap option_fmap option_map snd]. rewrite Est5. split_and!; [done..|].
    destruct st1 as [segs mem]. cbn [st_segments st_memtable]. by rewrite live_batch, live_batch_docs, Hlive.
  - destruct Hr as (docss6 & doubt6 & Hi6 & Hd). exists (live st), doubt6, cut1. split_and!; [by exists st1, docss6, log1|done|]. split; [done|].
    destruct Hd as [->|[-> ->]]; [by left|right]. split; [done|]. exists sts. by rewrite live_batch_docs.
Qed.

Lemma bulk_ingest_spec order queries tags ranks w st docss log cut doubt :
  (∀ d, dict_wf d → mask_order d (order d)) → inv w st docss log cut doubt → limits_ok (wo_engine w) → batch_room order queries tags ranks w →
  wp (try_bulk_ingest_detailed_with_tags_and_ranks order queries tags ranks) (λ r w', batch_result w' queries tags (snd <$> r) (live st) doubt cut) w.
Proof.
  intros Horder Hi Hlim Hroom. destruct (wp_total _ _ _ (ingest_batch_spec _ _ _ _ _ _ _ _ _ _ Horder Hi Hlim Hroom)) as (r & w1 & E1 & Hr).
  unfold try_bulk_ingest_detailed_with_tags_and_ranks. apply wp_bind. unfold wp at 1. rewrite E1. destruct r as [r|]; [|by wp_go].
  destruct Hr as (l' & doubt' & cut' & (st1 & docss1 & log1 & Hi1 & El) & Hc & Hrest). wp_go.
  eapply wp_mono; [eapply compact_after_spec; [exact Hi1|exact El|by eapply br_merge]|]. intros [] w2 Hs. wp_go. by exists l', doubt', cut'.
Qed.

End batches.
