(* ===== verification/Restart.v ===== *)
(** * Restarting an engine

    Opening the data directory of an engine, with any outcome of the disk steps.
    When every segment of the manifest can be opened, the engine serves the
    documents of the manifest with the log replayed over them; otherwise the open
    fails, or the engine reports that its recovery is incomplete, and in both cases
    the manifest and the segment files are as they were. *)

From S2P Require Import Prelude Util Text Utf8 Dsl Dictionary FramedLog Wal Sources Index Phrase Automaton Normalize Analyze Compile Plan Extract.
From S2P Require Import View Ownership Tags Store Segment Merge Recompile Engine Compaction Ingest Open EngineLogic Documents Durable Replay Layout Housekeeping Writes.

(** ** The log *)

Lemma recover_found wl log :
  wal_ok wl log None → ∃ skipped, recover (la_file (wal_file wl)) = Some (inr (mkWalRecovery (after_checkpoint log) skipped)).
Proof.
  intros Hw. destruct (wal_ok_scan _ _ _ Hw) as [(bodies & torn & _ & Hfile & Hread & _)|(err & e & reached & body & [=] & _)].
  unfold recover. assert (header_was_interrupted (la_file (wal_file wl)) supported_headers = false) as -> by (rewrite Hfile; apply not_interrupted).
  rewrite Hread. cbn. rewrite app_nil_r. by eexists.
Qed.

Lemma wal_entries_ok wl log cut : wal_ok wl log cut → Forall entry_ok log.
Proof.
  intros Hw. destruct (wo_file _ _ _ Hw) as (bodies & torn & Hc & _). clear -Hc. induction Hc as [|x body log bodies Hx _ IH]; constructor; [apply Hx|done].
Qed.

Lemma ensure_seq_after_ok wl log watermark :
  wal_ok wl log None → watermark + 1 < 2 ^ 64 → wal_ok (ensure_seq_after wl watermark) log None ∧ watermark < next_seq (ensure_seq_after wl watermark) ∧
  wal_file (ensure_seq_after wl watermark) = wal_file wl.
Proof.
  intros Hw Hm. pose proof (wo_next _ _ _ Hw) as Hn. unfold ensure_seq_after. destruct (N.leb_spec (next_seq wl) watermark) as [Hle|Hlt]; [|done].
  assert (sat_add 64 watermark 1 = watermark + 1) as E.
  { unfold sat_add. change (umax 64) with 18446744073709551615. change (2 ^ 64) with 18446744073709551616 in Hm. lia. }
  rewrite E. split_and!; [|cbn; lia|done]. apply (wal_ok_touched wl); [done|lia|done|by right].
Qed.

Lemma sublist_same_length {X} (l k : list X) : l `sublist_of` k → (length k ≤ length l)%nat → l = k.
Proof.
  induction 1 as [|x l k _ IH|x l k Hs _]; intros Hl; [done| |].
  - f_equal. apply IH. simpl in Hl. lia.
  - apply sublist_length in Hs. simpl in Hl. lia.
Qed.

(** ** What a replay leaves alone *)

Create HintDb indoors.

Section indoors.
Context {A B : Type} `{Daachorse A} `{Roaring B}.
Implicit Types (w : World A B).

(** The disk, and what the engine says about its recovery. *)
Record unmoved w w' : Prop := {
  um_disk : wo_disk w' = wo_disk w;
  um_state : en_source_commit_state (wo_engine w') = en_source_commit_state (wo_engine w);
  um_healthy : en_persistence_healthy (wo_engine w') = en_persistence_healthy (wo_engine w);
}.

#[local] Instance unmoved_preorder : PreOrder unmoved.
Proof. split; [by intros w|]. intros w1 w2 w3 [] []. split; congruence. Qed.

Definition indoors {X} (m : Eng A B X) : Prop := ∀ w r w', m w = Some (r, w') → unmoved w w'.

Lemma wp_and_indoors {X} (m : Eng A B X) Q w : wp m Q w → indoors m → wp m (λ x w', Q x w' ∧ unmoved w w') w.
Proof. unfold wp. intros Hm Hi. destruct (m w) as [[x w']|] eqn:E; [|done]. split; [done|by eapply Hi]. Qed.

Lemma indoors_ret {X} (x : X) : indoors (eng_ret x).
Proof. by intros w r w' [= _ <-]. Qed.

Lemma indoors_this : indoors this.
Proof. by intros w r w' [= _ <-]. Qed.

Lemma indoors_reckon {X} (o : option X) : indoors (reckon o).
Proof. unfold reckon. intros w r w'. destruct o; [|done]. by intros [= _ <-]. Qed.

Lemma indoors_bind {X Y} (m : Eng A B X) (k : X → Eng A B Y) : indoors m → (∀ x, indoors (k x)) → indoors (eng_bind m k).
Proof. intros Hm Hk w r w'. unfold eng_bind. destruct (m w) as [[x w1]|] eqn:E; [|done]. intros E'. etrans; [by eapply Hm|by eapply Hk]. Qed.

Lemma indoors_assigning f :
  (∀ e, en_source_commit_state (f e) = en_source_commit_state e ∧ en_persistence_healthy (f e) = en_persistence_healthy e) → indoors (assigning f).
Proof. intros Hf w r w' [= _ <-]. destruct (Hf (wo_engine w)). by split. Qed.

Lemma indoors_run_each {X} (l : list X) (f : X → Eng A B unit) : (∀ x, indoors (f x)) → indoors (run_each l f).
Proof. intros Hf. induction l as [|x l IH]; simpl; [apply indoors_ret|]. by apply indoors_bind. Qed.

End indoors.

#[export] Hint Resolve indoors_ret indoors_this indoors_reckon : indoors.
#[export] Hint Extern 1 (indoors (eng_bind _ _)) => apply indoors_bind; [|intros ?] : indoors.
#[export] Hint Extern 1 (indoors (assigning _)) => (apply indoors_assigning; by intros []) : indoors.
#[export] Hint Extern 1 (indoors (run_each _ _)) => apply indoors_run_each; intros ? : indoors.
#[export] Hint Extern 2 (indoors (if ?b then _ else _)) => destruct b : indoors.
#[export] Hint Extern 2 (indoors (match ?x with _ => _ end)) => destruct x : indoors.

Section replay_indoors.
Context {A B : Type} `{Daachorse A} `{Roaring B}.

Lemma tombstone_copy_indoors copy : indoors (tombstone_copy (A:=A) (B:=B) copy).
Proof. unfold tombstone_copy, tombstone_memtable, tombstone_segment. auto 20 with indoors. Qed.

Lemma apply_delete_indoors logical in_segments : indoors (apply_delete_by_logical (A:=A) (B:=B) logical in_segments).
Proof.
  pose proof tombstone_copy_indoors. unfold apply_delete_by_logical, source_removed, writing_store, refresh_phrase_capability. auto 20 with indoors.
Qed.

Lemma retire_indoors logical kept : indoors (retire_replayed_copies (A:=A) (B:=B) logical kept).
Proof.
  unfold retire_replayed_copies, tombstone_memtable, source_removed, writing_store, refresh_phrase_capability. auto 20 with indoors.
Qed.

Lemma replay_insert_indoors p : indoors (replay_insert (A:=A) (B:=B) p).
Proof.
  unfold replay_insert, intern_tags_into, extract_into, replay_source_generation, add_to_memtable, record_compiled, refresh_phrase_capability,
    publish_source, writing_store. auto 30 with indoors.
Qed.

Lemma replay_upsert_indoors p in_segments : indoors (replay_upsert (A:=A) (B:=B) p in_segments).
Proof.
  pose proof tombstone_copy_indoors. unfold replay_upsert, apply_upsert, intern_tags_into, extract_into, replay_source_generation, add_to_memtable,
    record_compiled, refresh_phrase_capability, publish_source, writing_store. auto 30 with indoors.
Qed.

Lemma replay_wal_tail_indoors wal watermark : indoors (replay_wal_tail (A:=A) (B:=B) wal watermark).
Proof.
  pose proof apply_delete_indoors. pose proof retire_indoors. pose proof replay_insert_indoors. pose proof replay_upsert_indoors.
  unfold replay_wal_tail, replay_entries, replay_entry, replay_tombstone, tombstone_memtable, tombstone_segment, refresh_phrase_capability.
  auto 20 with indoors.
Qed.

Lemma mark_selected_indoors : indoors (mark_selected_sources_current (A:=A) (B:=B)).
Proof. unfold mark_selected_sources_current. auto with indoors. Qed.

End replay_indoors.

Section restart.
Context {A B : Type} `{DaachorseLaws A} `{RoaringLaws B} (norm : Normalizer A) (patterns : list rstring) (Hnorm : norm_wf norm patterns).
Implicit Types (w : World A B) (st : State) (b : BaseSegment B).

#[local] Instance norm_analyzer_restart : Analyzer := normalizer_analyzer norm.
#[local] Instance norm_laws_restart : AnalyzerLaws := normalizer_laws norm patterns Hnorm.
#[local] Abbreviation holds_docs := (holds_docs norm).
#[local] Abbreviation inv := (inv norm).
#[local] Abbreviation consistent := (consistent norm).
#[local] Abbreviation serving := (serving norm).

(** ** Replaying an entry *)

Definition entry_room w (x : WalEntry) : Prop :=
  match x with WalInsert p | WalUpsert p => put_room norm (wo_engine w) (wp_text p) (wp_tags p) | _ => True end.

Lemma sealed_uncaptured w st docss watermark p : holds_docs w st docss → captured (wo_engine w) watermark p = false.
Proof. intros Hh. destruct (hd_sealed _ _ _ _ Hh) as [s E]. unfold captured. by rewrite E. Qed.

Lemma rows_changed_widened d td w : rows_changed w (widened d td w).
Proof. by split. Qed.

Lemma replay_source_spec w st docss g :
  holds_docs w st docss → (∀ g', g = Some g' → fits 64 g') →
  wp (replay_source_generation g) (λ _ w', holds_docs w' st docss ∧ ∃ next, wo_engine w' = with_next_source_generation next (wo_engine w) ∧ wo_disk w' = wo_disk w) w.
Proof.
  intros Hh Hg. assert (∃ next, wo_engine w = with_next_source_generation next (wo_engine w) ∧ wo_disk w = wo_disk w) as Hsame.
  { exists (en_next_source_generation (wo_engine w)). by destruct w as [[] ? ?]. }
  unfold replay_source_generation. destruct g as [g|]; [|by wp_go]. destruct (g =? 0); [by wp_go|]. wp_go. destruct (_ <=? _); wp_go; [|done].
  split; [|by eexists]. destruct Hh as [Hdir Hown Hsl [] [] Hd]. split; try done; split; try done. cbn. unfold fits, wrap.
  assert (((g + 1) mod 2 ^ 64) < 2 ^ 64) by by apply N.mod_lt. change (2 ^ 64) with 18446744073709551616 in *. lia.
Qed.

Lemma replay_insert_spec w st docss p :
  holds_docs w st docss → put_accepted norm p → put_ok p → put_room norm (wo_engine w) (wp_text p) (wp_tags p) →
  wp (replay_insert p) (λ _ w', holds_docs w' (mkState (st_segments st) (st_memtable st ++ [doc_of p])) docss ∧ rows_changed w w' ∧ capable (wo_engine w')) w.
Proof.
  intros Hh (ast & Hp & Hq & Href) Hok [Htags Hquery]. destruct (Hquery ast Hp) as (_ & Hroom & Hstore). unfold replay_insert. rewrite Hp.
  apply wp_bind. eapply wp_reckon; [done|]. eapply wp_step; [by eapply intern_tags_into_spec|]. intros ids w1 (-> & -> & Hh1 & Hst). wp_go.
  eapply wp_mono; [by eapply extract_into_spec|]. intros ex w2 (d' & Hc & ->). cbn in Hc.
  set (w2 := mkWorld _ _ _). assert (holds_docs w2 st docss) as Hh2.
  { pose proof (hd_engine _ _ _ _ Hh1) as He. apply (holds_docs_grown _ _ _ _ d' (en_tag_dict (wo_engine w2)) Hh1);
      [by eapply grown_compiled|eapply dict_ok_compiled; [apply He|exact Hc]|apply He]. }
  eapply wp_step; [eapply replay_source_spec; [exact Hh2|apply Hok]|]. intros source [e3 k3 f3] (Hh3 & next & E3 & D3). cbn in E3, D3. subst e3 k3.
  eapply wp_step; [eapply (add_to_memtable_spec _ _ _ _ (doc_of p) ast); [exact Hh3|done|by exists (en_dict (wo_engine w)), d'|done|eapply Hstore, Hc|done..]|].
  intros added w4 (a & seg & -> & -> & Hh4 & _). eapply wp_inert; [auto with inert|]. intros [] w5 Hc5. apply wp_bind, wp_refresh.
  eapply wp_mono; [apply writing_store_inert|]. intros [] w7 Hc7. split_and!.
  - eapply holds_docs_calm; [exact Hc7|]. apply holds_docs_refreshed. by eapply holds_docs_calm.
  - etrans; [|by apply rows_changed_calm]. etrans; [|apply rows_changed_refreshed]. etrans; [|by apply rows_changed_calm]. by split.
  - eapply capable_core; [apply Hc7|apply capable_refreshed].
Qed.

Lemma replay_upsert_spec w st docss p in_segments :
  holds_docs w st docss → put_accepted norm p → put_ok p → put_room norm (wo_engine w) (wp_text p) (wp_tags p) →
  wp (replay_upsert p in_segments) (λ _ w', holds_docs w' (mkState (if in_segments then kill_logical (wp_logical p) <$> st_segments st else st_segments st)
    (kill_logical (wp_logical p) (st_memtable st) ++ [doc_of p])) docss ∧ rows_changed w w' ∧ capable (wo_engine w')) w.
Proof.
  intros Hh (ast & Hp & Hq & Href) Hok [Htags Hquery]. destruct (Hquery ast Hp) as (_ & Hroom & Hstore). unfold replay_upsert. rewrite Hp.
  apply wp_bind. eapply wp_reckon; [done|]. eapply wp_step; [by eapply extract_into_spec|]. intros ex w1 (d' & Hc & ->).
  set (w1 := mkWorld _ _ _). assert (holds_docs w1 st docss) as Hh1.
  { pose proof (hd_engine _ _ _ _ Hh) as He. apply (holds_docs_grown _ _ _ _ d' (en_tag_dict (wo_engine w)) Hh);
      [by eapply grown_compiled|eapply dict_ok_compiled; [apply He|exact Hc]|apply He]. }
  eapply wp_step; [eapply replay_source_spec; [exact Hh1|apply Hok]|]. intros source [e3 k3 f3] (Hh3 & next & E3 & D3). cbn in E3, D3. subst e3 k3.
  eapply wp_step; [eapply (apply_upsert_spec _ _ _ _ (doc_of p) ast); [exact Hh3|done|by exists (en_dict (wo_engine w)), d'|done|eapply Hstore, Hc|done|done]|].
  intros out w4 (_ & Hh4 & Hrows & Hcap & _). wp_go. split_and!; [done| |done]. etrans; [|exact Hrows]. by split.
Qed.

Lemma replay_entry_spec w st docss sealed watermark x :
  holds_docs w st docss → entry_accepted norm x → entry_ok x → entry_room w x →
  wp (replay_entry (Some sealed) watermark x) (λ _ w', holds_docs w' (replay_step sealed watermark st x) docss ∧ rows_changed w w' ∧
    (capable (wo_engine w) → capable (wo_engine w'))) w.
Proof.
  intros Hh Hacc [_ Hok] Hroom. unfold replay_entry, is_sealed, replay_step. destruct (entry_seq x <=? sealed) eqn:Es; [by wp_go|].
  destruct x as [p|seq i local|seq file|seq logical|p]; cbn [entry_seq seg_effect mem_effect] in *.
  - wp_go. rewrite (sealed_uncaptured _ _ _ _ _ Hh). eapply wp_mono; [eapply replay_insert_spec; [done|done|apply Hok|done]|]. intros _ w' (Hh' & Hr & Hcap). split; [|done]. by destruct (_ <? _).
  - destruct (i =? umax 32) eqn:Ei; cbn [orb].
    + unfold replay_tombstone. rewrite Ei. eapply wp_step; [by eapply tombstone_memtable_spec|]. intros [] w1 [Hh1 [Hr1 _]].
      apply wp_refresh. split_and!; [|etrans; [done|apply rows_changed_refreshed]|intros _; apply capable_refreshed].
      destruct (_ <? _); by apply holds_docs_refreshed.
    + destruct (watermark <? seq); [|wp_go; split; [by destruct st|done]]. unfold replay_tombstone. rewrite Ei.
      eapply wp_step; [by eapply tombstone_segment_spec|]. intros [] w1 [Hh1 [Hr1 _]].
      apply wp_refresh. split_and!; [by apply holds_docs_refreshed|etrans; [done|apply rows_changed_refreshed]|intros _; apply capable_refreshed].
  - wp_go. split; [|done]. destruct st. by destruct (_ <? _).
  - eapply wp_step; [by eapply apply_delete_spec|]. intros count w1 (Hh1 & Hr1 & Hcap). wp_go. split; [|done]. by destruct (_ <? _).
  - wp_go. rewrite (sealed_uncaptured _ _ _ _ _ Hh). eapply wp_mono; [eapply replay_upsert_spec; [done|done|apply Hok|done]|]. intros _ w' (Hh' & Hr & Hcap). split; [|done]. by destruct (_ <? _).
Qed.

(** Room for every entry at the point the replay reaches it. *)
Definition replay_room w sealed watermark (entries : list WalEntry) : Prop :=
  ∀ done x rest w', entries = done ++ x :: rest → replay_entries sealed watermark done w = Some (tt, w') → entry_room w' x.

Lemma run_each_snoc {X} (f : X → Eng A B unit) l x w w1 w2 :
  run_each l f w = Some (tt, w1) → f x w1 = Some (tt, w2) → run_each (l ++ [x]) f w = Some (tt, w2).
Proof.
  revert w. induction l as [|y l IH]; intros w; cbn; unfold eng_bind.
  - intros [= ->] ->. done.
  - destruct (f y w) as [[[] w']|]; [|done]. apply IH.
Qed.

Lemma replay_entries_spec w dss docss sealed watermark entries :
  holds_docs w (mkState dss []) docss → Forall (entry_accepted norm) entries → Forall entry_ok entries →
  replay_room w (Some sealed) watermark entries →
  wp (replay_entries (Some sealed) watermark entries) (λ _ w', holds_docs w' (replayed sealed watermark dss entries) docss ∧ rows_changed w w' ∧
    (capable (wo_engine w) → capable (wo_engine w'))) w.
Proof.
  intros Hh Hacc Hok Hroom.
  eapply (wp_run_each _ _ (λ done w', replay_entries (Some sealed) watermark done w = Some (tt, w') ∧ holds_docs w' (replayed sealed watermark dss done) docss ∧
    rows_changed w w' ∧ (capable (wo_engine w) → capable (wo_engine w')))); [done| |by intros w' (_ & ? & ? & ?)].
  intros done x w1 [rest E] (Hrun & Hh1 & Hr1 & Hcap1). assert (x ∈ entries) as Hin by (rewrite E; set_solver). rewrite Forall_forall in Hacc, Hok.
  destruct (wp_total _ _ _ (replay_entry_spec w1 _ docss sealed watermark x Hh1 (Hacc x Hin) (Hok x Hin) (Hroom done x rest w1 ltac:(by rewrite E, <-app_assoc) Hrun)))
    as ([] & w2 & E2 & Hh2 & Hr2 & Hcap2).
  unfold wp. rewrite E2. split_and!; [by eapply run_each_snoc|by rewrite replayed_snoc|by etrans|auto].
Qed.

(** ** Opening what was committed *)

(** A disk step that fails. *)
Definition faulty (faults : list StepOutcome) : Prop := Exists (λ f, f ≠ Fine) faults.

Lemma wp_disk_step_any (Q : StepOutcome → World A B → Prop) w :
  (∀ out rest, (out ≠ Fine → faulty (wo_faults w)) → (faulty rest → faulty (wo_faults w)) → Q out (mkWorld (wo_engine w) (wo_disk w) rest)) → wp disk_step Q w.
Proof.
  intros HQ. unfold wp, disk_step. destruct w as [e k [|f rest]]; cbn in *; [by apply (HQ Fine [])|]. apply HQ; intros Hf; [by left|by right].
Qed.

Lemma later_kill_all_self dead docs : Forall2 later docs (kill_all dead docs).
Proof.
  revert docs. induction dead as [|l dead IH]; intros docs; [apply later_refl|]. cbn. eapply later_trans; [apply later_kill_at|apply IH].
Qed.

(** A segment as the manifest has it. *)
Definition reopened (m : Manifest) k b (docs : list Doc) : Prop :=
  seg_docs (mf_dict m) (mf_tag_dict m) (base_seg b) docs ∧ ∃ file, base_file b = Some file ∧ stored norm (mf_dict m) (mf_tag_dict m) k file docs.

Lemma reopen_segment m k file docs :
  named norm m k file docs → ∃ seg0 seg, dk_segments k !! file = Some seg0 ∧ restore_tombstones m file seg0 = Some seg ∧ reopened m k (Mmap file seg) docs.
Proof.
  intros (seg0 & docs0 & E & Hs & ->). destruct (foldM_tombstones _ _ (dead_of m file) _ _ Hs) as (seg & Eseg & Hseg). exists seg0, seg. split; [done|]. split.
  - rewrite <-Eseg. unfold restore_tombstones, dead_of. by destruct (list_find _ _) as [[? [? ?]]|].
  - split; [done|]. exists file. split; [done|]. exists seg0, docs0. split_and!; [done|done|apply later_kill_all_self].
Qed.

(** Of the segments of the manifest, those that opened; [F] is implied by a fault. *)
Lemma open_segments_spec m files dss w (F : Prop) :
  (faulty (wo_faults w) → F) → Forall2 (named norm m (wo_disk w)) files dss → ∀ segs skipped,
  wp (open_segments m files segs skipped) (λ r w', wo_engine w' = wo_engine w ∧ wo_disk w' = wo_disk w ∧
    match r with
    | inl err => err = OpenUnsupportedSegment ∧ F
    | inr (segs', skipped') => ∃ new dss', segs' = segs ++ new ∧ Forall2 (reopened m (wo_disk w)) new dss' ∧ omap base_file new `sublist_of` files ∧
        dss' `sublist_of` dss ∧ (skipped' + length new = skipped + length files)%nat ∧ (length new ≠ length files → F)
    end) w.
Proof.
  intros HF Hn. revert w HF Hn. remember dss as dss0 eqn:E0. clear E0. revert dss0. induction files as [|file files IH]; intros dss0 w HF Hn segs skipped.
  { inversion Hn; subst. cbn. wp_go. split_and!; [done..|]. exists [], []. by rewrite app_nil_r. }
  inversion Hn as [|? docs ? dss1 Hd Hn']; subst. cbn [open_segments]. apply wp_bind, wp_disk_step_any. intros out rest Hout Hrest. wp_go.
  set (w1 := mkWorld _ _ _). assert (∀ skipped, F → wp (open_segments m files segs (S skipped)) (λ r w', wo_engine w' = wo_engine w ∧ wo_disk w' = wo_disk w ∧
    match r with
    | inl err => err = OpenUnsupportedSegment ∧ F
    | inr (segs', skipped') => ∃ new dss', segs' = segs ++ new ∧ Forall2 (reopened m (wo_disk w)) new dss' ∧ omap base_file new `sublist_of` file :: files ∧
        dss' `sublist_of` docs :: dss1 ∧ (skipped' + length new = skipped + S (length files))%nat ∧ (length new ≠ S (length files) → F)
    end) w1) as Hskip.
  { intros n HF'. eapply wp_mono; [apply (IH dss1 w1); [auto|done]|]. intros r w' (E1 & E2 & Hr). split_and!; [done..|]. destruct r as [err|[segs' n']]; [done|].
    destruct Hr as (new & dss' & -> & Q1 & Q2 & Q3 & Q4 & _). exists new, dss'. split_and!; [done|done|by constructor|by constructor|lia|done]. }
  destruct (reopen_segment m (wo_disk w) file docs Hd) as (seg0 & seg & E & Er & Hseg). rewrite E.
  destruct out as [|[|n]]; [|by apply Hskip, HF, Hout|wp_go; split_and!; [done..|by apply HF, Hout]].
  apply wp_bind. eapply wp_reckon; [exact Er|]. eapply wp_mono; [apply (IH dss1 w1); [auto|done]|]. intros r w' (E1 & E2 & Hr). split_and!; [done..|].
  destruct r as [err|[segs' n']]; [done|]. destruct Hr as (new & dss' & -> & Q1 & Q2 & Q3 & Q4 & Q5). exists (Mmap file seg :: new), (docs :: dss').
  split_and!; [by rewrite <-app_assoc|by constructor|by apply sublist_skip|by apply sublist_skip|cbn; lia|]. cbn. intros Hl. apply Q5. lia.
Qed.

Lemma fresh_generations_spec n w :
  wp (fresh_segment_generations n) (λ gs w', length gs = n ∧ NoDup gs ∧ Forall (λ g, en_next_token (wo_engine w) ≤ g < en_next_token (wo_engine w')) gs ∧
    en_next_token (wo_engine w) ≤ en_next_token (wo_engine w') ∧
    w' = mkWorld (with_next_token (en_next_token (wo_engine w')) (wo_engine w)) (wo_disk w) (wo_faults w)) w.
Proof.
  revert w. induction n as [|n IH]; intros w; cbn [fresh_segment_generations].
  { wp_go. split_and!; [done|constructor|constructor|lia|by destruct w as [[] ? ?]]. }
  unfold fresh_segment_generation. wp_go. eapply wp_mono; [apply IH|]. cbn. intros gs w' (Hl & Hnd & Hb & Hle & E). wp_go. split_and!.
  - cbn. by rewrite Hl.
  - constructor; [|done]. intros Hin. rewrite Forall_forall in Hb. apply Hb in Hin. lia.
  - constructor; [lia|]. eapply Forall_impl; [exact Hb|]. cbn. lia.
  - lia.
  - rewrite E. by destruct w as [[] ? ?].
Qed.

(** The manifest and the segment files are as they were. *)
Record kept (k k' : Disk B) : Prop := {
  kp_manifest : dk_manifest k' = dk_manifest k;
  kp_segments : dk_segments k' = dk_segments k;
}.

#[local] Instance kept_preorder : PreOrder kept.
Proof. split; [by intros k|]. intros k1 k2 k3 [] []. split; congruence. Qed.

Lemma load_sources_spec m retain w :
  wp (load_sources (A:=A) m retain) (λ _ w', wo_engine w' = wo_engine w ∧ kept (wo_disk w) (wo_disk w')) w.
Proof.
  unfold load_sources. apply wp_bind, wp_disk_step. intros out faults. wp_go. destruct out; [|by wp_go].
  destruct (_ && _); [by wp_go|]. destruct (store_open _ _) as [|[[bytes|] s']]; by wp_go.
Qed.

(** The log takes entries. *)
Definition accepting (e : Engine A B) : Prop := ∃ wl, en_wal e = Some wl ∧ la_refusal (wal_file wl) = None.

(** The engine says that its recovery is incomplete: it commits nothing. *)
Definition reports_loss (e : Engine A B) : Prop := en_source_commit_state e = IncompleteRecovery ∧ en_persistence_healthy e = false.

(** The engine before the log is replayed: [dss] are the documents of the segments
    that opened, of those of the manifest. *)
Record committed_state w0 (k : Disk B) docss dss log (wal : Wal) : Prop := {
  cs_holds : holds_docs w0 (mkState dss []) docss;
  cs_part : dss `sublist_of` docss;
  cs_wal : en_wal (wo_engine w0) = Some wal;
  cs_log : log_ok norm w0 log None;
  cs_sealed : en_sealed_through (wo_engine w0) = Some (manifest_sealed k);
  cs_synced : en_manifest_on_disk (wo_engine w0) = Synced;
  cs_committed : length dss = length docss → en_committed_generations (wo_engine w0) = en_generations (wo_engine w0);
  cs_incomplete : length dss ≠ length docss → reports_loss (wo_engine w0);
  cs_manifest : dk_manifest (wo_disk w0) = dk_manifest k;
  cs_phrases : capable (wo_engine w0);
  cs_accepts : la_refusal (wal_file wal) = None;
}.

Lemma kept_accepted w log cut : log_ok norm w log cut → Forall (entry_accepted norm) (log ++ landed cut).
Proof.
  intros [_ He Hc]. apply Forall_app. split; [done|]. destruct cut as [[x reached]|]; [|constructor]. unfold landed. destruct (encode_entry x); [constructor|].
  case_match; [|constructor]. constructor; [by eapply Hc|done].
Qed.

(** What an open finds: the documents of the manifest, and a log that opens as
    [opened], with the entries [log] when it is not refused. *)
Record directory (k : Disk B) (opened : LogError + Wal) docss log : Prop := {
  dy_disk : ∃ next, disk_ok norm k next docss;
  dy_log wal : opened = inr wal → wal_ok wal log None ∧ la_refusal (wal_file wal) = None;
  dy_entries : Forall (entry_accepted norm) log;
  dy_bounds : N.max (manifest_watermark k) (manifest_sealed k) + 1 < 2 ^ 64;
}.

Lemma wal_refused wl log cut err : wal_ok wl log cut → scan_refuses wl cut err → wal_open (Some (la_file (wal_file wl))) = Some (inl err).
Proof.
  intros Hw (e & reached & body & _ & _ & _ & _ & Hr). destruct (wo_file _ _ _ Hw) as (bodies & torn & _ & Hfile & _). unfold wal_open.
  assert (header_was_interrupted (la_file (wal_file wl)) supported_headers = false) as -> by (rewrite Hfile; apply not_interrupted). by rewrite Hr.
Qed.

(** The directory that an engine leaves; its log is refused only when an append
    that failed had left damage. *)
Lemma directory_left w st docss log cut wl :
  holds_docs w st docss → log_ok norm w log cut → en_wal (wo_engine w) = Some wl →
  ∃ opened, wal_open (Some (la_file (wal_file wl))) = Some opened ∧ directory (wo_disk w) opened docss (log ++ landed cut) ∧
    (∀ err, opened = inl err → is_Some (la_refusal (wal_file wl))).
Proof.
  intros Hh Hlog Ew. pose proof (kept_accepted _ _ _ Hlog) as He. destruct (lo_wal _ _ _ _ Hlog) as (wl' & E' & Hw & _ & Hms & Hmw). rewrite Ew in E'. injection E' as <-.
  pose proof (wo_next _ _ _ Hw) as Hn. assert (N.max (manifest_watermark (wo_disk w)) (manifest_sealed (wo_disk w)) + 1 < 2 ^ 64) as Hb by lia.
  pose proof (ex_intro (λ next, disk_ok norm (wo_disk w) next docss) _ (hd_disk _ _ _ _ Hh)) as Hd. destruct (wal_ok_scan _ _ _ Hw) as [Hscan|[err Hscan]].
  - destruct (wal_reopen _ _ _ Hw Hscan) as (wal & Eo & Hwal & Hno). exists (inr wal). split; [done|]. split; [|done]. split; try done. by intros ? [= <-].
  - exists (inl err). split; [by eapply wal_refused|]. split; [by split|]. intros ? _. destruct Hscan as (x & reached & body & -> & _). by destruct (wo_cut _ _ _ Hw).
Qed.

Lemma committed_fresh config k f wal log :
  wal_ok wal log None → la_refusal (wal_file wal) = None → Forall (entry_accepted norm) log → data_dir config = true → dk_manifest k = None →
  committed_state (mkWorld (with_wal (Some wal) (with_config norm config None)) k f) k [] [] log wal.
Proof.
  intros Hwal Hno Hacc Hdir Em. split; try done.
  - split; try done.
    + split; try done; cbn.
      * apply seg_docs_new.
      * constructor.
    + by split; [constructor|constructor].
    + unfold disk_ok. cbn. by rewrite Em.
  - split; [|done|done]. exists wal. pose proof (wo_next _ _ _ Hwal) as Hn. unfold sealed_of, manifest_sealed, manifest_watermark. cbn. rewrite Em.
    split_and!; [done|done|lia..].
  - unfold manifest_sealed. by rewrite Em.
Qed.

(** The engine that the manifest, the segments that opened and the log handle make. *)
Lemma recovered_engine_holds m k k' docss dss segs gens skipped (wal : Wal) store next_source e f :
  manifest_ok norm m k docss → dk_segments k' = dk_segments k → dk_manifest k' = Some m →
  Forall2 (reopened m k) segs dss → omap base_file segs `sublist_of` mf_segment_files m → length gens = length segs → NoDup gens →
  Forall (λ g, g < en_next_token e) gens → fits 64 next_source → data_dir (en_config e) = true → en_norm e = norm →
  holds_docs (mkWorld (recovered_engine e m segs gens skipped wal store next_source) k' f) (mkState dss []) docss.
Proof.
  intros Hm Ek Em Hsegs Efiles Hl Hnd Htok Hsrc Hdir Hn. pose proof Hm as []. split; try done.
  - split; try done; cbn.
    + eapply Forall2_impl; [exact Hsegs|]. by intros b docs [].
    + apply seg_docs_new.
  - split; cbn; [|by eapply sublist_NoDup]. apply Forall2_same_length_lookup. split; [by eapply Forall2_length|]. intros i b docs Hb Hdocs file Hfile.
    destruct (Forall2_lookup_lr _ _ _ _ _ _ Hsegs Hb Hdocs) as (_ & file' & E' & Hst). assert (file' = file) as -> by congruence. split.
    + rewrite Forall_forall in mo_below. apply mo_below. eapply sublist_subseteq; [exact Efiles|]. apply list_elem_of_omap. exists b. split; [by eapply list_elem_of_lookup_2|done].
    + eapply stored_frame; [|exact Hst]. by rewrite Ek.
  - unfold disk_ok. cbn. rewrite Em. split; [by eapply manifest_ok_disk|lia].
Qed.

(** What the open up to the replay gives. *)
Definition opens_as (k : Disk B) (opened : LogError + Wal) docss log (faults : list StepOutcome) (r : OpenError + (Wal * N)) w0 : Prop :=
  kept k (wo_disk w0) ∧
  match r with
  | inr (wal, watermark) => watermark = manifest_watermark k ∧ ∃ dss, committed_state w0 k docss dss log wal ∧ (length dss ≠ length docss → faulty faults)
  | inl (OpenManifest | OpenUnsupportedSegment) => faulty faults
  | inl OpenLostLog => False
  | inl (OpenLog err) => opened = inl err
  | inl OpenGenerationsExhausted => True
  end.

Lemma recovered_committed m k k2 docss dss segs gens skipped wal log store next_source e f w0 :
  let wal' := ensure_seq_after wal (N.max (mf_watermark m) (default 0 (mf_sealed_through m))) in
  let w := mkWorld (recovered_engine e m segs gens skipped wal' store next_source) k2 f in
  manifest_ok norm m k docss → dk_manifest k = Some m → kept k k2 → holds_docs w (mkState dss []) docss →
  dss `sublist_of` docss → (skipped + length dss = length docss)%nat →
  N.max (manifest_watermark k) (manifest_sealed k) + 1 < 2 ^ 64 →
  wal_ok wal log None → la_refusal (wal_file wal) = None → Forall (entry_accepted norm) log →
  calm w w0 → unmoved w w0 → committed_state w0 k docss dss log wal'.
Proof.
  intros wal' w Hm Em [Em2 _] Hh Hsub Hlen Hbound Hwal Hno Hacc Hc Hu. pose proof (cl_core _ _ Hc) as Hs. destruct (mo_sealed _ _ _ _ Hm) as [sealed Esealed].
  assert (manifest_watermark k = mf_watermark m ∧ manifest_sealed k = default 0 (mf_sealed_through m)) as [Ewm Esl].
  { unfold manifest_watermark, manifest_sealed. by rewrite Em. }
  rewrite Ewm, Esl in Hbound. destruct (ensure_seq_after_ok wal _ _ Hwal Hbound) as (Hwal' & Hmax & _). fold wal' in Hwal', Hmax. split; core Hs.
  - by eapply holds_docs_calm.
  - done.
  - done.
  - eapply log_ok_same; [by apply same_log_calm|]. split; [|done|done]. eexists. split; [done|]. split; [exact Hwal'|].
    unfold sealed_of, manifest_sealed, manifest_watermark. cbn. rewrite Em2, Em. cbn. lia.
  - cbn. by rewrite Esl, Esealed.
  - done.
  - intros El. assert (skipped = O) as -> by lia. done.
  - intros El. unfold reports_loss. rewrite (um_state _ _ Hu), (um_healthy _ _ Hu). cbn. by rewrite bool_decide_false by lia.
  - by rewrite (cl_manifest _ _ Hc).
  - eapply capable_core; [exact Hs|]. intros E. exact E.
  - unfold wal', ensure_seq_after. by destruct (_ <=? _).
Qed.

Lemma open_manifest_spec k bytes opened docss log config faults m :
  wal_open (Some bytes) = Some opened → directory k opened docss log → data_dir config = true → dk_manifest k = Some m →
  wp (open_manifest m (Some bytes)) (opens_as k opened docss log faults) (mkWorld (with_config norm config None) k faults).
Proof.
  intros Eo [[next Hd] Hlog Hacc Hbound] Hdir Em. unfold disk_ok in Hd. rewrite Em in Hd. destruct Hd as [Hm _]. unfold open_manifest, publish_again.
  do 2 apply wp_bind. apply wp_disk_step_any. cbn [wo_engine wo_disk wo_faults]. intros out rest Hout Hrest.
  destruct out; [|wp_go; split; [done|by apply Hout]]. wp_go. cbn [negb]. set (w1 := mkWorld _ _ _).
  assert (kept k (wo_disk w1)) as Hk1 by (split; [by rewrite Em|done]).
  eapply wp_step; [apply (open_segments_spec m (mf_segment_files m) docss w1 (faulty faults)); [done|apply (manifest_ok_disk norm m k); [done|exact Hm]]|].
  intros r w2 (E2 & D2 & Hr). destruct r as [err|[segs skipped]]; [destruct Hr as [-> HF]; wp_go; by rewrite <-D2 in Hk1|].
  destruct Hr as (new & dss & Esegs & Hsegs & Hfiles & Hsub & Hcount & Hpart). cbn [app] in Esegs. subst segs.
  apply wp_bind. eapply wp_reckon; [exact Eo|]. destruct opened as [err|wal]; [wp_go; by rewrite <-D2 in Hk1|]. destruct (Hlog wal eq_refl) as [Hwal Hno].
  cbv zeta. wp_go. rewrite E2. eapply wp_mono; [apply load_sources_spec|]. rewrite E2, D2. intros store w3 [E3 Hk3]. assert (kept k (wo_disk w3)) as Hk by by etrans.
  cbn beta. destruct (seed_next_source_generation _ _) as [next_source|] eqn:Eseed; [|by wp_go].
  eapply wp_step; [apply fresh_generations_spec|]. rewrite E3. intros gens w4 (Hl & Hnd & Hb & Hle & E4). apply wp_bind, wp_assigning.
  rewrite E4. cbn [wo_engine wo_disk wo_faults]. set (w5 := mkWorld _ _ _).
  apply wp_bind. eapply wp_mono; [apply (wp_and_indoors _ _ _ (mark_selected_inert w5) mark_selected_indoors)|]. intros [] w6 [Hc6 Hu6]. apply wp_ret. split.
  { etrans; [exact Hk|]. by rewrite (um_disk _ _ Hu6). }
  assert (length (mf_segment_files m) = length docss) as Hlf by (eapply Forall2_length, Hm). pose proof (Forall2_length _ _ _ Hsegs) as Hln.
  split; [unfold manifest_watermark; by rewrite Em|]. exists dss. split; [|intros Hne; apply Hpart; lia].
  eapply (recovered_committed m k (wo_disk w3) docss dss new gens skipped wal log store next_source); [exact Hm|exact Em|exact Hk| |exact Hsub|lia|exact Hbound|exact Hwal|exact Hno|exact Hacc|exact Hc6|exact Hu6].
  apply (recovered_engine_holds m k); try done.
  - by apply Hk.
  - by rewrite (kp_manifest _ _ Hk).
  - eapply Forall_impl; [exact Hb|]. cbn. lia.
  - unfold seed_next_source_generation, checked_add in Eseed. destruct (_ <=? _) eqn:El; [|done]. injection Eseed as <-. apply N.leb_le in El.
    eapply N.le_lt_trans; [exact El|done].
Qed.

(** ** The restart *)

(** Room for the replay that the open starts. *)
Definition replay_start w : World A B :=
  mkWorld (with_wal (take_repaired_tail_bytes <$> en_wal (wo_engine w)) (wo_engine w)) (wo_disk w) (wo_faults w).

Definition restart_room config (k : Disk B) (bytes : option (list N)) (faults : list StepOutcome) : Prop :=
  ∀ wal watermark w0 found, open_committed bytes (mkWorld (with_config norm config None) k faults) = Some (inr (wal, watermark), w0) →
  recover (la_file (wal_file wal)) = Some (inr found) →
  replay_room (replay_start w0) (en_sealed_through (wo_engine w0)) watermark (wr_entries found).

Lemma open_committed_spec k bytes opened docss log config faults :
  wal_open bytes = Some opened → directory k opened docss log → (bytes = None → dk_manifest k = None) → data_dir config = true →
  wp (open_committed bytes) (opens_as k opened docss log faults) (mkWorld (with_config norm config None) k faults).
Proof.
  intros Eo Hdy Hnone Hdir. unfold open_committed. wp_go. destruct (dk_manifest k) as [m|] eqn:Em.
  { destruct bytes as [bytes|]; [|by specialize (Hnone eq_refl)]. by eapply open_manifest_spec. }
  apply wp_bind. eapply wp_reckon; [exact Eo|]. destruct Hdy as [[next Hd] Hlog Hacc _]. unfold disk_ok in Hd. rewrite Em in Hd. subst docss.
  destruct opened as [err|wal]; [by wp_go|]. destruct (Hlog wal eq_refl) as [Hwal Hno]. wp_go. split; [done|]. unfold manifest_watermark. rewrite Em.
  split; [done|]. exists []. split; [by apply committed_fresh|done].
Qed.

Lemma take_repaired_ok wal log : wal_ok wal log None → wal_ok (take_repaired_tail_bytes wal) log None.
Proof. intros Hw. pose proof (wo_next _ _ _ Hw). apply (wal_ok_touched wal); [done|lia|done|by right]. Qed.

Lemma linked_restarted w0 w k docss log wal :
  committed_state w0 k docss docss log wal → rows_changed (replay_start w0) w → holds_docs w (recovered k docss log) docss →
  linked (length docss) w (recovered k docss log) docss log None.
Proof.
  intros [Hh0 _ Ew Hlog Es Hsync Hc _ Em _ _] [Hsl Hg _ _ _] Hh. specialize (Hc eq_refl). assert (recovered (wo_disk w) docss log = recovered k docss log) as Er.
  { unfold recovered, manifest_sealed, manifest_watermark. rewrite (sl_manifest _ _ Hsl). cbn. by rewrite Em. }
  assert (length (st_segments (recovered k docss log)) = length docss) as Hl.
  { rewrite <-(generations_length _ _ _ _ Hh), Hg. cbn. by rewrite (generations_length _ _ _ _ Hh0). }
  split; rewrite ?Er, ?(sl_committed _ _ Hsl), ?Hg; cbn; try done.
  - rewrite Hc, firstn_all2; [done|]. by rewrite (generations_length _ _ _ _ Hh0).
  - by rewrite <-Hl, firstn_all.
  - by rewrite <-Hl, drop_all.
  - unfold recovered. rewrite replayed_mem_eq. unfold sealed_of. rewrite (sl_sealed _ _ Hsl). cbn. by rewrite Es.
Qed.

(** The engine after the replay, over the segments that opened. *)
Definition replayed_engine (k : Disk B) docss (dss : list (list Doc)) log w : Prop :=
  (∃ st, holds_docs w st docss) ∧ log_ok norm w log None ∧ accepting (wo_engine w) ∧ length (en_segments (wo_engine w)) = length dss ∧
  (length dss = length docss → inv w (recovered k docss log) docss log None []).

Lemma replay_spec w0 k docss dss log wal :
  committed_state w0 k docss dss log wal →
  (∀ found, recover (la_file (wal_file wal)) = Some (inr found) →
     replay_room (replay_start w0) (en_sealed_through (wo_engine w0)) (manifest_watermark k) (wr_entries found)) →
  wp (replay_wal_tail wal (manifest_watermark k)) (λ r w', r = None ∧ replayed_engine k docss dss log w') w0.
Proof.
  intros Hcs Hroom. pose proof Hcs as [Hh0 Hsub Ewal Hlog Es Hsync Hc _ Em Hcap Hno]. destruct (lo_wal _ _ _ _ Hlog) as (wal' & E' & Hw & Hb). rewrite Ewal in E'. injection E' as <-.
  destruct (recover_found _ _ Hw) as [skipped Erec]. specialize (Hroom _ Erec). cbn [wr_entries] in Hroom. unfold replay_wal_tail.
  rewrite Erec. apply wp_bind. eapply wp_reckon; [done|]. cbn beta iota.
  apply wp_bind, wp_assigning. apply wp_bind, wp_this. cbn [wo_engine wo_disk wo_faults wr_entries].
  assert (holds_docs (replay_start w0) (mkState dss []) docss) as Hh1.
  { eapply holds_docs_logged; [|exact Hh0]. split; [cbn; by rewrite Ewal|done]. }
  eapply wp_step.
  { cbn [en_sealed_through with_wal]. rewrite Es. rewrite Es in Hroom. eapply (replay_entries_spec (replay_start w0)); [exact Hh1| | |exact Hroom].
    - apply Forall_forall. intros x Hx%after_checkpoint_elem. pose proof (lo_entries _ _ _ _ Hlog) as He. rewrite Forall_forall in He. by apply He.
    - apply Forall_forall. intros x Hx%after_checkpoint_elem. pose proof (wal_entries_ok _ _ _ Hw) as He. rewrite Forall_forall in He. by apply He. }
  intros [] w2 (Hh2 & Hrows & Hcap2). wp_go. split; [done|]. assert (log_ok norm w2 log None) as Hlog2.
  { eapply log_ok_same; [apply Hrows|]. destruct Hlog as [_ He Hcut]. split; [|done..]. exists (take_repaired_tail_bytes wal). cbn. rewrite Ewal.
    split; [done|]. split; [by apply take_repaired_ok|done]. }
  split; [by eexists|]. split; [done|]. split; [exists (take_repaired_tail_bytes wal); by rewrite (sl_wal _ _ (rc_log _ _ Hrows)); cbn; rewrite Ewal|]. split.
  - rewrite <-(eo_generations _ _ _ (hd_engine _ _ _ _ Hh2)), (rc_generations _ _ Hrows). apply (generations_length _ _ _ _ Hh1).
  - intros El. assert (dss = docss) as -> by (apply sublist_same_length; [done|lia]). split; [|by apply Hcap2].
    eapply consistent_linked; [exact Hh2|exact Hlog2|by rewrite (sl_on_disk _ _ (rc_log _ _ Hrows))|by eapply linked_restarted].
Qed.

(** Every segment of the manifest was opened. *)
Definition came_back (k : Disk B) w : Prop := length (en_segments (wo_engine w)) = length (manifest_files k).

(** What an open gives, of a directory with the documents [docss] and the log [log]. *)
Definition restarts_as (k : Disk B) (opened : LogError + Wal) docss log (faults : list StepOutcome) (r : option OpenError) w' : Prop :=
  kept k (wo_disk w') ∧
  match r with
  | None => (∃ st, holds_docs w' st docss) ∧ log_ok norm w' log None ∧ accepting (wo_engine w') ∧
      (came_back k w' → inv w' (recovered k docss log) docss log None []) ∧ (¬ came_back k w' → reports_loss (wo_engine w') ∧ faulty faults)
  | Some (OpenManifest | OpenUnsupportedSegment) => faulty faults
  | Some OpenLostLog => False
  | Some (OpenLog err) => opened = inl err
  | Some OpenGenerationsExhausted => True
  end.

Lemma manifest_files_length k next docss : disk_ok norm k next docss → length (manifest_files k) = length docss.
Proof. unfold disk_ok, manifest_files. destruct (dk_manifest k) as [m|]; [|by intros ->]. intros [Hm _]. eapply Forall2_length, Hm. Qed.

Lemma restart_spec k bytes opened docss log config faults :
  wal_open bytes = Some opened → directory k opened docss log → (bytes = None → dk_manifest k = None) → data_dir config = true →
  restart_room config k bytes faults →
  ∃ r w', Open.open norm config k bytes faults = Some (r, w') ∧ restarts_as k opened docss log faults r w'.
Proof.
  intros Eo Hdy Hnone Hdir Hroom. unfold Open.open. apply wp_total. unfold open_engine. destruct (dy_disk _ _ _ _ Hdy) as [next Hd].
  destruct (wp_total _ _ _ (open_committed_spec k bytes opened docss log config faults Eo Hdy Hnone Hdir)) as (r & w0 & E & Hk & Hr).
  apply wp_bind. unfold wp at 1. rewrite E. destruct r as [err|[wal watermark]]; [wp_go; by split|]. destruct Hr as (-> & dss & Hcs & HF).
  eapply wp_mono; [apply (wp_and_indoors _ _ _ (replay_spec _ _ _ _ _ _ Hcs (λ found Ef, Hroom _ _ _ _ E Ef)) (replay_wal_tail_indoors _ _))|].
  intros r w' [(-> & Hst & Hlog & Hacc & Hlen & Hi) Hu]. split; [by rewrite (um_disk _ _ Hu)|]. unfold came_back. rewrite Hlen, (manifest_files_length _ _ _ Hd).
  split_and!; [done..|]. intros Hne. split; [|auto]. destruct (cs_incomplete _ _ _ _ _ _ Hcs Hne) as [E1 E2]. split; [by rewrite (um_state _ _ Hu)|by rewrite (um_healthy _ _ Hu)].
Qed.

(** An engine on an empty directory. *)
Lemma open_empty_spec config faults :
  data_dir config = true →
  ∃ w, Open.open norm config (mkDisk None None ∅ ∅) None faults = Some (None, w) ∧ inv w (mkState [] []) [] [] None [] ∧ accepting (wo_engine w).
Proof.
  intros Hdir. set (k := mkDisk None None ∅ ∅). assert (wal_ok fresh_wal [] None) as Hw by (eapply wal_history_ok; by constructor).
  destruct (recover_found _ _ Hw) as [skipped Erec].
  destruct (restart_spec k None (inr fresh_wal) [] [] config faults) as (r & w & E & _ & Hr); [done| |done|done| |].
  - split; [by exists 0|by intros ? [= <-]|done|done].
  - intros wal watermark w0 found E Ef. injection E as <- _ _. rewrite Erec in Ef. injection Ef as <-. intros before x rest w' Ex. by destruct before.
  - destruct r as [err|]; [|exists w; destruct Hr as (_ & _ & Ha & Hi & Hn); split_and!; [done| |done]].
    + exfalso. assert (fst <$> Open.open (B:=B) norm config k None faults = Some None) as E' by reflexivity. by rewrite E in E'.
    + destruct (decide (length (en_segments (wo_engine w)) = 0%nat)) as [El|El]; [by apply Hi|]. exfalso.
      assert ((λ r : option OpenError * World A B, length (en_segments (wo_engine r.2))) <$> Open.open (B:=B) norm config k None faults = Some 0%nat) as E' by reflexivity.
      rewrite E in E'. by injection E'.
Qed.

End restart.
