(* ===== verification/Serving.v ===== *)
(** * What an engine serves

    The engine against its specification: a list of live documents.  Every request
    is a step of the specification, whatever succeeds and whatever fails on the
    disk, and none panics.  An open returns whatever the disk does; it is a step of
    the specification when every segment of the manifest was opened, and otherwise
    fails or reports an incomplete recovery, with the directory left as it was. *)

From S2P Require Import Prelude Util Text Utf8 Dsl Dictionary FramedLog Wal Sources Index Phrase Automaton Normalize Analyze Compile Plan Extract.
From S2P Require Import View Ownership Tags Store Segment Merge Recompile Engine Compaction Ingest Open EngineLogic Documents Durable Replay Layout Housekeeping.
From S2P Require Import Writes Batches Restart.

(** ** Recovered entries *)

(** The effect of an entry that was in the log after all: complete, or over a part
    [l2] of the documents when a commit counted it as done. *)
Definition redone (x : WalEntry) (l l' : list Doc) : Prop :=
  match x with
  | WalInsert p => l' ≡ₚ l ++ [doc_of p]
  | WalUpsert p => ∃ l1 l2, l ≡ₚ l1 ++ l2 ∧ l' ≡ₚ l1 ++ without (wp_logical p) l2 ++ [doc_of p]
  | WalDeleteByLogical _ logical => ∃ l1 l2, l ≡ₚ l1 ++ l2 ∧ l' ≡ₚ l1 ++ without logical l2
  | WalTombstone _ _ _ => l' ≡ₚ l ∨ ∃ x, l ≡ₚ x :: l'
  | WalFlushCheckpoint _ _ => False
  end.

Lemma live_app segs mem : live (mkState segs mem) = live_docs (mjoin segs) ++ live_docs mem.
Proof. apply live_docs_app. Qed.

Lemma live_alter local i docss :
  live_docs (mjoin (alter (kill_at local) i docss)) ≡ₚ live_docs (mjoin docss) ∨
  ∃ x, live_docs (mjoin docss) ≡ₚ x :: live_docs (mjoin (alter (kill_at local) i docss)).
Proof.
  revert i. induction docss as [|docs docss IH]; intros i; [by left|]. destruct i as [|i]; simpl; rewrite !live_docs_app.
  - pose proof (live_kill_at local docs) as Hk. destruct (docs !! usize local) as [x|]; [|left; by rewrite Hk].
    destruct (doc_live x); [|left; by rewrite Hk]. destruct Hk as (l1 & l2 & -> & ->). right. exists x. solve_Permutation.
  - destruct (IH i) as [E|[x E]]; [left; by rewrite E|right; exists x]. rewrite E. solve_Permutation.
Qed.

(** Replaying one entry over the documents: not at all, or as [redone] says. *)
Lemma step_redone sealed watermark st x :
  is_checkpoint x = false →
  live (replay_step sealed watermark st x) = live st ∨ redone x (live st) (live (replay_step sealed watermark st x)).
Proof.
  intros Hck. unfold replay_step. destruct (_ <=? sealed); [by left|right]. destruct st as [segs mem]. cbn [st_segments st_memtable].
  destruct x as [p|seq idx local| |seq logical|p]; try done; rewrite !live_app; cbn [seg_effect mem_effect redone].
  - rewrite live_docs_app. destruct (_ <? _); by rewrite (assoc_L (++)).
  - destruct (idx =? umax 32).
    + pose proof (live_kill_at local mem) as Hk. assert ((if watermark <? entry_seq (WalTombstone seq idx local) then segs else segs) = segs) as -> by by destruct (watermark <? _).
      destruct (mem !! usize local) as [x|]; [|left; by rewrite Hk]. destruct (doc_live x); [|left; by rewrite Hk].
      destruct Hk as (l1 & l2 & -> & ->). right. exists x. solve_Permutation.
    + destruct (_ <? _); [|by left]. destruct (live_alter local (usize idx) segs) as [E|[x E]]; [left; by rewrite E|right; exists x]. by rewrite E.
  - destruct (_ <? _).
    + exists [], (live_docs (mjoin segs) ++ live_docs mem). split; [done|]. unfold without. rewrite filter_app. fold (without logical (live_docs (mjoin segs))).
      fold (without logical (live_docs mem)). by rewrite kill_logical_join, !live_kill_logical.
    + exists (live_docs (mjoin segs)), (live_docs mem). split; [done|]. by rewrite live_kill_logical.
  - rewrite live_docs_app. destruct (_ <? _).
    + exists [], (live_docs (mjoin segs) ++ live_docs mem). split; [done|]. unfold without. rewrite filter_app. fold (without (wp_logical p) (live_docs (mjoin segs))).
      fold (without (wp_logical p) (live_docs mem)). rewrite kill_logical_join, !live_kill_logical. by rewrite <-(assoc_L (++)).
    + exists (live_docs (mjoin segs)), (live_docs mem). split; [done|]. by rewrite live_kill_logical.
Qed.

Lemma redone_perm x l1 l2 l' : l1 ≡ₚ l2 → redone x l1 l' → redone x l2 l'.
Proof. intros E. destruct x; cbn; try done; by setoid_rewrite E. Qed.

(** The entry that a failed append may have left; a checkpoint says nothing new. *)
Definition failed_of (cut : option (WalEntry * nat)) : option WalEntry :=
  match cut with Some (x, _) => if is_checkpoint x then None else Some x | None => None end.

Lemma calmer_failed cut cut' : calmer cut cut' → failed_of cut' = failed_of cut ∨ failed_of cut' = None.
Proof.
  intros Hc. destruct cut' as [[x reached]|]; [|by right]. destruct (is_checkpoint x) eqn:Ex; [right; cbn; by rewrite Ex|].
  left. by rewrite (Hc x reached eq_refl Ex).
Qed.

(** ** Requests *)

Inductive Request :=
  | ReqInsert (text : rstring) (logical version : N) (tags : list (rstring * rstring)) (rank : option Z)
  | ReqUpsert (text : rstring) (logical version : N) (tags : list (rstring * rstring)) (rank : option Z)
  | ReqDelete (logical : N)
  | ReqTombstone (local : N)
  | ReqTombstoneIn (a : SegmentAddress)
  | ReqFlush
  | ReqCompactRange (lo hi : nat)
  | ReqCompactAll
  | ReqCompact (max_segs : nat)
  | ReqReseal.

(** Requests that rearrange the segments. *)
Definition upkeep (r : Request) : bool :=
  match r with ReqFlush | ReqCompactRange _ _ | ReqCompactAll | ReqCompact _ | ReqReseal => true | _ => false end.

(** What an acknowledged request does to the documents. *)
Definition effect (r : Request) (l l' : list Doc) : Prop :=
  match r with
  | ReqInsert text logical _ tags _ => l' = l ++ [mkDoc logical text tags true]
  | ReqUpsert text logical _ tags _ => l' = without logical l ++ [mkDoc logical text tags true]
  | ReqDelete logical => l' = without logical l
  | ReqTombstone _ => l' = l ∨ removed_one (λ _, True) l l'
  | ReqTombstoneIn a => removed_one (λ x, doc_logical x = sa_logical a) l l'
  | _ => l' = l
  end.

(** The log entry of a request. *)
Definition entry_for (r : Request) (x : WalEntry) : Prop :=
  match r with
  | ReqInsert text logical _ tags _ => put_of false (mkDoc logical text tags true) x
  | ReqUpsert text logical _ tags _ => put_of true (mkDoc logical text tags true) x
  | ReqDelete logical => ∃ seq, x = WalDeleteByLogical seq logical
  | ReqTombstone local => ∃ seq, x = WalTombstone seq (umax 32) local
  | ReqTombstoneIn a => ∃ seq idx, x = WalTombstone seq idx (sa_local a)
  | _ => False
  end.

(** The state of the specification: the live documents; those that a restart may
    add; and the request that failed, if its entry may be in the log. *)
Record Served := mkServed {
  sv_docs : list Doc;
  sv_doubt : list Doc;
  sv_failed : option WalEntry;
}.

(** A batch replies with the status of each of its queries, or fails as a whole. *)
Inductive Event :=
  | Performed (r : Request) (ok : bool)
  | Batched (queries : list (N * rstring)) (tags : list (list (rstring * rstring))) (reply : option (list IngestItemStatus))
  | Restarted.

Inductive spec_step : Served → Event → Served → Prop :=
  | acknowledged r l l' : effect r l l' → spec_step (mkServed l [] None) (Performed r true) (mkServed l' [] None)
  | turned_down r l doubt failed failed' :
      failed' = failed ∨ (∃ x, failed' = Some x ∧ entry_for r x) →
      spec_step (mkServed l doubt failed) (Performed r false) (mkServed l doubt failed')
  | tidied r ok l doubt failed failed' :
      upkeep r = true → failed' = failed ∨ failed' = None →
      spec_step (mkServed l doubt failed) (Performed r ok) (mkServed l doubt failed')
  | batch_ingested queries tags statuses l l' failed failed' :
      length statuses = length queries → l' ≡ₚ l ++ batch_docs tags 0 queries statuses → failed' = failed ∨ failed' = None →
      spec_step (mkServed l [] failed) (Batched queries tags (Some statuses)) (mkServed l' [] failed')
  | batch_failed queries tags l doubt doubt' failed failed' :
      doubt' = doubt ∨ (doubt = [] ∧ ∃ statuses, length statuses = length queries ∧ doubt' = batch_docs tags 0 queries statuses) →
      failed' = failed ∨ failed' = None →
      spec_step (mkServed l doubt failed) (Batched queries tags None) (mkServed l doubt' failed')
  | reopened_as l doubt failed l' :
      l' ≡ₚ l ++ doubt ∨ (∃ x, failed = Some x ∧ redone x (l ++ doubt) l') →
      spec_step (mkServed l doubt failed) Restarted (mkServed l' [] None).

Inductive spec_steps : Served → list Event → Served → Prop :=
  | steps_none s : spec_steps s [] s
  | steps_snoc s evs s1 ev s2 : spec_steps s evs s1 → spec_step s1 ev s2 → spec_steps s (evs ++ [ev]) s2.

Section serving.
Context {A B : Type} `{DaachorseLaws A} `{RoaringLaws B} (norm : Normalizer A) (patterns : list rstring) (Hnorm : norm_wf norm patterns).
Implicit Types (w : World A B) (st : State).

#[local] Instance norm_analyzer_serving : Analyzer := normalizer_analyzer norm.
#[local] Instance norm_laws_serving : AnalyzerLaws := normalizer_laws norm patterns Hnorm.
#[local] Abbreviation inv := (inv norm).
#[local] Abbreviation consistent := (consistent norm).
#[local] Abbreviation serving := (serving norm).

(** ** Restarts *)

(** A restart brings back what was served, and possibly the entry that a failed
    append left in the log. *)
Lemma restarted_live w st docss log cut doubt :
  inv w st docss log cut doubt →
  let l' := live (recovered (wo_disk w) docss (log ++ landed cut)) in
  l' ≡ₚ live st ++ doubt ∨ ∃ x, failed_of cut = Some x ∧ redone x (live st ++ doubt) l'.
Proof.
  intros Hi. cbv zeta. assert (live (recovered (wo_disk w) docss log) ≡ₚ live st ++ doubt ∧
    (∀ x reached, cut = Some (x, reached) → is_checkpoint x = true → live (mkState docss []) ≡ₚ live st ++ doubt)) as [Hr Hck].
  { destruct (iv_step _ _ _ _ _ _ _ Hi) as [(_ & Hr & Hck)|(_ & -> & n & Hlk)]; [done|]. split.
    - unfold live. by rewrite (linked_recovered _ _ _ _ _ _ Hlk), app_nil_r.
    - intros x reached E Ex. destruct (lk_checkpoint _ _ _ _ _ _ Hlk x reached E Ex) as (Em & Ed & Et). rewrite app_nil_r.
      destruct st as [segs mem]. cbn in *. subst mem docss. by rewrite <-(app_nil_r (take n segs)), <-Ed, take_drop. }
  destruct cut as [[x reached]|]; [|left; by rewrite app_nil_r]. unfold landed. destruct (encode_entry x); [left; by rewrite app_nil_r|].
  destruct (_ <=? _)%nat; [|left; by rewrite app_nil_r]. unfold recovered. rewrite after_checkpoint_snoc. cbn [failed_of].
  destruct (is_checkpoint x) eqn:Ex; [left; by eapply Hck|]. unfold replayed. rewrite foldl_app. cbn [foldl].
  change (foldl _ _ (after_checkpoint log)) with (recovered (wo_disk w) docss log).
  destruct (step_redone (manifest_sealed (wo_disk w)) (manifest_watermark (wo_disk w)) (recovered (wo_disk w) docss log) x Ex) as [E|E].
  - left. by rewrite E.
  - right. exists x. split; [done|]. by eapply redone_perm.
Qed.

(** ** Requests of the engine *)

Definition perform (r : Request) : Eng A B bool :=
  match r with
  | ReqInsert text logical version tags rank =>
      let& out := try_insert_live_ranked text logical version tags rank in
      eng_ret (match out with inr (Inserted _) => true | _ => false end)
  | ReqUpsert text logical version tags rank =>
      let& out := try_upsert_live_ranked text logical version tags rank in
      eng_ret (match out with inr (Created _ | Updated _ _) => true | _ => false end)
  | ReqDelete logical => let& out := delete_by_logical_id logical in eng_ret (match out with inr _ => true | inl _ => false end)
  | ReqTombstone local => let& out := tombstone_local local in eng_ret (match out with None => true | Some _ => false end)
  | ReqTombstoneIn a => let& out := tombstone_in a in eng_ret (match out with None => true | Some _ => false end)
  | ReqFlush => flush ;& eng_ret true
  | ReqCompactRange lo hi => let& _ := compact_range lo hi in eng_ret true
  | ReqCompactAll => let& _ := compact_all in eng_ret true
  | ReqCompact max_segs => let& _ := compact max_segs in eng_ret true
  | ReqReseal => reseal_tombstoned_segments ;& eng_ret true
  end.

(** Requests of the interface's types, on an engine with room for them. *)
Definition allowed w (r : Request) : Prop :=
  let segs := length (en_segments (wo_engine w)) in
  match r with
  | ReqInsert text logical version tags rank | ReqUpsert text logical version tags rank =>
      limits_ok (wo_engine w) ∧ request_ok text logical version tags rank ∧ write_room norm w text logical version tags rank
  | ReqDelete logical => fits 64 logical
  | ReqTombstone local => fits 32 local
  | ReqTombstoneIn a => fits 32 (sa_local a) ∧ N.of_nat segs ≤ umax 32
  | ReqFlush => flush_room w
  | ReqCompactRange _ _ | ReqCompactAll | ReqCompact _ => capacity (2 + segs) w
  | ReqReseal => capacity (2 * segs) w
  end.

Definition serves w (s : Served) : Prop := ∃ cut, serving w (sv_docs s) (sv_doubt s) cut ∧ sv_failed s = failed_of cut.

Lemma entry_for_mutation r x : entry_for r x → is_checkpoint x = false.
Proof. destruct r; cbn; try done; by intros (? & -> & ?) || intros (? & ->) || intros (? & ? & ->). Qed.

Lemma written w ok r l l' doubt cut :
  (ok = true → effect r l l') → write_result norm w ok (entry_for r) l l' doubt cut →
  ∃ s', spec_step (mkServed l doubt (failed_of cut)) (Performed r ok) s' ∧ serves w s'.
Proof.
  intros He. destruct ok; cbn.
  - intros (-> & -> & cut' & Hs & Hc). exists (mkServed l' [] None). split; [constructor; auto|]. exists cut'. split; [done|].
    by destruct (calmer_failed _ _ Hc) as [-> | ->].
  - intros (cut' & Hs & Hc). exists (mkServed l doubt (failed_of cut')). split; [|by exists cut'].
    constructor. destruct Hc as [->|(x & reached & -> & Hx)]; [by left|right]. exists x. split; [|done]. cbn. by rewrite (entry_for_mutation r x Hx).
Qed.

Lemma kept_up w r ok l doubt cut cut' :
  upkeep r = true → serving w l doubt cut' → calmer cut cut' →
  ∃ s', spec_step (mkServed l doubt (failed_of cut)) (Performed r ok) s' ∧ serves w s'.
Proof.
  intros Hu Hs Hc. exists (mkServed l doubt (failed_of cut')). split; [|by exists cut']. constructor; [done|]. by apply calmer_failed.
Qed.

(** Every request returns, and is a step of the specification. *)
Lemma perform_spec w s r :
  serves w s → allowed w r → wp (perform r) (λ ok w', ∃ s', spec_step s (Performed r ok) s' ∧ serves w' s') w.
Proof using All.
  intros (cut & (st & docss & log & Hi & El) & Ef) Ha. destruct s as [l doubt failed]. cbn in *. subst l failed.
  destruct r as [text logical version tags rank|text logical version tags rank|logical|local|a| |lo hi| |max_segs|]; cbn [perform allowed] in *.
  - destruct Ha as (Hl & Hq & Hr). eapply wp_step; [by eapply insert_spec|]. intros out w' Hw. apply wp_ret. eapply written; [|exact Hw]. done.
  - destruct Ha as (Hl & Hq & Hr). eapply wp_step; [by eapply upsert_spec|]. intros out w' Hw. apply wp_ret. eapply written; [|exact Hw]. done.
  - eapply wp_step; [by eapply delete_spec|]. intros out w' Hw. apply wp_ret. eapply written; [|exact Hw]. done.
  - eapply wp_step; [by eapply tombstone_local_spec|]. intros out w' (l' & He & Hw). apply wp_ret. eapply written; [|exact Hw]. done.
  - destruct Ha as [Hf Hlen]. eapply wp_step; [by eapply tombstone_in_spec|]. intros out w' (l' & He & Hw). apply wp_ret. eapply written; [|exact Hw].
    destruct out; [done|by intros _; apply He].
  - eapply wp_step; [by eapply flush_spec|]. intros [] w' (cut' & Hs & Hc). apply wp_ret. by eapply kept_up.
  - eapply wp_step; [by eapply do_compact_range_spec|]. intros out w' (st' & docss' & Hi' & E & _). apply wp_ret. eapply kept_up; [done| |done]. by exists st', docss', log.
  - eapply wp_step; [unfold compact_all; apply wp_bind, wp_this; by eapply do_compact_range_spec|]. intros out w' (st' & docss' & Hi' & E & _). apply wp_ret.
    eapply kept_up; [done| |done]. by exists st', docss', log.
  - eapply wp_step; [by eapply compact_spec|]. intros out w' (st' & docss' & Hi' & E & _). apply wp_ret. eapply kept_up; [done| |done]. by exists st', docss', log.
  - eapply wp_step; [by eapply reseal_spec|]. intros out w' Hs. apply wp_ret. eapply kept_up; [done|exact Hs|done].
Qed.

(** ** Batches *)

Definition ingest (order : Dict → list N) (queries : list (N * rstring)) (tags : list (list (rstring * rstring))) (ranks : list (option Z)) :
  Eng A B (option (list IngestItemStatus)) :=
  let& r := try_bulk_ingest_detailed_with_tags_and_ranks order queries tags ranks in
  eng_ret (snd <$> r).

(** A batch on an engine with room for it; [order] sorts the features by frequency. *)
Record batch_allowed w (order : Dict → list N) (queries : list (N * rstring)) (tags : list (list (rstring * rstring))) (ranks : list (option Z)) : Prop := {
  ba_order d : dict_wf d → mask_order d (order d);
  ba_limits : limits_ok (wo_engine w);
  ba_room : batch_room norm order queries tags ranks w;
}.

(** Every batch returns, and is a step of the specification. *)
Lemma ingest_spec w s order queries tags ranks :
  serves w s → batch_allowed w order queries tags ranks →
  wp (ingest order queries tags ranks) (λ reply w', ∃ s', spec_step s (Batched queries tags reply) s' ∧ serves w' s') w.
Proof using All.
  intros (cut & (st & docss & log & Hi & El) & Ef) [Horder Hlim Hroom]. destruct s as [l doubt failed]. cbn in *. subst l failed. unfold ingest.
  eapply wp_step; [by eapply bulk_ingest_spec|]. intros r w' (l' & doubt' & cut' & Hs & Hc & Hr). apply wp_ret. exists (mkServed l' doubt' (failed_of cut')).
  split; [|by exists cut']. apply calmer_failed in Hc. destruct (snd <$> r) as [statuses|].
  - destruct Hr as (-> & -> & Hlen & Hl). by constructor.
  - destruct Hr as [-> Hd]. by constructor.
Qed.

(** ** Histories *)

Definition log_bytes w : option (list N) := (λ wl, la_file (wal_file wl)) <$> en_wal (wo_engine w).

(** A configuration with a data directory, and room for the replay. *)
Definition can_reopen config faults w : Prop := data_dir config = true ∧ restart_room norm config (wo_disk w) (log_bytes w) faults.

(** The disk of the next life of the engine fails where it may. *)
Definition with_faults (faults : list StepOutcome) w : World A B := mkWorld (wo_engine w) (wo_disk w) faults.

(** Opens of the directory that [w] left, by engines that were not put to use: an
    open that failed leaves the log as it was, an engine that came up, complete or
    not, leaves the log it opened. *)
Inductive tried w : World A B → Prop :=
  | tried_none : tried w w
  | tried_failed w1 config faults err w2 :
      tried w w1 → can_reopen config faults w1 → Open.open norm config (wo_disk w1) (log_bytes w1) faults = Some (Some err, w2) →
      err ≠ OpenGenerationsExhausted → tried w (mkWorld (wo_engine w1) (wo_disk w2) [])
  | tried_unused w1 config faults w2 :
      tried w w1 → can_reopen config faults w1 → Open.open norm config (wo_disk w1) (log_bytes w1) faults = Some (None, w2) → tried w w2.

(** An engine opened on an empty directory, and what happened to it since.  An
    engine with segments missing is not put to use. *)
Inductive history : list Event → World A B → Prop :=
  | opened config open_faults w faults :
      data_dir config = true → Open.open norm config (mkDisk None None ∅ ∅) None open_faults = Some (None, w) → history [] (with_faults faults w)
  | performed evs w r ok w' :
      history evs w → allowed w r → perform r w = Some (ok, w') → history (evs ++ [Performed r ok]) w'
  | batched evs w order queries tags ranks reply w' :
      history evs w → batch_allowed w order queries tags ranks → ingest order queries tags ranks w = Some (reply, w') →
      history (evs ++ [Batched queries tags reply]) w'
  | restarted evs w w1 config open_faults w' faults :
      history evs w → tried w w1 → can_reopen config open_faults w1 →
      Open.open norm config (wo_disk w1) (log_bytes w1) open_faults = Some (None, w') → came_back (wo_disk w1) w' →
      history (evs ++ [Restarted]) (with_faults faults w').

Lemma serves_faults faults w s : serves w s → serves (with_faults faults w) s.
Proof.
  intros (cut & (st & docss & log & Hi & El) & Ef). exists cut. split; [|done]. exists st, docss, log. split; [|done].
  eapply inv_calm; [|exact Hi]. by split.
Qed.

(** The documents and the log that can be recovered from what the engine left. *)
Definition recoverable w docss (log : list WalEntry) : Prop :=
  ∃ st log1 cut1, holds_docs norm w st docss ∧ log_ok norm w log1 cut1 ∧ log1 ++ landed cut1 = log.

Lemma recoverable_opens w docss log config faults :
  recoverable w docss log → can_reopen config faults w →
  ∃ opened r w', Open.open norm config (wo_disk w) (log_bytes w) faults = Some (r, w') ∧ restarts_as norm (wo_disk w) opened docss log faults r w' ∧
    (∀ err, opened = inl err → ∃ wl, en_wal (wo_engine w) = Some wl ∧ is_Some (la_refusal (wal_file wl))).
Proof using All.
  intros (st & log1 & cut1 & Hh & Hlog & <-) [Hdir Hroom]. destruct (lo_wal _ _ _ _ Hlog) as (wl & Ew & _).
  assert (log_bytes w = Some (la_file (wal_file wl))) as Eb by (unfold log_bytes; by rewrite Ew). rewrite Eb in *.
  destruct (directory_left norm w st docss log1 cut1 wl Hh Hlog Ew) as (opened & Eo & Hdy & Href).
  destruct (restart_spec _ _ Hnorm _ _ _ _ _ config faults Eo Hdy ltac:(done) Hdir Hroom) as (r & w' & E & Hr). exists opened, r, w'. split_and!; [done..|].
  intros err Ee. exists wl. split; [done|by eapply Href].
Qed.

Lemma recoverable_kept w k f docss log : kept (wo_disk w) k → recoverable w docss log → recoverable (mkWorld (wo_engine w) k f) docss log.
Proof.
  intros [Em Es] (st & log1 & cut1 & Hh & Hlog & E). assert (calm w (mkWorld (wo_engine w) k f)) as Hc by by split.
  exists st, log1, cut1. split_and!; [by eapply holds_docs_calm|eapply log_ok_same; [by apply same_log_calm|done]|done].
Qed.

Lemma tried_recoverable w w1 docss log : tried w w1 → recoverable w docss log → recoverable w1 docss log ∧ dk_manifest (wo_disk w1) = dk_manifest (wo_disk w).
Proof using All.
  intros Ht Hw. induction Ht as [|w1 config faults err w2 _ [IH Em] Hc E _|w1 config faults w2 _ [IH Em] Hc E]; [done|..];
    destruct (recoverable_opens w1 docss log config faults IH Hc) as (opened & r & w' & E' & [Hk Hr] & _); rewrite E in E'; injection E' as <- <-.
  - split; [by apply recoverable_kept|]. cbn. by rewrite (kp_manifest _ _ Hk).
  - destruct Hr as ([st Hh] & Hlog & _). split; [|by rewrite (kp_manifest _ _ Hk)]. exists st, log, None. split_and!; [done..|apply app_nil_r].
Qed.

(** What an open of the directory of an engine gives. *)
Definition reopens_as (s : Served) w1 (faults : list StepOutcome) (r : option OpenError) w' : Prop :=
  kept (wo_disk w1) (wo_disk w') ∧
  match r with
  | None => (came_back (wo_disk w1) w' → ∃ s', spec_step s Restarted s' ∧ serves w' s') ∧
      (¬ came_back (wo_disk w1) w' → reports_loss (wo_engine w') ∧ faulty faults) ∧ accepting (wo_engine w')
  | Some (OpenManifest | OpenUnsupportedSegment) => faulty faults
  | Some OpenLostLog => False
  | Some (OpenLog _) => ∃ wl, en_wal (wo_engine w1) = Some wl ∧ is_Some (la_refusal (wal_file wl))
  | Some OpenGenerationsExhausted => True
  end.

(** Restarting: the engine is back with its documents, or says why not. *)
Lemma reopen_spec w w1 s config faults :
  serves w s → tried w w1 → can_reopen config faults w1 →
  ∃ r w', Open.open norm config (wo_disk w1) (log_bytes w1) faults = Some (r, w') ∧ reopens_as s w1 faults r w'.
Proof using All.
  intros (cut & (st & docss & log & Hi & El) & Ef) Ht Hc. assert (recoverable w docss (log ++ landed cut)) as Hw by (exists st, log, cut; split_and!; [apply Hi..|done]).
  destruct (tried_recoverable _ _ _ _ Ht Hw) as [Hw1 Em].
  destruct (recoverable_opens _ _ _ config faults Hw1 Hc) as (opened & r & w' & E & [Hk Hr] & Href). exists r, w'. split; [done|]. split; [done|].
  destruct r as [[| | | |]|]; try done; [by eapply Href|]. destruct Hr as (_ & _ & Hacc & Hwhole & Hpart). split_and!; [|done|done]. intros Hb.
  assert (recovered (wo_disk w1) docss (log ++ landed cut) = recovered (wo_disk w) docss (log ++ landed cut)) as Er.
  { unfold recovered, manifest_sealed, manifest_watermark. by rewrite Em. }
  specialize (Hwhole Hb). rewrite Er in Hwhole. destruct s as [l doubt failed]. cbn in *. subst l failed.
  exists (mkServed (live (recovered (wo_disk w) docss (log ++ landed cut))) [] None). split; [constructor; by apply restarted_live|].
  exists None. split; [|done]. by eexists _, _, _.
Qed.

(** On a disk that does not fail, no segment is missing. *)
Lemma reopens_whole s w1 w' : reopens_as s w1 [] None w' → came_back (wo_disk w1) w'.
Proof.
  intros (_ & _ & Hn & _). unfold came_back in *. destruct (decide (length (en_segments (wo_engine w')) = length (manifest_files (wo_disk w1)))) as [E|E]; [done|].
  destruct (Hn E) as [_ Hf]. by apply Exists_nil in Hf.
Qed.

Lemma fresh_serves config faults w :
  data_dir config = true → Open.open norm config (mkDisk None None ∅ ∅) None faults = Some (None, w) → serves w (mkServed [] [] None).
Proof using All.
  intros Hdir E. destruct (open_empty_spec _ _ Hnorm config faults Hdir) as (w0 & E0 & Hi & _). rewrite E in E0. injection E0 as <-. exists None. split; [|done].
  by eexists _, _, _.
Qed.

Lemma history_serves evs w : history evs w → ∃ s, spec_steps (mkServed [] [] None) evs s ∧ serves w s.
Proof using All.
  induction 1 as [config open_faults w faults Hdir E|evs w r ok w' _ (s & Hsteps & Hs) Ha E|evs w order queries tags ranks reply w' _ (s & Hsteps & Hs) Ha E|
    evs w w1 config open_faults w' faults _ (s & Hsteps & Hs) Ht Hc E Hb].
  - exists (mkServed [] [] None). split; [constructor|]. by eapply serves_faults, fresh_serves.
  - destruct (wp_total _ _ _ (perform_spec w s r Hs Ha)) as (ok0 & w0 & E0 & s' & Hstep & Hs'). rewrite E in E0. injection E0 as <- <-.
    exists s'. split; [by econstructor|done].
  - destruct (wp_total _ _ _ (ingest_spec w s order queries tags ranks Hs Ha)) as (r0 & w0 & E0 & s' & Hstep & Hs'). rewrite E in E0. injection E0 as <- <-.
    exists s'. split; [by econstructor|done].
  - destruct (reopen_spec w w1 s config open_faults Hs Ht Hc) as (r & w0 & E0 & _ & Hr). rewrite E in E0. injection E0 as <- <-. destruct Hr as [Hr _].
    destruct (Hr Hb) as (s' & Hstep & Hs'). exists s'. split; [by econstructor|by apply serves_faults].
Qed.

End serving.
