(* ===== verification/Matching.v ===== *)
(** * Matching against an engine

    The read path of [segment/matching.rs]: an engine shows its segments, memtable
    and phrase capability as a view, and a title is matched against that.  What it
    returns is the answer of the documents the engine serves. *)

From S2P Require Import Prelude Util Text Dsl Dictionary Wal Sources Index Phrase Automaton Normalize Analyze Compile Plan Extract Meaning AliasWords Titles.
From S2P Require Import View Predicate Ownership Tags Store Collect Segment SegMatch Lifecycle Merge Snapshot Recompile Engine Compaction Ingest Open EngineLogic Documents.
From S2P Require Import Durable Replay Layout Housekeeping Writes Restart Serving.

(** ** The read path *)

Section reads.
Context {A B : Type} `{Daachorse A} `{Roaring B}.

Definition has_phrase_predicates (e : Engine A B) : bool := negb (en_live_phrase_segments e =? 0)%nat.

(** The [MatchView] that the methods of an engine build. *)
Definition engine_view (e : Engine A B) (pred : TagPredicate) : MatchView A B :=
  mkMatchView (en_norm e) (en_dict e) (base_seg <$> en_segments e) (en_memtable e) (has_phrase_predicates e) (tag_segment_skipping (en_config e)) pred.

Definition match_title_filtered (e : Engine A B) (title : rstring) (s : MatchScratch) (out : list N) (include_broad : bool) (pred : TagPredicate) :
  option (MatchScratch * list N * option MatchStats) :=
  match_title (engine_view e pred) title s out include_broad mkNoDeadline.

Definition engine_match_title (e : Engine A B) (title : rstring) (s : MatchScratch) (out : list N) (include_broad : bool) :
  option (MatchScratch * list N * option MatchStats) :=
  match_title_filtered e title s out include_broad tag_empty.

Definition diagnostic_candidate_hit (e : Engine A B) (logical : N) (title : rstring) (s : MatchScratch) (include_broad : bool) :
  option (MatchScratch * option bool) :=
  candidate_hit (engine_view e tag_empty) title logical s include_broad mkNoDeadline.

End reads.

(** ** What a document says of a title *)

Section documents.
Context `{Analyzer}.

(** The text of the document holds of the title. *)
Definition doc_holds (d : Dict) (view : TitleView) (x : Doc) : bool :=
  match parse_for_recovery (doc_text x) with Some (inr ast) => query_holds d ast view | _ => false end.

(** Its required phrases occur in the title; the search for a phrase has a budget
    and accepts when that is spent. *)
Definition doc_found (d : Dict) (view : TitleView) (x : Doc) : Prop :=
  ∀ ast g, parse_for_recovery (doc_text x) = Some (inr ast) → g ∈ clause_graphs d false ast →
    ∃ pg, pos_graph view = Some pg ∧ phrase_occurs g (pg_positions pg) (pg_arcs pg).

Definition plain_tags (x : Doc) : Prop := Forall (λ kv : rstring * rstring, plain_key kv.1) (doc_tags x).

End documents.

(** ** Queries without phrases *)

Lemma plain_words ex : predicate_has_phrases (stored_words ex) = false → required_phrases ex = [] ∧ forbidden_phrases ex = [].
Proof.
  unfold stored_words. destruct (predicate_trivial ex) eqn:E.
  - intros _. unfold predicate_trivial in E. rewrite !andb_true_iff, !negb_true_iff in E. destruct E as (((((_ & _) & E1) & E2) & _) & _).
    by destruct (required_phrases ex), (forbidden_phrases ex).
  - unfold print_program, program_of, program_version. cbn. destruct (required_phrases ex), (forbidden_phrases ex); cbn; by intros [=].
Qed.

(** Such a query needs no positions. *)
Lemma plain_matches ex view view' :
  predicate_has_phrases (stored_words ex) = false → pos view = pos view' → neg view = neg view' → query_matches ex view = query_matches ex view'.
Proof.
  intros [E1 E2]%plain_words Ep En. unfold query_matches, compound_holds. by rewrite E1, E2, !phrases_hold_nil, Ep, En.
Qed.

(** Without live phrases a view without positions gives the answers of one with
    them, and leaves nothing undecided. *)
Lemma plain_answers view view' ib pred rows :
  Forall (λ q, phrased q = false) rows → pos view = pos view' → neg view = neg view' →
  answer view ib pred mkEmitAll rows = answer view' ib pred mkEmitAll rows ∧ decided view rows.
Proof.
  intros Hq Ep En. split.
  - unfold answer. f_equal. induction Hq as [|q rows Hq _ IH]; [done|]. rewrite !filter_cons, IH.
    assert (selected view ib pred mkEmitAll q = selected view' ib pred mkEmitAll q) as ->; [|done]. unfold selected, phrased in *.
    destruct (sq_live q); [|done]. cbn in *. by rewrite (plain_matches _ view view').
  - intros q Hin Hl _ g Hg. rewrite Forall_forall in Hq. specialize (Hq q Hin). unfold phrased in Hq. rewrite Hl in Hq. destruct (plain_words _ Hq) as [E _].
    rewrite E in Hg. by apply not_elem_of_nil in Hg.
Qed.

Section answers.
Context {A B : Type} `{DaachorseLaws A} `{RoaringLaws B} (norm : Normalizer A) (patterns : list rstring) (Hnorm : norm_wf norm patterns).
Context (Haw : ∀ aw, alias_words norm = Some aw → alias_words_wf aw).
Implicit Types (w : World A B) (st : State).

#[local] Instance norm_analyzer_answers : Analyzer := normalizer_analyzer norm.
#[local] Instance norm_laws_answers : AnalyzerLaws := normalizer_laws norm patterns Hnorm.

Lemma engine_rows w st docss :
  holds_docs norm w st docss → ∃ abss absm, Forall2 (holds (en_dict (wo_engine w))) (base_seg <$> en_segments (wo_engine w)) abss ∧
    holds (en_dict (wo_engine w)) (en_memtable (wo_engine w)) absm ∧
    Forall2 (row_ok (en_dict (wo_engine w)) (en_tag_dict (wo_engine w))) (all_docs st) (all_of abss absm).
Proof.
  intros Hh. destruct (hd_engine _ _ _ _ Hh) as [_ _ _ Hs (absm & Hm & Hrm) _ _ _ _ _].
  assert (∃ abss, Forall2 (holds (en_dict (wo_engine w))) (base_seg <$> en_segments (wo_engine w)) abss ∧
    Forall2 (row_ok (en_dict (wo_engine w)) (en_tag_dict (wo_engine w))) (mjoin (st_segments st)) (mjoin abss)) as (abss & Ha & Hr).
  { induction Hs as [|b docs segs dss (abs & Hb & Hrows) _ (abss & Ha & Hr)]; [by exists []|]. exists (abs :: abss). split; [by constructor|by apply Forall2_app]. }
  exists abss, absm. split_and!; [done..|]. by apply Forall2_app.
Qed.

Lemma dict_partition d : dict_ok d → names_partition d.
Proof. intros [_ _ E _] n class En. unfold equivalent_names in En. by rewrite E in En. Qed.

Lemma view_ok w st docss pred abss absm :
  holds_docs norm w st docss → tag_wf pred → Forall2 (holds (en_dict (wo_engine w))) (base_seg <$> en_segments (wo_engine w)) abss →
  holds (en_dict (wo_engine w)) (en_memtable (wo_engine w)) absm → snapshot_ok (engine_view (wo_engine w) pred) abss absm.
Proof using All.
  intros Hh Hp Ha Hm. destruct (hd_engine _ _ _ _ Hh) as [En Hd _ _ _ _ _ _ _ _]. split; cbn; try done.
  - apply Hd.
  - by apply dict_partition.
  - rewrite En. by exists patterns.
  - by rewrite En.
Qed.

(** What a match returns, for the rows of the live documents. *)
Definition returns (e : Engine A B) (rows : list StoredQuery) (title : rstring) (s : MatchScratch) (out : list N) (ib : bool) (pred : TagPredicate) : Prop :=
  ∃ s' view alias ids stats, match_title_filtered e title s out ib pred = Some (s', ids, Some stats) ∧ scratch_ok s' ∧
    title_view_of norm (en_dict e) true title (ms_alias s) = Some (view, alias) ∧ StronglySorted rlt ids ∧
    ids ⊆ answer view ib pred mkEmitAll rows ∧ (decided view rows → ids = sort_dedup (answer view ib pred mkEmitAll rows)).

Lemma no_phrases_engine w abss absm :
  capable (wo_engine w) → has_phrase_predicates (wo_engine w) = false →
  Forall2 (holds (en_dict (wo_engine w))) (base_seg <$> en_segments (wo_engine w)) abss →
  holds (en_dict (wo_engine w)) (en_memtable (wo_engine w)) absm → Forall (λ q, phrased q = false) (all_of abss absm).
Proof.
  intros Hc Hf%negb_false_iff%Nat.eqb_eq Ha Hm. apply Hc, phrase_segments_none in Hf as [Hqm Hqs]. apply Forall_app.
  split; [|by apply (no_phrases_holds _ _ _ Hm)]. assert (Forall (λ seg, seg_has_phrases seg = false) (base_seg <$> en_segments (wo_engine w))) as Hqs' by by apply Forall_fmap.
  clear Hqs. revert Hqs'. induction Ha as [|seg abs segs abss Hh _ IH]; [constructor|].
  intros [Hq Hqs]%Forall_cons. apply Forall_app. split; [by apply (no_phrases_holds _ _ _ Hh)|by apply IH].
Qed.

Lemma match_served w st docss log cut doubt :
  inv norm w st docss log cut doubt → ∃ rows, Forall2 (row_ok (en_dict (wo_engine w)) (en_tag_dict (wo_engine w))) (live st) rows ∧
    ∀ title s out ib pred, scratch_ok s → short_text title → tag_wf pred → returns (wo_engine w) rows title s out ib pred.
Proof using All.
  intros Hi. pose proof (iv_docs _ _ _ _ _ _ _ Hi) as Hh. destruct (engine_rows _ _ _ Hh) as (abss & absm & Ha & Hm & Hr). exists (live_of (all_of abss absm)).
  split; [by apply live_rows|]. intros title s out ib pred Hs Hshort Hp. pose proof (view_ok _ _ _ _ _ _ Hh Hp Ha Hm) as Hv.
  pose proof (hd_engine _ _ _ _ Hh) as [En Hd _ _ _ _ _ _ _ _].
  destruct (match_title_spec (engine_view (wo_engine w) pred) abss absm Hv ib mkEmitAll title s out Hs) as (s' & view & alias & ids & stats & E & Hs' & Ev & Hsort & _ & Hsub & Hall);
    [cbn; by rewrite En|by intros q _; eexists|]. cbn [mv_norm mv_dict mv_has_phrases mv_pred engine_view] in *. rewrite En in Ev.
  destruct (title_view_of_spec norm patterns Hnorm (en_dict (wo_engine w)) Haw (dict_partition _ Hd) true title (ms_alias s)) as (view' & alias' & Ev' & _);
    [apply Hs|done|]. assert (answer view ib pred mkEmitAll (all_of abss absm) = answer view' ib pred mkEmitAll (all_of abss absm) ∧
    (decided view' (all_of abss absm) → decided view (all_of abss absm))) as [Ea Hdec].
  { destruct (has_phrase_predicates (wo_engine w)) eqn:Ef; [rewrite Ev in Ev'; by injection Ev' as <- _|].
    destruct (title_views_agree norm patterns Hnorm (en_dict (wo_engine w)) Haw (dict_partition _ Hd) _ _ _ _ _ _ (so_alias _ Hs) Hshort Ev Ev') as [Epos Eneg].
    destruct (plain_answers view view' ib pred (all_of abss absm)) as [? ?]; [|done..]. by eapply no_phrases_engine; [apply Hi|..]. }
  exists s', view', alias', ids, stats. rewrite answer_live, <-Ea. split_and!; try done. intros Hl. apply Hall, Hdec.
  intros q Hq Hlive. apply Hl; [|done]. by apply list_elem_of_filter.
Qed.

(** What a match with a tag filter returns, for the documents that are served. *)
Definition finds (e : Engine A B) (docs : list Doc) (title : rstring) (s : MatchScratch) (out : list N) (ib : bool) (request : list (rstring * list rstring)) : Prop :=
  let d := en_dict e in
  ∃ s' view alias ids stats, match_title_filtered e title s out ib (compile_tag_predicate (en_tag_dict e) request) = Some (s', ids, Some stats) ∧ scratch_ok s' ∧
    title_view_of norm d true title (ms_alias s) = Some (view, alias) ∧ StronglySorted rlt ids ∧
    (∀ id, id ∈ ids → ∃ x, x ∈ docs ∧ doc_logical x = id ∧ doc_holds d view x = true ∧ raw_accepts request (doc_tags x)) ∧
    (ib = true → (∀ x, x ∈ docs → doc_holds d view x = true → doc_found d view x) →
     ∀ x, x ∈ docs → doc_holds d view x = true → raw_accepts request (doc_tags x) → doc_logical x ∈ ids).

Lemma row_means d td x q view :
  dict_ok d → row_ok d td x q → query_matches (sq_query q) view = doc_holds d view x ∧ (doc_found d view x → phrases_found (sq_query q) view).
Proof.
  intros [Hwf Hr _ _] [_ _ _ _ (ast & Hp & d0 & d1 & Hc & Hpre)]. destruct (cm_holds _ _ _ _ Hc d Hwf Hr Hpre) as [Hm Hsub].
  unfold doc_holds. rewrite Hp. split; [apply Hm|]. intros Hf g Hg. eapply Hf; [done|by apply Hsub].
Qed.

Lemma documents_found w st docss log cut doubt :
  inv norm w st docss log cut doubt → Forall plain_tags (live st) → ∀ title s out ib request, scratch_ok s → short_text title → Forall (λ kv, plain_key kv.1) request →
  finds (wo_engine w) (live st) title s out ib request.
Proof using All.
  intros Hi Hplain title s out ib request Hs Hshort Hreq. destruct (match_served _ _ _ _ _ _ Hi) as (rows & Hrows & Hret).
  pose proof (hd_engine _ _ _ _ (iv_docs _ _ _ _ _ _ _ Hi)) as [_ Hd Htd _ _ _ _ _ _ _].
  destruct (Hret title s out ib (compile_tag_predicate (en_tag_dict (wo_engine w)) request)) as (s' & view & alias & ids & stats & E & Hs' & Ev & Hsort & Hsub & Hall);
    [done|done|apply tag_new_wf|]. exists s', view, alias, ids, stats. rewrite Forall_forall in Hplain.
  assert (∀ x q, x ∈ live st → row_ok (en_dict (wo_engine w)) (en_tag_dict (wo_engine w)) x q →
    tag_matches (compile_tag_predicate (en_tag_dict (wo_engine w)) request) (sq_tags q) = true ↔ raw_accepts request (doc_tags x)) as Htags.
  { intros x q Hx Hq. apply stored_filter; [done|apply Hq|by apply Hplain|done]. }
  split_and!; [done|done|done|done| |].
  - intros id Hin. apply Hsub in Hin. apply list_elem_of_fmap in Hin as (q & -> & [Hsel Hin]%list_elem_of_filter). apply list_elem_of_lookup in Hin as [i Hq].
    destruct (Forall2_lookup_r _ _ _ _ _ Hrows Hq) as (x & Hx & Hrow). apply list_elem_of_lookup_2 in Hx. exists x. pose proof (ro_logical _ _ _ _ Hrow).
    unfold selected in Hsel. rewrite !andb_true_iff in Hsel. destruct Hsel as ((((_ & _) & Hm) & Ht) & _).
    destruct (row_means _ _ _ _ view Hd Hrow) as [Em _]. rewrite Em in Hm. split_and!; [done|done|done|by eapply Htags].
  - intros -> Hdec x Hx Hh Hr. rewrite Hall.
    + apply elem_of_sort_dedup, list_elem_of_fmap. apply list_elem_of_lookup in Hx as Hl. destruct Hl as [i Hi']. destruct (Forall2_lookup_l _ _ _ _ _ Hrows Hi') as (q & Hq & Hrow).
      apply list_elem_of_lookup_2 in Hq. exists q. split; [by rewrite (ro_logical _ _ _ _ Hrow)|]. apply list_elem_of_filter. split; [|done].
      unfold selected. destruct (row_means _ _ _ _ view Hd Hrow) as [Em _]. rewrite Em, Hh. rewrite (proj2 (Htags x q Hx Hrow) Hr), (ro_placement _ _ _ _ Hrow).
      assert (doc_live x = true) as Hl by (apply list_elem_of_filter in Hx as [? _]; done). by rewrite (ro_live _ _ _ _ Hrow), Hl.
    + intros q Hq Hl Hm. apply list_elem_of_lookup in Hq as [i Hq]. destruct (Forall2_lookup_r _ _ _ _ _ Hrows Hq) as (y & Hy & Hrow). apply list_elem_of_lookup_2 in Hy.
      destruct (row_means _ _ _ _ view Hd Hrow) as [Em Hf]. apply Hf, Hdec; [done|by rewrite <-Em].
Qed.

End answers.
