(* ===== verification/Scenario.v ===== *)
(** * A history of an engine

    An engine opened on an empty directory, an insert, a flush, a batch, an upsert
    and a restart, evaluated: the instance at which the theorems about histories
    are applied. *)

From S2P Require Import Prelude Util Text Utf8 Dsl Dictionary FramedLog Wal Sources Index Phrase Automaton Normalize Builder Analyze Compile Plan Extract Meaning.
From S2P Require Import AliasWords Titles View Predicate Ownership Tags Store Collect Segment SegMatch Lifecycle Merge Snapshot Recompile Engine Compaction Ingest.
From S2P Require Import Open EngineLogic Documents Durable Replay Layout Housekeeping Writes Batches Restart Serving.

(** ** A history *)

Definition demo_config : EngineConfig :=
  mkEngineConfig 8 (f64_of_usize 1) 1000 false false false true true default_limits 16 (f64_of_usize 2) true 0 100 true false.

#[local] Abbreviation DemoWorld := (World (list rstring) (list N)).

Definition demo_disk : Disk (list N) := mkDisk None None ∅ ∅.

(** The world a computation leaves. *)
Definition after {X} (r : option (X * DemoWorld)) : DemoWorld :=
  match r with Some (_, w) => w | None => mkWorld (with_config demo_norm demo_config None) demo_disk [] end.

Definition demo_insert : Request := ReqInsert (str "wireless mouse") 7 1 [(str "kind", str "tool")] None.
Definition demo_upsert : Request := ReqUpsert (str "red bag") 7 2 [] None.
Definition demo_batch : list (N * rstring) := [(9, str "blue cup")].
Definition demo_order (d : Dict) : list N := sort_by_key (λ f, foldr N.max 0 (freqs d) - freq d f) (all_ids d).

Definition demo_opened : DemoWorld := with_faults [] (after (Open.open demo_norm demo_config demo_disk None [])).
Definition demo_inserted : DemoWorld := after (perform demo_insert demo_opened).
Definition demo_flushed : DemoWorld := after (perform ReqFlush demo_inserted).
Definition demo_ingested : DemoWorld := after (ingest demo_order demo_batch [] [] demo_flushed).
Definition demo_upserted : DemoWorld := after (perform demo_upsert demo_ingested).
Definition demo_restarted : DemoWorld := with_faults [] (after (Open.open demo_norm demo_config (wo_disk demo_upserted) (log_bytes demo_upserted) [])).

Definition demo_events : list Event :=
  [Performed demo_insert true; Performed ReqFlush true; Batched demo_batch [] (Some [Ingested ClassB]); Performed demo_upsert true].

Lemma after_ran {X} (r : option (X * DemoWorld)) x : fst <$> r = Some x → r = Some (x, after r).
Proof. destruct r as [[y w]|]; [|done]. by intros [= ->]. Qed.

Lemma demo_order_ok d : mask_order d (demo_order d).
Proof.
  split; [apply sort_by_key_perm|]. eapply StronglySorted_impl; [|apply sort_by_key_sorted]. intros f g _ _ Hle. unfold key_le in Hle.
  assert (∀ h, freq d h ≤ foldr N.max 0 (freqs d)) as Hmax; [|pose proof (Hmax f); pose proof (Hmax g); lia].
  clear Hle. intros h. unfold freq. destruct (freqs d !! usize h) as [x|] eqn:E; simpl; [|lia]. apply list_elem_of_lookup_2 in E.
  induction (freqs d) as [|y l IH]; [by apply not_elem_of_nil in E|]. apply elem_of_cons in E as [<-|E]; simpl; [lia|]. specialize (IH E). lia.
Qed.

Definition unquoted (ast : Ast) : bool := forallb (λ cl, match atom cl with Phrase _ => false | _ => true end) ast.

Lemma unquoted_ok P ast : unquoted ast = true → Forall (quoted_ok P) ast.
Proof. intros Hu. apply Forall_forall. intros cl Hcl. unfold unquoted in Hu. rewrite forallb_elem in Hu. specialize (Hu cl Hcl). unfold quoted_ok. by destruct (atom cl). Qed.

Lemma demo_put_room (w : DemoWorld) text tags ast ex :
  tag_room (en_tag_dict (wo_engine w)) (length tags) → parse_for_recovery text = Some (inr ast) →
  unquoted ast = true →
  fst <$> @extract (normalizer_analyzer demo_norm) ast (en_dict (wo_engine w)) = Some ex →
  (λ r : Acc * Dict, bool_decide (N.of_nat (length (names r.2)) < SYNTHETIC_BASE)) <$> extract_clauses (@interning (normalizer_analyzer demo_norm)) ast acc_new (en_dict (wo_engine w)) = Some true →
  store_room (en_memtable (wo_engine w)) ex (intern_tags tags (en_tag_dict (wo_engine w))).1 →
  put_room demo_norm (wo_engine w) text tags.
Proof.
  intros Ht Hp Hq Hex Hr Hs. split; [done|]. intros ast' E. rewrite Hp in E. injection E as <-. split_and!; [by apply unquoted_ok| |].
  - intros acc d1 E. unfold norm_analyzer_writes in E. rewrite E in Hr. by injection Hr as Hr%bool_decide_eq_true.
  - intros ex' d' E. unfold norm_analyzer_writes in E. rewrite E in Hex. by injection Hex as <-.
Qed.

Definition ast_of (text : rstring) : Ast := match parse_for_recovery text with Some (inr ast) => ast | _ => [] end.
Definition extracted_in (w : DemoWorld) (text : rstring) : Extracted :=
  default extracted_default (fst <$> @extract (normalizer_analyzer demo_norm) (ast_of text) (en_dict (wo_engine w))).

Definition merge_fits {B} (segs : list (Segment B)) : bool :=
  forallb (λ b, sum_N (λ src, store_size b (sg_exact src)) segs <=? U32_MAX) [BRows; BReq; BForb; BTable; BAnyof; BWords; BTags; BPositions].

Lemma merge_fits_room {B} (segs : list (Segment B)) : merge_fits segs = true → merge_room segs.
Proof. unfold merge_fits. rewrite forallb_elem. intros Hf b. apply N.leb_le, (Hf b). destruct b; set_solver. Qed.

(** The memtable after a put. *)
Definition put_in (w : DemoWorld) (text : rstring) (logical version : N) (tags : list (rstring * rstring)) (rank : option Z) :
  option (option AddedCompiled * Segment (list N)) :=
  '(ex, d) ← @extract (normalizer_analyzer demo_norm) (ast_of text) (en_dict (wo_engine w));
  let '(ids, td) := intern_tags tags (en_tag_dict (wo_engine w)) in
  add_compiled ex ids d logical version (default (legacy_rank_values td ids) rank) placement_standalone
    (N.max (en_next_source_generation (wo_engine w)) 1) (knobs_accepting true (en_config (wo_engine w))) (en_memtable (wo_engine w)).

Lemma demo_write_room (w : DemoWorld) text logical version tags rank :
  put_room demo_norm (wo_engine w) text tags →
  match put_in w text logical version tags rank with Some (_, seg) => merge_fits ((base_seg <$> en_segments (wo_engine w)) ++ [seg]) | None => true end = true →
  id_room w (2 * length (en_segments (wo_engine w)) + 6) → write_room demo_norm w text logical version tags rank.
Proof.
  intros Hput Hm Hids. split; [done| |done]. intros ast ex d' a seg Hp Hex Hadd. unfold put_in, ast_of in Hm. rewrite Hp in Hm.
  unfold norm_analyzer_writes in Hex. rewrite Hex in Hm. cbn [mbind option_bind] in Hm. destruct (intern_tags tags _) as [ids td]. cbn [fst snd] in Hadd. rewrite Hadd in Hm. by apply merge_fits_room.
Qed.

Ltac demo_put w text :=
  split; [by vm_compute|split; [split; [by vm_compute|by vm_compute|..|done]; unfold rstring_ok; apply (bool_decide_unpack _); by vm_compute|]];
  apply demo_write_room; [|by vm_compute|by vm_compute];
  apply (demo_put_room w _ _ (ast_of text) (extracted_in w text)); [by vm_compute..|]; split; [split|]; by vm_compute.

Lemma demo_insert_allowed : allowed demo_norm demo_opened demo_insert.
Proof. demo_put demo_opened (str "wireless mouse"). Qed.

Lemma demo_flush_allowed : allowed demo_norm demo_inserted ReqFlush.
Proof. split; [apply merge_fits_room|]; by vm_compute. Qed.

Lemma demo_upsert_allowed : allowed demo_norm demo_ingested demo_upsert.
Proof. demo_put demo_ingested (str "red bag"). Qed.

(** The stages of the batch. *)
Definition batch_sealed : DemoWorld := after (seal_before_first_mask demo_flushed).
Definition batch_passed : option (PassA * DemoWorld) := extract_batch 0 (mkPassA [] [] (mkIngestReport 0 0 0)) demo_batch batch_sealed.
Definition batch_masked : DemoWorld := after (finalize_dict demo_order (after batch_passed)).
Definition batch_item_of : nat * N * Extracted * rstring := (0%nat, 9, extracted_in batch_sealed (str "blue cup"), str "blue cup").

Lemma batch_passed_as pa w : batch_passed = Some (pa, w) → pa_extracted pa = [batch_item_of].
Proof.
  intros E. assert (pa_extracted <$> (fst <$> batch_passed) = Some [batch_item_of]) as E' by by vm_compute. rewrite E in E'. by injection E' as ->.
Qed.

Lemma store_room_epoch {B} `{Roaring B} epoch (seg : Segment B) ex ids : store_room seg ex ids → store_room (with_epoch epoch seg) ex ids.
Proof. by intros [[] ?]. Qed.

Lemma demo_batch_store : store_room (B:=list N) segment_new batch_item_of.1.2 [].
Proof. split; [split|]; by vm_compute. Qed.

Lemma demo_batch_merge : capacity (2 + length (en_segments (wo_engine (after (ingest_batch demo_order demo_batch [] [] demo_flushed)))))
  (after (ingest_batch demo_order demo_batch [] [] demo_flushed)).
Proof. split; [apply merge_fits_room|]; by vm_compute. Qed.

Lemma demo_batch_allowed : batch_allowed demo_norm demo_flushed demo_order demo_batch [] [].
Proof.
  split; [intros d _; apply demo_order_ok|by vm_compute|]. split.
  - by vm_compute.
  - intros w1 E. assert (w1 = batch_sealed) as -> by (unfold batch_sealed; by rewrite E). split; [|done]. intros ast Hp. cbn [snd] in Hp.
    assert (ast = ast_of (str "blue cup")) as -> by (unfold ast_of; by rewrite Hp). split; [apply unquoted_ok; by vm_compute|].
    intros acc d1 Ex. assert ((λ r : Acc * Dict, bool_decide (N.of_nat (length (names r.2)) < SYNTHETIC_BASE)) <$>
      extract_clauses (@interning (normalizer_analyzer demo_norm)) (ast_of (str "blue cup")) acc_new (en_dict (wo_engine batch_sealed)) = Some true) as Hr by by vm_compute.
    unfold norm_analyzer_batches in Ex. rewrite Ex in Hr. by injection Hr as Hr%bool_decide_eq_true.
  - intros w1 pa w2 w3 E1 E2 E3. assert (w1 = batch_sealed) as -> by (unfold batch_sealed; by rewrite E1). change (batch_passed = Some (pa, w2)) in E2.
    assert (w3 = batch_masked) as -> by (unfold batch_masked; rewrite E2; cbn [after]; by rewrite E3). rewrite (batch_passed_as _ _ E2). split; [by vm_compute|done].
  - intros w1 pa w2 w3 ids w4 E1 E2 E3 E4. assert (w1 = batch_sealed) as -> by (unfold batch_sealed; by rewrite E1). change (batch_passed = Some (pa, w2)) in E2.
    assert (w3 = batch_masked) as -> by (unfold batch_masked; rewrite E2; cbn [after]; by rewrite E3). rewrite (batch_passed_as _ _ E2) in *.
    assert (fst <$> intern_batch [] [batch_item_of] batch_masked = Some [Some []]) as Ei by by vm_compute. rewrite E4 in Ei. injection Ei as ->.
    split; [|done]. intros ids [= <-] _. apply store_room_epoch, demo_batch_store.
  - intros r w1 E. assert (w1 = after (ingest_batch demo_order demo_batch [] [] demo_flushed)) as -> by by rewrite E. apply demo_batch_merge.
Qed.

(** The replay of the log after the last request: an open up to the replay, and
    the entries it replays. *)
Definition committed_at (w : DemoWorld) (faults : list StepOutcome) : option ((OpenError + (Wal * N)) * DemoWorld) :=
  open_committed (log_bytes w) (mkWorld (with_config demo_norm demo_config None) (wo_disk w) faults).
Definition entries_at (w : DemoWorld) (faults : list StepOutcome) : list WalEntry :=
  match fst <$> committed_at w faults with
  | Some (inr (wal, _)) => match recover (la_file (wal_file wal)) with Some (inr found) => wr_entries found | _ => [] end
  | _ => []
  end.

Lemma demo_can_reopen_with w faults p :
  entries_at w faults = [WalUpsert p] → put_room demo_norm (wo_engine (replay_start (after (committed_at w faults)))) (wp_text p) (wp_tags p) →
  can_reopen demo_norm demo_config faults w.
Proof.
  intros Ep Hroom. split; [done|]. intros wal watermark w0 found E Ef. change (committed_at w faults = Some (inr (wal, watermark), w0)) in E.
  assert (wr_entries found = [WalUpsert p]) as -> by (rewrite <-Ep; unfold entries_at; rewrite E; cbn; by rewrite Ef).
  intros before x rest w' Ex Er. destruct before as [|? [|? ?]]; [|done..]. injection Ex as <- _. injection Er as <-. cbn [entry_room].
  assert (w0 = after (committed_at w faults)) as -> by by rewrite E. done.
Qed.

Definition replayed_put (w : DemoWorld) (faults : list StepOutcome) : WalPut :=
  match entries_at w faults with [WalUpsert p] => p | _ => mkWalPut 0 0 0 [] [] None None false end.

(** With one upsert of the query in the log, and room for it. *)
Ltac demo_reopens_at w faults :=
  apply (demo_can_reopen_with w faults (replayed_put w faults)); [by vm_compute|];
  apply (demo_put_room (replay_start (after (committed_at w faults))) _ _ (ast_of (str "red bag")) (extracted_in (replay_start (after (committed_at w faults))) (str "red bag")));
  [by vm_compute..|]; split; [split|]; by vm_compute.

Lemma demo_can_reopen : can_reopen demo_norm demo_config [] demo_upserted.
Proof. demo_reopens_at demo_upserted (@nil StepOutcome). Qed.

(** An open that skips the first of the two segments. *)
Definition demo_skipping : list StepOutcome := [Fine; Fault 0].

Lemma demo_skipping_room : can_reopen demo_norm demo_config demo_skipping demo_upserted.
Proof. demo_reopens_at demo_upserted demo_skipping. Qed.

(** An open that cannot publish the manifest, one that skips a segment and is not
    put to use, and one that fails to load the sources. *)
Definition demo_unpublished : option (option OpenError * DemoWorld) :=
  Open.open demo_norm demo_config (wo_disk demo_upserted) (log_bytes demo_upserted) [Fault 0].
Definition demo_left : DemoWorld := mkWorld (wo_engine demo_upserted) (wo_disk (after demo_unpublished)) [].
Definition demo_retried : DemoWorld := after (Open.open demo_norm demo_config (wo_disk demo_left) (log_bytes demo_left) demo_skipping).
Definition demo_faults : list StepOutcome := [Fine; Fine; Fine; Fault 0].

Lemma demo_fails : demo_unpublished = Some (Some OpenManifest, after demo_unpublished).
Proof. apply after_ran. by vm_compute. Qed.

Lemma demo_fails_room : can_reopen demo_norm demo_config [Fault 0] demo_upserted.
Proof.
  split; [done|]. intros wal watermark w0 found E. assert (fst <$> committed_at demo_upserted [Fault 0] = Some (inl OpenManifest)) as E' by by vm_compute.
  unfold committed_at in E'. by rewrite E in E'.
Qed.

Lemma demo_left_room : can_reopen demo_norm demo_config demo_skipping demo_left.
Proof. demo_reopens_at demo_left demo_skipping. Qed.

Lemma demo_retries : Open.open demo_norm demo_config (wo_disk demo_left) (log_bytes demo_left) demo_skipping = Some (None, demo_retried).
Proof. unfold demo_retried. apply after_ran. by vm_compute. Qed.

Lemma demo_tried : tried demo_norm demo_upserted demo_retried.
Proof.
  refine (tried_unused demo_norm demo_upserted demo_left demo_config demo_skipping demo_retried _ demo_left_room demo_retries).
  by refine (tried_failed demo_norm demo_upserted demo_upserted demo_config [Fault 0] OpenManifest (after demo_unpublished) (tried_none _ _) demo_fails_room demo_fails _).
Qed.

Lemma demo_retried_room : can_reopen demo_norm demo_config demo_faults demo_retried.
Proof. demo_reopens_at demo_retried demo_faults. Qed.

Lemma demo_opens : Open.open demo_norm demo_config demo_disk None [] = Some (None, after (Open.open demo_norm demo_config demo_disk None [])).
Proof. apply after_ran. by vm_compute. Qed.

Lemma demo_inserts : perform demo_insert demo_opened = Some (true, demo_inserted).
Proof. unfold demo_inserted. apply after_ran. by vm_compute. Qed.

Lemma demo_flushes : perform ReqFlush demo_inserted = Some (true, demo_flushed).
Proof. unfold demo_flushed. apply after_ran. by vm_compute. Qed.

Lemma demo_ingests : ingest demo_order demo_batch [] [] demo_flushed = Some (Some [Ingested ClassB], demo_ingested).
Proof. unfold demo_ingested. apply after_ran. by vm_compute. Qed.

Lemma demo_upserts : perform demo_upsert demo_ingested = Some (true, demo_upserted).
Proof. unfold demo_upserted. apply after_ran. by vm_compute. Qed.

Lemma demo_reopens :
  Open.open demo_norm demo_config (wo_disk demo_upserted) (log_bytes demo_upserted) [] =
    Some (None, after (Open.open demo_norm demo_config (wo_disk demo_upserted) (log_bytes demo_upserted) [])).
Proof. apply after_ran. by vm_compute. Qed.

Lemma demo_flushed_served : history demo_norm [Performed demo_insert true; Performed ReqFlush true] demo_flushed.
Proof.
  assert (history demo_norm [] demo_opened) as H0 by exact (opened demo_norm demo_config [] _ [] eq_refl demo_opens).
  pose proof (performed demo_norm _ _ _ _ _ H0 demo_insert_allowed demo_inserts) as H1.
  exact (performed demo_norm _ _ _ _ _ H1 demo_flush_allowed demo_flushes).
Qed.

Lemma demo_served : history demo_norm demo_events demo_upserted.
Proof.
  pose proof (batched demo_norm _ _ _ _ _ _ _ _ demo_flushed_served demo_batch_allowed demo_ingests) as H3.
  exact (performed demo_norm _ _ _ _ _ H3 demo_upsert_allowed demo_upserts).
Qed.

(** The sequence numbers after the restart. *)
Lemma demo_numbers wl :
  en_wal (wo_engine (after (Open.open demo_norm demo_config (wo_disk demo_upserted) (log_bytes demo_upserted) []))) = Some wl → next_seq wl + 1 < 2 ^ 64.
Proof.
  intros E. assert (next_seq <$> en_wal (wo_engine (after (Open.open demo_norm demo_config (wo_disk demo_upserted) (log_bytes demo_upserted) []))) = Some 4) as E' by by vm_compute.
  rewrite E in E'. injection E' as ->. done.
Qed.
