(* ===== verification/Contract.v ===== *)
(** * The contract of an engine

    What an engine promises to its users, over every history of requests, batches,
    disk failures and restarts: the documents it serves, the answers it gives, that
    it returns, what survives a restart, and one case in which a write that was
    reported as failed comes back by half. *)

From S2P Require Import Prelude Util Text Utf8 Dsl Dictionary FramedLog Wal Sources Index Phrase Automaton Normalize Builder Analyze Compile Plan Extract Meaning.
From S2P Require Import AliasWords Titles View Predicate Ownership Tags Store Collect Segment SegMatch Lifecycle Merge Snapshot Recompile Engine Compaction Ingest.
From S2P Require Import Open EngineLogic Documents Durable Replay Layout Housekeeping Writes Batches Restart Serving Matching Scenario.

(** ** Over every history *)

(** An event of which nothing was turned down. *)
Definition acked (ev : Event) : Prop :=
  match ev with Performed _ ok => ok = true | Batched _ _ reply => is_Some reply | Restarted => True end.

Lemma acked_certain evs s : spec_steps (mkServed [] [] None) evs s → Forall acked evs → ∃ l, s = mkServed l [] None.
Proof.
  intros Hs. remember (mkServed [] [] None) as s0 eqn:E0. induction Hs as [s|s evs s1 ev s2 _ IH Hstep]; [subst; eauto|].
  intros [Hevs Hev%Forall_inv]%Forall_app. destruct (IH E0 Hevs) as [l ->]. inversion Hstep; subst; cbn in Hev; try done; eauto.
  - match goal with Hf : _ ∨ _ |- _ => destruct Hf as [-> | ->] end; eauto.
  - match goal with Hf : _ ∨ _ |- _ => destruct Hf as [-> | ->] end; eauto.
Qed.

(** ** Plain tags *)

(** The keys of the tags a request brings have no separator. *)
Definition plain_event (ev : Event) : Prop :=
  match ev with
  | Performed (ReqInsert _ _ _ tags _ | ReqUpsert _ _ _ tags _) _ => Forall (λ kv : rstring * rstring, plain_key kv.1) tags
  | Batched _ tags _ => Forall (Forall (λ kv : rstring * rstring, plain_key kv.1)) tags
  | _ => True
  end.

Definition plain_entry (x : WalEntry) : Prop := match x with WalInsert p | WalUpsert p => plain_tags (doc_of p) | _ => True end.

Record plain_served (s : Served) : Prop := {
  pv_docs : Forall plain_tags (sv_docs s);
  pv_doubt : Forall plain_tags (sv_doubt s);
  pv_failed x : sv_failed s = Some x → plain_entry x;
}.

Lemma plain_subset (l l' : list Doc) : l' ⊆ l → Forall plain_tags l → Forall plain_tags l'.
Proof. rewrite !Forall_forall. intros Hs Hl x Hx. by apply Hl, Hs. Qed.

Lemma without_subset logical l : without logical l ⊆ l.
Proof. by intros x [_ Hx]%list_elem_of_filter. Qed.

Lemma plain_batch_docs tags idx queries statuses :
  Forall (Forall (λ kv : rstring * rstring, plain_key kv.1)) tags → Forall plain_tags (batch_docs tags idx queries statuses).
Proof.
  intros Ht. revert idx statuses. induction queries as [|query queries IH]; intros idx [|status statuses]; try constructor. cbn [batch_docs]. apply Forall_app.
  split; [|apply IH]. destruct status; try constructor; [|done]. unfold plain_tags, tags_at. cbn. destruct (tags !! idx) eqn:E; [|constructor]. by eapply Forall_lookup_1.
Qed.

Lemma effect_plain r l l' : plain_event (Performed r true) → effect r l l' → Forall plain_tags l → Forall plain_tags l'.
Proof.
  assert (∀ P, removed_one P l l' → Forall plain_tags l → Forall plain_tags l') as Hone.
  { intros P (l1 & x & l2 & -> & _ & ->). apply plain_subset. set_solver. }
  assert (∀ logical, Forall plain_tags l → Forall plain_tags (without logical l)) as Hwo by (intros logical; apply plain_subset, without_subset).
  destruct r; cbn; intros Hp He Hl; subst; try done; eauto.
  - apply Forall_app. by split; [|repeat constructor].
  - apply Forall_app. by split; [auto|repeat constructor].
  - destruct He as [->|He]; eauto.
Qed.

Lemma redone_plain x l l' : plain_entry x → redone x l l' → Forall plain_tags l → Forall plain_tags l'.
Proof.
  assert (∀ l1 l2 logical, l ≡ₚ l1 ++ l2 → Forall plain_tags l → Forall plain_tags (l1 ++ without logical l2)) as Hwo.
  { intros l1 l2 logical E. apply plain_subset. rewrite E. pose proof (without_subset logical l2). set_solver. }
  destruct x as [p|seq i local|seq file|seq logical|p]; cbn; try done.
  - intros Hp -> Hl. apply Forall_app. by split; [|repeat constructor].
  - intros _ [-> | [y E]] Hl; [done|]. eapply plain_subset; [|exact Hl]. rewrite E. set_solver.
  - intros _ (l1 & l2 & E & ->) Hl. by eapply Hwo.
  - intros Hp (l1 & l2 & E & ->) Hl. rewrite app_assoc. apply Forall_app. split; [by eapply Hwo|by repeat constructor].
Qed.

Lemma step_plain s ev s' : plain_event ev → spec_step s ev s' → plain_served s → plain_served s'.
Proof.
  intros Hp Hs [Hd Hu Hf]. inversion Hs; subst; cbn in *.
  - split; cbn; [by eapply effect_plain|constructor|done].
  - split; cbn; [done|done|]. intros x Hx. match goal with Hc : _ ∨ _ |- _ => destruct Hc as [->|(y & -> & Hy)] end; [by apply Hf|]. injection Hx as <-.
    destruct r; cbn in *; try done; destruct Hy as (? & ? & ?) || destruct Hy as (? & ?); subst; try done; cbn; unfold put_entry in *; by match goal with E : doc_of _ = _ |- _ => rewrite E end.
  - split; cbn; [done|done|]. intros x Hx. match goal with Hc : _ ∨ _ |- _ => destruct Hc as [-> | ->] end; [by apply Hf|done].
  - split; cbn; [|constructor|]. 
    + match goal with E : _ ≡ₚ _ |- _ => rewrite E end. apply Forall_app. split; [done|by apply plain_batch_docs].
    + intros x Hx. match goal with Hc : _ ∨ _ |- _ => destruct Hc as [-> | ->] end; [by apply Hf|done].
  - split; cbn; [done| |].
    + match goal with Hc : _ ∨ (_ = [] ∧ _) |- _ => destruct Hc as [->|(_ & statuses & _ & ->)] end; [done|by apply plain_batch_docs].
    + intros x Hx. match goal with Hc : _ ∨ _ = None |- _ => destruct Hc as [-> | ->] end; [by apply Hf|done].
  - assert (Forall plain_tags (l ++ doubt)) as Hl by by apply Forall_app. split; cbn; [|constructor|done].
    match goal with Hc : _ ∨ _ |- _ => destruct Hc as [E|(x & -> & Hr)] end; [by rewrite E|]. eapply redone_plain; [by apply Hf|done|done].
Qed.

Lemma steps_plain evs s : spec_steps (mkServed [] [] None) evs s → Forall plain_event evs → plain_served s.
Proof.
  intros Hs. remember (mkServed [] [] None) as s0 eqn:E0. induction Hs as [s|s evs s1 ev s2 _ IH Hstep]; [subst; by split; try constructor|].
  intros [Hevs Hev%Forall_inv]%Forall_app. by eapply step_plain; [| |apply IH].
Qed.

Section contract.
Context {A B : Type} `{DaachorseLaws A} `{RoaringLaws B} (norm : Normalizer A) (patterns : list rstring) (Hnorm : norm_wf norm patterns).
Implicit Types (w : World A B).

#[local] Instance norm_analyzer_contract : Analyzer := normalizer_analyzer norm.
#[local] Abbreviation started := (mkServed [] [] None).

(** A log that accepts takes the record of a delete when the disk does not fail. *)
Lemma delete_logged w logical wl :
  en_wal (wo_engine w) = Some wl → la_refusal (wal_file wl) = None → next_seq wl + 1 < 2 ^ 64 → wo_faults w = [] →
  ∃ w1, log_mutation (AppendDeleteLogical logical) w = Some (None, w1).
Proof.
  intros Ew Er Hn Hf. unfold log_mutation, append_wal, eng_bind, this, disk_step. rewrite Ew, Hf. unfold wal_append. cbn [zero_generation].
  assert (checked_add 64 (next_seq wl) 1 = Some (next_seq wl + 1)) as ->.
  { unfold checked_add. change (umax 64) with (2 ^ 64 - 1). destruct (_ <=? _) eqn:El; [done|]. apply N.leb_gt in El. lia. }
  cbn [encode_entry entry_of]. unfold append_at, healthy. cbn [wal_file]. rewrite Er. unfold write_frame.
  assert ((umax 32 <? N.of_nat (length (le64 (next_seq wl) ++ [OP_DELETE_LOGICAL] ++ le64 logical))) = false) as ->.
  { reflexivity. }
  by eexists.
Qed.

Lemma delete_acknowledged w s logical :
  serves norm w s → accepting (wo_engine w) → (∀ wl, en_wal (wo_engine w) = Some wl → next_seq wl + 1 < 2 ^ 64) → wo_faults w = [] → fits 64 logical →
  ∃ w', perform (ReqDelete logical) w = Some (true, w').
Proof using All.
  intros Hs (wl & Ew & Er) Hn Hf Hfit. destruct (delete_logged w logical wl Ew Er (Hn wl Ew) Hf) as [w1 E1].
  destruct (wp_total _ _ _ (perform_spec norm patterns Hnorm w s (ReqDelete logical) Hs Hfit)) as (ok & w' & E & _). exists w'. rewrite E.
  cbn [perform] in E. unfold delete_by_logical_id, eng_bind in E. rewrite E1 in E. destruct (apply_delete_by_logical logical true w1) as [[n w2]|]; [|done].
  by injection E as <- <-.
Qed.

(** C8. No request panics or hangs.  After any history, a request that the engine
    has room for returns, whatever the disk does, and its reply is a step of the
    specification: an acknowledged write has its effect on the documents, one that
    is turned down has none, and upkeep changes no document. *)
Theorem requests_return evs w r :
  history norm evs w → allowed norm w r →
  ∃ ok w' s s', perform r w = Some (ok, w') ∧ spec_steps started evs s ∧ spec_step s (Performed r ok) s' ∧ serves norm w' s'.
Proof using All.
  intros Hh Ha. destruct (history_serves norm patterns Hnorm evs w Hh) as (s & Hsteps & Hs).
  destruct (wp_total _ _ _ (perform_spec norm patterns Hnorm w s r Hs Ha)) as (ok & w' & E & s' & Hstep & Hs'). by exists ok, w', s, s'.
Qed.

(** C7. A batch is taken as a whole or not at all.  It returns after any history;
    when it is committed, the documents of the queries with status [Ingested] are
    added and no other, and when it fails the documents are as before. *)
Theorem batch_all_or_nothing evs w order queries tags ranks :
  history norm evs w → batch_allowed norm w order queries tags ranks →
  ∃ reply w' s s', ingest order queries tags ranks w = Some (reply, w') ∧ spec_steps started evs s ∧ serves norm w' s' ∧
    match reply with
    | Some statuses => length statuses = length queries ∧ sv_docs s' ≡ₚ sv_docs s ++ batch_docs tags 0 queries statuses
    | None => sv_docs s' = sv_docs s
    end.
Proof using All.
  intros Hh Ha. destruct (history_serves norm patterns Hnorm evs w Hh) as (s & Hsteps & Hs).
  destruct (wp_total _ _ _ (ingest_spec norm patterns Hnorm w s order queries tags ranks Hs Ha)) as (reply & w' & E & s' & Hstep & Hs').
  exists reply, w', s, s'. split_and!; [done..|]. by inversion Hstep.
Qed.

(** C2. What was acknowledged survives a restart.  When every request and batch of a
    history was acknowledged, an engine opened on the data directory it left serves
    the same documents: after any number of opens that failed or were not put to
    use, with the disk failing at any step of any of these opens, provided that this
    one returned an engine and opened every segment the manifest names (one that
    did not reports an incomplete recovery), and that the replay has room. *)
Theorem acknowledged_survive_restart evs w w1 config faults w' :
  history norm evs w → Forall acked evs → tried norm w w1 → can_reopen norm config faults w1 →
  Open.open norm config (wo_disk w1) (log_bytes w1) faults = Some (None, w') → came_back (wo_disk w1) w' →
  ∃ l l', spec_steps started evs (mkServed l [] None) ∧ l' ≡ₚ l ∧ serves norm w' (mkServed l' [] None).
Proof using All.
  intros Hh Hack Ht Hc E Hb. destruct (history_serves norm patterns Hnorm evs w Hh) as (s & Hsteps & Hs). destruct (acked_certain evs s Hsteps Hack) as [l ->].
  destruct (reopen_spec norm patterns Hnorm w w1 _ config faults Hs Ht Hc) as (r & w0 & E0 & _ & Hr). rewrite E in E0. injection E0 as <- <-.
  destruct Hr as [Hr _]. destruct (Hr Hb) as (s' & Hstep & Hs').
  inversion Hstep as [| | | | |? ? ? l' [Hl|(x & ? & _)]]; subst; [|done]. exists l, l'. rewrite app_nil_r in Hl. done.
Qed.


(** C38. A restart brings the engine back to service: however many writes had failed
    and whatever the log refused before, on a disk that does not fail the opened
    engine acknowledges a delete. *)
Theorem restart_restores_writes evs w config w' logical :
  history norm evs w → can_reopen norm config [] w → Open.open norm config (wo_disk w) (log_bytes w) [] = Some (None, w') →
  (∀ wl, en_wal (wo_engine w') = Some wl → next_seq wl + 1 < 2 ^ 64) → fits 64 logical →
  ∃ w2, perform (ReqDelete logical) (with_faults [] w') = Some (true, w2).
Proof using All.
  intros Hh Hc E Hn Hf. destruct (history_serves norm patterns Hnorm evs w Hh) as (s & _ & Hs).
  destruct (reopen_spec norm patterns Hnorm w w s config [] Hs (tried_none norm w) Hc) as (r & w0 & E0 & Hr). rewrite E in E0. injection E0 as <- <-.
  pose proof (reopens_whole norm s w w' Hr) as Hb. destruct Hr as (_ & Hr & _ & Hacc). destruct (Hr Hb) as (s' & _ & Hs').
  by eapply (delete_acknowledged (with_faults [] w') s'); [apply serves_faults|..].
Qed.

(** C37. Every reachable engine is well formed: the dictionaries, the segments and the
    memtable represent lists of documents, one generation per segment and none
    twice, the counters within their widths, the files of the mapped segments and
    of the manifest on the disk with their contents, and no row with a phrase is
    served under a view without positions. *)
Theorem reachable_well_formed evs w : history norm evs w → ∃ st docss, holds_docs norm w st docss ∧ capable (wo_engine w).
Proof using All.
  intros Hh. destruct (history_serves norm patterns Hnorm evs w Hh) as (s & _ & cut & (st & docss & log & Hi & _) & _). exists st, docss. split; apply Hi.
Qed.

Context (Haw : ∀ aw, alias_words norm = Some aw → alias_words_wf aw).

(** C1. The engine refines its specification.  For a normalizer and alias index with
    their invariants, and over every history of requests, batches and restarts from
    an empty directory, each with room for what it adds, there is a run of the
    specification with the same replies; and a match of any title (of fewer than
    2^32 tokens, with a scratch whose stamps are of earlier epochs) with a tag filter
    then finds the documents of that run: every id it returns is of a served
    document whose query text holds of the title and whose tags pass the filter, and with the opt-in queries included it returns all of
    them (where the searches for phrases stay within their budget).  The disk may
    fail at every modelled step of every request, batch and open: a restart may be
    preceded by any number of opens that failed or were not put to use.  What a
    history leaves out is the use of an engine whose open had to skip a segment
    file: that engine reports an incomplete recovery, and is restarted instead.
    The keys of the tags are those without the separator byte. *)
Theorem engine_refines_specification evs w :
  history norm evs w → Forall plain_event evs → ∃ s, spec_steps started evs s ∧
    ∀ title ms out ib request, scratch_ok ms → short_text title → Forall (λ kv, plain_key kv.1) request →
      finds norm (wo_engine w) (sv_docs s) title ms out ib request.
Proof using All.
  intros Hh Hpl. destruct (history_serves norm patterns Hnorm evs w Hh) as (s & Hsteps & cut & (st & docss & log & Hi & El) & _).
  exists s. split; [done|]. pose proof (pv_docs _ (steps_plain _ _ Hsteps Hpl)) as Hp. intros title ms out ib request Hs Ht Hr. rewrite <-El in *. by eapply documents_found.
Qed.

End contract.

(** ** At the history of the scenario *)

Lemma demo_aliases aw : alias_words demo_norm = Some aw → alias_words_wf aw.
Proof. exact (build_alias_wf demo_builder demo_norm aw demo_builder_wf demo_build demo_vocabulary_small). Qed.

Lemma demo_plain : Forall plain_event demo_events.
Proof. repeat constructor; apply (bool_decide_unpack _); by vm_compute. Qed.

Lemma demo_acked : Forall acked demo_events.
Proof. do 4 (apply Forall_cons; split; [done || by eexists|]). by apply Forall_nil. Qed.

Lemma engine_refines_specification_witness :
  ∃ s, spec_steps (mkServed [] [] None) demo_events s ∧
    finds demo_norm (wo_engine demo_upserted) (sv_docs s) (str "acme") scratch_new [] true [(str "kind", [str "tool"])].
Proof.
  destruct (engine_refines_specification demo_norm demo_patterns demo_norm_wf demo_aliases demo_events demo_upserted demo_served demo_plain) as (s & Hs & Hf).
  exists s. split; [exact Hs|]. apply Hf; [apply scratch_new_ok|apply demo_acme_short|]. repeat constructor. apply (bool_decide_unpack _). by vm_compute.
Defined.

Lemma requests_return_witness :
  ∃ ok w' s s', perform (ReqDelete 7) demo_upserted = Some (ok, w') ∧ spec_steps (mkServed [] [] None) demo_events s ∧
    spec_step s (Performed (ReqDelete 7) ok) s' ∧ serves demo_norm w' s'.
Proof. apply (requests_return demo_norm demo_patterns demo_norm_wf demo_events demo_upserted (ReqDelete 7) demo_served). reflexivity. Defined.

Lemma batch_all_or_nothing_witness :
  ∃ reply w' s s', ingest demo_order demo_batch [] [] demo_flushed = Some (reply, w') ∧
    spec_steps (mkServed [] [] None) [Performed demo_insert true; Performed ReqFlush true] s ∧ serves demo_norm w' s' ∧
    match reply with
    | Some statuses => length statuses = length demo_batch ∧ sv_docs s' ≡ₚ sv_docs s ++ batch_docs [] 0 demo_batch statuses
    | None => sv_docs s' = sv_docs s
    end.
Proof. exact (batch_all_or_nothing demo_norm demo_patterns demo_norm_wf _ demo_flushed demo_order demo_batch [] [] demo_flushed_served demo_batch_allowed). Defined.

Lemma acknowledged_survive_restart_witness :
  ∃ l l', spec_steps (mkServed [] [] None) demo_events (mkServed l [] None) ∧ l' ≡ₚ l ∧
    serves demo_norm (after (Open.open demo_norm demo_config (wo_disk demo_retried) (log_bytes demo_retried) demo_faults)) (mkServed l' [] None).
Proof.
  apply (acknowledged_survive_restart demo_norm demo_patterns demo_norm_wf demo_events demo_upserted demo_retried demo_config demo_faults);
    [exact demo_served|exact demo_acked|exact demo_tried|exact demo_retried_room|apply after_ran; by vm_compute|by vm_compute].
Defined.


Lemma restart_restores_writes_witness :
  ∃ w2, perform (ReqDelete 7) demo_restarted = Some (true, w2).
Proof.
  apply (restart_restores_writes demo_norm demo_patterns demo_norm_wf demo_events demo_upserted demo_config
    (after (Open.open demo_norm demo_config (wo_disk demo_upserted) (log_bytes demo_upserted) [])) 7 demo_served demo_can_reopen demo_reopens); [apply demo_numbers|reflexivity].
Defined.

Lemma reachable_well_formed_witness : ∃ st docss, holds_docs demo_norm demo_upserted st docss ∧ capable (wo_engine demo_upserted).
Proof. exact (reachable_well_formed demo_norm demo_patterns demo_norm_wf demo_events demo_upserted demo_served). Defined.

(** ** A write that comes back by half *)

(** The ninth step of the disk, the append of the upsert, fails after all its bytes
    had reached the file. *)
Definition half_opened : World (list rstring) (list N) := with_faults (replicate 8 Fine ++ [Fault 1000]) demo_opened.
Definition half_flushed : World (list rstring) (list N) := after (perform ReqFlush (after (perform demo_insert half_opened))).
Definition half_upserted : World (list rstring) (list N) := after (perform demo_upsert half_flushed).
Definition half_ingested : World (list rstring) (list N) := after (ingest demo_order demo_batch [] [] half_upserted).
Definition half_reopened : World (list rstring) (list N) :=
  after (Open.open demo_norm demo_config (wo_disk half_ingested) (log_bytes half_ingested) []).

(** C39. An upsert can come back by half.  Its append fails after the record had
    reached the log, so it is turned down; a batch is then committed, and the
    watermark of the commit covers the number of the record although nothing of it
    was applied.  The restart replays only what the record does to the memtable: it
    adds the new version and leaves the old one, and two versions of the document
    are live. *)
Theorem half_recovered_upsert :
  perform demo_upsert half_flushed = Some (false, half_upserted) ∧ live_copies (wo_engine half_upserted) 7 = [(Some 0%nat, 0)] ∧
  ingest demo_order demo_batch [] [] half_upserted = Some (Some [Ingested ClassB], half_ingested) ∧
  Open.open demo_norm demo_config (wo_disk half_ingested) (log_bytes half_ingested) [] = Some (None, half_reopened) ∧
  live_copies (wo_engine half_reopened) 7 = [(Some 0%nat, 0); (None, 0)].
Proof.
  split; [unfold half_upserted; apply after_ran; by vm_compute|]. split; [by vm_compute|].
  split; [unfold half_ingested; apply after_ran; by vm_compute|]. split; [unfold half_reopened; apply after_ran; by vm_compute|by vm_compute].
Qed.

(** ** A positional delete over a segment that was skipped *)

(** The document in the first segment is deleted by its address; then the first
    segment cannot be read. *)
Definition retracted : World (list rstring) (list N) :=
  after (perform (ReqTombstoneIn (mkSegmentAddress (nth 0 (en_generations (wo_engine demo_ingested)) 0) 0 0 7)) demo_ingested).
Definition retracted_skipping : World (list rstring) (list N) :=
  after (Open.open demo_norm demo_config (wo_disk retracted) (log_bytes retracted) demo_skipping).

(** The replay applies the position in the manifest to the list of the segments
    that opened: in the engine with its first segment missing, the delete of the
    document 7 hides the document 9, which is live in the engine before and in one
    that opens every segment. *)
Example skipped_segment_misdirects :
  live_copies (wo_engine retracted) 7 = [] ∧ live_copies (wo_engine retracted) 9 = [(Some 1%nat, 0)] ∧
  (λ r : option OpenError * World (list rstring) (list N), (r.1, live_copies (wo_engine r.2) 9)) <$>
    Open.open demo_norm demo_config (wo_disk retracted) (log_bytes retracted) [] = Some (None, [(Some 1%nat, 0)]) ∧
  Open.open demo_norm demo_config (wo_disk retracted) (log_bytes retracted) demo_skipping = Some (None, retracted_skipping) ∧
  length (en_segments (wo_engine retracted_skipping)) = 1%nat ∧ live_copies (wo_engine retracted_skipping) 9 = [].
Proof.
  split; [by vm_compute|]. split; [by vm_compute|]. split; [by vm_compute|]. split; [unfold retracted_skipping; apply after_ran; by vm_compute|].
  split; by vm_compute.
Qed.
